(* ===== verification/_CoqProject ===== *)
-Q . S2P
Prelude.v
Runtime.v
Digits.v
Value.v
LongInt.v
LongIntDiv.v
LongIntProps.v
IntOps.v
IntPow.v
IntConv.v
IntText.v
IntProps.v
Bitop.v
HashTable.v
HashTableSpec.v
HashTableOps.v
MapObject.v
Keys.v
SetObject.v
MapProps.v
SetProps.v
Base64.v
Sort.v
Encodings.v
EncodingsSpec.v
EncodingProps.v
EightBit.v
EightBitProps.v
StrOps.v
StrMethods.v
StrSpec.v
StrSearch.v
StrMethodsSpec.v
StrProps.v
Tokens.v
SymTable.v
Lexer.v
TokensSpec.v
LexText.v
LexLiteral.v
LexNumber.v
LexSpec.v
LexerSpec.v
LexUnique.v
LexInit.v
StrRepr.v
LexerProps.v
StrTables.v
StrCase.v
ReDefs.v
ReMatch.v
ReSem.v
ReRun.v
ReStep.v
ReSound.v
ReMatches.v
ReProps.v
ReComp.v
ReParse.v
ReBuffer.v
ReBlind.v
ReEmit.v
ReChars.v
ReSets.v
ReShape.v
ReStart.v
ReItems.v
RePattern.v
RePlain.v
ReModule.v
RegExpProps.v
ArrayObj.v
ArraySpec.v
ArrayOps.v
ArrayCompare.v
ArrayProps.v
Output.v
OutputSpec.v
LineNumbers.v
Handlers.v
