(* ===== verification/Prelude.v ===== *)
(** * The Alore runtime library: a verification development

    Alore is a dynamically typed language; [src/src/] holds its compiler, byte
    code interpreter, garbage collector and the parts of its standard library
    that are written in C.  This development models the part of the runtime
    that computes on values - integers of any size, strings, arrays, hash tables,
    sorting, text encodings and regular expressions - and the front of the
    compiler, the lexical analyzer with its symbol table, and proves them
    correct.  Of the compiler's back end it models the byte code generator, and
    of the interpreter the searches that read what the generator leaves behind
    the code of a function.

    ** Method

    Every definition is a translation of the C function it is named after.
    A function runs in the monad [M] of [Runtime] (an outcome and the state of
    the thread's allocator) or, if it changes an object, in the monad [SM S]
    of [Runtime], where [S] is the object.  The outcomes are a value, a raised
    exception, or [Fault]: an access outside the storage of a block, which C
    leaves undefined.  [returns m Q] says that [m] returns a value satisfying
    [Q], without an exception and without a fault, unless the allocator
    refuses a request; [raises m e] that it raises [e]; [spec], [sspec],
    [sreturns] and [sraises] are the general forms.  The theorems hold for
    every heap, for every content of fresh storage and for every request at
    which the allocator may refuse.

    Integers are [Z] with the wrap-around of their C types written out ([u8],
    [u32], [s64] below), for the 64-bit configuration: an [AValue] is a
    64-bit word with two tag bits, a long integer digit has 32 bits, a double
    digit 64.  Signed overflow, undefined in C, is modelled as wrap-around,
    which is what the supported compilers produce; where it matters, a theorem
    characterizes the operands for which it happens.

    ** Components

    - [Runtime]: exceptions, the allocator, the two monads, counted
      loops and the program logic.  A loop that C writes with a condition is a
      [Fixpoint] with fuel; running out of fuel is a fault, so that every
      [returns] theorem also says that the loop ends.
    - [Digits], [Value]: digit buffers and their value; tagged words, the
      header word of a block and the accessor macros ([value.h], [int.h],
      [mem.h]).
    - [LongInt], [LongIntDiv]: the sign and magnitude routines of
      [std_int_long.c]; [LongIntProps] states their correctness: exact
      results, in canonical representation ([int_repr]), with the operands for
      which the code deviates characterized ([sub_sign_defect],
      [negate_defect]).  Division is correct where [div_defined] holds; what
      it does otherwise, with a dividend of fewer digits or a short divisor of
      the other sign, is shown by examples ([division_defects]).
    - [IntOps], [IntPow], [IntConv], [IntText]: Int objects, that is tagged
      words promoted to long integers ([std_int.c], [strtonum.c], parts of
      [std_int_long.c] and [std_float.c]); [IntProps] states arithmetic,
      conversion, printing and parsing.
    - [Bitop]: [bitop_module.c] and its agreement with the bit
      operations of [Z] on two's complement numbers.
    - [HashTable], [HashTableSpec], [HashTableOps]: the
      open-addressing table that [std_map.c] and [set_module.c] share, over
      keys whose hash and equality are the class [MapKey]; [LawfulKey] is what
      a client has to prove of them.  [table_ok] is the representation
      invariant and [table_map] the finite map a table stands for.
    - [MapObject], [SetObject]: the methods of the two classes and
      their specification against [gmap]; [Keys]: integers and strings are
      lawful keys ([AStdHash] and [AIsEq] on values).  [MapProps] and
      [SetProps] lift this to sequences of operations: a Map (a Set) answers
      like a finite map (a finite set).
    - [Base64]: [base64_module.c]; the round trip, and the
      decoder accepts exactly the base64 texts.
    - [Sort]: [std_sort.c], with the default order and with a comparison
      function that may raise an exception: a sorted permutation, or a failure
      of the comparison of two items.
    - [Encodings], [EncodingsSpec], [EncodingProps]: the streaming UTF-8 and
      UTF-16 decoders of [encodings_module.c], which carry the bytes of an
      incomplete character from one call to the next, their encoders, and
      Latin-1.  [utf8_parse] is the grammar; decoding does not depend on how
      a text is cut into chunks.
    - [EightBit], [EightBitProps]: the 22 table-driven
      encodings of [encodings_tables.c], their expansion into a decoding table
      and a reverse hash table, and that the two are inverse to each other.
    - [StrOps], [StrSpec]: string objects - narrow, wide, or a reference into
      the block of another - and slices, concatenation, repetition, comparison
      and hashing of [std_str.c]; [represents] relates an object to its
      characters.  [StrMethods], [StrSearch], [StrMethodsSpec], [StrProps]:
      the methods of Str; [split_of] is the cutting of a text at the
      occurrences of another, which split, count and replace share.
    - [Tokens], [TokensSpec]: token lists as chains of blocks ([token.h],
      [lex.c]); [store_view] is the list of tokens a chain stands for.
    - [SymTable]: the symbol table of [symtable.c], which
      doubles as it fills; [symtab_ok] is its invariant.
    - [Lexer]: [ATokenize] and its parts, in the monad of the lexer's state;
      [LexInit] the tables of [AInitializeLexicalAnalyzer] and
      [AInitializeSymbolTable] and the entry [ATokenizeStr].  [LexText],
      [LexLiteral] and [LexNumber] describe line ends, string literals and
      numerals ([AStrToFloat]) by text; [LexSpec] composes them to the
      reference definition [lexed] of a token list, by the longest match, [LexerSpec] relates
      every branch of [ATokenize] to it, and [LexUnique] shows that it is
      unambiguous.  [StrRepr] is the quoted
      representation of a string ([AStrRepr]).  [LexerProps] states that the
      analyzer implements the reference, that the parser reads back what was
      stored, that symbols are interned, and that quoted strings read back.

    - [StrTables], [StrCase]: the case tables and character sets of
      [strtables.c] with their lookups, upper and lower of Str, and the
      functions of [string_module.c].
    - [ReDefs]: sets of characters as bits in words, and what the
      matcher and the compiler of regular expressions share ([re.h],
      [re_internal.h]): opcodes, flags, the compiled expression.
    - [ReMatch]: the matcher of [re_match.c] and [re_match_inc.c], a machine
      with a stack of alternatives.  [ReSem] gives the trees [re] of regular
      expressions, their code ([code_of]) and the list of their matches in the
      order of preference ([sem]); [ReRun], [ReStep] and [ReSound] show that the
      machine runs through that list, [ReMatches] that it lists the derivations
      of the relation [matches], and [ReProps] states what a search finds.
    - [ReComp]: the compiler of [re_comp.c], one pass that parses a pattern and
      emits code into a buffer that grows.  [ReParse] is the grammar of patterns:
      from characters to trees.  [ReBuffer] and [ReEmit] describe the buffer and
      the moves of code in it, [ReChars], [ReSets] and [ReItems] the parts of the
      pass against the grammar ([follows]), [ReShape] the trees that the grammar
      yields, [ReStart] the set of characters with which a match may start, and
      [RePattern] the whole pass.  The pass goes on behind an error: [ReBlind]
      shows that no function of it reads the error flag, and [RePlain] that it
      comes to its end on rejected patterns without brackets and braces.
    - [ReModule], [RegExpProps]: [re_module.c], from the pattern that a program
      gives to the match result that it gets.
    - [ArrayObj]: arrays, tuples and their iterators over a store of shared
      blocks ([std_array.c], [array.h]).  [ArraySpec] gives the lists that the
      store stands for and the effect of each operation on them, [ArrayOps] what
      the methods do to them, [ArrayCompare] the comparison of nested arrays
      ([compare_items]), and [ArrayProps] that a client sees lists, with an equality
      of items that may raise exceptions and look at the lists, as that of arrays.
    - [Output]: the byte code generator ([output.c], [output.h], [opcode.h],
      [opcodesize.c]): growing buffers for code, saved code, exception and
      debugging information, a stack of sections in them, one per function that is
      being compiled.  [OutputSpec] gives the lists that the buffers hold
      ([out_view]), the effect of every operation, and the sections as a stack of
      lists ([gen_step]); the buffers implement it.
    - [LineNumbers], [Handlers]: what [exception.c] reads behind the code of a
      function, against what the generator put there: the line of an instruction
      is that of the last instruction up to it that was given one, or an absolute
      line number in a long gap between two ([gap]), and the handler of an exception
      is the one that the nesting of the try statements says ([find_handler]), but
      that the code remembers one statement only whose blocks are passed over
      ([retries]).

    ** Bounds and fuel

    A long integer has at most [MAXDIGITS] digits, the number the header word
    can hold; theorems ask that results fit ([small]).  [correct_q] runs at
    most 4 times, as a normalized divisor makes the estimated digit at most 2
    too large; [norm_shift] at most 34 times on a 32-bit digit; the powers
    at most 200 steps for a 64-bit exponent.  [AAddInts] and [AMap_set] call
    themselves once, after a coercion and after a resize, which has the depth
    2.  A chain walk has the length of the table as fuel, which the theorem
    that the probe sequence visits every entry justifies; the reverse map of an
    8-bit encoding has 256 entries and one of them is empty; [QSort] and the
    loops over strings have the length of their data.  [ATokenize] runs at
    most once per character of its text, and its fuel is the length of the
    text plus one; texts and symbol counts are below 2^30.
    The matcher may take a number of steps that is exponential in the
    length of the string; its theorems say that some fuel is enough, for every
    content of the memory and every object that a pattern is compiled to.  The
    compiler runs with [2 * length + 2], and [parse_total] shows that the
    grammar does not run out of it.  Patterns have less than 65536 characters
    and their code less than 32768 words, which the compiler tests.
    The buffers of the generator grow without a bound; code of a function with
    try statements or line numbers has less than 2^28 words.  The words of saved
    code are the fuel of the loop that makes room for them, the distance between
    two line numbers that of the loop that emits it, and the length of the
    information that of the search for a handler, which [resumes] carries along.
    The capacity of a block is at most 2^58 items; the lists of an array client
    are shorter than 2^30, as find and count give a C int.

    ** What is abstracted

    The garbage collector moves blocks but does not change their content; the
    model refers to blocks by their content and the collector is invisible.
    [barrier] over-approximates the write barrier: it may fail for lack of
    memory whenever C could.  The hash and equality methods of user-defined
    keys are parameters that do not modify the table they are called from.
    In [Keys], [VOther] stands for the values that are neither numbers nor
    strings and whose hash and equality are the identity; instances, pairs
    and ranges, whose comparison calls back into the interpreter, are left
    out, and so are wide strings as keys.  In [Base64] the byte in front of a string's
    characters, which the decoder reads for a string of one character, is the
    parameter [hdr].  The methods of Str do not look at the result of
    [AWrapObject]; where that allocation is refused, the model ends the call
    with the exception it raised.  [AAppendArray] is the growth of the array
    it appends to.  The argument checks of [AExpectStr] are modelled where
    strings of both widths are ([Encodings]).

    The class [ItemOps] stands for what [std_array.c] asks of the items of an
    array and of other collections: their comparison, hash, length, access
    and iterators, which may run code of the interpreter and change the store.
    The theorems about find, in, index, count and remove ask that the equality
    of the items they compare ends and changes nothing, by returning or by raising
    an exception as a function of the lists of all arrays ([eqf], [comparable]);
    that of arrays satisfies this.  The theorem about the comparison of arrays asks
    the same of the comparisons of items that are not both arrays, those of pairs
    and instances included.  The items that extend takes one by one come from an
    array.

    A pointer into a source text is the rest of the text, and a token list a
    store of blocks, as the parser and the lexer share it.  A symbol is known
    by the order of its creation; its members that the parser fills in are
    not kept.  The constants of a module are numbered in the order of their
    creation: the slots [AAddConstGlobalValue] takes from the buckets of
    [globals.c] are left out.  [strtod] is a parameter.  Where a function of
    the lexer returns FALSE for lack of memory, the model ends with the
    exception MemoryError.

    Pointers into code, strings and the stack of the matcher are indices.  The
    two copies of the matcher, which re_match.c includes for narrow and wide
    strings, are one function with a parameter.  [AMatchRegExp] and the
    allocations of the compiler report the lack of memory by a special result
    or flag, for which the model ends with MemoryError; so it does where the
    growth of the code buffer is refused and C would go on behind it.  [behind]
    is what the memory holds behind that buffer, of which Insert reads up to
    two words.  The theorems about matching exclude the expressions on which the
    matcher deviates from its code ([supported]): the back references to groups
    8 and 9, those that are repeated as a loop, and case-insensitive repetitions
    in wide strings; those about compiling leave open repeat counts above 65535,
    which are cut to 16 bits ([PHuge]), and the flags for literal patterns and
    for anchors ([plain_flags]), which the re module does not pass.  A rejected
    pattern is shown to raise RegExpError where [no_fault] holds; the compiler may
    read behind the others, as behind an open bracket or brace at the end, and for
    these it is only shown that no expression is returned.

    Where a buffer of the byte code generator cannot grow, C notes the error and
    drops the word; the model ends with MemoryError.  An instruction pointer is
    the index of the instruction.  The search for a handler is given the types
    that the global variables of the except blocks hold, the superclasses of the
    exception, and whether its traceback could be created; it stores the exception
    in the local variable that it returns.

    ** Not modelled

    The parser, the byte code interpreter, the garbage collector and the formatting
    of strings are not modelled: they work in one pass over state that the whole
    program shares (symbols, frames, raw blocks), of which the library models the
    part the runtime sees, values and the allocator, and the operations by which
    the parser emits code.  Of the generator the instructions that the
    parser toggles and the peephole step of assignments are left out; of
    [exception.c] raising, the traceback and the unwinding of frames.  Input and output, threads, dynamic loading and the platform
    layers call the system and are left out, and so are the names of Unicode
    characters, the display of compiled expressions and the debugging aids.  Of
    the modelled files, [AFloatToLongInt], [RadixInt], the [_str] methods of
    Map, Set, Array and Tuple, the set-up of the constants of the encodings module, the
    function Main of the re module and [AFreeTokens], which only releases
    memory, are left out. *)

From stdpp Require Export base list numbers option.
From Stdlib Require Export ZArith Lia.

#[export] Set Default Proof Using "Type".
Open Scope Z_scope.

(** ** Machine words

    The configuration modelled is the 64-bit one: [AValue] is an unsigned
    64-bit word, [ASignedValue] its signed reading, a long integer digit is
    32 bits wide and a double digit 64 bits ([aconfig.h]). *)

Abbreviation BITS := 32 (only parsing).
Abbreviation BASE := 4294967296 (only parsing).
Abbreviation MASK := 4294967295 (only parsing).
Abbreviation W64 := 18446744073709551616 (only parsing).
Abbreviation H64 := 9223372036854775808 (only parsing).

(** Conversion of an integer to an unsigned C type (reduction modulo the
    width) and to a signed one (two's complement reading). *)
Definition u8 (x : Z) : Z := x mod 256.
Definition u16 (x : Z) : Z := x mod 65536.
Definition u32 (x : Z) : Z := x mod BASE.
Definition u64 (x : Z) : Z := x mod W64.
Definition s32 (x : Z) : Z := (x + 2147483648) mod BASE - 2147483648.
Definition s64 (x : Z) : Z := (x + H64) mod W64 - H64.

(** ** Arithmetic automation *)

(** [zsolve] is [lia] with division and remainder by constants expanded. *)
Ltac zsolve := Z.div_mod_to_equations; lia.
Ltac znia := Z.div_mod_to_equations; nia.

Lemma u32_small x : 0 <= x < BASE -> u32 x = x.
Proof. apply Z.mod_small. Qed.

Lemma u64_small x : 0 <= x < W64 -> u64 x = x.
Proof. apply Z.mod_small. Qed.

Lemma s64_small x : -H64 <= x < H64 -> s64 x = x.
Proof. intros. unfold s64. rewrite Z.mod_small; lia. Qed.

Lemma u32_range x : 0 <= u32 x < BASE.
Proof. unfold u32. zsolve. Qed.

Lemma u64_range x : 0 <= u64 x < W64.
Proof. unfold u64. zsolve. Qed.

Lemma s64_range x : -H64 <= s64 x < H64.
Proof. unfold s64. zsolve. Qed.

Lemma s64_u64 x : s64 (u64 x) = s64 x.
Proof. unfold s64, u64. zsolve. Qed.

Lemma u64_s64 x : u64 (s64 x) = u64 x.
Proof. unfold s64, u64. zsolve. Qed.

(** Masks and shifts as remainders and quotients. *)
Lemma land_mask32 x : Z.land x MASK = x mod BASE.
Proof. change MASK with (Z.ones 32). rewrite Z.land_ones by lia. done. Qed.

Lemma shiftr_bits x : Z.shiftr x BITS = x / BASE.
Proof. rewrite Z.shiftr_div_pow2 by lia. done. Qed.

Lemma shiftl_bits x : Z.shiftl x BITS = x * BASE.
Proof. rewrite Z.shiftl_mul_pow2 by lia. done. Qed.

(** A disjunction of disjoint bit fields is a sum. *)
Lemma lor_disjoint x y n :
  0 <= n -> 0 <= x < 2 ^ n -> (2 ^ n | y) -> Z.lor x y = x + y.
Proof.
  intros Hn Hx [k ->].
  rewrite Z.add_nocarry_lxor.
  - rewrite Z.lxor_lor; [done|]. apply Z.bits_inj'. intros i Hi.
    rewrite Z.land_spec, Z.bits_0.
    destruct (decide (i < n)).
    + rewrite Z.mul_pow2_bits_low by lia. apply andb_false_r.
    + rewrite <- (Z.mod_small x (2 ^ n)) by lia.
      rewrite Z.mod_pow2_bits_high by lia. done.
  - apply Z.bits_inj'. intros i Hi.
    rewrite Z.land_spec, Z.bits_0.
    destruct (decide (i < n)).
    + rewrite Z.mul_pow2_bits_low by lia. apply andb_false_r.
    + rewrite <- (Z.mod_small x (2 ^ n)) by lia.
      rewrite Z.mod_pow2_bits_high by lia. done.
Qed.

(** ** Bytes and bit fields *)

Definition byte (c : Z) : Prop := 0 <= c < 256.

Lemma shiftr_div x n : 0 <= n -> Z.shiftr x n = x / 2 ^ n.
Proof. apply Z.shiftr_div_pow2. Qed.

(** A high field shifted above a low field of [n] bits. *)
Lemma fields x y n : 0 <= n -> 0 <= y < 2 ^ n -> Z.lor (Z.shiftl x n) y = x * 2 ^ n + y.
Proof.
  intros Hn Hy. rewrite Z.shiftl_mul_pow2, Z.lor_comm by lia.
  rewrite (lor_disjoint y (x * 2 ^ n) n); [lia|done..|]. by exists x.
Qed.

Lemma low_bits x n : 0 <= n -> Z.land x (Z.ones n) = x mod 2 ^ n.
Proof. apply Z.land_ones. Qed.

Lemma u8_byte b : byte b -> u8 b = b.
Proof. unfold byte, u8. intros. apply Z.mod_small. lia. Qed.

(** ** Comparisons as booleans *)

(** [test b v] settles a comparison [b] of the goal: its value is [v]. *)
Tactic Notation "test" uconstr(b) constr(v) :=
  replace b with v by (symmetry;
    first [apply Z.ltb_lt | apply Z.ltb_ge | apply Z.leb_le | apply Z.leb_gt |
           rewrite Z.geb_leb; first [apply Z.leb_le | apply Z.leb_gt]]; lia).

Lemma in_bounds i n : 0 <= i < n -> (0 <=? i) && (i <? n) = true.
Proof. intros. apply andb_true_intro. split; [apply Z.leb_le|apply Z.ltb_lt]; lia. Qed.

Create Rewrite HintDb word.
#[export] Hint Rewrite land_mask32 shiftr_bits shiftl_bits : word.
