(* ===== verification/Runtime.v ===== *)
(** * Runtime: values, exceptions, the heap allocator and the effect monad

    The C functions modelled in this library take the current thread [t],
    allocate blocks on its heap and either return a value or raise an
    exception.  This file fixes the shape of those effects: the thread's
    allocator as a supply of blocks, the outcomes of a call, the monad that
    threads them, counted loops, and the program logic ([spec], [returns]) in
    which the theorems of the other files are stated. *)

From S2P Require Import Prelude.


(** ** Exceptions and outcomes *)

(** The exception classes that the modelled functions raise. *)
Inductive exn :=
  | EMemoryError
  | EArithmeticError
  | EValueError
  | ETypeError
  | EKeyError
  | EIndexError
  | EIoError
  | EDecodeError
  | EEncodeError
  | ERuntimeError
  | ERegExpError.

#[export] Instance exn_eq_dec : EqDecision exn.
Proof. solve_decision. Defined.

(** The outcome of a C function: a value, a raised exception, or a fault (an
    access outside the storage of a block, which C leaves undefined). *)
Inductive outcome (A : Type) :=
  | Ok (a : A)
  | Raise (e : exn)
  | Fault.
Arguments Ok {A} a.
Arguments Raise {A} e.
Arguments Fault {A}.

(** ** The thread and its allocator *)

(** What the program can observe of a heap block handed out by the allocator
    is the content its storage happens to have ([junk i] is the digit-sized
    cell [i] of the block).  The [n]-th request is refused when [heap n] is
    [None]: that is how exhaustion of the heap appears to the caller. *)
Definition storage := Z -> Z.

Record AThread := MkThread {
  heap : nat -> Z -> option storage;
  clock : nat
}.

(** A thread whose allocator never refuses a request. *)
Definition supplied (t : AThread) : Prop := forall n size, heap t n size <> None.

(** ** The monad *)

Definition M (A : Type) : Type := AThread -> outcome A * AThread.

#[export] Instance M_ret : MRet M := fun A a t => (Ok a, t).

#[export] Instance M_bind : MBind M := fun A B f m t =>
  match m t with
  | (Ok a, t') => f a t'
  | (Raise e, t') => (Raise e, t')
  | (Fault, t') => (Fault, t')
  end.

Definition raise {A} (e : exn) : M A := fun t => (Raise e, t).
Definition fault {A} : M A := fun t => (Fault, t).

(** [AAlloc(t, size)]: the next block of the supply, or [NULL], which every
    caller turns into a [MemoryError]. *)
Definition AAlloc (size : Z) : M storage := fun t =>
  match heap t (clock t) size with
  | Some junk => (Ok junk, MkThread (heap t) (S (clock t)))
  | None => (Raise EMemoryError, MkThread (heap t) (S (clock t)))
  end.

(** [AAllocTempStack(t, n)]: reserve [n] temporary slots; growing the
    temporary stack allocates. *)
Definition AAllocTempStack (n : Z) : M unit := AAlloc (8 * n) ≫= (fun _ => mret tt).

(** A store of a reference into an array ([AModifyObject_M]): the write barrier
    may have to extend the collector's list of references, which the allocator
    may refuse; then nothing is written. *)
Definition barrier : M unit := AAlloc 8 ≫= (fun _ => mret tt).

(** A loop [for (i = lo; i < hi; i++)] over a loop state. *)
Fixpoint for_count {S} (n : nat) (i : Z) (body : Z -> S -> M S) (s : S) : M S :=
  match n with
  | O => mret s
  | Datatypes.S n' => s' ← body i s; for_count n' (i + 1) body s'
  end.

Definition for_up {S} (lo hi : Z) (body : Z -> S -> M S) (s : S) : M S :=
  for_count (Z.to_nat (hi - lo)) lo body s.

(** A loop [for (i = hi; i >= lo; i--)]. *)
Definition for_down {S} (hi lo : Z) (body : Z -> S -> M S) (s : S) : M S :=
  for_count (Z.to_nat (hi - lo + 1)) 0 (fun k => body (hi - k)) s.

(** ** Program logic *)

(** [spec m Q]: on every thread, [m] ends with an outcome satisfying [Q], or
    with a [MemoryError] on a thread whose allocator refuses some request;
    the supply itself is never altered. *)
Definition spec {A} (m : M A) (Q : outcome A -> Prop) : Prop :=
  forall t, heap (snd (m t)) = heap t /\
    (Q (fst (m t)) \/ fst (m t) = Raise EMemoryError /\ ~ supplied t).

(** [returns m Q]: [m] returns a value satisfying [Q] (no exception, no
    fault), memory permitting. *)
Definition returns {A} (m : M A) (Q : A -> Prop) : Prop :=
  spec m (fun r => match r with Ok a => Q a | _ => False end).

(** [raises m e]: [m] raises [e], memory permitting. *)
Definition raises {A} (m : M A) (e : exn) : Prop :=
  spec m (fun r => r = Raise e).

(** [yields m r]: the outcome of [m] is [r], memory permitting. *)
Definition yields {A} (m : M A) (r : outcome A) : Prop := spec m (fun r' => r' = r).

(** [evals m v]: [m] returns exactly [v] without using the allocator. *)
Definition evals {A} (m : M A) (v : A) : Prop := forall t, m t = (Ok v, t).

(** The thread on which witnesses run: a supply that never refuses. *)
Definition thread0 : AThread := MkThread (fun _ _ => Some (fun _ => 0)) 0.
Definition run {A} (m : M A) : outcome A := fst (m thread0).

Lemma supplied_heap t t' : heap t' = heap t -> supplied t' <-> supplied t.
Proof. unfold supplied. by intros ->. Qed.

Lemma spec_mono {A} (m : M A) (Q Q' : outcome A -> Prop) :
  spec m Q -> (forall r, Q r -> Q' r) -> spec m Q'.
Proof. intros H HQ t. destruct (H t) as [? [?|?]]; eauto. Qed.

Lemma returns_mono {A} (m : M A) (Q Q' : A -> Prop) :
  returns m Q -> (forall a, Q a -> Q' a) -> returns m Q'.
Proof. intros H HQ. eapply spec_mono; [exact H|]. intros []; simpl; auto. Qed.

Lemma spec_ret {A} (a : A) (Q : outcome A -> Prop) : Q (Ok a) -> spec (mret a) Q.
Proof. intros H t. split; [done|]. by left. Qed.

Lemma returns_ret {A} (a : A) (Q : A -> Prop) : Q a -> returns (mret a) Q.
Proof. intros. by apply spec_ret. Qed.

Lemma spec_raise {A} e (Q : outcome A -> Prop) : Q (Raise e) -> spec (raise e) Q.
Proof. intros H t. split; [done|]. by left. Qed.

Lemma spec_bind {A B} (m : M A) (f : A -> M B) P (Q : outcome B -> Prop) :
  returns m P -> (forall a, P a -> spec (f a) Q) -> spec (m ≫= f) Q.
Proof.
  intros Hm Hf t. destruct (Hm t) as [Hh Hr].
  unfold mbind, M_bind. destruct (m t) as [[a|e|] t']; simpl in *.
  - destruct Hr as [Ha|[? _]]; [|done]. destruct (Hf a Ha t') as [Hh' Hr'].
    split; [congruence|]. destruct Hr' as [?|[? Hs]]; [by left|].
    right. split; [done|]. by rewrite (supplied_heap t t') in Hs.
  - destruct Hr as [[]|[He Hs]]. split; [done|]. right. split; [congruence|done].
  - destruct Hr as [[]|[? ?]]; done.
Qed.

Lemma returns_bind {A B} (m : M A) (f : A -> M B) P (Q : B -> Prop) :
  returns m P -> (forall a, P a -> returns (f a) Q) -> returns (m ≫= f) Q.
Proof. intros. by eapply spec_bind. Qed.

Lemma evals_bind {A B} (m : M A) (f : A -> M B) v w :
  evals m v -> evals (f v) w -> evals (m ≫= f) w.
Proof. intros H1 H2 t. unfold mbind, M_bind. rewrite H1. apply H2. Qed.

Lemma spec_bind_evals {A B} (m : M A) (f : A -> M B) v (Q : outcome B -> Prop) :
  evals m v -> spec (f v) Q -> spec (m ≫= f) Q.
Proof. intros H1 H2 t. unfold mbind, M_bind. rewrite H1. apply H2. Qed.

Lemma returns_bind_evals {A B} (m : M A) (f : A -> M B) v (Q : B -> Prop) :
  evals m v -> returns (f v) Q -> returns (m ≫= f) Q.
Proof. apply spec_bind_evals. Qed.

Lemma evals_ret {A} (a : A) : evals (mret a) a.
Proof. done. Qed.

Lemma evals_returns {A} (m : M A) v (Q : A -> Prop) : evals m v -> Q v -> returns m Q.
Proof. intros H HQ t. rewrite H. split; [done|]. by left. Qed.

Lemma AAlloc_spec size : returns (AAlloc size) (fun _ => True).
Proof.
  intros t. unfold AAlloc. destruct (heap t (clock t) size) eqn:E; simpl.
  - auto.
  - split; [done|]. right. split; [done|]. intros H. by apply (H (clock t) size).
Qed.

Lemma AAllocTempStack_spec n : returns (AAllocTempStack n) (fun _ => True).
Proof.
  eapply returns_bind; [apply AAlloc_spec|]. intros. by apply returns_ret.
Qed.

Lemma barrier_spec : returns barrier (fun _ => True).
Proof. eapply returns_bind; [apply AAlloc_spec|]. intros. by apply returns_ret. Qed.

(** The invariant rule of counted loops. *)
Lemma for_count_inv {S} (I : Z -> S -> Prop) body n i s :
  I i s ->
  (forall j s, i <= j < i + Z.of_nat n -> I j s -> returns (body j s) (I (j + 1))) ->
  returns (for_count n i body s) (I (i + Z.of_nat n)).
Proof.
  revert i s. induction n as [|n IH]; intros i s Hi Hb.
  - apply returns_ret. by rewrite Z.add_0_r.
  - eapply returns_bind; [apply Hb; [lia|done]|]. intros s' Hs'.
    replace (i + Z.of_nat (Datatypes.S n)) with ((i + 1) + Z.of_nat n) by lia.
    apply IH; [done|]. intros. apply Hb; [lia|done].
Qed.

Lemma for_up_inv {S} (I : Z -> S -> Prop) lo hi body s :
  lo <= hi -> I lo s ->
  (forall i s, lo <= i < hi -> I i s -> returns (body i s) (I (i + 1))) ->
  returns (for_up lo hi body s) (I hi).
Proof.
  intros Hle H0 Hb. unfold for_up.
  replace hi with (lo + Z.of_nat (Z.to_nat (hi - lo))) at 2 by lia.
  apply for_count_inv; [done|]. intros. apply Hb; [lia|done].
Qed.

Lemma for_down_inv {S} (I : Z -> S -> Prop) lo hi body s :
  lo <= hi + 1 -> I (hi + 1) s ->
  (forall i s, lo <= i <= hi -> I (i + 1) s -> returns (body i s) (I i)) ->
  returns (for_down hi lo body s) (I lo).
Proof.
  intros Hle H0 Hb. unfold for_down.
  eapply returns_mono.
  - apply (for_count_inv (fun k => I (hi + 1 - k))); [by rewrite Z.sub_0_r|].
    intros k s' Hk Hs'. replace (hi + 1 - (k + 1)) with (hi - k) by lia.
    apply Hb; [lia|]. by replace (hi - k + 1) with (hi + 1 - k) by lia.
  - simpl. intros s' Hs'. by replace lo with (hi + 1 - (0 + Z.of_nat (Z.to_nat (hi - lo + 1)))) by lia.
Qed.

Lemma returns_yields {A} (m : M A) (a : A) : returns m (fun a' => a' = a) -> yields m (Ok a).
Proof. intros H. eapply spec_mono; [exact H|]. by intros [?| |] ?; simplify_eq. Qed.

Lemma raises_bind {A B} (m : M A) (f : A -> M B) e : raises m e -> raises (m ≫= f) e.
Proof.
  intros H t. specialize (H t). unfold mbind, M_bind.
  destruct (m t) as [[a|e'|] t']; simpl in *; destruct H as [Hh [H|[H Hs]]]; simplify_eq; auto.
Qed.

(** * Functions that modify an object and may raise an exception

    Methods of container objects change the members of the object they are
    called on, and an exception leaves the object as the method had changed it
    so far.  [SM S] is the monad of such methods over an object of type [S];
    [sspec] and [sreturns] are its program logic, built on [spec] and
    [returns] of the thread monad. *)


Definition SM (S A : Type) : Type := S -> AThread -> outcome A * S * AThread.

#[export] Instance SM_ret S : MRet (SM S) := fun A a s t => (Ok a, s, t).

#[export] Instance SM_bind S : MBind (SM S) := fun A B f m s t =>
  match m s t with
  | (Ok a, s', t') => f a s' t'
  | (Raise e, s', t') => (Raise e, s', t')
  | (Fault, s', t') => (Fault, s', t')
  end.

(** A computation that does not touch the object. *)
Definition lift {S A} (m : M A) : SM S A := fun s t => let '(r, t') := m t in (r, s, t').
(** Reading and updating the object. *)
Definition get {S} : SM S S := fun s t => (Ok s, s, t).
Definition modify {S} (f : S -> S) : SM S unit := fun s t => (Ok tt, f s, t).

(** A loop [for (i = lo; i < lo + n; i++)]. *)
Fixpoint sfor {S} (n : nat) (i : Z) (body : Z -> SM S unit) : SM S unit :=
  match n with
  | O => mret tt
  | Datatypes.S n' => body i ≫= (fun _ => sfor n' (i + 1) body)
  end.

(** [sspec m s Q]: started on the object [s], [m] ends with an outcome and an
    object satisfying [Q], or with a [MemoryError] on a thread whose allocator
    refuses some request. *)
Definition sspec {S A} (m : SM S A) (s : S) (Q : outcome A -> S -> Prop) : Prop :=
  forall t, heap (m s t).2 = heap t /\
    (Q (m s t).1.1 (m s t).1.2 \/ (m s t).1.1 = Raise EMemoryError /\ ~ supplied t).

Definition sreturns {S A} (m : SM S A) (s : S) (Q : A -> S -> Prop) : Prop :=
  sspec m s (fun r s' => match r with Ok a => Q a s' | _ => False end).

(** The method raises [e] and leaves the object unchanged. *)
Definition sraises {S A} (m : SM S A) (s : S) (e : exn) : Prop :=
  sspec m s (fun r s' => r = Raise e /\ s' = s).

(** Running a method on the thread of the witnesses. *)
Definition srun {S A} (m : SM S A) (s : S) : outcome A * S := (m s thread0).1.

Section logic.
Context {S : Type}.

Lemma sspec_mono {A} (m : SM S A) s (Q Q' : outcome A -> S -> Prop) :
  sspec m s Q -> (forall r s', Q r s' -> Q' r s') -> sspec m s Q'.
Proof. intros H HQ t. destruct (H t) as [? [?|?]]; eauto. Qed.

Lemma sreturns_mono {A} (m : SM S A) s (Q Q' : A -> S -> Prop) :
  sreturns m s Q -> (forall a s', Q a s' -> Q' a s') -> sreturns m s Q'.
Proof. intros H HQ. eapply sspec_mono; [exact H|]. intros []; simpl; auto. Qed.

Lemma sspec_ret {A} (a : A) s (Q : outcome A -> S -> Prop) : Q (Ok a) s -> sspec (mret a) s Q.
Proof. intros H t. split; [done|]. by left. Qed.

Lemma sreturns_ret {A} (a : A) s (Q : A -> S -> Prop) : Q a s -> sreturns (mret a) s Q.
Proof. apply (sspec_ret a s (fun r s' => match r with Ok a => Q a s' | _ => False end)). Qed.

Lemma sspec_bind {A B} (m : SM S A) (f : A -> SM S B) s P Q :
  sreturns m s P -> (forall a s', P a s' -> sspec (f a) s' Q) -> sspec (m ≫= f) s Q.
Proof.
  intros Hm Hf t. destruct (Hm t) as [Hh Hr]. unfold mbind, SM_bind.
  destruct (m s t) as [[[a|e|] s'] t']; simpl in *.
  - destruct Hr as [Ha|[? _]]; [|done]. destruct (Hf a s' Ha t') as [Hh' Hr'].
    split; [congruence|]. destruct Hr' as [?|[? Hs]]; [by left|].
    right. split; [done|]. by rewrite (supplied_heap t t') in Hs.
  - destruct Hr as [[]|[He Hs]]. split; [done|]. right. split; [congruence|done].
  - destruct Hr as [[]|[? ?]]; done.
Qed.

Lemma sreturns_bind {A B} (m : SM S A) (f : A -> SM S B) s P (Q : B -> S -> Prop) :
  sreturns m s P -> (forall a s', P a s' -> sreturns (f a) s' Q) -> sreturns (m ≫= f) s Q.
Proof. intros. by eapply sspec_bind. Qed.

Lemma sspec_bind_assoc {A B C} (m : SM S A) (f : A -> SM S B) (g : B -> SM S C) s Q :
  sspec ((m ≫= f) ≫= g) s Q -> sspec (m ≫= (fun a => f a ≫= g)) s Q.
Proof.
  intros H t. specialize (H t). unfold mbind, SM_bind in *. by destruct (m s t) as [[[a|e|] s'] t'].
Qed.

Lemma sspec_bind_raise {A B} (m : SM S A) (f : A -> SM S B) s e :
  sspec m s (fun r _ => r = Raise e) -> sspec (m ≫= f) s (fun r _ => r = Raise e).
Proof.
  intros H t. specialize (H t). unfold mbind, SM_bind.
  destruct (m s t) as [[[a|e'|] s'] t']; simpl in *; destruct H as [Hh [H|[H Hs]]]; simplify_eq; auto.
Qed.

Lemma sspec_lift {A} (m : M A) (s : S) (Q : outcome A -> Prop) :
  spec m Q -> sspec (lift m) s (fun r s' => Q r /\ s' = s).
Proof. intros H t. specialize (H t). unfold lift. destruct (m t) as [r t']; simpl in *; destruct H as [Hh [H|H]]; auto. Qed.

Lemma sreturns_lift {A} (m : M A) (s : S) (Q : A -> Prop) :
  returns m Q -> sreturns (lift m) s (fun a s' => Q a /\ s' = s).
Proof.
  intros H t. specialize (H t). unfold lift. destruct (m t) as [[a|e|] t']; simpl in *;
    destruct H as [Hh [H|H]]; auto.
Qed.

Lemma sspec_lift_bind {A B} (m : M A) (f : A -> SM S B) s P Q :
  returns m P -> (forall a, P a -> sspec (f a) s Q) -> sspec (lift m ≫= f) s Q.
Proof. intros. eapply sspec_bind; [by apply sreturns_lift|]. intros a s' [? ->]. auto. Qed.

Lemma sreturns_lift_bind {A B} (m : M A) (f : A -> SM S B) s P (Q : B -> S -> Prop) :
  returns m P -> (forall a, P a -> sreturns (f a) s Q) -> sreturns (lift m ≫= f) s Q.
Proof. apply sspec_lift_bind. Qed.

Lemma sspec_get_bind {A} (f : S -> SM S A) s Q : sspec (f s) s Q -> sspec (get ≫= f) s Q.
Proof. done. Qed.

Lemma sspec_modify_bind {A} g (f : unit -> SM S A) s Q :
  sspec (f tt) (g s) Q -> sspec (modify g ≫= f) s Q.
Proof. done. Qed.

Lemma sreturns_get_bind {A} (f : S -> SM S A) s (Q : A -> S -> Prop) : sreturns (f s) s Q -> sreturns (get ≫= f) s Q.
Proof. done. Qed.

Lemma sreturns_modify_bind {A} g (f : unit -> SM S A) s (Q : A -> S -> Prop) :
  sreturns (f tt) (g s) Q -> sreturns (modify g ≫= f) s Q.
Proof. done. Qed.

Lemma sreturns_modify g s (Q : unit -> S -> Prop) : Q tt (g s) -> sreturns (modify g) s Q.
Proof. intros HQ t. split; [done|]. by left. Qed.

Lemma sraises_lift {A} e s : sraises (S := S) (lift (raise (A := A) e)) s e.
Proof. intros t. split; [done|]. by left. Qed.

(** On the thread of the witnesses, whose allocator refuses nothing. *)
Lemma sreturns_srun {A} (m : SM S A) s (Q : A -> S -> Prop) :
  sreturns m s Q -> exists a s', srun m s = (Ok a, s') /\ Q a s'.
Proof.
  intros Hm. destruct (Hm thread0) as [_ Hr]. unfold srun.
  assert (Hs : supplied thread0) by done.
  destruct (m s thread0) as [[[a|e|] s'] t']; simpl in *; destruct Hr as [Hr|[_ Hr]]; try done.
  by exists a, s'.
Qed.

(** The invariant rule of counted loops. *)
Lemma sfor_inv (I : Z -> S -> Prop) body n i s :
  I i s ->
  (forall j s', i <= j < i + Z.of_nat n -> I j s' ->
    sreturns (body j) s' (fun _ => I (j + 1))) ->
  sreturns (sfor n i body) s (fun _ => I (i + Z.of_nat n)).
Proof.
  revert i s. induction n as [|n IH]; intros i s Hi Hb.
  - apply sreturns_ret. by rewrite Z.add_0_r.
  - eapply sreturns_bind; [apply Hb; [lia|done]|]. intros u s' Hs'. simpl in Hs'.
    replace (i + Z.of_nat (Datatypes.S n)) with ((i + 1) + Z.of_nat n) by lia.
    apply IH; [done|]. intros. apply Hb; [lia|done].
Qed.

End logic.

(** A method of a second object, called for its result. *)
Definition observe {S A} (s : S) (c : SM S A) : M A :=
  fun t => let '(r, _, t') := c s t in (r, t').

Lemma observe_returns {S A} (s : S) (c : SM S A) (Q : A -> Prop) :
  sreturns c s (fun r _ => Q r) -> returns (observe s c) Q.
Proof. intros Hc t. specialize (Hc t). unfold observe. by destruct (c s t) as [[r s'] t']. Qed.
