(* ===== verification/Digits.v ===== *)
(** * Digits: little-endian sequences of 32-bit digits

    The value of a window of a digit buffer, and how it changes when one
    digit is written.  Every loop of the long integer routines is specified
    with [eval]. *)

From S2P Require Import Prelude.

(** Digit [i] of a buffer (0 past its end) and the buffer with digit [i]
    replaced. *)
Definition dg (l : list Z) (i : Z) : Z := nth (Z.to_nat i) l 0.
Definition upd (l : list Z) (i v : Z) : list Z := <[Z.to_nat i := v]> l.

(** [eval l off n] is the value of the [n] digits that start at [off]. *)
Fixpoint evaln (l : list Z) (off : Z) (n : nat) : Z :=
  match n with
  | O => 0
  | S n' => evaln l off n' + BASE ^ Z.of_nat n' * dg l (off + Z.of_nat n')
  end.
Definition eval (l : list Z) (off n : Z) : Z := evaln l off (Z.to_nat n).

Definition digit_ok (d : Z) : Prop := 0 <= d < BASE.
Definition digits_ok (l : list Z) : Prop := Forall digit_ok l.

Abbreviation zlen l := (Z.of_nat (length l)).

Lemma zlen_upd l i v : zlen (upd l i v) = zlen l.
Proof. unfold upd. by rewrite length_insert. Qed.

Lemma dg_upd_eq l i v : 0 <= i < zlen l -> dg (upd l i v) i = v.
Proof.
  intros. unfold dg, upd. apply nth_lookup_Some. apply list_lookup_insert_eq. lia.
Qed.

Lemma dg_upd_ne l i j v : 0 <= i -> 0 <= j -> i <> j -> dg (upd l i v) j = dg l j.
Proof.
  intros. unfold dg, upd. rewrite !nth_lookup, list_lookup_insert_ne by lia. done.
Qed.

Lemma dg_ok l i : digits_ok l -> digit_ok (dg l i).
Proof.
  intros H. unfold dg. rewrite nth_lookup.
  destruct (l !! Z.to_nat i) eqn:E; simpl; [|unfold digit_ok; lia].
  by apply (Forall_lookup_1 _ _ _ _ H E).
Qed.

Lemma digits_ok_upd l i v : digits_ok l -> digit_ok v -> digits_ok (upd l i v).
Proof. intros. by apply Forall_insert. Qed.

Lemma dg_take l i n : 0 <= i < n -> dg (take (Z.to_nat n) l) i = dg l i.
Proof. intros. unfold dg. rewrite !nth_lookup, lookup_take_lt by lia. done. Qed.

(** The cell behind a prefix of known length. *)
Lemma dg_at l x r : dg (l ++ x :: r) (zlen l) = x.
Proof. unfold dg. by rewrite Nat2Z.id, nth_middle. Qed.

Lemma upd_at l x r y : upd (l ++ x :: r) (zlen l) y = l ++ y :: r.
Proof. unfold upd. by rewrite Nat2Z.id, insert_app_r_alt, Nat.sub_diag by lia. Qed.

Lemma eval_0 l off : eval l off 0 = 0.
Proof. done. Qed.

Lemma eval_succ l off n :
  0 <= n -> eval l off (n + 1) = eval l off n + BASE ^ n * dg l (off + n).
Proof.
  intros. unfold eval. rewrite Z2Nat.inj_add, Nat.add_1_r by lia. simpl.
  by rewrite Z2Nat.id by lia.
Qed.

Lemma eval_1 l off : eval l off 1 = dg l off.
Proof.
  change 1 with (0 + 1). rewrite eval_succ, eval_0, Z.add_0_r by lia. lia.
Qed.

(** Natural induction on a non-negative integer bound. *)
Lemma Z_nat_ind (P : Z -> Prop) :
  P 0 -> (forall n, 0 <= n -> P n -> P (n + 1)) -> forall n, 0 <= n -> P n.
Proof. intros H0 HS. apply natlike_ind; [done|]. intros. by apply HS. Qed.

Lemma eval_ext l l' off off' n :
  (forall i, 0 <= i < n -> dg l (off + i) = dg l' (off' + i)) ->
  0 <= n -> eval l off n = eval l' off' n.
Proof.
  intros H Hn. revert n Hn H.
  refine (Z_nat_ind _ _ _); [done|]. intros n Hn IH H.
  rewrite !eval_succ, IH, H by (intros; try apply H; lia). done.
Qed.

Lemma eval_upd_out l off n i v :
  0 <= n -> 0 <= off -> 0 <= i -> i < off \/ off + n <= i ->
  eval (upd l i v) off n = eval l off n.
Proof. intros. apply eval_ext; [|done]. intros. apply dg_upd_ne; lia. Qed.

Lemma eval_bound l off n :
  digits_ok l -> 0 <= n -> 0 <= eval l off n < BASE ^ n.
Proof.
  intros Hl. revert n. refine (Z_nat_ind _ _ _); [done|].
  intros n Hn IH. rewrite eval_succ, Z.pow_add_r by lia.
  pose proof (dg_ok l (off + n) Hl) as Hd. unfold digit_ok in Hd. nia.
Qed.

Lemma eval_app l off n m :
  0 <= n -> 0 <= m ->
  eval l off (n + m) = eval l off n + BASE ^ n * eval l (off + n) m.
Proof.
  intros Hn. revert m. refine (Z_nat_ind _ _ _).
  - rewrite eval_0, Z.add_0_r. lia.
  - intros m Hm IH. rewrite Z.add_assoc, !eval_succ, IH, Z.pow_add_r by lia.
    rewrite (Z.add_assoc off). ring.
Qed.

(** The most significant digit, split off the window. *)
Lemma eval_pred l off n :
  0 < n -> eval l off n = eval l off (n - 1) + BASE ^ (n - 1) * dg l (off + n - 1).
Proof.
  intros. replace n with ((n - 1) + 1) at 1 by lia. rewrite eval_succ by lia.
  by rewrite Z.add_sub_assoc.
Qed.

(** The least significant digit, split off the window. *)
Lemma eval_low l off n :
  0 < n -> eval l off n = dg l off + BASE * eval l (off + 1) (n - 1).
Proof.
  intros. replace n with (1 + (n - 1)) at 1 by lia.
  rewrite eval_app, eval_1 by lia. lia.
Qed.

Lemma eval_top_lower l n :
  digits_ok l -> 0 < n -> dg l (n - 1) <> 0 -> BASE ^ (n - 1) <= eval l 0 n.
Proof.
  intros Hl Hn Hd. rewrite eval_pred by lia. rewrite Z.add_0_l.
  pose proof (eval_bound l 0 (n - 1) Hl ltac:(lia)).
  pose proof (dg_ok l (n - 1) Hl) as Hr. unfold digit_ok in Hr. nia.
Qed.

Lemma eval_zero_above l n m :
  0 <= n <= m -> (forall i, n <= i < m -> dg l i = 0) -> eval l 0 m = eval l 0 n.
Proof.
  intros Hnm H. replace m with (n + (m - n)) by lia. rewrite eval_app by lia.
  assert (forall k, 0 <= k -> n + k <= m -> eval l (0 + n) k = 0) as ->.
  - refine (Z_nat_ind _ _ _); [done|]. intros k Hk IH Hkm.
    rewrite eval_succ, IH, H by lia. lia.
  - lia.
  - lia.
  - lia.
Qed.

(** Windows with equal values have equal digits. *)
Lemma eval_inj l l' off off' n :
  digits_ok l -> digits_ok l' -> 0 <= n -> eval l off n = eval l' off' n ->
  forall i, 0 <= i < n -> dg l (off + i) = dg l' (off' + i).
Proof.
  intros Hl Hl'. revert n. refine (Z_nat_ind _ _ _); [lia|].
  intros n Hn IH Heq i Hi. rewrite !eval_succ in Heq by lia.
  pose proof (eval_bound l off n Hl Hn). pose proof (eval_bound l' off' n Hl' Hn).
  assert (dg l (off + n) = dg l' (off' + n)) by nia.
  destruct (decide (i = n)) as [->|]; [done|].
  apply IH; [nia|lia].
Qed.

Lemma BASE_pow_pos n : 0 <= n -> 0 < BASE ^ n.
Proof. intros. apply Z.pow_pos_nonneg; lia. Qed.

Lemma BASE_pow_succ n : 0 <= n -> BASE ^ (n + 1) = BASE ^ n * BASE.
Proof. intros. rewrite Z.pow_add_r by lia. done. Qed.
