(* ===== verification/Value.v ===== *)
(** * Value: the representation of Int objects

    [value.h], [int.h] and [mem.h]: tagged words, the header word of a long
    integer block (length, sign and generation flag packed together), the
    digit storage behind it, and the accessor macros. *)

From Stdlib Require Import SpecFloat.
From S2P Require Import Prelude Runtime Digits.

(** ** Long integer blocks *)

(** A long integer block: its header word and the digit cells of its storage
    (the block size is rounded up, so there may be more cells than digits). *)
Record ALongInt := MkLongInt {
  header : Z;
  elem : list Z
}.

(** A value: a tagged short integer word, a reference to a long integer
    block, a float, a narrow string (its bytes), or an object that is neither
    a number nor a string nor a class instance. *)
Inductive AValue :=
  | VInt (w : Z)
  | VLong (li : ALongInt)
  | VFloat (f : spec_float)
  | VStr (s : list Z)
  | VOther (id : Z).

Definition A_NEW_GEN_FLAG : Z := H64.
Definition A_MIN_BLOCK_SIZE : Z := 16.
Definition A_ALLOC_UNIT : Z := 8.
(** The result of a comparison of values that cannot be compared. *)
Definition A_CMP_FAIL : Z := 0x10000.

Definition A_SHORT_INT_MAX : Z := 2305843009213693951.
Definition A_SHORT_INT_MIN : Z := -2305843009213693952.

(** Rounded size of a block that holds [size] bytes. *)
Definition AGetBlockSize (size : Z) : Z :=
  if size <? A_MIN_BLOCK_SIZE then A_MIN_BLOCK_SIZE
  else Z.land (size + A_ALLOC_UNIT - 1) (Z.lnot (A_ALLOC_UNIT - 1)).

(** Bytes needed by a long integer of [n] digits: a header and the digits. *)
Definition AGetLongIntSize (n : Z) : Z := u64 (8 + u64 (n * 4)).

Definition AGetLongIntSign (li : ALongInt) : bool :=
  negb (Z.land (header li) 4 =? 0).

Definition AGetLongIntLen (li : ALongInt) : Z :=
  Z.shiftr (u64 (Z.land (header li) (Z.lnot A_NEW_GEN_FLAG) + 4)) 4.

(** Header words of a non-pointer block of [size] bytes in the new and in the
    old generation. *)
Definition AInitNonPointerBlock (size : Z) : Z :=
  Z.lor (Z.lor (u64 (Z.shiftl size 2)) 1) A_NEW_GEN_FLAG.
Definition AInitNonPointerBlockOld (size : Z) : Z :=
  Z.lor (u64 (Z.shiftl size 2)) 1.

Definition AInitLongIntBlock (numDigs : Z) (isNegative : bool) : Z :=
  AInitNonPointerBlock (u64 (u64 (numDigs * 4) - Z.b2z isNegative)).
Definition AInitLongIntBlockOld (numDigs : Z) (isNegative : bool) : Z :=
  AInitNonPointerBlockOld (u64 (u64 (numDigs * 4) - Z.b2z isNegative)).

Definition ASetLongIntSign (li : ALongInt) : ALongInt :=
  MkLongInt (u64 (header li - 4)) (elem li).

(** Access to [li->digit[i]].  Cell -1 is the upper half of the header word;
    any other index outside the storage is a fault. *)
Definition digit (li : ALongInt) (i : Z) : M Z :=
  if (0 <=? i) && (i <? zlen (elem li)) then mret (dg (elem li) i)
  else if i =? -1 then mret (Z.shiftr (header li) BITS)
  else fault.

Definition set_digit (li : ALongInt) (i v : Z) : M ALongInt :=
  if (0 <=? i) && (i <? zlen (elem li))
  then mret (MkLongInt (header li) (upd (elem li) i (u32 v)))
  else fault.

(** ** Tagged words *)

Definition AIntToValue (i : Z) : Z := u64 (Z.shiftl (u64 i) 2).
Definition AValueToInt (w : Z) : Z := Z.shiftr (s64 w) 2.
Definition AZero : Z := AIntToValue 0.

Definition AIsShortInt (v : AValue) : bool :=
  match v with VInt _ => true | _ => false end.
Definition AIsLongInt (v : AValue) : bool :=
  match v with VLong _ => true | _ => false end.
Definition AIsInt (v : AValue) : bool := AIsShortInt v || AIsLongInt v.

(** ** Representation predicates *)

(** Bound on the number of digits of the long integers considered. *)
Definition MAXDIGITS_sealed : { n : Z | n = 1073741824 }.
Proof. by eexists. Qed.
Definition MAXDIGITS : Z := proj1_sig MAXDIGITS_sealed.
Lemma MAXDIGITS_eq : MAXDIGITS = 1073741824.
Proof. exact (proj2_sig MAXDIGITS_sealed). Qed.

(** [li] is a block of [n] digits with sign [neg]; [gen] is its generation
    flag. *)
Definition header_of (n : Z) (neg gen : bool) : Z :=
  16 * n - 4 * Z.b2z neg + 1 + (if gen then H64 else 0).

Record li_block (li : ALongInt) (n : Z) (neg : bool) : Prop := {
  lb_len : 0 <= n < 2 * MAXDIGITS + 8;
  lb_neg : neg = true -> 0 < n;
  lb_header : exists gen, header li = header_of n neg gen;
  lb_elem : n <= zlen (elem li);
  lb_digits : digits_ok (elem li)
}.

(** The block carries the flag of the new generation; like every block, it has
    room for two digits. *)
Definition new_gen (li : ALongInt) : Prop := H64 <= header li /\ 2 <= zlen (elem li).

(** The magnitude of an [n]-digit block. *)
Definition li_abs (li : ALongInt) (n : Z) : Z := eval (elem li) 0 n.
Definition signed (neg : bool) (x : Z) : Z := if neg then - x else x.

(** [li] denotes [z] (leading zero digits allowed). *)
Definition li_repr (li : ALongInt) (z : Z) : Prop :=
  exists n neg, li_block li n neg /\ 0 < n <= MAXDIGITS /\ z = signed neg (li_abs li n).

(** A normalized long integer: no leading zero digit and out of the short
    range. *)
Definition short_range (z : Z) : Prop := A_SHORT_INT_MIN <= z <= A_SHORT_INT_MAX.

Definition li_norm (li : ALongInt) (z : Z) : Prop :=
  li_repr li z /\ ~ short_range z /\
  exists n, n = AGetLongIntLen li /\ dg (elem li) (n - 1) <> 0.

(** [v] is the Int object for [z]: a short integer exactly when [z] is in the
    short range, a normalized long integer otherwise. *)
Definition int_repr (v : AValue) (z : Z) : Prop :=
  match v with
  | VInt w => w = AIntToValue z /\ short_range z
  | VLong li => li_norm li z
  | _ => False
  end.

(** Magnitudes that fit into [MAXDIGITS] digits. *)
Definition small (z : Z) : Prop := Z.abs z < BASE ^ MAXDIGITS.

(** ** Properties of the macros *)

Lemma AIntToValue_range i : 0 <= AIntToValue i < W64.
Proof. apply u64_range. Qed.

Lemma AIntToValue_eq i : AIntToValue i = (4 * i) mod W64.
Proof. unfold AIntToValue, u64. rewrite Z.shiftl_mul_pow2 by lia. zsolve. Qed.

Lemma AValueToInt_eq w : AValueToInt w = s64 w / 4.
Proof. unfold AValueToInt. by rewrite Z.shiftr_div_pow2. Qed.

(** Untagging inverts tagging on the whole short range. *)
Lemma AValueToInt_tag z : short_range z -> AValueToInt (AIntToValue z) = z.
Proof.
  unfold short_range, A_SHORT_INT_MAX, A_SHORT_INT_MIN. intros.
  rewrite AValueToInt_eq, AIntToValue_eq. unfold s64. zsolve.
Qed.

Lemma AIntToValue_inj x y :
  short_range x -> short_range y -> AIntToValue x = AIntToValue y -> x = y.
Proof.
  intros Hx Hy E. rewrite <- (AValueToInt_tag x Hx), <- (AValueToInt_tag y Hy). by rewrite E.
Qed.

(** The signed reading of a tagged word is four times the integer. *)
Lemma s64_tag z : short_range z -> s64 (AIntToValue z) = 4 * z.
Proof.
  unfold short_range, A_SHORT_INT_MAX, A_SHORT_INT_MIN. intros.
  rewrite AIntToValue_eq. unfold s64. zsolve.
Qed.

Lemma AGetBlockSize_bounds size :
  0 <= size -> size <= AGetBlockSize size <= size + 16 /\ 16 <= AGetBlockSize size.
Proof.
  intros. unfold AGetBlockSize, A_MIN_BLOCK_SIZE, A_ALLOC_UNIT.
  destruct (Z.ltb_spec size 16); [lia|].
  assert (Z.land (size + 8 - 1) (Z.lnot (8 - 1)) = (size + 7) / 8 * 8) as ->; [|zsolve].
  replace (size + 8 - 1) with (size + 7) by lia.
  change (8 - 1) with (Z.ones 3). rewrite <- Z.ldiff_land.
  rewrite Z.ldiff_ones_r, Z.shiftr_div_pow2, Z.shiftl_mul_pow2 by lia. done.
Qed.

Lemma AGetLongIntSize_eq n : 0 <= n < 2 * MAXDIGITS + 8 -> AGetLongIntSize n = 8 + n * 4.
Proof.
  pose proof MAXDIGITS_eq. unfold AGetLongIntSize. intros.
  rewrite (u64_small (n * 4)), u64_small by lia. done.
Qed.

(** The generation flag and the block tag are disjoint from the size field. *)
Lemma block_header_old size :
  0 <= size < 1152921504606846976 -> AInitNonPointerBlockOld size = 4 * size + 1.
Proof.
  intros. unfold AInitNonPointerBlockOld. rewrite Z.shiftl_mul_pow2 by lia.
  change (2 ^ 2) with 4.
  rewrite u64_small by lia. rewrite Z.lor_comm.
  rewrite (lor_disjoint 1 _ 2); [lia|lia|lia|]. exists size. lia.
Qed.

Lemma block_header_new size :
  0 <= size < 1152921504606846976 -> AInitNonPointerBlock size = 4 * size + 1 + H64.
Proof.
  intros. change (AInitNonPointerBlock size) with
    (Z.lor (AInitNonPointerBlockOld size) H64).
  rewrite block_header_old by lia.
  apply (lor_disjoint _ _ 63); [lia|lia|]. by exists 1.
Qed.

Lemma AInitLongIntBlock_eq n neg :
  0 <= n < 2 * MAXDIGITS + 8 -> (neg = true -> 0 < n) ->
  AInitLongIntBlock n neg = header_of n neg true /\
  AInitLongIntBlockOld n neg = header_of n neg false.
Proof.
  pose proof MAXDIGITS_eq. intros Hn Hneg.
  assert (0 <= n * 4 - Z.b2z neg < 16 * MAXDIGITS)
    by (destruct neg; simpl; specialize (Hneg ltac:(done)) || clear Hneg; lia).
  unfold AInitLongIntBlock, AInitLongIntBlockOld.
  rewrite (u64_small (n * 4)), u64_small by lia.
  rewrite block_header_new, block_header_old by lia. unfold header_of. lia.
Qed.

Lemma land_not_gen x (gen : bool) :
  0 <= x < H64 -> Z.land (x + (if gen then H64 else 0)) (Z.lnot A_NEW_GEN_FLAG) = x.
Proof.
  intros Hx. unfold A_NEW_GEN_FLAG. change H64 with (2 ^ 63) in *.
  assert (forall i, 63 <= i -> Z.testbit x i = false) as Hhi.
  { intros i Hi. rewrite <- (Z.mod_small x (2 ^ 63)) by lia.
    by apply Z.mod_pow2_bits_high. }
  apply Z.bits_inj'. intros i Hi.
  rewrite Z.land_spec, Z.lnot_spec, Z.pow2_bits_eqb by lia.
  destruct (Z.eqb_spec 63 i) as [<-|Hne].
  - rewrite (Hhi 63) by lia. apply andb_false_r.
  - rewrite andb_true_r. destruct gen; [|by rewrite Z.add_0_r].
    rewrite <- (lor_disjoint x (2 ^ 63) 63) by (try done; try lia; by exists 1).
    rewrite Z.lor_spec, Z.pow2_bits_false by lia. apply orb_false_r.
Qed.

Lemma land_4 h : Z.land h 4 = 4 * ((h / 4) mod 2).
Proof.
  replace (h / 4) with (Z.shiftr h 2) by (by rewrite Z.shiftr_div_pow2).
  rewrite <- Z.bit0_mod, Z.shiftr_spec by lia.
  change (Z.land h 4) with (Z.land h (2 ^ 2)). change (0 + 2) with 2.
  apply Z.bits_inj'. intros i Hi. rewrite Z.land_spec, Z.pow2_bits_eqb by lia.
  destruct (Z.eqb_spec 2 i) as [<-|]; [rewrite andb_true_r|rewrite andb_false_r].
  - by destruct (Z.testbit h 2).
  - destruct (Z.testbit h 2); [|by rewrite Z.bits_0].
    change (4 * Z.b2z true) with (2 ^ 2). by rewrite Z.pow2_bits_false.
Qed.

Lemma land_gen x (gen : bool) :
  0 <= x < H64 ->
  negb (Z.land (x + (if gen then H64 else 0)) A_NEW_GEN_FLAG =? 0) = gen.
Proof.
  intros Hx. unfold A_NEW_GEN_FLAG.
  assert (Z.land x H64 = 0) as H0.
  { change H64 with (2 ^ 63) in *. apply Z.bits_inj'. intros i Hi.
    rewrite Z.land_spec, Z.pow2_bits_eqb, Z.bits_0 by lia.
    destruct (Z.eqb_spec 63 i) as [<-|]; [|apply andb_false_r].
    rewrite <- (Z.mod_small x (2 ^ 63)) by lia. by rewrite Z.mod_pow2_bits_high. }
  destruct gen; [|by rewrite Z.add_0_r, H0].
  rewrite <- (lor_disjoint x H64 63) by (try done; try lia; by exists 1).
  by rewrite Z.land_lor_distr_l, H0.
Qed.

Section Blocks.
Context (li : ALongInt) (n : Z) (neg : bool) (Hli : li_block li n neg).

Lemma header_of_low :
  0 <= 16 * n - 4 * Z.b2z neg + 1 < 16 * (2 * MAXDIGITS + 8).
Proof using Hli.
  destruct Hli as [Hn Hneg _ _ _]. destruct neg; simpl; [specialize (Hneg eq_refl)|]; lia.
Qed.

Lemma Len_block : AGetLongIntLen li = n.
Proof using Hli.
  pose proof header_of_low as Hlow. destruct Hli as [_ _ [gen Hh] _ _].
  unfold AGetLongIntLen. rewrite Hh. pose proof MAXDIGITS_eq. unfold header_of in *.
  rewrite land_not_gen, u64_small, Z.shiftr_div_pow2 by lia.
  change (2 ^ 4) with 16. destruct neg; simpl Z.b2z in *; zsolve.
Qed.

Lemma Sign_block : AGetLongIntSign li = neg.
Proof using Hli.
  pose proof header_of_low as Hlow. destruct Hli as [_ _ [gen Hh] _ _].
  unfold AGetLongIntSign. rewrite Hh, land_4. pose proof MAXDIGITS_eq. unfold header_of in *.
  destruct (Z.eqb_spec (4 * ((16 * n - 4 * Z.b2z neg + 1 + (if gen then H64 else 0)) / 4 mod 2)) 0);
    destruct gen, neg; simpl in *; try done; exfalso; zsolve.
Qed.

Lemma gen_block :
  new_gen li -> negb (Z.land (header li) A_NEW_GEN_FLAG =? 0) = true.
Proof using Hli.
  pose proof header_of_low as Hlow. destruct Hli as [_ _ [gen Hh] _ _].
  unfold new_gen. rewrite Hh. pose proof MAXDIGITS_eq. unfold header_of in *.
  intros [Hg _]. rewrite land_gen by lia. destruct gen; lia.
Qed.

Lemma digit_block i : 0 <= i < n -> evals (digit li i) (dg (elem li) i).
Proof using Hli.
  intros Hi t. destruct Hli as [_ _ _ He _]. unfold digit.
  destruct (Z.leb_spec 0 i), (Z.ltb_spec i (zlen (elem li))); simpl; done || lia.
Qed.

Lemma digit_elem i : 0 <= i < zlen (elem li) -> evals (digit li i) (dg (elem li) i).
Proof.
  intros Hi t. unfold digit.
  destruct (Z.leb_spec 0 i), (Z.ltb_spec i (zlen (elem li))); simpl; done || lia.
Qed.

Lemma set_digit_block i v :
  0 <= i < n ->
  evals (set_digit li i v) (MkLongInt (header li) (upd (elem li) i (u32 v))).
Proof using Hli.
  intros Hi t. destruct Hli as [_ _ _ He _]. unfold set_digit.
  destruct (Z.leb_spec 0 i), (Z.ltb_spec i (zlen (elem li))); simpl; done || lia.
Qed.

Lemma upd_block i v :
  digit_ok v -> li_block (MkLongInt (header li) (upd (elem li) i v)) n neg.
Proof using Hli.
  intros Hv. destruct Hli as [? ? ? ? ?]. constructor; simpl; try done.
  - by rewrite zlen_upd.
  - by apply digits_ok_upd.
Qed.

Lemma li_abs_bound : 0 <= li_abs li n < BASE ^ n.
Proof using Hli. destruct Hli as [[] ? ? ? ?]. by apply eval_bound. Qed.

End Blocks.

(** Setting the sign of a non-negative block. *)
Lemma set_sign_block li n :
  li_block li n false -> 0 < n -> li_block (ASetLongIntSign li) n true.
Proof.
  intros Hli Hn. pose proof (header_of_low li n false Hli) as Hlow.
  destruct Hli as [? ? [gen Hh] ? ?]. constructor; simpl; try done.
  exists gen. rewrite Hh. pose proof MAXDIGITS_eq. unfold header_of in *. simpl Z.b2z in *.
  rewrite u64_small; destruct gen; lia.
Qed.

Lemma set_sign_new li n :
  li_block li n false -> 0 < n -> new_gen li -> new_gen (ASetLongIntSign li).
Proof.
  intros Hli Hn [Hg Hl]. pose proof (header_of_low li n false Hli) as Hlow.
  destruct Hli as [? ? [gen Hh] ? ?]. split; [|done]. simpl. rewrite Hh in *.
  unfold header_of in *. pose proof MAXDIGITS_eq. simpl Z.b2z in *.
  rewrite u64_small; destruct gen; lia.
Qed.

Lemma li_repr_block li n neg :
  li_block li n neg -> 0 < n <= MAXDIGITS -> li_repr li (signed neg (li_abs li n)).
Proof. intros. by exists n, neg. Qed.
