(* ===== verification/LongInt.v ===== *)
(** * LongInt: addition, subtraction, multiplication and comparison

    The sign-magnitude routines of [std_int_long.c].  Each definition follows
    the C function of the same name: digits are read and written in place, in
    the order of the loops, with the carries at their C widths. *)

From S2P Require Import Prelude Runtime Digits Value.

(** ** Allocation and normalization *)

(** The digit cells of a block of [size] bytes after its header word. *)
Definition block_cells (size : Z) (junk : storage) : list Z :=
  (fun i => u32 (junk (Z.of_nat i))) <$> seq 0 (Z.to_nat ((size - 8) / 4)).

(** [CreateLongInt(t, len, &a, &b)]: an uninitialized block of [len] digits. *)
Definition CreateLongInt (len : Z) : M ALongInt :=
  let size := AGetBlockSize (AGetLongIntSize len) in
  junk ← AAlloc size;
  mret (MkLongInt (AInitLongIntBlock len false) (block_cells size junk)).

(** [do len--; while (len > 1 && li->digit[len - 1] == 0);] *)
Fixpoint truncate_scan (fuel : nat) (li : ALongInt) (len : Z) : M Z :=
  match fuel with
  | O => fault
  | S fuel' =>
      let len := len - 1 in
      if 1 <? len then
        d ← digit li (len - 1);
        if d =? 0 then truncate_scan fuel' li len else mret len
      else mret len
  end.

(** [TruncateZeroDigits(t, li, isNeg)]: drop leading zero digits, in place
    whenever the rest of the block can be given back. *)
Definition TruncateZeroDigits (li : ALongInt) (isNeg : bool) : M ALongInt :=
  let len := AGetLongIntLen li in
  top ← digit li (len - 1);
  if top =? 0 then
    let oldSize := AGetBlockSize (AGetLongIntSize len) in
    len ← truncate_scan (Z.to_nat len) li len;
    let newSize := AGetBlockSize (AGetLongIntSize len) in
    let isNewGen := negb (Z.land (header li) A_NEW_GEN_FLAG =? 0) in
    if negb isNewGen && (newSize <? oldSize) && (oldSize - newSize <? A_MIN_BLOCK_SIZE)
    then
      li2 ← CreateLongInt len;
      li2 ← for_up 0 len (fun i li2 =>
        d ← digit li i; set_digit li2 i d) li2;
      mret (if isNeg then ASetLongIntSign li2 else li2)
    else
      mret (MkLongInt
        (if isNewGen then AInitLongIntBlock len isNeg else AInitLongIntBlockOld len isNeg)
        (if newSize <? oldSize then take (Z.to_nat ((newSize - 8) / 4)) (elem li) else elem li))
  else mret (if isNeg then ASetLongIntSign li else li).

(** [(A_SHORT_INT_MAX + 1) >> BITS] *)
Definition SHORT_TOP : Z := Z.shiftr (A_SHORT_INT_MAX + 1) BITS.

(** [ANormalize(t, li, isNeg)] with two digits in an integer. *)
Definition ANormalize (li : ALongInt) (isNeg : bool) : M AValue :=
  li ← TruncateZeroDigits li isNeg;
  let len := AGetLongIntLen li in
  if len <=? 2 then
    if isNeg then
      d1 ← digit li 1;
      d0 ← digit li 0;
      if (d1 <? SHORT_TOP) || ((d0 =? 0) && (d1 =? SHORT_TOP))
      then mret (VInt (AIntToValue (u64 (- u64 (d0 + u64 (Z.shiftl d1 BITS))))))
      else mret (VLong li)
    else if len =? 1 then
      d0 ← digit li 0;
      mret (VInt (AIntToValue d0))
    else
      d1 ← digit li 1;
      if d1 <? SHORT_TOP then
        d0 ← digit li 0;
        mret (VInt (AIntToValue (u64 (d0 + u64 (Z.shiftl d1 BITS)))))
      else mret (VLong li)
  else mret (VLong li).

(** [ACreateLongIntFromIntND(t, intVal)] (the digits are half a word): the
    long integer of a machine integer, not normalized. *)
Definition ACreateLongIntFromIntND (intVal : Z) : M ALongInt :=
  if intVal =? - H64 then
    li ← CreateLongInt 2;
    let li := MkLongInt (AInitLongIntBlock 2 true) (elem li) in
    li ← set_digit li 0 0;
    set_digit li 1 (Z.shiftl 1 (BITS - 1))
  else
    let sign := intVal <? 0 in
    let intVal := if sign then - intVal else intVal in
    let len := if MASK <? intVal then 2 else 1 in
    li ← CreateLongInt len;
    let li := MkLongInt (AInitLongIntBlock len sign) (elem li) in
    li ← set_digit li 0 (Z.land intVal MASK);
    if 1 <? len then set_digit li 1 (Z.shiftr intVal BITS) else mret li.

(** ** Comparison *)

(** The digit-wise comparison loop, from digit [i] down. *)
Fixpoint compare_digits (n : nat) (a b : ALongInt) (i : Z) : M Z :=
  match n with
  | O => mret 0
  | S n' =>
      da ← digit a i;
      db ← digit b i;
      if negb (da =? db) then mret (s64 (da - db)) else compare_digits n' a b (i - 1)
  end.

(** [ACompareLongInt(aVal, bVal)]: positive, zero or negative. *)
Definition ACompareLongInt (a b : ALongInt) : M Z :=
  let lenA := AGetLongIntLen a in
  let lenB := AGetLongIntLen b in
  let signA := AGetLongIntSign a in
  result ← (if eqb signA (AGetLongIntSign b) then
              if negb (lenA =? lenB) then mret (s64 (lenA - lenB))
              else
                let i := s32 (lenA - 1) in
                compare_digits (Z.to_nat (i + 1)) a b i
            else mret 1);
  mret (if signA then s64 (- result) else result).

(** ** Addition and subtraction of magnitudes *)

(** [AddAbsolute(t, a, b, isNorm)], from the point where [b] is not longer
    than [a]: the sum, not normalized, and the sign of [a]. *)
Definition AddAbsolute_ordered (a b : ALongInt) : M (ALongInt * bool) :=
  let lenA := AGetLongIntLen a in
  let lenB := AGetLongIntLen b in
  let lenD := u64 (lenA + 1) in
  d ← CreateLongInt lenD;
  s ← for_up 0 lenB (fun i '(carry, d) =>
        da ← digit a i;
        db ← digit b i;
        let carry := u64 (carry + u64 (da + db)) in
        d ← set_digit d i (Z.land carry MASK);
        mret (Z.shiftr carry BITS, d)) (0, d);
  '(carry, d) ← for_up lenB lenA (fun i '(carry, d) =>
        da ← digit a i;
        let carry := u64 (carry + da) in
        d ← set_digit d i (Z.land carry MASK);
        mret (Z.shiftr carry BITS, d)) s;
  d ← set_digit d lenA carry;
  mret (d, AGetLongIntSign a).

(** The operands are swapped first when [b] is longer. *)
Definition AddAbsolute_raw (a b : ALongInt) : M (ALongInt * bool) :=
  if AGetLongIntLen a <? AGetLongIntLen b
  then AddAbsolute_ordered b a else AddAbsolute_ordered a b.

(** The whole of [AddAbsolute]: the result is normalized iff [isNorm]. *)
Definition AddAbsolute (a b : ALongInt) (isNorm : bool) : M AValue :=
  '(d, sign) ← AddAbsolute_raw a b;
  if isNorm then ANormalize d sign else mret (VLong d).

(** [for (i = lenA - 1; i >= 0 && a->digit[i] == b->digit[i]; i--);] *)
Fixpoint sub_scan (n : nat) (a b : ALongInt) (i : Z) : M Z :=
  match n with
  | O => mret i
  | S n' =>
      da ← digit a i;
      db ← digit b i;
      if da =? db then sub_scan n' a b (i - 1) else mret i
  end.

(** [SubAbsolute(t, a, b, isNorm)], first part: the operand with the larger
    magnitude, the other one, and the sign of the result. *)
Definition SubAbsolute_order (a b : ALongInt) : M (ALongInt * ALongInt * bool) :=
  let lenA := AGetLongIntLen a in
  let lenB := AGetLongIntLen b in
  let sign := AGetLongIntSign a in
  if lenA <? lenB then mret (b, a, negb sign)
  else if lenA =? lenB then
    i ← sub_scan (Z.to_nat lenA) a b (lenA - 1);
    if 0 <=? i then
      da ← digit a i;
      db ← digit b i;
      mret (if da <? db then (b, a, negb sign) else (a, b, sign))
    else mret (a, b, sign)
  else mret (a, b, sign).

(** Second part: the difference, [a] being the larger operand. *)
Definition SubAbsolute_ordered (a b : ALongInt) : M ALongInt :=
  let lenA := AGetLongIntLen a in
  let lenB := AGetLongIntLen b in
  d ← CreateLongInt lenA;
  s ← for_up 0 lenB (fun i '(borrow, d) =>
        da ← digit a i;
        db ← digit b i;
        let borrow := u64 (u64 (da - db) - borrow) in
        d ← set_digit d i (Z.land borrow MASK);
        mret (Z.shiftr borrow (2 * BITS - 1), d)) (0, d);
  '(borrow, d) ← for_up lenB lenA (fun i '(borrow, d) =>
        da ← digit a i;
        let borrow := u64 (da - borrow) in
        d ← set_digit d i (Z.land borrow MASK);
        mret (Z.shiftr borrow (2 * BITS - 1), d)) s;
  mret d.

Definition SubAbsolute_raw (a b : ALongInt) : M (ALongInt * bool) :=
  '(a, b, sign) ← SubAbsolute_order a b;
  d ← SubAbsolute_ordered a b;
  mret (d, sign).

(** The whole of [SubAbsolute]: the result is normalized iff [isNorm]. *)
Definition SubAbsolute (a b : ALongInt) (isNorm : bool) : M AValue :=
  '(d, sign) ← SubAbsolute_raw a b;
  if isNorm then ANormalize d sign else mret (VLong d).

Definition AAddLongInt (a b : ALongInt) : M AValue :=
  if eqb (AGetLongIntSign a) (AGetLongIntSign b)
  then AddAbsolute a b true else SubAbsolute a b true.

Definition ASubLongInt (a b : ALongInt) : M AValue :=
  if eqb (AGetLongIntSign a) (AGetLongIntSign b)
  then SubAbsolute a b true else AddAbsolute a b true.

(** [ANegateLongInt(t, aVal)] with two digits in an integer. *)
Definition ANegateLongInt (a : ALongInt) : M AValue :=
  let lenA := AGetLongIntLen a in
  let signA := AGetLongIntSign a in
  d0 ← digit a 0;
  d1 ← digit a 1;
  if negb signA && (d0 =? 0) && (d1 =? SHORT_TOP)
  then mret (VInt (AIntToValue A_SHORT_INT_MIN))
  else
    d ← CreateLongInt lenA;
    d ← for_up 0 lenA (fun i d => x ← digit a i; set_digit d i x) d;
    mret (VLong (if negb (AGetLongIntSign a) then ASetLongIntSign d else d)).

(** ** Operations with a single digit *)

(** The carry loop of [AddAbsoluteSingle]: stops at the first digit that does
    not overflow; the result is the index reached, the carry and [d]. *)
Fixpoint add_single_loop (n : nat) (a d : ALongInt) (i carry : Z) : M (Z * Z * ALongInt) :=
  match n with
  | O => mret (i, carry, d)
  | S n' =>
      da ← digit a i;
      let res := u32 (carry + da) in
      d ← set_digit d i res;
      if da <=? res then mret (i + 1, 0, d) else add_single_loop n' a d (i + 1) 1
  end.

Definition AddAbsoluteSingle (a : ALongInt) (add : Z) : M AValue :=
  let lenA := AGetLongIntLen a in
  let lenD := u64 (lenA + 1) in
  d ← CreateLongInt lenD;
  '(i, carry, d) ← add_single_loop (Z.to_nat lenA) a d 0 (u32 add);
  d ← for_up i lenA (fun i d => da ← digit a i; set_digit d i da) d;
  d ← set_digit d lenA carry;
  ANormalize d (AGetLongIntSign a).

(** The borrow loop of [SubAbsoluteSingle]. *)
Fixpoint sub_single_loop (n : nat) (a d : ALongInt) (i borrow : Z) : M (Z * Z * ALongInt) :=
  match n with
  | O => mret (i, borrow, d)
  | S n' =>
      da ← digit a i;
      let res := u32 (da - borrow) in
      d ← set_digit d i res;
      if res <=? da then mret (i + 1, 0, d) else sub_single_loop n' a d (i + 1) 1
  end.

Definition SubAbsoluteSingle_raw (a : ALongInt) (sub : Z) : M ALongInt :=
  let lenA := AGetLongIntLen a in
  d ← CreateLongInt lenA;
  '(i, borrow, d) ← sub_single_loop (Z.to_nat lenA) a d 0 (u32 sub);
  for_up i lenA (fun i d => da ← digit a i; set_digit d i da) d.

Definition SubAbsoluteSingle (a : ALongInt) (sub : Z) (isNorm : bool) : M AValue :=
  d ← SubAbsoluteSingle_raw a sub;
  if isNorm then ANormalize d (AGetLongIntSign a) else mret (VLong d).

Definition AAddLongIntSingle (a : ALongInt) (i : Z) : M AValue :=
  if AGetLongIntSign a then SubAbsoluteSingle a i true else AddAbsoluteSingle a i.

Definition ASubLongIntSingle (a : ALongInt) (i : Z) : M AValue :=
  if AGetLongIntSign a then AddAbsoluteSingle a i else SubAbsoluteSingle a i true.

(** [ADivModSingle(t, a, b, remPtr)]: quotient and remainder by a digit, from
    the most significant digit down; the sign of [a] is ignored. *)
Definition ADivModSingle (a : ALongInt) (b : Z) : M (ALongInt * Z) :=
  if b =? 0 then fault else
  let lenA := AGetLongIntLen a in
  d ← CreateLongInt lenA;
  '(rem, d) ← for_down (lenA - 1) 0 (fun i '(rem, d) =>
      da ← digit a i;
      let rem := u64 (u64 (Z.shiftl rem BITS) + da) in
      d ← set_digit d i (rem / b);
      mret (rem mod b, d)) (0, d);
  d ← TruncateZeroDigits d false;
  mret (d, u32 rem).

(** [AMulAddSingle(t, a, mul, add)]: [a * mul + add] for single digits. *)
Definition AMulAddSingle (a : ALongInt) (mul add : Z) : M ALongInt :=
  let lenA := AGetLongIntLen a in
  let lenD := u64 (lenA + 1) in
  d ← CreateLongInt lenD;
  '(carry, d) ← for_up 0 lenA (fun i '(carry, d) =>
      da ← digit a i;
      let carry := u64 (carry + u64 (da * mul)) in
      d ← set_digit d i (Z.land carry MASK);
      mret (Z.shiftr carry BITS, d)) (add, d);
  d ← set_digit d lenA carry;
  TruncateZeroDigits d false.

(** ** Multiplication and hashing *)

(** [AMultiplyLongInt(t, aVal, bVal)]: schoolbook multiplication. *)
Definition AMultiplyLongInt (a b : ALongInt) : M AValue :=
  let lenA := AGetLongIntLen a in
  let lenB := AGetLongIntLen b in
  d ← CreateLongInt (lenA + lenB);
  d ← for_up 0 lenB (fun i d => set_digit d i 0) d;
  d ← for_up 0 lenA (fun i d =>
        '(carry, d) ← for_up 0 lenB (fun j '(carry, d) =>
            dd ← digit d (i + j);
            da ← digit a i;
            db ← digit b j;
            let carry := u64 (carry + u64 (dd + u64 (da * db))) in
            d ← set_digit d (i + j) (Z.land carry MASK);
            mret (Z.shiftr carry BITS, d)) (0, d);
        set_digit d (i + lenB) carry) d;
  ANormalize d (xorb (AGetLongIntSign a) (AGetLongIntSign b)).

(** [ALongIntHashValue(val)]: the sign does not enter the hash. *)
Definition ALongIntHashValue (l : ALongInt) : M Z :=
  hashValue ← for_up 0 (AGetLongIntLen l) (fun i h =>
    d ← digit l i;
    mret (u64 (h + u64 (u64 (h * 32) + d)))) 0;
  mret (AIntToValue hashValue).

(** ** Allocation lemmas *)

Lemma zlen_block_cells size junk :
  8 <= size -> zlen (block_cells size junk) = (size - 8) / 4.
Proof. intros. unfold block_cells. rewrite length_fmap, length_seq. zsolve. Qed.

Lemma block_cells_ok size junk : digits_ok (block_cells size junk).
Proof.
  unfold digits_ok, block_cells. apply Forall_fmap, Forall_forall. intros. apply u32_range.
Qed.

(** Storage of a block of [n] digits: at least [n] and at least two cells. *)
Lemma AGetBlockSize_cells n :
  0 <= n < 2 * MAXDIGITS + 8 ->
  let c := (AGetBlockSize (AGetLongIntSize n) - 8) / 4 in n <= c /\ 2 <= c.
Proof.
  intros. subst c. rewrite AGetLongIntSize_eq by done.
  pose proof (AGetBlockSize_bounds (8 + n * 4) ltac:(lia)). zsolve.
Qed.

(** A freshly created block: its header is set, its cells are arbitrary. *)
Lemma CreateLongInt_spec len :
  0 <= len < 2 * MAXDIGITS + 8 ->
  returns (CreateLongInt len)
    (fun d => li_block d len false /\ new_gen d).
Proof.
  intros Hlen. eapply returns_bind; [apply AAlloc_spec|]. intros junk _.
  apply returns_ret. pose proof (AGetBlockSize_cells len Hlen) as Hc.
  destruct (AInitLongIntBlock_eq len false Hlen ltac:(done)) as [Hh _]. simpl in Hc.
  assert (16 <= AGetBlockSize (AGetLongIntSize len)).
  { rewrite AGetLongIntSize_eq by done. apply AGetBlockSize_bounds. lia. }
  split_and!; [constructor|..]; unfold new_gen; simpl; rewrite ?zlen_block_cells by lia.
  - done.
  - done.
  - rewrite Hh. by exists true.
  - lia.
  - apply block_cells_ok.
  - rewrite Hh. unfold header_of. simpl. lia.
Qed.

(** Reads and writes of digits inside a block, as rewriting steps. *)
Ltac digit_step :=
  lazymatch goal with
  | |- returns (mbind _ (digit ?li ?i)) _ =>
      eapply returns_bind_evals; [eapply digit_block; [eassumption|lia]|]
  | |- returns (mbind _ (set_digit ?li ?i ?v)) _ =>
      eapply returns_bind_evals; [eapply set_digit_block; [eassumption|lia]|]
  | |- returns (set_digit ?li ?i ?v) _ =>
      eapply evals_returns; [eapply set_digit_block; [eassumption|lia]|]
  end; cbv zeta beta.

(** ** Truncation and normalization *)

Lemma truncate_scan_spec fuel li n neg len :
  li_block li n neg -> 1 <= len <= n -> (Z.to_nat len <= fuel)%nat ->
  returns (truncate_scan fuel li len) (fun m =>
    0 <= m < len /\ (2 <= len -> 1 <= m) /\ (1 < m -> dg (elem li) (m - 1) <> 0) /\
    forall i, m <= i < len - 1 -> dg (elem li) i = 0).
Proof.
  intros Hb. revert len. induction fuel as [|fuel IH]; intros len Hlen Hf; [lia|].
  simpl. destruct (Z.ltb_spec 1 (len - 1)).
  - digit_step. destruct (Z.eqb_spec (dg (elem li) (len - 1 - 1)) 0) as [E|E].
    + eapply returns_mono; [apply IH; lia|]. simpl. intros m (Hm & H1 & Ht & Hz).
      split_and!; [lia|lia|lia|done|]. intros i Hi.
      destruct (decide (i = len - 2)) as [->|]; [by rewrite <- E; f_equal; lia|]. apply Hz. lia.
    + apply returns_ret. split_and!; [lia|lia|lia|done|]. intros. lia.
  - apply returns_ret. split_and!; [lia|lia|lia|lia|]. intros. lia.
Qed.

(** The digits below [n] of two buffers coincide. *)
Definition same_digits (l l' : list Z) (n : Z) : Prop :=
  forall i, 0 <= i < n -> dg l i = dg l' i.

Lemma same_digits_eval l l' n : 0 <= n -> same_digits l l' n -> eval l 0 n = eval l' 0 n.
Proof. intros Hn H. apply eval_ext; [|done]. intros. by apply H. Qed.

(** The copy loop of [TruncateZeroDigits], [ANegateLongInt] and the single
    digit operations. *)
Lemma copy_range_spec a n nega d m negd lo hi :
  li_block a n nega -> li_block d m negd -> 0 <= lo <= hi -> hi <= n -> hi <= m ->
  returns (for_up lo hi (fun i d => x ← digit a i; set_digit d i x) d)
    (fun d' => li_block d' m negd /\ header d' = header d /\
       zlen (elem d') = zlen (elem d) /\
       (forall i, lo <= i < hi -> dg (elem d') i = dg (elem a) i) /\
       forall i, 0 <= i -> i < lo \/ hi <= i -> dg (elem d') i = dg (elem d) i).
Proof.
  intros Ha Hd Hlo Hhn Hhm.
  apply (for_up_inv (fun i d' => li_block d' m negd /\ header d' = header d /\
    zlen (elem d') = zlen (elem d) /\
    (forall j, lo <= j < i -> dg (elem d') j = dg (elem a) j) /\
    forall j, 0 <= j -> j < lo \/ i <= j -> dg (elem d') j = dg (elem d) j)).
  - lia.
  - split_and!; [done|done|done|intros; lia|done].
  - intros i s Hi (Hb & Hh & Hz & Hsd & Hrest). digit_step. digit_step.
    pose proof (dg_ok (elem a) i (lb_digits _ _ _ Ha)) as Hok.
    rewrite u32_small by done. pose proof (lb_elem _ _ _ Hb).
    split_and!; simpl.
    + by apply upd_block.
    + done.
    + by rewrite zlen_upd.
    + intros j Hj. destruct (decide (j = i)) as [->|]; [apply dg_upd_eq; lia|].
      rewrite dg_upd_ne by lia. apply Hsd. lia.
    + intros j Hj Hout. rewrite dg_upd_ne by lia. apply Hrest; lia.
Qed.

Lemma copy_loop_spec a n nega d m negd hi :
  li_block a n nega -> li_block d m negd -> 0 <= hi -> hi <= n -> hi <= m ->
  returns (for_up 0 hi (fun i d => x ← digit a i; set_digit d i x) d)
    (fun d' => li_block d' m negd /\ same_digits (elem d') (elem a) hi).
Proof.
  intros. eapply returns_mono; [apply (copy_range_spec a n nega d m negd); (done || lia)|].
  simpl. intros d' (? & _ & _ & ? & _). split; [done|]. intros i Hi. auto.
Qed.

(** What truncation guarantees: the same magnitude in at most as many digits,
    the sign as requested and no leading zero digit (one digit is kept when
    there were two or more). *)
Definition truncated (li li' : ALongInt) (n m : Z) (neg : bool) : Prop :=
  li_block li' m neg /\ 0 <= m <= n /\ (2 <= n -> 1 <= m) /\
  li_abs li' m = li_abs li n /\ (1 < m -> dg (elem li') (m - 1) <> 0) /\
  same_digits (elem li') (elem li) m /\ (m = n -> dg (elem li') (m - 1) <> 0).

(** A block cut down to [m] of its digits, storage beyond given back. *)
Lemma shrink_block li n neg m neg' h e :
  li_block li n neg -> 0 <= m <= n -> (neg' = true -> 0 < m) ->
  (exists gen, h = header_of m neg' gen) ->
  (e = elem li \/ exists c, m <= c /\ e = take (Z.to_nat c) (elem li)) ->
  li_block (MkLongInt h e) m neg' /\ same_digits e (elem li) m.
Proof.
  intros [Hn _ _ He Hd] Hm Hneg Hh Hel. split; [constructor|]; simpl; try done; try lia.
  - destruct Hel as [->|(c & Hc & ->)]; [lia|]. rewrite length_take. lia.
  - destruct Hel as [->|(c & Hc & ->)]; [done|]. by apply Forall_take.
  - intros i Hi. destruct Hel as [->|(c & Hc & ->)]; [done|]. apply dg_take. lia.
Qed.

Lemma TruncateZeroDigits_spec li n isNeg :
  li_block li n false -> 1 <= n -> (isNeg = true -> 2 <= n) ->
  returns (TruncateZeroDigits li isNeg) (fun li' =>
    exists m, truncated li li' n m isNeg /\
      (new_gen li -> new_gen li' /\ same_digits (elem li') (elem li) 2)).
Proof.
  intros Hb Hn Hneg. unfold TruncateZeroDigits. rewrite (Len_block _ _ _ Hb).
  digit_step. destruct (Z.eqb_spec (dg (elem li) (n - 1)) 0) as [E|E].
  2:{ apply returns_ret. exists n.
      assert (elem (if isNeg then ASetLongIntSign li else li) = elem li) as Hel by by destruct isNeg.
      unfold truncated, li_abs. rewrite Hel. split_and!; try done; try lia.
      - destruct isNeg; [|done]. by apply set_sign_block; [|lia].
      - intros Hg. split; [|done]. destruct isNeg; [|done]. by apply (set_sign_new _ n); [|lia|]. }
  eapply returns_bind; [apply (truncate_scan_spec _ li n false n); [done|lia|lia]|].
  intros m (Hm & Hm1 & Htop & Hz). cbv zeta.
  assert (eval (elem li) 0 m = eval (elem li) 0 n) as Hev.
  { symmetry. apply eval_zero_above; [lia|]. intros i Hi.
    destruct (decide (i = n - 1)) as [->|]; [done|]. apply Hz. lia. }
  assert (isNeg = true -> 0 < m) as Hnegm by (intros ->; specialize (Hneg eq_refl); lia).
  assert (0 <= m < 2 * MAXDIGITS + 8) as Hmr by (destruct Hb; lia).
  assert (forall li', li_block li' m isNeg -> same_digits (elem li') (elem li) m ->
    truncated li li' n m isNeg) as Htr.
  { intros li' Hli' Hsd. unfold truncated. split_and!; try done; try lia.
    - unfold li_abs. rewrite <- Hev. apply same_digits_eval; [lia|done].
    - intros. rewrite Hsd by lia. by apply Htop. }
  destruct (negb (negb (Z.land (header li) A_NEW_GEN_FLAG =? 0)) && _ && _) eqn:Ecase.
  - eapply returns_bind; [by apply CreateLongInt_spec|]. intros d (Hd & _).
    eapply returns_bind; [apply (copy_loop_spec li n false d m false); (done || lia)|].
    intros d' (Hd' & Hsd). apply returns_ret. exists m. split.
    + apply Htr; destruct isNeg; try done. by apply set_sign_block; [|auto].
    + intros Hg. rewrite (gen_block _ _ _ Hb Hg) in Ecase. done.
  - apply returns_ret. exists m.
    pose proof (AInitLongIntBlock_eq m isNeg Hmr Hnegm) as [Hi1 Hi2].
    pose proof (AGetBlockSize_cells m Hmr) as [Hc1 Hc2].
    split.
    + edestruct (shrink_block li n false m isNeg) as [Hs1 Hs2];
        [exact Hb|lia|exact Hnegm| | |apply Htr; [exact Hs1|exact Hs2]].
      * destruct (negb (Z.land (header li) A_NEW_GEN_FLAG =? 0)); eauto.
      * destruct (_ <? _); eauto.
    + intros Hg. rewrite (gen_block _ _ _ Hb Hg), Hi1. destruct Hg as [_ Hl]. split; [split|]; simpl.
      * unfold header_of. destruct isNeg; simpl; [specialize (Hnegm eq_refl)|]; lia.
      * destruct (_ <? _); [rewrite length_take|]; lia.
      * intros i Hi. destruct (_ <? _); [apply dg_take; lia|done].
Qed.

Lemma small_digits x m : 1 <= m -> small x -> BASE ^ (m - 1) <= Z.abs x -> m <= MAXDIGITS.
Proof.
  unfold small. intros Hm Hs Hx.
  assert (BASE ^ (m - 1) < BASE ^ MAXDIGITS) as H by lia.
  apply Z.pow_lt_mono_r_iff in H; [lia|lia|]. by rewrite MAXDIGITS_eq.
Qed.

Lemma small_of_digits x n : 0 <= n <= MAXDIGITS -> Z.abs x < BASE ^ n -> small x.
Proof.
  intros Hn Hx. unfold small. assert (BASE ^ n <= BASE ^ MAXDIGITS); [|lia].
  apply Z.pow_le_mono_r; lia.
Qed.

(** A block without leading zero digit outside the short range is a
    normalized long integer. *)
Lemma li_norm_intro li m neg z :
  li_block li m neg -> 1 <= m -> dg (elem li) (m - 1) <> 0 ->
  z = signed neg (li_abs li m) -> small z -> ~ short_range z -> li_norm li z.
Proof.
  intros Hb Hm Htop -> Hs Hns. split_and!; [|done|].
  - exists m, neg. split_and!; try done; try lia.
    eapply small_digits; [done|exact Hs|].
    pose proof (eval_top_lower _ m (lb_digits _ _ _ Hb) ltac:(lia) Htop).
    pose proof (li_abs_bound _ _ _ Hb). unfold signed, li_abs in *. destruct neg; lia.
  - exists m. by rewrite (Len_block _ _ _ Hb).
Qed.

Lemma SHORT_TOP_eq : SHORT_TOP = 536870912.
Proof. done. Qed.

Lemma eval_2 l : eval l 0 2 = dg l 0 + BASE * dg l 1.
Proof. rewrite eval_low, eval_1 by lia. done. Qed.

Lemma signed_range neg x :
  0 <= x < H64 * 2 -> short_range (signed neg x) <->
  (if neg then x <= 2305843009213693952 else x < 2305843009213693952).
Proof. unfold short_range, A_SHORT_INT_MAX, A_SHORT_INT_MIN, signed. destruct neg; lia. Qed.

(** The short integer branches of [ANormalize]. *)
Lemma short_repr neg d0 d1 x :
  digit_ok d0 -> digit_ok d1 -> x = d0 + BASE * d1 -> short_range (signed neg x) ->
  int_repr (VInt (AIntToValue
    (if neg then u64 (- u64 (d0 + u64 (Z.shiftl d1 BITS)))
     else u64 (d0 + u64 (Z.shiftl d1 BITS))))) (signed neg x).
Proof.
  unfold digit_ok. intros H0 H1 -> Hs. split; [|done].
  autorewrite with word. rewrite (u64_small (d1 * BASE)), (u64_small (d0 + _)) by lia.
  rewrite !AIntToValue_eq. unfold signed, u64 in *. destruct neg; zsolve.
Qed.

(** After truncation to one or two digits, cells 0 and 1 hold the value: the
    in-place truncation leaves a zero in cell 1. *)
Lemma truncated_cells li li' n m isNeg :
  li_block li n false -> 2 <= n -> 1 <= m <= 2 -> truncated li li' n m isNeg ->
  same_digits (elem li') (elem li) 2 ->
  li_abs li' m = dg (elem li') 0 + BASE * dg (elem li') 1.
Proof.
  intros Hb Hn Hm (_ & _ & _ & Habs & _ & Hsd & _) Hd1. unfold li_abs in *.
  assert (m = 1 \/ m = 2) as [->| ->] by lia; [|by rewrite eval_2].
  rewrite eval_1, (Hd1 1) in * by lia.
  rewrite eval_low, (eval_low _ (0 + 1)), (Hsd 0) in Habs by lia.
  pose proof (eval_bound (elem li) (0 + 1 + 1) (n - 1 - 1) (lb_digits _ _ _ Hb) ltac:(lia)).
  pose proof (dg_ok (elem li) 1 (lb_digits _ _ _ Hb)). unfold digit_ok in *.
  change (0 + 1) with 1 in *. rewrite (Hsd 0) by lia. lia.
Qed.

(** The range test of [ANormalize] on the two digits. *)
Lemma short_test neg d0 d1 :
  digit_ok d0 -> digit_ok d1 ->
  short_range (signed neg (d0 + BASE * d1)) <->
  (if neg then (d1 <? SHORT_TOP) || ((d0 =? 0) && (d1 =? SHORT_TOP)) else d1 <? SHORT_TOP) = true.
Proof.
  unfold digit_ok. intros. rewrite signed_range, SHORT_TOP_eq by lia.
  destruct neg, (Z.ltb_spec d1 536870912), (Z.eqb_spec d0 0), (Z.eqb_spec d1 536870912);
    simpl; split; intros; done || lia.
Qed.

Lemma ANormalize_spec li n isNeg :
  li_block li n false -> new_gen li -> 2 <= n -> small (li_abs li n) ->
  returns (ANormalize li isNeg) (fun v => int_repr v (signed isNeg (li_abs li n))).
Proof.
  intros Hb Hg Hn Hsm. unfold ANormalize. pose proof (lb_elem _ _ _ Hb) as Hlen.
  eapply returns_bind; [apply (TruncateZeroDigits_spec li n); [done|lia|lia]|].
  intros li' (m & Htr & Hcell). destruct (Hcell Hg) as [[_ Hl2] Hd1]. clear Hcell.
  pose proof Htr as (Hb' & Hm & Hm1 & Habs & Htop & _).
  rewrite (Len_block _ _ _ Hb'). rewrite <- Habs in *.
  assert (small (signed isNeg (li_abs li' m))) as Hss
    by (unfold small, signed in *; destruct isNeg; lia).
  assert (1 < m -> ~ short_range (signed isNeg (li_abs li' m)) ->
    li_norm li' (signed isNeg (li_abs li' m))) as Hlong.
  { intros. eapply li_norm_intro; try done; [lia|auto]. }
  destruct (Z.leb_spec m 2) as [Hm2|Hm2].
  2:{ apply returns_ret, Hlong; [lia|].
      pose proof (eval_top_lower _ m (lb_digits _ _ _ Hb') ltac:(lia) (Htop ltac:(lia))).
      assert (BASE ^ 2 <= BASE ^ (m - 1)) by (apply Z.pow_le_mono_r; lia).
      unfold short_range, A_SHORT_INT_MAX, A_SHORT_INT_MIN, signed, li_abs in *.
      destruct isNeg; lia. }
  pose proof (truncated_cells li li' n m isNeg Hb Hn ltac:(lia) Htr Hd1) as Hval.
  pose proof (dg_ok (elem li') 0 (lb_digits _ _ _ Hb')) as Hk0.
  pose proof (dg_ok (elem li') 1 (lb_digits _ _ _ Hb')) as Hk1.
  pose proof (short_test isNeg _ _ Hk0 Hk1) as Htest. rewrite <- Hval in Htest.
  assert (m = 1 -> short_range (signed isNeg (li_abs li' m))) as Hm1s.
  { intros ->. unfold li_abs in *. rewrite eval_1 in *. unfold digit_ok in *.
    apply signed_range; [lia|destruct isNeg; lia]. }
  assert (~ short_range (signed isNeg (li_abs li' m)) -> 1 < m) by (intros; destruct (decide (m = 1)); [tauto|lia]).
  destruct isNeg.
  - eapply returns_bind_evals; [apply digit_elem; lia|].
    eapply returns_bind_evals; [apply digit_elem; lia|].
    destruct (_ || _); apply returns_ret.
    + apply (short_repr true); tauto.
    + assert (~ short_range (signed true (li_abs li' m))) by (rewrite Htest; done).
      by apply Hlong; [auto|].
  - destruct (Z.eqb_spec m 1) as [E|E].
    + eapply returns_bind_evals; [apply digit_elem; lia|]. apply returns_ret.
      split; [|tauto]. subst m. unfold li_abs. by rewrite eval_1.
    + eapply returns_bind_evals; [apply digit_elem; lia|].
      destruct (_ <? _).
      * eapply returns_bind_evals; [apply digit_elem; lia|]. apply returns_ret.
        apply (short_repr false); tauto.
      * assert (~ short_range (signed false (li_abs li' m))) by (rewrite Htest; done).
        by apply returns_ret, Hlong; [lia|].
Qed.

(** ** Destination blocks *)

(** A destination block under construction: [n] digits, no sign yet. *)
Definition dest (d : ALongInt) (n : Z) : Prop := li_block d n false /\ new_gen d.

Lemma CreateLongInt_dest len :
  0 <= len < 2 * MAXDIGITS + 8 -> returns (CreateLongInt len) (fun d => dest d len).
Proof.
  apply CreateLongInt_spec.
Qed.

Definition put (d : ALongInt) (i v : Z) : ALongInt :=
  MkLongInt (header d) (upd (elem d) i (u32 v)).

Lemma set_digit_put d n i v : dest d n -> 0 <= i < n -> evals (set_digit d i v) (put d i v).
Proof. intros [Hb _]. by apply set_digit_block with false. Qed.

Lemma digit_dest d n i : dest d n -> 0 <= i < n -> evals (digit d i) (dg (elem d) i).
Proof. intros [Hb _]. by apply digit_block with false. Qed.

Lemma dest_put d n i v : dest d n -> dest (put d i v) n.
Proof.
  intros [Hb [Hg Hl]]. split; [by apply upd_block, u32_range|]. split; [done|].
  unfold put. simpl. by rewrite zlen_upd.
Qed.

Lemma dg_put_eq d n i v : dest d n -> 0 <= i < n -> dg (elem (put d i v)) i = u32 v.
Proof. intros [Hb _] Hi. apply dg_upd_eq. pose proof (lb_elem _ _ _ Hb). lia. Qed.

Lemma dg_put_ne d i j v : 0 <= i -> 0 <= j -> i <> j -> dg (elem (put d i v)) j = dg (elem d) j.
Proof. intros. by apply dg_upd_ne. Qed.

Lemma eval_put_out d off n i v :
  0 <= n -> 0 <= off -> 0 <= i -> i < off \/ off + n <= i ->
  eval (elem (put d i v)) off n = eval (elem d) off n.
Proof. intros. by apply eval_upd_out. Qed.

(** Writing the low digit of [x] and carrying the rest over preserves the
    value of the window. *)
Lemma eval_put d n off k v x :
  dest d n -> 0 <= off -> 0 <= k -> off + k < n -> u32 v = x mod BASE ->
  eval (elem (put d (off + k) v)) off (k + 1) + BASE ^ (k + 1) * (x / BASE) =
  eval (elem d) off k + BASE ^ k * x.
Proof.
  intros Hd Hoff Hk Hn Hv. rewrite eval_succ, eval_put_out, (dg_put_eq d n) by (done || lia).
  rewrite Hv, BASE_pow_succ by lia. pose proof (Z.div_mod x BASE). nia.
Qed.

(** The same for a window that starts at digit 0. *)
Lemma eval_put0 d n k v x :
  dest d n -> 0 <= k < n -> u32 v = x mod BASE ->
  eval (elem (put d k v)) 0 (k + 1) + BASE ^ (k + 1) * (x / BASE) =
  eval (elem d) 0 k + BASE ^ k * x.
Proof. intros. rewrite <- (eval_put d n 0 k v x) by (done || lia). done. Qed.

(** Writing the final carry digit. *)
Lemma eval_put_top d n k v :
  dest d n -> 0 <= k < n -> digit_ok v ->
  eval (elem (put d k v)) 0 (k + 1) = eval (elem d) 0 k + BASE ^ k * v.
Proof.
  intros Hd Hk Hv. rewrite eval_succ, eval_put_out, Z.add_0_l, (dg_put_eq d n) by (done || lia).
  by rewrite u32_small.
Qed.

Lemma u32_land x : u32 (Z.land x MASK) = x mod BASE.
Proof. rewrite land_mask32. unfold u32. by rewrite Zmod_mod. Qed.

(** Steps through digit reads and writes; a write turns [d] into [put d ..]. *)
Ltac rd := eapply returns_bind_evals;
  [first [eapply digit_dest; [eassumption|lia] | eapply digit_block; [eassumption|lia]]|].
Ltac wr := eapply returns_bind_evals; [eapply set_digit_put; [eassumption|lia]|].

Lemma digit_range d n i : dest d n -> 0 <= dg (elem d) i < BASE.
Proof. intros [Hb _]. apply dg_ok, Hb. Qed.

Lemma block_range a n neg i : li_block a n neg -> 0 <= dg (elem a) i < BASE.
Proof. intros Hb. apply dg_ok, Hb. Qed.

(** ** Addition *)

(** One carry step of the addition loops. *)
Lemma carry_step d n k carry x :
  dest d n -> 0 <= k < n -> 0 <= carry -> 0 <= x -> carry + x < W64 ->
  let c := u64 (carry + x) in
  dest (put d k (Z.land c MASK)) n /\
  Z.shiftr c BITS = (carry + x) / BASE /\
  eval (elem (put d k (Z.land c MASK))) 0 (k + 1) + BASE ^ (k + 1) * Z.shiftr c BITS =
  eval (elem d) 0 k + BASE ^ k * (carry + x).
Proof.
  intros Hd Hk Hc Hx Hb. cbv zeta. rewrite u64_small, shiftr_bits by lia.
  split_and!; [by apply dest_put|done|].
  apply (eval_put0 _ n); [done|done|apply u32_land].
Qed.

Lemma add_loop_spec a n na b m nb d N :
  li_block a n na -> li_block b m nb -> m <= n -> n < N -> dest d N -> 0 <= m ->
  returns (for_up 0 m (fun i '(carry, d) =>
        da ← digit a i;
        db ← digit b i;
        let carry := u64 (carry + u64 (da + db)) in
        d ← set_digit d i (Z.land carry MASK);
        mret (Z.shiftr carry BITS, d)) (0, d))
    (fun '(c, d') => dest d' N /\ 0 <= c <= 1 /\
       eval (elem d') 0 m + BASE ^ m * c = eval (elem a) 0 m + eval (elem b) 0 m).
Proof.
  intros Ha Hb Hmn HnN Hd Hm.
  eapply returns_mono; [apply (for_up_inv (fun i '(c, d') => dest d' N /\ 0 <= c <= 1 /\
    eval (elem d') 0 i + BASE ^ i * c = eval (elem a) 0 i + eval (elem b) 0 i))|by intros []].
  - done.
  - split_and!; [done|lia|lia|]. rewrite !eval_0. lia.
  - intros i [c d'] Hi (Hd' & Hc & Hev). rd. rd. cbv zeta.
    pose proof (block_range a n na i Ha). pose proof (block_range b m nb i Hb).
    rewrite (u64_small (dg (elem a) i + _)) by lia.
    destruct (carry_step d' N i c (dg (elem a) i + dg (elem b) i)) as (Hp & Hs & He);
      [done|lia|lia|lia|lia|]. cbv zeta in *.
    wr. apply returns_ret. split_and!; [done|rewrite Hs; zsolve|rewrite Hs; zsolve|].
    rewrite He, !eval_succ by lia. rewrite !Z.add_0_l. lia.
Qed.

Lemma add_rest_spec a n na d N c lo :
  li_block a n na -> n < N -> dest d N -> 0 <= lo <= n -> 0 <= c <= 1 ->
  returns (for_up lo n (fun i '(carry, d) =>
        da ← digit a i;
        let carry := u64 (carry + da) in
        d ← set_digit d i (Z.land carry MASK);
        mret (Z.shiftr carry BITS, d)) (c, d))
    (fun '(c', d') => dest d' N /\ 0 <= c' <= 1 /\
       eval (elem d') 0 n + BASE ^ n * c' =
       eval (elem a) 0 n + (eval (elem d) 0 lo + BASE ^ lo * c - eval (elem a) 0 lo)).
Proof.
  intros Ha HnN Hd Hlo Hc.
  eapply returns_mono; [apply (for_up_inv (fun i '(c', d') => dest d' N /\ 0 <= c' <= 1 /\
    eval (elem d') 0 i + BASE ^ i * c' =
    eval (elem a) 0 i + (eval (elem d) 0 lo + BASE ^ lo * c - eval (elem a) 0 lo)))|by intros []].
  - lia.
  - split_and!; [done|lia|lia|]. lia.
  - intros i [c' d'] Hi (Hd' & Hc' & Hev). rd. cbv zeta.
    pose proof (block_range a n na i Ha).
    destruct (carry_step d' N i c' (dg (elem a) i)) as (Hp & Hs & He);
      [done|lia|lia|lia|lia|]. cbv zeta in *.
    wr. apply returns_ret. split_and!; [done|rewrite Hs; zsolve|rewrite Hs; zsolve|].
    rewrite He, !eval_succ by lia. rewrite !Z.add_0_l. lia.
Qed.

(** Operands: blocks of between 1 and [MAXDIGITS] digits. *)
Definition operand (a : ALongInt) (n : Z) (neg : bool) : Prop :=
  li_block a n neg /\ 0 < n <= MAXDIGITS.

Lemma operand_repr a z : li_repr a z <-> exists n neg, operand a n neg /\ z = signed neg (li_abs a n).
Proof.
  unfold li_repr, operand. split; intros (n & neg & H); exists n, neg; tauto.
Qed.

Lemma AddAbsolute_ordered_spec a n na b m nb :
  operand a n na -> operand b m nb -> m <= n ->
  returns (AddAbsolute_ordered a b) (fun '(d, sign) =>
    dest d (n + 1) /\ sign = na /\ li_abs d (n + 1) = li_abs a n + li_abs b m).
Proof.
  pose proof MAXDIGITS_eq. intros [Ha Hn] [Hb Hm] Hmn. unfold AddAbsolute_ordered. cbv zeta.
  rewrite (Len_block _ _ _ Ha), (Len_block _ _ _ Hb), (Sign_block _ _ _ Ha), u64_small by lia.
  eapply returns_bind; [apply CreateLongInt_dest; lia|]. intros d Hd.
  eapply returns_bind; [apply (add_loop_spec a n na b m nb d (n + 1)); (done || lia)|].
  intros [c d1] (Hd1 & Hc & He1).
  eapply returns_bind; [apply (add_rest_spec a n na d1 (n + 1)); (done || lia)|].
  intros [c' d2] (Hd2 & Hc' & He2). wr. apply returns_ret.
  split_and!; [by apply dest_put|done|].
  unfold li_abs. rewrite (eval_put_top d2 (n + 1)) by (done || unfold digit_ok; lia). lia.
Qed.

Lemma AddAbsolute_raw_spec a n na b m nb :
  operand a n na -> operand b m nb ->
  returns (AddAbsolute_raw a b) (fun '(d, sign) =>
    dest d (Z.max n m + 1) /\ sign = (if n <? m then nb else na) /\
    li_abs d (Z.max n m + 1) = li_abs a n + li_abs b m).
Proof.
  intros Ha Hb. unfold AddAbsolute_raw.
  rewrite (Len_block _ _ _ (proj1 Ha)), (Len_block _ _ _ (proj1 Hb)).
  destruct (Z.ltb_spec n m).
  - eapply returns_mono; [apply (AddAbsolute_ordered_spec b m nb a n na); (done || lia)|].
    intros [d s]. rewrite Z.max_r by lia. intros (? & ? & ->). split_and!; [done|done|lia].
  - eapply returns_mono; [apply (AddAbsolute_ordered_spec a n na b m nb); (done || lia)|].
    intros [d s]. by rewrite Z.max_l by lia.
Qed.

Lemma AddAbsolute_spec a n na b m nb :
  operand a n na -> operand b m nb -> small (li_abs a n + li_abs b m) ->
  returns (AddAbsolute a b true) (fun v =>
    int_repr v (signed (if n <? m then nb else na) (li_abs a n + li_abs b m))).
Proof.
  intros Ha Hb Hs. unfold AddAbsolute.
  eapply returns_bind; [by apply (AddAbsolute_raw_spec a n na b m nb)|].
  intros [d s] ([Hd Hg] & -> & He). rewrite <- He in *.
  apply ANormalize_spec; try done. destruct Ha, Hb. lia.
Qed.

(** ** Subtraction *)

Lemma sub_scan_spec a n na b nb i :
  li_block a n na -> li_block b n nb -> -1 <= i < n ->
  (forall j, i < j < n -> dg (elem a) j = dg (elem b) j) ->
  returns (sub_scan (Z.to_nat (i + 1)) a b i) (fun k =>
    -1 <= k <= i /\ (0 <= k -> dg (elem a) k <> dg (elem b) k) /\
    forall j, k < j < n -> dg (elem a) j = dg (elem b) j).
Proof.
  intros Ha Hb. remember (Z.to_nat (i + 1)) as f eqn:Ef. revert i Ef.
  induction f as [|f IH]; intros i Ef Hi Heq; simpl.
  - apply returns_ret. split_and!; [lia|lia|lia|done].
  - digit_step. digit_step. destruct (Z.eqb_spec (dg (elem a) i) (dg (elem b) i)).
    + eapply returns_mono; [apply IH; [lia|lia|]|].
      * intros j Hj. destruct (decide (j = i)) as [->|]; [done|]. apply Heq. lia.
      * intros k (? & ? & ?). split_and!; [lia|lia|done|done].
    + apply returns_ret. split_and!; [lia|lia|done|done].
Qed.

Lemma eval_lt l l' n i :
  digits_ok l -> digits_ok l' -> 0 <= i < n ->
  (forall j, i < j < n -> dg l j = dg l' j) -> dg l i < dg l' i ->
  eval l 0 n < eval l' 0 n.
Proof.
  intros Hl Hl' Hi Heq Hlt.
  replace n with ((i + 1) + (n - i - 1)) by lia. rewrite !(eval_app _ _ (i + 1)) by lia.
  rewrite (eval_ext l l' (0 + (i + 1)) (0 + (i + 1)) (n - i - 1)) by (try lia; intros; apply Heq; lia).
  rewrite !eval_succ by lia. pose proof (eval_bound l 0 i Hl ltac:(lia)).
  pose proof (eval_bound l' 0 i Hl' ltac:(lia)). rewrite !Z.add_0_l. nia.
Qed.

(** One borrow step: the 64-bit difference keeps the digit in its low half
    and the borrow in its top bit. *)
Lemma borrow_step d n k x :
  dest d n -> 0 <= k < n -> - BASE <= x < BASE ->
  let w := u64 x in
  dest (put d k (Z.land w MASK)) n /\
  Z.shiftr w (2 * BITS - 1) = - (x / BASE) /\ 0 <= - (x / BASE) <= 1 /\
  eval (elem (put d k (Z.land w MASK))) 0 (k + 1) - BASE ^ (k + 1) * Z.shiftr w (2 * BITS - 1) =
  eval (elem d) 0 k + BASE ^ k * x.
Proof.
  intros Hd Hk Hx. cbv zeta.
  assert (Z.shiftr (u64 x) (2 * 32 - 1) = - (x / BASE)) as E.
  { rewrite Z.shiftr_div_pow2 by lia. change (2 ^ (2 * 32 - 1)) with H64. unfold u64. zsolve. }
  split_and!; [by apply dest_put|done|zsolve|zsolve|].
  rewrite E. rewrite <- (eval_put0 d n k (Z.land (u64 x) MASK) x); [lia|done|done|].
  rewrite u32_land. unfold u64. zsolve.
Qed.

Lemma sub_loop_spec a n na b m nb d N :
  li_block a n na -> li_block b m nb -> 0 <= m <= n -> n <= N -> dest d N ->
  returns (for_up 0 m (fun i '(borrow, d) =>
        da ← digit a i;
        db ← digit b i;
        let borrow := u64 (u64 (da - db) - borrow) in
        d ← set_digit d i (Z.land borrow MASK);
        mret (Z.shiftr borrow (2 * BITS - 1), d)) (0, d))
    (fun '(c, d') => dest d' N /\ 0 <= c <= 1 /\
       eval (elem d') 0 m - BASE ^ m * c = eval (elem a) 0 m - eval (elem b) 0 m).
Proof.
  intros Ha Hb Hmn HnN Hd.
  eapply returns_mono; [apply (for_up_inv (fun i '(c, d') => dest d' N /\ 0 <= c <= 1 /\
    eval (elem d') 0 i - BASE ^ i * c = eval (elem a) 0 i - eval (elem b) 0 i))|by intros []].
  - lia.
  - split_and!; [done|lia|lia|]. rewrite !eval_0. lia.
  - intros i [c d'] Hi (Hd' & Hc & Hev). rd. rd. cbv zeta.
    pose proof (block_range a n na i Ha). pose proof (block_range b m nb i Hb).
    replace (u64 (u64 (dg (elem a) i - dg (elem b) i) - c))
      with (u64 (dg (elem a) i - dg (elem b) i - c)) by (unfold u64; zsolve).
    destruct (borrow_step d' N i (dg (elem a) i - dg (elem b) i - c)) as (Hp & Hs & Hr & He);
      [done|lia|lia|]. cbv zeta in *.
    wr. apply returns_ret. split_and!; [done|lia|lia|].
    rewrite He, !eval_succ by lia. rewrite !Z.add_0_l. lia.
Qed.

Lemma sub_rest_spec a n na d N c lo :
  li_block a n na -> n <= N -> dest d N -> 0 <= lo <= n -> 0 <= c <= 1 ->
  returns (for_up lo n (fun i '(borrow, d) =>
        da ← digit a i;
        let borrow := u64 (da - borrow) in
        d ← set_digit d i (Z.land borrow MASK);
        mret (Z.shiftr borrow (2 * BITS - 1), d)) (c, d))
    (fun '(c', d') => dest d' N /\ 0 <= c' <= 1 /\
       eval (elem d') 0 n - BASE ^ n * c' =
       eval (elem a) 0 n + (eval (elem d) 0 lo - BASE ^ lo * c - eval (elem a) 0 lo)).
Proof.
  intros Ha HnN Hd Hlo Hc.
  eapply returns_mono; [apply (for_up_inv (fun i '(c', d') => dest d' N /\ 0 <= c' <= 1 /\
    eval (elem d') 0 i - BASE ^ i * c' =
    eval (elem a) 0 i + (eval (elem d) 0 lo - BASE ^ lo * c - eval (elem a) 0 lo)))|by intros []].
  - lia.
  - split_and!; [done|lia|lia|]. lia.
  - intros i [c' d'] Hi (Hd' & Hc' & Hev). rd. cbv zeta.
    pose proof (block_range a n na i Ha).
    destruct (borrow_step d' N i (dg (elem a) i - c')) as (Hp & Hs & Hr & He);
      [done|lia|lia|]. cbv zeta in *.
    wr. apply returns_ret. split_and!; [done|lia|lia|].
    rewrite He, !eval_succ by lia. rewrite !Z.add_0_l. lia.
Qed.

(** Longer operands are larger (true of normalized operands; the callers that
    pass others ensure it). *)
Definition length_ordered (a : ALongInt) (n : Z) (b : ALongInt) (m : Z) : Prop :=
  (n < m -> li_abs a n <= li_abs b m) /\ (m < n -> li_abs b m <= li_abs a n).

Lemma SubAbsolute_order_spec a n na b m nb :
  operand a n na -> operand b m nb -> length_ordered a n b m ->
  returns (SubAbsolute_order a b) (fun '(x, y, sign) =>
    (x, y, sign) = (a, b, na) /\ m <= n /\ li_abs b m <= li_abs a n \/
    (x, y, sign) = (b, a, negb na) /\ n <= m /\ li_abs a n <= li_abs b m).
Proof.
  intros [Ha Hn] [Hb Hm] [Ho1 Ho2]. unfold SubAbsolute_order.
  rewrite (Len_block _ _ _ Ha), (Len_block _ _ _ Hb), (Sign_block _ _ _ Ha).
  destruct (Z.ltb_spec n m); [apply returns_ret; right; split_and!; [done|lia|auto]|].
  destruct (Z.eqb_spec n m) as [<-|]; [|apply returns_ret; left; split_and!; [done|lia|apply Ho2; lia]].
  eapply returns_bind.
  { replace (Z.to_nat n) with (Z.to_nat (n - 1 + 1)) by (f_equal; lia).
    apply (sub_scan_spec a n na b nb); [done|done|lia|lia]. }
  intros i (Hi & Hne & Heq). unfold li_abs.
  pose proof (lb_digits _ _ _ Ha). pose proof (lb_digits _ _ _ Hb).
  destruct (Z.leb_spec 0 i).
  - digit_step. digit_step. apply returns_ret.
    destruct (Z.ltb_spec (dg (elem a) i) (dg (elem b) i)).
    + right. split_and!; [done|lia|]. apply Z.lt_le_incl, (eval_lt _ _ n i); auto; lia.
    + left. split_and!; [done|lia|]. apply Z.lt_le_incl, (eval_lt _ _ n i); auto; [lia|..].
      * intros. symmetry. auto.
      * specialize (Hne ltac:(lia)). lia.
  - apply returns_ret. left. split_and!; [done|lia|]. apply Z.eq_le_incl, eval_ext; [|lia].
    intros j Hj. symmetry. apply Heq. lia.
Qed.

Lemma SubAbsolute_ordered_spec a n na b m nb :
  operand a n na -> operand b m nb -> m <= n -> li_abs b m <= li_abs a n ->
  returns (SubAbsolute_ordered a b) (fun d =>
    dest d n /\ li_abs d n = li_abs a n - li_abs b m).
Proof.
  intros [Ha Hn] [Hb Hm] Hmn Hle. unfold SubAbsolute_ordered. cbv zeta.
  rewrite (Len_block _ _ _ Ha), (Len_block _ _ _ Hb).
  eapply returns_bind; [apply CreateLongInt_dest; lia|]. intros d Hd.
  eapply returns_bind; [apply (sub_loop_spec a n na b m nb d n); (done || lia)|].
  intros [c d1] (Hd1 & Hc & He1).
  eapply returns_bind; [apply (sub_rest_spec a n na d1 n); (done || lia)|].
  intros [c' d2] (Hd2 & Hc' & He2). apply returns_ret. split; [done|].
  unfold li_abs in *. pose proof (eval_bound (elem d2) 0 n (lb_digits _ _ _ (proj1 Hd2)) ltac:(lia)).
  assert (c' = 0); nia.
Qed.

Lemma SubAbsolute_raw_spec a n na b m nb :
  operand a n na -> operand b m nb -> length_ordered a n b m ->
  returns (SubAbsolute_raw a b) (fun '(d, sign) =>
    dest d (Z.max n m) /\
    signed sign (li_abs d (Z.max n m)) = signed na (li_abs a n - li_abs b m)).
Proof.
  intros Ha Hb Ho. unfold SubAbsolute_raw.
  eapply returns_bind; [by apply (SubAbsolute_order_spec a n na b m nb)|].
  intros [[x y] sign] [(E & Hmn & Hle)|(E & Hmn & Hle)]; simplify_eq.
  - eapply returns_bind; [by apply (SubAbsolute_ordered_spec a n na b m nb)|].
    intros d (Hd & He). apply returns_ret. rewrite Z.max_l by lia. by rewrite He.
  - eapply returns_bind; [by apply (SubAbsolute_ordered_spec b m nb a n na)|].
    intros d (Hd & He). apply returns_ret. rewrite Z.max_r by lia. rewrite He.
    split; [done|]. unfold signed. destruct na; simpl; lia.
Qed.

Lemma small_signed neg x : small (signed neg x) <-> small x.
Proof. unfold small, signed. destruct neg; lia. Qed.

Lemma SubAbsolute_spec a n na b m nb :
  operand a n na -> operand b m nb -> length_ordered a n b m -> 2 <= Z.max n m ->
  small (li_abs a n - li_abs b m) ->
  returns (SubAbsolute a b true) (fun v => int_repr v (signed na (li_abs a n - li_abs b m))).
Proof.
  intros Ha Hb Ho H2 Hs. unfold SubAbsolute.
  eapply returns_bind; [by apply (SubAbsolute_raw_spec a n na b m nb)|].
  intros [d sign] ([Hd Hg] & He). rewrite <- He.
  apply ANormalize_spec; try done.
  apply (small_signed sign). rewrite He. by apply small_signed.
Qed.

(** ** The exported addition and subtraction *)

(** Operands as the interpreter passes them: a normalized long integer, or a
    short integer converted by [ACreateLongIntFromIntND]; two or more digits
    in at least one of them, and no leading zero digit unless the operand has
    a single one. *)
Definition trimmed (a : ALongInt) (n : Z) : Prop := 1 < n -> dg (elem a) (n - 1) <> 0.

Lemma trimmed_ordered a n na b m nb :
  operand a n na -> operand b m nb -> trimmed a n -> trimmed b m -> length_ordered a n b m.
Proof.
  assert (forall a n na b m nb, operand a n na -> operand b m nb -> trimmed b m ->
    n < m -> li_abs a n <= li_abs b m) as H.
  { clear. intros a n na b m nb [Ha Hn] [Hb Hm] Ht Hlt.
    pose proof (li_abs_bound _ _ _ Ha). unfold li_abs in *.
    pose proof (eval_top_lower _ m (lb_digits _ _ _ Hb) ltac:(lia) (Ht ltac:(lia))).
    assert (BASE ^ n <= BASE ^ (m - 1)) by (apply Z.pow_le_mono_r; lia). lia. }
  intros Ha Hb Hta Htb. split; intros; eauto.
Qed.

(** [a] denotes [z] without leading zero digits. *)
Definition li_trim (a : ALongInt) (z : Z) : Prop :=
  exists n neg, operand a n neg /\ trimmed a n /\ z = signed neg (li_abs a n).

Lemma li_norm_trim a z : li_norm a z -> li_trim a z.
Proof.
  intros (H & _ & m & -> & Ht). destruct H as (n & neg & Hb & Hn & ->).
  rewrite (Len_block _ _ _ Hb) in Ht. exists n, neg.
  split_and!; [by split; [|lia]|by intros _|done].
Qed.

(** Magnitudes outside the short range take at least two digits. *)
Lemma operand_long a n neg z :
  operand a n neg -> z = signed neg (li_abs a n) -> ~ short_range z -> 2 <= n.
Proof.
  intros [Ha Hn] -> Hs. destruct (decide (n = 1)) as [->|]; [|lia].
  exfalso. apply Hs. pose proof (li_abs_bound _ _ _ Ha). change (BASE ^ 1) with BASE in *.
  apply signed_range; [lia|]. destruct neg; lia.
Qed.

Lemma AAddLongInt_spec a x b y :
  li_trim a x -> li_trim b y -> (~ short_range x \/ ~ short_range y) -> small (x + y) ->
  returns (AAddLongInt a b) (fun v => int_repr v (x + y)).
Proof.
  intros (n & na & Ha & Hta & Hx) (m & nb & Hb & Htb & Hy) Hlong Hs. unfold AAddLongInt.
  rewrite (Sign_block _ _ _ (proj1 Ha)), (Sign_block _ _ _ (proj1 Hb)).
  assert (2 <= Z.max n m) as Hmax.
  { destruct Hlong as [H|H];
      [pose proof (operand_long a n na x Ha Hx H)|pose proof (operand_long b m nb y Hb Hy H)]; lia. }
  destruct (eqb na nb) eqn:E.
  - apply eqb_prop in E. subst nb.
    assert (x + y = signed na (li_abs a n + li_abs b m)) as Hxy by (subst; destruct na; simpl; lia).
    rewrite Hxy in *.
    eapply returns_mono; [apply (AddAbsolute_spec a n na b m na); try done; by apply (small_signed na)|].
    intros v. by destruct (n <? m).
  - assert (x + y = signed na (li_abs a n - li_abs b m)) as Hxy
      by (subst; destruct na, nb; simpl in *; done || lia).
    rewrite Hxy in *. apply (SubAbsolute_spec a n na b m nb); try done.
    + by eapply trimmed_ordered.
    + by apply (small_signed na).
Qed.

(** Subtraction takes the sign of the longer operand when it adds magnitudes:
    with operands of different signs and a shorter left operand the result
    has the opposite sign of the difference. *)
Definition sub_sign_defect (a b : ALongInt) : bool :=
  negb (eqb (AGetLongIntSign a) (AGetLongIntSign b)) &&
  (AGetLongIntLen a <? AGetLongIntLen b).

Lemma ASubLongInt_spec a x b y :
  li_trim a x -> li_trim b y -> (~ short_range x \/ ~ short_range y) -> small (x - y) ->
  returns (ASubLongInt a b) (fun v =>
    int_repr v (if sub_sign_defect a b then y - x else x - y)).
Proof.
  intros (n & na & Ha & Hta & Hx) (m & nb & Hb & Htb & Hy) Hlong Hs.
  unfold ASubLongInt, sub_sign_defect.
  rewrite (Sign_block _ _ _ (proj1 Ha)), (Sign_block _ _ _ (proj1 Hb)).
  rewrite (Len_block _ _ _ (proj1 Ha)), (Len_block _ _ _ (proj1 Hb)).
  assert (2 <= Z.max n m) as Hmax.
  { destruct Hlong as [H|H];
      [pose proof (operand_long a n na x Ha Hx H)|pose proof (operand_long b m nb y Hb Hy H)]; lia. }
  destruct (eqb na nb) eqn:E; simpl.
  - apply eqb_prop in E. subst nb.
    assert (x - y = signed na (li_abs a n - li_abs b m)) as Hxy by (subst; destruct na; simpl; lia).
    rewrite Hxy in *. apply (SubAbsolute_spec a n na b m na); try done.
    + by eapply trimmed_ordered.
    + by apply (small_signed na).
  - assert (x - y = signed na (li_abs a n + li_abs b m)) as Hd
      by (subst; destruct na, nb; simpl in *; done || lia).
    assert (y - x = signed nb (li_abs a n + li_abs b m)) as Hd'
      by (subst; destruct na, nb; simpl in *; done || lia).
    eapply returns_mono; [apply (AddAbsolute_spec a n na b m nb); try done|].
    + apply (small_signed na). by rewrite <- Hd.
    + intros v. by destruct (n <? m); rewrite ?Hd, ?Hd'.
Qed.

(** ** Conversion from machine integers *)

Lemma init_block d len neg :
  li_block d len false -> (neg = true -> 0 < len) ->
  li_block (MkLongInt (AInitLongIntBlock len neg) (elem d)) len neg.
Proof.
  intros [? _ _ ? ?] Hneg. constructor; simpl; try done.
  exists true. by apply AInitLongIntBlock_eq.
Qed.

Lemma two_digit_trim h e neg v0 v1 z :
  li_block (MkLongInt h e) 2 neg -> digit_ok v0 -> digit_ok v1 -> v1 <> 0 ->
  z = signed neg (v0 + BASE * v1) ->
  let li := MkLongInt h (upd (upd e 0 v0) 1 v1) in
  li_trim li z /\ AGetLongIntLen li <= 2 /\ AGetLongIntSign li = neg.
Proof.
  intros Hb H0 H1 Hne -> li. pose proof (lb_elem _ _ _ Hb) as Hl. simpl in Hl.
  pose proof (upd_block _ _ _ (upd_block _ _ _ Hb 0 v0 H0) 1 v1 H1) as Hb2.
  change (li_block li 2 neg) in Hb2.
  assert (dg (elem li) 1 = v1) as E1 by (apply dg_upd_eq; rewrite zlen_upd; lia).
  assert (dg (elem li) 0 = v0) as E0
    by (simpl; rewrite dg_upd_ne by lia; apply dg_upd_eq; lia).
  split; [|by rewrite (Len_block _ _ _ Hb2), (Sign_block _ _ _ Hb2)].
  pose proof MAXDIGITS_eq. exists 2, neg. split_and!.
  - split; [done|lia].
  - intros _. change (2 - 1) with 1. by rewrite E1.
  - unfold li_abs. by rewrite eval_2, E0, E1.
Qed.

Lemma one_digit_trim h e neg v0 z :
  li_block (MkLongInt h e) 1 neg -> digit_ok v0 -> z = signed neg v0 ->
  let li := MkLongInt h (upd e 0 v0) in
  li_trim li z /\ AGetLongIntLen li <= 2 /\ AGetLongIntSign li = neg.
Proof.
  intros Hb H0 -> li. pose proof (lb_elem _ _ _ Hb) as Hl. simpl in Hl.
  pose proof (upd_block _ _ _ Hb 0 v0 H0) as Hb1.
  change (li_block li 1 neg) in Hb1. split; [|rewrite (Len_block _ _ _ Hb1), (Sign_block _ _ _ Hb1); split; [lia|done]].
  pose proof MAXDIGITS_eq. exists 1, neg. split_and!.
  - split; [done|lia].
  - intros ?. lia.
  - unfold li_abs. simpl. by rewrite eval_1, dg_upd_eq by lia.
Qed.

(** The long integer of a machine word: one or two digits, no leading zero. *)
Lemma ACreateLongIntFromIntND_spec z :
  - H64 <= z < H64 ->
  returns (ACreateLongIntFromIntND z) (fun li =>
    li_trim li z /\ AGetLongIntLen li <= 2 /\ AGetLongIntSign li = (z <? 0)).
Proof.
  pose proof MAXDIGITS_eq. intros Hz. unfold ACreateLongIntFromIntND.
  destruct (Z.eqb_spec z (- H64)) as [->|Hne].
  - eapply returns_bind; [apply CreateLongInt_dest; lia|]. intros d [Hd _].
    pose proof (init_block d 2 true Hd ltac:(lia)) as Hb. cbv zeta. digit_step.
    pose proof (upd_block _ _ _ Hb 0 (u32 0) ltac:(done)) as Hb1. digit_step.
    by eapply two_digit_trim.
  - cbv zeta. set (neg := z <? 0). set (x := if neg then - z else z).
    assert (0 <= x < H64 /\ z = signed neg x) as [Hx Hzx].
    { subst x neg. unfold signed. destruct (Z.ltb_spec z 0); lia. }
    set (len := if MASK <? x then 2 else 1).
    assert (len = 2 /\ BASE <= x \/ len = 1 /\ x < BASE) as Hlen.
    { subst len. destruct (Z.ltb_spec MASK x); lia. }
    eapply returns_bind; [apply CreateLongInt_dest; lia|]. intros d [Hd _].
    pose proof (init_block d len neg Hd ltac:(lia)) as Hb. digit_step.
    pose proof (upd_block _ _ _ Hb 0 (u32 (Z.land x MASK)) (u32_range _)) as Hb1.
    rewrite u32_land in *.
    destruct Hlen as [[E Hx2]|[E Hx2]]; rewrite E in *; simpl.
    + digit_step. rewrite shiftr_bits, u32_small by zsolve.
      eapply two_digit_trim; [done|unfold digit_ok; zsolve..|rewrite Hzx; f_equal; zsolve].
    + apply returns_ret.
      eapply one_digit_trim; [done|unfold digit_ok; zsolve|rewrite Hzx; f_equal; zsolve].
Qed.

(** ** Comparison *)

Lemma s32_small x : -2147483648 <= x < 2147483648 -> s32 x = x.
Proof. intros. unfold s32. rewrite Z.mod_small; lia. Qed.

Lemma compare_digits_spec a n na b nb i :
  li_block a n na -> li_block b n nb -> -1 <= i < n ->
  (forall j, i < j < n -> dg (elem a) j = dg (elem b) j) ->
  returns (compare_digits (Z.to_nat (i + 1)) a b i) (fun r =>
    Z.sgn r = Z.sgn (li_abs a n - li_abs b n) /\ Z.abs r < BASE).
Proof.
  intros Ha Hb. remember (Z.to_nat (i + 1)) as f eqn:Ef. revert i Ef. unfold li_abs.
  pose proof (lb_digits _ _ _ Ha) as Hda. pose proof (lb_digits _ _ _ Hb) as Hdb.
  induction f as [|f IH]; intros i Ef Hi Heq; simpl.
  - apply returns_ret. split; [|lia].
    rewrite (eval_ext (elem a) (elem b) 0 0 n); [by rewrite Z.sub_diag|intros; apply Heq; lia|].
    destruct Ha. lia.
  - digit_step. digit_step. pose proof (block_range a n na i Ha). pose proof (block_range b n nb i Hb).
    destruct (Z.eqb_spec (dg (elem a) i) (dg (elem b) i)); simpl.
    + eapply returns_mono; [apply IH; [lia|lia|]|done].
      intros j Hj. destruct (decide (j = i)) as [->|]; [done|]. apply Heq. lia.
    + apply returns_ret. rewrite s64_small by lia. split; [|lia].
      destruct (Z.lt_total (dg (elem a) i) (dg (elem b) i)) as [Hlt|[?|Hlt]]; [|done|].
      * pose proof (eval_lt _ _ n i Hda Hdb ltac:(lia) Heq Hlt). lia.
      * pose proof (eval_lt _ _ n i Hdb Hda ltac:(lia) ltac:(intros; symmetry; auto) Hlt). lia.
Qed.

Lemma shorter_smaller a n na b m nb :
  operand a n na -> operand b m nb -> trimmed b m -> n < m -> li_abs a n < li_abs b m.
Proof.
  intros [Ha Hn] [Hb Hm] Ht Hlt. pose proof (li_abs_bound _ _ _ Ha). unfold li_abs in *.
  pose proof (eval_top_lower _ m (lb_digits _ _ _ Hb) ltac:(lia) (Ht ltac:(lia))).
  assert (BASE ^ n <= BASE ^ (m - 1)) by (apply Z.pow_le_mono_r; lia). lia.
Qed.

Lemma compare_abs_spec a n na b m nb :
  operand a n na -> operand b m nb -> trimmed a n -> trimmed b m ->
  returns (if negb (n =? m) then mret (s64 (n - m))
           else compare_digits (Z.to_nat (s32 (n - 1) + 1)) a b (s32 (n - 1))) (fun r =>
    Z.sgn r = Z.sgn (li_abs a n - li_abs b m) /\ Z.abs r < H64).
Proof.
  pose proof MAXDIGITS_eq. intros Ha Hb Hta Htb. destruct (Ha) as [Hba Hn], (Hb) as [Hbb Hm].
  destruct (Z.eqb_spec n m) as [<-|Hne]; simpl.
  - rewrite s32_small by lia.
    eapply returns_mono; [apply (compare_digits_spec a n na b nb); [done|done|lia|lia]|].
    simpl. intros r [? ?]. split; [done|lia].
  - apply returns_ret. rewrite s64_small by lia. split; [|lia].
    destruct (Z.lt_total n m) as [Hlt|[?|Hlt]]; [|done|].
    + pose proof (shorter_smaller a n na b m nb Ha Hb Htb Hlt). lia.
    + pose proof (shorter_smaller b m nb a n na Hb Ha Hta Hlt). lia.
Qed.

(** The sign of the comparison is the sign of the difference. *)
Lemma ACompareLongInt_spec a x b y :
  li_trim a x -> li_trim b y -> x <> 0 \/ y <> 0 ->
  returns (ACompareLongInt a b) (fun r => Z.sgn r = Z.sgn (x - y)).
Proof.
  intros (n & na & Ha & Hta & Hx) (m & nb & Hb & Htb & Hy) Hnz. unfold ACompareLongInt.
  rewrite (Sign_block _ _ _ (proj1 Ha)), (Sign_block _ _ _ (proj1 Hb)).
  rewrite (Len_block _ _ _ (proj1 Ha)), (Len_block _ _ _ (proj1 Hb)). cbv zeta.
  pose proof (li_abs_bound _ _ _ (proj1 Ha)). pose proof (li_abs_bound _ _ _ (proj1 Hb)).
  eapply (returns_bind _ _ (fun r => Z.sgn r = Z.sgn (signed na (x - y)) /\ Z.abs r < H64)).
  - destruct (eqb na nb) eqn:E.
    + apply eqb_prop in E. subst nb.
      replace (signed na (x - y)) with (li_abs a n - li_abs b m) by (subst; destruct na; simpl; lia).
      by apply (compare_abs_spec a n na b m na).
    + apply returns_ret. split; [|lia]. subst. destruct na, nb; simpl in *; done || lia.
  - simpl. intros r [Hr Hb64]. apply returns_ret. destruct na; simpl in *; [|done].
    rewrite s64_small by lia. lia.
Qed.

(** ** Negation *)

(** The guard of [ANegateLongInt] looks at the two low digits only. *)
Definition negate_defect (a : ALongInt) : bool :=
  negb (AGetLongIntSign a) && (2 <? AGetLongIntLen a) &&
  (dg (elem a) 0 =? 0) && (dg (elem a) 1 =? SHORT_TOP).

(** The digits of the one positive long integer whose negation is short. *)
Lemma min_pos_long_digits a n na :
  operand a n na -> trimmed a n -> 2 <= n -> li_abs a n = 2305843009213693952 ->
  n = 2 /\ dg (elem a) 0 = 0 /\ dg (elem a) 1 = SHORT_TOP.
Proof.
  intros [Hb Hn] Ht Hn2 Hv. rewrite SHORT_TOP_eq. unfold li_abs in Hv.
  assert (n = 2) as ->.
  { destruct (decide (n = 2)); [done|].
    pose proof (eval_top_lower _ n (lb_digits _ _ _ Hb) ltac:(lia) (Ht ltac:(lia))).
    assert (BASE ^ 2 <= BASE ^ (n - 1)) by (apply Z.pow_le_mono_r; lia). lia. }
  rewrite eval_2 in Hv. pose proof (block_range a 2 na 0 Hb). pose proof (block_range a 2 na 1 Hb). lia.
Qed.

(** The copying branch. *)
Lemma negate_copy_spec a n na :
  operand a n na -> trimmed a n -> 2 <= n -> ~ short_range (- signed na (li_abs a n)) ->
  returns (d ← CreateLongInt n;
    d ← for_up 0 n (fun i d => x ← digit a i; set_digit d i x) d;
    mret (VLong (if negb na then ASetLongIntSign d else d)))
    (fun v => int_repr v (- signed na (li_abs a n))).
Proof.
  intros [Hb Hn] Hta Hn2 Hns.
  eapply returns_bind; [apply CreateLongInt_dest; lia|]. intros d [Hd _].
  eapply returns_bind; [apply (copy_loop_spec a n na d n false); (done || lia)|].
  intros d' (Hd' & Hsd). apply returns_ret.
  apply (li_norm_intro _ n (negb na)); [| lia | | | |done].
  - destruct na; simpl; [done|]. apply set_sign_block; [done|lia].
  - destruct na; simpl; rewrite Hsd by lia; apply Hta; lia.
  - unfold li_abs. destruct na; simpl; rewrite (same_digits_eval _ _ n ltac:(lia) Hsd); lia.
  - apply (small_of_digits _ n); [lia|]. pose proof (li_abs_bound _ _ _ Hb). unfold signed. destruct na; lia.
Qed.

(** Negation is right except on the positive operands of three or more digits
    whose low digits are those of 2^61, which it maps to the least short
    integer. *)
Lemma ANegateLongInt_spec a x :
  li_norm a x ->
  returns (ANegateLongInt a) (fun v =>
    if negate_defect a then v = VInt (AIntToValue A_SHORT_INT_MIN) else int_repr v (- x)).
Proof.
  intros Hnorm. pose proof (li_norm_trim a x Hnorm) as (n & na & Ha & Hta & Hx).
  destruct Hnorm as (_ & Hns & _). pose proof (operand_long a n na x Ha Hx Hns) as Hn2.
  destruct (Ha) as [Hb Hn]. unfold ANegateLongInt, negate_defect.
  rewrite (Sign_block _ _ _ Hb), (Len_block _ _ _ Hb). cbv zeta. digit_step. digit_step.
  destruct (negb na && (dg (elem a) 0 =? 0) && (dg (elem a) 1 =? SHORT_TOP)) eqn:E.
  - apply andb_prop in E as [[E1 E2]%andb_prop E3]. rewrite E1, E2, E3. simpl.
    apply returns_ret. destruct (Z.ltb_spec 2 n); simpl; [done|].
    assert (n = 2) as -> by lia. unfold li_abs in Hx. rewrite eval_2 in Hx.
    destruct na; [done|]. apply Z.eqb_eq in E2, E3. rewrite E2, E3, SHORT_TOP_eq in Hx.
    rewrite Hx. done.
  - replace (negb na && (2 <? n) && (dg (elem a) 0 =? 0) && (dg (elem a) 1 =? SHORT_TOP)) with false.
    2:{ rewrite (andb_comm (negb na)), <- !andb_assoc, (andb_assoc (negb na)), E. by rewrite andb_false_r. }
    rewrite Hx. apply negate_copy_spec; try done. rewrite <- Hx. intros Hs.
    assert (x = 2305843009213693952) as Hmin
      by (revert Hns Hs; unfold short_range, A_SHORT_INT_MAX, A_SHORT_INT_MIN; lia).
    pose proof (li_abs_bound _ _ _ Hb). destruct na; simpl in Hx; [lia|].
    destruct (min_pos_long_digits a n false Ha Hta Hn2 ltac:(lia)) as (_ & E0 & E1).
    by rewrite E0, E1, Z.eqb_refl in E.
Qed.

(** ** Single digit operations *)

(** Copying the remaining digits after a carry chain has ended. *)
Lemma copy_rest_spec a n na d N lo :
  li_block a n na -> dest d N -> 0 <= lo <= n -> n <= N ->
  returns (for_up lo n (fun i d => x ← digit a i; set_digit d i x) d)
    (fun d' => dest d' N /\
       eval (elem d') 0 n = eval (elem a) 0 n + (eval (elem d) 0 lo - eval (elem a) 0 lo)).
Proof.
  intros Ha [Hd Hg] Hlo HN.
  eapply returns_mono; [apply (copy_range_spec a n na d N false); (done || lia)|].
  simpl. intros d' (Hd' & Hh & Hz & Hin & Hout). split.
  - split; [done|]. unfold new_gen in *. by rewrite Hh, Hz.
  - replace n with (lo + (n - lo)) by lia. rewrite !(eval_app _ _ lo) by lia.
    rewrite (eval_ext (elem d') (elem d) 0 0 lo) by (try lia; intros; apply Hout; lia).
    rewrite (eval_ext (elem d') (elem a) (0 + lo) (0 + lo) (n - lo)) by (try lia; intros; apply Hin; lia).
    lia.
Qed.

Lemma add_single_loop_spec a n na d N i carry :
  li_block a n na -> n <= N -> dest d N -> 0 <= i <= n -> digit_ok carry ->
  (i = n -> carry <= 1) ->
  returns (add_single_loop (Z.to_nat (n - i)) a d i carry) (fun '(k, c, d') =>
    dest d' N /\ i <= k <= n /\ 0 <= c <= 1 /\ (k < n -> c = 0) /\
    eval (elem d') 0 k + BASE ^ k * c - eval (elem a) 0 k =
    eval (elem d) 0 i + BASE ^ i * carry - eval (elem a) 0 i).
Proof.
  intros Ha HN. remember (Z.to_nat (n - i)) as f eqn:Ef. revert i carry d Ef.
  unfold digit_ok.
  induction f as [|f IH]; intros i carry d Ef Hd Hi Hc Hcn; simpl.
  - apply returns_ret. assert (i = n) as -> by lia. split_and!; try done; lia.
  - rd. pose proof (block_range a n na i Ha) as Hda.
    set (res := u32 (carry + dg (elem a) i)). wr.
    assert (u32 res = (carry + dg (elem a) i) mod BASE) as Hres
      by (subst res; unfold u32; by rewrite Zmod_mod).
    pose proof (eval_put0 d N i res (carry + dg (elem a) i) Hd ltac:(lia) Hres) as Hev.
    assert (res = (carry + dg (elem a) i) mod BASE) as Hr by done.
    destruct (Z.leb_spec (dg (elem a) i) res).
    + apply returns_ret. assert ((carry + dg (elem a) i) / BASE = 0) as E by zsolve.
      rewrite E in Hev. split_and!; [by apply dest_put|lia|lia|lia|lia|done|].
      rewrite (eval_succ (elem a)) by lia. rewrite !Z.add_0_l in *. lia.
    + assert ((carry + dg (elem a) i) / BASE = 1) as E by zsolve. rewrite E in Hev.
      eapply returns_mono; [apply IH; [lia|by apply dest_put|lia|lia|lia]|].
      intros [[k c] d'] (? & ? & ? & ? & He). split_and!; try done; try lia.
      rewrite He, (eval_succ (elem a)) by lia. rewrite !Z.add_0_l in *. lia.
Qed.

Lemma AddAbsoluteSingle_spec a n na add :
  operand a n na -> digit_ok add -> small (li_abs a n + add) ->
  returns (AddAbsoluteSingle a add) (fun v => int_repr v (signed na (li_abs a n + add))).
Proof.
  pose proof MAXDIGITS_eq. intros [Ha Hn] Hadd Hs. unfold AddAbsoluteSingle. cbv zeta.
  rewrite (Len_block _ _ _ Ha), (Sign_block _ _ _ Ha), u64_small by lia.
  eapply returns_bind; [apply CreateLongInt_dest; lia|]. intros d Hd.
  rewrite u32_small by done. replace (Z.to_nat n) with (Z.to_nat (n - 0)) by (f_equal; lia).
  eapply returns_bind; [apply (add_single_loop_spec a n na d (n + 1)); (done || lia)|].
  intros [[k c] d1] (Hd1 & Hk & Hc & Hcn & He1). rewrite !eval_0 in He1.
  eapply returns_bind; [apply (copy_rest_spec a n na d1 (n + 1) k); (done || lia)|].
  intros d2 (Hd2 & He2). wr.
  assert (li_abs (put d2 n c) (n + 1) = li_abs a n + add) as Hv.
  { unfold li_abs. rewrite (eval_put_top d2 (n + 1)) by (done || unfold digit_ok; lia).
    destruct (decide (k = n)) as [->|]; [lia|]. rewrite (Hcn ltac:(lia)) in *. lia. }
  rewrite <- Hv in *. destruct (dest_put d2 (n + 1) n c Hd2). apply ANormalize_spec; (done || lia).
Qed.

Lemma sub_single_loop_spec a n na d N i borrow :
  li_block a n na -> n <= N -> dest d N -> 0 <= i <= n -> digit_ok borrow ->
  (i = n -> borrow <= 1) ->
  returns (sub_single_loop (Z.to_nat (n - i)) a d i borrow) (fun '(k, c, d') =>
    dest d' N /\ i <= k <= n /\ 0 <= c <= 1 /\ (k < n -> c = 0) /\
    eval (elem d') 0 k - BASE ^ k * c - eval (elem a) 0 k =
    eval (elem d) 0 i - BASE ^ i * borrow - eval (elem a) 0 i).
Proof.
  intros Ha HN. remember (Z.to_nat (n - i)) as f eqn:Ef. revert i borrow d Ef.
  unfold digit_ok.
  induction f as [|f IH]; intros i borrow d Ef Hd Hi Hc Hcn; simpl.
  - apply returns_ret. assert (i = n) as -> by lia. split_and!; try done; lia.
  - rd. pose proof (block_range a n na i Ha) as Hda.
    set (res := u32 (dg (elem a) i - borrow)). wr.
    assert (u32 res = (dg (elem a) i - borrow) mod BASE) as Hres
      by (subst res; unfold u32; by rewrite Zmod_mod).
    pose proof (eval_put0 d N i res (dg (elem a) i - borrow) Hd ltac:(lia) Hres) as Hev.
    assert (res = (dg (elem a) i - borrow) mod BASE) as Hr by done.
    destruct (Z.leb_spec res (dg (elem a) i)).
    + apply returns_ret. assert ((dg (elem a) i - borrow) / BASE = 0) as E by zsolve.
      rewrite E in Hev. split_and!; [by apply dest_put|lia|lia|lia|lia|done|].
      rewrite (eval_succ (elem a)) by lia. rewrite !Z.add_0_l in *. lia.
    + assert ((dg (elem a) i - borrow) / BASE = -1) as E by zsolve. rewrite E in Hev.
      eapply returns_mono; [apply IH; [lia|by apply dest_put|lia|lia|lia]|].
      intros [[k c] d'] (? & ? & ? & ? & He). split_and!; try done; try lia.
      rewrite He, (eval_succ (elem a)) by lia. rewrite !Z.add_0_l in *. lia.
Qed.

Lemma SubAbsoluteSingle_raw_spec a n na sub :
  operand a n na -> digit_ok sub -> sub <= li_abs a n ->
  returns (SubAbsoluteSingle_raw a sub) (fun d => dest d n /\ li_abs d n = li_abs a n - sub).
Proof.
  intros [Ha Hn] Hsub Hle. unfold SubAbsoluteSingle_raw. cbv zeta.
  rewrite (Len_block _ _ _ Ha).
  eapply returns_bind; [apply CreateLongInt_dest; lia|]. intros d Hd.
  rewrite u32_small by done. replace (Z.to_nat n) with (Z.to_nat (n - 0)) by (f_equal; lia).
  eapply returns_bind; [apply (sub_single_loop_spec a n na d n); (done || lia)|].
  intros [[k c] d1] (Hd1 & Hk & Hc & Hcn & He1). rewrite !eval_0 in He1.
  eapply returns_mono; [apply (copy_rest_spec a n na d1 n k); (done || lia)|].
  simpl. intros d2 (Hd2 & He2). split; [done|]. unfold li_abs in *.
  destruct (decide (k = n)) as [->|]; [|rewrite (Hcn ltac:(lia)) in *; lia].
  pose proof (eval_bound (elem d1) 0 n (lb_digits _ _ _ (proj1 Hd1)) ltac:(lia)).
  pose proof (BASE_pow_pos n ltac:(lia)). assert (c = 0) by nia. subst. lia.
Qed.

Lemma SubAbsoluteSingle_spec a n na sub :
  operand a n na -> digit_ok sub -> sub <= li_abs a n -> 2 <= n ->
  returns (SubAbsoluteSingle a sub true) (fun v => int_repr v (signed na (li_abs a n - sub))).
Proof.
  intros Ha Hsub Hle Hn2. unfold SubAbsoluteSingle.
  eapply returns_bind; [by apply (SubAbsoluteSingle_raw_spec a n na)|].
  intros d ([Hd Hg] & <-). rewrite (Sign_block _ _ _ (proj1 Ha)).
  apply ANormalize_spec; try done. destruct Ha as [Hb Hn].
  apply (small_of_digits _ n); [lia|]. pose proof (li_abs_bound _ _ _ Hd). lia.
Qed.

Lemma operand_large a n na x :
  operand a n na -> x = signed na (li_abs a n) -> ~ short_range x -> BASE <= li_abs a n.
Proof.
  intros [Ha _] -> Hns. pose proof (li_abs_bound _ _ _ Ha).
  revert Hns. unfold short_range, A_SHORT_INT_MAX, A_SHORT_INT_MIN, signed. destruct na; lia.
Qed.

(** Adding a digit to, and subtracting one from, a normalized long integer. *)
Lemma AAddLongIntSingle_spec a x i :
  li_norm a x -> digit_ok i -> small (x + i) ->
  returns (AAddLongIntSingle a i) (fun v => int_repr v (x + i)).
Proof.
  intros Hnorm Hi Hs. pose proof (li_norm_trim a x Hnorm) as (n & na & Ha & Hta & Hx).
  destruct Hnorm as (_ & Hns & _). pose proof (operand_long a n na x Ha Hx Hns) as Hn2.
  pose proof (operand_large a n na x Ha Hx Hns). unfold AAddLongIntSingle.
  rewrite (Sign_block _ _ _ (proj1 Ha)). unfold digit_ok in Hi.
  destruct na; simpl in Hx.
  - replace (x + i) with (signed true (li_abs a n - i)) by (simpl; lia).
    by apply SubAbsoluteSingle_spec; [..|lia|].
  - replace (x + i) with (signed false (li_abs a n + i)) in * by (simpl; lia).
    by apply AddAbsoluteSingle_spec.
Qed.

Lemma ASubLongIntSingle_spec a x i :
  li_norm a x -> digit_ok i -> small (x - i) ->
  returns (ASubLongIntSingle a i) (fun v => int_repr v (x - i)).
Proof.
  intros Hnorm Hi Hs. pose proof (li_norm_trim a x Hnorm) as (n & na & Ha & Hta & Hx).
  destruct Hnorm as (_ & Hns & _). pose proof (operand_long a n na x Ha Hx Hns) as Hn2.
  pose proof (operand_large a n na x Ha Hx Hns). unfold ASubLongIntSingle.
  rewrite (Sign_block _ _ _ (proj1 Ha)). unfold digit_ok in Hi.
  destruct na; simpl in Hx.
  - replace (x - i) with (signed true (li_abs a n + i)) in * by (simpl; lia).
    apply AddAbsoluteSingle_spec; try done. by apply (small_signed true).
  - replace (x - i) with (signed false (li_abs a n - i)) by (simpl; lia).
    by apply SubAbsoluteSingle_spec; [..|lia|].
Qed.

(** ** Division and multiplication by a digit *)

Lemma div_digit_step rem da b :
  0 <= rem < b -> b < BASE -> 0 <= da < BASE ->
  u64 (u64 (Z.shiftl rem BITS) + da) = rem * BASE + da /\
  0 <= (rem * BASE + da) / b < BASE.
Proof.
  intros Hr Hb Hda. rewrite shiftl_bits, (u64_small (rem * BASE)) by lia.
  rewrite u64_small by lia. split; [done|].
  split; [apply Z.div_pos; lia|]. apply Z.div_lt_upper_bound; nia.
Qed.

Lemma div_single_loop_spec a n na d b :
  li_block a n na -> 1 <= n -> dest d n -> 0 < b < BASE ->
  returns (for_down (n - 1) 0 (fun i '(rem, d) =>
      da ← digit a i;
      let rem := u64 (u64 (Z.shiftl rem BITS) + da) in
      d ← set_digit d i (rem / b);
      mret (rem mod b, d)) (0, d))
    (fun '(rem, d') => dest d' n /\ 0 <= rem < b /\
      eval (elem d') 0 n * b + rem = eval (elem a) 0 n).
Proof.
  intros Ha Hn Hd Hb.
  eapply returns_mono; [apply (for_down_inv (fun i '(rem, d') =>
    dest d' n /\ 0 <= rem < b /\
    eval (elem d') i (n - i) * b + rem = eval (elem a) i (n - i)))|].
  - lia.
  - split_and!; [done|lia|lia|]. replace (n - (n - 1 + 1)) with 0 by lia. done.
  - intros i [rem d'] Hi (Hd' & Hrem & Hev). rd. cbv zeta.
    pose proof (block_range a n na i Ha) as Hda.
    destruct (div_digit_step rem (dg (elem a) i) b) as [-> Hq]; [done|lia|done|].
    wr. apply returns_ret. split_and!; [by apply dest_put| | |].
    + apply Z.mod_pos_bound. lia.
    + apply Z.mod_pos_bound. lia.
    + rewrite (eval_low _ i), (eval_low (elem a) i) by lia.
      rewrite (dg_put_eq d' n), eval_put_out, u32_small by (done || lia).
      replace (n - i - 1) with (n - (i + 1)) by lia. rewrite <- Hev.
      pose proof (Z.div_mod (rem * BASE + dg (elem a) i) b). nia.
  - intros [rem d']. by rewrite Z.sub_0_r.
Qed.

(** A non-negative block of [m] digits without leading zeroes. *)
Definition nat_block (d : ALongInt) (m z : Z) : Prop :=
  li_block d m false /\ trimmed d m /\ li_abs d m = z.

(** Truncation of a destination block, as seen by the callers that keep the
    result a long integer. *)
Lemma truncate_dest d n :
  dest d n -> 1 <= n ->
  returns (TruncateZeroDigits d false) (fun d' => exists m,
    nat_block d' m (li_abs d n) /\ 0 <= m <= n /\ (2 <= n -> 1 <= m) /\ new_gen d' /\
    same_digits (elem d') (elem d) 2 /\ (m = n -> dg (elem d') (m - 1) <> 0)).
Proof.
  intros [Hd Hg] Hn. eapply returns_mono; [by apply (TruncateZeroDigits_spec d n)|].
  simpl. intros d' (m & (Hb & Hm & Hm1 & Habs & Htop & _ & Hfull) & Hc). destruct (Hc Hg) as [Hg' Hsd].
  exists m. split_and!; done || lia.
Qed.

(** Quotient and remainder by a digit.  A one-digit operand yields a block of
    no digits when the quotient is zero; the cell of digit 0 holds the zero. *)
Lemma ADivModSingle_spec a n na b :
  operand a n na -> 0 < b < BASE ->
  returns (ADivModSingle a b) (fun '(d, r) =>
    exists m, nat_block d m (li_abs a n / b) /\ 0 <= m <= n /\ (2 <= n -> 1 <= m) /\
      new_gen d /\ (m = 0 -> dg (elem d) 0 = 0) /\ (m = n -> dg (elem d) (m - 1) <> 0) /\
      r = li_abs a n mod b).
Proof.
  intros [Ha Hn] Hb. unfold ADivModSingle. destruct (Z.eqb_spec b 0); [lia|].
  rewrite (Len_block _ _ _ Ha). cbv zeta.
  eapply returns_bind; [apply CreateLongInt_dest; lia|]. intros d Hd.
  eapply returns_bind; [apply (div_single_loop_spec a n na d b); (done || lia)|].
  intros [rem d1] (Hd1 & Hrem & Hev).
  assert (li_abs a n / b = li_abs d1 n /\ li_abs a n mod b = rem) as [-> ->].
  { unfold li_abs. split; symmetry;
      [apply (Z.div_unique _ _ _ rem)|apply (Z.mod_unique _ _ (eval (elem d1) 0 n))]; lia. }
  eapply returns_bind; [apply (truncate_dest d1 n); (done || lia)|].
  intros d2 (m & Hnb & Hm & Hm1 & Hg & Hsd & Hfull). apply returns_ret.
  exists m. rewrite u32_small by lia. split_and!; try done; try lia.
  intros ->. rewrite Hsd by lia. destruct (decide (2 <= n)); [lia|].
  assert (n = 1) as -> by lia. destruct Hnb as (_ & _ & E). unfold li_abs in E.
  by rewrite eval_0, eval_1 in E.
Qed.

Lemma mul_single_loop_spec a n na d N mul add :
  li_block a n na -> 0 <= n < N -> dest d N -> digit_ok mul -> digit_ok add ->
  returns (for_up 0 n (fun i '(carry, d) =>
      da ← digit a i;
      let carry := u64 (carry + u64 (da * mul)) in
      d ← set_digit d i (Z.land carry MASK);
      mret (Z.shiftr carry BITS, d)) (add, d))
    (fun '(c, d') => dest d' N /\ digit_ok c /\
      eval (elem d') 0 n + BASE ^ n * c = eval (elem a) 0 n * mul + add).
Proof.
  unfold digit_ok. intros Ha HnN Hd Hmul Hadd.
  eapply returns_mono; [apply (for_up_inv (fun i '(c, d') => dest d' N /\ digit_ok c /\
    eval (elem d') 0 i + BASE ^ i * c = eval (elem a) 0 i * mul + add))|by intros []].
  - lia.
  - split_and!; [done|done|]. rewrite !eval_0. lia.
  - intros i [c d'] Hi (Hd' & Hc & Hev). rd. cbv zeta. unfold digit_ok in Hc.
    pose proof (block_range a n na i Ha).
    assert (0 <= dg (elem a) i * mul <= 18446744065119617025) by nia.
    rewrite (u64_small (dg (elem a) i * mul)) by lia.
    destruct (carry_step d' N i c (dg (elem a) i * mul)) as (Hp & Hs & He);
      [done|lia|lia|lia|lia|]. cbv zeta in *.
    wr. apply returns_ret. split_and!; [done|rewrite Hs; unfold digit_ok; zsolve|].
    rewrite He, !eval_succ by lia. rewrite !Z.add_0_l. nia.
Qed.

Lemma AMulAddSingle_spec a n na mul add :
  operand a n na -> digit_ok mul -> digit_ok add ->
  returns (AMulAddSingle a mul add) (fun d => exists m,
    nat_block d m (li_abs a n * mul + add) /\ 1 <= m <= n + 1 /\ new_gen d).
Proof.
  pose proof MAXDIGITS_eq. intros [Ha Hn] Hmul Hadd. unfold AMulAddSingle. cbv zeta.
  rewrite (Len_block _ _ _ Ha), u64_small by lia.
  eapply returns_bind; [apply CreateLongInt_dest; lia|]. intros d Hd.
  eapply returns_bind; [apply (mul_single_loop_spec a n na d (n + 1)); (done || lia)|].
  intros [c d1] (Hd1 & Hc & He). wr.
  eapply returns_mono; [apply (truncate_dest _ (n + 1)); [by apply dest_put|lia]|].
  simpl. intros d2 (m & Hnb & Hm & Hm1 & Hg & _). exists m. split_and!; try done; try lia.
  unfold li_abs in *. by rewrite (eval_put_top d1 (n + 1)), He in Hnb by (done || lia).
Qed.

(** ** Multiplication *)

Lemma zero_loop_spec d N m :
  dest d N -> 0 <= m <= N ->
  returns (for_up 0 m (fun i d => set_digit d i 0) d) (fun d' => dest d' N /\ eval (elem d') 0 m = 0).
Proof.
  intros Hd Hm.
  apply (for_up_inv (fun i d' => dest d' N /\ eval (elem d') 0 i = 0)); [lia|done|].
  intros i d' Hi [Hd' He]. eapply evals_returns; [apply (set_digit_put _ N); (done || lia)|].
  split; [by apply dest_put|]. rewrite (eval_put_top d' N) by (done || lia). lia.
Qed.

(** The inner loop adds [a[i] * b] to the window of [d] at [i]. *)
Lemma mul_inner_spec a n na b m nb d N i :
  li_block a n na -> li_block b m nb -> dest d N -> 0 <= i < n -> 0 <= m -> i + m < N ->
  returns (for_up 0 m (fun j '(carry, d) =>
            dd ← digit d (i + j);
            da ← digit a i;
            db ← digit b j;
            let carry := u64 (carry + u64 (dd + u64 (da * db))) in
            d ← set_digit d (i + j) (Z.land carry MASK);
            mret (Z.shiftr carry BITS, d)) (0, d))
    (fun '(c, d') => dest d' N /\ digit_ok c /\ eval (elem d') 0 i = eval (elem d) 0 i /\
      eval (elem d') i m + BASE ^ m * c = eval (elem d) i m + dg (elem a) i * eval (elem b) 0 m).
Proof.
  intros Ha Hb Hd Hi Hm HN.
  eapply returns_mono; [apply (for_up_inv (fun j '(c, d') => dest d' N /\ digit_ok c /\
    eval (elem d') 0 i = eval (elem d) 0 i /\
    (forall k, i + j <= k -> dg (elem d') k = dg (elem d) k) /\
    eval (elem d') i j + BASE ^ j * c = eval (elem d) i j + dg (elem a) i * eval (elem b) 0 j))|].
  - lia.
  - unfold digit_ok. split_and!; try done; try lia. rewrite !eval_0. lia.
  - intros j [c d'] Hj (Hd' & Hc & Hlo & Hhi & Hev). unfold digit_ok in Hc. rd. rd. rd. cbv zeta.
    pose proof (block_range a n na i Ha). pose proof (block_range b m nb j Hb).
    pose proof (digit_range d' N (i + j) Hd').
    assert (0 <= dg (elem a) i * dg (elem b) j <= 18446744065119617025) by nia.
    rewrite (u64_small (_ * _)), (u64_small (dg (elem d') (i + j) + _)), u64_small by lia.
    set (x := c + (dg (elem d') (i + j) + dg (elem a) i * dg (elem b) j)). wr.
    pose proof (eval_put d' N i j (Z.land x MASK) x Hd' ltac:(lia) ltac:(lia) ltac:(lia) (u32_land x)).
    apply returns_ret. rewrite shiftr_bits. split_and!.
    + by apply dest_put.
    + unfold digit_ok. subst x. zsolve.
    + rewrite eval_put_out by lia. done.
    + intros k Hk. rewrite dg_put_ne by lia. apply Hhi. lia.
    + rewrite (eval_succ (elem d)), (eval_succ (elem b)), <- (Hhi (i + j)) by lia.
      rewrite Z.add_0_l. subst x. nia.
  - intros [c d'] (? & ? & ? & _ & ?). done.
Qed.

Lemma AMultiplyLongInt_spec a n na b m nb :
  operand a n na -> operand b m nb -> small (li_abs a n * li_abs b m) ->
  returns (AMultiplyLongInt a b) (fun v =>
    int_repr v (signed (xorb na nb) (li_abs a n * li_abs b m))).
Proof.
  intros [Ha Hn] [Hb Hm] Hs. unfold AMultiplyLongInt. cbv zeta.
  rewrite (Len_block _ _ _ Ha), (Len_block _ _ _ Hb), (Sign_block _ _ _ Ha), (Sign_block _ _ _ Hb).
  eapply returns_bind; [apply CreateLongInt_dest; lia|]. intros d Hd.
  eapply returns_bind; [apply (zero_loop_spec d (n + m) m); (done || lia)|]. intros d0 [Hd0 He0].
  eapply returns_bind.
  { apply (for_up_inv (fun i d' => dest d' (n + m) /\
      eval (elem d') 0 (i + m) = eval (elem a) 0 i * eval (elem b) 0 m)); [lia|done|].
    intros i d' Hi [Hd' He].
    eapply returns_bind; [apply (mul_inner_spec a n na b m nb d' (n + m)); (done || lia)|].
    intros [c d2] (Hd2 & Hc & Hlo & Hev).
    eapply evals_returns; [apply (set_digit_put _ (n + m)); (done || lia)|].
    split; [by apply dest_put|].
    replace (i + 1 + m) with (i + m + 1) by lia.
    rewrite (eval_put_top d2 (n + m)), (eval_succ (elem a)) by (done || lia).
    rewrite eval_app in * by lia. rewrite !Z.add_0_l in *.
    rewrite Hlo, Z.pow_add_r by lia. nia. }
  intros d1 [[Hd1 Hg1] He]. fold (li_abs a n) (li_abs b m) (li_abs d1 (n + m)) in He.
  rewrite <- He in *. apply ANormalize_spec; (done || lia).
Qed.

(** The product of two long integers of any form. *)
Lemma AMultiplyLongInt_repr a x b y :
  li_repr a x -> li_repr b y -> small (x * y) ->
  returns (AMultiplyLongInt a b) (fun v => int_repr v (x * y)).
Proof.
  rewrite !operand_repr. intros (n & na & Ha & Hx) (m & nb & Hb & Hy) Hs.
  replace (x * y) with (signed (xorb na nb) (li_abs a n * li_abs b m)) in *
    by (subst; destruct na, nb; simpl; lia).
  apply AMultiplyLongInt_spec; try done. by apply (small_signed (xorb na nb)).
Qed.

(** ** Hashing *)

(** The hash of a sequence of digits: a polynomial in 33 modulo 2^64. *)
Fixpoint hash_poly (l : list Z) (h : Z) : Z :=
  match l with
  | [] => h
  | d :: l' => hash_poly l' (33 * h + d)
  end.

Lemma hash_poly_app l d h : hash_poly (l ++ [d]) h = 33 * hash_poly l h + d.
Proof. revert h. induction l; simpl; intros; auto. Qed.

Lemma take_succ_dg l i :
  0 <= i < zlen l -> take (Z.to_nat (i + 1)) l = take (Z.to_nat i) l ++ [dg l i].
Proof.
  intros Hi. replace (Z.to_nat (i + 1)) with (S (Z.to_nat i)) by lia.
  apply take_S_r. unfold dg. rewrite nth_lookup.
  destruct (lookup_lt_is_Some_2 l (Z.to_nat i)) as [x Hx]; [lia|]. by rewrite Hx.
Qed.

(** The hash value depends on the digits alone (neither on the sign nor on
    the unused cells of the block). *)
Lemma ALongIntHashValue_spec l n neg :
  li_block l n neg ->
  returns (ALongIntHashValue l) (fun h =>
    h = AIntToValue (hash_poly (take (Z.to_nat n) (elem l)) 0)).
Proof.
  intros Hb. unfold ALongIntHashValue. rewrite (Len_block _ _ _ Hb).
  pose proof (lb_elem _ _ _ Hb) as Hl. destruct (lb_len _ _ _ Hb) as [Hn _].
  eapply returns_bind.
  { apply (for_up_inv (fun i h => h = u64 (hash_poly (take (Z.to_nat i) (elem l)) 0))); [lia|done|].
    intros i h Hi ->. digit_step. apply returns_ret.
    rewrite take_succ_dg, hash_poly_app by lia. unfold u64. zsolve. }
  intros h ->. apply returns_ret. unfold AIntToValue. f_equal. unfold u64. by rewrite Zmod_mod.
Qed.
