(* ===== verification/LongIntDiv.v ===== *)
(** * LongIntDiv: long division

    [Shl], [Shr] and [ADivModLongInt] of [std_int_long.c]: schoolbook division
    with a normalized divisor, a quotient digit estimated from the leading
    digits and corrected twice. *)

From S2P Require Import Prelude Runtime Digits Value LongInt.

(** ** Shifts *)

(** [Shl(src, dst, shift)]: [dst] (a distinct block) becomes [src << shift]. *)
Definition Shl (src dst : ALongInt) (shift : Z) : M ALongInt :=
  let wordShift := shift / BITS in
  let bitShift := Z.land shift (BITS - 1) in
  let srcLen := AGetLongIntLen src in
  let dstLen := u64 (srcLen + wordShift) in
  top ← digit src (srcLen - 1);
  let carry := u64 (Z.shiftl top bitShift) in
  '(dst, dstLen) ←
    (if MASK <? carry then
       dst ← set_digit dst dstLen (Z.shiftr carry BITS);
       mret (dst, u64 (dstLen + 1))
     else mret (dst, dstLen));
  '(carry, dst) ← for_down (srcLen - 1) 1 (fun i '(carry, dst) =>
      x ← digit src (i - 1);
      let carry := Z.lor (u64 (Z.shiftl carry BITS)) (u64 (Z.shiftl x bitShift)) in
      dst ← set_digit dst (i + wordShift) (Z.shiftr carry BITS);
      mret (carry, dst)) (carry, dst);
  dst ← set_digit dst wordShift (Z.land carry MASK);
  dst ← for_up 0 wordShift (fun i dst => set_digit dst i 0) dst;
  if dstLen <? AGetLongIntLen dst then set_digit dst dstLen 0 else mret dst.

(** [Shr(a, a, shift)], the in-place form in which it is called: digits are
    read from the block that is being written. *)
Definition Shr (a : ALongInt) (shift : Z) : M ALongInt :=
  let wordShift := shift / BITS in
  let bitShift := Z.land shift (BITS - 1) in
  let srcLen := AGetLongIntLen a in
  let dstLen := u64 (srcLen - wordShift) in
  low ← digit a wordShift;
  let carry := Z.shiftr low bitShift in
  '(carry, a) ← for_up 0 (dstLen - 1) (fun i '(carry, a) =>
      x ← digit a (i + wordShift + 1);
      let carry := Z.lor carry (u64 (Z.shiftl x (BITS - bitShift))) in
      a ← set_digit a i (Z.land carry MASK);
      mret (Z.shiftr carry BITS, a)) (carry, a);
  set_digit a (dstLen - 1) (if 0 <? carry then carry else 0).

(** ** The steps of the division loop *)

(** [for (i = BASE / 2, shift = 0; top < i; i >>= 1, shift++);] *)
Fixpoint norm_shift (fuel : nat) (top i shift : Z) : M Z :=
  match fuel with
  | O => fault
  | S fuel' =>
      if top <? i then norm_shift fuel' top (Z.shiftr i 1) (shift + 1) else mret shift
  end.

(** The correction loop of the quotient estimate [q]. *)
Fixpoint correct_q (fuel : nat) (a b : ALongInt) (lenB aInd aHi a1 b1 q : Z) : M Z :=
  match fuel with
  | O => fault
  | S fuel' =>
      let t := u64 (u64 (Z.shiftl aHi BITS) + a1 - u64 (q * b1)) in
      bDig2 ← (if 0 <=? lenB - 2 then digit b (lenB - 2) else mret 0);
      if MASK <? t then mret q
      else
        a2 ← digit a (aInd - 2);
        if u64 (bDig2 * q) <=? u64 (u64 (Z.shiftl t BITS) + a2) then mret q
        else correct_q fuel' a b lenB aInd aHi a1 b1 (u64 (q - 1))
  end.

(** The estimate of the next quotient digit. *)
Definition estimate_q (a b : ALongInt) (lenB aInd aHi : Z) : M Z :=
  b1 ← digit b (lenB - 1);
  a1 ← digit a (aInd - 1);
  let q := if aHi =? b1 then MASK else u64 (u64 (Z.shiftl aHi BITS) + a1) / b1 in
  correct_q 4 a b lenB aInd aHi a1 b1 q.

(** Subtract [q * b * BASE**dInd] from [a]; the result may underflow. *)
Definition mul_sub (a b : ALongInt) (lenB dInd q : Z) : M (Z * ALongInt) :=
  for_up 0 lenB (fun i '(carry, a) =>
    bi ← digit b i;
    let s := u64 (bi * q) in
    t ← digit a (i + dInd);
    a ← set_digit a (i + dInd) (Z.land (u64 (t - s - carry)) MASK);
    mret (Z.shiftr (u64 (s - t + carry + MASK)) BITS, a)) (0, a).

(** Add [b * BASE**dInd] back to [a]. *)
Definition add_back (a b : ALongInt) (lenB dInd : Z) : M (Z * ALongInt) :=
  for_up 0 lenB (fun i '(carry, a) =>
    ai ← digit a (i + dInd);
    bi ← digit b i;
    let carry := u64 (carry + u64 (ai + bi)) in
    a ← set_digit a (i + dInd) (Z.land carry MASK);
    mret (Z.shiftr carry BITS, a)) (0, a).

(** One iteration of the division loop: the quotient digit [dInd]. *)
Definition div_step (b : ALongInt) (lenA lenB dInd : Z) (s : ALongInt * ALongInt)
  : M (ALongInt * ALongInt) :=
  let '(a, d) := s in
  let aInd := dInd + lenB in
  aHi ← (if aInd <? lenA then digit a aInd else mret 0);
  q ← estimate_q a b lenB aInd aHi;
  '(carry, a) ← mul_sub a b lenB dInd q;
  '(carry, a) ← (if lenB + dInd <? lenA then
                   top ← digit a (lenB + dInd);
                   a ← set_digit a (lenB + dInd) 0;
                   mret (u64 (carry - top), a)
                 else mret (carry, a));
  if carry =? 0 then
    d ← set_digit d dInd q;
    mret (a, d)
  else
    d ← set_digit d dInd (q - 1);
    '(_, a) ← add_back a b lenB dInd;
    mret (a, d).

(** The tweak of the dividend when the signs differ: [|a| + (|b| - 1)]. *)
Definition div_tweak (oldA oldB : ALongInt) : M (ALongInt * ALongInt) :=
  tmp ← SubAbsoluteSingle_raw oldB 1;
  '(oldA, _) ← AddAbsolute_raw oldA tmp;
  mret (tmp, oldA).

(** Shifting, dividing and shifting back: the remainder (as shifted back by
    [Shr]) and the quotient of the magnitudes. *)
Definition div_core (oldA oldB : ALongInt) (lenB shift : Z) : M (ALongInt * ALongInt) :=
  a ← CreateLongInt (AGetLongIntLen oldA + 1);
  a ← Shl oldA a shift;
  b ← CreateLongInt lenB;
  b ← Shl oldB b shift;
  let lenA := AGetLongIntLen a in
  d ← CreateLongInt (lenA - lenB + 1);
  '(a, d) ← for_down (lenA - lenB) 0 (fun dInd => div_step b lenA lenB dInd) (a, d);
  a ← Shr a shift;
  mret (a, d).

(** [ADivModLongInt(t, oldAVal, oldBVal, mod)]: quotient and remainder. *)
Definition ADivModLongInt (oldA oldB : ALongInt) : M (AValue * AValue) :=
  _ ← AAllocTempStack 2;
  let signOldA := AGetLongIntSign oldA in
  let signOldB := AGetLongIntSign oldB in
  let lenB := AGetLongIntLen oldB in
  topB ← digit oldB (lenB - 1);
  shift ← norm_shift 34 topB (BASE / 2) 0;
  '(tmp, oldA) ← (if xorb signOldA signOldB then div_tweak oldA oldB else mret (oldA, oldA));
  '(a, d) ← div_core oldA oldB lenB shift;
  a ← (if xorb signOldA signOldB then
         a ← TruncateZeroDigits a false;
         '(r, _) ← SubAbsolute_raw tmp a;
         mret r
       else mret a);
  modv ← ANormalize a signOldB;
  quot ← ANormalize d (xorb signOldA signOldB);
  mret (quot, modv).

(** ** The quotient estimate, abstractly

    [v] is the divisor of [m] digits with leading digits [v1] and [v2] and
    remainder [vr] below them, [u] the dividend window with leading digits
    [aHi], [a1], [a2] and [ur] below, [p] the weight of digit [m - 2]. *)
Section Knuth.
Context (p v1 v2 vr aHi a1 a2 ur : Z).
Context (Hp : 0 < p) (Hv1 : 2147483648 <= v1 < BASE) (Hv2 : 0 <= v2 < BASE)
        (Hvr : 0 <= vr < p) (HaHi : 0 <= aHi) (Ha1 : 0 <= a1 < BASE)
        (Ha2 : 0 <= a2 < BASE) (Hur : 0 <= ur < p).
Let v := (v1 * BASE + v2) * p + vr.
Let u := ((aHi * BASE + a1) * BASE + a2) * p + ur.
Context (Hu : u < BASE * v).

Lemma aHi_le_v1 : aHi <= v1.
Proof using All.
  subst u v. apply Z.lt_succ_r. apply (Z.mul_lt_mono_pos_r (BASE * BASE * p)); [lia|].
  assert (vr < p * 1) by lia. assert (v2 * p <= MASK * p) by (apply Z.mul_le_mono_nonneg_r; lia).
  assert (0 <= a1 * p) by (apply Z.mul_nonneg_nonneg; lia).
  assert (0 <= a2 * p) by (apply Z.mul_nonneg_nonneg; lia). lia.
Qed.

(** The initial estimate. *)
Definition q0 : Z := if aHi =? v1 then MASK else (aHi * BASE + a1) / v1.

Lemma q0_range : 0 <= q0 <= MASK /\ q0 * v1 <= aHi * BASE + a1.
Proof using All.
  pose proof aHi_le_v1 as Hle. unfold q0. destruct (Z.eqb_spec aHi v1) as [->|]; [lia|].
  assert ((aHi * BASE + a1) / v1 < BASE) by (apply Z.div_lt_upper_bound; lia).
  assert (0 <= (aHi * BASE + a1) / v1) by (apply Z.div_pos; lia).
  pose proof (Z.mul_div_le (aHi * BASE + a1) v1). lia.
Qed.

Lemma q0_upper : u / v <= q0.
Proof using All.
  pose proof aHi_le_v1 as Hle. assert (0 < v) by (clear Hu; subst v; nia).
  unfold q0. destruct (Z.eqb_spec aHi v1) as [E|Hne].
  - apply Z.lt_succ_r. apply Z.div_lt_upper_bound; [done|]. lia.
  - apply Z.lt_succ_r. apply Z.div_lt_upper_bound; [done|].
    set (q := (aHi * BASE + a1) / v1).
    assert (aHi * BASE + a1 + 1 <= v1 * (q + 1)).
    { pose proof (Z.div_mod (aHi * BASE + a1) v1). pose proof (Z.mod_pos_bound (aHi * BASE + a1) v1). nia. }
    assert (0 <= q) by (apply Z.div_pos; lia).
    clear Hu. subst u v. set (x := aHi * BASE + a1) in *.
    assert (a2 * p <= MASK * p) by (apply Z.mul_le_mono_nonneg_r; lia).
    assert ((x + 1) * (BASE * p) <= v1 * (q + 1) * (BASE * p)) by (apply Z.mul_le_mono_nonneg_r; lia).
    assert (0 <= (v2 * p + vr) * (q + 1)) by (apply Z.mul_nonneg_nonneg; lia).
    replace (((v1 * BASE + v2) * p + vr) * Z.succ q)
      with (v1 * (q + 1) * (BASE * p) + (v2 * p + vr) * (q + 1)) by ring. lia.
Qed.

(** A failed correction test shows that the estimate is too large. *)
Lemma test_fails q :
  0 <= q -> (aHi * BASE + a1 - q * v1) * BASE + a2 < v2 * q -> u / v <= q - 1.
Proof using All.
  intros Hq Ht. assert (0 < v) by (clear Hu; subst v; nia).
  apply Z.lt_le_pred. apply Z.div_lt_upper_bound; [done|]. clear Hu. subst u v.
  set (w := v1 * BASE + v2). set (x := (aHi * BASE + a1) * BASE + a2).
  assert (x + 1 <= w * q) by (subst w x; lia).
  assert ((x + 1) * p <= w * q * p) by (apply Z.mul_le_mono_nonneg_r; lia).
  assert (0 <= vr * q) by (apply Z.mul_nonneg_nonneg; lia).
  rewrite Z.mul_add_distr_r. replace (w * p * q) with (w * q * p) by ring. lia.
Qed.

(** A passed test shows that it is at most one too large. *)
Lemma test_passes q :
  0 <= q <= MASK -> v2 * q <= (aHi * BASE + a1 - q * v1) * BASE + a2 -> q - 1 <= u / v.
Proof using All.
  intros Hq Ht. assert (0 < v) by (clear Hu; subst v; nia).
  apply Z.div_le_lower_bound; [done|]. clear Hu. subst u v.
  set (w := v1 * BASE + v2). set (x := (aHi * BASE + a1) * BASE + a2).
  assert (w * q <= x) by (subst w x; lia).
  assert (w * q * p <= x * p) by (apply Z.mul_le_mono_nonneg_r; lia).
  assert (q * vr <= MASK * p) by (apply Z.mul_le_mono_nonneg; lia).
  assert (BASE * p <= w * p) by (apply Z.mul_le_mono_nonneg_r; subst w; lia).
  replace ((w * p + vr) * (q - 1)) with (w * q * p + q * vr - w * p - vr) by ring. lia.
Qed.

Lemma knuth_facts :
  aHi <= v1 /\ 0 <= q0 <= MASK /\ q0 * v1 <= aHi * BASE + a1 /\ u / v <= q0 /\
  forall q, 0 <= q <= MASK ->
    ((aHi * BASE + a1 - q * v1) * BASE + a2 < v2 * q -> u / v <= q - 1) /\
    (v2 * q <= (aHi * BASE + a1 - q * v1) * BASE + a2 -> q - 1 <= u / v).
Proof using All.
  destruct q0_range. split_and!; auto using aHi_le_v1, q0_upper.
  - lia.
  - lia.
  - intros q Hq. split; intros Ht; [apply test_fails|apply test_passes]; done || lia.
Qed.
End Knuth.

(** The parts of a window of [m + 1] digits and of the divisor that the
    estimate looks at.  A one-digit divisor is read as two digits, the second
    one zero. *)
Record window (a b : ALongInt) (m k aHi : Z) (u v : Z) : Prop := {
  w_m : 1 <= m;
  w_aHi : 0 <= aHi;
  w_u : u = eval (elem a) k m + BASE ^ m * aHi;
  w_v : v = eval (elem b) 0 m;
  w_top : 2147483648 <= dg (elem b) (m - 1);
  w_lt : u < BASE * v
}.

Lemma eval_top2 l off m :
  2 <= m -> eval l off m =
    (dg l (off + m - 1) * BASE + dg l (off + m - 2)) * BASE ^ (m - 2) + eval l off (m - 2).
Proof.
  intros Hm. rewrite eval_pred, (eval_pred _ _ (m - 1)) by lia.
  replace (m - 1 - 1) with (m - 2) by lia. replace (off + (m - 1) - 1) with (off + m - 2) by lia.
  replace (BASE ^ (m - 1)) with (BASE ^ (m - 2) * BASE)
    by (rewrite <- BASE_pow_succ by lia; f_equal; lia). ring.
Qed.

(** The estimate in terms of the digits. *)
Definition b2_of (b : ALongInt) (m : Z) : Z := if 0 <=? m - 2 then dg (elem b) (m - 2) else 0.

Lemma window_knuth a b N m nb k aHi u v a2 :
  dest a N -> li_block b m nb -> window a b m k aHi u v -> 0 <= a2 < BASE ->
  (2 <= m -> a2 = dg (elem a) (k + m - 2)) ->
  let b1 := dg (elem b) (m - 1) in
  let a1 := dg (elem a) (k + m - 1) in
  aHi <= b1 /\ 0 <= q0 b1 aHi a1 <= MASK /\ q0 b1 aHi a1 * b1 <= aHi * BASE + a1 /\
  u / v <= q0 b1 aHi a1 /\
  forall q, 0 <= q <= MASK -> q * b1 <= aHi * BASE + a1 ->
    ((aHi * BASE + a1 - q * b1) * BASE + a2 < b2_of b m * q -> u / v <= q - 1) /\
    (b2_of b m * q <= (aHi * BASE + a1 - q * b1) * BASE + a2 -> q - 1 <= u / v).
Proof.
  intros [Ha _] Hb [Hm HaHi Hu Hv Htop Hlt] Ha2r Ha2 b1 a1.
  pose proof (block_range b m nb (m - 1) Hb) as Hb1. pose proof (block_range b m nb (m - 2) Hb) as Hb2.
  pose proof (block_range a N false (k + m - 1) Ha) as Ha1. fold b1 in Hb1, Htop. fold a1 in Ha1.
  unfold b2_of. destruct (Z.leb_spec 0 (m - 2)) as [Hm2|Hm2].
  - set (p := BASE ^ (m - 2)). assert (0 < p) as Hp by (apply BASE_pow_pos; lia).
    pose proof (eval_bound (elem b) 0 (m - 2) (lb_digits _ _ _ Hb) ltac:(lia)) as Hvr.
    pose proof (eval_bound (elem a) k (m - 2) (lb_digits _ _ _ Ha) ltac:(lia)) as Hur.
    assert (v = (b1 * BASE + dg (elem b) (m - 2)) * p + eval (elem b) 0 (m - 2)) as Ev
      by (rewrite Hv, eval_top2 by lia; done).
    assert (u = ((aHi * BASE + a1) * BASE + a2) * p + eval (elem a) k (m - 2)) as Eu.
    { rewrite Hu, eval_top2, Ha2 by lia. fold p a1.
      replace (BASE ^ m) with (p * BASE * BASE); [ring|].
      unfold p. rewrite <- !BASE_pow_succ by lia. f_equal. lia. }
    destruct (knuth_facts p b1 (dg (elem b) (m - 2)) (eval (elem b) 0 (m - 2)) aHi a1 a2
      (eval (elem a) k (m - 2))) as (H1 & H2 & H3 & H4 & H5); try done; try lia.
    rewrite <- Eu, <- Ev in *. split_and!; auto; lia.
  - assert (m = 1) as -> by lia. rewrite eval_1 in Hu, Hv. change (BASE ^ 1) with BASE in Hu.
    replace (dg (elem a) k) with a1 in Hu by (unfold a1; f_equal; lia).
    change (dg (elem b) 0) with b1 in Hv.
    assert (u / v = (((aHi * BASE + a1) * BASE + 0) * 1 + 0) / ((b1 * BASE + 0) * 1 + 0)) as Eq.
    { rewrite !Z.mul_1_r, !Z.add_0_r, Z.div_mul_cancel_r by lia. f_equal; lia. }
    destruct (knuth_facts 1 b1 0 0 aHi a1 0 0) as (H1 & H2 & H3 & H4 & H5); try lia.
    rewrite <- Eq in *. split_and!; auto; try lia.
    intros q Hq Hqb. destruct (H5 q Hq) as [_ Hpass]. split; intros; [lia|]. apply Hpass. lia.
Qed.

(** The test digit [a[aInd - 2]]: for a one-digit divisor it may lie below the
    first digit, and the test then passes whatever is there. *)
Lemma correct_q_digit a N m k :
  dest a N -> 1 <= m -> 0 <= k -> k + m <= N ->
  returns (digit a (k + m - 2)) (fun x =>
    0 <= x /\ (2 <= m -> x = dg (elem a) (k + m - 2))).
Proof.
  intros Ha Hm Hk HN. destruct (decide (0 <= k + m - 2)).
  - eapply evals_returns; [eapply digit_dest; [done|lia]|]. split; [apply (digit_range a N _ Ha)|done].
  - assert (k + m - 2 = -1) as -> by lia. apply (evals_returns _ (Z.shiftr (header a) 32)).
    + intros t. done.
    + split; [|lia]. rewrite shiftr_bits. destruct Ha as [_ [Hh _]]. apply Z.div_pos; lia.
Qed.

Lemma correct_q_spec fuel a b N m nb k aHi u v q :
  dest a N -> li_block b m nb -> 0 <= k -> k + m <= N -> window a b m k aHi u v ->
  0 <= q <= MASK -> u / v <= q ->
  let b1 := dg (elem b) (m - 1) in
  let a1 := dg (elem a) (k + m - 1) in
  q * b1 <= aHi * BASE + a1 ->
  MASK < aHi * BASE + a1 - q * b1 + (Z.of_nat fuel - 1) * b1 -> (0 < fuel)%nat -> 0 <= u / v ->
  returns (correct_q fuel a b m (k + m) aHi a1 b1 q) (fun q' =>
    0 <= q' <= MASK /\ u / v <= q' <= u / v + 1).
Proof.
  intros Ha Hb Hk HN Hw Hq Hle b1 a1 Hqb Hfuel Hf Hu.
  revert q Hq Hle Hqb Hfuel Hf. induction fuel as [|fuel IH]; intros q Hq Hle Hqb Hfuel Hf; [lia|].
  pose proof (block_range b m nb (m - 1) Hb) as Hb1. pose proof (digit_range a N (k + m - 1) Ha) as Ha1.
  fold b1 in Hb1. fold a1 in Ha1. pose proof (w_m _ _ _ _ _ _ _ Hw) as Hm.
  pose proof (digit_range a N (k + m - 2) Ha) as Ha2.
  destruct (window_knuth a b N m nb k aHi u v _ Ha Hb Hw Ha2 ltac:(done)) as (HaHi & _ & _ & _ & Htest).
  fold b1 a1 in Htest, HaHi. destruct (Htest q Hq Hqb) as [Hfail Hpass].
  assert (0 <= q * b1 <= 18446744065119617025) by nia.
  pose proof (w_aHi _ _ _ _ _ _ _ Hw). cbn [correct_q].
  rewrite shiftl_bits, (u64_small (aHi * BASE)), (u64_small (q * b1)), u64_small by lia.
  set (t := aHi * BASE + a1 - q * b1) in *.
  eapply (returns_bind _ _ (fun x => x = b2_of b m)).
  { unfold b2_of. destruct (Z.leb_spec 0 (m - 2)); [|by apply returns_ret].
    eapply evals_returns; [eapply digit_block; [done|lia]|done]. }
  intros ? ->.
  assert (0 <= b2_of b m < BASE /\ (m = 1 -> b2_of b m = 0)) as [Hb2 Hb20].
  { unfold b2_of. destruct (Z.leb_spec 0 (m - 2)); [split; [apply (block_range b m nb _ Hb)|]|]; lia. }
  assert (0 <= b2_of b m * q <= 18446744065119617025) by nia.
  destruct (Z.ltb_spec MASK t) as [Ht|Ht].
  { apply returns_ret. split; [done|]. split; [done|]. assert (q - 1 <= u / v); [apply Hpass; nia|lia]. }
  eapply returns_bind; [apply (correct_q_digit a N m k); (done || lia)|]. intros x [Hx Hx2].
  rewrite (u64_small (b2_of b m * q)), (u64_small (Z.shiftl t 32)) by (rewrite ?shiftl_bits; lia).
  rewrite shiftl_bits.
  assert (b2_of b m * q <= u64 (t * BASE + x) <-> b2_of b m * q <= t * BASE + dg (elem a) (k + m - 2)) as Heq.
  { destruct (decide (m = 1)) as [E|].
    - rewrite (Hb20 E), Z.mul_0_l. pose proof (u64_range (t * BASE + x)). lia.
    - rewrite (Hx2 ltac:(lia)), u64_small by lia. done. }
  destruct (Z.leb_spec (b2_of b m * q) (u64 (t * BASE + x))) as [Hle2|Hgt].
  - apply returns_ret. rewrite Heq in Hle2. specialize (Hpass Hle2). lia.
  - assert (u / v <= q - 1) as Hq1 by (apply Hfail; lia).
    rewrite u64_small by lia. apply IH; subst t; lia.
Qed.

Lemma estimate_q_spec a b N m nb k aHi u v :
  dest a N -> li_block b m nb -> 0 <= k -> k + m <= N -> window a b m k aHi u v -> 0 <= u / v ->
  returns (estimate_q a b m (k + m) aHi) (fun q' =>
    0 <= q' <= MASK /\ u / v <= q' <= u / v + 1).
Proof.
  intros Ha Hb Hk HN Hw Hu. unfold estimate_q. pose proof (w_m _ _ _ _ _ _ _ Hw) as Hm.
  pose proof (digit_range a N (k + m - 2) Ha) as Ha2. pose proof (w_aHi _ _ _ _ _ _ _ Hw).
  destruct (window_knuth a b N m nb k aHi u v _ Ha Hb Hw Ha2 ltac:(done)) as (HaHi & Hq & Hqb & Hqu & _).
  pose proof (w_top _ _ _ _ _ _ _ Hw). rd. rd. cbv zeta.
  pose proof (block_range b m nb (m - 1) Hb). pose proof (digit_range a N (k + m - 1) Ha).
  rewrite shiftl_bits, (u64_small (aHi * BASE)), u64_small by lia.
  fold (q0 (dg (elem b) (m - 1)) aHi (dg (elem a) (k + m - 1))).
  apply (correct_q_spec 4 a b N m nb k aHi u v); try done; lia.
Qed.

(** ** One division step *)

(** Digits outside the window [k .. k + m) are left alone. *)
Definition same_outside (a a' : ALongInt) (k m : Z) : Prop :=
  forall i, 0 <= i -> i < k \/ k + m <= i -> dg (elem a') i = dg (elem a) i.

Lemma mul_sub_spec a b N m nb k q :
  dest a N -> li_block b m nb -> 0 <= k -> 0 <= m -> k + m <= N -> 0 <= q <= MASK ->
  returns (mul_sub a b m k q) (fun '(c, a') => dest a' N /\ digit_ok c /\ same_outside a a' k m /\
    eval (elem a') k m - BASE ^ m * c = eval (elem a) k m - q * eval (elem b) 0 m).
Proof.
  intros Ha Hb Hk Hm HN Hq. unfold mul_sub.
  eapply returns_mono; [apply (for_up_inv (fun j '(c, a') => dest a' N /\ digit_ok c /\
    same_outside a a' k j /\
    eval (elem a') k j - BASE ^ j * c = eval (elem a) k j - q * eval (elem b) 0 j))|by intros []].
  - lia.
  - unfold digit_ok. split_and!; try done; try lia. rewrite !eval_0. lia.
  - intros j [c a'] Hj (Ha' & Hc & Hout & Hev). unfold digit_ok in Hc.
    replace (j + k) with (k + j) in * by lia. rd. rd. cbv zeta.
    pose proof (block_range b m nb j Hb). pose proof (digit_range a' N (k + j) Ha').
    assert (0 <= dg (elem b) j * q <= 18446744065119617025) by nia.
    rewrite (u64_small (dg (elem b) j * q)) by lia.
    rewrite (u64_small (_ - _ + _ + _)) by lia.
    set (x := dg (elem a') (k + j) - dg (elem b) j * q - c). wr. apply returns_ret.
    assert (Z.shiftr (dg (elem b) j * q - dg (elem a') (k + j) + c + MASK) 32 = - (x / BASE)) as ->.
    { rewrite shiftr_bits. subst x. zsolve. }
    assert (u32 (Z.land (u64 x) MASK) = x mod BASE) as Hx by (rewrite u32_land; unfold u64; zsolve).
    pose proof (eval_put a' N k j _ x Ha' Hk ltac:(lia) ltac:(lia) Hx) as He.
    split_and!.
    + by apply dest_put.
    + unfold digit_ok. subst x. zsolve.
    + intros i Hi Hio. rewrite dg_put_ne by lia. apply Hout; lia.
    + rewrite (eval_succ (elem a)), (eval_succ (elem b)), <- (Hout (k + j)) by lia.
      rewrite Z.add_0_l. subst x. nia.
Qed.

Lemma add_back_spec a b N m nb k :
  dest a N -> li_block b m nb -> 0 <= k -> 0 <= m -> k + m <= N ->
  returns (add_back a b m k) (fun '(c, a') => dest a' N /\ 0 <= c <= 1 /\ same_outside a a' k m /\
    eval (elem a') k m + BASE ^ m * c = eval (elem a) k m + eval (elem b) 0 m).
Proof.
  intros Ha Hb Hk Hm HN. unfold add_back.
  eapply returns_mono; [apply (for_up_inv (fun j '(c, a') => dest a' N /\ 0 <= c <= 1 /\
    same_outside a a' k j /\
    eval (elem a') k j + BASE ^ j * c = eval (elem a) k j + eval (elem b) 0 j))|by intros []].
  - lia.
  - split_and!; done || lia.
  - intros j [c a'] Hj (Ha' & Hc & Hout & Hev).
    replace (j + k) with (k + j) in * by lia. rd. rd. cbv zeta.
    pose proof (block_range b m nb j Hb). pose proof (digit_range a' N (k + j) Ha').
    rewrite (u64_small (dg (elem a') (k + j) + _)), u64_small by lia.
    set (x := c + (dg (elem a') (k + j) + dg (elem b) j)). wr. apply returns_ret.
    rewrite shiftr_bits.
    pose proof (eval_put a' N k j _ x Ha' Hk ltac:(lia) ltac:(lia) (u32_land x)) as He.
    split_and!.
    + by apply dest_put.
    + subst x. zsolve.
    + subst x. zsolve.
    + intros i Hi Hio. rewrite dg_put_ne by lia. apply Hout; lia.
    + rewrite (eval_succ (elem a)), (eval_succ (elem b)), <- (Hout (k + j)) by lia.
      rewrite Z.add_0_l. subst x. lia.
Qed.

(** What one step establishes: the window is reduced modulo the divisor, its
    quotient is the new digit, everything else is unchanged. *)
Definition step_post (a d a' d' : ALongInt) (N m k v : Z) : Prop :=
  dest a' N /\
  (forall i, 0 <= i < k -> dg (elem a') i = dg (elem a) i) /\
  (forall i, k + m <= i -> k + m < N -> dg (elem a') i = if decide (i = k + m) then 0 else dg (elem a) i) /\
  dest d' (N - m + 1) /\
  (forall i, 0 <= i -> i <> k -> dg (elem d') i = dg (elem d) i) /\
  let aHi := if k + m <? N then dg (elem a) (k + m) else 0 in
  let u := eval (elem a) k m + BASE ^ m * aHi in
  dg (elem d') k = u / v /\ eval (elem a') k m = u mod v.

(** The final correction, abstractly: the window after subtracting [q * v]
    tells whether the estimate was one too large. *)
Lemma q_fix P v u q E h :
  0 <= E < P -> 0 < v < P -> u - q * v = E + P * h -> u / v <= q <= u / v + 1 ->
  (h = 0 /\ q = u / v /\ E = u mod v) \/ (h = -1 /\ q - 1 = u / v /\ E + v - P = u mod v).
Proof.
  intros HE Hv Heq Hq. pose proof (Z.div_mod u v ltac:(lia)). pose proof (Z.mod_pos_bound u v ltac:(lia)).
  assert (q = u / v \/ q = u / v + 1) as [Hq'|Hq'] by lia.
  - left. assert (u - q * v = u mod v) by (rewrite Hq'; lia). assert (h = 0) by nia. subst h. lia.
  - right. assert (u - q * v = u mod v - v) by (rewrite Hq'; lia). assert (h = -1) by nia. subst h. lia.
Qed.

(** Clearing the digit above the window and taking it off the carry. *)
Lemma clear_top_spec a N m k c aHi :
  dest a N -> 0 <= k -> 1 <= m -> k + m <= N ->
  aHi = (if k + m <? N then dg (elem a) (k + m) else 0) -> 0 <= c - aHi <= 1 ->
  returns (if m + k <? N then
             top ← digit a (m + k);
             a ← set_digit a (m + k) 0;
             mret (u64 (c - top), a)
           else mret (c, a))
    (fun '(c', a') => c' = c - aHi /\ dest a' N /\
      (forall i, 0 <= i -> i <> k + m -> dg (elem a') i = dg (elem a) i) /\
      (k + m < N -> dg (elem a') (k + m) = 0)).
Proof.
  intros Ha Hk Hm HN -> Hc. replace (m + k) with (k + m) by lia.
  destruct (Z.ltb_spec (k + m) N).
  - rd. wr. apply returns_ret. rewrite u64_small by lia. split_and!.
    + done.
    + by apply dest_put.
    + intros. apply dg_put_ne; lia.
    + intros. rewrite (dg_put_eq a N) by (done || lia). done.
  - apply returns_ret. split_and!; try done; lia.
Qed.

Lemma div_step_spec a b d N m nb k v :
  dest a N -> li_block b m nb -> dest d (N - m + 1) -> 1 <= m -> 0 <= k -> k + m <= N ->
  v = eval (elem b) 0 m -> 2147483648 <= dg (elem b) (m - 1) ->
  eval (elem a) k m + BASE ^ m * (if k + m <? N then dg (elem a) (k + m) else 0) < BASE * v ->
  returns (div_step b N m k (a, d)) (fun '(a', d') => step_post a d a' d' N m k v).
Proof.
  intros Ha Hb Hd Hm Hk HN Hv Htop Hlt. unfold div_step, step_post.
  set (aHi := if k + m <? N then dg (elem a) (k + m) else 0) in *.
  set (u := eval (elem a) k m + BASE ^ m * aHi) in *.
  assert (0 <= aHi < BASE) as HaHi by (subst aHi; destruct (k + m <? N); [apply (digit_range a N _ Ha)|lia]).
  pose proof (eval_bound (elem a) k m (lb_digits _ _ _ (proj1 Ha)) ltac:(lia)) as Hwin.
  pose proof (eval_bound (elem b) 0 m (lb_digits _ _ _ Hb) ltac:(lia)) as Hvb. rewrite <- Hv in Hvb.
  assert (0 <= u) by (subst u; nia). assert (0 < v) by lia.
  assert (0 <= u / v) by (apply Z.div_pos; lia).
  eapply (returns_bind _ _ (fun x => x = aHi)).
  { subst aHi. destruct (Z.ltb_spec (k + m) N); [|by apply returns_ret].
    eapply evals_returns; [eapply digit_dest; [done|lia]|done]. }
  intros ? ->.
  eapply returns_bind; [apply (estimate_q_spec a b N m nb k aHi u v); try done; by constructor; try lia|].
  intros q [Hq Hqr].
  eapply returns_bind; [apply (mul_sub_spec a b N m nb k q); (done || lia)|].
  intros [c a1] (Ha1 & Hc & Hout1 & Hev1). rewrite <- Hv in Hev1.
  pose proof (eval_bound (elem a1) k m (lb_digits _ _ _ (proj1 Ha1)) ltac:(lia)) as Hwin1.
  destruct (q_fix (BASE ^ m) v u q (eval (elem a1) k m) (aHi - c)) as [(Hh & Hqd & HE)|(Hh & Hqd & HE)];
    [done|lia|unfold u; lia|done|..].
  all: eapply returns_bind;
    [apply (clear_top_spec a1 N m k c aHi); try done; try lia;
     subst aHi; destruct (k + m <? N); [symmetry; apply Hout1; lia|done]|];
    intros [c2 a2] (-> & Ha2 & Hout2 & Hclr);
    assert (eval (elem a2) k m = eval (elem a1) k m) as Hev2
      by (apply eval_ext; [intros; apply Hout2; lia|lia]).
  - replace (c - aHi) with 0 by lia. simpl. rewrite <- Hqd, <- HE.
    eapply returns_bind_evals; [eapply set_digit_put; [done|lia]|]. apply returns_ret. split_and!.
    + done.
    + intros i Hi. rewrite Hout2 by lia. apply Hout1; lia.
    + intros i Hi HkN. case_decide as Ei; [subst i; auto|]. rewrite Hout2 by lia. apply Hout1; lia.
    + by apply dest_put.
    + intros. apply dg_put_ne; lia.
    + rewrite (dg_put_eq d (N - m + 1)) by (done || lia). apply u32_small. lia.
    + done.
  - replace (c - aHi) with 1 by lia. simpl. rewrite <- Hqd, <- HE.
    eapply returns_bind_evals; [eapply set_digit_put; [done|lia]|].
    eapply returns_bind; [apply (add_back_spec a2 b N m nb k); (done || lia)|].
    intros [c3 a3] (Ha3 & Hc3 & Hout3 & Hev3). apply returns_ret. rewrite <- Hv in Hev3.
    pose proof (eval_bound (elem a3) k m (lb_digits _ _ _ (proj1 Ha3)) ltac:(lia)).
    pose proof (Z.mod_pos_bound u v ltac:(lia)). split_and!.
    + done.
    + intros i Hi. rewrite Hout3, Hout2 by lia. apply Hout1; lia.
    + intros i Hi HkN. rewrite Hout3 by lia. case_decide as Ei; [subst i; auto|].
      rewrite Hout2 by lia. apply Hout1; lia.
    + by apply dest_put.
    + intros. apply dg_put_ne; lia.
    + rewrite (dg_put_eq d (N - m + 1)) by (done || lia). apply u32_small. lia.
    + assert (c3 = 1) by nia. subst c3. lia.
Qed.

(** ** The division loop *)

(** The dividend as its part below the window and the window itself. *)
Lemma eval_window a N m k :
  0 <= k -> 0 <= m -> k + m <= N -> (forall i, k + m < i < N -> dg (elem a) i = 0) ->
  eval (elem a) 0 N = eval (elem a) 0 k +
    BASE ^ k * (eval (elem a) k m + BASE ^ m * (if k + m <? N then dg (elem a) (k + m) else 0)).
Proof.
  intros Hk Hm HN Hz. destruct (Z.ltb_spec (k + m) N).
  - rewrite (eval_zero_above _ (k + (m + 1)) N) by (try lia; intros; apply Hz; lia).
    rewrite eval_app, eval_succ by lia. done.
  - assert (N = k + m) as -> by lia. rewrite eval_app by lia. rewrite Z.add_0_l. lia.
Qed.

(** State of the loop before digit [k - 1] is produced. *)
Record div_inv (a0 : Z) (v N m k : Z) (a d : ALongInt) : Prop := {
  di_a : dest a N;
  di_d : dest d (N - m + 1);
  di_zero : forall i, k + m <= i < N -> dg (elem a) i = 0;
  di_win : eval (elem a) k m < v \/ N < k + m;
  di_val : a0 = eval (elem d) k (N - m + 1 - k) * BASE ^ k * v + eval (elem a) 0 N
}.

Lemma div_loop_spec a b d N m nb v :
  dest a N -> li_block b m nb -> dest d (N - m + 1) -> 1 <= m <= N ->
  v = eval (elem b) 0 m -> 2147483648 <= dg (elem b) (m - 1) ->
  returns (for_down (N - m) 0 (fun k => div_step b N m k) (a, d)) (fun '(a', d') =>
    dest a' N /\ dest d' (N - m + 1) /\ (forall i, m <= i < N -> dg (elem a') i = 0) /\
    0 <= eval (elem a') 0 N < v /\
    eval (elem a) 0 N = eval (elem d') 0 (N - m + 1) * v + eval (elem a') 0 N).
Proof.
  intros Ha Hb Hd Hm Hv Htop.
  eapply returns_mono; [apply (for_down_inv (fun k '(a', d') =>
    div_inv (eval (elem a) 0 N) v N m k a' d'))|].
  - lia.
  - constructor; try done; try lia. replace (N - m + 1 - (N - m + 1)) with 0 by lia. rewrite eval_0. lia.
  - intros k [a1 d1] Hk [Ha1 Hd1 Hz Hw Hval].
    eapply returns_mono; [apply (div_step_spec a1 b d1 N m nb k v); try done; try lia|].
    + (* the window is below BASE * v *)
      pose proof (digit_range a1 N k Ha1). destruct (Z.ltb_spec (k + m) N).
      * replace (eval (elem a1) k m + BASE ^ m * dg (elem a1) (k + m)) with (eval (elem a1) k (m + 1))
          by (rewrite eval_succ by lia; done).
        rewrite eval_low by lia. replace (m + 1 - 1) with m by lia. lia.
      * rewrite Z.mul_0_r, Z.add_0_r. pose proof (eval_bound (elem a1) k m (lb_digits _ _ _ (proj1 Ha1)) ltac:(lia)).
        assert (BASE ^ (m - 1) * BASE = BASE ^ m) by (rewrite <- BASE_pow_succ by lia; f_equal; lia).
        rewrite Hv, (eval_pred (elem b)), Z.add_0_l by lia.
        pose proof (eval_bound (elem b) 0 (m - 1) (lb_digits _ _ _ Hb) ltac:(lia)). nia.
    + intros [a2 d2] (Ha2 & Hlo & Hhi & Hd2 & Hdout & Hdk & Hmod).
      set (u := eval (elem a1) k m + BASE ^ m * (if k + m <? N then dg (elem a1) (k + m) else 0)) in *.
      assert (0 < v).
      { pose proof (eval_top_lower (elem b) m (lb_digits _ _ _ Hb) ltac:(lia) ltac:(lia)).
        pose proof (BASE_pow_pos (m - 1) ltac:(lia)). lia. }
      assert (forall i, k + m <= i < N -> dg (elem a2) i = 0) as Hz2.
      { intros i Hi. rewrite Hhi by lia. case_decide; [done|]. apply Hz. lia. }
      constructor; [done|done|done|left; rewrite Hmod; by apply Z.mod_pos_bound|].
      rewrite (eval_window a1 N m k) in Hval by (try lia; intros; apply Hz; lia). fold u in Hval.
      rewrite (eval_zero_above (elem a2) (k + m) N), (eval_app (elem a2)) by (done || lia).
      rewrite Z.add_0_l, Hmod, (eval_ext (elem a2) (elem a1) 0 0 k) by (try lia; intros; apply Hlo; lia).
      replace (N - m + 1 - k) with (1 + (N - m + 1 - (k + 1))) by lia.
      rewrite eval_app, eval_1, Hdk by lia.
      rewrite (eval_ext (elem d2) (elem d1) (k + 1) (k + 1)) by (try lia; intros; apply Hdout; lia).
      rewrite Hval, BASE_pow_succ by lia. rewrite (Z.div_mod u v) at 1 by lia. ring.
  - intros [a1 d1] [Ha1 Hd1 Hz Hw Hval]. rewrite Z.sub_0_r in Hval.
    rewrite Z.pow_0_r, Z.mul_1_r in Hval. split_and!; try done.
    + apply eval_bound; [apply (proj1 Ha1)|lia].
    + rewrite (eval_zero_above _ m N) by (try lia; intros; apply Hz; lia). lia.
Qed.

(** ** Normalizing shifts *)

Lemma pow2_split s : 0 <= s <= 32 -> 2 ^ s * 2 ^ (32 - s) = BASE.
Proof. intros. rewrite <- Z.pow_add_r by lia. by replace (s + (32 - s)) with 32 by lia. Qed.

Lemma norm_shift_spec fuel top s :
  0 < top < BASE -> 0 <= s <= 31 -> top * 2 ^ s < BASE -> 32 - s <= Z.of_nat fuel ->
  returns (norm_shift fuel top (2 ^ (31 - s)) s) (fun k =>
    0 <= k <= 31 /\ 2147483648 <= top * 2 ^ k < BASE).
Proof.
  intros Ht. revert s. induction fuel as [|fuel IH]; intros s Hs Hlt Hf; [lia|]. simpl.
  assert (2 ^ s * 2 ^ (31 - s) = 2147483648) as Hsplit.
  { rewrite <- Z.pow_add_r by lia. by replace (s + (31 - s)) with 31 by lia. }
  pose proof (Z.pow_pos_nonneg 2 s ltac:(lia) ltac:(lia)).
  pose proof (Z.pow_pos_nonneg 2 (31 - s) ltac:(lia) ltac:(lia)).
  destruct (Z.ltb_spec top (2 ^ (31 - s))).
  - assert (s <> 31) by (intros ->; change (2 ^ (31 - 31)) with 1 in *; lia).
    replace (Z.shiftr (2 ^ (31 - s)) 1) with (2 ^ (31 - (s + 1))).
    + apply IH; [lia| |lia]. rewrite Z.pow_add_r by lia. nia.
    + rewrite Z.shiftr_div_pow2 by lia.
      replace (2 ^ (31 - s)) with (2 ^ (31 - (s + 1)) * 2 ^ 1) by (rewrite <- Z.pow_add_r by lia; f_equal; lia).
      by rewrite Z.div_mul.
  - apply returns_ret. nia.
Qed.

Lemma land_31 s : 0 <= s <= 31 -> Z.land s (32 - 1) = s.
Proof.
  intros. change (32 - 1) with (Z.ones 5). rewrite Z.land_ones by lia. apply Z.mod_small. lia.
Qed.

(** One step of the left shift: the carry word holds the low half of the
    previous digit above the shifted next one. *)
Lemma shl_word c x s :
  0 <= s <= 31 -> 0 <= x < BASE -> (2 ^ s | c mod BASE) ->
  let w := Z.lor (u64 (Z.shiftl c BITS)) (u64 (Z.shiftl x s)) in
  w = (c mod BASE) * BASE + x * 2 ^ s /\ 0 <= w < W64 /\ (2 ^ s | w mod BASE).
Proof.
  intros Hs Hx [y Hy]. pose proof (pow2_split s ltac:(lia)) as Hsp.
  pose proof (Z.pow_pos_nonneg 2 s ltac:(lia) ltac:(lia)) as Hp.
  pose proof (Z.pow_pos_nonneg 2 (32 - s) ltac:(lia) ltac:(lia)) as Hp'.
  assert (2 ^ s <= 2147483648) by (change 2147483648 with (2 ^ 31); apply Z.pow_le_mono_r; lia).
  assert (0 <= x * 2 ^ s < BASE * 2 ^ s) by nia.
  pose proof (Z.mod_pos_bound c BASE ltac:(lia)).
  assert (c mod BASE <= BASE - 2 ^ s) as Hcm.
  { rewrite Hy in *. assert (y < 2 ^ (32 - s)); [|nia].
    apply (Z.mul_lt_mono_pos_r (2 ^ s)); lia. }
  cbv zeta. rewrite shiftl_bits, Z.shiftl_mul_pow2, (u64_small (x * 2 ^ s)) by lia.
  replace (u64 (c * BASE)) with ((c mod BASE) * BASE) by (unfold u64; zsolve).
  rewrite Z.lor_comm, (lor_disjoint _ _ (32 + s)).
  - rewrite Z.add_comm. split_and!; [done|nia|nia|].
    rewrite Z.add_comm, Z_mod_plus_full. exists (x mod 2 ^ (32 - s)).
    rewrite <- Hsp, (Z.mul_comm (2 ^ s)), Z.mul_mod_distr_r by lia. done.
  - lia.
  - rewrite Z.pow_add_r by lia. change (2 ^ 32) with BASE. lia.
  - exists y. rewrite Hy, Z.pow_add_r by lia. change (2 ^ 32) with BASE. ring.
Qed.

(** The loop of [Shl] (no whole-word shift): [T] is the part of the top digit
    that moves into an additional digit. *)
Lemma shl_loop_spec src n ns dst N s T :
  li_block src n ns -> 1 <= n <= N -> dest dst N -> 0 <= s <= 31 ->
  T = dg (elem src) (n - 1) * 2 ^ s / BASE ->
  returns (for_down (n - 1) 1 (fun i '(carry, dst) =>
      x ← digit src (i - 1);
      let carry := Z.lor (u64 (Z.shiftl carry BITS)) (u64 (Z.shiftl x s)) in
      dst ← set_digit dst (i + 0) (Z.shiftr carry BITS);
      mret (carry, dst)) (dg (elem src) (n - 1) * 2 ^ s, dst))
    (fun '(c, dst') => dest dst' N /\ (forall i, n <= i -> dg (elem dst') i = dg (elem dst) i) /\
      eval (elem src) 0 n * 2 ^ s =
      BASE * (eval (elem dst') 1 (n - 1) + BASE ^ (n - 1) * T) + c mod BASE).
Proof.
  intros Hsrc Hn Hd Hs ->. pose proof (Z.pow_pos_nonneg 2 s ltac:(lia) ltac:(lia)) as Hp.
  pose proof (block_range src n ns (n - 1) Hsrc) as Htop. set (top := dg (elem src) (n - 1)) in *.
  pose proof (pow2_split s ltac:(lia)) as Hsp.
  pose proof (Z.pow_pos_nonneg 2 (32 - s) ltac:(lia) ltac:(lia)) as Hp'.
  eapply returns_mono; [apply (for_down_inv (fun i '(c, dst') => dest dst' N /\
    (forall j, n <= j -> dg (elem dst') j = dg (elem dst) j) /\ (2 ^ s | c mod BASE) /\
    eval (elem src) (i - 1) (n - i + 1) * 2 ^ s =
    BASE * (eval (elem dst') i (n - i) + BASE ^ (n - i) * (top * 2 ^ s / BASE)) + c mod BASE))|].
  - lia.
  - split_and!; [done|done| |].
    + rewrite <- Hsp, (Z.mul_comm (2 ^ s)), Z.mul_mod_distr_r by lia. by eexists.
    + replace (n - (n - 1 + 1)) with 0 by lia. replace (n - 1 + 1 - 1) with (n - 1) by lia.
      replace (0 + 1) with 1 by lia. rewrite eval_1, eval_0, Z.pow_0_r. fold top. zsolve.
  - intros i [c d'] Hi (Hd' & Hout & Hdiv & Hev). rd. cbv zeta.
    pose proof (block_range src n ns (i - 1) Hsrc) as Hx.
    destruct (shl_word c (dg (elem src) (i - 1)) s Hs Hx Hdiv) as (Hw & Hwr & Hwd).
    set (w := Z.lor _ _) in *. rewrite Z.add_0_r. wr. apply returns_ret.
    rewrite shiftr_bits. split_and!.
    + by apply dest_put.
    + intros j Hj. rewrite dg_put_ne by lia. auto.
    + done.
    + rewrite (eval_low (elem src)) by lia.
      replace (i - 1 + 1) with (i + 1 - 1) by lia. replace (n - i + 1 - 1) with (n - (i + 1) + 1) by lia.
      rewrite (eval_low _ i (n - i)) by lia.
      rewrite (dg_put_eq d' N), eval_put_out, u32_small by (done || lia || zsolve).
      replace (n - i - 1) with (n - (i + 1)) by lia.
      replace (BASE ^ (n - i)) with (BASE ^ (n - (i + 1)) * BASE)
        by (rewrite <- BASE_pow_succ by lia; f_equal; lia).
      rewrite Z.mul_add_distr_r, <- Z.mul_assoc, Hev. pose proof (Z.div_mod w BASE). lia.
  - intros [c d'] (? & ? & _ & Hev). split_and!; try done.
    replace (1 - 1) with 0 in Hev by lia. by replace (n - 1 + 1) with n in Hev by lia.
Qed.

(** [Shl] into a block with room for the extra digit, or with a divisor whose
    top digit does not overflow. *)
Lemma Shl_spec src n ns dst N s :
  li_block src n ns -> 1 <= n -> dest dst N -> 0 <= s <= 31 ->
  N = n + 1 \/ N = n /\ dg (elem src) (n - 1) * 2 ^ s < BASE ->
  returns (Shl src dst s) (fun dst' => dest dst' N /\
    eval (elem dst') 0 N = eval (elem src) 0 n * 2 ^ s).
Proof.
  pose proof MAXDIGITS_eq. intros Hsrc Hn Hd Hs HN. unfold Shl.
  destruct (lb_len _ _ _ Hsrc) as [_ Hnm].
  pose proof (block_range src n ns (n - 1) Hsrc) as Htop.
  pose proof (Z.pow_pos_nonneg 2 s ltac:(lia) ltac:(lia)).
  assert (2 ^ s <= 2147483648) by (change 2147483648 with (2 ^ 31); apply Z.pow_le_mono_r; lia).
  rewrite (Len_block _ _ _ Hsrc), land_31 by lia. replace (s / 32) with 0 by zsolve.
  cbv zeta. rewrite Z.add_0_r, (u64_small n) by lia.
  rd. rewrite Z.shiftl_mul_pow2, u64_small by nia.
  set (c0 := dg (elem src) (n - 1) * 2 ^ s) in *. assert (0 <= c0 < H64) by (subst c0; nia).
  eapply (returns_bind _ _ (fun '(d, len) => dest d N /\
    len = (if MASK <? c0 then n + 1 else n) /\ (MASK < c0 -> dg (elem d) n = c0 / BASE))).
  { destruct (Z.ltb_spec MASK c0); [|apply returns_ret; split_and!; (done || lia)].
    wr. apply returns_ret. split_and!; [by apply dest_put|rewrite u64_small; lia|].
    intros _. rewrite (dg_put_eq dst N), shiftr_bits, u32_small by (done || lia || zsolve).
    done. }
  intros [d len] (Hd1 & -> & Hdn).
  eapply returns_bind; [apply (shl_loop_spec src n ns d N s (c0 / BASE)); (done || lia)|].
  intros [c d2] (Hd2 & Hout & Hev). wr. change (for_up 0 0 _ ?x) with (mret x : M ALongInt).
  pose proof (dest_put d2 N 0 (Z.land c MASK) Hd2) as Hd3.
  assert (eval (elem (put d2 0 (Z.land c MASK))) 0 n + BASE ^ n * (c0 / BASE) =
    eval (elem src) 0 n * 2 ^ s) as Hval.
  { rewrite eval_low, (dg_put_eq d2 N), eval_put_out, u32_land by (done || lia).
    replace (BASE ^ n) with (BASE ^ (n - 1) * BASE) by (rewrite <- BASE_pow_succ by lia; f_equal; lia).
    rewrite Z.add_0_l. lia. }
  eapply returns_bind; [by apply (returns_ret _ (fun x => x = put d2 0 (Z.land c MASK)))|].
  intros ? ->. rewrite (Len_block _ _ _ (proj1 Hd3)).
  destruct (Z.ltb_spec MASK c0) as [Hov|Hov].
  - assert (N = n + 1) as -> by lia. rewrite Z.ltb_irrefl. apply returns_ret. split; [done|].
    rewrite eval_succ, Z.add_0_l, dg_put_ne, Hout, Hdn by lia. done.
  - rewrite (Z.div_small c0) in Hval by (subst c0; nia). destruct (Z.ltb_spec n N) as [HnN|HnN].
    + assert (N = n + 1) as -> by lia.
      eapply evals_returns; [apply (set_digit_put _ (n + 1)); (done || lia)|].
      split; [by apply dest_put|].
      rewrite (eval_put_top _ (n + 1)) by (done || lia). lia.
    + assert (N = n) as -> by lia. apply returns_ret. split; [done|]. lia.
Qed.

Lemma shr_word c x s :
  0 <= s <= 31 -> 0 <= x < BASE -> 0 <= c < 2 ^ (32 - s) ->
  let w := Z.lor c (u64 (Z.shiftl x (BITS - s))) in
  w = c + x * 2 ^ (32 - s) /\ Z.shiftr w BITS = x / 2 ^ s.
Proof.
  intros Hs Hx Hc. pose proof (pow2_split s ltac:(lia)) as Hsp.
  pose proof (Z.pow_pos_nonneg 2 s ltac:(lia) ltac:(lia)).
  pose proof (Z.pow_pos_nonneg 2 (32 - s) ltac:(lia) ltac:(lia)).
  assert (2 ^ (32 - s) <= BASE) by (change BASE with (2 ^ 32); apply Z.pow_le_mono_r; lia).
  assert (0 <= x * 2 ^ (32 - s)) by (apply Z.mul_nonneg_nonneg; lia).
  assert (x * 2 ^ (32 - s) <= MASK * BASE) by (apply Z.mul_le_mono_nonneg; lia).
  cbv zeta. rewrite Z.shiftl_mul_pow2, u64_small by lia.
  rewrite (lor_disjoint _ _ (32 - s)); [|lia|lia|by exists x].
  split; [done|]. rewrite shiftr_bits, <- Hsp, (Z.mul_comm (2 ^ s)), <- Z.div_div by lia.
  rewrite Z.div_add, (Z.div_small c) by lia. done.
Qed.

(** [Shr] in place divides by a power of two. *)
Lemma Shr_spec a N s :
  dest a N -> 1 <= N -> 0 <= s <= 31 ->
  returns (Shr a s) (fun a' => dest a' N /\ eval (elem a') 0 N = eval (elem a) 0 N / 2 ^ s).
Proof.
  pose proof MAXDIGITS_eq. intros Ha HN Hs. unfold Shr.
  destruct (lb_len _ _ _ (proj1 Ha)) as [_ Hnm].
  pose proof (Z.pow_pos_nonneg 2 s ltac:(lia) ltac:(lia)) as Hp.
  pose proof (Z.pow_pos_nonneg 2 (32 - s) ltac:(lia) ltac:(lia)) as Hp'.
  pose proof (pow2_split s ltac:(lia)) as Hsp.
  rewrite (Len_block _ _ _ (proj1 Ha)), land_31 by lia. replace (s / 32) with 0 by zsolve.
  cbv zeta. rewrite Z.sub_0_r, u64_small by lia. rd. rewrite Z.shiftr_div_pow2 by lia.
  assert (forall i, 0 <= dg (elem a) i / 2 ^ s < 2 ^ (32 - s)) as Hdiv.
  { intros i. pose proof (digit_range a N i Ha). split; [apply Z.div_pos; lia|].
    apply Z.div_lt_upper_bound; lia. }
  eapply returns_bind.
  { apply (for_up_inv (fun i '(c, a') => dest a' N /\ c = dg (elem a) i / 2 ^ s /\
      (forall j, i <= j -> dg (elem a') j = dg (elem a) j) /\
      eval (elem a') 0 i + BASE ^ i * c = eval (elem a) 0 (i + 1) / 2 ^ s)); [lia| |].
    - split_and!; try done. rewrite (eval_1 (elem a)), eval_0. lia.
    - intros i [c a'] Hi (Ha' & -> & Hout & Hev). rewrite !Z.add_0_r. rd. rewrite Hout by lia.
      pose proof (digit_range a N (i + 1) Ha) as Hx.
      destruct (shr_word (dg (elem a) i / 2 ^ s) _ s Hs Hx (Hdiv i)) as [Hw Hsh].
      set (w := Z.lor _ _) in *. wr. apply returns_ret. rewrite Hsh. split_and!.
      + by apply dest_put.
      + done.
      + intros j Hj. rewrite dg_put_ne by lia. apply Hout. lia.
      + rewrite <- Hsh, shiftr_bits, (eval_put0 a' N i _ w) by (done || lia || apply u32_land).
        rewrite (eval_succ (elem a) 0 (i + 1)), Z.add_0_l by lia.
        replace (BASE ^ (i + 1) * dg (elem a) (i + 1))
          with ((BASE ^ i * 2 ^ (32 - s) * dg (elem a) (i + 1)) * 2 ^ s)
          by (rewrite BASE_pow_succ, <- Hsp by lia; ring).
        rewrite Z.div_add, <- Hev, Hw by lia. ring. }
  intros [c a1] (Ha1 & -> & _ & Hev).
  eapply evals_returns; [apply (set_digit_put _ N); (done || lia)|]. split; [by apply dest_put|].
  pose proof (Hdiv (N - 1)) as Hd. replace (N - 1 + 1) with N in Hev by lia.
  assert (2 ^ (32 - s) <= BASE) by (change BASE with (2 ^ 32); apply Z.pow_le_mono_r; lia).
  replace (if 0 <? dg (elem a) (N - 1) / 2 ^ s then _ else 0) with (dg (elem a) (N - 1) / 2 ^ s)
    by (destruct (Z.ltb_spec 0 (dg (elem a) (N - 1) / 2 ^ s)); lia).
  rewrite <- Hev. replace N with (N - 1 + 1) at 3 by lia.
  by rewrite (eval_put_top a1 N) by (done || lia || unfold digit_ok; lia).
Qed.

(** ** The whole division *)

Lemma div_core_spec a n na b m nb s X Y :
  li_block a n na -> li_block b m nb -> 1 <= n <= MAXDIGITS + 2 -> 1 <= m -> m <= n + 1 ->
  0 <= s <= 31 -> 2147483648 <= dg (elem b) (m - 1) * 2 ^ s < BASE ->
  X = eval (elem a) 0 n -> Y = eval (elem b) 0 m ->
  returns (div_core a b m s) (fun '(r, d) =>
    dest r (n + 1) /\ dest d (n - m + 2) /\ 0 < Y /\
    li_abs r (n + 1) = X mod Y /\ li_abs d (n - m + 2) = X / Y).
Proof.
  pose proof MAXDIGITS_eq. intros Ha Hb Hn Hm Hmn Hs Hnorm HX HY. unfold div_core.
  pose proof (Z.pow_pos_nonneg 2 s ltac:(lia) ltac:(lia)).
  assert (0 < Y) as HYp.
  { pose proof (block_range b m nb (m - 1) Hb).
    pose proof (eval_top_lower (elem b) m (lb_digits _ _ _ Hb) ltac:(lia) ltac:(nia)).
    pose proof (BASE_pow_pos (m - 1) ltac:(lia)). lia. }
  rewrite (Len_block _ _ _ Ha).
  eapply returns_bind; [apply CreateLongInt_dest; lia|]. intros a0 Ha0.
  eapply returns_bind; [apply (Shl_spec a n na a0 (n + 1) s); (done || lia || by left)|].
  intros a1 [Ha1 Hev1].
  eapply returns_bind; [apply CreateLongInt_dest; lia|]. intros b0 Hb0.
  eapply returns_bind; [apply (Shl_spec b m nb b0 m s); (done || lia)|].
  intros b1 [Hb1 Hevb]. rewrite (Len_block _ _ _ (proj1 Ha1)).
  replace (n + 1 - m + 1) with (n - m + 2) by lia.
  eapply returns_bind; [apply CreateLongInt_dest; lia|]. intros d0 Hd0.
  assert (2147483648 <= dg (elem b1) (m - 1)) as Htop.
  { rewrite eval_pred, (eval_pred (elem b)) in Hevb by lia. rewrite !Z.add_0_l in Hevb.
    pose proof (eval_bound (elem b1) 0 (m - 1) (lb_digits _ _ _ (proj1 Hb1)) ltac:(lia)).
    pose proof (eval_bound (elem b) 0 (m - 1) (lb_digits _ _ _ Hb) ltac:(lia)).
    set (P := BASE ^ (m - 1)) in *. set (x := dg (elem b) (m - 1)) in *. set (y := dg (elem b1) (m - 1)) in *.
    assert (P * (x * 2 ^ s) < P * (y + 1)) by nia. nia. }
  eapply returns_bind.
  { apply (div_loop_spec a1 b1 d0 (n + 1) m false (Y * 2 ^ s)).
    - done.
    - apply Hb1.
    - by replace (n + 1 - m + 1) with (n - m + 2) by lia.
    - lia.
    - by rewrite Hevb, HY.
    - done. }
  intros [a2 d] (Ha2 & Hd & _ & Hr & Hdiv). rewrite Hev1, <- HX in Hdiv.
  replace (n + 1 - m + 1) with (n - m + 2) in * by lia.
  set (R := eval (elem a2) 0 (n + 1)) in *. set (D := eval (elem d) 0 (n - m + 2)) in *.
  assert (R = (X - D * Y) * 2 ^ s) as HR by lia.
  eapply returns_bind; [apply (Shr_spec a2 (n + 1) s); (done || lia)|].
  intros a3 [Ha3 Hev3]. apply returns_ret. fold R in Hev3. rewrite HR, Z.div_mul in Hev3 by lia.
  assert (0 <= X - D * Y < Y) by nia.
  split_and!; try done; unfold li_abs; rewrite ?Hev3.
  - apply (Z.mod_unique _ _ D); lia.
  - fold D. apply (Z.div_unique _ _ _ (X - D * Y)); lia.
Qed.

(** Quotient and remainder of signed numbers from those of the magnitudes. *)
Lemma floor_same s X Y :
  0 < Y -> signed s X / signed s Y = X / Y /\ signed s X mod signed s Y = signed s (X mod Y).
Proof.
  intros. destruct s; simpl; [|done]. by rewrite Z.div_opp_opp, Z.mod_opp_opp by lia.
Qed.

Lemma floor_differ s X Y :
  0 < Y ->
  signed s X / signed (negb s) Y = - ((X + (Y - 1)) / Y) /\
  signed s X mod signed (negb s) Y = signed (negb s) (Y - 1 - (X + (Y - 1)) mod Y).
Proof.
  intros. pose proof (Z.div_mod (X + (Y - 1)) Y ltac:(lia)).
  pose proof (Z.mod_pos_bound (X + (Y - 1)) Y ltac:(lia)).
  set (q := (X + (Y - 1)) / Y) in *. set (r := (X + (Y - 1)) mod Y) in *.
  destruct s; simpl; split.
  - symmetry. apply (Z.div_unique _ _ _ (Y - 1 - r)); lia.
  - symmetry. apply (Z.mod_unique _ _ (- q)); lia.
  - symmetry. apply (Z.div_unique _ _ _ (r - (Y - 1))); lia.
  - symmetry. apply (Z.mod_unique _ _ (- q)); lia.
Qed.

(** The remainder for operands of different signs, [(|b| - 1) - r]. *)
Lemma mod_tweak_spec tmp m r N Y R :
  dest tmp m -> 1 <= m <= MAXDIGITS -> li_abs tmp m = Y - 1 ->
  dest r N -> 2 <= N -> li_abs r N = R -> R < Y ->
  returns (a ← TruncateZeroDigits r false; '(d, _) ← SubAbsolute_raw tmp a; mret d)
    (fun d => dest d m /\ li_abs d m = Y - 1 - R).
Proof.
  intros Htmp Hm HY Hr HN HR HRY.
  eapply returns_bind; [apply (truncate_dest r N); (done || lia)|].
  intros a (k & (Hk & Htr & Hab) & Hkr & Hk1 & _ & _).
  pose proof (li_abs_bound _ _ _ (proj1 Htmp)) as Hb.
  assert (k <= m) as Hkm.
  { destruct (decide (k <= 1)); [lia|]. apply Z.nlt_ge. intros Hlt.
    pose proof (eval_top_lower (elem a) k (lb_digits _ _ _ Hk) ltac:(lia) (Htr ltac:(lia))) as Hlow.
    fold (li_abs a k) in Hlow. assert (BASE ^ m <= BASE ^ (k - 1)) by (apply Z.pow_le_mono_r; lia). lia. }
  eapply returns_bind.
  { apply (SubAbsolute_raw_spec tmp m false a k false).
    - split; [apply Htmp|lia].
    - split; [done|lia].
    - unfold length_ordered. lia. }
  intros [d sg] [Hd Hsg]. apply returns_ret. rewrite Z.max_l in * by lia. split; [done|].
  pose proof (li_abs_bound _ _ _ (proj1 Hd)). destruct sg; simpl in *; lia.
Qed.

Lemma trim_top a n neg : operand a n neg -> trimmed a n -> 0 < li_abs a n -> 0 < dg (elem a) (n - 1) < BASE.
Proof.
  intros [Ha Hn] Ht Hpos. pose proof (block_range a n neg (n - 1) Ha).
  destruct (decide (n = 1)) as [->|]; [|specialize (Ht ltac:(lia)); lia].
  unfold li_abs in Hpos. rewrite eval_1 in Hpos. change (1 - 1) with 0 in *. lia.
Qed.

(** Division of long integers of the same sign, a dividend of at least as many
    digits as the divisor. *)
Lemma ADivModLongInt_same a n b m s :
  operand a n s -> operand b m s -> trimmed b m -> 0 < li_abs b m -> m <= n ->
  returns (ADivModLongInt a b) (fun '(q, r) =>
    int_repr q (li_abs a n / li_abs b m) /\ int_repr r (signed s (li_abs a n mod li_abs b m))).
Proof.
  pose proof MAXDIGITS_eq. intros [Ha Hn] [Hb Hm] Ht HY Hmn. unfold ADivModLongInt.
  pose proof (trim_top b m s (conj Hb Hm) Ht HY) as Htop.
  eapply returns_bind; [apply AAllocTempStack_spec|]. intros _ _.
  rewrite (Sign_block _ _ _ Ha), (Sign_block _ _ _ Hb), (Len_block _ _ _ Hb), xorb_nilpotent.
  rd. eapply returns_bind.
  { apply (norm_shift_spec 34 (dg (elem b) (m - 1)) 0); (done || lia). }
  intros k (Hk & Hnorm). eapply returns_bind_evals; [apply evals_ret|]. cbv beta iota.
  eapply returns_bind; [apply (div_core_spec a n s b m s k); (done || lia)|].
  intros [r d] (Hr & Hd & _ & HR & HD). fold (li_abs a n) in *. fold (li_abs b m) in *.
  pose proof (li_abs_bound _ _ _ Ha) as HXb.
  pose proof (Z.div_mod (li_abs a n) (li_abs b m) ltac:(lia)).
  pose proof (Z.mod_pos_bound (li_abs a n) (li_abs b m) HY).
  set (X := li_abs a n) in *. set (Y := li_abs b m) in *.
  assert (0 <= X / Y) by (apply Z.div_pos; lia).
  assert (X / Y <= X) by (apply Z.div_le_upper_bound; nia).
  assert (X mod Y <= X) by (apply Z.mod_le; lia).
  eapply returns_bind_evals; [apply evals_ret|]. cbv beta iota.
  eapply returns_bind; [apply (ANormalize_spec r (n + 1)); try apply Hr; [lia|]|].
  { apply (small_of_digits _ n); rewrite ?HR; lia. }
  intros modv Hmod. rewrite HR in Hmod.
  eapply returns_bind; [apply (ANormalize_spec d (n - m + 2)); try apply Hd; [lia|]|].
  { apply (small_of_digits _ n); rewrite ?HD; lia. }
  intros quot Hq. rewrite HD in Hq. by apply returns_ret.
Qed.

(** Division of long integers of different signs, a divisor of at least two
    digits. *)
Lemma ADivModLongInt_differ a n b m s :
  operand a n s -> operand b m (negb s) -> trimmed b m -> 0 < li_abs b m -> 2 <= m ->
  returns (ADivModLongInt a b) (fun '(q, r) =>
    int_repr q (- ((li_abs a n + (li_abs b m - 1)) / li_abs b m)) /\
    int_repr r (signed (negb s) (li_abs b m - 1 - (li_abs a n + (li_abs b m - 1)) mod li_abs b m))).
Proof.
  pose proof MAXDIGITS_eq. intros [Ha Hn] [Hb Hm] Ht HY Hm2. unfold ADivModLongInt.
  pose proof (trim_top b m _ (conj Hb Hm) Ht HY) as Htop.
  eapply returns_bind; [apply AAllocTempStack_spec|]. intros _ _.
  rewrite (Sign_block _ _ _ Ha), (Sign_block _ _ _ Hb), (Len_block _ _ _ Hb).
  replace (xorb s (negb s)) with true by (by destruct s).
  rd. eapply returns_bind.
  { apply (norm_shift_spec 34 (dg (elem b) (m - 1)) 0); (done || lia). }
  intros k (Hk & Hnorm). unfold div_tweak.
  eapply (returns_bind _ _ (fun '(tmp, a') => dest tmp m /\ li_abs tmp m = li_abs b m - 1 /\
    dest a' (Z.max n m + 1) /\ li_abs a' (Z.max n m + 1) = li_abs a n + (li_abs b m - 1))).
  { eapply returns_bind; [apply (SubAbsoluteSingle_raw_spec b m (negb s) 1); (done || lia)|].
    intros tmp [Htmp HT].
    eapply returns_bind; [apply (AddAbsolute_raw_spec a n s tmp m false); [done|split; [apply Htmp|lia]]|].
    intros [a' sg] (Ha' & _ & HA). apply returns_ret. by rewrite <- HT. }
  intros [tmp a'] (Htmp & HT & Ha' & HA).
  eapply returns_bind; [apply (div_core_spec a' (Z.max n m + 1) false b m (negb s) k); (done || lia || apply Ha')|].
  intros [r d] (Hr & Hd & _ & HR & HD). fold (li_abs a' (Z.max n m + 1)) in *. fold (li_abs b m) in *.
  pose proof (li_abs_bound _ _ _ Ha) as HXb. pose proof (li_abs_bound _ _ _ Hb) as HYb.
  set (X := li_abs a n) in *. set (Y := li_abs b m) in *.
  pose proof (Z.mod_pos_bound (X + (Y - 1)) Y HY).
  assert (0 <= (X + (Y - 1)) / Y) by (apply Z.div_pos; lia).
  assert ((X + (Y - 1)) / Y <= X) by (apply Z.lt_succ_r, Z.div_lt_upper_bound; nia).
  eapply returns_bind; [apply (mod_tweak_spec tmp m r (Z.max n m + 1 + 1) Y); (done || lia)|].
  intros rr [Hrr HRR].
  eapply returns_bind; [apply (ANormalize_spec rr m); try apply Hrr; [lia|]|].
  { apply (small_of_digits _ m); rewrite ?HRR; lia. }
  intros modv Hmod. rewrite HRR in Hmod.
  eapply returns_bind; [apply (ANormalize_spec d (Z.max n m + 1 - m + 2)); try apply Hd; [lia|]|].
  { apply (small_of_digits _ n); rewrite ?HD; lia. }
  intros quot Hq. rewrite HD in Hq. by apply returns_ret.
Qed.

(** Long division computes the floored quotient and the remainder with the
    divisor's sign, on the operands for which the code is correct: operands
    of the same sign with a dividend of no fewer digits, or operands of
    different signs with a divisor of at least two digits. *)
Definition div_defined (a b : ALongInt) : bool :=
  if eqb (AGetLongIntSign a) (AGetLongIntSign b)
  then AGetLongIntLen b <=? AGetLongIntLen a
  else 2 <=? AGetLongIntLen b.

Lemma ADivModLongInt_spec a x b y :
  li_trim a x -> li_trim b y -> y <> 0 -> div_defined a b = true ->
  returns (ADivModLongInt a b) (fun '(q, r) => int_repr q (x / y) /\ int_repr r (x mod y)).
Proof.
  intros (n & na & Ha & _ & ->) (m & nb & Hb & Ht & ->) Hy. unfold div_defined.
  rewrite (Sign_block _ _ _ (proj1 Ha)), (Sign_block _ _ _ (proj1 Hb)),
    (Len_block _ _ _ (proj1 Ha)), (Len_block _ _ _ (proj1 Hb)).
  assert (0 < li_abs b m) as HY.
  { pose proof (li_abs_bound _ _ _ (proj1 Hb)). destruct nb; simpl in *; lia. }
  destruct (eqb_spec na nb) as [<-|Hne]; intros Hdef.
  - destruct (floor_same na (li_abs a n) (li_abs b m) HY) as [-> ->].
    apply (ADivModLongInt_same a n b m na); (done || lia).
  - assert (nb = negb na) as -> by (by destruct na, nb).
    destruct (floor_differ na (li_abs a n) (li_abs b m) HY) as [-> ->].
    apply ADivModLongInt_differ; (done || lia).
Qed.
