(* ===== verification/LongIntProps.v ===== *)
(** * LongIntProps: the properties of long integer arithmetic

    The statements a caller of [std_int_long.c] relies on, over every heap
    and every content of fresh blocks.  Each is followed by a witness at
    concrete operands. *)

From S2P Require Import Prelude Runtime Digits Value LongInt LongIntDiv.

(** ** Uniqueness of normalized blocks *)

Lemma trim_length a n na b m nb :
  operand a n na -> operand b m nb -> dg (elem a) (n - 1) <> 0 -> dg (elem b) (m - 1) <> 0 ->
  li_abs a n = li_abs b m -> n = m.
Proof.
  assert (forall a n na b m nb, operand a n na -> operand b m nb -> dg (elem b) (m - 1) <> 0 ->
    li_abs a n = li_abs b m -> m <= n) as H.
  { clear. intros a n na b m nb [Ha Hn] [Hb Hm] Ht Heq. apply Z.nlt_ge. intros Hlt.
    pose proof (li_abs_bound _ _ _ Ha).
    pose proof (eval_top_lower _ m (lb_digits _ _ _ Hb) ltac:(lia) Ht) as Hlow.
    fold (li_abs b m) in Hlow. assert (BASE ^ n <= BASE ^ (m - 1)) by (apply Z.pow_le_mono_r; lia). lia. }
  intros Ha Hb Hta Htb Heq. apply Z.le_antisymm; eauto.
Qed.

Lemma li_norm_unique a b z :
  li_norm a z -> li_norm b z ->
  AGetLongIntSign a = AGetLongIntSign b /\ AGetLongIntLen a = AGetLongIntLen b /\
  same_digits (elem a) (elem b) (AGetLongIntLen a).
Proof.
  intros ((n & na & Ha & Hn & Hz) & Hs & k & -> & Hta) ((m & nb & Hb & Hm & Hz') & _ & l & -> & Htb).
  rewrite (Len_block _ _ _ Ha) in *. rewrite (Len_block _ _ _ Hb) in *.
  rewrite (Sign_block _ _ _ Ha), (Sign_block _ _ _ Hb).
  pose proof (li_abs_bound _ _ _ Ha). pose proof (li_abs_bound _ _ _ Hb).
  assert (z <> 0) as Hz0 by (intros ->; apply Hs; unfold short_range, A_SHORT_INT_MIN, A_SHORT_INT_MAX; lia).
  assert (na = nb /\ li_abs a n = li_abs b m) as [-> Heq]
    by (destruct na, nb; simpl in *; (split; [done|lia]) || lia).
  assert (n = m) as -> by (apply (trim_length a n nb b m nb); done).
  split_and!; [done|done|]. intros i Hi.
  apply (eval_inj (elem a) (elem b) 0 0 m (lb_digits _ _ _ Ha) (lb_digits _ _ _ Hb) ltac:(lia) Heq i Hi).
Qed.

(** ** Concrete long integers *)

(** A long integer block built from its digits, least significant first. *)
Definition mk_long (neg : bool) (ds : list Z) : ALongInt :=
  MkLongInt (AInitLongIntBlock (zlen ds) neg) ds.

Definition digits_okb (ds : list Z) : bool :=
  forallb (fun d => (0 <=? d) && (d <? BASE)) ds.

(** At most a thousand digits, all in range, the leading one nonzero. *)
Definition mk_okb (ds : list Z) : bool :=
  digits_okb ds && (0 <? zlen ds) && (zlen ds <? 1000) && negb (dg ds (zlen ds - 1) =? 0).

Lemma digits_okb_ok ds : digits_okb ds = true -> digits_ok ds.
Proof.
  unfold digits_okb. rewrite forallb_forall. intros H. apply Forall_forall.
  intros d Hd. specialize (H d Hd). unfold digit_ok. lia.
Qed.

Lemma mk_long_operand neg ds :
  mk_okb ds = true -> operand (mk_long neg ds) (zlen ds) neg.
Proof.
  pose proof MAXDIGITS_eq. unfold mk_okb. intros Hok.
  repeat (apply andb_true_iff in Hok as [Hok ?]). split; [|lia]. split; simpl.
  - lia.
  - lia.
  - exists true. apply AInitLongIntBlock_eq; lia.
  - lia.
  - by apply digits_okb_ok.
Qed.

Lemma mk_long_trim neg ds :
  mk_okb ds = true -> li_trim (mk_long neg ds) (signed neg (eval ds 0 (zlen ds))).
Proof.
  intros Hok. exists (zlen ds), neg. split_and!; [by apply mk_long_operand| |done].
  intros _. simpl. unfold mk_okb in Hok. lia.
Qed.

Lemma mk_long_norm neg ds :
  mk_okb ds = true -> ~ short_range (signed neg (eval ds 0 (zlen ds))) ->
  li_norm (mk_long neg ds) (signed neg (eval ds 0 (zlen ds))).
Proof.
  intros Hok Hs. pose proof (mk_long_operand neg ds Hok) as Ho. split_and!; [|done|].
  - exists (zlen ds), neg. by destruct Ho.
  - eexists. split; [done|]. rewrite (Len_block _ _ _ (proj1 Ho)). unfold mk_okb in Hok. simpl. lia.
Qed.

(** Numbers of fewer than a thousand digits are within the bound. *)
Lemma small_lit x : (Z.abs x <? BASE ^ 1000) = true -> small x.
Proof.
  intros H. apply (small_of_digits _ 1000); [rewrite MAXDIGITS_eq|]; lia.
Qed.

(** Numerals for the witnesses: [2^70], [2^100] and their negations. *)
Definition p70 : ALongInt := mk_long false [0; 0; 64].
Definition n70 : ALongInt := mk_long true [0; 0; 64].
Definition p100 : ALongInt := mk_long false [0; 0; 0; 16].
Definition n100 : ALongInt := mk_long true [0; 0; 0; 16].

Ltac pos_long := apply (mk_long_trim false); reflexivity.
Ltac neg_long := apply (mk_long_trim true); reflexivity.
Ltac lit_small := apply small_lit; vm_compute; reflexivity.
Ltac not_short := unfold short_range, A_SHORT_INT_MIN, A_SHORT_INT_MAX; lia.

(** ** Addition and subtraction *)

(** C5: the sum of two long integers (at least one of them outside the short
    range) is the Int object of the mathematical sum: a short integer exactly
    when the sum fits 62 bits, a long integer without leading zeros
    otherwise.  It holds whatever the fresh blocks contain. *)
Theorem AAddLongInt_correct a x b y :
  li_trim a x -> li_trim b y -> ~ short_range x \/ ~ short_range y -> small (x + y) ->
  returns (AAddLongInt a b) (fun v => int_repr v (x + y)).
Proof. apply AAddLongInt_spec. Qed.

Lemma AAddLongInt_correct_witness :
  returns (AAddLongInt p70 n100) (fun v => int_repr v (2 ^ 70 + - 2 ^ 100)).
Proof.
  apply (AAddLongInt_correct p70 (2 ^ 70) n100 (- 2 ^ 100));
    [pos_long|neg_long|left; not_short|lit_small].
Defined.

(** C11: the difference of two long integers is exact when the signs agree or
    the left operand has at least as many digits; when the signs differ and the
    left operand is shorter, the sign is read from the exchanged operand and
    the result is the negation of the difference. *)
Theorem ASubLongInt_correct a x b y :
  li_trim a x -> li_trim b y -> ~ short_range x \/ ~ short_range y -> small (x - y) ->
  returns (ASubLongInt a b) (fun v => int_repr v (if sub_sign_defect a b then y - x else x - y)).
Proof. apply ASubLongInt_spec. Qed.

Lemma ASubLongInt_correct_witness :
  sub_sign_defect p70 n100 = true /\ sub_sign_defect p100 n70 = false /\
  returns (ASubLongInt p70 n100) (fun v => int_repr v (- 2 ^ 100 - 2 ^ 70)).
Proof.
  split; [reflexivity|]. split; [reflexivity|].
  apply (ASubLongInt_correct p70 (2 ^ 70) n100 (- 2 ^ 100));
    [pos_long|neg_long|left; not_short|lit_small].
Defined.

(** ** Multiplication *)

(** C12: the product of two long integers is the Int object of the mathematical
    product, for operands of any sign and length. *)
Theorem AMultiplyLongInt_correct a x b y :
  li_repr a x -> li_repr b y -> small (x * y) ->
  returns (AMultiplyLongInt a b) (fun v => int_repr v (x * y)).
Proof. apply AMultiplyLongInt_repr. Qed.

Lemma AMultiplyLongInt_correct_witness :
  returns (AMultiplyLongInt n70 p100) (fun v => int_repr v (- 2 ^ 70 * 2 ^ 100)).
Proof.
  apply (AMultiplyLongInt_correct n70 (- 2 ^ 70) p100 (2 ^ 100)).
  - exists 3, true. by destruct (mk_long_operand true [0; 0; 64] eq_refl).
  - exists 4, false. by destruct (mk_long_operand false [0; 0; 0; 16] eq_refl).
  - lit_small.
Defined.

(** ** Division *)

(** C2: long division returns the quotient rounded towards minus infinity and
    the remainder that has the divisor's sign, under the condition
    [div_defined]: for operands of equal sign the dividend has at least as many
    digits as the divisor, and for operands of different signs the divisor has
    at least two digits.  Nothing is claimed of the other operands, on which
    the code is wrong ([division_defects]). *)
Theorem ADivModLongInt_correct a x b y :
  li_trim a x -> li_trim b y -> y <> 0 -> div_defined a b = true ->
  returns (ADivModLongInt a b) (fun '(q, r) => int_repr q (x / y) /\ int_repr r (x mod y)).
Proof. apply ADivModLongInt_spec. Qed.

Lemma ADivModLongInt_correct_witness :
  returns (ADivModLongInt (mk_long true [7; 0; 0; 16]) p70)
    (fun '(q, r) => int_repr q ((- (2 ^ 100 + 7)) / 2 ^ 70) /\ int_repr r ((- (2 ^ 100 + 7)) mod 2 ^ 70)).
Proof.
  apply (ADivModLongInt_correct (mk_long true [7; 0; 0; 16]) (- (2 ^ 100 + 7)) p70 (2 ^ 70));
    [neg_long|pos_long|lia|reflexivity].
Defined.

(** Memory that holds ones before it is written. *)
Definition dirty_thread : AThread := MkThread (fun _ _ => Some (fun _ => 1)) 0.

(** Outside [div_defined]: 5 div 2^100 makes a quotient of negative length, whose
    digits are then read outside of it; (2^68 + 7) div 2^100 and -2^100 mod 2
    return 2^32, which is what the memory behind a digit held, in place of 0. *)
Lemma division_defects :
  (ADivModLongInt (mk_long false [5]) (mk_long false [0; 0; 0; 16]) dirty_thread).1 = Fault /\
  (exists r, (ADivModLongInt (mk_long false [7; 0; 16]) (mk_long false [0; 0; 0; 16]) dirty_thread).1 = Ok (VInt (AIntToValue (2 ^ 32)), r)) /\
  (exists q, (ADivModLongInt (mk_long true [0; 0; 0; 16]) (mk_long false [2]) dirty_thread).1 = Ok (q, VInt (AIntToValue (2 ^ 32)))).
Proof. split_and!; [by vm_compute|eexists; by vm_compute|eexists; by vm_compute]. Qed.

(** The estimate of a quotient digit, made from the two leading digits of
    the normalized divisor and the three leading digits of the dividend window
    and corrected by the inner loop, is the true digit or one more (the case
    the division loop repairs by adding the divisor back). *)
Lemma estimate_q_bounds a b N m nb k aHi u v :
  dest a N -> li_block b m nb -> 0 <= k -> k + m <= N -> window a b m k aHi u v -> 0 <= u / v ->
  returns (estimate_q a b m (k + m) aHi) (fun q => 0 <= q <= MASK /\ u / v <= q <= u / v + 1).
Proof. apply estimate_q_spec. Qed.

Lemma estimate_q_bounds_example :
  returns (estimate_q (mk_long false [0; 5; 3]) (mk_long false [7; 2147483648]) 2 (0 + 2) 3)
    (fun q => 0 <= q <= MASK /\
      (3 * BASE ^ 2 + 5 * BASE) / (7 + 2147483648 * BASE) <= q <=
      (3 * BASE ^ 2 + 5 * BASE) / (7 + 2147483648 * BASE) + 1).
Proof.
  apply (estimate_q_bounds (mk_long false [0; 5; 3]) (mk_long false [7; 2147483648]) 3 2 false 0 3).
  - split; [apply (mk_long_operand false [0; 5; 3]); reflexivity|]. split; vm_compute; discriminate.
  - apply (mk_long_operand false [7; 2147483648]). reflexivity.
  - lia.
  - lia.
  - split; vm_compute; (reflexivity || discriminate).
  - vm_compute. discriminate.
Defined.



(** ** Comparison, negation, normalization *)

(** The sign of the comparison of two long integers is the sign of their
    difference.  Negation of a long integer is exact, except for positive
    numbers of three or more digits whose two low digits are those of [2^61]:
    these the guard takes for [-A_SHORT_INT_MIN] and the result is the smallest
    short integer. *)
Theorem compare_negate_correct a x b y :
  li_norm a x -> li_trim b y -> x <> 0 \/ y <> 0 ->
  returns (ACompareLongInt a b) (fun r => Z.sgn r = Z.sgn (x - y)) /\
  returns (ACompareLongInt b a) (fun r => Z.sgn r = Z.sgn (y - x)) /\
  returns (ANegateLongInt a) (fun v =>
    if negate_defect a then v = VInt (AIntToValue A_SHORT_INT_MIN) else int_repr v (- x)).
Proof.
  intros Ha Hb Hne. pose proof (li_norm_trim _ _ Ha) as Ht.
  split; [by apply ACompareLongInt_spec|]. split; [apply ACompareLongInt_spec; [done..|tauto]|by apply ANegateLongInt_spec].
Qed.

Lemma compare_negate_correct_witness :
  negate_defect (mk_long false [0; 536870912; 1]) = true /\
  returns (ACompareLongInt (mk_long false [0; 536870912]) n100) (fun r => Z.sgn r = Z.sgn (2 ^ 61 - - 2 ^ 100)) /\
  returns (ACompareLongInt n100 (mk_long false [0; 536870912])) (fun r => Z.sgn r = Z.sgn (- 2 ^ 100 - 2 ^ 61)) /\
  returns (ANegateLongInt (mk_long false [0; 536870912])) (fun v => int_repr v (- 2 ^ 61)).
Proof.
  split; [reflexivity|].
  apply (compare_negate_correct (mk_long false [0; 536870912]) (2 ^ 61) n100 (- 2 ^ 100)); [|neg_long|left; lia].
  apply (mk_long_norm false); [reflexivity|]. change (signed _ _) with (2 ^ 61). not_short.
Defined.

(** C13: normalization turns a block of at least two digits (leading zeros
    allowed) and a sign into the Int object of its value: the short integer
    whenever the value is in range, otherwise a long integer without leading
    zeros.  This representation is canonical: two Int objects that denote the
    same number are both short with the same word, or both long with the same
    sign, length and digits. *)
Theorem ANormalize_canonical li n isNeg v :
  li_block li n false -> new_gen li -> 2 <= n -> small (li_abs li n) ->
  int_repr v (signed isNeg (li_abs li n)) ->
  returns (ANormalize li isNeg) (fun w =>
    int_repr w (signed isNeg (li_abs li n)) /\
    match v, w with
    | VInt a, VInt b => a = b
    | VLong a, VLong b =>
        AGetLongIntSign a = AGetLongIntSign b /\ AGetLongIntLen a = AGetLongIntLen b /\
        same_digits (elem a) (elem b) (AGetLongIntLen a)
    | _, _ => False
    end).
Proof.
  intros Hb Hg Hn Hs Hv. eapply returns_mono; [by apply ANormalize_spec|]. intros w Hw. split; [done|].
  destruct v as [a|a|?|?|?], w as [b|b|?|?|?]; simpl in Hv, Hw; try done.
  - destruct Hv as [-> _], Hw as [-> _]. done.
  - destruct Hv as [_ Hv], Hw as (_ & Hw & _). contradiction.
  - destruct Hv as (_ & Hv & _), Hw as [_ Hw]. contradiction.
  - by apply (li_norm_unique a b (signed isNeg (li_abs li n))).
Qed.

Lemma ANormalize_canonical_witness :
  returns (ANormalize (MkLongInt (AInitLongIntBlock 4 false) [5; 0; 0; 0]) true)
    (fun w => int_repr w (- 5) /\ match w with VInt b => AIntToValue (- 5) = b | _ => False end).
Proof.
  apply (ANormalize_canonical (MkLongInt (AInitLongIntBlock 4 false) [5; 0; 0; 0]) 4 true (VInt (AIntToValue (- 5)))).
  - pose proof MAXDIGITS_eq. split; [lia|done| |done|by apply digits_okb_ok].
    exists true. apply AInitLongIntBlock_eq; (done || lia).
  - split; vm_compute; discriminate.
  - lia.
  - lit_small.
  - split; [done|]. unfold short_range, A_SHORT_INT_MIN, A_SHORT_INT_MAX. vm_compute. split; discriminate.
Defined.
