(* ===== verification/IntOps.v ===== *)
(** * IntOps: arithmetic on Int objects

    The operations on tagged words and their promotion to long integers:
    [std_int.c] (addition, subtraction, division of short integers, the C API
    conversions), [AMultiplyShortInt] of [std_int_long.c], coercion
    ([runtime.c]) and the float conversions it needs ([std_float.c]). *)

From Stdlib Require Import SpecFloat.
From S2P Require Import Prelude Runtime Digits Value LongInt LongIntDiv.

(** ** Overflow tests on tagged words *)

Definition AIsAddOverflow (sum left right : Z) : bool :=
  (s64 (Z.lxor sum left) <? 0) && (s64 (Z.lxor sum right) <? 0).

Definition AIsSubOverflow (dif left right : Z) : bool :=
  (s64 (Z.lxor dif left) <? 0) && (0 <=? s64 (Z.lxor dif right)).

(** The upper half of a tagged word's integer, and the low bits of the word. *)
Definition AHi (w : Z) : Z := Z.shiftr w 33.
Definition ALo (w : Z) : Z := Z.land w (Z.shiftl 1 31 - 1).

Definition AIsIntTimesHalfIntOverflow (full half : Z) (isNeg : bool) : bool :=
  ((Z.shiftl 1 30 <=? u64 (AHi full * AValueToInt half)) ||
   (Z.shiftl 1 61 <=? s64 (AValueToInt full * AValueToInt half))) &&
  (negb isNeg ||
   ((Z.shiftl 1 30 <? u64 (AHi full * AValueToInt half)) || negb (ALo full =? 0))).

(** ** Floats *)

(** Doubles are the IEEE 754 binary64 numbers of the Standard Library. *)
Definition double_of_Z (z : Z) : spec_float := binary_normalize 53 1024 z 0 false.

Definition ACreateFloat (f : spec_float) : M AValue :=
  _ ← AAlloc 8; mret (VFloat f).

(** [ALongIntToFloat]: Horner's scheme in double precision. *)
Definition ALongIntToFloat (l : ALongInt) : M spec_float :=
  let i := s32 (AGetLongIntLen l - 1) in
  let step d i :=
    x ← digit l i;
    mret (SFadd 53 1024 (SFmul 53 1024 d (double_of_Z BASE)) (double_of_Z x)) in
  d ← step (S754_zero false) i;
  d ← for_down (i - 1) 0 (fun i d => step d i) d;
  mret (if AGetLongIntSign l then SFopp d else d).

Definition ACreateFloatFromLongInt (l : ALongInt) : M AValue :=
  f ← ALongIntToFloat l; ACreateFloat f.

(** ** Coercion *)

(** [ACoerce(t, op, left, right, rightRes)]: both operands in a common type. *)
Definition ACoerce (left right : AValue) : M (AValue * AValue) :=
  match left with
  | VFloat _ =>
      match right with
      | VInt w => r ← ACreateFloat (double_of_Z (AValueToInt w)); mret (left, r)
      | VLong li => r ← ACreateFloatFromLongInt li; mret (left, r)
      | VFloat _ => mret (left, right)
      | _ => raise ETypeError
      end
  | VLong l =>
      match right with
      | VInt w => r ← ACreateLongIntFromIntND (AValueToInt w); mret (left, VLong r)
      | VFloat _ => l' ← ACreateFloatFromLongInt l; mret (l', right)
      | VLong _ => mret (left, right)
      | _ => raise ETypeError
      end
  | VInt w =>
      match right with
      | VFloat _ => l' ← ACreateFloat (double_of_Z (AValueToInt w)); mret (l', right)
      | VLong _ => l' ← ACreateLongIntFromIntND (AValueToInt w); mret (VLong l', right)
      | VInt _ => mret (left, right)
      | _ => raise ETypeError
      end
  | _ => raise ETypeError
  end.

(** ** Addition and subtraction *)

(** [AAddInts] calls itself once, after coercion: [depth] bounds the calls. *)
Fixpoint AAddInts (depth : nat) (a b : AValue) : M AValue :=
  match depth with
  | O => fault
  | S depth' =>
      match a, b with
      | VInt a, VInt b =>
          let sum := u64 (a + b) in
          if negb (AIsAddOverflow sum a b) then mret (VInt sum)
          else li ← ACreateLongIntFromIntND (AValueToInt a + AValueToInt b); mret (VLong li)
      | VLong a, VLong b => AAddLongInt a b
      | _, _ => '(a, b) ← ACoerce a b; AAddInts depth' a b
      end
  end.

Fixpoint ASubInts (depth : nat) (a b : AValue) : M AValue :=
  match depth with
  | O => fault
  | S depth' =>
      match a, b with
      | VInt a, VInt b =>
          let dif := u64 (a - b) in
          if negb (AIsSubOverflow dif a b) then mret (VInt dif)
          else li ← ACreateLongIntFromIntND (AValueToInt a - AValueToInt b); mret (VLong li)
      | VLong a, VLong b => ASubLongInt a b
      | _, _ => '(a, b) ← ACoerce a b; ASubInts depth' a b
      end
  end.

(** ** Multiplication of short integers *)

(** The block [FullLongMul]. *)
Definition mul_full (isNeg : bool) (left right : Z) : M AValue :=
  let left := if isNeg then u64 (- left) else left in
  l ← ACreateLongIntFromIntND (AValueToInt left);
  r ← ACreateLongIntFromIntND (AValueToInt right);
  AMultiplyLongInt l r.

(** The block [ShortLongMul]. *)
Definition mul_short_long (isNeg : bool) (left right : Z) : M AValue :=
  l ← ACreateLongIntFromIntND (AValueToInt left);
  p ← AMulAddSingle l (u32 (AValueToInt right)) 0;
  mret (VLong (if isNeg then ASetLongIntSign p else p)).

(** The code after both operands have been made non-negative. *)
Definition mul_magnitudes (isNeg : bool) (left right : Z) : M AValue :=
  let full := if left <? right then right else left in
  let half := if left <? right then left else right in
  if negb (AHi half =? 0) then mul_full isNeg full half
  else if AIsIntTimesHalfIntOverflow full half isNeg then mul_short_long isNeg full half
  else
    let prod := u64 (AValueToInt full * s64 half) in
    mret (VInt (if isNeg then u64 (- prod) else prod)).

Definition AMultiplyShortInt (left right : Z) : M AValue :=
  if negb (AHi left =? 0) || negb (AHi right =? 0) then
    let negL := s64 left <? 0 in
    let left := if negL then u64 (- left) else left in
    if negL && (s64 left <? 0) then
      if right <=? AIntToValue 1 then mret (VInt (u64 (left * AValueToInt right)))
      else mul_full false left right
    else
      let negR := s64 right <? 0 in
      let right := if negR then u64 (- right) else right in
      if negR && (s64 right <? 0) then
        if negb negL && (left <=? AIntToValue 1)
        then mret (VInt (u64 (left * AValueToInt right)))
        else mul_full negL left right
      else mul_magnitudes (xorb negL negR) left right
  else
    let prod := u64 (AValueToInt left * s64 right) in
    if s64 prod <? 0 then mul_short_long false left right else mret (VInt prod).

(** ** Division of short integers *)

(** [AIntDivMod(t, left, right, modPtr)]: quotient and remainder; the operands
    are tagged words read as signed numbers. *)
Definition AIntDivMod (left right : Z) : M (AValue * AValue) :=
  let left := s64 left in
  let right := s64 right in
  if right =? 0 then raise EArithmeticError
  else if (left =? s64 (AIntToValue A_SHORT_INT_MIN)) && (right =? s64 (AIntToValue (-1))) then
    li ← ACreateLongIntFromIntND (- A_SHORT_INT_MIN);
    mret (VLong li, VInt AZero)
  else
    let vl := AValueToInt (u64 left) in
    let vr := AValueToInt (u64 right) in
    let quot :=
      if left <? 0 then
        if right <? 0 then s64 (AIntToValue (Z.quot (- vl) (- vr)))
        else s64 (- AIntToValue (Z.quot (- vl) vr))
      else
        if right <? 0 then s64 (- Z.quot left (- vr))
        else Z.quot left vr in
    let quot := s64 (Z.land (u64 quot) (Z.lnot 3)) in
    let md := s64 (left - s64 (quot * vr)) in
    let '(md, quot) :=
      if ((md <? 0) && (0 <? right)) || ((0 <? md) && (right <? 0))
      then (s64 (md + right), s64 (quot - 4)) else (md, quot) in
    mret (VInt (u64 quot), VInt (u64 md)).

(** ** Tagged arithmetic *)

(** Automation for facts about short integers and their words. *)
Ltac short_unfold := unfold short_range, A_SHORT_INT_MAX, A_SHORT_INT_MIN in *.

(** Case analysis on every comparison of a boolean goal. *)
Ltac bool_cases :=
  repeat match goal with
         | |- context [?a <=? ?b] => destruct (Z.leb_spec a b)
         | |- context [?a <? ?b] => destruct (Z.ltb_spec a b)
         end; simpl; solve [reflexivity | exfalso; zsolve].

(** The tag of a representable integer, without the reduction. *)
Lemma tag_cases z :
  short_range z -> AIntToValue z = if z <? 0 then 4 * z + W64 else 4 * z.
Proof.
  short_unfold. intros. rewrite AIntToValue_eq. destruct (Z.ltb_spec z 0); zsolve.
Qed.

(** The sign bit of the exclusive or of two words. *)
Lemma lxor_sign a b :
  0 <= a < W64 -> 0 <= b < W64 ->
  (s64 (Z.lxor a b) <? 0) = xorb (H64 <=? a) (H64 <=? b).
Proof.
  assert (forall w, 0 <= w < W64 -> Z.testbit w 63 = (H64 <=? w)) as Hbit.
  { intros w Hw. rewrite Z.testbit_odd, Z.shiftr_div_pow2 by lia. change (2 ^ 63) with H64.
    destruct (Z.leb_spec H64 w).
    - replace (w / H64) with 1 by zsolve. done.
    - replace (w / H64) with 0 by zsolve. done. }
  intros Ha Hb. assert (0 <= Z.lxor a b < W64) as Hx.
  { assert (0 <= Z.lxor a b) by (apply Z.lxor_nonneg; lia). split; [done|].
    destruct (decide (Z.lxor a b = 0)); [lia|]. change W64 with (2 ^ 64).
    apply Z.log2_lt_pow2; [lia|]. pose proof (Z.log2_lxor a b ltac:(lia) ltac:(lia)).
    assert (forall w, 0 <= w < W64 -> Z.log2 w < 64) as Hl.
    { intros w Hw. destruct (decide (w = 0)) as [->|]; [done|]. apply Z.log2_lt_pow2; lia. }
    pose proof (Hl a Ha). pose proof (Hl b Hb). lia. }
  rewrite <- (Hbit a Ha), <- (Hbit b Hb), <- Z.lxor_spec, (Hbit _ Hx). unfold s64.
  destruct (Z.leb_spec H64 (Z.lxor a b)); apply Z.ltb_lt || apply Z.ltb_ge; zsolve.
Qed.

Definition in_short (z : Z) : bool := (A_SHORT_INT_MIN <=? z) && (z <=? A_SHORT_INT_MAX).

Lemma in_short_spec z : reflect (short_range z) (in_short z).
Proof. apply iff_reflect. unfold in_short. short_unfold. lia. Qed.

(** The overflow tests decide whether the result is a short integer, and the
    wrapped word is then its tag. *)
Lemma AIsAddOverflow_spec x y :
  short_range x -> short_range y ->
  AIsAddOverflow (u64 (AIntToValue x + AIntToValue y)) (AIntToValue x) (AIntToValue y) =
    negb (in_short (x + y)) /\
  (short_range (x + y) -> u64 (AIntToValue x + AIntToValue y) = AIntToValue (x + y)).
Proof.
  intros Hx Hy. unfold AIsAddOverflow.
  rewrite !lxor_sign by first [apply u64_range | apply AIntToValue_range].
  rewrite !(tag_cases x), !(tag_cases y) by done. split.
  - unfold in_short, u64. short_unfold.
    destruct (Z.ltb_spec x 0), (Z.ltb_spec y 0); bool_cases.
  - intros Hs. rewrite tag_cases by done. unfold u64. short_unfold.
    destruct (Z.ltb_spec x 0), (Z.ltb_spec y 0), (Z.ltb_spec (x + y) 0); zsolve.
Qed.

Lemma AIsSubOverflow_spec x y :
  short_range x -> short_range y ->
  AIsSubOverflow (u64 (AIntToValue x - AIntToValue y)) (AIntToValue x) (AIntToValue y) =
    negb (in_short (x - y)) /\
  (short_range (x - y) -> u64 (AIntToValue x - AIntToValue y) = AIntToValue (x - y)).
Proof.
  intros Hx Hy. unfold AIsSubOverflow. rewrite (Z.leb_antisym _ 0).
  rewrite !lxor_sign by first [apply u64_range | apply AIntToValue_range].
  rewrite !(tag_cases x), !(tag_cases y) by done. split.
  - unfold in_short, u64. short_unfold.
    destruct (Z.ltb_spec x 0), (Z.ltb_spec y 0); bool_cases.
  - intros Hs. rewrite tag_cases by done. unfold u64. short_unfold.
    destruct (Z.ltb_spec x 0), (Z.ltb_spec y 0), (Z.ltb_spec (x - y) 0); zsolve.
Qed.

(** ** Promotion *)

Lemma trim_norm a z : li_trim a z -> ~ short_range z -> li_norm a z.
Proof.
  intros (n & neg & [Hb Hn] & Ht & Hz) Hs. split_and!; [|done|].
  - exists n, neg. split_and!; (done || lia).
  - exists n. rewrite (Len_block _ _ _ Hb). split; [done|]. apply Ht.
    apply (operand_long a n neg z) in Hs; [lia|by split|done].
Qed.

Lemma create_long_spec z :
  - H64 <= z < H64 -> ~ short_range z ->
  returns (li ← ACreateLongIntFromIntND z; mret (VLong li)) (fun v => int_repr v z).
Proof.
  intros Hz Hs. eapply returns_bind; [by apply ACreateLongIntFromIntND_spec|].
  intros li [Hli _]. apply returns_ret. by apply trim_norm.
Qed.

(** The number of digits of an integer. *)
Definition ndigits (z : Z) : Z := Z.log2 (Z.abs z) / BITS + 1.

Lemma ndigits_bounds z n :
  1 <= n -> Z.abs z < BASE ^ n -> (1 < n -> BASE ^ (n - 1) <= Z.abs z) -> ndigits z = n.
Proof.
  assert (forall k, 0 <= k -> BASE ^ k = 2 ^ (32 * k)) as Hpow
    by (intros; by rewrite Z.pow_mul_r by lia).
  intros Hn Hu Hl. unfold ndigits. rewrite Hpow in * by lia.
  destruct (decide (z = 0)) as [->|Hz].
  { destruct (decide (n = 1)) as [->|]; [done|]. specialize (Hl ltac:(lia)).
    pose proof (Z.pow_pos_nonneg 2 (32 * (n - 1)) ltac:(lia) ltac:(lia)). simpl in *. lia. }
  apply Z.log2_lt_pow2 in Hu; [|lia]. pose proof (Z.log2_nonneg (Z.abs z)).
  destruct (decide (n = 1)) as [->|]; [zsolve|].
  specialize (Hl ltac:(lia)). apply Z.log2_le_pow2 in Hl; [|lia]. zsolve.
Qed.

(** The block that an Int operand is, or becomes when it is coerced: its
    length and sign are those of the number. *)
Definition coerced (li : ALongInt) (z : Z) : Prop :=
  li_trim li z /\ AGetLongIntLen li = ndigits z /\ AGetLongIntSign li = (z <? 0).

Lemma trim_len li z : li_trim li z -> AGetLongIntLen li = ndigits z.
Proof.
  intros (n & neg & [Hb Hn] & Ht & Hz). rewrite (Len_block _ _ _ Hb). symmetry.
  assert (Z.abs z = li_abs li n) as Habs
    by (pose proof (li_abs_bound _ _ _ Hb); destruct neg; simpl in *; lia).
  apply ndigits_bounds; [lia|rewrite Habs; apply (li_abs_bound _ _ _ Hb)|].
  intros Hn1. rewrite Habs. apply eval_top_lower; [apply Hb|lia|by apply Ht].
Qed.

Lemma trim_sign li z : li_trim li z -> z <> 0 -> AGetLongIntSign li = (z <? 0).
Proof.
  intros (n & neg & [Hb Hn] & _ & Hz) Hne. rewrite (Sign_block _ _ _ Hb).
  pose proof (li_abs_bound _ _ _ Hb). destruct neg; simpl in *; lia.
Qed.

Lemma norm_coerced li z : li_norm li z -> coerced li z.
Proof.
  intros Hn. pose proof (li_norm_trim li z Hn) as Ht. split_and!; [done|by apply trim_len|].
  apply trim_sign; [done|]. intros ->. destruct Hn as (_ & Hs & _). apply Hs. short_unfold. lia.
Qed.

Lemma short_coerced z :
  short_range z ->
  returns (ACreateLongIntFromIntND (AValueToInt (AIntToValue z))) (fun li => coerced li z).
Proof.
  intros Hz. rewrite AValueToInt_tag by done.
  eapply returns_mono; [apply ACreateLongIntFromIntND_spec; short_unfold; lia|].
  intros li (Ht & _ & Hs). split_and!; [done|by apply trim_len|done].
Qed.

(** An operation that coerces mixed operands behaves as its long version. *)
Lemma mixed_spec (opL : ALongInt -> ALongInt -> M AValue) (k : AValue -> AValue -> M AValue)
    a x b y (R : AValue -> Prop) :
  (forall l r, k (VLong l) (VLong r) = opL l r) ->
  int_repr a x -> int_repr b y -> AIsShortInt a && AIsShortInt b = false ->
  (forall l r, coerced l x -> coerced r y -> ~ short_range x \/ ~ short_range y -> returns (opL l r) R) ->
  returns (if AIsLongInt a && AIsLongInt b then k a b else '(a', b') ← ACoerce a b; k a' b') R.
Proof.
  intros Hk Ha Hb Hss Hop.
  destruct a as [wa|la|?|?|?], b as [wb|lb|?|?|?]; try done; simpl.
  - destruct Ha as [-> Ha]. eapply returns_bind.
    { eapply returns_bind; [by apply short_coerced|]. intros l Hl.
      apply (returns_ret _ (fun '(a', b') => b' = VLong lb /\ exists l, a' = VLong l /\ coerced l x)).
      split; [done|]. by exists l. }
    intros [a' b'] (-> & l & -> & Hl). rewrite Hk. apply Hop; [done|by apply norm_coerced|].
    right. apply Hb.
  - destruct Hb as [-> Hb]. eapply returns_bind.
    { eapply returns_bind; [by apply short_coerced|]. intros l Hl.
      apply (returns_ret _ (fun '(a', b') => a' = VLong la /\ exists l, b' = VLong l /\ coerced l y)).
      split; [done|]. by exists l. }
    intros [a' b'] (-> & l & -> & Hl). rewrite Hk. apply Hop; [by apply norm_coerced|done|].
    left. apply Ha.
  - rewrite Hk. apply Hop; try by apply norm_coerced. left. apply Ha.
Qed.

(** Addition of Int objects. *)
Lemma AAddInts_spec a x b y :
  int_repr a x -> int_repr b y -> small (x + y) ->
  returns (AAddInts 2 a b) (fun v => int_repr v (x + y)).
Proof.
  intros Ha Hb Hs.
  destruct (AIsShortInt a && AIsShortInt b) eqn:Ess.
  { destruct a as [wa|?|?|?|?], b as [wb|?|?|?|?]; try done.
    destruct Ha as [-> Hx], Hb as [-> Hy]. simpl.
    destruct (AIsAddOverflow_spec x y Hx Hy) as [-> Hsum]. rewrite negb_involutive.
    destruct (in_short_spec (x + y)) as [Hxy|Hxy].
    - apply returns_ret. split; [by apply Hsum|done].
    - rewrite !AValueToInt_tag by done. apply create_long_spec; [short_unfold; lia|done]. }
  pose proof (mixed_spec AAddLongInt (AAddInts 1) a x b y (fun v => int_repr v (x + y))) as H.
  enough (returns (if AIsLongInt a && AIsLongInt b then AAddInts 1 a b
                   else '(a', b') ← ACoerce a b; AAddInts 1 a' b') (fun v => int_repr v (x + y)))
    by (by destruct a, b).
  apply H; try done. intros l r [Hl _] [Hr _] Hlong. by apply AAddLongInt_spec.
Qed.

(** Subtraction of Int objects: the sign is flipped when a long operand is
    involved, the signs differ and the left operand has fewer digits. *)
Definition sub_flips (x y : Z) : bool :=
  negb (in_short x && in_short y) && xorb (x <? 0) (y <? 0) && (ndigits x <? ndigits y).

Lemma ASubInts_spec a x b y :
  int_repr a x -> int_repr b y -> small (x - y) ->
  returns (ASubInts 2 a b) (fun v => int_repr v (if sub_flips x y then y - x else x - y)).
Proof.
  intros Ha Hb Hs. unfold sub_flips.
  destruct (AIsShortInt a && AIsShortInt b) eqn:Ess.
  { destruct a as [wa|?|?|?|?], b as [wb|?|?|?|?]; try done.
    destruct Ha as [-> Hx], Hb as [-> Hy]. simpl.
    destruct (in_short_spec x); [|done]. destruct (in_short_spec y); [|done]. cbn [negb andb].
    destruct (AIsSubOverflow_spec x y Hx Hy) as [-> Hdif]. rewrite negb_involutive.
    destruct (in_short_spec (x - y)) as [Hxy|Hxy].
    - apply returns_ret. split; [by apply Hdif|done].
    - rewrite !AValueToInt_tag by done. apply create_long_spec; [short_unfold; lia|done]. }
  pose proof (mixed_spec ASubLongInt (ASubInts 1) a x b y) as H.
  enough (forall R, (R = fun v => int_repr v (if negb (in_short x && in_short y) && xorb (x <? 0) (y <? 0) && (ndigits x <? ndigits y) then y - x else x - y)) ->
    returns (if AIsLongInt a && AIsLongInt b then ASubInts 1 a b
                   else '(a', b') ← ACoerce a b; ASubInts 1 a' b') R) as Hr
    by (specialize (Hr _ eq_refl); by destruct a, b).
  intros R ->. apply H; try done. intros l r (Hl & Hln & Hls) (Hr & Hrn & Hrs) Hlong.
  eapply returns_mono; [by apply (ASubLongInt_spec l x r y)|]. intros v.
  unfold sub_sign_defect. rewrite Hln, Hrn, Hls, Hrs.
  assert (in_short x && in_short y = false) as -> by
    (destruct (in_short_spec x), (in_short_spec y); tauto).
  by destruct (x <? 0), (y <? 0).
Qed.

(** ** Division of short integers *)

Lemma land_not3 a : Z.land a (Z.lnot 3) = 4 * (a / 4).
Proof.
  rewrite <- Z.ldiff_land. change 3 with (Z.ones 2).
  rewrite Z.ldiff_ones_r, Z.shiftl_mul_pow2, Z.shiftr_div_pow2 by lia. change (2 ^ 2) with 4. lia.
Qed.

Lemma s64_land_not3 z : - H64 <= z < H64 -> s64 (Z.land (u64 z) (Z.lnot 3)) = 4 * (z / 4).
Proof. intros. rewrite land_not3. unfold s64, u64. zsolve. Qed.

(** The candidate quotient before the final correction: off by at most one. *)
Definition div_candidate (x y : Z) : Z :=
  (if x <? 0 then if y <? 0 then 4 * Z.quot (- x) (- y) else - (4 * Z.quot (- x) y)
   else if y <? 0 then - Z.quot (4 * x) (- y) else Z.quot (4 * x) y) / 4.

Lemma div_candidate_spec x y :
  y <> 0 -> Z.abs (x - div_candidate x y * y) < Z.abs y /\ Z.abs (div_candidate x y) <= Z.abs x + 1.
Proof.
  intros Hy. unfold div_candidate.
  destruct (Z.ltb_spec x 0), (Z.ltb_spec y 0).
  - rewrite Z.quot_div_nonneg by lia. pose proof (Z.div_mod (- x) (- y) ltac:(lia)).
    pose proof (Z.mod_pos_bound (- x) (- y) ltac:(lia)).
    replace (4 * (- x / - y)) with ((- x / - y) * 4) by lia. rewrite Z.div_mul by lia. assert (0 <= - x / - y) by (apply Z.div_pos; lia). nia.
  - rewrite Z.quot_div_nonneg by lia. pose proof (Z.div_mod (- x) y ltac:(lia)).
    pose proof (Z.mod_pos_bound (- x) y ltac:(lia)).
    replace (- (4 * (- x / y))) with ((- (- x / y)) * 4) by lia.
    rewrite Z.div_mul by lia. assert (0 <= - x / y) by (apply Z.div_pos; lia). nia.
  - rewrite Z.quot_div_nonneg by lia. set (p := - y) in *. replace y with (- p) by lia.
    pose proof (Z.div_mod (4 * x) p ltac:(lia)). pose proof (Z.mod_pos_bound (4 * x) p ltac:(lia)).
    assert (0 <= 4 * x / p) by (apply Z.div_pos; lia). set (q := 4 * x / p) in *.
    assert (4 * (- q / 4) <= - q < 4 * (- q / 4) + 4) by zsolve. set (k := - q / 4) in *.
    assert (- 4 * (x + k * p) < 4 * p /\ x + k * p < p) by nia.
    replace (x - k * - p) with (x + k * p) by lia. split; [lia|].
    assert (- k * p < x + p) by lia. nia.
  - rewrite Z.quot_div_nonneg, Z.div_div by lia.
    rewrite (Z.mul_comm y 4), Z.div_mul_cancel_l by lia.
    pose proof (Z.div_mod x y ltac:(lia)). pose proof (Z.mod_pos_bound x y ltac:(lia)).
    assert (0 <= x / y) by (apply Z.div_pos; lia). nia.
Qed.

(** The correction of a candidate quotient [k] gives the floored quotient. *)
Lemma floor_correct x y k :
  y <> 0 -> Z.abs (x - k * y) < Z.abs y ->
  let adj := (x - k * y <? 0) && (0 <? y) || (0 <? x - k * y) && (y <? 0) in
  x / y = (if adj then k - 1 else k) /\
  x mod y = (if adj then x - k * y + y else x - k * y).
Proof.
  intros Hy Hk adj. subst adj.
  destruct (Z.ltb_spec (x - k * y) 0), (Z.ltb_spec 0 y), (Z.ltb_spec 0 (x - k * y)), (Z.ltb_spec y 0);
    simpl; split; symmetry;
    first [lia | apply (Z.div_unique _ _ _ (x - k * y)); lia
          | apply (Z.div_unique _ _ _ (x - k * y + y)); lia
          | apply (Z.mod_unique _ _ k); lia | apply (Z.mod_unique _ _ (k - 1)); lia].
Qed.

Lemma div_short_range x y :
  short_range x -> short_range y -> y <> 0 -> ~ (x = A_SHORT_INT_MIN /\ y = -1) ->
  short_range (x / y) /\ short_range (x mod y).
Proof.
  short_unfold. intros Hx Hy Hne Hmin.
  pose proof (Z.div_mod x y Hne). split.
  - destruct (decide (0 < y)).
    + pose proof (Z.mod_pos_bound x y ltac:(lia)). set (q := x / y) in *. nia.
    + pose proof (Z.mod_neg_bound x y ltac:(lia)). set (q := x / y) in *.
      destruct (decide (y = -1)) as [->|]; [lia|]. nia.
  - destruct (decide (0 < y)); [pose proof (Z.mod_pos_bound x y ltac:(lia))|
      pose proof (Z.mod_neg_bound x y ltac:(lia))]; lia.
Qed.

Lemma VInt_repr z : short_range z -> int_repr (VInt (u64 (4 * z))) z.
Proof. intros. split; [by rewrite AIntToValue_eq|done]. Qed.

(** The tagged computation of the quotient is the candidate. *)
Lemma quot_word x y :
  short_range x -> short_range y -> y <> 0 -> ~ (x = A_SHORT_INT_MIN /\ y = -1) ->
  s64 (Z.land (u64
    (if 4 * x <? 0 then
       if 4 * y <? 0 then s64 (AIntToValue (Z.quot (- x) (- y)))
       else s64 (- AIntToValue (Z.quot (- x) y))
     else if 4 * y <? 0 then s64 (- Z.quot (4 * x) (- y)) else Z.quot (4 * x) y))
    (Z.lnot 3)) = 4 * div_candidate x y.
Proof.
  intros Hx Hy Hne Hmin. unfold div_candidate.
  replace (4 * x <? 0) with (x <? 0) by lia. replace (4 * y <? 0) with (y <? 0) by lia.
  short_unfold. destruct (Z.ltb_spec x 0), (Z.ltb_spec y 0); rewrite !Z.quot_div_nonneg by lia.
  - assert (0 <= - x / - y) by (apply Z.div_pos; lia).
    assert (- x / - y < 2305843009213693952)
      by (destruct (decide (y = -1)) as [->|]; [rewrite Z.div_1_r|apply Z.div_lt_upper_bound]; lia).
    rewrite s64_tag by (short_unfold; lia). apply s64_land_not3. lia.
  - assert (0 <= - x / y) by (apply Z.div_pos; lia).
    assert (- x / y <= 2305843009213693952) by (apply Z.div_le_upper_bound; nia).
    replace (s64 (- AIntToValue (- x / y))) with (- (4 * (- x / y)))
      by (rewrite AIntToValue_eq; unfold s64; zsolve). apply s64_land_not3. lia.
  - assert (0 <= 4 * x / - y) by (apply Z.div_pos; lia).
    assert (4 * x / - y <= 4 * x) by (apply Z.div_le_upper_bound; nia).
    rewrite (s64_small (- _)) by lia. apply s64_land_not3. lia.
  - assert (0 <= 4 * x / y) by (apply Z.div_pos; lia).
    assert (4 * x / y <= 4 * x) by (apply Z.div_le_upper_bound; nia).
    apply s64_land_not3. lia.
Qed.

Lemma untag_word z : short_range z -> AValueToInt (u64 (4 * z)) = z.
Proof. intros. rewrite <- (AValueToInt_tag z) at 2 by done. by rewrite AIntToValue_eq. Qed.

Lemma AIntDivMod_spec x y :
  short_range x -> short_range y -> y <> 0 ->
  returns (AIntDivMod (AIntToValue x) (AIntToValue y)) (fun '(q, r) =>
    int_repr q (x / y) /\ int_repr r (x mod y)).
Proof.
  intros Hx Hy Hne. unfold AIntDivMod. rewrite !s64_tag by (done || (short_unfold; lia)). cbv zeta.
  destruct (Z.eqb_spec (4 * y) 0); [lia|].
  destruct ((4 * x =? 4 * A_SHORT_INT_MIN) && (4 * y =? 4 * -1)) eqn:Emin.
  { assert (x = A_SHORT_INT_MIN) as -> by (short_unfold; lia). assert (y = -1) as -> by lia.
    eapply returns_bind; [apply ACreateLongIntFromIntND_spec; short_unfold; lia|].
    intros li [Hli _]. apply returns_ret. split; [|by split].
    change (A_SHORT_INT_MIN / -1) with 2305843009213693952.
    apply trim_norm; [exact Hli|]. short_unfold. lia. }
  assert (~ (x = A_SHORT_INT_MIN /\ y = -1)) as Hmin by (short_unfold; lia).
  rewrite !untag_word, quot_word by done.
  destruct (div_candidate_spec x y Hne) as [Hr Hk]. set (k := div_candidate x y) in *.
  destruct (div_short_range x y Hx Hy Hne Hmin) as [Hqs Hrs].
  destruct (floor_correct x y k Hne Hr) as [Hq Hm].
  replace (s64 (4 * x - s64 (4 * k * y))) with (4 * (x - k * y))
    by (short_unfold; unfold s64; set (p := k * y) in *; replace (4 * k * y) with (4 * p) by lia; zsolve).
  replace ((4 * (x - k * y) <? 0) && (0 <? 4 * y) || (0 <? 4 * (x - k * y)) && (4 * y <? 0))
    with ((x - k * y <? 0) && (0 <? y) || (0 <? x - k * y) && (y <? 0)) by lia.
  destruct (_ || _); apply returns_ret; rewrite Hq, Hm in *.
  - rewrite !u64_s64. replace (4 * k - 4) with (4 * (k - 1)) by lia.
    replace (4 * (x - k * y) + 4 * y) with (4 * (x - k * y + y)) by lia. split; by apply VInt_repr.
  - split; by apply VInt_repr.
Qed.

Lemma AIntDivMod_zero x : raises (AIntDivMod (AIntToValue x) (AIntToValue 0)) EArithmeticError.
Proof. apply spec_raise. done. Qed.

(** ** Multiplication of short integers *)

Lemma tag_neg x : u64 (- AIntToValue x) = AIntToValue (- x).
Proof. rewrite !AIntToValue_eq. unfold u64. zsolve. Qed.

Lemma tag_mul x k : u64 (AIntToValue x * k) = AIntToValue (x * k).
Proof.
  rewrite !AIntToValue_eq. unfold u64. rewrite Z.mul_mod_idemp_l by lia. f_equal. lia.
Qed.

Lemma prod_small x y : short_range x -> short_range y -> small (x * y).
Proof.
  intros Hx Hy. apply (small_of_digits _ 4); [rewrite MAXDIGITS_eq; lia|].
  rewrite Z.abs_mul. short_unfold.
  assert (Z.abs x <= 2305843009213693952) by lia. assert (Z.abs y <= 2305843009213693952) by lia.
  assert (Z.abs x * Z.abs y <= 2305843009213693952 * 2305843009213693952)
    by (apply Z.mul_le_mono_nonneg; lia). lia.
Qed.

Lemma trim_repr a z : li_trim a z -> li_repr a z.
Proof. intros (n & neg & [Hb Hn] & _ & Hz). exists n, neg. split_and!; (done || lia). Qed.

Lemma mul_full_spec b x y :
  short_range (signed b x) -> short_range y ->
  returns (mul_full b (AIntToValue x) (AIntToValue y)) (fun v => int_repr v (signed b x * y)).
Proof.
  intros Hx Hy. unfold mul_full.
  replace (if b then u64 (- AIntToValue x) else AIntToValue x) with (AIntToValue (signed b x))
    by (destruct b; simpl; [by rewrite tag_neg|done]).
  eapply returns_bind; [by apply short_coerced|]. intros l [Hl _].
  eapply returns_bind; [by apply short_coerced|]. intros r [Hr _].
  apply AMultiplyLongInt_repr; [by apply trim_repr..|by apply prod_small].
Qed.

(** A magnitude block with a sign. *)
Lemma nat_block_signed d m z b :
  nat_block d m z -> 1 <= m <= MAXDIGITS -> ~ short_range (signed b z) ->
  int_repr (VLong (if b then ASetLongIntSign d else d)) (signed b z).
Proof.
  intros (Hd & Ht & Hz) Hm Hs. apply trim_norm; [|done].
  exists m, b. destruct b.
  - split_and!; [split; [|lia]|exact Ht|by rewrite <- Hz]. apply set_sign_block; (done || lia).
  - split_and!; [split; [done|lia]|exact Ht|by rewrite Hz].
Qed.

Lemma mul_short_long_spec b f h :
  0 <= f <= A_SHORT_INT_MAX -> 0 <= h < 2147483648 -> ~ short_range (signed b (f * h)) ->
  returns (mul_short_long b (AIntToValue f) (AIntToValue h)) (fun v => int_repr v (signed b (f * h))).
Proof.
  pose proof MAXDIGITS_eq. intros Hf Hh Hs. unfold mul_short_long.
  eapply returns_bind; [apply (short_coerced f); short_unfold; lia|].
  intros l ((n & neg & [Hl Hn] & Ht & Hz) & Hlen & Hsg).
  rewrite AValueToInt_tag, u32_small by (short_unfold; lia).
  eapply returns_bind; [apply (AMulAddSingle_spec l n neg h 0); [by split|unfold digit_ok; lia|by split]|].
  intros p (m & Hp & Hm & Hg). apply returns_ret.
  assert (li_abs l n = f) as Hlf.
  { pose proof (li_abs_bound _ _ _ Hl). destruct neg; simpl in *; lia. }
  rewrite Hlf, Z.add_0_r in Hp.
  assert (ndigits f = n) as Hnd by (rewrite <- Hlen; apply (Len_block _ _ _ Hl)).
  assert (n <= 2) as Hn2.
  { rewrite <- Hnd. unfold ndigits. destruct (decide (f = 0)) as [->|]; [done|].
    assert (Z.log2 (Z.abs f) < 61) by (apply Z.log2_lt_pow2; short_unfold; lia). zsolve. }
  apply (nat_block_signed p m); (done || lia).
Qed.

(** The overflow test for non-negative operands: it is exact for a positive
    result; for a negative result it misses products beyond [-2^61] whose
    larger factor is a multiple of [2^29]. *)
Definition half_missed (f h : Z) : bool :=
  ((f / 2147483648) * h <=? 1073741824) && (f mod 536870912 =? 0).

Lemma half_overflow_spec f h b :
  0 <= h <= f -> f <= A_SHORT_INT_MAX -> h < 2147483648 ->
  AIsIntTimesHalfIntOverflow (AIntToValue f) (AIntToValue h) b =
  (2305843009213693952 <=? f * h) && (negb b || negb (half_missed f h)).
Proof.
  intros Hh Hf Hl. short_unfold. unfold AIsIntTimesHalfIntOverflow, AHi, ALo, half_missed.
  rewrite !AValueToInt_tag by (short_unfold; lia).
  rewrite !(tag_cases f) by (short_unfold; lia). destruct (Z.ltb_spec f 0); [lia|].
  rewrite Z.shiftr_div_pow2 by lia. change (Z.shiftl 1 31 - 1) with (Z.ones 31).
  rewrite Z.land_ones by lia. change (2 ^ 33) with 8589934592. change (2 ^ 31) with 2147483648.
  change (Z.shiftl 1 30) with 1073741824. change (Z.shiftl 1 61) with 2305843009213693952.
  replace (4 * f / 8589934592) with (f / 2147483648) by zsolve.
  replace ((4 * f) mod 2147483648 =? 0) with (f mod 536870912 =? 0) by zsolve.
  pose proof (Z.div_mod f 2147483648 ltac:(lia)). pose proof (Z.mod_pos_bound f 2147483648 ltac:(lia)).
  set (hi := f / 2147483648) in *. set (lo := f mod 2147483648) in *.
  assert (0 <= hi < 1073741824) by lia. assert (0 <= hi * h < 2305843009213693952) by nia.
  assert (f * h = 2147483648 * (hi * h) + lo * h) as Hfh by nia.
  assert (0 <= lo * h < 4611686018427387904) by nia.
  rewrite u64_small by lia. set (p := hi * h) in *. set (q := lo * h) in *. rewrite Hfh.
  destruct (Z.leb_spec 1073741824 p); simpl.
  - replace (2305843009213693952 <=? 2147483648 * p + q) with true by lia.
    rewrite (Z.ltb_antisym p), negb_andb. done.
  - rewrite s64_small by lia. destruct (2305843009213693952 <=? 2147483648 * p + q); [|done].
    rewrite (Z.ltb_antisym p), negb_andb. done.
Qed.

(** The products that the test misses. *)
Definition mul_defect (x y : Z) : bool :=
  let f := Z.max (Z.abs x) (Z.abs y) in
  let h := Z.min (Z.abs x) (Z.abs y) in
  (x * y <? A_SHORT_INT_MIN) && (h <? 2147483648) && half_missed f h.

Lemma AHi_zero x :
  short_range x -> (AHi (AIntToValue x) =? 0) = ((0 <=? x) && (x <? 2147483648)).
Proof.
  intros Hx. unfold AHi. rewrite Z.shiftr_div_pow2, tag_cases by (done || lia).
  change (2 ^ 33) with 8589934592. short_unfold. destruct (Z.ltb_spec x 0); bool_cases || zsolve.
Qed.

Lemma tag_le x y : 0 <= x <= A_SHORT_INT_MAX -> 0 <= y <= A_SHORT_INT_MAX ->
  (AIntToValue x <? AIntToValue y) = (x <? y).
Proof.
  short_unfold. intros. rewrite !tag_cases by (short_unfold; lia).
  destruct (Z.ltb_spec x 0), (Z.ltb_spec y 0); lia.
Qed.

Definition mul_result (x y : Z) (v : AValue) : Prop :=
  if mul_defect x y then v = VInt (AIntToValue (x * y)) else int_repr v (x * y).

(** The result word of a product that is taken to fit. *)
Lemma mul_word f h b :
  0 <= f <= A_SHORT_INT_MAX -> 0 <= h <= A_SHORT_INT_MAX ->
  (let prod := u64 (AValueToInt (AIntToValue f) * s64 (AIntToValue h)) in
   if b : bool then u64 (- prod) else prod) = AIntToValue (signed b (f * h)).
Proof.
  intros Hf Hh. cbv zeta. rewrite AValueToInt_tag, s64_tag by (short_unfold; lia).
  replace (u64 (f * (4 * h))) with (AIntToValue (f * h)) by (rewrite AIntToValue_eq; unfold u64; f_equal; lia).
  destruct b; [apply tag_neg|done].
Qed.

(** A divisor of a power of two is a power of two. *)
Lemma factor_pow2 n : 0 <= n -> forall f h, 0 < f -> f * h = 2 ^ n -> exists a, 0 <= a <= n /\ f = 2 ^ a.
Proof.
  revert n. refine (Z_nat_ind _ _ _).
  - intros f h Hf E. exists 0. rewrite Z.pow_0_r in *. split; [lia|]. assert (0 < h) by nia. nia.
  - intros n Hn IH f h Hf E. rewrite Z.pow_add_r, Z.pow_1_r in E by lia.
    pose proof (Z.div_mod f 2 ltac:(lia)). pose proof (Z.mod_pos_bound f 2 ltac:(lia)).
    destruct (decide (f mod 2 = 0)).
    + destruct (IH (f / 2) h) as (a & Ha & Hfa); [lia|nia|]. exists (a + 1).
      rewrite Z.pow_add_r by lia. lia.
    + pose proof (Z.div_mod h 2 ltac:(lia)). pose proof (Z.mod_pos_bound h 2 ltac:(lia)).
      destruct (decide (h mod 2 = 0)).
      * destruct (IH f (h / 2)) as (a & Ha & Hfa); [lia|nia|]. exists a. split; [lia|done].
      * exfalso. assert (f * h = 2 * (2 * (f / 2) * (h / 2) + f / 2 + h / 2) + 1) by nia. lia.
Qed.

(** The test does recognise a product of exactly [-2^61]. *)
Lemma half_missed_pow f h :
  0 <= h < 2147483648 -> 0 < f -> f * h = 2305843009213693952 -> half_missed f h = true.
Proof.
  intros Hh Hf E. destruct (factor_pow2 61 ltac:(lia) f h Hf E) as (a & Ha & ->).
  assert (31 <= a).
  { apply Z.nlt_ge. intros Hlt. assert (2 ^ a <= 2 ^ 30) by (apply Z.pow_le_mono_r; lia).
    change (2 ^ 30) with 1073741824 in *. nia. }
  replace (2 ^ a) with (2 ^ (a - 31) * 2147483648) in *
    by (change 2147483648 with (2 ^ 31); rewrite <- Z.pow_add_r by lia; f_equal; lia).
  unfold half_missed. set (k := 2 ^ (a - 31)) in *.
  rewrite Z.div_mul by lia. replace (k * 2147483648) with (k * 4 * 536870912) by lia.
  rewrite Z.mod_mul by lia. lia.
Qed.

Lemma mul_ordered_spec b f h :
  0 <= h <= f -> f <= A_SHORT_INT_MAX -> h < 2147483648 ->
  returns (if AIsIntTimesHalfIntOverflow (AIntToValue f) (AIntToValue h) b
           then mul_short_long b (AIntToValue f) (AIntToValue h)
           else mret (VInt (let prod := u64 (AValueToInt (AIntToValue f) * s64 (AIntToValue h)) in
                            if b then u64 (- prod) else prod)))
    (fun v => if (signed b (f * h) <? A_SHORT_INT_MIN) && half_missed f h
              then v = VInt (AIntToValue (signed b (f * h))) else int_repr v (signed b (f * h))).
Proof.
  intros Hh Hf Hl. rewrite half_overflow_spec by done. rewrite mul_word by lia.
  destruct (Z.leb_spec 2305843009213693952 (f * h)) as [Hov|Hov]; simpl.
  - destruct b; simpl.
    + destruct (half_missed f h) eqn:Hm; simpl.
      * rewrite andb_true_r. destruct (Z.ltb_spec (- (f * h)) A_SHORT_INT_MIN); apply returns_ret; [done|].
        split; [done|]. short_unfold. lia.
      * rewrite andb_false_r. apply (mul_short_long_spec true); [lia|lia|]. simpl.
        assert (f * h <> 2305843009213693952); [|short_unfold; lia].
        intros E. by rewrite (half_missed_pow f h) in Hm by (done || lia).
    + destruct (Z.ltb_spec (f * h) A_SHORT_INT_MIN); [short_unfold; lia|]. simpl.
      apply (mul_short_long_spec false); [lia|lia|]. short_unfold. simpl. lia.
  - destruct (Z.ltb_spec (signed b (f * h)) A_SHORT_INT_MIN); [destruct b; short_unfold; simpl in *; nia|].
    apply returns_ret. split; [done|]. destruct b; short_unfold; simpl; nia.
Qed.

Lemma mul_magnitudes_spec b f h :
  0 <= f <= A_SHORT_INT_MAX -> 0 <= h <= A_SHORT_INT_MAX ->
  returns (mul_magnitudes b (AIntToValue f) (AIntToValue h)) (fun v =>
    if (signed b (f * h) <? A_SHORT_INT_MIN) && (Z.min f h <? 2147483648) &&
       half_missed (Z.max f h) (Z.min f h)
    then v = VInt (AIntToValue (signed b (f * h))) else int_repr v (signed b (f * h))).
Proof.
  intros Hf Hh. unfold mul_magnitudes. rewrite tag_le by done.
  replace (if f <? h then AIntToValue h else AIntToValue f) with (AIntToValue (Z.max f h))
    by (destruct (Z.ltb_spec f h); f_equal; lia).
  replace (if f <? h then AIntToValue f else AIntToValue h) with (AIntToValue (Z.min f h))
    by (destruct (Z.ltb_spec f h); f_equal; lia).
  replace (f * h) with (Z.max f h * Z.min f h) by (destruct (Z.max_spec f h) as [[? ->]|[? ->]],
    (Z.min_spec f h) as [[? ->]|[? ->]]; lia).
  set (F := Z.max f h) in *. set (H := Z.min f h) in *.
  rewrite AHi_zero by (short_unfold; lia). destruct (Z.leb_spec 0 H); [|lia]. cbn [negb andb].
  destruct (Z.ltb_spec H 2147483648); cbn [negb andb].
  - rewrite andb_true_r. apply mul_ordered_spec; lia.
  - rewrite andb_false_r. replace (signed b (F * H)) with (signed b F * H) by (destruct b; simpl; lia).
    apply mul_full_spec; [|short_unfold; lia]. destruct b; short_unfold; simpl; lia.
Qed.

Lemma tag_sign x : short_range x -> (s64 (AIntToValue x) <? 0) = (x <? 0).
Proof. intros. rewrite s64_tag by done. lia. Qed.

(** The magnitude of a tagged word: the smallest short integer has none. *)
Lemma tag_abs x :
  short_range x ->
  (if x <? 0 then u64 (- AIntToValue x) else AIntToValue x) = AIntToValue (Z.abs x) /\
  ((x <? 0) && (s64 (AIntToValue (Z.abs x)) <? 0) = (x =? A_SHORT_INT_MIN)).
Proof.
  intros Hx. split.
  - destruct (Z.ltb_spec x 0); [rewrite tag_neg|]; f_equal; lia.
  - rewrite AIntToValue_eq. unfold s64. short_unfold. bool_cases || zsolve.
Qed.

Lemma tag_le_1 y : short_range y -> (AIntToValue y <=? AIntToValue 1) = (y =? 0) || (y =? 1).
Proof.
  intros Hy. rewrite (tag_cases y), (tag_cases 1) by (done || (short_unfold; lia)). short_unfold.
  destruct (Z.ltb_spec y 0); simpl; lia.
Qed.

Lemma mul_result_full x y v :
  short_range x -> short_range y -> x = A_SHORT_INT_MIN \/ y = A_SHORT_INT_MIN ->
  int_repr v (x * y) -> mul_result x y v.
Proof.
  intros Hx Hy Hmin Hv. unfold mul_result. replace (mul_defect x y) with false; [done|]. symmetry.
  unfold mul_defect. destruct (Z.ltb_spec (x * y) A_SHORT_INT_MIN) as [Hlt|]; [|done].
  destruct (Z.ltb_spec (Z.min (Z.abs x) (Z.abs y)) 2147483648); [|done]. cbn [andb].
  replace (Z.max (Z.abs x) (Z.abs y)) with 2305843009213693952 by (short_unfold; lia).
  unfold half_missed. change (2305843009213693952 / 2147483648) with 1073741824.
  destruct (Z.leb_spec (1073741824 * Z.min (Z.abs x) (Z.abs y)) 1073741824); [|done].
  short_unfold. destruct Hmin as [-> | ->]; lia.
Qed.

Lemma min_times y : short_range y -> (y =? 0) || (y =? 1) = true -> int_repr (VInt (AIntToValue (A_SHORT_INT_MIN * y))) (A_SHORT_INT_MIN * y).
Proof. intros Hy H. split; [done|]. assert (y = 0 \/ y = 1) as [-> | ->] by lia; short_unfold; lia. Qed.

(** Multiplication of short integers is exact unless the overflow test misses
    the product; it then returns the wrapped word. *)
Lemma AMultiplyShortInt_spec x y :
  short_range x -> short_range y ->
  returns (AMultiplyShortInt (AIntToValue x) (AIntToValue y)) (mul_result x y).
Proof.
  intros Hx Hy. unfold AMultiplyShortInt. rewrite !AHi_zero, <- negb_andb by done.
  destruct (((0 <=? x) && (x <? 2147483648)) && ((0 <=? y) && (y <? 2147483648))) eqn:Elow; cbn [negb].
  { assert (0 <= x < 2147483648 /\ 0 <= y < 2147483648) as [Hx' Hy'] by lia.
    pose proof (mul_word x y false ltac:(short_unfold; lia) ltac:(short_unfold; lia)) as Hw.
    cbv beta zeta iota in Hw. cbv zeta. rewrite Hw. simpl signed. unfold mul_result.
    replace (mul_defect x y) with false
      by (unfold mul_defect; destruct (Z.ltb_spec (x * y) A_SHORT_INT_MIN); [short_unfold; nia|done]).
    assert (0 <= x * y < 4611686018427387904) by nia.
    replace (s64 (AIntToValue (x * y)) <? 0) with (2305843009213693952 <=? x * y)
      by (rewrite AIntToValue_eq; unfold s64; bool_cases || zsolve).
    destruct (Z.leb_spec 2305843009213693952 (x * y)).
    - apply (mul_short_long_spec false); [short_unfold; lia|lia|]. short_unfold. simpl. lia.
    - apply returns_ret. split; [done|]. short_unfold. lia. }
  rewrite !tag_sign by done. cbv zeta.
  destruct (tag_abs x Hx) as [-> ->], (tag_abs y Hy) as [-> ->].
  destruct (Z.eqb_spec x A_SHORT_INT_MIN) as [->|Hxm].
  { change (AIntToValue (Z.abs A_SHORT_INT_MIN)) with (AIntToValue A_SHORT_INT_MIN).
    rewrite tag_le_1 by done. destruct ((y =? 0) || (y =? 1)) eqn:E1.
    - apply returns_ret, mul_result_full; [done|done|by left|].
      rewrite AValueToInt_tag, tag_mul by done. by apply min_times.
    - eapply returns_mono; [apply (mul_full_spec false A_SHORT_INT_MIN y); done|].
      intros v. apply mul_result_full; [done|done|by left]. }
  assert (0 <= Z.abs x <= A_SHORT_INT_MAX) by (short_unfold; lia).
  assert (signed (x <? 0) (Z.abs x) = x) as Hsx by (unfold signed; destruct (Z.ltb_spec x 0); lia).
  destruct (Z.eqb_spec y A_SHORT_INT_MIN) as [->|Hym].
  { change (AIntToValue (Z.abs A_SHORT_INT_MIN)) with (AIntToValue A_SHORT_INT_MIN).
    rewrite tag_le_1 by (short_unfold; lia).
    destruct (negb (x <? 0) && ((Z.abs x =? 0) || (Z.abs x =? 1))) eqn:E1.
    - apply returns_ret, mul_result_full; [done|done|by right|].
      replace (Z.abs x) with x by lia.
      rewrite AValueToInt_tag, tag_mul, Z.mul_comm by done. apply min_times; [done|lia].
    - eapply returns_mono; [apply (mul_full_spec (x <? 0) (Z.abs x) A_SHORT_INT_MIN); [by rewrite Hsx|done]|].
      intros v. rewrite Hsx. apply mul_result_full; [done|done|by right]. }
  eapply returns_mono; [apply mul_magnitudes_spec; short_unfold; lia|].
  assert (signed (xorb (x <? 0) (y <? 0)) (Z.abs x * Z.abs y) = x * y) as ->; [|done].
  unfold signed. destruct (Z.ltb_spec x 0), (Z.ltb_spec y 0); simpl; lia.
Qed.
