(* ===== verification/IntPow.v ===== *)
(** * IntPow: exponentiation of Int objects

    [APowInt] of [std_int_long.c]: square and multiply on short integers,
    continued on long integers after the first overflow. *)

From Stdlib Require Import SpecFloat.
From S2P Require Import Prelude Runtime Digits Value LongInt LongIntDiv IntOps.

(** [AValueToLongInt(v)]: the block behind a value; any other value is not a
    pointer to a long integer block. *)
Definition AValueToLongInt (v : AValue) : M ALongInt :=
  match v with VLong li => mret li | _ => fault end.

(** The loop [LongIntLoop]; [middle] marks an entry at [LongIntLoopMiddle].  The
    inner loop halves a positive even exponent, so it is one more iteration of
    the outer one.  [base] and [val] are the two temporary stack slots. *)
Fixpoint pow_long (fuel : nat) (middle : bool) (base val : AValue) (exp : Z) : M AValue :=
  match fuel with
  | O => fault
  | S fuel' =>
      if negb middle && (exp <=? 0) then mret val
      else if negb middle && (Z.land exp 1 =? 0) then
        b ← AValueToLongInt base;
        base ← AMultiplyLongInt b b;
        pow_long fuel' false base val (Z.shiftr exp 1)
      else
        v ← AValueToLongInt val;
        b ← AValueToLongInt base;
        val ← AMultiplyLongInt v b;
        pow_long fuel' false base val (exp - 1)
  end.

(** The loop on short integers ([base] and [val] are tagged words). *)
Fixpoint pow_short (fuel : nat) (base val exp : Z) : M AValue :=
  match fuel with
  | O => fault
  | S fuel' =>
      if exp <=? 0 then mret (VInt val)
      else if Z.land exp 1 =? 0 then
        p ← AMultiplyShortInt base base;
        let exp := Z.shiftr exp 1 in
        match p with
        | VLong _ =>
            v ← ACreateLongIntFromIntND (AValueToInt val);
            pow_long fuel' true p (VLong v) exp
        | VInt base => pow_short fuel' base val exp
        | _ => fault
        end
      else
        p ← AMultiplyShortInt val base;
        let exp := exp - 1 in
        match p with
        | VLong _ =>
            b ← ACreateLongIntFromIntND (AValueToInt base);
            pow_long fuel' false (VLong b) p exp
        | VInt val => pow_short fuel' base val exp
        | _ => fault
        end
  end.

(** Enough iterations for any exponent of 62 bits. *)
Definition pow_fuel : nat := 200.

Definition APowInt (baseVal expVal : AValue) : M AValue :=
  match expVal with
  | VLong e =>
      if AGetLongIntSign e then raise EArithmeticError
      else
        match baseVal with
        | VInt b =>
            if b =? AZero then mret (VInt AZero)
            else if b =? AIntToValue 1 then mret baseVal
            else if b =? AIntToValue (-1) then
              d0 ← digit e 0;
              mret (VInt (if Z.land d0 1 =? 0 then AIntToValue 1 else AIntToValue (-1)))
            else raise EValueError
        | _ => raise EValueError
        end
  | VInt w =>
      let exp := AValueToInt w in
      if exp <=? 0 then
        if exp =? 0 then mret (VInt (AIntToValue 1)) else raise EArithmeticError
      else
        _ ← AAllocTempStack 2;
        match baseVal with
        | VInt b => pow_short pow_fuel b b (exp - 1)
        | _ => pow_long pow_fuel false baseVal baseVal (exp - 1)
        end
  | _ => fault
  end.

(** ** The loop on long integers *)

Lemma small_factor a c : small (a * c) -> 1 <= Z.abs c -> small a.
Proof. unfold small. rewrite Z.abs_mul. nia. Qed.

Lemma long_abs z : ~ short_range z -> 2305843009213693952 <= Z.abs z.
Proof. short_unfold. lia. Qed.

Lemma abs_long z : 4611686018427387904 <= Z.abs z -> ~ short_range z.
Proof. short_unfold. lia. Qed.

Lemma norm_repr a z : li_norm a z -> li_repr a z.
Proof. by intros []. Qed.

Lemma abs_pow_ge1 b e : b <> 0 -> 0 <= e -> 1 <= Z.abs (b ^ e).
Proof.
  intros Hb He. rewrite Z.abs_pow. assert (0 < Z.abs b ^ e) by (apply Z.pow_pos_nonneg; lia). lia.
Qed.

Lemma land_1 e : Z.land e 1 = e mod 2.
Proof. change 1 with (Z.ones 1). by rewrite Z.land_ones by lia. Qed.

Lemma shiftr_1 e : Z.shiftr e 1 = e / 2.
Proof. by rewrite Z.shiftr_div_pow2 by lia. Qed.

Lemma pow_half B e : 0 <= e -> Z.land e 1 = 0 -> B ^ e = (B * B) ^ (Z.shiftr e 1).
Proof.
  intros He Hev. rewrite land_1 in Hev. rewrite shiftr_1.
  rewrite <- Z.pow_2_r, <- Z.pow_mul_r by zsolve. f_equal. zsolve.
Qed.

Lemma pow_pred B e : 1 <= e -> B ^ e = B * B ^ (e - 1).
Proof. intros. rewrite <- Z.pow_succ_r by lia. f_equal. lia. Qed.

(** The exponents still to be processed fit the remaining fuel. *)
Definition pow_fits (fuel : nat) (e : Z) : Prop :=
  exists k, 0 <= k /\ 0 <= e < 2 ^ k /\ 2 * k + e mod 2 + 1 <= Z.of_nat fuel.

Lemma pow_fits_half fuel e :
  pow_fits (S fuel) e -> 0 < e -> Z.land e 1 = 0 -> pow_fits fuel (Z.shiftr e 1).
Proof.
  intros (k & Hk & He & Hf) Hpos Hev. rewrite land_1 in Hev. rewrite shiftr_1.
  destruct (decide (k = 0)) as [->|]; [lia|].
  replace (2 ^ k) with (2 * 2 ^ (k - 1)) in He by (rewrite <- Z.pow_succ_r by lia; f_equal; lia).
  exists (k - 1). split_and!; [lia|zsolve|zsolve|]. pose proof (Z.mod_pos_bound (e / 2) 2). lia.
Qed.

Lemma pow_fits_pred fuel e : pow_fits (S fuel) e -> Z.land e 1 <> 0 -> pow_fits fuel (e - 1).
Proof.
  intros (k & Hk & He & Hf) Hodd. rewrite land_1 in Hodd.
  exists k. split_and!; [lia|zsolve|lia|zsolve].
Qed.

Lemma pow_long_spec fuel lb B lv V e :
  li_repr lb B -> li_norm lv V -> pow_fits fuel e -> small (V * B ^ e) -> B <> 0 ->
  (if Z.land e 1 =? 0 then ~ short_range (B * B) else ~ short_range B) ->
  returns (pow_long fuel false (VLong lb) (VLong lv) e) (fun v => int_repr v (V * B ^ e)).
Proof.
  revert lb B lv V e. induction fuel as [|fuel IH]; intros lb B lv V e Hb Hv Hf Hs HB Hlong.
  { destruct Hf as (k & ? & ? & ?). pose proof (Z.mod_pos_bound e 2). lia. }
  assert (0 <= e) as He by (destruct Hf as (? & ? & ? & ?); lia).
  assert (~ short_range V) as HVl by apply Hv. pose proof (long_abs V HVl) as HVa.
  cbn [pow_long negb andb]. destruct (Z.leb_spec e 0).
  { assert (e = 0) as -> by lia. rewrite Z.pow_0_r, Z.mul_1_r. apply returns_ret. exact Hv. }
  destruct (Z.eqb_spec (Z.land e 1) 0) as [Hev|Hodd]; simpl AValueToLongInt.
  - assert (0 < Z.shiftr e 1) as He2.
    { rewrite shiftr_1. rewrite land_1 in Hev. zsolve. }
    rewrite (pow_half B e He Hev) in Hs |- *.
    eapply returns_bind_evals; [apply evals_ret|].
    eapply returns_bind; [apply (AMultiplyLongInt_repr lb B lb B Hb Hb)|].
    + eapply (small_factor _ ((B * B) ^ (Z.shiftr e 1 - 1) * V)).
      * rewrite Z.mul_assoc, <- pow_pred by lia. by rewrite Z.mul_comm.
      * rewrite Z.abs_mul. pose proof (abs_pow_ge1 (B * B) (Z.shiftr e 1 - 1)). nia.
    + intros p Hp. destruct p as [w|p|?|?|?]; try (simpl in Hp; tauto).
      assert (2305843009213693952 <= B * B) by (pose proof (long_abs _ Hlong); nia).
      apply IH; [by apply norm_repr|done|by apply pow_fits_half|done|nia|].
      destruct (_ =? 0); [|done]. apply abs_long. nia.
  - assert (2305843009213693952 <= Z.abs B) by (by apply long_abs).
    rewrite (pow_pred B e) in Hs |- * by lia.
    eapply returns_bind_evals; [apply evals_ret|]. eapply returns_bind_evals; [apply evals_ret|].
    eapply returns_bind; [apply (AMultiplyLongInt_repr lv V lb B); [by apply norm_repr|done|]|].
    + eapply (small_factor _ (B ^ (e - 1))); [by rewrite <- Z.mul_assoc|]. apply abs_pow_ge1; lia.
    + assert (~ short_range (V * B)) as HVB by (apply abs_long; rewrite Z.abs_mul; nia).
      intros p Hp. destruct p as [w|p|?|?|?]; try (simpl in Hp; tauto).
      rewrite Z.mul_assoc in *. apply IH; try done; [by apply pow_fits_pred|].
      destruct (_ =? 0); [|done]. apply abs_long. nia.
Qed.

(** The entry at [LongIntLoopMiddle]: the base has just become long, the
    accumulated value is a block for a short integer of at least two. *)
Lemma pow_middle_spec fuel lb B lv V e :
  li_norm lb B -> 0 < B -> li_repr lv V -> 2 <= Z.abs V -> 1 <= e -> pow_fits fuel (e - 1) ->
  small (V * B ^ e) ->
  returns (pow_long (S fuel) true (VLong lb) (VLong lv) e) (fun v => int_repr v (V * B ^ e)).
Proof.
  intros Hb HB Hv HV He Hf Hs. assert (2305843009213693952 <= B).
  { destruct Hb as (_ & Hb & _). pose proof (long_abs B Hb). lia. }
  cbn [pow_long negb andb AValueToLongInt]. rewrite (pow_pred B e) in Hs |- * by lia.
  eapply returns_bind_evals; [apply evals_ret|]. eapply returns_bind_evals; [apply evals_ret|].
  eapply returns_bind; [apply (AMultiplyLongInt_repr lv V lb B); [done|by apply norm_repr|]|].
  - eapply (small_factor _ (B ^ (e - 1))); [by rewrite <- Z.mul_assoc|]. apply abs_pow_ge1; lia.
  - assert (~ short_range (V * B)) as HVB by (apply abs_long; rewrite Z.abs_mul; nia).
    intros p Hp. destruct p as [w|p|?|?|?]; try (simpl in Hp; tauto).
    rewrite Z.mul_assoc in *. apply pow_long_spec; try done; [by apply norm_repr|lia|].
    destruct (_ =? 0); [|by apply Hb]. apply abs_long. nia.
Qed.

(** ** Powers and the overflow test

    The products formed here are products of powers of one number, and none of
    them is among those the overflow test of [AMultiplyShortInt] misses. *)

(** A power of two that divides a square divides, halved, its root. *)
Lemma square_root_pow2 c x : 0 <= c -> (2 ^ (2 * c) | 2 * (x * x)) -> (2 ^ c | x).
Proof.
  intros Hc. revert x. revert c Hc. refine (Z_nat_ind _ _ _); [intros; apply Z.divide_1_l|].
  intros c Hc IH x [k Hk].
  replace (2 ^ (2 * (c + 1))) with (4 * 2 ^ (2 * c)) in Hk
    by (replace (2 * (c + 1)) with (2 * c + 2) by lia; rewrite Z.pow_add_r by lia; lia).
  pose proof (Z.div_mod x 2 ltac:(lia)). pose proof (Z.mod_pos_bound x 2 ltac:(lia)).
  assert (x mod 2 = 0) as Hx.
  { destruct (decide (x mod 2 = 0)); [done|]. exfalso.
    assert (x * x = 2 * (2 * (x / 2) * (x / 2) + 2 * (x / 2)) + 1) by nia. lia. }
  destruct (IH (x / 2)) as [m Hm].
  { exists k. assert (x * x = 4 * (x / 2 * (x / 2))) by nia. lia. }
  exists m. rewrite Z.pow_add_r by lia. lia.
Qed.

(** The finitely many candidates, checked by evaluation. *)
Definition missed_power (p n j : Z) : bool :=
  (2305843009213693952 <? p ^ (n + j)) && (p ^ n <=? 2305843009213693952) &&
  half_missed (p ^ n) (p ^ j).

(** No multiple of [m] below [m * bound] is missed for exponents [n] and [j]. *)
Definition group_ok (m n : Z) (bound : nat) (j : nat) : bool :=
  forallb (fun c => negb (missed_power (m * Z.of_nat c) n (Z.of_nat j))) (seq 0 bound).

Lemma groups_ok :
  forallb (group_ok 32768 2 64) [1%nat] && forallb (group_ok 256 4 32) [1%nat; 3%nat] &&
  forallb (group_ok 1 8 256) (seq 1 7) && forallb (group_ok 1 16 16) (seq 1 15) &&
  forallb (group_ok 1 32 8) (seq 1 31) = true.
Proof. vm_compute. reflexivity. Qed.

Lemma group_use m n bound js j p :
  forallb (group_ok m n bound) js = true -> In (Z.to_nat j) js -> 0 <= j ->
  (m | p) -> 0 < m -> 0 <= p < m * Z.of_nat bound -> missed_power p n j = false.
Proof.
  intros Hok Hj Hj0 [c ->] Hm Hp. rewrite forallb_forall in Hok. specialize (Hok _ Hj).
  unfold group_ok in Hok. rewrite forallb_forall in Hok. specialize (Hok (Z.to_nat c)).
  rewrite !Z2Nat.id, Z.mul_comm in Hok by nia. apply negb_true_iff, Hok. apply in_seq. nia.
Qed.

Lemma divide_mod m x : (x mod m =? 0) = true -> 0 < m -> (m | x).
Proof. intros H Hm. apply Z.mod_divide; lia. Qed.

Lemma missed_power_none p n j :
  2 <= p -> In n [2; 4; 8; 16; 32] -> 1 <= j < n -> Z.odd j = true -> missed_power p n j = false.
Proof.
  intros Hp Hn Hj Hodd. pose proof groups_ok as G.
  apply andb_true_iff in G as [G G32]. apply andb_true_iff in G as [G G16].
  apply andb_true_iff in G as [G G8]. apply andb_true_iff in G as [G2 G4].
  assert (1 <= p ^ j) by (assert (0 < p ^ j) by (apply Z.pow_pos_nonneg; lia); lia).
  assert (p <= p ^ j) by (replace p with (p ^ 1) at 1 by lia; apply Z.pow_le_mono_r; lia).
  destruct (missed_power p n j) eqn:Hmiss; [|done]. rewrite <- Hmiss.
  unfold missed_power, half_missed in Hmiss.
  apply andb_true_iff in Hmiss as [Hmiss Hh]. apply andb_true_iff in Hmiss as [Hbig Hle].
  apply andb_true_iff in Hh as [Hhi Hdiv]. apply Z.leb_le in Hle, Hhi. apply divide_mod in Hdiv; [|lia].
  assert (forall b, b <= p -> 0 <= b -> b ^ n <= p ^ n) as Hmono by (intros; apply Z.pow_le_mono_l; lia).
  destruct Hn as [<-|[<-|[<-|[<-|[<-|[]]]]]].
  - eapply (group_use _ _ _ _ _ _ G2); [assert (j = 1) as -> by lia; left; reflexivity|lia| |lia|].
    + apply (square_root_pow2 15); [lia|]. rewrite Z.pow_2_r in Hdiv. change (2 ^ (2 * 15)) with (2 * 536870912).
      by apply Z.mul_divide_mono_l.
    + split; [lia|]. apply Z.nle_gt. intros Hge. specialize (Hmono 2097152 ltac:(lia) ltac:(lia)).
      assert (2048 <= p ^ 2 / 2147483648) by (apply Z.div_le_lower_bound; lia). nia.
  - eapply (group_use _ _ _ _ _ _ G4); [|lia| |lia|].
    + assert (j = 1 \/ j = 2 \/ j = 3) as [-> | [-> | ->]] by lia; [left; reflexivity|discriminate Hodd|right; left; reflexivity].
    + apply (square_root_pow2 8); [lia|]. change (2 ^ (2 * 8)) with (2 * 32768).
      apply Z.mul_divide_mono_l. apply (square_root_pow2 15); [lia|].
      replace (p * p * (p * p)) with (p ^ 4) by ring.
      change (2 ^ (2 * 15)) with (2 * 536870912). by apply Z.mul_divide_mono_l.
    + split; [lia|]. apply Z.nle_gt. intros Hge. specialize (Hmono 8192 ltac:(lia) ltac:(lia)).
      change (8192 ^ 4) with 4503599627370496 in Hmono.
      assert (2097152 <= p ^ 4 / 2147483648) by (apply Z.div_le_lower_bound; lia). nia.
  - eapply (group_use _ _ _ _ _ _ G8); [apply in_seq; lia|lia|apply Z.divide_1_l|lia|].
    split; [lia|]. apply Z.nle_gt. intros Hge. specialize (Hmono 256 ltac:(lia) ltac:(lia)). lia.
  - eapply (group_use _ _ _ _ _ _ G16); [apply in_seq; lia|lia|apply Z.divide_1_l|lia|].
    split; [lia|]. apply Z.nle_gt. intros Hge. specialize (Hmono 16 ltac:(lia) ltac:(lia)). lia.
  - eapply (group_use _ _ _ _ _ _ G32); [apply in_seq; lia|lia|apply Z.divide_1_l|lia|].
    split; [lia|]. apply Z.nle_gt. intros Hge. specialize (Hmono 8 ltac:(lia) ltac:(lia)). lia.
Qed.

(** ** The loop on short integers *)

Lemma pow_neg_odd b n : 0 <= n -> b ^ n < 0 -> Z.odd n = true.
Proof.
  intros Hn Hb. rewrite <- Z.negb_even. destruct (Z.even n) eqn:Hev; [|done].
  apply Z.even_spec in Hev as [k ->]. rewrite Z.pow_mul_r in Hb by lia.
  assert (0 <= (b ^ 2) ^ k) by (apply Z.pow_nonneg; nia). lia.
Qed.

Lemma abs_pow_mono b j n : b <> 0 -> 0 <= j <= n -> Z.abs (b ^ j) <= Z.abs (b ^ n).
Proof. intros. rewrite !Z.abs_pow. apply Z.pow_le_mono_r; lia. Qed.

(** Products of powers are computed exactly. *)
Lemma pow_no_defect b i j :
  0 <= i -> 1 <= j <= 2 ^ i -> short_range (b ^ j) -> short_range (b ^ 2 ^ i) ->
  mul_defect (b ^ j) (b ^ 2 ^ i) = false.
Proof.
  intros Hi Hj HV HB. unfold mul_defect.
  destruct (Z.ltb_spec (b ^ j * b ^ 2 ^ i) A_SHORT_INT_MIN) as [Hneg|]; [|done].
  assert (b <> 0) as Hb0.
  { intros ->. rewrite Z.pow_0_l in Hneg by lia. short_unfold. lia. }
  destruct (Z.ltb_spec (Z.min (Z.abs (b ^ j)) (Z.abs (b ^ 2 ^ i))) 2147483648); [|done]. cbn [andb].
  pose proof (abs_pow_mono b j (2 ^ i) Hb0 ltac:(lia)).
  rewrite Z.max_r, Z.min_l, !Z.abs_pow by lia.
  assert (2 <= Z.abs b) as Hp.
  { destruct (decide (Z.abs b = 1)) as [E|]; [|lia]. exfalso.
    assert (Z.abs (b ^ j * b ^ 2 ^ i) = 1)
      by (rewrite Z.abs_mul, !Z.abs_pow, E, !Z.pow_1_l by lia; done).
    short_unfold. lia. }
  assert (Z.odd (j + 2 ^ i) = true) as Hodd.
  { apply (pow_neg_odd b); [lia|]. rewrite Z.pow_add_r by lia. short_unfold. lia. }
  assert (1 <= i) as Hi1.
  { destruct (decide (i = 0)) as [->|]; [|lia]. change (2 ^ 0) with 1 in *.
    assert (j = 1) as -> by lia. done. }
  assert (Z.odd j = true) as Hoddj.
  { rewrite Z.odd_add, (Z.odd_pow 2 i), xorb_false_r in Hodd by lia. done. }
  assert (i <= 5) as Hi5.
  { apply Z.nlt_ge. intros Hlt. assert (2 ^ 6 <= 2 ^ i) by (apply Z.pow_le_mono_r; lia).
    assert (2 ^ 64 <= Z.abs b ^ 2 ^ i).
    { transitivity (2 ^ 2 ^ i); [apply Z.pow_le_mono_r; lia|apply Z.pow_le_mono_l; lia]. }
    rewrite <- Z.abs_pow in *. short_unfold. lia. }
  assert (j <> 2 ^ i) as Hjn.
  { intros ->. by rewrite (Z.odd_pow 2 i) in Hoddj by lia. }
  assert (In (2 ^ i) [2; 4; 8; 16; 32]) as Hin.
  { assert (i = 1 \/ i = 2 \/ i = 3 \/ i = 4 \/ i = 5) as [-> | [-> | [-> | [-> | ->]]]] by lia; simpl; tauto. }
  pose proof (missed_power_none (Z.abs b) (2 ^ i) j Hp Hin ltac:(lia) Hoddj) as Hm.
  unfold missed_power in Hm. rewrite Z.pow_add_r in Hm by lia.
  rewrite <- !Z.abs_pow, <- Z.abs_mul in *.
  destruct (Z.ltb_spec 2305843009213693952 (Z.abs (b ^ 2 ^ i * b ^ j))); [|short_unfold; lia].
  destruct (Z.leb_spec (Z.abs (b ^ 2 ^ i)) 2305843009213693952); [|short_unfold; lia].
  exact Hm.
Qed.

Lemma mul_exact x y :
  short_range x -> short_range y -> mul_defect x y = false ->
  returns (AMultiplyShortInt (AIntToValue x) (AIntToValue y)) (fun v => int_repr v (x * y)).
Proof.
  intros Hx Hy Hd. eapply returns_mono; [by apply AMultiplyShortInt_spec|].
  intros v. unfold mul_result. by rewrite Hd.
Qed.

Lemma square_no_defect B : mul_defect B B = false.
Proof. unfold mul_defect. destruct (Z.ltb_spec (B * B) A_SHORT_INT_MIN); [short_unfold; nia|done]. Qed.

(** Squaring the base; [S fuel] leaves room for the jump into the long loop. *)
Lemma pow_square_spec fuel b i j e :
  (forall B, B = b ^ 2 ^ (i + 1) -> short_range B ->
    returns (pow_short (S fuel) (AIntToValue B) (AIntToValue (b ^ j)) (Z.shiftr e 1))
      (fun v => int_repr v (b ^ j * B ^ Z.shiftr e 1))) ->
  0 <= i -> 1 <= j -> short_range (b ^ j) -> short_range (b ^ 2 ^ i) ->
  0 < e -> Z.land e 1 = 0 -> pow_fits fuel (Z.shiftr e 1 - 1) -> small (b ^ j * (b ^ 2 ^ i) ^ e) ->
  returns (p ← AMultiplyShortInt (AIntToValue (b ^ 2 ^ i)) (AIntToValue (b ^ 2 ^ i));
           let exp := Z.shiftr e 1 in
           match p with
           | VLong _ =>
               v ← ACreateLongIntFromIntND (AValueToInt (AIntToValue (b ^ j)));
               pow_long (S fuel) true p (VLong v) exp
           | VInt base => pow_short (S fuel) base (AIntToValue (b ^ j)) exp
           | _ => fault
           end) (fun v => int_repr v (b ^ j * (b ^ 2 ^ i) ^ e)).
Proof.
  intros IH Hi Hj HV HB He Hev Hf Hs. rewrite (pow_half _ e ltac:(lia) Hev) in Hs |- *.
  set (B := b ^ 2 ^ i) in *.
  assert (B * B = b ^ 2 ^ (i + 1)) as HBB.
  { subst B. rewrite Z.pow_add_r, Z.pow_mul_r, Z.pow_1_r, Z.pow_2_r by lia. done. }
  eapply returns_bind; [apply mul_exact; [done|done|apply square_no_defect]|].
  intros p Hp. cbv zeta. destruct p as [w|p|?|?|?]; try (simpl in Hp; tauto).
  - destruct Hp as [-> HBs]. by apply IH.
  - assert (~ short_range (B * B)) as HBl by apply Hp.
    assert (2 <= Z.abs b) as Hb.
    { apply Z.nlt_ge. intros Hlt. apply HBl. rewrite HBB.
      assert (b = 0 \/ Z.abs b = 1) as [-> | Hb1] by lia.
      - rewrite Z.pow_0_l by (apply Z.pow_pos_nonneg; lia). short_unfold. lia.
      - assert (Z.abs (b ^ 2 ^ (i + 1)) = 1) by (rewrite Z.abs_pow, Hb1, Z.pow_1_l; [done|apply Z.pow_nonneg; lia]).
        short_unfold. lia. }
    eapply returns_bind; [by apply short_coerced|]. intros v [Hv _].
    apply pow_middle_spec; try done.
    + pose proof (long_abs _ HBl). nia.
    + by apply trim_repr.
    + rewrite Z.abs_pow. replace 2 with (2 ^ 1) at 1 by done.
      transitivity (Z.abs b ^ 1); [apply Z.pow_le_mono_l; lia|apply Z.pow_le_mono_r; lia].
    + rewrite shiftr_1. rewrite land_1 in Hev. zsolve.
Qed.

Lemma pow_multiply_spec fuel b i j e :
  (forall V, V = b ^ (j + 2 ^ i) -> short_range V ->
    returns (pow_short fuel (AIntToValue (b ^ 2 ^ i)) (AIntToValue V) (e - 1))
      (fun v => int_repr v (V * (b ^ 2 ^ i) ^ (e - 1)))) ->
  0 <= i -> 1 <= j <= 2 ^ i -> short_range (b ^ j) -> short_range (b ^ 2 ^ i) ->
  0 < e -> Z.land e 1 <> 0 -> pow_fits fuel (e - 1) -> small (b ^ j * (b ^ 2 ^ i) ^ e) ->
  returns (p ← AMultiplyShortInt (AIntToValue (b ^ j)) (AIntToValue (b ^ 2 ^ i));
           let exp := e - 1 in
           match p with
           | VLong _ =>
               b ← ACreateLongIntFromIntND (AValueToInt (AIntToValue (b ^ 2 ^ i)));
               pow_long fuel false (VLong b) p exp
           | VInt val => pow_short fuel (AIntToValue (b ^ 2 ^ i)) val exp
           | _ => fault
           end) (fun v => int_repr v (b ^ j * (b ^ 2 ^ i) ^ e)).
Proof.
  intros IH Hi Hj HV HB He Hodd Hf Hs. rewrite (pow_pred _ e ltac:(lia)), Z.mul_assoc in Hs |- *.
  eapply returns_bind; [apply mul_exact; [done|done|by apply pow_no_defect]|].
  intros p Hp. cbv zeta. destruct p as [w|p|?|?|?]; try (simpl in Hp; tauto).
  - destruct Hp as [-> HVs]. apply IH; [|done]. by rewrite Z.pow_add_r by lia.
  - assert (~ short_range (b ^ j * b ^ 2 ^ i)) as Hl by apply Hp.
    pose proof (long_abs _ Hl) as Hla. rewrite Z.abs_mul in Hla.
    assert (b <> 0) as Hb0.
    { intros ->. rewrite Z.pow_0_l in Hla by lia. simpl in Hla. lia. }
    pose proof (abs_pow_mono b j (2 ^ i) Hb0 ltac:(lia)).
    eapply returns_bind; [by apply short_coerced|]. intros lb [Hlb _].
    apply pow_long_spec; [by apply trim_repr|done|done|done|nia|].
    destruct (Z.eqb_spec (Z.land (e - 1) 1) 0) as [|Hne].
    + intros Hs'. short_unfold. nia.
    + exfalso. rewrite land_1 in Hne, Hodd. zsolve.
Qed.

(** The loop: [val = b^j] and [base = b^(2^i)], with [val] no longer than
    [base] when the exponent is odd. *)
Lemma pow_short_spec fuel b i j e :
  0 <= i -> 1 <= j -> j <= (if Z.land e 1 =? 0 then 2 ^ (i + 1) else 2 ^ i) ->
  short_range (b ^ j) -> short_range (b ^ 2 ^ i) -> pow_fits fuel e ->
  small (b ^ j * (b ^ 2 ^ i) ^ e) ->
  returns (pow_short (S (S fuel)) (AIntToValue (b ^ 2 ^ i)) (AIntToValue (b ^ j)) e)
    (fun v => int_repr v (b ^ j * (b ^ 2 ^ i) ^ e)).
Proof.
  revert i j e. induction fuel as [|fuel IH]; intros i j e Hi Hj Hji HV HB Hf Hs.
  { destruct Hf as (k & ? & ? & ?). pose proof (Z.mod_pos_bound e 2). lia. }
  assert (0 <= e) by (destruct Hf as (? & ? & ? & ?); lia).
  assert (2 ^ (i + 1) = 2 * 2 ^ i) by (rewrite Z.pow_add_r by lia; lia).
  pose proof (Z.pow_pos_nonneg 2 i ltac:(lia) Hi).
  remember (S (S fuel)) as fuel1. cbn [pow_short]. destruct (Z.leb_spec e 0).
  { assert (e = 0) as -> by lia. rewrite Z.pow_0_r, Z.mul_1_r. apply returns_ret. by split. }
  subst fuel1. destruct (Z.eqb_spec (Z.land e 1) 0) as [Hev|Hodd].
  - pose proof (pow_fits_half _ _ Hf ltac:(lia) Hev) as Hf2.
    apply pow_square_spec; try done.
    + intros B -> HBs. apply IH; try done; [lia| |].
      * destruct (_ =? 0); [|done]. rewrite (Z.pow_add_r 2 (i + 1)) by lia. lia.
      * replace (b ^ 2 ^ (i + 1)) with (b ^ 2 ^ i * b ^ 2 ^ i)
          by (rewrite <- Z.pow_add_r by lia; f_equal; lia). by rewrite <- pow_half.
    + destruct Hf2 as (k & ? & ? & ?). rewrite shiftr_1, land_1 in *. exists k. split_and!; zsolve.
  - pose proof (pow_fits_pred _ _ Hf Hodd) as Hf2.
    apply pow_multiply_spec; try done.
    + intros V -> HVs. apply IH; try done; [lia| |].
      * destruct (_ =? 0) eqn:E; [lia|]. rewrite !land_1 in *. zsolve.
      * by rewrite Z.pow_add_r, <- Z.mul_assoc, <- pow_pred by lia.
    + destruct Hf2 as (k & ? & ? & ?). exists k. lia.
Qed.

(** ** The whole operation *)

Lemma pow_fuel_fits e : 0 <= e < 2 ^ 62 -> pow_fits 198 e.
Proof. intros. exists 62. pose proof (Z.mod_pos_bound e 2). split_and!; lia. Qed.

Lemma pow_fits_S fuel e : pow_fits fuel e -> pow_fits (S fuel) e.
Proof. intros (k & ? & ? & ?). exists k. lia. Qed.

(** Exponentiation by a short non-negative exponent. *)
Lemma APowInt_spec v x e :
  int_repr v x -> 0 <= e <= A_SHORT_INT_MAX -> small (x ^ e) ->
  returns (APowInt v (VInt (AIntToValue e))) (fun r => int_repr r (x ^ e)).
Proof.
  intros Hv He Hs. unfold APowInt. rewrite AValueToInt_tag by (short_unfold; lia). cbv zeta.
  destruct (Z.leb_spec e 0).
  { assert (e = 0) as -> by lia. apply returns_ret. split; [done|]. short_unfold. lia. }
  eapply returns_bind; [apply AAllocTempStack_spec|]. intros _ _.
  rewrite (pow_pred x e) in Hs |- * by lia.
  pose proof (pow_fuel_fits (e - 1) ltac:(short_unfold; lia)) as Hfit.
  destruct v as [w|l|?|?|?]; try (simpl in Hv; tauto).
  - destruct Hv as [-> Hx].
    pose proof (pow_short_spec 198 x 0 1 (e - 1)) as H0.
    change (2 ^ 0) with 1 in H0. rewrite !Z.pow_1_r in H0. apply H0; try done.
    destruct (_ =? 0); lia.
  - assert (~ short_range x) as Hl by apply Hv. pose proof (long_abs x Hl).
    apply pow_long_spec; [by apply norm_repr|done|by do 2 apply pow_fits_S|done|lia|].
    destruct (_ =? 0); [|done]. apply abs_long. nia.
Qed.

Lemma APowInt_negative v e :
  short_range e -> e < 0 -> raises (APowInt v (VInt (AIntToValue e))) EArithmeticError.
Proof.
  intros He Hneg. unfold APowInt. rewrite AValueToInt_tag by done. cbv zeta.
  destruct (Z.leb_spec e 0); [|lia]. destruct (Z.eqb_spec e 0); [lia|]. by apply spec_raise.
Qed.

(** A long exponent: only the bases -1, 0 and 1 have a result. *)
Lemma eval_odd l n : 1 <= n -> (eval l 0 n) mod 2 = dg l 0 mod 2.
Proof. intros. rewrite eval_low by lia. rewrite <- Zplus_mod_idemp_r. zsolve. Qed.

Lemma APowInt_long_exp v x le e :
  int_repr v x -> li_norm le e ->
  if e <? 0 then raises (APowInt v (VLong le)) EArithmeticError
  else if Z.abs x <=? 1 then returns (APowInt v (VLong le)) (fun r => int_repr r (x ^ e))
  else raises (APowInt v (VLong le)) EValueError.
Proof.
  intros Hv He. pose proof (norm_coerced le e He) as (_ & _ & Hsg). unfold APowInt. rewrite Hsg.
  destruct (Z.ltb_spec e 0); [by apply spec_raise|].
  assert (0 < e) as Hpos by (destruct He as (_ & Hl & _); short_unfold; lia).
  destruct v as [w|l|?|?|?]; try (simpl in Hv; tauto).
  - destruct Hv as [-> Hx].
    assert (forall y, short_range y -> (AIntToValue x =? AIntToValue y) = (x =? y)) as Heq.
    { intros y Hy. destruct (Z.eqb_spec x y) as [->|Hne]; [apply Z.eqb_refl|].
      apply Z.eqb_neq. intros E. apply Hne. by apply AIntToValue_inj. }
    unfold AZero. rewrite !Heq by (short_unfold; lia).
    destruct (Z.eqb_spec x 0) as [->|]; simpl.
    { apply returns_ret. rewrite Z.pow_0_l by lia. split; [done|]. short_unfold. lia. }
    destruct (Z.eqb_spec x 1) as [->|]; simpl.
    { apply returns_ret. rewrite Z.pow_1_l by lia. split; [done|]. short_unfold. lia. }
    destruct (Z.eqb_spec x (-1)) as [->|]; simpl.
    + destruct He as ((m & neg & Hb & Hm & Hz) & _). pose proof (lb_elem _ _ _ Hb).
      rd. apply returns_ret. rewrite land_1.
      assert (dg (elem le) 0 mod 2 = e mod 2) as ->.
      { pose proof (li_abs_bound _ _ _ Hb). destruct neg; simpl in Hz; [lia|].
        rewrite Hz. unfold li_abs. rewrite eval_odd by lia. done. }
      destruct (Z.eqb_spec (e mod 2) 0).
      * replace e with (2 * (e / 2)) by zsolve. rewrite Z.pow_mul_r, Z.pow_1_l by zsolve.
        split; [done|]. short_unfold. lia.
      * replace e with (1 + 2 * (e / 2)) by zsolve. rewrite Z.pow_add_r, Z.pow_mul_r, Z.pow_1_l by zsolve.
        split; [done|]. short_unfold. lia.
    + destruct (Z.leb_spec (Z.abs x) 1); [lia|]. by apply spec_raise.
  - destruct (Z.leb_spec (Z.abs x) 1); [|by apply spec_raise].
    exfalso. destruct Hv as (_ & Hl & _). apply Hl. short_unfold. lia.
Qed.
