(* ===== verification/IntConv.v ===== *)
(** * IntConv: conversions of Int objects

    Between Int objects and C integers ([AGetInt...], [AMakeInt...] of
    [std_int.c]) and between Int objects and decimal or radix text
    ([ALongIntToStr] of [std_int_long.c], the string case of [AStdInt] and
    [AStrToInt] of [strtonum.c]).  The unread part of a character buffer is
    the list of its remaining bytes. *)

From S2P Require Import Prelude Runtime Digits Value LongInt LongIntDiv IntOps.

(** ** C integers *)

Definition AGetInt (val : AValue) : M Z :=
  match val with
  | VInt w =>
      let v := AValueToInt w in
      if (0x7fffffff <? v) || (v <? - 0x80000000) then raise EValueError else mret (s32 v)
  | VLong _ => raise EValueError
  | _ => raise ETypeError
  end.

Definition AGetIntU (val : AValue) : M Z :=
  match val with
  | VInt w =>
      let v := AValueToInt w in
      if (v <? 0) || (0xffffffff <? v) then raise EValueError else mret (u32 (s32 v))
  | VLong _ => raise EValueError
  | _ => raise ETypeError
  end.

Definition AGetInt64 (val : AValue) : M Z :=
  match val with
  | VInt w => mret (AValueToInt w)
  | VLong li =>
      let len := AGetLongIntLen li in
      high ← (if 2 <? len then mret true
              else if len =? 2 then d1 ← digit li 1; mret (0x80000000 <? d1) else mret false);
      if high : bool then raise EValueError
      else
        edge ← (if len =? 2 then d1 ← digit li 1; mret (d1 =? 0x80000000) else mret false);
        bad ← (if edge : bool then
                 d0 ← digit li 0;
                 mret ((0 <? d0) || negb (AGetLongIntSign li))
               else mret false);
        if bad : bool then raise EValueError
        else
          i ← for_down (len - 1) 0 (fun n i => d ← digit li n; mret (s64 (Z.shiftl i 32 + d))) 0;
          mret (if AGetLongIntSign li then s64 (- i) else i)
  | _ => raise ETypeError
  end.

Definition AGetIntU64 (val : AValue) : M Z :=
  match val with
  | VInt w => if s64 w <? 0 then raise EValueError else mret (u64 (AValueToInt w))
  | VLong li =>
      let len := AGetLongIntLen li in
      if AGetLongIntSign li || (2 <? len) then raise EValueError
      else for_down (len - 1) 0 (fun n i => d ← digit li n; mret (u64 (Z.shiftl i 32 + d))) 0
  | _ => raise ETypeError
  end.

Definition AMakeInt (i : Z) : M AValue := mret (VInt (AIntToValue i)).
Definition AMakeIntU (i : Z) : M AValue := mret (VInt (AIntToValue i)).

Definition AMakeLongInt (len : Z) (isNeg : bool) : M ALongInt :=
  junk ← AAlloc (AGetLongIntSize len);
  mret (MkLongInt (AInitLongIntBlock len isNeg) (block_cells (AGetLongIntSize len) junk)).

Definition AMakeInt64 (i : Z) : M AValue :=
  if (i <=? A_SHORT_INT_MAX) && (A_SHORT_INT_MIN <=? i) then mret (VInt (AIntToValue i))
  else
    v ← AMakeLongInt 2 false;
    let neg := i <? 0 in
    let ui := if i <? 0 then s64 (- i) else i in
    v ← set_digit v 0 (Z.land ui MASK);
    v ← set_digit v 1 (Z.shiftr ui 32);
    ANormalize v neg.

Definition AMakeIntU64 (i : Z) : M AValue :=
  if i <=? A_SHORT_INT_MAX then mret (VInt (AIntToValue i))
  else
    v ← AMakeLongInt 2 false;
    v ← set_digit v 0 (Z.land i MASK);
    v ← set_digit v 1 (Z.shiftr i 32);
    ANormalize v false.

(** ** Long integers as text *)

Definition LONGINT_STACK_BUF_SIZE : Z := 128.

(** [buf[i] = v]. *)
Definition buf_put (buf : list Z) (i v : Z) : M (list Z) :=
  if (0 <=? i) && (i <? zlen buf) then mret (upd buf i (u8 v)) else fault.

(** The digit character of a remainder. *)
Definition digit_char (rem : Z) : Z := if rem <? 10 then rem + 48 else rem - 10 + 97.

(** The loop that produces the digits from the end of the buffer.  Every
    iteration writes one more character, so the size of the buffer bounds the
    iterations. *)
Fixpoint digits_loop (fuel : nat) (li : ALongInt) (radix : Z) (buf : list Z) (ind : Z)
  : M (list Z * Z) :=
  match fuel with
  | O => fault
  | S fuel' =>
      '(li, rem) ← ADivModSingle li radix;
      let ind := ind - 1 in
      buf ← buf_put buf ind (digit_char rem);
      more ← (if 0 <? AGetLongIntLen li then mret true
              else d0 ← digit li 0; mret (negb (d0 =? 0)));
      if more : bool then digits_loop fuel' li radix buf ind else mret (buf, ind)
  end.

(** [while (maxLen - ind < minWidth) buf[--ind] = '0';] *)
Fixpoint pad_loop (n : nat) (buf : list Z) (ind : Z) : M (list Z * Z) :=
  match n with
  | O => mret (buf, ind)
  | S n' => buf ← buf_put buf (ind - 1) 48; pad_loop n' buf (ind - 1)
  end.

Definition max_len (len radix minWidth : Z) : Z :=
  let maxLen :=
    if radix <? 8 then len * BITS + 1
    else if radix <? 16 then len * BITS / 3 + 2
    else len * BITS / 4 + 2 in
  if maxLen <? minWidth + 1 then minWidth + 1 else maxLen.

Definition ALongIntToStr (li : ALongInt) (radix minWidth : Z) : M AValue :=
  _ ← AAllocTempStack 1;
  let isNeg := AGetLongIntSign li in
  let maxLen := max_len (AGetLongIntLen li) radix minWidth in
  buf ← (if LONGINT_STACK_BUF_SIZE <? maxLen
         then junk ← AAlloc (8 + maxLen); mret ((fun i => u8 (junk (Z.of_nat i))) <$> seq 0 (Z.to_nat maxLen))
         else mret (replicate (Z.to_nat LONGINT_STACK_BUF_SIZE) 0));
  '(buf, ind) ← digits_loop (Z.to_nat maxLen + 1) li radix buf maxLen;
  '(buf, ind) ← pad_loop (Z.to_nat (minWidth - (maxLen - ind))) buf ind;
  '(buf, ind) ← (if isNeg then buf ← buf_put buf (ind - 1) 45; mret (buf, ind - 1)
                 else mret (buf, ind));
  let len := maxLen - ind in
  _ ← AAlloc (8 + len);
  mret (VStr (take (Z.to_nat len) (drop (Z.to_nat ind) buf))).

(** ** Text as Int objects *)

Definition AIsDigit (c : Z) : bool := (48 <=? c) && (c <=? 57).
Definition is_blank (c : Z) : bool := (c =? 32) || (c =? 9).

Fixpoint skip_blanks (l : list Z) : list Z :=
  match l with
  | c :: l' => if is_blank c then skip_blanks l' else l
  | [] => []
  end.

(** The digits that fit a short integer (or [2^61]); the flag tells that the
    number is longer. *)
Fixpoint scan_digits (l : list Z) (num : Z) : Z * list Z * bool :=
  match l with
  | c :: l' =>
      if AIsDigit c then
        let digit := c - 48 in
        if ((A_SHORT_INT_MAX + 1) / 10 <=? num) &&
           (((A_SHORT_INT_MAX + 1) / 10 <? num) ||
            ((A_SHORT_INT_MAX + 1) - (A_SHORT_INT_MAX + 1) / 10 * 10 <? digit))
        then (num, l, true)
        else scan_digits l' (num * 10 + digit)
      else (num, l, false)
  | [] => (num, [], false)
  end.

(** The remaining digits of a long integer. *)
Fixpoint long_digits (li : ALongInt) (l : list Z) : M (ALongInt * list Z) :=
  match l with
  | c :: l' =>
      if AIsDigit c then li ← AMulAddSingle li 10 (c - 48); long_digits li l'
      else mret (li, l)
  | [] => mret (li, [])
  end.

(** The label [HandleLongInt] of [AStdInt]. *)
Definition handle_long_int (isNeg : bool) (num : Z) (l : list Z) : M AValue :=
  li ← ACreateLongIntFromIntND num;
  '(li, _) ← long_digits li l;
  mret (VLong (if isNeg then ASetLongIntSign li else li)).

(** [AStdInt] on a narrow string (from the label [TryConvert]). *)
Definition AStdInt_str (s : list Z) : M AValue :=
  let l := skip_blanks s in
  let '(isNeg, l) :=
    match l with
    | c :: l' => if c =? 45 then (true, l') else if c =? 43 then (false, l') else (false, l)
    | [] => (false, [])
    end in
  match l with
  | c :: _ =>
      if AIsDigit c then
        let '(num, l, long) := scan_digits l 0 in
        if long : bool then handle_long_int isNeg num l
        else if negb (forallb is_blank l) then raise EValueError
        else if isNeg : bool then mret (VInt (AIntToValue (- num)))
        else if num =? A_SHORT_INT_MAX + 1 then li ← ACreateLongIntFromIntND num; mret (VLong li)
        else mret (VInt (AIntToValue num))
      else raise EValueError
  | [] => raise EValueError
  end.

(** [AStrToInt(t, beg, end, valPtr)]: the value and the unread characters (an
    error value is the exception). *)
Definition AStrToInt (s : list Z) : M (AValue * list Z) :=
  let l := skip_blanks s in
  let '(isNeg, l) :=
    match l with
    | c :: (_ :: _) as l' =>
        if c =? 45 then (true, l') else if c =? 43 then (false, l') else (false, l)
    | _ => (false, l)
    end in
  let '(num, rest, long) := scan_digits l 0 in
  if long : bool then
    li ← ACreateLongIntFromIntND num;
    '(li, rest) ← long_digits li rest;
    mret (VLong li, rest)
  else if Nat.eqb (length rest) (length l) then raise EValueError
  else if isNeg : bool then mret (VInt (AIntToValue (- num)), rest)
  else if num =? A_SHORT_INT_MAX + 1 then
    li ← ACreateLongIntFromIntND num; mret (VLong li, rest)
  else mret (VInt (AIntToValue num), rest).

(** ** Correctness of the C integer conversions *)

Lemma AMakeLongInt_dest : returns (AMakeLongInt 2 false) (fun d => dest d 2).
Proof.
  pose proof MAXDIGITS_eq. eapply returns_bind; [apply AAlloc_spec|]. intros junk _. apply returns_ret.
  assert (zlen (block_cells (AGetLongIntSize 2) junk) = 2) as Hl by (by rewrite zlen_block_cells).
  split; [constructor; cbn [elem header]|split; cbn [elem header]].
  - lia.
  - done.
  - exists true. apply AInitLongIntBlock_eq; [lia|done].
  - lia.
  - apply block_cells_ok.
  - by vm_compute.
  - lia.
Qed.

(** Filling a two-digit block. *)
Lemma two_digits_spec d lo hi neg z :
  dest d 2 -> digit_ok (u32 lo) -> z = signed neg (u32 lo + BASE * u32 hi) ->
  returns (v ← set_digit d 0 lo; v ← set_digit v 1 hi; ANormalize v neg) (fun v => int_repr v z).
Proof.
  intros Hd Hlo ->. wr. pose proof (dest_put d 2 0 lo Hd) as Hd0. wr.
  pose proof (dest_put _ 2 1 hi Hd0) as [Hb Hg].
  assert (li_abs (put (put d 0 lo) 1 hi) 2 = u32 lo + BASE * u32 hi) as Habs.
  { unfold li_abs. rewrite eval_2, (dg_put_eq (put d 0 lo) 2), dg_put_ne, (dg_put_eq d 2) by (done || lia). done. }
  rewrite <- Habs. apply ANormalize_spec; [done|done|lia|]. rewrite Habs.
  apply (small_of_digits _ 2); [rewrite MAXDIGITS_eq; lia|].
  pose proof (u32_range lo). pose proof (u32_range hi). lia.
Qed.

Lemma AMakeInt64_spec z :
  - H64 <= z < H64 -> returns (AMakeInt64 z) (fun v => int_repr v z).
Proof.
  intros Hz. unfold AMakeInt64.
  destruct ((z <=? A_SHORT_INT_MAX) && (A_SHORT_INT_MIN <=? z)) eqn:E.
  { apply returns_ret. split; [done|]. short_unfold. lia. }
  eapply returns_bind; [apply AMakeLongInt_dest|]. intros d Hd. cbv zeta.
  apply two_digits_spec; [done|apply u32_range|]. rewrite u32_land, shiftr_bits. unfold u32, signed, s64.
  destruct (Z.ltb_spec z 0); zsolve.
Qed.

Lemma AMakeIntU64_spec z :
  0 <= z < W64 -> returns (AMakeIntU64 z) (fun v => int_repr v z).
Proof.
  intros Hz. unfold AMakeIntU64. destruct (Z.leb_spec z A_SHORT_INT_MAX).
  { apply returns_ret. split; [done|]. short_unfold. lia. }
  eapply returns_bind; [apply AMakeLongInt_dest|]. intros d Hd.
  apply two_digits_spec; [done|apply u32_range|]. rewrite u32_land, shiftr_bits. unfold u32, signed. zsolve.
Qed.

(** The operand of a conversion: short, of two digits, or of more. *)
Lemma norm_digits li z :
  li_norm li z -> exists n neg, li_block li n neg /\ 2 <= n /\ z = signed neg (li_abs li n) /\
    (n = 2 -> li_abs li n = dg (elem li) 0 + BASE * dg (elem li) 1) /\
    (2 < n -> W64 <= li_abs li n) /\ 2305843009213693952 <= li_abs li n.
Proof.
  intros Hn. pose proof Hn as ((n & neg & Hb & Hn2 & Hz) & Hs & k & -> & Ht).
  rewrite (Len_block _ _ _ Hb) in Ht. exists n, neg. pose proof (li_abs_bound _ _ _ Hb).
  assert (2305843009213693952 <= li_abs li n) as Hbig.
  { destruct neg; simpl in Hz; short_unfold; lia. }
  split_and!; try done.
  - apply (operand_long li n neg z); [by split|done|done].
  - intros ->. apply eval_2.
  - intros Hn3. pose proof (eval_top_lower _ n (lb_digits _ _ _ Hb) ltac:(lia) Ht).
    assert (BASE ^ 2 <= BASE ^ (n - 1)) by (apply Z.pow_le_mono_r; lia). unfold li_abs. lia.
Qed.

Lemma two_loop_spec (w : Z -> Z) li neg :
  li_block li 2 neg -> (forall z, w z mod W64 = z mod W64) -> (forall z, w (w z) = w z) ->
  (forall z, w z = w (z mod W64)) ->
  returns (for_down (2 - 1) 0 (fun n i => d ← digit li n; mret (w (Z.shiftl i 32 + d))) 0)
    (fun i => i = w (dg (elem li) 0 + BASE * dg (elem li) 1)).
Proof.
  intros Hb Hw1 Hw2 Hw3.
  eapply returns_mono; [apply (for_down_inv (fun i s =>
    if i =? 2 then s = 0 else if i =? 1 then s = w (dg (elem li) 1)
    else s = w (dg (elem li) 0 + BASE * dg (elem li) 1)))|done].
  - lia.
  - done.
  - intros i s Hi. assert (i = 0 \/ i = 1) as [-> | ->] by lia; simpl; intros ->; digit_step;
      apply returns_ret; rewrite shiftl_bits.
    + rewrite (Hw3 (_ + _)), (Hw3 (dg (elem li) 0 + _)). f_equal.
      rewrite <- Zplus_mod_idemp_l, <- Zmult_mod_idemp_l, Hw1, Zmult_mod_idemp_l, Zplus_mod_idemp_l.
      f_equal. lia.
    + done.
Qed.

(** [AGetInt64] returns the number when it fits a signed word and raises
    otherwise. *)
Lemma AGetInt64_spec v z :
  int_repr v z ->
  yields (AGetInt64 v) (if (- H64 <=? z) && (z <? H64) then Ok z else Raise EValueError).
Proof.
  intros Hv. destruct v as [w|li|?|?|?]; try (simpl in Hv; tauto).
  { destruct Hv as [-> Hz]. assert ((- H64 <=? z) && (z <? H64) = true) as -> by (short_unfold; lia).
    apply spec_ret. by rewrite AValueToInt_tag. }
  destruct (norm_digits li z Hv) as (n & neg & Hb & Hn & Hz & H2 & H3 & Hbig).
  unfold AGetInt64. rewrite (Len_block _ _ _ Hb), (Sign_block _ _ _ Hb).
  pose proof (block_range li n neg 0 Hb). pose proof (block_range li n neg 1 Hb).
  destruct (Z.ltb_spec 2 n).
  { assert ((- H64 <=? z) && (z <? H64) = false) as -> by (destruct neg; simpl in Hz; lia).
    eapply spec_bind_evals; [apply evals_ret|]. by apply spec_raise. }
  assert (n = 2) as -> by lia. rewrite H2 in * by done. cbn [Z.eqb Pos.eqb].
  set (d0 := dg (elem li) 0) in *. set (d1 := dg (elem li) 1) in *.
  eapply (spec_bind_evals _ _ (0x80000000 <? d1)).
  { eapply evals_bind; [eapply digit_block; [exact Hb|lia]|apply evals_ret]. }
  destruct (Z.ltb_spec 0x80000000 d1).
  { assert ((- H64 <=? z) && (z <? H64) = false) as -> by (destruct neg; simpl in Hz; lia).
    by apply spec_raise. }
  eapply (spec_bind_evals _ _ (d1 =? 0x80000000)).
  { eapply evals_bind; [eapply digit_block; [exact Hb|lia]|apply evals_ret]. }
  eapply (spec_bind_evals _ _ ((d1 =? 0x80000000) && ((0 <? d0) || negb neg))).
  { destruct (d1 =? 0x80000000); [|apply evals_ret].
    eapply evals_bind; [eapply digit_block; [exact Hb|lia]|apply evals_ret]. }
  destruct ((d1 =? 0x80000000) && ((0 <? d0) || negb neg)) eqn:Ebad.
  { assert ((- H64 <=? z) && (z <? H64) = false) as -> by (destruct neg; simpl in Hz; lia).
    by apply spec_raise. }
  assert ((- H64 <=? z) && (z <? H64) = true) as -> by (destruct neg; simpl in Hz; lia).
  apply returns_yields. eapply returns_bind; [apply (two_loop_spec s64 li neg Hb); intros; unfold s64; zsolve|].
  intros i ->. fold d0 d1. apply returns_ret. subst z. unfold s64, signed. destruct neg; zsolve.
Qed.

Lemma AGetIntU64_spec v z :
  int_repr v z ->
  yields (AGetIntU64 v) (if (0 <=? z) && (z <? W64) then Ok z else Raise EValueError).
Proof.
  intros Hv. destruct v as [w|li|?|?|?]; try (simpl in Hv; tauto).
  { destruct Hv as [-> Hz]. unfold AGetIntU64. rewrite tag_sign, AValueToInt_tag by done.
    destruct (Z.ltb_spec z 0).
    - assert ((0 <=? z) && (z <? W64) = false) as -> by lia. by apply spec_raise.
    - assert ((0 <=? z) && (z <? W64) = true) as -> by (short_unfold; lia).
      apply spec_ret. rewrite u64_small; [done|]. short_unfold. lia. }
  destruct (norm_digits li z Hv) as (n & neg & Hb & Hn & Hz & H2 & H3 & Hbig).
  unfold AGetIntU64. rewrite (Len_block _ _ _ Hb), (Sign_block _ _ _ Hb).
  destruct (neg || (2 <? n)) eqn:E.
  { assert ((0 <=? z) && (z <? W64) = false) as -> by (destruct neg; simpl in Hz, E; lia).
    by apply spec_raise. }
  assert (neg = false /\ n = 2) as [-> ->] by (destruct neg; simpl in E; (split; [done|lia]) || done).
  rewrite H2 in * by done. simpl in Hz.
  pose proof (block_range li 2 false 0 Hb). pose proof (block_range li 2 false 1 Hb).
  assert ((0 <=? z) && (z <? W64) = true) as -> by lia.
  apply returns_yields. eapply returns_mono; [apply (two_loop_spec u64 li false Hb); intros; unfold u64; zsolve|].
  intros i ->. rewrite u64_small by lia. done.
Qed.

Lemma AGetInt_spec v z :
  int_repr v z ->
  yields (AGetInt v) (if (- 0x80000000 <=? z) && (z <=? 0x7fffffff) then Ok z else Raise EValueError).
Proof.
  intros Hv. destruct v as [w|li|?|?|?]; try (simpl in Hv; tauto).
  - destruct Hv as [-> Hz]. unfold AGetInt. rewrite AValueToInt_tag by done. cbv zeta.
    destruct ((0x7fffffff <? z) || (z <? - 0x80000000)) eqn:E.
    + assert ((- 0x80000000 <=? z) && (z <=? 0x7fffffff) = false) as -> by lia. by apply spec_raise.
    + assert ((- 0x80000000 <=? z) && (z <=? 0x7fffffff) = true) as -> by lia.
      apply spec_ret. f_equal. unfold s32. zsolve.
  - assert ((- 0x80000000 <=? z) && (z <=? 0x7fffffff) = false) as ->
      by (destruct Hv as (_ & Hl & _); short_unfold; lia). by apply spec_raise.
Qed.

Lemma AGetIntU_spec v z :
  int_repr v z ->
  yields (AGetIntU v) (if (0 <=? z) && (z <=? 0xffffffff) then Ok z else Raise EValueError).
Proof.
  intros Hv. destruct v as [w|li|?|?|?]; try (simpl in Hv; tauto).
  - destruct Hv as [-> Hz]. unfold AGetIntU. rewrite AValueToInt_tag by done. cbv zeta.
    destruct ((z <? 0) || (0xffffffff <? z)) eqn:E.
    + assert ((0 <=? z) && (z <=? 0xffffffff) = false) as -> by lia. by apply spec_raise.
    + assert ((0 <=? z) && (z <=? 0xffffffff) = true) as -> by lia.
      apply spec_ret. f_equal. unfold u32, s32. zsolve.
  - assert ((0 <=? z) && (z <=? 0xffffffff) = false) as ->
      by (destruct Hv as (_ & Hl & _); short_unfold; lia). by apply spec_raise.
Qed.
