(* ===== verification/IntText.v ===== *)
(** * IntText: Int objects as text

    Correctness of the conversions between long integers and text of
    [IntConv]: the text written is the radix numeral of the number, the
    number read is the value of the numeral, and reading a written number
    gives it back. *)

From S2P Require Import Prelude Runtime Digits Value LongInt LongIntDiv IntOps IntConv.

(** ** Numerals *)

(** The numeral of [v], most significant digit first. *)
Fixpoint numeral (fuel : nat) (radix v : Z) : list Z :=
  match fuel with
  | O => []
  | S fuel' =>
      (if v / radix =? 0 then [] else numeral fuel' radix (v / radix)) ++ [digit_char (v mod radix)]
  end.

Definition radix_text (radix v : Z) : list Z := numeral (S (Z.to_nat (Z.log2 v))) radix v.

(** The value of a decimal numeral. *)
Fixpoint decimal (l : list Z) (acc : Z) : Z :=
  match l with
  | [] => acc
  | c :: l' => decimal l' (10 * acc + (c - 48))
  end.

Lemma numeral_fuel f1 f2 radix v :
  2 <= radix -> 0 <= v < 2 ^ Z.of_nat f1 -> v < 2 ^ Z.of_nat f2 -> (0 < f1)%nat -> (0 < f2)%nat ->
  numeral f1 radix v = numeral f2 radix v.
Proof.
  intros Hr. revert f2 v. induction f1 as [|f1 IH]; intros f2 v H1 H2 Hf1 Hf2; [lia|].
  destruct f2 as [|f2]; [lia|]. simpl. destruct (Z.eqb_spec (v / radix) 0) as [|Hne]; [done|]. f_equal.
  assert (0 <= v / radix) by (apply Z.div_pos; lia).
  assert (v / radix <= v / 2) by (apply Z.div_le_compat_l; lia).
  rewrite !Nat2Z.inj_succ, !Z.pow_succ_r in * by lia.
  assert (forall f, v < 2 * 2 ^ Z.of_nat f -> v / radix < 2 ^ Z.of_nat f) as Hlt by (intros; zsolve).
  pose proof (Hlt f1 ltac:(lia)) as G1. pose proof (Hlt f2 ltac:(lia)) as G2.
  apply IH; [lia|lia|destruct f1; simpl in *; lia|destruct f2; simpl in *; lia].
Qed.

Lemma log2_fuel v : 0 <= v -> v < 2 ^ Z.of_nat (S (Z.to_nat (Z.log2 v))).
Proof.
  intros. pose proof (Z.log2_nonneg v). rewrite Nat2Z.inj_succ, Z2Nat.id by lia.
  destruct (decide (v = 0)) as [->|]; [done|]. apply Z.log2_spec. lia.
Qed.

Lemma radix_text_step radix v :
  2 <= radix -> 0 <= v ->
  radix_text radix v =
  (if v / radix =? 0 then [] else radix_text radix (v / radix)) ++ [digit_char (v mod radix)].
Proof.
  intros Hr Hv. unfold radix_text at 1. cbn [numeral]. f_equal.
  destruct (Z.eqb_spec (v / radix) 0) as [|Hne]; [done|].
  assert (0 <= v / radix) by (apply Z.div_pos; lia).
  assert (v / radix <= v / 2) by (apply Z.div_le_compat_l; lia).
  pose proof (log2_fuel v Hv) as Hl. rewrite Nat2Z.inj_succ, Z.pow_succ_r in Hl by lia.
  assert (v / radix < 2 ^ Z.of_nat (Z.to_nat (Z.log2 v))) as Hlt by zsolve.
  apply numeral_fuel; [done|lia|by apply log2_fuel| |lia].
  destruct (Z.to_nat (Z.log2 v)); simpl in *; lia.
Qed.

(** The number of digits of a numeral. *)
Lemma numeral_length fuel radix v k :
  2 <= radix -> 0 <= v < radix ^ k -> 1 <= k -> Z.of_nat (length (numeral fuel radix v)) <= k.
Proof.
  intros Hr. revert v k. induction fuel as [|fuel IH]; intros v k Hv Hk; [simpl; lia|].
  simpl. rewrite length_app. simpl.
  destruct (Z.eqb_spec (v / radix) 0) as [|Hne]; [simpl; lia|].
  assert (0 <= v / radix) by (apply Z.div_pos; lia).
  destruct (decide (k = 1)) as [->|].
  { rewrite Z.pow_1_r in Hv. rewrite Z.div_small in Hne by lia. lia. }
  assert (v / radix < radix ^ (k - 1)).
  { apply Z.div_lt_upper_bound; [lia|]. rewrite <- Z.pow_succ_r by lia.
    replace (Z.succ (k - 1)) with k by lia. lia. }
  specialize (IH (v / radix) (k - 1) ltac:(lia) ltac:(lia)). lia.
Qed.

(** ** The buffer *)

(** The characters from [ind] up to [mx]. *)
Definition chars (buf : list Z) (ind mx : Z) : list Z :=
  take (Z.to_nat (mx - ind)) (drop (Z.to_nat ind) buf).

Lemma chars_put buf ind mx c :
  1 <= ind <= mx -> mx <= zlen buf -> 0 <= c < 256 ->
  evals (buf_put buf (ind - 1) c) (upd buf (ind - 1) c) /\
  chars (upd buf (ind - 1) c) (ind - 1) mx = c :: chars buf ind mx.
Proof.
  intros Hi Hm Hc. split.
  - intros t. unfold buf_put. replace (u8 c) with c by (unfold u8; zsolve).
    destruct (Z.leb_spec 0 (ind - 1)); [|lia]. destruct (Z.ltb_spec (ind - 1) (zlen buf)); [|lia]. done.
  - unfold chars, upd. replace (Z.to_nat (mx - (ind - 1))) with (S (Z.to_nat (mx - ind))) by lia.
    replace (Z.to_nat ind) with (S (Z.to_nat (ind - 1))) by lia.
    rewrite (drop_S (<[Z.to_nat (ind - 1):=c]> buf) c) by (apply list_lookup_insert_eq; lia).
    rewrite drop_insert_lt by lia. done.
Qed.

Lemma digit_char_range r radix : 0 <= r < radix -> radix <= 36 -> 0 <= digit_char r < 256.
Proof. intros. unfold digit_char. destruct (Z.ltb_spec r 10); lia. Qed.

(** The quotient of a number without leading zeros by a radix is zero exactly
    when the block left by the division is empty. *)
Lemma quotient_empty a n na d m radix :
  operand a n na -> trimmed a n -> 2 <= radix <= 36 -> 0 < li_abs a n ->
  nat_block d m (li_abs a n / radix) -> (2 <= n -> 1 <= m) -> 0 <= m <= n ->
  (m = n -> dg (elem d) (m - 1) <> 0) ->
  (0 <? m) = negb (li_abs a n / radix =? 0).
Proof.
  intros [Ha Hn] Ht Hr Hpos (Hd & Htd & Hv) Hm1 Hm Hfull. rewrite <- Hv.
  pose proof (li_abs_bound _ _ _ Hd) as Hb.
  destruct (decide (m = 0)) as [->|Hm0].
  { unfold li_abs in *. rewrite eval_0 in *. done. }
  destruct (Z.ltb_spec 0 m); [|lia]. symmetry. apply negb_true_iff, Z.eqb_neq. rewrite Hv. intros Hz.
  apply Z.div_small_iff in Hz; [|lia]. destruct (decide (n = 1)) as [->|].
  - assert (m = 1) as -> by lia. specialize (Hfull eq_refl). unfold li_abs in Hv.
    rewrite eval_1 in Hv. apply Hfull. change (1 - 1) with 0. rewrite Hv. unfold li_abs in *.
    apply Z.div_small. lia.
  - pose proof (eval_top_lower _ n (lb_digits _ _ _ Ha) ltac:(lia) (Ht ltac:(lia))) as Hlow.
    fold (li_abs a n) in Hlow. assert (BASE ^ 1 <= BASE ^ (n - 1)) by (apply Z.pow_le_mono_r; lia).
    change (BASE ^ 1) with BASE in *. lia.
Qed.

Lemma digits_loop_spec fuel li n neg radix buf ind mx :
  operand li n neg -> trimmed li n -> 2 <= radix <= 36 -> 0 < li_abs li n ->
  (length (radix_text radix (li_abs li n)) <= fuel)%nat ->
  zlen (radix_text radix (li_abs li n)) <= ind -> ind <= mx -> mx <= zlen buf ->
  returns (digits_loop fuel li radix buf ind) (fun '(buf', ind') =>
    zlen buf' = zlen buf /\ ind' = ind - zlen (radix_text radix (li_abs li n)) /\
    chars buf' ind' mx = radix_text radix (li_abs li n) ++ chars buf ind mx).
Proof.
  revert li n neg buf ind. induction fuel as [|fuel IH]; intros li n neg buf ind Ho Ht Hr Hpos.
  { rewrite radix_text_step by lia. rewrite length_app. simpl. lia. }
  set (v := li_abs li n) in *. intros Hf Hlen Him Hmx.
  pose proof (radix_text_step radix v ltac:(lia) ltac:(lia)) as Hstep.
  pose proof (Z.mod_pos_bound v radix ltac:(lia)) as Hmod.
  cbn [digits_loop]. eapply returns_bind; [apply (ADivModSingle_spec li n neg radix); (done || lia)|].
  intros [d r] (m & Hd & Hm & Hm1 & Hg & Hz & Hfull & ->). change (li_abs li n) with v in Hd.
  pose proof (digit_char_range (v mod radix) radix Hmod ltac:(lia)) as Hch.
  rewrite Hstep in Hf, Hlen |- *. rewrite length_app in Hf, Hlen. cbn [length] in Hf, Hlen.
  destruct (chars_put buf ind mx (digit_char (v mod radix)) ltac:(lia) Hmx Hch) as [Hput Hchars].
  eapply returns_bind_evals; [exact Hput|].
  pose proof (quotient_empty li n neg d m radix Ho Ht Hr Hpos Hd Hm1 Hm Hfull) as Hq.
  change (li_abs li n) with v in Hq.
  eapply (returns_bind_evals _ _ (negb (v / radix =? 0))).
  { rewrite (Len_block _ _ _ (proj1 Hd)), Hq. destruct (v / radix =? 0) eqn:E; [|apply evals_ret].
    assert (m = 0) as -> by (simpl in Hq; lia). cbn [negb].
    eapply evals_bind; [apply digit_elem; destruct Hg; lia|]. rewrite Hz by done. apply evals_ret. }
  destruct (Z.eqb_spec (v / radix) 0) as [E|E]; cbn [negb].
  - apply returns_ret. rewrite zlen_upd, Hchars. split_and!; (done || lia).
  - assert (0 < m) by (destruct (Z.ltb_spec 0 m); done).
    destruct Hd as (Hdb & Hdt & Hdv). rewrite <- Hdv in *.
    eapply returns_mono; [apply (IH d m false (upd buf (ind - 1) _) (ind - 1))|].
    + split; [done|]. destruct Ho. lia.
    + done.
    + done.
    + pose proof (li_abs_bound _ _ _ Hdb). lia.
    + lia.
    + lia.
    + lia.
    + by rewrite zlen_upd.
    + intros [buf' ind'] (Hl & -> & Hc). rewrite zlen_upd in Hl.
      rewrite Hc, Hchars, length_app, <- app_assoc. cbn [length app]. split_and!; (done || lia).
Qed.

Lemma pad_loop_spec n buf ind mx :
  Z.of_nat n <= ind -> ind <= mx -> mx <= zlen buf ->
  returns (pad_loop n buf ind) (fun '(buf', ind') =>
    zlen buf' = zlen buf /\ ind' = ind - Z.of_nat n /\
    chars buf' ind' mx = replicate n 48 ++ chars buf ind mx).
Proof.
  revert buf ind. induction n as [|n IH]; intros buf ind Hn Hi Hm; cbn [pad_loop].
  { apply returns_ret. split_and!; (done || lia). }
  destruct (chars_put buf ind mx 48 ltac:(lia) Hm ltac:(lia)) as [Hput Hchars].
  eapply returns_bind_evals; [exact Hput|].
  eapply returns_mono; [apply (IH (upd buf (ind - 1) 48) (ind - 1)); rewrite ?zlen_upd; lia|].
  intros [buf' ind'] (Hl & -> & Hc). rewrite zlen_upd in Hl. split_and!; [done|lia|].
  rewrite Hc, Hchars. rewrite replicate_S_end, <- app_assoc. done.
Qed.

(** The text of an integer: sign, zeros up to the minimum width, numeral. *)
Definition int_text (radix minWidth x : Z) : list Z :=
  (if x <? 0 then [45] else []) ++
  replicate (Z.to_nat (minWidth - zlen (radix_text radix (Z.abs x)))) 48 ++
  radix_text radix (Z.abs x).

(** The buffer has room for the numeral, the padding and a sign. *)
Lemma max_len_enough n radix minWidth v :
  1 <= n -> 2 <= radix <= 36 -> 0 <= v < BASE ^ n ->
  zlen (radix_text radix v) + 1 <= max_len n radix minWidth /\ minWidth + 1 <= max_len n radix minWidth.
Proof.
  intros Hn Hr Hv. replace (BASE ^ n) with (2 ^ (32 * n)) in Hv by (by rewrite Z.pow_mul_r by lia).
  assert (forall b c k, 1 <= k -> 0 < c -> 2 ^ c <= b -> b <= radix -> 32 * n <= c * k ->
    zlen (radix_text radix v) <= k) as Hcount.
  { intros b c k Hk Hc Hb Hbr Hck. apply numeral_length; [lia| |lia]. split; [lia|].
    assert (2 ^ (32 * n) <= 2 ^ (c * k)) by (apply Z.pow_le_mono_r; lia).
    assert (2 ^ (c * k) <= radix ^ k) by (rewrite Z.pow_mul_r by lia; apply Z.pow_le_mono_l; lia). lia. }
  unfold max_len. destruct (Z.ltb_spec radix 8); [|destruct (Z.ltb_spec radix 16)].
  - pose proof (Hcount 2 1 (n * 32) ltac:(lia) ltac:(lia) ltac:(done) ltac:(lia) ltac:(lia)).
    destruct (Z.ltb_spec (n * 32 + 1) (minWidth + 1)); lia.
  - pose proof (Hcount 8 3 (n * 32 / 3 + 1) ltac:(zsolve) ltac:(lia) ltac:(done) ltac:(lia) ltac:(zsolve)).
    destruct (Z.ltb_spec (n * 32 / 3 + 2) (minWidth + 1)); lia.
  - pose proof (Hcount 16 4 (n * 32 / 4) ltac:(zsolve) ltac:(lia) ltac:(done) ltac:(lia) ltac:(zsolve)).
    destruct (Z.ltb_spec (n * 32 / 4 + 2) (minWidth + 1)); lia.
Qed.

Lemma ALongIntToStr_spec li x radix minWidth :
  li_trim li x -> x <> 0 -> 2 <= radix <= 36 ->
  returns (ALongIntToStr li radix minWidth) (fun v => v = VStr (int_text radix minWidth x)).
Proof.
  intros (n & neg & Ho & Ht & Hx) Hx0 Hr. pose proof Ho as [Hb Hn]. unfold ALongIntToStr.
  pose proof (li_abs_bound _ _ _ Hb) as Habs.
  assert (Z.abs x = li_abs li n /\ neg = (x <? 0)) as [Hxa Hneg] by (destruct neg; simpl in Hx; lia).
  rewrite (Len_block _ _ _ Hb), (Sign_block _ _ _ Hb).
  eapply returns_bind; [apply AAllocTempStack_spec|]. intros _ _.
  destruct (max_len_enough n radix minWidth (li_abs li n) ltac:(lia) Hr Habs) as [Hm1 Hm2].
  set (mx := max_len n radix minWidth) in *. set (T := radix_text radix (li_abs li n)) in *.
  eapply (returns_bind _ _ (fun buf => mx <= zlen buf)).
  { destruct (Z.ltb_spec LONGINT_STACK_BUF_SIZE mx) as [|Hle].
    - eapply returns_bind; [apply AAlloc_spec|]. intros junk _. apply returns_ret.
      rewrite length_fmap, length_seq. lia.
    - apply returns_ret. rewrite length_replicate. unfold LONGINT_STACK_BUF_SIZE in *. lia. }
  intros buf Hbuf.
  eapply returns_bind; [apply (digits_loop_spec _ li n neg radix buf mx mx Ho Ht Hr); fold T; lia|].
  fold T. intros [buf1 ind1] (Hl1 & -> & Hc1).
  replace (chars buf mx mx) with (@nil Z) in Hc1 by (unfold chars; by rewrite Z.sub_diag).
  rewrite app_nil_r in Hc1. replace (minWidth - (mx - (mx - zlen T))) with (minWidth - zlen T) by lia.
  set (k := Z.to_nat (minWidth - zlen T)).
  eapply returns_bind; [apply (pad_loop_spec k buf1 _ mx); lia|].
  intros [buf2 ind2] (Hl2 & Hi2 & Hc2). rewrite Hc1 in Hc2.
  eapply (returns_bind _ _ (fun '(buf3, ind3) => 0 <= ind3 <= mx /\
    chars buf3 ind3 mx = (if neg then [45] else []) ++ replicate k 48 ++ T)).
  { destruct neg; [|apply returns_ret; split; [lia|by rewrite Hc2]].
    destruct (chars_put buf2 ind2 mx 45 ltac:(lia) ltac:(lia) ltac:(lia)) as [Hput Hc3].
    eapply returns_bind_evals; [exact Hput|]. apply returns_ret. split; [lia|]. by rewrite Hc3, Hc2. }
  intros [buf3 ind3] [Hi3 Hc3]. eapply returns_bind; [apply AAlloc_spec|]. intros _ _.
  apply returns_ret. f_equal. unfold int_text. rewrite Hxa, <- Hneg. exact Hc3.
Qed.

(** ** Reading *)

(** The maximal prefix of decimal digits and what follows it. *)
Fixpoint digit_prefix (l : list Z) : list Z :=
  match l with
  | c :: l' => if AIsDigit c then c :: digit_prefix l' else []
  | [] => []
  end.

Fixpoint after_digits (l : list Z) : list Z :=
  match l with
  | c :: l' => if AIsDigit c then after_digits l' else l
  | [] => []
  end.

Lemma decimal_lower l acc : 0 <= acc -> acc <= decimal (digit_prefix l) acc.
Proof.
  revert acc. induction l as [|c l IH]; intros acc Hacc; simpl; [lia|].
  destruct (AIsDigit c) eqn:E; simpl; [|lia]. unfold AIsDigit in E.
  specialize (IH (10 * acc + (c - 48)) ltac:(lia)). lia.
Qed.

Lemma scan_digits_spec l num :
  0 <= num <= 2305843009213693952 ->
  let '(num', rest, long) := scan_digits l num in
  let v := decimal (digit_prefix l) num in
  0 <= num' <= 2305843009213693952 /\ decimal (digit_prefix rest) num' = v /\
  after_digits rest = after_digits l /\
  if long then 2305843009213693952 < v else num' = v /\ rest = after_digits l.
Proof.
  revert num. induction l as [|c l IH]; intros num Hnum; simpl; [by split_and!; try lia|].
  destruct (AIsDigit c) eqn:E; simpl; [|rewrite E; simpl; split_and!; done || lia]. unfold AIsDigit in E.
  change ((A_SHORT_INT_MAX + 1) / 10) with 230584300921369395.
  change (A_SHORT_INT_MAX + 1 - 230584300921369395 * 10) with 2.
  destruct ((230584300921369395 <=? num) && ((230584300921369395 <? num) || (2 <? c - 48))) eqn:Eo.
  - simpl. unfold AIsDigit. rewrite E. simpl. split_and!; [lia|lia|done|done|].
    pose proof (decimal_lower l (10 * num + (c - 48)) ltac:(lia)). lia.
  - specialize (IH (num * 10 + (c - 48)) ltac:(lia)). by rewrite (Z.mul_comm num 10) in *.
Qed.

(** The digits of a long integer are accumulated exactly. *)
Lemma long_digits_spec li n neg l :
  operand li n neg -> trimmed li n -> small (decimal (digit_prefix l) (li_abs li n)) ->
  returns (long_digits li l) (fun '(li', rest) =>
    rest = after_digits l /\
    (digit_prefix l = [] /\ li' = li \/
     digit_prefix l <> [] /\ exists m, 1 <= m <= MAXDIGITS /\
       nat_block li' m (decimal (digit_prefix l) (li_abs li n)))).
Proof.
  pose proof MAXDIGITS_eq. revert li n neg.
  induction l as [|c l IH]; intros li n neg Ho Ht Hs; simpl.
  { apply returns_ret. split; [done|]. by left. }
  simpl in Hs. destruct (AIsDigit c) eqn:E; [|apply returns_ret; split; [done|]; by left].
  simpl in Hs. unfold AIsDigit in E. pose proof (li_abs_bound _ _ _ (proj1 Ho)) as Habs.
  eapply returns_bind; [apply (AMulAddSingle_spec li n neg 10 (c - 48) Ho); unfold digit_ok; lia|].
  intros d (m & (Hd & Hdt & Hdv) & Hm & _).
  replace (li_abs li n * 10 + (c - 48)) with (10 * li_abs li n + (c - 48)) in Hdv by lia.
  assert (m <= MAXDIGITS) as Hmm.
  { destruct (decide (m = 1)); [lia|]. apply (small_digits (li_abs d m)); [lia| |].
    - unfold small in *. rewrite Hdv. pose proof (decimal_lower l (10 * li_abs li n + (c - 48)) ltac:(lia)). lia.
    - pose proof (eval_top_lower _ m (lb_digits _ _ _ Hd) ltac:(lia) (Hdt ltac:(lia))). unfold li_abs. lia. }
  cbn [decimal]. rewrite <- Hdv in Hs |- *.
  eapply returns_mono; [apply (IH d m false); [split; [done|lia]|done|done]|].
  intros [li' rest] [-> Hcase]. split; [done|]. right. split; [done|].
  destruct Hcase as [[Hnil ->]|[_ Hex]]; [|done]. exists m. split; [lia|]. rewrite Hnil. simpl. by split_and!.
Qed.

(** The syntax read by [AStdInt]: blanks, an optional sign, digits, a rest. *)
Definition split_sign (l : list Z) : bool * list Z :=
  match l with
  | c :: l' => if c =? 45 then (true, l') else if c =? 43 then (false, l') else (false, l)
  | [] => (false, [])
  end.

(** What [AStdInt] makes of a string: the number, or nothing when it raises a
    [ValueError].  After a number beyond the short range, the rest of the
    string is not looked at. *)
Definition std_int (s : list Z) : option Z :=
  let '(neg, l) := split_sign (skip_blanks s) in
  let v := decimal (digit_prefix l) 0 in
  match digit_prefix l with
  | [] => None
  | _ => if (v <=? 2305843009213693952) && negb (forallb is_blank (after_digits l)) then None
         else Some (signed neg v)
  end.

Lemma handle_long_int_spec neg num l :
  0 <= num <= 2305843009213693952 -> 2305843009213693952 < decimal (digit_prefix l) num ->
  small (decimal (digit_prefix l) num) ->
  returns (handle_long_int neg num l) (fun v => int_repr v (signed neg (decimal (digit_prefix l) num))).
Proof.
  intros Hnum Hbig Hs. unfold handle_long_int.
  eapply returns_bind; [apply ACreateLongIntFromIntND_spec; lia|].
  intros li ((n & ng & Ho & Ht & Hz) & _ & Hsg).
  assert (li_abs li n = num) as Hln.
  { pose proof (li_abs_bound _ _ _ (proj1 Ho)). destruct ng; simpl in Hz; lia. }
  eapply returns_bind; [apply (long_digits_spec li n ng l Ho Ht); by rewrite Hln|].
  rewrite Hln. intros [li' rest] [_ [[Hnil _]|[_ (m & Hm & Hnb)]]].
  { rewrite Hnil in Hbig. simpl in Hbig. lia. }
  apply returns_ret. apply (nat_block_signed li' m); [done|done|].
  destruct neg; simpl; short_unfold; lia.
Qed.

Lemma AStdInt_str_spec s :
  match std_int s with
  | Some z => small z -> returns (AStdInt_str s) (fun v => int_repr v z)
  | None => raises (AStdInt_str s) EValueError
  end.
Proof.
  unfold std_int, AStdInt_str. fold (split_sign (skip_blanks s)).
  destruct (split_sign (skip_blanks s)) as [neg l].
  destruct l as [|c l]; [by apply spec_raise|].
  assert (digit_prefix (c :: l) = if AIsDigit c then c :: digit_prefix l else []) as Hp by done.
  destruct (AIsDigit c) eqn:Ec; [|rewrite Hp; by apply spec_raise].
  pose proof (scan_digits_spec (c :: l) 0 ltac:(lia)) as Hscan.
  destruct (scan_digits (c :: l) 0) as [[num rest] long]. cbv zeta in Hscan.
  set (v := decimal (digit_prefix (c :: l)) 0) in *. destruct Hscan as (Hnum & Hv & Haft & Hcase).
  rewrite Hp. destruct long.
  - destruct (Z.leb_spec v 2305843009213693952); [lia|]. cbn [andb]. intros Hs. rewrite <- Hv.
    apply handle_long_int_spec; rewrite ?Hv; [done|done|]. by apply (small_signed neg).
  - destruct Hcase as [-> ->]. destruct (Z.leb_spec v 2305843009213693952); [|lia]. cbn [andb].
    destruct (negb (forallb is_blank (after_digits (c :: l)))); [by apply spec_raise|]. intros Hs.
    destruct neg; simpl signed in *.
    + apply returns_ret. split; [done|]. short_unfold. lia.
    + destruct (Z.eqb_spec v (A_SHORT_INT_MAX + 1)) as [E|].
      * apply create_long_spec; short_unfold; lia.
      * apply returns_ret. split; [done|]. short_unfold. lia.
Qed.

(** The numeral written for a number reads back as its value. *)
Lemma decimal_app l1 l2 acc : decimal (l1 ++ l2) acc = decimal l2 (decimal l1 acc).
Proof. revert acc. induction l1; simpl; auto. Qed.

Lemma numeral_decimal fuel v :
  0 <= v < 10 ^ Z.of_nat fuel -> (0 < fuel)%nat ->
  decimal (numeral fuel 10 v) 0 = v /\ Forall (fun c => AIsDigit c = true) (numeral fuel 10 v).
Proof.
  revert v. induction fuel as [|fuel IH]; intros v Hv Hf; [lia|]. cbn [numeral].
  assert (digit_char (v mod 10) = v mod 10 + 48) as ->.
  { unfold digit_char. destruct (Z.ltb_spec (v mod 10) 10); [done|zsolve]. }
  rewrite decimal_app, Forall_app. rewrite Nat2Z.inj_succ, Z.pow_succ_r in Hv by lia.
  assert (Forall (fun c => AIsDigit c = true) [v mod 10 + 48]) as Hlast.
  { apply Forall_singleton. unfold AIsDigit. zsolve. }
  destruct (Z.eqb_spec (v / 10) 0) as [E|E].
  - simpl. split; [zsolve|]. by split.
  - assert (0 <= v / 10 < 10 ^ Z.of_nat fuel) as Hv' by zsolve.
    assert (0 < fuel)%nat as Hf' by (destruct fuel; simpl in *; zsolve).
    destruct (IH _ Hv' Hf') as [-> Hd]. simpl. split; [zsolve|]. by split.
Qed.

Lemma radix_text_decimal v :
  0 <= v -> decimal (radix_text 10 v) 0 = v /\ Forall (fun c => AIsDigit c = true) (radix_text 10 v) /\
    radix_text 10 v <> [].
Proof.
  intros Hv. pose proof (log2_fuel v Hv) as Hl. unfold radix_text.
  set (f := S (Z.to_nat (Z.log2 v))) in *.
  assert (2 ^ Z.of_nat f <= 10 ^ Z.of_nat f) by (apply Z.pow_le_mono_l; lia).
  destruct (numeral_decimal f v ltac:(lia) ltac:(lia)) as [H1 H2]. split_and!; [done|done|].
  intros E. apply (f_equal length) in E. subst f. cbn [numeral] in E. rewrite length_app in E. simpl in E. lia.
Qed.

Lemma digit_prefix_all l : Forall (fun c => AIsDigit c = true) l -> digit_prefix l = l /\ after_digits l = [].
Proof.
  induction 1 as [|c l Hc Hl [IH1 IH2]]; [done|]. simpl. rewrite Hc, IH1, IH2. done.
Qed.

Lemma std_int_text x : std_int (int_text 10 0 x) = Some x.
Proof.
  destruct (radix_text_decimal (Z.abs x) ltac:(lia)) as (Hd & Hdig & Hne).
  destruct (digit_prefix_all _ Hdig) as [Hp Ha].
  unfold std_int, int_text. replace (Z.to_nat (0 - _)) with 0%nat by lia. cbn [replicate app].
  set (T := radix_text 10 (Z.abs x)) in *.
  assert (split_sign (skip_blanks ((if x <? 0 then [45] else []) ++ T)) = (x <? 0, T)) as ->.
  { destruct (x <? 0); [done|]. destruct T as [|c T]; [done|]. inversion Hdig as [|? ? Hc _]; subst.
    unfold AIsDigit in Hc. simpl. unfold is_blank.
    destruct (Z.eqb_spec c 32), (Z.eqb_spec c 9); try lia. simpl.
    destruct (Z.eqb_spec c 45), (Z.eqb_spec c 43); (done || lia). }
  rewrite Hp, Ha, Hd. destruct T; [done|]. simpl. rewrite andb_false_r. f_equal.
  unfold signed. destruct (Z.ltb_spec x 0); lia.
Qed.

(** What [AStrToInt] makes of a buffer: a sign needs a character after it, and
    it is dropped when the number is beyond the short range. *)
Definition str_to_int (s : list Z) : option (Z * list Z) :=
  let l := skip_blanks s in
  let '(neg, l) := if 2 <=? zlen l then split_sign l else (false, l) in
  let v := decimal (digit_prefix l) 0 in
  match digit_prefix l with
  | [] => None
  | _ => Some (if v <=? 2305843009213693952 then signed neg v else v, after_digits l)
  end.

Lemma digit_split l : digit_prefix l ++ after_digits l = l.
Proof. induction l as [|c l IH]; [done|]. simpl. destruct (AIsDigit c); [simpl; by rewrite IH|done]. Qed.

Lemma sign_guard l :
  match l with
  | c :: (_ :: _) as l' =>
      if c =? 45 then (true, l') else if c =? 43 then (false, l') else (false, l)
  | _ => (false, l)
  end = if 2 <=? zlen l then split_sign l else (false, l).
Proof.
  destruct l as [|c1 [|c2 l]]; [reflexivity|reflexivity|].
  assert ((2 <=? zlen (c1 :: c2 :: l)) = true) as -> by (apply Z.leb_le; simpl length; lia). reflexivity.
Qed.

Lemma AStrToInt_spec s :
  match str_to_int s with
  | Some (z, rest) => small z -> returns (AStrToInt s) (fun '(v, rest') => int_repr v z /\ rest' = rest)
  | None => raises (AStrToInt s) EValueError
  end.
Proof.
  unfold str_to_int, AStrToInt. cbv zeta. generalize (skip_blanks s). intros l0. rewrite sign_guard.
  destruct (if 2 <=? zlen l0 then split_sign l0 else (false, l0)) as [neg l].
  pose proof (scan_digits_spec l 0 ltac:(lia)) as Hscan. pose proof (digit_split l) as Hsplit.
  destruct (scan_digits l 0) as [[num rest] long]. cbv zeta in Hscan.
  set (v := decimal (digit_prefix l) 0) in *. destruct Hscan as (Hnum & Hv & Haft & Hcase).
  destruct long.
  - assert (digit_prefix l <> []) as Hne by (intros E; subst v; rewrite E in Hcase; simpl in Hcase; lia).
    destruct (digit_prefix l) as [|c p] eqn:Ep; [done|].
    destruct (Z.leb_spec v 2305843009213693952); [lia|]. intros Hs.
    eapply returns_bind; [apply ACreateLongIntFromIntND_spec; lia|].
    intros li ((n & ng & Ho & Ht & Hz) & _ & Hsg).
    assert (li_abs li n = num) as Hln.
    { pose proof (li_abs_bound _ _ _ (proj1 Ho)). destruct ng; simpl in Hz; lia. }
    eapply returns_bind; [apply (long_digits_spec li n ng rest Ho Ht); by rewrite Hln, Hv|].
    rewrite Hln, Hv. intros [li' rest'] [-> [[Hnil _]|[_ (m & Hm & Hnb)]]].
    { rewrite Hnil in Hv. simpl in Hv. lia. }
    apply returns_ret. split; [|done]. apply (nat_block_signed li' m v false); [done|done|].
    simpl. short_unfold. lia.
  - destruct Hcase as [-> ->]. apply (f_equal length) in Hsplit. rewrite length_app in Hsplit.
    destruct (digit_prefix l) as [|c p] eqn:Ep; simpl in Hsplit.
    { rewrite Hsplit, Nat.eqb_refl. by apply spec_raise. }
    destruct (Nat.eqb_spec (length (after_digits l)) (length l)); [lia|].
    destruct (Z.leb_spec v 2305843009213693952); [|lia]. intros Hs. destruct neg; simpl signed in *.
    + apply returns_ret. split; [|done]. split; [done|]. short_unfold. lia.
    + destruct (Z.eqb_spec v (A_SHORT_INT_MAX + 1)) as [E|].
      * eapply returns_bind; [apply ACreateLongIntFromIntND_spec; lia|]. intros li [Hli _].
        apply returns_ret. split; [|done]. apply trim_norm; [done|]. short_unfold. lia.
      * apply returns_ret. split; [|done]. split; [done|]. short_unfold. lia.
Qed.
