(* ===== verification/IntProps.v ===== *)
(** * IntProps: the properties of Int objects

    What the interpreter relies on when it computes with Int objects, short or
    long: exact results in canonical representation, the errors raised, and
    the conversions to C integers and text. *)

From S2P Require Import Prelude Runtime Digits Value LongInt LongIntDiv LongIntProps IntOps.
From S2P Require Import IntPow IntConv IntText.

(** Concrete operands. *)
Definition si (z : Z) : AValue := VInt (AIntToValue z).

Lemma si_repr z : in_short z = true -> int_repr (si z) z.
Proof. intros H. split; [done|]. by destruct (in_short_spec z). Qed.

Lemma mk_repr neg ds z :
  mk_okb ds = true -> z = signed neg (eval ds 0 (zlen ds)) -> in_short z = false ->
  int_repr (VLong (mk_long neg ds)) z.
Proof. intros Hok -> Hs. apply mk_long_norm; [done|]. by destruct (in_short_spec (signed neg (eval ds 0 (zlen ds)))). Qed.

Lemma p70_repr : int_repr (VLong p70) (2 ^ 70).
Proof. by apply mk_repr. Qed.

Lemma n70_repr : int_repr (VLong n70) (- 2 ^ 70).
Proof. by apply mk_repr. Qed.

(** ** Arithmetic *)

(** C14: the sum of any two Int objects, short, long or mixed, is the Int object
    of the mathematical sum: overflow of the tagged addition is detected and
    promoted, and a long sum that fits is demoted.  The difference is exact,
    except when a long operand is involved, the signs differ and the left
    operand has fewer digits: the result is then the negated difference. *)
Theorem add_sub_ints_correct a x b y :
  int_repr a x -> int_repr b y -> small (x + y) -> small (x - y) ->
  returns (AAddInts 2 a b) (fun v => int_repr v (x + y)) /\
  returns (ASubInts 2 a b) (fun v => int_repr v (if sub_flips x y then y - x else x - y)).
Proof. split; [by apply AAddInts_spec|by apply ASubInts_spec]. Qed.

Lemma add_sub_ints_correct_witness :
  (returns (AAddInts 2 (si A_SHORT_INT_MAX) (si 1)) (fun v => int_repr v (2 ^ 61)) /\
   returns (ASubInts 2 (si A_SHORT_INT_MAX) (si 1)) (fun v => int_repr v (A_SHORT_INT_MAX - 1))) /\
  (returns (AAddInts 2 (VLong p70) (si (-5))) (fun v => int_repr v (2 ^ 70 + -5)) /\
   returns (ASubInts 2 (VLong p70) (si (-5))) (fun v => int_repr v (2 ^ 70 - -5))) /\
  sub_flips 5 (- 2 ^ 70) = true /\
  returns (AAddInts 2 (si 5) (VLong n70)) (fun v => int_repr v (5 + - 2 ^ 70)) /\
  returns (ASubInts 2 (si 5) (VLong n70)) (fun v => int_repr v (- 2 ^ 70 - 5)).
Proof.
  split; [|split; [|split; [reflexivity|]]].
  - apply (add_sub_ints_correct (si A_SHORT_INT_MAX) A_SHORT_INT_MAX (si 1) 1);
      [apply si_repr; reflexivity..|lit_small|lit_small].
  - apply (add_sub_ints_correct (VLong p70) (2 ^ 70) (si (-5)) (-5));
      [exact p70_repr|apply si_repr; reflexivity|lit_small|lit_small].
  - apply (add_sub_ints_correct (si 5) 5 (VLong n70) (- 2 ^ 70));
      [apply si_repr; reflexivity|exact n70_repr|lit_small|lit_small].
Defined.

(** The product of two short Int objects is exact (promoted to a long
    integer when it does not fit), except for the negative products whose
    overflow the half-word test misses, which are returned wrapped. *)
Theorem AMultiplyShortInt_correct x y :
  short_range x -> short_range y ->
  returns (AMultiplyShortInt (AIntToValue x) (AIntToValue y)) (fun v =>
    if mul_defect x y then v = VInt (AIntToValue (x * y)) else int_repr v (x * y)).
Proof. apply AMultiplyShortInt_spec. Qed.

Lemma AMultiplyShortInt_correct_witness :
  mul_defect (2 ^ 60 + 2 ^ 29) (-2) = true /\ mul_defect (2 ^ 60 + 1) (-2) = false /\
  returns (AMultiplyShortInt (AIntToValue (2 ^ 60 + 1)) (AIntToValue (-2)))
    (fun v => int_repr v (- 2 ^ 61 - 2)).
Proof.
  split; [reflexivity|]. split; [reflexivity|].
  apply (AMultiplyShortInt_correct (2 ^ 60 + 1) (-2)); short_unfold; lia.
Defined.

(** C6: division of short Int objects returns the quotient rounded towards
    minus infinity and the remainder with the divisor's sign, for every pair
    of short integers with a nonzero divisor (the quotient of the smallest
    short integer by -1 is a long integer); division by zero raises an
    arithmetic error. *)
Theorem AIntDivMod_correct x y :
  short_range x -> short_range y ->
  if y =? 0 then raises (AIntDivMod (AIntToValue x) (AIntToValue y)) EArithmeticError
  else returns (AIntDivMod (AIntToValue x) (AIntToValue y)) (fun '(q, r) =>
         int_repr q (x / y) /\ int_repr r (x mod y)).
Proof.
  intros Hx Hy. destruct (Z.eqb_spec y 0) as [->|]; [apply AIntDivMod_zero|by apply AIntDivMod_spec].
Qed.

Lemma AIntDivMod_correct_witness :
  returns (AIntDivMod (AIntToValue (-7)) (AIntToValue 2)) (fun '(q, r) => int_repr q (-4) /\ int_repr r 1).
Proof. apply (AIntDivMod_correct (-7) 2); short_unfold; lia. Defined.

(** C15: exponentiation by a short non-negative exponent returns the exact power
    of any Int object: the loop on short integers is continued on long
    integers after the first overflow, every intermediate stays a long
    integer there, none of the products is among those the overflow test
    misses, and the loops terminate.  A negative exponent raises an arithmetic
    error; a long exponent has a result only for the bases -1, 0 and 1 and
    raises a value error for every other base. *)
Theorem APowInt_correct v x w e :
  int_repr v x -> int_repr w e ->
  (0 <= e <= A_SHORT_INT_MAX -> small (x ^ e) -> returns (APowInt v w) (fun r => int_repr r (x ^ e))) /\
  (e < 0 -> raises (APowInt v w) EArithmeticError) /\
  (A_SHORT_INT_MAX < e -> 1 < Z.abs x -> raises (APowInt v w) EValueError) /\
  (A_SHORT_INT_MAX < e -> Z.abs x <= 1 -> returns (APowInt v w) (fun r => int_repr r (x ^ e))).
Proof.
  intros Hv Hw. destruct w as [wd|le|?|?|?]; try (simpl in Hw; tauto).
  - destruct Hw as [-> He]. split_and!; intros; [by apply APowInt_spec|by apply APowInt_negative|short_unfold; lia..].
  - pose proof (APowInt_long_exp v x le e Hv Hw) as H. destruct Hw as (_ & Hl & _).
    destruct (Z.ltb_spec e 0); [split_and!; intros; done || (short_unfold; lia)|].
    destruct (Z.leb_spec (Z.abs x) 1); split_and!; intros; done || lia || (destruct Hl; short_unfold; lia).
Qed.

Lemma APowInt_correct_witness :
  returns (APowInt (si (-3)) (si 101)) (fun r => int_repr r ((-3) ^ 101)) /\
  raises (APowInt (si 2) (si (-1))) EArithmeticError /\ raises (APowInt (si 2) (VLong p70)) EValueError.
Proof.
  split_and!.
  - refine (proj1 (APowInt_correct (si (-3)) (-3) (si 101) 101 _ _) _ _);
      [apply si_repr; reflexivity|apply si_repr; reflexivity|unfold A_SHORT_INT_MAX; lia|lit_small].
  - apply (APowInt_correct (si 2) 2 (si (-1)) (-1)); [apply si_repr; reflexivity..|lia].
  - apply (APowInt_correct (si 2) 2 (VLong p70) (2 ^ 70));
      [apply si_repr; reflexivity|exact p70_repr|unfold A_SHORT_INT_MAX; lia|lia].
Defined.

(** ** Conversions *)

(** C16: the C API conversions of an Int object return the number exactly when
    it fits the C type (int, unsigned, 64-bit signed, 64-bit unsigned) and
    raise a value error otherwise; every signed 64-bit integer made into an
    Int object is read back unchanged, and every unsigned one likewise. *)
Theorem int64_roundtrip v z :
  int_repr v z ->
  yields (AGetInt v) (if (- 0x80000000 <=? z) && (z <=? 0x7fffffff) then Ok z else Raise EValueError) /\
  yields (AGetIntU v) (if (0 <=? z) && (z <=? 0xffffffff) then Ok z else Raise EValueError) /\
  yields (AGetInt64 v) (if (- H64 <=? z) && (z <? H64) then Ok z else Raise EValueError) /\
  yields (AGetIntU64 v) (if (0 <=? z) && (z <? W64) then Ok z else Raise EValueError) /\
  (- H64 <= z < H64 -> returns (v ← AMakeInt64 z; AGetInt64 v) (fun i => i = z)) /\
  (0 <= z < W64 -> returns (v ← AMakeIntU64 z; AGetIntU64 v) (fun i => i = z)).
Proof.
  intros Hv. split_and!;
    [by apply AGetInt_spec|by apply AGetIntU_spec|by apply AGetInt64_spec|by apply AGetIntU64_spec|intros Hz..].
  - eapply returns_bind; [by apply AMakeInt64_spec|]. intros u Hu. pose proof (AGetInt64_spec u z Hu) as H.
    assert ((- H64 <=? z) && (z <? H64) = true) as E by lia. rewrite E in H.
    eapply spec_mono; [exact H|]. by intros ? ->.
  - eapply returns_bind; [by apply AMakeIntU64_spec|]. intros u Hu. pose proof (AGetIntU64_spec u z Hu) as H.
    assert ((0 <=? z) && (z <? W64) = true) as E by lia. rewrite E in H.
    eapply spec_mono; [exact H|]. by intros ? ->.
Qed.

Lemma int64_roundtrip_witness :
  yields (AGetInt64 (VLong p70)) (Raise EValueError) /\
  returns (v ← AMakeInt64 (- 5); AGetInt64 v) (fun i => i = - 5).
Proof.
  split.
  - apply (int64_roundtrip (VLong p70) (2 ^ 70)). exact p70_repr.
  - apply (int64_roundtrip (si (-5)) (-5)); [apply si_repr; reflexivity|lia].
Defined.

(** The text of a long integer in any radix from 2 to 36 is its sign, zeros
    up to the minimum width, and the numeral of its magnitude; the buffer is
    never overrun and the loop ends. *)
Theorem ALongIntToStr_correct li x radix minWidth :
  li_trim li x -> x <> 0 -> 2 <= radix <= 36 ->
  returns (ALongIntToStr li radix minWidth) (fun v => v = VStr (int_text radix minWidth x)).
Proof. apply ALongIntToStr_spec. Qed.

Lemma ALongIntToStr_correct_witness :
  returns (ALongIntToStr n70 16 0) (fun v => v = VStr (int_text 16 0 (- 2 ^ 70))).
Proof.
  apply (ALongIntToStr_correct n70 (- 2 ^ 70)); [neg_long|lia|lia].
Defined.

(** C17: what [std::Int] makes of a string: the number when the string is blanks,
    an optional sign, digits and blanks, and a value error otherwise; only
    after a number beyond the short range is the rest not checked.
    [AStrToInt] makes of a buffer the number and the unread rest: a value
    error without digits, the signed number within the short range, and beyond
    it the number without its sign. *)
Theorem AStdInt_str_correct s :
  match std_int s with
  | Some z => small z -> returns (AStdInt_str s) (fun v => int_repr v z)
  | None => raises (AStdInt_str s) EValueError
  end /\
  match str_to_int s with
  | Some (z, rest) => small z -> returns (AStrToInt s) (fun '(v, rest') => int_repr v z /\ rest' = rest)
  | None => raises (AStrToInt s) EValueError
  end.
Proof. split; [apply AStdInt_str_spec|apply AStrToInt_spec]. Qed.

Lemma AStdInt_str_correct_witness :
  returns (AStdInt_str [32; 45; 52; 50]) (fun v => int_repr v (- 42)) /\
  returns (AStrToInt [45; 55; 120]) (fun '(v, rest) => int_repr v (-7) /\ rest = [120]).
Proof.
  split.
  - pose proof (proj1 (AStdInt_str_correct [32; 45; 52; 50])) as H.
    change (std_int [32; 45; 52; 50]) with (Some (- 42)) in H. apply H. lit_small.
  - pose proof (proj2 (AStdInt_str_correct [45; 55; 120])) as H.
    change (str_to_int [45; 55; 120]) with (Some (-7, [120])) in H. apply H. lit_small.
Defined.

(** C10: converting a long integer to decimal text and the text back to an Int
    object gives the number back. *)
Theorem decimal_roundtrip li x :
  li_norm li x ->
  returns (v ← ALongIntToStr li 10 0;
           match v with VStr s => AStdInt_str s | _ => fault end) (fun v => int_repr v x).
Proof.
  intros Hn. assert (x <> 0) as Hx.
  { intros ->. destruct Hn as (_ & Hs & _). apply Hs. short_unfold. lia. }
  assert (small x) as Hsm.
  { destruct Hn as ((n & neg & Hb & Hn & ->) & _). pose proof (li_abs_bound _ _ _ Hb).
    apply (small_of_digits _ n); [lia|]. destruct neg; simpl; lia. }
  eapply returns_bind; [apply (ALongIntToStr_spec li x 10 0); [by apply li_norm_trim|done|lia]|].
  intros v ->. pose proof (AStdInt_str_spec (int_text 10 0 x)) as H.
  rewrite std_int_text in H. by apply H.
Qed.

Lemma decimal_roundtrip_witness :
  returns (v ← ALongIntToStr n70 10 0;
           match v with VStr s => AStdInt_str s | _ => fault end) (fun v => int_repr v (- 2 ^ 70)).
Proof. apply (decimal_roundtrip n70 (- 2 ^ 70)). exact n70_repr. Defined.
