(* ===== verification/Bitop.v ===== *)
(** * Bitop: bitwise operations on Int objects

    [bitop_module.c]: conjunction, disjunction, exclusive or, complement and
    shifts of integers of any size.  Long operands are expanded into a buffer
    of digits in two's complement form, the operation is applied digit by
    digit in place, and the buffer is converted back. *)

From S2P Require Import Prelude Runtime Digits Value LongInt LongIntDiv LongIntProps IntOps.
From S2P Require Import IntPow IntConv IntText IntProps.


(** ** Digit buffers *)

(** [DIGIT(v, n)] read and assigned; an index outside the buffer is a fault. *)
Definition DIGIT (v : list Z) (n : Z) : M Z :=
  if (0 <=? n) && (n <? zlen v) then mret (dg v n) else fault.

Definition set_DIGIT (v : list Z) (n x : Z) : M (list Z) :=
  if (0 <=? n) && (n <? zlen v) then mret (upd v n (u32 x)) else fault.

Definition DIGITS_IN_INT : Z := 2.

Definition IntLen (v : AValue) : M Z :=
  match v with
  | VInt _ => mret DIGITS_IN_INT
  | VLong li => mret (AGetLongIntLen li + 1)
  | _ => fault
  end.

(** [while (DIGIT(v, i)-- == 0) i++;] *)
Fixpoint decrement (fuel : nat) (v : list Z) (i : Z) : M (list Z) :=
  match fuel with
  | O => fault
  | S fuel' =>
      d ← DIGIT v i;
      v ← set_DIGIT v i (d - 1);
      if d =? 0 then decrement fuel' v (i + 1) else mret v
  end.

(** Complement every digit. *)
Definition complement (v : list Z) (len : Z) : M (list Z) :=
  for_up 0 len (fun i v => d ← DIGIT v i; set_DIGIT v i (Z.lnot d)) v.

Definition NegateSign (v : list Z) (len : Z) : M (list Z) :=
  v ← decrement (length v + 1) v 0;
  complement v len.

(** [AMakeEmptyStr(t, sizeof(ALongIntDigit) * len)]: an uninitialized buffer. *)
Definition make_buffer (len : Z) : M (list Z) :=
  junk ← AAlloc (8 + 4 * len);
  mret ((fun i => u32 (junk (Z.of_nat i))) <$> seq 0 (Z.to_nat len)).

Definition GetLongIntDigits (v : AValue) (len : Z) : M (list Z) :=
  dst ← make_buffer len;
  match v with
  | VInt w =>
      let ii := AValueToInt w in
      dst ← for_up 0 DIGITS_IN_INT (fun i dst =>
              set_DIGIT dst i (Z.land (Z.shiftr ii (i * BITS)) MASK)) dst;
      for_up DIGITS_IN_INT len (fun i dst => set_DIGIT dst i (if s64 w <? 0 then MASK else 0)) dst
  | VLong li =>
      let ilen := AGetLongIntLen li in
      dst ← for_up 0 ilen (fun i dst => d ← digit li i; set_DIGIT dst i d) dst;
      dst ← for_up 0 (len - ilen) (fun i dst => set_DIGIT dst (ilen + i) 0) dst;
      if AGetLongIntSign li then NegateSign dst len else mret dst
  | _ => fault
  end.

Definition MakeIntFromBinary (v : list Z) (len : Z) : M AValue :=
  top ← DIGIT v (len - 1);
  let isNeg := negb (Z.land top (Z.shiftl 1 (BITS - 1)) =? 0) in
  v ← (if isNeg then NegateSign v len else mret v);
  ptr ← CreateLongInt len;
  ptr ← for_up 0 len (fun i ptr => d ← DIGIT v i; set_digit ptr i d) ptr;
  ANormalize ptr isNeg.

(** ** The operations *)

(** The common shape of And, Or and Xor: [op] on machine words for short
    operands, digit by digit otherwise. *)
Definition bitop2 (op : Z -> Z -> Z) (a b : AValue) : M AValue :=
  match a, b with
  | VInt x, VInt y => AMakeInt64 (op (AValueToInt x) (AValueToInt y))
  | _, _ =>
      if AIsInt a && AIsInt b then
        la ← IntLen a;
        lb ← IntLen b;
        let len := Z.max la lb in
        f0 ← GetLongIntDigits a len;
        f1 ← GetLongIntDigits b len;
        f0 ← for_up 0 len (fun i f0 =>
               x ← DIGIT f0 i; y ← DIGIT f1 i; set_DIGIT f0 i (op x y)) f0;
        MakeIntFromBinary f0 len
      else raise ETypeError
  end.

Definition BitopAnd : AValue -> AValue -> M AValue := bitop2 Z.land.
Definition BitopOr : AValue -> AValue -> M AValue := bitop2 Z.lor.
Definition BitopXor : AValue -> AValue -> M AValue := bitop2 Z.lxor.

Definition BitopNeg (a : AValue) : M AValue :=
  match a with
  | VInt x => AMakeInt64 (Z.lnot (AValueToInt x))
  | VLong _ =>
      len ← IntLen a;
      f0 ← GetLongIntDigits a len;
      f0 ← complement f0 len;
      MakeIntFromBinary f0 len
  | _ => raise ETypeError
  end.

Definition IsShlOverflow (i s : Z) : bool :=
  (64 <=? s) || negb (u64 (Z.shiftr (s64 (Z.shiftl (s64 i) s)) s) =? i).

(** The shift count: negative counts raise a [ValueError]. *)
Definition shl_count (m : AValue) : M Z :=
  match m with
  | VInt w => let shift := AValueToInt w in if shift <? 0 then raise EValueError else mret shift
  | VLong li => if AGetLongIntSign li then raise EValueError else AGetInt m
  | _ => raise ETypeError
  end.

(** The digit loop of Shl, from the most significant digit down. *)
Definition shl_digits (f0 : list Z) (len digitShift shift : Z) : M (list Z) :=
  f0 ← for_down (len - 1) digitShift (fun i f0 =>
         d ← DIGIT f0 (i - digitShift);
         let v := Z.land (u32 (Z.shiftl d shift)) MASK in
         v ← (if digitShift <? i then
                d' ← DIGIT f0 (i - digitShift - 1);
                mret (Z.lor v (Z.shiftr d' (BITS - shift)))
              else mret v);
         set_DIGIT f0 i v) f0;
  for_down (digitShift - 1) 0 (fun i f0 => set_DIGIT f0 i 0) f0.

Definition BitopShl (n m : AValue) : M AValue :=
  shift ← shl_count m;
  match n with
  | VInt w =>
      if negb (IsShlOverflow w shift) then mret (VInt (u64 (Z.shiftl w shift)))
      else
        let digitShift := shift / BITS in
        let bits := Z.land shift (BITS - 1) in
        ilen ← IntLen n;
        let len := ilen + digitShift in
        f0 ← GetLongIntDigits n len;
        f0 ← shl_digits f0 len digitShift bits;
        MakeIntFromBinary f0 len
  | VLong _ =>
      let digitShift := shift / BITS in
      let bits := Z.land shift (BITS - 1) in
      ilen ← IntLen n;
      let len := ilen + digitShift in
      f0 ← GetLongIntDigits n len;
      f0 ← shl_digits f0 len digitShift bits;
      MakeIntFromBinary f0 len
  | _ => raise ETypeError
  end.

(** The digit loop of Shr, from the least significant digit up. *)
Definition shr_digits (f0 : list Z) (len digitShift shift : Z) : M (list Z) :=
  top ← DIGIT f0 (len - 1);
  let isNeg := negb (Z.land top (Z.shiftl 1 (BITS - 1)) =? 0) in
  f0 ← for_up 0 (len - digitShift) (fun i f0 =>
         d ← DIGIT f0 (i + digitShift);
         let v := Z.land (Z.shiftr d shift) MASK in
         v ← (if i <? len - digitShift - 1 then
                d' ← DIGIT f0 (i + digitShift + 1);
                mret (Z.lor v (u64 (Z.shiftl d' (BITS - shift))))
              else mret (if isNeg then Z.lor v (u64 (Z.shiftl MASK (BITS - shift))) else v));
         set_DIGIT f0 i v) f0;
  for_up (Z.max 0 (len - digitShift)) len (fun i f0 => set_DIGIT f0 i (if isNeg then MASK else 0)) f0.

Definition shr_digitwise (n : AValue) (shift : Z) : M AValue :=
  let digitShift := shift / BITS in
  let bits := Z.land shift (BITS - 1) in
  len ← IntLen n;
  f0 ← GetLongIntDigits n len;
  f0 ← shr_digits f0 len digitShift bits;
  MakeIntFromBinary f0 len.

Definition BitopShr (n m : AValue) : M AValue :=
  let shift_by shift :=
    match n with
    | VInt w =>
        if shift <? 64 then mret (VInt (AIntToValue (Z.shiftr (AValueToInt w) shift)))
        else shr_digitwise n shift
    | VLong _ => shr_digitwise n shift
    | _ => raise ETypeError
    end in
  match m with
  | VInt w => let shift := AValueToInt w in if shift <? 0 then raise EValueError else shift_by shift
  | VLong li =>
      if AGetLongIntSign li then raise EValueError
      else if AIsInt n then mret (VInt AZero) else shift_by 0
  | _ => raise ETypeError
  end.

(** ** Two's complement buffers *)

(** Digit [i] of the two's complement representation of [x]. *)
Definition tdigit (x i : Z) : Z := (x / BASE ^ i) mod BASE.

(** [l] is the two's complement form of [x] in [n] digits. *)
Definition twos (l : list Z) (n x : Z) : Prop :=
  zlen l = n /\ forall i, 0 <= i < n -> dg l i = tdigit x i.

Lemma tdigit_ok x i : digit_ok (tdigit x i).
Proof. apply Z.mod_pos_bound. lia. Qed.

Lemma tdigit_succ x i : 0 <= i -> x / BASE ^ i = tdigit x i + BASE * (x / BASE ^ (i + 1)).
Proof.
  intros. unfold tdigit. rewrite BASE_pow_succ, <- Z.div_div by (pose proof (BASE_pow_pos i); lia).
  pose proof (Z.div_mod (x / BASE ^ i) BASE). lia.
Qed.

Lemma twos_eval l n x : 0 <= n -> twos l n x -> eval l 0 n = x mod BASE ^ n.
Proof.
  intros Hn [_ Hd].
  assert (forall k, 0 <= k -> k <= n -> eval l 0 k = x - BASE ^ k * (x / BASE ^ k)) as H.
  { refine (Z_nat_ind _ _ _); [intros _; rewrite eval_0, Z.pow_0_r, Z.div_1_r; lia|].
    intros k Hk IH Hkn. rewrite eval_succ, IH, Z.add_0_l, Hd by lia.
    rewrite BASE_pow_succ by lia. pose proof (tdigit_succ x k Hk) as Ht.
    rewrite BASE_pow_succ in Ht by lia. rewrite Ht. ring. }
  rewrite H by lia. rewrite Z.mod_eq by (pose proof (BASE_pow_pos n); lia). done.
Qed.

Lemma twos_digits_ok l n x : twos l n x -> digits_ok l.
Proof.
  intros [Hl Hd]. apply Forall_lookup. intros i d Hi. pose proof (lookup_lt_Some _ _ _ Hi).
  specialize (Hd (Z.of_nat i) ltac:(lia)). unfold dg in Hd. rewrite Nat2Z.id, nth_lookup, Hi in Hd.
  simpl in Hd. subst d. apply tdigit_ok.
Qed.

(** A buffer of digits is the two's complement form of the number with the
    same residue. *)
Lemma eval_twos l n x :
  0 <= n -> zlen l = n -> digits_ok l -> eval l 0 n = x mod BASE ^ n -> twos l n x.
Proof.
  intros Hn Hl Hok Hev. split; [done|]. intros i Hi.
  assert (exists l', zlen l' = n /\ twos l' n x) as (l' & Hl' & Ht).
  { exists ((fun j => tdigit x (Z.of_nat j)) <$> seq 0 (Z.to_nat n)).
    assert (zlen ((fun j => tdigit x (Z.of_nat j)) <$> seq 0 (Z.to_nat n)) = n)
      by (rewrite length_fmap, length_seq; lia).
    split; [done|]. split; [done|]. intros j Hj. unfold dg. rewrite nth_lookup, list_lookup_fmap.
    rewrite lookup_seq_lt by lia. simpl. f_equal. lia. }
  rewrite <- (proj2 Ht i Hi).
  apply (eval_inj l l' 0 0 n Hok (twos_digits_ok _ _ _ Ht) Hn); [|done].
  rewrite Hev. symmetry. by apply twos_eval.
Qed.

(** The number denoted by a buffer: the residue taken in the signed range. *)
Definition wrap (n x : Z) : Z := (x + BASE ^ n / 2) mod BASE ^ n - BASE ^ n / 2.

Lemma half_pow n : 1 <= n -> BASE ^ n = 2 * (BASE ^ n / 2) /\ 0 < BASE ^ n / 2.
Proof.
  intros. pose proof (BASE_pow_pos (n - 1) ltac:(lia)).
  replace n with (n - 1 + 1) by lia. rewrite BASE_pow_succ by lia. zsolve.
Qed.

Lemma wrap_id n x : 1 <= n -> - (BASE ^ n / 2) <= x < BASE ^ n / 2 -> wrap n x = x.
Proof.
  intros Hn Hx. destruct (half_pow n Hn). unfold wrap. rewrite Z.mod_small; lia.
Qed.

(** ** Access to the buffer *)

Lemma DIGIT_evals v n : 0 <= n < zlen v -> evals (DIGIT v n) (dg v n).
Proof.
  intros Hn t. unfold DIGIT. destruct (Z.leb_spec 0 n), (Z.ltb_spec n (zlen v)); (done || lia).
Qed.

Lemma set_DIGIT_evals v n x : 0 <= n < zlen v -> evals (set_DIGIT v n x) (upd v n (u32 x)).
Proof.
  intros Hn t. unfold set_DIGIT. destruct (Z.leb_spec 0 n), (Z.ltb_spec n (zlen v)); (done || lia).
Qed.

Ltac buf_step :=
  lazymatch goal with
  | |- returns (mbind _ (DIGIT _ _)) _ => eapply returns_bind_evals; [apply DIGIT_evals; lia|]
  | |- returns (mbind _ (set_DIGIT _ _ _)) _ => eapply returns_bind_evals; [apply set_DIGIT_evals; lia|]
  | |- returns (set_DIGIT _ _ _) _ => eapply evals_returns; [apply set_DIGIT_evals; lia|]
  end; cbv beta zeta.

(** A loop that assigns [f i] to digit [i], for [i] from [lo] up to [hi]. *)
Lemma fill_spec lo hi l (body : Z -> list Z -> M (list Z)) (f : Z -> Z) :
  0 <= lo <= hi -> hi <= zlen l ->
  (forall i s, lo <= i < hi -> zlen s = zlen l -> (forall j, i <= j -> dg s j = dg l j) ->
    returns (body i s) (fun s' => s' = upd s i (f i))) ->
  returns (for_up lo hi body l) (fun s => zlen s = zlen l /\
    forall j, 0 <= j -> dg s j = if (lo <=? j) && (j <? hi) then f j else dg l j).
Proof.
  intros Hlo Hhi Hbody.
  eapply returns_mono; [apply (for_up_inv (fun i s => zlen s = zlen l /\
    forall j, 0 <= j -> dg s j = if (lo <=? j) && (j <? i) then f j else dg l j)); [lia| |]|done].
  - split; [done|]. intros j Hj. destruct (_ && _) eqn:E; [lia|done].
  - intros i s Hi [Hs Hd]. eapply returns_mono; [apply Hbody; [lia|done|]|].
    + intros j Hj. rewrite Hd by lia. destruct (_ && _) eqn:E; [lia|done].
    + intros s' ->. rewrite zlen_upd. split; [done|]. intros j Hj.
      destruct (decide (j = i)) as [->|].
      * rewrite dg_upd_eq by lia. destruct (_ && _) eqn:E; [done|lia].
      * rewrite dg_upd_ne, Hd by lia. replace ((lo <=? j) && (j <? i + 1)) with ((lo <=? j) && (j <? i)) by lia. done.
Qed.

(** ** Negation *)

Lemma decrement_spec fuel v i n :
  zlen v = n -> digits_ok v -> 0 <= i <= n -> 0 < eval v i (n - i) -> n - i < Z.of_nat fuel ->
  returns (decrement fuel v i) (fun v' => zlen v' = n /\ digits_ok v' /\
    (forall j, 0 <= j < i -> dg v' j = dg v j) /\ eval v' i (n - i) = eval v i (n - i) - 1).
Proof.
  revert v i. induction fuel as [|fuel IH]; intros v i Hn Hok Hi Hpos Hf; [lia|].
  destruct (decide (i = n)) as [->|]; [rewrite Z.sub_diag, eval_0 in Hpos; lia|].
  cbn [decrement]. buf_step. buf_step. pose proof (dg_ok v i Hok) as Hd. unfold digit_ok in Hd.
  pose proof (digits_ok_upd v i (u32 (dg v i - 1)) Hok (u32_range _)) as Hok'.
  rewrite (eval_low v i) in Hpos |- * by lia.
  destruct (Z.eqb_spec (dg v i) 0) as [E|E].
  - eapply returns_mono; [apply (IH (upd v i _) (i + 1)); [by rewrite zlen_upd|done|lia| |lia]|].
    + rewrite eval_upd_out by lia. replace (n - (i + 1)) with (n - i - 1) by lia. lia.
    + intros v' (Hl & Hok2 & Hout & Hev). split_and!; try done.
      * intros j Hj. rewrite Hout, dg_upd_ne by lia. done.
      * rewrite eval_low by lia. replace (n - (i + 1)) with (n - i - 1) in Hev by lia.
        rewrite Hev, Hout, dg_upd_eq, eval_upd_out, E by lia. unfold u32. zsolve.
  - apply returns_ret. rewrite zlen_upd. split_and!; try done.
    + intros j Hj. by rewrite dg_upd_ne by lia.
    + rewrite eval_low, dg_upd_eq, eval_upd_out, u32_small by lia. lia.
Qed.

Lemma u32_lnot d : digit_ok d -> u32 (Z.lnot d) = MASK - d.
Proof. intros H. unfold digit_ok in H. unfold Z.lnot, u32. zsolve. Qed.

Lemma complement_spec v n :
  zlen v = n -> digits_ok v ->
  returns (complement v n) (fun v' => zlen v' = n /\ forall j, 0 <= j < n -> dg v' j = MASK - dg v j).
Proof.
  intros Hn Hok. eapply returns_mono; [apply (fill_spec 0 n v _ (fun i => MASK - dg v i)); [lia|lia|]|].
  - intros i s Hi Hs Hd. buf_step. buf_step. rewrite Hd by lia. rewrite u32_lnot by (by apply dg_ok). done.
  - intros v' [Hl Hd]. split; [lia|]. intros j Hj. rewrite Hd by lia.
    destruct (_ && _) eqn:E; [done|lia].
Qed.

(** The complement of every digit is the complement of the number. *)
Lemma tdigit_lnot x i : 0 <= i -> tdigit (- x - 1) i = MASK - tdigit x i.
Proof.
  intros Hi. unfold tdigit. pose proof (BASE_pow_pos i Hi).
  assert ((- x - 1) / BASE ^ i = - (x / BASE ^ i) - 1) as ->; [|zsolve].
  pose proof (Z.div_mod x (BASE ^ i) ltac:(lia)). pose proof (Z.mod_pos_bound x (BASE ^ i) ltac:(lia)).
  symmetry. apply (Z.div_unique _ _ _ (BASE ^ i - 1 - x mod BASE ^ i)); lia.
Qed.

Lemma complement_twos v n x :
  twos v n x -> returns (complement v n) (fun v' => twos v' n (- x - 1)).
Proof.
  intros Ht. eapply returns_mono; [apply complement_spec; [apply Ht|by eapply twos_digits_ok]|].
  intros v' [Hl Hd]. split; [done|]. intros i Hi. rewrite Hd, (proj2 Ht), tdigit_lnot by lia. done.
Qed.

Lemma NegateSign_spec v n x :
  twos v n x -> 0 <= n -> x mod BASE ^ n <> 0 -> returns (NegateSign v n) (fun v' => twos v' n (- x)).
Proof.
  intros Ht Hn Hx. pose proof (BASE_pow_pos n Hn). pose proof (Z.mod_pos_bound x (BASE ^ n) ltac:(lia)).
  pose proof (twos_eval v n x Hn Ht) as Hev. pose proof (proj1 Ht) as Hl.
  eapply returns_bind.
  { apply (decrement_spec _ v 0 n Hl (twos_digits_ok _ _ _ Ht)); rewrite ?Z.sub_0_r; lia. }
  intros v1 (Hl1 & Hok1 & _ & Hev1). rewrite !Z.sub_0_r in Hev1.
  eapply returns_mono; [apply (complement_twos v1 n (x - 1))|].
  - apply eval_twos; try done. rewrite Hev1, Hev. apply (Z.mod_unique _ _ (x / BASE ^ n)); [lia|].
    pose proof (Z.div_mod x (BASE ^ n)). lia.
  - intros v2 Hv2. by replace (- x) with (- (x - 1) - 1) by lia.
Qed.

(** ** Expansion and conversion back *)

Lemma tdigit_high x n j :
  0 <= n <= j -> - BASE ^ n <= x < BASE ^ n -> tdigit x j = if x <? 0 then MASK else 0.
Proof.
  intros Hn Hx. unfold tdigit. pose proof (BASE_pow_pos j ltac:(lia)).
  assert (BASE ^ n <= BASE ^ j) by (apply Z.pow_le_mono_r; lia).
  destruct (Z.ltb_spec x 0).
  - replace (x / BASE ^ j) with (-1) by (apply (Z.div_unique _ _ _ (x + BASE ^ j)); lia). done.
  - rewrite Z.div_small by lia. done.
Qed.

Lemma tdigit_eval l n j : digits_ok l -> 0 <= j < n -> tdigit (eval l 0 n) j = dg l j.
Proof.
  intros Hok Hj. unfold tdigit. pose proof (eval_bound l 0 j Hok ltac:(lia)).
  replace n with (j + (n - j)) by lia. rewrite eval_app, Z.add_0_l by lia.
  rewrite (Z.mul_comm (BASE ^ j)), Z.div_add, Z.div_small, Z.add_0_l, eval_low by lia.
  pose proof (dg_ok l j Hok) as Hd. unfold digit_ok in Hd.
  rewrite (Z.mul_comm BASE), Z_mod_plus_full, Z.mod_small by lia. done.
Qed.

Lemma make_buffer_spec len : 0 <= len -> returns (make_buffer len) (fun l => zlen l = len).
Proof.
  intros. eapply returns_bind; [apply AAlloc_spec|]. intros junk _. apply returns_ret.
  rewrite length_fmap, length_seq. lia.
Qed.

(** The number of digits that an operand is expanded to. *)
Definition int_len (v : AValue) : Z :=
  match v with VLong li => AGetLongIntLen li + 1 | _ => DIGITS_IN_INT end.

Lemma IntLen_evals v x : int_repr v x -> evals (IntLen v) (int_len v).
Proof. destruct v; try done; intros; apply evals_ret. Qed.

(** The expanded form leaves room for the sign. *)
Lemma int_len_bound v x :
  int_repr v x -> 2 <= int_len v <= MAXDIGITS + 1 /\ 2 * Z.abs x < BASE ^ int_len v.
Proof.
  pose proof MAXDIGITS_eq. destruct v as [w|li|?|?|?]; try done; simpl.
  - intros [_ Hx]. unfold DIGITS_IN_INT. short_unfold. lia.
  - intros Hn. pose proof (norm_digits li x Hn) as (n & neg & Hb & Hn2 & Hz & _).
    destruct Hn as ((n' & neg' & Hb' & Hn' & _) & _).
    assert (n' = n) as -> by (rewrite <- (Len_block _ _ _ Hb'); apply (Len_block _ _ _ Hb)).
    rewrite (Len_block _ _ _ Hb), BASE_pow_succ by lia.
    pose proof (li_abs_bound _ _ _ Hb). destruct neg; simpl in Hz; lia.
Qed.

Lemma GetLongIntDigits_spec v x len :
  int_repr v x -> int_len v <= len ->
  returns (GetLongIntDigits v len) (fun l => twos l len x).
Proof.
  intros Hv Hlen. pose proof (int_len_bound v x Hv) as [Hb2 _]. unfold GetLongIntDigits.
  eapply returns_bind; [apply make_buffer_spec; lia|]. intros l0 Hl0. cbv beta in Hl0.
  destruct v as [w|li|?|?|?]; try done; simpl in Hv, Hlen.
  - destruct Hv as [-> Hx]. rewrite AValueToInt_tag, tag_sign by done. unfold DIGITS_IN_INT in *.
    eapply returns_bind; [apply (fill_spec 0 2 l0 _ (tdigit x)); [lia|lia|]|].
    { intros i s Hi Hs _. buf_step. f_equal. rewrite u32_land. unfold tdigit.
      rewrite Z.shiftr_div_pow2, Z.mul_comm, Z.pow_mul_r by lia. done. }
    intros l1 [Hl1 Hd1].
    eapply returns_mono; [apply (fill_spec 2 len l1 _ (tdigit x)); [lia|lia|]|].
    { intros i s Hi Hs _. buf_step. rewrite (tdigit_high x 2 i) by (short_unfold; change (BASE ^ 2) with W64; lia).
      destruct (x <? 0); done. }
    intros l2 [Hl2 Hd2]. split; [lia|]. intros i Hi. rewrite Hd2, Hd1 by lia.
    destruct ((2 <=? i) && (i <? len)) eqn:E1; [done|]. destruct ((0 <=? i) && (i <? 2)) eqn:E2; [done|lia].
  - destruct (norm_digits li x Hv) as (n & neg & Hb & Hn2 & Hz & _ & _ & Hbig).
    rewrite (Len_block _ _ _ Hb) in *. rewrite (Sign_block _ _ _ Hb).
    eapply returns_bind; [apply (fill_spec 0 n l0 _ (dg (elem li))); [lia|lia|]|].
    { intros i s Hi Hs _. digit_step. buf_step. rewrite u32_small by (apply (block_range li n neg), Hb). done. }
    intros l1 [Hl1 Hd1].
    eapply (returns_bind _ _ (fun l2 => zlen l2 = len /\ forall j, 0 <= j < len -> dg l2 j = if j <? n then dg l1 j else 0)).
    { eapply returns_mono; [apply (for_up_inv (fun i s => zlen s = len /\
        forall j, 0 <= j < n + i -> dg s j = if j <? n then dg l1 j else 0)); [lia| |]|].
      - split; [lia|]. intros j Hj. destruct (Z.ltb_spec j n); (done || lia).
      - intros i s Hi [Hs Hd]. buf_step. rewrite zlen_upd. split; [done|]. intros j Hj.
        destruct (decide (j = n + i)) as [->|].
        + rewrite dg_upd_eq by lia. destruct (Z.ltb_spec (n + i) n); [lia|done].
        + rewrite dg_upd_ne by lia. apply Hd. lia.
      - intros s [Hs Hd]. split; [done|]. intros j Hj. apply Hd. lia. }
    intros l2 [Hl2 Hd2].
    assert (forall j, 0 <= j < n -> dg l2 j = dg (elem li) j) as Hlow.
    { intros j Hj. rewrite Hd2, Hd1 by lia. replace (j <? n) with true by lia.
      replace (0 <=? j) with true by lia. done. }
    pose proof (li_abs_bound _ _ _ Hb) as Habs.
    assert (twos l2 len (li_abs li n)) as Ht.
    { split; [done|]. intros j Hj. destruct (decide (j < n)).
      - rewrite Hlow by lia. symmetry. apply tdigit_eval; [apply Hb|lia].
      - rewrite Hd2 by lia. destruct (Z.ltb_spec j n); [lia|].
        rewrite (tdigit_high _ n j) by lia. destruct (Z.ltb_spec (li_abs li n) 0); [lia|done]. }
    destruct neg; simpl in Hz; subst x.
    + apply NegateSign_spec; [done|lia|]. rewrite Z.mod_small; [lia|].
      assert (BASE ^ n <= BASE ^ len) by (apply Z.pow_le_mono_r; lia). lia.
    + by apply returns_ret.
Qed.

(** The sign bit of the top digit. *)
Lemma top_bit d : digit_ok d -> negb (Z.land d (Z.shiftl 1 31) =? 0) = (2147483648 <=? d).
Proof.
  intros Hd. unfold digit_ok in Hd. change (Z.shiftl 1 31) with (2 ^ 31).
  rewrite <- (Z.shiftl_1_l 31), Z.land_comm.
  destruct (Z.leb_spec 2147483648 d) as [H|H].
  - apply negb_true_iff, Z.eqb_neq. intros E. apply (f_equal (fun z => Z.testbit z 31)) in E.
    rewrite Z.land_spec, Z.bits_0 in E. change (Z.testbit (Z.shiftl 1 31) 31) with true in E.
    rewrite Z.testbit_odd, Z.shiftr_div_pow2 in E by lia. change (2 ^ 31) with 2147483648 in E.
    replace (d / 2147483648) with 1 in E by zsolve. done.
  - apply negb_false_iff, Z.eqb_eq, Z.bits_inj'. intros i Hi. rewrite Z.land_spec, Z.bits_0.
    rewrite Z.shiftl_1_l, Z.pow2_bits_eqb by lia. destruct (Z.eqb_spec 31 i) as [<-|]; [|done]. cbn [andb].
    apply Z.bits_above_log2; [lia|]. destruct (decide (d = 0)) as [->|]; [done|].
    apply Z.log2_lt_pow2; lia.
Qed.

(** The top digit of a two's complement buffer tells the sign. *)
Lemma twos_sign l n x :
  1 <= n -> twos l n x ->
  (2147483648 <=? dg l (n - 1)) = (wrap n x <? 0).
Proof.
  intros Hn Ht. destruct (half_pow n Hn) as [Hh Hp]. pose proof (twos_eval l n x ltac:(lia) Ht) as Hev.
  pose proof (twos_digits_ok _ _ _ Ht) as Hok. rewrite eval_pred, Z.add_0_l in Hev by lia.
  pose proof (eval_bound l 0 (n - 1) Hok ltac:(lia)) as Hb. pose proof (BASE_pow_pos (n - 1) ltac:(lia)) as Hp1.
  assert (BASE ^ n / 2 = 2147483648 * BASE ^ (n - 1)) as Hhalf.
  { replace n with (n - 1 + 1) at 1 by lia. rewrite BASE_pow_succ by lia.
    replace (BASE ^ (n - 1) * BASE) with (2147483648 * BASE ^ (n - 1) * 2) by lia. apply Z.div_mul. lia. }
  pose proof (Z.mod_pos_bound x (BASE ^ n) ltac:(lia)) as Hm. unfold wrap.
  assert ((x + BASE ^ n / 2) mod BASE ^ n =
    if BASE ^ n / 2 <=? x mod BASE ^ n then x mod BASE ^ n - BASE ^ n / 2 else x mod BASE ^ n + BASE ^ n / 2) as ->.
  { rewrite <- Zplus_mod_idemp_l. destruct (Z.leb_spec (BASE ^ n / 2) (x mod BASE ^ n)).
    - symmetry. apply (Z.mod_unique _ _ 1); lia.
    - apply Z.mod_small. lia. }
  rewrite Hhalf in *. set (P := BASE ^ (n - 1)) in *. set (d := dg l (n - 1)) in *. set (m := x mod BASE ^ n) in *.
  destruct (Z.leb_spec (2147483648 * P) m); destruct (Z.leb_spec 2147483648 d);
    symmetry; (apply Z.ltb_lt || apply Z.ltb_ge); nia.
Qed.

Lemma wrap_range n x : 1 <= n -> - (BASE ^ n / 2) <= wrap n x < BASE ^ n / 2.
Proof.
  intros Hn. destruct (half_pow n Hn). unfold wrap.
  pose proof (Z.mod_pos_bound (x + BASE ^ n / 2) (BASE ^ n) ltac:(lia)). lia.
Qed.

Lemma wrap_residue n x : 1 <= n -> exists q, x = wrap n x + BASE ^ n * q.
Proof.
  intros Hn. destruct (half_pow n Hn). unfold wrap. exists ((x + BASE ^ n / 2) / BASE ^ n).
  pose proof (Z.div_mod (x + BASE ^ n / 2) (BASE ^ n)). lia.
Qed.

(** The magnitude that is copied out of the buffer. *)
Lemma wrap_abs n x :
  1 <= n -> (if wrap n x <? 0 then - x else x) mod BASE ^ n = Z.abs (wrap n x) /\
  (wrap n x < 0 -> x mod BASE ^ n <> 0).
Proof.
  intros Hn. destruct (half_pow n Hn). pose proof (wrap_range n x Hn). destruct (wrap_residue n x Hn) as [q Hq].
  set (w := wrap n x) in *. split.
  - destruct (Z.ltb_spec w 0); symmetry.
    + apply (Z.mod_unique _ _ (- q)); lia.
    + apply (Z.mod_unique _ _ q); lia.
  - intros Hw. replace (x mod BASE ^ n) with (w + BASE ^ n); [lia|]. apply (Z.mod_unique _ _ (q - 1)); lia.
Qed.

Lemma copy_digits_spec l n ptr :
  zlen l = n -> digits_ok l -> dest ptr n -> 0 <= n ->
  returns (for_up 0 n (fun i ptr => d ← DIGIT l i; set_digit ptr i d) ptr)
    (fun p => dest p n /\ li_abs p n = eval l 0 n).
Proof.
  intros Hl Hok Hp Hn.
  eapply returns_mono; [apply (for_up_inv (fun i p => dest p n /\
    forall j, 0 <= j < i -> dg (elem p) j = dg l j)); [lia| |]|].
  - split; [done|]. intros; lia.
  - intros i p Hi [Hd Hj]. buf_step.
    eapply evals_returns; [apply (set_digit_put p n); [done|lia]|]. split; [by apply dest_put|].
    intros j Hji. destruct (decide (j = i)) as [->|].
    + rewrite (dg_put_eq p n) by (done || lia). apply u32_small. apply (dg_ok l i Hok).
    + rewrite dg_put_ne by lia. apply Hj. lia.
  - intros p [Hd Hj]. split; [done|]. apply eval_ext; [|lia]. intros. apply Hj. lia.
Qed.

Lemma MakeIntFromBinary_spec l n x :
  twos l n x -> 2 <= n < 2 * MAXDIGITS + 8 -> small (wrap n x) ->
  returns (MakeIntFromBinary l n) (fun v => int_repr v (wrap n x)).
Proof.
  intros Ht Hn Hs. unfold MakeIntFromBinary. pose proof (proj1 Ht) as Hl.
  pose proof (twos_digits_ok _ _ _ Ht) as Hok. buf_step.
  rewrite top_bit, (twos_sign l n x) by (done || lia || by apply dg_ok).
  destruct (wrap_abs n x ltac:(lia)) as [Habs Hne]. set (w := wrap n x) in *.
  eapply (returns_bind _ _ (fun v => twos v n (if w <? 0 then - x else x))).
  { destruct (Z.ltb_spec w 0); [apply NegateSign_spec; (done || lia || by apply Hne)|by apply returns_ret]. }
  intros v Hv. eapply returns_bind; [apply CreateLongInt_dest; lia|]. intros ptr Hptr.
  eapply returns_bind; [apply (copy_digits_spec v n ptr); [apply Hv|by eapply twos_digits_ok|done|lia]|].
  intros p [[Hpb Hpg] Hpa]. rewrite (twos_eval v n _ ltac:(lia) Hv), Habs in Hpa.
  assert (signed (w <? 0) (li_abs p n) = w) as Hw
    by (rewrite Hpa; unfold signed; destruct (Z.ltb_spec w 0); lia).
  eapply returns_mono; [apply (ANormalize_spec p n (w <? 0)); [done|done|lia|]|].
  - rewrite Hpa. unfold small in *. lia.
  - by rewrite Hw.
Qed.

(** ** And, Or, Xor, Neg *)

Section Bitwise.
Context (op : Z -> Z -> Z) (f : bool -> bool -> bool).
Context (op_bits : forall x y i, Z.testbit (op x y) i = f (Z.testbit x i) (Z.testbit y i)).
Context (f_false : f false false = false).

Lemma op_mod x y n : 0 <= n -> op (x mod 2 ^ n) (y mod 2 ^ n) = (op x y) mod 2 ^ n.
Proof using All.
  intros Hn. apply Z.bits_inj'. intros i Hi. rewrite op_bits. destruct (decide (i < n)).
  - rewrite !Z.mod_pow2_bits_low, op_bits by lia. done.
  - rewrite !Z.mod_pow2_bits_high by lia. done.
Qed.

Lemma op_div x y n : 0 <= n -> op (x / 2 ^ n) (y / 2 ^ n) = (op x y) / 2 ^ n.
Proof using op_bits.
  intros Hn. apply Z.bits_inj'. intros i Hi. rewrite op_bits, !Z.div_pow2_bits, op_bits by lia. done.
Qed.

Lemma tdigit_op x y i : 0 <= i -> op (tdigit x i) (tdigit y i) = tdigit (op x y) i.
Proof using All.
  intros Hi. unfold tdigit. change BASE with (2 ^ 32). rewrite <- Z.pow_mul_r by lia.
  rewrite op_mod, op_div by lia. done.
Qed.

(** A bit operation on numbers of [k] bits (and a sign) stays within them. *)
Lemma op_range x y k : 0 <= k -> - 2 ^ k <= x < 2 ^ k -> - 2 ^ k <= y < 2 ^ k -> - 2 ^ k <= op x y < 2 ^ k.
Proof using op_bits f_false.
  intros Hk Hx Hy. pose proof (Z.pow_pos_nonneg 2 k ltac:(lia) Hk).
  assert (forall z, - 2 ^ k <= z < 2 ^ k -> z / 2 ^ k = 0 \/ z / 2 ^ k = -1) as Hc.
  { intros z Hz. destruct (Z.ltb_spec z 0); [right|left].
    - symmetry. apply (Z.div_unique _ _ _ (z + 2 ^ k)); lia.
    - apply Z.div_small. lia. }
  assert (forall a b, (a = 0 \/ a = -1) -> (b = 0 \/ b = -1) -> op a b = 0 \/ op a b = -1) as Hop.
  { intros a b Ha Hb. destruct (f (Z.testbit a 0) (Z.testbit b 0)) eqn:Ef.
    - right. apply Z.bits_inj'. intros i Hi. rewrite op_bits, Z.bits_m1 by lia. rewrite <- Ef.
      destruct Ha as [-> | ->], Hb as [-> | ->]; rewrite ?Z.bits_0, ?Z.bits_m1 by lia; done.
    - left. apply Z.bits_inj'. intros i Hi. rewrite op_bits, Z.bits_0. rewrite <- Ef.
      destruct Ha as [-> | ->], Hb as [-> | ->]; rewrite ?Z.bits_0, ?Z.bits_m1 by lia; done. }
  pose proof (Hop _ _ (Hc x Hx) (Hc y Hy)) as H01. rewrite op_div in H01 by done.
  pose proof (Z.div_mod (op x y) (2 ^ k) ltac:(lia)). pose proof (Z.mod_pos_bound (op x y) (2 ^ k) ltac:(lia)).
  destruct H01 as [E|E]; rewrite E in *; lia.
Qed.

Lemma half_pow2 n : 1 <= n -> BASE ^ n / 2 = 2 ^ (32 * n - 1) /\ 0 <= 32 * n - 1.
Proof using Type.
  intros Hn. split; [|lia]. change BASE with (2 ^ 32). rewrite <- Z.pow_mul_r by lia.
  replace (32 * n) with (32 * n - 1 + 1) at 1 by lia. rewrite Z.pow_add_r, Z.pow_1_r by lia.
  apply Z.div_mul. lia.
Qed.

Lemma op_loop_spec l0 l1 n x y :
  twos l0 n x -> twos l1 n y -> 0 <= n ->
  returns (for_up 0 n (fun i f0 => a ← DIGIT f0 i; b ← DIGIT l1 i; set_DIGIT f0 i (op a b)) l0)
    (fun l => twos l n (op x y)).
Proof using All.
  intros [Hl0 H0] [Hl1 H1] Hn.
  eapply returns_mono; [apply (fill_spec 0 n l0 _ (fun i => tdigit (op x y) i)); [lia|lia|]|].
  - intros i s Hi Hs Hd. buf_step. buf_step. buf_step. rewrite Hd, H0, H1, tdigit_op by lia.
    rewrite u32_small by apply tdigit_ok. done.
  - intros l [Hl Hd]. split; [lia|]. intros i Hi. rewrite Hd by lia.
    replace (0 <=? i) with true by lia. replace (i <? n) with true by lia. done.
Qed.

Lemma bitop2_spec a x b y :
  int_repr a x -> int_repr b y -> small (op x y) ->
  returns (bitop2 op a b) (fun v => int_repr v (op x y)).
Proof using All.
  intros Ha Hb Hs. destruct (AIsShortInt a && AIsShortInt b) eqn:Ess.
  { destruct a as [wa|?|?|?|?], b as [wb|?|?|?|?]; try done. destruct Ha as [-> Hx], Hb as [-> Hy].
    simpl. rewrite !AValueToInt_tag by done. apply AMakeInt64_spec.
    pose proof (op_range x y 61 ltac:(lia)). short_unfold. lia. }
  pose proof (int_len_bound a x Ha) as [Hla Hxa]. pose proof (int_len_bound b y Hb) as [Hlb Hyb].
  assert (AIsInt a && AIsInt b = true) as Hint by (destruct a, b; done).
  set (n := Z.max (int_len a) (int_len b)).
  enough (returns (la ← IntLen a; lb ← IntLen b; let len := Z.max la lb in
        f0 ← GetLongIntDigits a len; f1 ← GetLongIntDigits b len;
        f0 ← for_up 0 len (fun i f0 => x ← DIGIT f0 i; y ← DIGIT f1 i; set_DIGIT f0 i (op x y)) f0;
        MakeIntFromBinary f0 len) (fun v => int_repr v (op x y))) as H.
  { unfold bitop2. rewrite Hint. by destruct a, b. }
  eapply returns_bind_evals; [by eapply IntLen_evals|]. eapply returns_bind_evals; [by eapply IntLen_evals|].
  cbv zeta. fold n. eapply returns_bind; [apply (GetLongIntDigits_spec a x n Ha); lia|]. intros l0 H0.
  eapply returns_bind; [apply (GetLongIntDigits_spec b y n Hb); lia|]. intros l1 H1.
  eapply returns_bind; [apply (op_loop_spec l0 l1 n x y H0 H1); lia|]. intros l Hl.
  assert (wrap n (op x y) = op x y) as Hw.
  { apply wrap_id; [lia|]. destruct (half_pow2 n ltac:(lia)) as [Eh Hk].
    destruct (half_pow n ltac:(lia)) as [E2 _]. rewrite Eh in *.
    assert (BASE ^ int_len a <= BASE ^ n) by (apply Z.pow_le_mono_r; lia).
    assert (BASE ^ int_len b <= BASE ^ n) by (apply Z.pow_le_mono_r; lia).
    apply op_range; lia. }
  pose proof (MakeIntFromBinary_spec l n (op x y) Hl ltac:(lia)) as H. rewrite Hw in H. by apply H.
Qed.
End Bitwise.

Lemma BitopNeg_spec a x :
  int_repr a x -> small (- x - 1) -> returns (BitopNeg a) (fun v => int_repr v (- x - 1)).
Proof.
  intros Ha Hs. pose proof (int_len_bound a x Ha) as [Hla Hxa].
  destruct a as [w|li|?|?|?]; try done.
  { destruct Ha as [-> Hx]. simpl. rewrite AValueToInt_tag by done.
    replace (Z.lnot x) with (- x - 1) by (unfold Z.lnot; lia). apply AMakeInt64_spec. short_unfold. lia. }
  unfold BitopNeg. eapply returns_bind_evals; [exact (IntLen_evals (VLong li) x Ha)|].
  set (n := int_len (VLong li)) in *.
  eapply returns_bind; [apply (GetLongIntDigits_spec (VLong li) x n Ha); lia|]. intros l0 H0.
  eapply returns_bind; [exact (complement_twos l0 n x H0)|]. intros l Hl.
  assert (wrap n (- x - 1) = - x - 1) as Hw.
  { apply wrap_id; [lia|]. destruct (half_pow n ltac:(lia)). lia. }
  pose proof (MakeIntFromBinary_spec l n (- x - 1) Hl ltac:(lia)) as H. rewrite Hw in H. by apply H.
Qed.

(** ** Shifts *)

(** A digit of a number shifted left by less than a digit. *)
Lemma tdigit_shl x s k :
  0 <= s <= 31 -> 0 <= k ->
  tdigit (x * 2 ^ s) k =
  (tdigit x k * 2 ^ s) mod BASE + (if 0 <? k then tdigit x (k - 1) / 2 ^ (32 - s) else 0).
Proof.
  intros Hs Hk. pose proof (pow2_split s ltac:(lia)) as Hsp.
  pose proof (Z.pow_pos_nonneg 2 s ltac:(lia) ltac:(lia)) as Hp.
  pose proof (Z.pow_pos_nonneg 2 (32 - s) ltac:(lia) ltac:(lia)) as Hp'.
  destruct (Z.ltb_spec 0 k) as [Hpos|].
  2:{ assert (k = 0) as -> by lia. unfold tdigit. rewrite !Z.pow_0_r, !Z.div_1_r.
      rewrite Z.mul_mod_idemp_l by lia. lia. }
  pose proof (BASE_pow_pos (k - 1) ltac:(lia)) as Hb.
  assert (x * 2 ^ s / BASE ^ k = (x / BASE ^ (k - 1)) / 2 ^ (32 - s)) as Hq.
  { rewrite Z.div_div by lia. replace (BASE ^ k) with (BASE ^ (k - 1) * 2 ^ (32 - s) * 2 ^ s).
    - apply Z.div_mul_cancel_r; lia.
    - rewrite <- Z.mul_assoc, (Z.mul_comm (2 ^ (32 - s))), Hsp, <- BASE_pow_succ by lia. f_equal. lia. }
  unfold tdigit at 1. rewrite Hq, (tdigit_succ x (k - 1)) by lia. replace (k - 1 + 1) with k by lia.
  pose proof (tdigit_ok x (k - 1)) as Hd. set (d := tdigit x (k - 1)) in *. unfold digit_ok in Hd.
  rewrite <- Hsp at 1. replace (d + 2 ^ s * 2 ^ (32 - s) * (x / BASE ^ k))
    with (d + (x / BASE ^ k * 2 ^ s) * 2 ^ (32 - s)) by ring.
  rewrite Z.div_add by lia. unfold tdigit. rewrite Z.mul_mod_idemp_l by lia.
  set (y := x / BASE ^ k) in *.
  assert (0 <= d / 2 ^ (32 - s) < 2 ^ s) as He.
  { split; [apply Z.div_pos; lia|]. apply Z.div_lt_upper_bound; lia. }
  assert ((y * 2 ^ s) mod BASE = 2 ^ s * (y mod 2 ^ (32 - s))) as Hmul.
  { rewrite <- Hsp, (Z.mul_comm y), Z.mul_mod_distr_l by lia. done. }
  symmetry. apply (Z.mod_unique _ _ ((y * 2 ^ s) / BASE)).
  - left. pose proof (Z.mod_pos_bound y (2 ^ (32 - s)) Hp'). rewrite Hmul. nia.
  - pose proof (Z.div_mod (y * 2 ^ s) BASE). lia.
Qed.

Lemma tdigit_words x d i :
  0 <= d -> 0 <= i -> tdigit (x * BASE ^ d) i = if i <? d then 0 else tdigit x (i - d).
Proof.
  intros Hd Hi. unfold tdigit. pose proof (BASE_pow_pos i Hi). destruct (Z.ltb_spec i d).
  - replace (BASE ^ d) with (BASE ^ (d - i - 1) * BASE * BASE ^ i).
    + rewrite Z.mul_assoc, Z.div_mul, Z.mul_assoc, Z.mod_mul by lia. done.
    + rewrite <- BASE_pow_succ, <- Z.pow_add_r by lia. f_equal. lia.
  - pose proof (BASE_pow_pos d Hd). replace (BASE ^ i) with (BASE ^ (i - d) * BASE ^ d)
      by (rewrite <- Z.pow_add_r by lia; f_equal; lia).
    rewrite Z.div_mul_cancel_r by (pose proof (BASE_pow_pos (i - d)); lia). done.
Qed.

(** The word assembled by one iteration of the left shift. *)
Lemma shl_assemble d d' s :
  0 <= s <= 31 -> digit_ok d -> digit_ok d' ->
  Z.lor (Z.land (u32 (Z.shiftl d s)) MASK) (Z.shiftr d' (BITS - s)) =
  (d * 2 ^ s) mod BASE + d' / 2 ^ (32 - s).
Proof.
  unfold digit_ok. intros Hs Hd Hd'. pose proof (pow2_split s ltac:(lia)) as Hsp.
  pose proof (Z.pow_pos_nonneg 2 s ltac:(lia) ltac:(lia)).
  pose proof (Z.pow_pos_nonneg 2 (32 - s) ltac:(lia) ltac:(lia)).
  rewrite land_mask32, Z.shiftl_mul_pow2, Z.shiftr_div_pow2 by lia. unfold u32. rewrite Zmod_mod.
  rewrite Z.lor_comm, (lor_disjoint _ _ s); [lia|lia| |].
  - split; [apply Z.div_pos; lia|]. apply Z.div_lt_upper_bound; lia.
  - exists (d mod 2 ^ (32 - s)). rewrite <- Hsp, (Z.mul_comm d), Z.mul_mod_distr_l by lia. lia.
Qed.

Lemma shl_digits_spec l0 len dS s x :
  twos l0 len x -> 0 <= dS < len -> 0 <= s <= 31 ->
  returns (shl_digits l0 len dS s) (fun l => twos l len (x * 2 ^ s * BASE ^ dS)).
Proof.
  intros [Hl0 Hd0] HdS Hs. unfold shl_digits. set (X := x * 2 ^ s * BASE ^ dS).
  pose proof (twos_digits_ok l0 len x (conj Hl0 Hd0)) as Hok.
  eapply returns_bind.
  { apply (for_down_inv (fun i l => zlen l = len /\ (forall j, 0 <= j < i -> dg l j = dg l0 j) /\
      forall j, i <= j < len -> dg l j = tdigit X j)); [lia| |].
    - split_and!; [done|done|]. intros; lia.
    - intros i l Hi (Hl & Hlow & Hhigh). buf_step. rewrite Hlow by lia.
      assert (tdigit X i = tdigit (x * 2 ^ s) (i - dS)) as HX.
      { subst X. rewrite tdigit_words by lia. destruct (Z.ltb_spec i dS); [lia|done]. }
      eapply (returns_bind_evals _ _ (tdigit X i)).
      { rewrite HX, tdigit_shl by lia. rewrite Hd0 by lia.
        replace (0 <? i - dS) with (dS <? i) by lia. destruct (Z.ltb_spec dS i) as [Hlt|Hge].
        - eapply evals_bind; [apply DIGIT_evals; lia|]. rewrite Hlow, Hd0 by lia.
          rewrite shl_assemble by (done || apply tdigit_ok). apply evals_ret.
        - rewrite land_mask32, Z.shiftl_mul_pow2, Z.add_0_r by lia. unfold u32. rewrite Zmod_mod. apply evals_ret. }
      buf_step. rewrite u32_small by apply tdigit_ok. rewrite zlen_upd. split_and!; [done| |].
      + intros j Hj. rewrite dg_upd_ne by lia. apply Hlow. lia.
      + intros j Hj. destruct (decide (j = i)) as [->|]; [by rewrite dg_upd_eq by lia|].
        rewrite dg_upd_ne by lia. apply Hhigh. lia. }
  intros l1 (Hl1 & _ & Hhigh).
  eapply returns_mono; [apply (for_down_inv (fun i l => zlen l = len /\
    forall j, i <= j < len -> dg l j = tdigit X j)); [lia| |]|done].
  - split; [done|]. intros j Hj. apply Hhigh. lia.
  - intros i l Hi [Hl Hd]. buf_step. rewrite zlen_upd. split; [done|]. intros j Hj.
    destruct (decide (j = i)) as [->|]; [|rewrite dg_upd_ne by lia; apply Hd; lia].
    rewrite dg_upd_eq by lia. subst X. rewrite tdigit_words by lia. destruct (Z.ltb_spec i dS); [done|lia].
Qed.

Lemma tdigit_shr x dS s i :
  0 <= s <= 31 -> 0 <= dS -> 0 <= i ->
  tdigit (x / (BASE ^ dS * 2 ^ s)) i =
  tdigit x (i + dS) / 2 ^ s + (tdigit x (i + dS + 1) * 2 ^ (32 - s)) mod BASE.
Proof.
  intros Hs HdS Hi. pose proof (pow2_split s ltac:(lia)) as Hsp.
  pose proof (Z.pow_pos_nonneg 2 s ltac:(lia) ltac:(lia)) as Hp.
  pose proof (Z.pow_pos_nonneg 2 (32 - s) ltac:(lia) ltac:(lia)) as Hp'.
  pose proof (BASE_pow_pos i Hi). pose proof (BASE_pow_pos dS HdS).
  unfold tdigit at 1. rewrite Z.div_div by nia.
  replace (BASE ^ dS * 2 ^ s * BASE ^ i) with (BASE ^ (i + dS) * 2 ^ s) by (rewrite Z.pow_add_r by lia; ring).
  rewrite <- Z.div_div by (pose proof (BASE_pow_pos (i + dS)); lia).
  rewrite (tdigit_succ x (i + dS)) by lia. set (y := x / BASE ^ (i + dS + 1)).
  pose proof (tdigit_ok x (i + dS)) as Hd. unfold digit_ok in Hd. set (d := tdigit x (i + dS)) in *.
  replace (d + BASE * y) with (d + (y * 2 ^ (32 - s)) * 2 ^ s) by (rewrite <- Hsp; ring).
  rewrite Z.div_add by lia. change (tdigit x (i + dS + 1)) with (y mod BASE).
  rewrite Z.mul_mod_idemp_l by lia.
  assert (0 <= d / 2 ^ s < 2 ^ (32 - s)) as He.
  { split; [apply Z.div_pos; lia|]. apply Z.div_lt_upper_bound; lia. }
  assert ((y * 2 ^ (32 - s)) mod BASE = 2 ^ (32 - s) * (y mod 2 ^ s)) as Hmul.
  { rewrite <- Hsp, (Z.mul_comm y), (Z.mul_comm (2 ^ s)), Z.mul_mod_distr_l by lia. done. }
  symmetry. apply (Z.mod_unique _ _ ((y * 2 ^ (32 - s)) / BASE)).
  - left. pose proof (Z.mod_pos_bound y (2 ^ s) Hp). rewrite Hmul. nia.
  - pose proof (Z.div_mod (y * 2 ^ (32 - s)) BASE). lia.
Qed.

Lemma shr_assemble d d' s :
  0 <= s <= 31 -> digit_ok d -> digit_ok d' ->
  u32 (Z.lor (Z.land (Z.shiftr d s) MASK) (u64 (Z.shiftl d' (BITS - s)))) =
  d / 2 ^ s + (d' * 2 ^ (32 - s)) mod BASE.
Proof.
  unfold digit_ok. intros Hs Hd Hd'. pose proof (pow2_split s ltac:(lia)) as Hsp.
  pose proof (Z.pow_pos_nonneg 2 s ltac:(lia) ltac:(lia)).
  pose proof (Z.pow_pos_nonneg 2 (32 - s) ltac:(lia) ltac:(lia)).
  assert (2 ^ (32 - s) <= BASE) by (change BASE with (2 ^ 32); apply Z.pow_le_mono_r; lia).
  assert (0 <= d / 2 ^ s < 2 ^ (32 - s)) as He.
  { split; [apply Z.div_pos; lia|]. apply Z.div_lt_upper_bound; lia. }
  assert (0 <= d' * 2 ^ (32 - s) <= MASK * BASE) by (split; [apply Z.mul_nonneg_nonneg; lia|apply Z.mul_le_mono_nonneg; lia]).
  rewrite land_mask32, Z.shiftl_mul_pow2, Z.shiftr_div_pow2, u64_small by lia.
  rewrite (Z.mod_small (d / 2 ^ s)), (lor_disjoint _ _ (32 - s)); [|lia|lia|by exists d'|lia].
  unfold u32. rewrite Zplus_mod, (Z.mod_small (d / 2 ^ s)) by lia. apply Z.mod_small.
  assert ((d' * 2 ^ (32 - s)) mod BASE = 2 ^ (32 - s) * (d' mod 2 ^ s)) as ->.
  { rewrite <- Hsp, (Z.mul_comm d'), (Z.mul_comm (2 ^ s)), Z.mul_mod_distr_l by lia. done. }
  pose proof (Z.mod_pos_bound d' (2 ^ s)). nia.
Qed.

Lemma shr_digits_spec l0 n dS s x :
  twos l0 n x -> 1 <= n -> 2 * Z.abs x < BASE ^ n -> 0 <= dS -> 0 <= s <= 31 ->
  returns (shr_digits l0 n dS s) (fun l => twos l n (x / (BASE ^ dS * 2 ^ s))).
Proof.
  intros Ht Hn Hx HdS Hs. pose proof Ht as [Hl0 Hd0]. unfold shr_digits.
  set (X := x / (BASE ^ dS * 2 ^ s)). pose proof (twos_digits_ok l0 n x Ht) as Hok.
  destruct (half_pow n Hn) as [Hh _]. buf_step.
  rewrite top_bit, (twos_sign l0 n x), wrap_id by (done || lia || by apply dg_ok).
  assert (forall j, n <= j -> tdigit x j = if x <? 0 then MASK else 0) as Hhigh
    by (intros; apply (tdigit_high x n); lia).
  assert (forall j, n - dS <= j -> 0 <= j -> tdigit X j = if x <? 0 then MASK else 0) as HXhigh.
  { intros j Hj Hj0. subst X. rewrite tdigit_shr, !Hhigh by lia.
    destruct (x <? 0); [|rewrite Z.div_0_l; [done|apply Z.pow_nonzero; lia]].
    rewrite <- shr_assemble by (unfold digit_ok; lia).
    pose proof (shr_assemble MASK MASK s Hs ltac:(unfold digit_ok; lia) ltac:(unfold digit_ok; lia)) as E.
    rewrite E. pose proof (pow2_split s ltac:(lia)) as Hsp.
    pose proof (Z.pow_pos_nonneg 2 s ltac:(lia) ltac:(lia)).
    pose proof (Z.pow_pos_nonneg 2 (32 - s) ltac:(lia) ltac:(lia)).
    replace (MASK / 2 ^ s) with (2 ^ (32 - s) - 1) by (apply (Z.div_unique _ _ _ (2 ^ s - 1)); lia).
    replace ((MASK * 2 ^ (32 - s)) mod BASE) with (BASE - 2 ^ (32 - s)); [lia|].
    apply (Z.mod_unique _ _ (2 ^ (32 - s) - 1)); lia. }
  assert (returns (for_up 0 (n - dS) (fun i f0 =>
      d ← DIGIT f0 (i + dS);
      let v := Z.land (Z.shiftr d s) MASK in
      v ← (if i <? n - dS - 1 then
             d' ← DIGIT f0 (i + dS + 1);
             mret (Z.lor v (u64 (Z.shiftl d' (BITS - s))))
           else mret (if x <? 0 then Z.lor v (u64 (Z.shiftl MASK (BITS - s))) else v));
      set_DIGIT f0 i v) l0)
    (fun l => zlen l = n /\ forall j, 0 <= j < n - dS -> dg l j = tdigit X j)) as Hloop.
  { destruct (decide (n <= dS)).
    { unfold for_up. replace (Z.to_nat (n - dS - 0)) with 0%nat by lia. apply returns_ret. split; [done|]. lia. }
    eapply returns_mono; [apply (fill_spec 0 (n - dS) l0 _ (fun i => tdigit X i)); [lia|lia|]|].
    - intros i l Hi Hl Hsame. buf_step. rewrite Hsame, Hd0 by lia.
      eapply (returns_bind_evals _ _ (Z.lor (Z.land (Z.shiftr (tdigit x (i + dS)) s) MASK)
        (u64 (Z.shiftl (tdigit x (i + dS + 1)) (BITS - s))))).
      { destruct (Z.ltb_spec i (n - dS - 1)) as [Hlt|Hge].
        - eapply evals_bind; [apply DIGIT_evals; lia|]. rewrite Hsame, Hd0 by lia. apply evals_ret.
        - rewrite (Hhigh (i + dS + 1)) by lia. destruct (x <? 0); [apply evals_ret|].
          rewrite Z.shiftl_0_l. change (u64 0) with 0. rewrite Z.lor_0_r. apply evals_ret. }
      buf_step. f_equal. rewrite shr_assemble by (done || apply tdigit_ok). symmetry. apply tdigit_shr; lia.
    - intros l [Hl Hd]. split; [lia|]. intros j Hj. rewrite Hd by lia.
      replace (0 <=? j) with true by lia. replace (j <? n - dS) with true by lia. done. }
  eapply returns_bind; [exact Hloop|]. intros l1 [Hl1 Hd1].
  eapply returns_mono; [apply (fill_spec (Z.max 0 (n - dS)) n l1 _ (fun i => tdigit X i)); [lia|lia|]|].
  - intros i l Hi Hl _. buf_step. rewrite HXhigh by lia. by destruct (x <? 0).
  - intros l [Hl Hd]. split; [lia|]. intros j Hj. rewrite Hd by lia.
    destruct ((Z.max 0 (n - dS) <=? j) && (j <? n)) eqn:E; [done|]. apply Hd1. lia.
Qed.

Lemma shift_split sh : 0 <= sh -> 0 <= Z.land sh 31 <= 31 /\ 2 ^ sh = BASE ^ (sh / 32) * 2 ^ Z.land sh 31 /\ 0 <= sh / 32.
Proof.
  intros Hsh. assert (Z.land sh 31 = sh mod 32) as ->
    by (change 31 with (Z.ones 5); by rewrite Z.land_ones by lia).
  split_and!; [zsolve..| |zsolve]. change BASE with (2 ^ 32). rewrite <- Z.pow_mul_r, <- Z.pow_add_r by zsolve.
  f_equal. zsolve.
Qed.

Lemma shr_digitwise_spec a x sh :
  int_repr a x -> 0 <= sh ->
  returns (shr_digitwise a sh) (fun v => int_repr v (x / 2 ^ sh)).
Proof.
  intros Ha Hsh. pose proof (int_len_bound a x Ha) as [Hla Hxa]. set (n := int_len a) in *.
  destruct (shift_split sh Hsh) as (Hs & Hpow & HdS). unfold shr_digitwise. change (BITS - 1) with 31.
  eapply returns_bind_evals; [by eapply (IntLen_evals a x)|]. fold n. cbv zeta.
  eapply returns_bind; [apply (GetLongIntDigits_spec a x n Ha); lia|]. intros l0 H0.
  eapply returns_bind; [apply (shr_digits_spec l0 n (sh / 32) (Z.land sh 31) x H0); (done || lia)|].
  rewrite <- Hpow. intros l Hl.
  pose proof (Z.pow_pos_nonneg 2 sh ltac:(lia) Hsh).
  assert (- Z.abs x <= x / 2 ^ sh <= Z.abs x) as Hq.
  { split; [apply Z.div_le_lower_bound; nia|]. apply Z.div_le_upper_bound; nia. }
  assert (wrap n (x / 2 ^ sh) = x / 2 ^ sh) as Hw.
  { apply wrap_id; [lia|]. destruct (half_pow n ltac:(lia)). lia. }
  pose proof (MakeIntFromBinary_spec l n _ Hl ltac:(lia)) as H1. rewrite Hw in H1. apply H1.
  assert (small x) as Hsx; [|unfold small in *; lia].
  destruct a as [w|li|?|?|?]; try done.
  - destruct Ha as [_ Hx]. apply (small_of_digits _ 2); [rewrite MAXDIGITS_eq; lia|]. short_unfold. lia.
  - destruct Ha as ((k & neg & Hb & Hk & ->) & _). pose proof (li_abs_bound _ _ _ Hb).
    apply (small_of_digits _ k); [lia|]. destruct neg; simpl; lia.
Qed.

(** A right shift by a short count is the floored division by a power of two;
    a count beyond the short range gives zero, whatever the sign. *)
Lemma BitopShr_spec n x m sh :
  int_repr n x -> int_repr m sh ->
  if sh <? 0 then raises (BitopShr n m) EValueError
  else returns (BitopShr n m) (fun v => int_repr v (if in_short sh then x / 2 ^ sh else 0)).
Proof.
  intros Hn Hm. destruct m as [w|li|?|?|?]; try done.
  - destruct Hm as [-> Hsh]. unfold BitopShr. rewrite AValueToInt_tag by done. cbv zeta.
    destruct (in_short_spec sh); [|done]. destruct (Z.ltb_spec sh 0); [by apply spec_raise|].
    destruct n as [w|l|?|?|?]; try done; [|by apply shr_digitwise_spec].
    destruct (Z.ltb_spec sh 64); [|by apply shr_digitwise_spec].
    destruct Hn as [-> Hx]. rewrite AValueToInt_tag, Z.shiftr_div_pow2 by (done || lia).
    apply returns_ret. split; [done|]. pose proof (Z.pow_pos_nonneg 2 sh ltac:(lia) ltac:(lia)).
    short_unfold. split; [apply Z.div_le_lower_bound; nia|apply Z.div_le_upper_bound; nia].
  - unfold BitopShr. pose proof (norm_coerced li sh Hm) as (_ & _ & ->).
    destruct (Z.ltb_spec sh 0); [by apply spec_raise|].
    destruct (in_short_spec sh) as [Hsh|_]; [by destruct Hm as (_ & Hl & _)|].
    assert (AIsInt n = true) as -> by (by destruct n). apply returns_ret. split; [done|]. short_unfold. lia.
Qed.

(** The overflow test of the left shift is exact for tagged words. *)
Lemma IsShlOverflow_spec x s :
  short_range x -> 0 <= s ->
  IsShlOverflow (AIntToValue x) s = (64 <=? s) || negb (in_short (x * 2 ^ s)).
Proof.
  intros Hx Hs. unfold IsShlOverflow. destruct (Z.leb_spec 64 s); [done|]. cbn [orb]. f_equal.
  rewrite s64_tag, Z.shiftl_mul_pow2, Z.shiftr_div_pow2 by (done || lia).
  pose proof (Z.pow_pos_nonneg 2 s ltac:(lia) Hs) as Hp.
  pose proof (Z.pow_pos_nonneg 2 (64 - s) ltac:(lia) ltac:(lia)) as Hp'.
  assert (2 ^ s * 2 ^ (64 - s) = W64) as Hsp by (rewrite <- Z.pow_add_r by lia; by replace (s + (64 - s)) with 64 by lia).
  set (P := 2 ^ s) in *. set (R := 2 ^ (64 - s)) in *.
  assert (exists q, s64 (4 * x * P) = 4 * x * P - W64 * q) as [q Hq].
  { exists ((4 * x * P + H64) / W64). unfold s64. zsolve. }
  pose proof (s64_range (4 * x * P)) as Hr.
  assert (s64 (4 * x * P) / P = 4 * x - R * q) as Hdiv.
  { rewrite Hq, <- Hsp. replace (4 * x * P - P * R * q) with ((4 * x - R * q) * P) by ring. apply Z.div_mul. lia. }
  rewrite Hdiv. destruct (in_short_spec (x * P)) as [Hin|Hout].
  - assert (q = 0) as -> by (short_unfold; lia). rewrite Z.mul_0_r, Z.sub_0_r, AIntToValue_eq. apply Z.eqb_refl.
  - apply Z.eqb_neq. rewrite AIntToValue_eq. unfold u64. intros E.
    assert (exists k, R * q = W64 * k) as [k Hk].
    { exists (4 * x / W64 - (4 * x - R * q) / W64). clear - E. set (t := R * q) in *. zsolve. }
    assert (q <> 0) as Hq0 by (intros ->; apply Hout; short_unfold; lia).
    assert (P * Z.abs (4 * x - R * q) <= H64) by nia.
    assert (1 < P) by (destruct (decide (P = 1)) as [E1|]; [rewrite E1 in *; short_unfold; lia|lia]).
    assert (Z.abs (4 * x - R * q) <= 4611686018427387904) by nia.
    short_unfold. assert (k = 0) by lia. subst k. assert (R * q = 0) by lia. nia.
Qed.

Lemma wrap_words n d y : 1 <= n -> 0 <= d -> wrap (n + d) (y * BASE ^ d) = wrap n y * BASE ^ d.
Proof.
  intros Hn Hd. unfold wrap. destruct (half_pow n Hn) as [Hh Hp]. pose proof (BASE_pow_pos d Hd).
  assert (BASE ^ (n + d) / 2 = BASE ^ n / 2 * BASE ^ d) as ->.
  { rewrite Z.pow_add_r by lia. rewrite Hh at 1.
    replace (2 * (BASE ^ n / 2) * BASE ^ d) with (BASE ^ n / 2 * BASE ^ d * 2) by ring. apply Z.div_mul. lia. }
  rewrite <- Z.mul_add_distr_r, Z.pow_add_r, Z.mul_mod_distr_r by lia. ring.
Qed.

(** The digitwise left shift of an operand expanded to [ilen] digits. *)
Lemma shl_digitwise_spec a x sh :
  int_repr a x -> 0 <= sh -> sh / 32 < MAXDIGITS ->
  let r := wrap (int_len a) (x * 2 ^ Z.land sh 31) * BASE ^ (sh / 32) in
  small r ->
  returns (ilen ← IntLen a; let len := ilen + sh / BITS in
           f0 ← GetLongIntDigits a len;
           f0 ← shl_digits f0 len (sh / BITS) (Z.land sh (BITS - 1));
           MakeIntFromBinary f0 len) (fun v => int_repr v r).
Proof.
  intros Ha Hsh Hmax r Hr. pose proof (int_len_bound a x Ha) as [Hla _]. set (n := int_len a) in *.
  destruct (shift_split sh Hsh) as (Hs & _ & HdS). change (BITS - 1) with 31.
  eapply returns_bind_evals; [by eapply (IntLen_evals a x)|]. fold n. cbv zeta.
  eapply returns_bind; [apply (GetLongIntDigits_spec a x _ Ha); fold n; lia|]. intros l0 H0.
  eapply returns_bind; [apply (shl_digits_spec l0 _ (sh / 32) (Z.land sh 31) x H0); lia|].
  intros l Hl. pose proof (MakeIntFromBinary_spec l _ _ Hl ltac:(lia)) as H.
  rewrite wrap_words in H by lia. by apply H.
Qed.

(** A short operand whose shifted bits leave a 64-bit word loses them. *)
Definition shl_loses (x sh : Z) : bool :=
  let y := x * 2 ^ Z.land sh 31 in
  in_short x && negb (in_short (x * 2 ^ sh)) && negb ((- H64 <=? y) && (y <? H64)).

Definition shl_result (x sh : Z) : Z :=
  if shl_loses x sh then s64 (x * 2 ^ Z.land sh 31) * BASE ^ (sh / 32) else x * 2 ^ sh.

Lemma long_len_abs li x : li_norm li x -> Z.abs x < BASE ^ AGetLongIntLen li.
Proof.
  intros Hn. destruct (norm_digits li x Hn) as (n & neg & Hb & _ & -> & _).
  rewrite (Len_block _ _ _ Hb). pose proof (li_abs_bound _ _ _ Hb). destruct neg; simpl; lia.
Qed.

Lemma wrap_shl a x sh :
  int_repr a x -> 0 <= sh -> (match a with VInt _ => in_short (x * 2 ^ sh) = false \/ 64 <= sh | _ => True end) ->
  wrap (int_len a) (x * 2 ^ Z.land sh 31) * BASE ^ (sh / 32) = shl_result x sh.
Proof.
  intros Ha Hsh Hov. destruct (shift_split sh Hsh) as (Hs & Hpow & HdS). unfold shl_result, shl_loses.
  pose proof (Z.pow_pos_nonneg 2 (Z.land sh 31) ltac:(lia) ltac:(lia)).
  assert (2 ^ Z.land sh 31 <= 2147483648) by (change 2147483648 with (2 ^ 31); apply Z.pow_le_mono_r; lia).
  destruct a as [w|li|?|?|?]; try done; simpl int_len.
  - destruct Ha as [_ Hx]. destruct (in_short_spec x); [|done]. cbn [andb].
    change (wrap DIGITS_IN_INT (x * 2 ^ Z.land sh 31)) with (s64 (x * 2 ^ Z.land sh 31)).
    set (y := x * 2 ^ Z.land sh 31) in *.
    assert (x * 2 ^ sh = y * BASE ^ (sh / 32)) as Hxy by (subst y; rewrite Hpow; ring).
    destruct (negb (in_short (x * 2 ^ sh)) && negb ((- H64 <=? y) && (y <? H64))) eqn:E; [done|].
    destruct (in_short_spec (x * 2 ^ sh)) as [Hin|Hout].
    + destruct Hov as [|Hge]; [done|]. assert (x = 0) as ->; [|done].
      assert (2 ^ 64 <= 2 ^ sh) by (apply Z.pow_le_mono_r; lia). short_unfold. nia.
    + rewrite s64_small, Hxy by (cbn [negb andb] in E; lia). done.
  - destruct Ha as (Hrep & Hl & Hlead). destruct (in_short_spec x); [done|]. cbn [andb].
    pose proof (long_len_abs li x (conj Hrep (conj Hl Hlead))) as Habs.
    pose proof (int_len_bound (VLong li) x (conj Hrep (conj Hl Hlead))) as [Hlen _]. simpl in Hlen.
    rewrite wrap_id; [rewrite Hpow; ring|lia|].
    destruct (half_pow (AGetLongIntLen li + 1) ltac:(lia)) as [Hh _].
    rewrite BASE_pow_succ in Hh |- * by lia. set (B := BASE ^ AGetLongIntLen li) in *.
    replace (B * BASE / 2) with (B * 2147483648) by (replace (B * BASE) with (B * 2147483648 * 2) by ring; by rewrite Z.div_mul).
    nia.
Qed.

Lemma BitopShl_spec n x sh :
  int_repr n x -> 0 <= sh -> sh / 32 < MAXDIGITS -> short_range sh -> small (shl_result x sh) ->
  returns (BitopShl n (VInt (AIntToValue sh))) (fun v => int_repr v (shl_result x sh)).
Proof.
  intros Hn Hsh Hmax Hshort Hs. unfold BitopShl, shl_count. rewrite AValueToInt_tag by done.
  destruct (Z.ltb_spec sh 0); [lia|]. eapply returns_bind_evals; [apply evals_ret|].
  destruct n as [w|li|?|?|?]; try done.
  - pose proof Hn as [-> Hx]. rewrite IsShlOverflow_spec by done.
    destruct ((64 <=? sh) || negb (in_short (x * 2 ^ sh))) eqn:Eov; cbn [negb].
    + pose proof (wrap_shl _ x sh Hn Hsh ltac:(simpl; destruct (in_short (x * 2 ^ sh)); [right|left]; [simpl in Eov; lia|done])) as Hw.
      rewrite <- Hw in Hs |- *. by apply (shl_digitwise_spec (VInt (AIntToValue x)) x sh).
    + apply orb_false_iff in Eov as [_ Eov]. apply negb_false_iff in Eov.
      unfold shl_result, shl_loses. rewrite Eov. cbn [negb]. rewrite andb_false_r. cbn [andb].
      apply returns_ret. split; [|by destruct (in_short_spec (x * 2 ^ sh))].
      rewrite Z.shiftl_mul_pow2 by done. apply tag_mul.
  - pose proof (wrap_shl (VLong li) x sh Hn Hsh I) as Hw. rewrite <- Hw in Hs |- *.
    by apply (shl_digitwise_spec (VLong li) x sh).
Qed.

(** Negative and long shift counts raise a value error. *)
Lemma BitopShl_error n m sh :
  int_repr m sh -> sh < 0 \/ A_SHORT_INT_MAX < sh -> raises (BitopShl n m) EValueError.
Proof.
  intros Hm Hsh. unfold BitopShl.
  assert (raises (shl_count m) EValueError) as H.
  { unfold shl_count. destruct m as [w|li|?|?|?]; try done.
    - destruct Hm as [-> Hr]. rewrite AValueToInt_tag by done.
      destruct (Z.ltb_spec sh 0); [by apply spec_raise|short_unfold; lia].
    - destruct (AGetLongIntSign li); by apply spec_raise. }
  by apply raises_bind.
Qed.

(** * The properties of the bit operations *)


(** C18: And, Or, Xor and Neg of Int objects of any size and sign are the bit
    operations on the infinite two's complement representation of the
    numbers. *)
Theorem bitops_correct a x b y :
  int_repr a x -> int_repr b y ->
  (small (Z.land x y) -> returns (BitopAnd a b) (fun v => int_repr v (Z.land x y))) /\
  (small (Z.lor x y) -> returns (BitopOr a b) (fun v => int_repr v (Z.lor x y))) /\
  (small (Z.lxor x y) -> returns (BitopXor a b) (fun v => int_repr v (Z.lxor x y))) /\
  (small (Z.lnot x) -> returns (BitopNeg a) (fun v => int_repr v (Z.lnot x))).
Proof.
  intros Ha Hb. split_and!.
  - apply (bitop2_spec Z.land andb); [apply Z.land_spec|done|done|done].
  - apply (bitop2_spec Z.lor orb); [apply Z.lor_spec|done|done|done].
  - apply (bitop2_spec Z.lxor xorb); [apply Z.lxor_spec|done|done|done].
  - replace (Z.lnot x) with (- x - 1) by (unfold Z.lnot; lia). by apply BitopNeg_spec.
Qed.

Lemma bitops_correct_witness :
  returns (BitopAnd (VLong n70) (si 12345)) (fun v => int_repr v (Z.land (- 2 ^ 70) 12345)) /\
  returns (BitopXor (VLong n70) (si 12345)) (fun v => int_repr v (Z.lxor (- 2 ^ 70) 12345)).
Proof.
  split; apply (bitops_correct (VLong n70) (- 2 ^ 70) (si 12345) 12345);
    (exact n70_repr || (apply si_repr; reflexivity) || lit_small).
Defined.

(** C19: a left shift by a non-negative short count multiplies by a power of two;
    the only exception are short operands whose bits, shifted within a digit,
    leave the 64-bit word: these are lost.  A right shift by a non-negative
    short count is the division by a power of two rounded towards minus
    infinity, for operands of any size and sign; a long count gives zero (also
    for a negative operand).  A negative count, and for the left shift a long
    one, raise a value error. *)
Theorem bit_shifts_correct n x m sh :
  int_repr n x -> int_repr m sh ->
  (sh < 0 \/ A_SHORT_INT_MAX < sh -> raises (BitopShl n m) EValueError) /\
  (0 <= sh <= A_SHORT_INT_MAX -> sh / 32 < MAXDIGITS -> small (shl_result x sh) ->
   returns (BitopShl n m) (fun v => int_repr v
     (if shl_loses x sh then s64 (x * 2 ^ Z.land sh 31) * BASE ^ (sh / 32) else x * 2 ^ sh))) /\
  (if sh <? 0 then raises (BitopShr n m) EValueError
   else returns (BitopShr n m) (fun v => int_repr v (if in_short sh then x / 2 ^ sh else 0))).
Proof.
  intros Hn Hm. split_and!; [by apply BitopShl_error| |by apply BitopShr_spec]. intros Hsh Hmax Hs.
  destruct m as [w|li|?|?|?]; try (simpl in Hm; tauto).
  - destruct Hm as [-> Hr]. by apply BitopShl_spec; [|lia|..].
  - destruct Hm as (_ & Hl & _). exfalso. apply Hl. short_unfold. lia.
Qed.

Lemma bit_shifts_correct_witness :
  shl_loses (2 ^ 60) 4 = true /\ shl_loses (2 ^ 60) 35 = true /\ shl_loses 5 100 = false /\
  returns (BitopShl (si 5) (si 100)) (fun v => int_repr v (5 * 2 ^ 100)) /\
  returns (BitopShr (VLong n70) (si 69)) (fun v => int_repr v (-2)) /\
  returns (BitopShr (si (-1)) (VLong p70)) (fun v => int_repr v 0).
Proof.
  do 3 (split; [reflexivity|]). split_and!.
  - refine (proj1 (proj2 (bit_shifts_correct (si 5) 5 (si 100) 100 _ _)) _ _ _);
      [apply si_repr; reflexivity|apply si_repr; reflexivity|unfold A_SHORT_INT_MAX; lia
      |rewrite MAXDIGITS_eq; reflexivity|lit_small].
  - apply (bit_shifts_correct (VLong n70) (- 2 ^ 70) (si 69) 69); [exact n70_repr|apply si_repr; reflexivity].
  - apply (bit_shifts_correct (si (-1)) (-1) (VLong p70) (2 ^ 70)); [apply si_repr; reflexivity|exact p70_repr].
Defined.
