(* ===== verification/HashTable.v ===== *)
(** * HashTable: the open-addressing table of Map and Set objects

    [std_map.c] and [set_module.c] keep the same table: an array of key and
    value cells, where a key cell holds the empty marker, the removed marker or
    a key; a power-of-two capacity; the number of cells in use and the number
    of removed items.  This file models the table and its operations over an
    arbitrary type of keys, whose hash and equality functions (which may be
    methods of a class) are an interface. *)

From S2P Require Import Prelude Runtime Digits Value LongInt IntConv.


(** ** Keys *)

(** What the table asks of the keys: [AStdHash], which returns an object or
    [AError] ([None]), and [AIsEq]. *)
Class MapKey (K : Type) := {
  AStdHash : K -> M (option AValue);
  AIsEq : K -> K -> M bool
}.

(** [LongIntHash(v)]: the hash of a hash value that is a long integer, in a C
    [int]. *)
Definition LongIntHash (li : ALongInt) : M Z :=
  for_up 0 (AGetLongIntLen li)
    (fun i hash => d ← digit li i; mret (s32 (u32 (33 * hash) + d)))
    (if AGetLongIntSign li then 4 else 0).

(** [HashToInt(t, v)]. *)
Definition HashToInt (v : AValue) : M Z :=
  match v with
  | VInt w => mret (AValueToInt w)
  | VLong li => LongIntHash li
  | _ => raise ETypeError
  end.

(** ** The table *)

(** A key cell: [EmptyMarker], [RemovedMarker] or a key. *)
Inductive mark (K : Type) :=
  | Empty
  | Removed
  | Item (k : K).
Arguments Empty {K}.
Arguments Removed {K}.
Arguments Item {K} k.

(** The members of a Map or Set object; the integers are those of the Int
    members.  Entry [i] of [MAP_A] is the pair of array cells [2 * i] and
    [2 * i + 1]. *)
Record table (K V : Type) := MkTable {
  MAP_A : list (mark K * V);
  MAP_LEN : Z;
  MAP_SIZE : Z;
  MAP_NUM_REMOVED : Z
}.
Arguments MkTable {K V} _ _ _ _.
Arguments MAP_A {K V} _.
Arguments MAP_LEN {K V} _.
Arguments MAP_SIZE {K V} _.
Arguments MAP_NUM_REMOVED {K V} _.

Definition INITIAL_MAP_CAPACITY : Z := 4.

Definition NextIndex (i size : Z) : Z := Z.land (i * 5 + 1) size.

(** The result of walking a hash chain: the entry that holds the key, or the
    empty entry that ends the chain. *)
Inductive slot (V : Type) :=
  | Found (i : Z) (v : V)
  | Free (i : Z).
Arguments Found {V} i v.
Arguments Free {V} i.

Section table.
Context {K V : Type} `{MapKey K} (EmptyMarker : V).

(** [AFixArrayItem(a, i * 2)] and [AFixArrayItem(a, i * 2 + 1)]. *)
Definition AFixArrayItem (a : list (mark K * V)) (i : Z) : M (mark K * V) :=
  if 0 <=? i then
    match a !! Z.to_nat i with Some e => mret e | None => fault end
  else fault.

(** [AMakeFixArray(t, 2 * n, EmptyMarker)]. *)
Definition AMakeFixArray (n : Z) : M (list (mark K * V)) :=
  AAlloc (AGetBlockSize ((2 * n + 1) * 8)) ≫= (fun _ =>
  mret (replicate (Z.to_nat n) (Empty, EmptyMarker))).

Definition set_entry (i : Z) (f : mark K * V -> mark K * V) : SM (table K V) unit :=
  modify (fun m => MkTable (alter f (Z.to_nat i) (MAP_A m)) (MAP_LEN m) (MAP_SIZE m)
    (MAP_NUM_REMOVED m)).

Definition set_key (i : Z) (c : mark K) : SM (table K V) unit :=
  lift barrier ≫= (fun _ => set_entry i (fun e => (c, e.2))).
Definition set_value (i : Z) (v : V) : SM (table K V) unit :=
  lift barrier ≫= (fun _ => set_entry i (fun e => (e.1, v))).

(** The hash of a key as a C integer, [None] when [AStdHash] returned
    [AError]. *)
Definition hash_code (k : K) : M (option Z) :=
  h ← AStdHash k;
  match h with
  | None => mret None
  | Some v => i ← HashToInt v; mret (Some i)
  end.

(** The loop over the hash chain of [k] from entry [i]; a removed entry is
    equal to no key.  The loop ends within one round over the array. *)
Fixpoint find_slot (fuel : nat) (a : list (mark K * V)) (size : Z) (k : K) (i : Z) : M (slot V) :=
  match fuel with
  | O => fault
  | S fuel =>
    e ← AFixArrayItem a i;
    match e.1 with
    | Empty => mret (Free i)
    | Removed => find_slot fuel a size k (NextIndex i size)
    | Item k' =>
      res ← AIsEq k' k;
      if (res : bool) then mret (Found i e.2)
      else find_slot fuel a size k (NextIndex i size)
    end
  end.

(** The common start of the operations: hash the key and walk its chain.
    [None] is the error return of [AStdHash]. *)
Definition locate (k : K) : SM (table K V) (option (slot V)) :=
  h ← lift (hash_code k);
  match h with
  | None => mret None
  | Some i =>
    m ← get;
    let size := MAP_SIZE m - 1 in
    s ← lift (find_slot (length (MAP_A m)) (MAP_A m) size k (Z.land i size));
    mret (Some s)
  end.

(** [MapLookup(t, frame, def)]; a result of [None] is [AError]. *)
Definition MapLookup (k : K) (def : option V) : SM (table K V) (option V) :=
  s ← locate k;
  match s with
  | None => mret None
  | Some (Found _ v) => mret (Some v)
  | Some (Free _) =>
    match def with None => lift (raise EKeyError) | Some d => mret (Some d) end
  end.

(** The body shared by [AMap_set] and [SetAdd], given the resize operation. *)
Definition set_with (resize : SM (table K V) unit) (k : K) (v : V) : SM (table K V) (option unit) :=
  m ← get;
  s ← locate k;
  match s with
  | None => mret None
  | Some (Found i _) => set_value i v ≫= (fun _ => mret (Some tt))
  | Some (Free i) =>
    set_key i (Item k) ≫= (fun _ =>
    set_value i v ≫= (fun _ =>
    modify (fun m => MkTable (MAP_A m) (MAP_LEN m + 1) (MAP_SIZE m) (MAP_NUM_REMOVED m)) ≫= (fun _ =>
    m' ← get;
    (if MAP_LEN m' * 3 >=? (MAP_SIZE m - 1) * 2 + 2 then resize else mret tt) ≫= (fun _ =>
    mret (Some tt)))))
  end.

(** The new capacity chosen by [ResizeMap] and [ResizeSet]. *)
Definition new_size (numItems oldSize : Z) : Z :=
  if numItems * 3 >? oldSize then 2 * oldSize
  else if numItems * 6 <=? oldSize then Z.max INITIAL_MAP_CAPACITY (oldSize ÷ 2)
  else oldSize.

(** The body shared by [ResizeMap] and [ResizeSet]: the members are set one by
    one, then the items of the old array are inserted again. *)
Definition resize_with (reinsert : K -> V -> SM (table K V) (option unit)) : SM (table K V) unit :=
  m ← get;
  lift (AAllocTempStack 1) ≫= (fun _ =>
  oldSize ← lift (AGetInt (VInt (AIntToValue (MAP_SIZE m))));
  let newSize := new_size (MAP_LEN m - MAP_NUM_REMOVED m) oldSize in
  (if newSize >? A_SHORT_INT_MAX then lift (raise EValueError) else mret tt) ≫= (fun _ =>
  modify (fun m => MkTable (MAP_A m) (MAP_LEN m) (s32 newSize) (MAP_NUM_REMOVED m)) ≫= (fun _ =>
  a ← lift (AMakeFixArray newSize);
  modify (fun m => MkTable a 0 (MAP_SIZE m) 0) ≫= (fun _ =>
  sfor (Z.to_nat oldSize) 0 (fun i =>
    e ← lift (AFixArrayItem (MAP_A m) i);
    match e.1 with
    | Item k => reinsert k e.2 ≫= (fun _ => mret tt)
    | _ => mret tt
    end))))).

(** [AMapInitialize] and [SetInitialize]. *)
Definition initialize : SM (table K V) unit :=
  modify (fun m => MkTable (MAP_A m) (MAP_LEN m) INITIAL_MAP_CAPACITY (MAP_NUM_REMOVED m)) ≫= (fun _ =>
  a ← lift (AMakeFixArray INITIAL_MAP_CAPACITY);
  modify (fun m => MkTable a 0 (MAP_SIZE m) 0)).

End table.

(** * The probe sequence of the hash tables visits every entry

    The next index in a hash chain is [(5 * i + 1) & (size - 1)], with a
    power-of-two [size].  The sequence is a permutation of the indices: from
    any start, every entry is visited within [size] steps. *)


(** The index after [n] steps from [i]. *)
Definition walk (mask i : Z) (n : nat) : Z := Nat.iter n (fun i => NextIndex i mask) i.

(** The sequence without the mask. *)
Definition free_walk (i : Z) (n : nat) : Z := Nat.iter n (fun i => 5 * i + 1) i.

Lemma free_walk_add i n m : free_walk i (n + m) = free_walk (free_walk i m) n.
Proof. unfold free_walk. by rewrite Nat.iter_add. Qed.

Lemma walk_succ mask i n : walk mask i (S n) = NextIndex (walk mask i n) mask.
Proof. done. Qed.

Lemma walk_shift mask i n : walk mask (NextIndex i mask) n = walk mask i (S n).
Proof. unfold walk. by rewrite Nat.iter_succ_r. Qed.

Lemma NextIndex_mod k i : 0 <= k -> NextIndex i (2 ^ k - 1) = (5 * i + 1) mod 2 ^ k.
Proof.
  intros Hk. unfold NextIndex. replace (2 ^ k - 1) with (Z.ones k) by (rewrite Z.ones_equiv; lia).
  rewrite Z.land_ones by lia. f_equal. lia.
Qed.

(** [2 ^ k] steps are an affine map whose slope is 1 modulo [2 ^ (k + 2)] and
    whose offset is an odd multiple of [2 ^ k]. *)
Lemma free_walk_affine (k : nat) :
  exists c d, forall x, free_walk x (2 ^ k) =
    (1 + 2 ^ Z.of_nat (k + 2) * c) * x + 2 ^ Z.of_nat k * (1 + 2 * d).
Proof.
  induction k as [|k (c & d & IH)].
  - exists 1, 0. intros x. unfold free_walk. simpl. lia.
  - set (p := 2 ^ Z.of_nat k).
    assert (Hp2 : 2 ^ Z.of_nat (k + 2) = 4 * p).
    { unfold p. rewrite Nat2Z.inj_add, Z.pow_add_r by lia. lia. }
    assert (Hp3 : 2 ^ Z.of_nat (S k + 2) = 8 * p).
    { unfold p. replace (S k + 2)%nat with (k + 3)%nat by lia.
      rewrite Nat2Z.inj_add, Z.pow_add_r by lia. lia. }
    assert (Hp1 : 2 ^ Z.of_nat (S k) = 2 * p).
    { unfold p. rewrite Nat2Z.inj_succ, Z.pow_succ_r by lia. lia. }
    rewrite Hp2 in IH. rewrite Hp1, Hp3.
    exists (c + 2 * p * c * c), (d + p * c + 2 * p * c * d). intros x.
    replace (2 ^ S k)%nat with (2 ^ k + 2 ^ k)%nat by (simpl; lia).
    rewrite free_walk_add, !IH. fold p. ring.
Qed.

Lemma free_walk_half (k : nat) x :
  free_walk x (2 ^ k) mod 2 ^ Z.of_nat (S k) = (x + 2 ^ Z.of_nat k) mod 2 ^ Z.of_nat (S k).
Proof.
  destruct (free_walk_affine k) as (c & d & ->).
  assert (Hp : 2 ^ Z.of_nat (k + 2) = 2 * 2 ^ Z.of_nat (S k)).
  { rewrite <- Z.pow_succ_r by lia. f_equal. lia. }
  assert (Hq : 2 ^ Z.of_nat (S k) = 2 * 2 ^ Z.of_nat k).
  { rewrite Nat2Z.inj_succ, Z.pow_succ_r by lia. lia. }
  rewrite Hp. replace ((1 + 2 * 2 ^ Z.of_nat (S k) * c) * x + 2 ^ Z.of_nat k * (1 + 2 * d))
    with (x + 2 ^ Z.of_nat k + (2 * c * x + d) * 2 ^ Z.of_nat (S k)) by (rewrite Hq; ring).
  by rewrite Z.mod_add by lia.
Qed.

Lemma free_walk_covers (k : nat) x y :
  exists n, (n < 2 ^ k)%nat /\ free_walk x n mod 2 ^ Z.of_nat k = y mod 2 ^ Z.of_nat k.
Proof.
  revert x. induction k as [|k IH]; intros x.
  - exists 0%nat. split; [simpl; lia|]. by rewrite !Z.mod_1_r.
  - destruct (IH x) as (n & Hn & Hy). set (z := free_walk x n) in *.
    assert (Hq : 2 ^ Z.of_nat (S k) = 2 * 2 ^ Z.of_nat k).
    { rewrite Nat2Z.inj_succ, Z.pow_succ_r by lia. lia. }
    assert (Hp : 0 < 2 ^ Z.of_nat k) by (apply Z.pow_pos_nonneg; lia).
    destruct (decide (z mod 2 ^ Z.of_nat (S k) = y mod 2 ^ Z.of_nat (S k))) as [He|He].
    { exists n. split; [simpl; lia|done]. }
    exists (2 ^ k + n)%nat. split; [simpl; lia|].
    rewrite free_walk_add. fold z. rewrite free_walk_half.
    rewrite Hq in *. set (p := 2 ^ Z.of_nat k) in *.
    assert (Hz : exists a b r, z = p * a + r /\ y = p * b + r /\ 0 <= r < p).
    { exists (z / p), (y / p), (z mod p). pose proof (Z.mod_pos_bound z p Hp).
      split; [apply Z.div_mod; lia|]. split; [|lia]. rewrite Hy. apply Z.div_mod; lia. }
    destruct Hz as (a & b & r & -> & -> & Hr).
    assert (Hab : exists q, a + 1 = b + 2 * q).
    { assert (Hmod : forall u, (p * u + r) mod (2 * p) = p * (u mod 2) + r).
      { intros u. pose proof (Z.div_mod u 2 ltac:(lia)). pose proof (Z.mod_pos_bound u 2 ltac:(lia)).
        symmetry. apply Z.mod_unique with (u / 2); [left; nia|nia]. }
      rewrite !Hmod in He. pose proof (Z.mod_pos_bound a 2 ltac:(lia)).
      pose proof (Z.mod_pos_bound b 2 ltac:(lia)).
      assert (a mod 2 <> b mod 2) by congruence.
      exists ((a + 1 - b) / 2). pose proof (Z.div_mod a 2). pose proof (Z.div_mod b 2).
      pose proof (Z.div_mod (a + 1 - b) 2). pose proof (Z.mod_pos_bound (a + 1 - b) 2 ltac:(lia)).
      lia. }
    destruct Hab as [q Hq']. replace (p * a + r + p) with (p * b + r + q * (2 * p)) by nia.
    apply Z.mod_add. lia.
Qed.

Lemma walk_free_walk k i n :
  0 <= k -> 0 <= i < 2 ^ k -> walk (2 ^ k - 1) i n = free_walk i n mod 2 ^ k.
Proof.
  intros Hk Hi. induction n as [|n IH].
  - simpl. by rewrite Z.mod_small.
  - rewrite walk_succ, IH, NextIndex_mod by lia. change (free_walk i (S n)) with (5 * free_walk i n + 1).
    assert (0 < 2 ^ k) by lia.
    rewrite Z.add_mod, Z.mul_mod, Z.mod_mod, <- Z.mul_mod, <- Z.add_mod by lia. done.
Qed.

Lemma walk_range k i n : 0 <= k -> 0 <= i < 2 ^ k -> 0 <= walk (2 ^ k - 1) i n < 2 ^ k.
Proof. intros. rewrite walk_free_walk by lia. apply Z.mod_pos_bound. lia. Qed.

(** Every entry is visited within one round. *)
Lemma walk_covers k i j :
  0 <= k -> 0 <= i < 2 ^ k -> 0 <= j < 2 ^ k ->
  exists n, (n < Z.to_nat (2 ^ k))%nat /\ walk (2 ^ k - 1) i n = j.
Proof.
  intros Hk Hi Hj. destruct (free_walk_covers (Z.to_nat k) i j) as (n & Hn & He).
  rewrite Z2Nat.id in He by lia. exists n. split.
  - enough (Z.of_nat (2 ^ Z.to_nat k) = 2 ^ k) by lia. rewrite Nat2Z.inj_pow, Z2Nat.id by lia. done.
  - rewrite walk_free_walk, He by lia. by apply Z.mod_small.
Qed.
