(* ===== verification/HashTableSpec.v ===== *)
(** * HashTableSpec: the hash table implements a finite map

    The representation invariant of the table, the finite map it stands for,
    and the specification of the chain walk, of insertion and of the resize
    operation against it. *)

From stdpp Require Import gmap.
From S2P Require Import Prelude Runtime Digits Value IntConv HashTable.

(** ** Lawful keys *)

(** The keys a table is promised to work with: [key_id] gives the identity of a
    key, [AIsEq] decides equality of identities and the hash depends on the
    identity only; neither raises an exception. *)
Class LawfulKey (K I : Type) `{MapKey K} `{Countable I} := {
  valid_key : K -> Prop;
  key_id : K -> I;
  id_code : I -> Z;
  hash_law : forall k, valid_key k -> returns (hash_code k) (fun r => r = Some (id_code (key_id k)));
  eq_law : forall a b, valid_key a -> valid_key b ->
    returns (AIsEq a b) (fun r => r = bool_decide (key_id a = key_id b))
}.

(** ** Counting entries *)

Fixpoint countb {A} (P : A -> bool) (l : list A) : Z :=
  match l with
  | [] => 0
  | x :: l => Z.b2z (P x) + countb P l
  end.

Lemma countb_insert {A} (P : A -> bool) (l : list A) (i : nat) x y :
  l !! i = Some x -> countb P (<[i := y]> l) = countb P l - Z.b2z (P x) + Z.b2z (P y).
Proof.
  revert i. induction l as [|z l IH]; intros [|i] Hi; simplify_eq/=; [lia|]. rewrite IH by done. lia.
Qed.

Lemma countb_bounds {A} (P : A -> bool) l : 0 <= countb P l <= Z.of_nat (length l).
Proof. induction l as [|x l IH]; simpl; [lia|]. destruct (P x); simpl; lia. Qed.

Lemma countb_replicate {A} (P : A -> bool) n x : P x = false -> countb P (replicate n x) = 0.
Proof. intros Hx. induction n; simpl; rewrite ?Hx; simpl; lia. Qed.

Lemma countb_witness {A} (P : A -> bool) l :
  countb P l < Z.of_nat (length l) -> exists i x, l !! i = Some x /\ P x = false.
Proof.
  induction l as [|x l IH]; simpl; [lia|]. destruct (P x) eqn:Hx; simpl; intros Hl.
  - destruct IH as (i & y & ? & ?); [lia|]. by exists (S i), y.
  - by exists 0%nat, x.
Qed.

Lemma alter_insert {A} (f : A -> A) (i : nat) (l : list A) x : l !! i = Some x -> alter f i l = <[i := f x]> l.
Proof. revert i. induction l as [|y l IH]; intros [|i] Hi; simplify_eq/=; [done|]. by rewrite IH. Qed.

(** ** Entries of a table *)

Section spec.
Context {K V I : Type} `{LawfulKey K I} (EmptyMarker : V).
Implicit Types (a : list (mark K * V)) (m : table K V).

Definition used (e : mark K * V) : bool := match e.1 with Empty => false | _ => true end.
Definition removed (e : mark K * V) : bool := match e.1 with Removed => true | _ => false end.
Definition entry (e : mark K * V) : option (K * V) :=
  match e.1 with Item k => Some (k, e.2) | _ => None end.
Definition entries a : list (K * V) := omap entry a.

(** The bindings of a table as pairs of an identity and a value, and the
    finite map they make up. *)
Definition bindings a : list (I * V) := (fun e => (key_id e.1, e.2)) <$> entries a.
Definition table_map m : gmap I V := list_to_map (bindings (MAP_A m)).

Definition of_entry (e : mark K * V) : list (I * V) :=
  match e.1 with Item k => [(key_id k, e.2)] | _ => [] end.

Lemma bindings_app a b : bindings (a ++ b) = bindings a ++ bindings b.
Proof. unfold bindings, entries. by rewrite omap_app, fmap_app. Qed.

Lemma bindings_cons e a : bindings (e :: a) = of_entry e ++ bindings a.
Proof. unfold bindings, entries, of_entry, entry. destruct e as [[] v]; done. Qed.

(** Replacing an entry replaces its binding. *)
Lemma bindings_insert a i e :
  a !! i = Some e ->
  exists rest, bindings a ≡ₚ of_entry e ++ rest /\
    forall e', bindings (<[i := e']> a) ≡ₚ of_entry e' ++ rest.
Proof.
  intros Hi. exists (bindings (take i a) ++ bindings (drop (S i) a)).
  assert (Hswap : forall e', bindings (take i a ++ e' :: drop (S i) a) ≡ₚ
    of_entry e' ++ bindings (take i a) ++ bindings (drop (S i) a)).
  { intros e'. rewrite bindings_app, bindings_cons, !(assoc (++)).
    by rewrite (Permutation_app_comm (bindings _)). }
  split.
  - rewrite <- (take_drop_middle a i e Hi) at 1. apply Hswap.
  - intros e'. rewrite insert_take_drop by (by eapply lookup_lt_Some). apply Hswap.
Qed.

Lemma bindings_length a :
  Z.of_nat (length (bindings a)) = countb used a - countb removed a.
Proof.
  induction a as [|e a IH]; [done|]. rewrite bindings_cons, length_app.
  destruct e as [[] v]; simpl; lia.
Qed.

Lemma bindings_elem a i k v : a !! i = Some (Item k, v) -> (key_id k, v) ∈ bindings a.
Proof.
  intros Hi. destruct (bindings_insert a i _ Hi) as (rest & -> & _). simpl. left.
Qed.

Lemma elem_bindings a x v :
  (x, v) ∈ bindings a -> exists i k, a !! i = Some (Item k, v) /\ key_id k = x.
Proof.
  intros Hin. unfold bindings, entries in Hin. apply list_elem_of_fmap in Hin as ([k v'] & ? & Hin).
  apply list_elem_of_omap in Hin as ([c w] & Hin & Hc). apply list_elem_of_lookup in Hin as [i Hi].
  unfold entry in Hc. destruct c; simplify_eq/=. by exists i, k.
Qed.

(** ** The representation invariant *)

(** The start of the chain of a key, and the entries of a chain. *)
Definition chain (k : Z) (key : K) (n : nat) : Z :=
  walk (2 ^ k - 1) (Z.land (id_code (key_id key)) (2 ^ k - 1)) n.

Definition occupied a (p : Z) : Prop := exists e, a !! Z.to_nat p = Some e /\ used e = true.

(** A table of capacity [2 ^ k]: the counters are right, every key can be
    reached along its chain without crossing an empty entry, and no two keys
    are equal. *)
Record table_ok m (k : Z) : Prop := {
  tk_range : 2 <= k <= 30;
  tk_size : MAP_SIZE m = 2 ^ k;
  tk_array : Z.of_nat (length (MAP_A m)) = 2 ^ k;
  tk_len : MAP_LEN m = countb used (MAP_A m);
  tk_removed : MAP_NUM_REMOVED m = countb removed (MAP_A m);
  tk_valid : forall i key v, MAP_A m !! i = Some (Item key, v) -> valid_key key;
  tk_reach : forall i key v, MAP_A m !! i = Some (Item key, v) ->
    exists n, Z.of_nat i = chain k key n /\ forall j, (j < n)%nat -> occupied (MAP_A m) (chain k key j);
  tk_distinct : NoDup (bindings (MAP_A m)).*1
}.

(** The invariant of Map and Set objects between operations: less than two
    thirds of the entries are in use. *)
Definition map_ok m : Prop := exists k, table_ok m k /\ 3 * MAP_LEN m < 2 * 2 ^ k.

(** The number of items. *)
Definition map_length m : Z := MAP_LEN m - MAP_NUM_REMOVED m.

Lemma map_length_size m k : table_ok m k -> map_length m = Z.of_nat (size (table_map m)).
Proof.
  intros Hok. unfold map_length, table_map. rewrite (tk_len _ _ Hok), (tk_removed _ _ Hok).
  rewrite <- bindings_length. f_equal.
  rewrite <- (length_map_to_list (list_to_map _)).
  symmetry. rewrite map_to_list_to_map; [done|apply (tk_distinct _ _ Hok)].
Qed.

Lemma chain_start_range k key : 0 <= k -> 0 <= Z.land (id_code (key_id key)) (2 ^ k - 1) < 2 ^ k.
Proof.
  intros Hk. replace (2 ^ k - 1) with (Z.ones k) by (rewrite Z.ones_equiv; lia).
  rewrite Z.land_ones by lia. apply Z.mod_pos_bound. lia.
Qed.

Lemma chain_range k key n : 0 <= k -> 0 <= chain k key n < 2 ^ k.
Proof. intros. apply walk_range; [done|]. by apply chain_start_range. Qed.

Lemma chain_same k x y n : key_id x = key_id y -> chain k x n = chain k y n.
Proof. unfold chain. by intros ->. Qed.

(** A table with a free entry has one on the chain of every key. *)
Lemma chain_ends m k key :
  table_ok m k -> MAP_LEN m < 2 ^ k ->
  exists n v, (n < length (MAP_A m))%nat /\ MAP_A m !! Z.to_nat (chain k key n) = Some (Empty, v).
Proof.
  intros Hok Hlen. pose proof (tk_range _ _ Hok). pose proof (tk_array _ _ Hok) as Ha.
  destruct (countb_witness used (MAP_A m)) as (i & [c v] & Hi & Hu).
  { rewrite Ha, <- (tk_len _ _ Hok). done. }
  pose proof (lookup_lt_Some _ _ _ Hi).
  destruct (walk_covers k (Z.land (id_code (key_id key)) (2 ^ k - 1)) (Z.of_nat i))
    as (n & Hn & Hw); [lia|by apply chain_start_range; lia|lia|].
  exists n, v. split; [lia|]. unfold chain. rewrite Hw, Nat2Z.id, Hi.
  by destruct c.
Qed.

(** ** Walking a chain *)

(** What the walk for [key] finds. *)
Definition slot_spec (m : table K V) (k : Z) (key : K) (s : slot V) : Prop :=
  match s with
  | Found i v => exists key', 0 <= i /\ MAP_A m !! Z.to_nat i = Some (Item key', v) /\
      key_id key' = key_id key
  | Free i => (exists n v, i = chain k key n /\ MAP_A m !! Z.to_nat i = Some (Empty, v) /\
      forall j, (j < n)%nat -> occupied (MAP_A m) (chain k key j)) /\
      key_id key ∉ (bindings (MAP_A m)).*1
  end.

(** No key equal to [key] lies beyond the end of its chain. *)
Lemma chain_absent m k key n v :
  table_ok m k -> MAP_A m !! Z.to_nat (chain k key n) = Some (Empty, v) ->
  (forall j key' w, (j < n)%nat -> MAP_A m !! Z.to_nat (chain k key j) = Some (Item key', w) ->
    key_id key' <> key_id key) ->
  key_id key ∉ (bindings (MAP_A m)).*1.
Proof.
  intros Hok He Hne Hin. apply list_elem_of_fmap in Hin as ([x w] & Hx & Hin). simpl in Hx. subst x.
  destruct (elem_bindings _ _ _ Hin) as (i & key' & Hi & Hid).
  destruct (tk_reach _ _ Hok _ _ _ Hi) as (n' & Hn' & Hocc).
  setoid_rewrite (chain_same k key' key) in Hocc; [|done..].
  rewrite (chain_same k key' key) in Hn' by done.
  assert (Hi' : Z.to_nat (chain k key n') = i) by lia.
  destruct (lt_eq_lt_dec n' n) as [[Hlt|Heq]|Hgt].
  - by apply (Hne n' key' w Hlt); [rewrite Hi'|].
  - subst n'. rewrite Hi' in He. congruence.
  - destruct (Hocc n Hgt) as (e & Hl & Hu). rewrite He in Hl. by simplify_eq.
Qed.

Lemma AFixArrayItem_evals a i e :
  0 <= i -> a !! Z.to_nat i = Some e -> evals (AFixArrayItem a i) e.
Proof.
  intros Hi He. unfold AFixArrayItem. rewrite (proj2 (Z.leb_le 0 i) Hi), He. apply evals_ret.
Qed.

Lemma find_slot_steps m k key fuel n N v0 :
  table_ok m k -> valid_key key ->
  MAP_A m !! Z.to_nat (chain k key N) = Some (Empty, v0) -> (n <= N < n + fuel)%nat ->
  (forall j, (j < n)%nat -> occupied (MAP_A m) (chain k key j)) ->
  (forall j key' w, (j < n)%nat -> MAP_A m !! Z.to_nat (chain k key j) = Some (Item key', w) ->
    key_id key' <> key_id key) ->
  returns (find_slot fuel (MAP_A m) (2 ^ k - 1) key (chain k key n)) (slot_spec m k key).
Proof.
  intros Hok Hv HN. revert n. induction fuel as [|fuel IH]; intros n Hn Hocc Hne; [lia|].
  pose proof (tk_range _ _ Hok). pose proof (tk_array _ _ Hok) as Ha.
  pose proof (chain_range k key n ltac:(lia)) as Hr.
  destruct (lookup_lt_is_Some_2 (MAP_A m) (Z.to_nat (chain k key n))) as [[c w] He]; [lia|].
  cbn [find_slot]. eapply returns_bind_evals; [apply AFixArrayItem_evals; [lia|exact He]|].
  assert (Hnext : used (c, w) = true -> (forall key', c = Item key' -> key_id key' <> key_id key) ->
    returns (find_slot fuel (MAP_A m) (2 ^ k - 1) key (NextIndex (chain k key n) (2 ^ k - 1)))
      (slot_spec m k key)).
  { intros Hu Hc. unfold chain at 1. rewrite <- walk_succ. apply (IH (S n)).
    - assert (n <> N) by (intros ->; rewrite He in HN; by simplify_eq). lia.
    - intros j Hj. destruct (decide (j = n)) as [->|]; [by exists (c, w)|apply Hocc; lia].
    - intros j key' w' Hj. destruct (decide (j = n)) as [->|]; [|apply Hne; lia].
      rewrite He. intros [= -> ->]. by apply Hc. }
  destruct c as [| |key']; simpl.
  - apply returns_ret. split; [by exists n, w|]. by eapply chain_absent.
  - by apply Hnext.
  - eapply returns_bind; [apply eq_law; [by eapply tk_valid|done]|]. intros r ->.
    case_bool_decide as Hid; simpl.
    + apply returns_ret. exists key'. split; [lia|done].
    + apply Hnext; [done|]. by intros ? [= ->].
Qed.

Lemma locate_spec m k key :
  table_ok m k -> MAP_LEN m < 2 ^ k -> valid_key key ->
  sreturns (locate key) m (fun r m' => m' = m /\ exists s, r = Some s /\ slot_spec m k key s).
Proof.
  intros Hok Hlen Hv. unfold locate.
  eapply sreturns_lift_bind; [by apply hash_law|]. intros r ->.
  apply sspec_get_bind. rewrite (tk_size _ _ Hok).
  destruct (chain_ends m k key Hok Hlen) as (N & v & HN & He).
  eapply sspec_lift_bind.
  - apply (find_slot_steps m k key _ 0 N v); try done; try lia.
  - intros s Hs. apply sspec_ret. naive_solver.
Qed.

End spec.
