(* ===== verification/HashTableOps.v ===== *)
(** * HashTableOps: insertion, removal and resizing of the hash table

    Each operation of the table preserves the representation invariant and
    has the effect of the corresponding operation on finite maps. *)

From stdpp Require Import gmap.
From S2P Require Import Prelude Runtime Digits Value LongInt IntConv HashTable HashTableSpec.

Section ops.
Context {K V I : Type} `{LawfulKey K I} (EmptyMarker : V).
Implicit Types (a : list (mark K * V)) (m : table K V).

(** ** Replacing one entry *)

Lemma occupied_insert a i e p : used e = true -> occupied a p -> occupied (<[i := e]> a) p.
Proof.
  intros He (e' & Hl & Hu). destruct (decide (i = Z.to_nat p)) as [->|Hne].
  - exists e. rewrite list_lookup_insert_eq; [done|]. by eapply lookup_lt_Some.
  - exists e'. by rewrite list_lookup_insert_ne.
Qed.

(** The condition under which a key may be stored at an entry. *)
Definition storable a (k : Z) (i : nat) (e : mark K * V) : Prop :=
  forall key, e.1 = Item key -> valid_key key /\
    exists n, Z.of_nat i = chain k key n /\ forall j, (j < n)%nat -> occupied a (chain k key j).

Lemma replace_ok m k i e e' :
  table_ok m k -> MAP_A m !! i = Some e -> used e' = true ->
  storable (MAP_A m) k i e' -> NoDup (bindings (<[i := e']> (MAP_A m))).*1 ->
  table_ok (MkTable (<[i := e']> (MAP_A m)) (MAP_LEN m - Z.b2z (used e) + 1) (MAP_SIZE m)
    (MAP_NUM_REMOVED m - Z.b2z (removed e) + Z.b2z (removed e'))) k.
Proof.
  intros Hok Hi Hu Hst Hnd. pose proof (lookup_lt_Some _ _ _ Hi).
  assert (Hcell : forall j key v, <[i := e']> (MAP_A m) !! j = Some (Item key, v) ->
    j = i /\ e' = (Item key, v) \/ MAP_A m !! j = Some (Item key, v)).
  { intros j key v Hj. apply list_lookup_insert_Some in Hj as [(-> & -> & ?)|[? ?]]; auto. }
  split; simpl; try apply Hok; try done.
  - rewrite length_insert. apply Hok.
  - rewrite (countb_insert _ _ _ e), Hu, (tk_len _ _ Hok) by done. simpl. lia.
  - rewrite (countb_insert _ _ _ e), (tk_removed _ _ Hok) by done. lia.
  - intros j key v Hj. destruct (Hcell _ _ _ Hj) as [[-> ->]|Hj'].
    + by apply Hst.
    + by eapply tk_valid.
  - intros j key v Hj. assert (Hex : exists n, Z.of_nat j = chain k key n /\
      forall j, (j < n)%nat -> occupied (MAP_A m) (chain k key j)).
    { destruct (Hcell _ _ _ Hj) as [[-> ->]|Hj']; [by apply Hst|by eapply tk_reach]. }
    destruct Hex as (n & Hn & Hocc). exists n. split; [done|]. intros. by apply occupied_insert, Hocc.
Qed.

Lemma item_storable m k i key v w : table_ok m k -> MAP_A m !! i = Some (Item key, v) ->
  storable (MAP_A m) k i (Item key, w).
Proof.
  intros Hok Hi key' [= <-]. split; [by eapply tk_valid|by eapply tk_reach].
Qed.

Lemma table_map_perm a l :
  NoDup l.*1 -> bindings a ≡ₚ l -> list_to_map (bindings a) =@{gmap I V} list_to_map l.
Proof. intros Hnd Hp. apply list_to_map_proper; [|done]. by rewrite Hp. Qed.

(** Storing a value under a key that is present. *)
Lemma update_ok m k i key v w :
  table_ok m k -> MAP_A m !! i = Some (Item key, v) ->
  let m' := MkTable (<[i := (Item key, w)]> (MAP_A m)) (MAP_LEN m) (MAP_SIZE m) (MAP_NUM_REMOVED m) in
  table_ok m' k /\ table_map m' = <[key_id key := w]> (table_map m).
Proof.
  intros Hok Hi. destruct (bindings_insert (MAP_A m) i _ Hi) as (rest & Hp & Hp').
  specialize (Hp' (Item key, w)). simpl in Hp, Hp'.
  pose proof (tk_distinct _ _ Hok) as Hnd. rewrite Hp in Hnd.
  assert (Hnd' : NoDup ((key_id key, w) :: rest).*1) by done.
  split.
  - pose proof (replace_ok m k i _ (Item key, w) Hok Hi eq_refl) as Hr. simpl in Hr.
    replace (MAP_LEN m - 1 + 1) with (MAP_LEN m) in Hr by lia.
    replace (MAP_NUM_REMOVED m - 0 + 0) with (MAP_NUM_REMOVED m) in Hr by lia. apply Hr.
    + by eapply item_storable.
    + by rewrite Hp'.
  - unfold table_map. simpl. rewrite (table_map_perm _ _ Hnd' Hp'), (table_map_perm (MAP_A m) _ ltac:(exact Hnd) Hp). simpl.
    by rewrite insert_insert_eq.
Qed.

(** Storing a key that is absent in the empty entry at the end of its chain. *)
Lemma insert_ok m k key n v w :
  table_ok m k -> valid_key key -> MAP_A m !! Z.to_nat (chain k key n) = Some (Empty, v) ->
  (forall j, (j < n)%nat -> occupied (MAP_A m) (chain k key j)) ->
  key_id key ∉ (bindings (MAP_A m)).*1 ->
  let m' := MkTable (<[Z.to_nat (chain k key n) := (Item key, w)]> (MAP_A m)) (MAP_LEN m + 1)
    (MAP_SIZE m) (MAP_NUM_REMOVED m) in
  table_ok m' k /\ table_map m' = <[key_id key := w]> (table_map m).
Proof.
  intros Hok Hv Hi Hocc Hnew. destruct (bindings_insert (MAP_A m) _ _ Hi) as (rest & Hp & Hp').
  specialize (Hp' (Item key, w)). simpl in Hp, Hp'.
  pose proof (tk_distinct _ _ Hok) as Hnd. rewrite Hp in Hnd, Hnew.
  assert (Hnd' : NoDup ((key_id key, w) :: rest).*1) by (by constructor).
  pose proof (chain_range k key n ltac:(pose proof (tk_range _ _ Hok); lia)).
  split.
  - pose proof (replace_ok m k _ _ (Item key, w) Hok Hi eq_refl) as Hr. simpl in Hr.
    replace (MAP_LEN m - 0 + 1) with (MAP_LEN m + 1) in Hr by lia.
    replace (MAP_NUM_REMOVED m - 0 + 0) with (MAP_NUM_REMOVED m) in Hr by lia. apply Hr.
    + intros key' [= <-]. split; [done|]. exists n. split; [lia|done].
    + by rewrite Hp'.
  - unfold table_map. simpl. rewrite (table_map_perm _ _ Hnd' Hp'), (table_map_perm (MAP_A m) _ ltac:(exact Hnd) Hp). done.
Qed.

(** Marking the entry of a key as removed. *)
Lemma remove_ok m k i key v :
  table_ok m k -> MAP_A m !! i = Some (Item key, v) ->
  let m' := MkTable (<[i := (Removed, v)]> (MAP_A m)) (MAP_LEN m) (MAP_SIZE m)
    (MAP_NUM_REMOVED m + 1) in
  table_ok m' k /\ table_map m' = delete (key_id key) (table_map m).
Proof.
  intros Hok Hi. destruct (bindings_insert (MAP_A m) _ _ Hi) as (rest & Hp & Hp').
  specialize (Hp' (Removed, v)). simpl in Hp, Hp'.
  pose proof (tk_distinct _ _ Hok) as Hnd. rewrite Hp in Hnd.
  destruct (proj1 (list.NoDup_cons _ _) Hnd) as [Hni Hnd'].
  split.
  - pose proof (replace_ok m k i _ (Removed, v) Hok Hi eq_refl) as Hr. simpl in Hr.
    replace (MAP_LEN m - 1 + 1) with (MAP_LEN m) in Hr by lia.
    replace (MAP_NUM_REMOVED m - 0 + 1) with (MAP_NUM_REMOVED m + 1) in Hr by lia. apply Hr.
    + by intros ? [=].
    + by rewrite Hp'.
  - unfold table_map. simpl. rewrite (table_map_perm _ _ Hnd' Hp'), (table_map_perm (MAP_A m) _ ltac:(exact Hnd) Hp). simpl.
    rewrite delete_insert_id; [done|]. by apply not_elem_of_list_to_map_1.
Qed.

(** A lookup that ends at a free entry or at an item. *)
Lemma table_map_free m k key i :
  slot_spec m k key (Free i) -> table_map m !! key_id key = None.
Proof. intros [_ Hni]. by apply not_elem_of_list_to_map_1. Qed.

Lemma table_map_found m k key i v :
  table_ok m k -> slot_spec m k key (Found i v) -> table_map m !! key_id key = Some v.
Proof.
  intros Hok (key' & _ & Hi & <-). apply elem_of_list_to_map_1; [apply Hok|].
  by eapply bindings_elem.
Qed.

(** ** Insertion *)

(** The store of a cell of an entry. *)
Lemma set_entry_spec (c : SM (table K V) unit) f i m e :
  c = (lift barrier ≫= (fun _ => set_entry i f)) -> MAP_A m !! Z.to_nat i = Some e ->
  sreturns c m (fun _ m' => m' = MkTable (<[Z.to_nat i := f e]> (MAP_A m)) (MAP_LEN m) (MAP_SIZE m)
    (MAP_NUM_REMOVED m)).
Proof.
  intros -> He. eapply sreturns_lift_bind; [apply barrier_spec|]. intros _ _ t.
  split; [done|]. left. simpl. by rewrite (alter_insert _ _ _ e).
Qed.

(** The state after the insertion of a key, before the load is checked. *)
Definition inserted m (k : Z) (key : K) (v : V) m' : Prop :=
  table_ok m' k /\ table_map m' = <[key_id key := v]> (table_map m) /\
  MAP_NUM_REMOVED m' = MAP_NUM_REMOVED m /\ MAP_LEN m <= MAP_LEN m' <= MAP_LEN m + 1.

Lemma set_with_gen resize m k key v Q :
  table_ok m k -> 3 * MAP_LEN m < 2 * 2 ^ k -> valid_key key ->
  (forall m', inserted m k key v m' -> 3 * MAP_LEN m' < 2 * 2 ^ k -> Q m') ->
  (forall m', inserted m k key v m' -> 2 * 2 ^ k <= 3 * MAP_LEN m' ->
    sreturns resize m' (fun _ => Q)) ->
  sreturns (set_with resize key v) m (fun r m' => r = Some tt /\ Q m').
Proof.
  intros Hok Hload Hv HQ Hres. unfold set_with. apply sspec_get_bind.
  pose proof (tk_size _ _ Hok) as Hsize. pose proof (tk_range _ _ Hok).
  pose proof (countb_bounds used (MAP_A m)). pose proof (tk_len _ _ Hok).
  eapply sspec_bind; [apply (locate_spec m k key Hok); [lia|done]|].
  intros r m1 [-> (s & -> & Hs)]. destruct s as [i v'|i].
  - destruct Hs as (key' & Hi0 & Hi & Hid).
    eapply sspec_bind; [by eapply (set_entry_spec (set_value i v))|]. intros _ m' ->. simpl.
    apply sspec_ret. split; [done|].
    destruct (update_ok m k _ _ _ v Hok Hi) as [Hok' Hm'].
    apply HQ; [|simpl; lia]. split; [exact Hok'|]. split; [by rewrite Hm', Hid|]. simpl. lia.
  - destruct Hs as [(n & v0 & -> & Hi & Hocc) Hni].
    pose proof (lookup_lt_Some _ _ _ Hi) as Hlt.
    eapply sspec_bind; [by eapply (set_entry_spec (set_key _ (Item key)))|]. intros _ m' ->. simpl.
    eapply sspec_bind.
    { eapply (set_entry_spec (set_value _ v)); [done|]. simpl. by rewrite list_lookup_insert_eq. }
    intros _ m' ->. simpl. apply sspec_modify_bind. simpl. rewrite list_insert_insert_eq.
    destruct (insert_ok m k key n v0 v Hok Hv Hi Hocc Hni) as [Hok' Hm'].
    apply sspec_get_bind. cbn [MAP_LEN]. rewrite Hsize in *.
    match goal with |- context [sspec _ ?st _] => set (m2 := st) in * end.
    assert (Hins : inserted m k key v m2) by (split; [exact Hok'|]; split; [exact Hm'|]; simpl; lia).
    destruct (_ >=? _) eqn:Hc.
    + eapply sspec_bind; [apply (Hres m2); [done|simpl; lia]|]. intros u m3 HQ3. by apply sspec_ret.
    + apply sspec_ret. split; [done|]. apply HQ; [done|]. simpl. lia.
Qed.

(** ** Resizing *)

Lemma fresh_ok k : 2 <= k <= 30 ->
  let m := MkTable (replicate (Z.to_nat (2 ^ k)) (Empty, EmptyMarker)) 0 (2 ^ k) 0 in
  table_ok m k /\ table_map m = ∅.
Proof.
  intros Hk. assert (Hb : bindings (replicate (Z.to_nat (2 ^ k)) (Empty (K := K), EmptyMarker)) = []).
  { induction (Z.to_nat (2 ^ k)); [done|]. simpl. by rewrite bindings_cons. }
  split; [split|]; simpl.
  - done.
  - done.
  - rewrite length_replicate. pose proof (Z.pow_pos_nonneg 2 k). lia.
  - by rewrite countb_replicate.
  - by rewrite countb_replicate.
  - intros i key v [[=] _]%lookup_replicate.
  - intros i key v [[=] _]%lookup_replicate.
  - rewrite Hb. constructor.
  - unfold table_map. simpl. by rewrite Hb.
Qed.

(** The new capacity is a power of two that keeps the load below two thirds. *)
Lemma new_size_pow n k :
  2 <= k <= 30 -> 0 <= n -> 3 * n < 2 * 2 ^ k + 3 -> 3 * n <= 2 ^ 30 ->
  exists k', 2 <= k' <= 30 /\ new_size n (2 ^ k) = 2 ^ k' /\ 3 * n < 2 * 2 ^ k'.
Proof.
  intros Hk Hn Hload Hbound. unfold new_size.
  assert (Hk1 : 2 ^ (k + 1) = 2 * 2 ^ k) by (rewrite Z.pow_add_r by lia; lia).
  assert (Hk0 : 2 ^ k = 2 * 2 ^ (k - 1)).
  { rewrite <- Z.pow_succ_r by lia. f_equal. lia. }
  assert (H4 : 4 <= 2 ^ k) by (change 4 with (2 ^ 2); apply Z.pow_le_mono_r; lia).
  destruct (n * 3 >? 2 ^ k) eqn:E1.
  - exists (k + 1). split; [|lia]. destruct (decide (k = 30)) as [->|]; lia.
  - destruct (n * 6 <=? 2 ^ k) eqn:E2; [|exists k; lia].
    rewrite Z.quot_div_nonneg by lia.
    replace (2 ^ k / 2) with (2 ^ (k - 1)) by (rewrite Hk0, Z.mul_comm, Z.div_mul; lia).
    unfold INITIAL_MAP_CAPACITY. destruct (decide (k = 2)) as [->|].
    + exists 2. simpl. lia.
    + assert (4 <= 2 ^ (k - 1)) by (change 4 with (2 ^ 2); apply Z.pow_le_mono_r; lia).
      exists (k - 1). lia.
Qed.

(** What the resize operation asks of the insertion it calls: a key that is
    absent is inserted with its value, passed through [g]. *)
Definition reinserts (g : V -> V) (ri : K -> V -> SM (table K V) (option unit)) : Prop :=
  forall m k key v, table_ok m k -> 3 * (MAP_LEN m + 1) < 2 * 2 ^ k -> valid_key key ->
    sreturns (ri key v) m (fun _ m' => inserted m k key (g v) m').

(** The state of the loop over the old array [a] after [i] entries. *)
Definition resizing (g : V -> V) a (k : Z) (i : Z) m : Prop :=
  let l := bindings (take (Z.to_nat i) a) in
  table_ok m k /\ MAP_NUM_REMOVED m = 0 /\ table_map m = g <$> list_to_map l /\
  MAP_LEN m <= Z.of_nat (length l).

Lemma bindings_take_S a i e : a !! i = Some e ->
  bindings (take (S i) a) = bindings (take i a) ++ of_entry e.
Proof.
  intros He. rewrite (take_S_r _ _ _ He), bindings_app, bindings_cons.
  change (bindings []) with (@nil (I * V)). by rewrite app_nil_r.
Qed.

Lemma bindings_prefix a i e : NoDup (bindings a).*1 -> a !! i = Some e ->
  NoDup (bindings (take i a) ++ of_entry e).*1 /\
  (length (bindings (take i a)) + length (of_entry e) <= length (bindings a))%nat.
Proof.
  intros Hnd He. rewrite <- (bindings_take_S _ _ _ He).
  pose proof (bindings_app (take (S i) a) (drop (S i) a)) as Hsplit. rewrite take_drop in Hsplit.
  split.
  - rewrite Hsplit, fmap_app in Hnd. by apply list.NoDup_app in Hnd as [? _].
  - rewrite <- length_app, <- (bindings_take_S _ _ _ He), Hsplit, (length_app (bindings (take (S i) a))).
    lia.
Qed.

Lemma resize_step g ri m0 k0 k i m :
  reinserts g ri -> table_ok m0 k0 -> 3 * map_length m0 < 2 * 2 ^ k -> 0 <= i < 2 ^ k0 ->
  resizing g (MAP_A m0) k i m ->
  sreturns (e ← lift (AFixArrayItem (MAP_A m0) i);
    match e.1 with Item key => ri key e.2 ≫= (fun _ => mret tt) | _ => mret tt end) m
    (fun _ => resizing g (MAP_A m0) k (i + 1)).
Proof.
  intros Hri Hok0 Hload Hi (Hok & Hr & Hm & Hlen). pose proof (tk_array _ _ Hok0) as Ha.
  destruct (lookup_lt_is_Some_2 (MAP_A m0) (Z.to_nat i)) as [e He]; [lia|].
  eapply sreturns_lift_bind.
  { eapply (evals_returns _ e (fun e' => e' = e)); [|done]. apply AFixArrayItem_evals; [lia|done]. }
  intros ? ->. unfold resizing. cbv zeta. replace (Z.to_nat (i + 1)) with (S (Z.to_nat i)) by lia.
  rewrite (bindings_take_S _ _ _ He).
  destruct (bindings_prefix _ _ _ (tk_distinct _ _ Hok0) He) as [Hnd Hcount].
  destruct e as [c v]. destruct c as [| |key]; cbn [fst of_entry];
    [apply sreturns_ret; cbn [of_entry fst]; rewrite app_nil_r; done..|].
  simpl in Hcount.
  assert (Hitems : Z.of_nat (length (bindings (MAP_A m0))) = map_length m0).
  { unfold map_length. by rewrite bindings_length, (tk_len _ _ Hok0), (tk_removed _ _ Hok0). }
  eapply sreturns_bind.
  { apply (Hri m k key v Hok); [lia|]. exact (tk_valid _ _ Hok0 _ _ _ He). }
  intros r m' (Hok' & Hm' & Hr' & Hlen'). apply sreturns_ret.
  split; [done|]. split; [lia|]. split.
  - rewrite Hm', Hm. unfold of_entry. cbn [fst snd].
    rewrite fmap_app in Hnd. apply list.NoDup_app in Hnd as (_ & Hdis & _).
    rewrite (list_to_map_snoc (M := gmap I)).
    + by rewrite fmap_insert.
    + intros Hin. apply (Hdis _ Hin). simpl. left.
  - rewrite length_app. simpl. lia.
Qed.

Lemma resize_with_spec g ri m k :
  reinserts g ri -> table_ok m k -> 3 * MAP_LEN m < 2 * 2 ^ k + 3 -> 3 * map_length m <= 2 ^ 30 ->
  sreturns (resize_with EmptyMarker ri) m (fun _ m' => map_ok m' /\ table_map m' = g <$> table_map m).
Proof.
  intros Hri Hok Hload Hbound. unfold resize_with. apply sspec_get_bind.
  pose proof (tk_range _ _ Hok) as Hk. pose proof (tk_size _ _ Hok) as Hsize.
  pose proof (map_length_size _ _ Hok) as Hml.
  assert (Hrem : 0 <= MAP_NUM_REMOVED m).
  { rewrite (tk_removed _ _ Hok). apply countb_bounds. }
  assert (Hpow : 4 <= 2 ^ k <= 2 ^ 30).
  { split; [change 4 with (2 ^ 2)|]; apply Z.pow_le_mono_r; lia. }
  eapply sspec_lift_bind; [apply AAllocTempStack_spec|]. intros _ _. rewrite Hsize.
  apply (sspec_lift_bind _ _ _ (fun z => z = 2 ^ k)).
  { eapply spec_mono; [apply (AGetInt_spec _ (2 ^ k))|].
    - split; [done|]. unfold short_range, A_SHORT_INT_MIN, A_SHORT_INT_MAX. lia.
    - intros r ->. by replace (_ && _) with true by lia. }
  intros ? ->. fold (map_length m).
  destruct (new_size_pow (map_length m) k Hk) as (k' & Hk' & -> & Hload');
    [lia|unfold map_length in *; lia|done|].
  assert (Hpow' : 4 <= 2 ^ k' <= 2 ^ 30).
  { split; [change 4 with (2 ^ 2)|]; apply Z.pow_le_mono_r; lia. }
  replace (2 ^ k' >? A_SHORT_INT_MAX) with false by (unfold A_SHORT_INT_MAX; lia).
  eapply sspec_bind; [by apply (sreturns_ret tt _ (fun _ m' => m' = m))|]. intros _ ? ->.
  apply sspec_modify_bind. simpl.
  eapply sspec_lift_bind.
  { eapply returns_bind; [apply AAlloc_spec|]. intros _ _.
    by apply (returns_ret _ (fun a => a = replicate (Z.to_nat (2 ^ k')) (Empty, EmptyMarker))). }
  intros ? ->. apply sspec_modify_bind. simpl.
  rewrite (s32_small (2 ^ k')) by lia.
  destruct (fresh_ok k' Hk') as [Hf Hfm].
  eapply sreturns_mono.
  - apply (sfor_inv (resizing g (MAP_A m) k')).
    + split; [exact Hf|]. split; [done|]. split; [|done].
      rewrite Hfm. simpl. by rewrite fmap_empty.
    + intros j m1 Hj Hinv. apply (resize_step g ri m k k' j m1); try done. lia.
  - intros _ m' (Hok' & _ & Hm' & Hlen').
    rewrite firstn_all2 in Hm', Hlen' by (pose proof (tk_array _ _ Hok); lia).
    split; [|exact Hm']. exists k'. split; [done|]. rewrite bindings_length in Hlen'.
    rewrite <- (tk_len _ _ Hok), <- (tk_removed _ _ Hok) in Hlen'. unfold map_length in *. lia.
Qed.

End ops.
