(* ===== verification/MapObject.v ===== *)
(** * MapObject: std::Map objects

    The methods of [std_map.c] on the hash table, and their refinement of the
    operations of finite maps. *)

From stdpp Require Import gmap.
From S2P Require Import Prelude Runtime Digits Value LongInt IntConv HashTable HashTableSpec.
From S2P Require Import HashTableOps.

(** The state of a Map iterator: an index into the array cells (entry [i] of
    the table is at cell [2 * i]), their number, and the array. *)
Record iter (K V : Type) := MkIter {
  ITER_I : Z;
  ITER_LEN : Z;
  ITER_A : list (mark K * V)
}.
Arguments MkIter {K V} _ _ _.
Arguments ITER_I {K V} _.
Arguments ITER_LEN {K V} _.
Arguments ITER_A {K V} _.

Section map.
Context {K V : Type} `{MapKey K} (EmptyMarker : V).

(** [AMap_set(t, frame)], with a bound on the nesting of resizes: inserting
    the items again after a resize does not resize again. *)
Fixpoint AMap_set (depth : nat) (k : K) (v : V) : SM (table K V) (option unit) :=
  match depth with
  | O => lift fault
  | S d => set_with (resize_with EmptyMarker (AMap_set d)) k v
  end.

Definition ResizeMap (depth : nat) : SM (table K V) unit := resize_with EmptyMarker (AMap_set depth).

Definition AMapInitialize : SM (table K V) unit := initialize EmptyMarker.

(** [AMapCreate]: an item that is not a Pair is [None]; the result of
    [AMap_set] is ignored. *)
Fixpoint create_items (items : list (option (K * V))) : SM (table K V) unit :=
  match items with
  | [] => mret tt
  | None :: _ => lift (raise ETypeError)
  | Some (k, v) :: items => AMap_set 2 k v ≫= (fun _ => create_items items)
  end.

Definition AMapCreate (items : list (option (K * V))) : SM (table K V) unit :=
  AMapInitialize ≫= (fun _ => create_items items).

Definition AMap_get (k : K) : SM (table K V) (option V) := MapLookup k None.
Definition AMapGet (k : K) (def : V) : SM (table K V) (option V) := MapLookup k (Some def).

Definition AMapHasKey (k : K) : SM (table K V) (option bool) :=
  s ← locate k;
  mret (match s with
  | None => None
  | Some (Found _ _) => Some true
  | Some (Free _) => Some false
  end).

Definition AMapLength : SM (table K V) Z := m ← get; mret (MAP_LEN m - MAP_NUM_REMOVED m).

(** The entry of a removed key is marked; its value stays in its cell. *)
Definition mark_removed (i : Z) : SM (table K V) unit :=
  set_key i Removed ≫= (fun _ =>
  modify (fun m => MkTable (MAP_A m) (MAP_LEN m) (MAP_SIZE m) (MAP_NUM_REMOVED m + 1))).

Definition AMapRemove (k : K) : SM (table K V) (option unit) :=
  s ← locate k;
  match s with
  | None => mret None
  | Some (Found i _) => mark_removed i ≫= (fun _ => mret (Some tt))
  | Some (Free _) => lift (raise EKeyError)
  end.

(** The loop of [items], [keys] and [values]: the items of the table are
    written one after the other to an array of as many cells as the map has
    items, which are nil at first. *)
Definition collect {X} (step : M unit) (f : K -> V -> X) (m : table K V) : M (list (option X)) :=
  AAlloc (8 * (MAP_LEN m - MAP_NUM_REMOVED m)) ≫= (fun _ =>
  '(dst, _) ← for_up 0 (MAP_SIZE m) (fun i '(dst, j) =>
    e ← AFixArrayItem (MAP_A m) i;
    match e.1 with
    | Item k =>
      step ≫= (fun _ =>
      if (j <? length dst)%nat then mret (<[j := Some (f k e.2)]> dst, S j) else fault)
    | _ => mret (dst, j)
    end) (replicate (Z.to_nat (MAP_LEN m - MAP_NUM_REMOVED m)) None, 0%nat);
  mret dst).

Definition AMapItems : SM (table K V) (list (option (K * V))) :=
  m ← get; lift (collect (AAlloc 24 ≫= (fun _ => barrier)) pair m).
Definition AMapKeys : SM (table K V) (list (option K)) := m ← get; lift (collect (mret tt) (fun k _ => k) m).
Definition AMapValues : SM (table K V) (list (option V)) := m ← get; lift (collect (mret tt) (fun _ v => v) m).

(** ** Iterators *)

Definition AMapIter : SM (table K V) (iter K V) :=
  m ← get; mret (MkIter 0 (2 * zlen (MAP_A m)) (MAP_A m)).

(** The search for the next item from cell [i] (an even number). *)
Fixpoint next_item (fuel : nat) (a : list (mark K * V)) (i n : Z) : M Z :=
  match fuel with
  | O => fault
  | S fuel =>
    if i <? n - 1 then
      e ← AFixArrayItem a (i ÷ 2);
      match e.1 with
      | Item _ => mret i
      | _ => next_item fuel a (i + 2) n
      end
    else mret i
  end.

Definition AMapIterHasNext : SM (iter K V) bool :=
  it ← get;
  i ← lift (next_item (S (length (ITER_A it))) (ITER_A it) (ITER_I it) (ITER_LEN it));
  if i <? ITER_LEN it - 1 then
    modify (fun it => MkIter i (ITER_LEN it) (ITER_A it)) ≫= (fun _ => mret true)
  else mret false.

Definition AMapIterNext : SM (iter K V) (K * V) :=
  it ← get;
  i ← lift (next_item (S (length (ITER_A it))) (ITER_A it) (ITER_I it) (ITER_LEN it));
  if i <? ITER_LEN it - 1 then
    lift (AAlloc 24) ≫= (fun _ =>
    e ← lift (AFixArrayItem (ITER_A it) (i ÷ 2));
    modify (fun it => MkIter (i + 2) (ITER_LEN it) (ITER_A it)) ≫= (fun _ =>
    match e.1 with Item k => mret (k, e.2) | _ => lift fault end))
  else lift (raise EValueError).

End map.

(** ** Refinement of finite maps *)

Section refinement.
Context {K V I : Type} `{LawfulKey K I} (EmptyMarker : V).
Implicit Types m : table K V.

Lemma AMap_set_reinserts d : reinserts id (AMap_set EmptyMarker (S d)).
Proof.
  intros m k key v Hok Hload Hv. simpl. eapply sreturns_mono.
  - apply (set_with_gen _ m k key v (inserted m k key v)); try done; [lia|].
    intros m' (_ & _ & _ & Hl) Hc. lia.
  - by intros r m' [_ ?].
Qed.

Lemma AMap_set_spec d m k v :
  map_ok m -> valid_key k -> 3 * (map_length m + 1) <= 2 ^ 30 ->
  sreturns (AMap_set EmptyMarker (S (S d)) k v) m (fun r m' =>
    r = Some tt /\ map_ok m' /\ table_map m' = <[key_id k := v]> (table_map m)).
Proof.
  intros (p & Hok & Hload) Hv Hbound.
  apply (set_with_gen _ m p k v (fun m' => map_ok m' /\ table_map m' = <[key_id k := v]> (table_map m)));
    try done.
  - intros m' (Hok' & Hm' & _) Hload'. split; [by exists p|done].
  - intros m' (Hok' & Hm' & Hr & Hl) Hc. eapply sreturns_mono.
    + apply (resize_with_spec _ id _ _ p (AMap_set_reinserts d) Hok'); [lia|].
      unfold map_length in *. lia.
    + intros u m'' [Hok'' Hm'']. split; [done|]. by rewrite Hm'', map_fmap_id.
Qed.

Lemma map_ok_locate m k :
  map_ok m -> valid_key k ->
  exists p, table_ok m p /\ sreturns (locate k) m (fun r m' =>
    m' = m /\ exists s, r = Some s /\ slot_spec m p k s).
Proof.
  intros (p & Hok & Hload) Hv. exists p. split; [done|]. apply locate_spec; try done.
  pose proof (tk_range _ _ Hok). pose proof (Z.pow_pos_nonneg 2 p). lia.
Qed.

(** Lookup, with or without a default. *)
Lemma MapLookup_spec m k def :
  map_ok m -> valid_key k ->
  sspec (MapLookup k def) m (fun r m' => m' = m /\
    r = match table_map m !! key_id k, def with
        | Some v, _ => Ok (Some v)
        | None, Some d => Ok (Some d)
        | None, None => Raise EKeyError
        end).
Proof.
  intros Hm Hv. destruct (map_ok_locate m k Hm Hv) as (p & Hok & Hl).
  eapply sspec_bind; [exact Hl|]. intros r m' (-> & s & -> & Hs). destruct s as [i v|i].
  - rewrite (table_map_found m p k i v Hok Hs). by apply sspec_ret.
  - rewrite (table_map_free m p k i Hs). destruct def as [d|]; [by apply sspec_ret|].
    eapply sspec_mono; [apply sraises_lift|]. by intros r m' [-> ->].
Qed.

Lemma AMapHasKey_spec m k :
  map_ok m -> valid_key k ->
  sreturns (AMapHasKey k) m (fun r m' => m' = m /\
    r = Some (bool_decide (is_Some (table_map m !! key_id k)))).
Proof.
  intros Hm Hv. destruct (map_ok_locate m k Hm Hv) as (p & Hok & Hl).
  eapply sspec_bind; [exact Hl|]. intros r m' (-> & s & -> & Hs). apply sspec_ret.
  split; [done|]. destruct s as [i v|i].
  - rewrite (table_map_found m p k i v Hok Hs). by rewrite bool_decide_true by eauto.
  - rewrite (table_map_free m p k i Hs). rewrite bool_decide_false; [done|]. by intros [? ?].
Qed.

Lemma AMapLength_spec m :
  map_ok m -> sreturns AMapLength m (fun r m' => m' = m /\ r = Z.of_nat (size (table_map m))).
Proof.
  intros (p & Hok & _). apply sspec_get_bind, sspec_ret. split; [done|].
  apply (map_length_size _ _ Hok).
Qed.

(** Marking the entry that a walk has found. *)
Lemma mark_removed_spec m p k i v :
  table_ok m p -> 3 * MAP_LEN m < 2 * 2 ^ p -> slot_spec m p k (Found i v) ->
  sreturns (mark_removed i) m (fun _ m' =>
    map_ok m' /\ table_map m' = delete (key_id k) (table_map m)).
Proof.
  intros Hok Hload (key' & Hi0 & Hi & Hid).
  eapply sspec_bind; [by eapply (set_entry_spec (set_key i Removed))|]. intros u m' ->. simpl.
  intros t. split; [done|]. left. simpl.
  destruct (remove_ok m p _ _ _ Hok Hi) as [Hok' Hm']. rewrite Hid in Hm'.
  split; [|exact Hm']. exists p. split; [exact Hok'|done].
Qed.

Lemma AMapRemove_spec m k :
  map_ok m -> valid_key k ->
  sspec (AMapRemove k) m (fun r m' =>
    match table_map m !! key_id k with
    | Some _ => r = Ok (Some tt) /\ map_ok m' /\ table_map m' = delete (key_id k) (table_map m)
    | None => r = Raise EKeyError /\ m' = m
    end).
Proof.
  intros Hm Hv. destruct Hm as (p & Hok & Hload).
  eapply sspec_bind.
  { apply (locate_spec m p); try done. pose proof (tk_range _ _ Hok).
    pose proof (Z.pow_pos_nonneg 2 p). lia. }
  intros r m' (-> & s & -> & Hs). destruct s as [i v|i].
  - rewrite (table_map_found m p k i v Hok Hs).
    eapply sspec_bind; [by eapply mark_removed_spec|]. intros u m' Hm'. by apply sspec_ret.
  - rewrite (table_map_free m p k i Hs). apply sraises_lift.
Qed.

Lemma initialize_spec m :
  sreturns (initialize EmptyMarker) m (fun _ m' => map_ok m' /\ table_map m' = ∅).
Proof.
  apply sspec_modify_bind. eapply sspec_lift_bind.
  { eapply returns_bind; [apply AAlloc_spec|]. intros _ _.
    by apply (returns_ret _ (fun a => a = replicate 4 (Empty, EmptyMarker))). }
  intros ? -> t. split; [done|]. left. simpl.
  destruct (fresh_ok EmptyMarker 2 ltac:(lia)) as [Hok Hm]. split; [|exact Hm].
  exists 2. split; [exact Hok|]. simpl. lia.
Qed.

(** The pairs of a list stored one after the other. *)
Definition store_all (l : list (K * V)) (g : gmap I V) : gmap I V :=
  fold_left (fun g e => <[key_id e.1 := e.2]> g) l g.

Lemma create_items_spec l m :
  map_ok m -> Forall (fun e => valid_key e.1) l -> 3 * (map_length m + zlen l) <= 2 ^ 30 ->
  sreturns (create_items EmptyMarker (Some <$> l)) m (fun _ m' =>
    map_ok m' /\ table_map m' = store_all l (table_map m)).
Proof.
  intros Hm Hl. revert m Hm. induction Hl as [|[k v] l Hv Hl IH]; intros m Hm Hbound; simpl.
  { by apply sreturns_ret. }
  rewrite length_cons in Hbound.
  eapply sreturns_bind; [apply (AMap_set_spec 0 m k v Hm Hv); lia|].
  intros r m' (_ & Hm' & Heq). simpl. rewrite <- Heq. apply IH; [done|].
  destruct Hm as (p & Hok & _), Hm' as (p' & Hok' & _).
  rewrite (map_length_size _ _ Hok) in Hbound. rewrite (map_length_size _ _ Hok'), Heq.
  pose proof (map_size_insert_Some (M := gmap I) (A := V)).
  destruct (table_map m !! key_id k) eqn:E.
  - rewrite map_size_insert, E. simpl. lia.
  - rewrite map_size_insert, E. simpl. lia.
Qed.

Lemma AMapCreate_spec l m :
  Forall (fun e => valid_key e.1) l -> 3 * zlen l <= 2 ^ 30 ->
  sreturns (AMapCreate EmptyMarker (Some <$> l)) m (fun _ m' =>
    map_ok m' /\ table_map m' = store_all l ∅).
Proof.
  intros Hl Hbound. eapply sreturns_bind; [apply initialize_spec|]. intros u m' [Hm' He].
  eapply sreturns_mono.
  - apply create_items_spec; try done. destruct Hm' as (p & Hok & _).
    rewrite (map_length_size _ _ Hok), He, map_size_empty. lia.
  - intros r m'' [? ->]. by rewrite He.
Qed.

(** ** Listing the items *)

Lemma entries_take_S (a : list (mark K * V)) i e : a !! i = Some e ->
  entries (take (S i) a) = entries (take i a) ++ option_list (entry e).
Proof.
  intros He. unfold entries. rewrite (take_S_r _ _ _ He), omap_app. simpl.
  by destruct (entry e).
Qed.

Lemma entries_length (a : list (mark K * V)) :
  Z.of_nat (length (entries a)) = countb used a - countb removed a.
Proof.
  induction a as [|e a IH]; [done|]. 
  change (entries (e :: a)) with (match entry e with Some x => x :: entries a | None => entries a end).
  destruct e as [[] v]; simpl; lia.
Qed.

Lemma entries_prefix_length (a : list (mark K * V)) i : 
  (length (entries (take i a)) <= length (entries a))%nat.
Proof.
  rewrite <- (take_drop i a) at 2. unfold entries. rewrite omap_app, length_app. lia.
Qed.

Lemma collect_spec {X} step (f : K -> V -> X) m p :
  table_ok m p -> returns step (fun _ => True) ->
  returns (collect step f m) (fun l => l = (fun e => Some (f e.1 e.2)) <$> entries (MAP_A m)).
Proof.
  intros Hok Hstep. unfold collect. eapply returns_bind; [apply AAlloc_spec|]. intros _ _.
  pose proof (tk_array _ _ Hok) as Ha. pose proof (entries_length (MAP_A m)) as Hn.
  rewrite (tk_len _ _ Hok), (tk_removed _ _ Hok), <- Hn, Nat2Z.id, (tk_size _ _ Hok).
  set (n := length (entries (MAP_A m))).
  set (out := fun i : Z => (fun e => Some (f e.1 e.2)) <$> entries (take (Z.to_nat i) (MAP_A m))).
  eapply returns_bind.
  - apply (for_up_inv (fun i '(dst, j) => j = length (out i) /\ dst = out i ++ replicate (n - j) None)).
    + lia.
    + unfold out. simpl. rewrite Nat.sub_0_r. done.
    + intros i [dst j] Hi [-> ->].
      destruct (lookup_lt_is_Some_2 (MAP_A m) (Z.to_nat i)) as [e He]; [lia|].
      eapply returns_bind_evals; [apply AFixArrayItem_evals; [lia|exact He]|].
      assert (Hout : out (i + 1) = out i ++ ((fun e => Some (f e.1 e.2)) <$> option_list (entry e))).
      { unfold out. replace (Z.to_nat (i + 1)) with (S (Z.to_nat i)) by lia.
        by rewrite (entries_take_S _ _ _ He), fmap_app. }
      pose proof (entries_prefix_length (MAP_A m) (Z.to_nat (i + 1))) as Hle.
      assert (Hlen : length (out (i + 1)) = length (entries (take (Z.to_nat (i + 1)) (MAP_A m))))
        by (unfold out; by rewrite length_fmap).
      fold n in Hle. rewrite <- Hlen, Hout in Hle. rewrite Hout.
      destruct e as [[| |k] v]; cbn [fst]; [apply returns_ret; simpl; by rewrite app_nil_r..|].
      eapply returns_bind; [exact Hstep|]. intros _ _. simpl in Hle.
      rewrite !length_app in Hle. simpl in Hle.
      rewrite length_app, length_replicate.
      destruct (_ <? _)%nat eqn:Hc; [|apply Nat.ltb_ge in Hc; lia].
      apply returns_ret. simpl. rewrite length_app. simpl. split; [lia|].
      destruct (n - length (out i))%nat as [|d] eqn:Hd; [lia|].
      rewrite insert_app_r_alt by lia. rewrite Nat.sub_diag. simpl.
      replace (n - S (length (out i)))%nat with d by lia. by rewrite <- app_assoc.
  - intros [dst j] [-> ->]. apply returns_ret. unfold out.
    rewrite firstn_all2 by lia. rewrite length_fmap. fold n. rewrite Nat.sub_diag. apply app_nil_r.
Qed.

(** ** Iterators *)

(** The items an iterator has still to visit. *)
Definition iter_ok (it : iter K V) (l : list (K * V)) : Prop :=
  exists i, ITER_I it = 2 * Z.of_nat i /\ ITER_LEN it = 2 * zlen (ITER_A it) /\
    (i <= length (ITER_A it))%nat /\ l = entries (drop i (ITER_A it)).

Lemma next_item_spec (a : list (mark K * V)) i fuel :
  (i <= length a < i + fuel)%nat ->
  returns (next_item fuel a (2 * Z.of_nat i) (2 * zlen a)) (fun r => exists j,
    r = 2 * Z.of_nat j /\ (i <= j <= length a)%nat /\ entries (drop j a) = entries (drop i a) /\
    (forall e, a !! j = Some e -> entry e <> None)).
Proof.
  revert i. induction fuel as [|fuel IH]; intros i Hi; [lia|]. cbn [next_item].
  destruct (_ <? _) eqn:Hc.
  - destruct (lookup_lt_is_Some_2 a i) as [e He]; [lia|].
    replace (2 * Z.of_nat i ÷ 2) with (Z.of_nat i) by (rewrite Z.mul_comm, Z.quot_mul; lia).
    eapply returns_bind_evals.
    { apply AFixArrayItem_evals; [lia|]. by rewrite Nat2Z.id. }
    assert (Hskip : entry e = None -> entries (drop (S i) a) = entries (drop i a)).
    { intros Hn. rewrite (drop_S _ _ _ He). unfold entries. simpl. by rewrite Hn. }
    destruct e as [c v]. destruct c as [| |k]; cbn [fst].
    3: { apply returns_ret. exists i. repeat split; try lia. intros e. rewrite He. by intros [= <-]. }
    all: replace (2 * Z.of_nat i + 2) with (2 * Z.of_nat (S i)) by lia;
      (eapply returns_mono; [apply IH; lia|]); intros r (j & -> & Hj & Hent & He');
      exists j; rewrite Hent, Hskip by done; repeat split; try lia; done.
  - apply returns_ret. exists i. repeat split; try lia. intros e He%lookup_lt_Some. lia.
Qed.

Lemma AMapIterHasNext_spec it l :
  iter_ok it l ->
  sreturns AMapIterHasNext it (fun r it' => r = bool_decide (l <> []) /\ iter_ok it' l).
Proof.
  intros (i & Hi & Hlen & Hle & ->). apply sspec_get_bind. rewrite Hi, Hlen.
  eapply sspec_lift_bind; [apply next_item_spec; lia|]. intros r (j & -> & Hj & Hent & He).
  destruct (_ <? _) eqn:Hc.
  - apply sspec_modify_bind, sspec_ret.
    destruct (lookup_lt_is_Some_2 (ITER_A it) j) as [e Hl]; [lia|].
    split; [|exists j; simpl; rewrite Hent; repeat split; try lia; done].
    rewrite <- Hent, (drop_S _ _ _ Hl). unfold entries. simpl.
    destruct (entry e) eqn:Hent'; [done|]. by destruct (He e Hl).
  - apply sspec_ret. split; [|by exists i].
    rewrite <- Hent, drop_ge by lia. done.
Qed.

Lemma AMapIterNext_spec it l :
  iter_ok it l ->
  sspec AMapIterNext it (fun r it' =>
    match l with
    | x :: l' => r = Ok x /\ iter_ok it' l'
    | [] => r = Raise EValueError /\ it' = it
    end).
Proof.
  intros (i & Hi & Hlen & Hle & ->). apply sspec_get_bind. rewrite Hi, Hlen.
  eapply sspec_lift_bind; [apply next_item_spec; lia|]. intros r (j & -> & Hj & Hent & He).
  destruct (_ <? _) eqn:Hc.
  - destruct (lookup_lt_is_Some_2 (ITER_A it) j) as [e Hl]; [lia|].
    eapply sspec_lift_bind; [apply AAlloc_spec|]. intros _ _.
    replace (2 * Z.of_nat j ÷ 2) with (Z.of_nat j) by (rewrite Z.mul_comm, Z.quot_mul; lia).
    eapply sspec_lift_bind.
    { eapply (evals_returns _ e (fun e' => e' = e)); [|done].
      apply AFixArrayItem_evals; [lia|]. by rewrite Nat2Z.id. }
    intros ? ->. apply sspec_modify_bind. specialize (He e Hl).
    destruct e as [[| |k] v]; try done. simpl. apply sspec_ret.
    rewrite <- Hent, (drop_S _ _ _ Hl). unfold entries at 1. simpl. split; [done|].
    exists (S j). simpl. repeat split; lia || done.
  - assert (Hnil : entries (drop j (ITER_A it)) = []) by (rewrite drop_ge by lia; done).
    rewrite <- Hent, Hnil. apply sraises_lift.
Qed.

End refinement.
