(* ===== verification/Keys.v ===== *)
(** * Keys: integers and strings as keys of hash tables

    [AStdHash] ([std_module.c]) and [AIsEq] ([aloreapi.c]) on Int objects and
    strings, with the functions they call.  The hash of any other object is a
    parameter.  Integers and strings are lawful keys. *)

From stdpp Require Import gmap.
From Stdlib Require Import SpecFloat.
From S2P Require Import Prelude Runtime Digits Value LongInt IntOps IntConv Bitop HashTable.
From S2P Require Import HashTableSpec.

(** ** Equality *)

(** The comparison loop of [ACompareStrings] on narrow strings. *)
Fixpoint compare_bytes (s1 s2 : list Z) : Z :=
  match s1, s2 with
  | c1 :: s1', c2 :: s2' => if c1 =? c2 then compare_bytes s1' s2' else c1 - c2
  | _, _ => s32 (zlen s1 - zlen s2)
  end.

Definition ACompareStrings (s1 s2 : AValue) : Z :=
  match s1, s2 with
  | VStr b1, VStr b2 => compare_bytes b1 b2
  | _, _ => A_CMP_FAIL
  end.

(** [AIsEqual(t, left, right)]; the operands are swapped at most once. *)
Fixpoint AIsEqual (swaps : nat) (left right : AValue) : M bool :=
  match swaps with
  | O => fault
  | S n =>
    match left, right with
    | VStr _, _ => mret (ACompareStrings left right =? 0)
    | VFloat f, VFloat g => mret (SFeqb f g)
    | VFloat f, VInt w => mret (SFeqb f (double_of_Z (AValueToInt w)))
    | VFloat f, VLong li => d ← ALongIntToFloat li; mret (SFeqb f d)
    | VFloat _, _ => mret false
    | VLong a, VLong b => c ← ACompareLongInt a b; mret (c =? 0)
    | VLong _, VFloat _ => AIsEqual n right left
    | VLong _, _ => mret false
    | VInt a, VInt b => mret (a =? b)
    | VInt _, _ => AIsEqual n right left
    | VOther a, VOther b => mret (a =? b)
    | VOther _, _ => mret false
    end
  end.

(** [AIsEq(t, a, b)] on values. *)
Definition value_eq (a b : AValue) : M bool :=
  match a, b with
  | VInt x, VInt y => mret (x =? y)
  | VStr _, VStr _ => mret (ACompareStrings a b =? 0)
  | VOther x, VOther y => mret (x =? y)
  | _, _ => AIsEqual 2 a b
  end.

(** ** Hashing *)

(** [AStringHashValue(str)]: the loop over the characters. *)
Fixpoint string_hash (s : list Z) (hashValue : Z) : Z :=
  match s with
  | [] => hashValue
  | c :: s => string_hash s (u32 (hashValue + u32 (u32 (hashValue * 32) + c)))
  end.

Definition AStringHashValue (s : list Z) : Z := AIntToValue (string_hash s 0).

(** [AStdHash(t, frame)] on values; [other_hash] stands for the branches of
    the objects that are neither integers nor strings. *)
Definition value_hash (other_hash : AValue -> M (option AValue)) (v : AValue) : M (option AValue) :=
  match v with
  | VStr s => mret (Some (VInt (AStringHashValue s)))
  | VInt w => mret (Some (VInt (Z.lxor w (AIntToValue (Z.shiftr w 10)))))
  | VLong li => h ← ALongIntHashValue li; mret (Some (VInt h))
  | _ => other_hash v
  end.

Definition AValue_key (other_hash : AValue -> M (option AValue)) : MapKey AValue :=
  {| AStdHash := value_hash other_hash; AIsEq := value_eq |}.

(** ** Lawfulness *)

(** The identity of a key: the number, or the characters. *)
Definition value_id (v : AValue) : Z + list Z :=
  match v with
  | VInt w => inl (AValueToInt w)
  | VLong li => inl (signed (AGetLongIntSign li) (li_abs li (AGetLongIntLen li)))
  | VStr s => inr s
  | _ => inr []
  end.

(** Int objects, and strings of a length that fits a C [int]. *)
Definition value_key (v : AValue) : Prop :=
  match v with
  | VStr s => zlen s < 2 ^ 31
  | _ => exists z, int_repr v z
  end.

(** The digits of the magnitude of [z]. *)
Definition mag_digits (z : Z) : list Z := tdigit (Z.abs z) <$> seqZ 0 (ndigits z).

Definition value_code (x : Z + list Z) : Z :=
  match x with
  | inl z =>
    if in_short z then
      AValueToInt (Z.lxor (AIntToValue z) (AIntToValue (Z.shiftr (AIntToValue z) 10)))
    else AValueToInt (AIntToValue (hash_poly (mag_digits z) 0))
  | inr s => AValueToInt (AStringHashValue s)
  end.

Lemma int_repr_id v z : int_repr v z -> value_id v = inl z.
Proof.
  intros Hv. destruct v as [w|li|?|?|?]; try (simpl in Hv; tauto).
  - destruct Hv as [-> Hz]. simpl. by rewrite AValueToInt_tag.
  - destruct Hv as ((n & neg & Hb & _ & ->) & _ & _). simpl.
    by rewrite (Sign_block _ _ _ Hb), (Len_block _ _ _ Hb).
Qed.

Lemma li_norm_mag li z :
  li_norm li z ->
  exists n neg, li_block li n neg /\ take (Z.to_nat n) (elem li) = mag_digits z.
Proof.
  intros Hn. pose proof (trim_len li z (li_norm_trim li z Hn)) as Hlen.
  pose proof Hn as ((n & neg & Hb & Hn2 & Hz) & _ & _). exists n, neg. split; [done|].
  rewrite (Len_block _ _ _ Hb) in Hlen. unfold mag_digits. rewrite <- Hlen.
  pose proof (li_abs_bound _ _ _ Hb). pose proof (lb_elem _ _ _ Hb).
  replace (Z.abs z) with (eval (elem li) 0 n)
    by (subst z; unfold li_abs in *; destruct neg; simpl in *; lia).
  apply list_eq. intros i. rewrite list_lookup_fmap.
  destruct (decide (i < Z.to_nat n)%nat) as [Hi|Hi].
  - rewrite lookup_take_lt, lookup_seqZ_lt by lia. simpl.
    destruct (lookup_lt_is_Some_2 (elem li) i) as [d Hd]; [lia|]. rewrite Hd. f_equal.
    rewrite tdigit_eval; [|apply Hb|lia]. unfold dg. rewrite Z.add_0_l, Nat2Z.id.
    by rewrite (nth_lookup_Some _ _ _ _ Hd).
  - rewrite lookup_take_ge, lookup_seqZ_ge by lia. done.
Qed.

Lemma compare_bytes_eq s1 s2 :
  zlen s1 < 2 ^ 31 -> zlen s2 < 2 ^ 31 -> compare_bytes s1 s2 = 0 <-> s1 = s2.
Proof.
  revert s2. induction s1 as [|c1 s1 IH]; intros [|c2 s2] H1 H2.
  - done.
  - cbn [compare_bytes]. rewrite length_cons in *. simpl length. rewrite s32_small by lia.
    split; [lia|done].
  - cbn [compare_bytes]. rewrite length_cons in *. simpl length. rewrite s32_small by lia.
    split; [lia|done].
  - rewrite !length_cons in *. cbn [compare_bytes]. destruct (Z.eqb_spec c1 c2) as [->|Hne].
    + rewrite IH by lia. split; [by intros ->|by intros [=]].
    + split; [lia|by intros [=]].
Qed.

Lemma value_hash_law other v :
  value_key v ->
  returns (hash_code (H := AValue_key other) v) (fun r => r = Some (value_code (value_id v))).
Proof.
  intros Hv. destruct v as [w|li|f|s|o]; [| |by destruct Hv as [? []]| |by destruct Hv as [? []]].
  - destruct Hv as [z Hz]. rewrite (int_repr_id _ z Hz). destruct Hz as [-> Hz].
    apply returns_ret. simpl. by destruct (in_short_spec z).
  - destruct Hv as [z Hz]. rewrite (int_repr_id _ z Hz). simpl in Hz.
    destruct (li_norm_mag li z Hz) as (n & neg & Hb & Hd).
    unfold hash_code. simpl. eapply returns_bind.
    { eapply returns_bind; [apply (ALongIntHashValue_spec _ _ _ Hb)|]. intros h ->.
      by apply (returns_ret _ (fun r =>
        r = Some (VInt (AIntToValue (hash_poly (take (Z.to_nat n) (elem li)) 0))))). }
    intros r ->. apply returns_ret. simpl. rewrite Hd.
    destruct (in_short_spec z); [|done]. by destruct Hz as (_ & [] & _).
  - by apply returns_ret.
Qed.

(** Long integers compare equal exactly when they denote the same number. *)
Lemma compare_long_eq a x b y :
  li_norm a x -> li_norm b y ->
  returns (ACompareLongInt a b) (fun c => (c =? 0) = bool_decide (x = y)).
Proof.
  intros Ha Hb. eapply returns_mono.
  - apply (ACompareLongInt_spec a x b y); [by apply li_norm_trim..|].
    destruct Ha as (_ & Hs & _). left. intros ->. apply Hs. unfold short_range.
    unfold A_SHORT_INT_MIN, A_SHORT_INT_MAX. lia.
  - simpl. intros c Hc. destruct (Z.eqb_spec c 0), (bool_decide_reflect (x = y)); try done; lia.
Qed.

Lemma short_long_ne z li x : short_range z -> li_norm li x -> z <> x.
Proof. by intros Hz (_ & Hs & _) ->. Qed.

Lemma value_eq_law a b :
  value_key a -> value_key b ->
  returns (value_eq a b) (fun r => r = bool_decide (value_id a = value_id b)).
Proof.
  intros Ha Hb.
  destruct a as [w1|l1|f1|s1|o1]; [| |by destruct Ha as [? []]| |by destruct Ha as [? []]];
    (destruct b as [w2|l2|f2|s2|o2]; [| |by destruct Hb as [? []]| |by destruct Hb as [? []]]).
  - destruct Ha as [x [-> Hx]], Hb as [y [-> Hy]]. apply returns_ret. simpl.
    rewrite !AValueToInt_tag by done. destruct (Z.eqb_spec (AIntToValue x) (AIntToValue y)) as [He|He].
    + apply AIntToValue_inj in He; [|done..]. subst. by rewrite bool_decide_true.
    + rewrite bool_decide_false; [done|]. intros [= ->]. done.
  - destruct Ha as [x Hx], Hb as [y Hy]. rewrite (int_repr_id _ _ Hx), (int_repr_id _ _ Hy).
    apply returns_ret. rewrite bool_decide_false; [done|].
    intros [= ->]. destruct Hx as [_ Hx]. by apply (short_long_ne y l2 y Hx Hy).
  - destruct Ha as [x Hx]. rewrite (int_repr_id _ _ Hx). apply returns_ret.
    by rewrite bool_decide_false.
  - destruct Ha as [x Hx], Hb as [y Hy]. rewrite (int_repr_id _ _ Hx), (int_repr_id _ _ Hy).
    apply returns_ret. rewrite bool_decide_false; [done|].
    intros [= ->]. destruct Hy as [_ Hy]. by apply (short_long_ne y l1 y Hy Hx).
  - destruct Ha as [x Hx], Hb as [y Hy]. rewrite (int_repr_id _ _ Hx), (int_repr_id _ _ Hy).
    simpl. eapply returns_bind; [by apply (compare_long_eq l1 x l2 y)|]. intros c ->.
    apply returns_ret. repeat case_bool_decide; congruence.
  - destruct Ha as [x Hx]. rewrite (int_repr_id _ _ Hx). apply returns_ret.
    by rewrite bool_decide_false.
  - destruct Hb as [y Hy]. rewrite (int_repr_id _ _ Hy). apply returns_ret.
    by rewrite bool_decide_false.
  - destruct Hb as [y Hy]. rewrite (int_repr_id _ _ Hy). apply returns_ret.
    by rewrite bool_decide_false.
  - apply returns_ret. simpl. pose proof (compare_bytes_eq s1 s2 Ha Hb).
    destruct (Z.eqb_spec (compare_bytes s1 s2) 0); case_bool_decide; naive_solver.
Qed.

(** Integers and strings are lawful keys. *)
Definition AValue_lawful (other : AValue -> M (option AValue)) :
  @LawfulKey AValue (Z + list Z) (AValue_key other) _ _ :=
  {| valid_key := value_key;
     key_id := value_id;
     id_code := value_code;
     hash_law := value_hash_law other;
     eq_law := value_eq_law |}.
