(* ===== verification/SetObject.v ===== *)
(** * SetObject: set::Set objects

    The methods of [set_module.c] on the hash table (the value cell of every
    item holds 0), and their refinement of the operations of finite sets. *)

From stdpp Require Import gmap.
From S2P Require Import Prelude Runtime Digits Value LongInt IntConv HashTable HashTableSpec.
From S2P Require Import HashTableOps MapObject.


Section set.
Context {K : Type} `{MapKey K} (EmptyMarker : AValue).
Abbreviation SetTable := (table K AValue).

(** [SetAdd(t, frame)], with a bound on the nesting of resizes. *)
Fixpoint SetAdd (depth : nat) (k : K) : SM SetTable (option unit) :=
  match depth with
  | O => lift fault
  | S d => set_with (resize_with EmptyMarker (fun k _ => SetAdd d k)) k (VInt AZero)
  end.

Definition ResizeSet (depth : nat) : SM SetTable unit :=
  resize_with EmptyMarker (fun k _ => SetAdd depth k).

Definition SetInitialize : SM SetTable unit := initialize EmptyMarker.

(** [SetCreate] with no argument or with an array; the result of [SetAdd] is
    ignored. *)
Fixpoint add_items (items : list K) : SM SetTable unit :=
  match items with
  | [] => mret tt
  | k :: items => SetAdd 2 k ≫= (fun _ => add_items items)
  end.

Definition SetCreate (items : option (list K)) : SM SetTable unit :=
  SetInitialize ≫= (fun _ => match items with None => mret tt | Some l => add_items l end).

Definition Set_in (k : K) : SM SetTable (option bool) :=
  s ← locate k;
  mret (match s with
  | None => None
  | Some (Found _ _) => Some true
  | Some (Free _) => Some false
  end).

Definition SetLength : SM SetTable Z := m ← get; mret (MAP_LEN m - MAP_NUM_REMOVED m).

(** Removing an object that is not in the set does nothing. *)
Definition SetRemove (k : K) : SM SetTable (option unit) :=
  s ← locate k;
  match s with
  | None => mret None
  | Some (Found i _) => mark_removed i ≫= (fun _ => mret (Some tt))
  | Some (Free _) => mret (Some tt)
  end.

(** ** Iterators *)

Definition SetIter : SM SetTable (iter K AValue) :=
  m ← get; mret (MkIter 0 (2 * zlen (MAP_A m)) (MAP_A m)).

(** The position is moved to the next item, or to the end. *)
Definition SetIterHasNext : SM (iter K AValue) bool :=
  it ← get;
  i ← lift (next_item (S (length (ITER_A it))) (ITER_A it) (ITER_I it) (ITER_LEN it));
  modify (fun it => MkIter i (ITER_LEN it) (ITER_A it)) ≫= (fun _ =>
  mret (i <? ITER_LEN it - 1)).

(** [SetIterNext]; after [SetIterHasNext] it does not call itself again. *)
Fixpoint SetIterNext (depth : nat) : SM (iter K AValue) K :=
  match depth with
  | O => lift fault
  | S d =>
    it ← get;
    if ITER_I it <? ITER_LEN it - 1 then
      e ← lift (AFixArrayItem (ITER_A it) (ITER_I it ÷ 2));
      match e.1 with
      | Item k =>
        modify (fun it => MkIter (ITER_I it + 2) (ITER_LEN it) (ITER_A it)) ≫= (fun _ => mret k)
      | _ => SetIterHasNext ≫= (fun _ => SetIterNext d)
      end
    else lift (raise EValueError)
  end.

(** [ANext(t, e, next)] on a Set iterator. *)
Definition SetANext : SM (iter K AValue) (option K) :=
  lift (AAllocTempStack 2) ≫= (fun _ =>
  more ← SetIterHasNext;
  if (more : bool) then k ← SetIterNext 2; mret (Some k) else mret None).

(** ** Comparison, hash and copy *)

(** The loop of [Set_eq] over the items of the other set. *)
Fixpoint eq_loop (fuel : nat) (m : SetTable) : SM (iter K AValue) (option bool) :=
  match fuel with
  | O => lift fault
  | S fuel =>
    n ← SetANext;
    match n with
    | None => mret (Some true)
    | Some k =>
      b ← lift (observe m (Set_in k));
      match b with
      | Some true => eq_loop fuel m
      | _ => mret b
      end
    end
  end.

(** [Set_eq(t, frame)]; an argument of [None] is an object that is not a Set. *)
Definition Set_eq (other : option SetTable) : SM SetTable (option bool) :=
  match other with
  | None => mret (Some false)
  | Some o =>
    m ← get;
    n ← lift (observe o SetLength);
    len ← lift (AGetInt (VInt (AIntToValue n)));
    if negb (len =? MAP_LEN m - MAP_NUM_REMOVED m) then mret (Some false)
    else
      it ← lift (observe o SetIter);
      lift (observe it (eq_loop (S (length (ITER_A it))) m))
  end.

(** [Set_hash(t, frame)]: the exclusive or of the scaled hashes of the items,
    truncated to a C [int]. *)
Definition Set_hash : SM SetTable (option Z) :=
  m ← get;
  hash ← lift (for_up 0 (MAP_SIZE m) (fun i acc =>
    match acc with
    | None => mret None
    | Some hash =>
      e ← AFixArrayItem (MAP_A m) i;
      match e.1 with
      | Item k =>
        h ← hash_code k;
        mret (match h with
        | None => None
        | Some c => Some (Z.lxor hash (u64 (c * (32768 + 512 + 32 + 1))))
        end)
      | _ => mret (Some hash)
      end
    end) (Some 0));
  mret (match hash with None => None | Some h => Some (AIntToValue (s32 h)) end).

(** [SetCopy(t, frame)]: the new set is the object the method works on, [m] is
    the original. *)
Fixpoint copy_items (n : nat) (i : Z) (m : SetTable) : SM SetTable (option unit) :=
  match n with
  | O => mret (Some tt)
  | S n =>
    e ← lift (AFixArrayItem (MAP_A m) i);
    match e.1 with
    | Item k =>
      r ← SetAdd 2 k;
      match r with None => mret None | Some _ => copy_items n (i + 1) m end
    | _ => copy_items n (i + 1) m
    end
  end.

Definition SetCopy (m : SetTable) : SM SetTable (option unit) :=
  SetCreate None ≫= (fun _ => copy_items (Z.to_nat (MAP_SIZE m)) 0 m).

End set.

(** ** Refinement of finite sets *)

Section refinement.
Context {K I : Type} `{LawfulKey K I} (EmptyMarker : AValue).
Implicit Types m : table K AValue.

(** The finite set a table stands for. *)
Definition set_of m : gset I := dom (table_map m).

Lemma SetAdd_reinserts d :
  reinserts (fun _ => VInt AZero) (fun k _ => SetAdd EmptyMarker (S d) k).
Proof.
  intros m k key v Hok Hload Hv. simpl. eapply sreturns_mono.
  - apply (set_with_gen _ m k key (VInt AZero) (inserted m k key (VInt AZero))); try done; [lia|].
    intros m' (_ & _ & _ & Hl) Hc. lia.
  - by intros r m' [_ ?].
Qed.

Lemma SetAdd_spec d m k :
  map_ok m -> valid_key k -> 3 * (map_length m + 1) <= 2 ^ 30 ->
  sreturns (SetAdd EmptyMarker (S (S d)) k) m (fun r m' =>
    r = Some tt /\ map_ok m' /\ set_of m' = {[key_id k]} ∪ set_of m).
Proof.
  intros (p & Hok & Hload) Hv Hbound. unfold set_of.
  apply (set_with_gen _ m p k (VInt AZero) (fun m' => map_ok m' /\
    dom (table_map m') = {[key_id k]} ∪ dom (table_map m))); try done.
  - intros m' (Hok' & Hm' & _) Hload'. split; [by exists p|]. by rewrite Hm', dom_insert_L.
  - intros m' (Hok' & Hm' & Hr & Hl) Hc. eapply sreturns_mono.
    + apply (resize_with_spec _ _ _ _ p (SetAdd_reinserts d) Hok'); [lia|].
      unfold map_length in *. lia.
    + intros u m'' [Hok'' Hm'']. split; [done|]. by rewrite Hm'', dom_fmap_L, Hm', dom_insert_L.
Qed.

Lemma set_of_spec m k : key_id k ∈ set_of m <-> is_Some (table_map m !! key_id k).
Proof. unfold set_of. apply elem_of_dom. Qed.

Lemma Set_in_spec m k :
  map_ok m -> valid_key k ->
  sreturns (Set_in k) m (fun r m' => m' = m /\ r = Some (bool_decide (key_id k ∈ set_of m))).
Proof.
  intros Hm Hv. destruct (map_ok_locate m k Hm Hv) as (p & Hok & Hl).
  eapply sspec_bind; [exact Hl|]. intros r m' (-> & s & -> & Hs). apply sspec_ret.
  split; [done|]. destruct s as [i v|i].
  - rewrite bool_decide_true; [done|]. apply set_of_spec. rewrite (table_map_found m p k i v Hok Hs). eauto.
  - rewrite bool_decide_false; [done|]. rewrite set_of_spec, (table_map_free m p k i Hs). by intros [? ?].
Qed.

Lemma map_length_set m p : table_ok m p -> map_length m = Z.of_nat (size (set_of m)).
Proof. intros Hok. unfold set_of. by rewrite size_dom, (map_length_size _ _ Hok). Qed.

Lemma SetLength_spec m :
  map_ok m -> sreturns SetLength m (fun r m' => m' = m /\ r = Z.of_nat (size (set_of m))).
Proof.
  intros (p & Hok & _). apply sspec_get_bind, sspec_ret. split; [done|]. by eapply map_length_set.
Qed.

Lemma SetRemove_spec m k :
  map_ok m -> valid_key k ->
  sreturns (SetRemove k) m (fun r m' =>
    r = Some tt /\ map_ok m' /\ set_of m' = set_of m ∖ {[key_id k]}).
Proof.
  intros Hm Hv. pose proof Hm as (p & Hok & Hload).
  eapply sspec_bind.
  { apply (locate_spec m p); try done. pose proof (tk_range _ _ Hok).
    pose proof (Z.pow_pos_nonneg 2 p). lia. }
  intros r m' (-> & s & -> & Hs). destruct s as [i v|i].
  - eapply sspec_bind; [by eapply mark_removed_spec|]. intros u m' [Hok' Hm']. apply sspec_ret.
    split; [done|]. split; [done|]. unfold set_of. by rewrite Hm', dom_delete_L.
  - apply sspec_ret. split; [done|]. split; [done|].
    apply table_map_free in Hs. assert (key_id k ∉ set_of m).
    { rewrite set_of_spec, Hs. by intros [? ?]. }
    set_solver.
Qed.

(** The keys of a list. *)
Definition keys_of (l : list K) : gset I := list_to_set (key_id <$> l).

Lemma add_items_spec l m :
  map_ok m -> Forall valid_key l -> 3 * (map_length m + zlen l) <= 2 ^ 30 ->
  sreturns (add_items EmptyMarker l) m (fun _ m' => map_ok m' /\ set_of m' = keys_of l ∪ set_of m).
Proof.
  intros Hm Hl. revert m Hm. induction Hl as [|k l Hv Hl IH]; intros m Hm Hbound; simpl.
  { apply sreturns_ret. split; [done|]. set_solver. }
  rewrite length_cons in Hbound.
  eapply sreturns_bind; [apply (SetAdd_spec 0 m k Hm Hv); lia|].
  intros r m' (_ & Hm' & Heq). simpl. eapply sreturns_mono.
  - apply IH; [done|]. pose proof Hm as (p & Hok & _). pose proof Hm' as (p' & Hok' & _).
    rewrite (map_length_set _ _ Hok) in Hbound. rewrite (map_length_set _ _ Hok'), Heq.
    pose proof (size_union_alt {[key_id k]} (set_of m)) as Hu. rewrite size_singleton in Hu.
    pose proof (subseteq_size (set_of m ∖ {[key_id k]}) (set_of m) ltac:(set_solver)). lia.
  - intros u m'' [? ->]. split; [done|]. rewrite Heq. unfold keys_of. simpl. set_solver.
Qed.

Lemma SetCreate_spec l m :
  Forall valid_key l -> 3 * zlen l <= 2 ^ 30 ->
  sreturns (SetCreate EmptyMarker (Some l)) m (fun _ m' => map_ok m' /\ set_of m' = keys_of l).
Proof.
  intros Hl Hbound. eapply sreturns_bind; [apply initialize_spec|]. intros u m' [Hm' He].
  assert (Hd : set_of m' = ∅) by (unfold set_of; by rewrite He, dom_empty_L).
  eapply sreturns_mono.
  - apply add_items_spec; try done. destruct Hm' as (p & Hok & _).
    rewrite (map_length_set _ _ Hok), Hd, size_empty. lia.
  - intros r m'' [? ->]. split; [done|]. rewrite Hd. set_solver.
Qed.

End refinement.

(** * Iteration, comparison, hash and copy of sets *)


Section iterators.
Context {K : Type} `{MapKey K}.
Implicit Types it : iter K AValue.

(** The position of the iterator is at the end or at an item. *)
Definition at_item it : Prop :=
  forall e, ITER_I it < ITER_LEN it - 1 -> ITER_A it !! Z.to_nat (ITER_I it ÷ 2) = Some e ->
    entry e <> None.

Lemma iter_ok_end it l :
  iter_ok it l -> at_item it -> (ITER_I it <? ITER_LEN it - 1) = bool_decide (l <> []).
Proof.
  intros (i & Hi & Hlen & Hle & ->) Hat. rewrite Hi, Hlen. unfold at_item in Hat. rewrite Hi, Hlen in Hat.
  replace (2 * Z.of_nat i ÷ 2) with (Z.of_nat i) in Hat by (rewrite Z.mul_comm, Z.quot_mul; lia).
  rewrite Nat2Z.id in Hat. destruct (Z.ltb_spec (2 * Z.of_nat i) (2 * zlen (ITER_A it) - 1)).
  - destruct (lookup_lt_is_Some_2 (ITER_A it) i) as [e He]; [lia|].
    rewrite (drop_S _ _ _ He). unfold entries. simpl.
    destruct (entry e) eqn:Hent; [done|]. destruct (Hat e); (lia || done).
  - by rewrite drop_ge by lia.
Qed.

Lemma SetIterHasNext_spec it l :
  iter_ok it l ->
  sreturns SetIterHasNext it (fun r it' => r = bool_decide (l <> []) /\ iter_ok it' l /\ at_item it').
Proof.
  intros (i & Hi & Hlen & Hle & ->). apply sspec_get_bind. rewrite Hi, Hlen.
  eapply sspec_lift_bind; [apply next_item_spec; lia|]. intros r (j & -> & Hj & Hent & He).
  apply sspec_modify_bind, sspec_ret.
  assert (Hok : iter_ok (MkIter (2 * Z.of_nat j) (ITER_LEN it) (ITER_A it)) (entries (drop i (ITER_A it)))).
  { exists j. simpl. rewrite Hent. repeat split; lia || done. }
  assert (Hat : at_item (MkIter (2 * Z.of_nat j) (ITER_LEN it) (ITER_A it))).
  { intros e _. simpl. replace (2 * Z.of_nat j ÷ 2) with (Z.of_nat j)
      by (rewrite Z.mul_comm, Z.quot_mul; lia). rewrite Nat2Z.id. apply He. }
  split; [|done]. pose proof (iter_ok_end _ _ Hok Hat) as Hb. simpl in Hb. by rewrite <- Hb, Hlen.
Qed.

(** The effect of [next] on the items left. *)
Definition next_effect (l : list (K * AValue)) (r : outcome K) it : Prop :=
  match l with
  | x :: l' => r = Ok x.1 /\ iter_ok it l'
  | [] => r = Raise EValueError /\ iter_ok it []
  end.

Lemma SetIterNext_at d it l :
  iter_ok it l -> at_item it -> sspec (SetIterNext (S d)) it (next_effect l).
Proof.
  intros Hok Hat. pose proof (iter_ok_end _ _ Hok Hat) as Hend. simpl. apply sspec_get_bind.
  rewrite Hend. destruct Hok as (i & Hi & Hlen & Hle & Hl). case_bool_decide as Hne.
  - assert (Hlt : (i < length (ITER_A it))%nat).
    { destruct (decide (i < length (ITER_A it))%nat); [done|]. subst l.
      by rewrite drop_ge in Hne by lia. }
    destruct (lookup_lt_is_Some_2 (ITER_A it) i) as [e He]; [done|].
    assert (Hq : ITER_I it ÷ 2 = Z.of_nat i) by (rewrite Hi, Z.mul_comm, Z.quot_mul; lia).
    assert (Hent : entry e <> None).
    { apply Hat; [lia|]. by rewrite Hq, Nat2Z.id. }
    eapply sspec_lift_bind.
    { eapply (evals_returns _ e (fun e' => e' = e)); [|done].
      apply AFixArrayItem_evals; [lia|]. by rewrite Hq, Nat2Z.id. }
    intros ? ->. destruct e as [[| |k] v]; try done. simpl. apply sspec_modify_bind, sspec_ret.
    subst l. rewrite (drop_S _ _ _ He). unfold entries. simpl. split; [done|].
    exists (S i). simpl. repeat split; lia || done.
  - destruct l as [|x l]; [|done]. eapply sspec_mono; [apply sraises_lift|].
    intros r it' [-> ->]. split; [done|]. by exists i.
Qed.

Lemma SetIterNext_spec d it l :
  iter_ok it l -> sspec (SetIterNext (S (S d))) it (next_effect l).
Proof.
  intros Hok. pose proof Hok as (i & Hi & Hlen & Hle & Hl).
  assert (Hq : ITER_I it ÷ 2 = Z.of_nat i) by (rewrite Hi, Z.mul_comm, Z.quot_mul; lia).
  destruct (decide (i < length (ITER_A it))%nat) as [Hlt|Hge].
  - destruct (lookup_lt_is_Some_2 (ITER_A it) i Hlt) as [e He].
    destruct (entry e) eqn:Hent.
    + apply SetIterNext_at; [done|]. intros e' _. rewrite Hq, Nat2Z.id, He. intros [= <-]. by rewrite Hent.
    + cbn [SetIterNext]. apply sspec_get_bind. replace (_ <? _) with true by lia.
      eapply sspec_lift_bind.
      { eapply (evals_returns _ e (fun e' => e' = e)); [|done].
        apply AFixArrayItem_evals; [lia|]. by rewrite Hq, Nat2Z.id. }
      assert (Hskip : sspec (SetIterHasNext ≫= (fun _ => SetIterNext (S d))) it (next_effect l)).
      { eapply sspec_bind; [by apply (SetIterHasNext_spec it l)|].
        intros b it' (_ & Hok' & Hat'). by apply SetIterNext_at. }
      intros ? ->. destruct e as [[| |k] v]; done.
  - apply SetIterNext_at; [done|]. intros e Hc. lia.
Qed.

Lemma SetANext_spec it l :
  iter_ok it l -> sreturns SetANext it (fun r it' => r = fst <$> head l /\ iter_ok it' (tail l)).
Proof.
  intros Hok. unfold SetANext. eapply sspec_lift_bind; [apply AAllocTempStack_spec|]. intros _ _.
  eapply sspec_bind; [by apply (SetIterHasNext_spec it l)|]. intros b it' (-> & Hok' & Hat').
  destruct l as [|x l]; simpl; [by apply sspec_ret|].
  apply (sspec_bind _ _ _ (fun k it'' => k = x.1 /\ iter_ok it'' l)).
  - eapply sspec_mono; [by apply (SetIterNext_at 1 it' (x :: l))|]. by intros r it'' [-> Hit].
  - intros k it'' [-> Hk]. by apply sspec_ret.
Qed.

End iterators.

Section sets.
Context {K I : Type} `{LawfulKey K I} (EmptyMarker : AValue).
Implicit Types m : table K AValue.

Lemma entries_count (a : list (mark K * AValue)) : (length (entries a) <= length a)%nat.
Proof.
  pose proof (entries_length a). pose proof (countb_bounds used a). pose proof (countb_bounds removed a).
  lia.
Qed.

(** ** Comparison *)

Lemma eq_loop_spec fuel m it l :
  map_ok m -> iter_ok it l -> Forall (fun e => valid_key e.1) l -> (length l < fuel)%nat ->
  sreturns (eq_loop fuel m) it (fun r _ =>
    r = Some (bool_decide (Forall (fun e => key_id e.1 ∈ set_of m) l))).
Proof.
  intros Hm. revert it l. induction fuel as [|fuel IH]; intros it l Hit Hv Hf; [lia|].
  cbn [eq_loop]. eapply sspec_bind; [by apply SetANext_spec|]. intros r it' [-> Hit'].
  destruct l as [|[k v] l]; cbn [head tail fmap option_fmap option_map fst] in *.
  { by apply sspec_ret. }
  apply Forall_cons_1 in Hv as [Hk Hv]. simpl in Hf, Hk.
  eapply sspec_lift_bind.
  { apply (observe_returns m (Set_in k) (fun r => r = Some (bool_decide (key_id k ∈ set_of m)))).
    eapply sreturns_mono; [by apply Set_in_spec|]. by intros r m' [_ ->]. }
  intros r ->. case_bool_decide as Hin.
  - eapply sreturns_mono; [apply (IH it' l); try done; lia|]. intros r _ ->. f_equal.
    apply bool_decide_ext. rewrite Forall_cons_iff. simpl. tauto.
  - apply sspec_ret. rewrite bool_decide_false; [done|]. rewrite Forall_cons_iff. by intros [? _].
Qed.

Lemma set_of_bindings m : set_of m = list_to_set (bindings (MAP_A m)).*1.
Proof. unfold set_of, table_map. apply dom_list_to_map_L. Qed.

Lemma set_of_entries m x : x ∈ set_of m <-> exists e, e ∈ entries (MAP_A m) /\ key_id e.1 = x.
Proof.
  rewrite set_of_bindings, elem_of_list_to_set. unfold bindings. rewrite <- list_fmap_compose.
  rewrite list_elem_of_fmap. naive_solver.
Qed.

Lemma entries_valid m p : table_ok m p -> Forall (fun e => valid_key e.1) (entries (MAP_A m)).
Proof.
  intros Hok. apply list.Forall_forall. intros [k v] Hin.
  apply list_elem_of_omap in Hin as ([c w] & Hin & Hc). apply list_elem_of_lookup in Hin as [i Hi].
  unfold entry in Hc. destruct c; simplify_eq/=. by eapply tk_valid.
Qed.

Lemma table_len_bound m : map_ok m -> 0 <= map_length m < 2 ^ 30.
Proof.
  intros (p & Hok & Hload). pose proof (map_length_size _ _ Hok).
  pose proof (tk_range _ _ Hok). pose proof (Z.pow_le_mono_r 2 p 30 ltac:(lia) ltac:(lia)).
  pose proof (countb_bounds removed (MAP_A m)). rewrite <- (tk_removed _ _ Hok) in *.
  unfold map_length in *. lia.
Qed.

(** Sets compare equal exactly when they have the same elements. *)
Lemma Set_eq_spec m o :
  map_ok m -> map_ok o ->
  sreturns (Set_eq (Some o)) m (fun r m' => m' = m /\ r = Some (bool_decide (set_of m = set_of o))).
Proof.
  intros Hm Ho. unfold Set_eq. apply sspec_get_bind.
  pose proof (table_len_bound _ Ho) as Hlen.
  pose proof Hm as (p & Hok & _). pose proof Ho as (q & Hoko & _).
  eapply sspec_lift_bind.
  { apply (observe_returns o SetLength (fun n => n = map_length o)).
    eapply sreturns_mono; [by apply SetLength_spec|]. intros n m' [_ ->].
    by rewrite (map_length_set _ _ Hoko). }
  intros n ->. apply (sspec_lift_bind _ _ _ (fun z => z = map_length o)).
  { eapply spec_mono; [apply (AGetInt_spec _ (map_length o))|].
    - split; [done|]. unfold short_range, A_SHORT_INT_MIN, A_SHORT_INT_MAX. lia.
    - intros r ->. by replace (_ && _) with true by lia. }
  intros ? ->. fold (map_length m).
  rewrite (map_length_set _ _ Hok), (map_length_set _ _ Hoko).
  destruct (Z.eqb_spec (Z.of_nat (size (set_of o))) (Z.of_nat (size (set_of m)))) as [Hs|Hs]; cbn [negb].
  2: { apply sspec_ret. split; [done|]. rewrite bool_decide_false; [done|]. intros He.
       rewrite He in Hs. lia. }
  apply (sspec_lift_bind _ _ _ (fun it => it = MkIter 0 (2 * zlen (MAP_A o)) (MAP_A o))).
  { apply observe_returns. by apply sspec_get_bind, sspec_ret. }
  intros it ->. eapply sreturns_mono.
  - apply (sreturns_lift _ m (fun r => r = Some (bool_decide
      (Forall (fun e => key_id e.1 ∈ set_of m) (entries (MAP_A o)))))), observe_returns.
    apply (eq_loop_spec _ m _ (entries (MAP_A o))); [done|..].
    + exists 0%nat. simpl. repeat split; lia || done.
    + by eapply entries_valid.
    + simpl. pose proof (entries_count (MAP_A o)). lia.
  - intros r m' [-> ->]. split; [done|]. f_equal. apply bool_decide_ext.
    rewrite list.Forall_forall. split.
    + intros Hall. symmetry. apply set_subseteq_size_eq; [|lia].
      intros x Hx. apply set_of_entries in Hx as (e & He & <-). by apply Hall.
    + intros -> e He. apply set_of_entries. by exists e.
Qed.

(** ** Hash *)

(** The hash of a set with the given elements. *)
Definition xor_hash (l : list I) : Z := foldr (fun x h => Z.lxor (u64 (id_code x * 33313)) h) 0 l.

Lemma xor_hash_app l l' : xor_hash (l ++ l') = Z.lxor (xor_hash l) (xor_hash l').
Proof. induction l as [|x l IH]; simpl; [done|]. by rewrite IH, Z.lxor_assoc. Qed.

#[export] Instance xor_hash_perm : Proper ((≡ₚ) ==> (=)) xor_hash.
Proof.
  induction 1 as [|x l l' _ IH|x y l|l1 l2 l3 _ IH1 _ IH2]; simpl; [done|by rewrite IH| |congruence].
  by rewrite <- !Z.lxor_assoc, (Z.lxor_comm (u64 _)).
Qed.

Lemma Set_hash_spec m :
  map_ok m ->
  sreturns Set_hash m (fun r m' => m' = m /\
    r = Some (AIntToValue (s32 (xor_hash (elements (set_of m)))))).
Proof.
  intros (p & Hok & _). unfold Set_hash. apply sspec_get_bind. pose proof (tk_array _ _ Hok) as Ha.
  apply (sspec_lift_bind _ _ _ (fun r => r = Some (xor_hash (bindings (MAP_A m)).*1))).
  - eapply returns_mono.
    + apply (for_up_inv (fun i r => r = Some (xor_hash (bindings (take (Z.to_nat i) (MAP_A m))).*1))).
      * rewrite (tk_size _ _ Hok). lia.
      * done.
      * intros i r Hi ->. rewrite (tk_size _ _ Hok) in Hi.
        destruct (lookup_lt_is_Some_2 (MAP_A m) (Z.to_nat i)) as [e He]; [lia|].
        eapply returns_bind_evals; [apply AFixArrayItem_evals; [lia|exact He]|].
        replace (Z.to_nat (i + 1)) with (S (Z.to_nat i)) by lia.
        rewrite (bindings_take_S _ _ _ He), fmap_app, xor_hash_app.
        destruct e as [[| |k] v]; cbn [fst];
          [apply returns_ret; simpl; by rewrite Z.lxor_0_r..|].
        eapply returns_bind; [apply hash_law, (tk_valid _ _ Hok _ _ _ He)|]. intros h ->.
        apply returns_ret. simpl. by rewrite Z.lxor_0_r.
    + intros r ->. by rewrite (tk_size _ _ Hok), firstn_all2 by lia.
  - intros r ->. apply sspec_ret. split; [done|].
    do 3 f_equal. apply xor_hash_perm. rewrite set_of_bindings. symmetry.
    apply elements_list_to_set. apply Hok.
Qed.

(** ** Copy *)

Lemma copy_items_spec m p n i s :
  table_ok m p -> 3 * map_length m <= 2 ^ 30 -> map_ok s -> i + Z.of_nat n = 2 ^ p -> 0 <= i ->
  set_of s = list_to_set (bindings (take (Z.to_nat i) (MAP_A m))).*1 ->
  sreturns (copy_items EmptyMarker n i m) s (fun r s' =>
    r = Some tt /\ map_ok s' /\ set_of s' = set_of m).
Proof.
  intros Hok Hbound. pose proof (tk_array _ _ Hok) as Ha. revert i s.
  induction n as [|n IH]; intros i s Hs Hi Hi0 Hset.
  { apply sreturns_ret. split; [done|]. split; [done|]. rewrite Hset, set_of_bindings.
    by rewrite firstn_all2 by lia. }
  cbn [copy_items]. destruct (lookup_lt_is_Some_2 (MAP_A m) (Z.to_nat i)) as [e He]; [lia|].
  eapply sspec_lift_bind.
  { eapply (evals_returns _ e (fun e' => e' = e)); [|done]. apply AFixArrayItem_evals; [lia|done]. }
  intros ? ->.
  assert (Hnext : forall s', map_ok s' -> set_of s' = list_to_set (of_entry e).*1 ∪ set_of s ->
    sreturns (copy_items EmptyMarker n (i + 1) m) s' (fun r s' =>
      r = Some tt /\ map_ok s' /\ set_of s' = set_of m)).
  { intros s' Hs' Hset'. apply IH; [done|lia..|].
    replace (Z.to_nat (i + 1)) with (S (Z.to_nat i)) by lia.
    rewrite (bindings_take_S _ _ _ He), fmap_app, list_to_set_app_L, Hset', Hset.
    apply union_comm_L. }
  destruct (bindings_prefix _ _ _ (tk_distinct _ _ Hok) He) as [Hnd Hcount].
  destruct e as [[| |k] v]; cbn [fst]; [apply Hnext; [done|set_solver]..|].
  eapply sspec_bind.
  - apply (SetAdd_spec EmptyMarker 0 s k Hs); [exact (tk_valid _ _ Hok _ _ _ He)|].
    pose proof Hs as (q & Hoks & _). rewrite (map_length_set _ _ Hoks), Hset.
    rewrite fmap_app in Hnd. apply list.NoDup_app in Hnd as [Hnd _].
    rewrite size_list_to_set, length_fmap by done. simpl in Hcount.
    assert (Z.of_nat (length (bindings (MAP_A m))) = map_length m).
    { unfold map_length. by rewrite bindings_length, (tk_len _ _ Hok), (tk_removed _ _ Hok). }
    lia.
  - intros r s' (-> & Hs' & Hset'). apply Hnext; [done|]. rewrite Hset'. simpl. by rewrite union_empty_r_L.
Qed.

Lemma SetCopy_spec m s :
  map_ok m -> 3 * map_length m <= 2 ^ 30 ->
  sreturns (SetCopy EmptyMarker m) s (fun r s' =>
    r = Some tt /\ map_ok s' /\ set_of s' = set_of m).
Proof.
  intros (p & Hok & _) Hbound. apply (sspec_bind _ _ _ (fun _ s' => map_ok s' /\ table_map s' = ∅)).
  - eapply sspec_bind; [apply initialize_spec|]. intros u m' [Hm' He]. by apply sspec_ret.
  - intros u s' [Hs' He]. rewrite (tk_size _ _ Hok). pose proof (tk_range _ _ Hok).
    pose proof (Z.pow_pos_nonneg 2 p). apply (copy_items_spec m p); try done; try lia.
    unfold set_of. rewrite He, dom_empty_L. done.
Qed.

End sets.
