(* ===== verification/MapProps.v ===== *)
(** * MapProps: the correctness of Map and Set objects

    Sequences of operations on a Map or Set object behave like the same
    sequences on a finite map or set, for any lawful keys; listing and
    iteration; the keys of the runtime are lawful; what a refused allocation
    during a resize leaves behind. *)

From stdpp Require Import gmap.
From S2P Require Import Prelude Runtime Digits Value LongInt LongIntProps IntOps IntConv.
From S2P Require Import IntProps HashTable HashTableSpec HashTableOps MapObject Keys SetObject.

(** ** Operation sequences *)

(** The operations of a Map, and what they answer. *)
Inductive map_op (K V : Type) :=
  | OpSet (k : K) (v : V)
  | OpGet (k : K)
  | OpGetDefault (k : K) (def : V)
  | OpHasKey (k : K)
  | OpRemove (k : K)
  | OpLength.
Arguments OpSet {K V} k v.
Arguments OpGet {K V} k.
Arguments OpGetDefault {K V} k def.
Arguments OpHasKey {K V} k.
Arguments OpRemove {K V} k.
Arguments OpLength {K V}.

Inductive answer (V : Type) :=
  | ANone
  | AVal (v : V)
  | ABool (b : bool)
  | AInt (n : Z)
  | AKeyError
  | AFailed.
Arguments ANone {V}.
Arguments AVal {V} v.
Arguments ABool {V} b.
Arguments AInt {V} n.
Arguments AKeyError {V}.
Arguments AFailed {V}.

(** A call whose [KeyError] is caught by the program. *)
Definition answering {S V A} (c : SM S (option A)) (f : A -> answer V) : SM S (answer V) :=
  fun s t =>
    match c s t with
    | (Ok (Some a), s', t') => (Ok (f a), s', t')
    | (Ok None, s', t') => (Ok AFailed, s', t')
    | (Raise EKeyError, s', t') => (Ok AKeyError, s', t')
    | (Raise e, s', t') => (Raise e, s', t')
    | (Fault, s', t') => (Fault, s', t')
    end.

Fixpoint run_all {S R} (l : list (SM S R)) : SM S (list R) :=
  match l with
  | [] => mret []
  | c :: l => r ← c; rs ← run_all l; mret (r :: rs)
  end.

Section sequences.
Context {K V I : Type} `{LawfulKey K I} (EmptyMarker : V).

Definition do_op (o : map_op K V) : SM (table K V) (answer V) :=
  match o with
  | OpSet k v => answering (AMap_set EmptyMarker 2 k v) (fun _ => ANone)
  | OpGet k => answering (AMap_get k) AVal
  | OpGetDefault k d => answering (AMapGet k d) AVal
  | OpHasKey k => answering (AMapHasKey k) ABool
  | OpRemove k => answering (AMapRemove k) (fun _ => ANone)
  | OpLength => n ← AMapLength; mret (AInt n)
  end.

(** The same operations on a finite map. *)
Definition spec_op (o : map_op K V) (g : gmap I V) : answer V * gmap I V :=
  match o with
  | OpSet k v => (ANone, <[key_id k := v]> g)
  | OpGet k => (match g !! key_id k with Some v => AVal v | None => AKeyError end, g)
  | OpGetDefault k d => (AVal (default d (g !! key_id k)), g)
  | OpHasKey k => (ABool (bool_decide (is_Some (g !! key_id k))), g)
  | OpRemove k =>
    match g !! key_id k with Some _ => (ANone, delete (key_id k) g) | None => (AKeyError, g) end
  | OpLength => (AInt (Z.of_nat (size g)), g)
  end.

Fixpoint spec_all (l : list (map_op K V)) (g : gmap I V) : list (answer V) * gmap I V :=
  match l with
  | [] => ([], g)
  | o :: l => let '(a, g') := spec_op o g in let '(as_, g'') := spec_all l g' in (a :: as_, g'')
  end.

Definition op_valid (o : map_op K V) : Prop :=
  match o with
  | OpSet k _ | OpGet k | OpGetDefault k _ | OpHasKey k | OpRemove k => valid_key k
  | OpLength => True
  end.

Lemma answering_spec {A} (c : SM (table K V) (option A)) f m (Q : answer V -> table K V -> Prop) :
  sspec c m (fun r m' =>
    match r with
    | Ok (Some a) => Q (f a) m'
    | Raise EKeyError => Q AKeyError m'
    | _ => False
    end) -> sreturns (answering c f) m Q.
Proof.
  intros Hc t. specialize (Hc t). unfold answering.
  destruct (c m t) as [[[[a|]|[]|] m'] t']; simpl in *; destruct Hc as [Hh [Hr|[Hr Hs]]];
    try done; split; auto.
Qed.

(** One operation. *)
Lemma do_op_spec o m :
  map_ok m -> op_valid o -> 3 * (map_length m + 1) <= 2 ^ 30 ->
  sreturns (do_op o) m (fun r m' =>
    map_ok m' /\ (r, table_map m') = spec_op o (table_map m) /\ map_length m' <= map_length m + 1).
Proof.
  intros Hm Hv Hb.
  assert (Hgrow : forall m' o', map_ok m' -> table_map m' = (spec_op o' (table_map m)).2 ->
    map_length m' <= map_length m + 1).
  { intros m' o' (p & Hok & _) Hg. pose proof Hm as (q & Hokm & _).
    rewrite (map_length_size _ _ Hok), (map_length_size _ _ Hokm), Hg.
    destruct o'; simpl; try lia.
    - rewrite map_size_insert. destruct (table_map m !! key_id k); simpl; lia.
    - destruct (table_map m !! key_id k) eqn:E; simpl; [|lia]. rewrite map_size_delete, E. simpl. lia. }
  destruct o as [k v|k|k d|k|k|]; simpl do_op.
  - apply answering_spec. eapply sspec_mono; [exact (AMap_set_spec EmptyMarker 0 m k v Hm Hv Hb)|].
    intros [[[]|]|e|] m'; simpl; try done; [|by intros [? _]]. intros (_ & Hm' & Hg).
    split; [done|]. split; [by rewrite Hg|]. by apply (Hgrow m' (OpSet k v)).
  - apply answering_spec. eapply sspec_mono; [exact (MapLookup_spec m k None Hm Hv)|].
    intros r m' [-> ->]. simpl. destruct (table_map m !! key_id k); (split; [done|]); (split; [done|lia]).
  - apply answering_spec. eapply sspec_mono; [exact (MapLookup_spec m k (Some d) Hm Hv)|].
    intros r m' [-> ->]. simpl. destruct (table_map m !! key_id k); (split; [done|]); (split; [done|lia]).
  - apply answering_spec. eapply sspec_mono; [exact (AMapHasKey_spec m k Hm Hv)|].
    intros [r| |] m'; try done. intros [-> ->]. split; [done|]. split; [done|lia].
  - apply answering_spec. eapply sspec_mono; [exact (AMapRemove_spec m k Hm Hv)|].
    intros r m' Hr. simpl. destruct (table_map m !! key_id k) eqn:E.
    + destruct Hr as (-> & Hm' & Hg). split; [done|]. split; [by rewrite Hg|].
      apply (Hgrow m' (OpRemove k) Hm'). simpl. by rewrite E.
    + destruct Hr as [-> ->]. split; [done|]. split; [done|lia].
  - eapply sreturns_bind; [exact (AMapLength_spec m Hm)|]. intros n m' [-> ->].
    apply sreturns_ret. split; [done|]. split; [done|lia].
Qed.

Lemma run_all_spec (l : list (map_op K V)) (m : table K V) :
  map_ok m -> Forall op_valid l -> 3 * (map_length m + zlen l) <= 2 ^ 30 ->
  sreturns (run_all (do_op <$> l)) m (fun rs m' =>
    map_ok m' /\ (rs, table_map m') = spec_all l (table_map m)).
Proof.
  intros Hm Hl. revert m Hm. induction Hl as [|o l Ho Hl IH]; intros m Hm Hb.
  { by apply sreturns_ret. }
  rewrite length_cons in Hb. simpl.
  eapply sreturns_bind; [apply (do_op_spec o m Hm Ho); lia|].
  intros r m1 (Hm1 & Hr & Hlen). eapply sreturns_bind; [apply (IH m1 Hm1); lia|].
  intros rs m2 [Hm2 Hrs]. apply sreturns_ret. split; [done|].
  rewrite <- Hr, <- Hrs. done.
Qed.

(** C1: any sequence of Map operations (set, get, get with a default, hasKey,
    remove, length) on a Map object whose representation invariant holds
    gives, memory permitting, the same answers, [KeyError]s included, as the
    same sequence on the finite map the object stands for; it ends, without a
    fault, in an object whose invariant holds and which stands for the final
    finite map.  The keys are any lawful keys, and the number of items stays
    within the capacity the resize operation can represent. *)
Theorem map_refines_finite_map (l : list (map_op K V)) (m : table K V) :
  map_ok m -> Forall op_valid l -> 3 * (map_length m + zlen l) <= 2 ^ 30 ->
  sreturns (run_all (do_op <$> l)) m (fun rs m' =>
    map_ok m' /\ (rs, table_map m') = spec_all l (table_map m)).
Proof. apply run_all_spec. Qed.

End sequences.

(** The keys of the witnesses: integers and strings, with no other hashable
    objects. *)
Definition no_hash : AValue -> M (option AValue) := fun _ => mret None.
Definition K0 : MapKey AValue := AValue_key no_hash.
Definition L0 : @LawfulKey AValue (Z + list Z) K0 _ _ := AValue_lawful no_hash.

(** The empty table that [AMapInitialize] makes. *)
Definition empty_table : table AValue AValue := MkTable (replicate 4 (Empty, VOther 0)) 0 4 0.

Lemma empty_table_ok : @map_ok AValue AValue (Z + list Z) K0 _ _ L0 empty_table.
Proof.
  exists 2. split; [|done]. apply (proj1 (@fresh_ok AValue AValue _ K0 _ _ L0 (VOther 0) 2 ltac:(lia))).
Qed.

Lemma empty_table_length : map_length empty_table = 0.
Proof. reflexivity. Qed.

Lemma key_si z : short_range z -> value_key (VInt (AIntToValue z)).
Proof. intros Hz. exists z. by split. Qed.

(** Six insertions (which resize the table), a removal and lookups. *)
Definition demo_ops : list (map_op AValue AValue) :=
  let k z := VInt (AIntToValue z) in
  [OpSet (k 1) (VStr [65]); OpSet (k 5) (VStr [66]); OpSet (VLong p70) (VStr [67]);
   OpSet (VStr [49]) (VStr [68]); OpSet (k 1) (VStr [69]); OpRemove (k 5); OpGet (k 1);
   OpGet (k 5); OpHasKey (VLong p70); OpLength].

Definition demo_answers : list (answer AValue) :=
  [ANone; ANone; ANone; ANone; ANone; ANone; AVal (VStr [69]); AKeyError; ABool true; AInt 3].

Lemma demo_ops_valid : Forall (@op_valid AValue AValue _ K0 _ _ L0) demo_ops.
Proof.
  repeat constructor; simpl; try (apply key_si; unfold short_range, A_SHORT_INT_MIN, A_SHORT_INT_MAX; lia);
    (lia || (exists (2 ^ 70); apply p70_repr)).
Qed.

Lemma map_refines_finite_map_witness :
  (@spec_all _ _ _ K0 _ _ L0 demo_ops (@table_map _ _ _ K0 _ _ L0 empty_table)).1 = demo_answers /\
  sreturns (run_all (@do_op AValue AValue K0 (VOther 0) <$> demo_ops)) empty_table (fun rs m' =>
    @map_ok AValue AValue (Z + list Z) K0 _ _ L0 m' /\
    (rs, @table_map _ _ _ K0 _ _ L0 m') =
      @spec_all _ _ _ K0 _ _ L0 demo_ops (@table_map _ _ _ K0 _ _ L0 empty_table)).
Proof.
  split; [vm_compute; reflexivity|].
  apply (@map_refines_finite_map AValue AValue (Z + list Z) K0 _ _ L0 (VOther 0)).
  - exact empty_table_ok.
  - exact demo_ops_valid.
  - vm_compute. discriminate.
Defined.

(** The model runs: the answers of the table itself. *)
Example demo_run : (srun (run_all (@do_op AValue AValue K0 (VOther 0) <$> demo_ops)) empty_table).1 = Ok demo_answers.
Proof. vm_compute. reflexivity. Qed.

(** ** Listing and iteration *)

Section listing.
Context {K V I : Type} `{LawfulKey K I}.

(** A loop over an iterator, as the [for] statement runs it. *)
Fixpoint drain (fuel : nat) : SM (iter K V) (list (K * V)) :=
  match fuel with
  | O => lift fault
  | S fuel =>
    more ← AMapIterHasNext;
    if (more : bool) then x ← AMapIterNext; l ← drain fuel; mret (x :: l) else mret []
  end.

Lemma drain_spec fuel it l :
  iter_ok it l -> (length l < fuel)%nat ->
  sreturns (drain fuel) it (fun r it' => r = l /\ iter_ok it' []).
Proof.
  revert it l. induction fuel as [|fuel IH]; intros it l Hit Hf; [lia|].
  cbn [drain]. eapply sspec_bind; [exact (AMapIterHasNext_spec it l Hit)|].
  intros b it' [-> Hit']. destruct l as [|x l]; cbn [bool_decide]; [by apply sspec_ret|].
  rewrite bool_decide_true by done.
  apply (sspec_bind _ _ _ (fun r it'' => r = x /\ iter_ok it'' l)).
  { eapply sspec_mono; [exact (AMapIterNext_spec it' (x :: l) Hit')|]. by intros r it'' [-> ?]. }
  intros r it'' [-> Hit'']. simpl in Hf. eapply sspec_bind; [apply (IH it'' l Hit''); lia|].
  intros r it3 [-> Hit3]. by apply sspec_ret.
Qed.

(** [items] lists the bindings of a Map in table order, each exactly once
    (the array it fills has room for all of them and no cell is left nil);
    [keys] and [values] list their components in the same order; a loop over
    an iterator of the Map visits the same bindings in the same order and
    ends.  The bindings listed make up the finite map the Map stands for. *)
Theorem map_listing_correct (m : table K V) :
  map_ok m ->
  let l := entries (MAP_A m) in
  sreturns AMapItems m (fun r m' => m' = m /\ r = Some <$> l) /\
  sreturns AMapKeys m (fun r m' => m' = m /\ r = (fun e => Some e.1) <$> l) /\
  sreturns AMapValues m (fun r m' => m' = m /\ r = (fun e => Some e.2) <$> l) /\
  sreturns (it ← AMapIter; lift (observe it (drain (S (length (MAP_A m)))))) m
    (fun r m' => m' = m /\ r = l) /\
  NoDup ((fun e => key_id e.1) <$> l) /\
  table_map m = list_to_map ((fun e => (key_id e.1, e.2)) <$> l).
Proof.
  intros (p & Hok & _) l.
  assert (Hlist : forall X step (f : K -> V -> X), returns step (fun _ => True) ->
    sreturns (m ← get; lift (collect step f m)) m (fun r m' =>
      m' = m /\ r = (fun e => Some (f e.1 e.2)) <$> l)).
  { intros X step f Hs. apply sspec_get_bind. eapply sreturns_mono.
    - apply sreturns_lift, (collect_spec _ _ m p Hok Hs).
    - by intros r m' [-> ->]. }
  split_and!.
  - eapply sreturns_mono; [apply Hlist|].
    + eapply returns_bind; [apply AAlloc_spec|]. intros _ _. apply barrier_spec.
    + intros r m' [-> ->]. split; [done|]. apply list_fmap_ext. by intros ? [].
  - apply Hlist. by apply returns_ret.
  - apply Hlist. by apply returns_ret.
  - apply (sspec_bind _ _ _ (fun it m' => it = MkIter 0 (2 * zlen (MAP_A m)) (MAP_A m) /\ m' = m)).
    { by apply sspec_get_bind, sspec_ret. }
    intros it ? [-> ->].
    apply (sreturns_mono _ _ (fun r m' => r = l /\ m' = m)); [|naive_solver].
    apply (sreturns_lift _ m (fun r => r = l)), observe_returns.
    eapply sreturns_mono; [apply (drain_spec _ _ l)|by intros r it [-> _]].
    + exists 0%nat. simpl. repeat split; lia || done.
    + pose proof (entries_length (MAP_A m)). pose proof (countb_bounds used (MAP_A m)).
      pose proof (countb_bounds removed (MAP_A m)). unfold l. lia.
  - pose proof (tk_distinct _ _ Hok) as Hnd. unfold bindings in Hnd.
    by rewrite <- list_fmap_compose in Hnd.
  - done.
Qed.

End listing.

(** A table of two items and a removed entry. *)
Definition two_ops : list (map_op AValue AValue) :=
  [OpSet (VInt (AIntToValue 5)) (VStr [65]); OpSet (VInt (AIntToValue 2)) (VStr [66])].

Definition two_items : table AValue AValue :=
  MkTable [(Empty, VOther 0); (Item (VInt 20), VStr [65]); (Item (VInt 8), VStr [66]); (Empty, VOther 0)] 2 4 0.

Lemma two_items_run :
  srun (run_all (@do_op AValue AValue K0 (VOther 0) <$> two_ops)) empty_table =
    (Ok [ANone; ANone], two_items).
Proof. reflexivity. Qed.

Lemma two_items_ok : @map_ok AValue AValue (Z + list Z) K0 _ _ L0 two_items.
Proof.
  destruct (sreturns_srun _ _ _ (@run_all_spec AValue AValue (Z + list Z) K0 _ _ L0 (VOther 0) two_ops
    empty_table empty_table_ok ltac:(repeat constructor; simpl; apply key_si; short_unfold; lia)
    ltac:(vm_compute; discriminate))) as (rs & m' & Hrun & Hm' & _).
  rewrite two_items_run in Hrun. by injection Hrun as _ <-.
Qed.

Lemma map_listing_correct_witness :
  entries (MAP_A two_items) = [(VInt 20, VStr [65]); (VInt 8, VStr [66])] /\
  @sreturns _ _ (@AMapItems AValue AValue) two_items (fun r m' =>
    m' = two_items /\ r = [Some (VInt 20, VStr [65]); Some (VInt 8, VStr [66])]).
Proof.
  split; [reflexivity|].
  exact (proj1 (@map_listing_correct AValue AValue (Z + list Z) K0 _ _ L0 two_items two_items_ok)).
Defined.

(** ** Hash chains *)

(** The hash chain [i -> (5 * i + 1) & (size - 1)] visits every entry of a
    table of [2 ^ k] entries within [2 ^ k] steps, from any start: a search
    ends as soon as one entry is empty. *)
Theorem hash_chain_visits_all k i j :
  0 <= k -> 0 <= i < 2 ^ k -> 0 <= j < 2 ^ k ->
  exists n, (n < Z.to_nat (2 ^ k))%nat /\ Nat.iter n (fun i => NextIndex i (2 ^ k - 1)) i = j.
Proof. apply walk_covers. Qed.

Lemma hash_chain_visits_all_witness :
  exists n, (n < Z.to_nat (2 ^ 4))%nat /\ Nat.iter n (fun i => NextIndex i (2 ^ 4 - 1)) 3 = 14.
Proof. apply (hash_chain_visits_all 4 3 14); lia. Defined.

(** ** Keys *)

(** On Int objects and strings, [AIsEq] decides equality of the numbers or
    of the characters, and [AStdHash] followed by [HashToInt] returns a hash
    that depends on the number or the characters only: equal keys hash
    equally, whatever blocks represent them. *)
Theorem value_keys_lawful other a b :
  value_key a -> value_key b ->
  returns (value_eq a b) (fun r => r = bool_decide (value_id a = value_id b)) /\
  returns (@hash_code AValue (AValue_key other) a) (fun r => r = Some (value_code (value_id a))).
Proof. intros Ha Hb. split; [by apply value_eq_law|by apply value_hash_law]. Qed.

Lemma value_keys_lawful_witness :
  returns (value_eq (VLong p70) (VInt (AIntToValue 7))) (fun r => r = false) /\
  returns (@hash_code AValue K0 (VLong p70)) (fun r => r = Some 64).
Proof.
  pose proof (value_keys_lawful no_hash (VLong p70) (VInt (AIntToValue 7))
    (ex_intro _ (2 ^ 70) p70_repr) (key_si 7 ltac:(short_unfold; lia))) as Hw.
  exact Hw.
Defined.

(** ** A refused allocation during a resize *)

(** A thread whose fourth request is refused: in the third insertion into a
    table of four entries, the request for the array of eight entries. *)
Definition refusing : AThread :=
  MkThread (fun n _ => if (n =? 3)%nat then None else Some (fun _ => 0)) 0.

(** When the allocation of the new array in [ResizeMap] is refused, the Map
    is left with the new capacity and the old array: the insertion raises
    [MemoryError], the representation invariant no longer holds, and looking
    up a key that was present before reads outside the array. *)
Lemma refused_resize_breaks_map :
  let '(r, m, _) := @AMap_set AValue AValue K0 (VOther 0) 2 (VInt (AIntToValue 3)) (VStr [67])
    two_items refusing in
  r = Raise EMemoryError /\
  ~ @map_ok AValue AValue (Z + list Z) K0 _ _ L0 m /\
  (srun (@AMap_get AValue AValue K0 (VInt (AIntToValue 5))) two_items).1 = Ok (Some (VStr [65])) /\
  (srun (@AMap_get AValue AValue K0 (VInt (AIntToValue 5))) m).1 = Fault.
Proof.
  set (p := @AMap_set _ _ _ _ _ _ _ _ _). vm_compute in p. subst p. cbv beta iota.
  split; [reflexivity|]. split; [|split; reflexivity].
  intros (k & Hok & _). pose proof (tk_array _ _ Hok) as Ha. pose proof (tk_size _ _ Hok) as Hs.
  simpl in Ha, Hs. lia.
Qed.
