(* ===== verification/SetProps.v ===== *)
(** * SetProps: the correctness of Set objects *)

From stdpp Require Import gmap.
From S2P Require Import Prelude Runtime Digits Value LongInt LongIntProps IntOps IntConv.
From S2P Require Import IntProps HashTable HashTableSpec HashTableOps MapObject Keys SetObject.
From S2P Require Import MapProps.

(** The operations of a Set, and what they answer. *)
Inductive set_op (K : Type) :=
  | OpAdd (k : K)
  | OpIn (k : K)
  | OpDiscard (k : K)
  | OpSize.
Arguments OpAdd {K} k.
Arguments OpIn {K} k.
Arguments OpDiscard {K} k.
Arguments OpSize {K}.

Section sequences.
Context {K I : Type} `{LawfulKey K I} (EmptyMarker : AValue).

Definition do_set_op (o : set_op K) : SM (table K AValue) (answer AValue) :=
  match o with
  | OpAdd k => answering (SetAdd EmptyMarker 2 k) (fun _ => ANone)
  | OpIn k => answering (Set_in k) ABool
  | OpDiscard k => answering (SetRemove k) (fun _ => ANone)
  | OpSize => n ← SetLength; mret (AInt n)
  end.

Definition spec_set_op (o : set_op K) (g : gset I) : answer AValue * gset I :=
  match o with
  | OpAdd k => (ANone, {[key_id k]} ∪ g)
  | OpIn k => (ABool (bool_decide (key_id k ∈ g)), g)
  | OpDiscard k => (ANone, g ∖ {[key_id k]})
  | OpSize => (AInt (Z.of_nat (size g)), g)
  end.

Fixpoint spec_set_all (l : list (set_op K)) (g : gset I) : list (answer AValue) * gset I :=
  match l with
  | [] => ([], g)
  | o :: l =>
    let '(a, g') := spec_set_op o g in let '(as_, g'') := spec_set_all l g' in (a :: as_, g'')
  end.

Definition set_op_valid (o : set_op K) : Prop :=
  match o with OpAdd k | OpIn k | OpDiscard k => valid_key k | OpSize => True end.

Lemma spec_set_op_size o g : (size (spec_set_op o g).2 <= size g + 1)%nat.
Proof.
  destruct o as [k|k|k|]; simpl; try lia.
  - rewrite size_union_alt, size_singleton.
    pose proof (subseteq_size (g ∖ {[key_id k]}) g ltac:(set_solver)). lia.
  - pose proof (subseteq_size (g ∖ {[key_id k]}) g ltac:(set_solver)). lia.
Qed.

Lemma do_set_op_spec o m :
  map_ok m -> set_op_valid o -> 3 * (map_length m + 1) <= 2 ^ 30 ->
  sreturns (do_set_op o) m (fun r m' =>
    map_ok m' /\ (r, set_of m') = spec_set_op o (set_of m) /\ map_length m' <= map_length m + 1).
Proof.
  intros Hm Hv Hb.
  assert (Hend : forall r m', map_ok m' -> (r, set_of m') = spec_set_op o (set_of m) ->
    map_ok m' /\ (r, set_of m') = spec_set_op o (set_of m) /\ map_length m' <= map_length m + 1).
  { intros r m' Hm' Hr. split; [done|]. split; [done|].
    pose proof Hm as (p & Hok & _). pose proof Hm' as (q & Hok' & _).
    rewrite (map_length_set _ _ Hok), (map_length_set _ _ Hok').
    pose proof (spec_set_op_size o (set_of m)). rewrite <- Hr in *. simpl in *. lia. }
  destruct o as [k|k|k|]; simpl do_set_op.
  - apply answering_spec. eapply sspec_mono; [exact (SetAdd_spec EmptyMarker 0 m k Hm Hv Hb)|].
    intros [[[]|]|e|] m'; simpl; try done; [|by intros [? _]]. intros (_ & Hm' & Hg).
    apply Hend; [done|]. by rewrite Hg.
  - apply answering_spec. eapply sspec_mono; [exact (Set_in_spec m k Hm Hv)|].
    intros [r| |] m'; try done. intros [-> ->]. by apply Hend.
  - apply answering_spec. eapply sspec_mono; [exact (SetRemove_spec m k Hm Hv)|].
    intros [[[]|]|e|] m'; simpl; try done; [|by intros [? _]]. intros (_ & Hm' & Hg).
    apply Hend; [done|]. by rewrite Hg.
  - eapply sreturns_bind; [exact (SetLength_spec m Hm)|]. intros n m' [-> ->].
    apply sreturns_ret. by apply Hend.
Qed.

Lemma run_set_spec (l : list (set_op K)) (m : table K AValue) :
  map_ok m -> Forall set_op_valid l -> 3 * (map_length m + zlen l) <= 2 ^ 30 ->
  sreturns (run_all (do_set_op <$> l)) m (fun rs m' =>
    map_ok m' /\ (rs, set_of m') = spec_set_all l (set_of m)).
Proof.
  intros Hm Hl. revert m Hm. induction Hl as [|o l Ho Hl IH]; intros m Hm Hb.
  { by apply sreturns_ret. }
  rewrite length_cons in Hb. simpl.
  eapply sreturns_bind; [apply (do_set_op_spec o m Hm Ho); lia|].
  intros r m1 (Hm1 & Hr & Hlen). eapply sreturns_bind; [apply (IH m1 Hm1); lia|].
  intros rs m2 [Hm2 Hrs]. apply sreturns_ret. split; [done|].
  rewrite <- Hr, <- Hrs. done.
Qed.

(** C7: any sequence of Set operations (add, membership test, remove, length)
    on a Set object whose representation invariant holds gives, memory
    permitting, the same answers as the same sequence on the finite set the
    object stands for, without a fault or an exception, and ends in an object
    whose invariant holds and which stands for the final finite set. *)
Theorem set_refines_finite_set (l : list (set_op K)) (m : table K AValue) :
  map_ok m -> Forall set_op_valid l -> 3 * (map_length m + zlen l) <= 2 ^ 30 ->
  sreturns (run_all (do_set_op <$> l)) m (fun rs m' =>
    map_ok m' /\ (rs, set_of m') = spec_set_all l (set_of m)).
Proof. apply run_set_spec. Qed.

(** Comparing two Sets with [_eq] gives True exactly when they stand for
    the same finite set, whatever the capacity, the order and the removed
    entries of their tables; neither set is changed.  Comparison with an
    object that is not a Set gives False.  Sets that stand for the same finite
    set have the same hash value, and copying a Set gives a Set that stands
    for the same finite set. *)
Theorem Set_eq_hash_copy_correct (m o s : table K AValue) :
  map_ok m -> map_ok o -> 3 * map_length m <= 2 ^ 30 ->
  sreturns (Set_eq (Some o)) m (fun r m' => m' = m /\ r = Some (bool_decide (set_of m = set_of o))) /\
  sreturns (Set_eq None) m (fun r m' => m' = m /\ r = Some false) /\
  (set_of m = set_of o -> exists h, sreturns Set_hash m (fun r m' => m' = m /\ r = Some h) /\
     sreturns Set_hash o (fun r o' => o' = o /\ r = Some h)) /\
  sreturns (SetCopy EmptyMarker m) s (fun r s' => r = Some tt /\ map_ok s' /\ set_of s' = set_of m).
Proof.
  intros Hm Ho Hb. split_and!; [by apply Set_eq_spec|by apply sreturns_ret| |by apply SetCopy_spec].
  intros He. eexists. split; [by apply Set_hash_spec|]. rewrite He. by apply Set_hash_spec.
Qed.

End sequences.

(** Two sets with the same elements, added in different orders; the first also
    has a removed entry. *)
Definition ops_a : list (set_op AValue) :=
  [OpAdd (VInt (AIntToValue 5)); OpAdd (VInt (AIntToValue 7)); OpDiscard (VInt (AIntToValue 7));
   OpAdd (VInt (AIntToValue 2)); OpIn (VInt (AIntToValue 7)); OpSize].
Definition ops_b : list (set_op AValue) :=
  [OpAdd (VInt (AIntToValue 2)); OpAdd (VInt (AIntToValue 5))].

Definition run_set (l : list (set_op AValue)) : outcome (list (answer AValue)) * table AValue AValue :=
  srun (run_all (@do_set_op AValue K0 (VOther 0) <$> l)) empty_table.

Definition set_a : table AValue AValue :=
  Eval vm_compute in (run_set ops_a).2.
Definition set_b : table AValue AValue :=
  Eval vm_compute in (run_set ops_b).2.

Lemma set_runs l r m :
  Forall (@set_op_valid AValue _ K0 _ _ L0) l -> 3 * zlen l <= 2 ^ 30 -> run_set l = (Ok r, m) ->
  @map_ok AValue AValue (Z + list Z) K0 _ _ L0 m.
Proof.
  intros Hl Hb Hr.
  destruct (sreturns_srun _ _ _ (@run_set_spec AValue (Z + list Z) K0 _ _ L0 (VOther 0) l
    empty_table empty_table_ok Hl ltac:(rewrite empty_table_length; lia))) as (rs & m' & Hrun & Hm' & _).
  unfold run_set in Hr. rewrite Hrun in Hr. by injection Hr as _ <-.
Qed.

Lemma set_a_ok : @map_ok AValue AValue (Z + list Z) K0 _ _ L0 set_a.
Proof.
  eapply (set_runs ops_a); [|vm_compute; discriminate|vm_compute; reflexivity].
  repeat constructor; simpl; apply key_si; short_unfold; lia.
Qed.

Lemma set_b_ok : @map_ok AValue AValue (Z + list Z) K0 _ _ L0 set_b.
Proof.
  eapply (set_runs ops_b); [|vm_compute; discriminate|vm_compute; reflexivity].
  repeat constructor; simpl; apply key_si; short_unfold; lia.
Qed.

Lemma set_a_b : @set_of AValue (Z + list Z) K0 _ _ L0 set_a = @set_of AValue (Z + list Z) K0 _ _ L0 set_b.
Proof. vm_compute. reflexivity. Qed.

Lemma set_refines_finite_set_witness :
  (@spec_set_all _ _ K0 _ _ L0 ops_a ∅).1 = [ANone; ANone; ANone; ANone; ABool false; AInt 2] /\
  sreturns (run_all (@do_set_op AValue K0 (VOther 0) <$> ops_a)) empty_table (fun rs m' =>
    @map_ok AValue AValue (Z + list Z) K0 _ _ L0 m' /\
    (rs, @set_of _ _ K0 _ _ L0 m') =
      @spec_set_all _ _ K0 _ _ L0 ops_a (@set_of _ _ K0 _ _ L0 empty_table)).
Proof.
  split; [vm_compute; reflexivity|].
  apply (@set_refines_finite_set AValue (Z + list Z) K0 _ _ L0 (VOther 0)).
  - exact empty_table_ok.
  - repeat constructor; simpl; apply key_si; short_unfold; lia.
  - vm_compute. discriminate.
Defined.

Lemma Set_eq_hash_copy_correct_witness :
  sreturns (@Set_eq AValue K0 (Some set_b)) set_a (fun r m' => m' = set_a /\ r = Some true) /\
  exists h, sreturns (@Set_hash AValue K0) set_a (fun r m' => m' = set_a /\ r = Some h) /\
            sreturns (@Set_hash AValue K0) set_b (fun r m' => m' = set_b /\ r = Some h).
Proof.
  destruct (@Set_eq_hash_copy_correct AValue (Z + list Z) K0 _ _ L0 (VOther 0) set_a set_b set_a
    set_a_ok set_b_ok ltac:(vm_compute; discriminate)) as (Heq & _ & Hhash & _).
  rewrite bool_decide_true in Heq by exact set_a_b. split; [exact Heq|exact (Hhash set_a_b)].
Defined.
