(* ===== verification/Base64.v ===== *)
(** * Base64: the base64 module

    [base64_module.c] on narrow strings: the encoder, the decoder with its
    padding checks, and the text format they implement. *)

From Stdlib Require Import Ascii String.
From Stdlib Require Import String.
From S2P Require Import Prelude Runtime Digits Value LongInt.


Open Scope Z_scope.

(** The characters of a C string literal. *)
Definition str_codes (s : string) : list Z :=
  (fun c => Z.of_N (N_of_ascii c)) <$> list_ascii_of_string s.

Definition Base64Alpha : list Z :=
  str_codes "ABCDEFGHIJKLMNOPQRSTUVWXYZabcdefghijklmnopqrstuvwxyz0123456789+/".

Definition Base64DecMap : list Z := [
  -1; -1; -1; -1; -1; -1; -1; -1; -1; -1; -1; -1; -1; -1; -1; -1;
  -1; -1; -1; -1; -1; -1; -1; -1; -1; -1; -1; -1; -1; -1; -1; -1;
  -1; -1; -1; -1; -1; -1; -1; -1; -1; -1; -1; 62; -1; -1; -1; 63;
  52; 53; 54; 55; 56; 57; 58; 59; 60; 61; -1; -1; -1;  0; -1; -1;
  -1;  0;  1;  2;  3;  4;  5;  6;  7;  8;  9; 10; 11; 12; 13; 14;
  15; 16; 17; 18; 19; 20; 21; 22; 23; 24; 25; -1; -1; -1; -1; -1;
  -1; 26; 27; 28; 29; 30; 31; 32; 33; 34; 35; 36; 37; 38; 39; 40;
  41; 42; 43; 44; 45; 46; 47; 48; 49; 50; 51; -1; -1; -1; -1; -1].

(** ['='] *)
Definition PAD : Z := 61.

(** [AStrItem] and [ASetStrItem] on a narrow string; [hdr] is the byte of
    memory in front of the characters, the top byte of the block header. *)
Definition AStrItem (hdr : Z) (s : list Z) (i : Z) : M Z :=
  if (0 <=? i) && (i <? zlen s) then mret (dg s i)
  else if i =? -1 then mret hdr else fault.

Definition ASetStrItem (s : list Z) (i c : Z) : M (list Z) :=
  if (0 <=? i) && (i <? zlen s) then mret (upd s i (u8 c)) else fault.

(** [AMakeEmptyStr(t, len)]: an uninitialised narrow string. *)
Definition AMakeEmptyStr (len : Z) : M (list Z) :=
  junk ← AAlloc (8 + len);
  mret ((fun i => u8 (junk (Z.of_nat i))) <$> seq 0 (Z.to_nat len)).

(** ** Encoding *)

(** The loop over the chunks of up to three bytes; [i] is the index of the
    chunk's first byte and [resInd] that of its first character. *)
Fixpoint encode_loop (n : nat) (hdr : Z) (s : list Z) (srcLen i resInd : Z) (res : list Z) : M (list Z) :=
  match n with
  | O => mret res
  | S n =>
    c1 ← AStrItem hdr s i;
    c2 ← (if i + 1 <? srcLen then AStrItem hdr s (i + 1) else mret 0);
    c3 ← (if i + 2 <? srcLen then AStrItem hdr s (i + 2) else mret 0);
    let b1 := u8 c1 in let b2 := u8 c2 in let b3 := u8 c3 in
    let out0 := dg Base64Alpha (Z.shiftr b1 2) in
    let out1 := dg Base64Alpha (Z.lor (Z.shiftl (Z.land b1 3) 4) (Z.shiftr b2 4)) in
    let out2 := dg Base64Alpha (Z.lor (Z.shiftl (Z.land b2 15) 2) (Z.shiftr b3 6)) in
    let out3 := dg Base64Alpha (Z.land b3 63) in
    let out3 := if i + 2 >=? srcLen then PAD else out3 in
    let out2 := if i + 1 >=? srcLen then PAD else out2 in
    res ← ASetStrItem res resInd out0;
    res ← ASetStrItem res (resInd + 1) out1;
    res ← ASetStrItem res (resInd + 2) out2;
    res ← ASetStrItem res (resInd + 3) out3;
    encode_loop n hdr s srcLen (i + 3) (resInd + 4) res
  end.

(** [Base64Encode(t, frame)]. *)
Definition Base64Encode (hdr : Z) (s : list Z) : M AValue :=
  let srcLen := s32 (zlen s) in
  let dstLen := s32 (s32 (srcLen + 2) ÷ 3 * 4) in
  res ← AMakeEmptyStr dstLen;
  res ← encode_loop (Z.to_nat ((srcLen + 2) / 3)) hdr s srcLen 0 0 res;
  mret (VStr res).

(** ** Decoding *)

(** Character [j] of the chunk at [i]: its six bits and the bit field of the
    padding characters so far. *)
Definition decode_char (hdr : Z) (s : list Z) (i j pad : Z) : M (Z * Z) :=
  c ← AStrItem hdr s (i + j);
  let pad := if c =? PAD then Z.lor pad (Z.shiftl 1 j) else pad in
  let v := if c <? 128 then dg Base64DecMap c else -1 in
  if v =? -1 then raise EValueError else mret (v, pad).

(** One chunk of four characters at [i], decoded to [res] at [resInd]. *)
Definition decode_chunk (hdr : Z) (s : list Z) (dstLen i resInd : Z) (res : list Z) : M (list Z) :=
  '(in0, pad) ← decode_char hdr s i 0 0;
  '(in1, pad) ← decode_char hdr s i 1 pad;
  '(in2, pad) ← decode_char hdr s i 2 pad;
  '(in3, pad) ← decode_char hdr s i 3 pad;
  let out0 := Z.lor (Z.shiftl in0 2) (Z.shiftr in1 4) in
  let out1 := Z.lor (Z.shiftl (Z.land in1 15) 4) (Z.shiftr in2 2) in
  let out2 := Z.lor (Z.shiftl (Z.land in2 3) 6) in3 in
  res ← ASetStrItem res resInd out0;
  if resInd + 1 <? dstLen then
    res ← ASetStrItem res (resInd + 1) out1;
    if resInd + 2 <? dstLen then
      res ← ASetStrItem res (resInd + 2) out2;
      if negb (pad =? 0) then raise EValueError else mret res
    else if negb (pad =? 8) then raise EValueError else mret res
  else if negb (pad =? 12) then raise EValueError else mret res.

(** The loop over the chunks. *)
Fixpoint decode_loop (n : nat) (hdr : Z) (s : list Z) (dstLen i resInd : Z) (res : list Z) : M (list Z) :=
  match n with
  | O => mret res
  | S n =>
    res ← decode_chunk hdr s dstLen i resInd res;
    decode_loop n hdr s dstLen (i + 4) (resInd + 3) res
  end.

(** [Base64Decode(t, frame)]. *)
Definition Base64Decode (hdr : Z) (s : list Z) : M AValue :=
  let srcLen := s32 (zlen s) in
  let dstLen := srcLen ÷ 4 * 3 in
  dstLen ← (if 0 <? srcLen then
    c ← AStrItem hdr s (srcLen - 1); mret (if c =? PAD then dstLen - 1 else dstLen)
  else mret dstLen);
  dstLen ← (if 0 <? srcLen then
    c ← AStrItem hdr s (srcLen - 2); mret (if c =? PAD then dstLen - 1 else dstLen)
  else mret dstLen);
  res ← AMakeEmptyStr dstLen;
  res ← decode_loop (Z.to_nat (srcLen / 4)) hdr s dstLen 0 0 res;
  if negb (Z.land srcLen 3 =? 0) then raise EValueError else mret (VStr res).

(** ** The text format *)

(** The four six-bit groups of three bytes. *)
Definition sextets (b1 b2 b3 : Z) : Z * Z * Z * Z :=
  let n := b1 * 65536 + b2 * 256 + b3 in (n / 262144, n / 4096 mod 64, n / 64 mod 64, n mod 64).

Definition alpha (x : Z) : Z := dg Base64Alpha x.

(** The base64 text of a byte string. *)
Fixpoint b64_text (s : list Z) : list Z :=
  match s with
  | [] => []
  | [b1] => let '(x, y, _, _) := sextets b1 0 0 in [alpha x; alpha y; PAD; PAD]
  | [b1; b2] => let '(x, y, z, _) := sextets b1 b2 0 in [alpha x; alpha y; alpha z; PAD]
  | b1 :: b2 :: b3 :: s' =>
    let '(x, y, z, w) := sextets b1 b2 b3 in alpha x :: alpha y :: alpha z :: alpha w :: b64_text s'
  end.

(** The six bits of a character of the alphabet. *)
Definition value_of (c : Z) : option Z :=
  if (c =? PAD) || negb ((0 <=? c) && (c <? 128)) || (dg Base64DecMap c =? -1) then None
  else Some (dg Base64DecMap c).

(** The bytes a base64 text stands for: groups of four characters, of which
    only the last may end in one or two padding characters. *)
Fixpoint b64_parse (s : list Z) : option (list Z) :=
  match s with
  | [] => Some []
  | c1 :: c2 :: c3 :: c4 :: s' =>
    x ← value_of c1; y ← value_of c2;
    if (c3 =? PAD) && (c4 =? PAD) && bool_decide (s' = []) then Some [x * 4 + y / 16]
    else z ← value_of c3;
      if (c4 =? PAD) && bool_decide (s' = []) then Some [x * 4 + y / 16; y mod 16 * 16 + z / 4]
      else w ← value_of c4; l ← b64_parse s';
        Some (x * 4 + y / 16 :: y mod 16 * 16 + z / 4 :: z mod 4 * 64 + w :: l)
  | _ => None
  end.

(** ** Bit fields *)

Lemma encode_fields b1 b2 b3 :
  byte b1 -> byte b2 -> byte b3 ->
  (Z.shiftr b1 2, Z.lor (Z.shiftl (Z.land b1 3) 4) (Z.shiftr b2 4),
   Z.lor (Z.shiftl (Z.land b2 15) 2) (Z.shiftr b3 6), Z.land b3 63) = sextets b1 b2 b3.
Proof.
  unfold byte. intros. unfold sextets. rewrite !shiftr_div by lia.
  change 3 with (Z.ones 2). change 15 with (Z.ones 4). change 63 with (Z.ones 6).
  rewrite !low_bits by lia. simpl (2 ^ _).
  rewrite !fields by (simpl; zsolve). simpl (2 ^ _).
  f_equal; [f_equal; [f_equal|]|]; zsolve.
Qed.

Lemma decode_fields x y z w :
  0 <= x < 64 -> 0 <= y < 64 -> 0 <= z < 64 -> 0 <= w < 64 ->
  u8 (Z.lor (Z.shiftl x 2) (Z.shiftr y 4)) = x * 4 + y / 16 /\
  u8 (Z.lor (Z.shiftl (Z.land y 15) 4) (Z.shiftr z 2)) = y mod 16 * 16 + z / 4 /\
  u8 (Z.lor (Z.shiftl (Z.land z 3) 6) w) = z mod 4 * 64 + w.
Proof.
  intros. rewrite !shiftr_div by lia.
  change 3 with (Z.ones 2). change 15 with (Z.ones 4). rewrite !low_bits by lia. simpl (2 ^ _).
  rewrite !fields by (simpl; zsolve). simpl (2 ^ _). unfold u8. zsolve.
Qed.

(** ** The alphabet *)

Lemma alphabet_table :
  forallb (fun n => let c := alpha (Z.of_nat n) in
    (dg Base64DecMap c =? Z.of_nat n) && negb (c =? PAD) && (0 <=? c) && (c <? 128)) (seq 0 64) = true.
Proof. vm_compute. reflexivity. Qed.

Lemma alpha_spec x :
  0 <= x < 64 -> dg Base64DecMap (alpha x) = x /\ alpha x <> PAD /\ 0 <= alpha x < 128.
Proof.
  intros Hx. pose proof alphabet_table as Ht. rewrite forallb_forall in Ht.
  specialize (Ht (Z.to_nat x)). rewrite Z2Nat.id in Ht by lia.
  rewrite in_seq in Ht. specialize (Ht ltac:(lia)). cbv beta zeta in Ht. lia.
Qed.

Lemma value_of_alpha x : 0 <= x < 64 -> value_of (alpha x) = Some x.
Proof.
  intros Hx. destruct (alpha_spec x Hx) as (Hd & Hp & Hr). unfold value_of. rewrite Hd.
  by replace (_ || _) with false by lia.
Qed.

Lemma alphabet_range :
  forallb (fun n => (dg Base64DecMap (Z.of_nat n) =? -1) ||
    ((0 <=? dg Base64DecMap (Z.of_nat n)) && (dg Base64DecMap (Z.of_nat n) <? 64))) (seq 0 128) = true.
Proof. vm_compute. reflexivity. Qed.

Lemma DecMap_range c : 0 <= c < 128 -> dg Base64DecMap c = -1 \/ 0 <= dg Base64DecMap c < 64.
Proof.
  intros Hc. pose proof alphabet_range as Ht. rewrite forallb_forall in Ht.
  specialize (Ht (Z.to_nat c)). rewrite Z2Nat.id in Ht by lia.
  rewrite in_seq in Ht. specialize (Ht ltac:(lia)). cbv beta zeta in Ht. lia.
Qed.

Lemma sextets_range b1 b2 b3 : byte b1 -> byte b2 -> byte b3 ->
  let '(x, y, z, w) := sextets b1 b2 b3 in
  0 <= x < 64 /\ 0 <= y < 64 /\ 0 <= z < 64 /\ 0 <= w < 64 /\
  x * 4 + y / 16 = b1 /\ y mod 16 * 16 + z / 4 = b2 /\ z mod 4 * 64 + w = b3.
Proof. unfold byte, sextets. intros. zsolve. Qed.

(** Parsing the text of a byte string gives the string back. *)
Lemma parse_text s : Forall byte s -> b64_parse (b64_text s) = Some s.
Proof.
  assert (H0 : byte 0) by (unfold byte; lia).
  induction s as [s IH] using (induction_ltof1 _ length). unfold ltof in IH. intros Hs.
  destruct s as [|b1 [|b2 [|b3 s]]]; [done|..];
    repeat (apply Forall_cons_1 in Hs as [? Hs]).
  - pose proof (sextets_range b1 0 0 ltac:(done) H0 H0) as Hx. cbn [b64_text].
    destruct (sextets b1 0 0) as [[[x y] z] w]. cbn [b64_parse].
    rewrite !value_of_alpha by lia. simpl. f_equal. f_equal. lia.
  - pose proof (sextets_range b1 b2 0 ltac:(done) ltac:(done) H0) as Hx. cbn [b64_text].
    destruct (sextets b1 b2 0) as [[[x y] z] w]. cbn [b64_parse].
    destruct (alpha_spec z ltac:(lia)) as (_ & Hz & _).
    rewrite !value_of_alpha by lia. cbn [mbind option_bind].
    rewrite (proj2 (Z.eqb_neq (alpha z) PAD) Hz). simpl. f_equal. f_equal; [lia|f_equal; lia].
  - pose proof (sextets_range b1 b2 b3 ltac:(done) ltac:(done) ltac:(done)) as Hx. cbn [b64_text].
    destruct (sextets b1 b2 b3) as [[[x y] z] w]. cbn [b64_parse].
    destruct (alpha_spec z ltac:(lia)) as (_ & Hz & _). destruct (alpha_spec w ltac:(lia)) as (_ & Hw & _).
    rewrite !value_of_alpha by lia. cbn [mbind option_bind].
    rewrite (proj2 (Z.eqb_neq (alpha z) PAD) Hz), (proj2 (Z.eqb_neq (alpha w) PAD) Hw).
    cbn [andb]. rewrite (IH s) by (simpl; lia || done).
    cbn [mbind option_bind]. do 2 f_equal; [lia|f_equal; [lia|f_equal; lia]].
Qed.

(** * The encoder writes, and the decoder parses, base64 text *)


Import List.

Open Scope Z_scope.

(** ** Reading and writing characters *)

Lemma AStrItem_at hdr l x r : evals (AStrItem hdr (l ++ x :: r) (zlen l)) x.
Proof.
  unfold AStrItem. rewrite length_app. simpl length.
  rewrite in_bounds by lia. unfold dg. rewrite Nat2Z.id, nth_middle. apply evals_ret.
Qed.

Lemma AStrItem_off hdr l m x r k :
  k = zlen m -> evals (AStrItem hdr (l ++ m ++ x :: r) (zlen l + k)) x.
Proof.
  intros ->. rewrite app_assoc. replace (zlen l + zlen m) with (zlen (l ++ m)) by (rewrite length_app; lia).
  apply AStrItem_at.
Qed.

Lemma ASetStrItem_at T x J c : evals (ASetStrItem (T ++ x :: J) (zlen T) c) (T ++ u8 c :: J).
Proof.
  unfold ASetStrItem. rewrite length_app. simpl length. rewrite in_bounds by lia.
  unfold upd. rewrite Nat2Z.id, insert_app_r_alt, Nat.sub_diag by lia. apply evals_ret.
Qed.

Lemma ASetStrItem_off T m x J c k :
  k = zlen m -> evals (ASetStrItem (T ++ m ++ x :: J) (zlen T + k) c) (T ++ m ++ u8 c :: J).
Proof.
  intros ->. rewrite !app_assoc. replace (zlen T + zlen m) with (zlen (T ++ m)) by (rewrite length_app; lia).
  apply ASetStrItem_at.
Qed.

Lemma AMakeEmptyStr_spec n :
  0 <= n -> returns (AMakeEmptyStr n) (fun s => zlen s = n).
Proof.
  intros Hn. eapply returns_bind; [apply AAlloc_spec|]. intros junk _. apply returns_ret.
  rewrite length_fmap, length_seq. lia.
Qed.

(** ** Encoding *)

Lemma alpha_byte x : 0 <= x < 64 -> u8 (alpha x) = alpha x.
Proof. intros Hx. destruct (alpha_spec x Hx) as (_ & _ & ?). apply u8_byte. unfold byte. lia. Qed.

(** The stores of the four characters of a chunk. *)
Lemma store4 {B} T a b c d J o0 o1 o2 o3 (k : list Z -> M B) Q :
  returns (k (T ++ u8 o0 :: u8 o1 :: u8 o2 :: u8 o3 :: J)) Q ->
  returns (res ← ASetStrItem (T ++ a :: b :: c :: d :: J) (zlen T) o0;
    res ← ASetStrItem res (zlen T + 1) o1;
    res ← ASetStrItem res (zlen T + 2) o2;
    res ← ASetStrItem res (zlen T + 3) o3; k res) Q.
Proof.
  intros Hk. eapply returns_bind_evals; [apply ASetStrItem_at|].
  eapply returns_bind_evals; [by apply (ASetStrItem_off T [_])|].
  eapply returns_bind_evals; [by apply (ASetStrItem_off T [_; _])|].
  eapply returns_bind_evals; [by apply (ASetStrItem_off T [_; _; _])|]. exact Hk.
Qed.

(** The characters written for a chunk that starts with [b1]. *)
Lemma encode_chunk hdr pre rest b1 b2 b3 r :
  Forall byte (b1 :: rest) -> byte b2 -> byte b3 ->
  (rest = [] /\ b2 = 0 /\ b3 = 0 /\ r = []) \/ (rest = [b2] /\ b3 = 0 /\ r = []) \/
    (rest = b2 :: b3 :: r) ->
  forall n T a b c d J, 
  returns (encode_loop n hdr (pre ++ b1 :: rest) (zlen (pre ++ b1 :: rest)) (zlen pre + 3) (zlen T + 4)
    (T ++ take 4 (b64_text (b1 :: rest)) ++ J)) (fun res => res = T ++ b64_text (b1 :: rest)) ->
  returns (encode_loop (S n) hdr (pre ++ b1 :: rest) (zlen (pre ++ b1 :: rest)) (zlen pre) (zlen T)
    (T ++ a :: b :: c :: d :: J))
    (fun res => res = T ++ b64_text (b1 :: rest)).
Proof.
  intros Hbytes Hb2 Hb3 Hcases n T a b c d J Hk. apply Forall_cons_1 in Hbytes as [Hb1 _].
  cbn [encode_loop]. eapply returns_bind_evals; [apply AStrItem_at|].
  pose proof (encode_fields b1 b2 b3 Hb1 Hb2 Hb3) as Hf.
  pose proof (sextets_range b1 b2 b3 Hb1 Hb2 Hb3) as Hr.
  assert (Hlen : zlen (pre ++ b1 :: rest) = zlen pre + 1 + zlen rest) by (rewrite length_app; simpl; lia).
  rewrite Hlen in *.
  assert (Hc2 : evals (if zlen pre + 1 <? zlen pre + 1 + zlen rest
    then AStrItem hdr (pre ++ b1 :: rest) (zlen pre + 1) else mret 0) b2).
  { destruct Hcases as [(-> & -> & _)|[(-> & _)| -> ]]; simpl length.
    - test (_ <? _) false. apply evals_ret.
    - test (_ <? _) true. by apply (AStrItem_off hdr pre [b1] b2 []).
    - test (_ <? _) true. by apply (AStrItem_off hdr pre [b1] b2 (b3 :: r)). }
  assert (Hc3 : evals (if zlen pre + 2 <? zlen pre + 1 + zlen rest
    then AStrItem hdr (pre ++ b1 :: rest) (zlen pre + 2) else mret 0) b3).
  { destruct Hcases as [(-> & _ & -> & _)|[(-> & -> & _)| -> ]]; simpl length.
    - test (_ <? _) false. apply evals_ret.
    - test (_ <? _) false. apply evals_ret.
    - test (_ <? _) true. by apply (AStrItem_off hdr pre [b1; b2] b3 r). }
  eapply returns_bind_evals; [exact Hc2|]. eapply returns_bind_evals; [exact Hc3|].
  rewrite !u8_byte by done. cbv zeta.
  destruct (sextets b1 b2 b3) as [[[x y] z] w] eqn:Hs. injection Hf as -> -> -> ->.
  fold (alpha x) (alpha y) (alpha z) (alpha w). apply store4.
  assert (HP : u8 PAD = PAD) by done.
  destruct Hcases as [(-> & -> & -> & ->)|[(-> & -> & ->)| -> ]]; cbn [b64_text] in *; simpl length in *;
    rewrite Hs in *.
  - test (zlen pre + 2 >=? _) true. test (zlen pre + 1 >=? _) true.
    rewrite !alpha_byte, HP by lia. exact Hk.
  - test (zlen pre + 2 >=? _) true. test (zlen pre + 1 >=? _) false.
    rewrite !alpha_byte, HP by lia. exact Hk.
  - test (zlen pre + 2 >=? _) false. test (zlen pre + 1 >=? _) false.
    rewrite !alpha_byte by lia. exact Hk.
Qed.

Lemma encode_loop_spec hdr n pre rest T J :
  Forall byte rest -> Z.of_nat n = (zlen rest + 2) / 3 -> zlen J = 4 * Z.of_nat n ->
  returns (encode_loop n hdr (pre ++ rest) (zlen (pre ++ rest)) (zlen pre) (zlen T) (T ++ J)) (fun res =>
    res = T ++ b64_text rest).
Proof.
  assert (H0 : byte 0) by (unfold byte; lia).
  revert pre rest T J. induction n as [|n IH]; intros pre rest T J Hb Hn HJ.
  - destruct rest; [|simpl in Hn; exfalso; zsolve]. destruct J; [|simpl in HJ; lia].
    by apply returns_ret.
  - destruct J as [|a [|b [|c [|d J]]]]; simpl in HJ; try lia.
    destruct rest as [|b1 rest]; [simpl in Hn; exfalso; zsolve|].
    pose proof Hb as Hb'. apply Forall_cons_1 in Hb' as [_ Hrest].
    destruct rest as [|b2 [|b3 r]].
    + apply (encode_chunk hdr pre [] b1 0 0 []); [done..|auto|].
      simpl in Hn. assert (n = 0)%nat as -> by zsolve. destruct J; [|simpl in HJ; lia].
      cbn [b64_text take app]. destruct (sextets b1 0 0) as [[[x y] z] w]. by apply returns_ret.
    + apply Forall_cons_1 in Hrest as [? _].
      apply (encode_chunk hdr pre [b2] b1 b2 0 []); [done..|auto|].
      simpl in Hn. assert (n = 0)%nat as -> by zsolve. destruct J; [|simpl in HJ; lia].
      cbn [b64_text take app]. destruct (sextets b1 b2 0) as [[[x y] z] w]. by apply returns_ret.
    + apply Forall_cons_1 in Hrest as [? Hrest]. apply Forall_cons_1 in Hrest as [? Hrest].
      apply (encode_chunk hdr pre (b2 :: b3 :: r) b1 b2 b3 r); [done..|auto|].
      cbn [b64_text]. destruct (sextets b1 b2 b3) as [[[x y] z] w].
      set (q := [alpha x; alpha y; alpha z; alpha w]).
      replace (pre ++ b1 :: b2 :: b3 :: r) with ((pre ++ [b1; b2; b3]) ++ r)
        by (by rewrite <- app_assoc).
      replace (zlen pre + 3) with (zlen (pre ++ [b1; b2; b3])) by (rewrite length_app; simpl; lia).
      replace (zlen T + 4) with (zlen (T ++ q)) by (rewrite length_app; simpl; lia).
      change (take 4 _) with q. rewrite app_assoc.
      change (alpha x :: alpha y :: alpha z :: alpha w :: b64_text r) with (q ++ b64_text r).
      rewrite (app_assoc T q). simpl in Hn. apply IH; [done|zsolve|lia].
Qed.

Lemma Base64Encode_spec hdr s :
  Forall byte s -> zlen s <= 2 ^ 30 -> returns (Base64Encode hdr s) (fun v => v = VStr (b64_text s)).
Proof.
  intros Hs Hl. unfold Base64Encode. cbv zeta. rewrite (s32_small (zlen s)), (s32_small (zlen s + 2)) by lia.
  rewrite Z.quot_div_nonneg, s32_small by (lia || zsolve).
  eapply returns_bind; [apply AMakeEmptyStr_spec; zsolve|]. intros J HJ.
  eapply returns_bind.
  - apply (encode_loop_spec hdr _ [] s [] J Hs); [|]; rewrite Z2Nat.id by zsolve; [done|rewrite HJ; apply Z.mul_comm].
  - intros res ->. by apply returns_ret.
Qed.

(** ** Decoding *)

(** The effect of [decode_char] on a character. *)
Definition dchar (c j pad : Z) : option (Z * Z) :=
  let pad := if c =? PAD then Z.lor pad (Z.shiftl 1 j) else pad in
  let v := if c <? 128 then dg Base64DecMap c else -1 in
  if v =? -1 then None else Some (v, pad).

(** An option as the outcome of a call that raises [ValueError]. *)
Definition or_ValueError {A} (o : option A) : outcome A :=
  match o with Some a => Ok a | None => Raise EValueError end.

Lemma yields_bind {A B} (m : M A) (f : A -> M B) (o : option A) (g : A -> option B) :
  yields m (or_ValueError o) -> (forall a, o = Some a -> yields (f a) (or_ValueError (g a))) ->
  yields (m ≫= f) (or_ValueError (o ≫= g)).
Proof.
  intros Hm Hf. destruct o as [a|]; simpl.
  - apply (spec_bind _ _ (fun a' => a' = a)); [|intros a' ->; by apply Hf].
    eapply spec_mono; [exact Hm|]. by intros r ->.
  - by apply raises_bind.
Qed.

Lemma decode_char_spec hdr l m x r j pad :
  j = zlen m -> yields (decode_char hdr (l ++ m ++ x :: r) (zlen l) j pad) (or_ValueError (dchar x j pad)).
Proof.
  intros Hj. eapply spec_bind_evals; [by apply AStrItem_off|]. unfold dchar. cbv zeta.
  destruct (_ =? -1); [by apply spec_raise|by apply spec_ret].
Qed.

(** The effect of a chunk on a result of which [T] is written and [J] is not. *)
Definition chunk_out (c1 c2 c3 c4 : Z) (T J : list Z) : option (list Z) :=
  '(v0, p) ← dchar c1 0 0; '(v1, p) ← dchar c2 1 p; '(v2, p) ← dchar c3 2 p; '(v3, p) ← dchar c4 3 p;
  let o0 := u8 (Z.lor (Z.shiftl v0 2) (Z.shiftr v1 4)) in
  let o1 := u8 (Z.lor (Z.shiftl (Z.land v1 15) 4) (Z.shiftr v2 2)) in
  let o2 := u8 (Z.lor (Z.shiftl (Z.land v2 3) 6) v3) in
  match J with
  | [] => None
  | [_] => if p =? 12 then Some (T ++ [o0]) else None
  | [_; _] => if p =? 8 then Some (T ++ [o0; o1]) else None
  | _ :: _ :: _ :: J' => if p =? 0 then Some (T ++ o0 :: o1 :: o2 :: J') else None
  end.

Lemma decode_chunk_spec hdr pre c1 c2 c3 c4 r T J :
  J <> [] ->
  yields (decode_chunk hdr (pre ++ c1 :: c2 :: c3 :: c4 :: r) (zlen T + zlen J) (zlen pre) (zlen T) (T ++ J))
    (or_ValueError (chunk_out c1 c2 c3 c4 T J)).
Proof.
  intros HJ. unfold decode_chunk, chunk_out.
  apply yields_bind; [by apply (decode_char_spec hdr pre [])|]. intros [v0 p0] _.
  apply yields_bind; [by apply (decode_char_spec hdr pre [_])|]. intros [v1 p1] _.
  apply yields_bind; [by apply (decode_char_spec hdr pre [_; _])|]. intros [v2 p2] _.
  apply yields_bind; [by apply (decode_char_spec hdr pre [_; _; _])|].
  intros [v3 p3] _. cbv zeta.
  destruct J as [|x0 J]; [done|]. eapply spec_bind_evals; [apply ASetStrItem_at|].
  destruct J as [|x1 J]; simpl length.
  { test (_ <? _) false. destruct (p3 =? 12); [by apply spec_ret|by apply spec_raise]. }
  test (_ <? _) true. eapply spec_bind_evals; [by apply (ASetStrItem_off T [_])|].
  destruct J as [|x2 J]; simpl length.
  { test (_ <? _) false. destruct (p3 =? 8); [by apply spec_ret|by apply spec_raise]. }
  test (_ <? _) true. eapply spec_bind_evals; [by apply (ASetStrItem_off T [_; _])|].
  destruct (p3 =? 0); [by apply spec_ret|by apply spec_raise].
Qed.

(** A character is a padding character, foreign, or has six bits. *)
Lemma char_cases c : 0 <= c ->
  (c = PAD /\ value_of c = None /\ forall j p, dchar c j p = Some (0, Z.lor p (Z.shiftl 1 j))) \/
  (c <> PAD /\ value_of c = None /\ forall j p, dchar c j p = None) \/
  (c <> PAD /\ exists v, 0 <= v < 64 /\ value_of c = Some v /\ forall j p, dchar c j p = Some (v, p)).
Proof.
  intros Hc. destruct (Z.eq_dec c PAD) as [->|Hp]; [left; done|right].
  unfold value_of, dchar. rewrite (proj2 (Z.eqb_neq c PAD) Hp). simpl.
  test (0 <=? c) true. destruct (Z.ltb_spec c 128) as [Hl|Hl]; simpl; [|left; done].
  destruct (DecMap_range c ltac:(lia)) as [->|Hr]; [left; done|right].
  rewrite (proj2 (Z.eqb_neq (dg Base64DecMap c) (-1))) by lia. simpl. split; [done|].
  by exists (dg Base64DecMap c).
Qed.

Lemma chunk_out_parse c1 c2 c3 c4 T J :
  0 <= c1 -> 0 <= c2 -> 0 <= c3 -> 0 <= c4 -> J <> [] ->
  chunk_out c1 c2 c3 c4 T J =
    (x ← value_of c1; y ← value_of c2;
     match J with
     | [_] => if (c3 =? PAD) && (c4 =? PAD) then Some (T ++ [x * 4 + y / 16]) else None
     | [_; _] => z ← value_of c3;
       if c4 =? PAD then Some (T ++ [x * 4 + y / 16; y mod 16 * 16 + z / 4]) else None
     | _ => z ← value_of c3; w ← value_of c4;
       Some (T ++ x * 4 + y / 16 :: y mod 16 * 16 + z / 4 :: z mod 4 * 64 + w :: drop 3 J)
     end).
Proof.
  intros H1 H2 H3 H4 HJ. unfold chunk_out.
  assert (Hshape : (exists a, J = [a]) \/ (exists a b, J = [a; b]) \/ exists a b c J', J = a :: b :: c :: J').
  { destruct J as [|a [|b [|c J]]]; eauto 8; done. }
  destruct (char_cases c1 H1) as [(E1 & V1 & D1)|[(E1 & V1 & D1)|(E1 & v1 & R1 & V1 & D1)]];
  destruct (char_cases c2 H2) as [(E2 & V2 & D2)|[(E2 & V2 & D2)|(E2 & v2 & R2 & V2 & D2)]];
  destruct (char_cases c3 H3) as [(E3 & V3 & D3)|[(E3 & V3 & D3)|(E3 & v3 & R3 & V3 & D3)]];
  destruct (char_cases c4 H4) as [(E4 & V4 & D4)|[(E4 & V4 & D4)|(E4 & v4 & R4 & V4 & D4)]];
    rewrite ?V1, ?V2, ?V3, ?V4, D1; simpl; rewrite ?D2; simpl; rewrite ?D3; simpl; rewrite ?D4; simpl;
    rewrite ?(proj2 (Z.eqb_eq _ _) E3), ?(proj2 (Z.eqb_eq _ _) E4),
      ?(proj2 (Z.eqb_neq _ _) E3), ?(proj2 (Z.eqb_neq _ _) E4);
    destruct Hshape as [(a & ->)|[(a & b & ->)|(a & b & c & J' & ->)]]; simpl; try done.
  - by destruct (decode_fields v1 v2 0 0) as (-> & _ & _); [lia..|].
  - by destruct (decode_fields v1 v2 v3 0) as (-> & -> & _); [lia..|].
  - by destruct (decode_fields v1 v2 v3 v4) as (-> & -> & ->); [lia..|].
Qed.

(** The number of padding characters at the end of a text. *)
Definition end_pads (s : list Z) : Z :=
  Z.b2z (dg s (zlen s - 1) =? PAD) + Z.b2z (dg s (zlen s - 2) =? PAD).

Lemma dg_skip4 c1 c2 c3 c4 s i : 4 <= i -> dg (c1 :: c2 :: c3 :: c4 :: s) i = dg s (i - 4).
Proof.
  intros Hi. unfold dg. replace (Z.to_nat i) with (S (S (S (S (Z.to_nat (i - 4)))))) by lia. done.
Qed.

Lemma end_pads_rest c1 c2 c3 c4 s :
  4 <= zlen s -> end_pads (c1 :: c2 :: c3 :: c4 :: s) = end_pads s.
Proof.
  intros Hs. unfold end_pads. rewrite !length_cons, !dg_skip4 by lia.
  replace (Z.of_nat (S (S (S (S (length s))))) - 1 - 4) with (zlen s - 1) by lia.
  by replace (Z.of_nat (S (S (S (S (length s))))) - 2 - 4) with (zlen s - 2) by lia.
Qed.

Lemma end_pads_range s : 0 <= end_pads s <= 2.
Proof. unfold end_pads. destruct (_ =? PAD), (_ =? PAD); simpl; lia. Qed.

(** The last chunk of a text: the room left in the result is determined by the
    padding. *)
Lemma last_chunk c1 c2 c3 c4 T J :
  0 <= c1 -> 0 <= c2 -> 0 <= c3 -> 0 <= c4 -> zlen J = 3 - end_pads [c1; c2; c3; c4] ->
  chunk_out c1 c2 c3 c4 T J = (d ← b64_parse [c1; c2; c3; c4]; Some (T ++ d)).
Proof.
  intros H1 H2 H3 H4 HJ. unfold end_pads in HJ.
  change (dg [c1; c2; c3; c4] (zlen [c1; c2; c3; c4] - 1)) with c4 in HJ.
  change (dg [c1; c2; c3; c4] (zlen [c1; c2; c3; c4] - 2)) with c3 in HJ.
  assert (HJ1 : J <> []) by (intros ->; destruct (c4 =? PAD), (c3 =? PAD); simpl in HJ; lia).
  rewrite chunk_out_parse by done. cbn [b64_parse].
  destruct (value_of c1) as [x|]; [|done]. destruct (value_of c2) as [y|]; [|done].
  cbn [mbind option_bind].
  destruct (c4 =? PAD) eqn:E4, (c3 =? PAD) eqn:E3; simpl in HJ;
    destruct J as [|j1 [|j2 [|j3 [|j4 J]]]]; simpl in HJ; try lia; try done; simpl.
  - apply Z.eqb_eq in E4 as ->. by destruct (value_of c3) as [z|].
  - apply Z.eqb_eq in E3 as ->. done.
  - by destruct (value_of c3) as [z|], (value_of c4) as [w|].
Qed.

(** A chunk that is not the last. *)
Lemma middle_chunk c1 c2 c3 c4 r T J :
  0 <= c1 -> 0 <= c2 -> 0 <= c3 -> 0 <= c4 -> r <> [] -> 3 <= zlen J ->
  (res ← chunk_out c1 c2 c3 c4 T J; d ← b64_parse r; Some (take (length T + 3) res ++ d)) =
    (d ← b64_parse (c1 :: c2 :: c3 :: c4 :: r); Some (T ++ d)).
Proof.
  intros H1 H2 H3 H4 Hr HJ. destruct J as [|j1 [|j2 [|j3 J]]]; simpl in HJ; try lia.
  rewrite chunk_out_parse by done. cbn [b64_parse]. rewrite !(bool_decide_false (r = [])), !andb_false_r by done.
  destruct (value_of c1) as [x|], (value_of c2) as [y|], (value_of c3) as [z|], (value_of c4) as [w|];
    try done; simpl.
  destruct (b64_parse r) as [d|]; [|done]. simpl. f_equal.
  rewrite take_app_add. simpl. by rewrite <- app_assoc.
Qed.

(** The loop parses the rest of the text into the rest of the result. *)
Lemma decode_loop_spec hdr n pre rest T J :
  Forall (fun c => 0 <= c) rest -> zlen rest = 4 * Z.of_nat n ->
  zlen J = 3 * Z.of_nat n - (if (n =? 0)%nat then 0 else end_pads rest) ->
  yields (decode_loop n hdr (pre ++ rest) (zlen T + zlen J) (zlen pre) (zlen T) (T ++ J))
    (or_ValueError (d ← b64_parse rest; Some (T ++ d))).
Proof.
  revert pre rest T J. induction n as [|n IH]; intros pre rest T J Hc Hn HJ.
  - destruct rest; [|simpl in Hn; lia]. destruct J; [|simpl in HJ; lia]. by apply spec_ret.
  - destruct rest as [|c1 [|c2 [|c3 [|c4 r]]]]; simpl in Hn; try lia.
    repeat (apply Forall_cons_1 in Hc as [? Hc]). cbn [Nat.eqb] in HJ.
    pose proof (end_pads_range (c1 :: c2 :: c3 :: c4 :: r)).
    assert (HJ1 : J <> []) by (intros ->; simpl in HJ; lia).
    cbn [decode_loop].
    destruct (decide (r = [])) as [->|Hr].
    + assert (n = 0)%nat as -> by (simpl in Hn; lia).
      rewrite <- (last_chunk c1 c2 c3 c4 T J) by (done || lia).
      replace (chunk_out c1 c2 c3 c4 T J) with (chunk_out c1 c2 c3 c4 T J ≫= Some)
        by (by destruct (chunk_out c1 c2 c3 c4 T J)).
      apply yields_bind; [by apply decode_chunk_spec|]. intros a _. by apply spec_ret.
    + assert (0 < zlen r) by (destruct r; [done|simpl; lia]).
      rewrite end_pads_rest in HJ by lia. pose proof (end_pads_range r).
      rewrite <- (middle_chunk c1 c2 c3 c4 r T J) by (done || lia).
      apply yields_bind; [by apply decode_chunk_spec|]. intros res Hres.
      destruct J as [|j1 [|j2 [|j3 J]]]; simpl in HJ; try lia.
      rewrite chunk_out_parse in Hres by done.
      destruct (value_of c1) as [x|], (value_of c2) as [y|], (value_of c3) as [z|], (value_of c4) as [w|];
        try done; simpl in Hres. injection Hres as Hres.
      set (q := [x * 4 + y / 16; y mod 16 * 16 + z / 4; z mod 4 * 64 + w]).
      assert (res = (T ++ q) ++ J) as -> by (by rewrite <- app_assoc).
      change (length T + 3)%nat with (length T + length q)%nat.
      rewrite <- length_app, take_app_length.
      replace (pre ++ c1 :: c2 :: c3 :: c4 :: r) with ((pre ++ [c1; c2; c3; c4]) ++ r)
        by (by rewrite <- app_assoc).
      replace (zlen pre + 4) with (zlen (pre ++ [c1; c2; c3; c4])) by (rewrite length_app; simpl; lia).
      replace (zlen T + 3) with (zlen (T ++ q)) by (rewrite length_app; simpl; lia).
      replace (zlen T + zlen (j1 :: j2 :: j3 :: J)) with (zlen (T ++ q) + zlen J)
        by (rewrite length_app; simpl; lia).
      apply IH; [done|lia|]. destruct n; simpl; [simpl in Hn; lia|lia].
Qed.

(** Whatever the text, the loop stays inside the text and the result. *)
Lemma decode_loop_safe hdr n pre rest T J :
  4 * Z.of_nat n <= zlen rest -> 3 * Z.of_nat n - 2 <= zlen J ->
  spec (decode_loop n hdr (pre ++ rest) (zlen T + zlen J) (zlen pre) (zlen T) (T ++ J))
    (fun r => r = Raise EValueError \/ exists res, r = Ok res).
Proof.
  revert pre rest T J. induction n as [|n IH]; intros pre rest T J Hn HJ.
  - apply spec_ret. eauto.
  - destruct rest as [|c1 [|c2 [|c3 [|c4 r]]]]; simpl in Hn; try lia.
    assert (HJ1 : J <> []) by (intros ->; simpl in HJ; lia).
    cbn [decode_loop]. pose proof (decode_chunk_spec hdr pre c1 c2 c3 c4 r T J HJ1) as Hch.
    destruct (chunk_out c1 c2 c3 c4 T J) as [res|] eqn:Hres.
    2: { eapply spec_mono; [by apply raises_bind|]. auto. }
    apply (spec_bind _ _ (fun res' => res' = res)).
    { eapply spec_mono; [exact Hch|]. by intros ? ->. }
    intros ? ->. destruct n as [|n].
    { apply spec_ret. eauto. }
    destruct J as [|j1 [|j2 [|j3 J]]]; simpl in HJ; try lia.
    assert (Hq : exists q, zlen q = 3 /\ res = T ++ q ++ J).
    { unfold chunk_out in Hres.
      repeat match type of Hres with
      | (dchar ?c ?j ?p ≫= _) = _ => destruct (dchar c j p) as [[? ?]|]; simpl in Hres; [|done]
      end.
      destruct (_ =? 0); [|done]. injection Hres as <-. eexists [_; _; _]. split; reflexivity. }
    destruct Hq as (q & Hq & ->). rewrite (app_assoc T q J).
    replace (pre ++ c1 :: c2 :: c3 :: c4 :: r) with ((pre ++ [c1; c2; c3; c4]) ++ r)
      by (by rewrite <- app_assoc).
    replace (zlen pre + 4) with (zlen (pre ++ [c1; c2; c3; c4])) by (rewrite length_app; simpl; lia).
    replace (zlen T + 3) with (zlen (T ++ q)) by (rewrite length_app; lia).
    replace (zlen T + zlen (j1 :: j2 :: j3 :: J)) with (zlen (T ++ q) + zlen J)
      by (rewrite length_app; simpl; lia).
    apply IH; lia.
Qed.

(** ** The decoder *)

Lemma b64_text_length s : zlen (b64_text s) = (zlen s + 2) / 3 * 4.
Proof.
  induction s as [s IH] using (induction_ltof1 _ (@length Z)). unfold ltof in IH.
  destruct s as [|b1 [|b2 [|b3 s]]]; cbn [b64_text]; [done|..].
  - by destruct (sextets b1 0 0) as [[[x y] z] w].
  - by destruct (sextets b1 b2 0) as [[[x y] z] w].
  - destruct (sextets b1 b2 b3) as [[[x y] z] w]. rewrite !length_cons.
    specialize (IH s ltac:(simpl; lia)). zsolve.
Qed.

Lemma b64_text_nonneg s : Forall byte s -> Forall (fun c => 0 <= c) (b64_text s).
Proof.
  assert (H0 : byte 0) by (unfold byte; lia). assert (HP : 0 <= PAD) by done.
  assert (Ha : forall x, 0 <= x < 64 -> 0 <= alpha x) by (intros x Hx; apply alpha_spec in Hx; lia).
  induction s as [s IH] using (induction_ltof1 _ (@length Z)). unfold ltof in IH. intros Hs.
  destruct s as [|b1 [|b2 [|b3 s]]]; [done|..]; repeat (apply Forall_cons_1 in Hs as [? Hs]).
  - pose proof (sextets_range b1 0 0 ltac:(done) H0 H0) as Hx. cbn [b64_text].
    destruct (sextets b1 0 0) as [[[x y] z] w]. repeat constructor; (apply Ha; lia) || done.
  - pose proof (sextets_range b1 b2 0 ltac:(done) ltac:(done) H0) as Hx. cbn [b64_text].
    destruct (sextets b1 b2 0) as [[[x y] z] w]. repeat constructor; (apply Ha; lia) || done.
  - pose proof (sextets_range b1 b2 b3 ltac:(done) ltac:(done) ltac:(done)) as Hx. cbn [b64_text].
    destruct (sextets b1 b2 b3) as [[[x y] z] w]. repeat (constructor; [apply Ha; lia|]).
    apply IH; [simpl; lia|done].
Qed.

Lemma parse_mod4 s : b64_parse s <> None -> zlen s mod 4 = 0.
Proof.
  induction s as [s IH] using (induction_ltof1 _ (@length Z)). unfold ltof in IH.
  destruct s as [|c1 [|c2 [|c3 [|c4 r]]]]; try done. intros Hp.
  assert (Hr : r = [] \/ b64_parse r <> None).
  { cbn [b64_parse] in Hp. destruct (decide (r = [])) as [->|Hr]; [by left|right]. intros He.
    rewrite !(bool_decide_false (r = [])), !andb_false_r, He in Hp by done.
    by destruct (value_of c1), (value_of c2), (value_of c3), (value_of c4). }
  assert (zlen r mod 4 = 0) by (destruct Hr as [->|Hr]; [done|apply IH; simpl; (lia || done)]).
  rewrite !length_cons. zsolve.
Qed.

(** Room for the result, as the decoder computes it. *)
Lemma decode_length hdr s :
  s <> [] -> 2 <= zlen s ->
  exists l c2 c1, s = l ++ [c2; c1] /\ end_pads s = Z.b2z (c1 =? PAD) + Z.b2z (c2 =? PAD) /\
    evals (AStrItem hdr s (zlen s - 1)) c1 /\ evals (AStrItem hdr s (zlen s - 2)) c2.
Proof.
  intros Hs Hl. destruct (exists_last Hs) as (l1 & c1 & ->).
  rewrite length_app in Hl. simpl in Hl.
  destruct l1 as [|x l1]; [simpl in Hl; lia|].
  destruct (exists_last (l := x :: l1) ltac:(done)) as (l & c2 & Hl1). rewrite Hl1 in *.
  exists l, c2, c1. rewrite <- app_assoc. simpl. split; [done|].
  assert (Hi1 : zlen (l ++ [c2; c1]) - 1 = zlen l + 1) by (rewrite length_app; simpl; lia).
  assert (Hi2 : zlen (l ++ [c2; c1]) - 2 = zlen l) by (rewrite length_app; simpl; lia).
  unfold end_pads. rewrite Hi1, Hi2.
  pose proof (AStrItem_off hdr l [c2] c1 [] 1 eq_refl) as E1. pose proof (AStrItem_at hdr l c2 [c1]) as E2.
  split; [|done]. unfold dg. rewrite Nat2Z.id, nth_middle.
  replace (Z.to_nat (zlen l + 1)) with (length (l ++ [c2])) by (rewrite length_app; simpl; lia).
  replace (l ++ [c2; c1]) with ((l ++ [c2]) ++ [c1]) by (by rewrite <- app_assoc).
  by rewrite nth_middle.
Qed.

Lemma land_3 x : Z.land x 3 = x mod 4.
Proof. change 3 with (Z.ones 2). by rewrite low_bits. Qed.

(** The decoder after it has computed the length [D] of the result. *)
Lemma decode_rest hdr s D :
  Forall (fun c => 0 <= c) s -> s <> [] -> zlen s / 4 * 3 - 2 <= D ->
  (zlen s mod 4 = 0 -> D = zlen s / 4 * 3 - end_pads s) ->
  yields (res ← AMakeEmptyStr D;
    res ← decode_loop (Z.to_nat (zlen s / 4)) hdr s D 0 0 res;
    if negb (zlen s mod 4 =? 0) then raise EValueError else mret (VStr res))
    (or_ValueError (d ← b64_parse s; Some (VStr d))).
Proof.
  intros Hs Hne HD HD0. assert (0 < zlen s) by (destruct s; [done|simpl; lia]).
  eapply spec_bind with (P := fun J => zlen J = Z.max 0 D).
  { eapply returns_bind; [apply AAlloc_spec|]. intros junk _. apply returns_ret.
    rewrite length_fmap, length_seq. lia. }
  intros J HJ. destruct (Z.eqb_spec (zlen s mod 4) 0) as [H4|H4]; cbn [negb].
  - specialize (HD0 H4). pose proof (end_pads_range s).
    assert (1 <= zlen s / 4) by zsolve. assert (D = zlen J) as -> by lia.
    apply (yields_bind _ _ (b64_parse s) (fun d => Some (VStr d))); [|intros d _; by apply spec_ret].
    replace (b64_parse s) with (d ← b64_parse s; Some ([] ++ d)) by (by destruct (b64_parse s)).
    apply (decode_loop_spec hdr _ [] s [] J Hs).
    + rewrite Z2Nat.id by lia. zsolve.
    + destruct (Z.to_nat (zlen s / 4) =? 0)%nat eqn:E; [apply Nat.eqb_eq in E; lia|].
      rewrite Z2Nat.id by lia. lia.
  - assert (b64_parse s = None) as ->.
    { destruct (b64_parse s) eqn:E; [|done]. destruct H4. apply parse_mod4. by rewrite E. }
    destruct (decide (zlen s / 4 = 0)) as [->|Hn]; [by apply spec_raise|].
    assert (0 <= zlen s / 4) by zsolve. assert (D = zlen J) as -> by lia.
    intros t. pose proof (decode_loop_safe hdr (Z.to_nat (zlen s / 4)) [] s [] J
      ltac:(rewrite Z2Nat.id by lia; zsolve) ltac:(rewrite Z2Nat.id by lia; lia) t) as Hl.
    unfold mbind, M_bind. simpl in Hl.
    destruct (decode_loop _ _ _ _ _ _ _ t) as [[res|e|] t']; simpl in *;
      destruct Hl as [Hh [[Hr|[res' Hr]]|[Hr Hsup]]]; simplify_eq; auto.
Qed.

(** The decoder returns the bytes a text stands for, and raises [ValueError] on
    every other string. *)
Lemma Base64Decode_spec hdr s :
  Forall (fun c => 0 <= c) s -> hdr <> PAD -> zlen s < 2 ^ 31 ->
  yields (Base64Decode hdr s) (or_ValueError (d ← b64_parse s; Some (VStr d))).
Proof.
  intros Hs Hh Hlen. unfold Base64Decode. cbv zeta. rewrite (s32_small (zlen s)) by lia.
  rewrite Z.quot_div_nonneg, land_3 by lia.
  destruct (decide (s = [])) as [->|Hne].
  { eapply spec_bind_evals; [apply evals_ret|]. eapply spec_bind_evals; [apply evals_ret|].
    eapply spec_bind; [by apply AMakeEmptyStr_spec|]. intros J HJ.
    assert (HJ0 : zlen J = 0) by exact HJ. destruct J; [|simpl in HJ0; lia].
    by apply spec_ret. }
  assert (0 < zlen s) by (destruct s; [done|simpl; lia]). test (0 <? zlen s) true.
  pose proof (end_pads_range s).
  destruct (decide (2 <= zlen s)) as [Hl|Hl].
  - destruct (decode_length hdr s Hne Hl) as (l & c2 & c1 & _ & Hpads & E1 & E2).
    eapply spec_bind_evals; [eapply evals_bind; [exact E1|apply evals_ret]|].
    eapply spec_bind_evals; [eapply evals_bind; [exact E2|apply evals_ret]|].
    apply decode_rest; [done..| |intros _; rewrite Hpads]; destruct (c1 =? PAD), (c2 =? PAD); simpl; lia.
  - destruct s as [|c [|]]; simpl in Hl; try done; [|lia].
    eapply spec_bind_evals; [eapply evals_bind; [apply (AStrItem_at hdr [] c [])|apply evals_ret]|].
    eapply spec_bind_evals; [eapply evals_bind; [done|apply evals_ret]|].
    rewrite (proj2 (Z.eqb_neq hdr PAD) Hh).
    apply decode_rest; [done..| |]; simpl; [destruct (c =? PAD); lia|done].
Qed.

(** ** Correctness *)

(** C8: encoding a byte string gives its base64 text (six-bit groups written
    with the alphabet, padded to a multiple of four characters), and decoding
    that text gives the byte string back; neither call leaves its buffers.
    [hdr] is the byte in front of the characters of a string, the top byte of
    the block header (0 or 128). *)
Theorem base64_roundtrip hdr s :
  Forall byte s -> hdr <> PAD -> zlen s <= 2 ^ 30 ->
  returns (Base64Encode hdr s) (fun v => v = VStr (b64_text s)) /\
  returns (Base64Decode hdr (b64_text s)) (fun v => v = VStr s).
Proof.
  intros Hs Hh Hl. split; [by apply Base64Encode_spec|].
  eapply spec_mono; [apply Base64Decode_spec; [|done|]|].
  - by apply b64_text_nonneg.
  - rewrite b64_text_length. zsolve.
  - rewrite parse_text by done. by intros r ->.
Qed.

Lemma base64_roundtrip_witness :
  b64_text [77; 97; 110; 121] = str_codes "TWFueQ==" /\
  returns (Base64Decode 128 (str_codes "TWFueQ==")) (fun v => v = VStr [77; 97; 110; 121]).
Proof.
  split; [reflexivity|].
  apply (base64_roundtrip 128 [77; 97; 110; 121]); [repeat constructor; lia|discriminate|vm_compute; discriminate].
Defined.

(** C20: on every string whose length fits a C [int], [Base64Decode] returns the bytes the string stands for
    when it is a base64 text, and raises [ValueError] when it is not (foreign
    characters, padding before the end, a length that is not a multiple of
    four); it never writes outside the result. *)
Theorem Base64Decode_correct hdr s :
  Forall (fun c => 0 <= c) s -> hdr <> PAD -> zlen s < 2 ^ 31 ->
  yields (Base64Decode hdr s) (match b64_parse s with Some d => Ok (VStr d) | None => Raise EValueError end).
Proof.
  intros Hs Hh Hl. eapply spec_mono; [by apply Base64Decode_spec|]. intros r ->. by destruct (b64_parse s).
Qed.

Lemma Base64Decode_correct_witness :
  yields (Base64Decode 128 (str_codes "TQ==TQ==")) (Raise EValueError).
Proof.
  pose proof (Base64Decode_correct 128 (str_codes "TQ==TQ==")) as Hw.
  change (b64_parse (str_codes "TQ==TQ==")) with (@None (list Z)) in Hw.
  apply Hw; [repeat constructor; vm_compute; discriminate|discriminate|reflexivity].
Defined.
