(* ===== verification/Sort.v ===== *)
(** * Sort: std::Sort

    [std_sort.c]: the copy of the sequence to a new array and the quicksort
    over it, with the default order or with a comparison function, and the
    proof that the result is a sorted permutation. *)

From stdpp Require Import sorting.
From S2P Require Import Prelude Runtime Digits Value LongInt.

(** What a comparison function may return. *)
Inductive truth :=
  | AFalse
  | ATrue
  | AErrorReturned
  | ANotBoolean.

(** A sequence object: its length ([None] when [ALen] fails) and its items
    ([None] when [AGetItemAt] returns [AError]). *)
Record sequence (A : Type) := MkSequence {
  ALen : M (option Z);
  AGetItemAt : Z -> M (option A)
}.
Arguments MkSequence {A} _ _.
Arguments ALen {A} _.
Arguments AGetItemAt {A} _ _.

Section sort.
Context {A : Type} (ANil : A) (AIsLte : A -> A -> M bool).

(** [AArrayItem] and [ASetArrayItem]. *)
Definition AArrayItem (a : list A) (i : Z) : M A :=
  if 0 <=? i then match a !! Z.to_nat i with Some x => mret x | None => fault end else fault.

Definition ASetArrayItem (a : list A) (i : Z) (x : A) : M (list A) :=
  if (0 <=? i) && (i <? zlen a) then barrier ≫= (fun _ => mret (<[Z.to_nat i := x]> a)) else fault.

(** The test of an item against the pivot: [Some true] when the item stays on
    the left.  [cmp] is the comparison function, if one was given. *)
Definition stays_left (cmp : option (A -> A -> M truth)) (item pivot : A) : M (option bool) :=
  match cmp with
  | None => res ← AIsLte item pivot; mret (Some res)
  | Some f =>
    res ← f pivot item;
    match res with
    | AFalse => mret (Some true)
    | ATrue => mret (Some false)
    | AErrorReturned => mret None
    | ANotBoolean => raise EValueError
    end
  end.

(** The exchange of two items. *)
Definition swap (a : list A) (i j : Z) : M (list A) :=
  x ← AArrayItem a i;
  y ← AArrayItem a j;
  a ← ASetArrayItem a i y;
  ASetArrayItem a j x.

(** The loop [while (l <= r)] that partitions the items around the pivot. *)
Fixpoint partition_loop (fuel : nat) (cmp : option (A -> A -> M truth)) (pivot : A) (a : list A)
    (l r : Z) : M (option (list A * Z)) :=
  if l <=? r then
    match fuel with
    | O => fault
    | S fuel =>
      x ← AArrayItem a l;
      res ← stays_left cmp x pivot;
      match res with
      | None => mret None
      | Some true => partition_loop fuel cmp pivot a (l + 1) r
      | Some false => a ← swap a r l; partition_loop fuel cmp pivot a l (r - 1)
      end
    end
  else mret (Some (a, l)).

(** [QSort(t, frame, b, e)]; [None] is [FALSE].  The next iteration of the loop
    is the last call. *)
Fixpoint QSort (fuel : nat) (cmp : option (A -> A -> M truth)) (a : list A) (b e : Z) : M (option (list A)) :=
  if b <? e then
    match fuel with
    | O => fault
    | S fuel =>
      pivot ← AArrayItem a b;
      p ← partition_loop (Z.to_nat (e - b)) cmp pivot a (b + 1) e;
      match p with
      | None => mret None
      | Some (a, l) =>
        let l := l - 1 in
        a ← swap a l b;
        q ← QSort fuel cmp a b (l - 1);
        match q with
        | None => mret None
        | Some a => QSort fuel cmp a (l + 1) e
        end
      end
    end
  else mret (Some a).

(** The loop that copies the items of the sequence. *)
Fixpoint copy_sequence (n : nat) (i : Z) (s : sequence A) (a : list A) : M (option (list A)) :=
  match n with
  | O => mret (Some a)
  | S n =>
    item ← AGetItemAt s i;
    match item with
    | None => mret None
    | Some x => a ← ASetArrayItem a i x; copy_sequence n (i + 1) s a
    end
  end.

(** [AStdSort(t, frame)]; [None] is [AError]. *)
Definition AStdSort (s : sequence A) (cmp : option (A -> A -> M truth)) : M (option (list A)) :=
  n ← ALen s;
  match n with
  | None => mret None
  | Some n =>
    let len := s32 n in
    if len <? 0 then mret None
    else
      AAlloc (8 * len) ≫= (fun _ =>
      c ← copy_sequence (Z.to_nat len) 0 s (replicate (Z.to_nat len) ANil);
      match c with
      | None => mret None
      | Some a => QSort (Z.to_nat len) cmp a 0 (len - 1)
      end)
  end.

(** ** The order *)

(** How a call ends without a result: with an error value, or an exception. *)
Inductive failure :=
  | ErrorReturned
  | Raised (e : exn).

(** A call that returns a value satisfying [Q], or ends with a failure
    satisfying [E]. *)
Definition returns_or {B} (m : M (option B)) (Q : B -> Prop) (E : failure -> Prop) : Prop :=
  spec m (fun o => match o with Ok (Some b) => Q b | Ok None => E ErrorReturned | Raise e => E (Raised e) | Fault => False end).

(** The order that a sort uses: a total preorder, which the test of two items
    decides, unless it fails with one of the failures [err] of these items. *)
Definition ordered_by (cmp : option (A -> A -> M truth)) (le : A -> A -> Prop) `{!RelDecision le}
    (err : A -> A -> failure -> Prop) : Prop :=
  (forall x y, returns_or (stays_left cmp x y) (fun b => b = bool_decide (le x y)) (err x y)) /\
  Transitive le /\ forall x y, le x y \/ le y x.

Lemma returns_or_mono {B} (m : M (option B)) (Q Q' : B -> Prop) E : returns_or m Q E -> (forall b, Q b -> Q' b) -> returns_or m Q' E.
Proof. intros Hm HQ. eapply spec_mono; [exact Hm|]. intros [[b|]|e|]; auto. Qed.

Lemma returns_or_ret {B} (b : B) (Q : B -> Prop) E : Q b -> returns_or (mret (Some b)) Q E.
Proof. intros HQ t. split; [done|]. by left. Qed.

(** A failure of [m] is passed on. *)
Lemma returns_or_bind {B C} (m : M (option B)) (f : option B -> M (option C)) (Q : B -> Prop) (Q' : C -> Prop) E :
  returns_or m Q E -> f None = mret None -> (forall b, Q b -> returns_or (f (Some b)) Q' E) -> returns_or (m ≫= f) Q' E.
Proof.
  intros Hm Hn Hf t. destruct (Hm t) as [Hh Hr]. unfold mbind, M_bind. destruct (m t) as [[[b|]|e|] t']; simpl in *.
  - destruct Hr as [Hb|[? _]]; [|done]. destruct (Hf b Hb t') as [Hh' Hr']. split; [congruence|].
    destruct Hr' as [?|[? Hs]]; [by left|]. right. split; [done|]. by rewrite (supplied_heap t t') in Hs.
  - rewrite Hn. destruct Hr as [He|[? _]]; [|done]. split; [done|]. by left.
  - split; [done|]. destruct Hr as [He|[He Hs]]; [by left|]. right. split; [congruence|done].
  - by destruct Hr as [[]|[? _]].
Qed.

Section proofs.
Context (cmp : option (A -> A -> M truth)) (le : A -> A -> Prop) `{!RelDecision le}
  (err : A -> A -> failure -> Prop) (Hle : ordered_by cmp le err) (among : A -> Prop).

(** The failures of tests of the items that are sorted. *)
Definition test_fails (f : failure) : Prop := exists x y, among x /\ among y /\ err x y f.

Lemma item_at pre x post : evals (AArrayItem (pre ++ x :: post) (zlen pre)) x.
Proof.
  unfold AArrayItem. rewrite (proj2 (Z.leb_le 0 (zlen pre))), Nat2Z.id by lia.
  rewrite list_lookup_middle by done. apply evals_ret.
Qed.

Lemma set_item_at pre x post y :
  returns (ASetArrayItem (pre ++ x :: post) (zlen pre) y) (fun a => a = pre ++ y :: post).
Proof.
  unfold ASetArrayItem. rewrite (proj2 (Z.leb_le 0 (zlen pre))) by lia.
  rewrite (proj2 (Z.ltb_lt _ _)) by (rewrite length_app; simpl; lia). cbn [andb].
  eapply returns_bind; [apply barrier_spec|]. intros _ _. apply returns_ret.
  by rewrite Nat2Z.id, insert_app_r_alt, Nat.sub_diag by lia.
Qed.

(** Exchanging two different items, and an item with itself. *)
Lemma swap_spec pre x mid y post :
  returns (swap (pre ++ x :: mid ++ y :: post) (zlen pre + 1 + zlen mid) (zlen pre))
    (fun a => a = pre ++ y :: mid ++ x :: post).
Proof.
  unfold swap. replace (pre ++ x :: mid ++ y :: post) with ((pre ++ x :: mid) ++ y :: post)
    by (by rewrite <- app_assoc).
  replace (zlen pre + 1 + zlen mid) with (zlen (pre ++ x :: mid)) by (rewrite length_app; simpl; lia).
  eapply returns_bind_evals; [apply item_at|].
  eapply returns_bind_evals; [rewrite <- app_assoc; apply item_at|].
  eapply returns_bind; [apply set_item_at|]. intros a ->. rewrite <- app_assoc. apply set_item_at.
Qed.

Lemma swap_same pre x post : returns (swap (pre ++ x :: post) (zlen pre) (zlen pre)) (fun a => a = pre ++ x :: post).
Proof.
  unfold swap. eapply returns_bind_evals; [apply item_at|]. eapply returns_bind_evals; [apply item_at|].
  eapply returns_bind; [apply set_item_at|]. intros a ->. apply set_item_at.
Qed.

(** The partition moves the items that are not below the pivot to the right. *)
Lemma partition_spec fuel pivot pre mids post :
  (length mids <= fuel)%nat -> among pivot -> Forall among mids ->
  returns_or (partition_loop fuel cmp pivot (pre ++ mids ++ post) (zlen pre) (zlen pre + zlen mids - 1))
    (fun r => exists lows highs, r = (pre ++ lows ++ highs ++ post, zlen pre + zlen lows) /\
      mids ≡ₚ lows ++ highs /\ Forall (fun x => le x pivot) lows /\ Forall (fun x => le pivot x) highs) test_fails.
Proof using Hle.
  destruct Hle as (Htest & _ & Htotal). revert pre mids post.
  induction fuel as [|fuel IH]; intros pre mids post Hf Hpiv Hmids.
  - destruct mids; [|simpl in Hf; lia]. cbn [partition_loop]. simpl length.
    rewrite (proj2 (Z.leb_gt _ _)) by lia. apply returns_or_ret. exists [], []. split_and!; try done.
    f_equal. simpl. lia.
  - destruct mids as [|x mids].
    { cbn [partition_loop]. simpl length. rewrite (proj2 (Z.leb_gt _ _)) by lia.
      apply returns_or_ret. exists [], []. split_and!; try done. f_equal. simpl. lia. }
    apply Forall_cons_1 in Hmids as [Hxa Hmids].
    cbn [partition_loop]. simpl length in *. rewrite (proj2 (Z.leb_le _ _)) by lia.
    eapply spec_bind_evals; [apply item_at|].
    eapply returns_or_bind; [|done|].
    { eapply spec_mono; [apply (Htest x pivot)|]. intros [[b|]|e|] Ho; [exact Ho|by exists x, pivot|by exists x, pivot|done]. }
    intros b ->. case_bool_decide as Hx.
    + replace (zlen pre + 1) with (zlen (pre ++ [x])) by (rewrite length_app; simpl; lia).
      replace (zlen pre + Z.of_nat (S (length mids)) - 1) with (zlen (pre ++ [x]) + zlen mids - 1)
        by (rewrite length_app; simpl; lia).
      replace (pre ++ (x :: mids) ++ post) with ((pre ++ [x]) ++ mids ++ post) by (by rewrite <- app_assoc).
      eapply returns_or_mono; [apply IH; (done || lia)|]. intros r (lows & highs & -> & Hp & Hlo & Hhi).
      exists (x :: lows), highs. split_and!; [|simpl; by rewrite Hp|by constructor|done].
      rewrite <- app_assoc. f_equal. rewrite length_app. simpl. lia.
    + assert (Hx' : le pivot x) by (destruct (Htotal pivot x); done).
      assert (Hstep : forall mids' a, a = pre ++ mids' ++ x :: post -> x :: mids ≡ₚ x :: mids' ->
        returns_or (partition_loop fuel cmp pivot a (zlen pre) (zlen pre + Z.of_nat (S (length mids)) - 1 - 1))
          (fun r => exists lows highs, r = (pre ++ lows ++ highs ++ post, zlen pre + zlen lows) /\
            x :: mids ≡ₚ lows ++ highs /\ Forall (fun x => le x pivot) lows /\ Forall (fun x => le pivot x) highs) test_fails).
      { intros mids' a -> Hm. apply Permutation_cons_inv in Hm. pose proof (Permutation_length Hm).
        assert (Hmids' : Forall among mids') by (by rewrite <- Hm).
        replace (zlen pre + Z.of_nat (S (length mids)) - 1 - 1) with (zlen pre + zlen mids' - 1) by lia.
        eapply returns_or_mono; [apply IH; (done || lia)|]. intros r (lows & highs & -> & Hp & Hlo & Hhi).
        exists lows, (highs ++ [x]). split_and!; [by rewrite <- app_assoc| |done|].
        - rewrite Hm, Hp, (app_assoc lows highs). by rewrite <- Permutation_cons_append.
        - apply Forall_app. split; [done|by constructor]. }
      destruct mids as [|m mids _] using rev_ind.
      * simpl length. replace (zlen pre + Z.of_nat 1 - 1) with (zlen pre) by lia.
        eapply spec_bind; [apply swap_same|]. intros a ->.
        replace (zlen pre - 1) with (zlen pre + Z.of_nat (S (length (@nil A))) - 1 - 1) by (simpl; lia).
        by apply (Hstep []).
      * replace (pre ++ (x :: mids ++ [m]) ++ post) with (pre ++ x :: mids ++ m :: post)
          by (simpl; by rewrite <- app_assoc).
        eapply spec_bind.
        { replace (zlen pre + Z.of_nat (S (length (mids ++ [m]))) - 1) with (zlen pre + 1 + zlen mids)
            by (rewrite length_app; simpl; lia). apply swap_spec. }
        intros a ->. apply (Hstep (m :: mids)); [done|].
        by rewrite <- Permutation_cons_append.
Qed.

Lemma sorted_join l x r :
  StronglySorted le l -> StronglySorted le r -> Forall (fun y => le y x) l -> Forall (fun y => le x y) r ->
  StronglySorted le (l ++ x :: r).
Proof using Hle.
  destruct Hle as (_ & Htrans & _). intros Hl Hr Hlx Hxr.
  apply StronglySorted_app_2; [|done|by apply SSorted_cons].
  intros a b Ha Hb. rewrite list.Forall_forall in Hlx. rewrite list.Forall_forall in Hxr.
  apply elem_of_cons in Hb as [->|Hb]; [by apply Hlx|]. transitivity x; [by apply Hlx|by apply Hxr].
Qed.

(** The quicksort sorts the items from [b] to [e] and leaves the others in
    place; as many levels as there are items are enough. *)
Lemma QSort_spec fuel pre mid post :
  (length mid <= fuel)%nat -> Forall among mid ->
  returns_or (QSort fuel cmp (pre ++ mid ++ post) (zlen pre) (zlen pre + zlen mid - 1))
    (fun r => exists mid', r = pre ++ mid' ++ post /\ mid ≡ₚ mid' /\ StronglySorted le mid') test_fails.
Proof using Hle.
  revert pre mid post. induction fuel as [|fuel IH]; intros pre mid post Hf Hmid.
  { destruct mid; [|simpl in Hf; lia]. cbn [QSort]. rewrite (proj2 (Z.ltb_ge _ _)) by (simpl; lia).
    apply returns_or_ret. exists []. split; [done|]. split; [done|constructor]. }
  destruct mid as [|x [|y mids]].
  { cbn [QSort]. rewrite (proj2 (Z.ltb_ge _ _)) by (simpl; lia).
    apply returns_or_ret. exists []. split; [done|]. split; [done|constructor]. }
  { cbn [QSort]. rewrite (proj2 (Z.ltb_ge _ _)) by (simpl; lia). apply returns_or_ret.
    exists [x]. split; [done|]. split; [done|]. apply SSorted_cons; constructor. }
  apply Forall_cons_1 in Hmid as [Hxa Hmid]. set (mid := y :: mids) in *. assert (0 < zlen mid) by (unfold mid; simpl; lia). clearbody mid.
  cbn [QSort]. rewrite length_cons in Hf |- *.
  rewrite (proj2 (Z.ltb_lt _ _)) by lia. eapply spec_bind_evals; [apply item_at|].
  assert (Hsplit : pre ++ (x :: mid) ++ post = (pre ++ [x]) ++ mid ++ post) by (by rewrite <- app_assoc).
  assert (Hlen : zlen (pre ++ [x]) = zlen pre + 1) by (rewrite length_app; simpl; lia).
  eapply returns_or_bind; [|done|].
  { rewrite Hsplit, <- Hlen. replace (zlen pre + Z.of_nat (S (length mid)) - 1)
      with (zlen (pre ++ [x]) + zlen mid - 1) by lia.
    apply partition_spec; [lia|done|done]. }
  intros r (lows & highs & -> & Hp & Hlo & Hhi). cbv zeta beta iota.
  assert (Hall : Forall among (lows ++ highs)) by (by rewrite <- Hp). apply Forall_app in Hall as [Hla Hha].
  pose proof (Permutation_length Hp) as Hpl. rewrite length_app in Hpl.
  rewrite Hlen. replace (zlen pre + 1 + zlen lows - 1) with (zlen pre + zlen lows) by lia.
  assert (Hrec : forall left a, a = pre ++ left ++ x :: highs ++ post -> lows ≡ₚ left ->
    returns_or (q ← QSort fuel cmp a (zlen pre) (zlen pre + zlen lows - 1);
      match q with
      | None => mret None
      | Some a => QSort fuel cmp a (zlen pre + zlen lows + 1) (zlen pre + Z.of_nat (S (length mid)) - 1)
      end) (fun r => exists mid', r = pre ++ mid' ++ post /\ x :: mid ≡ₚ mid' /\ StronglySorted le mid') test_fails).
  { intros left a -> Hleft. pose proof (Permutation_length Hleft) as Hll. rewrite Hll.
    eapply returns_or_bind; [apply IH; [lia|by rewrite <- Hleft]|done|]. intros r (left' & -> & Hl' & Hsl).
    pose proof (Permutation_length Hl') as Hll'.
    replace (pre ++ left' ++ x :: highs ++ post) with ((pre ++ left' ++ [x]) ++ highs ++ post)
      by (by rewrite <- !app_assoc).
    replace (zlen pre + zlen left + 1) with (zlen (pre ++ left' ++ [x]))
      by (rewrite !length_app; simpl; lia).
    replace (zlen pre + Z.of_nat (S (length mid)) - 1)
      with (zlen (pre ++ left' ++ [x]) + zlen highs - 1) by (rewrite !length_app; simpl; lia).
    eapply returns_or_mono; [apply IH; [lia|done]|]. intros r (right' & -> & Hr' & Hsr).
    exists (left' ++ x :: right'). split_and!.
    - by rewrite <- !app_assoc.
    - rewrite Hp, Hleft, Hl', Hr'. apply Permutation_middle.
    - apply sorted_join; [done..| |]; [rewrite <- Hl', <- Hleft|rewrite <- Hr']; done. }
  destruct lows as [|z lows _] using rev_ind.
  - simpl length in *. replace (zlen pre + Z.of_nat 0) with (zlen pre) in * by lia.
    rewrite <- app_assoc. eapply spec_bind; [apply swap_same|]. intros a ->. by apply (Hrec []).
  - replace ((pre ++ [x]) ++ (lows ++ [z]) ++ highs ++ post) with (pre ++ x :: lows ++ z :: highs ++ post)
      by (by rewrite <- !app_assoc).
    eapply spec_bind.
    { replace (zlen pre + zlen (lows ++ [z])) with (zlen pre + 1 + zlen lows)
        by (rewrite length_app; simpl; lia). apply swap_spec. }
    intros a ->. apply (Hrec (z :: lows)); [done|]. by rewrite <- Permutation_cons_append.
Qed.

(** A sequence that holds the items [l]. *)
Definition holds (s : sequence A) (l : list A) : Prop :=
  returns (ALen s) (fun n => n = Some (zlen l)) /\
  forall i x, l !! i = Some x -> returns (AGetItemAt s (Z.of_nat i)) (fun r => r = Some x).

Lemma copy_sequence_spec s l n i :
  holds s l -> (i + n = length l)%nat ->
  returns (copy_sequence n (Z.of_nat i) s (take i l ++ replicate n ANil)) (fun r => r = Some l).
Proof.
  intros [_ Hs]. revert i. induction n as [|n IH]; intros i Hi.
  - apply returns_ret. simpl. rewrite app_nil_r, firstn_all2 by lia. done.
  - change (replicate (S n) ANil) with (ANil :: replicate n ANil).
    cbn [copy_sequence]. destruct (lookup_lt_is_Some_2 l i) as [x Hx]; [lia|].
    eapply returns_bind; [by apply Hs|]. intros r ->.
    assert (Hlen : length (take i l) = i) by (rewrite length_take; lia).
    eapply returns_bind.
    { replace (Z.of_nat i) with (zlen (take i l)) at 1 by lia. apply set_item_at. }
    intros a ->. replace (Z.of_nat i + 1) with (Z.of_nat (S i)) by lia.
    assert (take i l ++ x :: replicate n ANil = take (S i) l ++ replicate n ANil) as Htake
      by (rewrite (take_S_r _ _ _ Hx), <- app_assoc; done).
    rewrite Htake. apply IH. lia.
Qed.

Lemma AStdSort_spec s l :
  holds s l -> zlen l < 2 ^ 31 -> Forall among l ->
  returns_or (AStdSort s cmp) (fun l' => l ≡ₚ l' /\ StronglySorted le l') test_fails.
Proof using Hle.
  intros Hs Hl Ha. unfold AStdSort. eapply spec_bind; [apply Hs|]. intros n ->. cbv zeta.
  rewrite s32_small by lia. rewrite (proj2 (Z.ltb_ge _ _)) by lia.
  eapply spec_bind; [apply AAlloc_spec|]. intros _ _. rewrite Nat2Z.id.
  eapply spec_bind; [by apply (copy_sequence_spec s l _ 0)|]. intros r ->.
  eapply returns_or_mono.
  - pose proof (QSort_spec (length l) [] l [] ltac:(lia) Ha) as Hq.
    simpl app in Hq. rewrite app_nil_r in Hq. exact Hq.
  - intros r (l' & -> & Hp & Hsort). simpl. by rewrite app_nil_r.
Qed.

End proofs.
End sort.

(** C4: [std::Sort] of items in a total preorder, which the default order or a
    comparison function decides unless it fails (with a function [f], an item
    [x] may precede [y] when [f(y, x)] is False): the recursion ends and stays
    inside the array; it returns a new array that is a permutation of the items
    and is sorted, or else it ends with a failure of the test of two of the
    items, an error value or an exception.  If no test of two items fails, the
    array is returned. *)
Theorem AStdSort_correct {A} (ANil : A) (AIsLte : A -> A -> M bool) cmp (le : A -> A -> Prop)
    `{!RelDecision le} err s l :
  ordered_by AIsLte cmp le err -> holds s l -> zlen l < 2 ^ 31 ->
  returns_or (AStdSort ANil AIsLte s cmp) (fun l' => l ≡ₚ l' /\ StronglySorted le l')
    (fun f => exists x y, x ∈ l /\ y ∈ l /\ err x y f).
Proof.
  intros Hle Hs Hl. apply (AStdSort_spec _ _ _ le err Hle (fun x => x ∈ l) s l Hs Hl). by apply list.Forall_forall.
Qed.

(** Integers in ascending order by the default comparison, and in descending
    order by a comparison function, which returns an error value for the number
    4 and the value nil for the number 5. *)
Definition int_lte (x y : Z) : M bool := mret (x <=? y).
Definition int_above (x y : Z) : M truth :=
  mret (if (x =? 4) || (y =? 4) then AErrorReturned else if (x =? 5) || (y =? 5) then ANotBoolean else if y <? x then ATrue else AFalse).
Definition int_failure (x y : Z) (f : failure) : Prop :=
  match f with ErrorReturned => x = 4 \/ y = 4 | Raised e => e = EValueError /\ (x = 5 \/ y = 5) end.
Definition int_array (l : list Z) : sequence Z :=
  MkSequence (mret (Some (zlen l))) (fun i => mret (l !! Z.to_nat i)).

Lemma int_array_holds l : holds (int_array l) l.
Proof. split; [by apply returns_ret|]. intros i x Hi. apply returns_ret. by rewrite Nat2Z.id. Qed.

#[export] Instance above_dec : RelDecision (fun x y : Z => y <= x) := fun x y => decide (y <= x).

Lemma int_above_order : ordered_by int_lte (Some int_above) (fun x y => y <= x) int_failure.
Proof.
  split_and!; [|intros x y z; lia|lia]. intros x y. unfold stays_left, int_above.
  eapply spec_bind_evals; [apply evals_ret|].
  destruct (Z.eqb_spec y 4) as [?|?], (Z.eqb_spec x 4) as [?|?]; cbn [orb]; try (intros t; split; [done|left; simpl; tauto]).
  destruct (Z.eqb_spec y 5) as [?|?], (Z.eqb_spec x 5) as [?|?]; cbn [orb]; try (apply spec_raise; simpl; tauto).
  destruct (Z.ltb_spec x y); apply returns_or_ret; case_bool_decide; (done || lia).
Qed.

Lemma AStdSort_correct_witness :
  returns_or (AStdSort 0 int_lte (int_array [3; 1; 2; 3; 0]) (Some int_above))
    (fun l' => [3; 1; 2; 3; 0] ≡ₚ l' /\ StronglySorted (fun x y => y <= x) l')
    (fun f => exists x y, x ∈ [3; 1; 2; 3; 0] /\ y ∈ [3; 1; 2; 3; 0] /\ int_failure x y f) /\
  run (AStdSort 0 int_lte (int_array [3; 1; 2; 3; 0]) (Some int_above)) = Ok (Some [3; 3; 2; 1; 0]) /\
  run (AStdSort 0 int_lte (int_array [3; 4; 1; 5; 3]) (Some int_above)) = Ok None /\
  run (AStdSort 0 int_lte (int_array [3; 5; 4; 3; 0]) (Some int_above)) = Raise EValueError.
Proof.
  split; [|split_and!; reflexivity].
  apply (AStdSort_correct 0 int_lte (Some int_above) (fun x y => y <= x) int_failure (int_array [3; 1; 2; 3; 0]) [3; 1; 2; 3; 0]).
  - exact int_above_order.
  - apply int_array_holds.
  - reflexivity.
Defined.
