(* ===== verification/Encodings.v ===== *)
(** * Encodings: the Unicode and 8-bit codecs of the encodings module

    [encodings_module.c]: encoder and decoder objects, the streaming UTF-8 and
    UTF-16 decoders with the bytes they carry from one call to the next, and
    the Latin-1 codec.  A string is narrow (bytes) or wide (16-bit
    characters); the substring objects of either kind are read in the same
    way.  Characters outside the storage of a string are not accessed:
    [AStrItem] faults there. *)

From S2P Require Import Prelude Runtime Digits Value.

(** ** Strings *)

Record Str := MkStr { is_wide : bool; chars : list Z }.

Definition str_len (s : Str) : Z := s32 (zlen (chars s)).

Definition str_item (s : Str) (i : Z) : M Z :=
  if (0 <=? i) && (i <? zlen (chars s)) then mret (dg (chars s) i) else fault.

(** [ASetStrItem(s, i, ch)]: the character is cut to the width of the string. *)
Definition set_str_item (s : Str) (i ch : Z) : M Str :=
  if (0 <=? i) && (i <? zlen (chars s)) then
    mret (MkStr (is_wide s) (upd (chars s) i (if is_wide s then u16 ch else u8 ch)))
  else fault.

(** [AMakeEmptyStr(t, len)] and [AMakeEmptyStrW(t, len)]. *)
Definition empty_str (wide : bool) (len : Z) : M Str :=
  junk ← AAlloc (8 + if wide then 2 * len else len);
  mret (MkStr wide ((fun i => (if wide then u16 else u8) (junk (Z.of_nat i))) <$> seq 0 (Z.to_nat len))).

(** [AExpectStr(t, v)]; [None] is any object that is not a string. *)
Definition AExpectStr (v : option Str) : M Str :=
  match v with Some s => mret s | None => raise ETypeError end.

(** ** Encoder and decoder objects *)

Definition MODE_STRICT : Z := 0.
Definition MODE_UNSTRICT : Z := 1.

(** The argument that selects the strictness. *)
Inductive strictness := ADefault | Strict | Unstrict | OtherMode.

(** The slots of the object and the [ENC_DATA_SIZE] bytes behind them. *)
Record Codec := MkCodec {
  SLOT_MODE : Z;
  SLOT_ENCODING : Z;
  ENC_BUF : list Z
}.

Definition ENC_DATA_SIZE : Z := 8.

Definition buf_item (d : Codec) (i : Z) : M Z :=
  if (0 <=? i) && (i <? zlen (ENC_BUF d)) then mret (dg (ENC_BUF d) i) else fault.

Definition set_buf (i x : Z) : SM Codec unit :=
  d ← get;
  if (0 <=? i) && (i <? zlen (ENC_BUF d)) then
    modify (fun d => MkCodec (SLOT_MODE d) (SLOT_ENCODING d) (upd (ENC_BUF d) i (u8 x)))
  else lift fault.

(** [InitializeCodec(t, encoding, strictness, num)]. *)
Definition InitializeCodec (d : Codec) (mode : strictness) (num : Z) : M Codec :=
  d ← match mode with
      | ADefault | Strict => barrier ≫= (fun _ => mret (MkCodec MODE_STRICT (SLOT_ENCODING d) (ENC_BUF d)))
      | Unstrict => barrier ≫= (fun _ => mret (MkCodec MODE_UNSTRICT (SLOT_ENCODING d) (ENC_BUF d)))
      | OtherMode => raise EValueError
      end;
  d ← (if negb (num =? -1) then
         barrier ≫= (fun _ => mret (MkCodec (SLOT_MODE d) num (ENC_BUF d)))
       else mret d);
  mret (MkCodec (SLOT_MODE d) (SLOT_ENCODING d) (upd (ENC_BUF d) 0 0)).

(** A new codec object: [ACallValue] on the codec class, which has no
    initializer; the bytes behind the slots are whatever the heap holds. *)
Definition new_codec : M Codec :=
  junk ← AAlloc (8 + 2 * 8 + ENC_DATA_SIZE);
  mret (MkCodec 0 0 ((fun i => u8 (junk (Z.of_nat i))) <$> seq 0 (Z.to_nat ENC_DATA_SIZE))).

Definition Utf8EncodingFactoryMethod (mode : strictness) : M Codec :=
  d ← new_codec; InitializeCodec d mode (-1).

Definition Utf16LeEncodingFactoryMethod (mode : strictness) : M Codec :=
  d ← new_codec; InitializeCodec d mode (-1).

Definition Utf16BeEncodingFactoryMethod (mode : strictness) : M Codec :=
  d ← new_codec; InitializeCodec d mode (-1).

Definition Iso8859_1EncodingFactoryMethod (mode : strictness) : M Codec :=
  d ← new_codec; InitializeCodec d mode (-1).

(** [num] is the number in slot 1 of the encoding object. *)
Definition EightBitEncodingFactoryMethod (num : Z) (mode : strictness) : M Codec :=
  d ← new_codec; InitializeCodec d mode num.

(** [EncodingUnprocessed]: the carried bytes as a string. *)
Fixpoint unprocessed_loop (n : nat) (i : Z) (d : Codec) (v : Str) : M Str :=
  match n with
  | O => mret v
  | S n => b ← buf_item d (i + 1); v ← set_str_item v i b; unprocessed_loop n (i + 1) d v
  end.

Definition EncodingUnprocessed (d : Codec) : M Str :=
  n ← buf_item d 0;
  v ← empty_str false n;
  unprocessed_loop (Z.to_nat n) 0 d v.

(** ** UTF-8 *)

Definition A_UTF8_SKIP (ch : Z) : Z := if ch <? 0xc2 then 1 else if ch <? 0xe0 then 2 else 3.
Definition A_UTF8_SKIP_W (ch : Z) : Z :=
  if ch <? 0xc2 then 1 else if ch <? 0xe0 then 2 else if ch <=? 0xff then 3 else 1.
Definition A_UTF8_LEN (ch : Z) : Z := if ch <=? 0x7f then 1 else if ch <=? 0x7ff then 2 else 3.

(** Character [i] of the carried bytes followed by the argument. *)
Definition ChAt (d : Codec) (s : Str) (i unp : Z) : M Z :=
  if i <? 0 then buf_item d (i + unp + 1) else str_item s i.

(** The first pass counts the characters of the result. *)
Fixpoint utf8_count (fuel : nat) (s : Str) (len i resultLen : Z) : M Z :=
  match fuel with
  | O => fault
  | S fuel =>
    ch ← str_item s i;
    let i := i + A_UTF8_SKIP_W ch in
    if i <? len then utf8_count fuel s len i (resultLen + 1)
    else if i =? len then mret (resultLen + 1)
    else mret resultLen
  end.

(** One character of the second pass: the character, or [None] on the jump to
    [DecodeError], and the next index. *)
Definition utf8_char (d : Codec) (s : Str) (unprocessed j : Z) : M (option Z * Z) :=
  ch1 ← ChAt d s j unprocessed;
  if ch1 <=? 0x7f then mret (Some ch1, j + 1)
  else if ch1 <? 0xc2 then mret (None, j + 1)
  else if ch1 <? 0xe0 then
    ch2 ← str_item s (j + 1);
    if (ch2 <? 0x80) || (0xbf <? ch2) then mret (None, j + 2)
    else mret (Some (u16 (Z.lor (Z.shiftl (Z.land ch1 0x1f) 6) (Z.land ch2 0x3f))), j + 2)
  else if ch1 <? 0x100 then
    ch2 ← ChAt d s (j + 1) unprocessed;
    ch3 ← str_item s (j + 2);
    if (ch2 <? 0x80) || (0xbf <? ch2) || (ch3 <? 0x80) || (0xbf <? ch3) || ((ch1 =? 0xe0) && (ch2 <? 0xa0))
    then mret (None, j + 3)
    else mret (Some (u16 (Z.lor (Z.lor (Z.shiftl (Z.land ch1 0xf) 12) (Z.shiftl (Z.land ch2 0x3f) 6))
                            (Z.land ch3 0x3f))), j + 3)
  else mret (None, j + 1).

Fixpoint utf8_loop (n : nat) (d : Codec) (str : Str) (unprocessed i j : Z) (s : Str) : M (Str * Z) :=
  match n with
  | O => mret (s, j)
  | S n =>
    '(c, j) ← utf8_char d str unprocessed j;
    match c with
    | Some result => s ← set_str_item s i result; utf8_loop n d str unprocessed (i + 1) j s
    | None =>
      if SLOT_MODE d =? MODE_STRICT then raise EDecodeError
      else s ← set_str_item s i 0xfffd; utf8_loop n d str unprocessed (i + 1) j s
    end
  end.

(** What the carried bytes contribute: the index of the first character that
    lies in the argument alone, the characters counted so far, and the
    carried bytes that stay because their character is still incomplete. *)
Definition utf8_pending (d : Codec) (len unprocessed : Z) : M (Z * Z * Z) :=
  if negb (unprocessed =? 0) then
    lead ← buf_item d 1;
    let i := A_UTF8_SKIP lead - unprocessed in
    if i <=? len then mret (i, 1, 0) else mret (i, 0, unprocessed)
  else mret (0, 0, 0).

(** [Utf8Decode(t, frame)]. *)
Definition Utf8Decode (v : option Str) : SM Codec Str :=
  str ← lift (AExpectStr v);
  d ← get;
  let len := str_len str in
  unprocessed ← lift (buf_item d 0);
  '(i, resultLen, newUnprocessed) ← lift (utf8_pending d len unprocessed);
  resultLen ← lift (if i <? len then utf8_count (Z.to_nat len) str len i resultLen else mret resultLen);
  s ← lift (empty_str true resultLen);
  '(s, j) ← lift (utf8_loop (Z.to_nat resultLen) d str unprocessed 0 (- unprocessed) s);
  let j := if j <? 0 then 0 else j in
  set_buf 0 (newUnprocessed + len - j) ≫= (fun _ =>
  sfor (Z.to_nat (len - j)) 0 (fun i =>
    c ← lift (str_item str (j + i)); set_buf (i + 1 + newUnprocessed) c) ≫= (fun _ =>
  mret s)).

(** The two passes of [Utf8Encode]. *)
Fixpoint utf8_length (n : nat) (str : Str) (i resultLen : Z) : M Z :=
  match n with
  | O => mret resultLen
  | S n => ch ← str_item str i; utf8_length n str (i + 1) (resultLen + A_UTF8_LEN ch)
  end.

Fixpoint utf8_encode_loop (n : nat) (str : Str) (i j : Z) (s : Str) : M Str :=
  match n with
  | O => mret s
  | S n =>
    ch ← str_item str i;
    if ch <=? 0x7f then
      s ← set_str_item s j ch; utf8_encode_loop n str (i + 1) (j + 1) s
    else if ch <=? 0x7ff then
      s ← set_str_item s j (Z.lor 0xc0 (Z.shiftr ch 6));
      s ← set_str_item s (j + 1) (Z.lor 0x80 (Z.land ch 0x3f));
      utf8_encode_loop n str (i + 1) (j + 2) s
    else
      s ← set_str_item s j (Z.lor 0xe0 (Z.shiftr ch 12));
      s ← set_str_item s (j + 1) (Z.lor 0x80 (Z.land (Z.shiftr ch 6) 0x3f));
      s ← set_str_item s (j + 2) (Z.lor 0x80 (Z.land ch 0x3f));
      utf8_encode_loop n str (i + 1) (j + 3) s
  end.

(** [Utf8Encode(t, frame)]. *)
Definition Utf8Encode (v : option Str) : M Str :=
  str ← AExpectStr v;
  let len := str_len str in
  resultLen ← utf8_length (Z.to_nat len) str 0 0;
  s ← empty_str false (s32 resultLen);
  utf8_encode_loop (Z.to_nat len) str 0 0 s.

(** ** Latin-1 *)

(** The loop over the characters that [Iso8859_1Decode] and
    [Iso8859_1Encode] share: the error they raise and the character they
    write for an invalid one differ. *)
Fixpoint latin1_loop (n : nat) (d : Codec) (e : exn) (subst : Z) (str : Str) (i : Z) (s : Str) : M Str :=
  match n with
  | O => mret s
  | S n =>
    ch ← str_item str i;
    if ch <=? 0xff then s ← set_str_item s i ch; latin1_loop n d e subst str (i + 1) s
    else if SLOT_MODE d =? MODE_STRICT then raise e
    else s ← set_str_item s i subst; latin1_loop n d e subst str (i + 1) s
  end.

Definition Iso8859_1Decode (d : Codec) (v : option Str) : M Str :=
  match v with
  | Some (MkStr false c) => mret (MkStr false c)
  | Some str =>
    s ← empty_str true (str_len str);
    latin1_loop (Z.to_nat (str_len str)) d EDecodeError 0xfffd str 0 s
  | None => raise ETypeError
  end.

Definition Iso8859_1Encode (d : Codec) (v : option Str) : M Str :=
  match v with
  | Some (MkStr false c) => mret (MkStr false c)
  | Some str =>
    s ← empty_str false (str_len str);
    latin1_loop (Z.to_nat (str_len str)) d EEncodeError 63 str 0 s
  | None => raise ETypeError
  end.

(** ** UTF-16 *)

(** The 16-bit value of two bytes in the order of the encoding. *)
Definition join_bytes (isBigEndian : bool) (a b : Z) : Z :=
  if isBigEndian then Z.lor (Z.shiftl a 8) b else Z.lor a (Z.shiftl b 8).

Fixpoint utf16_loop (n : nat) (isBigEndian : bool) (str : Str) (i j : Z) (s : Str) : M (Str * Z) :=
  match n with
  | O => mret (s, j)
  | S n =>
    a ← str_item str j; b ← str_item str (j + 1);
    s ← set_str_item s i (join_bytes isBigEndian a b);
    utf16_loop n isBigEndian str (i + 1) (j + 2) s
  end.

(** [Utf16Decode(t, frame, isBigEndian)]. *)
Definition Utf16Decode (v : option Str) (isBigEndian : bool) : SM Codec Str :=
  str ← lift (AExpectStr v);
  d ← get;
  unprocessed ← lift (buf_item d 0);
  let len := str_len str in
  let resultLen := Z.shiftr (len + unprocessed) 1 in
  s ← lift (empty_str true resultLen);
  '(s, i, j) ← lift (if negb (unprocessed =? 0) && (0 <? len) then
      c ← buf_item d 1; b ← str_item str 0;
      s ← set_str_item s 0 (join_bytes isBigEndian c b);
      mret (s, 1, 1)
    else mret (s, 0, 0));
  '(s, j) ← lift (utf16_loop (Z.to_nat (resultLen - i)) isBigEndian str i j s);
  set_buf 0 (if j =? len - 1 then 1 else 0) ≫= (fun _ =>
  (if j =? len - 1 then c ← lift (str_item str j); set_buf 1 c else mret tt) ≫= (fun _ =>
  mret s)).

Definition Utf16LeDecode (v : option Str) : SM Codec Str := Utf16Decode v false.
Definition Utf16BeDecode (v : option Str) : SM Codec Str := Utf16Decode v true.

Fixpoint utf16_encode_loop (n : nat) (isBigEndian : bool) (str : Str) (i : Z) (s : Str) : M Str :=
  match n with
  | O => mret s
  | S n =>
    ch ← str_item str i;
    let lo := Z.land ch 0xff in
    let hi := Z.shiftr ch 8 in
    s ← set_str_item s (i * 2) (if isBigEndian then hi else lo);
    s ← set_str_item s (i * 2 + 1) (if isBigEndian then lo else hi);
    utf16_encode_loop n isBigEndian str (i + 1) s
  end.

Definition Utf16LeEncode (v : option Str) : M Str :=
  str ← AExpectStr v;
  let len := str_len str in
  s ← empty_str false (s32 (len * 2));
  utf16_encode_loop (Z.to_nat len) false str 0 s.

Definition Utf16BeEncode (v : option Str) : M Str :=
  str ← AExpectStr v;
  let len := str_len str in
  s ← empty_str false (s32 (len * 2));
  utf16_encode_loop (Z.to_nat len) true str 0 s.
