(* ===== verification/EncodingsSpec.v ===== *)
(** * EncodingsSpec: UTF-8 as the decoder and the encoder implement it

    The grammar of the byte sequences that [Utf8Decode] reads, independent of
    how a text is cut into chunks, and the proof that the two passes of the
    decoder, with the bytes it carries between calls, implement it. *)

From S2P Require Import Prelude Runtime Digits Value LongInt Encodings.

Definition wide_char (c : Z) : Prop := 0 <= c < 65536.

Lemma byte_wide l : Forall byte l -> Forall wide_char l.
Proof. induction 1; constructor; [unfold byte, wide_char in *; lia|done]. Qed.

(** ** The grammar *)

Definition cont (b : Z) : bool := (0x80 <=? b) && (b <=? 0xbf).

(** The character that one unit of bytes stands for; the lead bytes F0..FF are
    read like E0..EF. *)
Definition utf8_value (u : list Z) : option Z :=
  match u with
  | [a] => if a <? 128 then Some a else None
  | [a; b] => if cont b then Some ((a - 192) * 64 + (b - 128)) else None
  | [a; b; c] =>
    if cont b && cont c && ((0xa0 <=? b) || negb (a =? 0xe0))
    then Some (a mod 16 * 4096 + (b - 128) * 64 + (c - 128)) else None
  | _ => None
  end.

(** The first unit of a text and what follows it; [None] if it is incomplete. *)
Definition utf8_next (l : list Z) : option (option Z * list Z) :=
  match l with
  | [] => None
  | a :: _ =>
    let w := A_UTF8_SKIP_W a in
    if w <=? zlen l then Some (utf8_value (take (Z.to_nat w) l), drop (Z.to_nat w) l) else None
  end.

(** The units of a text and the incomplete unit at its end. *)
Fixpoint utf8_items (n : nat) (l : list Z) : list (option Z) * list Z :=
  match n with
  | O => ([], l)
  | S n =>
    match utf8_next l with
    | None => ([], l)
    | Some (c, l') => let '(cs, r) := utf8_items n l' in (c :: cs, r)
    end
  end.

Definition utf8_parse (l : list Z) : list (option Z) * list Z := utf8_items (length l) l.

(** The decoded text: an invalid unit is an error or a replacement character. *)
Definition utf8_result (strict : bool) (items : list (option Z)) : option (list Z) :=
  mapM (fun o => match o with Some c => Some c | None => if strict then None else Some 0xfffd end) items.

Lemma SKIP_W_range a : 1 <= A_UTF8_SKIP_W a <= 3.
Proof. unfold A_UTF8_SKIP_W. repeat case_match; lia. Qed.

Lemma utf8_next_shorter l o l' : utf8_next l = Some (o, l') -> (length l' < length l)%nat.
Proof.
  unfold utf8_next. destruct l as [|a l]; [done|]. pose proof (SKIP_W_range a).
  case_match; [|done]. intros [= <- <-]. rewrite length_drop. simpl length in *. lia.
Qed.

Lemma utf8_items_fuel n m l :
  (length l <= n)%nat -> (length l <= m)%nat -> utf8_items n l = utf8_items m l.
Proof.
  revert m l. induction n as [|n IH]; intros m l Hn Hm.
  - destruct l; [|simpl in Hn; lia]. by destruct m.
  - destruct m as [|m]; [destruct l; [done|simpl in Hm; lia]|]. simpl.
    destruct (utf8_next l) as [[o l']|] eqn:E; [|done].
    apply utf8_next_shorter in E. by rewrite (IH m) by lia.
Qed.

Lemma utf8_parse_eq l :
  utf8_parse l = match utf8_next l with
                 | None => ([], l)
                 | Some (o, l') => (o :: fst (utf8_parse l'), snd (utf8_parse l'))
                 end.
Proof.
  unfold utf8_parse. destruct l as [|a l0]; [done|]. set (l := a :: l0).
  assert (Hl : length l = S (length l0)) by done. rewrite Hl. cbn [utf8_items].
  destruct (utf8_next l) as [[o l']|] eqn:E; [|done]. apply utf8_next_shorter in E.
  rewrite (utf8_items_fuel (length l0) (length l')) by lia. by destruct (utf8_items _ l').
Qed.

(** Induction over the units of a text. *)
Lemma utf8_ind (P : list Z -> Prop) :
  (forall l, utf8_next l = None -> P l) ->
  (forall l o l', utf8_next l = Some (o, l') -> P l' -> P l) -> forall l, P l.
Proof.
  intros H0 H1 l. remember (length l) as n eqn:E. assert (Hn : (length l <= n)%nat) by lia. clear E.
  revert l Hn. induction n as [|n IH]; intros l Hn.
  - destruct l; [by apply H0|simpl in Hn; lia].
  - destruct (utf8_next l) as [[o l']|] eqn:E; [|by apply H0].
    apply (H1 l o l' E), IH. apply utf8_next_shorter in E. lia.
Qed.

Lemma utf8_parse_rest l : utf8_next (snd (utf8_parse l)) = None.
Proof.
  induction l as [l E|l o l' E IH] using utf8_ind; rewrite utf8_parse_eq, E; [done|]. apply IH.
Qed.

Lemma utf8_next_app a b o a' : utf8_next a = Some (o, a') -> utf8_next (a ++ b) = Some (o, a' ++ b).
Proof.
  unfold utf8_next. destruct a as [|x a]; [done|]. simpl app. pose proof (SKIP_W_range x).
  destruct (Z.leb_spec (A_UTF8_SKIP_W x) (zlen (x :: a))) as [Hw|]; [|done]. intros [= <- <-].
  rewrite (app_comm_cons a b x), length_app. test (_ <=? _) true.
  by rewrite take_app_le, drop_app_le by lia.
Qed.

(** Units do not depend on how the text is cut. *)
Lemma utf8_parse_app a b :
  utf8_parse (a ++ b) =
    (fst (utf8_parse a) ++ fst (utf8_parse (snd (utf8_parse a) ++ b)),
     snd (utf8_parse (snd (utf8_parse a) ++ b))).
Proof.
  induction a as [a E|a o a' E IH] using utf8_ind.
  - rewrite (utf8_parse_eq a), E. simpl. by destruct (utf8_parse (a ++ b)).
  - rewrite (utf8_parse_eq (a ++ b)), (utf8_next_app _ _ _ _ E), (utf8_parse_eq a), E, IH. done.
Qed.

Lemma utf8_result_app strict a b :
  utf8_result strict (a ++ b) =
    (x ← utf8_result strict a; y ← utf8_result strict b; Some (x ++ y)).
Proof.
  unfold utf8_result. induction a as [|o a IH]; simpl.
  - by destruct (mapM _ b).
  - destruct o as [c|]; simpl; [|destruct strict; [done|]]; simpl; rewrite IH;
      destruct (mapM _ a); simpl; try done; by destruct (mapM _ b).
Qed.

(** The incomplete unit at the end of a text consists of at most two
    characters that fit a byte if the text does. *)
Lemma incomplete_short c : utf8_next c = None -> zlen c <= 2.
Proof.
  unfold utf8_next. destruct c as [|a c]; [simpl; lia|]. pose proof (SKIP_W_range a).
  destruct (Z.leb_spec (A_UTF8_SKIP_W a) (zlen (a :: c))); [done|]. lia.
Qed.

Lemma incomplete_lead a c : utf8_next (a :: c) = None -> 0xc2 <= a < 256.
Proof.
  unfold utf8_next, A_UTF8_SKIP_W. rewrite length_cons.
  repeat (case_match; simpl); try done; rewrite ?Z.ltb_lt, ?Z.ltb_ge, ?Z.leb_le, ?Z.leb_gt in *; lia.
Qed.

Lemma incomplete_u8 c : Forall wide_char c -> utf8_next c = None -> utf8_next (u8 <$> c) = None.
Proof.
  intros Hc Hn. destruct c as [|a c]; [done|]. pose proof (incomplete_lead _ _ Hn).
  unfold utf8_next in *. rewrite fmap_cons, (u8_byte a) by (unfold byte; lia).
  change (length (a :: list_fmap _ _ u8 c)) with (length (a :: (u8 <$> c))).
  simpl length in *. rewrite length_fmap. by destruct (_ <=? _).
Qed.

(** ** The decoder *)

(** The state between two calls: the incomplete unit [c] is carried. *)
Definition utf8_state (d : Codec) (c : list Z) : Prop :=
  (exists junk, ENC_BUF d = zlen c :: c ++ junk) /\ zlen (ENC_BUF d) = 8 /\
  Forall byte c /\ utf8_next c = None.

Lemma zlen_cons {A} (x : A) l : zlen (x :: l) = 1 + zlen l.
Proof. simpl length. lia. Qed.

Lemma dg_app l1 l2 i : zlen l1 <= i -> dg (l1 ++ l2) i = dg l2 (i - zlen l1).
Proof.
  intros Hi. unfold dg. rewrite app_nth2 by lia. f_equal. lia.
Qed.

Lemma dg_app_l l1 l2 i : 0 <= i < zlen l1 -> dg (l1 ++ l2) i = dg l1 i.
Proof. intros Hi. unfold dg. apply app_nth1. lia. Qed.

Lemma str_item_dg s i : 0 <= i < zlen (chars s) -> evals (str_item s i) (dg (chars s) i).
Proof. intros Hi. unfold str_item. rewrite in_bounds by done. apply evals_ret. Qed.

Lemma set_str_item_at w T x J i ch :
  i = zlen T ->
  evals (set_str_item (MkStr w (T ++ x :: J)) i ch) (MkStr w (T ++ (if w then u16 ch else u8 ch) :: J)).
Proof.
  intros ->. unfold set_str_item. simpl. rewrite length_app, length_cons, in_bounds by lia.
  rewrite upd_at. apply evals_ret.
Qed.

Lemma empty_str_spec wide len :
  0 <= len -> returns (empty_str wide len) (fun s => is_wide s = wide /\ zlen (chars s) = len).
Proof.
  intros. eapply returns_bind; [apply AAlloc_spec|]. intros junk _. apply returns_ret.
  split; [done|]. simpl. rewrite length_fmap, length_seq. lia.
Qed.

Lemma str_len_small s : zlen (chars s) < 2 ^ 31 -> str_len s = zlen (chars s).
Proof. intros. unfold str_len. apply s32_small. lia. Qed.

Lemma utf8_next_split l o l' :
  utf8_next l = Some (o, l') -> exists u, l = u ++ l' /\ zlen u = A_UTF8_SKIP_W (dg l 0).
Proof.
  unfold utf8_next. destruct l as [|a l]; [done|]. change (dg (a :: l) 0) with a.
  pose proof (SKIP_W_range a). destruct (Z.leb_spec (A_UTF8_SKIP_W a) (zlen (a :: l))); [|done]. intros [= _ <-].
  exists (take (Z.to_nat (A_UTF8_SKIP_W a)) (a :: l)). rewrite take_drop, length_take. split; [done|lia].
Qed.

Lemma utf8_next_value l v l' : Forall wide_char l -> utf8_next l = Some (Some v, l') -> wide_char v.
Proof.
  unfold utf8_next, A_UTF8_SKIP_W, wide_char. intros Hl. destruct l as [|a l]; [done|].
  apply Forall_cons_1 in Hl as [Ha Hl]. intros Hn.
  destruct (Z.ltb_spec a 0xc2); [|destruct (Z.ltb_spec a 0xe0); [|destruct (Z.leb_spec a 0xff)]];
    (destruct (_ <=? zlen _) eqn:Hw; [|done]); simpl in Hn.
  - destruct (Z.ltb_spec a 128); simplify_eq. lia.
  - destruct l as [|b l]; [done|]. simpl in Hn. unfold cont in Hn.
    destruct (Z.leb_spec 128 b), (Z.leb_spec b 191); simpl in Hn; simplify_eq. lia.
  - destruct l as [|b [|e l]]; [done..|]. simpl in Hn. unfold cont in Hn.
    destruct (Z.leb_spec 128 b), (Z.leb_spec b 191), (Z.leb_spec 128 e), (Z.leb_spec e 191); simpl in Hn;
      try done.
    destruct (_ || _); simplify_eq. zsolve.
  - destruct (Z.ltb_spec a 128); simplify_eq. lia.
Qed.

Lemma utf8_items_next l o l' :
  utf8_next l = Some (o, l') ->
  fst (utf8_parse l) = o :: fst (utf8_parse l') /\ snd (utf8_parse l) = snd (utf8_parse l').
Proof. intros E. by rewrite (utf8_parse_eq l), E. Qed.

Lemma utf8_items_none l : utf8_next l = None -> utf8_parse l = ([], l).
Proof. intros E. by rewrite (utf8_parse_eq l), E. Qed.

(** The bit fields of the units of two and three bytes. *)
Lemma two_bytes a b :
  0xc2 <= a < 0xe0 -> 128 <= b <= 191 ->
  u16 (Z.lor (Z.shiftl (Z.land a 0x1f) 6) (Z.land b 0x3f)) = (a - 192) * 64 + (b - 128).
Proof.
  intros. change 0x1f with (Z.ones 5). change 0x3f with (Z.ones 6).
  rewrite !low_bits, fields by (simpl; zsolve). simpl (2 ^ _). unfold u16. zsolve.
Qed.

Lemma three_bytes a b e :
  0xe0 <= a <= 0xff -> 128 <= b <= 191 -> 128 <= e <= 191 ->
  u16 (Z.lor (Z.lor (Z.shiftl (Z.land a 0xf) 12) (Z.shiftl (Z.land b 0x3f) 6)) (Z.land e 0x3f))
    = a mod 16 * 4096 + (b - 128) * 64 + (e - 128).
Proof.
  intros. change 0xf with (Z.ones 4). change 0x3f with (Z.ones 6). rewrite !low_bits by lia.
  rewrite <- Z.lor_assoc, (fields (b mod _)) by (simpl; zsolve).
  rewrite fields by (simpl; zsolve). simpl (2 ^ _). unfold u16. zsolve.
Qed.

Section decode.
Context (d : Codec) (s : Str) (c : list Z) (Hst : utf8_state d c).

Lemma ChAt_dg i :
  0 <= i < zlen c + zlen (chars s) ->
  evals (ChAt d s (i - zlen c) (zlen c)) (dg (c ++ chars s) i).
Proof using Hst.
  intros Hi. unfold ChAt. destruct (Z.ltb_spec (i - zlen c) 0) as [Hl|Hl].
  - destruct Hst as ((junk & Hb) & H8 & _). unfold buf_item. rewrite Hb in *.
    rewrite length_cons, length_app in *. rewrite in_bounds by lia.
    replace (i - zlen c + zlen c + 1) with (i + 1) by lia.
    change (zlen c :: c ++ junk) with ([zlen c] ++ (c ++ junk)).
    rewrite (dg_app [_]) by (simpl; lia). simpl length. replace (i + 1 - Z.of_nat 1) with i by lia.
    rewrite !dg_app_l by lia. apply evals_ret.
  - rewrite dg_app by lia. apply str_item_dg. lia.
Qed.

(** The text [c ++ chars s] is read at [zlen pre + k]. *)
Lemma ChAt_at pre m x r k :
  c ++ chars s = pre ++ m ++ x :: r -> k = zlen m ->
  evals (ChAt d s (zlen pre - zlen c + k) (zlen c)) x.
Proof using Hst.
  intros Hall ->. rewrite app_assoc in Hall.
  replace x with (dg (c ++ chars s) (zlen (pre ++ m))) by (rewrite Hall; apply dg_at).
  replace (zlen pre - zlen c + zlen m) with (zlen (pre ++ m) - zlen c) by (rewrite length_app; lia).
  apply ChAt_dg. apply (f_equal length) in Hall. rewrite !length_app, length_cons in Hall. rewrite length_app. lia.
Qed.

Lemma str_item_at pre m x r k :
  c ++ chars s = pre ++ m ++ x :: r -> k = zlen m -> zlen c <= zlen pre + k ->
  evals (str_item s (zlen pre - zlen c + k)) x.
Proof using.
  intros Hall -> Hc. rewrite app_assoc in Hall.
  assert (Hx : dg (chars s) (zlen pre - zlen c + zlen m) = x).
  { transitivity (dg (c ++ chars s) (zlen (pre ++ m))); [|rewrite Hall; apply dg_at].
    rewrite dg_app by (rewrite length_app; lia). f_equal. rewrite length_app. lia. }
  rewrite <- Hx. apply str_item_dg. apply (f_equal length) in Hall.
  rewrite !length_app, length_cons in Hall. lia.
Qed.

(** The unit at the head of [l] ends in the argument. *)
Lemma utf8_char_spec pre l o l' :
  c ++ chars s = pre ++ l -> Forall wide_char l -> utf8_next l = Some (o, l') ->
  zlen c < zlen pre + A_UTF8_SKIP_W (dg l 0) ->
  evals (utf8_char d s (zlen c) (zlen pre - zlen c)) (o, zlen pre - zlen c + A_UTF8_SKIP_W (dg l 0)).
Proof using Hst.
  intros Hall Hl Hn Hc. destruct l as [|a l]; [done|]. change (dg (a :: l) 0) with a in *.
  apply Forall_cons_1 in Hl as [Ha Hl]. unfold utf8_char. rewrite <- (Z.add_0_r (zlen pre - zlen c)) at 1.
  eapply evals_bind; [by apply (ChAt_at pre [] a l)|].
  unfold utf8_next in Hn. unfold A_UTF8_SKIP_W in *. unfold wide_char in Ha.
  destruct (Z.leb_spec a 0x7f).
  { revert Hn. test (a <? 0xc2) true. rewrite length_cons.
    test (_ <=? _) true. intros [= <- <-]. simpl. test (_ <? _) true. apply evals_ret. }
  destruct (Z.ltb_spec a 0xc2).
  { revert Hn. rewrite length_cons. test (_ <=? _) true. intros [= <- <-]. simpl. test (_ <? _) false. apply evals_ret. }
  destruct (Z.ltb_spec a 0xe0).
  { destruct l as [|b l]; [done|]. rewrite !length_cons in Hn. revert Hn. test (_ <=? _) true.
    intros [= <- <-]. apply Forall_cons_1 in Hl as [Hb _]. unfold wide_char in Hb.
    eapply evals_bind; [apply (str_item_at pre [a] b l); [done..|simpl; lia]|]. simpl. unfold cont.
    rewrite (Z.ltb_antisym 128 b), (Z.ltb_antisym b 191).
    destruct (Z.leb_spec 128 b), (Z.leb_spec b 191); simpl; try apply evals_ret.
    rewrite two_bytes by lia. apply evals_ret. }
  destruct (Z.leb_spec a 0xff); cycle 1.
  { test (a <? 256) false. revert Hn. rewrite length_cons. test (_ <=? _) true. intros [= <- <-]. simpl.
    test (_ <? _) false. apply evals_ret. }
  test (a <? 256) true. destruct l as [|b [|e l]]; [done..|].
  rewrite !length_cons in Hn. revert Hn. test (_ <=? _) true. intros [= <- <-].
  eapply evals_bind; [by apply (ChAt_at pre [a] b (e :: l))|].
  eapply evals_bind; [apply (str_item_at pre [a; b] e l); [done..|simpl; lia]|]. simpl. unfold cont.
  rewrite (Z.ltb_antisym 128 b), (Z.ltb_antisym 128 e), (Z.ltb_antisym b 191), (Z.ltb_antisym e 191),
    (Z.ltb_antisym 160 b), (orb_comm (160 <=? b)).
  destruct (Z.leb_spec 128 b), (Z.leb_spec b 191), (Z.leb_spec 128 e), (Z.leb_spec e 191); simpl;
    try apply evals_ret.
  destruct (a =? 224), (160 <=? b); simpl; rewrite ?three_bytes by lia; apply evals_ret.
Qed.

(** The second pass, started at the unit at the head of [l]. *)
Lemma utf8_loop_spec l pre T J :
  c ++ chars s = pre ++ l -> Forall wide_char l ->
  (utf8_next l <> None -> zlen c < zlen pre + A_UTF8_SKIP_W (dg l 0)) ->
  length J = length (fst (utf8_parse l)) ->
  yields (utf8_loop (length (fst (utf8_parse l))) d s (zlen c) (zlen T) (zlen pre - zlen c) (MkStr true (T ++ J)))
    (match utf8_result (SLOT_MODE d =? MODE_STRICT) (fst (utf8_parse l)) with
     | Some r => Ok (MkStr true (T ++ r), zlen pre - zlen c + (zlen l - zlen (snd (utf8_parse l))))
     | None => Raise EDecodeError
     end).
Proof using Hst.
  revert pre T J. induction l as [l E|l o l' E IH] using utf8_ind; intros pre T J Hall Hl Hc HJ.
  { rewrite (utf8_items_none l E) in *. simpl in *. apply spec_ret. apply nil_length_inv in HJ as ->.
    by rewrite Z.sub_diag, Z.add_0_r. }
  destruct (utf8_items_next l o l' E) as [E1 E2]. rewrite E1, E2 in *. simpl length in *.
  specialize (Hc ltac:(by rewrite E)). cbn [utf8_loop].
  eapply spec_bind_evals; [by eapply utf8_char_spec|].
  destruct (utf8_next_split l o l' E) as (u & Hu & Hw). rewrite <- Hw in *.
  destruct J as [|x J]; [done|]. simpl in HJ.
  assert (Hl' : Forall wide_char l') by (rewrite Hu in Hl; by apply Forall_app in Hl as [_ ?]).
  assert (Hrec : forall v, u16 v = v ->
    yields (s0 ← set_str_item (MkStr true (T ++ x :: J)) (zlen T) v;
      utf8_loop (length (fst (utf8_parse l'))) d s (zlen c) (zlen T + 1) (zlen pre - zlen c + zlen u) s0)
    (match utf8_result (SLOT_MODE d =? MODE_STRICT) (fst (utf8_parse l')) with
     | Some r => Ok (MkStr true (T ++ v :: r), zlen pre - zlen c + (zlen l - zlen (snd (utf8_parse l'))))
     | None => Raise EDecodeError
     end)).
  { intros v Hv. eapply spec_bind_evals; [by apply set_str_item_at|]. simpl. rewrite Hv.
    pose proof (SKIP_W_range (dg l' 0)).
    specialize (IH (pre ++ u) (T ++ [v]) J). rewrite <- !app_assoc, !length_app in IH. simpl in IH.
    rewrite !Nat2Z.inj_add in IH.
    replace (zlen pre + zlen u - zlen c) with (zlen pre - zlen c + zlen u) in IH by lia.
    replace (zlen pre - zlen c + (zlen l - zlen (snd (utf8_parse l'))))
      with (zlen pre - zlen c + zlen u + (zlen l' - zlen (snd (utf8_parse l')))) by (rewrite Hu, length_app; lia).
    eapply spec_mono; [apply IH; [by rewrite Hall, Hu|done|intros _; lia|lia]|].
    intros r ->. destruct (utf8_result _ _); [by rewrite <- app_assoc|done]. }
  destruct o as [v|].
  - eapply spec_mono; [apply Hrec, Z.mod_small, (utf8_next_value _ _ _ Hl E)|].
    intros r ->. unfold utf8_result. simpl. by destruct (mapM _ _).
  - unfold utf8_result at 1. simpl. destruct (SLOT_MODE d =? MODE_STRICT) eqn:Em.
    + by apply spec_raise.
    + eapply spec_mono; [by apply Hrec|]. intros r ->. simpl. unfold utf8_result. by destruct (mapM _ _).
Qed.

End decode.

(** The first pass counts the units. *)
Lemma utf8_count_spec s fuel pre l acc :
  chars s = pre ++ l -> l <> [] -> (length l <= fuel)%nat ->
  evals (utf8_count fuel s (zlen (chars s)) (zlen pre) acc) (acc + zlen (fst (utf8_parse l))).
Proof.
  revert pre l acc. induction fuel as [|fuel IH]; intros pre l acc Hs Hl Hf.
  { destruct l; [done|simpl in Hf; lia]. }
  destruct l as [|a l]; [done|]. cbn [utf8_count].
  assert (Hlen : zlen (chars s) = zlen pre + zlen (a :: l)) by (rewrite Hs, length_app; lia).
  eapply evals_bind; [apply str_item_dg; rewrite length_cons in Hlen; lia|]. 
  replace (dg (chars s) (zlen pre)) with a by (rewrite Hs; symmetry; apply dg_at).
  rewrite (utf8_parse_eq (a :: l)). unfold utf8_next. pose proof (SKIP_W_range a). cbv zeta. rewrite Hlen.
  destruct (Z.leb_spec (A_UTF8_SKIP_W a) (zlen (a :: l))) as [Hw|Hw]; cycle 1.
  { test (_ <? _) false. destruct (Z.eqb_spec (zlen pre + A_UTF8_SKIP_W a) (zlen pre + zlen (a :: l))); [lia|]. simpl. rewrite Z.add_0_r. apply evals_ret. }
  set (l' := drop _ (a :: l)). assert (Hl' : zlen l' = zlen (a :: l) - A_UTF8_SKIP_W a).
  { unfold l'. rewrite length_drop. lia. }
  destruct (Z.ltb_spec (zlen pre + A_UTF8_SKIP_W a) (zlen pre + zlen (a :: l))) as [Hlt|Hge].
  - assert (Hq : forall (o : option Z) q, acc + zlen (o :: q) = acc + 1 + zlen q) by (intros; rewrite length_cons; lia).
    cbn [fst]. rewrite Hq.
    specialize (IH (pre ++ take (Z.to_nat (A_UTF8_SKIP_W a)) (a :: l)) l').
    rewrite length_app, length_take, Nat.min_l, Nat2Z.inj_add, Z2Nat.id, Hlen in IH by lia.
    apply IH; [|intros ->; simpl in *; lia|simpl in *; lia].
    rewrite <- app_assoc. unfold l'. by rewrite take_drop.
  - destruct (Z.eqb_spec (zlen pre + A_UTF8_SKIP_W a) (zlen pre + zlen (a :: l))); [|lia]. replace l' with (@nil Z) by (symmetry; apply nil_length_inv; lia).
    apply evals_ret.
Qed.

Lemma utf8_rest_suffix l : exists p, l = p ++ snd (utf8_parse l).
Proof.
  induction l as [l E|l o l' E [p IH]] using utf8_ind.
  - exists []. by rewrite (utf8_items_none l E).
  - destruct (utf8_items_next l o l' E) as [_ ->]. destruct (utf8_next_split l o l' E) as (u & -> & _).
    exists (u ++ p). by rewrite IH at 1; rewrite app_assoc.
Qed.

Lemma state_carry d c a c' : utf8_state d c -> c = a :: c' -> A_UTF8_SKIP a = A_UTF8_SKIP_W a /\ zlen c < A_UTF8_SKIP_W a.
Proof.
  intros (_ & _ & _ & Hn) ->. pose proof (incomplete_lead _ _ Hn). unfold A_UTF8_SKIP, A_UTF8_SKIP_W.
  split; [repeat case_match; rewrite ?Z.ltb_lt, ?Z.ltb_ge, ?Z.leb_le, ?Z.leb_gt in *; lia|].
  unfold utf8_next in Hn. revert Hn. destruct (Z.leb_spec (A_UTF8_SKIP_W a) (zlen (a :: c'))); [done|].
  intros _. unfold A_UTF8_SKIP_W in *. lia.
Qed.

(** The first pass over the carried and the new bytes. *)
Lemma utf8_pending_spec d s c :
  utf8_state d c -> zlen (chars s) < 2 ^ 31 - 8 ->
  exists i n, let nu := match utf8_next (c ++ chars s) with None => zlen c | Some _ => 0 end in
  evals (utf8_pending d (zlen (chars s)) (zlen c)) (i, n, nu) /\
  evals (if i <? zlen (chars s) then utf8_count (length (chars s)) s (zlen (chars s)) i n else mret n)
    (zlen (fst (utf8_parse (c ++ chars s)))).
Proof.
  intros Hst Hlen. destruct c as [|a c'].
  { exists 0, 0. simpl. split; [unfold utf8_pending; simpl; destruct (utf8_next (chars s)); apply evals_ret|].
    destruct (Z.ltb_spec 0 (zlen (chars s))).
    - apply (utf8_count_spec s _ [] (chars s)); [done| |done]. intros E. rewrite E in *. simpl in *. lia.
    - replace (chars s) with (@nil Z) by (symmetry; apply nil_length_inv; lia). apply evals_ret. }
  destruct (state_carry d _ a c' Hst eq_refl) as [Hskip Hw]. pose proof Hst as ((junk & Hb) & H8 & _).
  set (c := a :: c') in *. set (w := A_UTF8_SKIP_W a) in *.
  assert (Hp : evals (utf8_pending d (zlen (chars s)) (zlen c))
    (if w - zlen c <=? zlen (chars s) then (w - zlen c, 1, 0) else (w - zlen c, 0, zlen c))).
  { unfold utf8_pending. rewrite (proj2 (Z.eqb_neq (zlen c) 0)) by (unfold c; rewrite length_cons; lia). simpl negb.
    eapply evals_bind; [unfold buf_item; rewrite in_bounds by lia; rewrite Hb; apply evals_ret|].
    change (dg _ 1) with a. rewrite Hskip. fold w. case_match; apply evals_ret. }
  unfold utf8_next. change (c ++ chars s) with (a :: c' ++ chars s). fold w.
  assert (Hall : zlen (a :: c' ++ chars s) = zlen c + zlen (chars s)).
  { change (a :: c' ++ chars s) with (c ++ chars s). rewrite length_app. lia. }
  rewrite Hall. revert Hp. destruct (Z.leb_spec (w - zlen c) (zlen (chars s))) as [Hle|Hgt]; intros Hp.
  - test (_ <=? _) true. exists (w - zlen c), 1. split; [exact Hp|].
    rewrite (utf8_parse_eq (a :: _)). unfold utf8_next. fold w. rewrite Hall. test (_ <=? _) true. cbn [fst].
    change (a :: c' ++ chars s) with (c ++ chars s). rewrite drop_app_ge by lia.
    set (k := (Z.to_nat w - length c)%nat).
    replace (w - zlen c) with (zlen (take k (chars s))) by (rewrite length_take; lia).
    rewrite zlen_cons.
    destruct (Z.ltb_spec (zlen (take k (chars s))) (zlen (chars s))).
    + apply utf8_count_spec; [by rewrite take_drop| |rewrite length_drop; lia].
      intros E. apply (f_equal length) in E. rewrite length_drop, length_take in *. simpl in *. lia.
    + rewrite (drop_ge (chars s)) by (rewrite length_take in *; lia). apply evals_ret.
  - test (_ <=? _) false. exists (w - zlen c), 0. split; [exact Hp|].
    test (_ <? _) false. rewrite (utf8_parse_eq (a :: _)). unfold utf8_next. fold w. rewrite Hall.
    test (_ <=? _) false. apply evals_ret.
Qed.

(** Copying the bytes to carry behind those that stay. *)
Lemma set_buf_spec d T x J i v :
  ENC_BUF d = T ++ x :: J -> i = zlen T ->
  sreturns (set_buf i v) d (fun _ d' => d' = MkCodec (SLOT_MODE d) (SLOT_ENCODING d) (T ++ u8 v :: J)).
Proof.
  intros Hb ->. apply sspec_get_bind. rewrite Hb, length_app, length_cons, in_bounds by lia.
  intros t. simpl. split; [done|]. left. by rewrite Hb, upd_at.
Qed.

Lemma carry_copy str j nu m : forall k pre T J d,
  chars str = pre ++ m -> j + k = zlen pre -> ENC_BUF d = T ++ J -> zlen T = k + 1 + nu ->
  (length m <= length J)%nat ->
  sreturns (sfor (length m) k (fun i => c ← lift (str_item str (j + i)); set_buf (i + 1 + nu) c)) d
    (fun _ d' => ENC_BUF d' = T ++ (u8 <$> m) ++ drop (length m) J /\
      SLOT_MODE d' = SLOT_MODE d /\ SLOT_ENCODING d' = SLOT_ENCODING d).
Proof.
  induction m as [|x m IH]; intros k pre T J d Hs Hj Hb HT HJ.
  { by apply sreturns_ret. }
  destruct J as [|y J]; [simpl in HJ; lia|]. cbn [length sfor].
  eapply sreturns_bind.
  - eapply (sreturns_lift_bind _ _ _ (fun c => c = x)); [|intros c ->; by eapply set_buf_spec].
    eapply evals_returns; [apply str_item_dg; rewrite Hs, length_app, length_cons; lia|].
    rewrite Hs, Hj. apply dg_at.
  - intros u d' ->. cbv beta.
    eapply sreturns_mono; [apply (IH (k + 1) (pre ++ [x]) (T ++ [u8 x]) J)|].
    + by rewrite Hs, <- app_assoc.
    + rewrite length_app. simpl. lia.
    + by rewrite <- app_assoc.
    + rewrite length_app. simpl. lia.
    + simpl in HJ. lia.
    + intros u' d' (-> & -> & ->). by rewrite <- app_assoc.
Qed.

Lemma utf8_parse_count_le l : (length (fst (utf8_parse l)) <= length l)%nat.
Proof.
  induction l as [l E|l o l' E IH] using utf8_ind.
  - rewrite (utf8_items_none l E). simpl. lia.
  - destruct (utf8_items_next l o l' E) as [-> _]. apply utf8_next_shorter in E. simpl. lia.
Qed.

(** The incomplete unit lies in the new bytes, or nothing was consumed. *)
Lemma utf8_carry_split d s c junk :
  utf8_state d c ->
  let all := c ++ chars s in
  let rest := snd (utf8_parse all) in
  let nu := match utf8_next all with None => zlen c | Some _ => 0 end in
  let j := zlen all - zlen rest - zlen c in
  exists pre m J, chars s = pre ++ m /\ zlen pre = (if j <? 0 then 0 else j) /\ nu + zlen m = zlen rest /\
    c ++ junk = take (Z.to_nat nu) c ++ J /\ rest = take (Z.to_nat nu) c ++ m /\ 0 <= nu <= zlen c.
Proof.
  intros Hst all rest nu j.
  assert (Hall : zlen all = zlen c + zlen (chars s)) by (unfold all; rewrite length_app; lia).
  unfold nu, j, rest. destruct (utf8_next all) as [[o l']|] eqn:E.
  - destruct (utf8_items_next _ _ _ E) as [_ E2]. destruct (utf8_rest_suffix l') as [p Hp].
    rewrite <- E2 in Hp. destruct (utf8_next_split _ _ _ E) as (u & Hu & Hw).
    rewrite Hp, (app_assoc u) in Hu.
    assert (Hcu : zlen c <= zlen (u ++ p)).
    { rewrite length_app, Nat2Z.inj_add, Hw. destruct c as [|a c']; [simpl; pose proof (SKIP_W_range (dg all 0)); lia|].
      destruct (state_carry d _ a c' Hst eq_refl). change (dg all 0) with a. lia. }
    set (r := snd (utf8_parse all)) in *.
    assert (Hu2 : zlen all = zlen (u ++ p) + zlen r) by (rewrite Hu, (length_app (u ++ p)); lia).
    destruct (Z.ltb_spec (zlen all - zlen r - zlen c) 0); [lia|].
    exists (drop (length c) (u ++ p)), r, (c ++ junk). rewrite length_drop. simpl. repeat split; try lia.
    apply (f_equal (drop (length c))) in Hu. unfold all in Hu. rewrite drop_app_length in Hu.
    by rewrite Hu, drop_app_le by lia.
  - rewrite (utf8_items_none _ E). simpl snd.
    replace (if zlen all - zlen all - zlen c <? 0 then 0 else zlen all - zlen all - zlen c) with 0
      by (case_match; rewrite ?Z.ltb_ge in *; lia).
    exists [], (chars s), junk. rewrite Nat2Z.id, firstn_all. repeat split; try done; lia.
Qed.

(** The carried bytes after the call: the incomplete unit at the end. *)
Lemma utf8_carry_out d s c :
  utf8_state d c -> Forall wide_char (chars s) -> zlen (chars s) < 2 ^ 31 - 8 ->
  let all := c ++ chars s in
  let rest := snd (utf8_parse all) in
  let nu := match utf8_next all with None => zlen c | Some _ => 0 end in
  let j := zlen all - zlen rest - zlen c in
  let j' := if j <? 0 then 0 else j in
  sreturns (set_buf 0 (nu + zlen (chars s) - j') ≫= (fun _ =>
      sfor (Z.to_nat (zlen (chars s) - j')) 0 (fun i =>
        c ← lift (str_item s (j' + i)); set_buf (i + 1 + nu) c)))
    d (fun _ d' => utf8_state d' (u8 <$> rest) /\ SLOT_MODE d' = SLOT_MODE d /\ SLOT_ENCODING d' = SLOT_ENCODING d).
Proof.
  intros Hst Hwide Hlen all rest nu j j'. pose proof Hst as ((junk & Hb) & H8 & Hc & Hcn).
  assert (Hcw : Forall wide_char c) by by apply byte_wide.
  assert (Hrw : Forall wide_char rest).
  { destruct (utf8_rest_suffix all) as [p Hp]. assert (H : Forall wide_char all) by (by apply Forall_app).
    rewrite Hp in H. by apply Forall_app in H as [_ ?]. }
  assert (Hrn : utf8_next rest = None) by apply utf8_parse_rest.
  pose proof (incomplete_short rest Hrn) as Hr2.
  assert (Hall : zlen all = zlen c + zlen (chars s)) by (unfold all; rewrite length_app; lia).
  destruct (utf8_carry_split d s c junk Hst) as (pre & m & J & Hs & Hpre & Hm & HJ & Hrest & Hnu).
  fold all rest nu j j' in Hpre, Hm, HJ, Hrest, Hnu.
  assert (Hmr : zlen (chars s) - j' = zlen m) by (rewrite Hs, length_app; lia).
  eapply sreturns_bind; [by apply (set_buf_spec d [] (zlen c) (c ++ junk))|]. intros u d1 ->. simpl app.
  rewrite HJ, Hmr, Nat2Z.id.
  replace (nu + zlen (chars s) - j') with (zlen rest) by lia. rewrite (u8_byte (zlen rest)) by (unfold byte; lia).
  assert (Htake : zlen (take (Z.to_nat nu) c) = nu) by (rewrite length_take; lia).
  assert (HmJ : (length m <= length J)%nat).
  { apply (f_equal length) in HJ. rewrite Hb in H8. rewrite zlen_cons, length_app in H8. rewrite !length_app in HJ. lia. }
  eapply sreturns_mono; [apply (carry_copy s j' nu m 0 pre (zlen rest :: take (Z.to_nat nu) c) J)|].
  - done.
  - lia.
  - done.
  - rewrite zlen_cons. lia.
  - done.
  - intros u' d' (Hb' & -> & ->). split; [|done].
    assert (Hu8 : u8 <$> rest = take (Z.to_nat nu) c ++ (u8 <$> m)).
    { rewrite Hrest, fmap_app. f_equal. rewrite <- (list_fmap_id (take _ c)) at 2.
      apply list_fmap_ext. intros i x Hx. apply u8_byte. eapply Forall_lookup_1; [by apply Forall_take|done]. }
    repeat split.
    + exists (drop (length m) J). rewrite Hb', length_fmap, Hu8. simpl. by rewrite app_assoc.
    + rewrite Hb', !length_app, length_fmap, length_drop. 
      rewrite Hb, zlen_cons, HJ, length_app in H8. simpl length. lia.
    + rewrite Hu8, <- Hu8. apply Forall_fmap, Forall_true. intros x. unfold byte, u8. simpl. zsolve.
    + by apply incomplete_u8.
Qed.

(** Both passes up to the decoding loop. *)
Lemma Utf8Decode_passes d s c Q :
  utf8_state d c -> zlen (chars s) < 2 ^ 31 - 8 ->
  let items := utf8_parse (c ++ chars s) in
  let nu := match utf8_next (c ++ chars s) with None => zlen c | Some _ => 0 end in
  (forall s0, is_wide s0 = true -> length (chars s0) = length (fst items) ->
    sspec ('(s0, j) ← lift (utf8_loop (length (fst items)) d s (zlen c) 0 (- zlen c) s0);
       let j := if j <? 0 then 0 else j in
       set_buf 0 (nu + zlen (chars s) - j) ≫= (fun _ =>
       sfor (Z.to_nat (zlen (chars s) - j)) 0 (fun i =>
         c ← lift (str_item s (j + i)); set_buf (i + 1 + nu) c) ≫= (fun _ =>
       mret s0))) d Q) ->
  sspec (Utf8Decode (Some s)) d Q.
Proof.
  intros Hst Hlen items nu HQ. pose proof Hst as ((junk & Hb) & H8 & _).
  destruct (utf8_pending_spec d s c Hst Hlen) as (i & n & Hp & Hcount). fold items in Hcount. fold nu in Hp.
  unfold Utf8Decode. eapply (sspec_lift_bind _ _ _ (fun x => x = s)); [by apply returns_ret|]. intros str ->.
  apply sspec_get_bind. rewrite str_len_small by lia. cbv zeta. rewrite Nat2Z.id.
  eapply (sspec_lift_bind _ _ _ (fun x => x = zlen c)).
  { unfold buf_item. rewrite in_bounds by lia. rewrite Hb. by apply returns_ret. }
  intros ? ->. eapply (sspec_lift_bind _ _ _ (fun x => x = (i, n, nu))); [by apply (evals_returns _ _ _ Hp)|].
  intros ? ->. cbv beta iota.
  eapply (sspec_lift_bind _ _ _ (fun x => x = zlen (fst items))); [by apply (evals_returns _ _ _ Hcount)|]. intros ? ->.
  eapply sspec_lift_bind; [apply empty_str_spec; lia|]. intros s0 [Hs0 Hl0].
  rewrite Nat2Z.id. apply HQ; [done|lia].
Qed.

(** [Utf8Decode] reads the units of the carried bytes followed by its
    argument. *)
Lemma Utf8Decode_spec d s c :
  utf8_state d c -> Forall wide_char (chars s) -> zlen (chars s) < 2 ^ 31 - 8 ->
  let items := utf8_parse (c ++ chars s) in
  match utf8_result (SLOT_MODE d =? MODE_STRICT) (fst items) with
  | Some r => sreturns (Utf8Decode (Some s)) d (fun v d' =>
      v = MkStr true r /\ utf8_state d' (u8 <$> snd items) /\ SLOT_MODE d' = SLOT_MODE d)
  | None => sraises (Utf8Decode (Some s)) d EDecodeError
  end.
Proof.
  intros Hst Hwide Hlen items. pose proof Hst as ((junk & Hb) & H8 & Hc & Hcn).
  assert (Hcw : Forall wide_char c) by by apply byte_wide.
  assert (Hloop := fun T J => utf8_loop_spec d s c Hst (c ++ chars s) [] T J eq_refl).
  pose proof (utf8_carry_out d s c Hst Hwide Hlen) as Hout. fold items in Hloop. cbv zeta in Hout. fold items in Hout.
  set (nu := match utf8_next (c ++ chars s) with None => zlen c | Some _ => 0 end) in *.
  assert (Hl : forall s0, is_wide s0 = true -> length (chars s0) = length (fst items) ->
    yields (utf8_loop (length (fst items)) d s (zlen c) 0 (- zlen c) s0)
    (match utf8_result (SLOT_MODE d =? MODE_STRICT) (fst items) with
     | Some r => Ok (MkStr true r, - zlen c + (zlen (c ++ chars s) - zlen (snd items)))
     | None => Raise EDecodeError
     end)).
  { intros [w J] Hw HJ. simpl in Hw, HJ. subst w. apply (Hloop [] J); [by apply Forall_app| |done].
    intros _. simpl. destruct c as [|a c']; [simpl; pose proof (SKIP_W_range (dg (chars s) 0)); lia|].
    destruct (state_carry d _ a c' Hst eq_refl). simpl app. change (dg (a :: _) 0) with a. lia. }
  destruct (utf8_result _ _) as [r|]; apply (Utf8Decode_passes d s c _ Hst Hlen); intros s0 Hw0 Hl0; specialize (Hl s0 Hw0 Hl0).
  - eapply (sspec_lift_bind _ _ _ (fun p => p = (MkStr true r, - zlen c + (zlen (c ++ chars s) - zlen (snd items))))).
    { eapply spec_mono; [exact Hl|]. by intros ? ->. }
    intros ? ->. cbv beta iota.
    replace (- zlen c + (zlen (c ++ chars s) - zlen (snd items)))
      with (zlen (c ++ chars s) - zlen (snd items) - zlen c) by lia.
    apply sspec_bind_assoc. eapply sspec_bind; [exact Hout|].
    intros u d' (? & ? & _). by apply sreturns_ret.
  - intros t. specialize (Hl t). unfold mbind, SM_bind, lift.
    destruct (utf8_loop _ _ _ _ _ _ _ t) as [[?|?|] t']; simpl in *; destruct Hl as [? [?|[? ?]]]; simplify_eq; auto.
Qed.
