(* ===== verification/EncodingProps.v ===== *)
(** * EncodingProps: the correctness of the Unicode codecs *)

From S2P Require Import Prelude Runtime Digits Value LongInt Encodings EncodingsSpec.

(** ** The UTF-8 encoder *)

(** The bytes of a character, by their arithmetic definition. *)
Definition utf8_unit (ch : Z) : list Z :=
  if ch <? 128 then [ch]
  else if ch <? 2048 then [192 + ch / 64; 128 + ch mod 64]
  else [224 + ch / 4096; 128 + ch / 64 mod 64; 128 + ch mod 64].

Fixpoint utf8_bytes (s : list Z) : list Z :=
  match s with [] => [] | ch :: s => utf8_unit ch ++ utf8_bytes s end.

Lemma utf8_unit_length ch : zlen (utf8_unit ch) = A_UTF8_LEN ch.
Proof.
  unfold utf8_unit, A_UTF8_LEN.
  destruct (Z.ltb_spec ch 128), (Z.leb_spec ch 0x7f); try lia; [done|].
  destruct (Z.ltb_spec ch 2048), (Z.leb_spec ch 0x7ff); try lia; done.
Qed.

(** A low field below the marker bits of a byte. *)
Lemma marker m x n : 0 <= n -> 0 <= x < 2 ^ n -> Z.lor (m * 2 ^ n) x = m * 2 ^ n + x.
Proof. intros Hn Hx. rewrite <- (Z.shiftl_mul_pow2 m n) by done. rewrite fields by done. by rewrite Z.shiftl_mul_pow2. Qed.

Lemma lor_c0 x : 0 <= x < 32 -> Z.lor 0xc0 x = 192 + x.
Proof. exact (marker 6 x 5 ltac:(lia)). Qed.
Lemma lor_e0 x : 0 <= x < 16 -> Z.lor 0xe0 x = 224 + x.
Proof. exact (marker 14 x 4 ltac:(lia)). Qed.
Lemma lor_80 x : 0 <= x < 64 -> Z.lor 0x80 x = 128 + x.
Proof. exact (marker 2 x 6 ltac:(lia)). Qed.

Lemma utf8_unit_bits ch :
  wide_char ch ->
  ((ch <=? 0x7f) = true -> utf8_unit ch = [ch]) /\
  ((ch <=? 0x7f) = false -> (ch <=? 0x7ff) = true ->
    utf8_unit ch = [Z.lor 0xc0 (Z.shiftr ch 6); Z.lor 0x80 (Z.land ch 0x3f)]) /\
  ((ch <=? 0x7ff) = false ->
    utf8_unit ch = [Z.lor 0xe0 (Z.shiftr ch 12); Z.lor 0x80 (Z.land (Z.shiftr ch 6) 0x3f);
      Z.lor 0x80 (Z.land ch 0x3f)]).
Proof.
  unfold wide_char, utf8_unit. intros Hc. change 0x3f with (Z.ones 6). rewrite !low_bits, !shiftr_div by lia.
  repeat split; rewrite ?Z.leb_le, ?Z.leb_gt; intros.
  - by test (ch <? 128) true.
  - test (ch <? 128) false. test (ch <? 2048) true.
    simpl (2 ^ _). by rewrite lor_c0, lor_80 by zsolve.
  - test (ch <? 128) false. test (ch <? 2048) false.
    simpl (2 ^ _). by rewrite lor_e0, !lor_80 by zsolve.
Qed.

Lemma utf8_unit_bytes ch : wide_char ch -> Forall byte (utf8_unit ch).
Proof.
  unfold wide_char, utf8_unit, byte. intros Hc. destruct (Z.ltb_spec ch 128); [|destruct (Z.ltb_spec ch 2048)];
    repeat constructor; zsolve.
Qed.

Lemma utf8_bytes_bytes s : Forall wide_char s -> Forall byte (utf8_bytes s).
Proof. induction 1; simpl; [done|]. apply Forall_app. split; [by apply utf8_unit_bytes|done]. Qed.

Lemma utf8_bytes_bound s : 0 <= zlen (utf8_bytes s) <= 3 * zlen s.
Proof.
  induction s as [|ch s IH]; [simpl; lia|]. simpl utf8_bytes. rewrite length_app, zlen_cons, Nat2Z.inj_add.
  rewrite utf8_unit_length. unfold A_UTF8_LEN. repeat case_match; lia.
Qed.

Lemma utf8_length_spec str l : forall pre acc,
  chars str = pre ++ l -> evals (utf8_length (length l) str (zlen pre) acc) (acc + zlen (utf8_bytes l)).
Proof.
  induction l as [|ch l IH]; intros pre acc Hs.
  - simpl. rewrite Z.add_0_r. apply evals_ret.
  - cbn [length utf8_length]. eapply evals_bind; [apply str_item_dg; rewrite Hs, length_app, length_cons; lia|].
    rewrite Hs, dg_at. simpl utf8_bytes. rewrite length_app, Nat2Z.inj_add, utf8_unit_length.
    specialize (IH (pre ++ [ch]) (acc + A_UTF8_LEN ch)). rewrite length_app, Nat2Z.inj_add in IH.
    rewrite Z.add_assoc. apply IH. by rewrite Hs, <- app_assoc.
Qed.

Lemma set_byte_off T m x J k ch :
  k = zlen T + zlen m -> byte ch ->
  evals (set_str_item (MkStr false (T ++ m ++ x :: J)) k ch) (MkStr false (T ++ m ++ ch :: J)).
Proof.
  intros -> Hb. rewrite !app_assoc. rewrite <- (u8_byte ch Hb) at 2.
  apply (set_str_item_at false). rewrite length_app. lia.
Qed.

Lemma utf8_encode_loop_spec str l : forall pre T J,
  chars str = pre ++ l -> Forall wide_char l -> zlen J = zlen (utf8_bytes l) ->
  evals (utf8_encode_loop (length l) str (zlen pre) (zlen T) (MkStr false (T ++ J)))
    (MkStr false (T ++ utf8_bytes l)).
Proof.
  induction l as [|ch l IH]; intros pre T J Hs Hl HJ.
  { apply nil_length_inv in HJ as -> || (simpl in HJ; replace J with (@nil Z) by (symmetry; apply nil_length_inv; lia)).
    apply evals_ret. }
  apply Forall_cons_1 in Hl as [Hc Hl]. cbn [length utf8_encode_loop].
  eapply evals_bind; [apply str_item_dg; rewrite Hs, length_app, length_cons; lia|]. rewrite Hs, dg_at.
  destruct (utf8_unit_bits ch Hc) as (U1 & U2 & U3). pose proof (utf8_unit_bytes ch Hc) as Hb.
  simpl utf8_bytes in *. rewrite length_app, Nat2Z.inj_add in HJ.
  assert (Hrec : forall J', zlen J' = zlen (utf8_bytes l) ->
    evals (utf8_encode_loop (length l) str (zlen pre + 1) (zlen T + zlen (utf8_unit ch))
      (MkStr false (T ++ utf8_unit ch ++ J'))) (MkStr false (T ++ utf8_unit ch ++ utf8_bytes l))).
  { intros J' HJ'. specialize (IH (pre ++ [ch]) (T ++ utf8_unit ch) J').
    rewrite !length_app, !Nat2Z.inj_add, <- !app_assoc in IH. by apply IH. }
  destruct (ch <=? 0x7f) eqn:E1; [|destruct (ch <=? 0x7ff) eqn:E2].
  - rewrite U1 in * by done. destruct J as [|x J]; [simpl in HJ; lia|]. rewrite zlen_cons in HJ. simpl in Hb.
    eapply evals_bind; [apply (set_byte_off T [] x J); [simpl; lia|by apply Forall_cons_1 in Hb as [? _]]|].
    apply Hrec. simpl in HJ. lia.
  - rewrite U2 in * by done. destruct J as [|x [|y J]]; [simpl in HJ; lia..|]. rewrite !zlen_cons in HJ.
    apply Forall_cons_1 in Hb as [Hb1 Hb]. apply Forall_cons_1 in Hb as [Hb2 _].
    eapply evals_bind; [apply (set_byte_off T [] x (y :: J)); [simpl; lia|done]|].
    eapply evals_bind; [apply (set_byte_off T [_] y J); [simpl; lia|done]|].
    apply Hrec. simpl in HJ. lia.
  - rewrite U3 in * by done. destruct J as [|x [|y [|z J]]]; [simpl in HJ; lia..|]. rewrite !zlen_cons in HJ.
    apply Forall_cons_1 in Hb as [Hb1 Hb]. apply Forall_cons_1 in Hb as [Hb2 Hb]. apply Forall_cons_1 in Hb as [Hb3 _].
    eapply evals_bind; [apply (set_byte_off T [] x (y :: z :: J)); [simpl; lia|done]|].
    eapply evals_bind; [apply (set_byte_off T [_] y (z :: J)); [simpl; lia|done]|].
    eapply evals_bind; [apply (set_byte_off T [_; _] z J); [simpl; lia|done]|].
    apply Hrec. simpl in HJ. lia.
Qed.

Lemma Utf8Encode_spec s :
  Forall wide_char (chars s) -> 3 * zlen (chars s) < 2 ^ 31 ->
  returns (Utf8Encode (Some s)) (fun v => v = MkStr false (utf8_bytes (chars s))).
Proof.
  intros Hs Hl. unfold Utf8Encode. eapply (returns_bind _ _ (fun x => x = s)); [by apply returns_ret|]. intros ? ->.
  rewrite str_len_small by lia. cbv zeta. rewrite Nat2Z.id. pose proof (utf8_bytes_bound (chars s)).
  eapply returns_bind_evals; [by apply (utf8_length_spec s _ [])|]. rewrite Z.add_0_l, s32_small by lia.
  eapply returns_bind; [apply empty_str_spec; lia|]. intros [w J] [Hw HJ]. simpl in Hw, HJ. subst w.
  eapply evals_returns; [by apply (utf8_encode_loop_spec s _ [] [] J)|]. done.
Qed.

(** ** Encoded texts are read back *)

Lemma utf8_next_cons a l :
  utf8_next (a :: l) =
    if A_UTF8_SKIP_W a <=? zlen (a :: l)
    then Some (utf8_value (take (Z.to_nat (A_UTF8_SKIP_W a)) (a :: l)), drop (Z.to_nat (A_UTF8_SKIP_W a)) (a :: l))
    else None.
Proof. done. Qed.

Lemma skip_lead a w :
  (w = 1 /\ a < 0xc2) \/ (w = 2 /\ 0xc2 <= a < 0xe0) \/ (w = 3 /\ 0xe0 <= a <= 0xff) ->
  A_UTF8_SKIP_W a = w.
Proof. unfold A_UTF8_SKIP_W. intros. repeat case_match; rewrite ?Z.ltb_lt, ?Z.ltb_ge, ?Z.leb_le, ?Z.leb_gt in *; lia. Qed.

Lemma cont_true b : 128 <= b <= 191 -> cont b = true.
Proof. intros. unfold cont. by test (128 <=? b) true; test (b <=? 191) true. Qed.

Lemma utf8_next_unit ch r : wide_char ch -> utf8_next (utf8_unit ch ++ r) = Some (Some ch, r).
Proof.
  unfold wide_char. intros Hc. unfold utf8_unit.
  destruct (Z.ltb_spec ch 128); [|destruct (Z.ltb_spec ch 2048)]; simpl app; rewrite utf8_next_cons, !length_cons.
  - rewrite (skip_lead ch 1) by lia. test (_ <=? _) true. simpl. by test (ch <? 128) true.
  - rewrite (skip_lead _ 2) by (right; left; zsolve). test (_ <=? _) true. simpl.
    rewrite cont_true by zsolve. do 3 f_equal. zsolve.
  - rewrite (skip_lead _ 3) by (right; right; zsolve). test (_ <=? _) true. simpl.
    rewrite !cont_true by zsolve. simpl.
    replace ((160 <=? 128 + ch / 64 mod 64) || negb (224 + ch / 4096 =? 224)) with true.
    + do 3 f_equal. zsolve.
    + symmetry. apply orb_true_iff. rewrite negb_true_iff, Z.leb_le, Z.eqb_neq. zsolve.
Qed.

Lemma utf8_parse_bytes s : Forall wide_char s -> utf8_parse (utf8_bytes s) = (Some <$> s, []).
Proof.
  induction 1 as [|ch s Hc Hs IH]; [done|]. simpl utf8_bytes.
  by rewrite utf8_parse_eq, utf8_next_unit, IH.
Qed.

Lemma utf8_result_chars strict s : utf8_result strict (Some <$> s) = Some s.
Proof. apply mapM_Some_2, Forall2_fmap_l, Forall_Forall2_diag, Forall_true. done. Qed.

Lemma utf8_result_strict items cs : utf8_result true items = Some cs -> items = Some <$> cs.
Proof.
  intros E. apply mapM_Some_1 in E. induction E as [|o c items cs Ho E IH]; [done|].
  destruct o as [z|]; [|done]. injection Ho as ->. by rewrite IH.
Qed.

(** Below the lead byte F0, a unit is the encoding of its character. *)
Lemma utf8_unit_unique l v l' :
  Forall (fun b => 0 <= b < 0xf0) l -> utf8_next l = Some (Some v, l') ->
  wide_char v /\ l = utf8_unit v ++ l'.
Proof.
  intros Hl. destruct l as [|a l]; [done|]. apply Forall_cons_1 in Hl as [Ha Hl].
  rewrite utf8_next_cons. unfold wide_char, utf8_unit.
  destruct (Z.ltb_spec a 0xc2) as [H1|H1]; [|destruct (Z.ltb_spec a 0xe0) as [H2|H2]].
  - rewrite (skip_lead a 1) by lia. destruct (_ <=? _); [|done]. simpl.
    destruct (Z.ltb_spec a 128); [|done]. intros [= <- <-]. test (a <? 128) true. split; [lia|done].
  - rewrite (skip_lead a 2) by lia. destruct l as [|b l]; [done|]. destruct (_ <=? _); [|done]. simpl.
    unfold cont. destruct (Z.leb_spec 128 b), (Z.leb_spec b 191); simpl; try done. intros [= <- <-].
    test (_ <? 128) false. test (_ <? 2048) true. split; [lia|]. simpl. repeat f_equal; zsolve.
  - rewrite (skip_lead a 3) by lia. destruct l as [|b [|e l]]; [done..|]. destruct (_ <=? _); [|done]. simpl.
    unfold cont. destruct (Z.leb_spec 128 b), (Z.leb_spec b 191); simpl; try done.
    destruct (Z.leb_spec 128 e), (Z.leb_spec e 191); simpl; try done.
    destruct (Z.leb_spec 160 b), (Z.eqb_spec a 224); simpl; try done; intros [= <- <-];
      (replace (a mod 16) with (a - 224) by zsolve; test (_ <? 128) false; test (_ <? 2048) false;
       split; [lia|]; simpl; repeat f_equal; zsolve).
Qed.

Lemma utf8_parse_unique bs cs :
  Forall (fun b => 0 <= b < 0xf0) bs -> utf8_parse bs = (Some <$> cs, []) ->
  Forall wide_char cs /\ bs = utf8_bytes cs.
Proof.
  revert cs. induction bs as [l E|l o l' E IH] using utf8_ind; intros cs Hl Hp.
  - rewrite (utf8_items_none l E) in Hp. destruct cs; [|done]. by simplify_eq.
  - rewrite utf8_parse_eq, E in Hp. destruct cs as [|v cs]; [done|]. injection Hp as -> H1 H2.
    destruct (utf8_unit_unique l v l' Hl E) as [Hv ->]. apply Forall_app in Hl as [_ Hl].
    destruct (IH cs Hl) as [Hcs ->].
    { rewrite (surjective_pairing (utf8_parse l')). by rewrite H1, H2. }
    split; [by constructor|done].
Qed.

(** ** Texts decoded in chunks *)

Fixpoint decode_chunks (decode : option Str -> SM Codec Str) (chunks : list Str) : SM Codec (list Z) :=
  match chunks with
  | [] => mret []
  | s :: chunks =>
    v ← decode (Some s); r ← decode_chunks decode chunks; mret (chars v ++ r)
  end.

(** The chunks are narrow strings, or wide strings of byte values. *)
Definition chunk_ok (s : Str) : Prop := Forall byte (chars s) /\ zlen (chars s) < 2 ^ 31 - 8.

Definition chunk_text (chunks : list Str) : list Z := concat (chars <$> chunks).

Lemma u8_bytes l : Forall byte l -> u8 <$> l = l.
Proof. induction 1; simpl; [done|]. f_equal; [by apply u8_byte|done]. Qed.

Lemma utf8_rest_bytes l : Forall byte l -> Forall byte (snd (utf8_parse l)).
Proof. intros Hl. destruct (utf8_rest_suffix l) as [p Hp]. rewrite Hp in Hl. by apply Forall_app in Hl as [_ ?]. Qed.

(** Decoding in chunks is decoding the whole text, up to the first error. *)
Lemma utf8_chunks_spec chunks : forall d c,
  utf8_state d c -> Forall chunk_ok chunks ->
  let items := utf8_parse (c ++ chunk_text chunks) in
  match utf8_result (SLOT_MODE d =? MODE_STRICT) (fst items) with
  | Some r => sreturns (decode_chunks Utf8Decode chunks) d (fun v d' =>
      v = r /\ utf8_state d' (snd items) /\ SLOT_MODE d' = SLOT_MODE d)
  | None => sspec (decode_chunks Utf8Decode chunks) d (fun r _ => r = Raise EDecodeError)
  end.
Proof.
  induction chunks as [|s chunks IH]; intros d c Hst Hok.
  { pose proof Hst as (_ & _ & _ & Hn). unfold chunk_text. simpl. rewrite app_nil_r, (utf8_items_none c Hn).
    by apply sreturns_ret. }
  apply Forall_cons_1 in Hok as [[Hs Hlen] Hok].
  pose proof (Utf8Decode_spec d s c Hst (byte_wide _ Hs) Hlen) as Hd. cbv zeta in Hd |- *.
  change (chunk_text (s :: chunks)) with (chars s ++ chunk_text chunks).
  rewrite app_assoc, utf8_parse_app. simpl fst. rewrite utf8_result_app.
  set (p := utf8_parse (c ++ chars s)) in *.
  assert (Hr : u8 <$> snd p = snd p).
  { apply u8_bytes, utf8_rest_bytes, Forall_app. split; [apply Hst|done]. }
  destruct (utf8_result (SLOT_MODE d =? MODE_STRICT) (fst p)) as [r1|]; simpl.
  - rewrite Hr in Hd.
    destruct (utf8_result _ (fst (utf8_parse (snd p ++ chunk_text chunks)))) as [r2|] eqn:E2; simpl;
      (eapply sspec_bind; [exact Hd|]; intros v d1 (-> & Hst1 & Hm); specialize (IH d1 (snd p) Hst1 Hok);
       cbv zeta in IH; rewrite Hm, E2 in IH).
    + eapply sspec_bind; [exact IH|]. intros v d2 (-> & Hst2 & Hm2). apply sreturns_ret.
      split; [done|]. split; [done|]. congruence.
    + by apply sspec_bind_raise.
  - apply sspec_bind_raise. eapply sspec_mono; [exact Hd|]. by intros ? ? [-> _].
Qed.

(** ** New codecs and their unprocessed bytes *)

Lemma new_codec_spec : returns new_codec (fun d => zlen (ENC_BUF d) = 8).
Proof.
  eapply returns_bind; [apply AAlloc_spec|]. intros junk _. by apply returns_ret.
Qed.

Lemma InitializeCodec_spec d mode num :
  mode <> OtherMode -> zlen (ENC_BUF d) = 8 ->
  returns (InitializeCodec d mode num) (fun d' =>
    (exists junk, ENC_BUF d' = 0 :: junk) /\ zlen (ENC_BUF d') = 8 /\
    SLOT_MODE d' = (match mode with Unstrict => MODE_UNSTRICT | _ => MODE_STRICT end) /\
    SLOT_ENCODING d' = if num =? -1 then SLOT_ENCODING d else num).
Proof.
  intros Hm H8. unfold InitializeCodec. destruct (ENC_BUF d) as [|x junk] eqn:Hb; [done|].
  eapply (returns_bind _ _ (fun d1 => ENC_BUF d1 = x :: junk /\ SLOT_ENCODING d1 = SLOT_ENCODING d /\
    SLOT_MODE d1 = (match mode with Unstrict => MODE_UNSTRICT | _ => MODE_STRICT end))).
  { destruct mode; try done; (eapply returns_bind; [apply barrier_spec|]; intros _ _; by apply returns_ret). }
  intros d1 (Hb1 & He1 & Hm1).
  eapply (returns_bind _ _ (fun d2 => ENC_BUF d2 = x :: junk /\
    SLOT_ENCODING d2 = (if num =? -1 then SLOT_ENCODING d else num) /\ SLOT_MODE d2 = SLOT_MODE d1)).
  { destruct (num =? -1); simpl; [by apply returns_ret|].
    eapply returns_bind; [apply barrier_spec|]. intros _ _. by apply returns_ret. }
  intros d2 (Hb2 & He2 & Hm2). apply returns_ret. simpl. rewrite Hb2.
  repeat split; [by exists junk|exact H8|congruence|done].
Qed.

Lemma new_utf8_codec mode :
  mode <> OtherMode ->
  returns (Utf8EncodingFactoryMethod mode) (fun d => utf8_state d [] /\
    SLOT_MODE d = match mode with Unstrict => MODE_UNSTRICT | _ => MODE_STRICT end).
Proof.
  intros Hm. eapply returns_bind; [apply new_codec_spec|]. intros d H8.
  eapply returns_mono; [by apply InitializeCodec_spec|]. intros d' ((junk & Hb) & H8' & Hmode & _).
  split; [|done]. repeat split; [by exists junk|done..].
Qed.

Lemma unprocessed_loop_spec d (c junk : list Z) m : forall (T J : list Z),
  ENC_BUF d = zlen c :: c ++ junk -> Forall byte m -> c = T ++ m -> length J = length m ->
  evals (unprocessed_loop (length m) (zlen T) d (MkStr false (T ++ J))) (MkStr false c).
Proof.
  induction m as [|x m IH]; intros T J Hb Hm -> HJ.
  - apply nil_length_inv in HJ as ->. rewrite !app_nil_r. apply evals_ret.
  - destruct J as [|y J]; [done|]. apply Forall_cons_1 in Hm as [Hx Hm]. cbn [length unprocessed_loop].
    assert (Hcell : evals (buf_item d (zlen T + 1)) x).
    { unfold buf_item. rewrite Hb, zlen_cons, !length_app, length_cons, in_bounds by lia.
      change (?z :: ?l) with ([z] ++ l) at 1. rewrite dg_app by (simpl; lia). simpl length.
      rewrite <- app_assoc. replace (zlen T + 1 - Z.of_nat 1) with (zlen T) by lia.
      change ((x :: m) ++ junk) with (x :: (m ++ junk)). rewrite dg_at. apply evals_ret. }
    eapply evals_bind; [exact Hcell|]. eapply evals_bind; [by apply (set_str_item_at false)|].
    simpl. rewrite (u8_byte x Hx).
    specialize (IH (T ++ [x]) J). rewrite <- !app_assoc in IH. simpl app in IH.
    replace (zlen T + 1) with (zlen (T ++ [x])) by (rewrite length_app; simpl; lia).
    simpl in HJ. apply IH; first [done|lia|by rewrite Hb, <- app_assoc].
Qed.

Lemma EncodingUnprocessed_spec d c :
  (exists junk, ENC_BUF d = zlen c :: c ++ junk) -> Forall byte c ->
  returns (EncodingUnprocessed d) (fun v => v = MkStr false c).
Proof.
  intros [junk Hb] Hc. unfold EncodingUnprocessed.
  eapply (returns_bind _ _ (fun n => n = zlen c)).
  { unfold buf_item. rewrite Hb, zlen_cons, length_app, in_bounds by lia. by apply returns_ret. }
  intros ? ->. eapply returns_bind; [apply empty_str_spec; lia|]. intros [w J] [Hw HJ]. simpl in Hw, HJ. subst w.
  rewrite Nat2Z.id. eapply evals_returns; [by apply (unprocessed_loop_spec d c junk c [] J); [..|lia]|]. done.
Qed.

(** A new decoder that is given a text in chunks: the characters it decodes
    and the bytes it reports as unprocessed at the end. *)
Definition session (new : M Codec) (decode : option Str -> SM Codec Str) (chunks : list Str)
    : M (list Z * list Z) :=
  d ← new;
  observe d (v ← decode_chunks decode chunks; d ← get; u ← lift (EncodingUnprocessed d); mret (v, chars u)).

Lemma observe_spec {S A} (s : S) (c : SM S A) (Q : outcome A -> Prop) :
  sspec c s (fun r _ => Q r) -> spec (observe s c) Q.
Proof. intros Hc t. specialize (Hc t). unfold observe. by destruct (c s t) as [[r s'] t']. Qed.

Definition codec_mode (mode : strictness) : Z := match mode with Unstrict => MODE_UNSTRICT | _ => MODE_STRICT end.

Lemma utf8_session_spec mode chunks :
  mode <> OtherMode -> Forall chunk_ok chunks ->
  let items := utf8_parse (chunk_text chunks) in
  spec (session (Utf8EncodingFactoryMethod mode) Utf8Decode chunks) (fun r =>
    r = match utf8_result (codec_mode mode =? MODE_STRICT) (fst items) with
        | Some v => Ok (v, snd items)
        | None => Raise EDecodeError
        end).
Proof.
  intros Hm Hok items. eapply spec_bind; [by apply new_utf8_codec|]. intros d [Hst Hmode]. apply observe_spec.
  pose proof (utf8_chunks_spec chunks d [] Hst Hok) as H. simpl app in H. cbv zeta in H. fold items in H.
  rewrite Hmode in H. fold (codec_mode mode) in H. destruct (utf8_result _ _) as [v|].
  - eapply sspec_bind; [exact H|]. intros ? d' (-> & (Hb & _ & Hc & _) & _). apply sspec_get_bind.
    eapply sspec_lift_bind; [by apply (EncodingUnprocessed_spec d' (snd items))|]. intros u ->. by apply sspec_ret.
  - by apply sspec_bind_raise.
Qed.

(** On texts without the bytes F0..FF, a strict decoder accepts exactly the
    encodings of texts. *)
Lemma utf8_strict_spec chunks
  (Hok : Forall chunk_ok chunks) (Hlead : Forall (fun b => 0 <= b < 0xf0) (chunk_text chunks)) :
  spec (session (Utf8EncodingFactoryMethod Strict) Utf8Decode chunks) (fun r =>
    match r with
    | Ok (cs, []) => Forall wide_char cs /\ utf8_bytes cs = chunk_text chunks
    | Ok (_, _ :: _) | Raise EDecodeError =>
      forall cs, Forall wide_char cs -> utf8_bytes cs <> chunk_text chunks
    | _ => False
    end).
Proof.
  eapply spec_mono; [by apply utf8_session_spec|]. cbv zeta. simpl (codec_mode Strict =? MODE_STRICT).
  assert (Hno : utf8_result true (fst (utf8_parse (chunk_text chunks))) = None \/
                snd (utf8_parse (chunk_text chunks)) <> [] ->
    forall cs, Forall wide_char cs -> utf8_bytes cs <> chunk_text chunks).
  { intros Hbad cs Hcs E. rewrite <- E, utf8_parse_bytes in Hbad by done. simpl in Hbad.
    rewrite utf8_result_chars in Hbad. by destruct Hbad. }
  intros r ->. destruct (utf8_result true _) as [cs|] eqn:Er; [|by apply Hno; left].
  destruct (snd (utf8_parse (chunk_text chunks))) as [|u us] eqn:Es; [|apply Hno; by right].
  destruct (utf8_parse_unique (chunk_text chunks) cs Hlead); [|done].
  rewrite (surjective_pairing (utf8_parse _)), Es. by rewrite (utf8_result_strict _ _ Er).
Qed.

(** C21: [Utf8Decode] reads the units of the UTF-8 grammar from the bytes it
    carries followed by its argument: it returns their characters as a wide
    string (with U+FFFD for each invalid unit) and carries the incomplete unit
    at the end; in the strict mode an invalid unit raises [DecodeError] and
    leaves the decoder as it was.  An argument that is not a string raises
    [TypeError].  A new strict decoder fed with chunks without the bytes F0..FF
    accepts exactly the encodings of texts: it returns a text and leaves
    nothing unprocessed only if the bytes are the encoding of that text, and
    otherwise no text has this encoding. *)
Theorem Utf8Decode_correct d s c chunks
  (Hst : utf8_state d c) (Hwide : Forall wide_char (chars s)) (Hlen : zlen (chars s) < 2 ^ 31 - 8)
  (Hok : Forall chunk_ok chunks) (Hlead : Forall (fun b => 0 <= b < 0xf0) (chunk_text chunks)) :
  match utf8_result (SLOT_MODE d =? MODE_STRICT) (fst (utf8_parse (c ++ chars s))) with
  | Some r => sreturns (Utf8Decode (Some s)) d (fun v d' =>
      v = MkStr true r /\ utf8_state d' (u8 <$> snd (utf8_parse (c ++ chars s))) /\ SLOT_MODE d' = SLOT_MODE d)
  | None => sraises (Utf8Decode (Some s)) d EDecodeError
  end /\ sraises (Utf8Decode None) d ETypeError /\
  spec (session (Utf8EncodingFactoryMethod Strict) Utf8Decode chunks) (fun r =>
    match r with
    | Ok (cs, []) => Forall wide_char cs /\ utf8_bytes cs = chunk_text chunks
    | Ok (_, _ :: _) | Raise EDecodeError =>
      forall cs, Forall wide_char cs -> utf8_bytes cs <> chunk_text chunks
    | _ => False
    end).
Proof.
  split; [by apply Utf8Decode_spec|]. split; [|by apply utf8_strict_spec].
  apply (sspec_mono _ _ _ _ (sraises_lift ETypeError d)). done.
Qed.

(** A decoder that carries the first two bytes of U+20AC. *)
Definition euro_decoder : Codec := MkCodec MODE_STRICT 0 [2; 0xe2; 0x82; 0; 0; 0; 0; 0].

Lemma Utf8Decode_correct_witness :
  sreturns (Utf8Decode (Some (MkStr false [0xac; 65; 0xc3]))) euro_decoder (fun v d' =>
    v = MkStr true [0x20ac; 65] /\ utf8_state d' [0xc3] /\ SLOT_MODE d' = MODE_STRICT) /\
  sraises (Utf8Decode None) euro_decoder ETypeError /\
  spec (session (Utf8EncodingFactoryMethod Strict) Utf8Decode [MkStr false [0xe0; 0x9f; 0xbf]]) (fun r =>
    match r with
    | Ok (cs, []) => Forall wide_char cs /\ utf8_bytes cs = chunk_text [MkStr false [0xe0; 0x9f; 0xbf]]
    | Ok (_, _ :: _) | Raise EDecodeError =>
      forall cs, Forall wide_char cs -> utf8_bytes cs <> chunk_text [MkStr false [0xe0; 0x9f; 0xbf]]
    | _ => False
    end).
Proof.
  refine (Utf8Decode_correct euro_decoder (MkStr false [0xac; 65; 0xc3]) [0xe2; 0x82] [MkStr false [0xe0; 0x9f; 0xbf]] _ _ _ _ _).
  - split; [by exists [0; 0; 0; 0; 0]|]. split; [done|]. split; [|done]. repeat constructor; unfold byte; lia.
  - repeat constructor; unfold wide_char; lia.
  - simpl. lia.
  - repeat constructor; unfold byte; simpl; lia.
  - repeat constructor; unfold byte; simpl; lia.
Defined.

(** C3: a text encoded by [Utf8Encode], cut into chunks in any way, also in
    the middle of a character, and given to a new decoder, strict or not, is
    decoded to the original text and leaves nothing unprocessed. *)
Theorem utf8_stream_roundtrip s mode chunks
  (Hwide : Forall wide_char (chars s)) (Hlen : 3 * zlen (chars s) < 2 ^ 31)
  (Hmode : mode <> OtherMode) (Hok : Forall chunk_ok chunks) :
  returns (Utf8Encode (Some s)) (fun e =>
    chunk_text chunks = chars e ->
    returns (session (Utf8EncodingFactoryMethod mode) Utf8Decode chunks) (fun r => r = (chars s, []))).
Proof.
  eapply returns_mono; [by apply Utf8Encode_spec|]. intros e -> He. simpl in He.
  pose proof (utf8_session_spec mode chunks Hmode Hok) as H. cbv zeta in H.
  rewrite He, utf8_parse_bytes in H by done. simpl fst in H. rewrite utf8_result_chars in H.
  eapply spec_mono; [exact H|]. by intros ? ->.
Qed.

Lemma utf8_stream_roundtrip_witness :
  returns (Utf8Encode (Some (MkStr true [65; 0x20ac; 0xe9]))) (fun e =>
    chunk_text [MkStr false [65; 0xe2]; MkStr false [0x82]; MkStr false [0xac; 0xc3]; MkStr false [0xa9]] = chars e ->
    returns (session (Utf8EncodingFactoryMethod Strict) Utf8Decode
      [MkStr false [65; 0xe2]; MkStr false [0x82]; MkStr false [0xac; 0xc3]; MkStr false [0xa9]])
      (fun r => r = ([65; 0x20ac; 0xe9], []))) /\
  run (Utf8Encode (Some (MkStr true [65; 0x20ac; 0xe9]))) =
    Ok (MkStr false (chunk_text [MkStr false [65; 0xe2]; MkStr false [0x82]; MkStr false [0xac; 0xc3]; MkStr false [0xa9]])).
Proof.
  split; [|vm_compute; reflexivity].
  apply (utf8_stream_roundtrip (MkStr true [65; 0x20ac; 0xe9]) Strict).
  - repeat constructor; unfold wide_char; lia.
  - simpl. lia.
  - discriminate.
  - repeat constructor; unfold byte; simpl; lia.
Defined.

(** A lead byte F0..FF is read like E0..EF: the four-byte sequence of U+1F600
    starts with an accepted unit, and the sequence F0 80 80 is decoded to
    U+0000 in the strict mode. *)
Lemma utf8_F_lead :
  run (session (Utf8EncodingFactoryMethod Strict) Utf8Decode [MkStr false [0xf0; 0x80; 0x80]]) = Ok ([0], []).
Proof. vm_compute. reflexivity. Qed.

(** ** UTF-16 *)

Definition utf16_value (be : bool) (a b : Z) : Z := if be then a * 256 + b else a + b * 256.

Definition utf16_unit (be : bool) (ch : Z) : list Z :=
  if be then [ch / 256; ch mod 256] else [ch mod 256; ch / 256].

(** The characters of a byte sequence, and the odd byte at its end. *)
Fixpoint utf16_pairs (be : bool) (l : list Z) : list Z * list Z :=
  match l with
  | a :: b :: l' => (utf16_value be a b :: fst (utf16_pairs be l'), snd (utf16_pairs be l'))
  | _ => ([], l)
  end.

Fixpoint utf16_bytes (be : bool) (s : list Z) : list Z :=
  match s with [] => [] | ch :: s => utf16_unit be ch ++ utf16_bytes be s end.

Lemma pair_ind (P : list Z -> Prop) :
  P [] -> (forall a, P [a]) -> (forall a b l, P l -> P (a :: b :: l)) -> forall l, P l.
Proof.
  intros H0 H1 H2. cut (forall l, P l /\ forall a, P (a :: l)); [intros H l; apply H|].
  induction l as [|b l [IH1 IH2]]; [done|]. split; [apply IH2|]. intros a. by apply H2.
Qed.

Lemma utf16_pairs_app be a b :
  utf16_pairs be (a ++ b) =
    (fst (utf16_pairs be a) ++ fst (utf16_pairs be (snd (utf16_pairs be a) ++ b)),
     snd (utf16_pairs be (snd (utf16_pairs be a) ++ b))).
Proof.
  induction a as [|x|x y a IH] using pair_ind.
  - simpl. by destruct (utf16_pairs be b).
  - cbn [utf16_pairs fst snd]. by destruct (utf16_pairs be ([x] ++ b)).
  - simpl. by rewrite IH.
Qed.

Lemma utf16_pairs_bytes be s : utf16_pairs be (utf16_bytes be s) = (s, []).
Proof.
  induction s as [|ch s IH]; [done|]. simpl. unfold utf16_unit, utf16_value in *.
  destruct be; simpl; rewrite IH; simpl; do 2 f_equal; zsolve.
Qed.

Lemma utf16_pairs_count be l :
  zlen l = 2 * zlen (fst (utf16_pairs be l)) + zlen (snd (utf16_pairs be l)) /\ zlen (snd (utf16_pairs be l)) <= 1.
Proof. induction l as [|x|x y l [IH1 IH2]] using pair_ind; simpl in *; lia. Qed.

Lemma utf16_pairs_rest be l : exists p, l = p ++ snd (utf16_pairs be l) /\ zlen p = 2 * zlen (fst (utf16_pairs be l)).
Proof.
  induction l as [|x|x y l [p [IH1 IH2]]] using pair_ind; [by exists []..|].
  exists (x :: y :: p). simpl. rewrite <- IH1. split; [done|]. lia.
Qed.

Lemma join_bytes_value be a b : byte a -> byte b ->
  join_bytes be a b = utf16_value be a b /\ wide_char (utf16_value be a b).
Proof.
  unfold byte, join_bytes, utf16_value, wide_char. intros Ha Hb. destruct be.
  - rewrite fields by (simpl; lia). simpl (2 ^ _). lia.
  - rewrite Z.lor_comm, fields by (simpl; lia). simpl (2 ^ _). lia.
Qed.

Definition utf16_state (d : Codec) (c : list Z) : Prop :=
  (exists junk, ENC_BUF d = zlen c :: c ++ junk) /\ zlen (ENC_BUF d) = 8 /\ Forall byte c /\ zlen c <= 1.

Lemma set_wide_at T x J i ch :
  i = zlen T -> wide_char ch ->
  evals (set_str_item (MkStr true (T ++ x :: J)) i ch) (MkStr true (T ++ ch :: J)).
Proof.
  intros Hi Hc. rewrite <- (Z.mod_small ch 65536) at 2 by apply Hc. by apply (set_str_item_at true).
Qed.

Lemma utf16_loop_spec be str l : forall pre T J,
  chars str = pre ++ l -> Forall byte l -> length J = length (fst (utf16_pairs be l)) ->
  evals (utf16_loop (length (fst (utf16_pairs be l))) be str (zlen T) (zlen pre) (MkStr true (T ++ J)))
    (MkStr true (T ++ fst (utf16_pairs be l)), zlen pre + 2 * zlen (fst (utf16_pairs be l))).
Proof.
  induction l as [|x|x y l IH] using pair_ind; intros pre T J Hs Hl HJ.
  - apply nil_length_inv in HJ as ->. rewrite Z.add_0_r. apply evals_ret.
  - apply nil_length_inv in HJ as ->. rewrite Z.add_0_r. apply evals_ret.
  - apply Forall_cons_1 in Hl as [Hx Hl]. apply Forall_cons_1 in Hl as [Hy Hl].
    destruct J as [|j0 J]; [done|]. cbn [utf16_pairs fst length utf16_loop] in *.
    eapply evals_bind; [apply str_item_dg; rewrite Hs, length_app, !length_cons; lia|]. rewrite Hs, dg_at.
    eapply evals_bind; [apply str_item_dg; rewrite Hs, length_app, !length_cons; lia|].
    replace (zlen pre + 1) with (zlen (pre ++ [x])) by (rewrite length_app; simpl; lia).
    rewrite Hs. rewrite (app_assoc pre [x] (y :: l)) at 1. rewrite dg_at.
    destruct (join_bytes_value be x y Hx Hy) as [-> Hv].
    eapply evals_bind; [by apply set_wide_at|].
    specialize (IH (pre ++ [x; y]) (T ++ [utf16_value be x y]) J). rewrite <- !app_assoc in IH.
    replace (zlen T + 1) with (zlen (T ++ [utf16_value be x y])) by (rewrite length_app; simpl; lia).
    replace (zlen pre + 2) with (zlen (pre ++ [x; y])) by (rewrite length_app; simpl; lia).
    replace (zlen pre + 2 * Z.of_nat (S (length (fst (utf16_pairs be l))))) with (zlen (pre ++ [x; y]) + 2 * zlen (fst (utf16_pairs be l)))
      by (rewrite length_app; simpl; lia).
    apply IH; [by rewrite Hs|done|]. simpl in HJ. lia.
Qed.

(** The odd byte at the end of the argument is carried. *)
Lemma utf16_carry_out d (s v : Str) pre rest :
  zlen (ENC_BUF d) = 8 -> chars s = pre ++ rest -> zlen rest <= 1 -> Forall byte rest ->
  sreturns (set_buf 0 (if zlen pre =? zlen (chars s) - 1 then 1 else 0) ≫= (fun _ =>
      (if zlen pre =? zlen (chars s) - 1 then c ← lift (str_item s (zlen pre)); set_buf 1 c else mret tt) ≫= (fun _ =>
      mret v)))
    d (fun v' d' => v' = v /\ utf16_state d' rest /\ SLOT_MODE d' = SLOT_MODE d).
Proof.
  intros H8 Hs Hr Hb. destruct (ENC_BUF d) as [|n [|x junk]] eqn:Hbuf; [done..|].
  assert (Hl : zlen (chars s) = zlen pre + zlen rest) by (rewrite Hs, length_app; lia).
  eapply sreturns_bind; [by apply (set_buf_spec d [] n (x :: junk))|]. intros u d1 ->. simpl app.
  destruct rest as [|r [|? ?]]; [| |simpl in Hr; lia].
  - destruct (Z.eqb_spec (zlen pre) (zlen (chars s) - 1)); [simpl in Hl; lia|].
    apply (sreturns_ret v).
    repeat split; [by exists (x :: junk)|done..].
  - destruct (Z.eqb_spec (zlen pre) (zlen (chars s) - 1)); [|simpl in Hl; lia].
    apply Forall_cons_1 in Hb as [Hrb _].
    eapply sreturns_bind.
    { eapply (sreturns_lift_bind _ _ _ (fun c => c = r)).
      - eapply evals_returns; [apply str_item_dg; simpl in Hl; lia|]. rewrite Hs. apply dg_at.
      - intros ? ->. by apply (set_buf_spec _ [u8 1] x junk). }
    intros ? d2 ->. apply sreturns_ret. rewrite (u8_byte r) by done.
    split; [done|]. split; [|done]. split; [by exists junk|]. split; [exact H8|]. split; [by apply list.Forall_singleton|simpl; lia].
Qed.

Lemma Utf16Decode_spec be d s c :
  utf16_state d c -> chunk_ok s -> c = [] \/ chars s <> [] ->
  sreturns (Utf16Decode (Some s) be) d (fun v d' =>
    v = MkStr true (fst (utf16_pairs be (c ++ chars s))) /\ utf16_state d' (snd (utf16_pairs be (c ++ chars s))) /\
    SLOT_MODE d' = SLOT_MODE d).
Proof.
  intros ((junk & Hbuf) & H8 & Hc & Hc1) [Hs Hlen] Hne. unfold Utf16Decode.
  eapply (sreturns_lift_bind _ _ _ (fun x => x = s)); [by apply returns_ret|]. intros ? ->. apply sspec_get_bind.
  eapply (sreturns_lift_bind _ _ _ (fun x => x = zlen c)).
  { unfold buf_item. rewrite in_bounds, Hbuf by lia. by apply returns_ret. }
  intros ? ->. rewrite str_len_small by lia. cbv zeta.
  pose proof (utf16_pairs_count be (c ++ chars s)) as [Hk Hr].
  set (k := zlen (fst (utf16_pairs be (c ++ chars s)))) in *.
  replace (Z.shiftr (zlen (chars s) + zlen c) 1) with k
    by (rewrite shiftr_div by lia; simpl (2 ^ _); rewrite length_app in Hk; zsolve).
  eapply sreturns_lift_bind; [apply empty_str_spec; lia|]. intros [w J] [Hw HJ]. simpl in Hw, HJ. subst w.
  destruct c as [|x [|? ?]]; [| |simpl in Hc1; lia].
  - eapply (sreturns_lift_bind _ _ _ (fun p => p = (MkStr true J, 0, 0))); [by apply returns_ret|]. intros ? ->.
    cbv beta iota. rewrite Z.sub_0_r. unfold k in *. simpl app in *. rewrite Nat2Z.id.
    eapply (sreturns_lift_bind _ _ _ (fun p => p = (MkStr true (fst (utf16_pairs be (chars s))), 2 * zlen (fst (utf16_pairs be (chars s)))))).
    { eapply evals_returns; [apply (utf16_loop_spec be s (chars s) [] [] J); [done..|lia]|]. done. }
    intros ? ->. cbv beta iota. destruct (utf16_pairs_rest be (chars s)) as (p & Hp & Hlp). rewrite <- Hlp.
    apply (utf16_carry_out d s _ p); [done..|]. rewrite Hp in Hs. by apply Forall_app in Hs as [_ ?].
  - destruct Hne as [?|Hne]; [done|]. destruct (chars s) as [|b l] eqn:Ecs; [done|].
    apply Forall_cons_1 in Hc as [Hx _]. apply Forall_cons_1 in Hs as [Hb Hl].
    destruct (join_bytes_value be x b Hx Hb) as [Hj Hv]. unfold k in HJ |- *. cbn [app utf16_pairs fst snd] in *.
    destruct J as [|j0 J]; [simpl in HJ; lia|]. rewrite !zlen_cons in *.
    eapply (sreturns_lift_bind _ _ _ (fun p => p = (MkStr true (utf16_value be x b :: J), 1, 1))).
    { simpl negb. test (0 <? _) true. simpl andb. cbv iota.
      eapply returns_bind_evals; [unfold buf_item; rewrite in_bounds by lia; rewrite Hbuf; apply evals_ret|].
      eapply returns_bind_evals; [apply str_item_dg; rewrite Ecs, zlen_cons; lia|]. rewrite Ecs.
      change (dg (b :: l) 0) with b. change (dg _ 1) with x. rewrite Hj.
      eapply returns_bind_evals; [by apply (set_wide_at [] j0 J)|]. by apply returns_ret. }
    intros ? ->. cbv beta iota.
    replace (Z.to_nat (1 + zlen (fst (utf16_pairs be l)) - 1)) with (length (fst (utf16_pairs be l))) by lia.
    eapply (sreturns_lift_bind _ _ _ (fun p => p = (MkStr true (utf16_value be x b :: fst (utf16_pairs be l)),
      1 + 2 * zlen (fst (utf16_pairs be l))))).
    { eapply evals_returns; [apply (utf16_loop_spec be s l [b] [utf16_value be x b] J); [done..|lia]|]. done. }
    intros ? ->. cbv beta iota. destruct (utf16_pairs_rest be l) as (p & Hp & Hlp).
    replace (1 + 2 * zlen (fst (utf16_pairs be l))) with (zlen (b :: p)) by (rewrite zlen_cons; lia).
    rewrite <- (zlen_cons b l), <- Ecs. apply (utf16_carry_out d s _ (b :: p)); [done| |lia|].
    + rewrite Ecs. simpl. by f_equal.
    + rewrite Hp in Hl. by apply Forall_app in Hl as [_ ?].
Qed.

(** An empty argument discards the carried byte. *)
Lemma Utf16Decode_empty be d x w :
  utf16_state d [x] ->
  sreturns (Utf16Decode (Some (MkStr w [])) be) d (fun v d' => v = MkStr true [] /\ utf16_state d' []).
Proof.
  intros ((junk & Hbuf) & H8 & Hc & Hc1). unfold Utf16Decode.
  eapply (sreturns_lift_bind _ _ _ (fun y => y = MkStr w [])); [by apply returns_ret|]. intros ? ->. apply sspec_get_bind.
  eapply (sreturns_lift_bind _ _ _ (fun n => n = 1)).
  { unfold buf_item. rewrite in_bounds, Hbuf by lia. by apply returns_ret. }
  intros ? ->. simpl.
  eapply sreturns_lift_bind; [by apply (empty_str_spec true 0)|]. intros [w' J] [Hw HJ]. simpl in Hw, HJ. subst w'.
  destruct J; [|simpl in HJ; lia].
  eapply (sreturns_lift_bind _ _ _ (fun p => p = (MkStr true [], 0, 0))); [by apply returns_ret|]. intros ? ->.
  eapply (sreturns_lift_bind _ _ _ (fun p => p = (MkStr true [], 0))); [by apply returns_ret|]. intros ? ->.
  eapply sreturns_mono; [by apply (utf16_carry_out d (MkStr w []) (MkStr true []) [] [])|]. by intros ? ? (-> & ? & _).
Qed.

Lemma utf16_chunks_spec be chunks : forall d c,
  utf16_state d c -> Forall (fun s => chunk_ok s /\ chars s <> []) chunks ->
  sreturns (decode_chunks (fun v => Utf16Decode v be) chunks) d (fun v d' =>
    v = fst (utf16_pairs be (c ++ chunk_text chunks)) /\ utf16_state d' (snd (utf16_pairs be (c ++ chunk_text chunks)))).
Proof.
  induction chunks as [|s chunks IH]; intros d c Hst Hok.
  { apply sreturns_ret. unfold chunk_text. simpl. rewrite app_nil_r. pose proof Hst as (_ & _ & _ & Hc1).
    destruct c as [|x [|? ?]]; [by split..|simpl in Hc1; lia]. }
  apply Forall_cons_1 in Hok as [[Hs Hne] Hok]. cbn [decode_chunks].
  eapply sreturns_bind; [apply (Utf16Decode_spec be d s c); auto|]. intros v d1 (-> & Hst1 & _).
  eapply sreturns_bind; [by apply (IH d1 _ Hst1)|]. intros r d2 (-> & Hst2). apply sreturns_ret.
  change (chunk_text (s :: chunks)) with (chars s ++ chunk_text chunks).
  rewrite (app_assoc c), (utf16_pairs_app be (c ++ chars s) (chunk_text chunks)). split; [done|exact Hst2].
Qed.

Lemma utf16_unit_length be ch : zlen (utf16_unit be ch) = 2.
Proof. by destruct be. Qed.

Lemma utf16_bytes_length be s : zlen (utf16_bytes be s) = 2 * zlen s.
Proof.
  induction s as [|ch s IH]; [done|]. simpl utf16_bytes. rewrite length_app, Nat2Z.inj_add, zlen_cons.
  rewrite utf16_unit_length. lia.
Qed.

Lemma utf16_encode_loop_spec be str l : forall pre T J,
  chars str = pre ++ l -> Forall wide_char l -> zlen T = zlen pre * 2 -> zlen J = 2 * zlen l ->
  evals (utf16_encode_loop (length l) be str (zlen pre) (MkStr false (T ++ J)))
    (MkStr false (T ++ utf16_bytes be l)).
Proof.
  induction l as [|ch l IH]; intros pre T J Hs Hl HT HJ.
  { destruct J; [apply evals_ret|simpl in HJ; lia]. }
  apply Forall_cons_1 in Hl as [Hc Hl]. rewrite zlen_cons in HJ.
  destruct J as [|x [|y J]]; [simpl in HJ; lia..|]. rewrite !zlen_cons in HJ. cbn [length utf16_encode_loop].
  eapply evals_bind; [apply str_item_dg; rewrite Hs, length_app, length_cons; lia|]. rewrite Hs, dg_at. cbv zeta.
  unfold wide_char in Hc. change 0xff with (Z.ones 8). rewrite low_bits, shiftr_div by lia. simpl (2 ^ _).
  eapply evals_bind; [apply (set_byte_off T [] x (y :: J)); [simpl; lia|unfold byte; destruct be; zsolve]|].
  eapply evals_bind; [apply (set_byte_off T [_] y J); [simpl; lia|unfold byte; destruct be; zsolve]|].
  replace (zlen pre + 1) with (zlen (pre ++ [ch])) by (rewrite length_app; simpl; lia).
  specialize (IH (pre ++ [ch]) (T ++ utf16_unit be ch) J). rewrite <- !app_assoc in IH.
  replace (T ++ [_] ++ _ :: J) with (T ++ utf16_unit be ch ++ J) by (by destruct be).
  apply IH; [by rewrite Hs|done| |lia]. rewrite !length_app. pose proof (utf16_unit_length be ch). simpl. lia.
Qed.

Lemma utf16_encode_spec be str :
  Forall wide_char (chars str) -> 2 * zlen (chars str) < 2 ^ 31 ->
  returns (s ← empty_str false (s32 (str_len str * 2)); utf16_encode_loop (Z.to_nat (str_len str)) be str 0 s)
    (fun v => v = MkStr false (utf16_bytes be (chars str))).
Proof.
  intros Hs Hl. rewrite str_len_small, s32_small, Nat2Z.id by lia.
  eapply returns_bind; [apply empty_str_spec; lia|]. intros [w J] [Hw HJ]. simpl in Hw, HJ. subst w.
  eapply evals_returns; [apply (utf16_encode_loop_spec be str (chars str) [] [] J); [done..|lia]|]. done.
Qed.

Definition Utf16Encode (be : bool) : option Str -> M Str := if be then Utf16BeEncode else Utf16LeEncode.
Definition Utf16Codec (be : bool) : option Str -> SM Codec Str := if be then Utf16BeDecode else Utf16LeDecode.
Definition Utf16Factory (be : bool) : strictness -> M Codec :=
  if be then Utf16BeEncodingFactoryMethod else Utf16LeEncodingFactoryMethod.

Lemma Utf16Encode_spec be s :
  Forall wide_char (chars s) -> 2 * zlen (chars s) < 2 ^ 31 ->
  returns (Utf16Encode be (Some s)) (fun v => v = MkStr false (utf16_bytes be (chars s))).
Proof.
  intros. destruct be; (eapply (returns_bind _ _ (fun x => x = s)); [by apply returns_ret|]; intros ? ->;
    by apply utf16_encode_spec).
Qed.

Lemma new_utf16_codec be mode :
  mode <> OtherMode -> returns (Utf16Factory be mode) (fun d => utf16_state d []).
Proof.
  intros Hm. destruct be; (eapply returns_bind; [apply new_codec_spec|]; intros d H8;
    eapply returns_mono; [by apply InitializeCodec_spec|]; intros d' ((junk & Hb) & H8' & _);
    repeat split; [by exists junk|done..]).
Qed.

(** C22: a text encoded as UTF-16 in either byte order, cut into non-empty
    chunks in any way and given to a new decoder of the same byte order, is
    decoded to the original text and leaves nothing unprocessed; an empty
    chunk in the middle of a character instead discards the byte that is
    carried. *)
Theorem utf16_stream_roundtrip be s mode chunks
  (Hwide : Forall wide_char (chars s)) (Hlen : 2 * zlen (chars s) < 2 ^ 31)
  (Hmode : mode <> OtherMode) (Hok : Forall (fun s => chunk_ok s /\ chars s <> []) chunks) :
  returns (Utf16Encode be (Some s)) (fun e =>
    chunk_text chunks = chars e ->
    returns (session (Utf16Factory be mode) (Utf16Codec be) chunks) (fun r => r = (chars s, []))) /\
  forall d x w, utf16_state d [x] ->
    sreturns (Utf16Codec be (Some (MkStr w []))) d (fun v d' => v = MkStr true [] /\ utf16_state d' []).
Proof.
  split; [|intros; destruct be; by eapply Utf16Decode_empty].
  eapply returns_mono; [by apply Utf16Encode_spec|]. intros e -> He. simpl in He.
  eapply returns_bind; [by apply new_utf16_codec|]. intros d Hst. apply observe_spec.
  eapply sspec_bind.
  { assert (Hc : Utf16Codec be = fun v => Utf16Decode v be) by (by destruct be). rewrite Hc.
    by apply (utf16_chunks_spec be chunks d [] Hst). }
  intros v d' Hv. cbv beta in Hv. simpl app in Hv. rewrite He, utf16_pairs_bytes in Hv.
  destruct Hv as (-> & (Hb & _ & Hc & _)). apply sspec_get_bind.
  eapply sspec_lift_bind; [by apply (EncodingUnprocessed_spec d' [])|]. intros u ->. by apply sspec_ret.
Qed.

Lemma utf16_stream_roundtrip_witness :
  returns (Utf16Encode true (Some (MkStr true [0x20ac; 65]))) (fun e =>
    chunk_text [MkStr false [0x20]; MkStr false [0xac; 0; 65]] = chars e ->
    returns (session (Utf16Factory true Strict) (Utf16Codec true) [MkStr false [0x20]; MkStr false [0xac; 0; 65]])
      (fun r => r = ([0x20ac; 65], []))) /\
  run (Utf16Encode true (Some (MkStr true [0x20ac; 65]))) = Ok (MkStr false [0x20; 0xac; 0; 65]).
Proof.
  split; [|vm_compute; reflexivity].
  refine (proj1 (utf16_stream_roundtrip true (MkStr true [0x20ac; 65]) Strict
    [MkStr false [0x20]; MkStr false [0xac; 0; 65]] _ _ _ _)).
  - repeat constructor; unfold wide_char; lia.
  - simpl. lia.
  - discriminate.
  - repeat constructor; unfold byte; simpl; first [lia|discriminate].
Defined.
