(* ===== verification/EightBit.v ===== *)
(** * EightBit: the table-driven 8-bit codecs of the encodings module

    [encodings_tables.c] and the second half of [encodings_module.c]: the
    compact description of 22 encodings, its expansion into a decoding table
    and a reverse hash table on the first use of an encoding, and the encoder
    and decoder that use them.  [Codecs], the array of the encodings expanded
    so far, is the state. *)

From S2P Require Import Prelude Runtime Digits Value Encodings.

Import List.
Open Scope Z_scope.

(** ** The compact descriptions *)

Definition Iso8859_2 : list Z := [
  253; 33; 129; 4; 130; 216; 129; 65; 253; 1; 59; 92; 253; 2; 69; 61; 69; 84; 253; 1; 67; 61; 253;
  1; 129; 5; 130; 219; 129; 66; 253; 1; 59; 92; 130; 199; 253; 1; 129; 97; 61; 69; 84; 130; 221;
  129; 126; 61; 23; 253; 2; 129; 2; 253; 1; 118; 12; 253; 1; 69; 253; 1; 75; 253; 1; 65; 253; 2;
  51; 65; 114; 67; 253; 2; 72; 253; 2; 71; 85; 253; 1; 65; 253; 2; 49; 253; 1; 50; 253; 2; 129; 3;
  253; 1; 118; 12; 253; 1; 69; 253; 1; 75; 253; 1; 65; 253; 2; 51; 65; 114; 67; 253; 2; 72; 253;
  2; 71; 85; 253; 1; 65; 253; 2; 49; 130; 217; 255].

Definition Iso8859_3 : list Z := [
  253; 33; 129; 38; 130; 216; 253; 2; 254; 1; 129; 36; 253; 2; 75; 109; 129; 30; 85; 253; 1; 254;
  1; 129; 123; 253; 1; 129; 39; 253; 4; 61; 253; 2; 75; 109; 129; 31; 85; 253; 1; 254; 1; 129;
  124; 253; 3; 254; 1; 253; 1; 129; 10; 61; 253; 9; 254; 1; 253; 4; 87; 253; 2; 59; 253; 4; 129;
  108; 47; 253; 4; 254; 1; 253; 1; 129; 11; 61; 253; 9; 254; 1; 253; 4; 87; 253; 2; 59; 253; 4;
  129; 109; 47; 130; 217; 255].

Definition Iso8859_4 : list Z := [
  253; 33; 129; 4; 115; 93; 253; 1; 17; 82; 253; 2; 100; 129; 18; 79; 129; 102; 253; 1; 86; 253;
  2; 129; 5; 130; 219; 129; 87; 253; 1; 17; 82; 130; 199; 253; 1; 129; 97; 129; 19; 79; 129; 103;
  34; 115; 12; 129; 0; 253; 6; 109; 29; 253; 1; 75; 253; 1; 61; 253; 2; 83; 37; 116; 70; 41; 253;
  5; 123; 253; 3; 53; 65; 253; 1; 129; 1; 253; 6; 109; 29; 253; 1; 75; 253; 1; 61; 253; 2; 83; 37;
  116; 70; 41; 253; 5; 123; 253; 3; 53; 65; 130; 217; 255].

Definition Iso8859_5 : list Z := [
  253; 33; 132; 1; 252; 11; 253; 1; 65; 252; 65; 161; 22; 132; 81; 252; 11; 128; 167; 132; 94; 64;
  255].

Definition Iso8859_6 : list Z := [
  253; 33; 254; 3; 253; 1; 254; 7; 134; 12; 253; 1; 254; 13; 78; 254; 3; 67; 254; 1; 65; 252; 25;
  254; 5; 69; 252; 18; 254; 13; 255].

Definition Iso8859_7 : list Z := [
  253; 33; 160; 24; 64; 253; 1; 160; 172; 66; 253; 4; 131; 122; 253; 3; 254; 1; 160; 21; 253; 4;
  131; 132; 252; 2; 253; 1; 65; 252; 2; 253; 1; 65; 253; 1; 65; 252; 19; 254; 1; 65; 252; 43; 254;
  1; 255].

Definition Iso8859_8 : list Z := [
  253; 33; 254; 1; 253; 8; 128; 215; 253; 15; 95; 253; 4; 254; 32; 160; 23; 133; 208; 252; 26;
  254; 2; 160; 14; 64; 254; 1; 255].

Definition Iso8859_9 : list Z := [
  253; 80; 129; 30; 253; 12; 81; 109; 253; 17; 0; 253; 12; 81; 109; 253; 1; 255].

Definition Iso8859_10 : list Z := [
  253; 33; 129; 4; 77; 79; 71; 61; 77; 253; 1; 68; 20; 129; 96; 69; 86; 253; 1; 44; 31; 253; 1;
  129; 5; 77; 79; 71; 61; 77; 253; 1; 68; 20; 129; 97; 69; 86; 160; 21; 129; 107; 31; 129; 0; 253;
  6; 109; 29; 253; 1; 75; 253; 1; 61; 253; 4; 110; 70; 253; 4; 91; 253; 1; 73; 253; 6; 129; 1;
  253; 6; 109; 29; 253; 1; 75; 253; 1; 61; 253; 4; 110; 70; 253; 4; 91; 253; 1; 73; 253; 5; 4; 255].

Definition Iso8859_11 : list Z := [
  253; 33; 142; 1; 252; 57; 254; 4; 68; 252; 28; 254; 4; 255].

Definition Iso8859_13 : list Z := [
  253; 33; 160; 29; 253; 3; 64; 253; 2; 128; 216; 253; 1; 129; 86; 253; 4; 128; 198; 253; 4; 160;
  28; 253; 3; 128; 248; 253; 1; 129; 87; 253; 4; 128; 230; 93; 105; 17; 69; 253; 2; 81; 57; 57;
  253; 1; 129; 121; 129; 22; 75; 83; 51; 80; 100; 34; 65; 253; 1; 70; 253; 3; 101; 14; 88; 79;
  253; 1; 80; 65; 253; 1; 129; 5; 105; 17; 69; 253; 2; 81; 57; 57; 253; 1; 129; 122; 129; 23; 75;
  83; 51; 80; 100; 34; 65; 253; 1; 70; 253; 3; 101; 14; 88; 79; 253; 1; 80; 65; 160; 25; 255].

Definition Iso8859_14 : list Z := [
  253; 33; 158; 2; 64; 253; 1; 129; 10; 64; 158; 10; 253; 1; 158; 128; 253; 1; 65; 158; 11; 158;
  242; 253; 2; 129; 120; 158; 30; 64; 129; 32; 64; 158; 64; 64; 253; 1; 84; 106; 21; 107; 28; 158;
  243; 158; 132; 64; 27; 253; 16; 129; 116; 253; 6; 158; 106; 253; 6; 129; 118; 253; 17; 62; 253;
  6; 158; 107; 253; 6; 129; 119; 253; 1; 255].

Definition Iso8859_15 : list Z := [
  253; 36; 160; 172; 253; 1; 129; 96; 253; 1; 64; 253; 11; 91; 253; 3; 64; 253; 3; 19; 64; 100;
  253; 65; 255].

Definition Iso8859_16 : list Z := [
  253; 33; 129; 4; 64; 123; 160; 172; 160; 30; 129; 96; 253; 1; 64; 253; 1; 130; 24; 253; 1; 129;
  121; 253; 1; 252; 2; 253; 2; 129; 12; 117; 122; 160; 29; 253; 2; 129; 126; 129; 13; 130; 25;
  253; 1; 129; 82; 64; 100; 67; 253; 3; 129; 2; 253; 1; 67; 253; 10; 73; 114; 253; 3; 76; 253; 1;
  73; 85; 253; 4; 129; 24; 130; 26; 253; 4; 129; 3; 253; 1; 67; 253; 10; 73; 114; 253; 3; 76; 253;
  1; 73; 85; 253; 4; 129; 25; 130; 27; 253; 1; 255].

Definition Ascii : list Z := [
  254; 128; 255].

Definition Cp437 : list Z := [
  128; 199; 116; 44; 56; 65; 59; 68; 65; 66; 64; 60; 70; 62; 61; 23; 64; 67; 92; 31; 109; 65; 59;
  72; 61; 69; 22; 69; 5; 64; 65; 160; 167; 129; 146; 128; 225; 75; 69; 70; 54; 31; 24; 79; 68;
  163; 16; 128; 172; 80; 62; 36; 73; 79; 165; 145; 252; 2; 165; 2; 97; 124; 64; 51; 62; 77; 45;
  69; 69; 62; 62; 165; 16; 67; 95; 55; 47; 35; 123; 97; 64; 58; 57; 84; 60; 57; 47; 91; 58; 64;
  59; 64; 51; 62; 57; 64; 87; 62; 165; 24; 51; 165; 136; 59; 71; 67; 47; 131; 177; 128; 223; 131;
  147; 108; 34; 95; 128; 181; 131; 196; 33; 49; 80; 74; 162; 30; 131; 198; 46; 162; 41; 119; 128;
  177; 162; 101; 62; 163; 32; 64; 128; 247; 162; 72; 128; 176; 162; 25; 128; 183; 162; 26; 160;
  127; 128; 178; 165; 160; 128; 160; 255].

Definition Cp850 : list Z := [
  128; 199; 116; 44; 56; 65; 59; 68; 65; 66; 64; 60; 70; 62; 61; 23; 64; 67; 92; 31; 109; 65; 59;
  72; 61; 69; 22; 69; 91; 128; 163; 116; 62; 129; 146; 128; 225; 75; 69; 70; 54; 31; 24; 79; 68;
  46; 61; 80; 62; 36; 73; 79; 165; 145; 252; 2; 165; 2; 97; 128; 193; 64; 61; 40; 165; 99; 45; 69;
  69; 128; 162; 66; 165; 16; 67; 95; 55; 47; 35; 123; 128; 227; 31; 165; 90; 57; 84; 60; 57; 47;
  91; 128; 164; 128; 240; 31; 57; 64; 60; 129; 49; 128; 205; 252; 2; 165; 24; 51; 165; 136; 59;
  128; 166; 101; 165; 128; 128; 211; 75; 52; 61; 98; 31; 31; 128; 254; 31; 59; 64; 61; 99; 31; 17;
  68; 56; 67; 160; 23; 128; 190; 55; 48; 128; 247; 0; 55; 55; 78; 65; 57; 62; 165; 160; 128; 160;
  255].

Definition Windows1250 : list Z := [
  160; 172; 254; 1; 160; 26; 254; 1; 67; 71; 57; 64; 254; 1; 78; 129; 96; 160; 57; 129; 90; 73;
  88; 59; 254; 1; 160; 24; 64; 66; 64; 68; 48; 64; 254; 1; 161; 34; 129; 97; 160; 58; 129; 91; 73;
  88; 59; 253; 1; 130; 199; 80; 129; 65; 253; 1; 2; 253; 4; 129; 94; 253; 4; 92; 253; 2; 130; 219;
  129; 66; 253; 5; 2; 129; 95; 253; 1; 29; 130; 221; 129; 62; 125; 23; 253; 2; 129; 2; 253; 1;
  118; 12; 253; 1; 69; 253; 1; 75; 253; 1; 65; 253; 2; 51; 65; 114; 67; 253; 2; 72; 253; 2; 71;
  85; 253; 1; 65; 253; 2; 49; 253; 1; 50; 253; 2; 129; 3; 253; 1; 118; 12; 253; 1; 69; 253; 1; 75;
  253; 1; 65; 253; 2; 51; 65; 114; 67; 253; 2; 72; 253; 2; 71; 85; 253; 1; 65; 253; 2; 49; 130;
  217; 255].

Definition Windows1251 : list Z := [
  132; 2; 64; 160; 26; 132; 83; 160; 30; 71; 57; 64; 160; 172; 160; 48; 132; 9; 160; 57; 132; 10;
  65; 62; 67; 132; 82; 160; 24; 64; 66; 64; 68; 48; 64; 254; 1; 161; 34; 132; 89; 160; 58; 132;
  90; 65; 62; 67; 253; 1; 132; 14; 132; 94; 132; 8; 253; 1; 132; 144; 253; 2; 132; 1; 253; 1; 66;
  253; 4; 66; 253; 2; 62; 132; 86; 122; 253; 3; 132; 81; 161; 22; 132; 84; 253; 1; 67; 132; 5;
  132; 85; 65; 132; 16; 252; 63; 255].

Definition Windows1252 : list Z := [
  160; 172; 254; 1; 160; 26; 129; 146; 160; 30; 71; 57; 64; 130; 198; 160; 48; 129; 96; 160; 57;
  129; 82; 254; 1; 106; 254; 2; 160; 24; 64; 66; 64; 68; 48; 64; 130; 220; 161; 34; 129; 97; 160;
  58; 129; 83; 254; 1; 106; 57; 253; 96; 255].

Definition Koi8R : list Z := [
  165; 0; 65; 73; 67; 67; 67; 67; 71; 71; 71; 71; 165; 128; 67; 67; 67; 67; 252; 3; 163; 32; 165;
  160; 162; 25; 64; 109; 91; 64; 128; 160; 163; 33; 128; 176; 65; 68; 128; 247; 165; 80; 252; 2;
  132; 81; 165; 83; 252; 14; 132; 1; 165; 98; 252; 10; 128; 169; 132; 78; 33; 64; 84; 45; 64; 78;
  46; 81; 50; 252; 7; 79; 48; 252; 3; 50; 59; 89; 62; 43; 80; 68; 59; 61; 66; 35; 33; 64; 84; 45;
  64; 78; 46; 81; 50; 252; 7; 79; 48; 252; 3; 50; 59; 89; 62; 43; 80; 68; 59; 61; 66; 255].

Definition Koi8U : list Z := [
  165; 0; 65; 73; 67; 67; 67; 67; 71; 71; 71; 71; 165; 128; 67; 67; 67; 67; 252; 3; 163; 32; 165;
  160; 162; 25; 64; 109; 91; 64; 128; 160; 163; 33; 128; 176; 65; 68; 128; 247; 165; 80; 252; 2;
  132; 81; 66; 165; 84; 132; 86; 64; 165; 87; 252; 4; 132; 145; 165; 93; 252; 4; 132; 1; 66; 165;
  99; 132; 6; 64; 165; 102; 252; 4; 132; 144; 165; 108; 128; 169; 132; 78; 33; 64; 84; 45; 64; 78;
  46; 81; 50; 252; 7; 79; 48; 252; 3; 50; 59; 89; 62; 43; 80; 68; 59; 61; 66; 35; 33; 64; 84; 45;
  64; 78; 46; 81; 50; 252; 7; 79; 48; 252; 3; 50; 59; 89; 62; 43; 80; 68; 59; 61; 66; 255].

Definition ACodecInfo : list (list Z) := [
  Iso8859_2; Iso8859_3; Iso8859_4; Iso8859_5; Iso8859_6; Iso8859_7; Iso8859_8; Iso8859_9;
  Iso8859_10; Iso8859_11; Iso8859_13; Iso8859_14; Iso8859_15; Iso8859_16; Ascii; Cp437; Cp850;
  Windows1250; Windows1251; Windows1252; Koi8R; Koi8U].

Definition NUM_8_BIT_CODECS : Z := 22.

(** ** Expanded encodings *)

Definition REVERSE_MAP_SIZE : Z := 256.
Definition REVERSE_MAP_MASK : Z := REVERSE_MAP_SIZE - 1.
Definition HASH (n : Z) : Z := n * 3.

(** [EightBitCodecInfo]: the decoding map of the codes 128..255 and the two
    members of the entries of the reverse map. *)
Record EightBitCodecInfo := MkInfo {
  code_map : list Z;
  rev_src : list Z;
  rev_dst : list Z
}.

(** Reading and writing a C array. *)
Definition array_item (l : list Z) (i : Z) : M Z :=
  if (0 <=? i) && (i <? zlen l) then mret (dg l i) else fault.
Definition set_array (l : list Z) (i x : Z) : M (list Z) :=
  if (0 <=? i) && (i <? zlen l) then mret (upd l i (u16 x)) else fault.

(** The three counted loops of the expansion: [n] codes from [j]. *)
Fixpoint fill_consecutive (n : nat) (j prev : Z) (map : list Z) : M (Z * Z * list Z) :=
  match n with
  | O => mret (j, prev, map)
  | S n => map ← set_array map j (prev + 1); fill_consecutive n (j + 1) (prev + 1) map
  end.
Fixpoint fill_direct (n : nat) (j : Z) (map : list Z) : M (Z * list Z) :=
  match n with
  | O => mret (j, map)
  | S n => map ← set_array map j (j + 128); fill_direct n (j + 1) map
  end.
Fixpoint fill_undefined (n : nat) (j : Z) (map : list Z) : M (Z * list Z) :=
  match n with
  | O => mret (j, map)
  | S n => map ← set_array map j 0xfffd; fill_undefined n (j + 1) map
  end.

(** The loop that expands the description [data]. *)
Fixpoint expand (fuel : nat) (data : list Z) (i j prev : Z) (map : list Z) : M (list Z) :=
  match fuel with
  | O => fault
  | S fuel =>
    b ← array_item data i;
    if b =? 255 then mret map
    else if b <? 128 then
      let prev := prev + (b - 63) in
      map ← set_array map j prev; expand fuel data (i + 1) (j + 1) prev map
    else if b <? 252 then
      b1 ← array_item data (i + 1);
      let prev := Z.lor (Z.shiftl (b - 128) 8) b1 in
      map ← set_array map j prev; expand fuel data (i + 2) (j + 1) prev map
    else
      n ← array_item data (i + 1);
      if b =? 252 then
        '(j, prev, map) ← fill_consecutive (Z.to_nat n) j prev map; expand fuel data (i + 2) j prev map
      else if b =? 253 then
        '(j, map) ← fill_direct (Z.to_nat n) j map; expand fuel data (i + 2) j prev map
      else
        '(j, map) ← fill_undefined (Z.to_nat n) j map; expand fuel data (i + 2) j prev map
  end.

(** The first empty entry of the reverse map from [j] on. *)
Fixpoint free_entry (fuel : nat) (src : list Z) (j : Z) : M Z :=
  match fuel with
  | O => fault
  | S fuel =>
    c ← array_item src j;
    if negb (c =? 0) then free_entry fuel src (Z.land (j + 1) REVERSE_MAP_MASK) else mret j
  end.

(** The loop that fills the reverse map. *)
Fixpoint reverse_loop (n : nat) (i : Z) (map src dst : list Z) : M (list Z * list Z) :=
  match n with
  | O => mret (src, dst)
  | S n =>
    c ← array_item map i;
    if negb (c =? 0xfffd) then
      j ← free_entry (Z.to_nat REVERSE_MAP_SIZE) src (Z.land (HASH c) REVERSE_MAP_MASK);
      src ← set_array src j c;
      dst ← set_array dst j (i + 128);
      reverse_loop n (i + 1) map src dst
    else reverse_loop n (i + 1) map src dst
  end.

(** The expansion of one description, in a block with the content [junk]. *)
Definition build_codec (data : list Z) (junk : storage) : M EightBitCodecInfo :=
  let cells off n := (fun i => junk (off + Z.of_nat i)) <$> seq 0 (Z.to_nat n) in
  map ← expand (length data) data 0 0 (-1) (cells 0 128);
  let src := replicate (Z.to_nat REVERSE_MAP_SIZE) 0 in
  '(src, dst) ← reverse_loop 128 0 map src (cells 128 REVERSE_MAP_SIZE);
  mret (MkInfo map src dst).

Abbreviation Codecs := (list (option EightBitCodecInfo)).

(** [RealizeCodec(t, codec)]. *)
Definition RealizeCodec (codec : Z) : SM Codecs EightBitCodecInfo :=
  junk ← lift (AAlloc (2 * (128 + 2 * REVERSE_MAP_SIZE)));
  info ← lift (build_codec (nth (Z.to_nat codec) ACodecInfo []) junk);
  modify (fun cs => <[Z.to_nat codec := Some info]> cs) ≫= (fun _ => mret info).

(** [Codecs[codec]], expanded first if it is [NULL]. *)
Definition codec_info (codec : Z) : SM Codecs EightBitCodecInfo :=
  cs ← get;
  match cs !! Z.to_nat codec with
  | Some (Some info) => mret info
  | Some None => RealizeCodec codec
  | None => lift fault
  end.

(** ** Encoding and decoding *)

(** The entry of the reverse map for [ch], or an empty entry. *)
Fixpoint find_entry (fuel : nat) (src : list Z) (ch j : Z) : M Z :=
  match fuel with
  | O => fault
  | S fuel =>
    c ← array_item src j;
    if negb (c =? ch) && negb (c =? 0) then find_entry fuel src ch (Z.land (j + 1) REVERSE_MAP_MASK)
    else mret j
  end.

Fixpoint eight_encode_loop (n : nat) (d : Codec) (info : EightBitCodecInfo) (str : Str) (i : Z) (s : Str) : M Str :=
  match n with
  | O => mret s
  | S n =>
    ch ← str_item str i;
    s ← (if ch <=? 0x7f then set_str_item s i ch
         else
           j ← find_entry (Z.to_nat REVERSE_MAP_SIZE) (rev_src info) ch (Z.land (HASH ch) REVERSE_MAP_MASK);
           c ← array_item (rev_src info) j;
           if negb (c =? 0) then x ← array_item (rev_dst info) j; set_str_item s i x
           else if SLOT_MODE d =? MODE_STRICT then raise EEncodeError
           else set_str_item s i 63);
    eight_encode_loop n d info str (i + 1) s
  end.

(** [EightBitCodecEncode(t, frame)]. *)
Definition EightBitCodecEncode (d : Codec) (v : option Str) : SM Codecs Str :=
  info ← codec_info (SLOT_ENCODING d);
  str ← lift (AExpectStr v);
  let len := str_len str in
  s ← lift (empty_str false len);
  lift (eight_encode_loop (Z.to_nat len) d info str 0 s).

Fixpoint eight_decode_loop (n : nat) (d : Codec) (map : list Z) (str : Str) (i : Z) (s : Str) : M Str :=
  match n with
  | O => mret s
  | S n =>
    ch ← str_item str i;
    let error := if SLOT_MODE d =? MODE_STRICT then raise EDecodeError else set_str_item s i 0xfffd in
    s ← (if ch <=? 0x7f then set_str_item s i ch
         else if ch <=? 0xff then
           x ← array_item map (ch - 128);
           if negb (x =? 0xfffd) then set_str_item s i x else error
         else error);
    eight_decode_loop n d map str (i + 1) s
  end.

(** [EightBitCodecDecode(t, frame)]. *)
Definition EightBitCodecDecode (d : Codec) (v : option Str) : SM Codecs Str :=
  info ← codec_info (SLOT_ENCODING d);
  str ← lift (AExpectStr v);
  let len := str_len str in
  s ← lift (empty_str true len);
  lift (eight_decode_loop (Z.to_nat len) d (code_map info) str 0 s).
