(* ===== verification/EightBitProps.v ===== *)
(** * EightBitProps: the 8-bit codecs are partial bijections

    The 22 descriptions expand to tables in which the reverse hash table
    inverts the decoding map; the encoder and the decoder map the characters
    of a string by these tables, and a probe of the hash table terminates. *)

From S2P Require Import Prelude Runtime Digits Value LongInt Encodings EncodingsSpec.
From S2P Require Import EncodingProps EightBit.


(** ** The tables *)

(** The expansion of description [n]. *)
Definition codec_tables (n : nat) : EightBitCodecInfo :=
  match run (build_codec (nth n ACodecInfo []) (fun _ => 0)) with
  | Ok info => info
  | _ => MkInfo [] [] []
  end.

(** The members of the entries in use. *)
Definition used (src dst : list Z) : list Z := zip_with (fun s x => if s =? 0 then 0 else x) src dst.

(** An expansion in a block with any content: unused entries keep it. *)
Definition realizes (n : nat) (info : EightBitCodecInfo) : Prop :=
  code_map info = code_map (codec_tables n) /\ rev_src info = rev_src (codec_tables n) /\
  used (rev_src info) (rev_dst info) = rev_dst (codec_tables n) /\ length (rev_dst info) = 256%nat.

Lemma build_codec_realizes n junk :
  (n < 22)%nat -> returns (build_codec (nth n ACodecInfo []) junk) (realizes n).
Proof.
  intros Hn. do 22 (destruct n as [|n]; [eapply evals_returns;
    [intros t; vm_compute; reflexivity|split; [vm_compute; reflexivity|split; [vm_compute; reflexivity|split; vm_compute; reflexivity]]]|]).
  lia.
Qed.

(** ** Probing the reverse map *)

Lemma array_item_dg l i : 0 <= i < zlen l -> evals (array_item l i) (dg l i).
Proof. intros. unfold array_item. rewrite in_bounds by done. apply evals_ret. Qed.

Lemma next_entry j : 0 <= j < 256 -> Z.land (j + 1) REVERSE_MAP_MASK = (j + 1) mod 256.
Proof. intros. change REVERSE_MAP_MASK with (Z.ones 8). by rewrite low_bits. Qed.

(** A probe ends at the character or at an empty entry, if there is one. *)
Lemma find_entry_ends src ch e fuel : forall j,
  zlen src = 256 -> 0 <= e < 256 -> dg src e = 0 -> 0 <= j < 256 -> (e - j) mod 256 < Z.of_nat fuel ->
  exists k, evals (find_entry fuel src ch j) k /\ 0 <= k < 256 /\ (dg src k = ch \/ dg src k = 0).
Proof.
  induction fuel as [|fuel IH]; intros j Hs He Hz Hj Hf; [zsolve|]. cbn [find_entry].
  destruct (Z.eqb_spec (dg src j) ch) as [Hc|Hc]; [|destruct (Z.eqb_spec (dg src j) 0) as [H0|H0]].
  - exists j. split; [|auto]. eapply evals_bind; [apply array_item_dg; lia|].
    rewrite (proj2 (Z.eqb_eq _ _) Hc). apply evals_ret.
  - exists j. split; [|auto]. eapply evals_bind; [apply array_item_dg; lia|].
    rewrite (proj2 (Z.eqb_eq _ _) H0), andb_false_r. apply evals_ret.
  - destruct (IH ((j + 1) mod 256)) as (k & Hk & Hr); [done..|zsolve| |].
    + assert (e <> j) by congruence. zsolve.
    + exists k. split; [|done]. eapply evals_bind; [apply array_item_dg; lia|].
      rewrite (proj2 (Z.eqb_neq _ _) Hc), (proj2 (Z.eqb_neq _ _) H0). simpl. by rewrite next_entry.
Qed.

(** ** The character maps of an encoding *)

Definition codec_find (info : EightBitCodecInfo) (ch : Z) : Z :=
  match run (find_entry 256 (rev_src info) ch (Z.land (HASH ch) REVERSE_MAP_MASK)) with
  | Ok k => k
  | _ => 0
  end.

(** The code of a character and the character of a code. *)
Definition encode_char (info : EightBitCodecInfo) (ch : Z) : option Z :=
  if ch <=? 0x7f then Some ch
  else
    let k := codec_find info ch in
    if dg (rev_src info) k =? 0 then None else Some (dg (rev_dst info) k).

Definition decode_code (info : EightBitCodecInfo) (b : Z) : option Z :=
  if b <=? 0x7f then Some b
  else if b <=? 0xff then
    let c := dg (code_map info) (b - 128) in if c =? 0xfffd then None else Some c
  else None.

Definition code_ok (info : EightBitCodecInfo) (i : Z) : bool :=
  let c := dg (code_map info) i in
  (0x80 <=? c) && (c <? 0x10000) &&
  ((c =? 0xfffd) || (match encode_char info c with Some b => b =? i + 128 | None => false end)).

Definition entry_ok (info : EightBitCodecInfo) (j : Z) : bool :=
  let c := dg (rev_src info) j in
  let x := dg (rev_dst info) j in
  (c =? 0) || ((128 <=? x) && (x <=? 255) && (dg (code_map info) (x - 128) =? c) && negb (c =? 0xfffd)).

Definition codec_ok (n : nat) : bool :=
  let info := codec_tables n in
  (length (code_map info) =? 128)%nat && (length (rev_src info) =? 256)%nat &&
  forallb (code_ok info) (seqZ 0 128) && forallb (entry_ok info) (seqZ 0 256) &&
  existsb (fun j => dg (rev_src info) j =? 0) (seqZ 0 256).

Lemma codecs_check : forallb codec_ok (seq 0 22) = true.
Proof. vm_compute. reflexivity. Qed.

(** What the check says of one encoding. *)
Lemma codec_facts n :
  (n < 22)%nat ->
  let info := codec_tables n in
  zlen (code_map info) = 128 /\ zlen (rev_src info) = 256 /\
  (forall i, 0 <= i < 128 -> code_ok info i = true) /\
  (forall j, 0 <= j < 256 -> entry_ok info j = true) /\
  exists e, 0 <= e < 256 /\ dg (rev_src info) e = 0.
Proof.
  intros Hn info. assert (Hc : codec_ok n = true).
  { apply (proj1 (forallb_forall codec_ok _) codecs_check). apply in_seq. lia. }
  unfold codec_ok in Hc. fold info in Hc. clearbody info. rewrite !andb_true_iff in Hc.
  destruct Hc as ((((H1 & H2) & H3) & H4) & H5). apply Nat.eqb_eq in H1, H2.
  assert (Hin : forall i m, 0 <= i < m -> List.In i (seqZ 0 m)).
  { intros i m Hi. apply list_elem_of_In, elem_of_seqZ. lia. }
  split; [by rewrite H1|]. split; [by rewrite H2|]. split; [|split].
  - intros i Hi. by apply (proj1 (forallb_forall _ _) H3), Hin.
  - intros j Hj. by apply (proj1 (forallb_forall _ _) H4), Hin.
  - apply existsb_exists in H5 as (e & He & Hz). apply list_elem_of_In, elem_of_seqZ in He.
    apply Z.eqb_eq in Hz. exists e. split; [lia|done].
Qed.

Lemma find_entry_codec n ch :
  (n < 22)%nat -> wide_char ch ->
  evals (find_entry 256 (rev_src (codec_tables n)) ch (Z.land (HASH ch) REVERSE_MAP_MASK)) (codec_find (codec_tables n) ch) /\
  0 <= codec_find (codec_tables n) ch < 256 /\
  (dg (rev_src (codec_tables n)) (codec_find (codec_tables n) ch) = ch \/ dg (rev_src (codec_tables n)) (codec_find (codec_tables n) ch) = 0).
Proof.
  intros Hn Hc. destruct (codec_facts n Hn) as (_ & Hs & _ & _ & e & He & Hz).
  destruct (find_entry_ends (rev_src (codec_tables n)) ch e 256 (Z.land (HASH ch) REVERSE_MAP_MASK))
    as (k & Hk & Hr); [done..| |zsolve|].
  { change REVERSE_MAP_MASK with (Z.ones 8). rewrite low_bits by lia. simpl. zsolve. }
  assert (Hf : codec_find (codec_tables n) ch = k) by (unfold codec_find, run; by rewrite Hk). by rewrite Hf.
Qed.

(** Encoding inverts decoding. *)
Lemma codec_bijection n ch b :
  (n < 22)%nat -> wide_char ch -> byte b -> encode_char (codec_tables n) ch = Some b <-> decode_code (codec_tables n) b = Some ch.
Proof.
  intros Hn Hc Hb. destruct (codec_facts n Hn) as (_ & _ & Hcode & Hentry & _). unfold wide_char, byte in *.
  unfold encode_char, decode_code. destruct (Z.leb_spec ch 0x7f) as [H7|H7].
  - destruct (Z.leb_spec b 0x7f); [split; intros; congruence|]. test (b <=? 255) true.
    pose proof (Hcode (b - 128) ltac:(lia)) as Hk. unfold code_ok in Hk. rewrite !andb_true_iff, Z.leb_le in Hk.
    split; [intros [= ->]; lia|]. destruct (_ =? 65533); [done|]. intros [= E]. lia.
  - destruct (find_entry_codec n ch Hn Hc) as (_ & Hk & Hd). specialize (Hentry _ Hk). unfold entry_ok in Hentry.
    set (k := codec_find (codec_tables n) ch) in *. destruct (Z.eqb_spec (dg (rev_src (codec_tables n)) k) 0) as [H0|H0]; simpl in Hentry.
    + split; [done|]. intros Hdec. exfalso. destruct (Z.leb_spec b 0x7f); [simplify_eq; lia|].
      revert Hdec. test (b <=? 255) true. intros Hdec.
      pose proof (Hcode (b - 128) ltac:(lia)) as Hb1. unfold code_ok, encode_char in Hb1.
      destruct (_ =? 65533); [done|]. simplify_eq. fold k in Hb1. rewrite H0 in Hb1. simpl in Hb1.
      revert Hb1. test (dg (code_map (codec_tables n)) (b - 128) <=? 127) false. by rewrite andb_false_r.
    + destruct Hd as [Hd|Hd]; [|done]. rewrite !andb_true_iff, !Z.leb_le, Z.eqb_eq, negb_true_iff in Hentry.
      destruct Hentry as (((Hx1 & Hx2) & Hx3) & Hx4). split.
      * intros [= <-]. test (_ <=? 127) false. test (_ <=? 255) true. by rewrite Hx3, Hx4, Hd.
      * intros Hdec. destruct (Z.leb_spec b 0x7f); [simplify_eq; lia|]. revert Hdec. test (b <=? 255) true. intros Hdec.
        pose proof (Hcode (b - 128) ltac:(lia)) as Hb1. unfold code_ok, encode_char in Hb1.
        destruct (dg (code_map (codec_tables n)) (b - 128) =? 65533); [done|]. injection Hdec as Hdec. rewrite Hdec in Hb1. fold k in Hb1.
        rewrite (proj2 (Z.eqb_neq _ _) H0) in Hb1. revert Hb1. test (ch <=? 127) false.
        cbn [orb]. rewrite andb_true_iff. intros [_ Hb1]. apply Z.eqb_eq in Hb1. f_equal. lia.
Qed.

(** ** Encoding and decoding strings *)

(** A string mapped by the character map [f]: a character without an image is
    an error, or replaced by [subst] in the unstrict mode. *)
Definition map_chars (strict : bool) (subst : Z) (f : Z -> option Z) (l : list Z) : option (list Z) :=
  mapM (fun ch => match f ch with Some x => Some x | None => if strict then None else Some subst end) l.

Lemma used_lookup src dst j :
  length src = 256%nat -> length dst = 256%nat -> 0 <= j < 256 -> dg src j <> 0 ->
  dg (used src dst) j = dg dst j.
Proof.
  intros Hs Hd Hj Hne. unfold dg, used in *. rewrite !nth_lookup in *. rewrite lookup_zip_with.
  destruct (lookup_lt_is_Some_2 src (Z.to_nat j)) as [x Hx]; [lia|].
  destruct (lookup_lt_is_Some_2 dst (Z.to_nat j)) as [y Hy]; [lia|]. rewrite Hx, Hy in *. simpl in *.
  by rewrite (proj2 (Z.eqb_neq x 0) Hne).
Qed.

(** One character of the encoder, with the tables of a realized encoding. *)
Lemma eight_encode_step n info (Q : Z -> M Str) (e : M Str) ch :
  (n < 22)%nat -> realizes n info -> wide_char ch ->
  forall t, (if ch <=? 0x7f then Q ch
   else
     j ← find_entry (Z.to_nat REVERSE_MAP_SIZE) (rev_src info) ch (Z.land (HASH ch) REVERSE_MAP_MASK);
     c ← array_item (rev_src info) j;
     if negb (c =? 0) then x ← array_item (rev_dst info) j; Q x else e) t =
   (match encode_char (codec_tables n) ch with Some x => Q x | None => e end) t.
Proof.
  intros Hn (_ & Hsrc & Hdst & Hl) Hc t. unfold encode_char. destruct (ch <=? 0x7f); [done|].
  destruct (codec_facts n Hn) as (_ & Hs & _). destruct (find_entry_codec n ch Hn Hc) as (Hf & Hk & _).
  rewrite Hsrc. set (k := codec_find (codec_tables n) ch) in *.
  unfold mbind, M_bind. rewrite Hf. rewrite array_item_dg by lia.
  destruct (Z.eqb_spec (dg (rev_src (codec_tables n)) k) 0) as [H0|H0]; simpl; [done|].
  rewrite array_item_dg by lia. by rewrite <- Hdst, Hsrc, used_lookup by lia.
Qed.

Lemma spec_ext {A} (m m' : M A) Q : (forall t, m t = m' t) -> spec m' Q -> spec m Q.
Proof. intros E H t. rewrite E. apply H. Qed.

(** Storing characters one by one, each computed by [step]. *)
Lemma char_loop_spec (loop : nat -> Z -> Str -> M Str) (f : Z -> option Z) (strict : bool) (subst : Z) (e : exn) (w : bool) (str : Str) :
  (forall i s, loop O i s = (mret s : M Str)) ->
  (forall n i s ch, wide_char ch -> evals (str_item str i) ch -> forall t,
     loop (S n) i s t =
       (mbind (M := M) (loop n (i + 1)) (match f ch with
        | Some x => set_str_item s i x
        | None => if strict then raise e else set_str_item s i subst
        end)) t) ->
  forall l pre T J,
  chars str = pre ++ l -> Forall wide_char l -> zlen T = zlen pre -> length J = length l ->
  (forall ch x, wide_char ch -> f ch = Some x -> (if w then u16 x else u8 x) = x) ->
  (if w then u16 subst else u8 subst) = subst ->
  yields (loop (length l) (zlen pre) (MkStr w (T ++ J)))
    (match map_chars strict subst f l with Some r => Ok (MkStr w (T ++ r)) | None => Raise e end).
Proof.
  intros H0 H1 l. induction l as [|ch l IH]; intros pre T J Hs Hl HT HJ Hf Hsub.
  { apply nil_length_inv in HJ as ->. simpl. rewrite H0. by apply spec_ret. }
  apply Forall_cons_1 in Hl as [Hc Hl]. destruct J as [|y J]; [done|]. cbn [length].
  assert (Hitem : evals (str_item str (zlen pre)) ch).
  { rewrite <- (dg_at pre ch l) at 1. rewrite <- Hs. apply str_item_dg. rewrite Hs, length_app, length_cons. lia. }
  eapply spec_ext; [exact (H1 _ _ _ ch Hc Hitem)|].
  assert (Hrec : forall x, (if w then u16 x else u8 x) = x ->
    yields (set_str_item (MkStr w (T ++ y :: J)) (zlen pre) x ≫= loop (length l) (zlen pre + 1))
      (match map_chars strict subst f l with Some r => Ok (MkStr w (T ++ x :: r)) | None => Raise e end)).
  { intros x Hx. eapply spec_bind_evals; [by apply set_str_item_at|]. rewrite Hx.
    specialize (IH (pre ++ [ch]) (T ++ [x]) J). rewrite <- !app_assoc in IH.
    replace (zlen pre + 1) with (zlen (pre ++ [ch])) by (rewrite length_app; simpl; lia).
    eapply spec_mono; [apply IH; [by rewrite Hs|done|rewrite !length_app; simpl; lia|simpl in HJ; lia|done..]|].
    intros r ->. destruct (map_chars _ _ _ l); [by rewrite <- app_assoc|done]. }
  unfold map_chars. simpl. destruct (f ch) as [x|] eqn:Ef; [|destruct strict].
  - eapply spec_mono; [by apply Hrec, (Hf ch)|]. intros r ->. unfold map_chars. by destruct (mapM _ l).
  - by apply spec_raise.
  - eapply spec_mono; [by apply Hrec|]. intros r ->. unfold map_chars. simpl. by destruct (mapM _ l).
Qed.

(** * The correctness of the 8-bit codecs *)


(** Every encoding expanded so far has the tables of its description. *)
Definition codecs_ok (cs : Codecs) : Prop :=
  length cs = 22%nat /\ forall n info, cs !! n = Some (Some info) -> realizes n info.

Lemma codec_info_spec n cs :
  0 <= n < 22 -> codecs_ok cs ->
  sreturns (codec_info n) cs (fun info cs' => realizes (Z.to_nat n) info /\ codecs_ok cs').
Proof.
  intros Hn [Hl Hcs]. apply sspec_get_bind.
  destruct (lookup_lt_is_Some_2 cs (Z.to_nat n)) as [o Hc]; [lia|].
  rewrite Hc.
  destruct o as [info|].
  { apply sreturns_ret. split; [by apply Hcs|done]. }
  eapply sreturns_lift_bind; [apply AAlloc_spec|]. intros junk _.
  eapply sreturns_lift_bind; [apply build_codec_realizes; lia|]. intros info Hi.
  apply sspec_modify_bind, sreturns_ret. split; [done|]. split; [by rewrite length_insert|].
  intros m info' Hm. destruct (decide (m = Z.to_nat n)) as [->|Hne].
  - rewrite list_lookup_insert_eq in Hm by lia. by simplify_eq.
  - rewrite list_lookup_insert_ne in Hm by done. by apply Hcs.
Qed.

Lemma encode_char_byte n ch x :
  (n < 22)%nat -> wide_char ch -> encode_char (codec_tables n) ch = Some x -> u8 x = x.
Proof.
  intros Hn Hc. unfold encode_char. destruct (Z.leb_spec ch 0x7f).
  { intros [= ->]. apply u8_byte. unfold byte, wide_char in *. lia. }
  destruct (codec_facts n Hn) as (_ & _ & _ & He & _). destruct (find_entry_codec n ch Hn Hc) as (_ & Hk & _).
  specialize (He _ Hk). unfold entry_ok in He. destruct (_ =? 0); [done|]. intros [= <-]. simpl in He.
  rewrite !andb_true_iff, !Z.leb_le in He. apply u8_byte. unfold byte. lia.
Qed.

Lemma decode_code_wide n b x :
  (n < 22)%nat -> wide_char b -> decode_code (codec_tables n) b = Some x -> u16 x = x.
Proof.
  intros Hn Hb. unfold decode_code, wide_char in *. destruct (Z.leb_spec b 0x7f).
  { intros [= ->]. apply Z.mod_small. lia. }
  destruct (Z.leb_spec b 0xff); [|done].
  destruct (codec_facts n Hn) as (_ & _ & Hc & _). specialize (Hc (b - 128) ltac:(lia)). unfold code_ok in Hc.
  destruct (dg _ (b - 128) =? 65533); [done|]. intros [= <-].
  rewrite !andb_true_iff, Z.leb_le, Z.ltb_lt in Hc. apply Z.mod_small. lia.
Qed.

Lemma eight_decode_step n info (Q : Z -> M Str) (e : M Str) ch :
  (n < 22)%nat -> realizes n info -> wide_char ch ->
  forall t, (if ch <=? 0x7f then Q ch
   else if ch <=? 0xff then
     x ← array_item (code_map info) (ch - 128); if negb (x =? 0xfffd) then Q x else e
   else e) t = (match decode_code (codec_tables n) ch with Some x => Q x | None => e end) t.
Proof.
  intros Hn (Hmap & _) Hc t. unfold decode_code. destruct (Z.leb_spec ch 0x7f); [done|].
  destruct (Z.leb_spec ch 0xff); [|done]. destruct (codec_facts n Hn) as (Hl & _).
  rewrite Hmap. unfold mbind, M_bind. rewrite array_item_dg by lia. by destruct (_ =? 65533).
Qed.

Section strings.
Context (n : Z) (Hn : 0 <= n < 22) (d : Codec) (info : EightBitCodecInfo).
Context (Hinfo : realizes (Z.to_nat n) info).

Let tables := codec_tables (Z.to_nat n).
Let strict := SLOT_MODE d =? MODE_STRICT.

Lemma eight_encode_spec s T :
  Forall wide_char (chars s) -> length T = length (chars s) ->
  yields (eight_encode_loop (length (chars s)) d info s 0 (MkStr false T))
    (match map_chars strict 63 (encode_char tables) (chars s) with
     | Some r => Ok (MkStr false r) | None => Raise EEncodeError end).
Proof using Hn Hinfo.
  intros Hs HT. pose proof (char_loop_spec (fun k i s0 => eight_encode_loop k d info s i s0)
    (encode_char tables) strict 63 EEncodeError false s) as H.
  apply (H ltac:(done)) with (pre := []) (T := []); try done; cycle 1.
  { intros ch x Hc Hx. apply (encode_char_byte (Z.to_nat n) ch); [lia|done|done]. }
  intros k i s0 ch Hc Hitem t. cbn [eight_encode_loop]. unfold mbind at 1, M_bind. rewrite Hitem.
  unfold mbind at 1, M_bind. unfold mbind at 2, M_bind.
  rewrite (eight_encode_step (Z.to_nat n) info (set_str_item s0 i)
    (if SLOT_MODE d =? MODE_STRICT then raise EEncodeError else set_str_item s0 i 63)) by (done || lia).
  done.
Qed.

Lemma eight_decode_spec s T :
  Forall wide_char (chars s) -> length T = length (chars s) ->
  yields (eight_decode_loop (length (chars s)) d (code_map info) s 0 (MkStr true T))
    (match map_chars strict 0xfffd (decode_code tables) (chars s) with
     | Some r => Ok (MkStr true r) | None => Raise EDecodeError end).
Proof using Hn Hinfo.
  intros Hs HT. pose proof (char_loop_spec (fun k i s0 => eight_decode_loop k d (code_map info) s i s0)
    (decode_code tables) strict 0xfffd EDecodeError true s) as H.
  apply (H ltac:(done)) with (pre := []) (T := []); try done; cycle 1.
  { intros ch x Hc Hx. apply (decode_code_wide (Z.to_nat n) ch); [lia|done|done]. }
  intros k i s0 ch Hc Hitem t. cbn [eight_decode_loop]. unfold mbind at 1, M_bind. rewrite Hitem.
  cbv zeta. unfold mbind at 1, M_bind. unfold mbind at 2, M_bind.
  rewrite (eight_decode_step (Z.to_nat n) info (set_str_item s0 i)
    (if SLOT_MODE d =? MODE_STRICT then raise EDecodeError else set_str_item s0 i 0xfffd)) by (done || lia).
  done.
Qed.

End strings.

(** Encoding and decoding with the encoding number [n]. *)
Lemma EightBitCodecEncode_spec n d cs s :
  0 <= n < 22 -> SLOT_ENCODING d = n -> codecs_ok cs -> Forall wide_char (chars s) -> zlen (chars s) < 2 ^ 31 ->
  sspec (EightBitCodecEncode d (Some s)) cs (fun r cs' =>
    r = (match map_chars (SLOT_MODE d =? MODE_STRICT) 63 (encode_char (codec_tables (Z.to_nat n))) (chars s) with
         | Some r => Ok (MkStr false r) | None => Raise EEncodeError end) /\ codecs_ok cs').
Proof.
  intros Hn He Hcs Hs Hl. eapply sspec_bind; [rewrite He; by apply codec_info_spec|]. intros info cs1 [Hi Hcs1].
  eapply (sspec_lift_bind _ _ _ (fun x => x = s)); [by apply returns_ret|]. intros ? ->.
  rewrite str_len_small by lia. cbv zeta. rewrite Nat2Z.id.
  eapply sspec_lift_bind; [apply empty_str_spec; lia|]. intros [w T] [Hw HT]. simpl in Hw, HT. subst w.
  eapply sspec_mono; [apply sspec_lift, (eight_encode_spec n Hn d info Hi s T Hs); lia|].
  by intros r cs' [-> ->].
Qed.

Lemma EightBitCodecDecode_spec n d cs s :
  0 <= n < 22 -> SLOT_ENCODING d = n -> codecs_ok cs -> Forall wide_char (chars s) -> zlen (chars s) < 2 ^ 31 ->
  sspec (EightBitCodecDecode d (Some s)) cs (fun r cs' =>
    r = (match map_chars (SLOT_MODE d =? MODE_STRICT) 0xfffd (decode_code (codec_tables (Z.to_nat n))) (chars s) with
         | Some r => Ok (MkStr true r) | None => Raise EDecodeError end) /\ codecs_ok cs').
Proof.
  intros Hn He Hcs Hs Hl. eapply sspec_bind; [rewrite He; by apply codec_info_spec|]. intros info cs1 [Hi Hcs1].
  eapply (sspec_lift_bind _ _ _ (fun x => x = s)); [by apply returns_ret|]. intros ? ->.
  rewrite str_len_small by lia. cbv zeta. rewrite Nat2Z.id.
  eapply sspec_lift_bind; [apply empty_str_spec; lia|]. intros [w T] [Hw HT]. simpl in Hw, HT. subst w.
  eapply sspec_mono; [apply sspec_lift, (eight_decode_spec n Hn d info Hi s T Hs); lia|].
  by intros r cs' [-> ->].
Qed.

(** C9: each of the 22 table-driven encodings maps a string character by
    character, whichever encodings have been expanded before: [encode] by
    [encode_char] and [decode] by [decode_code] of the encoding's tables, with
    an exception in the strict mode and a replacement otherwise where these
    are undefined; and the two maps are inverse to each other, so that either
    method undoes the other. *)
Theorem eight_bit_codecs_correct n d cs s
  (Hn : 0 <= n < 22) (He : SLOT_ENCODING d = n) (Hcs : codecs_ok cs)
  (Hs : Forall wide_char (chars s)) (Hl : zlen (chars s) < 2 ^ 31) :
  let tables := codec_tables (Z.to_nat n) in
  let strict := SLOT_MODE d =? MODE_STRICT in
  sspec (EightBitCodecEncode d (Some s)) cs (fun r cs' =>
    r = (match map_chars strict 63 (encode_char tables) (chars s) with
         | Some r => Ok (MkStr false r) | None => Raise EEncodeError end) /\ codecs_ok cs') /\
  sspec (EightBitCodecDecode d (Some s)) cs (fun r cs' =>
    r = (match map_chars strict 0xfffd (decode_code tables) (chars s) with
         | Some r => Ok (MkStr true r) | None => Raise EDecodeError end) /\ codecs_ok cs') /\
  forall ch b, wide_char ch -> byte b -> encode_char tables ch = Some b <-> decode_code tables b = Some ch.
Proof.
  split; [by apply EightBitCodecEncode_spec|]. split; [by apply EightBitCodecDecode_spec|].
  intros ch b. apply codec_bijection. lia.
Qed.

(** KOI8-R (encoding 20): the Cyrillic letter U+0430 is the code C1, U+20AC
    has no code. *)
Lemma eight_bit_codecs_correct_witness :
  (let d := MkCodec MODE_STRICT 20 [] in
   sspec (EightBitCodecEncode d (Some (MkStr true [65; 0x430]))) (replicate 22 None) (fun r cs' =>
     r = (match map_chars true 63 (encode_char (codec_tables 20)) [65; 0x430] with
          | Some r => Ok (MkStr false r) | None => Raise EEncodeError end) /\ codecs_ok cs')) /\
  encode_char (codec_tables 20) 0x430 = Some 0xc1 /\ encode_char (codec_tables 20) 0x20ac = None.
Proof.
  split; [|split; vm_compute; reflexivity].
  refine (proj1 (eight_bit_codecs_correct 20 (MkCodec MODE_STRICT 20 []) (replicate 22 None)
    (MkStr true [65; 0x430]) _ _ _ _ _)).
  - lia.
  - reflexivity.
  - split; [reflexivity|]. intros n info H. apply lookup_replicate_1 in H as [H _]. discriminate.
  - repeat constructor; unfold wide_char; lia.
  - simpl. lia.
Defined.

(** Latin-1: the codes are the characters below 256. *)
Definition latin1_char (c : Z) : option Z := if c <=? 0xff then Some c else None.

Lemma latin1_loop_spec d (e : exn) subst (w : bool) s T :
  Forall wide_char (chars s) -> length T = length (chars s) -> (if w then u16 subst else u8 subst) = subst ->
  yields (latin1_loop (length (chars s)) d e subst s 0 (MkStr w T))
    (match map_chars (SLOT_MODE d =? MODE_STRICT) subst latin1_char (chars s) with
     | Some r => Ok (MkStr w r) | None => Raise e end).
Proof.
  intros Hs HT Hsub. pose proof (char_loop_spec (fun k i s0 => latin1_loop k d e subst s i s0)
    latin1_char (SLOT_MODE d =? MODE_STRICT) subst e w s) as H.
  apply (H ltac:(done)) with (pre := []) (T := []); try done.
  - intros k i s0 ch Hc Hitem t. cbn [latin1_loop]. unfold mbind at 1, M_bind. rewrite Hitem.
    unfold latin1_char. destruct (ch <=? 0xff); [done|]. by destruct (SLOT_MODE d =? MODE_STRICT).
  - intros ch x Hc. unfold latin1_char, wide_char, u8, u16 in *. destruct (Z.leb_spec ch 0xff); [|done].
    intros [= ->]. destruct w; zsolve.
Qed.

Lemma Iso8859_1_spec d s :
  Forall wide_char (chars s) -> zlen (chars s) < 2 ^ 31 -> is_wide s = true ->
  yields (Iso8859_1Decode d (Some s))
    (match map_chars (SLOT_MODE d =? MODE_STRICT) 0xfffd latin1_char (chars s) with
     | Some r => Ok (MkStr true r) | None => Raise EDecodeError end) /\
  yields (Iso8859_1Encode d (Some s))
    (match map_chars (SLOT_MODE d =? MODE_STRICT) 63 latin1_char (chars s) with
     | Some r => Ok (MkStr false r) | None => Raise EEncodeError end).
Proof.
  intros Hs Hl Hw. destruct s as [w c]. simpl in Hw. subst w. cbn [Iso8859_1Decode Iso8859_1Encode].
  rewrite (str_len_small (MkStr true c) Hl), Nat2Z.id.
  split; (eapply spec_bind; [apply empty_str_spec; lia|]; intros [w T] [Hw HT]; simpl in Hw, HT; subst w;
    apply (latin1_loop_spec d _ _ _ (MkStr true c)); [done|simpl; lia|done]).
Qed.
