(* ===== verification/StrOps.v ===== *)
(** * StrOps: string objects and the operations of the runtime on them

    [std_str.c]: string objects (narrow, wide, and substrings of either), the
    construction of substrings, concatenation, repetition, comparison,
    conversion and hashing.  A fault is an access outside the characters of
    the block that a string object refers to. *)

From S2P Require Import Prelude Runtime Digits Value LongInt IntOps IntConv Sort.

Open Scope Z_scope.

(** ** String objects *)

(** A substring refers to the block of another string. *)
Inductive StrObj :=
  | NarrowStr (elem : list Z)
  | WideStr (elem : list Z)
  | SubStr (wide : bool) (elem : list Z) (ind len : Z).

Definition str_elem (s : StrObj) : list Z :=
  match s with NarrowStr e | WideStr e | SubStr _ e _ _ => e end.
Definition str_ind (s : StrObj) : Z :=
  match s with SubStr _ _ ind _ => ind | _ => 0 end.

Definition AStrLen (s : StrObj) : Z :=
  match s with NarrowStr e | WideStr e => zlen e | SubStr _ _ _ len => len end.

(** [AIsNarrowStr(s) || AIsNarrowSubStr(s)] *)
Definition AIsNarrow (s : StrObj) : bool :=
  match s with NarrowStr _ => true | WideStr _ => false | SubStr wide _ _ _ => negb wide end.

(** Character [i] of the block behind a string, counted from its start. *)
Definition char_at (s : StrObj) (i : Z) : M Z :=
  let k := str_ind s + i in
  if (0 <=? k) && (k <? zlen (str_elem s)) then mret (dg (str_elem s) k) else fault.

(** [ASetStrItem] on a string just created. *)
Definition set_char (s : StrObj) (i ch : Z) : M StrObj :=
  match s with
  | NarrowStr e => if (0 <=? i) && (i <? zlen e) then mret (NarrowStr (upd e i (u8 ch))) else fault
  | WideStr e => if (0 <=? i) && (i <? zlen e) then mret (WideStr (upd e i (u16 ch))) else fault
  | SubStr _ _ _ _ => fault
  end.

(** An uninitialised string of length [len]. *)
Definition new_str (wide : bool) (len : Z) : M StrObj :=
  if len <? 0 then fault
  else
    junk ← AAlloc (8 + if wide then 2 * len else len);
    let e := (fun i => (if wide then u16 else u8) (junk (Z.of_nat i))) <$> seq 0 (Z.to_nat len) in
    mret (if wide then WideStr e else NarrowStr e).

(** [AExpectStr(t, v)]; [None] is any object that is not a string. *)
Definition expect_str (v : option StrObj) : M StrObj :=
  match v with Some s => mret s | None => raise ETypeError end.

(** [AWrapObject(t, frame[0])] allocates an instance around the string.  The
    methods do not look at its result; where the allocation is refused the
    model ends the call with the exception that [AWrapObject] has raised. *)
Definition wrap : M unit := AAlloc 16 ≫= (fun _ => mret tt).

(** [AAppendArray(t, a, x)] *)
Definition AAppendArray {A} (a : list A) (x : A) : M (list A) :=
  barrier ≫= (fun _ => mret (a ++ [x])).

Definition A_SSIZE_T_MAX : Z := 2 ^ 63 - 1.

(** ** Copying *)

(** [ACopySubStr(dst, dstIndex, src, srcIndex, srcLen)]; the bytes of a wide
    string are not copied to a narrow one. *)
Fixpoint copy_chars (n : nat) (dst : StrObj) (dstIndex : Z) (src : StrObj) (srcIndex : Z) : M StrObj :=
  match n with
  | O => mret dst
  | S n => c ← char_at src srcIndex; dst ← set_char dst dstIndex c; copy_chars n dst (dstIndex + 1) src (srcIndex + 1)
  end.

Definition ACopySubStr (dst : StrObj) (dstIndex : Z) (src : StrObj) (srcIndex srcLen : Z) : M StrObj :=
  if srcLen <? 0 then fault
  else if AIsNarrow dst && negb (AIsNarrow src) then fault
  else copy_chars (Z.to_nat srcLen) dst dstIndex src srcIndex.

(** ** Conversion *)

(** Whether all characters fit a byte, from index [i]. *)
Fixpoint all_narrow (n : nat) (s : StrObj) (i : Z) : M bool :=
  match n with
  | O => mret true
  | S n => c ← char_at s i; if 0xff <? c then mret false else all_narrow n s (i + 1)
  end.

Definition AWideStringToNarrow (wide : StrObj) : M StrObj :=
  let len := AStrLen wide in
  ok ← all_narrow (Z.to_nat len) wide 0;
  if ok : bool then
    s ← new_str false len; copy_chars (Z.to_nat len) s 0 wide 0
  else raise EValueError.

Definition ANarrowStringToWide (narrow : StrObj) : M StrObj :=
  match narrow with
  | SubStr true _ _ _ => mret narrow
  | WideStr _ => fault
  | _ => s ← new_str true (AStrLen narrow); copy_chars (Z.to_nat (AStrLen narrow)) s 0 narrow 0
  end.

Definition AIsNarrowStringContents (s : StrObj) : M bool :=
  if AIsNarrow s then mret true else all_narrow (Z.to_nat (AStrLen s)) s 0.

Definition ANormalizeNarrowString (v : option StrObj) : M StrObj :=
  match v with
  | None => raise ETypeError
  | Some s =>
    match s with
    | NarrowStr _ => mret s
    | WideStr _ => AWideStringToNarrow s
    | SubStr true _ _ _ => AWideStringToNarrow s
    | SubStr false _ _ len => d ← new_str false len; copy_chars (Z.to_nat len) d 0 s 0
    end
  end.

(** ** Concatenation and repetition *)

Definition AConcatWideStrings (left right : StrObj) : M StrObj :=
  left ← (if AIsNarrow left then ANarrowStringToWide left else mret left);
  right ← (if AIsNarrow right then ANarrowStringToWide right else mret right);
  let leftLen := AStrLen left in
  let rightLen := AStrLen right in
  s ← new_str true (leftLen + rightLen);
  s ← copy_chars (Z.to_nat leftLen) s 0 left 0;
  copy_chars (Z.to_nat rightLen) s leftLen right 0.

(** [AConcatStrings(t, left, right)] on two strings. *)
Definition AConcatStrings (left right : StrObj) : M StrObj :=
  if AIsNarrow left then
    if AIsNarrow right then
      let leftLen := AStrLen left in
      let rightLen := AStrLen right in
      s ← new_str false (leftLen + rightLen);
      s ← copy_chars (Z.to_nat leftLen) s 0 left 0;
      copy_chars (Z.to_nat rightLen) s leftLen right 0
    else AConcatWideStrings left right
  else AConcatWideStrings left right.

(** The copies of [src] in [ARepeatString], from [dst] on. *)
Fixpoint repeat_loop (num : nat) (s : StrObj) (dst : Z) (src : StrObj) (len : Z) : M StrObj :=
  match num with
  | O => mret s
  | S num => s ← copy_chars (Z.to_nat len) s dst src 0; repeat_loop num s (dst + len) src len
  end.

(** [ARepeatString(t, strVal, num)].  A block of negative size is a fault, and
    so are the stores behind a wide result whose size was cut to 32 bits. *)
Definition ARepeatString (strVal : StrObj) (num : Z) : M StrObj :=
  let len := AStrLen strVal in
  if AIsNarrow strVal then
    let size := s64 (num * len) in
    s ← new_str false size;
    if 0 <? len then repeat_loop (Z.to_nat num) s 0 strVal len else mret s
  else
    let size := u32 (num * len * 2) in
    s ← new_str true (size / 2);
    if 0 <? len then repeat_loop (Z.to_nat num) s 0 strVal len else mret s.

(** ** Substrings *)

Definition A_MIN_SUBSTR_LEN : Z := 9.

(** The characters of a short substring, copied to a new string; the unrolled
    loop of the code copies up to 8 (wide: 4) characters, of which the length
    of the new string keeps [len]. *)
Definition copy_short (wide : bool) (elem : list Z) (begInd len : Z) : M StrObj :=
  AAlloc 16 ≫= (fun _ =>
  let e := take (Z.to_nat len) (drop (Z.to_nat begInd) elem) in
  if (0 <=? begInd) && (begInd + len <=? zlen elem)
  then mret (if wide then WideStr e else NarrowStr e) else fault).

(** The substring [begInd..endInd) of the block [elem], as a new string if it
    is short and as a substring object otherwise. *)
Definition make_substr (wide : bool) (elem : list Z) (begInd len : Z) : M StrObj :=
  if len <? (if wide then (A_MIN_SUBSTR_LEN + 1) / 2 else A_MIN_SUBSTR_LEN) then copy_short wide elem begInd len
  else if s32 len <? -1 then raise EIndexError
  else AAlloc 32 ≫= (fun _ => mret (SubStr wide elem begInd len)).

(** [ACreateSubStr(t, strVal, begInd, endInd)]. *)
Definition ACreateSubStr (strVal : StrObj) (begInd endInd : Z) : M StrObj :=
  let n := AStrLen strVal in
  let begInd := if begInd <? 0 then if n + begInd <? 0 then 0 else n + begInd else begInd in
  let endInd := if endInd <? 0 then n + endInd else if n <? endInd then n else endInd in
  let '(begInd, endInd) := if endInd <? begInd then (0, 0) else (begInd, endInd) in
  let len := endInd - begInd in
  match strVal with
  | NarrowStr e => make_substr false e begInd len
  | WideStr e => make_substr true e begInd len
  | SubStr wide e ind _ => make_substr wide e (begInd + ind) len
  end.

(** ** Comparison *)

(** The four comparison loops of [ACompareStrings], which differ in the types
    of the characters only. *)
Fixpoint compare_chars (fuel : nat) (s1 s2 : StrObj) (i len1 len2 : Z) : M Z :=
  if (0 <? len1) && (0 <? len2) then
    match fuel with
    | O => fault
    | S fuel =>
      c1 ← char_at s1 i; c2 ← char_at s2 i;
      if negb (c1 =? c2) then mret (c1 - c2) else compare_chars fuel s1 s2 (i + 1) (len1 - 1) (len2 - 1)
    end
  else mret (s32 (len1 - len2)).

(** [ACompareStrings(s1, s2)] on two strings. *)
Definition compare_strings (s1 s2 : StrObj) : M Z :=
  compare_chars (Z.to_nat (AStrLen s1)) s1 s2 0 (AStrLen s1) (AStrLen s2).

(** The order operators on strings ([ACompareOrder]). *)
Inductive AOperator := OPER_EQ | OPER_NEQ | OPER_LT | OPER_LTE | OPER_GT | OPER_GTE.

Definition ALtSatisfiesOp (op : AOperator) : bool := match op with OPER_LT | OPER_LTE | OPER_NEQ => true | _ => false end.
Definition AEqSatisfiesOp (op : AOperator) : bool := match op with OPER_EQ | OPER_LTE | OPER_GTE => true | _ => false end.
Definition AGtSatisfiesOp (op : AOperator) : bool := match op with OPER_GT | OPER_GTE | OPER_NEQ => true | _ => false end.

Definition compare_strings_order (left right : StrObj) (op : AOperator) : M bool :=
  result ← compare_strings left right;
  if result <? 0 then mret (ALtSatisfiesOp op)
  else if result =? 0 then mret (AEqSatisfiesOp op)
  else if negb (result =? A_CMP_FAIL) then mret (AGtSatisfiesOp op)
  else raise ETypeError.

(** ** Hashing *)

(** The three loops of [AStringHashValue]. *)
Fixpoint hash_chars (n : nat) (s : StrObj) (i hashValue : Z) : M Z :=
  match n with
  | O => mret hashValue
  | S n => c ← char_at s i; hash_chars n s (i + 1) (u32 (hashValue + u32 (u32 (hashValue * 32) + c)))
  end.

Definition str_hash_value (str : StrObj) : M Z :=
  h ← hash_chars (Z.to_nat (AStrLen str)) str 0 0; mret (AIntToValue h).
