(* ===== verification/StrMethods.v ===== *)
(** * StrMethods: the methods of std::Str

    [std_str.c]: the methods that search, count, replace, split, join and
    strip, the iterator, and the quoted representation.  An argument that is
    not a string is [None]; the object of the method is always a string. *)

From S2P Require Import Prelude Runtime Digits Value LongInt IntOps IntConv Sort StrOps.

Open Scope Z_scope.

(** ** Searching *)

(** The loop that [IsMatchAt], [Find] and [Count] share: whether the
    characters of [dst] from [j] on are those of [src] from [i + j] on. *)
Fixpoint match_from (fuel : nat) (src : StrObj) (i : Z) (dst : StrObj) (j dstLen : Z) : M bool :=
  if j <? dstLen then
    match fuel with
    | O => fault
    | S fuel =>
      c1 ← char_at src (i + j); c2 ← char_at dst j;
      if negb (c1 =? c2) then mret false else match_from fuel src i dst (j + 1) dstLen
    end
  else mret true.

Definition IsMatchAt (src : StrObj) (i : Z) (dst : StrObj) (dstLen : Z) : M bool :=
  match_from (Z.to_nat dstLen) src i dst 1 dstLen.

Fixpoint find_loop (fuel : nat) (str : StrObj) (i : Z) (substr : StrObj) (ch len1 len2 : Z) : M Z :=
  if i <=? len1 - len2 then
    match fuel with
    | O => fault
    | S fuel =>
      c ← char_at str i;
      if c =? ch then
        found ← IsMatchAt str i substr len2;
        if found : bool then mret i else find_loop fuel str (i + 1) substr ch len1 len2
      else find_loop fuel str (i + 1) substr ch len1 len2
    end
  else mret (-1).

Definition Find (str : StrObj) (i : Z) (substr : StrObj) : M Z :=
  let len1 := AStrLen str in
  let len2 := AStrLen substr in
  if len2 =? 0 then mret (if i <=? len1 then i else -1)
  else
    ch ← char_at substr 0;
    find_loop (Z.to_nat (len1 + 1)) str i substr ch len1 len2.

Fixpoint count_loop (fuel : nat) (str substr : StrObj) (ch len1 len2 max count i : Z) : M Z :=
  if i <=? len1 - len2 then
    match fuel with
    | O => fault
    | S fuel =>
      c ← char_at str i;
      if c =? ch then
        found ← IsMatchAt str i substr len2;
        if found : bool then
          if count + 1 =? max then mret (count + 1)
          else count_loop fuel str substr ch len1 len2 max (count + 1) (i + len2)
        else count_loop fuel str substr ch len1 len2 max count (i + 1)
      else count_loop fuel str substr ch len1 len2 max count (i + 1)
    end
  else mret count.

Definition Count (str substr : StrObj) (max : Z) : M Z :=
  let len1 := AStrLen str in
  let len2 := AStrLen substr in
  ch ← char_at substr 0;
  count_loop (Z.to_nat (len1 + 1)) str substr ch len1 len2 max 0 0.

Definition AStrLengthMethod (self : StrObj) : M AValue :=
  wrap ≫= (fun _ => AMakeInt64 (AStrLen self)).

Definition AStrCount (self : StrObj) (arg : option StrObj) : M AValue :=
  wrap ≫= (fun _ =>
  substr ← expect_str arg;
  n ← Count self substr A_SSIZE_T_MAX;
  AMakeInt64 n).

Definition AStrFind (self : StrObj) (arg : option StrObj) (start : option AValue) : M AValue :=
  wrap ≫= (fun _ =>
  substr ← expect_str arg;
  startIndex ← match start with
               | Some v => i ← AGetInt v; if i <? 0 then raise EValueError else mret i
               | None => mret 0
               end;
  index ← Find self startIndex substr;
  if 0 <=? index then AMakeInt64 index else AMakeInt (-1)).

Definition AStrIndex (self : StrObj) (arg : option StrObj) : M AValue :=
  wrap ≫= (fun _ =>
  substr ← expect_str arg;
  index ← Find self 0 substr;
  if 0 <=? index then AMakeInt64 index else raise EValueError).

(** [AIsInString(t, str, substr)]: the operator [in]. *)
Definition AIsInString (str : StrObj) (substr : option StrObj) : M Z :=
  match substr with
  | None => raise ETypeError
  | Some substr => index ← Find str 0 substr; mret (if 0 <=? index then AIntToValue 1 else AZero)
  end.

(** ** Prefixes and suffixes *)

Fixpoint prefix_loop (n : nat) (str prefix : StrObj) (i : Z) : M bool :=
  match n with
  | O => mret true
  | S n =>
    c1 ← char_at prefix i; c2 ← char_at str i;
    if negb (c1 =? c2) then mret false else prefix_loop n str prefix (i + 1)
  end.

Definition AStrStartsWith (self : StrObj) (arg : option StrObj) : M bool :=
  wrap ≫= (fun _ =>
  prefix ← expect_str arg;
  if AStrLen self <? AStrLen prefix then mret false
  else prefix_loop (Z.to_nat (AStrLen prefix)) self prefix 0).

Fixpoint suffix_loop (n : nat) (str suffix : StrObj) (len suffixLen i : Z) : M bool :=
  match n with
  | O => mret true
  | S n =>
    c1 ← char_at suffix (suffixLen - i); c2 ← char_at str (len - i);
    if negb (c1 =? c2) then mret false else suffix_loop n str suffix len suffixLen (i + 1)
  end.

Definition AStrEndsWith (self : StrObj) (arg : option StrObj) : M bool :=
  wrap ≫= (fun _ =>
  suffix ← expect_str arg;
  let len := AStrLen self in
  let suffixLen := AStrLen suffix in
  if len <? suffixLen then mret false
  else suffix_loop (Z.to_nat suffixLen) self suffix len suffixLen 1).

(** ** Stripping *)

Definition IS_SPLIT_SPACE (ch : Z) : bool := (ch =? 32) || (ch =? 10) || (ch =? 13) || (ch =? 9).

(** The first index from [i] on, below [len], whose character is not a space
    (also the loops of [AStrSplit] that skip a run of spaces). *)
Fixpoint skip_space (fuel : nat) (str : StrObj) (i len : Z) : M Z :=
  if i <? len then
    match fuel with
    | O => fault
    | S fuel => ch ← char_at str i; if negb (IS_SPLIT_SPACE ch) then mret i else skip_space fuel str (i + 1) len
    end
  else mret i.

Fixpoint skip_space_back (fuel : nat) (str : StrObj) (i1 i2 : Z) : M Z :=
  if i1 <? i2 then
    match fuel with
    | O => fault
    | S fuel => ch ← char_at str i2; if negb (IS_SPLIT_SPACE ch) then mret i2 else skip_space_back fuel str i1 (i2 - 1)
    end
  else mret i2.

Definition AStrStrip (self : StrObj) : M StrObj :=
  wrap ≫= (fun _ =>
  let len := AStrLen self in
  i1 ← skip_space (Z.to_nat len) self 0 len;
  i2 ← skip_space_back (Z.to_nat len) self i1 (len - 1);
  ACreateSubStr self i1 (i2 + 1)).

(** ** Replacing *)

(** The inner loop of [AStrReplace]: the next index, up to the last one where
    [src] could start, with the first character of [src]. *)
Fixpoint replace_scan (fuel : nat) (str : StrObj) (ch i last : Z) : M Z :=
  if i <=? last then
    match fuel with
    | O => fault
    | S fuel => c ← char_at str i; if negb (c =? ch) then replace_scan fuel str ch (i + 1) last else mret i
    end
  else mret i.

(** The main loop of [AStrReplace]; the result is the new string and the two
    indices.  The loop that stores the replacement is that of
    [copy_chars]. *)
Fixpoint replace_loop (fuel : nat) (str old new : StrObj) (ch origLen srcLen dstLen max : Z)
    (d : StrObj) (i j n : Z) : M (StrObj * Z * Z) :=
  if (i <=? origLen - srcLen) && (n <? max) then
    match fuel with
    | O => fault
    | S fuel =>
      let i0 := i in
      i ← replace_scan (Z.to_nat origLen) str ch i (origLen - srcLen);
      d ← ACopySubStr d j str i0 (i - i0);
      let j := j + (i - i0) in
      if origLen - srcLen <? i then mret (d, i, j)
      else
        found ← IsMatchAt str i old srcLen;
        if found : bool then
          d ← copy_chars (Z.to_nat dstLen) d j new 0;
          replace_loop fuel str old new ch origLen srcLen dstLen max d (i + srcLen) (j + dstLen) (n + 1)
        else
          d ← set_char d j ch;
          replace_loop fuel str old new ch origLen srcLen dstLen max d (i + 1) (j + 1) n
    end
  else mret (d, i, j).

(** The length of the result, [None] if nothing is to be replaced. *)
Definition replace_length (str old new : StrObj) (max : Z) : M (option Z) :=
  let origLen := AStrLen str in
  let srcLen := AStrLen old in
  let dstLen := AStrLen new in
  if negb (srcLen =? dstLen) then
    c ← Count str old max;
    if c =? 0 then mret None
    else
      let x := s64 ((dstLen - srcLen) * c) in
      if negb (Z.quot x c =? dstLen - srcLen) then raise ERuntimeError
      else
        let newLen := s64 (origLen + x) in
        if newLen <? 0 then raise ERuntimeError else mret (Some newLen)
  else mret (Some origLen).

Definition AStrReplace (self : StrObj) (arg1 arg2 : option StrObj) (max : option AValue) : M StrObj :=
  wrap ≫= (fun _ =>
  old ← expect_str arg1;
  new ← expect_str arg2;
  max ← match max with None => mret A_SSIZE_T_MAX | Some v => AGetInt v end;
  let origLen := AStrLen self in
  let srcLen := AStrLen old in
  if (srcLen =? 0) || (max <=? 0) then mret self
  else
    newLen ← replace_length self old new max;
    match newLen with
    | None => mret self
    | Some newLen =>
      d ← new_str (negb (AIsNarrow self && AIsNarrow old && AIsNarrow new)) newLen;
      ch ← char_at old 0;
      r ← replace_loop (Z.to_nat (origLen + 1)) self old new ch origLen srcLen (AStrLen new) max d 0 0 0;
      let '(d, i, j) := r in
      ACopySubStr d j self i (origLen - i)
    end).

(** ** Splitting *)

Fixpoint split_loop (fuel : nat) (str sep : StrObj) (ch strLen sepLen max : Z)
    (a : list StrObj) (n i0 i : Z) : M (list StrObj * Z) :=
  if i <=? strLen - sepLen then
    match fuel with
    | O => fault
    | S fuel =>
      c ← char_at str i;
      found ← (if c =? ch then m ← IsMatchAt str i sep sepLen; mret (m && (n <? max)) else mret false);
      if found : bool then
        ss ← ACreateSubStr str i0 i;
        a ← AAppendArray a ss;
        split_loop fuel str sep ch strLen sepLen max a (n + 1) (i + sepLen) (i + sepLen)
      else split_loop fuel str sep ch strLen sepLen max a n i0 (i + 1)
    end
  else mret (a, i0).

(** The loop over words; [None] in place of the start of the last part means
    that the string ended in a separator ([goto End]). *)
Fixpoint split_space_loop (fuel : nat) (str : StrObj) (strLen max : Z)
    (a : list StrObj) (n i0 i : Z) : M (list StrObj * option Z) :=
  if i <? strLen then
    match fuel with
    | O => fault
    | S fuel =>
      ch ← char_at str i;
      if IS_SPLIT_SPACE ch && (n <? max) then
        ss ← ACreateSubStr str i0 i;
        a ← AAppendArray a ss;
        i ← skip_space (Z.to_nat strLen) str (i + 1) strLen;
        if strLen <=? i then mret (a, None)
        else split_space_loop fuel str strLen max a (n + 1) i i
      else split_space_loop fuel str strLen max a n i0 (i + 1)
    end
  else mret (a, Some i0).

(** The separator: [None] for an omitted argument or [nil]. *)
Definition AStrSplit (self : StrObj) (sep : option (option StrObj)) (max : option AValue) : M (list StrObj) :=
  wrap ≫= (fun _ =>
  AAlloc 32 ≫= (fun _ =>
  let strLen := AStrLen self in
  max ← match max with Some v => AGetInt v | None => mret A_SSIZE_T_MAX end;
  r ← match sep with
      | Some v =>
        sep ← expect_str v;
        let sepLen := AStrLen sep in
        if sepLen =? 0 then raise EValueError
        else
          ch ← char_at sep 0;
          r ← split_loop (Z.to_nat (strLen + 1)) self sep ch strLen sepLen max [] 0 0 0;
          mret (r.1, Some r.2)
      | None =>
        i0 ← skip_space (Z.to_nat strLen) self 0 strLen;
        if strLen <=? i0 then mret ([], None)
        else split_space_loop (Z.to_nat strLen) self strLen max [] 0 i0 i0
      end;
  match r with
  | (a, None) => mret a
  | (a, Some i0) => ss ← ACreateSubStr self i0 strLen; AAppendArray a ss
  end)).

(** ** Joining *)

(** The items of the sequence are strings or other objects ([None]); [None]
    for the result is [AError]. *)
Definition str_item_of (v : option StrObj) : M StrObj :=
  match v with Some s => mret s | None => raise ETypeError end.

(** The loop that adds up the lengths. *)
Fixpoint join_length (n : nat) (i : Z) (a : sequence (option StrObj)) (isWide : bool) (strLen : Z)
    : M (option (bool * Z)) :=
  match n with
  | O => mret (Some (isWide, strLen))
  | S n =>
    v ← AGetItemAt a i;
    match v with
    | None => mret None
    | Some v =>
      s ← str_item_of v;
      join_length n (i + 1) a (isWide || negb (AIsNarrow s)) (s64 (strLen + AStrLen s))
    end
  end.

(** The loop that copies the strings. *)
Fixpoint join_copy (n : nat) (i : Z) (a : sequence (option StrObj)) (sep : StrObj) (len ti : Z) (d : StrObj)
    : M (option StrObj) :=
  match n with
  | O => mret (Some d)
  | S n =>
    v ← AGetItemAt a i;
    match v with
    | None => mret None
    | Some v =>
      s ← str_item_of v;
      d ← ACopySubStr d ti s 0 (AStrLen s);
      let ti := ti + AStrLen s in
      if (0 <? AStrLen sep) && (i <? len - 1) then
        d ← ACopySubStr d ti sep 0 (AStrLen sep);
        join_copy n (i + 1) a sep len (ti + AStrLen sep) d
      else join_copy n (i + 1) a sep len ti d
    end
  end.

(** [AStrJoin]; the item of a sequence of one item is returned as it is. *)
Definition AStrJoin (self : StrObj) (a : sequence (option StrObj)) : M (option (option StrObj)) :=
  wrap ≫= (fun _ =>
  let sepLen := AStrLen self in
  l ← ALen a;
  match l with
  | None => mret None
  | Some len =>
    if len <? 0 then mret None
    else
      let strLen := if 0 <? len then s64 ((len - 1) * sepLen) else 0 in
      r ← join_length (Z.to_nat len) 0 a (negb (AIsNarrow self)) strLen;
      match r with
      | None => mret None
      | Some (isWide, strLen) =>
        if len =? 1 then AGetItemAt a 0
        else
          d ← new_str isWide strLen;
          d ← join_copy (Z.to_nat len) 0 a self len 0 d;
          mret (match d with None => None | Some d => Some (Some d) end)
      end
  end).

(** [AJoin(t, sequence, separator)]; [None] is the default separator. *)
Definition AJoin (a : sequence (option StrObj)) (separator : option StrObj) : M (option (option StrObj)) :=
  AAllocTempStack 4 ≫= (fun _ =>
  sep ← match separator with Some s => mret s | None => new_str false 0 end;
  AStrJoin sep a).

(** ** Iteration and characters *)

Record StrIter := MkStrIter {
  STR_ITER_I : Z;
  STR_ITER_LEN : Z;
  STR_ITER_S : StrObj
}.

Definition AStrIterCreate (arg : option StrObj) : M StrIter :=
  s ← expect_str arg;
  barrier ≫= (fun _ => barrier ≫= (fun _ => barrier ≫= (fun _ =>
  mret (MkStrIter AZero (AIntToValue (AStrLen s)) s)))).

Definition AStrIterHasNext : SM StrIter bool :=
  it ← get; mret (STR_ITER_I it <? STR_ITER_LEN it).

(** A string of one character. *)
Definition AMakeCh (ch : Z) : M StrObj :=
  if ch <? 256 then s ← new_str false 1; set_char s 0 ch
  else s ← new_str true 1; set_char s 0 ch.

Definition AStrIterNext : SM StrIter StrObj :=
  it ← get;
  if STR_ITER_I it <? STR_ITER_LEN it then
    ch ← lift (char_at (STR_ITER_S it) (AValueToInt (STR_ITER_I it)));
    modify (fun it => MkStrIter (u64 (STR_ITER_I it + AIntToValue 1)) (STR_ITER_LEN it) (STR_ITER_S it)) ≫= (fun _ =>
    lift (AMakeCh ch))
  else lift (raise EValueError).

Definition AGetCh (v : option StrObj) : M Z :=
  match v with
  | Some s => if AStrLen s =? 1 then char_at s 0 else raise EValueError
  | None => raise ETypeError
  end.

(** [ACreateWideString(t, buf, len)]: narrow if all characters fit. *)
Definition ACreateWideString (buf : list Z) : M StrObj :=
  if existsb (fun c => 0xff <? c) buf then
    AAlloc (8 + 2 * zlen buf) ≫= (fun _ => mret (WideStr buf))
  else AAlloc (8 + zlen buf) ≫= (fun _ => mret (NarrowStr buf)).
