(* ===== verification/StrSpec.v ===== *)
(** * StrSpec: string objects as lists of characters

    The characters a string object stands for, whatever its representation,
    and the operations of [StrOps] in terms of them. *)

From S2P Require Import Prelude Runtime Digits Value LongInt Sort Encodings EncodingsSpec.
From S2P Require Import StrOps.

Open Scope Z_scope.

(** ** Characters *)

Definition str_chars (s : StrObj) : list Z :=
  match s with
  | NarrowStr e | WideStr e => e
  | SubStr _ e ind len => take (Z.to_nat len) (drop (Z.to_nat ind) e)
  end.

Definition fits (wide : bool) (c : Z) : Prop := if wide then wide_char c else byte c.

(** Well-formed string objects: characters of the width of the block, and
    substrings inside their block. *)
Definition str_ok (s : StrObj) : Prop :=
  Forall (fits (negb (AIsNarrow s))) (str_elem s) /\
  match s with SubStr _ e ind len => 0 <= ind /\ 0 <= len /\ ind + len <= zlen e | _ => True end.

(** The string of width [wide] with the characters [l]. *)
Definition mk (wide : bool) (l : list Z) : StrObj := if wide then WideStr l else NarrowStr l.

(** [represents s l]: [s] is a well-formed string with the characters [l]. *)
Definition represents (s : StrObj) (l : list Z) : Prop := str_ok s /\ str_chars s = l.

Lemma fits_wide w c : fits w c -> wide_char c.
Proof. destruct w; [done|]. unfold fits, byte, wide_char. lia. Qed.

Lemma fits_mono w w' c : (w = true -> w' = true) -> fits w c -> fits w' c.
Proof.
  destruct w, w'; simpl; try done; [by intros H; specialize (H eq_refl)|].
  intros _. unfold byte, wide_char. lia.
Qed.

Lemma cut_fits w c : fits w c -> (if w then u16 else u8) c = c.
Proof. destruct w; unfold fits, byte, wide_char, u16, u8; intros; apply Z.mod_small; lia. Qed.

Lemma AStrLen_chars s : str_ok s -> AStrLen s = zlen (str_chars s).
Proof.
  intros [_ Hs]. destruct s as [e|e|w e ind len]; simpl; [done..|].
  rewrite length_take, length_drop. lia.
Qed.

Lemma chars_fit s : str_ok s -> Forall (fits (negb (AIsNarrow s))) (str_chars s).
Proof.
  intros [Hf Hs]. destruct s as [e|e|w e ind len]; simpl in *; [done..|].
  by apply Forall_take, Forall_drop.
Qed.

Lemma represents_wide s l : represents s l -> Forall wide_char l.
Proof. intros [Hs <-]. eapply Forall_impl; [|by apply chars_fit]. intros c. apply fits_wide. Qed.

Lemma AIsNarrow_mk w l : AIsNarrow (mk w l) = negb w.
Proof. by destruct w. Qed.

Lemma chars_mk w l : str_chars (mk w l) = l.
Proof. by destruct w. Qed.

Lemma mk_ok w l : Forall (fits w) l -> str_ok (mk w l).
Proof. intros Hl. by destruct w. Qed.

Lemma represents_mk w l : Forall (fits w) l -> represents (mk w l) l.
Proof. intros Hl. split; [by apply mk_ok|apply chars_mk]. Qed.

(** Reading a character. *)
Lemma char_at_ok s i : str_ok s -> 0 <= i < AStrLen s -> evals (char_at s i) (dg (str_chars s) i).
Proof.
  intros [Hf Hs] Hi. unfold char_at.
  assert (Hb : 0 <= str_ind s + i < zlen (str_elem s)) by (destruct s; simpl in *; lia).
  rewrite in_bounds by done.
  replace (dg (str_chars s) i) with (dg (str_elem s) (str_ind s + i)); [apply evals_ret|].
  destruct s as [e|e|w e ind len]; simpl in *; [done..|].
  unfold dg. rewrite !nth_lookup, lookup_take_lt, lookup_drop by lia. do 2 f_equal. lia.
Qed.

Lemma char_at_lookup s l i c :
  represents s l -> l !! i = Some c -> evals (char_at s (Z.of_nat i)) c.
Proof.
  intros [Hs <-] Hc. pose proof (lookup_lt_Some _ _ _ Hc) as Hi.
  replace c with (dg (str_chars s) (Z.of_nat i)).
  - apply char_at_ok; [done|]. rewrite AStrLen_chars by done. lia.
  - unfold dg. by rewrite Nat2Z.id, (nth_lookup_Some _ _ _ _ Hc).
Qed.

(** ** New strings *)

Lemma new_str_spec w len :
  0 <= len ->
  returns (new_str w len) (fun s => exists l, s = mk w l /\ zlen l = len).
Proof.
  intros Hl. unfold new_str. test (len <? 0) false.
  eapply returns_bind; [apply AAlloc_spec|]. intros junk _. apply returns_ret.
  exists ((fun i => (if w then u16 else u8) (junk (Z.of_nat i))) <$> seq 0 (Z.to_nat len)).
  split; [by destruct w|]. rewrite length_fmap, length_seq. lia.
Qed.

(** A string that is being filled: [out] is written, the rest is not. *)
Lemma set_char_at w out x rest c :
  fits w c -> evals (set_char (mk w (out ++ x :: rest)) (zlen out) c) (mk w (out ++ c :: rest)).
Proof.
  intros Hc. assert (Hb : 0 <= zlen out < zlen (out ++ x :: rest)) by (rewrite length_app; simpl; lia).
  pose proof (cut_fits _ _ Hc) as Hcut.
  destruct w; unfold set_char, mk; rewrite in_bounds by done; rewrite Hcut, upd_at; apply evals_ret.
Qed.

(** The characters [xs] of [src], from [k] on, are copied behind [out]. *)
Lemma copy_chars_at w out xs rest src l k n :
  represents src l -> take n (drop k l) = xs -> length xs = n -> Forall (fits w) xs ->
  (n <= length rest)%nat ->
  evals (copy_chars n (mk w (out ++ rest)) (zlen out) src (Z.of_nat k)) (mk w (out ++ xs ++ drop n rest)).
Proof.
  intros Hsrc. revert out xs rest k. induction n as [|n IH]; intros out xs rest k Hx Hn Hf Hr.
  - destruct xs; [|done]. simpl. rewrite drop_0. apply evals_ret.
  - destruct xs as [|x xs]; [done|]. destruct rest as [|y rest]; [simpl in Hr; lia|].
    destruct (drop k l) as [|c l'] eqn:Hd; [done|]. cbn [take] in Hx.
    injection Hx as Hc Hx. subst c. simpl in Hn, Hr. apply Forall_cons_1 in Hf as [Hfx Hf].
    assert (Hl : l !! k = Some x) by (by rewrite <- (Nat.add_0_r k), <- lookup_drop, Hd).
    cbn [copy_chars]. eapply evals_bind; [by eapply char_at_lookup|].
    eapply evals_bind; [by apply set_char_at|].
    replace (out ++ x :: rest) with ((out ++ [x]) ++ rest) by (by rewrite <- app_assoc).
    replace (zlen out + 1) with (zlen (out ++ [x])) by (rewrite length_app; simpl; lia).
    replace (Z.of_nat k + 1) with (Z.of_nat (S k)) by lia.
    replace (out ++ (x :: xs) ++ drop (S n) (y :: rest)) with ((out ++ [x]) ++ xs ++ drop n rest)
      by (by rewrite <- app_assoc).
    apply IH; [|lia|done|lia].
    rewrite <- Hx. f_equal. replace (S k) with (k + 1)%nat by lia. by rewrite <- drop_drop, Hd.
Qed.

Lemma take_app_zlen (l1 l2 : list Z) : take (length l1) (l1 ++ l2) = l1.
Proof. apply take_app_length. Qed.

(** Copying a whole string. *)
Lemma copy_all_at w out rest src l :
  represents src l -> Forall (fits w) l -> (length l <= length rest)%nat ->
  evals (copy_chars (Z.to_nat (AStrLen src)) (mk w (out ++ rest)) (zlen out) src 0)
    (mk w (out ++ l ++ drop (length l) rest)).
Proof.
  intros Hsrc Hf Hr. pose proof Hsrc as [Hok Hl]. rewrite AStrLen_chars, Hl, Nat2Z.id by done.
  apply (copy_chars_at w out l rest src l 0 (length l)); [done| |done..].
  by rewrite drop_0, firstn_all2 by lia.
Qed.

Lemma copy_all w d src l :
  represents src l -> Forall (fits w) l -> length d = length l ->
  evals (copy_chars (Z.to_nat (AStrLen src)) (mk w d) 0 src 0) (mk w l).
Proof.
  intros Hsrc Hf Hd. pose proof (copy_all_at w [] d src l Hsrc Hf) as H. simpl app in H.
  rewrite drop_ge, app_nil_r in H by lia. apply H. lia.
Qed.

Lemma ACopySubStr_at w out rest src l k n :
  represents src l -> AIsNarrow src || w = true -> (k + n <= length l)%nat -> (n <= length rest)%nat ->
  evals (ACopySubStr (mk w (out ++ rest)) (zlen out) src (Z.of_nat k) (Z.of_nat n))
    (mk w (out ++ take n (drop k l) ++ drop n rest)).
Proof.
  intros Hsrc Hw Hk Hn. unfold ACopySubStr. test (_ <? 0) false.
  replace (AIsNarrow (mk w (out ++ rest)) && negb (AIsNarrow src)) with false
    by (rewrite AIsNarrow_mk; by destruct w, (AIsNarrow src)).
  rewrite Nat2Z.id. apply (copy_chars_at w out (take n (drop k l)) rest src l k n); [done..| | |done].
  - rewrite length_take, length_drop. lia.
  - apply Forall_take, Forall_drop. pose proof Hsrc as [Hok <-].
    eapply Forall_impl; [|by apply chars_fit]. intros c. apply fits_mono.
    by destruct (AIsNarrow src), w.
Qed.

(** ** Conversion, concatenation and repetition *)

Lemma ANarrowStringToWide_spec s l :
  AIsNarrow s = true -> represents s l ->
  returns (ANarrowStringToWide s) (fun d => represents d l /\ AIsNarrow d = false).
Proof.
  intros Hn Hs. pose proof Hs as [Hok Hl].
  assert (Hf : Forall (fits true) l).
  { subst l. eapply Forall_impl; [|by apply chars_fit]. intros c. apply fits_wide. }
  assert (H : returns (d ← new_str true (AStrLen s); copy_chars (Z.to_nat (AStrLen s)) d 0 s 0)
                (fun d => represents d l /\ AIsNarrow d = false)).
  { assert (Hlen : AStrLen s = zlen l) by (rewrite AStrLen_chars, Hl; done).
    eapply returns_bind; [apply new_str_spec; lia|]. intros d (e & -> & He).
    eapply evals_returns; [apply (copy_all true); [done..|lia]|].
    split; [by apply represents_mk|done]. }
  destruct s as [e|e|w e ind len]; [done..|]. by destruct w.
Qed.

Lemma to_wide s l :
  represents s l ->
  returns (if AIsNarrow s then ANarrowStringToWide s else mret s)
    (fun d => represents d l /\ AIsNarrow d = false).
Proof.
  intros Hs. destruct (AIsNarrow s) eqn:E; [by apply ANarrowStringToWide_spec|]. by apply returns_ret.
Qed.

(** Two strings copied one after the other into a new one. *)
Lemma concat_copy w a b la lb :
  represents a la -> represents b lb -> Forall (fits w) (la ++ lb) ->
  returns (d ← new_str w (AStrLen a + AStrLen b);
           d ← copy_chars (Z.to_nat (AStrLen a)) d 0 a 0;
           copy_chars (Z.to_nat (AStrLen b)) d (AStrLen a) b 0)
    (fun d => d = mk w (la ++ lb)).
Proof.
  intros Ha Hb Hf. apply Forall_app in Hf as [Hfa Hfb].
  assert (Hla : AStrLen a = zlen la) by (destruct Ha as [? <-]; by apply AStrLen_chars).
  assert (Hlb : AStrLen b = zlen lb) by (destruct Hb as [? <-]; by apply AStrLen_chars).
  eapply returns_bind; [apply new_str_spec; lia|]. intros d (e & -> & He).
  eapply returns_bind_evals; [apply (copy_all_at w [] e a la); [done..|lia]|]. rewrite app_nil_l, Hla.
  eapply evals_returns; [apply (copy_all_at w la _ b lb); [done..|rewrite length_drop; lia]|].
  rewrite drop_drop, drop_ge, app_nil_r by lia. done.
Qed.

Lemma AConcatStrings_spec a b la lb :
  represents a la -> represents b lb ->
  returns (AConcatStrings a b) (fun d => represents d (la ++ lb) /\ AIsNarrow d = AIsNarrow a && AIsNarrow b).
Proof.
  intros Ha Hb.
  assert (Hw : forall a b, represents a la -> represents b lb -> AIsNarrow a && AIsNarrow b = false ->
            returns (AConcatWideStrings a b)
              (fun d => represents d (la ++ lb) /\ AIsNarrow d = AIsNarrow a && AIsNarrow b)).
  { clear. intros a b Ha Hb ->. unfold AConcatWideStrings.
    eapply returns_bind; [by apply to_wide|]. intros a' [[Ha' Hla] Hna].
    eapply returns_bind; [by apply to_wide|]. intros b' [[Hb' Hlb] Hnb].
    eapply returns_mono; [apply (concat_copy true a' b' la lb); [done..|]|].
    - apply Forall_app. split; [rewrite <- Hla|rewrite <- Hlb];
        (eapply Forall_impl; [|by apply chars_fit]); intros c; apply fits_wide.
    - intros d ->. split; [|done]. apply represents_mk, Forall_app.
      split; [rewrite <- Hla|rewrite <- Hlb];
        (eapply Forall_impl; [|by apply chars_fit]); intros c; apply fits_wide. }
  unfold AConcatStrings. destruct (AIsNarrow a) eqn:Ea; [destruct (AIsNarrow b) eqn:Eb|].
  - destruct Ha as [Ha Hla], Hb as [Hb Hlb].
    assert (Hf : Forall (fits false) (la ++ lb)).
    { apply Forall_app. pose proof (chars_fit a Ha) as Hfa. pose proof (chars_fit b Hb) as Hfb.
      rewrite Ea in Hfa. rewrite Eb in Hfb. subst. done. }
    eapply returns_mono; [by apply (concat_copy false a b la lb)|].
    intros d ->. split; [by apply represents_mk|done].
  - eapply returns_mono; [apply Hw; [done..|by rewrite Ea, Eb]|]. by rewrite Ea, Eb.
  - eapply returns_mono; [apply Hw; [done..|by rewrite Ea]|]. by rewrite Ea.
Qed.

Lemma repeat_loop_at w n out rest src l :
  represents src l -> Forall (fits w) l -> (n * length l <= length rest)%nat ->
  evals (repeat_loop n (mk w (out ++ rest)) (zlen out) src (AStrLen src))
    (mk w (out ++ concat (replicate n l) ++ drop (n * length l) rest)).
Proof.
  intros Hs Hf. assert (Hl : AStrLen src = zlen l) by (destruct Hs as [? <-]; by apply AStrLen_chars).
  revert out rest. induction n as [|n IH]; intros out rest Hr; [apply evals_ret|].
  rewrite Nat.mul_succ_l in Hr.
  cbn [repeat_loop]. eapply evals_bind; [apply (copy_all_at w out rest src l); (done || lia)|].
  rewrite app_assoc. replace (zlen out + AStrLen src) with (zlen (out ++ l)) by (rewrite length_app; lia).
  change (replicate (S n) l) with (l :: replicate n l). cbn [concat].
  replace (out ++ (l ++ concat (replicate n l)) ++ drop (S n * length l) rest)
    with ((out ++ l) ++ concat (replicate n l) ++ drop (n * length l) (drop (length l) rest))
    by (rewrite drop_drop, <- !app_assoc; do 4 f_equal; lia).
  apply IH. rewrite length_drop. lia.
Qed.

(** The counts and lengths for which the size of the result is computed
    without wrap-around. *)
Definition repeat_fits (s : StrObj) (num : Z) : Prop :=
  0 <= num /\ num * AStrLen s < (if AIsNarrow s then 2 ^ 63 else 2 ^ 31).

Lemma repeat_copy w src l num :
  represents src l -> Forall (fits w) l -> 0 <= num ->
  returns (s ← new_str w (num * zlen l);
           if 0 <? AStrLen src then repeat_loop (Z.to_nat num) s 0 src (AStrLen src) else mret s)
    (fun d => represents d (concat (replicate (Z.to_nat num) l))).
Proof.
  intros Hs Hf Hn. assert (Hl : AStrLen src = zlen l) by (destruct Hs as [? <-]; by apply AStrLen_chars).
  assert (Hff : Forall (fits w) (concat (replicate (Z.to_nat num) l))).
  { induction (Z.to_nat num); simpl; [constructor|]. by apply Forall_app. }
  eapply returns_bind; [apply new_str_spec; nia|]. intros d (e & -> & He).
  destruct (Z.ltb_spec 0 (AStrLen src)).
  - eapply evals_returns; [apply (repeat_loop_at w _ [] e src l); [done..|nia]|].
    rewrite drop_ge, app_nil_l, app_nil_r by nia. by apply represents_mk.
  - assert (l = []) as -> by (destruct l; [done|simpl in *; lia]).
    apply returns_ret. replace e with (concat (replicate (Z.to_nat num) (@nil Z))); [by apply represents_mk|].
    assert (e = []) as -> by (destruct e; [done|simpl in *; lia]).
    clear. induction (Z.to_nat num) as [|n IH]; [done|]. exact IH.
Qed.

Lemma ARepeatString_spec s l num :
  represents s l -> repeat_fits s num ->
  returns (ARepeatString s num) (fun d => represents d (concat (replicate (Z.to_nat num) l))).
Proof.
  intros Hs [Hn Hfit]. pose proof Hs as [Hok Hl].
  assert (Hlen : AStrLen s = zlen l) by (rewrite AStrLen_chars, Hl; done).
  pose proof (chars_fit s Hok) as Hf. rewrite Hl in Hf. unfold ARepeatString.
  destruct (AIsNarrow s) eqn:E; rewrite Hlen at 1.
  - rewrite s64_small by nia. by apply (repeat_copy false s l num).
  - rewrite u32_small by nia. replace (num * zlen l * 2 / 2) with (num * zlen l) by zsolve.
    by apply (repeat_copy true s l num).
Qed.

(** ** Substrings *)

Definition slice (l : list Z) (b e : Z) : list Z := take (Z.to_nat (e - b)) (drop (Z.to_nat b) l).

(** The bounds of a slice: negative ones count from the end, and an empty
    slice results when the end is in front of the beginning. *)
Definition slice_beg (n b : Z) : Z := if b <? 0 then Z.max 0 (n + b) else b.
Definition slice_end (n e : Z) : Z := if e <? 0 then n + e else Z.min n e.

Lemma make_substr_spec w e b len :
  Forall (fits w) e -> 0 <= b -> 0 <= len -> b + len <= zlen e -> len < 2 ^ 31 ->
  returns (make_substr w e b len) (fun d => represents d (take (Z.to_nat len) (drop (Z.to_nat b) e))).
Proof.
  intros Hf Hb Hl He Hlen. unfold make_substr, copy_short. case_match.
  - eapply returns_bind; [apply AAlloc_spec|]. intros junk _. cbv zeta.
    test (0 <=? b) true. test (b + len <=? zlen e) true. apply returns_ret.
    by apply represents_mk, Forall_take, Forall_drop.
  - rewrite s32_small by lia. test (len <? -1) false.
    eapply returns_bind; [apply AAlloc_spec|]. intros junk _. apply returns_ret.
    split; [|done]. unfold str_ok. simpl. by rewrite negb_involutive.
Qed.

Lemma ACreateSubStr_spec s l b e :
  represents s l -> zlen l < 2 ^ 31 ->
  returns (ACreateSubStr s b e)
    (fun d => represents d (slice l (slice_beg (zlen l) b) (slice_end (zlen l) e))).
Proof.
  intros Hs Hl. pose proof Hs as [Hok <-]. pose proof (AStrLen_chars s Hok) as Hlen.
  set (n := zlen (str_chars s)) in *. unfold ACreateSubStr. rewrite Hlen.
  replace (if b <? 0 then if n + b <? 0 then 0 else n + b else b) with (slice_beg n b)
    by (unfold slice_beg; case_match; [|done]; destruct (Z.ltb_spec (n + b) 0); lia).
  replace (if e <? 0 then n + e else if n <? e then n else e) with (slice_end n e)
    by (unfold slice_end; case_match; [done|]; destruct (Z.ltb_spec n e); lia).
  cbv zeta. set (b' := slice_beg n b). set (e' := slice_end n e).
  assert (Hb0 : 0 <= b') by (unfold b', slice_beg; destruct (Z.ltb_spec b 0); lia).
  assert (He0 : e' <= n) by (unfold e', slice_end; destruct (Z.ltb_spec e 0); lia).
  assert (Hgen : forall b e, 0 <= b -> b <= e -> e <= n ->
            returns match s with
                    | NarrowStr e0 => make_substr false e0 b (e - b)
                    | WideStr e0 => make_substr true e0 b (e - b)
                    | SubStr wide e0 ind _ => make_substr wide e0 (b + ind) (e - b)
                    end (fun d => represents d (slice (str_chars s) b e))).
  { clear b e b' e' Hb0 He0. intros b e Hb Hbe He. subst n. destruct Hok as [Hf Hin].
    destruct s as [el|el|w el ind len]; cbn [str_chars str_elem AIsNarrow negb] in *.
    - apply (make_substr_spec false); (done || lia).
    - apply (make_substr_spec true); (done || lia).
    - rewrite negb_involutive in Hf. rewrite length_take, length_drop in *.
      eapply returns_mono; [apply make_substr_spec; (done || lia)|].
      intros d [Hd Hc]. split; [done|]. rewrite Hc. unfold slice.
      rewrite skipn_firstn_comm, drop_drop, take_take. f_equal; [|f_equal]; lia. }
  destruct (Z.ltb_spec e' b') as [Hlt|Hge].
  - eapply returns_mono; [apply (Hgen 0 0); lia|]. unfold slice.
    by replace (Z.to_nat (e' - b')) with (Z.to_nat (0 - 0)) by lia.
  - apply Hgen; lia.
Qed.

(** Between two indices inside the string. *)
Lemma ACreateSubStr_inside s l b e :
  represents s l -> zlen l < 2 ^ 31 -> 0 <= b -> b <= e -> e <= zlen l ->
  returns (ACreateSubStr s b e) (fun d => represents d (slice l b e)).
Proof.
  intros Hs Hl Hb Hbe He. eapply returns_mono; [by apply ACreateSubStr_spec|].
  unfold slice_beg, slice_end. test (b <? 0) false. test (e <? 0) false. by rewrite Z.min_r by lia.
Qed.

Lemma AAppendArray_spec {A} (a : list A) x : returns (AAppendArray a x) (fun r => r = a ++ [x]).
Proof. eapply returns_bind; [apply barrier_spec|]. intros. by apply returns_ret. Qed.
