(* ===== verification/StrSearch.v ===== *)
(** * StrSearch: occurrences, splitting and the loops that implement them

    The reference notions - occurrences of a string in another, the parts
    between non-overlapping occurrences - and the loops of [StrMethods] in
    terms of them. *)

From S2P Require Import Prelude Runtime Digits Value LongInt Sort Encodings EncodingsSpec.
From S2P Require Import StrOps StrMethods StrSpec.

Open Scope Z_scope.

(** ** Occurrences *)

Section occurrences.
Context (p : list Z).
Implicit Types l : list Z.

Definition occurs_at l (k : nat) : Prop := (k <= length l)%nat /\ p `prefix_of` drop k l.

#[export] Instance occurs_at_dec l k : Decision (occurs_at l k).
Proof. unfold occurs_at. apply _. Defined.

(** The first occurrence from index [i] on. *)
Definition first_at l (i k : nat) : Prop :=
  (i <= k)%nat /\ occurs_at l k /\ forall k', (i <= k')%nat -> occurs_at l k' -> (k <= k')%nat.

(** The parts of [l] between the first [max] non-overlapping occurrences. *)
Inductive split_of : Z -> list Z -> list (list Z) -> Prop :=
  | split_stop max l : max <= 0 \/ (forall k, ~ occurs_at l k) -> split_of max l [l]
  | split_cut max l k ps :
      0 < max -> first_at l 0 k -> split_of (max - 1) (drop (k + length p) l) ps ->
      split_of max l (take k l :: ps).

Lemma occurs_at_app l k : occurs_at l k <-> exists a b, l = a ++ p ++ b /\ length a = k.
Proof.
  unfold occurs_at. split.
  - intros [Hk [b Hb]]. exists (take k l), b. rewrite <- Hb, take_drop, length_take. split; [done|lia].
  - intros (a & b & -> & <-). rewrite length_app, drop_app_length. split; [lia|by exists b].
Qed.

Lemma occurs_at_bound l k : occurs_at l k -> (k + length p <= length l)%nat.
Proof. intros [Hk Hp]. apply prefix_length in Hp. rewrite length_drop in Hp. lia. Qed.

Lemma occurs_at_drop l i k : (i <= length l)%nat -> occurs_at (drop i l) k <-> occurs_at l (i + k).
Proof. intros. unfold occurs_at. rewrite drop_drop, length_drop. split; intros [? ?]; (split; [lia|done]). Qed.

Lemma first_at_drop l i k : (i <= length l)%nat -> first_at (drop i l) 0 k <-> first_at l i (i + k).
Proof.
  intros Hi. unfold first_at. rewrite occurs_at_drop by done. split; intros (_ & Hk & Hf).
  - split_and!; [lia|done|]. intros k' Hk' Ho. specialize (Hf (k' - i)%nat).
    rewrite occurs_at_drop in Hf by done. replace (i + (k' - i))%nat with k' in Hf by lia.
    specialize (Hf ltac:(lia) Ho). lia.
  - split_and!; [lia|done|]. intros k' _ Ho. rewrite occurs_at_drop in Ho by done.
    specialize (Hf (i + k')%nat ltac:(lia) Ho). lia.
Qed.

Lemma first_at_unique l i k k' : first_at l i k -> first_at l i k' -> k = k'.
Proof. intros (? & Ho & Hk) (? & Ho' & Hk'). specialize (Hk k' ltac:(lia) Ho'). specialize (Hk' k ltac:(lia) Ho). lia. Qed.

Lemma split_of_unique max l ps ps' : split_of max l ps -> split_of max l ps' -> ps = ps'.
Proof.
  intros H. revert ps'. induction H as [max l Hno|max l k ps Hm Hk Hs IH]; intros ps' H'; inversion H'; subst.
  - done.
  - destruct Hno as [?|Hno]; [lia|]. destruct H0 as (_ & Ho & _). by apply Hno in Ho.
  - destruct H as [?|Hno]; [lia|]. destruct Hk as (_ & Ho & _). by apply Hno in Ho.
  - assert (k = k0) as -> by (by apply (first_at_unique l 0)). f_equal. by apply IH.
Qed.

(** The parts with [sep] between them. *)
Fixpoint join_with (sep : list Z) (ps : list (list Z)) : list Z :=
  match ps with
  | [] => []
  | [x] => x
  | x :: ps => x ++ sep ++ join_with sep ps
  end.

Lemma split_of_nonempty max l ps : split_of max l ps -> ps <> [].
Proof. by inversion 1. Qed.

Lemma join_with_cons sep x ps : ps <> [] -> join_with sep (x :: ps) = x ++ sep ++ join_with sep ps.
Proof. by destruct ps. Qed.

Lemma join_with_length q x ps : (length x <= length (join_with q (x :: ps)))%nat.
Proof. destruct ps; simpl; [done|]. rewrite length_app. lia. Qed.

(** Joining the parts gives the string back. *)
Lemma split_of_join max l ps : split_of max l ps -> join_with p ps = l.
Proof.
  induction 1 as [max l _|max l k ps Hm (_ & [Hk Hp] & _) Hs IH]; [done|].
  rewrite join_with_cons by (by eapply split_of_nonempty). rewrite IH.
  destruct Hp as [b Hb]. rewrite <- (take_drop k l) at 3. f_equal. rewrite Hb, <- drop_drop, Hb.
  by rewrite drop_app_length.
Qed.

Lemma split_of_count max l ps : split_of max l ps -> zlen ps - 1 <= Z.max 0 max.
Proof. induction 1; simpl length; lia. Qed.

Lemma split_of_total max l : p <> [] -> exists ps, split_of max l ps.
Proof.
  intros Hp. remember (length l) as n eqn:E. assert (Hn : (length l <= n)%nat) by lia. clear E.
  revert max l Hn. induction n as [n IH] using lt_wf_ind. intros max l Hn.
  destruct (decide (max <= 0)) as [|Hm]; [exists [l]; apply split_stop; by left|].
  destruct (decide (Exists (occurs_at l) (seq 0 (S (length l))))) as [Hex|Hno].
  - assert (Hk : exists k, first_at l 0 k).
    { apply Exists_exists in Hex as (k & _ & Hk). clear IH.
      induction k as [k IHk] using lt_wf_ind.
      destruct (decide (Exists (occurs_at l) (seq 0 k))) as [Hex|Hno].
      - apply Exists_exists in Hex as (k' & Hin & Hk'). apply list_elem_of_In, elem_of_seq in Hin.
        apply (IHk k'); [lia|done].
      - exists k. split_and!; [lia|done|]. intros k' _ Hk'.
        destruct (decide (k <= k')%nat); [done|]. exfalso. apply Hno, Exists_exists.
        exists k'. split; [|done]. apply list_elem_of_In, elem_of_seq. lia. }
    destruct Hk as [k Hk]. pose proof Hk as (_ & Ho & _). apply occurs_at_bound in Ho.
    assert (Hlp : (0 < length p)%nat) by (destruct p; [done|simpl; lia]).
    destruct (IH (n - 1)%nat ltac:(lia) (max - 1) (drop (k + length p) l)) as [ps Hps];
      [rewrite length_drop; lia|].
    exists (take k l :: ps). apply split_cut; [lia|done|done].
  - exists [l]. apply split_stop. right. intros k Hk. apply Hno, Exists_exists.
    exists k. split; [|done]. apply list_elem_of_In, elem_of_seq. destruct Hk. lia.
Qed.

End occurrences.

Lemma take_extend (l : list Z) (s i i' : nat) :
  (s <= i <= i')%nat -> take (i' - s) (drop s l) = take (i - s) (drop s l) ++ take (i' - i) (drop i l).
Proof.
  intros H. replace (drop i l) with (drop (i - s) (drop s l)) by (rewrite drop_drop; f_equal; lia).
  rewrite <- (take_drop (i - s) (take (i' - s) (drop s l))), take_take, skipn_firstn_comm.
  f_equal; f_equal; lia.
Qed.

Lemma take_whole (l : list Z) (s i : nat) : (s <= i)%nat -> take (i - s) (drop s l) ++ drop i l = drop s l.
Proof.
  intros H. rewrite <- (take_drop (i - s) (drop s l)) at 2. rewrite drop_drop. do 2 f_equal. lia.
Qed.

(** ** The loops that search *)

Section search.
Context (str substr : StrObj) (l p : list Z) (ch : Z).
Hypothesis (Hl : represents str l) (Hp : represents substr p) (Hch : p !! 0%nat = Some ch).

Lemma match_from_spec fuel i j :
  (i + length p <= length l)%nat -> (j <= length p)%nat -> (length p - j <= fuel)%nat ->
  evals (match_from fuel str (Z.of_nat i) substr (Z.of_nat j) (zlen p))
    (bool_decide (drop j p `prefix_of` drop (i + j) l)).
Proof using Hl Hp.
  revert j. induction fuel as [|fuel IH]; intros j Hi Hj Hf; cbn [match_from].
  - assert (j = length p) as -> by lia. test (_ <? _) false.
    rewrite drop_all, bool_decide_true by apply prefix_nil. apply evals_ret.
  - destruct (decide (j = length p)) as [->|Hne].
    { test (_ <? _) false. rewrite drop_all, bool_decide_true by apply prefix_nil. apply evals_ret. }
    test (_ <? _) true.
    destruct (lookup_lt_is_Some_2 p j) as [a Ha]; [lia|].
    destruct (lookup_lt_is_Some_2 l (i + j)) as [b Hb]; [lia|].
    eapply evals_bind; [replace (Z.of_nat i + Z.of_nat j) with (Z.of_nat (i + j)) by lia; by eapply char_at_lookup|].
    eapply evals_bind; [by eapply char_at_lookup|].
    rewrite (drop_S p a j Ha), (drop_S l b (i + j) Hb).
    destruct (Z.eqb_spec b a) as [->|Hab]; simpl negb; cbv iota.
    + replace (bool_decide (a :: drop (S j) p `prefix_of` a :: drop (S (i + j)) l))
        with (bool_decide (drop (S j) p `prefix_of` drop (i + S j) l)).
      * replace (Z.of_nat j + 1) with (Z.of_nat (S j)) by lia. apply IH; lia.
      * replace (i + S j)%nat with (S (i + j)) by lia. apply bool_decide_ext. split.
        -- apply prefix_cons.
        -- apply prefix_cons_inv_2.
    + rewrite bool_decide_false; [apply evals_ret|]. intros H. by apply prefix_cons_inv_1 in H.
Qed.

(** One position: the first character, then the rest. *)
Lemma test_at i :
  (i + length p <= length l)%nat ->
  exists c, evals (char_at str (Z.of_nat i)) c /\
    if c =? ch then evals (IsMatchAt str (Z.of_nat i) substr (zlen p)) (bool_decide (occurs_at p l i))
    else ~ occurs_at p l i.
Proof using Hl Hp Hch.
  intros Hi. assert (Hpl : (0 < length p)%nat) by (by apply lookup_lt_Some in Hch).
  destruct (lookup_lt_is_Some_2 l i) as [c Hc]; [lia|].
  exists c. split; [by eapply char_at_lookup|].
  assert (Hpc : p = ch :: drop 1 p) by (by rewrite <- (drop_S p ch 0 Hch), drop_0).
  destruct (Z.eqb_spec c ch) as [->|Hne].
  - unfold IsMatchAt. rewrite Nat2Z.id.
    replace (bool_decide (occurs_at p l i)) with (bool_decide (drop 1 p `prefix_of` drop (i + 1) l)).
    + apply (match_from_spec (length p) i 1); lia.
    + apply bool_decide_ext. unfold occurs_at. rewrite (drop_S l ch i Hc), Nat.add_1_r. split.
      * intros H. split; [lia|]. rewrite Hpc. by apply prefix_cons.
      * intros [_ H]. rewrite Hpc in H. by apply prefix_cons_inv_2 in H.
  - intros [_ H]. rewrite (drop_S l c i Hc), Hpc in H. apply prefix_cons_inv_1 in H. done.
Qed.

Lemma no_occurrence_behind i k :
  (forall k, (i <= k)%nat -> occurs_at p l k -> (length l < k + length p)%nat) ->
  (i <= k)%nat -> ~ occurs_at p l k.
Proof. intros H Hk Ho. pose proof (H k Hk Ho). apply occurs_at_bound in Ho. lia. Qed.

(** What [Find] returns from index [i] on. *)
Definition find_result (i : nat) (r : Z) : Prop :=
  (r = -1 /\ forall k, (i <= k)%nat -> ~ occurs_at p l k) \/ exists k, r = Z.of_nat k /\ first_at p l i k.

Lemma find_result_skip i r : ~ occurs_at p l i -> find_result (S i) r -> find_result i r.
Proof.
  intros Hno [[-> H]|(k & -> & Hk & Ho & Hf)]; [left|right].
  - split; [done|]. intros k Hk Ho. destruct (decide (k = i)) as [->|]; [done|]. by apply (H k ltac:(lia)).
  - exists k. split_and!; [done|]. split_and!; [lia|done|]. intros k' Hk' Ho'.
    destruct (decide (k' = i)) as [->|]; [done|]. apply Hf; [lia|done].
Qed.

Lemma find_loop_spec fuel i :
  (length l + 1 <= fuel + i)%nat ->
  exists r, evals (find_loop fuel str (Z.of_nat i) substr ch (zlen l) (zlen p)) r /\ find_result i r.
Proof using Hl Hp Hch.
  assert (Hend : forall i, (length l < i + length p)%nat -> find_result i (-1)).
  { clear. intros i Hi. left. split; [done|]. intros k Hk Ho. apply occurs_at_bound in Ho. lia. }
  assert (Hpl : (0 < length p)%nat) by (by apply lookup_lt_Some in Hch).
  revert i. induction fuel as [|fuel IH]; intros i Hf; cbn [find_loop];
    (destruct (Z.leb_spec (Z.of_nat i) (zlen l - zlen p)); [|exists (-1); split; [apply evals_ret|apply Hend; lia]]).
  - lia.
  - destruct (test_at i) as (c & Hc & Ht); [lia|].
    destruct (IH (S i)) as (r & Hr & Hres); [lia|].
    replace (Z.of_nat (S i)) with (Z.of_nat i + 1) in Hr by lia.
    destruct (c =? ch) eqn:E.
    + destruct (bool_decide_reflect (occurs_at p l i)) as [Ho|Hno].
      * exists (Z.of_nat i). split.
        -- eapply evals_bind; [exact Hc|]. rewrite E. eapply evals_bind; [exact Ht|]. apply evals_ret.
        -- right. exists i. split; [done|]. by split_and!.
      * exists r. split; [|by apply find_result_skip].
        eapply evals_bind; [exact Hc|]. rewrite E. eapply evals_bind; [exact Ht|]. exact Hr.
    + exists r. split; [|by apply find_result_skip]. eapply evals_bind; [exact Hc|]. by rewrite E.
Qed.

(** No occurrence starts in [s, i). *)
Definition clear_of (s i : nat) : Prop := forall k, (s <= k < i)%nat -> ~ occurs_at p l k.

Lemma clear_of_step s i : clear_of s i -> ~ occurs_at p l i -> clear_of s (S i).
Proof. intros H Ho k Hk. destruct (decide (k = i)) as [->|]; [done|]. apply H. lia. Qed.

Lemma clear_first s i : (s <= i)%nat -> clear_of s i -> occurs_at p l i -> first_at p l s i.
Proof.
  intros Hs H Ho. split_and!; [lia|done|]. intros k Hk Hok.
  destruct (decide (i <= k)%nat); [done|]. exfalso. by apply (H k ltac:(lia)).
Qed.

Lemma clear_rest s i :
  (s <= i)%nat -> (s <= length l)%nat -> clear_of s i -> (length l < i + length p)%nat ->
  forall k, ~ occurs_at p (drop s l) k.
Proof.
  intros Hs Hsl H Hi k Ho. rewrite occurs_at_drop in Ho by done.
  destruct (decide (s + k < i)%nat); [by apply (H (s + k)%nat ltac:(lia))|].
  apply occurs_at_bound in Ho. lia.
Qed.

(** The parts from [s] on, when [i] is the first occurrence there. *)
Lemma split_of_at max s i ps :
  0 < max -> (s <= i)%nat -> clear_of s i -> occurs_at p l i ->
  split_of p (max - 1) (drop (i + length p) l) ps -> split_of p max (drop s l) (take (i - s) (drop s l) :: ps).
Proof.
  intros Hm Hs Hc Ho Hps. assert (Hil : (i <= length l)%nat) by (by destruct Ho).
  apply split_cut; [done| |].
  - apply first_at_drop; [lia|]. replace (s + (i - s))%nat with i by lia. by apply clear_first.
  - rewrite drop_drop. by replace (s + (i - s + length p))%nat with (i + length p)%nat by lia.
Qed.

Lemma count_loop_spec fuel max count s i :
  (length l + 1 <= fuel + i)%nat -> (s <= i)%nat -> (s <= length l)%nat -> clear_of s i -> 0 <= count < max ->
  exists ps, split_of p (max - count) (drop s l) ps /\
    evals (count_loop fuel str substr ch (zlen l) (zlen p) max count (Z.of_nat i)) (count + (zlen ps - 1)).
Proof using Hl Hp Hch.
  assert (Hpl : (0 < length p)%nat) by (by apply lookup_lt_Some in Hch).
  revert count s i. induction fuel as [|fuel IH]; intros count s i Hf Hs Hsl Hc Hm; cbn [count_loop];
    (destruct (Z.leb_spec (Z.of_nat i) (zlen l - zlen p));
     [|exists [drop s l]; split; [apply split_stop; right; apply (clear_rest s i); (done || lia)|
       simpl; rewrite Z.add_0_r; apply evals_ret]]).
  - lia.
  - destruct (test_at i) as (c & Hcc & Ht); [lia|].
    assert (Hskip : ~ occurs_at p l i -> exists ps, split_of p (max - count) (drop s l) ps /\
      evals (count_loop fuel str substr ch (zlen l) (zlen p) max count (Z.of_nat i + 1)) (count + (zlen ps - 1))).
    { intros Hno. replace (Z.of_nat i + 1) with (Z.of_nat (S i)) by lia.
      apply IH; [lia|lia|done|by apply clear_of_step|done]. }
    destruct (c =? ch) eqn:E.
    + destruct (bool_decide_reflect (occurs_at p l i)) as [Ho|Hno].
      * pose proof (occurs_at_bound _ _ _ Ho) as Hb. destruct (Z.eqb_spec (count + 1) max) as [Heq|Hne].
        -- exists [take (i - s) (drop s l); drop (i + length p) l]. split.
           ++ apply split_of_at; [lia|done..|]. apply split_stop. lia.
           ++ eapply evals_bind; [exact Hcc|]. rewrite E. eapply evals_bind; [exact Ht|]. cbv iota.
              replace (count + _) with (count + 1) by (simpl; lia). apply evals_ret.
        -- destruct (IH (count + 1) (i + length p)%nat (i + length p)%nat) as (ps & Hps & Hev);
             [lia|lia|lia|intros k Hk; lia|lia|].
           exists (take (i - s) (drop s l) :: ps). split.
           ++ apply split_of_at; [lia|done..|]. by replace (max - count - 1) with (max - (count + 1)) by lia.
           ++ eapply evals_bind; [exact Hcc|]. rewrite E. eapply evals_bind; [exact Ht|]. cbv iota.
              rewrite length_cons.
              replace (count + (Z.of_nat (S (length ps)) - 1)) with (count + 1 + (zlen ps - 1)) by lia.
              by replace (Z.of_nat i + zlen p) with (Z.of_nat (i + length p)) by lia.
      * destruct (Hskip Hno) as (ps & Hps & Hev). exists ps. split; [done|].
        eapply evals_bind; [exact Hcc|]. rewrite E. eapply evals_bind; [exact Ht|]. exact Hev.
    + destruct (Hskip Ht) as (ps & Hps & Hev). exists ps. split; [done|].
      eapply evals_bind; [exact Hcc|]. by rewrite E.
Qed.

(** ** Splitting *)

Hypothesis (Hlen : zlen l < 2 ^ 31).

Lemma split_loop_spec fuel max a n s i :
  (length l + 1 <= fuel + i)%nat -> (s <= i)%nat -> (s <= length l)%nat -> max - n <= 0 \/ clear_of s i ->
  returns (split_loop fuel str substr ch (zlen l) (zlen p) max a n (Z.of_nat s) (Z.of_nat i))
    (fun r => exists objs parts j, r = (a ++ objs, Z.of_nat j) /\ (j <= length l)%nat /\
      Forall2 represents objs parts /\ split_of p (max - n) (drop s l) (parts ++ [drop j l])).
Proof using Hl Hp Hch Hlen.
  assert (Hpl : (0 < length p)%nat) by (by apply lookup_lt_Some in Hch).
  revert a n s i. induction fuel as [|fuel IH]; intros a n s i Hf Hs Hsl Hc; cbn [split_loop];
    (destruct (Z.leb_spec (Z.of_nat i) (zlen l - zlen p));
     [|apply returns_ret; exists [], [], s; rewrite app_nil_r; split_and!; [done|done|constructor|];
       apply split_stop; destruct Hc as [?|Hc]; [by left|right]; apply (clear_rest s i); (done || lia)]).
  - lia.
  - destruct (test_at i) as (c & Hcc & Ht); [lia|].
    eapply returns_bind_evals; [exact Hcc|].
    set (hit := bool_decide (occurs_at p l i) && (n <? max)).
    eapply (returns_bind_evals _ _ hit).
    { destruct (c =? ch).
      - eapply evals_bind; [exact Ht|]. apply evals_ret.
      - unfold hit. rewrite bool_decide_false by done. apply evals_ret. }
    unfold hit. destruct (bool_decide_reflect (occurs_at p l i)) as [Ho|Hno];
      [destruct (Z.ltb_spec n max) as [Hnm|Hnm]|]; simpl andb; cbv iota.
    + pose proof (occurs_at_bound _ _ _ Ho) as Hb. destruct Hc as [?|Hc]; [lia|].
      eapply returns_bind; [apply (ACreateSubStr_inside str l); (done || lia)|]. intros d Hd.
      eapply returns_bind; [apply (AAppendArray_spec a d)|]. intros a' ->.
      replace (Z.of_nat i + zlen p) with (Z.of_nat (i + length p)) by lia.
      eapply returns_mono; [apply IH; [lia|lia|lia|right; intros k Hk; lia]|].
      intros r (objs & parts & j & -> & Hj & Hobjs & Hps).
      exists (d :: objs), (slice l (Z.of_nat s) (Z.of_nat i) :: parts), j.
      split_and!; [by rewrite <- app_assoc|done|by constructor|].
      simpl app. unfold slice. rewrite Nat2Z.id.
      replace (Z.to_nat (Z.of_nat i - Z.of_nat s)) with (i - s)%nat by lia.
      apply split_of_at; [lia|done..|]. by replace (max - n - 1) with (max - (n + 1)) by lia.
    + replace (Z.of_nat i + 1) with (Z.of_nat (S i)) by lia. apply IH; [lia|lia|done|left; lia].
    + replace (Z.of_nat i + 1) with (Z.of_nat (S i)) by lia. apply IH; [lia|lia|done|].
      destruct Hc as [?|Hc]; [by left|right]. by apply clear_of_step.
Qed.

(** ** Replacing *)

Lemma replace_scan_spec fuel i :
  (length l + 1 <= fuel + i + length p)%nat -> (i <= length l)%nat ->
  exists i', evals (replace_scan fuel str ch (Z.of_nat i) (zlen l - zlen p)) (Z.of_nat i') /\
    (i <= i' <= length l)%nat /\ clear_of i i' /\
    ((length l < i' + length p)%nat \/ (i' + length p <= length l)%nat /\ l !! i' = Some ch).
Proof using Hl Hp Hch.
  revert i. induction fuel as [|fuel IH]; intros i Hf Hi; cbn [replace_scan];
    (destruct (Z.leb_spec (Z.of_nat i) (zlen l - zlen p));
     [|exists i; split_and!; [apply evals_ret|lia..|intros k Hk; lia|left; lia]]).
  - lia.
  - assert (Hpl : (0 < length p)%nat) by (by apply lookup_lt_Some in Hch).
    destruct (lookup_lt_is_Some_2 l i) as [c Hc]; [lia|].
    destruct (test_at i) as (c' & Hcc & Ht); [lia|].
    assert (c' = c) as ->.
    { pose proof (char_at_lookup _ _ _ _ Hl Hc thread0) as H1. rewrite Hcc in H1. by simplify_eq. }
    destruct (c =? ch) eqn:E.
    + exists i. split_and!; [|lia..|intros k Hk; lia|].
      * eapply evals_bind; [exact Hcc|]. rewrite E. apply evals_ret.
      * right. split; [lia|]. by apply Z.eqb_eq in E as ->.
    + destruct (IH (S i)) as (i' & Hev & Hi' & Hcl & Hend); [lia..|].
      exists i'. split_and!; [|lia..| |done].
      * eapply evals_bind; [exact Hcc|]. rewrite E.
        by replace (Z.of_nat i + 1) with (Z.of_nat (S i)) by lia.
      * intros k Hk. destruct (decide (k = i)) as [->|]; [done|]. apply Hcl. lia.
Qed.

Lemma first_part_long max s i ps :
  (s <= i <= length l)%nat -> clear_of s i -> split_of p max (drop s l) ps ->
  exists x ps', ps = x :: ps' /\ (i - s <= length x)%nat.
Proof.
  intros Hi Hc Hps. inversion Hps as [? ? _|? ? k ps' _ Hk _]; subst.
  - exists (drop s l), []. split; [done|]. rewrite length_drop. lia.
  - exists (take k (drop s l)), ps'. split; [done|].
    assert (i - s <= k)%nat as Hle.
    { destruct (decide (i - s <= k)%nat); [done|]. exfalso. destruct Hk as (_ & Ho & _).
      rewrite occurs_at_drop in Ho by lia. apply (Hc (s + k)%nat); [lia|done]. }
    assert (Hkl : (k <= length (drop s l))%nat) by (by destruct Hk as (_ & [? _] & _)).
    rewrite length_take. lia.
Qed.

Context (new : StrObj) (q : list Z) (w : bool).
Hypothesis (Hq : represents new q) (Hfl : Forall (fits w) l) (Hfq : Forall (fits w) q).
Hypothesis (Hw : AIsNarrow str || w = true).

(** The text in front of position [i], when the part that starts at [s] is
    being copied and [out] is the text in front of it. *)
Definition written (out : list Z) (s i : nat) : list Z := out ++ take (i - s) (drop s l).

Lemma written_length out s i : (s <= i <= length l)%nat -> length (written out s i) = (length out + (i - s))%nat.
Proof. intros. unfold written. rewrite length_app, length_take, length_drop. lia. Qed.

(** The rest of the text, copied at the end, completes the result. *)
Lemma replace_end out s i rest ps max :
  (s <= i <= length l)%nat -> clear_of s i -> max <= 0 \/ (length l < i + length p)%nat ->
  split_of p max (drop s l) ps -> length (written out s i ++ rest) = length (out ++ join_with q ps) ->
  written out s i ++ drop i l = out ++ join_with q ps /\ length rest = length (drop i l).
Proof.
  intros Hi Hc He Hps Hr.
  assert (ps = [drop s l]) as ->.
  { apply (split_of_unique p max (drop s l)); [done|]. apply split_stop.
    destruct He as [?|He]; [by left|right]. apply (clear_rest s i); [lia..|done|done]. }
  rewrite length_app, written_length in Hr by done. unfold written. simpl in *.
  rewrite <- app_assoc, take_whole by lia. split; [done|].
  rewrite length_app, !length_drop in *. lia.
Qed.

(** One round up to the next candidate: scanning and copying. *)
Lemma replace_advance out s i rest ps max :
  (s <= i <= length l)%nat -> clear_of s i -> split_of p max (drop s l) ps ->
  length (written out s i ++ rest) = length (out ++ join_with q ps) ->
  exists i', evals (replace_scan (Z.to_nat (zlen l)) str ch (Z.of_nat i) (zlen l - zlen p)) (Z.of_nat i') /\
    evals (ACopySubStr (mk w (written out s i ++ rest)) (zlen (written out s i)) str (Z.of_nat i)
            (Z.of_nat i' - Z.of_nat i)) (mk w (written out s i' ++ drop (i' - i) rest)) /\
    zlen (written out s i) + (Z.of_nat i' - Z.of_nat i) = zlen (written out s i') /\
    (i <= i' <= length l)%nat /\ clear_of s i' /\
    length (written out s i' ++ drop (i' - i) rest) = length (out ++ join_with q ps) /\
    ((length l < i' + length p)%nat \/ (i' + length p <= length l)%nat /\ l !! i' = Some ch).
Proof using Hl Hp Hch Hw.
  intros Hi Hc Hps Hr. assert (Hpl : (0 < length p)%nat) by (by apply lookup_lt_Some in Hch).
  destruct (replace_scan_spec (Z.to_nat (zlen l)) i) as (i' & Hscan & Hi' & Hcl & Hat); [lia..|].
  assert (Hc' : clear_of s i').
  { intros k Hk. destruct (decide (k < i)%nat); [apply Hc; lia|apply Hcl; lia]. }
  destruct (first_part_long max s i' ps) as (x & ps' & -> & Hxlen); [lia|done|done|].
  pose proof (join_with_length q x ps') as Hjl.
  rewrite !length_app, written_length in Hr by lia.
  assert (Hwr : written out s i ++ take (i' - i) (drop i l) = written out s i')
    by (unfold written; rewrite <- app_assoc, <- take_extend by lia; done).
  exists i'. split_and!; [done| | |lia..|done| |done].
  - replace (Z.of_nat i' - Z.of_nat i) with (Z.of_nat (i' - i)) by lia. rewrite <- Hwr, <- app_assoc.
    apply (ACopySubStr_at w _ rest str l i (i' - i)); [done..|lia|lia].
  - rewrite !written_length by lia. lia.
  - rewrite !length_app, written_length, length_drop by lia. lia.
Qed.

(** At an occurrence: the part ends, and there is room for the replacement. *)
Lemma replace_hit out s i rest ps max :
  (s <= i)%nat -> clear_of s i -> occurs_at p l i -> 0 < max -> split_of p max (drop s l) ps ->
  length (written out s i ++ rest) = length (out ++ join_with q ps) ->
  exists ps', split_of p (max - 1) (drop (i + length p) l) ps' /\ (length q <= length rest)%nat /\
    out ++ join_with q ps = (written out s i ++ q) ++ join_with q ps'.
Proof.
  intros Hs Hc Ho Hm Hps Hr. pose proof (occurs_at_bound _ _ _ Ho) as Hb.
  inversion Hps as [? ? Hst|? ? k ps' _ Hk Hps']; subst ps.
  - destruct Hst as [?|Hst]; [lia|]. exfalso. apply (Hst (i - s)%nat).
    apply occurs_at_drop; [lia|]. by replace (s + (i - s))%nat with i by lia.
  - assert (k = i - s)%nat as ->.
    { apply (first_at_unique p (drop s l) 0 k (i - s)); [done|].
      apply first_at_drop; [lia|]. replace (s + (i - s))%nat with i by lia. by apply clear_first. }
    rewrite drop_drop in Hps'. replace (s + (i - s + length p))%nat with (i + length p)%nat in Hps' by lia.
    exists ps'. rewrite join_with_cons in Hr |- * by (by eapply split_of_nonempty).
    split_and!; [done| |unfold written; by rewrite <- !app_assoc].
    unfold written in Hr. rewrite !length_app in Hr. lia.
Qed.

(** At a position that only shares the first character. *)
Lemma replace_miss out s i rest ps max :
  (s <= i)%nat -> (i < length l)%nat -> clear_of s (S i) -> l !! i = Some ch -> split_of p max (drop s l) ps ->
  length (written out s i ++ rest) = length (out ++ join_with q ps) ->
  written out s (S i) = written out s i ++ [ch] /\ exists y rest', rest = y :: rest'.
Proof.
  intros Hs Hil Hc Hci Hps Hr. split.
  - unfold written. rewrite <- app_assoc. f_equal. rewrite (take_extend l s i (S i)) by lia. f_equal.
    rewrite (drop_S l ch i Hci). by replace (S i - i)%nat with 1%nat by lia.
  - destruct (first_part_long max s (S i) ps) as (x & ps' & -> & Hxlen); [lia|done|done|].
    pose proof (join_with_length q x ps') as Hjl.
    rewrite !length_app, written_length in Hr by lia. destruct rest; [cbn [length] in Hr; lia|]. by eexists _, _.
Qed.

Lemma replace_loop_spec fuel max n out s i rest ps :
  (length l + 1 <= fuel + i)%nat -> (s <= i <= length l)%nat -> clear_of s i ->
  split_of p (max - n) (drop s l) ps ->
  length (written out s i ++ rest) = length (out ++ join_with q ps) ->
  exists i' out' rest',
    evals (replace_loop fuel str substr new ch (zlen l) (zlen p) (zlen q) max
             (mk w (written out s i ++ rest)) (Z.of_nat i) (zlen (written out s i)) n)
      (mk w (out' ++ rest'), Z.of_nat i', zlen out') /\ (i' <= length l)%nat /\
    out' ++ drop i' l = out ++ join_with q ps /\ length rest' = length (drop i' l).
Proof using Hl Hp Hch Hq Hfl Hfq Hw.
  assert (Hpl : (0 < length p)%nat) by (by apply lookup_lt_Some in Hch).
  revert n out s i rest ps. induction fuel as [|fuel IH]; intros n out s i rest ps Hf Hi Hc Hps Hr;
    cbn [replace_loop].
  all: destruct ((Z.of_nat i <=? zlen l - zlen p) && (n <? max)) eqn:Hcond;
    [apply andb_prop in Hcond as [Hin%Z.leb_le Hnm%Z.ltb_lt]; try lia|
     exists i, (written out s i), rest;
     destruct (replace_end out s i rest ps (max - n)) as [H1 H2];
       [done|done|by apply andb_false_iff in Hcond as [H%Z.leb_gt|H%Z.ltb_ge]; [right|left]; lia|done..|];
     split_and!; [apply evals_ret|lia|done|done]].
  destruct (replace_advance out s i rest ps (max - n)) as (i' & Hscan & Hcopy & Hj & Hi' & Hc' & Hr' & Hat);
    [done..|]. set (rest1 := drop (i' - i) rest) in *.
  destruct Hat as [Hat|[Hat Hci]].
  { exists i', (written out s i'), rest1.
    destruct (replace_end out s i' rest1 ps (max - n)) as [H1 H2]; [lia|done|by right|done..|].
    split_and!; [|lia|done|done]. eapply evals_bind; [exact Hscan|]. eapply evals_bind; [exact Hcopy|].
    rewrite Hj. test (zlen l - zlen p <? Z.of_nat i') true. apply evals_ret. }
  destruct (test_at i') as (c & Hcc & Ht); [done|].
  assert (c = ch) as ->.
  { pose proof (char_at_lookup _ _ _ _ Hl Hci thread0) as H1. rewrite Hcc in H1. by simplify_eq. }
  rewrite Z.eqb_refl in Ht.
  destruct (bool_decide_reflect (occurs_at p l i')) as [Ho|Hno].
  - destruct (replace_hit out s i' rest1 ps (max - n)) as (ps' & Hps' & Hroom & Heq); [lia|done|done|lia|done..|].
    pose proof (copy_all_at w (written out s i') rest1 new q Hq Hfq Hroom) as Hput.
    replace (AStrLen new) with (zlen q) in Hput by (destruct Hq as [? <-]; by rewrite AStrLen_chars).
    rewrite app_assoc in Hput. set (out2 := written out s i' ++ q) in *.
    assert (Hw0 : written out2 (i' + length p) (i' + length p) = out2)
      by (unfold written; by rewrite Nat.sub_diag, take_0, app_nil_r).
    destruct (IH (n + 1) out2 (i' + length p)%nat (i' + length p)%nat (drop (length q) rest1) ps')
      as (i'' & out' & rest' & Hev & Hres).
    1-3: try lia. { intros k Hk. lia. } { by replace (max - (n + 1)) with (max - n - 1) by lia. }
    { rewrite Hw0, <- Heq, <- Hr'. unfold out2. rewrite !length_app, length_drop. lia. }
    exists i'', out', rest'. rewrite Heq. split; [|exact Hres].
    eapply evals_bind; [exact Hscan|]. eapply evals_bind; [exact Hcopy|].
    rewrite Hj. test (zlen l - zlen p <? Z.of_nat i') false.
    eapply evals_bind; [exact Ht|]. cbv iota. eapply evals_bind; [exact Hput|]. rewrite Hw0 in Hev.
    replace (Z.of_nat i' + zlen p) with (Z.of_nat (i' + length p)) by lia.
    replace (zlen (written out s i') + zlen q) with (zlen out2) by (unfold out2; rewrite length_app; lia).
    exact Hev.
  - assert (Hc2 : clear_of s (S i')) by (by apply clear_of_step).
    destruct (replace_miss out s i' rest1 ps (max - n)) as (Hw2 & y & rest2 & Hrest); [lia|lia|done..|].
    clearbody rest1. subst rest1.
    assert (Hfc : fits w ch) by (by apply (Forall_lookup_1 _ _ _ _ Hfl Hci)).
    pose proof (set_char_at w (written out s i') y rest2 ch Hfc) as Hset.
    destruct (IH n out s (S i') rest2 ps) as (i'' & out' & rest' & Hev & Hres);
      [lia|lia|done|done|rewrite <- Hr', Hw2, !length_app; simpl; lia|].
    exists i'', out', rest'. split; [|done].
    eapply evals_bind; [exact Hscan|]. eapply evals_bind; [exact Hcopy|].
    rewrite Hj. test (zlen l - zlen p <? Z.of_nat i') false.
    eapply evals_bind; [exact Ht|]. cbv iota. eapply evals_bind; [exact Hset|].
    rewrite Hw2, <- app_assoc, length_app in Hev. simpl app in Hev.
    replace (Z.of_nat i' + 1) with (Z.of_nat (S i')) by lia.
    replace (zlen (written out s i') + 1) with (Z.of_nat (length (written out s i') + length [ch])) by (simpl; lia).
    exact Hev.
Qed.

End search.
