(* ===== verification/StrMethodsSpec.v ===== *)
(** * StrMethodsSpec: the methods of Str in terms of their reference notions

    Searching, counting, replacing, splitting, joining and stripping of
    strings in any representation, and the order and hash of strings. *)

From S2P Require Import Prelude Runtime Digits Value LongInt IntOps IntConv Sort Encodings.
From S2P Require Import EncodingsSpec StrOps StrMethods StrSpec StrSearch.

Open Scope Z_scope.

(** ** Arguments and results *)

(** An optional integer argument with default [dflt] that stands for [z]. *)
Definition int_arg (v : option AValue) (dflt z : Z) : Prop :=
  match v with
  | None => z = dflt
  | Some v => int_repr v z /\ - 2 ^ 31 <= z < 2 ^ 31
  end.

Lemma AGetInt_returns v z : int_repr v z -> - 2 ^ 31 <= z < 2 ^ 31 -> returns (AGetInt v) (fun i => i = z).
Proof.
  intros Hv Hz. eapply spec_mono; [by apply AGetInt_spec|].
  replace (_ && _) with true by (symmetry; apply andb_true_intro; split; apply Z.leb_le; lia).
  by intros r ->.
Qed.

Lemma int_arg_returns v dflt z :
  int_arg v dflt z ->
  returns (match v with None => mret dflt | Some v => AGetInt v end) (fun i => i = z).
Proof. destruct v as [v|]; [intros []; by apply AGetInt_returns|]. intros ->. by apply returns_ret. Qed.

Lemma wrap_spec : returns wrap (fun _ => True).
Proof. eapply returns_bind; [apply AAlloc_spec|]. intros. by apply returns_ret. Qed.

Lemma represents_len s l : represents s l -> AStrLen s = zlen l.
Proof. intros [? <-]. by apply AStrLen_chars. Qed.

Lemma first_char (p : list Z) : p <> [] -> exists ch, p !! 0%nat = Some ch.
Proof. destruct p as [|c p]; [done|]. by exists c. Qed.

(** ** Searching *)

Lemma Find_spec str substr l p i :
  represents str l -> represents substr p ->
  exists r, evals (Find str (Z.of_nat i) substr) r /\ find_result l p i r.
Proof.
  intros Hl Hp. unfold Find. rewrite (represents_len _ _ Hl), (represents_len _ _ Hp).
  destruct p as [|ch p'].
  - exists (if Z.of_nat i <=? zlen l then Z.of_nat i else -1). split; [apply evals_ret|].
    destruct (Z.leb_spec (Z.of_nat i) (zlen l)); [right|left].
    + exists i. split; [done|]. split_and!; [lia| |done]. split; [lia|apply prefix_nil].
    + split; [done|]. intros k Hk [Hkl _]. lia.
  - set (p := ch :: p') in *. assert (Hch : p !! 0%nat = Some ch) by done.
    destruct (find_loop_spec str substr l p ch Hl Hp Hch (Z.to_nat (zlen l + 1)) i) as (r & Hr & Hres); [lia|].
    exists r. split; [|done].
    replace (zlen p =? 0) with false by (unfold p; rewrite length_cons; symmetry; apply Z.eqb_neq; lia).
    eapply evals_bind; [by apply (char_at_lookup substr p 0 ch)|]. exact Hr.
Qed.

Lemma find_result_nonneg l p i r :
  find_result l p i r -> (0 <= r /\ exists k, r = Z.of_nat k /\ first_at p l i k) \/
    (r = -1 /\ forall k, (i <= k)%nat -> ~ occurs_at p l k).
Proof. intros [H|(k & -> & H)]; [by right|]. left. split; [lia|by exists k]. Qed.

Lemma first_at_short p l i k : first_at p l i k -> zlen l < 2 ^ 31 -> - H64 <= Z.of_nat k < H64.
Proof. intros (_ & [? _] & _). lia. Qed.

Lemma AStrFind_spec self substr l p start i :
  represents self l -> represents substr p -> zlen l < 2 ^ 31 -> int_arg start 0 (Z.of_nat i) ->
  returns (AStrFind self (Some substr) start) (fun v => exists r, int_repr v r /\ find_result l p i r).
Proof.
  intros Hl Hp Hlen Hs. unfold AStrFind. eapply returns_bind; [apply wrap_spec|]. intros _ _.
  eapply returns_bind_evals; [apply evals_ret|].
  eapply (returns_bind _ _ (fun j => j = Z.of_nat i)).
  { destruct start as [v|]; [|simpl in Hs; rewrite Hs; by apply returns_ret].
    destruct Hs as [Hv Hi]. eapply returns_bind; [by apply AGetInt_returns|]. intros j ->.
    test (Z.of_nat i <? 0) false. by apply returns_ret. }
  intros j ->. destruct (Find_spec self substr l p i Hl Hp) as (r & Hr & Hres).
  eapply returns_bind_evals; [exact Hr|].
  destruct (find_result_nonneg _ _ _ _ Hres) as [(Hnn & k & -> & Hk)|[-> Hno]].
  - test (0 <=? Z.of_nat k) true. eapply returns_mono; [by apply AMakeInt64_spec, (first_at_short p l i)|].
    intros v Hv. by exists (Z.of_nat k).
  - apply returns_ret. exists (-1). split; [|done]. split; [done|]. unfold short_range, A_SHORT_INT_MIN, A_SHORT_INT_MAX. lia.
Qed.

Lemma AStrIndex_spec self substr l p :
  represents self l -> represents substr p -> zlen l < 2 ^ 31 ->
  (exists k, first_at p l 0 k /\ returns (AStrIndex self (Some substr)) (fun v => int_repr v (Z.of_nat k))) \/
  (forall k, ~ occurs_at p l k) /\ raises (AStrIndex self (Some substr)) EValueError.
Proof.
  intros Hl Hp Hlen. destruct (Find_spec self substr l p 0 Hl Hp) as (r & Hr & Hres).
  destruct (find_result_nonneg _ _ _ _ Hres) as [(Hnn & k & -> & Hk)|[-> Hno]]; [left|right].
  - exists k. split; [done|]. unfold AStrIndex. eapply returns_bind; [apply wrap_spec|]. intros _ _.
    eapply returns_bind_evals; [apply evals_ret|]. eapply returns_bind_evals; [exact Hr|].
    test (0 <=? Z.of_nat k) true. by apply AMakeInt64_spec, (first_at_short p l 0).
  - split; [intros k; apply Hno; lia|]. unfold AStrIndex. eapply spec_bind; [apply wrap_spec|]. intros _ _.
    eapply spec_bind_evals; [apply evals_ret|]. eapply spec_bind_evals; [exact Hr|]. by apply spec_raise.
Qed.

Lemma AIsInString_spec str substr l p :
  represents str l -> represents substr p ->
  exists b, evals (AIsInString str (Some substr)) (if b : bool then AIntToValue 1 else AZero) /\
    (b = true <-> exists k, occurs_at p l k).
Proof.
  intros Hl Hp. destruct (Find_spec str substr l p 0 Hl Hp) as (r & Hr & Hres).
  exists (0 <=? r). split; [eapply evals_bind; [exact Hr|apply evals_ret]|].
  destruct (find_result_nonneg _ _ _ _ Hres) as [(Hnn & k & -> & Hk)|[-> Hno]].
  - test (0 <=? Z.of_nat k) true. split; [|done]. intros _. exists k. apply Hk.
  - split; [done|]. intros [k Hk]. by apply (Hno k) in Hk; [|lia].
Qed.

Lemma prefix_loop_spec str prefix l p n i :
  represents str l -> represents prefix p -> (i + n = length p)%nat -> (length p <= length l)%nat ->
  evals (prefix_loop n str prefix (Z.of_nat i)) (bool_decide (drop i p `prefix_of` drop i l)).
Proof.
  intros Hl Hp. revert i. induction n as [|n IH]; intros i Hi Hpl; cbn [prefix_loop].
  - rewrite (drop_ge p) by lia. rewrite bool_decide_true by apply prefix_nil. apply evals_ret.
  - destruct (lookup_lt_is_Some_2 p i) as [a Ha]; [lia|]. destruct (lookup_lt_is_Some_2 l i) as [b Hb]; [lia|].
    eapply evals_bind; [by eapply char_at_lookup|]. eapply evals_bind; [by eapply char_at_lookup|].
    rewrite (drop_S p a i Ha), (drop_S l b i Hb).
    destruct (Z.eqb_spec a b) as [->|Hab]; simpl negb; cbv iota.
    + replace (bool_decide (_ `prefix_of` _)) with (bool_decide (drop (S i) p `prefix_of` drop (S i) l))
        by (apply bool_decide_ext; split; [apply prefix_cons|apply prefix_cons_inv_2]).
      replace (Z.of_nat i + 1) with (Z.of_nat (S i)) by lia. apply IH; lia.
    + rewrite bool_decide_false; [apply evals_ret|]. intros H. by apply prefix_cons_inv_1 in H.
Qed.

Lemma AStrStartsWith_spec self prefix l p :
  represents self l -> represents prefix p ->
  returns (AStrStartsWith self (Some prefix)) (fun b => b = bool_decide (p `prefix_of` l)).
Proof.
  intros Hl Hp. unfold AStrStartsWith. eapply returns_bind; [apply wrap_spec|]. intros _ _.
  eapply returns_bind_evals; [apply evals_ret|]. rewrite (represents_len _ _ Hl), (represents_len _ _ Hp).
  destruct (Z.ltb_spec (zlen l) (zlen p)).
  - apply returns_ret. rewrite bool_decide_false; [done|]. intros H1%prefix_length. lia.
  - rewrite Nat2Z.id.
    eapply evals_returns; [apply (prefix_loop_spec self prefix l p (length p) 0); [done|done|lia|lia]|].
    by rewrite !drop_0.
Qed.

Lemma suffix_loop_spec str suffix l p n i :
  represents str l -> represents suffix p -> (i + n = length p)%nat -> (length p <= length l)%nat ->
  evals (suffix_loop n str suffix (zlen l) (zlen p) (Z.of_nat i + 1))
    (bool_decide (take n p `suffix_of` take (length l - i) l)).
Proof.
  intros Hl Hp. revert i. induction n as [|n IH]; intros i Hi Hpl; cbn [suffix_loop].
  - rewrite take_0. rewrite bool_decide_true by apply suffix_nil. apply evals_ret.
  - destruct (lookup_lt_is_Some_2 p n) as [a Ha]; [lia|].
    destruct (lookup_lt_is_Some_2 l (length l - S i)) as [b Hb]; [lia|].
    eapply evals_bind; [replace (zlen p - _) with (Z.of_nat n) by lia; by eapply char_at_lookup|].
    eapply evals_bind;
      [replace (zlen l - _) with (Z.of_nat (length l - S i)) by lia; by eapply char_at_lookup|].
    replace (length l - i)%nat with (S (length l - S i)) by lia.
    rewrite (take_S_r p n a Ha), (take_S_r l _ b Hb).
    destruct (Z.eqb_spec a b) as [->|Hab]; simpl negb; cbv iota.
    + replace (bool_decide (_ `suffix_of` _)) with (bool_decide (take n p `suffix_of` take (length l - S i) l))
        by (apply bool_decide_ext; split; [apply suffix_snoc|apply suffix_snoc_inv_2]).
      replace (Z.of_nat i + 1) with (Z.of_nat (S i)) by lia. apply IH; lia.
    + rewrite bool_decide_false; [apply evals_ret|]. intros H. by apply suffix_snoc_inv_1 in H.
Qed.

Lemma AStrEndsWith_spec self suffix l p :
  represents self l -> represents suffix p ->
  returns (AStrEndsWith self (Some suffix)) (fun b => b = bool_decide (p `suffix_of` l)).
Proof.
  intros Hl Hp. unfold AStrEndsWith. eapply returns_bind; [apply wrap_spec|]. intros _ _.
  eapply returns_bind_evals; [apply evals_ret|]. cbv zeta.
  rewrite (represents_len _ _ Hl), (represents_len _ _ Hp). destruct (Z.ltb_spec (zlen l) (zlen p)).
  - apply returns_ret. rewrite bool_decide_false; [done|]. intros H1%suffix_length. lia.
  - rewrite Nat2Z.id.
    eapply evals_returns; [apply (suffix_loop_spec self suffix l p (length p) 0); [done|done|lia|lia]|].
    by rewrite Nat.sub_0_r, !firstn_all.
Qed.

(** ** Counting, splitting, replacing *)

Lemma clear_of_empty l p s : clear_of l p s s.
Proof. intros k Hk. lia. Qed.

Lemma Count_spec str substr l p max :
  represents str l -> represents substr p -> p <> [] -> 0 < max ->
  exists ps, split_of p max l ps /\ evals (Count str substr max) (zlen ps - 1).
Proof.
  intros Hl Hp Hne Hm. destruct (first_char p Hne) as [ch Hch].
  destruct (count_loop_spec str substr l p ch Hl Hp Hch (Z.to_nat (zlen l + 1)) max 0 0 0) as (ps & Hps & Hev);
    [lia|lia|lia|apply clear_of_empty|lia|].
  exists ps. rewrite Z.sub_0_r, drop_0 in Hps. split; [done|]. unfold Count.
  eapply evals_bind; [by apply (char_at_lookup substr p 0 ch)|].
  rewrite (represents_len _ _ Hl), (represents_len _ _ Hp). exact Hev.
Qed.

Lemma split_of_count_le p max l ps : split_of p max l ps -> (length ps - 1 <= length l)%nat \/ p = [].
Proof.
  destruct p as [|c p]; [by right|left].
  induction H as [max l _|max l k ps _ (_ & Ho & _) Hs IH]; simpl in *; [lia|].
  apply occurs_at_bound in Ho. rewrite length_drop in IH. simpl in *. lia.
Qed.

Lemma AStrCount_spec self substr l p :
  represents self l -> represents substr p -> p <> [] -> zlen l < 2 ^ 31 ->
  returns (AStrCount self (Some substr))
    (fun v => exists ps, split_of p A_SSIZE_T_MAX l ps /\ int_repr v (zlen ps - 1)).
Proof.
  intros Hl Hp Hne Hlen. unfold AStrCount. eapply returns_bind; [apply wrap_spec|]. intros _ _.
  eapply returns_bind_evals; [apply evals_ret|].
  destruct (Count_spec self substr l p A_SSIZE_T_MAX Hl Hp Hne) as (ps & Hps & Hev); [done|].
  eapply returns_bind_evals; [exact Hev|]. pose proof (split_of_nonempty _ _ _ _ Hps) as Hpn.
  assert (Hpl : (0 < length ps)%nat) by (destruct ps; [done|simpl; lia]).
  destruct (split_of_count_le _ _ _ _ Hps) as [Hc|?]; [|done].
  eapply returns_mono; [apply AMakeInt64_spec; lia|]. intros v Hv. by exists ps.
Qed.

Lemma AStrSplit_spec self sep l p max m :
  represents self l -> represents sep p -> p <> [] -> zlen l < 2 ^ 31 -> int_arg max A_SSIZE_T_MAX m ->
  returns (AStrSplit self (Some (Some sep)) max)
    (fun a => exists ps, split_of p m l ps /\ Forall2 represents a ps).
Proof.
  intros Hl Hp Hne Hlen Hm. destruct (first_char p Hne) as [ch Hch].
  unfold AStrSplit. eapply returns_bind; [apply wrap_spec|]. intros _ _.
  eapply returns_bind; [apply AAlloc_spec|]. intros _ _. cbv zeta.
  eapply returns_bind; [by apply (int_arg_returns max A_SSIZE_T_MAX m)|]. intros x ->.
  rewrite (represents_len _ _ Hl).
  eapply (returns_bind _ _ (fun r => exists objs parts j, r = (objs, Some (Z.of_nat j)) /\ (j <= length l)%nat /\
      Forall2 represents objs parts /\ split_of p m l (parts ++ [drop j l]))).
  { eapply returns_bind_evals; [apply evals_ret|]. rewrite (represents_len _ _ Hp).
    replace (zlen p =? 0) with false by (symmetry; apply Z.eqb_neq; destruct p; [done|simpl; lia]).
    eapply returns_bind_evals; [by apply (char_at_lookup sep p 0 ch)|].
    eapply returns_bind;
      [apply (split_loop_spec self sep l p ch Hl Hp Hch Hlen (Z.to_nat (zlen l + 1)) m [] 0 0 0);
       [lia|lia|lia|right; apply clear_of_empty]|].
    intros r (objs & parts & j & -> & Hj & Hobjs & Hps). apply returns_ret.
    rewrite Z.sub_0_r, drop_0 in Hps. by exists objs, parts, j. }
  intros r (objs & parts & j & -> & Hj & Hobjs & Hps).
  eapply returns_bind; [apply (ACreateSubStr_inside self l); (done || lia)|]. intros d Hd.
  eapply returns_mono; [apply AAppendArray_spec|]. intros a ->. exists (parts ++ [drop j l]). split; [done|].
  apply Forall2_app; [done|]. constructor; [|constructor]. unfold slice in Hd. rewrite Nat2Z.id in Hd.
  rewrite firstn_all2 in Hd by (rewrite length_drop; lia). done.
Qed.

(** The length of a text in which the separators are replaced. *)
Lemma join_with_len q ps :
  ps <> [] -> zlen (join_with q ps) = zlen (concat ps) + zlen q * (zlen ps - 1).
Proof.
  induction ps as [|x ps IH]; [done|]. intros _. destruct ps as [|y ps].
  - simpl. rewrite app_nil_r. lia.
  - rewrite join_with_cons by done. specialize (IH ltac:(done)). cbn [concat] in *.
    rewrite !length_app, !length_cons in *. lia.
Qed.

Lemma replace_length_spec str old new l p q max :
  represents str l -> represents old p -> represents new q -> p <> [] -> 0 < max ->
  zlen l < 2 ^ 31 -> zlen q < 2 ^ 31 ->
  exists ps, split_of p max l ps /\
    (evals (replace_length str old new max) (Some (zlen (join_with q ps))) \/
     evals (replace_length str old new max) None /\ join_with q ps = l).
Proof.
  intros Hl Hp Hq Hne Hm Hll Hql. destruct (Count_spec str old l p max Hl Hp Hne Hm) as (ps & Hps & Hev).
  exists ps. split; [done|]. pose proof (split_of_nonempty _ _ _ _ Hps) as Hpn.
  assert (Hpl : (0 < length ps)%nat) by (destruct ps; [done|simpl; lia]).
  assert (Hcl : (length p <= length l)%nat \/ length ps = 1%nat).
  { inversion Hps as [|? ? k ps' _ (_ & Ho & _)]; subst; [by right|left]. apply occurs_at_bound in Ho. lia. }
  pose proof (join_with_len p ps Hpn) as Hjp. rewrite (split_of_join _ _ _ _ Hps) in Hjp.
  pose proof (join_with_len q ps Hpn) as Hjq.
  destruct (split_of_count_le _ _ _ _ Hps) as [Hc|?]; [|done].
  unfold replace_length.
  rewrite (represents_len _ _ Hl), (represents_len _ _ Hp), (represents_len _ _ Hq). cbv zeta.
  destruct (Z.eqb_spec (zlen p) (zlen q)) as [He|He]; simpl negb; cbv iota.
  { left. replace (zlen (join_with q ps)) with (zlen l) by nia. apply evals_ret. }
  destruct (Z.eqb_spec (zlen ps - 1) 0) as [H0|H0].
  { right. split.
    - eapply evals_bind; [exact Hev|]. rewrite H0. apply evals_ret.
    - destruct ps as [|x [|y ps]]; [done| |simpl in H0; lia]. apply split_of_join in Hps. done. }
  left. eapply evals_bind; [exact Hev|]. rewrite (proj2 (Z.eqb_neq _ _) H0).
  assert (Hx : - 2 ^ 62 < (zlen q - zlen p) * (zlen ps - 1) < 2 ^ 62) by nia.
  rewrite s64_small by lia. rewrite Z.quot_mul, Z.eqb_refl by lia. simpl negb. cbv iota.
  replace (zlen l + (zlen q - zlen p) * (zlen ps - 1)) with (zlen (join_with q ps)) by nia.
  rewrite s64_small by nia. test (zlen (join_with q ps) <? 0) false. apply evals_ret.
Qed.

Lemma join_fits w p q max l ps :
  split_of p max l ps -> Forall (fits w) l -> Forall (fits w) q -> Forall (fits w) (join_with q ps).
Proof.
  intros Hps Hfl Hfq. assert (Hparts : Forall (Forall (fits w)) ps).
  { clear -Hps Hfl. induction Hps as [|? ? ? ? ? ? ? IH]; constructor; [done|constructor|by apply Forall_take|].
    apply IH. by apply Forall_drop. }
  clear -Hparts Hfq. induction ps as [|x [|y ps] IH]; [constructor|by apply Forall_cons_1 in Hparts as [? _]|].
  apply Forall_cons_1 in Hparts as [Hx Hy]. rewrite join_with_cons by done. rewrite !Forall_app. auto.
Qed.

Lemma fits_result w s x : represents s x -> (AIsNarrow s = false -> w = true) -> Forall (fits w) x.
Proof.
  intros [Hs <-] Hsw. eapply Forall_impl; [|by apply chars_fit]. intros c. apply fits_mono.
  destruct (AIsNarrow s); [done|]. intros _. by apply Hsw.
Qed.

Lemma AStrReplace_spec self old new l p q max m :
  represents self l -> represents old p -> represents new q -> zlen l < 2 ^ 31 -> zlen q < 2 ^ 31 ->
  int_arg max A_SSIZE_T_MAX m ->
  returns (AStrReplace self (Some old) (Some new) max)
    (fun d => exists r, represents d r /\
       if decide (p = []) then r = l else exists ps, split_of p m l ps /\ r = join_with q ps).
Proof.
  intros Hl Hp Hq Hll Hql Hm. unfold AStrReplace. eapply returns_bind; [apply wrap_spec|]. intros _ _.
  do 2 (eapply returns_bind_evals; [apply evals_ret|]).
  eapply returns_bind; [by apply (int_arg_returns max A_SSIZE_T_MAX m)|]. intros x ->. cbv zeta.
  rewrite (represents_len _ _ Hl), (represents_len _ _ Hp).
  destruct (decide (p = [])) as [->|Hne]; [apply returns_ret; by exists l|].
  replace (zlen p =? 0) with false by (symmetry; apply Z.eqb_neq; destruct p; [done|simpl; lia]).
  destruct (Z.leb_spec m 0) as [Hm0|Hm0]; simpl orb; cbv iota.
  { apply returns_ret. exists l. split; [done|]. exists [l]. split; [|done]. apply split_stop. by left. }
  destruct (replace_length_spec self old new l p q m) as (ps & Hps & Hev); [done..|].
  destruct Hev as [Hev|[Hev Heq]]; (eapply returns_bind_evals; [exact Hev|]).
  2: { apply returns_ret. exists l. split; [done|]. by exists ps. }
  eapply returns_bind; [apply new_str_spec; lia|].
  set (w := negb (AIsNarrow self && AIsNarrow old && AIsNarrow new)). intros d (e & -> & He).
  destruct (first_char p Hne) as [ch Hch].
  eapply returns_bind_evals; [by apply (char_at_lookup old p 0 ch)|].
  assert (Hfl : Forall (fits w) l) by (apply (fits_result w self); [done|]; unfold w; by intros ->).
  assert (Hfq : Forall (fits w) q).
  { apply (fits_result w new); [done|]. unfold w. intros ->. by rewrite andb_false_r. }
  assert (Hw : AIsNarrow self || w = true) by (unfold w; by destruct (AIsNarrow self)).
  rewrite (represents_len _ _ Hq).
  destruct (replace_loop_spec self old l p ch Hl Hp Hch new q w Hq Hfl Hfq Hw (Z.to_nat (zlen l + 1)) m 0 []
    0 0 e ps) as (i' & out & rest & Hloop & Hi & Hout & Hrest);
    [lia|lia|apply clear_of_empty|by rewrite Z.sub_0_r, drop_0|simpl; lia|].
  eapply returns_bind_evals; [exact Hloop|]. simpl.
  replace (zlen l - Z.of_nat i') with (Z.of_nat (length l - i')) by lia.
  eapply evals_returns; [apply (ACopySubStr_at w out rest self l i' (length l - i')); [done..|lia|]|].
  { rewrite Hrest, length_drop. lia. }
  exists (join_with q ps). split; [|by exists ps].
  rewrite (firstn_all2 (drop i' l)) by (rewrite length_drop; lia).
  rewrite (drop_ge rest), app_nil_r by (rewrite Hrest, length_drop; lia). simpl in Hout. rewrite Hout.
  apply represents_mk. rewrite <- Hout. apply Forall_app. split; [|by apply Forall_drop].
  pose proof (join_fits w p q m l ps Hps Hfl Hfq) as Hall. rewrite <- Hout in Hall.
  by apply Forall_app in Hall as [? _].
Qed.

(** ** Joining *)

Section join.
Context (sep : StrObj) (q : list Z) (a : sequence (option StrObj)) (objs : list StrObj).
Hypothesis (Hsep : represents sep q) (Ha : holds a (Some <$> objs)).

Lemma join_item i o : objs !! i = Some o -> returns (AGetItemAt a (Z.of_nat i)) (fun r => r = Some (Some o)).
Proof using Ha. intros Ho. apply Ha. by rewrite list_lookup_fmap, Ho. Qed.

Definition total_len (l : list StrObj) : Z := foldr (fun o n => AStrLen o + n) 0 l.

Lemma total_len_nonneg l ps : Forall2 represents l ps -> 0 <= total_len l.
Proof. induction 1 as [|o x l ps Ho _ IH]; simpl; [lia|]. rewrite (represents_len _ _ Ho). lia. Qed.

Lemma join_length_spec n i ps wide len :
  (i + n = length objs)%nat -> Forall2 represents (drop i objs) ps -> 0 <= len ->
  len + total_len (drop i objs) < H64 ->
  returns (join_length n (Z.of_nat i) a wide len)
    (fun r => r = Some (wide || existsb (fun o => negb (AIsNarrow o)) (drop i objs), len + total_len (drop i objs))).
Proof using Ha.
  revert i ps wide len. induction n as [|n IH]; intros i ps wide len Hi Hps Hlen Hmax; cbn [join_length].
  - rewrite drop_ge by lia. apply returns_ret. simpl. by rewrite orb_false_r, Z.add_0_r.
  - destruct (lookup_lt_is_Some_2 objs i) as [o Ho]; [lia|].
    rewrite (drop_S objs o i Ho) in *. inversion Hps as [|? x ? ps' Hx Hps']; subst.
    eapply returns_bind; [by apply join_item|]. intros r ->. eapply returns_bind_evals; [apply evals_ret|].
    cbn [existsb total_len foldr] in *. fold (total_len (drop (S i) objs)) in *.
    pose proof (total_len_nonneg _ _ Hps'). pose proof (represents_len _ _ Hx).
    rewrite s64_small by lia. replace (Z.of_nat i + 1) with (Z.of_nat (S i)) by lia.
    rewrite Z.add_assoc, orb_assoc. apply (IH _ ps'); [lia|done|lia|lia].
Qed.

Lemma join_copy_spec w n i ps out rest :
  (i + n = length objs)%nat -> Forall2 represents (drop i objs) ps ->
  Forall (fun o => AIsNarrow o || w = true) objs -> AIsNarrow sep || w = true ->
  length rest = length (join_with q ps) ->
  returns (join_copy n (Z.of_nat i) a sep (zlen objs) (zlen out) (mk w (out ++ rest)))
    (fun r => r = Some (mk w (out ++ join_with q ps))).
Proof using Hsep Ha.
  intros Hi Hps Hw Hws. revert i ps out rest Hi Hps.
  induction n as [|n IH]; intros i ps out rest Hi Hps Hr; cbn [join_copy].
  - rewrite drop_ge in Hps by lia. inversion Hps; subst. destruct rest; [|done]. by apply returns_ret.
  - destruct (lookup_lt_is_Some_2 objs i) as [o Ho]; [lia|].
    rewrite (drop_S objs o i Ho) in Hps. inversion Hps as [|? x ? ps' Hx Hps']; subst.
    eapply returns_bind; [by apply join_item|]. intros r ->. eapply returns_bind_evals; [apply evals_ret|].
    pose proof (join_with_length q x ps') as Hjl. cbv zeta.
    pose proof (Forall_lookup_1 _ _ _ _ Hw Ho) as Hwo. simpl in Hwo. pose proof (represents_len _ _ Hx) as Hxl.
    pose proof (ACopySubStr_at w out rest o x 0 (length x) Hx Hwo ltac:(lia) ltac:(lia)) as Hcopy.
    rewrite drop_0, firstn_all in Hcopy. rewrite Hxl.
    eapply returns_bind_evals; [exact Hcopy|].
    replace (zlen out + zlen x) with (zlen (out ++ x)) by (rewrite length_app; lia). rewrite app_assoc.
    assert (Hlast : ps' = [] <-> (S i = length objs)%nat).
    { apply Forall2_length in Hps'. rewrite length_drop in Hps'. destruct ps'; simpl in *; split; (done || lia). }
    replace (Z.of_nat i + 1) with (Z.of_nat (S i)) by lia. rewrite (represents_len _ _ Hsep).
    destruct (decide (ps' = [])) as [->|Hne].
    + assert (Hend : S i = length objs) by (by apply Hlast). test (Z.of_nat i <? zlen objs - 1) false.
      rewrite andb_false_r. rewrite drop_ge by (simpl in Hr; lia). rewrite app_nil_r.
      assert (n = 0)%nat as -> by lia. by apply returns_ret.
    + assert (Hmore : (S i < length objs)%nat).
      { destruct (decide (S i < length objs)%nat); [done|]. destruct Hne. apply Hlast. lia. }
      test (Z.of_nat i <? zlen objs - 1) true. rewrite andb_true_r.
      rewrite join_with_cons in Hr |- * by done. rewrite !length_app in Hr.
      pose proof (ACopySubStr_at w (out ++ x) (drop (length x) rest) sep q 0 (length q) Hsep Hws ltac:(lia)
        ltac:(rewrite length_drop; lia)) as Hcs.
      rewrite drop_0, firstn_all, drop_drop in Hcs.
      replace (out ++ x ++ q ++ join_with q ps') with ((out ++ x ++ q) ++ join_with q ps') by (by rewrite <- !app_assoc).
      destruct (Z.ltb_spec 0 (zlen q)).
      * eapply returns_bind_evals; [exact Hcs|].
        replace (zlen (out ++ x) + zlen q) with (zlen (out ++ x ++ q)) by (rewrite !length_app; lia).
        replace ((out ++ x) ++ q ++ drop (length x + length q) rest)
          with ((out ++ x ++ q) ++ drop (length x + length q) rest) by (by rewrite <- !app_assoc).
        apply IH; [lia|done|]. rewrite length_drop. lia.
      * assert (q = []) as Hq0 by (destruct q; [done|simpl in *; lia]). rewrite Hq0 in *.
        rewrite app_nil_r. apply IH; [lia|done|]. rewrite length_drop. simpl in Hr. lia.
Qed.

End join.

Lemma total_len_concat objs ps : Forall2 represents objs ps -> total_len objs = zlen (concat ps).
Proof.
  induction 1 as [|o x objs ps Ho _ IH]; [done|]. simpl. rewrite length_app, (represents_len _ _ Ho), IH. lia.
Qed.

Lemma joined_fit w q objs ps :
  Forall2 represents objs ps -> Forall (fits w) q -> Forall (fun o => AIsNarrow o || w = true) objs ->
  Forall (fits w) (join_with q ps).
Proof.
  intros Hps Hq Hw. induction Hps as [|o x objs ps Ho Hps IH]; [constructor|].
  apply Forall_cons_1 in Hw as [Hwo Hw]. specialize (IH Hw).
  assert (Hx : Forall (fits w) x).
  { apply (fits_result w o); [done|]. intros E. by rewrite E in Hwo. }
  destruct ps as [|y ps]; [done|]. rewrite join_with_cons by done. rewrite !Forall_app. auto.
Qed.

Lemma AStrJoin_spec sep q a objs ps :
  represents sep q -> holds a (Some <$> objs) -> Forall2 represents objs ps -> zlen (join_with q ps) < H64 ->
  returns (AStrJoin sep a) (fun r => exists d, r = Some (Some d) /\ represents d (join_with q ps)).
Proof.
  intros Hsep Ha Hps Hmax. unfold AStrJoin. eapply returns_bind; [apply wrap_spec|]. intros _ _. cbv zeta.
  eapply returns_bind; [apply Ha|]. intros r ->. rewrite length_fmap.
  pose proof (Forall2_length Hps) as Hlen. test (zlen objs <? 0) false. rewrite Nat2Z.id.
  rewrite (represents_len _ _ Hsep).
  set (strLen := if 0 <? zlen objs then s64 ((zlen objs - 1) * zlen q) else 0).
  assert (HstrLen : 0 <= strLen /\ strLen + total_len objs = zlen (join_with q ps)).
  { rewrite (total_len_concat _ _ Hps). unfold strLen. destruct (Z.ltb_spec 0 (zlen objs)) as [Hpos|Hz].
    - assert (Hne : ps <> []) by (intros ->; simpl in *; lia). pose proof (join_with_len q ps Hne) as Hj.
      rewrite Hj in *. rewrite <- Hlen in *. rewrite s64_small by nia. nia.
    - destruct ps; [done|simpl in *; lia]. }
  destruct HstrLen as [Hs0 Hsl]. eapply returns_bind.
  { apply (join_length_spec a objs Ha (length objs) 0 ps); [lia|done|done|]. rewrite drop_0. lia. }
  intros r ->. rewrite drop_0, Hsl.
  destruct (Z.eqb_spec (zlen objs) 1) as [H1|H1].
  { destruct objs as [|o [|]]; [done| |simpl in H1; lia].
    inversion Hps as [|? x ? ? Hx Hnil]; subst. inversion Hnil; subst. simpl.
    eapply returns_mono; [by apply (join_item a [o] Ha 0 o)|]. intros r ->. by exists o. }
  set (w := negb (AIsNarrow sep) || existsb (fun o => negb (AIsNarrow o)) objs).
  assert (Hwo : Forall (fun o => AIsNarrow o || w = true) objs).
  { apply Forall_forall. intros o Ho. destruct (AIsNarrow o) eqn:E; [done|]. simpl. unfold w.
    apply orb_true_intro. right. apply existsb_exists. exists o. by rewrite E. }
  assert (Hws : AIsNarrow sep || w = true) by (unfold w; by destruct (AIsNarrow sep)).
  assert (Hfq : Forall (fits w) q) by (apply (fits_result w sep); [done|]; unfold w; by intros ->).
  eapply returns_bind; [apply new_str_spec; lia|]. intros d (e & -> & He).
  eapply returns_bind.
  { apply (join_copy_spec sep q a objs Hsep Ha w (length objs) 0 ps [] e); [done|by rewrite drop_0|done|done|lia]. }
  intros r ->. apply returns_ret. exists (mk w (join_with q ps)). split; [done|].
  by apply represents_mk, (joined_fit w q objs ps).
Qed.

(** ** Runs of spaces *)

Lemma skip_space_spec str l fuel i :
  represents str l -> (length l <= fuel + i)%nat -> (i <= length l)%nat ->
  exists k, evals (skip_space fuel str (Z.of_nat i) (zlen l)) (Z.of_nat k) /\ (i <= k <= length l)%nat /\
    Forall IS_SPLIT_SPACE (take (k - i) (drop i l)) /\
    (forall c, l !! k = Some c -> IS_SPLIT_SPACE c = false).
Proof.
  intros Hl. revert i. induction fuel as [|fuel IH]; intros i Hf Hi; cbn [skip_space];
    (destruct (Z.ltb_spec (Z.of_nat i) (zlen l)) as [Hlt|Hge];
     [|exists i; split_and!; [apply evals_ret|lia..|by rewrite Nat.sub_diag|
       intros c Hc; apply lookup_lt_Some in Hc; lia]]).
  - lia.
  - destruct (lookup_lt_is_Some_2 l i) as [c Hc]; [lia|].
    destruct (IS_SPLIT_SPACE c) eqn:E.
    + destruct (IH (S i)) as (k & Hk & Hle & Hsp & Hend); [lia..|]. exists k. split_and!; [|lia..| |done].
      * eapply evals_bind; [by eapply char_at_lookup|]. rewrite E. simpl.
        by replace (Z.of_nat i + 1) with (Z.of_nat (S i)) by lia.
      * rewrite (drop_S l c i Hc). replace (k - i)%nat with (S (k - S i)) by lia. constructor; [by rewrite E|done].
    + exists i. split_and!; [|lia..|by rewrite Nat.sub_diag|intros c' Hc'; by simplify_eq].
      eapply evals_bind; [by eapply char_at_lookup|]. rewrite E. apply evals_ret.
Qed.

(** The words of a text, at most [max] of them cut off; the text behind the
    last cut is kept as it is, except for the spaces in front of it. *)
Definition starts_word (w : list Z) : Prop := exists c w', w = c :: w' /\ IS_SPLIT_SPACE c = false.

Inductive words_of : Z -> list Z -> list (list Z) -> Prop :=
  | words_none max sp : Forall IS_SPLIT_SPACE sp -> words_of max sp []
  | words_last max sp w :
      Forall IS_SPLIT_SPACE sp -> starts_word w ->
      max <= 0 \/ Forall (fun c => IS_SPLIT_SPACE c = false) w -> words_of max (sp ++ w) [w]
  | words_cut max sp w c l ps :
      Forall IS_SPLIT_SPACE sp -> starts_word w -> Forall (fun c => IS_SPLIT_SPACE c = false) w ->
      0 < max -> IS_SPLIT_SPACE c = true -> words_of (max - 1) (c :: l) ps ->
      words_of max (sp ++ w ++ c :: l) (w :: ps).

Lemma words_of_skip max sp l ps : Forall IS_SPLIT_SPACE sp -> words_of max l ps -> words_of max (sp ++ l) ps.
Proof.
  intros Hsp H. destruct H; [constructor; by apply Forall_app|..]; rewrite app_assoc; constructor;
    try done; by apply Forall_app.
Qed.

(** A word [s, i) followed by the spaces [i, k). *)
Lemma words_cut_at l max s i k c c' ps :
  (s < i)%nat -> (S i <= k)%nat -> l !! s = Some c -> IS_SPLIT_SPACE c = false ->
  l !! i = Some c' -> IS_SPLIT_SPACE c' = true ->
  Forall (fun c => IS_SPLIT_SPACE c = false) (take (i - s) (drop s l)) ->
  Forall IS_SPLIT_SPACE (take (k - S i) (drop (S i) l)) ->
  0 < max -> words_of (max - 1) (drop k l) ps ->
  words_of max (drop s l) (slice l (Z.of_nat s) (Z.of_nat i) :: ps).
Proof.
  intros Hsi Hik Hs Hc Hi Hc' Hw Hsp Hm Hps. unfold slice. rewrite Nat2Z.id.
  replace (Z.to_nat (Z.of_nat i - Z.of_nat s)) with (i - s)%nat by lia.
  replace (drop s l) with ([] ++ take (i - s) (drop s l) ++ c' :: drop (S i) l) at 1
    by (rewrite <- (drop_S l c' i Hi), take_whole by lia; done).
  apply words_cut; [constructor| |done|lia|done|].
  - exists c, (take (i - s - 1) (drop (S s) l)). split; [|done]. rewrite (drop_S l c s Hs).
    by replace (i - s)%nat with (S (i - s - 1)) at 1 by lia.
  - rewrite <- (take_whole l (S i) k) by lia.
    apply (words_of_skip _ (c' :: take (k - S i) (drop (S i) l))); [|done]. constructor; [by rewrite Hc'|done].
Qed.

Section words.
Context (str : StrObj) (l : list Z).
Hypothesis (Hl : represents str l) (Hlen : zlen l < 2 ^ 31).

Definition last_part (r : option Z) : list (list Z) :=
  match r with Some j => [drop (Z.to_nat j) l] | None => [] end.

Lemma split_space_loop_spec fuel max a n s i c :
  (length l <= fuel + i)%nat -> (s <= i <= length l)%nat -> l !! s = Some c -> IS_SPLIT_SPACE c = false ->
  max - n <= 0 \/ Forall (fun c => IS_SPLIT_SPACE c = false) (take (i - s) (drop s l)) ->
  returns (split_space_loop fuel str (zlen l) max a n (Z.of_nat s) (Z.of_nat i))
    (fun r => exists objs parts, r.1 = a ++ objs /\ Forall2 represents objs parts /\
      words_of (max - n) (drop s l) (parts ++ last_part r.2) /\
      match r.2 with Some j => 0 <= j <= zlen l | None => True end).
Proof using Hl Hlen.
  revert a n s i c. induction fuel as [|fuel IH]; intros a n s i c Hf Hi Hs Hc Hw; cbn [split_space_loop];
    (destruct (Z.ltb_spec (Z.of_nat i) (zlen l));
     [|apply returns_ret; exists [], []; split_and!; [by rewrite app_nil_r|constructor| |simpl; lia];
       simpl; rewrite Nat2Z.id; apply (words_last _ []); [constructor|by exists c, (drop (S s) l); rewrite (drop_S l c s Hs)|];
       destruct Hw as [?|Hw]; [by left|right]; by rewrite firstn_all2 in Hw by (rewrite length_drop; lia)]).
  - lia.
  - destruct (lookup_lt_is_Some_2 l i) as [c' Hc']; [lia|].
    eapply returns_bind_evals; [by eapply char_at_lookup|].
    assert (Hext : take (S i - s) (drop s l) = take (i - s) (drop s l) ++ [c']).
    { rewrite (take_extend l s i (S i)) by lia. f_equal. rewrite (drop_S l c' i Hc').
      by replace (S i - i)%nat with 1%nat by lia. }
    assert (Hnext : (max - n <= 0 \/ IS_SPLIT_SPACE c' = false) ->
      returns (split_space_loop fuel str (zlen l) max a n (Z.of_nat s) (Z.of_nat i + 1))
        (fun r => exists objs parts, r.1 = a ++ objs /\ Forall2 represents objs parts /\
          words_of (max - n) (drop s l) (parts ++ last_part r.2) /\
          match r.2 with Some j => 0 <= j <= zlen l | None => True end)).
    { intros Hor. replace (Z.of_nat i + 1) with (Z.of_nat (S i)) by lia. apply (IH _ _ _ _ c); [lia|lia|done..|].
      destruct Hor as [?|Hns]; [by left|]. destruct Hw as [?|Hw]; [by left|right].
      rewrite Hext. apply Forall_app. by repeat constructor. }
    destruct (IS_SPLIT_SPACE c') eqn:E; [destruct (Z.ltb_spec n max)|]; simpl andb; cbv iota;
      [|apply Hnext; left; lia|apply Hnext; by right].
    destruct Hw as [?|Hw]; [lia|].
    assert (Hsi : (s < i)%nat).
    { destruct (decide (s = i)) as [->|]; [|lia]. simplify_eq. congruence. }
    eapply returns_bind; [apply (ACreateSubStr_inside str l); (done || lia)|]. intros d Hd.
    eapply returns_bind; [apply AAppendArray_spec|]. intros a' ->.
    destruct (skip_space_spec str l (Z.to_nat (zlen l)) (S i) Hl) as (k & Hk & Hle & Hsp & Hend); [lia..|].
    eapply returns_bind_evals; [replace (Z.of_nat i + 1) with (Z.of_nat (S i)) by lia; exact Hk|].
    assert (Hcut : forall ps, words_of (max - (n + 1)) (drop k l) ps ->
              words_of (max - n) (drop s l) (slice l (Z.of_nat s) (Z.of_nat i) :: ps)).
    { intros ps Hps. apply (words_cut_at l (max - n) s i k c c'); try done; [lia..|].
      by replace (max - n - 1) with (max - (n + 1)) by lia. }
    destruct (Z.leb_spec (zlen l) (Z.of_nat k)).
    + apply returns_ret. exists [d], [slice l (Z.of_nat s) (Z.of_nat i)].
      split_and!; [done|by constructor| |done]. apply Hcut. rewrite drop_ge by lia. by constructor.
    + destruct (lookup_lt_is_Some_2 l k) as [ck Hck]; [lia|].
      eapply returns_mono; [apply (IH _ _ k k ck); [lia|lia|done|by apply Hend|right; by rewrite Nat.sub_diag]|].
      intros [a2 r] (objs & parts & Ha2 & Hobjs & Hparts & Hr). simpl in Ha2. subst a2.
      exists (d :: objs), (slice l (Z.of_nat s) (Z.of_nat i) :: parts).
      split_and!; [by rewrite <- app_assoc|by constructor|by apply Hcut|done].
Qed.

End words.

Lemma AStrSplit_words_spec self l max m :
  represents self l -> zlen l < 2 ^ 31 -> int_arg max A_SSIZE_T_MAX m ->
  returns (AStrSplit self None max) (fun a => exists ps, words_of m l ps /\ Forall2 represents a ps).
Proof.
  intros Hl Hlen Hm. unfold AStrSplit. eapply returns_bind; [apply wrap_spec|]. intros _ _.
  eapply returns_bind; [apply AAlloc_spec|]. intros _ _. cbv zeta.
  eapply returns_bind; [by apply (int_arg_returns max A_SSIZE_T_MAX m)|]. intros x ->.
  rewrite (represents_len _ _ Hl).
  destruct (skip_space_spec self l (Z.to_nat (zlen l)) 0 Hl) as (k & Hk & Hle & Hsp & Hend); [lia..|].
  assert (Hskip : forall ps, words_of m (drop k l) ps -> words_of m l ps).
  { intros ps Hps. rewrite <- (take_drop k l). apply words_of_skip; [|done].
    by rewrite Nat.sub_0_r, drop_0 in Hsp. }
  eapply (returns_bind _ _ (fun r => exists objs parts, r.1 = objs /\ Forall2 represents objs parts /\
    words_of m l (parts ++ last_part l r.2) /\ match r.2 with Some j => 0 <= j <= zlen l | None => True end)).
  { eapply returns_bind_evals; [exact Hk|]. destruct (Z.leb_spec (zlen l) (Z.of_nat k)).
    - apply returns_ret. exists [], []. split_and!; [done|constructor| |done]. simpl. apply Hskip.
      rewrite drop_ge by lia. by constructor.
    - destruct (lookup_lt_is_Some_2 l k) as [c Hc]; [lia|].
      eapply returns_mono; [apply (split_space_loop_spec self l Hl Hlen _ m [] 0 k k c);
        [lia|lia|done|by apply Hend|right; by rewrite Nat.sub_diag]|].
      intros r (objs & parts & Ha & Hobjs & Hps & Hr). rewrite Z.sub_0_r in Hps. exists objs, parts.
      split_and!; [done|done|by apply Hskip|done]. }
  intros [a r] (objs & parts & Ha & Hobjs & Hps & Hr). simpl in *. subst a. destruct r as [j|].
  - eapply returns_bind; [apply (ACreateSubStr_inside self l); (done || lia)|]. intros d Hd.
    eapply returns_mono; [apply AAppendArray_spec|]. intros a' ->. exists (parts ++ [drop (Z.to_nat j) l]).
    split; [done|]. apply Forall2_app; [done|]. constructor; [|constructor].
    unfold slice in Hd. by rewrite firstn_all2 in Hd by (rewrite length_drop; lia).
  - apply returns_ret. exists parts. by rewrite app_nil_r in Hps.
Qed.

Lemma skip_space_back_spec str l fuel i k :
  represents str l -> (i <= k)%nat -> (k < length l)%nat -> (k <= fuel + i)%nat ->
  exists j, evals (skip_space_back fuel str (Z.of_nat i) (Z.of_nat k)) (Z.of_nat j) /\ (i <= j <= k)%nat /\
    Forall IS_SPLIT_SPACE (take (k - j) (drop (S j) l)) /\
    (j = i \/ exists c, l !! j = Some c /\ IS_SPLIT_SPACE c = false).
Proof.
  intros Hl. revert k. induction fuel as [|fuel IH]; intros k Hi Hkl Hf; cbn [skip_space_back];
    (destruct (Z.ltb_spec (Z.of_nat i) (Z.of_nat k)) as [Hlt|Hge];
     [|exists k; split_and!; [apply evals_ret|lia..|by rewrite Nat.sub_diag|left; lia]]).
  - lia.
  - destruct (lookup_lt_is_Some_2 l k) as [c Hc]; [lia|].
    destruct (IS_SPLIT_SPACE c) eqn:E.
    + destruct (IH (k - 1)%nat) as (j & Hj & Hle & Hsp & Hend); [lia..|]. exists j. split_and!; [|lia..| |done].
      * eapply evals_bind; [by eapply char_at_lookup|]. rewrite E. simpl.
        by replace (Z.of_nat k - 1) with (Z.of_nat (k - 1)) by lia.
      * replace (k - j)%nat with (S (k - 1 - j)) by lia.
        rewrite (take_S_r _ _ c) by (rewrite lookup_drop, <- Hc; f_equal; lia).
        apply Forall_app. split; [done|]. constructor; [by rewrite E|constructor].
    + exists k. split_and!; [|lia..|by rewrite Nat.sub_diag|right; by exists c].
      eapply evals_bind; [by eapply char_at_lookup|]. rewrite E. apply evals_ret.
Qed.

(** [r] is [l] without the spaces at its ends. *)
Definition stripped (l r : list Z) : Prop :=
  exists a b, l = a ++ r ++ b /\ Forall IS_SPLIT_SPACE a /\ Forall IS_SPLIT_SPACE b /\
    (forall c, r !! 0%nat = Some c \/ list.last r = Some c -> IS_SPLIT_SPACE c = false).

Lemma AStrStrip_spec self l :
  represents self l -> zlen l < 2 ^ 31 ->
  returns (AStrStrip self) (fun d => exists r, represents d r /\ stripped l r).
Proof.
  intros Hl Hlen. unfold AStrStrip. eapply returns_bind; [apply wrap_spec|]. intros _ _.
  rewrite (represents_len _ _ Hl). cbv zeta.
  destruct (skip_space_spec self l (Z.to_nat (zlen l)) 0 Hl) as (i & Hi & Hle & Hsp & Hend); [lia..|].
  rewrite drop_0, Nat.sub_0_r in Hsp. eapply returns_bind_evals; [exact Hi|].
  destruct (decide (i = length l)) as [->|Hne].
  - eapply (returns_bind_evals _ _ (zlen l - 1)).
    { destruct (Z.to_nat (zlen l)); cbn [skip_space_back]; (test (zlen l <? zlen l - 1) false); apply evals_ret. }
    eapply returns_mono; [apply (ACreateSubStr_inside self l); (done || lia)|]. intros d Hd.
    exists []. split.
    + replace (zlen l - 1 + 1) with (zlen l) in Hd by lia. unfold slice in Hd. by rewrite Z.sub_diag in Hd.
    + exists l, []. rewrite app_nil_r. split_and!; [done|by rewrite firstn_all in Hsp|constructor|by intros c []].
  - destruct (lookup_lt_is_Some_2 l i) as [ci Hci]; [lia|].
    destruct (skip_space_back_spec self l (Z.to_nat (zlen l)) i (length l - 1) Hl) as (j & Hj & Hij & Hsp2 & Hend2);
      [lia..|].
    replace (Z.of_nat (length l - 1)) with (zlen l - 1) in Hj by lia.
    eapply returns_bind_evals; [exact Hj|].
    eapply returns_mono; [apply (ACreateSubStr_inside self l); (done || lia)|]. intros d Hd.
    exists (slice l (Z.of_nat i) (Z.of_nat j + 1)). split; [done|]. unfold slice. rewrite Nat2Z.id.
    replace (Z.to_nat (Z.of_nat j + 1 - Z.of_nat i)) with (S j - i)%nat by lia.
    exists (take i l), (drop (S j) l).
    rewrite take_whole, take_drop by lia. split_and!; [done|done| |].
    + replace (length l - 1 - j)%nat with (length (drop (S j) l)) in Hsp2 by (rewrite length_drop; lia).
      by rewrite firstn_all in Hsp2.
    + intros c [Hh|Hlast].
      * rewrite (drop_S l ci i Hci) in Hh. replace (S j - i)%nat with (S (j - i)) in Hh by lia. simpl in Hh.
        simplify_eq. by apply Hend.
      * assert (Hcj : exists c', l !! j = Some c' /\ IS_SPLIT_SPACE c' = false).
        { destruct Hend2 as [->|?]; [|done]. exists ci. split; [done|by apply Hend]. }
        destruct Hcj as (c' & Hc' & Hns).
        rewrite (take_extend l i j (S j)), (drop_S l c' j Hc') in Hlast by lia.
        replace (take (S j - j) (c' :: drop (S j) l)) with [c'] in Hlast
          by (by replace (S j - j)%nat with 1%nat by lia).
        rewrite list.last_snoc in Hlast. by simplify_eq.
Qed.
