(* ===== verification/StrProps.v ===== *)
(** * StrProps: the theorems about strings

    Substrings, concatenation and repetition, the order and the hash of
    strings, and the methods that search, split, join, replace and strip; a
    string may be narrow, wide or a substring throughout. *)

From S2P Require Import Prelude Runtime Digits Value LongInt IntOps IntConv HashTable Keys Sort.
From S2P Require Import Encodings EncodingsSpec StrOps StrMethods StrSpec StrSearch.
From S2P Require Import StrMethodsSpec.

Open Scope Z_scope.

(** ** Order and hash *)

Fixpoint str_order (a b : list Z) : comparison :=
  match a, b with
  | [], [] => Eq
  | [], _ => Lt
  | _, [] => Gt
  | x :: a, y :: b => match x ?= y with Eq => str_order a b | c => c end
  end.

Definition op_holds (op : AOperator) (c : comparison) : bool :=
  match op, c with
  | OPER_EQ, Eq | OPER_NEQ, (Lt | Gt) | OPER_LT, Lt | OPER_LTE, (Lt | Eq) | OPER_GT, Gt | OPER_GTE, (Gt | Eq) => true
  | _, _ => false
  end.

Lemma str_order_eq a b : str_order a b = Eq <-> a = b.
Proof.
  revert b. induction a as [|x a IH]; intros [|y b]; simpl; try done.
  destruct (Z.compare_spec x y) as [->|?|?]; [|split; [done|intros [=]; lia]..].
  rewrite IH. split; [by intros ->|by intros [=]].
Qed.

Lemma str_order_opp a b : str_order b a = CompOpp (str_order a b).
Proof.
  revert b. induction a as [|x a IH]; intros [|y b]; simpl; try done.
  rewrite (Z.compare_antisym x y), IH. by destruct (x ?= y).
Qed.

Lemma compare_bytes_end a b : a = [] \/ b = [] -> compare_bytes a b = s32 (zlen a - zlen b).
Proof. intros [->| ->]; [by destruct b|by destruct a]. Qed.

Lemma compare_chars_spec s1 s2 l1 l2 fuel i :
  represents s1 l1 -> represents s2 l2 -> (length l1 <= fuel + i)%nat -> (i <= length l1)%nat ->
  (i <= length l2)%nat -> zlen l1 < 2 ^ 31 -> zlen l2 < 2 ^ 31 ->
  evals (compare_chars fuel s1 s2 (Z.of_nat i) (zlen l1 - Z.of_nat i) (zlen l2 - Z.of_nat i))
    (compare_bytes (drop i l1) (drop i l2)).
Proof.
  intros H1 H2. revert i. induction fuel as [|fuel IH]; intros i Hf Hi1 Hi2 Hb1 Hb2; cbn [compare_chars].
  all: destruct ((0 <? zlen l1 - Z.of_nat i) && (0 <? zlen l2 - Z.of_nat i)) eqn:E.
  all: try (rewrite compare_bytes_end, !length_drop, !Nat2Z.inj_sub by
              (lia || (apply andb_false_iff in E as [E%Z.ltb_ge|E%Z.ltb_ge]; [left|right]; apply drop_ge; lia));
            apply evals_ret).
  all: apply andb_prop in E as [E1%Z.ltb_lt E2%Z.ltb_lt].
  - lia.
  - destruct (lookup_lt_is_Some_2 l1 i) as [a Ha]; [lia|]. destruct (lookup_lt_is_Some_2 l2 i) as [b Hb]; [lia|].
    eapply evals_bind; [by eapply char_at_lookup|]. eapply evals_bind; [by eapply char_at_lookup|].
    rewrite (drop_S l1 a i Ha), (drop_S l2 b i Hb). cbn [compare_bytes].
    destruct (a =? b); [|apply evals_ret]. simpl negb. cbv iota.
    replace (zlen l1 - Z.of_nat i - 1) with (zlen l1 - Z.of_nat (S i)) by lia.
    replace (zlen l2 - Z.of_nat i - 1) with (zlen l2 - Z.of_nat (S i)) by lia.
    replace (Z.of_nat i + 1) with (Z.of_nat (S i)) by lia. apply IH; lia.
Qed.

Lemma compare_strings_spec s1 s2 l1 l2 :
  represents s1 l1 -> represents s2 l2 -> zlen l1 < 2 ^ 31 -> zlen l2 < 2 ^ 31 ->
  evals (compare_strings s1 s2) (compare_bytes l1 l2).
Proof.
  intros H1 H2 Hb1 Hb2. unfold compare_strings. rewrite (represents_len _ _ H1), (represents_len _ _ H2).
  pose proof (compare_chars_spec s1 s2 l1 l2 (Z.to_nat (zlen l1)) 0 H1 H2) as H.
  rewrite !drop_0, !Z.sub_0_r in H. apply H; lia.
Qed.

(** The sign of the result is the order of the strings; its value is that of
    [A_CMP_FAIL] only for a proper prefix. *)
Lemma compare_bytes_order l1 l2 :
  Forall wide_char l1 -> Forall wide_char l2 -> zlen l1 < 2 ^ 31 -> zlen l2 < 2 ^ 31 ->
  str_order l1 l2 = (compare_bytes l1 l2 ?= 0) /\
  (compare_bytes l1 l2 = A_CMP_FAIL <-> exists l, l1 = l2 ++ l /\ zlen l = A_CMP_FAIL).
Proof.
  revert l2. induction l1 as [|x l1 IH]; intros [|y l2] H1 H2 Hb1 Hb2.
  - split; [done|]. split; [done|]. intros (l & Hl & Hlen). destruct l; [done|]. discriminate.
  - cbn [compare_bytes str_order]. simpl length. rewrite s32_small by (simpl in *; lia). split.
    + symmetry. apply Z.compare_lt_iff. lia.
    + unfold A_CMP_FAIL. split; [lia|]. by intros (l & ? & _).
  - cbn [compare_bytes str_order]. rewrite s32_small by (simpl in *; lia). split.
    + symmetry. apply Z.compare_gt_iff. simpl. lia.
    + split; [intros H; exists (x :: l1); split; [done|by simpl in *]|].
      intros (l & -> & <-). simpl. lia.
  - apply Forall_cons_1 in H1 as [Hx H1]. apply Forall_cons_1 in H2 as [Hy H2].
    rewrite !length_cons in *. cbn [compare_bytes str_order].
    destruct (IH l2) as [Ho Hf]; [done|done|lia|lia|]. unfold wide_char in *.
    destruct (Z.eqb_spec x y) as [->|Hne].
    + rewrite Z.compare_refl. split; [done|]. rewrite Hf. split; intros (l & H & Hl); exists l; (split; [|done]).
      * by rewrite H.
      * simpl in H. by simplify_eq.
    + split; [destruct (Z.compare_spec x y); [done|symmetry; apply Z.compare_lt_iff; lia|symmetry; apply Z.compare_gt_iff; lia]|].
      unfold A_CMP_FAIL. split; [lia|]. intros (l & H & _). simpl in H. simplify_eq.
Qed.

Lemma hash_chars_spec s l n i h :
  represents s l -> (i + n = length l)%nat -> evals (hash_chars n s (Z.of_nat i) h) (string_hash (drop i l) h).
Proof.
  intros Hl. revert i h. induction n as [|n IH]; intros i h Hi; cbn [hash_chars].
  - rewrite drop_ge by lia. apply evals_ret.
  - destruct (lookup_lt_is_Some_2 l i) as [c Hc]; [lia|].
    eapply evals_bind; [by eapply char_at_lookup|]. rewrite (drop_S l c i Hc). cbn [string_hash].
    replace (Z.of_nat i + 1) with (Z.of_nat (S i)) by lia. apply IH. lia.
Qed.

Lemma str_hash_value_spec s l : represents s l -> evals (str_hash_value s) (AStringHashValue l).
Proof.
  intros Hl. unfold str_hash_value. rewrite (represents_len _ _ Hl), Nat2Z.id.
  eapply evals_bind; [by apply (hash_chars_spec s l (length l) 0)|]. rewrite drop_0. apply evals_ret.
Qed.

(** ** Substrings, concatenation, repetition *)

Definition abc_str : StrObj := SubStr false (97 :: seqZ 97 26) 1 26.

Lemma abc_str_ok : represents abc_str (seqZ 97 26).
Proof.
  split; [|reflexivity]. split; [|simpl; lia]. apply Forall_forall. intros x Hx.
  apply list_elem_of_In in Hx. change (x ∈ 97 :: seqZ 97 26) in Hx.
  apply elem_of_cons in Hx as [->|Hx%elem_of_seqZ]; unfold fits, byte; simpl; lia.
Qed.

(** The operations that make strings of strings.  [ACreateSubStr] makes
    the slice [s[b..e)] of a string in any representation: negative bounds
    count from the end of the string, bounds are cut to it, and the slice is
    empty when its end is in front of its beginning.  The result, a copy or an
    object that refers to the block of the string, is well-formed, so that
    slices of slices are slices.  Concatenation appends the characters of two
    strings of any width, and repetition concatenates copies of one, as long as
    the size of the result is computed without wrap-around ([repeat_fits]: a
    count of at least 0 and, for a wide string, a result of less than 2^31
    characters). *)
Theorem substring_concat_repeat_correct a b la lb i j num :
  represents a la -> represents b lb -> zlen la < 2 ^ 31 -> repeat_fits a num ->
  returns (ACreateSubStr a i j) (fun d => represents d (slice la (slice_beg (zlen la) i) (slice_end (zlen la) j))) /\
  returns (AConcatStrings a b) (fun d => represents d (la ++ lb)) /\
  returns (ARepeatString a num) (fun d => represents d (concat (replicate (Z.to_nat num) la))).
Proof.
  intros Ha Hb Hl Hn. split_and!; [by apply ACreateSubStr_spec| |by apply ARepeatString_spec].
  eapply returns_mono; [by apply AConcatStrings_spec|]. by intros d [? _].
Qed.

Definition euro_str : StrObj := WideStr [0x20ac; 65].
Lemma euro_str_ok : represents euro_str [0x20ac; 65].
Proof. split; [|done]. split; [|done]. repeat (constructor; [simpl; unfold wide_char; lia|]). constructor. Qed.

Lemma substring_concat_repeat_correct_witness :
  (returns (ACreateSubStr euro_str 1 2) (fun d => represents d [65]) /\
   returns (AConcatStrings euro_str abc_str) (fun d => represents d ([0x20ac; 65] ++ seqZ 97 26)) /\
   returns (ARepeatString euro_str 3) (fun d => represents d (concat (replicate (Z.to_nat 3) [0x20ac; 65])))) /\
  run (ACreateSubStr abc_str 3 (-2)) = Ok (SubStr false (97 :: seqZ 97 26) 4 21) /\
  run (ARepeatString euro_str 3) = Ok (WideStr [0x20ac; 65; 0x20ac; 65; 0x20ac; 65]).
Proof.
  split; [|split; reflexivity]. apply (substring_concat_repeat_correct euro_str abc_str [0x20ac; 65] (seqZ 97 26) 1 2 3).
  - apply euro_str_ok.
  - apply abc_str_ok.
  - reflexivity.
  - split; [lia|reflexivity].
Defined.

(** A wide string repeated 2^31 times: the size of the result is cut to 32
    bits, and the copies are stored behind the block. *)
Example repeat_overflow : run (ARepeatString (WideStr [0x20ac]) (2 ^ 31)) = Fault.
Proof. reflexivity. Qed.

(** C26: The comparison operators on strings of any width compare the
    characters lexicographically, except that the right operand being a
    prefix of the left one that is exactly 65536 characters shorter raises
    [TypeError], because the result of [ACompareStrings] is then taken for
    [A_CMP_FAIL].  The order is total and equality is equality of the
    characters; equal strings have equal hash values in all representations. *)
Theorem compare_strings_correct s1 s2 l1 l2 op :
  represents s1 l1 -> represents s2 l2 -> zlen l1 < 2 ^ 31 -> zlen l2 < 2 ^ 31 ->
  (if decide (l2 `prefix_of` l1 /\ zlen l1 = zlen l2 + 65536)
   then raises (compare_strings_order s1 s2 op) ETypeError
   else returns (compare_strings_order s1 s2 op) (fun b => b = op_holds op (str_order l1 l2))) /\
  (str_order l1 l2 = Eq <-> l1 = l2) /\ str_order l2 l1 = CompOpp (str_order l1 l2) /\
  (l1 = l2 -> exists h, evals (str_hash_value s1) h /\ evals (str_hash_value s2) h).
Proof.
  intros H1 H2 Hb1 Hb2. pose proof (compare_strings_spec _ _ _ _ H1 H2 Hb1 Hb2) as Hev.
  destruct (compare_bytes_order l1 l2) as [Ho Hf]; [by apply (represents_wide s1)|by apply (represents_wide s2)|done..|].
  split_and!; [|apply str_order_eq|apply str_order_opp|].
  - assert (Hfail : (l2 `prefix_of` l1 /\ zlen l1 = zlen l2 + 65536) <-> compare_bytes l1 l2 = A_CMP_FAIL).
    { rewrite Hf. unfold A_CMP_FAIL. split; [intros [[l ->] Hl]; exists l; split; [done|]|intros (l & -> & Hl); split; [by exists l|]];
        rewrite length_app in *; lia. }
    case_decide as Hd.
    + eapply spec_bind_evals; [exact Hev|]. rewrite (proj1 Hfail Hd). by apply spec_raise.
    + eapply returns_bind_evals; [exact Hev|]. rewrite Hfail in Hd.
      rewrite (proj2 (Z.eqb_neq _ _) Hd). rewrite Ho. clear Ho Hev Hf Hfail Hd.
      destruct (Z.ltb_spec (compare_bytes l1 l2) 0) as [Hlt|Hge]; [|destruct (Z.eqb_spec (compare_bytes l1 l2) 0) as [->|Hne]].
      * rewrite (proj2 (Z.compare_lt_iff _ _) Hlt). apply returns_ret. by destruct op.
      * apply returns_ret. by destruct op.
      * rewrite (proj2 (Z.compare_gt_iff _ _)) by lia. apply returns_ret. by destruct op.
  - intros ->. exists (AStringHashValue l2). by split; apply str_hash_value_spec.
Qed.

Lemma compare_strings_correct_witness :
  (returns (compare_strings_order euro_str abc_str OPER_GT) (fun b => b = op_holds OPER_GT Gt)) /\
  run (compare_strings_order abc_str (NarrowStr (seqZ 97 26)) OPER_EQ) = Ok true.
Proof.
  split; [|reflexivity].
  apply (compare_strings_correct euro_str abc_str [0x20ac; 65] (seqZ 97 26) OPER_GT).
  - apply euro_str_ok.
  - apply abc_str_ok.
  - reflexivity.
  - reflexivity.
Defined.

(** ** Search *)

(** C25: [find], [index] and the operator [in] look for the first occurrence of
    a string in another: [find] from a start index on, -1 if there is none;
    [index] raises [ValueError] if there is none.  [startsWith] and [endsWith]
    decide the prefix and the suffix relation. *)
Theorem str_search_correct self sub l p start i :
  represents self l -> represents sub p -> zlen l < 2 ^ 31 -> int_arg start 0 (Z.of_nat i) ->
  returns (AStrFind self (Some sub) start) (fun v => exists r, int_repr v r /\
    ((r = -1 /\ forall k, (i <= k)%nat -> ~ occurs_at p l k) \/ exists k, r = Z.of_nat k /\ first_at p l i k)) /\
  ((exists k, first_at p l 0 k /\ returns (AStrIndex self (Some sub)) (fun v => int_repr v (Z.of_nat k))) \/
   (forall k, ~ occurs_at p l k) /\ raises (AStrIndex self (Some sub)) EValueError) /\
  (exists b, evals (AIsInString self (Some sub)) (if b : bool then AIntToValue 1 else AZero) /\
     (b = true <-> exists k, occurs_at p l k)) /\
  returns (AStrStartsWith self (Some sub)) (fun b => b = bool_decide (p `prefix_of` l)) /\
  returns (AStrEndsWith self (Some sub)) (fun b => b = bool_decide (p `suffix_of` l)).
Proof.
  intros Hl Hp Hlen Hs. split_and!; [by apply AStrFind_spec|by apply AStrIndex_spec|by apply AIsInString_spec|
    by apply AStrStartsWith_spec|by apply AStrEndsWith_spec].
Qed.

Lemma str_search_correct_witness :
  returns (AStrFind abc_str (Some (NarrowStr [99; 100])) (Some (VInt (AIntToValue 1)))) (fun v => exists r, int_repr v r /\
    ((r = -1 /\ forall k, (1 <= k)%nat -> ~ occurs_at [99; 100] (seqZ 97 26) k) \/
     exists k, r = Z.of_nat k /\ first_at [99; 100] (seqZ 97 26) 1 k)) /\
  run (AStrFind abc_str (Some (NarrowStr [99; 100])) (Some (VInt (AIntToValue 1)))) = Ok (VInt (AIntToValue 2)) /\
  run (AStrEndsWith abc_str (Some (WideStr [121; 122]))) = Ok true.
Proof.
  split; [|split; reflexivity].
  apply (str_search_correct abc_str (NarrowStr [99; 100]) (seqZ 97 26) [99; 100] (Some (VInt (AIntToValue 1))) 1).
  - apply abc_str_ok.
  - split; [|done]. split; [|done]. repeat (constructor; [simpl; unfold byte; lia|]). constructor.
  - reflexivity.
  - simpl. unfold short_range, A_SHORT_INT_MIN, A_SHORT_INT_MAX. split; [split; [done|lia]|lia].
Defined.

(** ** Splitting, joining, counting, replacing *)

Definition str_array (objs : list StrObj) : sequence (option StrObj) :=
  MkSequence (mret (Some (zlen objs))) (fun i => mret (Some <$> objs !! Z.to_nat i)).

Lemma str_array_holds objs : holds (str_array objs) (Some <$> objs).
Proof.
  split; [apply returns_ret; by rewrite length_fmap|]. intros i x Hi. apply returns_ret.
  rewrite list_lookup_fmap in Hi. rewrite Nat2Z.id. destruct (objs !! i); simpl in *; by simplify_eq.
Qed.

(** C23: [split] with a separator cuts a string at the first [max] of its
    non-overlapping occurrences from left to right ([split_of], which
    determines the parts), [count] is the number of cuts, and [join] of the
    parts with the separator gives the string back. *)
Theorem split_join_roundtrip self sep l p max m :
  represents self l -> represents sep p -> p <> [] -> zlen l < 2 ^ 31 -> int_arg max A_SSIZE_T_MAX m ->
  returns (AStrSplit self (Some (Some sep)) max) (fun a => exists ps,
    split_of p m l ps /\ (forall ps', split_of p m l ps' -> ps' = ps) /\ Forall2 represents a ps /\
    returns (AStrJoin sep (str_array a)) (fun r => exists d, r = Some (Some d) /\ represents d l)) /\
  returns (AStrCount self (Some sep)) (fun v => exists ps, split_of p A_SSIZE_T_MAX l ps /\ int_repr v (zlen ps - 1)).
Proof.
  intros Hl Hp Hne Hlen Hm. split; [|by apply AStrCount_spec].
  eapply returns_mono; [by apply AStrSplit_spec|]. intros a (ps & Hps & Ha). exists ps.
  split_and!; [done|intros ps' Hps'; by apply (split_of_unique p m l)|done|].
  pose proof (split_of_join _ _ _ _ Hps) as Hj. rewrite <- Hj.
  apply (AStrJoin_spec sep p (str_array a) a ps); [done|apply str_array_holds|done|]. rewrite Hj. lia.
Qed.

Definition csv_str : StrObj := NarrowStr [97; 44; 44; 98; 44].
Lemma csv_str_ok : represents csv_str [97; 44; 44; 98; 44].
Proof. split; [|done]. split; [|done]. repeat (constructor; [simpl; unfold byte; lia|]). constructor. Qed.
Definition comma_str : StrObj := NarrowStr [44].
Lemma comma_str_ok : represents comma_str [44].
Proof. split; [|done]. split; [|done]. constructor; [simpl; unfold byte; lia|constructor]. Qed.

Lemma split_join_roundtrip_witness :
  returns (AStrSplit csv_str (Some (Some comma_str)) None) (fun a => exists ps,
    split_of [44] A_SSIZE_T_MAX [97; 44; 44; 98; 44] ps /\
    (forall ps', split_of [44] A_SSIZE_T_MAX [97; 44; 44; 98; 44] ps' -> ps' = ps) /\ Forall2 represents a ps /\
    returns (AStrJoin comma_str (str_array a))
      (fun r => exists d, r = Some (Some d) /\ represents d [97; 44; 44; 98; 44])) /\
  run (AStrSplit csv_str (Some (Some comma_str)) None) =
    Ok [NarrowStr [97]; NarrowStr []; NarrowStr [98]; NarrowStr []].
Proof.
  split; [|reflexivity].
  apply (split_join_roundtrip csv_str comma_str [97; 44; 44; 98; 44] [44] None A_SSIZE_T_MAX).
  - apply csv_str_ok.
  - apply comma_str_ok.
  - done.
  - reflexivity.
  - reflexivity.
Defined.

(** C24: [replace] puts the new string in place of the first [max]
    non-overlapping occurrences of the old one: the result is the parts that
    [split] makes, joined with the new string, in a block of exactly the
    length computed beforehand.  Nothing is replaced for an empty old
    string. *)
Theorem replace_correct self old new l p q max m :
  represents self l -> represents old p -> represents new q -> zlen l < 2 ^ 31 -> zlen q < 2 ^ 31 ->
  int_arg max A_SSIZE_T_MAX m ->
  returns (AStrReplace self (Some old) (Some new) max)
    (fun d => exists r, represents d r /\
       if decide (p = []) then r = l else exists ps, split_of p m l ps /\ r = join_with q ps).
Proof. apply AStrReplace_spec. Qed.

Lemma replace_correct_witness :
  returns (AStrReplace csv_str (Some comma_str) (Some euro_str) (Some (VInt (AIntToValue 2))))
    (fun d => exists r, represents d r /\ exists ps, split_of [44] 2 [97; 44; 44; 98; 44] ps /\
       r = join_with [0x20ac; 65] ps) /\
  run (AStrReplace csv_str (Some comma_str) (Some euro_str) (Some (VInt (AIntToValue 2)))) =
    Ok (WideStr [97; 0x20ac; 65; 0x20ac; 65; 98; 44]).
Proof.
  split; [|reflexivity].
  apply (replace_correct csv_str comma_str euro_str [97; 44; 44; 98; 44] [44] [0x20ac; 65] (Some (VInt (AIntToValue 2))) 2).
  - apply csv_str_ok.
  - apply comma_str_ok.
  - apply euro_str_ok.
  - reflexivity.
  - reflexivity.
  - simpl. unfold short_range, A_SHORT_INT_MIN, A_SHORT_INT_MAX. split; [split; [done|lia]|lia].
Defined.

(** [split] without a separator returns the words of a string: the runs
    of characters between spaces, at most [max] of them cut off, the rest
    being kept as it is ([words_of]).  [strip] removes exactly the spaces at
    both ends. *)
Theorem words_strip_correct self l max m :
  represents self l -> zlen l < 2 ^ 31 -> int_arg max A_SSIZE_T_MAX m ->
  returns (AStrSplit self None max) (fun a => exists ps, words_of m l ps /\ Forall2 represents a ps) /\
  returns (AStrStrip self) (fun d => exists r, represents d r /\ stripped l r).
Proof. intros Hl Hlen Hm. split; [by apply (AStrSplit_words_spec _ _ _ m)|by apply AStrStrip_spec]. Qed.

Definition two_words : StrObj := NarrowStr [32; 97; 9; 10; 98; 32].
Lemma two_words_ok : represents two_words [32; 97; 9; 10; 98; 32].
Proof. split; [|done]. split; [|done]. repeat (constructor; [simpl; unfold byte; lia|]). constructor. Qed.

Lemma words_strip_correct_witness :
  returns (AStrSplit two_words None None)
    (fun a => exists ps, words_of A_SSIZE_T_MAX [32; 97; 9; 10; 98; 32] ps /\ Forall2 represents a ps) /\
  run (AStrSplit two_words None None) = Ok [NarrowStr [97]; NarrowStr [98]] /\
  run (AStrSplit two_words None (Some (VInt (AIntToValue 0)))) = Ok [NarrowStr [97; 9; 10; 98; 32]] /\
  run (AStrStrip two_words) = Ok (NarrowStr [97; 9; 10; 98]).
Proof.
  split; [|split_and!; reflexivity].
  apply (words_strip_correct two_words [32; 97; 9; 10; 98; 32] None A_SSIZE_T_MAX).
  - apply two_words_ok.
  - reflexivity.
  - reflexivity.
Defined.

(** The other outcomes of the methods. *)
Example str_method_errors :
  run (AStrSplit csv_str (Some (Some (NarrowStr []))) None) = Raise EValueError /\
  run (AStrSplit csv_str (Some None) None) = Raise ETypeError /\
  run (AStrFind csv_str (Some comma_str) (Some (VInt (AIntToValue (-1))))) = Raise EValueError /\
  run (AStrIndex csv_str (Some euro_str)) = Raise EValueError /\
  run (AStrJoin comma_str (MkSequence (mret (Some 1)) (fun _ => mret (Some None)))) = Raise ETypeError.
Proof. split_and!; reflexivity. Qed.

(** [count] of an empty string reads the character behind it. *)
Example count_of_empty : run (AStrCount csv_str (Some (NarrowStr []))) = Fault.
Proof. reflexivity. Qed.

(** A sequence that answers with a longer string the second time makes [join]
    store behind the end of its result. *)
Example join_of_changing_sequence (s : StrObj) :
  s = NarrowStr [97] ->
  run (join_copy 2 0 (str_array [NarrowStr [97; 98]; s]) (NarrowStr []) 2 0 (NarrowStr [0; 0])) = Fault.
Proof. by intros ->. Qed.
