(* ===== verification/Tokens.v ===== *)
(** * Tokens: token types and token blocks

    [token.h] and [lex.h]: the types of tokens, and the blocks of 64 tokens in
    which [lex.c] stores them: the last entry of a full block refers to the
    next one, whose first entry is a copy of the last token of the block
    before, so that one token of lookahead is always at hand.  A token block
    is filled at a cursor and read with [AAdvanceTok]. *)

From S2P Require Import Prelude Runtime Digits Value StrOps.

Open Scope Z_scope.

(** ** Token types *)

Inductive ATokenType :=
    | TT_EOB | TT_BOM | TT_ID | TT_ID_EXPOSED | TT_LITERAL_INT | TT_LITERAL_FLOAT
    | TT_LITERAL_STRING | TT_PLUS | TT_MINUS | TT_EQ | TT_NEQ | TT_LT | TT_GTE | TT_GT | TT_LTE
    | TT_IN | TT_FILLER_5 | TT_IS | TT_FILLER_6 | TT_ASTERISK | TT_DIV | TT_IDIV | TT_MOD | TT_POW
    | TT_COLON | TT_TO | TT_AND | TT_OR | TT_NOT | TT_COMMA | TT_LPAREN | TT_RPAREN | TT_LBRACKET
    | TT_RBRACKET | TT_ASSIGN | TT_ASSIGN_ADD | TT_ASSIGN_SUB | TT_ASSIGN_MUL | TT_ASSIGN_DIV
    | TT_ASSIGN_POW | TT_DOT | TT_SCOPEOP | TT_NEWLINE | TT_EOF | TT_IF | TT_ELSE | TT_ELIF | TT_END
    | TT_WHILE | TT_REPEAT | TT_UNTIL | TT_FOR | TT_SWITCH | TT_CASE | TT_SUB | TT_DEF | TT_VAR
    | TT_CONST | TT_RETURN | TT_BREAK | TT_PRIVATE | TT_CLASS | TT_TRY | TT_EXCEPT | TT_FINALLY
    | TT_RAISE | TT_SELF | TT_MODULE | TT_IMPORT | TT_NIL | TT_SUPER | TT_ENCODING | TT_INTERFACE
    | TT_IMPLEMENTS | TT_AS | TT_DYNAMIC | TT_BIND | TT_ANNOTATION | TT_ERR_STRING_UNTERMINATED
    | TT_ERR_INVALID_NUMERIC | TT_ERR_UNRECOGNIZED_CHAR | TT_ERR_NON_ASCII_STRING_CHAR
    | TT_ERR_NON_ASCII_COMMENT_CHAR | TT_ERR_INVALID_UTF8_SEQUENCE | TT_ERR_PARSE | TT_LAST_TOKEN
    | TT_EMPTY.

Definition all_token_types : list ATokenType :=
  [TT_EOB; TT_BOM; TT_ID; TT_ID_EXPOSED; TT_LITERAL_INT; TT_LITERAL_FLOAT; TT_LITERAL_STRING;
   TT_PLUS; TT_MINUS; TT_EQ; TT_NEQ; TT_LT; TT_GTE; TT_GT; TT_LTE; TT_IN; TT_FILLER_5; TT_IS;
   TT_FILLER_6; TT_ASTERISK; TT_DIV; TT_IDIV; TT_MOD; TT_POW; TT_COLON; TT_TO; TT_AND; TT_OR;
   TT_NOT; TT_COMMA; TT_LPAREN; TT_RPAREN; TT_LBRACKET; TT_RBRACKET; TT_ASSIGN; TT_ASSIGN_ADD;
   TT_ASSIGN_SUB; TT_ASSIGN_MUL; TT_ASSIGN_DIV; TT_ASSIGN_POW; TT_DOT; TT_SCOPEOP; TT_NEWLINE;
   TT_EOF; TT_IF; TT_ELSE; TT_ELIF; TT_END; TT_WHILE; TT_REPEAT; TT_UNTIL; TT_FOR; TT_SWITCH;
   TT_CASE; TT_SUB; TT_DEF; TT_VAR; TT_CONST; TT_RETURN; TT_BREAK; TT_PRIVATE; TT_CLASS; TT_TRY;
   TT_EXCEPT; TT_FINALLY; TT_RAISE; TT_SELF; TT_MODULE; TT_IMPORT; TT_NIL; TT_SUPER; TT_ENCODING;
   TT_INTERFACE; TT_IMPLEMENTS; TT_AS; TT_DYNAMIC; TT_BIND; TT_ANNOTATION;
   TT_ERR_STRING_UNTERMINATED; TT_ERR_INVALID_NUMERIC; TT_ERR_UNRECOGNIZED_CHAR;
   TT_ERR_NON_ASCII_STRING_CHAR; TT_ERR_NON_ASCII_COMMENT_CHAR; TT_ERR_INVALID_UTF8_SEQUENCE;
   TT_ERR_PARSE; TT_LAST_TOKEN; TT_EMPTY].

(** The number of a type in its enumeration. *)
Definition tt_num (t : ATokenType) : nat :=
  match t with
    | TT_EOB => 0 | TT_BOM => 1 | TT_ID => 2 | TT_ID_EXPOSED => 3 | TT_LITERAL_INT => 4
    | TT_LITERAL_FLOAT => 5 | TT_LITERAL_STRING => 6 | TT_PLUS => 7 | TT_MINUS => 8 | TT_EQ => 9
    | TT_NEQ => 10 | TT_LT => 11 | TT_GTE => 12 | TT_GT => 13 | TT_LTE => 14 | TT_IN => 15
    | TT_FILLER_5 => 16 | TT_IS => 17 | TT_FILLER_6 => 18 | TT_ASTERISK => 19 | TT_DIV => 20
    | TT_IDIV => 21 | TT_MOD => 22 | TT_POW => 23 | TT_COLON => 24 | TT_TO => 25 | TT_AND => 26
    | TT_OR => 27 | TT_NOT => 28 | TT_COMMA => 29 | TT_LPAREN => 30 | TT_RPAREN => 31
    | TT_LBRACKET => 32 | TT_RBRACKET => 33 | TT_ASSIGN => 34 | TT_ASSIGN_ADD => 35
    | TT_ASSIGN_SUB => 36 | TT_ASSIGN_MUL => 37 | TT_ASSIGN_DIV => 38 | TT_ASSIGN_POW => 39
    | TT_DOT => 40 | TT_SCOPEOP => 41 | TT_NEWLINE => 42 | TT_EOF => 43 | TT_IF => 44
    | TT_ELSE => 45 | TT_ELIF => 46 | TT_END => 47 | TT_WHILE => 48 | TT_REPEAT => 49
    | TT_UNTIL => 50 | TT_FOR => 51 | TT_SWITCH => 52 | TT_CASE => 53 | TT_SUB => 54 | TT_DEF => 55
    | TT_VAR => 56 | TT_CONST => 57 | TT_RETURN => 58 | TT_BREAK => 59 | TT_PRIVATE => 60
    | TT_CLASS => 61 | TT_TRY => 62 | TT_EXCEPT => 63 | TT_FINALLY => 64 | TT_RAISE => 65
    | TT_SELF => 66 | TT_MODULE => 67 | TT_IMPORT => 68 | TT_NIL => 69 | TT_SUPER => 70
    | TT_ENCODING => 71 | TT_INTERFACE => 72 | TT_IMPLEMENTS => 73 | TT_AS => 74 | TT_DYNAMIC => 75
    | TT_BIND => 76 | TT_ANNOTATION => 77 | TT_ERR_STRING_UNTERMINATED => 78
    | TT_ERR_INVALID_NUMERIC => 79 | TT_ERR_UNRECOGNIZED_CHAR => 80
    | TT_ERR_NON_ASCII_STRING_CHAR => 81 | TT_ERR_NON_ASCII_COMMENT_CHAR => 82
    | TT_ERR_INVALID_UTF8_SEQUENCE => 83 | TT_ERR_PARSE => 84 | TT_LAST_TOKEN => 85 | TT_EMPTY => 86
  end%nat.

Lemma tt_num_nth t : all_token_types !! tt_num t = Some t.
Proof. by destruct t. Qed.

#[export] Instance ATokenType_eq_dec : EqDecision ATokenType.
Proof.
  refine (fun t u => cast_if (decide (tt_num t = tt_num u))).
  - pose proof (tt_num_nth t) as Ht. pose proof (tt_num_nth u) as Hu. congruence.
  - congruence.
Defined.

Definition tt_between (lo hi t : ATokenType) : bool := (tt_num lo <=? tt_num t)%nat && (tt_num t <=? tt_num hi)%nat.

Definition AIsBinaryOperator (t : ATokenType) : bool := tt_between TT_PLUS TT_OR t.
Definition AIsOperatorAssignment (t : ATokenType) : bool := tt_between TT_ASSIGN_ADD TT_ASSIGN_POW t.
Definition AIsReservedWord (t : ATokenType) : bool := tt_between TT_IF TT_BIND t.
Definition AIsErrorToken (t : ATokenType) : bool := tt_between TT_ERR_STRING_UNTERMINATED TT_ERR_PARSE t.

(** ** Tokens *)

(** The member of [info] that the type of a token selects: a short integer,
    the number of a constant, or a symbol. *)
Inductive ATokenInfo :=
  | NoInfo
  | InfoVal (val : AValue)
  | InfoNum (num : Z)
  | InfoSym (sym : Z)
  | InfoBlock (nextBlock : nat).

Record AToken := MkToken {
  info : ATokenInfo;
  tokLine : Z;
  type : ATokenType
}.

Definition TOKEN_BLOCK_SIZE : nat := 64.

(** The blocks of a token list and the cursor in the last one; no blocks stand
    for a list that is [NULL]. *)
Record TokenStore := MkTokens {
  blocks : list (list AToken);
  cursor : nat
}.

(** A new block: all entries are empty but the last one, which ends it.  The
    other members are whatever the heap holds. *)
Definition new_block (junk : storage) : list AToken :=
  (fun i => MkToken (InfoNum (junk (Z.of_nat i))) (u16 (junk (Z.of_nat i)))
              (if decide (i = TOKEN_BLOCK_SIZE - 1)%nat then TT_LAST_TOKEN else TT_EMPTY)) <$> seq 0 TOKEN_BLOCK_SIZE.

Definition CreateTokenBlock : M (list AToken) :=
  junk ← AAlloc (16 * Z.of_nat TOKEN_BLOCK_SIZE); mret (new_block junk).

(** Entry [i] of the last block. *)
Definition entry (s : TokenStore) (i : nat) : M AToken :=
  match list.last (blocks s) with
  | Some b => match b !! i with Some t => mret t | None => fault end
  | None => fault
  end.

Definition set_entry (i : nat) (f : AToken -> AToken) : SM TokenStore unit :=
  s ← get;
  t ← lift (entry s i);
  modify (fun s => MkTokens (alter (alter f i) (length (blocks s) - 1)%nat (blocks s)) (cursor s)).

(** [tok->info], [tok->type], [tok->lineNumber] of the current token. *)
Definition set_tok (t : ATokenType) (i : ATokenInfo) : SM TokenStore unit :=
  s ← get; set_entry (cursor s) (fun tok => MkToken i (tokLine tok) t).
Definition set_type (t : ATokenType) : SM TokenStore unit :=
  s ← get; set_entry (cursor s) (fun tok => MkToken (info tok) (tokLine tok) t).
Definition set_line (n : Z) : SM TokenStore unit :=
  s ← get; set_entry (cursor s) (fun tok => MkToken (info tok) (u16 n) (type tok)).

(** [tok[-1]]; in front of the first block is no token. *)
Definition previous : SM TokenStore AToken :=
  s ← get;
  match cursor s with
  | O => lift fault
  | S c => lift (entry s c)
  end.

Definition move_cursor (c : nat) : SM TokenStore unit := modify (fun s => MkTokens (blocks s) c).

(** [AdvanceNewToken(tok)]. *)
Definition AdvanceNewToken : SM TokenStore unit :=
  s ← get;
  let c := S (cursor s) in
  tok ← lift (entry s c);
  (if decide (type tok = TT_LAST_TOKEN) then
     b ← lift CreateTokenBlock;
     last_tok ← lift (entry s (cursor s));
     set_entry c (fun tok => MkToken (InfoBlock (length (blocks s))) (tokLine tok) TT_EOB) ≫= (fun _ =>
     modify (fun s => MkTokens (blocks s ++ [alter (fun _ => last_tok) 0%nat b]) 1))
   else move_cursor c) ≫= (fun _ =>
  prev ← previous; set_line (tokLine prev)).

(** The step to the next token at the end of the loop of [ATokenize]. *)
Definition next_token : SM TokenStore unit :=
  s ← get;
  tok ← lift (entry s (S (cursor s)));
  if decide (type tok = TT_LAST_TOKEN) then AdvanceNewToken else move_cursor (S (cursor s)).

(** [AAddEofToken(tok)]. *)
Definition AAddEofToken : SM TokenStore unit :=
  prev ← previous;
  (if decide (type prev = TT_NEWLINE) then mret tt
   else set_type TT_NEWLINE ≫= (fun _ => AdvanceNewToken)) ≫= (fun _ =>
  set_type TT_EOF ≫= (fun _ => AdvanceNewToken)).

(** [AAdvanceTok(tok)]: a token is a block and an index. *)
Definition AAdvanceTok (s : TokenStore) (tok : nat * nat) : option (nat * nat) :=
  b ← blocks s !! tok.1;
  t ← b !! (tok.2 + 2)%nat;
  Some (if decide (type t = TT_EOB)
        then match info t with InfoBlock n => (n, 0%nat) | _ => (S tok.1, 0%nat) end
        else (tok.1, S tok.2)).
