(* ===== verification/SymTable.v ===== *)
(** * SymTable: the symbol table

    [symtable.c]: a hash table of chains of symbols that doubles when there are
    as many symbols as chains.  A symbol is known by its address; the model
    numbers the symbols in the order of their creation.  The members that the
    compiler adds to a symbol later ([info]) are left out. *)

From S2P Require Import Prelude Runtime Digits Value StrOps Tokens.


Open Scope Z_scope.

(** ** Symbols and the table *)

Record ASymbol := MkSymbol {
  sym_addr : Z;
  sym_type : ATokenType;
  str : list Z
}.

(** The members [ASymSize] (the number of chains minus one), [NumSyms] and
    [ASym]. *)
Record SymTab := MkSymTab {
  ASymSize : Z;
  NumSyms : Z;
  ASym : list (list ASymbol)
}.

Definition SYMBOL_TABLE_INITIAL_SIZE : Z := 512.

(** The value of a [char]. *)
Definition s8 (c : Z) : Z := if c <? 128 then c else c - 256.

(** The loops that compute hash values. *)
Fixpoint hash_loop (s : list Z) (hashValue : Z) : Z :=
  match s with
  | [] => hashValue
  | c :: s => hash_loop s (u32 (hashValue + u32 (u32 (hashValue * 32) + s8 c)))
  end.

Definition AGetSymbolHashValue (sym : ASymbol) : Z :=
  match str sym with
  | [] => 0
  | c :: s => hash_loop s (u32 (s8 c))
  end.

Definition AllocSymbolTable (len : Z) : M (list (list ASymbol)) :=
  AAlloc (8 * len) ≫= (fun _ => mret (replicate (Z.to_nat len) [])).

Definition chain (t : SymTab) (i : Z) : list ASymbol := default [] (ASym t !! Z.to_nat i).

(** The loop of [GrowSymbolTable] over one chain: the symbols that stay and
    those that move to the new half of the table. *)
Fixpoint split_chain (grow : Z) (c : list ASymbol) : list ASymbol * list ASymbol :=
  match c with
  | [] => ([], [])
  | s :: c =>
    let '(old, new) := split_chain grow c in
    if negb (Z.land (AGetSymbolHashValue s) grow =? 0) then (old, s :: new) else (s :: old, new)
  end.

Definition GrowSymbolTable : SM SymTab unit :=
  t ← get;
  let grow := ASymSize t + 1 in
  lift (AllocSymbolTable (2 * grow)) ≫= (fun _ =>
  modify (fun t => MkSymTab (ASymSize t + grow) (NumSyms t)
    (((fun c => (split_chain grow c).1) <$> ASym t) ++ ((fun c => (split_chain grow c).2) <$> ASym t)))).

(** [AAddSymbol(hashValue, id, idLen, symRet)]: the new symbol is the last of
    its chain. *)
Definition AAddSymbol (hashValue : Z) (id : list Z) : SM SymTab ASymbol :=
  t ← get;
  let grows := NumSyms t =? ASymSize t in
  modify (fun t => MkSymTab (ASymSize t) (NumSyms t + 1) (ASym t)) ≫= (fun _ =>
  (if grows then GrowSymbolTable else mret tt) ≫= (fun _ =>
  lift (AAlloc (32 + zlen id)) ≫= (fun _ =>
  let sym := MkSymbol (NumSyms t) TT_ID id in
  modify (fun t => MkSymTab (ASymSize t) (NumSyms t)
    (alter (fun c => c ++ [sym]) (Z.to_nat (Z.land hashValue (ASymSize t))) (ASym t))) ≫= (fun _ =>
  mret sym)))).

(** The loop over a chain: the first symbol with the given name. *)
Fixpoint find_in_chain (c : list ASymbol) (id : list Z) : option ASymbol :=
  match c with
  | [] => None
  | s :: c => if decide (str s = id) then Some s else find_in_chain c id
  end.

Definition AFindSymbol (t : SymTab) (id : list Z) : option ASymbol :=
  find_in_chain (chain t (Z.land (hash_loop id 0) (ASymSize t))) id.

Definition AGetSymbol (id : list Z) : SM SymTab ASymbol :=
  t ← get;
  match AFindSymbol t id with
  | Some s => mret s
  | None => AAddSymbol (hash_loop id 0) id
  end.

(** [sym->type = type] for the symbol with the address [a]. *)
Definition set_sym_type (a : Z) (type : ATokenType) (t : SymTab) : SymTab :=
  MkSymTab (ASymSize t) (NumSyms t)
    ((fun c : list ASymbol => (fun s => if sym_addr s =? a then MkSymbol a type (str s) else s) <$> c) <$> ASym t).

(** The empty table that [AInitializeSymbolTable] starts from. *)
Definition empty_symtab : M SymTab :=
  table ← AllocSymbolTable SYMBOL_TABLE_INITIAL_SIZE;
  mret (MkSymTab (SYMBOL_TABLE_INITIAL_SIZE - 1) 0 table).

(** * The symbol table is a finite map from names to symbols *)


(** ** The invariant *)

Definition sym_hash (id : list Z) : Z := hash_loop id 0.

Lemma hash_loop_range s h : 0 <= h < BASE -> 0 <= hash_loop s h < BASE.
Proof.
  revert h. induction s as [|c s IH]; intros h Hh; [done|]. simpl. apply IH, u32_range.
Qed.

Lemma sym_hash_eq s : AGetSymbolHashValue s = sym_hash (str s).
Proof.
  unfold AGetSymbolHashValue, sym_hash. destruct (str s) as [|c l]; [done|]. simpl. f_equal.
  rewrite (u32_small (0 * 32)) by lia. rewrite Z.add_0_l. unfold u32. rewrite Z.add_0_l, Z.mod_mod by lia. done.
Qed.

(** The chains are those of a table of [2 ^ k] entries; every symbol is in the
    chain of its hash value, and no two symbols have the same name or the
    same address. *)
Record symtab_ok (t : SymTab) : Prop := {
  so_size : exists k, 0 <= k <= 31 /\ ASymSize t = 2 ^ k - 1;
  so_len : zlen (ASym t) = ASymSize t + 1;
  so_chain : forall i c s, ASym t !! i = Some c -> s ∈ c ->
    Z.land (sym_hash (str s)) (ASymSize t) = Z.of_nat i;
  so_names : NoDup (str <$> concat (ASym t));
  so_addrs : NoDup (sym_addr <$> concat (ASym t));
  so_old : Forall (fun s => sym_addr s < NumSyms t) (concat (ASym t))
}.

Lemma index_range t h :
  symtab_ok t -> 0 <= h -> 0 <= Z.land h (ASymSize t) < zlen (ASym t).
Proof.
  intros [(k & Hk & Hs) Hl _ _ _ _] Hh. rewrite Hl, Hs.
  replace (2 ^ k - 1) with (Z.ones k) by (rewrite Z.ones_equiv; lia).
  rewrite Z.land_ones by lia. pose proof (Z.mod_pos_bound h (2 ^ k)) as Hb.
  rewrite Z.ones_equiv. assert (0 < 2 ^ k) by (apply Z.pow_pos_nonneg; lia). lia.
Qed.

Lemma chain_lookup t h :
  symtab_ok t -> 0 <= h -> exists c, ASym t !! Z.to_nat (Z.land h (ASymSize t)) = Some c /\
    chain t (Z.land h (ASymSize t)) = c.
Proof.
  intros Ht Hh. pose proof (index_range t h Ht Hh).
  destruct (lookup_lt_is_Some_2 (ASym t) (Z.to_nat (Z.land h (ASymSize t)))) as [c Hc]; [lia|].
  exists c. split; [done|]. unfold chain. by rewrite Hc.
Qed.

Lemma elem_of_concat {A} (x : A) (ls : list (list A)) :
  x ∈ concat ls <-> exists i l, ls !! i = Some l /\ x ∈ l.
Proof.
  rewrite list_elem_of_In, in_concat. split.
  - intros (l & Hl & Hx). apply list_elem_of_In, list_elem_of_lookup in Hl as [i Hi].
    apply list_elem_of_In in Hx. by exists i, l.
  - intros (i & l & Hi & Hx). exists l. split; apply list_elem_of_In; [|done].
    by apply list_elem_of_lookup_2 in Hi.
Qed.

(** ** Looking up *)

Lemma find_in_chain_Some c id s : find_in_chain c id = Some s -> s ∈ c /\ str s = id.
Proof.
  induction c as [|s' c IH]; [done|]. simpl. case_decide as E.
  - intros [= ->]. split; [by left|done].
  - intros [H ?]%IH. split; [by right|done].
Qed.

Lemma find_in_chain_None c id : find_in_chain c id = None -> forall s, s ∈ c -> str s <> id.
Proof.
  induction c as [|s' c IH]; [by intros _ s Hs%elem_of_nil|]. simpl. case_decide as E; [done|].
  intros H s [->|Hs]%elem_of_cons; [done|]. by apply IH.
Qed.

Lemma names_inj (l : list ASymbol) s s' : NoDup (str <$> l) -> s ∈ l -> s' ∈ l -> str s = str s' -> s = s'.
Proof.
  induction l as [|x l IH]; [by intros _ ?%elem_of_nil|]. rewrite fmap_cons, list.NoDup_cons.
  intros [Hx Hl] [->|Hs]%elem_of_cons [->|Hs']%elem_of_cons He; [done| | |by apply IH]; destruct Hx;
    apply list_elem_of_fmap; eauto.
Qed.

Lemma addrs_inj (l : list ASymbol) s s' : NoDup (sym_addr <$> l) -> s ∈ l -> s' ∈ l -> sym_addr s = sym_addr s' -> s = s'.
Proof.
  induction l as [|x l IH]; [by intros _ ?%elem_of_nil|]. rewrite fmap_cons, list.NoDup_cons.
  intros [Hx Hl] [->|Hs]%elem_of_cons [->|Hs']%elem_of_cons He; [done| | |by apply IH]; destruct Hx;
    apply list_elem_of_fmap; eauto.
Qed.

(** [AFindSymbol] finds the symbol of a name exactly if there is one. *)
Lemma AFindSymbol_spec t id s :
  symtab_ok t -> AFindSymbol t id = Some s <-> s ∈ concat (ASym t) /\ str s = id.
Proof.
  intros Ht. assert (Hh : 0 <= hash_loop id 0) by (by apply hash_loop_range).
  destruct (chain_lookup t _ Ht Hh) as (c & Hc & Hch). unfold AFindSymbol. rewrite Hch. split.
  - intros [Hs He]%find_in_chain_Some. split; [|done]. apply elem_of_concat. eauto.
  - intros [Hs He]. pose proof Hs as Hs'. apply elem_of_concat in Hs as (i & c' & Hi & Hsc).
    pose proof (so_chain _ Ht i c' s Hi Hsc) as Hix. rewrite He in Hix. unfold sym_hash in Hix.
    rewrite Hix, Nat2Z.id in Hc. assert (c' = c) as -> by congruence.
    destruct (find_in_chain c id) as [s0|] eqn:E.
    + apply find_in_chain_Some in E as [Hs0 He0]. f_equal.
      apply (names_inj (concat (ASym t))); [apply Ht| |done|congruence].
      apply elem_of_concat. eauto.
    + by apply (find_in_chain_None _ _ E) in Hsc.
Qed.

Lemma AFindSymbol_None t id :
  symtab_ok t -> AFindSymbol t id = None <-> forall s, s ∈ concat (ASym t) -> str s <> id.
Proof.
  intros Ht. split.
  - intros Hn s Hs He. assert (Hf : AFindSymbol t id = Some s) by (by apply AFindSymbol_spec). congruence.
  - intros Hn. destruct (AFindSymbol t id) as [s|] eqn:E; [|done].
    apply AFindSymbol_spec in E as [Hs He]; [|done]. by apply Hn in Hs.
Qed.

(** ** Growing *)

Lemma split_chain_perm grow c : (split_chain grow c).1 ++ (split_chain grow c).2 ≡ₚ c.
Proof.
  induction c as [|s c IH]; [done|]. simpl. destruct (split_chain grow c) as [o n]. simpl in *.
  case_match; simpl; [|by rewrite IH]. by rewrite <- Permutation_middle, IH.
Qed.

Lemma split_chain_elem grow c s :
  (s ∈ (split_chain grow c).1 -> s ∈ c /\ Z.land (AGetSymbolHashValue s) grow = 0) /\
  (s ∈ (split_chain grow c).2 -> s ∈ c /\ Z.land (AGetSymbolHashValue s) grow <> 0).
Proof.
  induction c as [|s' c [IH1 IH2]]; [split; by intros ?%elem_of_nil|]. simpl.
  destruct (split_chain grow c) as [o n]. simpl in *.
  destruct (Z.eqb_spec (Z.land (AGetSymbolHashValue s') grow) 0) as [E|E]; simpl.
  - split; [intros [->|Hs]%elem_of_cons|intros Hs]; [split; [by left|done]|..].
    + destruct (IH1 Hs). split; [by right|done].
    + destruct (IH2 Hs). split; [by right|done].
  - split; [intros Hs|intros [->|Hs]%elem_of_cons]; [|split; [by left|done]|].
    + destruct (IH1 Hs). split; [by right|done].
    + destruct (IH2 Hs). split; [by right|done].
Qed.

Lemma split_table_perm grow (l : list (list ASymbol)) :
  concat (((fun c => (split_chain grow c).1) <$> l) ++ ((fun c => (split_chain grow c).2) <$> l)) ≡ₚ concat l.
Proof.
  rewrite concat_app. induction l as [|c l IH]; [done|]. simpl.
  rewrite <- (split_chain_perm grow c) at 3. rewrite <- IH, <- !app_assoc. apply Permutation_app_head.
  rewrite !app_assoc. apply Permutation_app_tail, Permutation_app_comm.
Qed.

(** One more bit of the hash value. *)
Lemma next_bit h k :
  0 <= k -> 0 <= h ->
  Z.land h (2 ^ (k + 1) - 1) = Z.land h (2 ^ k - 1) + (if Z.land h (2 ^ k) =? 0 then 0 else 2 ^ k).
Proof.
  intros Hk Hh. replace (2 ^ (k + 1) - 1) with (Z.ones (k + 1)) by (rewrite Z.ones_equiv; lia).
  replace (2 ^ k - 1) with (Z.ones k) by (rewrite Z.ones_equiv; lia). rewrite !Z.land_ones by lia.
  rewrite Z.pow_add_r, (Z.rem_mul_r h (2 ^ k) (2 ^ 1)) by (try apply Z.pow_nonzero; lia). f_equal.
  assert (Hb : Z.testbit h k = negb (Z.land h (2 ^ k) =? 0)).
  { destruct (Z.testbit h k) eqn:E; symmetry; [apply negb_true_iff, Z.eqb_neq|apply negb_false_iff, Z.eqb_eq].
    - intros H0. pose proof (f_equal (fun z => Z.testbit z k) H0) as H1. simpl in H1.
      rewrite Z.land_spec, E, Z.pow2_bits_true, Z.bits_0 in H1 by lia. done.
    - apply Z.bits_inj'. intros i Hi. rewrite Z.land_spec, Z.bits_0.
      destruct (decide (i = k)) as [->|]; [by rewrite E|]. by rewrite Z.pow2_bits_false, andb_false_r by lia. }
  rewrite Z.testbit_odd, Z.shiftr_div_pow2 in Hb by lia.
  rewrite Zmod_odd, Hb. destruct (Z.land h (2 ^ k) =? 0); simpl; lia.
Qed.

Lemma hash_nonneg id : 0 <= sym_hash id.
Proof. by apply hash_loop_range. Qed.

Lemma GrowSymbolTable_spec t k :
  symtab_ok t -> 0 <= k <= 30 -> ASymSize t = 2 ^ k - 1 ->
  sreturns GrowSymbolTable t (fun _ t' =>
    symtab_ok t' /\ ASymSize t' = 2 ^ (k + 1) - 1 /\ NumSyms t' = NumSyms t /\ concat (ASym t') ≡ₚ concat (ASym t)).
Proof.
  intros Ht Hk Hs. unfold GrowSymbolTable. apply sspec_get_bind. cbv zeta.
  replace (ASymSize t + 1) with (2 ^ k) by lia.
  eapply sreturns_lift_bind; [eapply returns_bind; [apply AAlloc_spec|]; intros; by apply (returns_ret _ (fun _ => True))|].
  intros _ _. apply sreturns_modify.
  pose proof (split_table_perm (2 ^ k) (ASym t)) as Hp.
  assert (Hpow : 2 ^ (k + 1) = 2 * 2 ^ k) by (rewrite Z.pow_add_r by lia; lia).
  split_and!; simpl; [|lia|done|done]. split; simpl.
  - exists (k + 1). lia.
  - rewrite length_app, !length_fmap. pose proof (so_len _ Ht). lia.
  - pose proof (so_len _ Ht) as Hlen. intros i c s Hi Hsc.
    replace (ASymSize t + 2 ^ k) with (2 ^ (k + 1) - 1) by lia.
    rewrite next_bit by (try apply hash_nonneg; lia). rewrite <- sym_hash_eq, Hs in *.
    apply lookup_app_Some in Hi as [Hi|[Hge Hi]]; rewrite list_lookup_fmap in Hi.
    + destruct (ASym t !! i) as [c0|] eqn:E; simpl in Hi; simplify_eq.
      apply split_chain_elem in Hsc as [Hin H0]. rewrite sym_hash_eq in H0 |- *. rewrite H0.
      pose proof (so_chain _ Ht i c0 s E Hin) as Hix. rewrite Hs in Hix. simpl. lia.
    + destruct (ASym t !! _) as [c0|] eqn:E; simpl in Hi; simplify_eq.
      apply split_chain_elem in Hsc as [Hin H0]. rewrite sym_hash_eq in H0 |- *.
      rewrite (proj2 (Z.eqb_neq _ _) H0). rewrite length_fmap in *.
      pose proof (so_chain _ Ht _ c0 s E Hin) as Hix. rewrite Hs in Hix. lia.
  - rewrite Hp. apply Ht.
  - rewrite Hp. apply Ht.
  - rewrite Hp. apply Ht.
Qed.

Lemma chains_alter (l : list (list ASymbol)) i s :
  (i < length l)%nat -> concat (alter (fun c => c ++ [s]) i l) ≡ₚ s :: concat l.
Proof.
  revert i. induction l as [|c l IH]; intros [|i] Hi; simpl in *; try lia.
  - rewrite <- app_assoc. simpl. by rewrite Permutation_middle.
  - change (c ++ concat (alter (fun c => c ++ [s]) i l) ≡ₚ s :: c ++ concat l).
    rewrite IH by lia. by rewrite Permutation_middle.
Qed.

(** Adding a symbol with a new name. *)
Lemma AAddSymbol_spec t id :
  symtab_ok t -> NumSyms t < 2 ^ 30 -> AFindSymbol t id = None ->
  sreturns (AAddSymbol (sym_hash id) id) t (fun s t' =>
    symtab_ok t' /\ s = MkSymbol (NumSyms t) TT_ID id /\ NumSyms t' = NumSyms t + 1 /\
    concat (ASym t') ≡ₚ s :: concat (ASym t)).
Proof.
  intros Ht Hn Hnone. unfold AAddSymbol. apply sspec_get_bind. cbv zeta. apply sspec_modify_bind.
  set (t1 := MkSymTab (ASymSize t) (NumSyms t + 1) (ASym t)).
  assert (Ht1 : symtab_ok t1).
  { destruct Ht as [? ? ? ? ? Ho]. split; try done. simpl. eapply Forall_impl; [|exact Ho]. simpl. lia. }
  eapply (sreturns_bind _ _ _ (fun _ t2 => symtab_ok t2 /\ NumSyms t2 = NumSyms t + 1 /\
    concat (ASym t2) ≡ₚ concat (ASym t))).
  { destruct (Z.eqb_spec (NumSyms t) (ASymSize t)) as [He|He]; [|by apply sreturns_ret].
    destruct (so_size _ Ht) as (k & Hk & Hsz).
    eapply sreturns_mono; [apply (GrowSymbolTable_spec t1 k); [done| |done]|].
    - split; [lia|]. apply Z.lt_succ_r, (Z.pow_lt_mono_r_iff 2); [lia|lia|].
      change (2 ^ Z.succ 30) with (2 ^ 31). lia.
    - intros _ t2 (Ht2 & _ & Hn2 & Hp). by split_and!. }
  intros _ t2 (Ht2 & Hn2 & Hp).
  eapply sreturns_lift_bind; [apply AAlloc_spec|]. intros _ _. apply sspec_modify_bind. apply sreturns_ret.
  set (s := MkSymbol (NumSyms t) TT_ID id). set (i := Z.land (sym_hash id) (ASymSize t2)).
  assert (Hi : 0 <= i < zlen (ASym t2)) by (apply index_range; [done|apply hash_nonneg]).
  pose proof (chains_alter (ASym t2) (Z.to_nat i) s ltac:(lia)) as Hc. rewrite Hp in Hc.
  split_and!; [|done|done|exact Hc].
  split; simpl.
  - apply Ht2.
  - rewrite length_alter. apply Ht2.
  - intros j c s' Hj Hs'. destruct (decide (j = Z.to_nat i)) as [->|Hne].
    + rewrite list_lookup_alter_eq in Hj. destruct (ASym t2 !! Z.to_nat i) as [c0|] eqn:E; simpl in Hj; [|done].
      simplify_eq. apply elem_of_app in Hs' as [Hs'|Hs'%list_elem_of_singleton].
      * by apply (so_chain _ Ht2 _ c0).
      * subst s'. simpl. fold i. lia.
    + rewrite list_lookup_alter_ne in Hj by done. by apply (so_chain _ Ht2 j c).
  - rewrite Hc. simpl. apply list.NoDup_cons. split; [|apply Ht].
    intros (s' & He & Hs')%list_elem_of_fmap. symmetry in He. revert He.
    by apply (proj1 (AFindSymbol_None t id Ht) Hnone).
  - rewrite Hc. simpl. apply list.NoDup_cons. split; [|apply Ht].
    intros (s' & He & Hs')%list_elem_of_fmap. pose proof (so_old _ Ht) as Ho.
    rewrite Forall_forall in Ho. specialize (Ho s'). rewrite <- list_elem_of_In in Ho. specialize (Ho Hs').
    simpl in He. lia.
  - rewrite Hn2, Hc. constructor; [simpl; lia|]. eapply Forall_impl; [|apply Ht]. simpl. lia.
Qed.
