(* ===== verification/Lexer.v ===== *)
(** * Lexer: the lexical analyzer

    [lex.c] and [AStrToFloat] of [strtonum.c].  A pointer into the source text
    is the list of the characters from it to the end of the text ([srcEnd]);
    reading behind the end is a fault.  [strtod] of the C library is a
    parameter.  Where C returns [FALSE] for lack of memory, the model raises
    [MemoryError].  A constant is the number of its entry in the list of
    constants: the slots by which [globals.c] links its buckets are not
    counted. *)

From Stdlib Require Import SpecFloat.
From S2P Require Import Prelude Runtime Digits Value LongInt IntOps IntConv Encodings StrOps.
From S2P Require Import Tokens SymTable.

Open Scope Z_scope.

(** ** State *)

Inductive AEncoding := AENC_ASCII | AENC_LATIN1 | AENC_UTF8.

#[export] Instance AEncoding_eq_dec : EqDecision AEncoding.
Proof. solve_decision. Defined.

Inductive ConstValue :=
  | ConstNum (v : AValue)
  | ConstStr (s : StrObj).

(** The global variables the lexer uses and the local variables of
    [ATokenize]. *)
Record LexState := MkLex {
  tokens : TokenStore;
  symtab : SymTab;
  ALatin1Symbol : option Z;
  AUtf8Symbol : option Z;
  AAsciiSymbol : option Z;
  constants : list ConstValue;
  lineNumber : Z;
  encoding : AEncoding;
  isPreviousSymbolEncoding : bool
}.

(** Functions on one of the members. *)
Definition with_tokens {A} (m : SM TokenStore A) : SM LexState A := fun s t =>
  let '(r, k, t) := m (tokens s) t in
  (r, MkLex k (symtab s) (ALatin1Symbol s) (AUtf8Symbol s) (AAsciiSymbol s) (constants s) (lineNumber s)
        (encoding s) (isPreviousSymbolEncoding s), t).
Definition with_symtab {A} (m : SM SymTab A) : SM LexState A := fun s t =>
  let '(r, k, t) := m (symtab s) t in
  (r, MkLex (tokens s) k (ALatin1Symbol s) (AUtf8Symbol s) (AAsciiSymbol s) (constants s) (lineNumber s)
        (encoding s) (isPreviousSymbolEncoding s), t).
Definition set_lineNumber (n : Z) : SM LexState unit := modify (fun s =>
  MkLex (tokens s) (symtab s) (ALatin1Symbol s) (AUtf8Symbol s) (AAsciiSymbol s) (constants s) n
    (encoding s) (isPreviousSymbolEncoding s)).
Definition set_encoding (e : AEncoding) : SM LexState unit := modify (fun s =>
  MkLex (tokens s) (symtab s) (ALatin1Symbol s) (AUtf8Symbol s) (AAsciiSymbol s) (constants s) (lineNumber s)
    e (isPreviousSymbolEncoding s)).
Definition set_isPrevious (b : bool) : SM LexState unit := modify (fun s =>
  MkLex (tokens s) (symtab s) (ALatin1Symbol s) (AUtf8Symbol s) (AAsciiSymbol s) (constants s) (lineNumber s)
    (encoding s) b).

(** [AAddConstGlobalValue(v)]. *)
Definition AAddConstGlobalValue (v : ConstValue) : SM LexState Z :=
  s ← get;
  lift barrier ≫= (fun _ =>
  modify (fun s => MkLex (tokens s) (symtab s) (ALatin1Symbol s) (AUtf8Symbol s) (AAsciiSymbol s)
    (constants s ++ [v]) (lineNumber s) (encoding s) (isPreviousSymbolEncoding s)) ≫= (fun _ =>
  mret (zlen (constants s)))).

(** ** Characters *)

(** [src[i]] *)
Definition peek (src : list Z) (i : nat) : M Z :=
  match src !! i with Some c => mret c | None => fault end.

Definition is_newline (c : Z) : bool := (c =? 10) || (c =? 13).
Definition ALoCase (c : Z) : Z := Z.lor c 32.
Definition AIsAlpha (c : Z) : bool := (97 <=? ALoCase c) && (ALoCase c <=? 122).
Definition IsIdChar (c : Z) : bool :=
  ((65 <=? c) && (c <=? 90)) || ((97 <=? c) && (c <=? 122)) || ((48 <=? c) && (c <=? 57)) || (c =? 95).
Definition AIsHexDigit (c : Z) : bool := AIsDigit c || ((97 <=? ALoCase c) && (ALoCase c <=? 102)).
Definition AHexDigitToNum (c : Z) : Z := if 97 <=? c then c - 97 + 10 else if 65 <=? c then c - 65 + 10 else c - 48.
Definition AUnicodeSequenceValue (a b c d : Z) : Z :=
  Z.lor (Z.lor (Z.lor (Z.shiftl (AHexDigitToNum a) 12) (Z.shiftl (AHexDigitToNum b) 8))
    (Z.shiftl (AHexDigitToNum c) 4)) (AHexDigitToNum d).

(** [IgnoreNewLine[]]: the types of tokens behind which a newline is
    ignored. *)
Definition IgnoreNewLine (t : ATokenType) : bool :=
  match t with
  | TT_GT => false
  | TT_COMMA | TT_LPAREN | TT_LBRACKET | TT_ASSIGN | TT_DOT | TT_AS | TT_NEWLINE => true
  | _ => AIsBinaryOperator t || AIsOperatorAssignment t
  end.

(** Four hexadecimal digits behind [\u], and their value. *)
Definition hex_digits (p : list Z) (i : nat) : M bool :=
  c ← peek p i;
  if negb (AIsHexDigit c) then mret false
  else c ← peek p (i + 1);
  if negb (AIsHexDigit c) then mret false
  else c ← peek p (i + 2);
  if negb (AIsHexDigit c) then mret false
  else c ← peek p (i + 3); mret (AIsHexDigit c).

Definition IsUnicodeSequence (p : list Z) : M bool :=
  c ← peek p 0;
  if c =? 92 then
    c ← peek p 1;
    if c =? 117 then hex_digits p 2 else mret false
  else mret false.

Definition unicode_value (p : list Z) : M Z :=
  a ← peek p 2; b ← peek p 3; c ← peek p 4; d ← peek p 5; mret (AUnicodeSequenceValue a b c d).

(** [IsInvalidUtf8Sequence(s)]. *)
Definition IsInvalidUtf8Sequence (s : list Z) : M bool :=
  ch1 ← peek s 0;
  if ch1 <? 0xc2 then mret true
  else if ch1 <? 0xe0 then ch2 ← peek s 1; mret ((ch2 <? 0x80) || (0xbf <? ch2))
  else
    ch2 ← peek s 1;
    if ch2 <? 0x80 then mret true
    else
      ch3 ← peek s 2;
      mret ((0xbf <? ch2) || (ch3 <? 0x80) || (0xbf <? ch3) || ((ch1 =? 0xe0) && (ch2 <? 0xa0))).

(** ** Comments *)

(** The loops over a comment, from its second hyphen to the end of the line;
    the result tells whether there was an invalid character. *)
Fixpoint ascii_comment (src : list Z) (isInvalid : bool) : M (list Z * bool) :=
  match src with
  | [] => fault
  | _ :: src =>
    c ← peek src 0;
    let isInvalid := isInvalid || (127 <? c) in
    if is_newline c then mret (src, isInvalid) else ascii_comment src isInvalid
  end.

Fixpoint utf8_comment (fuel : nat) (src : list Z) (isInvalid : bool) : M (list Z * bool) :=
  match fuel with
  | O => fault
  | S fuel =>
    c ← peek src 0;
    bad ← (if 127 <? c then IsInvalidUtf8Sequence src else mret false);
    let '(src, isInvalid) :=
      if bad : bool then (drop 1 src, true) else (drop (Z.to_nat (A_UTF8_SKIP c)) src, isInvalid) in
    c ← peek src 0;
    if is_newline c then mret (src, isInvalid) else utf8_comment fuel src isInvalid
  end.

Definition comment (encoding : AEncoding) (src : list Z) : M (list Z * option ATokenType) :=
  match encoding with
  | AENC_ASCII =>
    r ← ascii_comment src false; mret (r.1, if r.2 : bool then Some TT_ERR_NON_ASCII_COMMENT_CHAR else None)
  | AENC_UTF8 =>
    r ← utf8_comment (length src) src false;
    mret (r.1, if r.2 : bool then Some TT_ERR_INVALID_UTF8_SEQUENCE else None)
  | AENC_LATIN1 =>
    (* The loop is that of the other encoding without the check. *)
    r ← ascii_comment src false; mret (r.1, None)
  end.

(** ** String literals *)

Record scan := MkScan {
  scan_p : list Z;
  numQuotes : Z;
  numUnicodeSequences : Z;
  isWide : bool;
  isInvalid : bool
}.

(** The loop that checks a literal, up to its closing quote or the end of the
    line. *)
Fixpoint scan_literal (fuel : nat) (quote : Z) (encoding : AEncoding) (s : scan) : M scan :=
  match fuel with
  | O => fault
  | S fuel =>
    let p := scan_p s in
    let go n nq nu w inv := scan_literal fuel quote encoding (MkScan (drop n p) nq nu w inv) in
    c ← peek p 0;
    if is_newline c then mret s
    else if c =? quote then
      c1 ← peek p 1;
      if negb (c1 =? quote) then mret s
      else go 2%nat (numQuotes s + 1) (numUnicodeSequences s) (isWide s) (isInvalid s)
    else
      u ← IsUnicodeSequence p;
      if u : bool then
        c2 ← peek p 2; c3 ← peek p 3;
        go 6%nat (numQuotes s) (numUnicodeSequences s + 1)
          (isWide s || negb (c2 =? 48) || negb (c3 =? 48)) (isInvalid s)
      else if 128 <=? c then
        match encoding with
        | AENC_ASCII => go 1%nat (numQuotes s) (numUnicodeSequences s) (isWide s) true
        | AENC_UTF8 =>
          bad ← IsInvalidUtf8Sequence p;
          if bad : bool then go 1%nat (numQuotes s) (numUnicodeSequences s) true true
          else go (Z.to_nat (A_UTF8_SKIP c)) (numQuotes s) (numUnicodeSequences s) true (isInvalid s)
        | AENC_LATIN1 => go 1%nat (numQuotes s) (numUnicodeSequences s) (isWide s) (isInvalid s)
        end
      else go 1%nat (numQuotes s) (numUnicodeSequences s) (isWide s) (isInvalid s)
  end.

(** A store behind the characters that a new string of [size] characters has
    so far. *)
Definition put (size : Z) (elem : list Z) (c : Z) : M (list Z) :=
  if zlen elem <? size then mret (elem ++ [c]) else fault.

(** The loops of [CreateStringLiteral] for a narrow string, and for a wide
    one in an encoding with one byte per character; [until] is the number of
    characters behind the literal. *)
Fixpoint copy_literal (fuel : nat) (wide : bool) (quote : Z) (size : Z) (p : list Z) (until : nat) (elem : list Z)
    : M (list Z) :=
  if (until <? length p)%nat then
    match fuel with
    | O => fault
    | S fuel =>
      c ← peek p 0;
      let p := if c =? quote then drop 1 p else p in
      u ← IsUnicodeSequence p;
      if u : bool then
        v ← unicode_value p;
        elem ← put size elem ((if wide then u16 else u8) v);
        copy_literal fuel wide quote size (drop 6 p) until elem
      else
        c ← peek p 0;
        elem ← put size elem c;
        copy_literal fuel wide quote size (drop 1 p) until elem
    end
  else mret elem.

(** One character of a UTF-8 text that has been found valid. *)
Definition utf8_unit (p : list Z) : M (Z * nat) :=
  ch1 ← peek p 0;
  if ch1 <=? 0x7f then mret (ch1, 1%nat)
  else if ch1 <? 0xc2 then mret (ch1, 1%nat)
  else if ch1 <? 0xe0 then
    ch2 ← peek p 1; mret (u16 (Z.lor (Z.shiftl (Z.land ch1 0x1f) 6) (Z.land ch2 0x3f)), 2%nat)
  else
    ch2 ← peek p 1; ch3 ← peek p 2;
    mret (u16 (Z.lor (Z.lor (Z.shiftl (Z.land ch1 0xf) 12) (Z.shiftl (Z.land ch2 0x3f) 6)) (Z.land ch3 0x3f)), 3%nat).

Fixpoint copy_utf8_literal (fuel : nat) (quote : Z) (size : Z) (p : list Z) (until : nat) (elem : list Z)
    : M (list Z) :=
  if (until <? length p)%nat then
    match fuel with
    | O => fault
    | S fuel =>
      c ← peek p 0;
      let p := if c =? quote then drop 1 p else p in
      u ← IsUnicodeSequence p;
      if u : bool then
        v ← unicode_value p;
        elem ← put size elem (u16 v);
        copy_utf8_literal fuel quote size (drop 6 p) until elem
      else
        r ← utf8_unit p;
        elem ← put size elem r.1;
        copy_utf8_literal fuel quote size (drop r.2 p) until elem
    end
  else mret elem.

(** The loop that bounds the number of characters of a wide literal. *)
Fixpoint literal_length (fuel : nat) (p : list Z) (until : nat) (len : Z) : M Z :=
  if (until <? length p)%nat then
    match fuel with
    | O => fault
    | S fuel => c ← peek p 0; literal_length fuel (drop (Z.to_nat (A_UTF8_SKIP c)) p) until (len + 1)
    end
  else mret len.

(** [CreateStringLiteral(p, end, quote, numQuotes, numUnicodeSequences, isWide,
    encoding)]: [s] holds [end] and what the check has found. *)
Definition CreateStringLiteral (p : list Z) (quote : Z) (encoding : AEncoding) (s : scan) : M StrObj :=
  let until := length (scan_p s) in
  let bytes := Z.of_nat (length p - until) - numQuotes s - 5 * numUnicodeSequences s in
  if negb (isWide s) then
    AAlloc (8 + bytes) ≫= (fun _ =>
    elem ← copy_literal (length p) false quote bytes p until [];
    mret (NarrowStr elem))
  else
    match encoding with
    | AENC_UTF8 =>
      n ← literal_length (length p) p until 0;
      let len := u32 (n - (numQuotes s - 5 * numUnicodeSequences s)) in
      AAlloc (8 + 2 * len) ≫= (fun _ =>
      elem ← copy_utf8_literal (length p) quote len p until [];
      mret (WideStr elem))
    | _ =>
      let len := u32 bytes in
      AAlloc (8 + 2 * len) ≫= (fun _ =>
      elem ← copy_literal (length p) true quote len p until [];
      mret (WideStr elem))
    end.

(** The case of a quote: the type and the constant of the token, and the text
    behind it. *)
Definition lex_string (quote : Z) (src : list Z) : SM LexState (list Z) :=
  s ← get;
  r ← lift (scan_literal (length src) quote (encoding s) (MkScan src 0 0 false false));
  if isInvalid r then
    with_tokens (set_type (if decide (encoding s = AENC_ASCII) then TT_ERR_NON_ASCII_STRING_CHAR
                           else TT_ERR_INVALID_UTF8_SEQUENCE)) ≫= (fun _ => mret src)
  else
    c ← lift (peek (scan_p r) 0);
    if c =? quote then
      v ← lift (CreateStringLiteral src quote (encoding s) r);
      num ← AAddConstGlobalValue (ConstStr v);
      with_tokens (set_tok TT_LITERAL_STRING (InfoNum num)) ≫= (fun _ => mret (drop 1 (scan_p r)))
    else with_tokens (set_type TT_ERR_STRING_UNTERMINATED) ≫= (fun _ => mret src).

(** ** Numbers *)

Fixpoint skip_digits (s : list Z) : list Z :=
  match s with
  | c :: r => if AIsDigit c then skip_digits r else s
  | [] => []
  end.

Definition MAX_FLOAT_LEN : Z := 2048.

(** [str < end - 1 && *str] is one of the characters [cs]. *)
Definition at_char (str : list Z) (cs : list Z) : bool :=
  match str with
  | c :: _ :: _ => existsb (Z.eqb c) cs
  | _ => false
  end.

Section numbers.
Context (strtod : list Z -> spec_float).

(** The end of the prefix of a text that is a floating point literal, and
    whether its exponent has digits. *)
Definition float_exponent (str : list Z) : M (list Z * bool) :=
  if at_char str [101; 69] then
    let str := drop 1 str in
    let str := if at_char str [45; 43] then drop 1 str else str in
    c ← peek str 0;
    if AIsDigit c then mret (skip_digits (drop 1 str), false) else mret (str, true)
  else mret (str, false).

Definition AStrToFloat (beg : list Z) : M (option AValue * list Z) :=
  let str := skip_blanks beg in
  let str := if at_char str [45; 43] then drop 1 str else str in
  let numBeg := str in
  let str := skip_digits str in
  let str := match str with
             | 46 :: c :: r => if AIsDigit c then skip_digits r else str
             | _ => str
             end in
  r ← float_exponent str;
  let '(str, isErr) := r in
  if (length str =? length numBeg)%nat || isErr then mret (None, str)
  else if MAX_FLOAT_LEN <? zlen beg - zlen str then mret (None, str)
  else
    v ← ACreateFloat (strtod (take (length beg - length str) beg));
    mret (Some v, str).

Fixpoint skip_id (src : list Z) : M (list Z) :=
  match src with
  | [] => fault
  | c :: r => if IsIdChar c then skip_id r else mret src
  end.

(** [!IsIdChar[*src] && ( *src != '.' || !AIsDigit(src[1]) )]: the end of an
    integer literal. *)
Definition ends_int (src : list Z) : M bool :=
  c ← peek src 0;
  if IsIdChar c then mret false
  else if c =? 46 then d ← peek src 1; mret (negb (AIsDigit d))
  else mret true.

Definition lex_float (numBeg : list Z) : SM LexState (list Z) :=
  r ← lift (AStrToFloat numBeg);
  let '(num, src) := r in
  c ← lift (peek src 0);
  match (if IsIdChar c then None else num) with
  | Some v =>
    num ← AAddConstGlobalValue (ConstNum v);
    with_tokens (set_tok TT_LITERAL_FLOAT (InfoNum num)) ≫= (fun _ => mret src)
  | None =>
    src ← lift (skip_id src);
    with_tokens (set_type TT_ERR_INVALID_NUMERIC) ≫= (fun _ => mret src)
  end.

(** The case of a digit, or of a period in front of a digit. *)
Definition lex_number (c : Z) (src : list Z) : SM LexState (list Z) :=
  if c =? 46 then lex_float (c :: src)
  else
    e ← lift (ends_int src);
    if e : bool then
      with_tokens (set_tok TT_LITERAL_INT (InfoVal (VInt (AIntToValue (c - 48))))) ≫= (fun _ => mret src)
    else
      r ← lift (AStrToInt (c :: src));
      let '(num, src') := r in
      e ← lift (ends_int src');
      if e : bool then
        let small := match num with VInt w => w <? 32767 | _ => false end in
        if small then with_tokens (set_tok TT_LITERAL_INT (InfoVal num)) ≫= (fun _ => mret src')
        else
          i ← AAddConstGlobalValue (ConstNum num);
          with_tokens (set_tok TT_LITERAL_FLOAT (InfoNum i)) ≫= (fun _ => mret src')
      else lex_float (c :: src).

(** ** Identifiers *)

(** The loop over an identifier behind its first character: its characters,
    its hash value and the text behind it. *)
Fixpoint scan_id (src : list Z) (id : list Z) (hashValue : Z) : M (list Z * Z * list Z) :=
  match src with
  | [] => fault
  | c :: r =>
    if IsIdChar c then scan_id r (id ++ [c]) (u32 (hashValue + u32 (u32 (hashValue * 32) + c)))
    else mret (id, hashValue, src)
  end.

(** The change of the encoding behind the word [encoding]. *)
Definition switch_encoding (sym : Z) : SM LexState unit :=
  s ← get;
  if decide (ALatin1Symbol s = Some sym) then set_encoding AENC_LATIN1
  else if decide (AUtf8Symbol s = Some sym) then set_encoding AENC_UTF8
  else if decide (AAsciiSymbol s = Some sym) then set_encoding AENC_ASCII
  else mret tt.

Definition lex_id (c : Z) (src : list Z) : SM LexState (list Z) :=
  r ← lift (scan_id src [c] c);
  let '(id, hashValue, src) := r in
  s ← get;
  match find_in_chain (chain (symtab s) (Z.land hashValue (ASymSize (symtab s)))) id with
  | Some sym =>
    with_tokens (set_tok (sym_type sym) (InfoSym (sym_addr sym))) ≫= (fun _ =>
    (if isPreviousSymbolEncoding s then switch_encoding (sym_addr sym) else mret tt) ≫= (fun _ =>
    set_isPrevious (bool_decide (sym_type sym = TT_ENCODING)) ≫= (fun _ => mret src)))
  | None =>
    sym ← with_symtab (AAddSymbol hashValue id);
    with_tokens (set_tok TT_ID (InfoSym (sym_addr sym))) ≫= (fun _ => mret src)
  end.

(** ** Operators and punctuators *)

(** The tokens of one or more special characters: the type and the rest of
    the text, [None] for other characters. *)
Definition punctuator (c : Z) (src : list Z) : M (option (ATokenType * list Z)) :=
  let one t := mret (Some (t, src)) in
  let two ch t t' := (d ← peek src 0; mret (Some (if d =? ch then (t', drop 1 src) else (t, src)))) in
  if c =? 40 then one TT_LPAREN
  else if c =? 41 then one TT_RPAREN
  else if c =? 91 then one TT_LBRACKET
  else if c =? 93 then one TT_RBRACKET
  else if c =? 43 then two 61 TT_PLUS TT_ASSIGN_ADD
  else if c =? 45 then two 61 TT_MINUS TT_ASSIGN_SUB
  else if c =? 42 then
    d ← peek src 0;
    if d =? 61 then mret (Some (TT_ASSIGN_MUL, drop 1 src))
    else if d =? 42 then
      e ← peek src 1;
      mret (Some (if e =? 61 then (TT_ASSIGN_POW, drop 2 src) else (TT_POW, drop 1 src)))
    else one TT_ASTERISK
  else if c =? 47 then two 61 TT_DIV TT_ASSIGN_DIV
  else if c =? 58 then two 58 TT_COLON TT_SCOPEOP
  else if c =? 61 then two 61 TT_ASSIGN TT_EQ
  else if c =? 60 then two 61 TT_LT TT_LTE
  else if c =? 33 then two 61 TT_ERR_UNRECOGNIZED_CHAR TT_NEQ
  else if c =? 62 then two 61 TT_GT TT_GTE
  else if c =? 44 then one TT_COMMA
  else mret None.

(** ** The lexical analyzer *)

(** What one round of the loop does: return, go on without a token, or finish
    the current token. *)
Inductive round :=
  | Finished
  | NoToken (src : list Z)
  | Token (src : list Z).

(** The character [c] is a newline. *)
Definition lex_newline (c : Z) (src : list Z) : SM LexState round :=
  let src := match src with 10 :: r => if c =? 13 then r else src | _ => src end in
  s ← get;
  let line := lineNumber s + 1 in
  set_lineNumber line ≫= (fun _ =>
  prev ← with_tokens previous;
  if IgnoreNewLine (type prev) then
    with_tokens (set_line line) ≫= (fun _ =>
    mret (match src with [] => Finished | _ => NoToken src end))
  else
    with_tokens (set_type TT_NEWLINE) ≫= (fun _ =>
    match src with
    | [] => with_tokens AdvanceNewToken ≫= (fun _ => with_tokens (set_line line) ≫= (fun _ => mret Finished))
    | _ => mret (Token src)
    end)).

Definition lex_char (c : Z) (src : list Z) : SM LexState round :=
  if is_newline c then lex_newline c src
  else if c =? 59 then
    prev ← with_tokens previous;
    if decide (type prev = TT_NEWLINE) then mret (NoToken src)
    else with_tokens (set_type TT_NEWLINE) ≫= (fun _ => mret (Token src))
  else if (c =? 32) || (c =? 9) then mret (NoToken src)
  else if (c =? 34) || (c =? 39) then src ← lex_string c src; mret (Token src)
  else if AIsDigit c then src ← lex_number c src; mret (Token src)
  else if AIsAlpha c || (c =? 95) then src ← lex_id c src; mret (Token src)
  else
    d ← (if (c =? 45) || (c =? 46) then lift (peek src 0) else mret 0);
    if (c =? 45) && (d =? 45) then
      s ← get;
      r ← lift (comment (encoding s) src);
      match r.2 with
      | None => mret (NoToken r.1)
      | Some err => with_tokens (set_type err) ≫= (fun _ => mret (Token r.1))
      end
    else if c =? 46 then
      if AIsDigit d then src ← lex_number c src; mret (Token src)
      else with_tokens (set_type TT_DOT) ≫= (fun _ => mret (Token src))
    else
      r ← lift (punctuator c src);
      match r with
      | Some (t, src) => with_tokens (set_type t) ≫= (fun _ => mret (Token src))
      | None => with_tokens (set_type TT_ERR_UNRECOGNIZED_CHAR) ≫= (fun _ => mret (Token src))
      end.

Fixpoint tokenize_loop (fuel : nat) (src : list Z) : SM LexState unit :=
  match fuel with
  | O => lift fault
  | S fuel =>
    s ← get;
    with_tokens (set_line (lineNumber s)) ≫= (fun _ =>
    c ← lift (peek src 0);
    r ← lex_char c (drop 1 src);
    match r with
    | Finished => mret tt
    | NoToken src => tokenize_loop fuel src
    | Token src => with_tokens next_token ≫= (fun _ => tokenize_loop fuel src)
    end)
  end.

(** The byte order mark and the first line of a script. *)
Definition skip_bom (src : list Z) : SM LexState (list Z) :=
  s ← get;
  match src with
  | 0xef :: 0xbb :: 0xbf :: r =>
    if lineNumber s =? 1 then
      with_tokens (set_line 1) ≫= (fun _ => with_tokens (set_type TT_BOM) ≫= (fun _ =>
      with_tokens (c ← get; move_cursor (S (cursor c))) ≫= (fun _ => mret r)))
    else mret src
  | _ => mret src
  end.

Fixpoint skip_line (src : list Z) : M (list Z) :=
  match src with
  | [] => fault
  | c :: r => if is_newline c then mret src else skip_line r
  end.

Definition skip_hash_bang (src : list Z) : SM LexState (list Z) :=
  s ← get;
  match src with
  | 35 :: 33 :: _ => if lineNumber s =? 1 then lift (skip_line src) else mret src
  | _ => mret src
  end.

(** [ATokenize(src, srcEnd, tokenList, tokPtr, encodingPtr)]: [enc] is the
    initial [*encodingPtr], [None] if the pointer is [NULL].  The current token
    and the final encoding are members of the state. *)
Definition ATokenize (src : list Z) (enc : option AEncoding) : SM LexState unit :=
  set_encoding (default AENC_UTF8 enc) ≫= (fun _ =>
  set_isPrevious false ≫= (fun _ =>
  s ← get;
  (match blocks (tokens s) with
   | [] =>
     b ← lift CreateTokenBlock;
     with_tokens (modify (fun _ => MkTokens [b] 0)) ≫= (fun _ => set_lineNumber 1)
   | _ =>
     tok ← lift (entry (tokens s) (cursor (tokens s)));
     set_lineNumber (tokLine tok)
   end) ≫= (fun _ =>
  src ← skip_bom src;
  src ← skip_hash_bang src;
  tokenize_loop (S (length src)) src))).

End numbers.
