(* ===== verification/TokensSpec.v ===== *)
(** * TokensSpec: a token list is a list of tokens

    The sequence of tokens that the blocks of a token list hold, and the
    operations at its end in terms of it. *)

From S2P Require Import Prelude Runtime Digits Value StrOps Tokens.

Open Scope Z_scope.

(** The types that mark the end of a block. *)
Definition is_mark (t : ATokenType) : bool := bool_decide (t = TT_EOB \/ t = TT_LAST_TOKEN).

(** The tokens in full blocks: the last one is found again in the next block. *)
Definition stream_of (pre : list (list AToken)) : list AToken := concat (take 62 <$> pre).

Definition block_ok (b : list AToken) : Prop :=
  length b = TOKEN_BLOCK_SIZE /\ forall i t, b !! i = Some t -> (i < 63)%nat -> is_mark (type t) = false.

(** [s] consists of the full blocks [pre] and the last block [b]. *)
Record store_ok (s : TokenStore) (pre : list (list AToken)) (b : list AToken) : Prop := {
  st_blocks : blocks s = pre ++ [b];
  st_cursor : (cursor s <= 62)%nat /\ (pre <> [] -> 1 <= cursor s)%nat;
  st_last : block_ok b /\ type <$> b !! 63%nat = Some TT_LAST_TOKEN;
  st_pre : forall i p, pre !! i = Some p -> block_ok p /\
    (exists l, p !! 63%nat = Some (MkToken (InfoBlock (S i)) l TT_EOB)) /\
    exists b' t, (pre ++ [b]) !! S i = Some b' /\ p !! 62%nat = Some t /\ b' !! 0%nat = Some t
}.

(** The tokens [done] have been written and [cur] is the current one. *)
Definition store_view (s : TokenStore) (done : list AToken) (cur : AToken) : Prop :=
  exists pre b, store_ok s pre b /\ done = stream_of pre ++ take (cursor s) b /\ b !! cursor s = Some cur.

Lemma entry_last s pre b i t :
  blocks s = pre ++ [b] -> b !! i = Some t -> evals (entry s i) t.
Proof. intros Hb Hi. unfold entry. rewrite Hb, list.last_snoc, Hi. apply evals_ret. Qed.

Lemma alter_last {A} (f : A -> A) (l : list A) x : alter f (length (l ++ [x]) - 1)%nat (l ++ [x]) = l ++ [f x].
Proof.
  rewrite length_app, Nat.add_sub. replace (length l) with (length l + 0)%nat by lia. by rewrite alter_app_r.
Qed.

Lemma block_ok_alter b i f t :
  block_ok b -> b !! i = Some t -> is_mark (type (f t)) = false \/ (63 <= i)%nat -> block_ok (alter f i b).
Proof.
  intros [Hl Ht] Hi Hf. split; [by rewrite length_alter|]. intros j u Hj Hlt.
  destruct (decide (i = j)) as [->|Hne].
  - rewrite list_lookup_alter_eq, Hi in Hj. simpl in Hj. simplify_eq. destruct Hf; [done|lia].
  - rewrite list_lookup_alter_ne in Hj by done. by apply (Ht j).
Qed.

Lemma set_entry_eq s pre b i t f :
  blocks s = pre ++ [b] -> b !! i = Some t ->
  sreturns (set_entry i f) s (fun _ s' => s' = MkTokens (pre ++ [alter f i b]) (cursor s)).
Proof.
  intros Hb Hi. unfold set_entry. apply sspec_get_bind.
  eapply (sreturns_lift_bind _ _ _ (fun x => x = t));
    [by eapply evals_returns; [by apply (entry_last s pre b)|]|].
  intros x ->. apply sreturns_modify. by rewrite Hb, alter_last.
Qed.

(** A change of the current token. *)
Lemma set_entry_view s done cur f :
  store_view s done cur -> is_mark (type (f cur)) = false ->
  sreturns (set_entry (cursor s) f) s (fun _ s' => store_view s' done (f cur) /\ cursor s' = cursor s).
Proof.
  intros (pre & b & Hs & -> & Hcur) Hf. pose proof Hs as [Hb [Hc Hc1] [Hbo Hlast] Hpre].
  eapply sreturns_mono; [by apply (set_entry_eq s pre b _ cur)|]. intros _ s' ->. split; [|done].
  exists pre, (alter f (cursor s) b). split_and!.
  - split; simpl; [done|done| |].
    + split; [by apply (block_ok_alter _ _ _ cur); [..|left]|]. rewrite list_lookup_alter_ne by lia. done.
    + intros i p Hi. destruct (Hpre i p Hi) as (Hp & Hmark & b' & t & Hb' & Hp62 & Hb0).
      split_and!; [done|done|].
      destruct (decide (S i = length pre)) as [Heq|Hne].
      * rewrite lookup_app_r in Hb' by lia. replace (S i - length pre)%nat with 0%nat in Hb' by lia.
        simpl in Hb'. simplify_eq. exists (alter f (cursor s) b'), t.
        rewrite lookup_app_r by lia. replace (S i - length pre)%nat with 0%nat by lia.
        split_and!; [done|done|]. rewrite list_lookup_alter_ne; [done|].
        assert (pre <> []) by (intros ->; by rewrite lookup_nil in Hi). specialize (Hc1 ltac:(done)). lia.
      * exists b', t. split_and!; [|done|done]. pose proof (lookup_lt_Some _ _ _ Hi).
        rewrite lookup_app_l in Hb' |- * by lia. done.
  - cbn [cursor]. by rewrite take_alter, decide_False by lia.
  - simpl. by rewrite list_lookup_alter_eq, Hcur.
Qed.

Lemma set_tok_view s done cur t i :
  store_view s done cur -> is_mark t = false ->
  sreturns (set_tok t i) s (fun _ s' => store_view s' done (MkToken i (tokLine cur) t)).
Proof.
  intros Hv Ht. unfold set_tok. apply sspec_get_bind.
  eapply sreturns_mono; [by apply (set_entry_view s done cur)|]. by intros _ s' [? _].
Qed.

Lemma set_type_view s done cur t :
  store_view s done cur -> is_mark t = false ->
  sreturns (set_type t) s (fun _ s' => store_view s' done (MkToken (info cur) (tokLine cur) t)).
Proof.
  intros Hv Ht. unfold set_type. apply sspec_get_bind.
  eapply sreturns_mono; [by apply (set_entry_view s done cur)|]. by intros _ s' [? _].
Qed.

Lemma view_unmarked s done cur : store_view s done cur -> is_mark (type cur) = false.
Proof. intros (pre & b & [_ [Hc _] [[_ Hb] _] _] & _ & Hcur). apply (Hb (cursor s)); [done|lia]. Qed.

Lemma set_line_view s done cur n :
  store_view s done cur ->
  sreturns (set_line n) s (fun _ s' => store_view s' done (MkToken (info cur) (u16 n) (type cur))).
Proof.
  intros Hv. unfold set_line. apply sspec_get_bind.
  eapply sreturns_mono; [apply (set_entry_view s done cur); [done|by apply (view_unmarked s done cur)]|].
  by intros _ s' [? _].
Qed.

Lemma stream_snoc pre b : stream_of (pre ++ [b]) = stream_of pre ++ take 62 b.
Proof. unfold stream_of. rewrite fmap_app, concat_app. simpl. by rewrite app_nil_r. Qed.

(** [tok[-1]] *)
Lemma previous_view s done cur t :
  store_view s (done ++ [t]) cur -> sreturns previous s (fun u s' => u = t /\ s' = s).
Proof.
  intros (pre & b & Hs & Hd & Hcur). pose proof Hs as [Hb [Hc Hc1] [[Hlen _] _] Hpre].
  unfold previous. apply sspec_get_bind.
  destruct (cursor s) as [|c] eqn:Ec.
  { assert (pre = []) as -> by (destruct pre; [done|specialize (Hc1 ltac:(done)); lia]).
    simpl in Hd. by destruct done. }
  destruct (lookup_lt_is_Some_2 b c) as [u Hu]; [unfold TOKEN_BLOCK_SIZE in Hlen; lia|].
  rewrite (take_S_r _ _ _ Hu), app_assoc in Hd. apply app_inj_tail in Hd as [_ ->].
  eapply sreturns_mono; [apply sreturns_lift, (evals_returns _ _ (fun x => x = u) (entry_last s pre b c u Hb Hu)); done|].
  done.
Qed.

Lemma first_previous s cur : store_view s [] cur -> srun previous s = (Fault, s).
Proof.
  intros (pre & b & Hs & Hd & Hcur). pose proof Hs as [Hb [Hc Hc1] [[Hlen _] _] Hpre].
  symmetry in Hd. apply app_nil in Hd as [Hp Ht]. unfold TOKEN_BLOCK_SIZE in *.
  destruct (cursor s) as [|c] eqn:Ec; [unfold srun, previous, mbind, SM_bind, get; by rewrite Ec|].
  apply (f_equal length) in Ht. by rewrite length_take, Hlen in Ht.
Qed.

(** A step inside a block. *)
Lemma move_cursor_view s done cur :
  store_view s done cur -> (cursor s < 62)%nat ->
  sreturns (move_cursor (S (cursor s))) s (fun _ s' => exists cur', store_view s' (done ++ [cur]) cur').
Proof.
  intros (pre & b & Hs & -> & Hcur) Hlt. pose proof Hs as [Hb [Hc Hc1] [[Hlen Hty] Hlast] Hpre].
  destruct (lookup_lt_is_Some_2 b (S (cursor s))) as [u Hu]; [unfold TOKEN_BLOCK_SIZE in Hlen; lia|].
  apply sreturns_modify. exists u, pre, b. simpl. split_and!; [|by rewrite (take_S_r _ _ _ Hcur), app_assoc|done].
  split; simpl; [done|lia|done|done].
Qed.

Lemma fresh_block junk : block_ok (new_block junk).
Proof.
  split; [by unfold new_block; rewrite length_fmap, length_seq|]. intros i u Hi Hlt. unfold new_block in Hi.
  rewrite list_lookup_fmap, lookup_seq_lt in Hi by (unfold TOKEN_BLOCK_SIZE; lia). simpl in Hi. simplify_eq. simpl.
  unfold TOKEN_BLOCK_SIZE. case_decide; [lia|done].
Qed.

(** A new token list. *)
Lemma fresh_view junk : exists cur, store_view (MkTokens [new_block junk] 0) [] cur.
Proof.
  eexists. exists [], (new_block junk). split_and!; [|done|done].
  split; simpl; [done|split; [lia|done]|split; [apply fresh_block|done]|]. intros i p Hi. by rewrite lookup_nil in Hi.
Qed.

Lemma new_block_ok junk t :
  is_mark (type t) = false ->
  block_ok (alter (fun _ => t) 0%nat (new_block junk)) /\
  type <$> alter (fun _ => t) 0%nat (new_block junk) !! 63%nat = Some TT_LAST_TOKEN /\
  alter (fun _ => t) 0%nat (new_block junk) !! 0%nat = Some t /\
  exists u, alter (fun _ => t) 0%nat (new_block junk) !! 1%nat = Some u.
Proof.
  intros Ht. split_and!; [|done|done|by eexists].
  pose proof (fresh_block junk) as Hn.
  destruct (lookup_lt_is_Some_2 (new_block junk) 0) as [u Hu]; [rewrite (proj1 Hn); unfold TOKEN_BLOCK_SIZE; lia|].
  by apply (block_ok_alter _ _ _ u); [..|left].
Qed.

(** [tok + 1] and its type. *)
Lemma entry_next s pre b :
  store_ok s pre b -> exists t, b !! S (cursor s) = Some t /\ evals (entry s (S (cursor s))) t /\
    (type t = TT_LAST_TOKEN <-> cursor s = 62%nat).
Proof.
  intros [Hb [Hc Hc1] [[Hlen Hty] Hlast] Hpre].
  destruct (lookup_lt_is_Some_2 b (S (cursor s))) as [u Hu]; [unfold TOKEN_BLOCK_SIZE in Hlen; lia|].
  exists u. split_and!; [done|by apply (entry_last s pre b)|]. split.
  - intros He. destruct (decide (cursor s = 62)%nat); [done|]. specialize (Hty _ _ Hu ltac:(lia)).
    by rewrite He in Hty.
  - intros He. rewrite He in Hu. rewrite Hu in Hlast. by injection Hlast.
Qed.

(** The step to a new block. *)
Lemma new_block_view s done cur :
  store_view s done cur -> cursor s = 62%nat ->
  sreturns (b ← lift CreateTokenBlock;
            last_tok ← lift (entry s (cursor s));
            set_entry (S (cursor s)) (fun tok => MkToken (InfoBlock (length (blocks s))) (tokLine tok) TT_EOB) ≫= (fun _ =>
            modify (fun s => MkTokens (blocks s ++ [alter (fun _ => last_tok) 0%nat b]) 1))) s
    (fun _ s' => exists cur', store_view s' (done ++ [cur]) cur').
Proof.
  intros (pre & b & Hs & -> & Hcur) Hc62. pose proof Hs as [Hb [Hc Hc1] [[Hlen Hty] Hlast] Hpre].
  pose proof (Hty _ _ Hcur ltac:(lia)) as Hmark.
  eapply sreturns_lift_bind; [eapply returns_bind; [apply AAlloc_spec|]; intros junk _;
    by apply (returns_ret _ (fun x => exists junk, x = new_block junk)); exists junk|].
  intros nb [junk ->].
  eapply (sreturns_lift_bind _ _ _ (fun x => x = cur));
    [by eapply evals_returns; [by apply (entry_last s pre b)|]|]. intros x ->.
  destruct (new_block_ok junk cur Hmark) as (Hnb & Hnl & Hn0 & u & Hn1).
  set (nb := alter (fun _ => cur) 0%nat (new_block junk)) in *.
  destruct (b !! 63%nat) as [m|] eqn:Hm; [|done].
  rewrite Hc62 in *. eapply sreturns_bind; [by apply (set_entry_eq s pre b 63 m)|]. intros _ s' ->.
  apply sreturns_modify. rewrite Hb. simpl.
  set (b' := alter _ 63%nat b). exists u, (pre ++ [b']), nb.
  assert (Hb' : block_ok b') by (apply (block_ok_alter b 63 _ m); [done|done|right; lia]).
  assert (Hb'62 : b' !! 62%nat = Some cur) by (unfold b'; by rewrite list_lookup_alter_ne).
  split_and!; [| |done].
  - split; simpl; [by rewrite <- app_assoc|split; [lia|done]|done|].
    intros i p Hi. apply lookup_app_Some in Hi as [Hi|[Hge Hi]].
    + pose proof (lookup_lt_Some _ _ _ Hi). destruct (Hpre i p Hi) as (Hp & Hpm & b0 & t & Hb0 & Hp62 & H00).
      split_and!; [done|done|]. rewrite <- app_assoc. simpl.
      destruct (decide (S i = length pre)) as [Heq|Hne].
      * exists b', t. rewrite lookup_app_r in Hb0 |- * by lia.
        replace (S i - length pre)%nat with 0%nat in * by lia. simpl in *. simplify_eq.
        split_and!; [done|done|]. unfold b'. by rewrite list_lookup_alter_ne.
      * exists b0, t. rewrite lookup_app_l in Hb0 |- * by lia. done.
    + assert (i = length pre) as ->.
      { apply lookup_lt_Some in Hi. simpl in Hi. lia. }
      rewrite Nat.sub_diag in Hi. simpl in Hi. injection Hi as <-. split_and!; [done| |].
      * exists (tokLine m). unfold b'. rewrite list_lookup_alter_eq, Hm. simpl. rewrite length_app. simpl.
        by rewrite Nat.add_1_r.
      * exists nb, cur. split_and!; [|done|done]. rewrite <- app_assoc. simpl.
        rewrite lookup_app_r by lia. by replace (S (length pre) - length pre)%nat with 1%nat by lia.
  - cbn [cursor]. rewrite stream_snoc. unfold b'. rewrite take_alter, decide_False by lia. f_equal.
Qed.

(** The step to the next token, in either way. *)
Lemma AdvanceNewToken_view s done cur :
  store_view s done cur ->
  sreturns AdvanceNewToken s (fun _ s' => exists cur', store_view s' (done ++ [cur]) cur').
Proof.
  intros Hv. pose proof Hv as (pre & b & Hs & Hd & Hcur).
  destruct (entry_next s pre b Hs) as (t & Ht & Hev & Hty). unfold AdvanceNewToken. apply sspec_get_bind. cbv zeta.
  eapply (sreturns_lift_bind _ _ _ (fun x => x = t)); [by eapply evals_returns|]. intros x ->.
  eapply (sreturns_bind _ _ _ (fun _ s' => exists cur', store_view s' (done ++ [cur]) cur')).
  { case_decide as Hm.
    - apply new_block_view; [done|]. by apply Hty.
    - apply move_cursor_view; [done|]. destruct Hs as [_ [Hc _] _ _].
      destruct (decide (cursor s = 62)%nat) as [E|E]; [|lia]. by apply Hty in E. }
  intros _ s' [cur' Hv']. eapply sreturns_bind; [by apply (previous_view s' done cur' cur)|].
  intros u s2 [-> ->]. eapply sreturns_mono; [by apply (set_line_view s' (done ++ [cur]) cur')|]. intros u s3 H2. eexists. exact H2.
Qed.

Lemma next_token_view s done cur :
  store_view s done cur ->
  sreturns next_token s (fun _ s' => exists cur', store_view s' (done ++ [cur]) cur').
Proof.
  intros Hv. pose proof Hv as (pre & b & Hs & Hd & Hcur).
  destruct (entry_next s pre b Hs) as (t & Ht & Hev & Hty). unfold next_token. apply sspec_get_bind.
  eapply (sreturns_lift_bind _ _ _ (fun x => x = t)); [by eapply evals_returns|]. intros x ->.
  case_decide as Hm; [by apply AdvanceNewToken_view|].
  apply move_cursor_view; [done|]. destruct Hs as [_ [Hc _] _ _].
  destruct (decide (cursor s = 62)%nat) as [E|E]; [|lia]. by apply Hty in E.
Qed.

(** ** Reading *)

(** The [n]-th token from the beginning of the list. *)
Fixpoint nth_token (s : TokenStore) (n : nat) : option (nat * nat) :=
  match n with
  | O => Some (0%nat, 0%nat)
  | S n => p ← nth_token s n; AAdvanceTok s p
  end.

Definition token_at (s : TokenStore) (p : nat * nat) : option AToken :=
  b ← blocks s !! p.1; b !! p.2.

#[local] Arguments Nat.mul : simpl never.

(** A position [(k, i)] is that of token [62 * k + i]. *)
Definition good_pos (pre : list (list AToken)) (c : nat) (p : nat * nat) (n : nat) : Prop :=
  n = (62 * p.1 + p.2)%nat /\ ((p.1 < length pre)%nat /\ (p.2 < 62)%nat \/ p.1 = length pre /\ (p.2 <= c)%nat).

Lemma stream_lookup pre rest k i p :
  Forall block_ok pre -> pre !! k = Some p -> (i < 62)%nat ->
  (stream_of pre ++ rest) !! (62 * k + i)%nat = p !! i.
Proof.
  intros Hpre. revert k. induction Hpre as [|q pre [Hq _] Hpre IH]; intros k Hk Hi; [done|].
  change (stream_of (q :: pre)) with (take 62 q ++ stream_of pre).
  rewrite <- app_assoc. unfold TOKEN_BLOCK_SIZE in Hq.
  destruct k as [|k]; simpl in Hk; simplify_eq.
  - rewrite lookup_app_l by (rewrite length_take; lia). rewrite Nat.mul_0_r. by rewrite lookup_take_lt by lia.
  - rewrite lookup_app_r; rewrite length_take; [|lia].
    replace (62 * S k + i - 62 `min` length q)%nat with (62 * k + i)%nat by lia. by apply IH.
Qed.

Lemma stream_length pre : Forall block_ok pre -> length (stream_of pre) = (62 * length pre)%nat.
Proof.
  induction 1 as [|q pre [Hq _] Hpre IH]; [done|].
  change (stream_of (q :: pre)) with (take 62 q ++ stream_of pre).
  rewrite length_app, IH, length_take, Hq. unfold TOKEN_BLOCK_SIZE. simpl length. lia.
Qed.

Lemma store_pre_ok s pre b : store_ok s pre b -> Forall block_ok pre.
Proof. intros Hs. apply Forall_lookup. intros i p Hi. apply (st_pre _ _ _ Hs i p Hi). Qed.

(** The entry at a position is the token of that number. *)
Lemma good_pos_token s pre b cur p n :
  store_ok s pre b -> b !! cursor s = Some cur -> good_pos pre (cursor s) p n ->
  token_at s p = (stream_of pre ++ take (cursor s) b ++ [cur]) !! n.
Proof.
  intros Hs Hcur [-> Hp]. unfold token_at. rewrite (st_blocks _ _ _ Hs). pose proof (store_pre_ok _ _ _ Hs) as Hpre.
  destruct p as [k i]. simpl in *. destruct Hp as [[Hk Hi]|[-> Hi]].
  - destruct (lookup_lt_is_Some_2 pre k Hk) as [q Hq]. rewrite lookup_app_l, Hq by done. simpl.
    by rewrite (stream_lookup _ _ _ _ q).
  - rewrite lookup_app_r, Nat.sub_diag by lia. simpl. rewrite lookup_app_r; rewrite stream_length by done; [|lia].
    replace (62 * length pre + i - 62 * length pre)%nat with i by lia.
    rewrite <- (take_S_r _ _ _ Hcur). by rewrite lookup_take_lt by lia.
Qed.

(** [AAdvanceTok] steps to the next position. *)
Lemma AAdvanceTok_pos s pre b p n :
  store_ok s pre b -> good_pos pre (cursor s) p n -> (S n <= 62 * length pre + cursor s)%nat ->
  exists q, AAdvanceTok s p = Some q /\ good_pos pre (cursor s) q (S n).
Proof.
  intros Hs [Hn Hp] Hlt. unfold AAdvanceTok. rewrite (st_blocks _ _ _ Hs).
  pose proof Hs as [Hb [Hc Hc1] [[Hlen Hty] Hlast] Hpre]. destruct p as [k i]. simpl in *.
  destruct Hp as [[Hk Hi]|[-> Hi]].
  - destruct (lookup_lt_is_Some_2 pre k Hk) as [q Hq]. rewrite lookup_app_l, Hq by done. simpl.
    destruct (Hpre k q Hq) as ([Hql Hqt] & [l Hmark] & _). unfold TOKEN_BLOCK_SIZE in Hql.
    destruct (decide (i = 61)%nat) as [->|Hne].
    + change (61 + 2)%nat with 63%nat. rewrite Hmark. simpl. eexists. split; [done|]. split; simpl; [lia|].
      destruct (decide (S k < length pre)%nat); [left; lia|right]. lia.
    + destruct (lookup_lt_is_Some_2 q (i + 2)) as [t Ht]; [lia|]. rewrite Ht. simpl. specialize (Hqt _ _ Ht ltac:(lia)).
      rewrite decide_False by (intros E; by rewrite E in Hqt). eexists. split; [done|]. split; simpl; [lia|]. left. lia.
  - rewrite lookup_app_r, Nat.sub_diag by lia. simpl. unfold TOKEN_BLOCK_SIZE in Hlen.
    destruct (lookup_lt_is_Some_2 b (i + 2)) as [t Ht]; [lia|]. rewrite Ht. simpl.
    rewrite decide_False; [eexists; split; [done|]; split; simpl; [lia|]; right; lia|].
    intros E. destruct (decide (i + 2 = 63)%nat) as [He|He].
    + rewrite <- He, Ht in Hlast. simpl in Hlast. congruence.
    + specialize (Hty _ _ Ht ltac:(lia)). by rewrite E in Hty.
Qed.

(** Reading a token list from its beginning. *)
Lemma read_tokens s done cur n :
  store_view s done cur -> (n <= length done)%nat ->
  exists p, nth_token s n = Some p /\ token_at s p = (done ++ [cur]) !! n /\
    ((n < length done)%nat -> token_at s (p.1, S p.2) = (done ++ [cur]) !! S n).
Proof.
  intros (pre & b & Hs & -> & Hcur) Hn. pose proof (store_pre_ok _ _ _ Hs) as Hpre.
  assert (Hlen : length (stream_of pre ++ take (cursor s) b) = (62 * length pre + cursor s)%nat).
  { rewrite length_app, stream_length, length_take by done. apply lookup_lt_Some in Hcur. lia. }
  rewrite Hlen in *. rewrite <- app_assoc.
  assert (Hp : exists p, nth_token s n = Some p /\ good_pos pre (cursor s) p n).
  { induction n as [|n IH].
    - exists (0%nat, 0%nat). split; [done|]. split; [done|]. simpl. destruct pre; [right; split; [done|lia]|left; simpl; lia].
    - destruct IH as (p & Hp & Hg); [lia|]. destruct (AAdvanceTok_pos s pre b p n Hs Hg Hn) as (q & Hq & Hgq).
      exists q. split; [|done]. simpl. rewrite Hp. done. }
  destruct Hp as (p & Hnp & Hg). exists p. split_and!; [done|by apply good_pos_token|]. intros Hlt.
  destruct Hg as [-> Hg]. destruct p as [k i]. simpl in *. destruct Hg as [[Hk Hi]|[-> Hi]].
  - destruct (lookup_lt_is_Some_2 pre k Hk) as [q Hq].
    destruct (decide (i = 61)%nat) as [->|Hne].
    + destruct (st_pre _ _ _ Hs k q Hq) as (_ & _ & b' & t & Hb' & Hq62 & Hb0).
      transitivity (token_at s (S k, 0%nat)).
      * unfold token_at. simpl. rewrite (st_blocks _ _ _ Hs), Hb', lookup_app_l, Hq by done. simpl. congruence.
      * apply good_pos_token; [done|done|]. split; simpl; [lia|].
        destruct (decide (S k < length pre)%nat); [left; lia|right]. lia.
    + apply good_pos_token; [done|done|]. split; simpl; [lia|]. left. lia.
  - apply good_pos_token; [done|done|]. split; simpl; [lia|]. right. lia.
Qed.
