(* ===== verification/LexText.v ===== *)
(** * LexText: moving through a source text

    The lexer moves through a text that ends in a newline and never runs
    behind it, since every loop of it stops at a newline.  [stays src src'] says
    that it moved from [src] to [src'] within a line, and [newlines] counts the
    line ends in front of it. *)

From S2P Require Import Prelude Runtime Digits Value IntConv IntText Encodings StrOps Tokens.
From S2P Require Import Lexer.

Open Scope Z_scope.

(** The text ends in a newline. *)
Fixpoint ends_line (p : list Z) : Prop :=
  match p with
  | [] => False
  | c :: r => match r with [] => is_newline c = true | _ => ends_line r end
  end.

(** [src'] is behind [src] on the same line. *)
Definition stays (src src' : list Z) : Prop :=
  exists l, src = l ++ src' /\ Forall (fun c => is_newline c = false) l.

(** The number of line ends in a text; a carriage return and a line feed
    behind it are one. *)
Fixpoint newlines (src : list Z) : Z :=
  match src with
  | [] => 0
  | c :: r =>
    (if (c =? 10) || ((c =? 13) && negb (match r with d :: _ => d =? 10 | [] => false end)) then 1 else 0)
    + newlines r
  end.

Lemma ends_line_cons c p : ends_line (c :: p) -> is_newline c = false -> ends_line p.
Proof. destruct p; simpl; [congruence|done]. Qed.

Lemma ends_line_cons_2 c p : ends_line p -> ends_line (c :: p).
Proof. by destruct p. Qed.

Lemma ends_line_app l p : ends_line p -> ends_line (l ++ p).
Proof. intros Hp. induction l as [|c l IH]; [done|]. by apply ends_line_cons_2. Qed.

Lemma ends_line_skip l p : ends_line (l ++ p) -> Forall (fun c => is_newline c = false) l -> ends_line p.
Proof. induction l as [|c l IH]; [done|]. intros H [Hc Hl]%Forall_cons_1. apply IH; [|done]. by apply (ends_line_cons c). Qed.

Lemma ends_line_head p : ends_line p -> exists c r, p = c :: r.
Proof. destruct p as [|c r]; [done|]. by exists c, r. Qed.

Lemma ends_line_step c p : ends_line (c :: p) -> is_newline c = false -> exists d r, p = d :: r.
Proof. intros H Hc. exact (ends_line_head _ (ends_line_cons _ _ H Hc)). Qed.

Lemma stays_refl src : stays src src.
Proof. by exists []. Qed.

Lemma stays_trans a b c : stays a b -> stays b c -> stays a c.
Proof. intros (l & -> & Hl) (l' & -> & Hl'). exists (l ++ l'). split; [by rewrite app_assoc|by apply Forall_app]. Qed.

Lemma stays_skip c p q : is_newline c = false -> stays p q -> stays (c :: p) q.
Proof. intros Hc (l & -> & Hl). exists (c :: l). split; [done|by constructor]. Qed.

Lemma stays_line p q : stays p q -> ends_line p -> ends_line q.
Proof. intros (l & -> & Hl) H. exact (ends_line_skip l q H Hl). Qed.

Lemma stays_newlines p q : stays p q -> newlines p = newlines q.
Proof.
  intros (l & -> & Hl). induction Hl as [|c l Hc Hl IH]; [done|]. simpl. rewrite IH.
  unfold is_newline in Hc. destruct (c =? 10), (c =? 13); simpl in *; congruence || lia.
Qed.

Lemma stays_length p q : stays p q -> (length q <= length p)%nat.
Proof. intros (l & -> & _). rewrite length_app. lia. Qed.

Lemma digit_not_newline c : AIsDigit c = true -> is_newline c = false.
Proof. unfold AIsDigit, is_newline. lia. Qed.

Lemma idchar_not_newline c : IsIdChar c = true -> is_newline c = false.
Proof. unfold IsIdChar, is_newline. lia. Qed.

Lemma hex_not_newline c : AIsHexDigit c = true -> is_newline c = false.
Proof.
  unfold is_newline. intros H. destruct (Z.eqb_spec c 10) as [->|]; [done|]. by destruct (Z.eqb_spec c 13) as [->|].
Qed.

Lemma peek_evals p i c : p !! i = Some c -> evals (peek p i) c.
Proof. intros H. unfold peek. rewrite H. apply evals_ret. Qed.

Lemma peek_head c p : evals (peek (c :: p) 0) c.
Proof. by apply peek_evals. Qed.

(** ** Hexadecimal sequences *)

(** A text that starts with [\uXXXX]. *)
Definition is_unicode (p : list Z) : bool :=
  match p with
  | x :: y :: a :: b :: c :: d :: _ =>
    (x =? 92) && (y =? 117) && AIsHexDigit a && AIsHexDigit b && AIsHexDigit c && AIsHexDigit d
  | _ => false
  end.

Lemma hex_digits_evals x y p :
  ends_line p -> x = 92 -> y = 117 -> evals (hex_digits (x :: y :: p) 2) (is_unicode (x :: y :: p)).
Proof.
  intros Hp -> ->. unfold hex_digits. destruct p as [|a p]; [done|].
  eapply evals_bind; [by apply peek_evals|].
  destruct (AIsHexDigit a) eqn:Ha; simpl negb; cbv iota.
  2:{ assert (is_unicode (92 :: 117 :: a :: p) = false) as -> by
        (simpl; rewrite Ha; by destruct p as [|? [|? [|? ?]]]). apply evals_ret. }
  apply ends_line_cons in Hp; [|by apply hex_not_newline]. destruct p as [|b p]; [done|].
  eapply evals_bind; [by apply peek_evals|].
  destruct (AIsHexDigit b) eqn:Hb; simpl negb; cbv iota.
  2:{ assert (is_unicode (92 :: 117 :: a :: b :: p) = false) as -> by
        (simpl; rewrite Ha, Hb; by destruct p as [|? [|? ?]]). apply evals_ret. }
  apply ends_line_cons in Hp; [|by apply hex_not_newline]. destruct p as [|c p]; [done|].
  eapply evals_bind; [by apply peek_evals|].
  destruct (AIsHexDigit c) eqn:Hc; simpl negb; cbv iota.
  2:{ assert (is_unicode (92 :: 117 :: a :: b :: c :: p) = false) as -> by
        (simpl; rewrite Ha, Hb, Hc; by destruct p as [|? ?]). apply evals_ret. }
  apply ends_line_cons in Hp; [|by apply hex_not_newline]. destruct p as [|d p]; [done|].
  eapply evals_bind; [by apply peek_evals|]. simpl. rewrite Ha, Hb, Hc. simpl. apply evals_ret.
Qed.

Lemma IsUnicodeSequence_evals p : ends_line p -> evals (IsUnicodeSequence p) (is_unicode p).
Proof.
  intros Hp. unfold IsUnicodeSequence. destruct p as [|x p]; [done|]. eapply evals_bind; [by apply peek_evals|].
  destruct (Z.eqb_spec x 92) as [->|Hx].
  2:{ assert (is_unicode (x :: p) = false) as ->; [|apply evals_ret].
      destruct p as [|? [|? [|? [|? [|? ?]]]]]; try done. simpl. by rewrite (proj2 (Z.eqb_neq _ _) Hx). }
  apply ends_line_cons in Hp; [|done]. destruct p as [|y p]; [done|]. eapply evals_bind; [by apply peek_evals|].
  destruct (Z.eqb_spec y 117) as [->|Hy].
  - apply ends_line_cons in Hp; [|done]. by apply hex_digits_evals.
  - assert (is_unicode (92 :: y :: p) = false) as ->; [|apply evals_ret].
    destruct p as [|? [|? [|? [|? ?]]]]; try done. simpl. by rewrite (proj2 (Z.eqb_neq _ _) Hy).
Qed.

Lemma is_unicode_inv p : is_unicode p = true -> exists a b c d r, p = 92 :: 117 :: a :: b :: c :: d :: r /\
  Forall (fun h => AIsHexDigit h = true) [a; b; c; d].
Proof.
  destruct p as [|x [|y [|a [|b [|c [|d r]]]]]]; try done. simpl. rewrite !andb_true_iff.
  intros [[[[[Hx Hy] Ha] Hb] Hc] Hd]. apply Z.eqb_eq in Hx as ->. apply Z.eqb_eq in Hy as ->.
  exists a, b, c, d, r. split; [done|]. by repeat constructor.
Qed.

Lemma is_unicode_intro a b c d r :
  Forall (fun h => AIsHexDigit h = true) [a; b; c; d] -> is_unicode (92 :: 117 :: a :: b :: c :: d :: r) = true.
Proof.
  intros [Ha [Hb [Hc [Hd _]%Forall_cons_1]%Forall_cons_1]%Forall_cons_1]%Forall_cons_1.
  simpl. by rewrite Ha, Hb, Hc, Hd.
Qed.

(** The value of a sequence. *)
Lemma bit5 h : Z.land h 32 = 0 \/ Z.land h 32 = 32.
Proof.
  destruct (Z.testbit h 5) eqn:E; [right|left]; apply Z.bits_inj'; intros i Hi; rewrite Z.land_spec;
    (destruct (decide (i = 5)) as [->|Hne]; [by rewrite E|]); change 32 with (2 ^ 5);
    rewrite (Z.pow2_bits_false 5 i), andb_false_r by lia; [done|by rewrite Z.bits_0].
Qed.
Lemma hex_digit_cases h : AIsHexDigit h = true -> 48 <= h <= 57 \/ 65 <= h <= 70 \/ 97 <= h <= 102.
Proof.
  unfold AIsHexDigit, AIsDigit, ALoCase. intros [H|H]%orb_true_iff; [lia|].
  assert (Hx : 97 <= Z.lor h 32 <= 102) by lia.
  assert (Hd : Z.ldiff (Z.lor h 32) 32 = Z.ldiff h 32).
  { apply Z.bits_inj'. intros i Hi. rewrite !Z.ldiff_spec, Z.lor_spec. by destruct (Z.testbit h i), (Z.testbit 32 i). }
  pose proof (Z.lor_ldiff_and h 32) as Hl. rewrite <- Hd in Hl.
  assert (Z.lor h 32 ∈ [97; 98; 99; 100; 101; 102]) as Hin by (rewrite !elem_of_cons; lia).
  rewrite !elem_of_cons in Hin. destruct (bit5 h) as [E|E]; rewrite E in Hl;
  (destruct Hin as [E'|[E'|[E'|[E'|[E'|[E'|E']]]]]]; [rewrite E' in Hl; vm_compute in Hl; lia..|by apply elem_of_nil in E']).
Qed.
Lemma hex_value a b c d :
  Forall (fun h => AIsHexDigit h = true) [a; b; c; d] ->
  0 <= AUnicodeSequenceValue a b c d < 65536 /\
  AUnicodeSequenceValue a b c d = AHexDigitToNum a * 4096 + AHexDigitToNum b * 256 + AHexDigitToNum c * 16 + AHexDigitToNum d /\
  (negb (a =? 48) || negb (b =? 48) = false -> AUnicodeSequenceValue a b c d < 256).
Proof.
  assert (Hn : forall h, AIsHexDigit h = true -> 0 <= AHexDigitToNum h < 16).
  { intros h Hh%hex_digit_cases. unfold AHexDigitToNum. destruct (Z.leb_spec 97 h), (Z.leb_spec 65 h); lia. }
  intros [Ha [Hb [Hc [Hd _]%Forall_cons_1]%Forall_cons_1]%Forall_cons_1]%Forall_cons_1.
  pose proof (Hn _ Ha). pose proof (Hn _ Hb). pose proof (Hn _ Hc). pose proof (Hn _ Hd).
  assert (Hv : AUnicodeSequenceValue a b c d =
    AHexDigitToNum a * 4096 + (AHexDigitToNum b * 256 + (AHexDigitToNum c * 16 + AHexDigitToNum d))).
  { unfold AUnicodeSequenceValue. rewrite <- !Z.lor_assoc. rewrite (fields _ (AHexDigitToNum d) 4) by lia.
    rewrite (fields (AHexDigitToNum b) _ 8), (fields (AHexDigitToNum a) _ 12) by lia. lia. }
  split_and!; [lia|lia|lia|]. intros [E1 E2]%orb_false_iff. apply negb_false_iff, Z.eqb_eq in E1 as ->.
  apply negb_false_iff, Z.eqb_eq in E2 as ->. change (AHexDigitToNum 48) with 0 in Hv. lia.
Qed.

(** ** UTF-8 sequences *)

(** The sequences of two and three bytes that [IsInvalidUtf8Sequence]
    accepts. *)
Inductive utf8_seq : list Z -> Prop :=
  | utf8_2 a b : 0xc2 <= a < 0xe0 -> 0x80 <= b <= 0xbf -> utf8_seq [a; b]
  | utf8_3 a b c : 0xe0 <= a -> 0x80 <= b <= 0xbf -> 0x80 <= c <= 0xbf -> (a = 0xe0 -> 0xa0 <= b) -> utf8_seq [a; b; c].

Lemma utf8_seq_line l : utf8_seq l -> Forall (fun c => is_newline c = false) l.
Proof. unfold is_newline. intros [a b|a b c]; repeat constructor; lia. Qed.

Lemma utf8_seq_skip c l : utf8_seq (c :: l) -> Z.to_nat (A_UTF8_SKIP c) = length (c :: l).
Proof.
  unfold A_UTF8_SKIP. inversion 1; subst; simpl; [test (c <? 0xc2) false; test (c <? 0xe0) true; done|].
  test (c <? 0xc2) false; test (c <? 0xe0) false; done.
Qed.

(** The check tells whether such a sequence follows. *)
Lemma IsInvalidUtf8Sequence_returns c p :
  ends_line (c :: p) -> 128 <= c ->
  exists bad, evals (IsInvalidUtf8Sequence (c :: p)) bad /\
    (bad = false -> exists l r, c :: p = l ++ r /\ utf8_seq l /\ (exists l', l = c :: l')) /\
    (bad = true -> forall l r, c :: p = l ++ r -> ~ utf8_seq l).
Proof.
  intros Hp Hc. unfold IsInvalidUtf8Sequence.
  assert (Hnl : is_newline c = false) by (unfold is_newline; lia).
  destruct (ends_line_step _ _ Hp Hnl) as (d & p' & ->). apply ends_line_cons in Hp; [|done].
  destruct (Z.ltb_spec c 0xc2) as [H1|H1].
  { exists true. split_and!; [|done|intros _ l r Hl Hs; inversion Hs; subst; simplify_eq/=; lia].
    eapply evals_bind; [by apply peek_evals|]. test (c <? 0xc2) true. apply evals_ret. }
  destruct (Z.ltb_spec c 0xe0) as [H2|H2].
  { eexists. split_and!.
    - eapply evals_bind; [by apply peek_evals|]. test (c <? 0xc2) false. test (c <? 0xe0) true.
      eapply evals_bind; [by apply peek_evals|]. apply evals_ret.
    - intros Hb. exists [c; d], p'. split_and!; [done| |by eexists]. constructor; lia.
    - intros Hb l r Hl Hs. inversion Hs; subst; simplify_eq/=; lia. }
  destruct (Z.ltb_spec d 0x80) as [H3|H3].
  { exists true. split_and!; [|done|intros _ l r Hl Hs; inversion Hs; subst; simplify_eq/=; lia].
    eapply evals_bind; [by apply peek_evals|]. test (c <? 0xc2) false. test (c <? 0xe0) false.
    eapply evals_bind; [by apply peek_evals|]. test (d <? 0x80) true. apply evals_ret. }
  destruct (ends_line_step _ _ Hp) as (e & p2 & ->); [unfold is_newline; lia|].
  eexists. split_and!.
  - eapply evals_bind; [by apply peek_evals|]. test (c <? 0xc2) false. test (c <? 0xe0) false.
    eapply evals_bind; [by apply peek_evals|]. test (d <? 0x80) false.
    eapply evals_bind; [by apply peek_evals|]. apply evals_ret.
  - intros Hb. exists [c; d; e], p2. split_and!; [done| |by eexists]. constructor; lia.
  - intros Hb l r Hl Hs. inversion Hs; subst; simplify_eq/=; lia.
Qed.
