(* ===== verification/LexLiteral.v ===== *)
(** * LexLiteral: what a string literal denotes

    A reference definition of the body of a string literal, as a sequence of
    items, and the proof that the lexer's two passes (the check of the literal
    and the construction of the string) agree with it. *)

From S2P Require Import Prelude Runtime Digits Value IntConv Encodings StrOps Tokens Lexer.
From S2P Require Import LexText.

Open Scope Z_scope.

(** ** The reference *)

(** A character, a doubled quote, a sequence [\uXXXX] and a UTF-8 sequence. *)
Inductive lit_item :=
  | LChar (c : Z)
  | LQuote
  | LUni (a b c d : Z)
  | LUtf8 (l : list Z).

Definition utf8_value (l : list Z) : Z :=
  match l with
  | [a; b] => Z.lor (Z.shiftl (Z.land a 0x1f) 6) (Z.land b 0x3f)
  | [a; b; c] => Z.lor (Z.lor (Z.shiftl (Z.land a 0xf) 12) (Z.shiftl (Z.land b 0x3f) 6)) (Z.land c 0x3f)
  | _ => 0
  end.

Section literal.
Context (enc : AEncoding) (quote : Z).

Definition lit_text (it : lit_item) : list Z :=
  match it with
  | LChar c => [c]
  | LQuote => [quote; quote]
  | LUni a b c d => [92; 117; a; b; c; d]
  | LUtf8 l => l
  end.

(** The character an item denotes. *)
Definition lit_value (it : lit_item) : Z :=
  match it with
  | LChar c => c
  | LQuote => quote
  | LUni a b c d => AUnicodeSequenceValue a b c d
  | LUtf8 l => utf8_value l
  end.

Definition lit_wide (it : lit_item) : bool :=
  match it with
  | LUni a b _ _ => negb (a =? 48) || negb (b =? 48)
  | LUtf8 _ => true
  | _ => false
  end.

(** An item in front of the text [p]. *)
Definition item_ok (it : lit_item) (p : list Z) : Prop :=
  match it with
  | LChar c => is_newline c = false /\ c <> quote /\ is_unicode (c :: p) = false /\ (c < 128 \/ enc = AENC_LATIN1)
  | LQuote => True
  | LUni a b c d => Forall (fun h => AIsHexDigit h = true) [a; b; c; d]
  | LUtf8 l => enc = AENC_UTF8 /\ utf8_seq l
  end.

(** The text [p] is the items [us] followed by [q]. *)
Inductive lit_body : list Z -> list lit_item -> list Z -> Prop :=
  | body_nil p : lit_body p [] p
  | body_cons it p us q : item_ok it p -> lit_body p us q -> lit_body (lit_text it ++ p) (it :: us) q.

Fixpoint total (f : lit_item -> Z) (us : list lit_item) : Z :=
  match us with [] => 0 | it :: us => f it + total f us end.

Definition is_quote (it : lit_item) : Z := match it with LQuote => 1 | _ => 0 end.
Definition is_uni (it : lit_item) : Z := match it with LUni _ _ _ _ => 1 | _ => 0 end.
Definition text_len (it : lit_item) : Z := zlen (lit_text it).
Definition char_len (it : lit_item) : Z := match it with LUtf8 _ => 1 | _ => text_len it end.

Hypothesis quote_ok : quote = 34 \/ quote = 39.
#[local] Set Default Proof Using "Type quote_ok".

Lemma item_line it p : item_ok it p -> Forall (fun c => is_newline c = false) (lit_text it).
Proof.
  destruct it as [c| |a b c d|l]; simpl.
  - intros (H & _). by repeat constructor.
  - intros _. destruct quote_ok as [->| ->]; by repeat constructor.
  - intros H. do 2 (constructor; [done|]). eapply Forall_impl; [|exact H]. apply hex_not_newline.
  - intros [_ H]. by apply utf8_seq_line.
Qed.

Lemma item_text_cons it p : item_ok it p -> exists c l, lit_text it = c :: l.
Proof. destruct it as [c| |a b c d|l]; simpl; try (intros; by do 2 eexists). intros [_ []]; by do 2 eexists. Qed.

Lemma body_stays p us q : lit_body p us q -> stays p q.
Proof.
  induction 1 as [p|it p us q Hit Hb IH]; [apply stays_refl|]. eapply stays_trans; [|exact IH].
  exists (lit_text it). split; [done|by eapply item_line].
Qed.

Lemma body_length p us q : lit_body p us q -> zlen p = total text_len us + zlen q.
Proof. induction 1 as [p|it p us q Hit Hb IH]; [done|]. simpl. rewrite length_app. unfold text_len at 1. lia. Qed.

(** ** The check *)

(** The literal ends here: with the line, or with a quote that is not doubled. *)
Definition lit_end (p : list Z) : Prop :=
  exists c q, p = c :: q /\ (is_newline c = true \/ c = quote /\ head q <> Some quote).

(** A character that the encoding does not allow. *)
Definition bad_char (p : list Z) : Prop :=
  exists c q, p = c :: q /\ 128 <= c /\
    (enc = AENC_ASCII \/ enc = AENC_UTF8 /\ forall l r, p = l ++ r -> ~ utf8_seq l).

Definition scan_ok (p : list Z) (s r : scan) : Prop :=
  stays p (scan_p r) /\ lit_end (scan_p r) /\
  (isInvalid r = true -> isInvalid s = true \/ exists us p', lit_body p us p' /\ bad_char p') /\
  (isInvalid r = false -> isInvalid s = false /\ exists us, lit_body p us (scan_p r) /\
    numQuotes r = numQuotes s + total is_quote us /\
    numUnicodeSequences r = numUnicodeSequences s + total is_uni us /\
    isWide r = isWide s || existsb lit_wide us).

Lemma scan_ok_stop p nq nu w inv c q :
  p = c :: q -> is_newline c = true \/ c = quote /\ head q <> Some quote -> scan_ok p (MkScan p nq nu w inv) (MkScan p nq nu w inv).
Proof.
  intros Hp Hc. split_and!; [apply stays_refl|by exists c, q|by left|]. simpl. intros ->. split; [done|].
  exists []. simpl. rewrite !Z.add_0_r, orb_false_r. split_and!; try done. constructor.
Qed.

Lemma scan_ok_cons it p s s' r :
  item_ok it p -> numQuotes s' = numQuotes s + is_quote it -> numUnicodeSequences s' = numUnicodeSequences s + is_uni it ->
  isWide s' = isWide s || lit_wide it -> isInvalid s' = isInvalid s ->
  scan_ok p s' r -> scan_ok (lit_text it ++ p) s r.
Proof.
  intros Hit Hq Hu Hw Hi (Hst & Hend & Hinv & Hv). split_and!; [|done| |].
  - eapply stays_trans; [|exact Hst]. exists (lit_text it). split; [done|by eapply item_line].
  - intros Hr. destruct (Hinv Hr) as [Hs'|(us & p' & Hb & Hbad)]; [left; congruence|right].
    exists (it :: us), p'. split; [by constructor|done].
  - intros Hr. destruct (Hv Hr) as (Hs' & us & Hb & Hnq & Hnu & Hwide). split; [congruence|].
    exists (it :: us). split_and!; [by constructor|simpl; lia|simpl; lia|]. simpl. by rewrite Hwide, Hw, orb_assoc.
Qed.

Lemma scan_ok_invalid c p s s' r :
  is_newline c = false -> bad_char (c :: p) -> isInvalid s' = true -> scan_ok p s' r -> scan_ok (c :: p) s r.
Proof.
  intros Hc Hbad Hi (Hst & Hend & _ & Hv). split_and!; [by apply stays_skip|done| |].
  { intros _. right. exists [], (c :: p). split; [constructor|done]. }
  intros Hr. destruct (Hv Hr) as [Hs _]. congruence.
Qed.

(** What the check does from [p] on, as a hypothesis on the rounds to come. *)
Definition scans (fuel : nat) (p : list Z) (s s' : scan) : Prop :=
  exists r, evals (scan_literal fuel quote enc s') r /\ scan_ok p s r.

Definition scans_all (fuel : nat) : Prop := forall p s,
  ends_line p -> (length p <= fuel)%nat -> scan_p s = p -> scans fuel p s s.

(** A round over one item, and one over an invalid character. *)
Lemma scan_item fuel it p s :
  scans_all fuel -> ends_line (lit_text it ++ p) -> (length (lit_text it ++ p) <= S fuel)%nat -> item_ok it p ->
  scans fuel (lit_text it ++ p) s
    (MkScan p (numQuotes s + is_quote it) (numUnicodeSequences s + is_uni it) (isWide s || lit_wide it) (isInvalid s)).
Proof.
  intros Hall Hp Hf Hit. pose proof (item_line it p Hit) as Hl. destruct (item_text_cons it p Hit) as (c & l & Hc).
  rewrite length_app, Hc in Hf. simpl in Hf.
  edestruct (Hall p (MkScan p (numQuotes s + is_quote it) (numUnicodeSequences s + is_uni it)
    (isWide s || lit_wide it) (isInvalid s)) (ends_line_skip _ _ Hp Hl) ltac:(lia) eq_refl) as (r & Hr & Hok).
  exists r. split; [exact Hr|]. by eapply scan_ok_cons; [..|exact Hok].
Qed.

Lemma scan_bad fuel c p s w :
  scans_all fuel -> ends_line (c :: p) -> (length (c :: p) <= S fuel)%nat -> is_newline c = false ->
  bad_char (c :: p) -> scans fuel (c :: p) s (MkScan p (numQuotes s) (numUnicodeSequences s) w true).
Proof.
  intros Hall Hp Hf Hc Hbad. simpl in Hf.
  destruct (Hall p (MkScan p (numQuotes s) (numUnicodeSequences s) w true) (ends_line_cons _ _ Hp Hc) ltac:(lia) eq_refl)
    as (r & Hr & Hok).
  exists r. split; [exact Hr|]. by eapply scan_ok_invalid; [..|exact Hok].
Qed.

Lemma scan_char fuel c p nq nu w inv :
  scans_all fuel -> ends_line (c :: p) -> (length (c :: p) <= S fuel)%nat -> item_ok (LChar c) p ->
  scans fuel (c :: p) (MkScan (c :: p) nq nu w inv) (MkScan p nq nu w inv).
Proof.
  intros Hall Hp Hf Hit. destruct (scan_item fuel (LChar c) p (MkScan (c :: p) nq nu w inv) Hall Hp Hf Hit) as (r & Hr & Hok).
  exists r. split; [|done]. simpl in Hr. by rewrite !Z.add_0_r, orb_false_r in Hr.
Qed.

(** A round at a character that is neither a quote nor the beginning of a
    sequence [\uXXXX]. *)
Lemma scan_plain fuel c p nq nu w inv :
  scans_all fuel -> ends_line (c :: p) -> (length (c :: p) <= S fuel)%nat ->
  is_newline c = false -> c <> quote -> is_unicode (c :: p) = false ->
  exists r, evals (if 128 <=? c then
      match enc with
      | AENC_ASCII => scan_literal fuel quote enc (MkScan p nq nu w true)
      | AENC_UTF8 =>
        bad ← IsInvalidUtf8Sequence (c :: p);
        if bad : bool then scan_literal fuel quote enc (MkScan p nq nu true true)
        else scan_literal fuel quote enc (MkScan (drop (Z.to_nat (A_UTF8_SKIP c)) (c :: p)) nq nu true inv)
      | AENC_LATIN1 => scan_literal fuel quote enc (MkScan p nq nu w inv)
      end
    else scan_literal fuel quote enc (MkScan p nq nu w inv)) r /\ scan_ok (c :: p) (MkScan (c :: p) nq nu w inv) r.
Proof.
  intros Hall Hp Hf Hnl Hne Hu. set (s := MkScan (c :: p) nq nu w inv).
  destruct (Z.leb_spec 128 c) as [Hge|Hlt]; [|by apply scan_char; auto; split_and!; auto].
  destruct enc eqn:Henc; rewrite <- Henc.
  - apply (scan_bad fuel c p s w); [done..|]. exists c, p. auto.
  - apply scan_char; auto. split_and!; auto.
  - destruct (IsInvalidUtf8Sequence_returns c p Hp Hge) as (bad & Hbe & Hval & Hinv). destruct bad.
    + destruct (scan_bad fuel c p s true Hall Hp Hf Hnl) as (r & Hr & Hok); 
        [exists c, p; split_and!; [done|done|right; split; [done|by apply Hinv]]|]. exists r. split; [|done].
      by eapply evals_bind; [exact Hbe|].
    + destruct (Hval eq_refl) as (l & p2 & Heq & Hl & l' & ->). rewrite Heq in Hp, Hf.
      destruct (scan_item fuel (LUtf8 (c :: l')) p2 s Hall Hp Hf (conj Henc Hl)) as (r & Hr & Hok). exists r.
      simpl in Hr. rewrite !Z.add_0_r, orb_true_r in Hr. subst s. rewrite Heq in *. split; [|done].
      eapply evals_bind; [exact Hbe|]. cbv iota. by rewrite (utf8_seq_skip c l'), (drop_app_length (c :: l')) by done.
Qed.

Lemma scan_literal_spec fuel : scans_all fuel.
Proof.
  induction fuel as [|fuel Hall]; intros p s Hp Hf Hs; [destruct p; [done|simpl in Hf; lia]|].
  destruct s as [p' nq nu w inv]. simpl in Hs. subst p'. unfold scans. cbn [scan_literal scan_p]. cbv zeta.
  destruct p as [|c p]; [done|]. cbn [numQuotes numUnicodeSequences isWide isInvalid].
  destruct (is_newline c) eqn:Hnl.
  { eexists. split; [eapply evals_bind; [apply peek_head|]; rewrite Hnl; apply evals_ret|]. eapply scan_ok_stop; auto. }
  destruct (Z.eqb_spec c quote) as [Heq|Hne].
  { subst c. destruct (ends_line_step _ _ Hp Hnl) as (d & p2 & ->). destruct (Z.eqb_spec d quote) as [->|Hd].
    - destruct (scan_item fuel LQuote p2 (MkScan (quote :: quote :: p2) nq nu w inv) Hall Hp Hf I) as (r & Hr & Hok).
      exists r. split; [|done]. eapply evals_bind; [apply peek_head|]. rewrite Hnl, Z.eqb_refl.
      eapply evals_bind; [by apply peek_evals|]. rewrite Z.eqb_refl. simpl negb. cbv iota.
      simpl in Hr. by rewrite Z.add_0_r, orb_false_r in Hr.
    - eexists. split; [|eapply scan_ok_stop; [done|right; split; [done|simpl; congruence]]].
      eapply evals_bind; [apply peek_head|]. rewrite Hnl, Z.eqb_refl.
      eapply evals_bind; [by apply peek_evals|]. rewrite (proj2 (Z.eqb_neq _ _) Hd). apply evals_ret. }
  destruct (is_unicode (c :: p)) eqn:Hu.
  - destruct (is_unicode_inv _ Hu) as (a & b & d & e & p2 & Hp2 & Hhex). injection Hp2 as -> ->.
    destruct (scan_item fuel (LUni a b d e) p2 (MkScan (92 :: 117 :: a :: b :: d :: e :: p2) nq nu w inv) Hall Hp Hf Hhex)
      as (r & Hr & Hok).
    exists r. split; [|done]. eapply evals_bind; [apply peek_head|]. rewrite Hnl, (proj2 (Z.eqb_neq _ _) Hne).
    eapply evals_bind; [by apply IsUnicodeSequence_evals|]. rewrite Hu.
    do 2 (eapply evals_bind; [by apply peek_evals|]). simpl in Hr. by rewrite Z.add_0_r, orb_assoc in Hr.
  - destruct (scan_plain fuel c p nq nu w inv Hall Hp Hf Hnl Hne Hu) as (r & Hr & Hok). exists r. split; [|done].
    eapply evals_bind; [apply peek_head|]. rewrite Hnl, (proj2 (Z.eqb_neq _ _) Hne).
    eapply evals_bind; [by apply IsUnicodeSequence_evals|]. rewrite Hu. exact Hr.
Qed.

(** ** Building the string *)

Lemma put_evals size elem c : zlen elem < size -> evals (put size elem c) (elem ++ [c]).
Proof. intros H. unfold put. test (zlen elem <? size) true. apply evals_ret. Qed.

Lemma quote_not_unicode p : is_unicode (quote :: p) = false.
Proof. destruct p as [|? [|? [|? [|? [|? ?]]]]]; try done. simpl. destruct quote_ok as [->| ->]; done. Qed.

Lemma quote_line : is_newline quote = false.
Proof. by destruct quote_ok as [->| ->]. Qed.

(** Both loops over the items of a literal, given what one round does. *)
Definition copies (copy : nat -> list Z -> nat -> list Z -> M (list Z)) (size : Z) (us : list lit_item) : Prop :=
  forall fuel it p q elem, it ∈ us -> item_ok it p -> ends_line (lit_text it ++ p) -> stays p q ->
    zlen elem < size ->
    forall r, evals (copy fuel p (length q) (elem ++ [lit_value it])) r ->
    evals (copy (S fuel) (lit_text it ++ p) (length q) elem) r.

Lemma copies_body copy size us p q fuel elem :
  copies copy size us -> lit_body p us q -> ends_line p -> (length p <= fuel)%nat -> zlen elem + zlen us <= size ->
  (forall fuel q elem, evals (copy fuel q (length q) elem) elem) ->
  evals (copy fuel p (length q) elem) (elem ++ (lit_value <$> us)).
Proof.
  intros Hc Hb. revert fuel elem Hc. induction Hb as [p|it p us q Hit Hb IH]; intros fuel elem Hc Hp Hf Hs Hend.
  - simpl. rewrite app_nil_r. apply Hend.
  - destruct (item_text_cons it p Hit) as (c & l & Hl). rewrite length_app, Hl in Hf. simpl in Hf.
    destruct fuel as [|fuel]; [lia|]. simpl length in Hs.
    apply (Hc fuel it p q elem); [by left|done|done|by eapply body_stays|lia|].
    replace (elem ++ (lit_value <$> it :: us)) with ((elem ++ [lit_value it]) ++ (lit_value <$> us))
      by (by rewrite <- app_assoc).
    apply IH; [|exact (ends_line_skip _ _ Hp (item_line _ _ Hit))|lia| |done].
    + intros fuel' it' p' q' elem' Hin. apply Hc. by right.
    + rewrite length_app. simpl length. lia.
Qed.

Lemma until_lt it p q : item_ok it p -> stays p q -> (length q <? length (lit_text it ++ p))%nat = true.
Proof.
  intros Hit Hs. apply Nat.ltb_lt. rewrite length_app. destruct (item_text_cons it p Hit) as (c & l & ->).
  apply stays_length in Hs. simpl. lia.
Qed.

(** The loop for one byte per character. *)
Lemma copy_literal_copies wide size us :
  enc <> AENC_UTF8 \/ wide = false -> (wide = false -> existsb lit_wide us = false) ->
  copies (fun fuel p until elem => copy_literal fuel wide quote size p until elem) size us.
Proof.
  intros Henc Hw fuel it p q elem Hin Hit Hp Hst Hs r Hr. cbn [copy_literal]. rewrite until_lt by done.
  assert (Hnw : wide = false -> lit_wide it = false).
  { intros Hf. specialize (Hw Hf). apply not_true_iff_false. intros Ht. apply not_true_iff_false in Hw. apply Hw.
    apply existsb_exists. exists it. by rewrite <- list_elem_of_In. }
  destruct it as [c| |a b c d|l]; cbn [lit_text item_ok lit_value lit_wide app] in *.
  all: try (eapply evals_bind; [apply peek_head|]).
  - destruct Hit as (Hnl & Hne & Hu & _). rewrite (proj2 (Z.eqb_neq _ _) Hne).
    eapply evals_bind; [by apply IsUnicodeSequence_evals|]. rewrite Hu. eapply evals_bind; [apply peek_head|].
    eapply evals_bind; [by apply put_evals|]. done.
  - rewrite Z.eqb_refl. simpl drop. apply ends_line_cons in Hp; [|apply quote_line].
    eapply evals_bind; [by apply IsUnicodeSequence_evals|]. rewrite quote_not_unicode. eapply evals_bind; [apply peek_head|].
    eapply evals_bind; [by apply put_evals|]. done.
  - assert (Hq : (92 =? quote) = false) by (destruct quote_ok as [->| ->]; done). rewrite Hq.
    destruct (hex_value a b c d Hit) as (Hr16 & _ & Hr8).
    eapply evals_bind; [by apply IsUnicodeSequence_evals|]. 
    rewrite is_unicode_intro by done.
    eapply (evals_bind _ _ (AUnicodeSequenceValue a b c d)).
    { do 4 (eapply evals_bind; [by apply peek_evals|]). apply evals_ret. }
    assert ((if wide then u16 else u8) (AUnicodeSequenceValue a b c d) = AUnicodeSequenceValue a b c d) as ->.
    { destruct wide; [apply Z.mod_small; lia|]. apply Z.mod_small. specialize (Hr8 (Hnw eq_refl)). lia. }
    eapply evals_bind; [by apply put_evals|]. done.
  - exfalso. destruct Hit as [He _], Henc as [Hn|Hn]; [done|]. by specialize (Hnw Hn).
Qed.

(** The loop for UTF-8. *)
Lemma utf8_value_range l : utf8_seq l -> 0 <= utf8_value l < 65536.
Proof.
  intros [a b _ _|a b c _ _ _ _]; simpl; change 0x1f with (Z.ones 5); change 0x3f with (Z.ones 6); change 0xf with (Z.ones 4);
    rewrite <- ?Z.lor_assoc, !Z.land_ones by lia.
  - rewrite fields by (try apply Z.mod_pos_bound; lia).
    pose proof (Z.mod_pos_bound a (2 ^ 5)). pose proof (Z.mod_pos_bound b (2 ^ 6)). lia.
  - pose proof (Z.mod_pos_bound a (2 ^ 4)). pose proof (Z.mod_pos_bound b (2 ^ 6)). pose proof (Z.mod_pos_bound c (2 ^ 6)).
    rewrite (fields (b mod 2 ^ 6) _ 6) by lia. rewrite (fields _ _ 12) by lia. lia.
Qed.

Lemma utf8_unit_evals l p :
  utf8_seq l -> evals (utf8_unit (l ++ p)) (utf8_value l, length l).
Proof.
  intros Hl. pose proof (utf8_value_range l Hl) as Hr. unfold utf8_unit. destruct Hl as [a b Ha Hb|a b c Ha Hb Hc Hlow];
    (eapply evals_bind; [by apply peek_evals|]); test (a <=? 0x7f) false; test (a <? 0xc2) false.
  - test (a <? 0xe0) true. eapply evals_bind; [by apply peek_evals|]. cbn [utf8_value] in Hr. unfold u16.
    rewrite Z.mod_small by done. apply evals_ret.
  - test (a <? 0xe0) false. do 2 (eapply evals_bind; [by apply peek_evals|]). cbn [utf8_value] in Hr. unfold u16.
    rewrite Z.mod_small by done. apply evals_ret.
Qed.

Lemma utf8_unit_ascii c p : c < 128 -> evals (utf8_unit (c :: p)) (c, 1%nat).
Proof.
  intros Hc. unfold utf8_unit. eapply evals_bind; [apply peek_head|]. test (c <=? 0x7f) true. apply evals_ret.
Qed.

Lemma utf8_first c l p : utf8_seq (c :: l) -> c <> quote /\ is_unicode (c :: p) = false.
Proof.
  intros H. assert (0xc2 <= c) by (inversion H; lia). split; [destruct quote_ok; lia|].
  apply not_true_iff_false. intros (? & ? & ? & ? & ? & Hp & _)%is_unicode_inv. injection Hp. lia.
Qed.

Lemma copy_utf8_literal_copies size us :
  enc = AENC_UTF8 ->
  copies (fun fuel p until elem => copy_utf8_literal fuel quote size p until elem) size us.
Proof.
  intros Henc fuel it p q elem Hin Hit Hp Hst Hs r Hr. cbn [copy_utf8_literal]. rewrite until_lt by done.
  destruct it as [c| |a b c d|l]; cbn [lit_text item_ok lit_value app] in *.
  - eapply evals_bind; [apply peek_head|]. destruct Hit as (Hnl & Hne & Hu & Hc). rewrite (proj2 (Z.eqb_neq _ _) Hne).
    eapply evals_bind; [by apply IsUnicodeSequence_evals|]. rewrite Hu.
    eapply evals_bind; [apply utf8_unit_ascii; destruct Hc; [done|congruence]|].
    eapply evals_bind; [by apply put_evals|]. done.
  - eapply evals_bind; [apply peek_head|]. rewrite Z.eqb_refl. simpl drop. apply ends_line_cons in Hp; [|apply quote_line].
    eapply evals_bind; [by apply IsUnicodeSequence_evals|]. rewrite quote_not_unicode.
    eapply evals_bind; [apply utf8_unit_ascii; destruct quote_ok; lia|].
    eapply evals_bind; [by apply put_evals|]. done.
  - eapply evals_bind; [apply peek_head|].
    assert (Hq : (92 =? quote) = false) by (destruct quote_ok as [->| ->]; done). rewrite Hq.
    destruct (hex_value a b c d Hit) as (Hr16 & _ & _).
    eapply evals_bind; [by apply IsUnicodeSequence_evals|]. rewrite is_unicode_intro by done.
    eapply (evals_bind _ _ (AUnicodeSequenceValue a b c d)).
    { do 4 (eapply evals_bind; [by apply peek_evals|]). apply evals_ret. }
    unfold u16. rewrite Z.mod_small by done. eapply evals_bind; [by apply put_evals|]. done.
  - destruct Hit as [_ Hl]. destruct l as [|c l]; [inversion Hl|]. destruct (utf8_first c l (l ++ p) Hl) as [Hne Hu].
    eapply evals_bind; [apply peek_head|]. rewrite (proj2 (Z.eqb_neq _ _) Hne).
    eapply evals_bind; [by apply IsUnicodeSequence_evals|]. cbn [app]. rewrite Hu.
    eapply evals_bind; [by apply (utf8_unit_evals (c :: l))|].
    eapply evals_bind; [by apply put_evals|]. cbn [fst snd]. change (c :: l ++ p) with ((c :: l) ++ p). by rewrite drop_app_length.
Qed.

(** The estimate of the number of characters. *)
Lemma literal_length_text l : forall fuel p until n v,
  Forall (fun c => c < 0xc2) l -> (until <= length p)%nat ->
  evals (literal_length fuel p until (n + zlen l)) v -> evals (literal_length (length l + fuel) (l ++ p) until n) v.
Proof.
  induction l as [|c l IH]; intros fuel p until n v Hl Hu Hv; [by rewrite Z.add_0_r in Hv|].
  apply Forall_cons_1 in Hl as [Hc Hl]. cbn [length plus literal_length app].
  rewrite (proj2 (Nat.ltb_lt _ _)) by (simpl; rewrite length_app; lia).
  eapply evals_bind; [apply peek_head|]. unfold A_UTF8_SKIP. test (c <? 0xc2) true. simpl drop. apply IH; [done|done|].
  replace (n + 1 + zlen l) with (n + zlen (c :: l)) by (simpl length; lia). done.
Qed.

Lemma item_ascii it p : enc = AENC_UTF8 -> item_ok it p -> 
  match it with LUtf8 _ => True | _ => Forall (fun c => c < 0xc2) (lit_text it) end.
Proof.
  intros He. destruct it as [c| |a b c d|l]; simpl; [|intros _|intros H|done].
  - intros (_ & _ & _ & [Hc|Hc]); [|congruence]. repeat constructor. lia.
  - assert (quote < 0xc2) by (destruct quote_ok; lia). by repeat constructor.
  - do 2 (constructor; [lia|]). eapply Forall_impl; [|exact H]. simpl. intros x Hx%hex_digit_cases. lia.
Qed.

Lemma literal_length_body p us q : enc = AENC_UTF8 -> lit_body p us q -> forall fuel n,
  (length p <= fuel + length q)%nat -> evals (literal_length fuel p (length q) n) (n + total char_len us).
Proof.
  intros He Hb. induction Hb as [p|it p us q Hit Hb IH]; intros fuel n Hf.
  - simpl. rewrite Z.add_0_r. destruct fuel; simpl; rewrite Nat.ltb_irrefl; apply evals_ret.
  - rewrite length_app in Hf. pose proof (stays_length _ _ (body_stays _ _ _ Hb)) as Hst.
    assert (Hgo : forall l, lit_text it = l -> char_len it = zlen l -> Forall (fun c => c < 0xc2) l ->
      evals (literal_length fuel (lit_text it ++ p) (length q) n) (n + total char_len (it :: us))).
    { intros l Hl Hc Hlo. rewrite Hl in *. replace fuel with (length l + (fuel - length l))%nat by lia.
      apply literal_length_text; [done|done|]. simpl. rewrite Hc, Z.add_assoc. apply IH. lia. }
    pose proof (item_ascii it p He Hit) as Ha. destruct it as [c| |a b c d|l]; try by eapply Hgo.
    clear Hgo. cbn [lit_text total char_len item_ok] in *. destruct Hit as [_ Hl]. destruct l as [|c l]; [inversion Hl|].
    simpl in Hf. destruct fuel as [|fuel]; [lia|]. cbn [literal_length].
    rewrite (proj2 (Nat.ltb_lt _ _)) by (simpl; rewrite length_app; lia).
    eapply evals_bind; [apply peek_head|]. rewrite (utf8_seq_skip c l), drop_app_length by done.
    rewrite Z.add_assoc. apply IH. lia.
Qed.

(** ** The string *)

Definition lit_string (us : list lit_item) : StrObj :=
  if existsb lit_wide us then WideStr (lit_value <$> us) else NarrowStr (lit_value <$> us).

Lemma total_bytes us :
  Forall (fun it => match it with LUtf8 _ => False | _ => True end) us ->
  total text_len us - total is_quote us - 5 * total is_uni us = zlen us.
Proof.
  induction 1 as [|it us Hit Hus IH]; [done|]. simpl length.
  destruct it; try done; unfold text_len in *; cbn [total lit_text length is_quote is_uni]; lia.
Qed.

Lemma body_bytes p us q :
  lit_body p us q -> enc <> AENC_UTF8 \/ existsb lit_wide us = false ->
  Forall (fun it => match it with LUtf8 _ => False | _ => True end) us.
Proof.
  induction 1 as [|it p us q Hit Hb IH]; intros Hor; [constructor|]. constructor.
  - destruct it; try done. destruct Hor as [He|He]; [by destruct Hit|done].
  - apply IH. destruct Hor as [He|He]; [by left|]. right. simpl in He. by apply orb_false_iff in He as [_ ?].
Qed.

Lemma total_chars p us q :
  lit_body p us q ->
  zlen us <= total char_len us - (total is_quote us - 5 * total is_uni us) <= 2 * total text_len us.
Proof.
  induction 1 as [|it p us q Hit Hb IH]; [done|]. simpl length.
  destruct it as [c| |a b c d|l]; cbn [total char_len]; unfold text_len in *; cbn [lit_text length is_quote is_uni]; try lia.
  destruct Hit as [_ Hl]. assert (2 <= zlen l) by (destruct Hl; simpl length; lia). lia.
Qed.

Lemma CreateStringLiteral_spec p us s :
  lit_body p us (scan_p s) -> ends_line p -> zlen p < 2 ^ 31 ->
  numQuotes s = total is_quote us -> numUnicodeSequences s = total is_uni us -> isWide s = existsb lit_wide us ->
  returns (CreateStringLiteral p quote enc s) (fun v => v = lit_string us).
Proof.
  intros Hb Hp Hlen Hq Hu Hw. pose proof (body_length _ _ _ Hb) as Htot. pose proof (stays_length _ _ (body_stays _ _ _ Hb)).
  unfold CreateStringLiteral, lit_string. cbv zeta. rewrite Hq, Hu, Hw, Nat2Z.inj_sub by done.
  replace (zlen p - zlen (scan_p s)) with (total text_len us) by lia.
  assert (Hcopy : forall wide size, enc <> AENC_UTF8 \/ wide = false -> (wide = false -> existsb lit_wide us = false) ->
    zlen us <= size ->
    evals (copy_literal (length p) wide quote size p (length (scan_p s)) []) (lit_value <$> us)).
  { intros wide size Hor Hnw Hs.
    apply (copies_body (fun fuel p until elem => copy_literal fuel wide quote size p until elem) size us p (scan_p s) _ []);
      [by apply copy_literal_copies|done|done|lia|done|].
    intros fuel q elem. destruct fuel; simpl; rewrite Nat.ltb_irrefl; apply evals_ret. }
  destruct (existsb lit_wide us) eqn:Hwide; simpl negb; cbv iota.
  - destruct enc eqn:Henc.
    3:{ eapply returns_bind_evals; [eapply literal_length_body; [done|done|lia]|].
        pose proof (total_chars _ _ _ Hb) as Hc.
        rewrite u32_small by lia. eapply returns_bind; [apply AAlloc_spec|]. intros _ _.
        eapply returns_bind_evals; [|by apply returns_ret]. rewrite Z.add_0_l.
        apply (copies_body (fun fuel p until elem => copy_utf8_literal fuel quote _ p until elem) (total char_len us - (total is_quote us - 5 * total is_uni us))
          us p (scan_p s) _ []);
          [by apply copy_utf8_literal_copies|done|done|lia|simpl; lia|].
        intros fuel q elem. destruct fuel; simpl; rewrite Nat.ltb_irrefl; apply evals_ret. }
    all: pose proof (total_bytes us (body_bytes _ _ _ Hb ltac:(left; congruence))) as Hbytes; rewrite Hbytes;
      eapply returns_bind; [apply AAlloc_spec|]; intros _ _;
      (eapply returns_bind_evals; [apply Hcopy; [by left|done|]|by apply returns_ret]).
    all: pose proof (total_chars _ _ _ Hb); rewrite u32_small; lia.
  - pose proof (total_bytes us (body_bytes _ _ _ Hb ltac:(by right))) as Hbytes. rewrite Hbytes.
    eapply returns_bind; [apply AAlloc_spec|]. intros _ _.
    eapply returns_bind_evals; [apply Hcopy; [by right|done|lia]|]. by apply returns_ret.
Qed.

(** ** The items of a literal are unique *)

Lemma utf8_seq_det a b p q : utf8_seq a -> utf8_seq b -> a ++ p = b ++ q -> a = b /\ p = q.
Proof. intros Ha Hb H. destruct Ha, Hb; simpl in H; simplify_eq; try lia; done. Qed.

Lemma utf8_seq_head l : utf8_seq l -> exists c l', l = c :: l' /\ 0xc2 <= c.
Proof. intros [a b|a b c]; eexists _, _; (split; [done|lia]). Qed.

Lemma item_det it it' p p' :
  item_ok it p -> item_ok it' p' -> lit_text it ++ p = lit_text it' ++ p' -> it = it' /\ p = p'.
Proof.
  assert (Hc : forall c l r l' r', item_ok (LChar c) r -> utf8_seq l -> enc = AENC_UTF8 -> c :: l' <> l ++ r').
  { intros c l r l' r' (_ & _ & _ & Hor) Hl He Heq. destruct (utf8_seq_head l Hl) as (x & y & -> & Hx). injection Heq as <- _.
    destruct Hor; [lia|congruence]. }
  assert (Hu : forall c p a b d e q, item_ok (LChar c) p -> Forall (fun h => AIsHexDigit h = true) [a; b; d; e] ->
    c :: p <> 92 :: 117 :: a :: b :: d :: e :: q).
  { intros c p0 a b d e q (_ & _ & Hn & _) Hh Heq. rewrite Heq, is_unicode_intro in Hn; done. }
  assert (Hs : forall x l r r', utf8_seq l -> x < 128 -> x :: r <> l ++ r').
  { intros x l r r' Hl Hx Heq. destruct (utf8_seq_head l Hl) as (y & z & -> & Hy). injection Heq as <- _. lia. }
  assert (quote < 128) by (destruct quote_ok; lia).
  destruct it as [c| |a b c d|l], it' as [c'| |a' b' c' d'|l']; cbn [lit_text app]; intros H1 H2 Heq.
  - by simplify_eq.
  - destruct H1 as (_ & H1 & _). by simplify_eq.
  - by apply Hu in Heq.
  - destruct H2. by eapply Hc in Heq.
  - destruct H2 as (_ & H2 & _). by simplify_eq.
  - by simplify_eq.
  - destruct quote_ok; congruence.
  - destruct H2. by apply Hs in Heq.
  - symmetry in Heq. by apply Hu in Heq.
  - destruct quote_ok; congruence.
  - by simplify_eq.
  - destruct H2. by apply Hs in Heq.
  - destruct H1. symmetry in Heq. by eapply Hc in Heq.
  - destruct H1. symmetry in Heq. by apply Hs in Heq.
  - destruct H1. symmetry in Heq. by apply Hs in Heq.
  - destruct H1, H2. destruct (utf8_seq_det l l' p p') as [-> ->]; done.
Qed.

(** Where the items stop. *)
Definition lit_stop (p : list Z) : Prop := lit_end p \/ bad_char p.

Lemma item_no_stop it p : item_ok it p -> ~ lit_stop (lit_text it ++ p).
Proof.
  assert (quote < 128) by (destruct quote_ok; lia).
  intros Hit [(c & q & Heq & Hc)|(c & q & Heq & Hge & Hor)].
  - pose proof (item_line it p Hit) as Hl. destruct (item_text_cons it p Hit) as (c' & l & Hc'). rewrite Hc' in Hl, Heq.
    apply Forall_cons_1 in Hl as [Hl _]. injection Heq as <- Heq. destruct Hc as [|[-> Hq]]; [congruence|].
    destruct it as [c| |a b d e|l']; cbn [lit_text] in Hc'.
    + destruct Hit as (_ & Hit & _). congruence.
    + injection Hc' as <-. simpl in Heq. by subst q.
    + destruct quote_ok; congruence.
    + destruct Hit as [_ Hit]. destruct (utf8_seq_head l' Hit) as (x & y & -> & Hx). injection Hc' as <- _. lia.
  - destruct it as [x| |a b d e|l']; cbn [lit_text item_ok app] in *; simplify_eq; try lia.
    + destruct Hit as (_ & _ & _ & [|]); [lia|]. destruct Hor as [|[? _]]; congruence.
    + destruct Hit as [He Hl]. destruct Hor as [|[_ Hno]]; [congruence|]. by apply (Hno l' p).
Qed.

Lemma body_det p us e : lit_body p us e -> lit_stop e -> forall us' e', lit_body p us' e' -> lit_stop e' -> us = us' /\ e = e'.
Proof.
  induction 1 as [p|it p us q Hit Hb IH]; intros Hs us' e' Hb' Hs'.
  - inversion Hb' as [|it' p' us2 q' Hit' Hb2]; subst; [done|]. by apply item_no_stop in Hs.
  - inversion Hb' as [|it' p' us2 q' Hit' Hb2 Heq]; subst; [by apply item_no_stop in Hs'|].
    symmetry in Heq. destruct (item_det it it' p p' Hit Hit' Heq) as [-> ->]. by destruct (IH Hs us2 e' Hb2 Hs') as [-> ->].
Qed.
End literal.
