(* ===== verification/LexNumber.v ===== *)
(** * LexNumber: the text of numbers and comments

    Reference definitions of integer and floating point literals and of the
    comments of the three encodings, and the functions of the lexer that skip
    them. *)

From Stdlib Require Import SpecFloat.
From S2P Require Import Prelude Runtime Digits Value LongInt IntOps IntConv IntText Encodings.
From S2P Require Import StrOps Tokens Lexer LexText LexLiteral.

Open Scope Z_scope.

(** ** Numbers *)

Definition digits (l : list Z) : Prop := Forall (fun c => AIsDigit c = true) l.

(** A text that does not continue an integer literal. *)
Definition int_end (q : list Z) : bool :=
  match q with
  | c :: r => negb (IsIdChar c) && negb ((c =? 46) && match r with d :: _ => AIsDigit d | [] => false end)
  | [] => false
  end.

Definition float_fraction (l : list Z) : Prop := l = [] \/ exists f, l = 46 :: f /\ f <> [] /\ digits f.

Definition float_exp (l : list Z) : Prop :=
  exists e sg f, l = e :: sg ++ f /\ e ∈ [101; 69] /\ sg ∈ [[]; [45]; [43]] /\ f <> [] /\ digits f.

(** Digits, a fraction and an exponent, the last two optional. *)
Inductive float_text : list Z -> Prop :=
  | float_mantissa ds fr : digits ds -> float_fraction fr -> ds ++ fr <> [] -> float_text (ds ++ fr)
  | float_exponential ds fr ex : digits ds -> float_fraction fr -> ds ++ fr <> [] -> float_exp ex ->
      float_text (ds ++ fr ++ ex).

Definition id_end (q : list Z) : bool := match q with c :: _ => negb (IsIdChar c) | [] => true end.

(** The longest number that the text starts with, and the rest. *)
Definition longest_number (p l q : list Z) : Prop :=
  p = l ++ q /\ float_text l /\ forall l' q', p = l' ++ q' -> float_text l' -> (length l' <= length l)%nat.

Definition is_exp (c : Z) : bool := (c =? 101) || (c =? 69).

Definition drop_sign (r : list Z) : list Z :=
  match r with
  | s :: r' => if (s =? 45) || (s =? 43) then r' else r
  | [] => []
  end.

(** The text behind the number [l], and behind the beginning of an exponent
    that lacks its digits. *)
Definition behind_exp (l r : list Z) : list Z :=
  match r with
  | e :: r' => if negb (existsb is_exp l) && is_exp e then drop_sign r' else r
  | [] => []
  end.

Lemma digits_line l : digits l -> Forall (fun c => is_newline c = false) l.
Proof. intros H. eapply Forall_impl; [|exact H]. apply digit_not_newline. Qed.

Lemma skip_digits_spec p : exists l, p = l ++ skip_digits p /\ digits l /\
  match skip_digits p with c :: _ => AIsDigit c = false | [] => True end.
Proof.
  induction p as [|c p (l & Hp & Hl & Hq)]; [exists []; split_and!; [done|constructor|done]|]. simpl. destruct (AIsDigit c) eqn:Hc; [|exists []; split_and!; [done|constructor|done]].
  exists (c :: l). split_and!; [exact (f_equal (cons c) Hp)|by constructor|done].
Qed.

Lemma ends_int_evals q : ends_line q -> evals (ends_int q) (int_end q).
Proof.
  intros Hq. destruct q as [|c r]; [done|]. unfold ends_int. eapply evals_bind; [apply peek_head|]. simpl.
  destruct (IsIdChar c) eqn:Hc; [apply evals_ret|]. destruct (Z.eqb_spec c 46) as [->|]; [|apply evals_ret].
  destruct (ends_line_step _ _ Hq eq_refl) as (d & r' & ->). eapply evals_bind; [by apply peek_evals|]. apply evals_ret.
Qed.

Lemma at_char_line c p cs : ends_line (c :: p) -> is_newline c = false -> at_char (c :: p) cs = existsb (Z.eqb c) cs.
Proof. intros Hp Hc. by destruct (ends_line_step _ _ Hp Hc) as (d & r & ->). Qed.

Lemma at_char_newline c p cs : is_newline c = true -> Forall (fun x => is_newline x = false) cs -> at_char (c :: p) cs = false.
Proof.
  intros Hc Hcs. destruct p as [|d p]; [done|]. simpl. apply not_true_iff_false. intros (x & Hx & Heq)%existsb_exists.
  apply Z.eqb_eq in Heq as ->. rewrite Forall_forall in Hcs. specialize (Hcs _ Hx). congruence.
Qed.

(** A sign. *)
Lemma skip_sign_spec r :
  ends_line r -> exists sg c q, (if at_char r [45; 43] then drop 1 r else r) = c :: q /\ ends_line (c :: q) /\
    r = sg ++ c :: q /\ sg ∈ [[]; [45]; [43]] /\ (sg = [] -> c <> 45 /\ c <> 43).
Proof.
  intros Hr. destruct (ends_line_head r Hr) as (s & r1 & ->).
  destruct (decide (s = 45 \/ s = 43)) as [Hs|Hs].
  - assert (Hnl : is_newline s = false) by (unfold is_newline; lia).
    rewrite (at_char_line s r1 [45; 43] Hr Hnl). pose proof (ends_line_cons _ _ Hr Hnl) as Hr1.
    destruct (ends_line_head _ Hr1) as (c & q & ->). exists [s], c, q.
    assert (existsb (Z.eqb s) [45; 43] = true) as -> by (simpl; lia). split_and!; try done.
    rewrite !elem_of_cons. right. destruct Hs as [->| ->]; auto.
  - exists [], s, r1. assert (at_char (s :: r1) [45; 43] = false) as ->.
    { destruct r1; [done|]. simpl. lia. }
    split_and!; try done; [by left|lia].
Qed.

Lemma sign_line sg : sg ∈ [[]; [45]; [43]] -> Forall (fun c => is_newline c = false) sg.
Proof. rewrite !elem_of_cons. intros [->|[->|[->|[]%elem_of_nil]]]; by repeat constructor. Qed.

Lemma no_exponent e r sg d q :
  r = sg ++ d :: q -> sg ∈ [[]; [45]; [43]] -> (sg = [] -> d <> 45 /\ d <> 43) -> AIsDigit d = false ->
  forall ex q', e :: r = ex ++ q' -> ~ float_exp ex.
Proof.
  intros -> Hsg Hno Hd ex q' Hex (e' & sg' & f' & -> & _ & Hsg' & Hf' & Hfd).
  destruct f' as [|d' f']; [done|]. apply Forall_cons_1 in Hfd as [Hd' _]. simpl in Hex. injection Hex as _ Hrr.
  rewrite !elem_of_cons in Hsg, Hsg'.
  destruct Hsg as [->|[->|[->|[]%elem_of_nil]]], Hsg' as [->|[->|[->|[]%elem_of_nil]]]; simpl in Hrr; simplify_eq;
    try congruence; try (by destruct (Hno eq_refl)).
Qed.

(** Where no digit follows, the digits in front cannot be more. *)
Definition no_digit (q : list Z) : Prop := match q with c :: _ => AIsDigit c = false | [] => True end.

Definition no_exp (q : list Z) : Prop := match q with c :: _ => is_exp c = false | [] => True end.

Lemma digits_greedy ds r ds' r' :
  ds ++ r = ds' ++ r' -> digits ds' -> no_digit r -> exists t, ds = ds' ++ t /\ r' = t ++ r.
Proof.
  revert ds. induction ds' as [|c ds' IH]; intros ds Heq Hd Hr; [by exists ds|].
  apply Forall_cons_1 in Hd as [Hc Hd]. destruct ds as [|d ds].
  - simpl in Heq. subst r. simpl in Hr. congruence.
  - injection Heq as -> Heq. destruct (IH ds Heq Hd Hr) as (t & -> & ->). by exists t.
Qed.

Lemma is_exp_in c : is_exp c = true <-> c ∈ [101; 69].
Proof. unfold is_exp. rewrite !elem_of_cons, elem_of_nil. lia. Qed.

(** The exponents that start [sg ++ d :: f ++ q]. *)
Lemma exponent_greedy e sg d f q ex' q' :
  e :: sg ++ d :: f ++ q = ex' ++ q' -> float_exp ex' -> sg ∈ [[]; [45]; [43]] -> (sg = [] -> d <> 45 /\ d <> 43) ->
  no_digit q -> (length ex' <= length (e :: sg ++ d :: f))%nat.
Proof.
  intros Heq (e' & sg' & f' & -> & _ & Hsg' & Hf' & Hfd') Hsg Hno Hq. injection Heq as <- Heq.
  destruct f' as [|d' f']; [done|]. apply Forall_cons_1 in Hfd' as [Hd' Hfd']. rewrite <- app_assoc in Heq.
  simpl. rewrite !length_app. simpl.
  assert (Hf : d :: f ++ q = d' :: f' ++ q' -> (length f' <= length f)%nat).
  { intros [= _ H]. destruct (digits_greedy f q f' q' H Hfd' Hq) as (t & -> & _). rewrite length_app. lia. }
  rewrite !elem_of_cons in Hsg, Hsg'.
  destruct Hsg as [->|[->|[->|[]%elem_of_nil]]], Hsg' as [->|[->|[->|[]%elem_of_nil]]]; simpl in Heq |- *;
    first [discriminate Heq|specialize (Hf Heq); lia|specialize (Hf (f_equal (drop 1) Heq)); lia
          |exfalso; injection Heq as Hd _; subst; first [discriminate Hd'|by destruct (Hno eq_refl)]].
Qed.

(** The exponent. *)
Lemma float_exponent_spec p :
  ends_line p ->
  exists ex q err, evals (float_exponent p) (if err : bool then behind_exp [] p else q, err) /\ p = ex ++ q /\
    (ex = [] /\ (if err then exists e r, q = e :: r /\ is_exp e = true else no_exp q) \/ err = false /\ float_exp ex) /\
    (forall ex' q', p = ex' ++ q' -> float_exp ex' -> (length ex' <= length ex)%nat) /\
    stays p q /\ stays p (behind_exp [] p).
Proof.
  intros Hp. unfold float_exponent. destruct (ends_line_head p Hp) as (e & r & ->). simpl behind_exp.
  destruct (is_exp e) eqn:Hexp.
  2:{ exists [], (e :: r), false. assert (at_char (e :: r) [101; 69] = false) as ->.
      { destruct r; [done|]. unfold is_exp in Hexp. simpl. lia. }
      split_and!; [apply evals_ret|done|by left| |apply stays_refl|apply stays_refl].
      intros ex' q' Heq (e' & sg & f & -> & He' & _). injection Heq as <- _. apply is_exp_in in He'. congruence. }
  assert (Hnl : is_newline e = false) by (unfold is_exp, is_newline in *; lia).
  rewrite (at_char_line e r [101; 69] Hp Hnl). assert (existsb (Z.eqb e) [101; 69] = true) as -> by (unfold is_exp in Hexp; simpl; lia).
  destruct (skip_sign_spec r (ends_line_cons _ _ Hp Hnl)) as (sg & d & q & Hq & Hdq & Hr & Hsg & Hno).
  change (drop 1 (e :: r)) with r. cbv zeta. rewrite Hq.
  assert (Hds : drop_sign r = d :: q).
  { rewrite Hr. rewrite !elem_of_cons in Hsg. destruct Hsg as [->|[->|[->|[]%elem_of_nil]]]; try done. simpl.
    destruct (Hno eq_refl) as [H1 H2]. by rewrite (proj2 (Z.eqb_neq _ _) H1), (proj2 (Z.eqb_neq _ _) H2). }
  assert (Hst : stays (e :: r) (d :: q)) by (apply stays_skip; [done|]; exists sg; split; [done|by apply sign_line]).
  rewrite Hds. destruct (AIsDigit d) eqn:Hdig.
  - destruct (skip_digits_spec q) as (f & Hf & Hfd & Hnd). exists (e :: sg ++ d :: f), (skip_digits q), false.
    assert (Hsplit : e :: r = e :: sg ++ d :: f ++ skip_digits q) by (by rewrite <- Hf, <- Hr).
    split_and!; [| | | | |done].
    + eapply evals_bind; [apply peek_head|]. rewrite Hdig. apply evals_ret.
    + rewrite Hsplit. simpl. by rewrite <- app_assoc.
    + right. split; [done|]. exists e, sg, (d :: f). split_and!; [done|by apply is_exp_in|done|done|by constructor].
    + intros ex' q' Heq Hex. rewrite Hsplit in Heq. by eapply exponent_greedy.
    + eapply stays_trans; [exact Hst|]. apply stays_skip; [by apply digit_not_newline|]. exists f. split; [done|by apply digits_line].
  - exists [], (e :: r), true. split_and!; [|done|left; split; [done|by exists e, r]| |apply stays_refl|done].
    + eapply evals_bind; [apply peek_head|]. rewrite Hdig. apply evals_ret.
    + intros ex' q' Heq Hex. by destruct (no_exponent e r sg d q Hr Hsg Hno Hdig ex' q' Heq).
Qed.

(** The digits in front of the exponent, and the fraction: as many as
    possible. *)
Definition longest_mantissa (p ds fr q : list Z) : Prop :=
  p = ds ++ fr ++ q /\ digits ds /\ float_fraction fr /\
  forall ds' fr' r, p = ds' ++ fr' ++ r -> digits ds' -> float_fraction fr' ->
    r = q \/ (length q < length r)%nat /\ no_exp r.

Lemma digit_no_exp c : AIsDigit c = true -> is_exp c = false.
Proof. unfold AIsDigit, is_exp. lia. Qed.

Lemma longest_mantissa_intro p ds fr q :
  p = ds ++ fr ++ q -> digits ds -> float_fraction fr -> no_digit (fr ++ q) -> no_digit q ->
  (fr = [] -> forall c r, q = 46 :: c :: r -> AIsDigit c = false) -> longest_mantissa p ds fr q.
Proof.
  intros Hp Hds Hfr Hn Hq Hdot. split_and!; [done..|]. intros ds' fr' r Heq Hds' Hfr'. rewrite Hp in Heq.
  destruct (digits_greedy ds _ ds' _ Heq Hds' Hn) as (t & Ht & Hr).
  destruct t as [|c t].
  - destruct Hfr' as [->|(f' & -> & Hf' & Hfd')].
    + simpl in Hr. subst r. destruct Hfr as [->|(f & -> & _)]; [by left|right]. simpl. rewrite length_app. split; [lia|done].
    + simpl in Hr. destruct f' as [|c f']; [done|]. pose proof Hfd' as [Hc Hfd2]%Forall_cons_1.
      destruct Hfr as [->|(f & -> & Hf & Hfd)].
      * simpl in Hr. specialize (Hdot eq_refl c (f' ++ r)). rewrite <- Hr in Hdot. specialize (Hdot eq_refl). congruence.
      * injection Hr as Hr. symmetry in Hr. change (c :: f' ++ r) with ((c :: f') ++ r) in Hr.
        destruct (digits_greedy f q (c :: f') r Hr Hfd' Hq) as (t & -> & ->).
        destruct t as [|x t]; [by left|right]. apply Forall_app in Hfd as [_ Hx]. apply Forall_cons_1 in Hx as [Hx _].
        split; [simpl; rewrite length_app; lia|by apply digit_no_exp].
  - rewrite Ht in Hds. apply Forall_app in Hds as [_ Hc]. apply Forall_cons_1 in Hc as [Hc _].
    destruct Hfr' as [->|(f' & -> & _)]; [|simpl in Hr; injection Hr as <- _; done].
    simpl in Hr. subst r. right. simpl. rewrite !length_app. split; [lia|by apply digit_no_exp].
Qed.

Lemma mantissa_spec p :
  let q := match skip_digits p with
           | 46 :: c :: r => if AIsDigit c then skip_digits r else skip_digits p
           | _ => skip_digits p
           end in
  exists ds fr, longest_mantissa p ds fr q.
Proof.
  destruct (skip_digits_spec p) as (ds & Hds & Hd & Hn). cbv zeta.
  assert (Hnone : (forall c r, skip_digits p = 46 :: c :: r -> AIsDigit c = false) ->
    exists ds fr, longest_mantissa p ds fr (skip_digits p)).
  { intros H. exists ds, []. apply longest_mantissa_intro; try done. by left. }
  destruct (skip_digits p) as [|x [|c r]] eqn:Hq; [by apply Hnone| |].
  { assert (Hgo : exists ds fr, longest_mantissa p ds fr [x]) by (by apply Hnone). by repeat (case_match; try done). }
  destruct (decide (x = 46)) as [->|Hx].
  2:{ assert (Hgo : exists ds fr, longest_mantissa p ds fr (x :: c :: r)) by (apply Hnone; congruence). by repeat (case_match; try done). }
  destruct (AIsDigit c) eqn:Hc; [|apply Hnone; congruence]. destruct (skip_digits_spec r) as (f & Hf & Hfd & Hnf).
  exists ds, (46 :: c :: f). apply longest_mantissa_intro; try done.
  - by rewrite Hds at 1; simpl; rewrite <- Hf.
  - right. exists (c :: f). split_and!; [done|done|by constructor].
Qed.

Lemma skip_digits_length p : (length (skip_digits p) <= length p)%nat.
Proof. induction p as [|c p IH]; [done|]. simpl. destruct (AIsDigit c); simpl; lia. Qed.

(** The beginning of a number. *)
Definition number_start (c : Z) (p : list Z) : Prop :=
  AIsDigit c = true \/ c = 46 /\ exists d r, p = d :: r /\ AIsDigit d = true.

Lemma mantissa_shorter c p :
  number_start c p ->
  (length (match skip_digits (c :: p) with
           | 46 :: d :: r => if AIsDigit d then skip_digits r else skip_digits (c :: p)
           | _ => skip_digits (c :: p)
           end)%Z < length (c :: p))%nat.
Proof.
  intros [Hc|(-> & d & r & -> & Hd)].
  - assert (Hs : skip_digits (c :: p) = skip_digits p) by (simpl; by rewrite Hc). rewrite Hs.
    pose proof (skip_digits_length p). simpl. destruct (skip_digits p) as [|x [|d r]]; simpl in *; [lia| |].
    + repeat case_match; simpl; lia.
    + pose proof (skip_digits_length r). repeat case_match; simpl; lia.
  - simpl. rewrite Hd. pose proof (skip_digits_length r). lia.
Qed.

Lemma number_not_sign c p : number_start c p -> is_blank c = false /\ at_char (c :: p) [45; 43] = false.
Proof.
  intros Hn. assert (Hc : 46 <= c) by (destruct Hn as [Hc|[-> _]]; [unfold AIsDigit in Hc; lia|done]).
  split; [unfold is_blank; lia|]. destruct p; [done|]. simpl. lia.
Qed.

Lemma take_prefix {A} (l q : list A) : take (length (l ++ q) - length q) (l ++ q) = l.
Proof. rewrite length_app, Nat.add_sub. apply take_app_length. Qed.

Lemma mantissa_line ds fr : digits ds -> float_fraction fr -> Forall (fun c => is_newline c = false) (ds ++ fr).
Proof.
  intros Hd [->|(f & -> & _ & Hf)]; apply Forall_app; (split; [by apply digits_line|]); [constructor|].
  constructor; [done|by apply digits_line].
Qed.

Section strtod.
Context (strtod : list Z -> spec_float).

Lemma no_exp_mantissa ds fr : digits ds -> float_fraction fr -> existsb is_exp (ds ++ fr) = false.
Proof.
  intros Hd Hfr. assert (Hdig : forall l, digits l -> existsb is_exp l = false).
  { intros l. induction 1 as [|c l Hc _ IH]; [done|]. simpl. by rewrite digit_no_exp. }
  rewrite existsb_app, (Hdig ds Hd). destruct Hfr as [->|(f & -> & _ & Hf)]; [done|]. simpl. by apply Hdig.
Qed.

(** The longest number is the longest mantissa with the longest exponent. *)
Lemma longest_number_intro p ds fr q ex r :
  longest_mantissa p ds fr q -> ds ++ fr <> [] -> q = ex ++ r -> ex = [] \/ float_exp ex ->
  (forall ex' r', q = ex' ++ r' -> float_exp ex' -> (length ex' <= length ex)%nat) ->
  longest_number p (ds ++ fr ++ ex) r.
Proof.
  intros (Hp & Hd & Hfr & Hmax) Hne Hq Hex Hemax. split_and!.
  - by rewrite Hp, Hq, <- !app_assoc.
  - destruct Hex as [->|Hex]; [rewrite app_nil_r; by apply float_mantissa|by apply float_exponential].
  - intros l' r' Heq Hl. assert (Hlen : (length p = length (ds ++ fr) + length ex + length r)%nat)
      by (rewrite Hp, Hq, !length_app; lia). rewrite !length_app in *.
    destruct Hl as [ds' fr' Hd' Hfr' _|ds' fr' ex' Hd' Hfr' _ Hex'].
    + rewrite <- app_assoc in Heq. destruct (Hmax ds' fr' r' Heq Hd' Hfr') as [->|[Hlt _]];
        apply (f_equal length) in Heq; rewrite !length_app in *; apply (f_equal length) in Hq; rewrite length_app in Hq; lia.
    + rewrite <- !app_assoc in Heq. destruct (Hmax ds' fr' (ex' ++ r') Heq Hd' Hfr') as [Hr|[_ Hno]].
      * pose proof (Hemax ex' r' (eq_sym Hr) Hex'). apply (f_equal length) in Heq, Hr, Hq. rewrite !length_app in *. lia.
      * destruct Hex' as (e & sg & f & -> & He & _). apply is_exp_in in He. simpl in Hno. congruence.
Qed.

Lemma AStrToFloat_spec c p :
  ends_line (c :: p) -> number_start c p ->
  returns (AStrToFloat strtod (c :: p)) (fun r => stays p r.2 /\ exists l q, longest_number (c :: p) l q /\
    r.2 = behind_exp l q /\
    match r.1 with
    | Some v => r.2 = q /\ zlen l <= MAX_FLOAT_LEN /\ v = VFloat (strtod l)
    | None => MAX_FLOAT_LEN < zlen l \/ exists e q', q = e :: q' /\ is_exp e = true
    end).
Proof.
  intros Hp Hn. destruct (number_not_sign c p Hn) as [Hb Hs]. pose proof (mantissa_shorter c p Hn) as Hlt.
  destruct (mantissa_spec (c :: p)) as (ds & fr & Hman).
  unfold AStrToFloat. cbv zeta. assert (skip_blanks (c :: p) = c :: p) as -> by (simpl; by rewrite Hb). rewrite Hs.
  revert Hlt Hman. generalize (match skip_digits (c :: p) with
    | 46 :: d :: r => if AIsDigit d then skip_digits r else skip_digits (c :: p) | _ => skip_digits (c :: p) end) as q.
  intros q Hlt Hman. pose proof Hman as (Hsplit & Hds & Hfr & _). assert (Hne : ds ++ fr <> []).
  { intros [-> ->]%app_nil. simpl in Hsplit. rewrite Hsplit in Hlt. lia. }
  pose proof (mantissa_line _ _ Hds Hfr) as Hml. pose proof (no_exp_mantissa ds fr Hds Hfr) as Hnoe.
  assert (Hm : stays (c :: p) q) by (exists (ds ++ fr); split; [by rewrite <- app_assoc|done]).
  destruct (float_exponent_spec q (stays_line _ _ Hm Hp)) as (ex & r & err & Hev & Hq & Hex & Hemax & Hst & Hste).
  assert (Hlong : longest_number (c :: p) (ds ++ fr ++ ex) r) by (eapply longest_number_intro; try done; tauto).
  assert (Htail : forall r, stays q r -> stays p r).
  { intros x Hx. rewrite app_assoc in Hsplit. destruct (ds ++ fr) as [|y l]; [done|]. injection Hsplit as -> ->.
    apply Forall_cons_1 in Hml as [_ Hml]. eapply stays_trans; [|exact Hx]. by exists l. }
  eapply returns_bind_evals; [exact Hev|]. cbv beta iota. destruct err.
  { rewrite orb_true_r. apply returns_ret. split; [by apply Htail|]. exists (ds ++ fr ++ ex), r. split; [done|].
    destruct Hex as [[-> (e & q' & -> & He)]|[? _]]; [|done]. simpl in Hq. subst q. rewrite app_nil_r. simpl snd.
    split; [simpl; by rewrite Hnoe, He|]. right. by exists e, q'. }
  pose proof (stays_length _ _ Hst) as Hlen.
  assert ((length r =? length (c :: p))%nat = false) as -> by (apply Nat.eqb_neq; lia). simpl orb. cbv iota.
  assert (Hbe : r = behind_exp (ds ++ fr ++ ex) r).
  { destruct r as [|e r']; [done|]. simpl. destruct Hex as [[-> Hno]|[_ (e' & sg & f & -> & He' & _)]].
    - simpl in Hno. by rewrite Hno, andb_false_r.
    - apply is_exp_in in He'. rewrite !existsb_app. simpl. by rewrite He', !orb_true_r. }
  destruct Hlong as (Hl & Hft & Hmax). set (l := ds ++ fr ++ ex) in *.
  assert (Hz : zlen (c :: p) - zlen r = zlen l) by (rewrite Hl, length_app; lia). rewrite Hz.
  destruct (Z.ltb_spec MAX_FLOAT_LEN (zlen l)).
  - apply returns_ret. split; [by apply Htail|]. exists l, r. split_and!; [done|done|by left].
  - rewrite Hl at 1 2. rewrite take_prefix.
    eapply (returns_bind _ _ (fun v => v = VFloat (strtod l))).
    { unfold ACreateFloat. eapply returns_bind; [apply AAlloc_spec|]. intros _ _. by apply returns_ret. }
    intros v ->. apply returns_ret. split; [by apply Htail|]. by exists l, r.
Qed.

End strtod.

(** The integers among the longest numbers. *)
Lemma longest_int ds q :
  digits ds -> ds <> [] -> int_end q = true -> longest_number (ds ++ q) ds q /\ id_end q = true.
Proof.
  intros Hd Hne Hq. destruct q as [|x q]; [done|]. cbn [int_end] in Hq. apply andb_true_iff in Hq as [Hx Hdot].
  assert (Hnd : no_digit (x :: q)) by (clear Hdot; unfold no_digit, IsIdChar, AIsDigit in *; lia). split; [|done].
  pose proof (longest_number_intro (ds ++ x :: q) ds [] (x :: q) [] (x :: q)) as H. rewrite !app_nil_r in H.
  apply H; [|done|done|by left|].
  - apply longest_mantissa_intro; try done; [by left|]. intros _ c r [= -> ->]. by destruct (AIsDigit c).
  - intros ex' r' Heq (e & sg & f & -> & He & _). injection Heq as <- _. exfalso.
    apply is_exp_in in He. unfold is_exp, IsIdChar in *. lia.
Qed.

Lemma float_text_cons l : float_text l -> l <> [].
Proof.
  intros [ds fr _ _ H|ds fr ex _ _ H _] He; apply H; [done|]. rewrite app_assoc in He. by apply app_eq_nil in He as [? _].
Qed.

Lemma longest_number_det p l q l' q' : longest_number p l q -> longest_number p l' q' -> l = l' /\ q = q'.
Proof.
  intros (Hp & Hl & Hmax) (Hp' & Hl' & Hmax'). pose proof (Hmax _ _ Hp' Hl'). pose proof (Hmax' _ _ Hp Hl).
  rewrite Hp in Hp'. apply (app_inj_1 l l' q q'); [lia|done].
Qed.

(** Digits that no integer ends behind are no longest number. *)
Lemma longest_not_int ds q l r :
  digits ds -> ds <> [] -> no_digit q -> q <> [] -> int_end q = false -> longest_number (ds ++ q) l r -> digits l ->
  id_end r = false.
Proof.
  intros Hd Hne Hq Hq0 Hend (Heq & Hl & Hmax) Hdl. destruct (digits_greedy ds q l r Heq Hdl Hq) as (t & -> & ->).
  assert (Hlen := Hmax (l ++ t) q eq_refl). rewrite length_app in Hlen.
  destruct t as [|x t].
  2:{ specialize (Hlen ltac:(rewrite <- (app_nil_r (l ++ _)); apply float_mantissa; [done|by left|by rewrite app_nil_r])). simpl in Hlen. lia. }
  rewrite app_nil_r in *. simpl. destruct q as [|x q]; [done|]. cbn [int_end id_end] in *.
  destruct (IsIdChar x) eqn:Hx; [done|]. simpl in Hend. apply negb_false_iff, andb_true_iff in Hend as [->%Z.eqb_eq Hend].
  destruct q as [|d q]; [done|]. exfalso.
  specialize (Hmax (l ++ [46; d]) q ltac:(by rewrite <- app_assoc)). rewrite length_app in Hmax. simpl in Hmax.
  enough (length l + 2 <= length l)%nat by lia. apply Hmax. apply float_mantissa; [done| |by destruct l].
  right. exists [d]. split_and!; [done|done|by repeat constructor].
Qed.

(** Integer literals. *)
Lemma decimal_bound l n : digits l -> 0 <= n -> 0 <= decimal l n < (n + 1) * 10 ^ zlen l.
Proof.
  intros Hl. revert n. induction Hl as [|c l Hc Hl IH]; intros n Hn; [simpl; lia|]. simpl decimal.
  unfold AIsDigit in Hc. specialize (IH (10 * n + (c - 48)) ltac:(lia)). split; [lia|].
  simpl length. replace (Z.of_nat (S (length l))) with (zlen l + 1) by lia. rewrite Z.pow_add_r by lia.
  pose proof (Z.pow_pos_nonneg 10 (zlen l)). nia.
Qed.

Lemma literal_small l : digits l -> zlen l < 2 ^ 30 -> small (decimal l 0).
Proof.
  intros Hl Hlen. unfold small. rewrite MAXDIGITS_eq. pose proof (decimal_bound l 0 Hl ltac:(lia)) as [H0 H1].
  rewrite Z.abs_eq by lia. eapply Z.lt_le_trans; [exact H1|]. rewrite Z.mul_1_l.
  transitivity (BASE ^ zlen l); [apply Z.pow_le_mono_l; lia|]. apply Z.pow_le_mono_r; lia.
Qed.

Lemma digit_prefix_digits l : digits (digit_prefix l).
Proof. induction l as [|c l IH]; [constructor|]. simpl. destruct (AIsDigit c) eqn:E; [by constructor|constructor]. Qed.

Lemma AStrToInt_literal c p :
  AIsDigit c = true -> zlen (c :: p) < 2 ^ 30 ->
  exists ds q, c :: p = ds ++ q /\ digits ds /\ ds <> [] /\
    match q with d :: _ => AIsDigit d = false | [] => True end /\
    returns (AStrToInt (c :: p)) (fun r => int_repr r.1 (decimal ds 0) /\ r.2 = q).
Proof.
  intros Hc Hlen. pose proof (AStrToInt_spec (c :: p)) as H. unfold str_to_int in H.
  assert (Hc' : 48 <= c <= 57) by (unfold AIsDigit in Hc; lia).
  assert (skip_blanks (c :: p) = c :: p) as Hsb by (simpl; unfold is_blank; rewrite (proj2 (Z.eqb_neq c 32)), (proj2 (Z.eqb_neq c 9)) by lia; done).
  rewrite Hsb in H. cbv zeta in H. assert (Hsg : (if 2 <=? zlen (c :: p) then split_sign (c :: p) else (false, c :: p)) = (false, c :: p)).
  { destruct (2 <=? zlen (c :: p)); [|done]. simpl. rewrite (proj2 (Z.eqb_neq c 45)), (proj2 (Z.eqb_neq c 43)) by lia. done. }
  rewrite Hsg in H. exists (digit_prefix (c :: p)), (after_digits (c :: p)).
  pose proof (digit_split (c :: p)) as Hsplit. pose proof (digit_prefix_digits (c :: p)) as Hd.
  assert (Hne : digit_prefix (c :: p) <> []) by (simpl; by rewrite Hc).
  split_and!; [done|done|done| |].
  - clear. generalize (c :: p). intros l. induction l as [|x l IH]; [done|]. simpl. by destruct (AIsDigit x) eqn:E.
  - destruct (digit_prefix (c :: p)) as [|x l] eqn:Ex; [done|]. apply (f_equal length) in Hsplit. rewrite length_app in Hsplit.
    assert (Hs : small (decimal (x :: l) 0)) by (apply literal_small; [done|lia]).
    eapply returns_mono; [apply H|].
    + by destruct (decimal (x :: l) 0 <=? 2305843009213693952).
    + intros [v r] [Hv ->]. split; [|done]. by destruct (decimal (x :: l) 0 <=? 2305843009213693952).
Qed.

(** ** Comments *)

Inductive utf8_text : list Z -> Prop :=
  | utf8_nil : utf8_text []
  | utf8_ascii c l : c <= 127 -> utf8_text l -> utf8_text (c :: l)
  | utf8_more a l : utf8_seq a -> utf8_text l -> utf8_text (a ++ l).

(** The text of a comment. *)
Definition comment_ok (enc : AEncoding) (l : list Z) : Prop :=
  match enc with
  | AENC_ASCII => Forall (fun c => c <= 127) l
  | AENC_LATIN1 => True
  | AENC_UTF8 => utf8_text l
  end.

Definition newline_head (q : list Z) : Prop := exists c r, q = c :: r /\ is_newline c = true.

Lemma ascii_comment_spec c p inv :
  ends_line (c :: p) -> is_newline c = false ->
  exists q l, evals (ascii_comment (c :: p) inv) (q, inv || existsb (fun c => 127 <? c) l) /\ newline_head q /\
    p = l ++ q /\ Forall (fun c => is_newline c = false) l.
Proof.
  revert c inv. induction p as [|d p IH]; intros c inv Hp Hc; [simpl in Hp; congruence|]. cbn [ascii_comment].
  destruct (is_newline d) eqn:Hd.
  - exists (d :: p), []. split_and!; [|by exists d, p|done|constructor].
    eapply evals_bind; [apply peek_head|]. cbv zeta. rewrite Hd. assert ((127 <? d) = false) as -> by (unfold is_newline in Hd; lia).
    simpl. apply evals_ret.
  - destruct (IH d (inv || (127 <? d)) (ends_line_cons _ _ Hp Hc) Hd) as (q & l & Hev & Hq & -> & Hl).
    exists q, (d :: l). split_and!; [|done|done|by constructor].
    eapply evals_bind; [apply peek_head|]. cbv zeta. rewrite Hd. simpl existsb. by rewrite orb_assoc.
Qed.

Lemma first_above l : existsb (fun c => 127 <? c) l = true ->
  exists l1 c l2, l = l1 ++ c :: l2 /\ Forall (fun c => c <= 127) l1 /\ 128 <= c.
Proof.
  induction l as [|c l IH]; [done|]. simpl. destruct (Z.ltb_spec 127 c).
  - intros _. exists [], c, l. split_and!; [done|constructor|lia].
  - intros H2. destruct (IH H2) as (l1 & d & l2 & -> & Hl1 & Hd). exists (c :: l1), d, l2. split_and!; [done|by constructor|done].
Qed.

Lemma none_above l : existsb (fun c => 127 <? c) l = false -> Forall (fun c => c <= 127) l.
Proof.
  induction l as [|c l IH]; [constructor|]. simpl. intros [Hc Hl]%orb_false_iff. constructor; [lia|by apply IH].
Qed.

Lemma utf8_comment_spec fuel c p inv :
  ends_line (c :: p) -> is_newline c = false -> (length (c :: p) <= fuel)%nat ->
  exists q b, evals (utf8_comment fuel (c :: p) inv) (q, b) /\ newline_head q /\ stays (c :: p) q /\
    (b = false -> inv = false /\ exists l, c :: p = l ++ q /\ utf8_text l) /\
    (b = true -> inv = true \/ exists l p', c :: p = l ++ p' /\ utf8_text l /\ bad_char AENC_UTF8 p' /\ stays p' q).
Proof.
  revert c p inv. induction fuel as [|fuel IH]; intros c p inv Hp Hc Hf; [simpl in Hf; lia|]. cbn [utf8_comment].
  assert (Hstep : exists a r inv', c :: p = a ++ r /\ a <> [] /\ Forall (fun c => is_newline c = false) a /\
    (inv' = inv /\ (forall l, utf8_text l -> utf8_text (a ++ l)) \/ inv' = true /\ bad_char AENC_UTF8 (c :: p)) /\
    forall v, evals (c ← peek r 0; if is_newline c then mret (r, inv') else utf8_comment fuel r inv') v ->
      evals (utf8_comment (S fuel) (c :: p) inv) v).
  { cbn [utf8_comment]. destruct (Z.ltb_spec 127 c) as [Hge|Hlt].
    - destruct (IsInvalidUtf8Sequence_returns c p Hp ltac:(lia)) as (bad & Hev & Hgood & Hbad). destruct bad.
      + exists [c], p, true. split_and!; [done|done|by repeat constructor| |].
        * right. split; [done|]. exists c, p. split_and!; [done|lia|right; by split; [|apply Hbad]].
        * intros v Hv. eapply evals_bind; [apply peek_head|]. test (127 <? c) true. by eapply evals_bind; [exact Hev|].
      + destruct (Hgood eq_refl) as (a & r & Heq & Ha & l' & ->). exists (c :: l'), r, inv.
        split_and!; [done|done|by apply utf8_seq_line|left; split; [done|intros; by constructor]|].
        intros v Hv. eapply evals_bind; [apply peek_head|]. test (127 <? c) true. eapply evals_bind; [exact Hev|].
        cbv iota. rewrite (utf8_seq_skip c l'), Heq, (drop_app_length (c :: l')) by done. done.
    - exists [c], p, inv. split_and!; [done|done|by repeat constructor|left; split; [done|intros; by constructor]|].
      intros v Hv. eapply evals_bind; [apply peek_head|]. test (127 <? c) false.
      eapply evals_bind; [apply evals_ret|]. cbv iota. unfold A_UTF8_SKIP. test (c <? 0xc2) true. done. }
  destruct Hstep as (a & r & inv' & Heq & Ha & Hal & Hinv & Hgo). rewrite Heq in Hp, Hf.
  pose proof (ends_line_skip _ _ Hp Hal) as Hr. destruct (ends_line_head _ Hr) as (d & r' & ->).
  assert (Hst : stays (c :: p) (d :: r')) by (by exists a).
  destruct (is_newline d) eqn:Hd.
  - exists (d :: r'), inv'. split_and!; [|by exists d, r'|done| |].
    + apply Hgo. eapply evals_bind; [apply peek_head|]. rewrite Hd. apply evals_ret.
    + intros ->. destruct Hinv as [[<- Ht]|[? _]]; [|done]. split; [done|]. exists a. split; [done|].
      rewrite <- (app_nil_r a). apply Ht. constructor.
    + intros ->. destruct Hinv as [[<- _]|[_ Hb]]; [by left|]. right. exists [], (c :: p). by split_and!; [|constructor| |].
  - rewrite length_app in Hf. assert (length a <> 0)%nat by (by destruct a).
    destruct (IH d r' inv' Hr Hd ltac:(lia)) as (q & b & Hev & Hq & Hsq & Hf' & Ht'). exists q, b. split_and!.
    + apply Hgo. eapply evals_bind; [apply peek_head|]. by rewrite Hd.
    + done.
    + by eapply stays_trans.
    + intros Hb. destruct (Hf' Hb) as [-> (l & Hl & Hlt)]. destruct Hinv as [[<- Ht]|[? _]]; [|done].
      split; [done|]. exists (a ++ l). rewrite Heq, Hl. split; [by rewrite app_assoc|by apply Ht].
    + intros Hb. destruct Hinv as [[-> Ht]|[_ Hbad]]; [|right; exists [], (c :: p); split_and!; [done|constructor|done|by eapply stays_trans]].
      destruct (Ht' Hb) as [->|(l & p' & Hl & Hlt & Hbad & Hsp)]; [by left|]. right. exists (a ++ l), p'.
      rewrite Heq, Hl. split_and!; [by rewrite app_assoc|by apply Ht|done|done].
Qed.

(** The error tokens of comments and strings. *)
Definition comment_error (enc : AEncoding) : ATokenType :=
  match enc with AENC_ASCII => TT_ERR_NON_ASCII_COMMENT_CHAR | _ => TT_ERR_INVALID_UTF8_SEQUENCE end.

Lemma comment_spec enc p :
  ends_line (45 :: p) ->
  exists q err, evals (comment enc (45 :: p)) (q, err) /\ newline_head q /\ stays (45 :: p) q /\
    match err with
    | None => exists l, 45 :: p = l ++ q /\ comment_ok enc l
    | Some e => e = comment_error enc /\ exists l p', 45 :: p = l ++ p' /\ comment_ok enc l /\ bad_char enc p' /\ stays p' q
    end.
Proof.
  intros Hp. destruct enc; unfold comment.
  - destruct (ascii_comment_spec 45 p false Hp eq_refl) as (q & l & Hev & Hq & -> & Hl). simpl orb in Hev.
    eexists q, _. split_and!; [eapply evals_bind; [exact Hev|]; apply evals_ret|done|by exists (45 :: l); split; [|constructor]|].
    simpl. destruct (existsb _ l) eqn:He.
    + destruct (first_above l He) as (l1 & c & l2 & -> & Hl1 & Hc). split; [done|]. exists (45 :: l1), (c :: l2 ++ q).
      apply Forall_app in Hl as [_ Hl].
      split_and!; [simpl; by rewrite <- app_assoc|by constructor|exists c, (l2 ++ q); auto|by exists (c :: l2)].
    + exists (45 :: l). split; [done|]. constructor; [done|]. by apply none_above.
  - destruct (ascii_comment_spec 45 p false Hp eq_refl) as (q & l & Hev & Hq & -> & Hl). exists q, None.
    split_and!; [eapply evals_bind; [exact Hev|]; apply evals_ret|done|by exists (45 :: l); split; [|constructor]|].
    by exists (45 :: l).
  - destruct (utf8_comment_spec (length (45 :: p)) 45 p false Hp eq_refl ltac:(done)) as (q & b & Hev & Hq & Hst & Hf & Ht).
    eexists q, _. split_and!; [eapply evals_bind; [exact Hev|]; apply evals_ret|done|done|]. cbn [snd].
    destruct b; [|by apply Hf]. split; [done|]. by destruct (Ht eq_refl).
Qed.
