(* ===== verification/LexSpec.v ===== *)
(** * LexSpec: the reference definition of the lexical structure

    Which tokens a source text has: [lexeme] relates the text of one token to
    the token, [gap] says what may stand between two tokens, and [lexed] puts
    them together, with the line of every token. *)

From Stdlib Require Import SpecFloat.
From stdpp Require Import gmap.
From S2P Require Import Prelude Runtime Digits Value IntConv IntText StrOps Tokens SymTable.
From S2P Require Import Lexer LexText LexLiteral LexNumber.

Open Scope Z_scope.

(** ** Punctuators *)

(** The operators and punctuators, longer ones first. *)
Definition punct_table : list (list Z * ATokenType) :=
  [([42; 42; 61], TT_ASSIGN_POW); ([43; 61], TT_ASSIGN_ADD); ([45; 61], TT_ASSIGN_SUB); ([42; 61], TT_ASSIGN_MUL);
   ([42; 42], TT_POW); ([47; 61], TT_ASSIGN_DIV); ([58; 58], TT_SCOPEOP); ([61; 61], TT_EQ); ([60; 61], TT_LTE);
   ([33; 61], TT_NEQ); ([62; 61], TT_GTE); ([40], TT_LPAREN); ([41], TT_RPAREN); ([91], TT_LBRACKET);
   ([93], TT_RBRACKET); ([43], TT_PLUS); ([45], TT_MINUS); ([42], TT_ASTERISK); ([47], TT_DIV); ([58], TT_COLON);
   ([61], TT_ASSIGN); ([60], TT_LT); ([62], TT_GT); ([44], TT_COMMA); ([46], TT_DOT)].

Fixpoint is_prefix (l p : list Z) : bool :=
  match l, p with
  | [], _ => true
  | x :: l, c :: p => (c =? x) && is_prefix l p
  | _ :: _, [] => false
  end.

(** The first entry of the table that the text starts with, and the rest. *)
Definition match_punct (p : list Z) : option (ATokenType * list Z) :=
  e ← find (fun e => is_prefix e.1 p) punct_table; Some (e.2, drop (length e.1) p).

(** ** Line ends *)

Inductive newline_text : list Z -> list Z -> Prop :=
  | nl_lf q : newline_text (10 :: q) q
  | nl_crlf q : newline_text (13 :: 10 :: q) q
  | nl_cr q : head q <> Some 10 -> newline_text (13 :: q) q.

(** ** Tokens *)

Definition string_error (enc : AEncoding) : ATokenType :=
  match enc with AENC_ASCII => TT_ERR_NON_ASCII_STRING_CHAR | _ => TT_ERR_INVALID_UTF8_SEQUENCE end.

(** A character that no other rule is about. *)
Definition other_char (c : Z) : bool :=
  negb (is_newline c || (c =? 59) || (c =? 32) || (c =? 9) || (c =? 34) || (c =? 39) || IsIdChar c).

(** The integers that are stored in the token, as a short integer. *)
Definition in_token (v : AValue) : bool := match v with VInt w => w <? 32767 | _ => false end.

(** What the tokens before have left: the encoding, whether the symbol before
    was [encoding], and the names that have a symbol. *)
Record lstate := MkLState {
  ls_encoding : AEncoding;
  ls_previous : bool;
  ls_names : gset (list Z)
}.

Section spec.
Context (strtod : list Z -> spec_float) (s : LexState).

(** The state behind a symbol that was known already, and behind a new one. *)
Definition next_encoding (st : lstate) (sym : ASymbol) : lstate :=
  MkLState
    (if ls_previous st then
       if decide (ALatin1Symbol s = Some (sym_addr sym)) then AENC_LATIN1
       else if decide (AUtf8Symbol s = Some (sym_addr sym)) then AENC_UTF8
       else if decide (AAsciiSymbol s = Some (sym_addr sym)) then AENC_ASCII
       else ls_encoding st
     else ls_encoding st)
    (bool_decide (sym_type sym = TT_ENCODING)) (ls_names st).

Definition new_name (st : lstate) (name : list Z) : lstate :=
  MkLState (ls_encoding st) (ls_previous st) ({[name]} ∪ ls_names st).

Definition constant (n : Z) (v : ConstValue) : Prop := constants s !! Z.to_nat n = Some v /\ 0 <= n.

(** [lexeme pt st text rest st' t i]: behind a token of type [pt] and in the
    state [st], [text] starts with a token of type [t] with the information
    [i], and [rest] is the text behind it. *)
Inductive lexeme (pt : ATokenType) (st : lstate) : list Z -> list Z -> lstate -> ATokenType -> ATokenInfo -> Prop :=
  | lx_newline p q i : newline_text p q -> IgnoreNewLine pt = false -> lexeme pt st p q st TT_NEWLINE i
  | lx_semicolon q i : pt <> TT_NEWLINE -> lexeme pt st (59 :: q) q st TT_NEWLINE i
  | lx_string quote p us q n :
      quote = 34 \/ quote = 39 -> lit_body (ls_encoding st) quote p us (quote :: q) -> head q <> Some quote ->
      constant n (ConstStr (lit_string quote us)) ->
      lexeme pt st (quote :: p) q st TT_LITERAL_STRING (InfoNum n)
  | lx_string_bad quote p us p' i :
      quote = 34 \/ quote = 39 -> lit_body (ls_encoding st) quote p us p' -> bad_char (ls_encoding st) p' ->
      lexeme pt st (quote :: p) p st (string_error (ls_encoding st)) i
  | lx_string_open quote p us c p' i :
      quote = 34 \/ quote = 39 -> lit_body (ls_encoding st) quote p us (c :: p') -> is_newline c = true ->
      lexeme pt st (quote :: p) p st TT_ERR_STRING_UNTERMINATED i
  | lx_int p l q v :
      longest_number p l q -> id_end q = true -> digits l -> int_repr v (decimal l 0) -> in_token v = true ->
      lexeme pt st p q st TT_LITERAL_INT (InfoVal v)
  | lx_big_int p l q v n :
      longest_number p l q -> id_end q = true -> digits l -> int_repr v (decimal l 0) -> in_token v = false ->
      constant n (ConstNum v) -> lexeme pt st p q st TT_LITERAL_FLOAT (InfoNum n)
  | lx_float p l q n :
      longest_number p l q -> id_end q = true -> ~ digits l -> zlen l <= MAX_FLOAT_LEN ->
      constant n (ConstNum (VFloat (strtod l))) -> lexeme pt st p q st TT_LITERAL_FLOAT (InfoNum n)
  | lx_number_bad p l r id q i :
      longest_number p l r -> id_end r = false \/ ~ digits l /\ MAX_FLOAT_LEN < zlen l ->
      behind_exp l r = id ++ q -> Forall (fun c => IsIdChar c = true) id -> id_end q = true ->
      lexeme pt st p q st TT_ERR_INVALID_NUMERIC i
  | lx_symbol c id q sym :
      IsIdChar c = true -> AIsDigit c = false -> Forall (fun c => IsIdChar c = true) id -> id_end q = true ->
      sym ∈ concat (ASym (symtab s)) -> str sym = c :: id -> c :: id ∈ ls_names st ->
      lexeme pt st (c :: id ++ q) q (next_encoding st sym) (sym_type sym) (InfoSym (sym_addr sym))
  | lx_new_symbol c id q sym :
      IsIdChar c = true -> AIsDigit c = false -> Forall (fun c => IsIdChar c = true) id -> id_end q = true ->
      sym ∈ concat (ASym (symtab s)) -> str sym = c :: id -> sym_type sym = TT_ID -> c :: id ∉ ls_names st ->
      lexeme pt st (c :: id ++ q) q (new_name st (c :: id)) TT_ID (InfoSym (sym_addr sym))
  | lx_comment_bad p l p' q i :
      45 :: p = l ++ p' -> comment_ok (ls_encoding st) l -> bad_char (ls_encoding st) p' -> stays p q -> stays p' q -> newline_head q ->
      lexeme pt st (45 :: 45 :: p) q st (comment_error (ls_encoding st)) i
  | lx_punct p t q i :
      match_punct p = Some (t, q) -> is_prefix [45; 45] p = false ->
      (match p with c :: r => ~ number_start c r | [] => True end) ->
      lexeme pt st p q st t i
  | lx_other c p i :
      other_char c = true -> match_punct (c :: p) = None -> lexeme pt st (c :: p) p st TT_ERR_UNRECOGNIZED_CHAR i.

(** [gap pt enc text rest]: the text between [text] and [rest] gives no
    token. *)
Inductive gap (pt : ATokenType) (enc : AEncoding) : list Z -> list Z -> Prop :=
  | gap_blank c q : is_blank c = true -> gap pt enc (c :: q) q
  | gap_newline p q : newline_text p q -> IgnoreNewLine pt = true -> gap pt enc p q
  | gap_semicolon q : pt = TT_NEWLINE -> gap pt enc (59 :: q) q
  | gap_comment p l q : 45 :: p = l ++ q -> comment_ok enc l -> newline_head q -> stays p q -> gap pt enc (45 :: 45 :: p) q.

Definition last_type (pt : ATokenType) (toks : list AToken) : ATokenType :=
  match list.last toks with Some t => type t | None => pt end.

(** The tokens of the text from [src0], in line [line0], to [src]. *)
Inductive lexed (pt : ATokenType) (line0 : Z) (src0 : list Z) (st0 : lstate) : list AToken -> list Z -> lstate -> Prop :=
  | lexed_start : lexed pt line0 src0 st0 [] src0 st0
  | lexed_gap toks src src' st :
      lexed pt line0 src0 st0 toks src st -> gap (last_type pt toks) (ls_encoding st) src src' ->
      lexed pt line0 src0 st0 toks src' st
  | lexed_token toks src src' st st' t :
      lexed pt line0 src0 st0 toks src st -> lexeme (last_type pt toks) st src src' st' (type t) (info t) ->
      tokLine t = u16 (line0 + newlines src0 - newlines src) ->
      lexed pt line0 src0 st0 (toks ++ [t]) src' st'.

End spec.

(** ** More constants and symbols *)

Record extends (s s' : LexState) : Prop := {
  ex_constants : exists l, constants s' = constants s ++ l;
  ex_symbols : forall sym, sym ∈ concat (ASym (symtab s)) -> sym ∈ concat (ASym (symtab s'));
  ex_latin1 : ALatin1Symbol s' = ALatin1Symbol s;
  ex_utf8 : AUtf8Symbol s' = AUtf8Symbol s;
  ex_ascii : AAsciiSymbol s' = AAsciiSymbol s
}.

#[export] Instance extends_preorder : PreOrder extends.
Proof.
  split.
  - intros s. split; [exists []; by rewrite app_nil_r|done..].
  - intros s1 s2 s3 [[l Hl] ? ? ? ?] [[l' Hl'] ? ? ? ?]. split; [|by auto|congruence..].
    exists (l ++ l'). by rewrite Hl', Hl, app_assoc.
Qed.

Lemma constant_mono s s' n v : extends s s' -> constant s n v -> constant s' n v.
Proof. intros [[l Hl] _ _ _ _] [Hc Hn]. split; [|done]. rewrite Hl. by apply lookup_app_l_Some. Qed.

Lemma next_encoding_mono s s' st sym : extends s s' -> next_encoding s st sym = next_encoding s' st sym.
Proof. intros [_ _ H1 H2 H3]. unfold next_encoding. by rewrite H1, H2, H3. Qed.

Lemma lexeme_mono strtod s s' pt st p q st' t i :
  extends s s' -> lexeme strtod s pt st p q st' t i -> lexeme strtod s' pt st p q st' t i.
Proof.
  intros He Hl. pose proof (constant_mono s s') as Hc. pose proof (ex_symbols _ _ He) as Hs.
  destruct Hl; try rewrite (next_encoding_mono s s') by done;
    [eapply lx_newline|eapply lx_semicolon|eapply lx_string|eapply lx_string_bad|eapply lx_string_open|eapply lx_int
    |eapply lx_big_int|eapply lx_float|eapply lx_number_bad|eapply lx_symbol|eapply lx_new_symbol|eapply lx_comment_bad
    |eapply lx_punct|eapply lx_other]; eauto.
Qed.

Lemma lexed_mono strtod s s' pt line0 src0 st0 toks src st :
  extends s s' -> lexed strtod s pt line0 src0 st0 toks src st -> lexed strtod s' pt line0 src0 st0 toks src st.
Proof.
  intros He. induction 1; [constructor|by eapply lexed_gap|]. eapply lexed_token; [done| |done]. by eapply lexeme_mono.
Qed.
