(* ===== verification/LexerSpec.v ===== *)
(** * LexerSpec: the lexer finds the tokens of the reference

    The cases of the lexical analyzer one by one: each finishes the current
    token as the reference [lexeme] says, or skips a [gap]. *)

From Stdlib Require Import SpecFloat.
From stdpp Require Import gmap.
From S2P Require Import Prelude Runtime Digits Value LongInt IntOps IntConv IntText StrOps.
From S2P Require Import Tokens SymTable Lexer TokensSpec LexText LexLiteral LexNumber LexSpec.

Open Scope Z_scope.

Definition upd_tokens (k : TokenStore) (s : LexState) : LexState :=
  MkLex k (symtab s) (ALatin1Symbol s) (AUtf8Symbol s) (AAsciiSymbol s) (constants s) (lineNumber s)
    (encoding s) (isPreviousSymbolEncoding s).

Lemma with_tokens_spec {A} (m : SM TokenStore A) s (Q : A -> TokenStore -> Prop) :
  sreturns m (tokens s) Q -> sreturns (with_tokens m) s (fun a s' => exists k, Q a k /\ s' = upd_tokens k s).
Proof.
  intros Hm t. specialize (Hm t). unfold with_tokens. destruct (m (tokens s) t) as [[r k] t']. simpl in *.
  destruct Hm as [Hh Hr]. split; [done|]. destruct Hr as [Hr|Hr]; [left|by right]. destruct r; try done. by exists k.
Qed.

Definition upd_symtab (k : SymTab) (s : LexState) : LexState :=
  MkLex (tokens s) k (ALatin1Symbol s) (AUtf8Symbol s) (AAsciiSymbol s) (constants s) (lineNumber s)
    (encoding s) (isPreviousSymbolEncoding s).

Lemma with_symtab_spec {A} (m : SM SymTab A) s (Q : A -> SymTab -> Prop) :
  sreturns m (symtab s) Q -> sreturns (with_symtab m) s (fun a s' => exists k, Q a k /\ s' = upd_symtab k s).
Proof.
  intros Hm t. specialize (Hm t). unfold with_symtab. destruct (m (symtab s) t) as [[r k] t']. simpl in *.
  destruct Hm as [Hh Hr]. split; [done|]. destruct Hr as [Hr|Hr]; [left|by right]. destruct r; try done. by exists k.
Qed.

(** The symbol table is in order and not too big, and no symbol has a type
    that marks the end of a block. *)
Record lex_ok (s : LexState) (room : nat) : Prop := {
  lo_table : symtab_ok (symtab s);
  lo_room : NumSyms (symtab s) + Z.of_nat room < 2 ^ 30;
  lo_types : Forall (fun sym => is_mark (sym_type sym) = false) (concat (ASym (symtab s)))
}.

(** The names that have a symbol. *)
Definition known_names (t : SymTab) : gset (list Z) := list_to_set (str <$> concat (ASym t)).

Definition lex_state (s : LexState) : lstate :=
  MkLState (encoding s) (isPreviousSymbolEncoding s) (known_names (symtab s)).

Lemma elem_of_names t id : id ∈ known_names t <-> exists sym, sym ∈ concat (ASym t) /\ str sym = id.
Proof.
  unfold known_names. rewrite elem_of_list_to_set, list_elem_of_fmap. split; intros (x & H1 & H2); exists x; auto.
Qed.

(** [s'] has finished the current token of [s]. *)
Record finishes (strtod : list Z -> spec_float) (s s' : LexState) (pt : ATokenType) (prev : list AToken) (cur : AToken)
    (text rest : list Z) (room : nat) : Prop := {
  fi_token : exists t, store_view (tokens s') prev t /\ tokLine t = tokLine cur /\
    lexeme strtod s' pt (lex_state s) text rest (lex_state s') (type t) (info t);
  fi_extends : extends s s';
  fi_ok : lex_ok s' room;
  fi_line : lineNumber s' = lineNumber s
}.

Section finish.
Context (strtod : list Z -> spec_float).

(** Setting the type of the current token, without or with its information. *)
Lemma finish_type s pt prev cur text rest t room :
  store_view (tokens s) prev cur -> lex_ok s room -> is_mark t = false ->
  (forall s' i, extends s s' -> lex_state s' = lex_state s -> lexeme strtod s' pt (lex_state s) text rest (lex_state s) t i) ->
  sreturns (with_tokens (set_type t) ≫= (fun _ => mret rest)) s
    (fun q s' => q = rest /\ finishes strtod s s' pt prev cur text rest room).
Proof.
  intros Hv Hok Ht Hl. eapply sreturns_bind; [by eapply with_tokens_spec, (set_type_view _ prev cur)|].
  intros _ s' (k & Hk & ->). apply sreturns_ret. split; [done|].
  assert (He : extends s (upd_tokens k s)) by (split; [exists []; by rewrite app_nil_r|done..]).
  split; [|done|by destruct Hok|done]. eexists. split_and!; [exact Hk|done|]. by apply Hl.
Qed.

Lemma finish_tok s pt prev cur text rest t i room :
  store_view (tokens s) prev cur -> lex_ok s room -> is_mark t = false ->
  (forall s', extends s s' -> lex_state s' = lex_state s -> lexeme strtod s' pt (lex_state s) text rest (lex_state s) t i) ->
  sreturns (with_tokens (set_tok t i) ≫= (fun _ => mret rest)) s
    (fun q s' => q = rest /\ finishes strtod s s' pt prev cur text rest room).
Proof.
  intros Hv Hok Ht Hl. eapply sreturns_bind; [by eapply with_tokens_spec, (set_tok_view _ prev cur)|].
  intros _ s' (k & Hk & ->). apply sreturns_ret. split; [done|].
  assert (He : extends s (upd_tokens k s)) by (split; [exists []; by rewrite app_nil_r|done..]).
  split; [|done|by destruct Hok|done]. eexists. split_and!; [exact Hk|done|]. by apply Hl.
Qed.

Lemma AAddConstGlobalValue_spec s v :
  sreturns (AAddConstGlobalValue v) s (fun n s' => constant s' n v /\ extends s s' /\ tokens s' = tokens s /\
    symtab s' = symtab s /\ lex_state s' = lex_state s /\ lineNumber s' = lineNumber s).
Proof.
  unfold AAddConstGlobalValue. apply sspec_get_bind. eapply sreturns_lift_bind; [apply barrier_spec|]. intros _ _.
  apply sspec_modify_bind. apply sreturns_ret. split_and!; try done.
  - split; [|lia]. simpl. rewrite lookup_app_r by lia. by rewrite Nat2Z.id, Nat.sub_diag.
  - split; try done. by exists [v].
Qed.

(** Setting the current token to a new constant. *)
Lemma finish_constant s pt prev cur text rest t v room :
  store_view (tokens s) prev cur -> lex_ok s room -> is_mark t = false ->
  (forall s' n, extends s s' -> constant s' n v ->
    lexeme strtod s' pt (lex_state s) text rest (lex_state s) t (InfoNum n)) ->
  sreturns (n ← AAddConstGlobalValue v; with_tokens (set_tok t (InfoNum n)) ≫= (fun _ => mret rest)) s
    (fun q s' => q = rest /\ finishes strtod s s' pt prev cur text rest room).
Proof.
  intros Hv Hok Ht Hl. eapply sreturns_bind; [apply AAddConstGlobalValue_spec|].
  intros n s' (Hn & He & Htok & Htab & Hst & Hline). rewrite <- Htok in Hv.
  eapply sreturns_mono; [eapply (finish_tok s' pt prev cur text rest t (InfoNum n) room)|].
  - done.
  - destruct Hok as [H1 H2 H3]. split; by rewrite Htab.
  - done.
  - intros s2 He2 Hst2. rewrite Hst. apply Hl; [by etransitivity|by eapply constant_mono].
  - intros q s2 [-> [(t' & Ht') Hx Hok' Hl']]. split; [done|]. split; [|by etransitivity|done|congruence].
    exists t'. by rewrite <- Hst.
Qed.

(** ** String literals *)

Lemma lex_string_spec s quote p pt prev cur room :
  store_view (tokens s) prev cur -> lex_ok s room -> quote = 34 \/ quote = 39 ->
  ends_line p -> zlen p < 2 ^ 30 ->
  sreturns (lex_string quote p) s (fun q s' => finishes strtod s s' pt prev cur (quote :: p) q room /\
    stays p q).
Proof.
  intros Hv Hok Hq Hp Hlen. unfold lex_string. apply sspec_get_bind.
  assert (Hqn : is_newline quote = false) by (destruct Hq as [->| ->]; done).
  destruct (scan_literal_spec (encoding s) quote Hq (length p) p (MkScan p 0 0 false false) Hp ltac:(lia) eq_refl)
    as (r & Hev & Hst & (c & q & Hend & Hc) & Hinv & Hval).
  eapply sreturns_lift_bind; [eapply evals_returns; [exact Hev|exact (eq_refl r)]|]. intros r' <-.
  destruct (isInvalid r) eqn:Hi.
  { destruct (Hinv eq_refl) as [|(us & p' & Hb & Hbad)]; [done|].
    eapply sreturns_mono; [apply (finish_type s pt prev cur (quote :: p) p _ room Hv Hok)|].
    - by case_decide.
    - intros s' i _ _. replace (if decide (encoding s = AENC_ASCII) then _ else _) with (string_error (ls_encoding (lex_state s)))
        by (simpl; destruct (encoding s); done). by eapply lx_string_bad.
    - intros q' s' [-> Hf]. split; [done|]. apply stays_refl. }
  destruct (Hval eq_refl) as (_ & us & Hb & Hnq & Hnu & Hw). simpl in Hnq, Hnu, Hw.
  rewrite Hend in *. eapply sreturns_lift_bind; [eapply evals_returns; [apply peek_head|exact (eq_refl c)]|]. intros c' <-.
  destruct (Z.eqb_spec c quote) as [->|Hne].
  - destruct Hc as [|[_ Hc]]; [congruence|].
    eapply sreturns_lift_bind; [by eapply (CreateStringLiteral_spec (encoding s) quote Hq p us); try rewrite Hend; try lia|].
    intros v ->. eapply sreturns_mono; [apply (finish_constant s pt prev cur (quote :: p) q TT_LITERAL_STRING (ConstStr (lit_string quote us)) room Hv Hok eq_refl)|].
    + intros s' n He Hn. by eapply lx_string.
    + intros q' s' [-> Hf]. split; [done|]. destruct Hst as (l & -> & Hl). exists (l ++ [quote]).
      split; [by rewrite <- app_assoc|]. apply Forall_app. split; [done|]. by repeat constructor.
  - eapply sreturns_mono; [apply (finish_type s pt prev cur (quote :: p) p TT_ERR_STRING_UNTERMINATED room Hv Hok eq_refl)|].
    + intros s' i _ _. destruct Hc as [Hc|[? _]]; [|done]. by eapply lx_string_open.
    + intros q' s' [-> Hf]. split; [done|]. apply stays_refl.
Qed.

(** A literal whose items are known. *)
Lemma lex_string_literal s quote p us q prev cur :
  store_view (tokens s) prev cur -> quote = 34 \/ quote = 39 -> ends_line p -> zlen p < 2 ^ 30 ->
  lit_body (encoding s) quote p us (quote :: q) -> head q <> Some quote ->
  sreturns (lex_string quote p) s (fun r s' => r = q /\ exists n, constant s' n (ConstStr (lit_string quote us)) /\
    store_view (tokens s') prev (MkToken (InfoNum n) (tokLine cur) TT_LITERAL_STRING)).
Proof.
  intros Hv Hq Hp Hlen Hbody Hhead. unfold lex_string. apply sspec_get_bind.
  assert (Hend : lit_end quote (quote :: q)) by (exists quote, q; auto).
  destruct (scan_literal_spec (encoding s) quote Hq (length p) p (MkScan p 0 0 false false) Hp ltac:(lia) eq_refl)
    as (r & Hev & Hst & Hend' & Hinv & Hval).
  eapply sreturns_lift_bind; [eapply evals_returns; [exact Hev|exact (eq_refl r)]|]. intros r' <-.
  destruct (isInvalid r) eqn:Hi.
  { destruct (Hinv eq_refl) as [|(us' & p' & Hb & Hbad)]; [done|].
    destruct (body_det _ _ Hq _ _ _ Hbody (or_introl Hend) _ _ Hb (or_intror Hbad)) as [_ <-].
    destruct Hbad as (c & q' & Heq & Hc & _). injection Heq as <- _. destruct Hq; lia. }
  destruct (Hval eq_refl) as (_ & us' & Hb & Hnq & Hnu & Hw). simpl in Hnq, Hnu, Hw.
  destruct (body_det _ _ Hq _ _ _ Hbody (or_introl Hend) _ _ Hb (or_introl Hend')) as [<- He]. rewrite <- He in *.
  eapply sreturns_lift_bind; [eapply evals_returns; [apply peek_head|exact (eq_refl quote)]|]. intros c' <-. rewrite Z.eqb_refl.
  eapply sreturns_lift_bind; [by eapply (CreateStringLiteral_spec (encoding s) quote Hq p us); try rewrite <- He; try lia|].
  intros v ->. eapply sreturns_bind; [apply AAddConstGlobalValue_spec|]. intros n s' (Hn & _ & Htok & _).
  rewrite <- Htok in Hv. eapply sreturns_bind; [by eapply with_tokens_spec, (set_tok_view _ prev cur)|].
  intros _ s2 (k & Hk & ->). apply sreturns_ret. split; [done|]. by exists n.
Qed.

(** ** Numbers *)

Lemma skip_id_spec p : ends_line p -> exists id q, evals (skip_id p) q /\ p = id ++ q /\
  Forall (fun c => IsIdChar c = true) id /\ id_end q = true.
Proof.
  induction p as [|c p IH]; [done|]. intros Hp. simpl. destruct (IsIdChar c) eqn:Hc.
  - destruct IH as (id & q & Hev & -> & Hid & Hq); [by apply (ends_line_cons c), idchar_not_newline|].
    exists (c :: id), q. split_and!; [done|done|by constructor|done].
  - exists [], (c :: p). split_and!; [apply evals_ret|done|constructor|simpl; by rewrite Hc].
Qed.

(** A floating point literal, where no integer ends. *)
Lemma lex_float_spec s c p pt prev cur room :
  store_view (tokens s) prev cur -> lex_ok s room -> ends_line (c :: p) -> number_start c p ->
  (forall l r, longest_number (c :: p) l r -> digits l -> id_end r = false) ->
  sreturns (lex_float strtod (c :: p)) s (fun q s' => finishes strtod s s' pt prev cur (c :: p) q room /\
    stays p q).
Proof.
  intros Hv Hok Hp Hn Hni. unfold lex_float.
  eapply sreturns_lift_bind; [by apply AStrToFloat_spec|]. intros [num q] (Hst & l & r & Hlong & Hbe & Hnum).
  simpl in Hst, Hbe, Hnum. cbv beta iota.
  assert (Hnl : is_newline c = false) by (destruct Hn as [Hn|[-> _]]; [by apply digit_not_newline|done]).
  pose proof (stays_line _ _ Hst (ends_line_cons _ _ Hp Hnl)) as Hq. destruct (ends_line_head _ Hq) as (d & q' & Heq).
  rewrite Heq in Hst, Hq |- *.
  eapply sreturns_lift_bind; [eapply evals_returns; [apply peek_head|exact (eq_refl d)]|]. intros d' <-.
  assert (Hbad : id_end r = false \/ ~ digits l /\ MAX_FLOAT_LEN < zlen l ->
    sreturns (src ← lift (skip_id (d :: q')); with_tokens (set_type TT_ERR_INVALID_NUMERIC) ≫= (fun _ => mret src)) s
      (fun q s' => finishes strtod s s' pt prev cur (c :: p) q room /\ stays p q)).
  { intros Hor. destruct (skip_id_spec _ Hq) as (id & e & Hev & Hid & Hall & Hend).
    assert (Hsq : stays (d :: q') e).
    { exists id. split; [done|]. eapply Forall_impl; [|exact Hall]. apply idchar_not_newline. }
    eapply sreturns_lift_bind; [eapply evals_returns; [exact Hev|exact (eq_refl e)]|]. intros e' <-.
    pose proof (stays_trans _ _ _ Hst Hsq) as Hse.
    eapply sreturns_mono; [apply (finish_type s pt prev cur (c :: p) e TT_ERR_INVALID_NUMERIC room Hv Hok eq_refl)|].
    - intros s' i _ _. apply (lx_number_bad _ _ _ _ _ l r id); try done. congruence.
    - by intros q2 s' [-> Hf]. }
  assert (Hdig : id_end r = true -> ~ digits l) by (intros Hr Hd; rewrite (Hni l r Hlong Hd) in Hr; done).
  destruct num as [v|].
  - destruct Hnum as (Hqr & Hlen & ->). assert (Hr : r = d :: q') by congruence. clear Hqr Hbe Heq. subst r.
    destruct (IsIdChar d) eqn:Hd; [apply Hbad; left; cbn [id_end]; by rewrite Hd|].
    assert (Hend : id_end (d :: q') = true) by (cbn [id_end]; by rewrite Hd).
    eapply sreturns_mono; [apply (finish_constant s pt prev cur (c :: p) (d :: q') TT_LITERAL_FLOAT
      (ConstNum (VFloat (strtod l))) room Hv Hok eq_refl)|].
    + intros s' n He Hc. apply (lx_float _ _ _ _ _ l); auto.
    + by intros q2 s' [-> Hf'].
  - assert (Hor : id_end r = false \/ ~ digits l /\ MAX_FLOAT_LEN < zlen l).
    { destruct Hnum as [Hlen|(e & q2 & -> & He)]; [|left; simpl; unfold is_exp, IsIdChar in *; lia].
      destruct (id_end r) eqn:Hr; auto. }
    destruct (IsIdChar d); by apply Hbad.
Qed.

Lemma lex_number_spec s c p pt prev cur room :
  store_view (tokens s) prev cur -> lex_ok s room -> ends_line (c :: p) -> number_start c p -> zlen (c :: p) < 2 ^ 30 ->
  sreturns (lex_number strtod c p) s (fun q s' => finishes strtod s s' pt prev cur (c :: p) q room /\
    stays p q).
Proof.
  intros Hv Hok Hp Hn Hlen. unfold lex_number.
  destruct (Z.eqb_spec c 46) as [->|Hne].
  { apply lex_float_spec; try done. intros l r (Heq & Hl & _) Hd. destruct l as [|x l].
    - by apply float_text_cons in Hl.
    - injection Heq as <- _. by apply Forall_cons_1 in Hd as [Hd _]. }
  assert (Hc : AIsDigit c = true) by (by destruct Hn as [|[? _]]).
  pose proof (ends_line_cons _ _ Hp (digit_not_newline _ Hc)) as Hp'.
  eapply sreturns_lift_bind; [eapply evals_returns; [by apply ends_int_evals|exact (eq_refl (int_end p))]|]. intros b <-.
  destruct (int_end p) eqn:Hend.
  { destruct (longest_int [c] p ltac:(by repeat constructor) ltac:(done) Hend) as [Hlong Hide].
    eapply sreturns_mono; [apply (finish_tok s pt prev cur (c :: p) p TT_LITERAL_INT _ room Hv Hok eq_refl)|].
    - intros s' _ _. unfold AIsDigit in Hc. apply (lx_int _ _ _ _ _ [c]); [done|done|by repeat constructor; unfold AIsDigit; lia| |].
      + split; [done|]. simpl. short_unfold. lia.
      + unfold in_token. rewrite AIntToValue_eq, Z.mod_small by lia. lia.
    - intros q s' [-> Hf]. split; [done|]. apply stays_refl. }
  destruct (AStrToInt_literal c p Hc Hlen) as (ds & q & Heq & Hds & Hne' & Hq & Hint).
  eapply sreturns_lift_bind; [exact Hint|]. intros [v q'] [Hr Hq']. simpl in Hr, Hq'. subst q'. cbv beta iota.
  assert (Hst : stays p q).
  { destruct ds as [|x ds]; [done|]. injection Heq as -> ->. apply digits_line, Forall_cons_1 in Hds as [_ Hds]. by exists ds. }
  pose proof (stays_line _ _ Hst Hp') as Hql.
  eapply sreturns_lift_bind; [eapply evals_returns; [by apply ends_int_evals|exact (eq_refl (int_end q))]|].
  intros b <-. destruct (int_end q) eqn:Hendq.
  2:{ apply lex_float_spec; try done. intros l r Hlong. rewrite Heq in Hlong. apply (longest_not_int ds q); try done. by intros ->. }
  cbv zeta. destruct (longest_int ds q Hds Hne' Hendq) as [Hlong Hide]. rewrite <- Heq in Hlong.
  change (match v with VInt w => w <? 32767 | _ => false end) with (in_token v). destruct (in_token v) eqn:Hv'.
  - eapply sreturns_mono; [apply (finish_tok s pt prev cur (c :: p) q TT_LITERAL_INT (InfoVal v) room Hv Hok eq_refl)|].
    + intros s' _ _. by eapply lx_int.
    + by intros q2 s' [-> Hf].
  - eapply sreturns_mono; [apply (finish_constant s pt prev cur (c :: p) q TT_LITERAL_FLOAT (ConstNum v) room Hv Hok eq_refl)|].
    + intros s' n _ Hn'. by eapply lx_big_int.
    + by intros q2 s' [-> Hf].
Qed.

(** ** Identifiers *)

Lemma scan_id_spec p : ends_line p -> forall id h, exists l q, evals (scan_id p id h) (id ++ l, hash_loop l h, q) /\
  p = l ++ q /\ Forall (fun c => IsIdChar c = true) l /\ id_end q = true.
Proof.
  induction p as [|c p IH]; [done|]. intros Hp id h. simpl. destruct (IsIdChar c) eqn:Hc.
  - destruct (IH (ends_line_cons _ _ Hp (idchar_not_newline _ Hc)) (id ++ [c]) (u32 (h + u32 (u32 (h * 32) + c))))
      as (l & q & Hev & -> & Hl & Hq).
    exists (c :: l), q. split_and!; [|done|by constructor|done]. rewrite <- app_assoc in Hev. simpl in *.
    assert (s8 c = c) as ->; [|done]. unfold s8, IsIdChar in *. test (c <? 128) true. done.
  - exists [], (c :: p). rewrite app_nil_r. split_and!; [apply evals_ret|done|constructor|simpl; by rewrite Hc].
Qed.

Lemma first_hash c l : IsIdChar c = true -> hash_loop l c = sym_hash (c :: l).
Proof.
  intros Hc. unfold sym_hash. cbn [hash_loop]. assert (s8 c = c) as ->; [unfold s8, IsIdChar in *; by test (c <? 128) true|].
  f_equal. unfold IsIdChar in Hc. change (u32 (0 * 32)) with 0. rewrite !Z.add_0_l, !(u32_small c); lia.
Qed.

Lemma switch_encoding_spec s sym :
  sreturns (switch_encoding (sym_addr sym)) s (fun _ s' => tokens s' = tokens s /\ symtab s' = symtab s /\ extends s s' /\
    lineNumber s' = lineNumber s /\ isPreviousSymbolEncoding s' = isPreviousSymbolEncoding s /\
    encoding s' = ls_encoding (next_encoding s (MkLState (encoding s) true ∅) sym)).
Proof.
  assert (Hx : extends s s) by done. assert (Hx' : forall e, extends s (MkLex (tokens s) (symtab s) (ALatin1Symbol s)
    (AUtf8Symbol s) (AAsciiSymbol s) (constants s) (lineNumber s) e (isPreviousSymbolEncoding s)))
    by (intros e; split; try done; exists []; by rewrite app_nil_r).
  unfold switch_encoding. apply sspec_get_bind. unfold next_encoding. simpl.
  repeat case_decide; try (by apply sreturns_modify); by apply sreturns_ret.
Qed.

(** A symbol that is known. *)
Lemma known_symbol_spec s c l q sym pt prev cur room :
  store_view (tokens s) prev cur -> lex_ok s room -> IsIdChar c = true -> AIsDigit c = false ->
  Forall (fun c => IsIdChar c = true) l -> id_end q = true -> sym ∈ concat (ASym (symtab s)) -> str sym = c :: l ->
  sreturns (with_tokens (set_tok (sym_type sym) (InfoSym (sym_addr sym))) ≫= (fun _ =>
    (if isPreviousSymbolEncoding s then switch_encoding (sym_addr sym) else mret tt) ≫= (fun _ =>
    set_isPrevious (bool_decide (sym_type sym = TT_ENCODING)) ≫= (fun _ => mret q)))) s
    (fun q' s' => q' = q /\ finishes strtod s s' pt prev cur (c :: l ++ q) q room).
Proof.
  intros Hv Hok Hc Hd Hl Hq Hin Hstr. assert (Hm : is_mark (sym_type sym) = false).
  { pose proof (lo_types _ _ Hok) as Ht. rewrite Forall_forall in Ht. apply Ht. by apply list_elem_of_In. }
  eapply sreturns_bind; [by eapply with_tokens_spec, (set_tok_view _ prev cur)|]. intros _ s1 (k & Hk & ->).
  assert (He1 : extends s (upd_tokens k s)) by (split; try done; exists []; by rewrite app_nil_r).
  eapply (sreturns_bind _ _ _ (fun _ s2 => tokens s2 = k /\ symtab s2 = symtab s /\ extends s s2 /\
    lineNumber s2 = lineNumber s /\ encoding s2 = ls_encoding (next_encoding s (lex_state s) sym))).
  { destruct (isPreviousSymbolEncoding s) eqn:Hp.
    - eapply sreturns_mono; [apply switch_encoding_spec|]. intros _ s2 (-> & -> & Hx & -> & _ & Henc).
      split_and!; [done|done|by etransitivity|done|]. rewrite Henc. unfold lex_state. by rewrite Hp.
    - apply sreturns_ret. unfold next_encoding, lex_state. by rewrite Hp. }
  intros _ s2 (Htok & Htab & Hx & Hline & Henc). apply sspec_modify_bind, sreturns_ret. split; [done|].
  match goal with |- finishes _ _ ?s3 _ _ _ _ _ _ => assert (Hx3 : extends s2 s3) end.
  { split; try done. exists []. simpl. by rewrite app_nil_r. }
  pose proof (transitivity Hx Hx3) as Hx'. split; [|done|destruct Hok; split; simpl; by rewrite Htab|done].
  eexists. split_and!; [simpl; rewrite Htok; exact Hk|done|]. cbn [type info].
  match goal with |- lexeme _ _ _ _ _ _ ?st' _ _ => assert (st' = next_encoding s (lex_state s) sym) as -> end.
  { unfold lex_state at 1. cbn [encoding isPreviousSymbolEncoding symtab]. by rewrite Henc, Htab. }
  eapply lexeme_mono; [exact Hx'|]. apply lx_symbol; try done. apply elem_of_names. eauto.
Qed.

Lemma new_symbol_spec s c l q pt prev cur room :
  store_view (tokens s) prev cur -> lex_ok s (S room) -> IsIdChar c = true -> AIsDigit c = false ->
  Forall (fun c => IsIdChar c = true) l -> id_end q = true -> AFindSymbol (symtab s) (c :: l) = None ->
  sreturns (sym ← with_symtab (AAddSymbol (sym_hash (c :: l)) (c :: l));
    with_tokens (set_tok TT_ID (InfoSym (sym_addr sym))) ≫= (fun _ => mret q)) s
    (fun q' s' => q' = q /\ finishes strtod s s' pt prev cur (c :: l ++ q) q room).
Proof.
  intros Hv [Ht Hr Hty] Hc Hd Hl Hq Hnone.
  eapply sreturns_bind; [eapply with_symtab_spec, (AAddSymbol_spec _ (c :: l) Ht); [lia|done]|].
  intros sym s1 (k & (Hk & Hsym & Hn & Hp) & ->).
  assert (Hx : extends s (upd_symtab k s)).
  { split; try done; [exists []; by rewrite app_nil_r|]. intros x Hin. simpl. rewrite Hp. by right. }
  assert (Hok : lex_ok (upd_symtab k s) room).
  { split; simpl; [done|lia|]. rewrite Hp. constructor; [by rewrite Hsym|done]. }
  eapply sreturns_bind; [by eapply (with_tokens_spec _ (upd_symtab k s)), (set_tok_view _ prev cur)|].
  intros _ s2 (k2 & Hk2 & ->). apply sreturns_ret. split; [done|].
  assert (Hin : sym ∈ concat (ASym k)) by (rewrite Hp; by left).
  split; [|etransitivity; [exact Hx|]; by split; [exists []; rewrite app_nil_r|..]|by destruct Hok|done].
  eexists. split_and!; [exact Hk2|done|].
  assert (Hst : lex_state (upd_tokens k2 (upd_symtab k s)) = new_name (lex_state s) (c :: l)).
  { unfold lex_state, new_name. simpl. f_equal. apply leibniz_equiv. intros id. rewrite elem_of_union, elem_of_singleton, !elem_of_names.
    setoid_rewrite Hp. setoid_rewrite elem_of_cons. rewrite Hsym. split.
    - intros (x & [->|Hx2] & <-); [by left|right; eauto].
    - intros [->|(x & Hx2 & <-)]; eauto. }
  rewrite Hst. apply lx_new_symbol; try done; [by rewrite Hsym..|]. intros (x & Hx2 & He)%elem_of_names.
  by apply (proj1 (AFindSymbol_None _ _ Ht) Hnone x).
Qed.

Lemma lex_id_spec s c p pt prev cur room :
  store_view (tokens s) prev cur -> lex_ok s (S room) -> ends_line (c :: p) -> IsIdChar c = true -> AIsDigit c = false ->
  sreturns (lex_id c p) s (fun q s' => finishes strtod s s' pt prev cur (c :: p) q room /\ stays p q).
Proof.
  intros Hv Hok Hp Hc Hd. pose proof (idchar_not_newline _ Hc) as Hnl. unfold lex_id.
  destruct (scan_id_spec p (ends_line_cons _ _ Hp Hnl) [c] c) as (l & q & Hev & -> & Hl & Hq).
  eapply sreturns_lift_bind; [eapply evals_returns; [exact Hev|exact (eq_refl _)]|]. intros r <-. cbv beta iota.
  rewrite (first_hash c l Hc). apply sspec_get_bind.
  assert (Hst : stays (l ++ q) q).
  { exists l. split; [done|]. eapply Forall_impl; [|exact Hl]. apply idchar_not_newline. }
  change (find_in_chain _ ([c] ++ l)) with (AFindSymbol (symtab s) (c :: l)).
  destruct (AFindSymbol (symtab s) (c :: l)) as [sym|] eqn:Hfind.
  - apply AFindSymbol_spec in Hfind as [Hin Hstr]; [|apply Hok].
    eapply sreturns_mono; [apply (known_symbol_spec s c l q sym pt prev cur room)|]; try done; [|by intros q' s' [-> Hf]].
    destruct Hok. split; [done|lia|done].
  - eapply sreturns_mono; [by apply (new_symbol_spec s c l q pt prev cur room)|]. by intros q' s' [-> Hf].
Qed.

(** ** Operators and punctuators *)

Lemma punctuator_spec c p :
  ends_line (c :: p) -> is_newline c = false -> c <> 46 ->
  evals (punctuator c p) (match match_punct (c :: p) with
                          | Some r => Some r
                          | None => if c =? 33 then Some (TT_ERR_UNRECOGNIZED_CHAR, p) else None
                          end).
Proof.
  intros Hp Hc H46. destruct (ends_line_step _ _ Hp Hc) as (d & r & ->). apply ends_line_cons in Hp; [|done].
  unfold punctuator. cbv zeta. unfold match_punct.
  repeat match goal with
  | |- evals (if c =? ?k then _ else _) _ =>
    destruct (Z.eqb_spec c k) as [->|]; [first [apply evals_ret | eapply evals_bind; [apply peek_head|]]|]
  end.
  all: try (simpl; destruct (d =? 61); simpl; apply evals_ret).
  - simpl. destruct (Z.eqb_spec d 61) as [->|Hd]; simpl; [apply evals_ret|].
    destruct (Z.eqb_spec d 42) as [->|Hd']; simpl; [|apply evals_ret].
    destruct (ends_line_step _ _ Hp eq_refl) as (e & r' & ->). eapply evals_bind; [by apply peek_evals|].
    simpl. destruct (e =? 61); simpl; apply evals_ret.
  - simpl. destruct (d =? 58); simpl; apply evals_ret.
  - assert (find (fun e => is_prefix e.1 (c :: d :: r)) punct_table = None) as ->.
    { simpl. repeat (rewrite (proj2 (Z.eqb_neq c _)) by done). done. }
    apply evals_ret.
Qed.

(** ** One round of the loop *)

Lemma newline_text_spec c q :
  is_newline c = true -> newline_text (c :: q) (match q with 10 :: r => if c =? 13 then r else q | _ => q end).
Proof.
  unfold is_newline. intros [->%Z.eqb_eq | ->%Z.eqb_eq]%orb_true_iff.
  - assert (match q with 10 :: r => if 10 =? 13 then r else q | _ => q end = q) as -> by (repeat case_match; done). constructor.
  - destruct q as [|d q]; [by constructor|]. destruct (decide (d = 10)) as [->|Hd]; [constructor|].
    assert (match d :: q with 10 :: r => if 13 =? 13 then r else d :: q | _ => d :: q end = d :: q) as ->
      by (repeat case_match; simplify_eq; done).
    constructor. simpl. congruence.
Qed.

Lemma newline_text_line p q : newline_text p q -> ends_line p -> q = [] \/ ends_line q.
Proof. intros [r|r|r _] Hp; destruct r; auto. Qed.

Lemma newline_text_newlines p q : newline_text p q -> newlines p = 1 + newlines q.
Proof.
  intros [r|r|r Hr]; [done|done|]. simpl. destruct r as [|d r]; [done|].
  destruct (Z.eqb_spec d 10) as [->|]; [done|]. simpl. lia.
Qed.

Lemma newline_text_length p q : newline_text p q -> (length q < length p)%nat.
Proof. intros [r|r|r _]; simpl; lia. Qed.

(** What a round has done when it found [r] at [text]. *)
Definition round_ok (s s' : LexState) (pt : ATokenType) (prev : list AToken) (cur : AToken) (text : list Z) (r : round) : Prop :=
  extends s s' /\
  match r with
  | NoToken q =>
    lex_ok s' (length q) /\ (length q < length text)%nat /\ ends_line q /\
    lineNumber s' + newlines q = lineNumber s + newlines text /\ lex_state s' = lex_state s /\
    gap pt (encoding s) text q /\ exists cur', store_view (tokens s') prev cur'
  | Token q =>
    lex_ok s' (length q) /\ (length q < length text)%nat /\ ends_line q /\
    lineNumber s' + newlines q = lineNumber s + newlines text /\
    exists t, store_view (tokens s') prev t /\ tokLine t = tokLine cur /\
      lexeme strtod s' pt (lex_state s) text q (lex_state s') (type t) (info t)
  | Finished =>
    lex_ok s' 0 /\ lineNumber s' = lineNumber s + newlines text /\ lex_state s' = lex_state s /\
    exists toks cur', store_view (tokens s') (prev ++ toks) cur' /\ tokLine cur' = u16 (lineNumber s') /\
      (toks = [] /\ gap pt (encoding s) text [] \/
       exists t, toks = [t] /\ tokLine t = tokLine cur /\
         lexeme strtod s' pt (lex_state s) text [] (lex_state s') (type t) (info t))
  end.

Lemma finishes_round s s' pt prev cur text q :
  finishes strtod s s' pt prev cur text q (length q) -> stays text q -> (length q < length text)%nat -> ends_line text ->
  round_ok s s' pt prev cur text (Token q).
Proof.
  intros [Ht Hx Hok Hl] Hst Hlen Hp. split; [done|]. split_and!; [done|done|by eapply stays_line| |done].
  rewrite Hl. by rewrite (stays_newlines _ _ Hst).
Qed.

Lemma lex_ok_weaken s n m : lex_ok s n -> (m <= n)%nat -> lex_ok s m.
Proof. intros [H1 H2 H3] Hle. split; [done|lia|done]. Qed.

Lemma lex_ok_tokens k s n : lex_ok s n -> lex_ok (upd_tokens k s) n.
Proof. by intros [H1 H2 H3]. Qed.

Lemma extends_tokens k s : extends s (upd_tokens k s).
Proof. split; [exists []; by rewrite app_nil_r|done..]. Qed.

Definition upd_line (n : Z) (s : LexState) : LexState :=
  MkLex (tokens s) (symtab s) (ALatin1Symbol s) (AUtf8Symbol s) (AAsciiSymbol s) (constants s) n
    (encoding s) (isPreviousSymbolEncoding s).

Lemma lex_newline_spec s c p prev0 t0 cur :
  store_view (tokens s) (prev0 ++ [t0]) cur -> lex_ok s (length p) -> ends_line (c :: p) -> is_newline c = true ->
  sreturns (lex_newline c p) s (fun r s' => round_ok s s' (type t0) (prev0 ++ [t0]) cur (c :: p) r).
Proof.
  intros Hv Hok Hp Hc. unfold lex_newline. cbv zeta. pose proof (newline_text_spec c p Hc) as Hnl.
  revert Hnl. generalize (match p with 10 :: r => if c =? 13 then r else p | _ => p end). intros q Hnl.
  pose proof (newline_text_newlines _ _ Hnl) as Hn. pose proof (newline_text_length _ _ Hnl) as Hlt. simpl length in Hlt.
  pose proof (newline_text_line _ _ Hnl Hp) as Hq. apply sspec_get_bind. apply sspec_modify_bind.
  fold (upd_line (lineNumber s + 1) s). set (s1 := upd_line (lineNumber s + 1) s).
  assert (Hx : forall k, extends s (upd_tokens k s1)) by (intros k; split; [exists []; by rewrite app_nil_r|done..]).
  assert (Hok1 : forall k n, (n <= length p)%nat -> lex_ok (upd_tokens k s1) n) by (intros; destruct Hok; split; simpl; [done|lia|done]).
  eapply sreturns_bind; [by eapply with_tokens_spec, (previous_view _ prev0 cur t0)|]. intros u s2 (k & [-> ->] & ->).
  change (upd_tokens (tokens s1) s1) with s1. destruct (IgnoreNewLine (type t0)) eqn:Hi.
  - eapply sreturns_bind; [by eapply with_tokens_spec, (set_line_view _ (prev0 ++ [t0]) cur)|].
    intros _ s2 (k & Hk & ->). apply sreturns_ret. destruct q as [|d q].
    + split; [apply Hx|]. split_and!; [apply Hok1; lia|rewrite Hn; simpl; lia|done|]. eexists [], _. rewrite app_nil_r.
      split_and!; [exact Hk|done|]. left. split; [done|by apply gap_newline].
    + split; [apply Hx|]. destruct Hq as [|Hq]; [done|].
      split_and!; [apply Hok1; lia|simpl length in *; lia|done|rewrite Hn; simpl; lia|done|by apply gap_newline|by eexists].
  - eapply sreturns_bind; [by eapply with_tokens_spec, (set_type_view _ (prev0 ++ [t0]) cur)|].
    intros _ s2 (k & Hk & ->). destruct q as [|d q].
    + eapply sreturns_bind; [by eapply with_tokens_spec, AdvanceNewToken_view|]. intros _ s3 (k3 & [c3 Hk3] & ->).
      eapply sreturns_bind; [by eapply with_tokens_spec, (set_line_view _ _ c3)|]. intros _ s4 (k4 & Hk4 & ->).
      apply sreturns_ret. split; [apply Hx|]. split_and!; [apply (Hok1 k4); lia|rewrite Hn; simpl; lia|done|].
      eexists _, _. split_and!; [exact Hk4|done|]. right. eexists. split_and!; [done|done|]. by apply lx_newline.
    + apply sreturns_ret. split; [apply Hx|]. destruct Hq as [|Hq]; [done|].
      split_and!; [apply Hok1; lia|simpl length in *; lia|done|rewrite Hn; simpl; lia|]. eexists. split_and!; [exact Hk|done|].
      by apply lx_newline.
Qed.

(** A round that only sets the type. *)
Lemma finish_round s pt prev cur text rest t :
  store_view (tokens s) prev cur -> lex_ok s (length rest) -> is_mark t = false ->
  (forall s' i, lexeme strtod s' pt (lex_state s) text rest (lex_state s) t i) ->
  stays text rest -> (length rest < length text)%nat -> ends_line text ->
  sreturns (with_tokens (set_type t) ≫= (fun _ => mret (Token rest))) s (fun r s' => round_ok s s' pt prev cur text r).
Proof.
  intros Hv Hok Ht Hl Hst Hlen Hp.
  eapply sreturns_bind; [by eapply with_tokens_spec, (set_type_view _ prev cur)|]. intros _ s' (k & Hk & ->).
  apply sreturns_ret, finishes_round; [|done..]. split; [|apply extends_tokens|by apply lex_ok_tokens|done].
  eexists. split_and!; [exact Hk|done|]. apply Hl.
Qed.

Lemma skip_round s pt prev cur text rest :
  store_view (tokens s) prev cur -> lex_ok s (length rest) -> gap pt (encoding s) text rest ->
  stays text rest -> (length rest < length text)%nat -> ends_line text ->
  sreturns (mret (NoToken rest)) s (fun r s' => round_ok s s' pt prev cur text r).
Proof.
  intros Hv Hok Hg Hst Hlen Hp. apply sreturns_ret. split; [done|].
  split_and!; [done|done|by eapply stays_line|by rewrite (stays_newlines _ _ Hst)|done|done|by exists cur].
Qed.

(** A round that calls one of the functions above. *)
Lemma call_round s pt prev cur c p (m : SM LexState (list Z)) :
  ends_line (c :: p) -> is_newline c = false ->
  sreturns m s (fun q s' => finishes strtod s s' pt prev cur (c :: p) q (length p) /\ stays p q) ->
  sreturns (q ← m; mret (Token q)) s (fun r s' => round_ok s s' pt prev cur (c :: p) r).
Proof.
  intros Hp Hc Hm. eapply sreturns_bind; [exact Hm|]. intros q s' ([Ht Hx Hok Hl] & Hst). apply sreturns_ret.
  pose proof (stays_length _ _ Hst).
  apply finishes_round; [|by apply stays_skip|simpl; lia|done]. split; [done|done| |done]. by eapply lex_ok_weaken.
Qed.

Lemma AIsAlpha_letters c : AIsAlpha c = ((65 <=? c) && (c <=? 90)) || ((97 <=? c) && (c <=? 122)).
Proof.
  destruct (decide (0 <= c < 128)) as [Hc|Hc].
  - assert (Hall : Forall (fun c => AIsAlpha c = ((65 <=? c) && (c <=? 90)) || ((97 <=? c) && (c <=? 122)))
      (Z.of_nat <$> seq 0 128)) by (repeat constructor).
    rewrite Forall_forall in Hall. apply Hall, list_elem_of_In, list_elem_of_fmap. exists (Z.to_nat c).
    split; [lia|]. apply elem_of_seq. lia.
  - assert (Hr : ((65 <=? c) && (c <=? 90)) || ((97 <=? c) && (c <=? 122)) = false) by lia. rewrite Hr.
    apply not_true_iff_false. unfold AIsAlpha, ALoCase. intros [H1 H2]%andb_true_iff.
    destruct (Z.lt_ge_cases c 0) as [Hneg|Hpos].
    + assert (Z.lor c 32 < 0) by (apply Z.lor_neg; lia). lia.
    + assert (Z.log2 (Z.lor c 32) <= 6) by (change 6 with (Z.log2 127); apply Z.log2_le_mono; lia).
      rewrite Z.log2_lor in * by lia. assert (Z.log2 128 <= Z.log2 c) by (apply Z.log2_le_mono; lia).
      change (Z.log2 128) with 7 in *. lia.
Qed.

Lemma id_start c : AIsDigit c = false -> (AIsAlpha c || (c =? 95)) = IsIdChar c.
Proof. rewrite AIsAlpha_letters. unfold AIsDigit, IsIdChar. intros H. destruct (c =? 95); lia. Qed.

(** A comment. *)
Lemma comment_round s prev cur pt p :
  store_view (tokens s) prev cur -> lex_ok s (length p) -> ends_line (45 :: 45 :: p) ->
  sreturns (r ← lift (comment (encoding s) (45 :: p));
    match r.2 with
    | None => mret (NoToken r.1)
    | Some err => with_tokens (set_type err) ≫= (fun _ => mret (Token r.1))
    end) s (fun r s' => round_ok s s' pt prev cur (45 :: 45 :: p) r).
Proof.
  intros Hv Hok Hp. destruct (comment_spec (encoding s) p (ends_line_cons _ _ Hp eq_refl)) as (q & err & Hev & Hq & Hst & Hres).
  eapply sreturns_lift_bind; [eapply evals_returns; [exact Hev|exact (eq_refl _)]|]. intros r <-. cbn [fst snd].
  assert (Hst' : stays p q).
  { destruct Hst as (l & Hl & Hnl). destruct l as [|x l]; [|injection Hl as _ ->; apply Forall_cons_1 in Hnl as [_ ?]; by exists l].
    destruct Hq as (x & r & -> & Hx). simpl in Hl. by injection Hl as <- _. }
  assert (Hall : stays (45 :: 45 :: p) q) by (by apply stays_skip). pose proof (stays_length _ _ Hst') as Hlen.
  pose proof (lex_ok_weaken _ _ _ Hok Hlen) as Hok'. destruct err as [e|].
  - destruct Hres as (-> & l & p' & Hl & Hc & Hbad & Hsp). apply finish_round; try done; [by destruct (encoding s)| |simpl; lia].
    intros s' i. by eapply lx_comment_bad.
  - destruct Hres as (l & Hl & Hc). apply skip_round; try done; [|simpl; lia]. by eapply gap_comment.
Qed.

(** The operators and the characters that are no token. *)
Lemma punctuator_round s prev cur pt c p :
  store_view (tokens s) prev cur -> lex_ok s (length p) -> ends_line (c :: p) -> other_char c = true -> c <> 46 ->
  is_prefix [45; 45] (c :: p) = false ->
  sreturns (r ← lift (punctuator c p);
    match r with
    | Some (t, src) => with_tokens (set_type t) ≫= (fun _ => mret (Token src))
    | None => with_tokens (set_type TT_ERR_UNRECOGNIZED_CHAR) ≫= (fun _ => mret (Token p))
    end) s (fun r s' => round_ok s s' pt prev cur (c :: p) r).
Proof.
  intros Hv Hok Hp Hc H46 Hcom. pose proof Hc as Hc'. unfold other_char in Hc'.
  assert (Hnl : is_newline c = false) by (unfold is_newline in *; lia).
  eapply sreturns_lift_bind; [eapply evals_returns; [by apply punctuator_spec|exact (eq_refl _)]|]. intros r <-.
  destruct (match_punct (c :: p)) as [[t q]|] eqn:Hm.
  - assert (Hmt : is_mark t = false /\ stays p q).
    { unfold match_punct in Hm. destruct (find _ punct_table) as [e|] eqn:Hf; simpl in Hm; [|done]. injection Hm as <- <-.
      apply find_some in Hf as [Hin Hpre]. assert (Hall : Forall (fun e => is_mark e.2 = false /\
        Forall (fun c => is_newline c = false) e.1 /\ e.1 <> []) punct_table) by (by repeat (constructor; [by repeat constructor|])).
      rewrite Forall_forall in Hall. destruct (Hall _ Hin) as (Hmark & Hline & Hne). split; [done|].
      assert (Hpref : forall l p, is_prefix l p = true -> p = l ++ drop (length l) p).
      { clear. induction l as [|x l IH]; [done|]. intros [|y p]; [done|]. simpl. intros [->%Z.eqb_eq H]%andb_true_iff.
        f_equal. by apply IH. }
      specialize (Hpref _ _ Hpre). destruct e as [[|x l] t']; [done|]. simpl in *. injection Hpref as _ Hpref.
      apply Forall_cons_1 in Hline as [_ Hline]. by exists l. }
    destruct Hmt as [Hmark Hst]. pose proof (stays_length _ _ Hst). apply finish_round; try done.
    + by eapply lex_ok_weaken.
    + intros s' i. apply lx_punct; [done|done|]. intros [Hd|[? _]]; [|done]. unfold IsIdChar, AIsDigit in *. lia.
    + by apply stays_skip.
    + simpl. lia.
  - assert (Hgo : sreturns (with_tokens (set_type TT_ERR_UNRECOGNIZED_CHAR) ≫= (fun _ => mret (Token p))) s
      (fun r s' => round_ok s s' pt prev cur (c :: p) r)).
    { apply finish_round; try done; [|by apply stays_skip, stays_refl|simpl; lia]. intros s' i. by apply lx_other. }
    by destruct (c =? 33).
Qed.

(** The case of a character that starts no word, number or string. *)
Lemma lex_special_spec s prev cur pt c p :
  store_view (tokens s) prev cur -> lex_ok s (length p) -> ends_line (c :: p) -> other_char c = true -> zlen (c :: p) < 2 ^ 30 ->
  sreturns (d ← (if (c =? 45) || (c =? 46) then lift (peek p 0) else mret 0);
    if (c =? 45) && (d =? 45) then
      s ← get;
      r ← lift (comment (encoding s) p);
      match r.2 with
      | None => mret (NoToken r.1)
      | Some err => with_tokens (set_type err) ≫= (fun _ => mret (Token r.1))
      end
    else if c =? 46 then
      if AIsDigit d then src ← lex_number strtod c p; mret (Token src)
      else with_tokens (set_type TT_DOT) ≫= (fun _ => mret (Token p))
    else
      r ← lift (punctuator c p);
      match r with
      | Some (t, src) => with_tokens (set_type t) ≫= (fun _ => mret (Token src))
      | None => with_tokens (set_type TT_ERR_UNRECOGNIZED_CHAR) ≫= (fun _ => mret (Token p))
      end) s (fun r s' => round_ok s s' pt prev cur (c :: p) r).
Proof.
  intros Hv Hok Hp Hc Hlen. assert (Hnl : is_newline c = false) by (unfold other_char, is_newline in *; lia).
  destruct (ends_line_step _ _ Hp Hnl) as (d & r & ->).
  destruct (Z.eqb_spec c 45) as [->|H45].
  { simpl orb. cbv iota. eapply sreturns_lift_bind; [eapply evals_returns; [apply peek_head|exact (eq_refl d)]|].
    intros d' <-. destruct (Z.eqb_spec d 45) as [->|Hd]; simpl andb; cbv iota.
    - apply sspec_get_bind. apply comment_round; [done| |done]. eapply lex_ok_weaken; [done|simpl; lia].
    - apply punctuator_round; try done. simpl. by rewrite (proj2 (Z.eqb_neq _ _) Hd). }
  destruct (Z.eqb_spec c 46) as [->|H46]; simpl orb; simpl andb; cbv iota.
  - eapply sreturns_lift_bind; [eapply evals_returns; [apply peek_head|exact (eq_refl d)]|]. intros d' <-.
    destruct (AIsDigit d) eqn:Hd.
    + apply call_round; [done|done|]. apply lex_number_spec; [done|done|done| |done]. right. split; [done|by exists d, r].
    + apply finish_round; try done; [|by apply stays_skip, stays_refl|simpl; lia]. intros s' i. apply lx_punct; [done|done|].
      intros [Hx|(_ & d' & r' & Hx & Hd')]; [done|]. simplify_eq. congruence.
  - eapply (sreturns_bind _ _ _ (fun _ s' => s' = s)); [by apply sreturns_ret|]. intros x s' ->.
    apply punctuator_round; try done. simpl. by rewrite (proj2 (Z.eqb_neq _ _) H45).
Qed.

(** Newlines and semicolons look at the token before. *)
Definition looks_back (c : Z) : bool := is_newline c || (c =? 59).

Lemma lex_char_spec s c p prev pt cur :
  (looks_back c = true -> exists prev0 t0, prev = prev0 ++ [t0] /\ type t0 = pt) ->
  store_view (tokens s) prev cur -> lex_ok s (length (c :: p)) -> ends_line (c :: p) -> zlen (c :: p) < 2 ^ 30 ->
  sreturns (lex_char strtod c p) s (fun r s' => round_ok s s' pt prev cur (c :: p) r).
Proof.
  intros Hback Hv Hok Hp Hlen. unfold lex_char, looks_back in *.
  assert (Hok' : lex_ok s (length p)) by (eapply lex_ok_weaken; [done|simpl; lia]).
  destruct (is_newline c) eqn:Hnl; [destruct (Hback eq_refl) as (prev0 & t0 & -> & <-); by apply lex_newline_spec|].
  pose proof (ends_line_cons _ _ Hp Hnl) as Hp'.
  pose proof (stays_skip c p p Hnl (stays_refl p)) as Hst.
  destruct (Z.eqb_spec c 59) as [->|H59].
  { destruct (Hback eq_refl) as (prev0 & t0 & -> & <-).
    eapply sreturns_bind; [by eapply with_tokens_spec, (previous_view _ prev0 cur t0)|]. intros u s2 (k & [-> ->] & ->).
    replace (upd_tokens (tokens s) s) with s by (by destruct s). case_decide as Ht.
    - apply skip_round; try done; [by apply gap_semicolon|simpl; lia].
    - apply finish_round; try done; [|simpl; lia]. intros s' i. by apply lx_semicolon. }
  destruct ((c =? 32) || (c =? 9)) eqn:Hbl; [apply skip_round; try done; [by apply gap_blank|simpl; lia]|].
  destruct ((c =? 34) || (c =? 39)) eqn:Hq.
  { apply call_round; [done|done|]. apply lex_string_spec; try done; [lia|]. simpl length in Hlen. lia. }
  destruct (AIsDigit c) eqn:Hd; [apply call_round; [done|done|]; apply lex_number_spec; try done; by left|].
  rewrite (id_start c Hd). destruct (IsIdChar c) eqn:Hid; [apply call_round; [done|done|]; by apply lex_id_spec|].
  apply lex_special_spec; try done. unfold other_char. rewrite Hnl, Hid. lia.
Qed.

(** ** The loop *)

(** The text starts, after blanks, with a token that does not look back. *)
Definition first_ok (src : list Z) : Prop :=
  exists l c q, src = l ++ c :: q /\ Forall (fun c => is_blank c = true) l /\ is_blank c = false /\
    looks_back c = false /\ is_prefix [45; 45] (c :: q) = false.

(** The tokens found so far, from the state [s0] and the text [src0] on. *)
Definition progress (s0 : LexState) (src0 : list Z) (prev : list AToken) (s : LexState) (src : list Z)
    (toks : list AToken) (cur : AToken) : Prop :=
  store_view (tokens s) (prev ++ toks) cur /\ extends s0 s /\ lex_ok s (length src) /\
  lineNumber s + newlines src = lineNumber s0 + newlines src0 /\
  lexed strtod s (last_type TT_EMPTY prev) (lineNumber s0) src0 (lex_state s0) toks src (lex_state s).

Lemma last_type_app pt prev toks : last_type (last_type pt prev) toks = last_type pt (prev ++ toks).
Proof.
  unfold last_type. destruct toks as [|t toks _] using rev_ind; [by rewrite app_nil_r|].
  by rewrite app_assoc, !list.last_snoc.
Qed.

Lemma last_split (l : list AToken) : l <> [] -> exists l0 t, l = l0 ++ [t] /\ type t = last_type TT_EMPTY l.
Proof.
  destruct l as [|t l _] using rev_ind; [done|]. intros _. exists l, t. unfold last_type. by rewrite list.last_snoc.
Qed.

(** The first token does not look back, and no gap before it ends a line. *)
Lemma first_ok_head c p : first_ok (c :: p) -> looks_back c = false.
Proof.
  intros (l & d & q & Heq & Hl & Hd & Hlb & _). destruct l as [|x l]; simpl in Heq; simplify_eq; [done|].
  apply Forall_cons_1 in Hl as [Hx _]. unfold is_blank, looks_back, is_newline in *. lia.
Qed.

Lemma first_ok_gap pt enc p q : first_ok p -> gap pt enc p q -> first_ok q.
Proof.
  intros Hf Hg. destruct Hg as [c q Hc|p q Hn _|q _|p l q _ _ _ _].
  - destruct Hf as (l & d & r & Heq & Hl & Hd & Hlb & Hcom). destruct l as [|x l]; simpl in Heq; simplify_eq; [congruence|].
    apply Forall_cons_1 in Hl as [_ Hl]. by exists l, d, r.
  - destruct Hn; by apply first_ok_head in Hf.
  - by apply first_ok_head in Hf.
  - destruct Hf as (l' & d & r & Heq & Hl & Hd & Hlb & Hcom). destruct l' as [|x l']; simpl in Heq;
      [|injection Heq as <- _; by apply Forall_cons_1 in Hl as [Hx _]].
    injection Heq as <- <-. done.
Qed.

Lemma tokenize_loop_spec fuel s0 src0 prev : forall s src toks cur,
  progress s0 src0 prev s src toks cur -> prev ++ toks <> [] \/ first_ok src ->
  ends_line src -> (length src < fuel)%nat -> zlen src < 2 ^ 30 ->
  sreturns (tokenize_loop strtod fuel src) s (fun _ s' => exists toks' cur',
    progress s0 src0 prev s' [] toks' cur' /\ tokLine cur' = u16 (lineNumber s')).
Proof.
  induction fuel as [|fuel IH]; intros s src toks cur (Hv & Hx & Hok & Hline & Hlex) Hfirst Hp Hf Hlen; [lia|].
  cbn [tokenize_loop]. apply sspec_get_bind.
  eapply sreturns_bind; [by eapply with_tokens_spec, (set_line_view _ (prev ++ toks) cur)|]. intros _ s1 (k & Hk & ->).
  destruct (ends_line_head _ Hp) as (c & p & ->).
  eapply sreturns_lift_bind; [eapply evals_returns; [apply peek_head|exact (eq_refl c)]|]. intros c' <-.
  change (drop 1 (c :: p)) with p.
  set (cur1 := MkToken _ _ _) in Hk. assert (Hc1 : tokLine cur1 = u16 (lineNumber s0 + newlines src0 - newlines (c :: p))).
  { unfold cur1. cbn [tokLine]. f_equal. lia. }
  assert (Hback : looks_back c = true -> exists prev0 t0, prev ++ toks = prev0 ++ [t0] /\ type t0 = last_type TT_EMPTY (prev ++ toks)).
  { intros Hc. apply last_split. destruct Hfirst as [|Hfirst]; [done|]. apply first_ok_head in Hfirst. congruence. }
  eapply sreturns_bind; [apply (lex_char_spec (upd_tokens k s) c p (prev ++ toks) _ cur1 Hback); [done|by apply lex_ok_tokens|done|done]|].
  rewrite <- last_type_app. intros r s2 [Hx2 Hr]. change (lex_state (upd_tokens k s)) with (lex_state s) in Hr.
  change (encoding (upd_tokens k s)) with (ls_encoding (lex_state s)) in Hr. change (lineNumber (upd_tokens k s)) with (lineNumber s) in Hr.
  assert (Hx02 : extends s0 s2) by (etransitivity; [exact Hx|]; etransitivity; [apply (extends_tokens k)|exact Hx2]).
  pose proof (lexed_mono strtod s s2 _ _ _ _ _ _ _ (transitivity (extends_tokens k s) Hx2) Hlex) as Hlex2.
  destruct r as [|q|q].
  - destruct Hr as (Hok2 & Hl2 & Hst & more & cur' & Hv' & Hc' & Hor). apply sreturns_ret.
    exists (toks ++ more), cur'. split; [|done]. split_and!; [by rewrite <- app_assoc in Hv'|done|done|simpl; lia|].
    rewrite Hst in *. destruct Hor as [[-> Hg]|(t' & -> & Hl & Hle)]; [rewrite app_nil_r; by eapply lexed_gap|].
    eapply lexed_token; [done|done|congruence].
  - destruct Hr as (Hok2 & Hlt & Hq & Hl2 & Hst & Hg & cur' & Hv'). simpl in Hlt, Hf, Hlen.
    apply (IH s2 q toks cur'); [| |done|lia|lia].
    + split_and!; [done|done|done|lia|]. rewrite Hst. by eapply lexed_gap.
    + destruct Hfirst as [|Hfirst]; [by left|right]. by eapply first_ok_gap.
  - destruct Hr as (Hok2 & Hlt & Hq & Hl2 & t' & Hv' & Hc' & Hle). simpl in Hlt, Hf, Hlen.
    eapply sreturns_bind; [by eapply with_tokens_spec, next_token_view|]. intros _ s3 (k3 & [cur3 Hv3] & ->).
    apply (IH (upd_tokens k3 s2) q (toks ++ [t']) cur3); [|left; by destruct prev, toks|done|lia|lia].
    split_and!; [by rewrite <- app_assoc in Hv3|by etransitivity; [|apply extends_tokens]|by apply lex_ok_tokens|simpl; lia|].
    eapply lexed_mono; [apply (extends_tokens k3)|]. eapply lexed_token; [done|done|congruence].
Qed.

(** ** The beginning of a file *)

Lemma skip_line_spec p : ends_line p -> exists q, evals (skip_line p) q /\ stays p q /\ newline_head q.
Proof.
  induction p as [|c p IH]; [done|]. intros Hp. simpl. destruct (is_newline c) eqn:Hc.
  - exists (c :: p). split_and!; [apply evals_ret|apply stays_refl|by exists c, p].
  - destruct (IH (ends_line_cons _ _ Hp Hc)) as (q & Hev & Hst & Hq). exists q. by split_and!; [|apply stays_skip|].
Qed.

(** The byte order mark, if there is one, and the text behind it. *)
Definition split_bom (line : Z) (src : list Z) : bool * list Z :=
  match src with
  | 0xef :: 0xbb :: 0xbf :: r => if line =? 1 then (true, r) else (false, src)
  | _ => (false, src)
  end.

(** The text behind the first line of a script. *)
Definition script_text (line : Z) (src text : list Z) : Prop :=
  if (line =? 1) && is_prefix [35; 33] src then stays src text /\ newline_head text else text = src.

Lemma is_prefix_inv l p : is_prefix l p = true -> p = l ++ drop (length l) p.
Proof.
  revert p. induction l as [|x l IH]; [done|]. intros [|c p]; [done|]. simpl.
  intros [->%Z.eqb_eq H]%andb_true_iff. f_equal. by apply IH.
Qed.

Lemma bom_cases src : is_prefix [0xef; 0xbb; 0xbf] src = true /\ (exists r, src = 0xef :: 0xbb :: 0xbf :: r) \/
  (forall A (f : list Z -> A) (d : A), match src with 0xef :: 0xbb :: 0xbf :: r => f r | _ => d end = d).
Proof.
  destruct (is_prefix [0xef; 0xbb; 0xbf] src) eqn:He.
  - left. split; [done|]. rewrite (is_prefix_inv _ _ He). by eexists.
  - right. intros A f d. repeat case_match; done.
Qed.

Lemma split_bom_length line src : (length (split_bom line src).2 <= length src)%nat.
Proof.
  unfold split_bom. destruct (bom_cases src) as [[_ [r ->]]|H]; [|by rewrite (H _ (fun r => if line =? 1 then (true, r) else (false, src)))].
  destruct (line =? 1); simpl; lia.
Qed.

Lemma split_bom_stays line src : ends_line src -> stays src (split_bom line src).2.
Proof.
  intros Hp. unfold split_bom. destruct (bom_cases src) as [[_ [r ->]]|H].
  - destruct (line =? 1); [|apply stays_refl]. exists [0xef; 0xbb; 0xbf]. split; [done|]. by repeat constructor.
  - rewrite (H _ (fun r => if line =? 1 then (true, r) else (false, src))). apply stays_refl.
Qed.

Definition is_bom (t : AToken) : Prop := type t = TT_BOM /\ tokLine t = 1.

(** The first token of a file is stored if it is a byte order mark. *)
Lemma skip_bom_spec s src prev cur :
  store_view (tokens s) prev cur -> (lineNumber s = 1 -> (cursor (tokens s) < 62)%nat) ->
  sreturns (skip_bom src) s (fun q s' => exists bom k cur', s' = upd_tokens k s /\ store_view k (prev ++ bom) cur' /\
    q = (split_bom (lineNumber s) src).2 /\
    if (split_bom (lineNumber s) src).1 then exists t, bom = [t] /\ is_bom t else bom = []).
Proof.
  intros Hv Hc. unfold skip_bom. apply sspec_get_bind.
  assert (Hno : sreturns (mret src) s (fun q s' => exists bom k cur', s' = upd_tokens k s /\ store_view k (prev ++ bom) cur' /\
    q = src /\ bom = [])).
  { apply sreturns_ret. exists [], (tokens s), cur. split_and!; [by destruct s|by rewrite app_nil_r|done|done]. }
  unfold split_bom. destruct (bom_cases src) as [[_ [r ->]]|H].
  2:{ rewrite (H _ (fun r => if lineNumber s =? 1 then (true, r) else (false, src))).
      rewrite (H _ (fun r => if lineNumber s =? 1 then
        with_tokens (set_line 1) ≫= (fun _ => with_tokens (set_type TT_BOM) ≫= (fun _ =>
        with_tokens (c ← get; move_cursor (S (cursor c))) ≫= (fun _ => mret r))) else mret src)).
      exact Hno. }
  destruct (Z.eqb_spec (lineNumber s) 1) as [Hl|Hl]; [|exact Hno]. specialize (Hc Hl). destruct Hv as (pre & b & Hs & Hv).
  assert (Hv' : store_view (tokens s) prev cur) by (by exists pre, b).
  eapply sreturns_bind; [eapply with_tokens_spec; unfold set_line; apply sspec_get_bind;
    eapply (set_entry_view _ prev cur); [done|exact (view_unmarked _ _ _ Hv')]|].
  intros _ s1 (k1 & [Hk1 Hc1] & ->).
  eapply sreturns_bind; [eapply with_tokens_spec; unfold set_type; apply sspec_get_bind; by eapply (set_entry_view k1 prev)|].
  intros _ s2 (k2 & [Hk2 Hc2] & ->).
  eapply sreturns_bind; [eapply with_tokens_spec; apply sspec_get_bind; eapply (move_cursor_view k2); [done|simpl in Hc2; lia]|].
  intros _ s3 (k3 & [cur3 Hk3] & ->). apply sreturns_ret. eexists [_], k3, cur3.
  split_and!; [done|exact Hk3|done|by eexists].
Qed.

Lemma skip_hash_bang_spec s src :
  ends_line src ->
  sreturns (skip_hash_bang src) s (fun q s' => s' = s /\ script_text (lineNumber s) src q).
Proof.
  intros Hp. unfold skip_hash_bang, script_text. apply sspec_get_bind.
  assert (Hcases : is_prefix [35; 33] src = true /\ (exists r, src = 35 :: 33 :: r) \/ is_prefix [35; 33] src = false /\
    forall A (x d : A), match src with 35 :: 33 :: _ => x | _ => d end = d).
  { destruct (is_prefix [35; 33] src) eqn:He; [left|right].
    - split; [done|]. rewrite (is_prefix_inv _ _ He). by eexists.
    - split; [done|]. intros A x d. repeat case_match; done. }
  destruct Hcases as [[-> [r ->]]|[-> Hno]].
  - rewrite andb_true_r. destruct (lineNumber s =? 1); [|by apply sreturns_ret].
    destruct (skip_line_spec _ Hp) as (q & Hev & Hst & Hq).
    eapply sreturns_mono; [apply sreturns_lift, (evals_returns _ _ (fun x => x = q) Hev eq_refl)|]. by intros x s' [-> ->].
  - rewrite andb_false_r, (Hno _ (if lineNumber s =? 1 then lift (skip_line src) else mret src)). by apply sreturns_ret.
Qed.

(** ** The lexical analyzer *)

(** The analyzer starts a new token list, or goes on with a list that holds
    [prev] and whose current token has the line [line]. *)
Definition starts (k : TokenStore) (prev : list AToken) (line : Z) : Prop :=
  blocks k = [] /\ prev = [] /\ line = 1 \/
  blocks k <> [] /\ exists cur, store_view k prev cur /\ prev <> [] /\ tokLine cur = line /\ (line = 1 -> (cursor k < 62)%nat).

(** Nothing in front of the first token of a file looks back. *)
Definition start_ok (prev : list AToken) (line : Z) (src : list Z) : Prop :=
  prev <> [] \/ (split_bom line src).1 = true \/
  is_prefix [35; 33] (split_bom line src).2 = false /\ first_ok (split_bom line src).2.

Definition start_state (s : LexState) (enc : option AEncoding) (line : Z) (k : TokenStore) : LexState :=
  MkLex k (symtab s) (ALatin1Symbol s) (AUtf8Symbol s) (AAsciiSymbol s) (constants s) line (default AENC_UTF8 enc) false.

Lemma script_text_stays line src text : script_text line src text -> stays src text.
Proof. unfold script_text. destruct (_ && _); [by intros [? _]|]. intros ->. apply stays_refl. Qed.

(** From the first line on. *)
Lemma tokenize_from s enc line src prev cur k :
  store_view k prev cur -> (line = 1 -> (cursor k < 62)%nat) -> lex_ok s (length src) -> ends_line src ->
  zlen src < 2 ^ 30 -> start_ok prev line src ->
  sreturns (src ← skip_bom src; src ← skip_hash_bang src; tokenize_loop strtod (S (length src)) src)
    (start_state s enc line k) (fun _ s' => exists bom text toks cur',
      (if (split_bom line src).1 then exists t, bom = [t] /\ is_bom t else bom = []) /\
      script_text line (split_bom line src).2 text /\
      store_view (tokens s') (prev ++ bom ++ toks) cur' /\ tokLine cur' = u16 (lineNumber s') /\
      lexed strtod s' (last_type TT_EMPTY (prev ++ bom)) line text (MkLState (default AENC_UTF8 enc) false (known_names (symtab s))) toks [] (lex_state s') /\
      lineNumber s' = line + newlines src /\ extends s s' /\ lex_ok s' 0).
Proof.
  intros Hv Hc Hok Hp Hlen Hst. set (s0 := start_state s enc line k).
  eapply sreturns_bind; [by apply (skip_bom_spec s0 src prev cur)|].
  intros q s1 (bom & k1 & cur1 & -> & Hv1 & -> & Hbom). change (lineNumber s0) with line in *.
  pose proof (split_bom_stays line src Hp) as Hs1. set (q := (split_bom line src).2) in *.
  eapply sreturns_bind; [by apply skip_hash_bang_spec, (stays_line _ _ Hs1)|]. intros text s1 [-> Htext].
  change (lineNumber (upd_tokens k1 s0)) with line in Htext. pose proof (script_text_stays _ _ _ Htext) as Hs2.
  pose proof (stays_trans _ _ _ Hs1 Hs2) as Hs. pose proof (stays_length _ _ Hs) as Hl.
  set (s1 := upd_tokens k1 s0) in *.
  eapply sreturns_mono; [apply (tokenize_loop_spec (S (length text)) s1 text (prev ++ bom) s1 text [] cur1)|].
  - split_and!; [by rewrite app_nil_r|done| |done|constructor]. by destruct Hok as [H1 H2 H3]; split; [|simpl; lia|].
  - rewrite app_nil_r. destruct Hst as [Hne|[Hb|[Hno Hf]]].
    + left. by destruct prev.
    + left. rewrite Hb in Hbom. destruct Hbom as (t & -> & _). by destruct prev.
    + right. change (split_bom line src).2 with q in Hno, Hf. unfold script_text in Htext. rewrite Hno, andb_false_r in Htext. by subst text.
  - by eapply stays_line.
  - lia.
  - lia.
  - intros u s' (toks & cur' & (Hv' & Hx & Hok' & Hline & Hlex) & Hcur). exists bom, text, toks, cur'.
    assert (Hx1 : extends s s1) by (split; [exists []; by rewrite app_nil_r|done..]).
    split_and!; [done|done|by rewrite app_assoc|done|done| |exact (transitivity Hx1 Hx)|done].
    change (lineNumber s1) with line in Hline. rewrite (stays_newlines _ _ Hs). simpl in Hline. lia.
Qed.

Lemma ATokenize_spec s src enc prev line :
  starts (tokens s) prev line -> lex_ok s (length src) -> ends_line src -> zlen src < 2 ^ 30 -> start_ok prev line src ->
  sreturns (ATokenize strtod src enc) s (fun _ s' => exists bom text toks cur',
    (if (split_bom line src).1 then exists t, bom = [t] /\ is_bom t else bom = []) /\
    script_text line (split_bom line src).2 text /\
    store_view (tokens s') (prev ++ bom ++ toks) cur' /\ tokLine cur' = u16 (lineNumber s') /\
    lexed strtod s' (last_type TT_EMPTY (prev ++ bom)) line text (MkLState (default AENC_UTF8 enc) false (known_names (symtab s))) toks [] (lex_state s') /\
    lineNumber s' = line + newlines src /\ extends s s' /\ lex_ok s' 0).
Proof.
  intros Hstart Hok Hp Hlen Hst. unfold ATokenize. apply sspec_modify_bind, sspec_modify_bind, sspec_get_bind.
  cbn [tokens]. eapply (sreturns_bind _ _ _ (fun _ s' => exists k cur, s' = start_state s enc line k /\
    store_view k prev cur /\ (line = 1 -> (cursor k < 62)%nat))).
  - destruct Hstart as [(Hb & -> & ->)|(Hb & cur & Hv & Hne & Hl & Hc)].
    + rewrite Hb. eapply sreturns_lift_bind; [eapply returns_bind; [apply AAlloc_spec|]; intros junk _;
        by apply (returns_ret _ (fun x => exists junk, x = new_block junk)); exists junk|].
      intros b [junk ->]. eapply sreturns_bind; [eapply with_tokens_spec;
        by apply (sreturns_modify _ _ (fun _ k => k = MkTokens [new_block junk] 0))|].
      intros _ s1 (k & -> & ->). apply sreturns_modify. destruct (fresh_view junk) as [cur Hv].
      exists (MkTokens [new_block junk] 0), cur. split_and!; [done|done|simpl; lia].
    + destruct (blocks (tokens s)) as [|b0 bs] eqn:Hbs; [done|]. destruct Hv as (pre & b & Hs & Hd & Hcur).
      eapply sreturns_lift_bind; [eapply evals_returns; [eapply (entry_last (tokens s) pre b); [apply Hs|exact Hcur]|exact (eq_refl cur)]|].
      intros c <-. apply sreturns_modify. exists (tokens s), cur. subst line. split_and!; [done|by exists pre, b|done].
  - intros _ s1 (k & cur & -> & Hv & Hc). by eapply tokenize_from.
Qed.

End finish.
