(* ===== verification/LexUnique.v ===== *)
(** * LexUnique: the reference definition of the lexical structure is unambiguous

    A text has at most one sequence of tokens in the sense of [LexSpec]: the
    first characters of a text tell which kind of token or gap comes next, and
    every kind fixes where it ends and what it means. *)

From Stdlib Require Import SpecFloat.
From stdpp Require Import gmap.
From S2P Require Import Prelude Runtime Digits Value IntConv IntText StrOps Tokens SymTable.
From S2P Require Import Lexer LexText LexLiteral LexNumber LexSpec.

Open Scope Z_scope.

(** ** Tokens that mean the same *)

(** The types of tokens without information. *)
Definition no_info (t : ATokenType) : bool :=
  bool_decide (t = TT_NEWLINE) || AIsErrorToken t || bool_decide (t ∈ punct_table.*2).

(** Two representations of the same number are the same constant. *)
Definition same_value (c1 c2 : ConstValue) : Prop :=
  c1 = c2 \/ exists v1 v2 z, c1 = ConstNum v1 /\ c2 = ConstNum v2 /\ int_repr v1 z /\ int_repr v2 z.

Definition same_info (s : LexState) (t : ATokenType) (i1 i2 : ATokenInfo) : Prop :=
  no_info t = true \/ i1 = i2 \/
  exists n1 n2 c1 c2, i1 = InfoNum n1 /\ i2 = InfoNum n2 /\ constant s n1 c1 /\ constant s n2 c2 /\ same_value c1 c2.

(** The same type, on the same line, with the same information. *)
Definition same_token (s : LexState) (t1 t2 : AToken) : Prop :=
  type t1 = type t2 /\ tokLine t1 = tokLine t2 /\ same_info s (type t1) (info t1) (info t2).

(** ** The kinds of tokens and gaps *)

Inductive kind := KNone | KNewline | KSemicolon | KBlank | KString | KNumber | KSymbol | KComment | KPunct | KOther.

Definition kind_of (p : list Z) : kind :=
  match p with
  | [] => KNone
  | c :: r =>
    if is_newline c then KNewline else if c =? 59 then KSemicolon else if is_blank c then KBlank
    else if (c =? 34) || (c =? 39) then KString
    else if AIsDigit c || ((c =? 46) && match r with d :: _ => AIsDigit d | [] => false end) then KNumber
    else if IsIdChar c then KSymbol
    else if is_prefix [45; 45] p then KComment
    else match match_punct p with Some _ => KPunct | None => KOther end
  end.

Lemma kind_newline p q : newline_text p q -> kind_of p = KNewline.
Proof. by intros [r|r|r _]. Qed.

Lemma kind_string quote p : quote = 34 \/ quote = 39 -> kind_of (quote :: p) = KString.
Proof. by intros [->| ->]. Qed.

Lemma kind_number p l q : longest_number p l q -> kind_of p = KNumber.
Proof.
  intros (-> & Hl & _). assert (Hstart : exists c r, l ++ q = c :: r /\ number_start c r).
  { assert (Hman : forall ds fr r, digits ds -> float_fraction fr -> ds ++ fr <> [] ->
      exists c r', ds ++ fr ++ r = c :: r' /\ number_start c r').
    { intros [|c ds] fr r Hd Hfr Hne; [|exists c, (ds ++ fr ++ r); split; [done|]; left; by apply Forall_cons_1 in Hd as [Hd _]].
      destruct Hfr as [->|([|d f] & -> & Hf & Hfd)]; [done|done|]. apply Forall_cons_1 in Hfd as [Hdd _].
      exists 46, (d :: f ++ r). split; [done|]. right. split; [done|]. by exists d, (f ++ r). }
    destruct Hl as [ds fr Hd Hfr Hne|ds fr ex Hd Hfr Hne _]; rewrite <- ?app_assoc; by apply Hman. }
  destruct Hstart as (c & r & -> & Hn). unfold kind_of. destruct Hn as [Hc|(-> & d & r' & -> & Hd)].
  - rewrite (digit_not_newline c Hc), Hc. unfold AIsDigit, is_blank in *.
    by rewrite (proj2 (Z.eqb_neq c 59)), (proj2 (Z.eqb_neq c 32)), (proj2 (Z.eqb_neq c 9)), (proj2 (Z.eqb_neq c 34)),
      (proj2 (Z.eqb_neq c 39)) by lia.
  - simpl. by rewrite Hd.
Qed.

Lemma kind_symbol c p : IsIdChar c = true -> AIsDigit c = false -> kind_of (c :: p) = KSymbol.
Proof.
  intros Hc Hd. unfold kind_of. rewrite (idchar_not_newline c Hc), Hd, Hc. unfold IsIdChar, is_blank in *.
  by rewrite (proj2 (Z.eqb_neq c 59)), (proj2 (Z.eqb_neq c 32)), (proj2 (Z.eqb_neq c 9)), (proj2 (Z.eqb_neq c 34)),
      (proj2 (Z.eqb_neq c 39)), (proj2 (Z.eqb_neq c 46)) by lia.
Qed.

(** The characters that punctuators start with. *)
Definition punct_char (c : Z) : bool :=
  negb (is_newline c || (c =? 59) || is_blank c || (c =? 34) || (c =? 39) || IsIdChar c).

Lemma punct_head p t q : match_punct p = Some (t, q) -> exists c r, p = c :: r /\ punct_char c = true.
Proof.
  unfold match_punct. destruct (find _ punct_table) as [e|] eqn:Hf; [|done]. intros _.
  apply find_some in Hf as [Hin Hpre].
  assert (Hall : Forall (fun e => exists c r, e.1 = c :: r /\ punct_char c = true) punct_table)
    by (repeat (constructor; [by do 2 eexists|]); constructor).
  rewrite Forall_forall in Hall. destruct (Hall e Hin) as (c & r & He & Hc). rewrite He in Hpre.
  destruct p as [|d p]; [done|]. simpl in Hpre. apply andb_true_iff in Hpre as [->%Z.eqb_eq _]. by exists c, p.
Qed.

Lemma kind_other c p :
  punct_char c = true -> ~ number_start c p -> is_prefix [45; 45] (c :: p) = false ->
  kind_of (c :: p) = match match_punct (c :: p) with Some _ => KPunct | None => KOther end.
Proof.
  unfold punct_char. rewrite !negb_orb, !andb_true_iff, !negb_true_iff. intros [[[[[H1 H2] H3] H4] H5] H6] Hn Hcom.
  unfold kind_of. rewrite H1, H2, H3, H4, H5, H6, Hcom. simpl orb.
  assert (AIsDigit c || ((c =? 46) && match p with d :: _ => AIsDigit d | [] => false end) = false) as ->; [|done].
  apply not_true_iff_false. intros [H|[H H']%andb_true_iff]%orb_true_iff; apply Hn; [by left|right].
  split; [lia|]. destruct p as [|d p]; [done|]. by exists d, p.
Qed.

(** ** Comments *)

Lemma utf8_text_app l x : utf8_text l -> utf8_text (l ++ x) -> utf8_text x.
Proof.
  induction 1 as [|c l Hc Hl IH|a l Ha Hl IH]; intros H; [done| |].
  - apply IH. inversion H as [|c' l' _ Hl' Heq|b l' Hb Hl' Heq]; [done|]. exfalso.
    destruct (utf8_seq_head 34 (or_introl eq_refl) b Hb) as (y & z & -> & Hy). injection Heq as <- _. lia.
  - apply IH. rewrite <- app_assoc in H. inversion H as [Hn|c' l' Hc' Hl' Heq|b l' Hb Hl' Heq].
    + by destruct Ha.
    + destruct (utf8_seq_head 34 (or_introl eq_refl) a Ha) as (y & z & -> & Hy). injection Heq as <- _. lia.
    + by destruct (utf8_seq_det 34 (or_introl eq_refl) b a l' (l ++ x) Hb Ha Heq) as [_ <-].
Qed.

Lemma first_newline_det p q q' : stays p q -> newline_head q -> stays p q' -> newline_head q' -> q = q'.
Proof.
  intros (l & -> & Hl) (c & r & -> & Hc) (l' & Heq & Hl') (c' & r' & -> & Hc'). revert l' Heq Hl'.
  induction Hl as [|x l Hx Hl IH]; intros l' Heq Hl'; destruct l' as [|x' l']; simpl in Heq; simplify_eq; try done.
  - apply Forall_cons_1 in Hl' as [Hx _]. congruence.
  - congruence.
  - apply (IH l'); [done|]. by apply Forall_cons_1 in Hl' as [_ ?].
Qed.

(** A comment is right or wrong. *)
Lemma comment_exclusive enc p l l' p' q :
  45 :: p = l ++ q -> comment_ok enc l -> newline_head q ->
  45 :: p = l' ++ p' -> comment_ok enc l' -> bad_char enc p' -> stays p' q -> False.
Proof.
  intros Hl Hok (c & r & -> & Hc) Hl' Hok' (d & p2 & -> & Hd & Hbad) (x & Hx & Hxl). destruct x as [|y x].
  { injection Hx as <- _. unfold is_newline in Hc. lia. }
  injection Hx as <- Hx. rewrite Hl' in Hl. rewrite Hx in Hl. change (d :: x ++ c :: r) with ((d :: x) ++ c :: r) in Hl.
  rewrite app_assoc in Hl. apply app_inv_tail in Hl. subst l.
  destruct Hbad as [->|[-> Hno]]; simpl in Hok, Hok'.
  - apply Forall_app in Hok as [_ Hok]. apply Forall_cons_1 in Hok as [Hok _]. lia.
  - apply utf8_text_app in Hok; [|done]. inversion Hok as [|c' l2 Hc' _ Heq|a l2 Ha _ Heq]; [lia|].
    apply (Hno a (l2 ++ c :: r)); [|done]. rewrite app_assoc, Heq. by rewrite Hx.
Qed.

(** ** One token *)

Section unique.
Context (strtod : list Z -> spec_float) (s : LexState).

(** What a token of each kind is. *)
Definition rule (pt : ATokenType) (st : lstate) (p q : list Z) (st' : lstate) (t : ATokenType) (i : ATokenInfo) : Prop :=
  match kind_of p with
  | KNewline => newline_text p q /\ IgnoreNewLine pt = false /\ st' = st /\ t = TT_NEWLINE
  | KSemicolon => p = 59 :: q /\ pt <> TT_NEWLINE /\ st' = st /\ t = TT_NEWLINE
  | KString => exists quote r us p', p = quote :: r /\ (quote = 34 \/ quote = 39) /\ lit_body (ls_encoding st) quote r us p' /\
      st' = st /\
      ((exists n, p' = quote :: q /\ head q <> Some quote /\ constant s n (ConstStr (lit_string quote us)) /\
        t = TT_LITERAL_STRING /\ i = InfoNum n) \/
       bad_char (ls_encoding st) p' /\ q = r /\ t = string_error (ls_encoding st) \/
       (exists c r', p' = c :: r' /\ is_newline c = true) /\ q = r /\ t = TT_ERR_STRING_UNTERMINATED)
  | KNumber => exists l r, longest_number p l r /\ st' = st /\
      ((exists v, r = q /\ id_end q = true /\ digits l /\ int_repr v (decimal l 0) /\
        (in_token v = true /\ t = TT_LITERAL_INT /\ i = InfoVal v \/
         exists n, in_token v = false /\ constant s n (ConstNum v) /\ t = TT_LITERAL_FLOAT /\ i = InfoNum n)) \/
       (exists n, r = q /\ id_end q = true /\ ~ digits l /\ zlen l <= MAX_FLOAT_LEN /\
        constant s n (ConstNum (VFloat (strtod l))) /\ t = TT_LITERAL_FLOAT /\ i = InfoNum n) \/
       ((id_end r = false \/ ~ digits l /\ MAX_FLOAT_LEN < zlen l) /\ t = TT_ERR_INVALID_NUMERIC /\
        exists id, behind_exp l r = id ++ q /\ Forall (fun c => IsIdChar c = true) id /\ id_end q = true))
  | KSymbol => exists id sym, p = id ++ q /\ Forall (fun c => IsIdChar c = true) id /\ id_end q = true /\
      sym ∈ concat (ASym (symtab s)) /\ str sym = id /\ i = InfoSym (sym_addr sym) /\
      (id ∈ ls_names st /\ st' = next_encoding s st sym /\ t = sym_type sym \/
       (id ∉ ls_names st) /\ st' = new_name st id /\ t = TT_ID)
  | KComment => exists r l p', p = 45 :: 45 :: r /\ 45 :: r = l ++ p' /\ comment_ok (ls_encoding st) l /\
      bad_char (ls_encoding st) p' /\ stays r q /\ stays p' q /\ newline_head q /\ st' = st /\
      t = comment_error (ls_encoding st)
  | KPunct => match_punct p = Some (t, q) /\ st' = st
  | KOther => (exists c, p = c :: q) /\ st' = st /\ t = TT_ERR_UNRECOGNIZED_CHAR
  | KBlank | KNone => False
  end.

Lemma lexeme_rule pt st p q st' t i : lexeme strtod s pt st p q st' t i -> rule pt st p q st' t i.
Proof.
  unfold rule. destruct 1 as [p q i Hn Hi|q i Hpt|quote p us q n Hq Hb Hh Hc|quote p us p' i Hq Hb Hbad|quote p us c p' i Hq Hb Hc
    |p l q v Hl Hid Hd Hv Ht|p l q v n Hl Hid Hd Hv Ht Hc|p l q n Hl Hid Hd Hlen Hc|p l r id q i Hl Hor Hbe Hall Hid
    |c id q sym Hc Hd Hid Hq Hin Hstr Hk|c id q sym Hc Hd Hid Hq Hin Hstr Ht Hk|p l p' q i Hl Hok Hbad Hst Hst' Hh
    |p t q i Hm Hcom Hn|c p i Hc Hm].
  - by rewrite (kind_newline _ _ Hn).
  - done.
  - rewrite (kind_string _ _ Hq). exists quote, p, us, (quote :: q). split_and!; [done..|]. left. by exists n.
  - rewrite (kind_string _ _ Hq). exists quote, p, us, p'. split_and!; [done..|]. auto.
  - rewrite (kind_string _ _ Hq). exists quote, p, us, (c :: p'). split_and!; [done..|]. right. right. split_and!; [|done..]. eauto.
  - rewrite (kind_number _ _ _ Hl). exists l, q. split_and!; [done..|]. left. exists v. split_and!; auto.
  - rewrite (kind_number _ _ _ Hl). exists l, q. split_and!; [done..|]. left. exists v. split_and!; [done..|]. right. by exists n.
  - rewrite (kind_number _ _ _ Hl). exists l, q. split_and!; [done..|]. right. left. by exists n.
  - rewrite (kind_number _ _ _ Hl). exists l, r. split_and!; [done..|]. right. right. split_and!; [done..|]. by exists id.
  - rewrite (kind_symbol _ _ Hc Hd). exists (c :: id), sym. split_and!; try done; [by constructor|]. auto.
  - rewrite (kind_symbol _ _ Hc Hd). exists (c :: id), sym. split_and!; try done; [by constructor|]. auto.
  - simpl. by exists p, l, p'.
  - destruct (punct_head _ _ _ Hm) as (c & r & -> & Hc). by rewrite (kind_other c r Hc Hn Hcom), Hm.
  - assert (Hc' : punct_char c = true) by (rewrite <- Hc; unfold punct_char, other_char, is_blank; by rewrite !orb_assoc).
    assert (Hx : IsIdChar c = false) by (unfold other_char in Hc; destruct (IsIdChar c); [lia|done]).
    rewrite (kind_other c p Hc'), Hm; [by eauto| |].
    + intros [Hd|[-> _]]; [unfold IsIdChar, AIsDigit in *; lia|by unfold match_punct in Hm].
    + destruct (Z.eqb_spec c 45) as [->|Hne]; [destruct p as [|d p]; [done|]; unfold match_punct in Hm; simpl in Hm; by destruct (d =? 61)|].
      simpl. by rewrite (proj2 (Z.eqb_neq c 45)).
Qed.

(** Two tokens at the same place. *)
Definition agree (q1 : list Z) (st1 : lstate) (t1 : ATokenType) (i1 : ATokenInfo) (q2 : list Z)
    (st2 : lstate) (t2 : ATokenType) (i2 : ATokenInfo) : Prop :=
  q1 = q2 /\ st1 = st2 /\ t1 = t2 /\ same_info s t1 i1 i2.

Lemma agree_no_info q st t i1 i2 : no_info t = true -> agree q st t i1 q st t i2.
Proof. intros H. split_and!; [done..|by left]. Qed.

Lemma newline_text_det p q q' : newline_text p q -> newline_text p q' -> q = q'.
Proof. intros H H'. destruct H; inversion H'; subst; simpl in *; congruence. Qed.

Lemma id_prefix_det id q id' q' :
  id ++ q = id' ++ q' -> Forall (fun c => IsIdChar c = true) id -> Forall (fun c => IsIdChar c = true) id' ->
  id_end q = true -> id_end q' = true -> id = id' /\ q = q'.
Proof.
  intros Heq Hid. revert id' Heq. induction Hid as [|c id Hc Hid IH]; intros [|c' id'] Heq Hid' Hq Hq'; simpl in Heq.
  - done.
  - subst q. apply Forall_cons_1 in Hid' as [Hc' _]. cbn [id_end] in Hq. by rewrite Hc' in Hq.
  - subst q'. cbn [id_end] in Hq'. by rewrite Hc in Hq'.
  - injection Heq as -> Heq. apply Forall_cons_1 in Hid' as [_ Hid']. by destruct (IH id' Heq Hid' Hq Hq') as [-> ->].
Qed.

Lemma in_token_det v v' z : int_repr v z -> int_repr v' z -> in_token v = true -> v = v'.
Proof.
  destruct v as [w| | | |], v' as [w'| | | |]; simpl; try done.
  - by intros [-> _] [-> _].
  - intros [_ Hr] Hn _. by destruct Hn as (_ & Hn & _).
Qed.

Lemma string_det pt st p q1 q2 st1 st2 t1 t2 i1 i2 :
  kind_of p = KString -> rule pt st p q1 st1 t1 i1 -> rule pt st p q2 st2 t2 i2 -> agree q1 st1 t1 i1 q2 st2 t2 i2.
Proof.
  unfold rule. intros ->. intros (quote & r & us & p1 & -> & Hq & Hb1 & -> & H1) (quote' & r' & us2 & p2 & [= <- <-] & _ & Hb2 & -> & H2).
  assert (Hstop : forall p', (exists q, p' = quote :: q /\ head q <> Some quote) \/ bad_char (ls_encoding st) p' \/
    (exists c r', p' = c :: r' /\ is_newline c = true) -> lit_stop (ls_encoding st) quote p').
  { intros p' [(q & -> & Hh)|[Hbad|(c & r' & -> & Hc)]]; [left; exists quote, q; auto|by right|left; exists c, r'; auto]. }
  assert (Hs1 : lit_stop (ls_encoding st) quote p1) by (apply Hstop; destruct H1 as [(n & -> & Hh & _)|[[Hbad _]|[Hn _]]]; eauto).
  assert (Hs2 : lit_stop (ls_encoding st) quote p2) by (apply Hstop; destruct H2 as [(n & -> & Hh & _)|[[Hbad _]|[Hn _]]]; eauto).
  destruct (body_det _ _ Hq _ _ _ Hb1 Hs1 _ _ Hb2 Hs2) as [<- <-].
  assert (Hxq : forall q, p1 = quote :: q -> ~ bad_char (ls_encoding st) p1).
  { intros q -> (c & q' & [= <- _] & Hge & _). destruct Hq; lia. }
  assert (Hxn : (exists c r', p1 = c :: r' /\ is_newline c = true) -> ~ bad_char (ls_encoding st) p1).
  { intros (c & r' & -> & Hc) (c' & q' & [= <- _] & Hge & _). unfold is_newline in Hc. lia. }
  assert (Hqn : forall q, p1 = quote :: q -> ~ (exists c r', p1 = c :: r' /\ is_newline c = true)).
  { intros q -> (c & r' & [= <- _] & Hc). destruct Hq as [->| ->]; done. }
  destruct H1 as [(n & E1 & _ & C1 & -> & ->)|[(B1 & -> & ->)|(N1 & -> & ->)]],
    H2 as [(n2 & E2 & _ & C2 & -> & ->)|[(B2 & -> & ->)|(N2 & -> & ->)]]; try solve [destruct (Hxq _ E1 B2)|destruct (Hxq _ E2 B1)|destruct (Hqn _ E1 N2)|destruct (Hqn _ E2 N1)
             |destruct (Hxn N1 B2)|destruct (Hxn N2 B1)].
  - rewrite E1 in E2. injection E2 as <-. split_and!; [done..|]. right. right.
    exists n, n2, (ConstStr (lit_string quote us)), (ConstStr (lit_string quote us)). split_and!; [done..|by left].
  - apply agree_no_info. by destruct (ls_encoding st).
  - by apply agree_no_info.
Qed.

Lemma number_det pt st p q1 q2 st1 st2 t1 t2 i1 i2 :
  kind_of p = KNumber -> rule pt st p q1 st1 t1 i1 -> rule pt st p q2 st2 t2 i2 -> agree q1 st1 t1 i1 q2 st2 t2 i2.
Proof.
  unfold rule. intros ->. intros (l & r & Hl & -> & H1) (l' & r' & Hl' & -> & H2).
  destruct (longest_number_det _ _ _ _ _ Hl Hl') as [<- <-].
  destruct H1 as [(v & <- & E1 & D1 & V1 & H1)|[(n & <- & E1 & D1 & L1 & C1 & -> & ->)|(B1 & -> & id & I1 & A1 & E1)]],
    H2 as [(v2 & <- & E2 & D2 & V2 & H2)|[(n2 & <- & E2 & D2 & L2 & C2 & -> & ->)|(B2 & -> & id2 & I2 & A2 & E2)]];
    try (exfalso; try done; destruct B1 as [|[? ?]]; (congruence || lia || done));
    try (exfalso; try done; destruct B2 as [|[? ?]]; (congruence || lia || done)).
  - destruct H1 as [(T1 & -> & ->)|(n & T1 & C1 & -> & ->)], H2 as [(T2 & -> & ->)|(n2 & T2 & C2 & -> & ->)].
    + rewrite (in_token_det v v2 _ V1 V2 T1). split_and!; [done..|]. right. by left.
    + rewrite (in_token_det v v2 _ V1 V2 T1) in T1. congruence.
    + rewrite (in_token_det v2 v _ V2 V1 T2) in T2. congruence.
    + split_and!; [done..|]. right. right. exists n, n2, (ConstNum v), (ConstNum v2). split_and!; [done..|]. right.
      exists v, v2, (decimal l 0). done.
  - split_and!; [done..|]. right. right. eexists n, n2, _, _. split_and!; [done|done|exact C1|exact C2|by left].
  - rewrite I1 in I2. destruct (id_prefix_det id q1 id2 q2 I2 A1 A2 E1 E2) as [_ ->]. by apply agree_no_info.
Qed.

Lemma symbol_det pt st p q1 q2 st1 st2 t1 t2 i1 i2 :
  NoDup (str <$> concat (ASym (symtab s))) ->
  kind_of p = KSymbol -> rule pt st p q1 st1 t1 i1 -> rule pt st p q2 st2 t2 i2 -> agree q1 st1 t1 i1 q2 st2 t2 i2.
Proof.
  intros names_unique. unfold rule. intros ->. intros (id & sym & -> & A1 & E1 & S1 & N1 & -> & H1) (id2 & sym2 & Heq & A2 & E2 & S2 & N2 & -> & H2).
  destruct (id_prefix_det id q1 id2 q2 Heq A1 A2 E1 E2) as [<- <-].
  rewrite (names_inj _ sym sym2 names_unique S1 S2) in * by congruence.
  destruct H1 as [(K1 & -> & ->)|(K1 & -> & ->)], H2 as [(K2 & -> & ->)|(K2 & -> & ->)]; try done;
    split_and!; try done; right; by left.
Qed.

(** At most one token starts at a place. *)
Lemma lexeme_unique pt st p q1 q2 st1 st2 t1 t2 i1 i2 :
  NoDup (str <$> concat (ASym (symtab s))) ->
  lexeme strtod s pt st p q1 st1 t1 i1 -> lexeme strtod s pt st p q2 st2 t2 i2 -> agree q1 st1 t1 i1 q2 st2 t2 i2.
Proof.
  intros Hnd H1%lexeme_rule H2%lexeme_rule. destruct (kind_of p) eqn:Hk;
    [| | | |by eapply string_det|by eapply number_det|by eapply symbol_det|..]; unfold rule in H1, H2; rewrite Hk in H1, H2.
  - done.
  - destruct H1 as (N1 & _ & -> & ->), H2 as (N2 & _ & -> & ->). rewrite (newline_text_det _ _ _ N1 N2). by apply agree_no_info.
  - destruct H1 as (-> & _ & -> & ->), H2 as ([= ->] & _ & -> & ->). by apply agree_no_info.
  - done.
  - destruct H1 as (r & l & p' & -> & _ & _ & _ & S1 & _ & N1 & -> & ->), H2 as (r2 & _ & _ & [= <-] & _ & _ & _ & S2 & _ & N2 & -> & ->).
    rewrite (first_newline_det _ _ _ S1 N1 S2 N2). apply agree_no_info. by destruct (ls_encoding st).
  - destruct H1 as [H1 ->], H2 as [H2 ->]. rewrite H1 in H2. injection H2 as <- <-. apply agree_no_info.
    unfold match_punct in H1. destruct (find _ punct_table) as [e|] eqn:Hf; [|done]. injection H1 as <- _.
    apply find_some in Hf as [Hin _]. unfold no_info. rewrite (bool_decide_eq_true_2 (e.2 ∈ _)), orb_true_r; [done|].
    apply list_elem_of_fmap. exists e. split; [done|]. by apply list_elem_of_In.
  - destruct H1 as ((c & ->) & -> & ->), H2 as ((c2 & [= _ ->]) & -> & ->). by apply agree_no_info.
Qed.

(** ** Gaps *)

Lemma gap_unique pt enc p q1 q2 : gap pt enc p q1 -> gap pt enc p q2 -> q1 = q2.
Proof.
  assert (Hgap : forall q, gap pt enc p q ->
    (newline_text p q /\ kind_of p = KNewline) \/ (exists c, p = c :: q /\ kind_of p <> KNewline /\ kind_of p <> KComment) \/
    (exists r, p = 45 :: 45 :: r /\ stays r q /\ newline_head q /\ kind_of p = KComment)).
  { intros q [c r Hc|r q' Hn _|r _|r l q' _ _ Hh Hs].
    - right. left. exists c. unfold is_blank in Hc. assert (c = 32 \/ c = 9) as [->| ->] by lia; done.
    - left. by rewrite (kind_newline _ _ Hn).
    - right. left. by exists 59.
    - right. right. by exists r. }
  intros [[H1 K1]|[(c & H1 & K1 & K1')|(r & H1 & S1 & N1 & K1)]]%Hgap
    [[H2 K2]|[(c2 & H2 & K2 & K2')|(r2 & H2 & S2 & N2 & K2)]]%Hgap; try congruence.
  - by eapply newline_text_det.
  - rewrite H1 in H2. injection H2 as <-. by eapply first_newline_det.
Qed.

Lemma gap_no_lexeme pt st p q q' st' t i : gap pt (ls_encoding st) p q -> ~ lexeme strtod s pt st p q' st' t i.
Proof.
  intros Hg Hl%lexeme_rule. unfold rule in Hl. destruct Hg as [c q Hc|p q Hn Hi|q Hpt|p l q Heq Hok Hh Hs].
  - unfold is_blank in Hc. assert (c = 32 \/ c = 9) as [->| ->] by lia; done.
  - rewrite (kind_newline _ _ Hn) in Hl. destruct Hl as (_ & Hx & _). congruence.
  - simpl in Hl. by destruct Hl as (_ & Hx & _).
  - simpl in Hl. destruct Hl as (r & l' & p' & [= <-] & Hl' & Hok' & Hbad & Hs2 & Hs' & Hh' & _).
    destruct (first_newline_det _ _ _ Hs Hh Hs2 Hh').
    exact (comment_exclusive _ _ _ _ _ _ Heq Hok Hh Hl' Hok' Hbad Hs').
Qed.

(** ** The tokens of a text *)

Section run.
Context (pt : ATokenType) (line0 : Z) (src0 : list Z) (st0 : lstate).

(** [lexed] with the number of tokens and gaps. *)
Inductive lexed_in : nat -> list AToken -> list Z -> lstate -> Prop :=
  | in_start : lexed_in 0 [] src0 st0
  | in_gap n toks src src' st :
      lexed_in n toks src st -> gap (last_type pt toks) (ls_encoding st) src src' -> lexed_in (S n) toks src' st
  | in_token n toks src src' st st' t :
      lexed_in n toks src st -> lexeme strtod s (last_type pt toks) st src src' st' (type t) (info t) ->
      tokLine t = u16 (line0 + newlines src0 - newlines src) -> lexed_in (S n) (toks ++ [t]) src' st'.

Lemma lexed_count toks src st : lexed strtod s pt line0 src0 st0 toks src st -> exists n, lexed_in n toks src st.
Proof.
  induction 1 as [|toks src src' st _ [n IH] Hg|toks src src' st st' t _ [n IH] Hl Ht]; [exists 0%nat; constructor| |];
    exists (S n); [by eapply in_gap|by eapply in_token].
Qed.

Lemma same_last_type toks1 toks2 : Forall2 (same_token s) toks1 toks2 -> last_type pt toks1 = last_type pt toks2.
Proof.
  intros H. assert (He : type <$> toks1 = type <$> toks2).
  { induction H as [|t1 t2 l1 l2 (Ht & _) _ IH]; [done|]. rewrite !fmap_cons. by f_equal. }
  apply (f_equal list.last) in He. rewrite !fmap_last in He. unfold last_type.
  destruct (list.last toks1), (list.last toks2); simpl in He; congruence.
Qed.

Lemma lexed_in_unique n : NoDup (str <$> concat (ASym (symtab s))) -> forall toks1 toks2 src1 src2 st1 st2,
  lexed_in n toks1 src1 st1 -> lexed_in n toks2 src2 st2 -> Forall2 (same_token s) toks1 toks2 /\ src1 = src2 /\ st1 = st2.
Proof.
  intros Hnd. induction n as [|n IH]; intros toks1 toks2 src1 src2 st1 st2 H1 H2.
  { inversion H1; inversion H2; subst. split_and!; [constructor|done|done]. }
  inversion H1 as [|n1 k1 p1 q1 s1 L1 G1|n1 k1 p1 q1 s1 s1' t1 L1 X1 E1]; subst;
    inversion H2 as [|n2 k2 p2 q2 s2 L2 G2|n2 k2 p2 q2 s2 s2' t2 L2 X2 E2]; subst;
    destruct (IH _ _ _ _ _ _ L1 L2) as (Hk & <- & <-); pose proof (same_last_type _ _ Hk) as Hlast; rewrite <- Hlast in *.
  - split_and!; [done| |done]. by eapply gap_unique.
  - by destruct (gap_no_lexeme _ _ _ _ _ _ _ _ G1 X2).
  - by destruct (gap_no_lexeme _ _ _ _ _ _ _ _ G2 X1).
  - destruct (lexeme_unique _ _ _ _ _ _ _ _ _ _ _ Hnd X1 X2) as (-> & -> & Ht & Hi). split_and!; [|done|done].
    apply Forall2_app; [done|]. constructor; [|constructor]. split_and!; [done|congruence|done].
Qed.

(** Nothing follows the end of the text. *)
Lemma lexed_in_before n m toks src st : lexed_in n toks src st -> (m < n)%nat ->
  exists toks' src' st', lexed_in m toks' src' st' /\ src' <> [].
Proof.
  induction 1 as [|n toks src src' st Hl IH Hg|n toks src src' st st' t Hl IH Hx Ht]; [lia|..]; intros Hm;
    (destruct (decide (m = n)) as [->|]; [|apply IH; lia]); exists toks, src, st; (split; [done|]); intros ->.
  - inversion Hg as [|p q Hn| |]; subst. inversion Hn.
  - by apply lexeme_rule in Hx.
Qed.

(** Two token lists for a whole text have the same tokens. *)
Lemma lexed_unique toks1 toks2 st1 st2 :
  NoDup (str <$> concat (ASym (symtab s))) ->
  lexed strtod s pt line0 src0 st0 toks1 [] st1 -> lexed strtod s pt line0 src0 st0 toks2 [] st2 ->
  Forall2 (same_token s) toks1 toks2 /\ st1 = st2.
Proof.
  intros Hnd [n1 H1]%lexed_count [n2 H2]%lexed_count.
  assert (Hno : forall n m k1 k2 s1 s2, lexed_in n k1 [] s1 -> lexed_in m k2 [] s2 -> ~ (n < m)%nat).
  { intros n m k1 k2 s1 s2 L1 L2 Hlt. destruct (lexed_in_before _ _ _ _ _ L2 Hlt) as (k & src & st & L & Hne).
    by destruct (lexed_in_unique n Hnd _ _ _ _ _ _ L1 L) as (_ & <- & _). }
  pose proof (Hno _ _ _ _ _ _ H1 H2). pose proof (Hno _ _ _ _ _ _ H2 H1). assert (n1 = n2) as -> by lia.
  by destruct (lexed_in_unique n2 Hnd _ _ _ _ _ _ H1 H2) as (? & _ & ?).
Qed.

End run.
End unique.
