(* ===== verification/LexInit.v ===== *)
(** * LexInit: the predefined words and the tokenization of strings

    [AInitializeSymbolTable] of [symtable.c] up to the members, which belong to
    the parser, and [ATokenizeStr] of [lex.c]. *)

From Stdlib Require Import SpecFloat String Ascii.
From S2P Require Import Prelude Runtime Digits Value StrOps Tokens SymTable Lexer LexText.
From S2P Require Import LexSpec LexerSpec.

Open Scope Z_scope.

(** ** The predefined words *)

Definition characters (s : string) : list Z := (fun c => Z.of_nat (nat_of_ascii c)) <$> list_ascii_of_string s.

Definition PredefinedWords : list Z := characters
  "if else elif end while repeat until for switch case sub var const return break private class try except finally raise self module import div mod and or in is not nil super to encoding def interface implements as dynamic bind Main ascii latin1 utf8 create _call _add _sub _mul _div _idiv _mod _pow _eq _lt _gt _get _set _neg _write _read flush eof readLn close iterator hasNext next length _in _str _repr _int _float _hash _dummy "%string
  ++ [10].

Definition ReservedWordType : list ATokenType :=
  [TT_IF; TT_ELSE; TT_ELIF; TT_END; TT_WHILE; TT_REPEAT; TT_UNTIL; TT_FOR; TT_SWITCH; TT_CASE; TT_SUB; TT_VAR;
   TT_CONST; TT_RETURN; TT_BREAK; TT_PRIVATE; TT_CLASS; TT_TRY; TT_EXCEPT; TT_FINALLY; TT_RAISE; TT_SELF; TT_MODULE;
   TT_IMPORT; TT_IDIV; TT_MOD; TT_AND; TT_OR; TT_IN; TT_IS; TT_NOT; TT_NIL; TT_SUPER; TT_TO; TT_ENCODING; TT_DEF;
   TT_INTERFACE; TT_IMPLEMENTS; TT_AS; TT_DYNAMIC; TT_BIND].

(** [tok->info.sym] of the token at a position. *)
Definition token_sym (p : nat * nat) : SM LexState Z :=
  s ← get;
  match (b ← blocks (tokens s) !! p.1; b !! p.2) with
  | Some t => match info t with InfoSym a => mret a | _ => lift fault end
  | None => lift fault
  end.

Definition advance (p : nat * nat) : SM LexState (nat * nat) :=
  s ← get; match AAdvanceTok (tokens s) p with Some q => mret q | None => lift fault end.

(** The loop that marks the reserved words. *)
Fixpoint mark_words (types : list ATokenType) (tok : nat * nat) : SM LexState (nat * nat) :=
  match types with
  | [] => mret tok
  | type :: types =>
    a ← token_sym tok;
    with_symtab (modify (set_sym_type a type)) ≫= (fun _ =>
    tok ← advance tok;
    mark_words types tok)
  end.

(** [AInitializeSymbolTable()] up to the member symbols; [AMainSymbol] and
    [ACreateSymbol], which the lexer does not use, are not kept. *)
Definition AInitializeSymbolTable (strtod : list Z -> spec_float) : SM LexState unit :=
  table ← lift empty_symtab;
  with_symtab (modify (fun _ => table)) ≫= (fun _ =>
  with_tokens (modify (fun _ => MkTokens [] 0)) ≫= (fun _ =>
  ATokenize strtod PredefinedWords None ≫= (fun _ =>
  tok ← mark_words ReservedWordType (0%nat, 0%nat);
  main ← token_sym tok;
  tok ← advance tok;
  ascii ← token_sym tok;
  tok ← advance tok;
  latin1 ← token_sym tok;
  tok ← advance tok;
  utf8 ← token_sym tok;
  modify (fun s => MkLex (MkTokens [] 0) (symtab s) (Some latin1) (Some utf8) (Some ascii) (constants s)
    (lineNumber s) (encoding s) (isPreviousSymbolEncoding s))))).

(** The words and the types the lexer gives them. *)
Definition word_type (s : LexState) (w : string) : option ATokenType := sym_type <$> AFindSymbol (symtab s) (characters w).
Definition word_sym (s : LexState) (w : string) : option Z := sym_addr <$> AFindSymbol (symtab s) (characters w).

Example predefined_words :
  let '(r, s) := srun (AInitializeSymbolTable (fun _ => S754_zero false)) (MkLex (MkTokens [] 0) (MkSymTab 0 0 [])
    None None None [] 0 AENC_UTF8 false) in
  r = Ok tt /\ NumSyms (symtab s) = 77 /\
  word_type s "if" = Some TT_IF /\ word_type s "bind" = Some TT_BIND /\ word_type s "div" = Some TT_IDIV /\
  word_type s "encoding" = Some TT_ENCODING /\ word_type s "create" = Some TT_ID /\ word_type s "foo" = None /\
  ALatin1Symbol s = word_sym s "latin1" /\ AUtf8Symbol s = word_sym s "utf8" /\ AAsciiSymbol s = word_sym s "ascii".
Proof. vm_compute. repeat split. Qed.

(** ** Strings *)

Definition A_TOKENIZE_BUF_LENGTH : Z := 256.

(** [ATokenizeStr(str, tok)]: the buffer has [A_TOKENIZE_BUF_LENGTH + 1]
    bytes, and two bytes are stored behind the string. *)
Definition ATokenizeStr (strtod : list Z -> spec_float) (str : list Z) : SM LexState bool :=
  let size := A_TOKENIZE_BUF_LENGTH + 1 in
  with_tokens (modify (fun _ => MkTokens [] 0)) ≫= (fun _ =>
  if size - 1 <? zlen str then mret false
  else
    (if size <? zlen str + 2 then lift fault else mret tt) ≫= (fun _ =>
    ATokenize strtod (str ++ [10]) None ≫= (fun _ => mret true))).

(** A string that fills the buffer is let through. *)
Lemma ATokenizeStr_overflow strtod s str :
  zlen str = 256 -> (srun (ATokenizeStr strtod str) s).1 = Fault.
Proof. intros Hl. unfold ATokenizeStr, srun. simpl. unfold mbind, SM_bind, with_tokens, modify. rewrite Hl. done. Qed.
