(* ===== verification/StrRepr.v ===== *)
(** * StrRepr: the representation of a string

    [AStrRepr] of [std_str.c], which makes of a string a literal of the
    language, and its correctness against the lexer: the literal stands for
    the string unless the string holds a sequence [\uXXXX] itself. *)

From S2P Require Import Prelude Runtime Digits Value IntConv Encodings EncodingsSpec StrOps.
From S2P Require Import StrSpec Tokens SymTable Lexer LexText LexLiteral.

Open Scope Z_scope.

(** ** Definitions *)

(** The loop that looks for quotes. *)
Fixpoint find_quotes (n : nat) (str : StrObj) (i : Z) (hasSingleQuote hasDoubleQuote : bool) : M (bool * bool) :=
  match n with
  | O => mret (hasSingleQuote, hasDoubleQuote)
  | S n =>
    item ← char_at str i;
    if item =? 39 then find_quotes n str (i + 1) true hasDoubleQuote
    else if item =? 34 then find_quotes n str (i + 1) hasSingleQuote true
    else find_quotes n str (i + 1) hasSingleQuote hasDoubleQuote
  end.

(** The loop that computes the length of the result. *)
Fixpoint repr_length (n : nat) (str : StrObj) (i quote resultLen : Z) : M Z :=
  match n with
  | O => mret resultLen
  | S n =>
    item ← char_at str i;
    repr_length n str (i + 1) quote
      (if (item <? 32) || (127 <=? item) then resultLen + 6
       else if item =? quote then resultLen + 2 else resultLen + 1)
  end.

(** Stores from index [ri] on. *)
Fixpoint put_chars (dst : StrObj) (ri : Z) (l : list Z) : M StrObj :=
  match l with
  | [] => mret dst
  | c :: l => dst ← set_char dst ri c; put_chars dst (ri + 1) l
  end.

(** [sprintf(buf, "\\u%04x", ch)] of a character. *)
Definition unicode_escape (ch : Z) : list Z :=
  [92; 117; digit_char (ch / 4096 mod 16); digit_char (ch / 256 mod 16); digit_char (ch / 16 mod 16); digit_char (ch mod 16)].

Fixpoint repr_loop (n : nat) (str : StrObj) (i quote : Z) (dst : StrObj) (ri : Z) : M (StrObj * Z) :=
  match n with
  | O => mret (dst, ri)
  | S n =>
    ch ← char_at str i;
    if (ch <? 32) || (127 <=? ch) then
      dst ← put_chars dst ri (unicode_escape ch);
      repr_loop n str (i + 1) quote dst (ri + 6)
    else
      dst ← set_char dst ri ch;
      if ch =? quote then
        dst ← set_char dst (ri + 1) ch;
        repr_loop n str (i + 1) quote dst (ri + 2)
      else repr_loop n str (i + 1) quote dst (ri + 1)
  end.

Definition AStrRepr (str : StrObj) : M StrObj :=
  let len := AStrLen str in
  q ← find_quotes (Z.to_nat len) str 0 false false;
  let quote := if negb q.1 || q.2 then 39 else 34 in
  resultLen ← repr_length (Z.to_nat len) str 0 quote 2;
  dst ← new_str false resultLen;
  dst ← set_char dst 0 quote;
  r ← repr_loop (Z.to_nat len) str 0 quote dst 1;
  set_char r.1 r.2 quote.

(** ** What it computes *)

Definition repr_quote (l : list Z) : Z :=
  if negb (existsb (Z.eqb 39) l) || existsb (Z.eqb 34) l then 39 else 34.

Definition repr_char (quote ch : Z) : list Z :=
  if (ch <? 32) || (127 <=? ch) then unicode_escape ch else if ch =? quote then [ch; ch] else [ch].

Definition repr_body (quote : Z) (l : list Z) : list Z := concat (repr_char quote <$> l).

Definition repr_text (l : list Z) : list Z := repr_quote l :: repr_body (repr_quote l) l ++ [repr_quote l].

Lemma repr_quote_cases l : repr_quote l = 34 \/ repr_quote l = 39.
Proof. unfold repr_quote. destruct (_ || _); auto. Qed.

Lemma repr_set_char_at done x rest c :
  byte c -> evals (set_char (NarrowStr (done ++ x :: rest)) (zlen done) c) (NarrowStr (done ++ c :: rest)).
Proof.
  intros Hc. unfold set_char. rewrite in_bounds by (rewrite length_app; simpl; lia).
  rewrite upd_at, u8_byte by done. apply evals_ret.
Qed.

Lemma put_chars_at l : forall done junk rest, length junk = length l -> Forall byte l ->
  evals (put_chars (NarrowStr (done ++ junk ++ rest)) (zlen done) l) (NarrowStr (done ++ l ++ rest)).
Proof.
  induction l as [|c l IH]; intros done junk rest Hl Hb.
  { apply nil_length_inv in Hl as ->. apply evals_ret. }
  destruct junk as [|x junk]; [done|]. simpl in Hl.
  apply Forall_cons_1 in Hb as [Hc Hb]. cbn [put_chars app]. eapply evals_bind; [by apply repr_set_char_at|].
  replace (zlen done + 1) with (zlen (done ++ [c])) by (rewrite length_app; simpl; lia).
  replace (done ++ c :: junk ++ rest) with ((done ++ [c]) ++ junk ++ rest) by (by rewrite <- app_assoc).
  replace (done ++ c :: l ++ rest) with ((done ++ [c]) ++ l ++ rest) by (by rewrite <- app_assoc).
  apply IH; [lia|done].
Qed.

Lemma escape_byte ch : wide_char ch -> Forall byte (unicode_escape ch).
Proof.
  intros Hc. assert (Hd : forall x, byte (digit_char (x mod 16))).
  { intros x. unfold digit_char, byte. pose proof (Z.mod_pos_bound x 16). destruct (_ <? 10); lia. }
  unfold unicode_escape. repeat (constructor; [first [apply Hd|unfold byte; lia]|]). constructor.
Qed.

Section string.
Context (str : StrObj) (l : list Z) (Hstr : represents str l).
#[local] Set Default Proof Using "Type".

Lemma char_at_split pre c suf : l = pre ++ c :: suf -> evals (char_at str (zlen pre)) c.
Proof using Hstr.
  destruct Hstr as [Hok Hl]. intros Hs. pose proof (AStrLen_chars str Hok) as Hlen. rewrite Hl, Hs, length_app in Hlen. simpl in Hlen.
  pose proof (char_at_ok str (zlen pre) Hok ltac:(lia)) as He. rewrite Hl, Hs, dg_at in He. done.
Qed.

Lemma find_quotes_spec suf : forall pre a b, l = pre ++ suf ->
  evals (find_quotes (length suf) str (zlen pre) a b) (a || existsb (Z.eqb 39) suf, b || existsb (Z.eqb 34) suf).
Proof using Hstr.
  induction suf as [|c suf IH]; intros pre a b Hs; [simpl; rewrite !orb_false_r; apply evals_ret|].
  cbn [find_quotes length existsb]. eapply evals_bind; [by eapply char_at_split|].
  assert (Hn : zlen pre + 1 = zlen (pre ++ [c])) by (rewrite length_app; simpl; lia). rewrite Hn.
  assert (Hs' : l = (pre ++ [c]) ++ suf) by (by rewrite <- app_assoc).
  destruct (Z.eqb_spec c 39) as [->|H1]; [|destruct (Z.eqb_spec c 34) as [->|H2]].
  - pose proof (IH (pre ++ [39]) true b Hs') as H. by destruct a.
  - pose proof (IH (pre ++ [34]) a true Hs') as H. by destruct b.
  - rewrite (proj2 (Z.eqb_neq 39 c)), (proj2 (Z.eqb_neq 34 c)) by congruence. by apply IH.
Qed.

Lemma repr_length_spec quote suf : forall pre n, l = pre ++ suf ->
  evals (repr_length (length suf) str (zlen pre) quote n) (n + zlen (repr_body quote suf)).
Proof using Hstr.
  induction suf as [|c suf IH]; intros pre n Hs; [simpl; rewrite Z.add_0_r; apply evals_ret|].
  cbn [repr_length length]. eapply evals_bind; [by eapply char_at_split|].
  assert (Hn : zlen pre + 1 = zlen (pre ++ [c])) by (rewrite length_app; simpl; lia). rewrite Hn.
  assert (n + zlen (repr_body quote (c :: suf)) = (n + zlen (repr_char quote c)) + zlen (repr_body quote suf)) as ->.
  { change (repr_body quote (c :: suf)) with (repr_char quote c ++ repr_body quote suf). rewrite length_app. lia. }
  replace (if (c <? 32) || (127 <=? c) then n + 6 else if c =? quote then n + 2 else n + 1)
    with (n + zlen (repr_char quote c)) by (unfold repr_char; destruct (_ || _); [done|]; by destruct (c =? quote)).
  apply IH. by rewrite <- app_assoc.
Qed.

Lemma repr_loop_spec quote suf : forall pre done junk rest,
  l = pre ++ suf -> length junk = length (repr_body quote suf) -> Forall wide_char suf ->
  evals (repr_loop (length suf) str (zlen pre) quote (NarrowStr (done ++ junk ++ rest)) (zlen done))
    (NarrowStr (done ++ repr_body quote suf ++ rest), zlen (done ++ repr_body quote suf)).
Proof using Hstr.
  induction suf as [|c suf IH]; intros pre done junk rest Hs Hj Hw.
  { destruct junk; [|done]. simpl. rewrite app_nil_r. apply evals_ret. }
  apply Forall_cons_1 in Hw as [Hc Hw]. unfold repr_body in Hj. cbn [fmap list_fmap concat] in Hj. rewrite length_app in Hj.
  fold (repr_body quote suf) in Hj.
  rewrite <- (take_drop (length (repr_char quote c)) junk). set (j1 := take _ junk). set (j2 := drop _ junk).
  assert (Hj1 : length j1 = length (repr_char quote c)) by (unfold j1; rewrite length_take; lia).
  assert (Hj2 : length j2 = length (repr_body quote suf)) by (unfold j2; rewrite length_drop; lia).
  assert (Hn : zlen pre + 1 = zlen (pre ++ [c])) by (rewrite length_app; simpl; lia).
  specialize (IH (pre ++ [c]) (done ++ repr_char quote c) j2 rest ltac:(by rewrite <- app_assoc) Hj2 Hw).
  change (repr_body quote (c :: suf)) with (repr_char quote c ++ repr_body quote suf).
  rewrite <- !app_assoc in *. rewrite <- Hn, !length_app in IH.
  cbn [repr_loop length]. eapply evals_bind; [by eapply char_at_split|].
  unfold repr_char in *. destruct ((c <? 32) || (127 <=? c)) eqn:Hesc.
  - eapply evals_bind; [apply (put_chars_at _ done j1 (j2 ++ rest)); [done|by apply escape_byte]|].
    rewrite !length_app. replace (zlen done + 6) with (Z.of_nat (length done + length (unicode_escape c))) by (simpl; lia). exact IH.
  - assert (Hb : byte c) by (unfold byte, wide_char in *; lia). destruct (Z.eqb_spec c quote) as [->|Hq].
    + destruct j1 as [|x [|y [|]]]; try done. cbn [app]. eapply evals_bind; [by apply repr_set_char_at|].
      replace (zlen done + 1) with (zlen (done ++ [quote])) by (rewrite length_app; simpl; lia).
      replace (done ++ quote :: y :: j2 ++ rest) with ((done ++ [quote]) ++ y :: j2 ++ rest) by (by rewrite <- app_assoc).
      eapply evals_bind; [by apply repr_set_char_at|]. rewrite <- app_assoc. cbn [app] in *. rewrite !length_app. simpl in *.
      replace (zlen done + 2) with (Z.of_nat (length done + 2)) by lia. exact IH.
    + destruct j1 as [|x [|]]; try done. cbn [app]. eapply evals_bind; [by apply repr_set_char_at|].
      cbn [app] in *. rewrite !length_app. simpl in *. replace (zlen done + 1) with (Z.of_nat (length done + 1)) by lia. exact IH.
Qed.

Lemma AStrRepr_spec : returns (AStrRepr str) (fun r => r = NarrowStr (repr_text l)).
Proof using Hstr.
  pose proof (represents_wide _ _ Hstr) as Hw. unfold AStrRepr. cbv zeta.
  assert (Z.to_nat (AStrLen str) = length l) as -> by (destruct Hstr as [Hok <-]; rewrite AStrLen_chars by done; lia).
  eapply returns_bind_evals; [by apply (find_quotes_spec l [])|]. cbn [fst snd]. simpl orb. fold (repr_quote l).
  assert (Hqb : byte (repr_quote l)) by (destruct (repr_quote_cases l) as [->| ->]; unfold byte; lia).
  set (q := repr_quote l) in *.
  eapply returns_bind_evals; [by apply (repr_length_spec q l [])|].
  eapply returns_bind; [apply new_str_spec; lia|]. intros d (e & -> & He). cbn [mk].
  assert (exists x body y, e = x :: body ++ [y] /\ length body = length (repr_body q l)) as (x & body & y & -> & Hbody).
  { destruct e as [|x e]; [simpl in He; lia|]. destruct e as [|y body _] using rev_ind; [simpl in He; lia|].
    exists x, body, y. split; [done|]. simpl in He. rewrite length_app in He. simpl in He. lia. }
  eapply returns_bind_evals; [by apply (repr_set_char_at [])|]. cbn [app].
  eapply returns_bind_evals; [by apply (repr_loop_spec q l [] [q] body [y])|]. cbn [fst snd].
  change ([q] ++ repr_body q l ++ [y]) with ((q :: repr_body q l) ++ y :: []).
  eapply evals_returns; [by apply repr_set_char_at|]. done.
Qed.
End string.

(** ** The literal stands for the string *)

Lemma digit_char_hex x : 0 <= x < 16 -> AIsHexDigit (digit_char x) = true /\ AHexDigitToNum (digit_char x) = x.
Proof.
  intros Hx. assert (Hall : Forall (fun x => AIsHexDigit (digit_char x) = true /\ AHexDigitToNum (digit_char x) = x)
    (Z.of_nat <$> seq 0 16)) by (repeat constructor).
  rewrite Forall_forall in Hall. apply Hall, list_elem_of_In, list_elem_of_fmap. exists (Z.to_nat x).
  split; [lia|]. apply elem_of_seq. lia.
Qed.

Definition escape_item (ch : Z) : lit_item :=
  LUni (digit_char (ch / 4096 mod 16)) (digit_char (ch / 256 mod 16)) (digit_char (ch / 16 mod 16)) (digit_char (ch mod 16)).

Lemma escape_item_ok enc quote ch p :
  wide_char ch -> item_ok enc quote (escape_item ch) p /\ lit_value quote (escape_item ch) = ch.
Proof.
  intros Hc. unfold wide_char in Hc. assert (Hd : forall x, 0 <= x mod 16 < 16) by (intros; apply Z.mod_pos_bound; lia).
  assert (Hhex : item_ok enc quote (escape_item ch) p) by (repeat constructor; apply digit_char_hex, Hd).
  split; [done|]. cbn [lit_value escape_item item_ok] in *. rewrite (proj1 (proj2 (hex_value _ _ _ _ Hhex))).
  rewrite !(proj2 (digit_char_hex _ (Hd _))). zsolve.
Qed.

Section quote.
Context (enc : AEncoding) (quote : Z) (Hquote : quote = 34 \/ quote = 39) (rest : list Z).
#[local] Set Default Proof Using "Type Hquote".

Definition repr_item (ch : Z) : lit_item :=
  if (ch <? 32) || (127 <=? ch) then escape_item ch else if ch =? quote then LQuote else LChar ch.

(** What the literal starts with shows a character of the string. *)
Lemma repr_head l h r :
  repr_body quote l ++ quote :: rest = h :: r -> h <> 92 -> h <> quote ->
  exists l', l = h :: l' /\ r = repr_body quote l' ++ quote :: rest.
Proof.
  intros H H92 Hq. destruct l as [|c l]; [simpl in H; congruence|].
  change (repr_body quote (c :: l)) with (repr_char quote c ++ repr_body quote l) in H. unfold repr_char in H.
  destruct (_ || _); [simpl in H; congruence|]. destruct (Z.eqb_spec c quote) as [->|Hne]; simpl in H; simplify_eq.
  by exists l.
Qed.

Lemma repr_no_unicode l :
  (forall i, is_unicode (drop i l) = false) -> is_unicode (repr_body quote l ++ quote :: rest) = true ->
  match l with c :: _ => (c <? 32) || (127 <=? c) = true | [] => False end.
Proof.
  intros Hno (a & b & d & e & r & Hp & Hhex)%is_unicode_inv.
  destruct l as [|c l]; [simpl in Hp; destruct Hquote; congruence|].
  apply not_false_iff_true. intros Hc. change (repr_body quote (c :: l)) with (repr_char quote c ++ repr_body quote l) in Hp.
  unfold repr_char in Hp. rewrite Hc in Hp. destruct (Z.eqb_spec c quote) as [->|Hne];
    [simpl in Hp; destruct Hquote; congruence|]. cbn [app] in Hp. injection Hp as -> Hp.
  assert (Hh : forall h, AIsHexDigit h = true -> h <> 92 /\ h <> quote).
  { intros h Hh%hex_digit_cases. destruct Hquote; lia. }
  inversion Hhex as [|? ? Ha H1]; subst. inversion H1 as [|? ? Hb H2]; subst. inversion H2 as [|? ? Hd H3]; subst.
  inversion H3 as [|? ? He _]; subst.
  apply repr_head in Hp as (l1 & -> & Hp); [|done|destruct Hquote; lia]. symmetry in Hp.
  apply repr_head in Hp as (l2 & -> & Hp); [|by apply Hh..]. symmetry in Hp.
  apply repr_head in Hp as (l3 & -> & Hp); [|by apply Hh..]. symmetry in Hp.
  apply repr_head in Hp as (l4 & -> & Hp); [|by apply Hh..]. symmetry in Hp.
  apply repr_head in Hp as (l5 & -> & Hp); [|by apply Hh..].
  specialize (Hno 0%nat). change (drop 0 _) with (92 :: 117 :: a :: b :: d :: e :: l5) in Hno.
  rewrite is_unicode_intro in Hno; [done|]. by repeat constructor.
Qed.

Lemma repr_body_literal l :
  Forall wide_char l -> (forall i, is_unicode (drop i l) = false) ->
  lit_body enc quote (repr_body quote l ++ quote :: rest) (repr_item <$> l) (quote :: rest) /\
  lit_value quote <$> (repr_item <$> l) = l.
Proof.
  induction l as [|c l IH]; intros Hw Hno; [split; [constructor|done]|].
  pose proof Hw as Hw'. apply Forall_cons_1 in Hw' as [Hc Hw']. destruct (IH Hw' (fun i => Hno (S i))) as [Hb Hv].
  assert (Hitem : item_ok enc quote (repr_item c) (repr_body quote l ++ quote :: rest) /\ lit_value quote (repr_item c) = c /\
    repr_char quote c = lit_text quote (repr_item c)).
  { pose proof (repr_no_unicode (c :: l) Hno) as Hu.
    change (repr_body quote (c :: l)) with (repr_char quote c ++ repr_body quote l) in Hu.
    unfold repr_item, repr_char in *. destruct ((c <? 32) || (127 <=? c)) eqn:Hesc.
    { destruct (escape_item_ok enc quote c (repr_body quote l ++ quote :: rest) Hc). done. }
    destruct (Z.eqb_spec c quote) as [->|Hq]; [done|]. split_and!; [|done|done].
    split_and!; [unfold is_newline; lia|done| |left; lia]. apply not_true_iff_false. intros Ht. by specialize (Hu Ht). }
  destruct Hitem as (Hok & Hval & Htext).
  change (repr_body quote (c :: l)) with (repr_char quote c ++ repr_body quote l).
  rewrite <- app_assoc, Htext, !fmap_cons. split; [by apply body_cons|]. by rewrite Hval, Hv.
Qed.

End quote.
