(* ===== verification/LexerProps.v ===== *)
(** * LexerProps: the correctness of the lexical analyzer and the symbol table *)

From Stdlib Require Import SpecFloat.
From stdpp Require Import gmap.
From S2P Require Import Prelude Runtime Digits Value IntConv IntText EncodingsSpec StrOps.
From S2P Require Import StrSpec Tokens SymTable Lexer TokensSpec LexText LexLiteral LexNumber.
From S2P Require Import LexSpec LexerSpec LexUnique StrRepr.

Open Scope Z_scope.

(** ** The lexical analyzer *)

(** C28: on a text of less than 2^30 characters that ends in a newline, whose
    first token does not look back ([start_ok]: no newline, semicolon, comment
    or line of a script in front of the first token of a file, unless a byte
    order mark is there; otherwise the code reads the entry in front of the
    first token), the lexical analyzer returns, never reads outside the text or
    the token blocks, and stores behind the tokens it started with exactly the
    tokens of the reference definition: the longest identifiers, operators and
    numbers, string literals with their characters, error tokens for what the
    encoding or the syntax does not allow, newlines where the token before does
    not continue the line, each with the line it is on.  The reference is
    unambiguous: every list of tokens it allows for the text has the same types,
    lines and values. *)
Theorem ATokenize_correct strtod s src enc prev line :
  starts (tokens s) prev line -> lex_ok s (length src) -> ends_line src -> zlen src < 2 ^ 30 -> start_ok prev line src ->
  sreturns (ATokenize strtod src enc) s (fun _ s' => exists bom text toks cur',
    (if (split_bom line src).1 then exists t, bom = [t] /\ is_bom t else bom = []) /\
    script_text line (split_bom line src).2 text /\
    store_view (tokens s') (prev ++ bom ++ toks) cur' /\ tokLine cur' = u16 (lineNumber s') /\
    lexed strtod s' (last_type TT_EMPTY (prev ++ bom)) line text
      (MkLState (default AENC_UTF8 enc) false (known_names (symtab s))) toks [] (lex_state s') /\
    (forall toks' st', lexed strtod s' (last_type TT_EMPTY (prev ++ bom)) line text
      (MkLState (default AENC_UTF8 enc) false (known_names (symtab s))) toks' [] st' -> Forall2 (same_token s') toks toks') /\
    lineNumber s' = line + newlines src /\ extends s s' /\ lex_ok s' 0).
Proof.
  intros Hst Hok Hp Hlen Hstart. eapply sreturns_mono; [by apply (ATokenize_spec strtod s src enc prev line)|].
  intros u s' (bom & text & toks & cur' & Hb & Ht & Hv & Hc & Hl & Hline & Hx & Hok'). exists bom, text, toks, cur'.
  split_and!; try done. intros toks' st' Hl'.
  by apply (lexed_unique strtod s' _ _ _ _ _ _ _ _ (so_names _ (lo_table _ _ Hok')) Hl Hl').
Qed.

(** The table that the analyzer starts from. *)
Definition no_symbols : SymTab := MkSymTab 511 0 (replicate 512 []).

Lemma concat_empty {A} n : concat (replicate n ([] : list A)) = [].
Proof. by induction n. Qed.

Lemma empty_symtab_ok t :
  ASymSize t = 511 -> NumSyms t = 0 -> ASym t = replicate 512 [] -> symtab_ok t.
Proof.
  intros Hs Hn Ha. assert (Hc : concat (ASym t) = []) by (rewrite Ha; apply concat_empty). split.
  - exists 9. split; [lia|]. by rewrite Hs.
  - by rewrite Ha, Hs, length_replicate.
  - intros i c sym Hi Hsym. rewrite Ha in Hi. apply lookup_replicate in Hi as [-> _]. by apply elem_of_nil in Hsym.
  - rewrite Hc. constructor.
  - rewrite Hc. constructor.
  - rewrite Hc. constructor.
Qed.

Lemma no_symbols_ok : symtab_ok no_symbols.
Proof. by apply empty_symtab_ok. Qed.

Definition lex_start : LexState := MkLex (MkTokens [] 0) no_symbols None None None [] 0 AENC_UTF8 false.

(** Decides the side conditions of a concrete text. *)
Lemma ATokenize_correct_witness :
  sreturns (ATokenize (fun _ => S754_zero false) [120; 61; 49; 10] None) lex_start (fun _ s' => exists bom text toks cur',
    (if (split_bom 1 [120; 61; 49; 10]).1 then exists t, bom = [t] /\ is_bom t else bom = []) /\
    script_text 1 (split_bom 1 [120; 61; 49; 10]).2 text /\
    store_view (tokens s') ([] ++ bom ++ toks) cur' /\ tokLine cur' = u16 (lineNumber s') /\
    lexed (fun _ => S754_zero false) s' (last_type TT_EMPTY ([] ++ bom)) 1 text
      (MkLState (default AENC_UTF8 None) false (known_names (symtab lex_start))) toks [] (lex_state s') /\
    (forall toks' st', lexed (fun _ => S754_zero false) s' (last_type TT_EMPTY ([] ++ bom)) 1 text
      (MkLState (default AENC_UTF8 None) false (known_names (symtab lex_start))) toks' [] st' -> Forall2 (same_token s') toks toks') /\
    lineNumber s' = 1 + newlines [120; 61; 49; 10] /\ extends lex_start s' /\ lex_ok s' 0).
Proof.
  apply ATokenize_correct.
  - by left.
  - split; [apply no_symbols_ok|done|]. change (concat _) with (concat (replicate 512 ([] : list ASymbol))).
    rewrite concat_empty. constructor.
  - done.
  - done.
  - right. right. split; [done|]. exists [], 120, [61; 49; 10]. repeat split; constructor.
Defined.

(** Reading a token list with [AAdvanceTok] from its beginning gives the
    tokens that were stored, across the borders of the blocks, and the token
    behind each of them is in the entry behind it; when [AAddEofToken] has
    ended the list, the tokens end with a newline and the end of the file. *)
Theorem token_list_read_back s toks t cur :
  store_view s (toks ++ [t]) cur ->
  sreturns AAddEofToken s (fun _ s' => exists last,
    type <$> last = (if decide (type t = TT_NEWLINE) then [TT_EOF] else [TT_NEWLINE; TT_EOF]) /\
    forall n u, (toks ++ t :: last) !! n = Some u -> exists p, nth_token s' n = Some p /\ token_at s' p = Some u /\
      forall v, (toks ++ t :: last) !! S n = Some v -> token_at s' (p.1, S p.2) = Some v).
Proof.
  intros Hv. unfold AAddEofToken.
  eapply sreturns_bind; [by apply (previous_view s toks cur t)|]. intros u s1 [-> ->].
  eapply (sreturns_bind _ _ _ (fun _ s1 => exists more c, store_view s1 (toks ++ t :: more) c /\
    type <$> more = (if decide (type t = TT_NEWLINE) then [] else [TT_NEWLINE]))).
  { case_decide.
    - apply sreturns_ret. by exists [], cur.
    - eapply sreturns_bind; [by apply (set_type_view s (toks ++ [t]) cur)|]. intros x1 s1 H1. cbv beta in H1.
      eapply sreturns_mono; [by eapply AdvanceNewToken_view|]. intros u s2 [c H2]. rewrite <- app_assoc in H2.
      eexists [_], c. split; [exact H2|done]. }
  intros _ s1 (more & c & H1 & Hm). eapply sreturns_bind; [by apply (set_type_view s1 (toks ++ t :: more) c)|]. intros x2 s2 H2. cbv beta in H2.
  eapply sreturns_mono; [by eapply AdvanceNewToken_view|]. intros u s3 [c3 H3].
  exists (more ++ [MkToken (info c) (tokLine c) TT_EOF]). split; [rewrite fmap_app, Hm; by case_decide|]. rewrite <- app_assoc in H3. cbn [app] in H3.
  intros n x Hx. set (all := toks ++ t :: more ++ _) in *. pose proof (lookup_lt_Some _ _ _ Hx) as Hn.
  destruct (read_tokens s3 all c3 n H3 ltac:(lia)) as (p & Hp & Hat & Hnext). exists p.
  rewrite lookup_app_l in Hat by done. split_and!; [done|congruence|]. intros y Hy. pose proof (lookup_lt_Some _ _ _ Hy).
  rewrite Hnext by lia. by rewrite lookup_app_l by done.
Qed.

(** A list that holds a newline. *)
Definition newline_token : AToken := MkToken NoInfo 1 TT_NEWLINE.
Definition one_token : TokenStore :=
  MkTokens [alter (fun _ => newline_token) 0%nat (new_block (fun _ => 0))] 1.

Lemma one_token_view : store_view one_token ([] ++ [newline_token]) (MkToken (InfoNum 0) 0 TT_EMPTY).
Proof.
  destruct (new_block_ok (fun _ => 0) newline_token eq_refl) as (Hb & Hl & _).
  exists [], (alter (fun _ => newline_token) 0%nat (new_block (fun _ => 0))). split_and!; [|done|done].
  split; simpl; [done|split; [lia|done]|done|]. intros i p Hi. by rewrite lookup_nil in Hi.
Qed.

Lemma token_list_read_back_witness :
  sreturns AAddEofToken one_token (fun _ s' => exists last,
    type <$> last = (if decide (type newline_token = TT_NEWLINE) then [TT_EOF] else [TT_NEWLINE; TT_EOF]) /\
    forall n u, ([] ++ newline_token :: last) !! n = Some u -> exists p, nth_token s' n = Some p /\ token_at s' p = Some u /\
      forall v, ([] ++ newline_token :: last) !! S n = Some v -> token_at s' (p.1, S p.2) = Some v).
Proof. exact (token_list_read_back one_token [] newline_token _ one_token_view). Defined.

(** ** The symbol table *)

(** Interning a list of names: the addresses of their symbols. *)
Fixpoint AGetSymbols (ids : list (list Z)) : SM SymTab (list Z) :=
  match ids with
  | [] => mret []
  | id :: ids => sym ← AGetSymbol id; rest ← AGetSymbols ids; mret (sym_addr sym :: rest)
  end.

Lemma AGetSymbol_spec t id :
  symtab_ok t -> NumSyms t < 2 ^ 30 ->
  sreturns (AGetSymbol id) t (fun s t' => symtab_ok t' /\ s ∈ concat (ASym t') /\ str s = id /\
    (forall x, x ∈ concat (ASym t) -> x ∈ concat (ASym t')) /\ NumSyms t' <= NumSyms t + 1).
Proof.
  intros Ht Hn. unfold AGetSymbol. apply sspec_get_bind. destruct (AFindSymbol t id) as [s|] eqn:Hf.
  - apply AFindSymbol_spec in Hf as [Hs He]; [|done]. apply sreturns_ret. split_and!; try done. lia.
  - eapply sreturns_mono; [by apply AAddSymbol_spec|]. intros s t' (Ht' & -> & Hn' & Hp).
    split_and!; [done|rewrite Hp; by left|done| |lia]. intros x Hx. rewrite Hp. by right.
Qed.

Lemma AGetSymbols_spec ids : forall t,
  symtab_ok t -> NumSyms t + zlen ids <= 2 ^ 30 ->
  sreturns (AGetSymbols ids) t (fun addrs t' => symtab_ok t' /\ (forall x, x ∈ concat (ASym t) -> x ∈ concat (ASym t')) /\
    Forall2 (fun id a => exists s, s ∈ concat (ASym t') /\ str s = id /\ sym_addr s = a) ids addrs).
Proof.
  induction ids as [|id ids IH]; intros t Ht Hn; [by apply sreturns_ret|]. cbn [AGetSymbols]. simpl length in Hn.
  eapply sreturns_bind; [apply AGetSymbol_spec; [done|lia]|]. intros s t1 (Ht1 & Hs & Hid & Hmono & Hn1).
  eapply sreturns_bind; [apply IH; [done|lia]|]. intros addrs t2 (Ht2 & Hmono2 & Hall). apply sreturns_ret.
  split_and!; [done|auto|]. constructor; [|done]. exists s. auto.
Qed.

(** C29: the symbol table interns names, while it grows: whatever names are
    looked up in whatever order, two of them get the same symbol exactly if
    they are the same name, and a name that had a symbol before keeps it. *)
Theorem symbols_interned t ids :
  symtab_ok t -> NumSyms t + zlen ids <= 2 ^ 30 ->
  sreturns (AGetSymbols ids) t (fun addrs t' => symtab_ok t' /\ length addrs = length ids /\
    (forall i j id1 id2 a1 a2, ids !! i = Some id1 -> ids !! j = Some id2 -> addrs !! i = Some a1 -> addrs !! j = Some a2 ->
      (a1 = a2 <-> id1 = id2)) /\
    (forall i id a s, ids !! i = Some id -> addrs !! i = Some a -> AFindSymbol t id = Some s -> a = sym_addr s) /\
    (forall id s, AFindSymbol t id = Some s -> AFindSymbol t' id = Some s)).
Proof.
  intros Ht Hn. eapply sreturns_mono; [by apply AGetSymbols_spec|]. intros addrs t' (Ht' & Hmono & Hall).
  assert (Hlook : forall i id a, ids !! i = Some id -> addrs !! i = Some a ->
    exists s, s ∈ concat (ASym t') /\ str s = id /\ sym_addr s = a).
  { intros i id a Hi Ha. exact (Forall2_lookup_lr _ _ _ i id a Hall Hi Ha). }
  assert (Haddr : forall s s', s ∈ concat (ASym t') -> s' ∈ concat (ASym t') -> sym_addr s = sym_addr s' -> s = s').
  { intros s s'. apply addrs_inj, Ht'. }
  split_and!; [done|by rewrite (Forall2_length Hall)| | |].
  - intros i j id1 id2 a1 a2 Hi Hj Ha1 Ha2. destruct (Hlook i id1 a1 Hi Ha1) as (s1 & Hs1 & <- & <-).
    destruct (Hlook j id2 a2 Hj Ha2) as (s2 & Hs2 & <- & <-). split; [intros He; by rewrite (Haddr s1 s2)|].
    intros He. f_equal. apply (names_inj (concat (ASym t'))); [apply Ht'|done..].
  - intros i id a s Hi Ha Hf. apply AFindSymbol_spec in Hf as [Hs He]; [|done].
    destruct (Hlook i id a Hi Ha) as (s1 & Hs1 & He1 & <-). f_equal.
    apply (names_inj (concat (ASym t'))); [apply Ht'|done|by apply Hmono|congruence].
  - intros id s Hf. apply AFindSymbol_spec in Hf as [Hs He]; [|done]. apply AFindSymbol_spec; [done|]. auto.
Qed.

Lemma symbols_interned_witness :
  sreturns (AGetSymbols [[120]; [121; 49]; [120]]) no_symbols (fun addrs t' => symtab_ok t' /\ length addrs = 3%nat /\
    (forall i j id1 id2 a1 a2, [[120]; [121; 49]; [120]] !! i = Some id1 -> [[120]; [121; 49]; [120]] !! j = Some id2 ->
      addrs !! i = Some a1 -> addrs !! j = Some a2 -> (a1 = a2 <-> id1 = id2)) /\
    (forall i id a s, [[120]; [121; 49]; [120]] !! i = Some id -> addrs !! i = Some a -> AFindSymbol no_symbols id = Some s ->
      a = sym_addr s) /\
    (forall id s, AFindSymbol no_symbols id = Some s -> AFindSymbol t' id = Some s)).
Proof. apply (symbols_interned no_symbols [[120]; [121; 49]; [120]]); [exact no_symbols_ok|done]. Defined.

(** ** String literals *)

(** C30: the representation of a string is a literal for it: when the lexer
    reads it, under any encoding, it makes the characters of the string,
    unless the string holds a backslash sequence [\uXXXX] itself. *)
Theorem repr_literal_roundtrip str l :
  represents str l -> (forall i, is_unicode (drop i l) = false) ->
  returns (AStrRepr str) (fun r => exists quote body, r = NarrowStr (quote :: body ++ [quote]) /\
    forall s prev cur rest, store_view (tokens s) prev cur -> ends_line rest -> head rest <> Some quote ->
      zlen (body ++ quote :: rest) < 2 ^ 30 ->
      sreturns (lex_string quote (body ++ quote :: rest)) s (fun q s' => q = rest /\
        exists n v, constant s' n (ConstStr v) /\ str_chars v = l /\
          store_view (tokens s') prev (MkToken (InfoNum n) (tokLine cur) TT_LITERAL_STRING))).
Proof.
  intros Hstr Hno. pose proof (represents_wide _ _ Hstr) as Hw. pose proof (repr_quote_cases l) as Hq.
  eapply returns_mono; [by apply AStrRepr_spec|]. intros r ->. exists (repr_quote l), (repr_body (repr_quote l) l).
  split; [done|]. intros s prev cur rest Hv Hr Hhead Hlen.
  destruct (repr_body_literal (encoding s) (repr_quote l) Hq rest l Hw Hno) as [Hb Hval].
  assert (Hp : ends_line (repr_body (repr_quote l) l ++ repr_quote l :: rest)).
  { by apply ends_line_app, ends_line_cons_2. }
  eapply sreturns_mono; [by apply (lex_string_literal s (repr_quote l) _ (repr_item (repr_quote l) <$> l) rest prev cur)|].
  intros q s' [-> (n & Hn & Hk)]. split; [done|]. exists n, (lit_string (repr_quote l) (repr_item (repr_quote l) <$> l)).
  split_and!; [done| |done]. unfold lit_string. by destruct (existsb _ _).
Qed.

Lemma repr_literal_roundtrip_witness :
  returns (AStrRepr (NarrowStr [97; 39; 10])) (fun r => exists quote body, r = NarrowStr (quote :: body ++ [quote]) /\
    forall s prev cur rest, store_view (tokens s) prev cur -> ends_line rest -> head rest <> Some quote ->
      zlen (body ++ quote :: rest) < 2 ^ 30 ->
      sreturns (lex_string quote (body ++ quote :: rest)) s (fun q s' => q = rest /\
        exists n v, constant s' n (ConstStr v) /\ str_chars v = [97; 39; 10] /\
          store_view (tokens s') prev (MkToken (InfoNum n) (tokLine cur) TT_LITERAL_STRING))).
Proof.
  apply repr_literal_roundtrip.
  - split; [|done]. split; [|done]. repeat (constructor; [unfold fits, byte; simpl; lia|]). constructor.
  - intros i. do 4 (destruct i as [|i]; [done|]). done.
Defined.
