(* ===== verification/StrTables.v ===== *)
(** * StrTables: character properties and case mappings

    The tables of [strtables.c] and the macros of [str_internal.h] and [re.h]
    over them: bit sets of characters, the mapping of a character to upper and
    to lower case, and the word characters.  Characters below 256 are looked up
    directly; the others through tables of ranges, reached by the upper bits of
    the character. *)

From S2P Require Import Prelude Digits.

Open Scope Z_scope.

(** ** Bit sets *)

(** A set of 256 characters takes 16 words of 16 bits. *)
Definition A_RE_SET_SIZE : Z := 16.

Definition AReIsInSet (set : list Z) (ch : Z) : bool :=
  negb (Z.land (dg set (Z.shiftr (u8 ch) 4)) (Z.shiftl 1 (Z.land ch 15)) =? 0).

Definition AReAddToSet (set : list Z) (ch : Z) : list Z :=
  upd set (Z.shiftr (u8 ch) 4) (u16 (Z.lor (dg set (Z.shiftr (u8 ch) 4)) (Z.shiftl 1 (Z.land ch 15)))).

Definition AReToggleInSet (set : list Z) (ch : Z) : list Z :=
  upd set (Z.shiftr (u8 ch) 4) (u16 (Z.lxor (dg set (Z.shiftr (u8 ch) 4)) (Z.shiftl 1 (Z.land ch 15)))).

(** ** The tables *)

(** A range of the lower 6 bits of a character and what to add to it. *)
Record ACaseEntry := CE { ce_beg : Z; ce_end : Z; ce_delta : Z }.

(** The character classes of regular expressions: digits, spaces, word characters. *)
Definition ACharClass : list (list Z) := [ [0; 0; 0; 1023; 0; 0; 0; 0; 0; 0; 0; 0;
  0; 0; 0; 0];

    [15872; 0; 1; 0; 0; 0; 0; 0; 0; 0; 0; 0;
  0; 0; 0; 0];

    [0; 0; 0; 1023; 65534; 2047; 65534; 2047; 0; 0; 1024; 1056;
  65535; 65407; 65535; 65407] ].

Definition AUpperCase : list Z := [
    0; 1; 2; 3; 4; 5; 6; 7; 8; 9; 10; 11; 12; 13; 14; 15; 16; 17; 18; 19; 20; 21; 22; 23; 24; 25; 26;
    27; 28; 29; 30; 31; 32; 33; 34; 35; 36; 37; 38; 39; 40; 41; 42; 43; 44; 45; 46; 47; 48; 49; 50;
    51; 52; 53; 54; 55; 56; 57; 58; 59; 60; 61; 62; 63; 64; 65; 66; 67; 68; 69; 70; 71; 72; 73; 74;
    75; 76; 77; 78; 79; 80; 81; 82; 83; 84; 85; 86; 87; 88; 89; 90; 91; 92; 93; 94; 95; 96; 65; 66;
    67; 68; 69; 70; 71; 72; 73; 74; 75; 76; 77; 78; 79; 80; 81; 82; 83; 84; 85; 86; 87; 88; 89; 90;
    123; 124; 125; 126; 127; 128; 129; 130; 131; 132; 133; 134; 135; 136; 137; 138; 139; 140; 141;
    142; 143; 144; 145; 146; 147; 148; 149; 150; 151; 152; 153; 154; 155; 156; 157; 158; 159; 160;
    161; 162; 163; 164; 165; 166; 167; 168; 169; 170; 171; 172; 173; 174; 175; 176; 177; 178; 179;
    180; 181; 182; 183; 184; 185; 186; 187; 188; 189; 190; 191; 192; 193; 194; 195; 196; 197; 198;
    199; 200; 201; 202; 203; 204; 205; 206; 207; 208; 209; 210; 211; 212; 213; 214; 215; 216; 217;
    218; 219; 220; 221; 222; 223; 192; 193; 194; 195; 196; 197; 198; 199; 200; 201; 202; 203; 204;
    205; 206; 207; 208; 209; 210; 211; 212; 213; 214; 247; 216; 217; 218; 219; 220; 221; 222; 0 ].

Definition ALowerCase : list Z := [
    0; 1; 2; 3; 4; 5; 6; 7; 8; 9; 10; 11; 12; 13; 14; 15; 16; 17; 18; 19; 20; 21; 22; 23; 24; 25; 26;
    27; 28; 29; 30; 31; 32; 33; 34; 35; 36; 37; 38; 39; 40; 41; 42; 43; 44; 45; 46; 47; 48; 49; 50;
    51; 52; 53; 54; 55; 56; 57; 58; 59; 60; 61; 62; 63; 64; 97; 98; 99; 100; 101; 102; 103; 104; 105;
    106; 107; 108; 109; 110; 111; 112; 113; 114; 115; 116; 117; 118; 119; 120; 121; 122; 91; 92; 93;
    94; 95; 96; 97; 98; 99; 100; 101; 102; 103; 104; 105; 106; 107; 108; 109; 110; 111; 112; 113; 114;
    115; 116; 117; 118; 119; 120; 121; 122; 123; 124; 125; 126; 127; 128; 129; 130; 131; 132; 133;
    134; 135; 136; 137; 138; 139; 140; 141; 142; 143; 144; 145; 146; 147; 148; 149; 150; 151; 152;
    153; 154; 155; 156; 157; 158; 159; 160; 161; 162; 163; 164; 165; 166; 167; 168; 169; 170; 171;
    172; 173; 174; 175; 176; 177; 178; 179; 180; 181; 182; 183; 184; 185; 186; 187; 188; 189; 190;
    191; 224; 225; 226; 227; 228; 229; 230; 231; 232; 233; 234; 235; 236; 237; 238; 239; 240; 241;
    242; 243; 244; 245; 246; 215; 248; 249; 250; 251; 252; 253; 254; 223; 224; 225; 226; 227; 228;
    229; 230; 231; 232; 233; 234; 235; 236; 237; 238; 239; 240; 241; 242; 243; 244; 245; 246; 247;
    248; 249; 250; 251; 252; 253; 254; 255 ].

Definition AUpperLookupTable : list Z := [
    0; 0; 0; 0; 1; 5; 9; 21; 34; 35; 46; 50; 50; 50; 50; 53; 65; 66; 70; 72; 78; 78; 79; 80; 80; 80;
    80; 80; 80; 80; 80; 80; 80; 80; 80; 80; 80; 80; 80; 80; 80; 80; 80; 80; 80; 80; 80; 80; 80; 80;
    80; 80; 80; 80; 80; 80; 80; 80; 80; 80; 80; 80; 80; 80; 80; 80; 80; 80; 80; 80; 80; 80; 80; 80;
    80; 80; 80; 80; 80; 80; 80; 80; 80; 80; 80; 80; 80; 80; 80; 80; 80; 80; 80; 80; 80; 80; 80; 80;
    80; 80; 80; 80; 80; 80; 80; 80; 80; 80; 80; 80; 80; 80; 80; 80; 80; 80; 80; 80; 80; 80; 80; 81;
    82; 85; 86; 90; 102; 107; 112; 112; 112; 112; 112; 112; 113; 113; 113; 113; 113; 113; 113; 113;
    113; 113; 113; 113; 113; 113; 255 ].

Definition AUpperTable : list ACaseEntry := [
    CE 63 63 121; CE 1 47 (-1); CE 49 49 (-232); CE 51 55 (-1); CE 58 62 (-1); CE 0 8 (-1); CE 11 55
    (-1); CE 58 62 (-1); CE 63 63 (-300); CE 3 5 (-1); CE 8 8 (-1); CE 12 12 (-1); CE 18 18 (-1); CE
    25 25 (-1); CE 33 37 (-1); CE 40 40 (-1); CE 45 45 (-1); CE 48 48 (-1); CE 52 54 (-1); CE 57 57
    (-1); CE 61 61 (-1); CE 5 5 (-1); CE 6 6 (-2); CE 8 8 (-1); CE 9 9 (-2); CE 11 11 (-1); CE 12 12
    (-2); CE 14 28 (-1); CE 29 29 (-79); CE 31 47 (-1); CE 50 50 (-1); CE 51 51 (-2); CE 53 53 (-1);
    CE 59 63 (-1); CE 1 23 (-1); CE 19 19 (-210); CE 20 20 (-206); CE 22 23 (-205); CE 25 25 (-202);
    CE 27 27 (-203); CE 32 32 (-205); CE 35 35 (-207); CE 40 40 (-209); CE 41 41 (-211); CE 47 47
    (-211); CE 50 50 (-213); CE 3 3 (-218); CE 8 8 (-218); CE 10 11 (-217); CE 18 18 (-219); CE 44 44
    (-38); CE 45 47 (-37); CE 49 63 (-32); CE 0 1 (-32); CE 2 2 (-31); CE 3 11 (-32); CE 12 12 (-64);
    CE 13 14 (-63); CE 16 16 (-62); CE 17 17 (-57); CE 21 21 (-47); CE 22 22 (-54); CE 35 47 (-1); CE
    48 48 (-86); CE 49 49 (-80); CE 48 63 (-32); CE 0 15 (-32); CE 17 28 (-80); CE 30 31 (-80); CE 33
    63 (-1); CE 1 1 (-1); CE 17 63 (-1); CE 2 4 (-1); CE 8 8 (-1); CE 12 12 (-1); CE 17 43 (-1); CE 47
    53 (-1); CE 57 57 (-1); CE 33 63 (-48); CE 0 6 (-48); CE 1 63 (-1); CE 1 63 (-1); CE 1 21 (-1); CE
    27 27 (-59); CE 33 63 (-1); CE 1 57 (-1); CE 0 7 8; CE 16 21 8; CE 32 39 8; CE 48 55 8; CE 0 5 8;
    CE 17 17 8; CE 19 19 8; CE 21 21 8; CE 23 23 8; CE 32 39 8; CE 48 49 74; CE 50 53 86; CE 54 55
    100; CE 56 57 128; CE 58 59 112; CE 60 61 126; CE 0 7 8; CE 16 23 8; CE 32 39 8; CE 48 49 8; CE 51
    51 9; CE 3 3 9; CE 16 17 8; CE 32 33 8; CE 37 37 7; CE 51 51 9; CE 48 63 (-16); CE 16 41 (-26) ].

Definition ALowerLookupTable : list Z := [
    0; 0; 0; 0; 0; 4; 8; 37; 47; 48; 49; 49; 49; 49; 49; 55; 56; 59; 60; 62; 68; 69; 70; 70; 70; 70;
    70; 70; 70; 70; 70; 70; 70; 70; 70; 70; 70; 70; 70; 70; 70; 70; 70; 70; 70; 70; 70; 70; 70; 70;
    70; 70; 70; 70; 70; 70; 70; 70; 70; 70; 70; 70; 70; 70; 70; 70; 70; 71; 72; 72; 72; 72; 72; 72;
    72; 72; 72; 72; 72; 72; 72; 72; 72; 72; 72; 72; 72; 72; 72; 72; 72; 72; 72; 72; 72; 72; 72; 72;
    72; 72; 72; 72; 72; 72; 72; 72; 72; 72; 72; 72; 72; 72; 72; 72; 72; 72; 72; 72; 72; 72; 72; 73;
    74; 76; 77; 81; 87; 93; 103; 103; 103; 103; 103; 103; 104; 104; 104; 104; 104; 104; 104; 104; 104;
    104; 104; 104; 104; 105; 255 ].

Definition ALowerTable : list ACaseEntry := [
    CE 0 46 1; CE 48 48 (-199); CE 50 54 1; CE 57 63 1; CE 1 7 1; CE 10 54 1; CE 56 56 (-121); CE 57
    61 1; CE 1 1 210; CE 2 4 1; CE 6 6 206; CE 7 7 1; CE 9 10 205; CE 11 11 1; CE 14 14 79; CE 15 15
    202; CE 16 16 203; CE 17 17 1; CE 19 19 205; CE 20 20 207; CE 22 22 211; CE 23 23 209; CE 24 24 1;
    CE 28 28 211; CE 29 29 213; CE 31 31 214; CE 32 36 1; CE 39 39 1; CE 41 41 218; CE 44 44 1; CE 46
    46 218; CE 47 47 1; CE 49 50 217; CE 51 53 1; CE 55 55 219; CE 56 56 1; CE 60 60 1; CE 4 4 2; CE 5
    5 1; CE 7 7 2; CE 8 8 1; CE 10 10 2; CE 11 27 1; CE 30 46 1; CE 49 49 2; CE 50 52 1; CE 58 62 1;
    CE 0 22 1; CE 53 53 (-214); CE 6 6 38; CE 8 10 37; CE 12 12 64; CE 14 15 63; CE 17 33 32; CE 35 43
    32; CE 34 46 1; CE 1 12 80; CE 14 15 80; CE 16 47 32; CE 32 62 1; CE 0 0 1; CE 16 62 1; CE 1 3 1;
    CE 7 7 1; CE 11 11 1; CE 16 42 1; CE 46 52 1; CE 56 56 1; CE 49 63 48; CE 0 22 48; CE 32 63 48; CE
    0 5 48; CE 0 62 1; CE 0 62 1; CE 0 20 1; CE 32 62 1; CE 0 56 1; CE 8 15 (-8); CE 24 29 (-8); CE 40
    47 (-8); CE 56 63 (-8); CE 8 13 (-8); CE 25 25 (-8); CE 27 27 (-8); CE 29 29 (-8); CE 31 31 (-8);
    CE 40 47 (-8); CE 8 15 (-8); CE 24 31 (-8); CE 40 47 (-8); CE 56 57 (-8); CE 58 59 (-74); CE 60 60
    (-9); CE 8 11 (-86); CE 12 12 (-9); CE 24 25 (-8); CE 26 27 (-100); CE 40 41 (-8); CE 42 43
    (-112); CE 44 44 (-7); CE 56 57 (-128); CE 58 59 (-126); CE 60 60 (-9); CE 32 47 16; CE 54 63 26;
    CE 0 15 26 ].

Definition AWordCharLookupTable : list Z := [
    0; 1; 2; 3; 4; 5; 6; 7; 7; 8; 9; 10; 11; 12; 13; 14; 15; 16; 7; 7; 7; 7; 7; 7; 7; 7; 7; 7; 7; 7;
    17; 18; 19; 20; 7; 7; 7; 7; 7; 7; 7; 7; 7; 7; 7; 7; 7; 7; 21; 22; 7; 7; 7; 7; 7; 7; 7; 7; 7; 7; 7;
    7; 7; 7; 7; 7; 7; 7; 7; 7; 7; 7; 7; 7; 7; 7; 7; 7; 23; 23; 23; 23; 23; 23; 23; 23; 23; 23; 23; 23;
    23; 23; 23; 23; 23; 23; 23; 23; 23; 23; 23; 23; 23; 23; 23; 23; 23; 23; 23; 23; 23; 23; 23; 23;
    23; 23; 23; 23; 23; 23; 23; 23; 23; 23; 23; 23; 23; 23; 23; 23; 23; 23; 23; 23; 23; 23; 23; 23;
    23; 23; 23; 23; 23; 23; 23; 23; 23; 23; 23; 23; 23; 23; 23; 23; 23; 23; 23; 23; 23; 24; 7; 7; 7;
    7; 7; 7; 7; 7; 7; 7; 7; 7; 23; 23; 23; 23; 23; 23; 23; 23; 23; 23; 23; 23; 23; 23; 23; 23; 23; 23;
    23; 23; 23; 23; 23; 23; 23; 23; 23; 23; 23; 23; 23; 23; 23; 23; 23; 23; 23; 23; 23; 23; 23; 23;
    23; 25; 7; 7; 7; 7; 7; 7; 7; 7; 7; 7; 7; 7; 7; 7; 7; 7; 7; 7; 7; 7; 7; 7; 7; 7; 7; 7; 7; 7; 7; 7;
    7; 7; 7; 23; 26; 27; 23; 28; 29; 30 ].

Definition ALetterLookupTable : list Z := [
    31; 1; 2; 3; 4; 5; 32; 7; 7; 33; 34; 35; 36; 37; 38; 39; 15; 16; 7; 7; 7; 7; 7; 7; 7; 7; 7; 7; 7;
    7; 17; 18; 19; 20; 7; 7; 7; 7; 7; 7; 7; 7; 7; 7; 7; 7; 7; 7; 21; 22; 7; 7; 7; 7; 7; 7; 7; 7; 7; 7;
    7; 7; 7; 7; 7; 7; 7; 7; 7; 7; 7; 7; 7; 7; 7; 7; 7; 7; 23; 23; 23; 23; 23; 23; 23; 23; 23; 23; 23;
    23; 23; 23; 23; 23; 23; 23; 23; 23; 23; 23; 23; 23; 23; 23; 23; 23; 23; 23; 23; 23; 23; 23; 23;
    23; 23; 23; 23; 23; 23; 23; 23; 23; 23; 23; 23; 23; 23; 23; 23; 23; 23; 23; 23; 23; 23; 23; 23;
    23; 23; 23; 23; 23; 23; 23; 23; 23; 23; 23; 23; 23; 23; 23; 23; 23; 23; 23; 23; 23; 23; 24; 7; 7;
    7; 7; 7; 7; 7; 7; 7; 7; 7; 7; 23; 23; 23; 23; 23; 23; 23; 23; 23; 23; 23; 23; 23; 23; 23; 23; 23;
    23; 23; 23; 23; 23; 23; 23; 23; 23; 23; 23; 23; 23; 23; 23; 23; 23; 23; 23; 23; 23; 23; 23; 23;
    23; 23; 25; 7; 7; 7; 7; 7; 7; 7; 7; 7; 7; 7; 7; 7; 7; 7; 7; 7; 7; 7; 7; 7; 7; 7; 7; 7; 7; 7; 7; 7;
    7; 7; 7; 7; 23; 26; 27; 23; 28; 29; 40 ].

Definition ACharSets : list Z := [
    0; 0; 0; 1023; 65534; 2047; 65534; 2047; 0; 0; 1024; 1056; 65535; 65407; 65535; 65407; 65535;
    65535; 65535; 65535; 65535; 65535; 65535; 65535; 65535; 65535; 65535; 65535; 65535; 65535;
    65535; 64575; 65535; 255; 0; 0; 0; 65535; 65535; 65535; 65535; 65535; 511; 63999; 3; 3; 31; 0;
    0; 0; 0; 0; 0; 0; 0; 1024; 55104; 65535; 65531; 65535; 32767; 21631; 65533; 15; 57342; 65535;
    65535; 65535; 65535; 57342; 65535; 65535; 3; 65535; 65535; 65535; 6559; 65535; 53247; 831; 0;
    0; 0; 65534; 65535; 639; 65534; 65535; 255; 0; 0; 0; 0; 65535; 2047; 7; 0; 0; 65534; 2047;
    2047; 0; 1023; 65534; 65535; 65535; 65535; 31999; 32767; 47; 96; 1023; 0; 0; 0; 0; 0; 0; 0; 0;
    0; 0; 0; 0; 0; 0; 0; 0; 65504; 65535; 65535; 9215; 0; 65280; 65475; 0; 40928; 65529; 65023;
    965; 0; 45056; 65475; 3; 34784; 65529; 65023; 877; 0; 24064; 65472; 28; 45024; 65531; 65023;
    9197; 0; 0; 65473; 0; 40928; 65529; 65023; 9165; 0; 45056; 65475; 0; 51168; 54845; 50968; 959;
    0; 0; 65408; 0; 57312; 65533; 65023; 1007; 0; 0; 65475; 0; 57312; 65533; 65023; 1007; 0; 16384;
    65475; 0; 57312; 65533; 65023; 1023; 0; 0; 65475; 0; 0; 0; 0; 0; 0; 0; 0; 0; 65534; 65535;
    32767; 13; 127; 1023; 0; 0; 9622; 65264; 27822; 8205; 95; 13311; 0; 0; 0; 0; 1023; 0; 65279;
    65535; 1023; 0; 0; 0; 0; 0; 0; 0; 0; 0; 0; 0; 0; 0; 0; 0; 0; 0; 0; 0; 65535; 65535; 63; 65535;
    65535; 127; 65535; 65535; 65535; 65535; 65535; 33791; 65535; 65535; 65535; 65535; 65287; 65535;
    65535; 65535; 65535; 1023; 65535; 65535; 65535; 65535; 65535; 65535; 65535; 65535; 65535; 4095;
    65535; 65535; 65535; 65535; 65535; 1023; 65535; 16191; 65535; 65535; 16191; 43775; 65535;
    16383; 65535; 65535; 65535; 24543; 8156; 4047; 8191; 8156; 0; 0; 0; 0; 0; 0; 0; 32768; 0; 0; 0;
    0; 0; 0; 0; 0; 64644; 16175; 64848; 507; 0; 0; 0; 0; 0; 0; 0; 0; 0; 0; 0; 0; 32; 0; 0; 62;
    65534; 65535; 65535; 65535; 65535; 30751; 65534; 65535; 65535; 65535; 65535; 30719; 65504;
    65535; 8191; 65534; 65535; 65535; 65535; 65535; 32767; 0; 0; 0; 0; 0; 0; 0; 65535; 65535;
    65535; 65535; 65535; 65535; 65535; 65535; 65535; 65535; 65535; 65535; 65535; 65535; 65535;
    65535; 65535; 65535; 65535; 65535; 65535; 65535; 65535; 65535; 65535; 65535; 63; 0; 0; 0; 0; 0;
    65535; 65535; 65535; 65535; 65535; 65535; 65535; 65535; 65535; 65535; 15; 0; 0; 0; 0; 0; 65535;
    65535; 16383; 0; 0; 0; 0; 0; 0; 0; 0; 0; 0; 0; 0; 0; 127; 33016; 65023; 24447; 65499; 65535;
    65535; 65535; 65535; 65535; 65535; 3; 0; 65528; 65535; 65535; 65535; 65535; 65535; 16383; 0;
    65535; 65535; 65535; 65535; 65532; 65535; 65535; 255; 0; 0; 4095; 0; 0; 0; 0; 0; 0; 0; 65495;
    65535; 65535; 65535; 65535; 65535; 65535; 65535; 8191; 0; 1023; 65534; 2047; 65534; 2047;
    65472; 65535; 65535; 65535; 65535; 32767; 64764; 7420; 0; 0; 0; 0; 0; 0; 65534; 2047; 65534;
    2047; 0; 0; 1024; 1056; 65535; 65407; 65535; 65407; 0; 0; 65534; 2047; 2047; 0; 0; 65534;
    65535; 65535; 65535; 31999; 32767; 47; 96; 0; 65504; 65535; 65535; 9215; 0; 65280; 3; 0; 40928;
    65529; 65023; 965; 0; 45056; 3; 3; 34784; 65529; 65023; 877; 0; 24064; 0; 28; 45024; 65531;
    65023; 9197; 0; 0; 1; 0; 40928; 65529; 65023; 9165; 0; 45056; 3; 0; 51168; 54845; 50968; 959;
    0; 0; 0; 0; 57312; 65533; 65023; 1007; 0; 0; 3; 0; 57312; 65533; 65023; 1007; 0; 16384; 3; 0;
    57312; 65533; 65023; 1023; 0; 0; 3; 0; 0; 0; 0; 0; 0; 0; 0; 0; 65534; 65535; 32767; 13; 127; 0;
    0; 0; 9622; 65264; 27822; 8205; 95; 12288; 0; 0; 0; 0; 0; 0; 65279; 65535; 1023; 0; 0; 0; 0; 0;
    0; 0; 0; 0; 0; 0; 65534; 2047; 65534; 2047; 65472; 65535; 65535; 65535; 65535; 32767; 64764;
    7420; 0; 0 ].

(** ** The mappings *)

(** The search for the range that [masked] may fall into, among the entries
    from [j] up to [last]. *)
Fixpoint find_range (n : nat) (table : list ACaseEntry) (j last masked : Z) : Z :=
  match n with
  | O => j
  | S n =>
    match table !! Z.to_nat j with
    | Some e => if (j <? last) && (ce_end e <? masked) then find_range n table (j + 1) last masked else j
    | None => j
    end
  end.

(** The lookup that [AUpper2] and [ALower2] share: [step] is the difference of
    the ranges in which upper and lower case characters alternate. *)
Definition case_delta (lookup : list Z) (table : list ACaseEntry) (step ch : Z) : Z :=
  let masked := Z.land ch 63 in
  let first := dg lookup (Z.shiftr ch 6) in
  let last := dg lookup (Z.shiftr ch 6 + 1) in
  let j := find_range (Z.to_nat (last - first)) table first last masked in
  match table !! Z.to_nat j with
  | Some e =>
    if (j <? last) && (ce_beg e <=? masked)
       && (negb (ce_delta e =? step) || (Z.land (masked - ce_beg e) 1 =? 0))
    then ce_delta e else 0
  | None => 0
  end.

Definition AUpper2 (ch : Z) : Z :=
  if ch <? 255 then dg AUpperCase ch
  else if ch <=? 9449 then u16 (ch + case_delta AUpperLookupTable AUpperTable (-1) ch)
  else if (65345 <=? ch) && (ch <=? 65370) then ch - 32
  else ch.

Definition ALower2 (ch : Z) : Z :=
  if ch <? 256 then dg ALowerCase ch
  else if ch <=? 9423 then u16 (ch + case_delta ALowerLookupTable ALowerTable 1 ch)
  else if (65313 <=? ch) && (ch <=? 65338) then ch + 32
  else ch.

Definition AUpper (ch : Z) : Z := if ch <? 256 then dg AUpperCase ch else AUpper2 ch.
Definition ALower (ch : Z) : Z := if ch <? 256 then dg ALowerCase ch else ALower2 ch.

(** ** Classes of characters *)

Definition AWordCharSet : list Z := ACharSets.
Definition ALetterCharSet : list Z := drop (31 * 16) ACharSets.

(** [AIsWordChar(ch)] and the test of [StringIsLetter]: a table gives the set
    for every block of 256 characters. *)
Definition in_char_table (low : list Z) (lookup : list Z) (ch : Z) : bool :=
  if ch <? 256 then AReIsInSet low ch
  else AReIsInSet (drop (Z.to_nat (A_RE_SET_SIZE * dg lookup (Z.shiftr ch 8))) ACharSets) (Z.land ch 255).

Definition AIsWordChar (ch : Z) : bool := in_char_table AWordCharSet AWordCharLookupTable ch.
Definition AIsLetter (ch : Z) : bool := in_char_table ALetterCharSet ALetterLookupTable ch.

(** ** Facts about the tables, by evaluation *)

(** [all_chars lo n p]: [p] holds of the [n] characters from [lo] on. *)
Fixpoint all_chars (lo : Z) (n : nat) (p : Z -> bool) : bool :=
  match n with
  | O => true
  | S n => p lo && all_chars (lo + 1) n p
  end.

Lemma all_chars_spec lo n p ch :
  all_chars lo n p = true -> lo <= ch < lo + Z.of_nat n -> p ch = true.
Proof.
  revert lo. induction n as [|n IH]; intros lo; simpl all_chars; [lia|].
  intros [Hp Hr]%andb_prop Hc. destruct (decide (ch = lo)) as [->|]; [done|]. apply (IH (lo + 1)); [done|lia].
Qed.

Definition char_range (ch : Z) : bool :=
  (0 <=? AUpper ch) && (AUpper ch <? 65536) && (0 <=? ALower ch) && (ALower ch <? 65536).

Lemma cases_in_range : all_chars 0 (Z.to_nat 65536) char_range = true.
Proof. vm_compute. reflexivity. Qed.

Lemma case_range ch : 0 <= ch < 65536 -> 0 <= AUpper ch < 65536 /\ 0 <= ALower ch < 65536.
Proof.
  intros Hc. pose proof (all_chars_spec 0 _ _ ch cases_in_range ltac:(lia)) as H.
  unfold char_range in H. lia.
Qed.
