(* ===== verification/StrCase.v ===== *)
(** * StrCase: case conversion of strings and the string module

    [AStrUpper] and [AStrLower] of [std_str.c] and the functions of
    [string_module.c], with what they compute. *)

From S2P Require Import Prelude Runtime Digits Value LongInt LongIntProps IntOps IntConv.
From S2P Require Import IntText IntProps EncodingsSpec StrOps StrMethods StrSpec StrMethodsSpec.
From S2P Require Import StrTables.

Open Scope Z_scope.

(** ** Definitions *)

(** The loop of a narrow string to be made upper case.  The upper case of 255
    is not a narrow character: the code then converts [frame[0]], which is the
    wrapper object and not the string, to a wide string. *)
Fixpoint upper_narrow (n : nat) (src : StrObj) (s : StrObj) (i : Z) : M StrObj :=
  match n with
  | O => mret s
  | S n =>
    ch ← char_at src i;
    if ch =? 255 then fault
    else s ← set_char s i (dg AUpperCase ch); upper_narrow n src s (i + 1)
  end.

(** The other loops: [f] is the mapping of a character. *)
Fixpoint map_chars (n : nat) (f : Z -> Z) (src : StrObj) (s : StrObj) (i : Z) : M StrObj :=
  match n with
  | O => mret s
  | S n => ch ← char_at src i; s ← set_char s i (f ch); map_chars n f src s (i + 1)
  end.

Definition AStrUpper (str : StrObj) : M StrObj :=
  wrap ≫= (fun _ =>
  let len := AStrLen str in
  if AIsNarrow str then s ← new_str false len; upper_narrow (Z.to_nat len) str s 0
  else s ← new_str true len; map_chars (Z.to_nat len) AUpper str s 0).

Definition AStrLower (str : StrObj) : M StrObj :=
  wrap ≫= (fun _ =>
  let len := AStrLen str in
  if AIsNarrow str then s ← new_str false len; map_chars (Z.to_nat len) (dg ALowerCase) str s 0
  else s ← new_str true len; map_chars (Z.to_nat len) ALower str s 0).

Definition StringIsDigit (v : option StrObj) : M bool :=
  ch ← AGetCh v; mret ((48 <=? ch) && (ch <=? 57)).

Definition StringIsLetter (v : option StrObj) : M bool := ch ← AGetCh v; mret (AIsLetter ch).

Definition StringIsWordChar (v : option StrObj) : M bool := ch ← AGetCh v; mret (AIsWordChar ch).

Definition StringIsSpace (v : option StrObj) : M bool :=
  ch ← AGetCh v; mret ((ch <=? 32) && ((ch =? 32) || (ch =? 10) || (ch =? 13) || (ch =? 9))).

(** The buffer of [IntToStr] has [N + 2] characters; the digits are stored from
    the character before the last towards the front.  [ind] is the index of the
    last character stored; a remainder of a negative number is an index in
    front of [ADigits]. *)
Definition IntToStr_N : Z := 100.

Fixpoint short_digits (fuel : nat) (n radix : Z) (buf : list Z) (ind : Z) : M (list Z * Z) :=
  match fuel with
  | O => fault
  | S fuel =>
    let d := Z.rem n radix in
    if d <? 0 then fault
    else
      buf ← buf_put buf (ind - 1) (digit_char d);
      let n := Z.quot n radix in
      if n =? 0 then mret (buf, ind - 1) else short_digits fuel n radix buf (ind - 1)
  end.

Definition IntToStr (i base : AValue) (width : option AValue) : M AValue :=
  radix ← AGetInt base;
  if (radix <? 2) || (36 <? radix) then raise EValueError
  else
    minWidth ← match width with None => mret 0 | Some w => AGetInt w end;
    match i with
    | VInt _ =>
      n ← AGetInt i;
      let sign := n <? 0 in
      let n := if sign then s32 (- n) else n in
      let buf := replicate (Z.to_nat (IntToStr_N + 2)) 0 in
      '(buf, ind) ← short_digits (Z.to_nat (IntToStr_N + 2)) n radix buf (IntToStr_N + 1);
      '(buf, ind) ← pad_loop (Z.to_nat (minWidth - (IntToStr_N + 1 - ind))) buf ind;
      '(buf, ind) ← (if sign then buf ← buf_put buf (ind - 1) 45; mret (buf, ind - 1) else mret (buf, ind));
      AAlloc (8 + (IntToStr_N + 1 - ind)) ≫= (fun _ => mret (VStr (chars buf ind (IntToStr_N + 1))))
    | VLong li => ALongIntToStr li radix minWidth
    | _ => raise ETypeError
    end.

(** ** Case conversion *)

(** A loop that stores [f] of each character of [l] behind [out]. *)
Lemma map_chars_at w f src l out rest k n :
  represents src l -> (k + n = length l)%nat -> (n <= length rest)%nat ->
  Forall (fun c => fits w (f c)) l -> zlen out = Z.of_nat k ->
  evals (map_chars n f src (mk w (out ++ rest)) (Z.of_nat k)) (mk w (out ++ (f <$> drop k l) ++ drop n rest)).
Proof.
  intros Hsrc Hk Hr Hf. revert out rest k Hk Hr. induction n as [|n IH]; intros out rest k Hk Hr Ho.
  - rewrite (drop_ge l) by lia. apply evals_ret.
  - destruct (lookup_lt_is_Some_2 l k ltac:(lia)) as [c Hc]. destruct rest as [|y rest]; [simpl in Hr; lia|].
    cbn [map_chars]. eapply evals_bind; [by eapply char_at_lookup|].
    eapply evals_bind; [rewrite <- Ho; apply set_char_at; exact (Forall_lookup_1 _ _ _ _ Hf Hc)|].
    rewrite (drop_S l c k) by done. cbn [fmap list_fmap app drop].
    replace (out ++ f c :: rest) with ((out ++ [f c]) ++ rest) by (by rewrite <- app_assoc).
    replace (Z.of_nat k + 1) with (Z.of_nat (S k)) by lia.
    replace (out ++ f c :: (f <$> drop (S k) l) ++ drop n rest)
      with ((out ++ [f c]) ++ (f <$> drop (S k) l) ++ drop n rest) by (by rewrite <- app_assoc).
    apply IH; [lia|simpl in Hr; lia|]. rewrite length_app. simpl. lia.
Qed.

Lemma map_chars_spec w f src l d :
  represents src l -> length d = length l -> Forall (fun c => fits w (f c)) l ->
  evals (map_chars (length l) f src (mk w d) 0) (mk w (f <$> l)).
Proof.
  intros Hsrc Hd Hf. pose proof (map_chars_at w f src l [] d 0 (length l) Hsrc) as H.
  rewrite drop_0, (drop_ge d), app_nil_r in H by lia. apply H; (done || lia).
Qed.

Lemma upper_narrow_map n src s i l :
  represents src l -> 0 <= i -> (Z.to_nat i + n = length l)%nat -> 255 ∉ l ->
  forall t, upper_narrow n src s i t = map_chars n (dg AUpperCase) src s i t.
Proof.
  intros Hsrc Hi Hn Hl. revert s i Hi Hn. induction n as [|n IH]; intros s i Hi Hn t; [done|].
  cbn [upper_narrow map_chars]. destruct (lookup_lt_is_Some_2 l (Z.to_nat i) ltac:(lia)) as [c Hc].
  pose proof (char_at_lookup src l (Z.to_nat i) c Hsrc Hc) as He. rewrite Z2Nat.id in He by done.
  unfold mbind, M_bind. rewrite He. destruct (Z.eqb_spec c 255) as [->|].
  { exfalso. apply Hl. apply list_elem_of_lookup. eauto. }
  destruct (set_char s i (dg AUpperCase c) t) as [[s'|e|] t']; [|done..]. apply IH; lia.
Qed.

Definition upper_byte (c : Z) : bool := (c =? 255) || ((0 <=? dg AUpperCase c) && (dg AUpperCase c <? 256)).
Definition lower_byte (c : Z) : bool := (0 <=? dg ALowerCase c) && (dg ALowerCase c <? 256).

Lemma narrow_cases c : byte c -> byte (dg ALowerCase c) /\ (c <> 255 -> byte (dg AUpperCase c)).
Proof.
  unfold byte. intros Hc.
  pose proof (all_chars_spec 0 256 lower_byte c ltac:(vm_compute; reflexivity) ltac:(lia)) as Hl.
  pose proof (all_chars_spec 0 256 upper_byte c ltac:(vm_compute; reflexivity) ltac:(lia)) as Hu.
  unfold lower_byte, upper_byte in *. lia.
Qed.

Lemma new_str_bind {B} w len (f : StrObj -> M B) (Q : B -> Prop) :
  0 <= len -> (forall d, zlen d = len -> returns (f (mk w d)) Q) -> returns (new_str w len ≫= f) Q.
Proof. intros Hl Hf. eapply returns_bind; [by apply new_str_spec|]. intros s (d & -> & Hd). by apply Hf. Qed.

(** The characters of the result of [AStrUpper] and [AStrLower]. *)
Lemma AStrLower_spec s l : represents s l -> returns (AStrLower s) (fun r => represents r (ALower <$> l)).
Proof.
  intros Hs. pose proof Hs as [Hok Hl]. pose proof (chars_fit s Hok) as Hf. rewrite Hl in Hf.
  unfold AStrLower. eapply returns_bind; [apply wrap_spec|]. intros _ _. cbv zeta.
  rewrite (AStrLen_chars s Hok), Hl, Nat2Z.id.
  destruct (AIsNarrow s); (apply new_str_bind; [lia|]; intros d Hd; cbn [negb] in Hf;
    eapply evals_returns; [apply map_chars_spec; [done|lia|]|]).
  - eapply Forall_impl; [|exact Hf]. intros c Hc. exact (proj1 (narrow_cases c Hc)).
  - replace (ALower <$> l) with (dg ALowerCase <$> l).
    + apply represents_mk, Forall_fmap. eapply Forall_impl; [|exact Hf]. intros c Hc. exact (proj1 (narrow_cases c Hc)).
    + apply list_fmap_ext. intros i c Hc. pose proof (Forall_lookup_1 _ _ _ _ Hf Hc) as Hb. simpl in Hb.
      unfold byte in Hb. unfold ALower. by test (c <? 256) true.
  - eapply Forall_impl; [|exact Hf]. intros c Hc. exact (proj2 (case_range c Hc)).
  - apply represents_mk, Forall_fmap. eapply Forall_impl; [|exact Hf]. intros c Hc. exact (proj2 (case_range c Hc)).
Qed.

Lemma AStrUpper_spec s l :
  represents s l -> (AIsNarrow s = true -> 255 ∉ l) ->
  returns (AStrUpper s) (fun r => represents r (AUpper <$> l)).
Proof.
  intros Hs H255. pose proof Hs as [Hok Hl]. pose proof (chars_fit s Hok) as Hf. rewrite Hl in Hf.
  unfold AStrUpper. eapply returns_bind; [apply wrap_spec|]. intros _ _. cbv zeta.
  rewrite (AStrLen_chars s Hok), Hl, Nat2Z.id.
  destruct (AIsNarrow s); (apply new_str_bind; [lia|]; intros d Hd; cbn [negb] in Hf).
  - assert (Hu : Forall (fun c => byte (dg AUpperCase c)) l).
    { apply Forall_lookup. intros i c Hc. pose proof (Forall_lookup_1 _ _ _ _ Hf Hc) as Hb.
      apply (proj2 (narrow_cases c Hb)). intros ->. apply (H255 eq_refl), list_elem_of_lookup. eauto. }
    apply evals_returns with (mk false (dg AUpperCase <$> l)).
    + intros t. rewrite (upper_narrow_map _ s _ 0 l); [|done|lia|lia|by apply H255].
      apply map_chars_spec; [done|lia|done].
    + replace (AUpper <$> l) with (dg AUpperCase <$> l); [by apply represents_mk, Forall_fmap|].
      apply list_fmap_ext. intros i c Hc. pose proof (Forall_lookup_1 _ _ _ _ Hf Hc) as Hb. simpl in Hb.
      unfold byte in Hb. unfold AUpper. by test (c <? 256) true.
  - eapply evals_returns; [apply map_chars_spec; [done|lia|]|].
    + eapply Forall_impl; [|exact Hf]. intros c Hc. exact (proj1 (case_range c Hc)).
    + apply represents_mk, Forall_fmap. eapply Forall_impl; [|exact Hf]. intros c Hc. exact (proj1 (case_range c Hc)).
Qed.

(** ** Integers in a radix *)

Lemma short_digits_spec fuel v radix buf ind :
  2 <= radix <= 36 -> 0 <= v ->
  (length (radix_text radix v) <= fuel)%nat -> zlen (radix_text radix v) <= ind ->
  ind <= IntToStr_N + 1 -> IntToStr_N + 1 <= zlen buf ->
  returns (short_digits fuel v radix buf ind) (fun '(buf', ind') =>
    zlen buf' = zlen buf /\ ind' = ind - zlen (radix_text radix v) /\
    chars buf' ind' (IntToStr_N + 1) = radix_text radix v ++ chars buf ind (IntToStr_N + 1)).
Proof.
  intros Hr. revert v buf ind. induction fuel as [|fuel IH]; intros v buf ind Hv.
  { rewrite radix_text_step by lia. rewrite length_app. simpl. lia. }
  intros Hf Hlen Hi Hb. pose proof (radix_text_step radix v ltac:(lia) ltac:(lia)) as Hstep.
  pose proof (Z.mod_pos_bound v radix ltac:(lia)) as Hmod.
  cbn [short_digits]. cbv zeta. rewrite Z.rem_mod_nonneg, Z.quot_div_nonneg by lia.
  test (v mod radix <? 0) false. rewrite Hstep in Hf, Hlen |- *. rewrite length_app in Hf, Hlen. cbn [length] in Hf, Hlen.
  destruct (chars_put buf ind (IntToStr_N + 1) (digit_char (v mod radix)) ltac:(lia) Hb
    (digit_char_range _ radix Hmod ltac:(lia))) as [Hput Hchars].
  eapply returns_bind_evals; [exact Hput|]. cbv beta.
  destruct (Z.eqb_spec (v / radix) 0) as [E|E].
  - apply returns_ret. rewrite zlen_upd, Hchars. split_and!; (done || lia).
  - assert (0 <= v / radix) by (apply Z.div_pos; lia).
    eapply returns_mono; [apply (IH (v / radix) (upd buf (ind - 1) _) (ind - 1)); rewrite ?zlen_upd; lia|].
    intros [buf' ind'] (Hl & -> & Hc). rewrite zlen_upd in Hl.
    rewrite Hc, Hchars, length_app, <- app_assoc. cbn [length app]. split_and!; (done || lia).
Qed.

Lemma AGetInt_in_range v z : int_repr v z -> - 0x80000000 <= z <= 0x7fffffff -> returns (AGetInt v) (fun i => i = z).
Proof.
  intros Hv Hz. pose proof (AGetInt_spec v z Hv) as H. rewrite andb_true_intro in H by (split; lia).
  eapply spec_mono; [exact H|]. intros r ->. done.
Qed.

Lemma width_spec (w : option AValue) minWidth :
  match w with None => minWidth = 0 | Some w => int_repr w minWidth end -> - 0x80000000 <= minWidth <= 0x7fffffff ->
  returns (match w with None => mret 0 | Some w => AGetInt w end) (fun i => i = minWidth).
Proof. destruct w; [by apply AGetInt_in_range|]. intros -> _. by apply returns_ret. Qed.

(** A short integer, stored from the end of the buffer. *)
Lemma short_text_spec w x radix minWidth :
  int_repr (VInt w) x -> - 0x80000000 < x <= 0x7fffffff -> 2 <= radix <= 36 ->
  zlen (int_text radix minWidth x) <= IntToStr_N + 1 ->
  forall base width, int_repr base radix ->
  match width with None => minWidth = 0 | Some w => int_repr w minWidth end -> - 0x80000000 <= minWidth <= 0x7fffffff ->
  returns (IntToStr (VInt w) base width) (fun v => v = VStr (int_text radix minWidth x)).
Proof.
  intros Hx Hr Hrad Hlen base width Hb Hw Hm. unfold IntToStr.
  eapply returns_bind; [apply (AGetInt_in_range _ _ Hb); lia|]. intros ? ->.
  test (radix <? 2) false. test (36 <? radix) false. cbn [orb].
  eapply returns_bind; [by apply width_spec|]. intros ? ->.
  eapply returns_bind; [apply (AGetInt_in_range _ _ Hx); lia|]. intros ? ->. cbv zeta.
  assert ((if x <? 0 then s32 (- x) else x) = Z.abs x) as ->.
  { destruct (Z.ltb_spec x 0); [|lia]. unfold s32. zsolve. }
  set (T := radix_text radix (Z.abs x)) in *. set (k := Z.to_nat (minWidth - zlen T)).
  assert (Hl : zlen T + Z.of_nat k + (if x <? 0 then 1 else 0) <= 101).
  { unfold int_text in Hlen. fold T k in Hlen. rewrite !length_app, length_replicate in Hlen.
    unfold IntToStr_N in Hlen. destruct (x <? 0); simpl length in Hlen; lia. }
  eapply returns_bind; [apply short_digits_spec; [done|lia| | | |]; fold T; unfold IntToStr_N;
    rewrite ?length_replicate; destruct (x <? 0); lia|].
  fold T. intros [buf1 ind1] (Hl1 & -> & Hc1).
  replace (chars _ (IntToStr_N + 1) (IntToStr_N + 1)) with (@nil Z) in Hc1 by (unfold chars; by rewrite Z.sub_diag).
  rewrite app_nil_r in Hc1. rewrite length_replicate in Hl1. unfold IntToStr_N in *.
  replace (minWidth - (100 + 1 - (100 + 1 - zlen T))) with (minWidth - zlen T) by lia. fold k.
  eapply returns_bind; [apply (pad_loop_spec k buf1 _ (100 + 1)); destruct (x <? 0); lia|].
  intros [buf2 ind2] (Hl2 & Hi2 & Hc2). rewrite Hc1 in Hc2.
  eapply (returns_bind _ _ (fun '(buf3, ind3) => chars buf3 ind3 (100 + 1) = int_text radix minWidth x)).
  { unfold int_text. fold T k. destruct (x <? 0); [|apply returns_ret; by rewrite Hc2].
    destruct (chars_put buf2 ind2 (100 + 1) 45 ltac:(lia) ltac:(lia) ltac:(lia)) as [Hput Hc3].
    eapply returns_bind_evals; [exact Hput|]. apply returns_ret. by rewrite Hc3, Hc2. }
  intros [buf3 ind3] Hc3. eapply returns_bind; [apply AAlloc_spec|]. intros _ _. apply returns_ret. by rewrite Hc3.
Qed.

(** The character 255 ends the loop in a fault. *)
Lemma upper_narrow_fault n src l d k :
  represents src l -> AIsNarrow src = true -> (k + n = length l)%nat -> length d = length l ->
  255 ∈ drop k l -> yields (upper_narrow n src (mk false d) (Z.of_nat k)) Fault.
Proof.
  intros Hsrc Hn. revert d k. induction n as [|n IH]; intros d k Hk Hd H255.
  - rewrite drop_ge in H255 by lia. by apply not_elem_of_nil in H255.
  - destruct (lookup_lt_is_Some_2 l k ltac:(lia)) as [c Hc]. cbn [upper_narrow].
    eapply spec_bind_evals; [by eapply char_at_lookup|]. cbv beta.
    destruct (Z.eqb_spec c 255) as [->|Hne].
    { intros t. split; [done|]. by left. }
    pose proof Hsrc as [Hok Hl]. pose proof (chars_fit src Hok) as Hf. rewrite Hl, Hn in Hf.
    pose proof (Forall_lookup_1 _ _ _ _ Hf Hc) as Hb.
    rewrite <- (take_drop k d). destruct (drop k d) as [|y rest] eqn:Hdk.
    { apply (f_equal length) in Hdk. rewrite length_drop in Hdk. simpl in Hdk. lia. }
    assert (Hlen : length (take k d) = k) by (rewrite length_take; lia).
    eapply spec_bind_evals.
    { rewrite <- Hlen at 2. apply set_char_at. by apply (proj2 (narrow_cases c Hb)). }
    replace (Z.of_nat k + 1) with (Z.of_nat (S k)) by lia. apply IH.
    + lia.
    + apply (f_equal length) in Hdk. rewrite length_drop in Hdk. rewrite length_app, Hlen. simpl in *. lia.
    + rewrite (drop_S l c k) in H255 by done. apply elem_of_cons in H255 as [|]; [congruence|done].
Qed.

Lemma AStrUpper_fault s l :
  represents s l -> AIsNarrow s = true -> 255 ∈ l -> yields (AStrUpper s) Fault.
Proof.
  intros Hs Hn H255. pose proof Hs as [Hok Hl]. unfold AStrUpper.
  eapply spec_bind; [apply wrap_spec|]. intros _ _. cbv zeta. rewrite Hn, (AStrLen_chars s Hok), Hl, Nat2Z.id.
  eapply spec_bind; [apply new_str_spec; lia|]. intros d (e & -> & He).
  apply (upper_narrow_fault _ s l e 0); [done..|lia|]. by rewrite drop_0.
Qed.

(** ** The tables *)

(** Two characters are exceptions: each of 415 and 629 is the lower case of
    the other. *)
Definition case_ok (c : Z) : bool :=
  (AUpper (AUpper c) =? AUpper c) &&
  ((ALower (ALower c) =? ALower c) || (c =? 415) || (c =? 629)) &&
  (negb (AIsLetter c) || AIsWordChar c) &&
  (if c <? 128 then
     (ALower c =? if (65 <=? c) && (c <=? 90) then c + 32 else c) &&
     (AUpper c =? if (97 <=? c) && (c <=? 122) then c - 32 else c) &&
     eqb (AIsLetter c) (((65 <=? c) && (c <=? 90)) || ((97 <=? c) && (c <=? 122))) &&
     eqb (AIsWordChar c) (AIsLetter c || ((48 <=? c) && (c <=? 57)))
   else true).

Lemma case_tables_ok : all_chars 0 (Z.to_nat 65536) case_ok = true.
Proof. vm_compute. reflexivity. Qed.

(** Deciding that characters fit their width. *)
Lemma fits_dec (w : bool) l :
  forallb (fun c => (0 <=? c) && (c <? if w then 65536 else 256)) l = true -> Forall (fits w) l.
Proof.
  intros H. apply Forall_forall. intros c Hc.
  rewrite forallb_forall in H. specialize (H c Hc). destruct w; unfold fits, wide_char, byte; simpl in H; lia.
Qed.

(** ** Properties *)

(** C27: lower and upper map every character of a string in any representation,
    except that upper reads the wrapper object in place of a narrow string that
    has the character 255.  The mappings are idempotent, but for two characters
    that the table of lower case exchanges; letters are word characters; on
    ASCII all tables are the usual ones. *)
Theorem case_conversion_correct s l :
  represents s l ->
  returns (AStrLower s) (fun r => represents r (ALower <$> l)) /\
  ((AIsNarrow s = true -> 255 ∉ l) -> returns (AStrUpper s) (fun r => represents r (AUpper <$> l))) /\
  (AIsNarrow s = true -> 255 ∈ l -> yields (AStrUpper s) Fault) /\
  (forall c, 0 <= c < 65536 -> case_ok c = true).
Proof.
  intros Hs. split_and!; [by apply AStrLower_spec|by apply AStrUpper_spec|by apply AStrUpper_fault|].
  intros c Hc. apply (all_chars_spec 0 (Z.to_nat 65536)); [exact case_tables_ok|lia].
Qed.

Lemma case_conversion_correct_witness :
  returns (AStrLower (SubStr true [65; 0x391; 90] 1 2)) (fun r => represents r [0x3b1; 122]) /\
  returns (AStrUpper (NarrowStr [97; 233])) (fun r => represents r [65; 201]) /\
  yields (AStrUpper (NarrowStr [97; 255])) Fault.
Proof.
  split_and!.
  - apply (case_conversion_correct (SubStr true [65; 0x391; 90] 1 2) [0x391; 90]).
    split; [|done]. split; [by apply fits_dec|simpl; lia].
  - apply (case_conversion_correct (NarrowStr [97; 233]) [97; 233]).
    + by apply (represents_mk false), fits_dec.
    + intros _. rewrite !elem_of_cons, elem_of_nil. lia.
  - apply (case_conversion_correct (NarrowStr [97; 255]) [97; 255]).
    + by apply (represents_mk false), fits_dec.
    + done.
    + rewrite !elem_of_cons. auto.
Defined.

(** The text of an integer in any radix from 2 to 36 is its sign, zeros up
    to the minimum width, and the numeral of its magnitude, and the loops end.
    A long integer never overruns its buffer; [string::IntToStr] stores a short
    one in 101 characters, and refuses short integers beyond 32 bits. *)
Theorem IntToStr_correct v x base radix width minWidth :
  int_repr v x -> int_repr base radix -> 2 <= radix <= 36 ->
  match width with None => minWidth = 0 | Some w => int_repr w minWidth end ->
  - 0x80000000 <= minWidth <= 0x7fffffff ->
  match v with
  | VLong li =>
    returns (ALongIntToStr li radix minWidth) (fun r => r = VStr (int_text radix minWidth x)) /\
    returns (IntToStr v base width) (fun r => r = VStr (int_text radix minWidth x))
  | _ =>
    (- 0x80000000 < x <= 0x7fffffff -> zlen (int_text radix minWidth x) <= 101 ->
      returns (IntToStr v base width) (fun r => r = VStr (int_text radix minWidth x))) /\
    (x < - 0x80000000 \/ 0x7fffffff < x -> raises (IntToStr v base width) EValueError)
  end.
Proof.
  intros Hv Hb Hr Hw Hm. destruct v as [w|li|?|?|?]; try done.
  - split; [intros Hx Hl; by eapply short_text_spec|]. intros Hx. unfold IntToStr.
    eapply spec_bind; [apply (AGetInt_in_range _ _ Hb); lia|]. intros ? ->.
    test (radix <? 2) false. test (36 <? radix) false. cbn [orb].
    eapply spec_bind; [by apply width_spec|]. intros ? ->. apply raises_bind.
    pose proof (AGetInt_spec _ _ Hv) as H. eapply spec_mono; [exact H|]. intros r ->.
    destruct (_ && _) eqn:E; [lia|done].
  - assert (Hli : li_trim li x /\ x <> 0).
    { pose proof (li_norm_trim _ _ Hv) as Ht. split; [done|]. intros ->. by apply (proj1 (proj2 Hv)). }
    pose proof (ALongIntToStr_spec li x radix minWidth (proj1 Hli) (proj2 Hli) Hr) as Hs. split; [done|].
    unfold IntToStr. eapply returns_bind; [apply (AGetInt_in_range _ _ Hb); lia|]. intros ? ->.
    test (radix <? 2) false. test (36 <? radix) false. cbn [orb].
    eapply returns_bind; [by apply width_spec|]. by intros ? ->.
Qed.

Lemma IntToStr_correct_witness :
  returns (IntToStr (si (-5)) (si 2) (Some (si 8))) (fun r => r = VStr (int_text 2 8 (-5))) /\
  raises (IntToStr (si (2 ^ 40)) (si 10) None) EValueError /\
  returns (IntToStr (VLong n70) (si 16) None) (fun r => r = VStr (int_text 16 0 (- 2 ^ 70))).
Proof.
  assert (Hs : forall z, in_short z = true -> int_repr (si z) z) by exact si_repr.
  split_and!.
  - apply (IntToStr_correct (si (-5)) (-5) (si 2) 2 (Some (si 8)) 8);
      first [apply Hs; reflexivity | vm_compute; congruence | done | lia].
  - apply (IntToStr_correct (si (2 ^ 40)) (2 ^ 40) (si 10) 10 None 0);
      first [apply Hs; reflexivity | lia].
  - apply (IntToStr_correct (VLong n70) (- 2 ^ 70) (si 16) 16 None 0);
      first [exact n70_repr | apply Hs; reflexivity | lia].
Defined.
