(* ===== verification/ReDefs.v ===== *)
(** * ReDefs: sets of characters as words of bits

    Membership in the bit sets of [StrTables] after the operations on them. *)

From S2P Require Import Prelude Runtime Digits StrTables.


Open Scope Z_scope.

(** A flag of one bit. *)
Lemma test_flag x n : 0 <= n -> negb (Z.land x (Z.shiftl 1 n) =? 0) = Z.testbit x n.
Proof.
  intros Hn. rewrite Z.shiftl_1_l. destruct (Z.testbit x n) eqn:E.
  - apply negb_true_iff, Z.eqb_neq. intros H. assert (Hb : Z.testbit (Z.land x (2 ^ n)) n = true)
      by (by rewrite Z.land_spec, E, Z.pow2_bits_true). by rewrite H, Z.bits_0 in Hb.
  - apply negb_false_iff, Z.eqb_eq, Z.bits_inj'. intros i Hi. rewrite Z.land_spec, Z.bits_0, Z.pow2_bits_eqb by done.
    destruct (Z.eqb_spec n i) as [<-|]; [by rewrite E|by rewrite andb_false_r].
Qed.

Lemma bit_index ch : Z.land ch 15 = ch mod 16.
Proof. change 15 with (Z.ones 4). by rewrite Z.land_ones. Qed.

Lemma word_index ch : byte ch -> Z.shiftr (u8 ch) 4 = ch / 16.
Proof. intros Hc. rewrite u8_byte, Z.shiftr_div_pow2 by done. done. Qed.

Lemma AReIsInSet_bit set ch : byte ch -> AReIsInSet set ch = Z.testbit (dg set (ch / 16)) (ch mod 16).
Proof. intros Hc. unfold AReIsInSet. rewrite word_index, bit_index, test_flag by (done || zsolve). done. Qed.

(** Sets of 16 words of 16 bits. *)
Definition set_ok (set : list Z) : Prop := length set = 16%nat /\ Forall (fun w => 0 <= w < 65536) set.

Lemma set_ok_upd set i w : set_ok set -> set_ok (upd set i (u16 w)).
Proof.
  intros [Hl Hf]. split; [unfold upd; by rewrite length_insert|]. apply Forall_insert; [done|]. unfold u16. zsolve.
Qed.

Lemma u16_bit x i : 0 <= i < 16 -> Z.testbit (u16 x) i = Z.testbit x i.
Proof. intros Hi. unfold u16. change 65536 with (2 ^ 16). apply Z.mod_pow2_bits_low. lia. Qed.

(** Changing the bit of one character. *)
Lemma change_bit (f : Z -> Z -> Z) (g : bool -> bool -> bool) set c ch :
  (forall x y i, Z.testbit (f x y) i = g (Z.testbit x i) (Z.testbit y i)) -> (forall b, g b false = b) ->
  length set = 16%nat -> byte c -> byte ch ->
  AReIsInSet (upd set (Z.shiftr (u8 c) 4) (u16 (f (dg set (Z.shiftr (u8 c) 4)) (Z.shiftl 1 (Z.land c 15))))) ch =
  g (AReIsInSet set ch) (ch =? c).
Proof.
  intros Hf Hg Hl Hc Hch. rewrite !AReIsInSet_bit by done. rewrite word_index, bit_index by done.
  unfold byte in *. destruct (Z.eqb_spec (ch / 16) (c / 16)) as [E|E].
  - rewrite E, dg_upd_eq by (rewrite Hl; zsolve). rewrite u16_bit, Hf by zsolve. f_equal.
    rewrite Z.shiftl_1_l, Z.pow2_bits_eqb by zsolve. destruct (Z.eqb_spec (c mod 16) (ch mod 16)), (Z.eqb_spec ch c); zsolve.
  - rewrite dg_upd_ne by zsolve. destruct (Z.eqb_spec ch c); [by subst|]. by rewrite Hg.
Qed.

Lemma in_AReAddToSet set c ch : length set = 16%nat -> byte c -> byte ch ->
  AReIsInSet (AReAddToSet set c) ch = AReIsInSet set ch || (ch =? c).
Proof. intros. apply (change_bit Z.lor orb); [apply Z.lor_spec|by intros []|done..]. Qed.

Lemma in_AReToggleInSet set c ch : length set = 16%nat -> byte c -> byte ch ->
  AReIsInSet (AReToggleInSet set c) ch = xorb (AReIsInSet set ch) (ch =? c).
Proof. intros. apply (change_bit Z.lxor xorb); [apply Z.lxor_spec|by intros []|done..]. Qed.

Lemma AReAddToSet_ok set c : set_ok set -> set_ok (AReAddToSet set c).
Proof. apply set_ok_upd. Qed.

Lemma AReToggleInSet_ok set c : set_ok set -> set_ok (AReToggleInSet set c).
Proof. apply set_ok_upd. Qed.

(** Operations on all words. *)
Lemma dg_zip (f : Z -> Z -> Z) a b i : 0 <= i < zlen a -> length a = length b -> dg (zip_with f a b) i = f (dg a i) (dg b i).
Proof.
  intros Hi Hl. unfold dg. rewrite !nth_lookup, lookup_zip_with.
  destruct (lookup_lt_is_Some_2 a (Z.to_nat i)) as [x ->]; [lia|].
  destruct (lookup_lt_is_Some_2 b (Z.to_nat i)) as [y ->]; [lia|]. done.
Qed.

Lemma dg_fmap (f : Z -> Z) a i : 0 <= i < zlen a -> dg (f <$> a) i = f (dg a i).
Proof.
  intros Hi. unfold dg. rewrite !nth_lookup, list_lookup_fmap.
  destruct (lookup_lt_is_Some_2 a (Z.to_nat i)) as [x ->]; [lia|]. done.
Qed.

Lemma in_zip (f : Z -> Z -> Z) (g : bool -> bool -> bool) a b ch :
  (forall x y i, 0 <= i < 16 -> Z.testbit (f x y) i = g (Z.testbit x i) (Z.testbit y i)) ->
  length a = 16%nat -> length b = 16%nat -> byte ch ->
  AReIsInSet (zip_with (fun x y => u16 (f x y)) a b) ch = g (AReIsInSet a ch) (AReIsInSet b ch).
Proof.
  intros Hf Ha Hb Hc. rewrite !AReIsInSet_bit by done. unfold byte in *. rewrite dg_zip by (rewrite ?Ha; zsolve || congruence).
  rewrite u16_bit by zsolve. apply Hf. zsolve.
Qed.

Lemma zip_ok (f : Z -> Z -> Z) a b : length a = 16%nat -> length b = 16%nat -> set_ok (zip_with (fun x y => u16 (f x y)) a b).
Proof.
  intros Ha Hb. split; [by rewrite length_zip_with, Ha, Hb|]. apply Forall_lookup. intros i w Hw.
  apply lookup_zip_with_Some in Hw as (x & y & -> & _). unfold u16. zsolve.
Qed.

Lemma word_lxor w : 0 <= w < 65536 -> 0 <= Z.lxor w 65535 < 65536.
Proof.
  intros Hw. assert (H : Z.lxor w 65535 = Z.lxor w 65535 mod 2 ^ 16); [|rewrite H; apply Z.mod_pos_bound; lia].
  apply Z.bits_inj'. intros i Hi. destruct (decide (i < 16)); [by rewrite Z.mod_pow2_bits_low by lia|].
  rewrite Z.mod_pow2_bits_high, Z.lxor_spec by lia. change 65535 with (Z.ones 16). rewrite Z.ones_spec_high by lia.
  rewrite <- (Z.mod_small w (2 ^ 16)) by lia. by rewrite Z.mod_pow2_bits_high by lia.
Qed.

(** The complement of a set. *)
Definition complement_set (set : list Z) : list Z := (fun w => Z.lxor w 65535) <$> set.

Lemma complement_ok set : set_ok set -> set_ok (complement_set set).
Proof.
  intros [Hl Hf]. split; [unfold complement_set; by rewrite length_fmap|]. apply Forall_fmap.
  eapply Forall_impl; [|exact Hf]. intros w. apply word_lxor.
Qed.

Lemma in_complement set ch : length set = 16%nat -> byte ch -> AReIsInSet (complement_set set) ch = negb (AReIsInSet set ch).
Proof.
  intros Hl Hc. rewrite !AReIsInSet_bit by done. unfold complement_set, byte in *. rewrite dg_fmap by (rewrite Hl; zsolve).
  rewrite Z.lxor_spec. change 65535 with (Z.ones 16). rewrite Z.ones_spec_low by zsolve. apply xorb_true_r.
Qed.

Lemma in_empty_set ch : byte ch -> AReIsInSet (replicate 16 0) ch = false.
Proof.
  intros Hc. rewrite AReIsInSet_bit by done. unfold dg. rewrite nth_lookup, lookup_replicate_2 by (unfold byte in Hc; zsolve).
  apply Z.bits_0.
Qed.

Lemma in_full_set ch : byte ch -> AReIsInSet (replicate 16 65535) ch = true.
Proof.
  intros Hc. rewrite AReIsInSet_bit by done. unfold dg. rewrite nth_lookup, lookup_replicate_2 by (unfold byte in Hc; zsolve).
  simpl. change 65535 with (Z.ones 16). apply Z.ones_spec_low. zsolve.
Qed.

Lemma const_set_ok w : 0 <= w < 65536 -> set_ok (replicate 16 w).
Proof. intros Hw. split; [done|]. by apply Forall_replicate. Qed.

Create HintDb bitset.
#[export] Hint Resolve AReAddToSet_ok AReToggleInSet_ok complement_ok : bitset.

(** * Compiled regular expressions

    [re.h] and [re_internal.h]: the opcodes of compiled regular expressions,
    their operands, flags and limits.  A compiled expression is a list of
    16-bit words. *)


(** ** Opcodes *)

Inductive ReOp :=
  | A_BOW | A_EOW | A_BOL | A_BOL_MULTI | A_EOL | A_EOL_MULTI
  | A_BACKREF | A_BACKREF_I | A_BACKREF_SKIP | A_BACKREF_I_SKIP
  | A_LPAREN | A_RPAREN | A_RPAREN_SKIP
  | A_LITERAL | A_LITERAL_REPEAT | A_LITERAL_REPEAT_MIN | A_LITERAL_STRING
  | A_LITERAL_I | A_LITERAL_I_REPEAT | A_LITERAL_I_REPEAT_MIN | A_LITERAL_I_STRING
  | A_SET | A_SET_REPEAT | A_SET_REPEAT_MIN
  | A_ANY | A_ANY_REPEAT | A_ANY_REPEAT_MIN
  | A_ANY_ALL | A_ANY_ALL_REPEAT | A_ANY_ALL_REPEAT_MIN
  | A_BRANCH_BEFORE | A_BRANCH_AFTER | A_BRANCH_ALWAYS | A_MATCH | A_EMPTY.

(** The number of an opcode in its enumeration. *)
Definition op_num (o : ReOp) : Z :=
  match o with
  | A_BOW => 0 | A_EOW => 1 | A_BOL => 2 | A_BOL_MULTI => 3 | A_EOL => 4 | A_EOL_MULTI => 5
  | A_BACKREF => 6 | A_BACKREF_I => 7 | A_BACKREF_SKIP => 8 | A_BACKREF_I_SKIP => 9
  | A_LPAREN => 10 | A_RPAREN => 11 | A_RPAREN_SKIP => 12
  | A_LITERAL => 13 | A_LITERAL_REPEAT => 14 | A_LITERAL_REPEAT_MIN => 15 | A_LITERAL_STRING => 16
  | A_LITERAL_I => 17 | A_LITERAL_I_REPEAT => 18 | A_LITERAL_I_REPEAT_MIN => 19 | A_LITERAL_I_STRING => 20
  | A_SET => 21 | A_SET_REPEAT => 22 | A_SET_REPEAT_MIN => 23
  | A_ANY => 24 | A_ANY_REPEAT => 25 | A_ANY_REPEAT_MIN => 26
  | A_ANY_ALL => 27 | A_ANY_ALL_REPEAT => 28 | A_ANY_ALL_REPEAT_MIN => 29
  | A_BRANCH_BEFORE => 30 | A_BRANCH_AFTER => 31 | A_BRANCH_ALWAYS => 32 | A_MATCH => 33 | A_EMPTY => 34
  end.

Definition all_ops : list ReOp :=
  [A_BOW; A_EOW; A_BOL; A_BOL_MULTI; A_EOL; A_EOL_MULTI; A_BACKREF; A_BACKREF_I; A_BACKREF_SKIP;
   A_BACKREF_I_SKIP; A_LPAREN; A_RPAREN; A_RPAREN_SKIP; A_LITERAL; A_LITERAL_REPEAT;
   A_LITERAL_REPEAT_MIN; A_LITERAL_STRING; A_LITERAL_I; A_LITERAL_I_REPEAT; A_LITERAL_I_REPEAT_MIN;
   A_LITERAL_I_STRING; A_SET; A_SET_REPEAT; A_SET_REPEAT_MIN; A_ANY; A_ANY_REPEAT; A_ANY_REPEAT_MIN;
   A_ANY_ALL; A_ANY_ALL_REPEAT; A_ANY_ALL_REPEAT_MIN; A_BRANCH_BEFORE; A_BRANCH_AFTER;
   A_BRANCH_ALWAYS; A_MATCH; A_EMPTY].

(** The case of a [switch] over a word of the code. *)
Definition op_of (w : Z) : option ReOp := if w <? 0 then None else all_ops !! Z.to_nat w.

Lemma op_of_num o : op_of (op_num o) = Some o.
Proof. by destruct o. Qed.

Lemma op_num_range o : 0 <= op_num o < 35.
Proof. destruct o; simpl; lia. Qed.

(** Offsets from an opcode to its variants. *)
Definition A_REPEAT : Z := 1.
Definition A_REPEAT_MIN : Z := 2.
Definition A_STRING : Z := 3.

(** ** Limits and flags *)

Definition A_MAX_NESTING_DEPTH : Z := 512.
Definition A_INFINITE_REPEAT : Z := Z.shiftl 1 15.
Definition A_INFINITE_LENGTH : Z := Z.shiftl 1 24.

(** Compilation flags. *)
Definition A_RE_NOCASE : Z := 1.
Definition A_RE_NOSPECIAL : Z := 2.
Definition A_RE_BOL : Z := 4.
Definition A_RE_EOL : Z := 8.
Definition A_RE_BOW : Z := 16.
Definition A_RE_EOW : Z := 32.
Definition A_ALRE_LITERALONLY : Z := 64.
Definition A_ALRE_MUSTLITERAL : Z := 128.
Definition A_ALRE_ANCHORED : Z := 256.

(** Match flags. *)
Definition A_RE_NOBOL : Z := 1.
Definition A_RE_NOEOL : Z := 2.
Definition A_RE_NOSEARCH : Z := 4.

(** Flags of a character set with wide characters. *)
Definition A_WS_IGNORE_CASE : Z := 1.
Definition A_WS_COMPLEMENT : Z := 2.
Definition A_WS_WORD_CHAR : Z := 4.
Definition A_WS_NOT_WORD_CHAR : Z := 8.

(** [flags & flag] as a condition. *)
Definition has_flag (flags flag : Z) : bool := negb (Z.land flags flag =? 0).

(** A word read as a signed displacement ([ASignedRegExpOpcode]). *)
Definition s16 (w : Z) : Z := (w + 32768) mod 65536 - 32768.

Lemma s16_u16 x : -32768 <= x < 32768 -> s16 (u16 x) = x.
Proof. unfold s16, u16. zsolve. Qed.

(** ** Compiled expressions *)

Record ARegExp := MkRegExp {
  re_code : list Z;
  re_flags : Z;
  re_minLen : Z;
  re_numGroups : Z;
  re_mustStringInd : Z;
  re_mustStringLen : Z;
  re_mustStringBack : Z;
  re_startChar : list Z
}.

(** The span of a subexpression: unsigned indices, of which 2^32-1 stands for
    none. *)
Record AReRange := MkRange { range_beg : Z; range_end : Z }.
