(* ===== verification/ReMatch.v ===== *)
(** * ReMatch: the matcher of regular expressions

    [re_match.c] and [re_match_inc.c]: a machine that executes compiled
    expressions with backtracking.  Its stack holds the places where matching
    can be resumed and, in the same entries, the positions of the groups.  A
    pointer into the string is an index, the pointers into the code are
    indices too.

    The matcher is compiled twice, for narrow and for wide strings; [wide]
    selects the version.  A fault is an access outside the code, the block of
    the string, the stack or the table of group starts. *)

From S2P Require Import Prelude Runtime Digits Value StrOps StrTables ReDefs.

Open Scope Z_scope.

(** ** State *)

(** What the member [ip] of a stack entry refers to: the code, [EmptyOpcode],
    or (in an entry of a group) the end of the group or nothing. *)
Inductive IpRef :=
  | CodePtr (i : Z)
  | EmptyPtr
  | StrPtr (i : Z)
  | NullPtr.

Record StackEntry := MkEntry { e_repeat : Z; e_ip : IpRef; e_str : Z }.

Definition STACK_INITIAL_SIZE : Z := 128.
Definition DEFAULT_NUM_SUBEXPS : Z := 16.
Definition PAREN_MIN2 : Z := - Z.shiftl 1 30.
Definition PAREN_MIN : Z := - Z.shiftl 1 29.
Definition PAREN : Z := - Z.shiftl 1 28.

(** The variables of [Try]: [ip], [str], the stack (the entry [st] points to
    comes first), the index of [stTop], and the starts of the groups. *)
Record Machine := MkMachine {
  m_ip : IpRef;
  m_str : Z;
  m_st : list StackEntry;
  m_top : Z;
  m_beg : list Z
}.

(** The result of executing one opcode: go on, [goto Fail], or return. *)
Inductive StepResult :=
  | Next (m : Machine)
  | GoFail (m : Machine)
  | Return (r : Z) (m : Machine).

Section machine.
(** The code and the string, from [GetStrPointers], and the match flags. *)
Variables (code : list Z) (wide : bool) (str : StrObj) (strLen : Z) (flags : Z).

Definition word_at (i : Z) : M Z :=
  if (0 <=? i) && (i <? zlen code) then mret (dg code i) else fault.

(** ** Characters *)

Definition LOWER (ch : Z) : Z := if wide then ALower ch else dg ALowerCase ch.

Definition IS_WORD_CHAR (ch : Z) : bool := if wide then AIsWordChar ch else AReIsInSet AWordCharSet ch.

(** [AIsInSet(ip, ch)] on a set in the code. *)
Definition in_code_set (ip ch : Z) : M bool :=
  w ← word_at (ip + Z.shiftr (u8 ch) 4);
  mret (negb (Z.land w (Z.shiftl 1 (Z.land ch 15)) =? 0)).

(** The loops of [AIsInWideSet2] over the ranges from number [i] on. *)
Fixpoint in_ranges (n : nat) (ip i : Z) (ch1 ch2 : Z) : M bool :=
  match n with
  | O => mret false
  | S n =>
    lo ← word_at (ip + 2 + i * 2);
    hi ← word_at (ip + 3 + i * 2);
    if ((lo <=? ch1) && (ch1 <=? hi)) || ((lo <=? ch2) && (ch2 <=? hi)) then mret true
    else in_ranges n ip (i + 1) ch1 ch2
  end.

Definition AIsInWideSet2 (ip ch : Z) : M bool :=
  let ip := ip + A_RE_SET_SIZE in
  wflags ← word_at (ip + 1);
  let complement := has_flag wflags A_WS_COMPLEMENT in
  n ← word_at ip;
  found ← (if has_flag wflags A_WS_IGNORE_CASE then in_ranges (Z.to_nat n) ip 0 (ALower ch) (AUpper ch)
           else in_ranges (Z.to_nat n) ip 0 ch ch);
  if found : bool then mret (negb complement)
  else if has_flag wflags (Z.lor A_WS_WORD_CHAR A_WS_NOT_WORD_CHAR) &&
          ((has_flag wflags A_WS_WORD_CHAR && AIsWordChar ch) ||
           (has_flag wflags A_WS_NOT_WORD_CHAR && negb (AIsWordChar ch)))
  then mret (negb complement)
  else mret complement.

Definition IS_IN_SET (ip ch : Z) : M bool :=
  if wide && (256 <=? ch) then AIsInWideSet2 ip ch else in_code_set ip ch.

Definition SkipSet (ip : Z) : M Z :=
  n ← word_at (ip + A_RE_SET_SIZE); mret (ip + n * 2 + 2 + A_RE_SET_SIZE).

(** ** The stack *)

(** [st++] and a new entry; it has to be inside the stack. *)
Definition push (e : StackEntry) (m : Machine) : M Machine :=
  if zlen (m_st m) <=? m_top m then mret (MkMachine (m_ip m) (m_str m) (e :: m_st m) (m_top m) (m_beg m))
  else fault.

Definition STACK_ENTRY_SIZE : Z := 24.

(** [GrowStack]: the new stack is twice as large. *)
Definition GrowStack (m : Machine) : M Machine :=
  let ind := zlen (m_st m) - 1 in
  AAlloc (STACK_ENTRY_SIZE * 2 * (ind + 1)) ≫= (fun _ =>
  mret (MkMachine (m_ip m) (m_str m) (m_st m) (2 * ind + 1) (m_beg m))).

(** The label [Check]. *)
Definition check (m : Machine) : M StepResult :=
  if zlen (m_st m) - 1 =? m_top m then m ← GrowStack m; mret (Next m) else mret (Next m).

Definition push_check (e : StackEntry) (m : Machine) : M StepResult := m ← push e m; check m.

Definition set_ip (ip : Z) (m : Machine) : Machine := MkMachine (CodePtr ip) (m_str m) (m_st m) (m_top m) (m_beg m).
Definition set_str (s : Z) (m : Machine) : Machine := MkMachine (m_ip m) s (m_st m) (m_top m) (m_beg m).
Definition set_beg (b : list Z) (m : Machine) : Machine := MkMachine (m_ip m) (m_str m) (m_st m) (m_top m) b.

(** The labels [Repeat] and [RepeatMin], at the code after the repetition. *)
Definition Repeat (ip repeatBeg s : Z) (m : Machine) : M StepResult :=
  push_check (MkEntry (s - repeatBeg) (CodePtr ip) repeatBeg) (set_ip ip (set_str s m)).

Definition RepeatMin (ip repeatBeg s : Z) (m : Machine) : M StepResult :=
  push_check (MkEntry (repeatBeg - s) (CodePtr ip) s) (set_ip ip (set_str repeatBeg m)).

(** The label [Fail]. *)
Fixpoint Fail (st : list StackEntry) (top : Z) (beg : list Z) : M Machine :=
  match st with
  | [] => fault
  | e :: st' =>
    if e_repeat e =? 0 then mret (MkMachine (e_ip e) (e_str e) st' top beg)
    else if 0 <? e_repeat e then
      let e := MkEntry (e_repeat e - 1) (e_ip e) (e_str e) in
      mret (MkMachine (e_ip e) (e_str e + e_repeat e) (e :: st') top beg)
    else if e_repeat e <? PAREN then
      if e_repeat e <? PAREN_MIN then
        let index := e_repeat e - PAREN_MIN2 in
        if (0 <=? index) && (index <? zlen beg) then Fail st' top (upd beg index (e_str e)) else fault
      else Fail st' top beg
    else
      let e := MkEntry (e_repeat e + 1) (e_ip e) (e_str e) in
      mret (MkMachine (e_ip e) (e_str e + e_repeat e) (e :: st') top beg)
  end.

(** ** Repetitions of a character *)

(** [min] characters that satisfy [test]; the position behind them. *)
Fixpoint match_min (n : nat) (test : Z -> M bool) (s : Z) : M (option Z) :=
  match n with
  | O => mret (Some s)
  | S n => c ← char_at str s; ok ← test c; if ok : bool then match_min n test (s + 1) else mret None
  end.

(** [LOWER] of the next character: for wide strings [LOWER] is a macro that evaluates its
    argument twice, so that it tests the width of one character and converts
    the next. *)
Definition lower_next (s : Z) : M (Z * Z) :=
  c ← char_at str s;
  if wide then
    c2 ← char_at str (s + 1);
    if c <? 256 then
      if c2 <? 256 then mret (dg ALowerCase c2, s + 2) else fault
    else mret (ALower2 c2, s + 2)
  else mret (LOWER c, s + 1).

Fixpoint match_min_lower (n : nat) (ch s : Z) : M (option Z) :=
  match n with
  | O => mret (Some s)
  | S n => '(c, s) ← lower_next s; if c =? ch then match_min_lower n ch s else mret None
  end.

(** The end of the run of characters that satisfy [test], at most [n] more. *)
Fixpoint match_run (n : nat) (test : Z -> M bool) (s : Z) : M Z :=
  match n with
  | O => mret s
  | S n => c ← char_at str s; ok ← test c; if ok : bool then match_run n test (s + 1) else mret s
  end.

(** The body of the repetition opcodes: [ip] is behind them, [minloop] is the
    loop over the [min] characters required.  If that has run past the end of
    the string, as [lower_next] may, the loop that follows reads on. *)
Definition repeat_chars (minloop : Z -> M (option Z)) (test : Z -> M bool) (minimize : bool) (min opt ip : Z)
    (m : Machine) : M StepResult :=
  if strLen <? m_str m + min then mret (GoFail m)
  else
    r ← minloop (m_str m);
    match r with
    | None => mret (GoFail m)
    | Some s =>
      let repeatEnd := Z.min (s + opt) strLen in
      if repeatEnd <? s then fault
      else
        e ← match_run (Z.to_nat (repeatEnd - s)) test s;
        if e =? s then mret (Next (set_ip ip (set_str s m)))
        else if minimize then RepeatMin ip s e m else Repeat ip s e m
    end.

(** ** Other loops *)

(** The characters of a literal string: at least one is compared. *)
Fixpoint match_literal (n : nat) (ip s : Z) (conv : Z -> Z) : M bool :=
  match n with
  | O => mret true
  | S n =>
    c ← char_at str s; w ← word_at ip;
    if conv c =? w then match_literal n (ip + 1) (s + 1) conv else mret false
  end.

(** The entry of the last match of a group. *)
Fixpoint find_group (st : list StackEntry) (backRef : Z) : M (option StackEntry) :=
  match st with
  | [] => fault
  | e :: st' =>
    match e_ip e with
    | EmptyPtr => mret None
    | _ => if e_repeat e =? backRef + PAREN_MIN then mret (Some e) else find_group st' backRef
    end
  end.

Fixpoint match_group (n : nat) (s ref : Z) (conv : Z -> Z) : M bool :=
  match n with
  | O => mret true
  | S n =>
    c ← char_at str s; r ← char_at str ref;
    if conv c =? conv r then match_group n (s + 1) (ref + 1) conv else mret false
  end.

(** ** Assertions *)

Definition at_word_char (s : Z) : M bool := c ← char_at str s; mret (IS_WORD_CHAR c).

Definition bow (s : Z) : M bool :=
  before ← (if s =? 0 then mret false else at_word_char (s - 1));
  if before : bool then mret false
  else if s =? strLen then mret false else at_word_char s.

Definition eow (s : Z) : M bool :=
  if s =? 0 then mret false
  else
    before ← at_word_char (s - 1);
    if negb before then mret false
    else if s =? strLen then mret true else w ← at_word_char s; mret (negb w).

Definition bol (s : Z) : M bool := mret (negb (negb (s =? 0) || has_flag flags A_RE_NOBOL)).

Definition bol_multi (s : Z) : M bool :=
  if negb (s =? 0) || has_flag flags A_RE_NOBOL then c ← char_at str (s - 1); mret (c =? 10) else mret true.

Definition eol (s : Z) : M bool := mret (negb (negb (s =? strLen) || has_flag flags A_RE_NOEOL)).

Definition eol_multi (s : Z) : M bool :=
  if negb (s =? strLen) || has_flag flags A_RE_NOEOL then c ← char_at str s; mret (c =? 10) else mret true.

(** ** The opcodes

    [ip] is the index behind the opcode. *)

Definition assertion (check : Z -> M bool) (ip : Z) (m : Machine) : M StepResult :=
  ok ← check (m_str m);
  mret (if ok : bool then Next (set_ip ip m) else GoFail m).

Definition lparen (ip : Z) (m : Machine) : M StepResult :=
  backRef ← word_at ip;
  if backRef <? zlen (m_beg m) then
    push_check (MkEntry (backRef + PAREN_MIN2) NullPtr (dg (m_beg m) backRef))
      (set_ip (ip + 1) (set_beg (upd (m_beg m) backRef (m_str m)) m))
  else fault.

Definition rparen (ip : Z) (m : Machine) : M StepResult :=
  backRef ← word_at ip;
  if backRef <? zlen (m_beg m) then
    push_check (MkEntry (backRef + PAREN_MIN) (StrPtr (m_str m)) (dg (m_beg m) backRef)) (set_ip (ip + 1) m)
  else fault.

Definition rparen_skip (ip : Z) (m : Machine) : M StepResult :=
  backRef ← word_at ip;
  if backRef <? zlen (m_beg m) then
    if dg (m_beg m) backRef =? m_str m then mret (Next (set_ip (ip + 3) m)) else rparen ip m
  else fault.

(** The test for a group that matched nothing in a loop looks at the operand
    [ip[-1]], where it means the opcode [ip[-2]]. *)
Definition backref (ignoreCase : bool) (ip : Z) (m : Machine) : M StepResult :=
  backRef ← word_at ip;
  let ip := ip + 1 in
  r ← find_group (m_st m) backRef;
  match r with
  | None => mret (GoFail m)
  | Some e =>
    match e_ip e with
    | StrPtr refEnd =>
      let refBeg := e_str e in
      if (e_repeat e =? 0) || (strLen <? m_str m + (refEnd - refBeg)) then mret (GoFail m)
      else if refEnd <? refBeg then fault
      else
        ok ← match_group (Z.to_nat (refEnd - refBeg)) (m_str m) refBeg (if ignoreCase then LOWER else id);
        if negb ok then mret (GoFail m)
        else
          let ip := if (refBeg =? refEnd) && (op_num A_BACKREF_SKIP <=? backRef) then ip + 2 else ip in
          mret (Next (set_ip ip (set_str (m_str m + (refEnd - refBeg)) m)))
    | _ => fault
    end
  end.

Definition literal (conv : Z -> Z) (ip : Z) (m : Machine) : M StepResult :=
  if m_str m =? strLen then mret (GoFail m)
  else
    c ← char_at str (m_str m); w ← word_at ip;
    mret (if conv c =? w then Next (set_ip (ip + 1) (set_str (m_str m + 1) m)) else GoFail m).

Definition literal_repeat (ignoreCase minimize : bool) (ip : Z) (m : Machine) : M StepResult :=
  min ← word_at ip; opt ← word_at (ip + 1); ch ← word_at (ip + 2);
  let test c := mret ((if ignoreCase then LOWER c else c) =? ch) in
  let minloop := if ignoreCase then match_min_lower (Z.to_nat min) ch else match_min (Z.to_nat min) test in
  repeat_chars minloop test minimize min opt (ip + 3) m.

Definition literal_string (conv : Z -> Z) (ip : Z) (m : Machine) : M StepResult :=
  litLen ← word_at ip;
  if strLen <? m_str m + litLen then mret (GoFail m)
  else
    let n := Z.max 1 litLen in
    ok ← match_literal (Z.to_nat n) (ip + 1) (m_str m) conv;
    mret (if ok : bool then Next (set_ip (ip + 1 + n) (set_str (m_str m + n) m)) else GoFail m).

Definition set_once (ip : Z) (m : Machine) : M StepResult :=
  if m_str m =? strLen then mret (GoFail m)
  else
    c ← char_at str (m_str m); ok ← IS_IN_SET ip c;
    if negb ok then mret (GoFail m)
    else ip ← SkipSet ip; mret (Next (set_ip ip (set_str (m_str m + 1) m))).

Definition set_repeat (minimize : bool) (ip : Z) (m : Machine) : M StepResult :=
  min ← word_at ip; opt ← word_at (ip + 1);
  let ip := ip + 2 in
  next ← SkipSet ip;
  repeat_chars (match_min (Z.to_nat min) (IS_IN_SET ip)) (IS_IN_SET ip) minimize min opt next m.

Definition any_once (ip : Z) (m : Machine) : M StepResult :=
  mret (if m_str m =? strLen then GoFail m else Next (set_ip ip (set_str (m_str m + 1) m))).

(** No character is looked at; the opcode is told to be minimizing by its
    lowest bit. *)
Definition any_repeat (op ip : Z) (m : Machine) : M StepResult :=
  min ← word_at ip; opt ← word_at (ip + 1);
  let ip := ip + 2 in
  if strLen <? m_str m + min then mret (GoFail m)
  else
    let s := m_str m + min in
    let e := Z.min (s + opt) strLen in
    if s =? e then mret (Next (set_ip ip (set_str s m)))
    else if Z.land op 1 =? Z.land (op_num A_ANY_REPEAT) 1 then Repeat ip s e m else RepeatMin ip s e m.

Definition branch_before (ip : Z) (m : Machine) : M StepResult :=
  w ← word_at ip;
  push_check (MkEntry 0 (CodePtr (ip + 1)) (m_str m)) (set_ip (ip + s16 w) m).

Definition branch_after (ip : Z) (m : Machine) : M StepResult :=
  w ← word_at ip;
  push_check (MkEntry 0 (CodePtr (ip + s16 w)) (m_str m)) (set_ip (ip + 1) m).

Definition branch_always (ip : Z) (m : Machine) : M StepResult :=
  w ← word_at ip; mret (Next (set_ip (ip + s16 w) m)).

Definition step_op (op : option ReOp) (ip : Z) (m : Machine) : M StepResult :=
  match op with
  | Some A_BOW => assertion bow ip m
  | Some A_EOW => assertion eow ip m
  | Some A_BOL => assertion bol ip m
  | Some A_BOL_MULTI => assertion bol_multi ip m
  | Some A_EOL => assertion eol ip m
  | Some A_EOL_MULTI => assertion eol_multi ip m
  | Some A_LPAREN => lparen ip m
  | Some A_RPAREN_SKIP => rparen_skip ip m
  | Some A_RPAREN => rparen ip m
  | Some A_BACKREF | Some A_BACKREF_SKIP => backref false ip m
  | Some A_BACKREF_I | Some A_BACKREF_I_SKIP => backref true ip m
  | Some A_LITERAL => literal id ip m
  | Some A_LITERAL_REPEAT => literal_repeat false false ip m
  | Some A_LITERAL_REPEAT_MIN => literal_repeat false true ip m
  | Some A_LITERAL_STRING => literal_string id ip m
  | Some A_LITERAL_I => literal LOWER ip m
  | Some A_LITERAL_I_REPEAT => literal_repeat true false ip m
  | Some A_LITERAL_I_REPEAT_MIN => literal_repeat true true ip m
  | Some A_LITERAL_I_STRING => literal_string LOWER ip m
  | Some A_SET => set_once ip m
  | Some A_SET_REPEAT => set_repeat false ip m
  | Some A_SET_REPEAT_MIN => set_repeat true ip m
  | Some A_ANY => any_once ip m
  | Some A_ANY_REPEAT => any_repeat (op_num A_ANY_REPEAT) ip m
  | Some A_ANY_REPEAT_MIN => any_repeat (op_num A_ANY_REPEAT_MIN) ip m
  | Some A_ANY_ALL_REPEAT => any_repeat (op_num A_ANY_ALL_REPEAT) ip m
  | Some A_ANY_ALL_REPEAT_MIN => any_repeat (op_num A_ANY_ALL_REPEAT_MIN) ip m
  | Some A_BRANCH_BEFORE => branch_before ip m
  | Some A_BRANCH_AFTER => branch_after ip m
  | Some A_BRANCH_ALWAYS => branch_always ip m
  | Some A_MATCH => mret (Return (m_str m) m)
  | _ => mret (Return (-1) m)
  end.

Definition step (m : Machine) : M StepResult :=
  match m_ip m with
  | CodePtr ip => w ← word_at ip; step_op (op_of w) (ip + 1) m
  | EmptyPtr => step_op (Some A_EMPTY) 0 m
  | _ => fault
  end.

(** The loop of [Try]; [-1] is no match. *)
Fixpoint try_loop (fuel : nat) (m : Machine) : M (Z * Machine) :=
  match fuel with
  | O => fault
  | S fuel =>
    r ← step m;
    match r with
    | Next m => try_loop fuel m
    | GoFail m => m ← Fail (m_st m) (m_top m) (m_beg m); try_loop fuel m
    | Return r m => mret (r, m)
    end
  end.

(** What the calls of [Try] share: the bottom of the stack, whose capacity may
    have grown, and the starts of the groups. *)
Record MatchInfo := MkInfo { info_base : StackEntry; info_top : Z; info_beg : list Z }.

Definition Try (fuel : nat) (info : MatchInfo) (s : Z) : M (Z * Machine) :=
  try_loop fuel (MkMachine (CodePtr 0) s [info_base info] (info_top info) (info_beg info)).

Definition after_try (info : MatchInfo) (m : Machine) : MatchInfo := MkInfo (info_base info) (m_top m) (m_beg m).
End machine.

(** ** Matching *)

(** Whether a character may start a match. *)
Definition may_start (wide : bool) (startChar : list Z) (c : Z) : bool :=
  (wide && (256 <=? c)) || AReIsInSet startChar c.

Section match_re.
Variables (fuel : nat) (re : ARegExp) (str : StrObj) (len : Z) (matchFlags : Z).

(** [AIsNarrowStr( *strValue) || AIsNarrowSubStr( *strValue)] *)
Definition is_wide : bool := negb (AIsNarrow str).

Definition try_at (info : MatchInfo) (s : Z) : M (Z * Machine) := Try (re_code re) is_wide str len matchFlags fuel info s.

(** The loop that tries every position from [s] on, [n] in all; the position
    and the end of the match. *)
Fixpoint search (n : nat) (info : MatchInfo) (s : Z) : M (option (Z * Z * Machine) * MatchInfo) :=
  match n with
  | O => mret (None, info)
  | S n =>
    c ← char_at str s;
    if may_start is_wide (re_startChar re) c then
      '(matchEnd, m) ← try_at info s;
      if negb (matchEnd =? -1) then mret (Some (s, matchEnd, m), info) else search n (after_try info m) (s + 1)
    else search n info (s + 1)
  end.

(** One more try, if [cond] holds. *)
Definition try_once (cond : bool) (info : MatchInfo) (s : Z) : M (option (Z * Z * Machine)) :=
  if cond then
    '(matchEnd, m) ← try_at info s;
    mret (if negb (matchEnd =? -1) then Some (s, matchEnd, m) else None)
  else mret None.

(** [FindSubExpressions]: the entries of the stack from the second on, in
    order of their age. *)
Fixpoint find_loop_groups (st : list StackEntry) (numSubExps : Z) (subExp : list AReRange) : M (list AReRange) :=
  match st with
  | [] => mret subExp
  | e :: st =>
    let backRef := e_repeat e - PAREN_MIN in
    if (0 <? backRef) && (backRef <=? numSubExps) then
      match e_ip e with
      | StrPtr i =>
        if backRef <? zlen subExp
        then find_loop_groups st numSubExps (<[Z.to_nat backRef := MkRange (u32 (e_str e)) (u32 i)]> subExp)
        else fault
      | _ => fault
      end
    else find_loop_groups st numSubExps subExp
  end.

(** The first loop of [FindSubExpressions]. *)
Fixpoint clear_groups (n : nat) (i : Z) (subExp : list AReRange) : M (list AReRange) :=
  match n with
  | O => mret subExp
  | S n =>
    if (0 <=? i) && (i <? zlen subExp)
    then clear_groups n (i + 1) (<[Z.to_nat i := MkRange (u32 (-1)) (u32 (-1))]> subExp)
    else fault
  end.

Definition FindSubExpressions (stack : list StackEntry) (subExp : list AReRange) (numSubExps : Z) : M (list AReRange) :=
  subExp ← clear_groups (Z.to_nat numSubExps) 1 subExp;
  find_loop_groups (tail (rev stack)) numSubExps subExp.

(** [AMatchRegExp]: whether the expression matches, and the spans of the groups
    in [subExp].  [junk] and [junkStr] are what the table of the group starts
    and the first entry of the stack hold at the beginning. *)
Definition AMatchRegExp (pos : Z) (subExp : list AReRange) (maxNumSubExps : Z) (junk : storage) (junkStr : Z)
    : M (bool * list AReRange) :=
  if len <? re_minLen re then mret (false, subExp)
  else
    let table n := (fun i => s32 (junk (Z.of_nat i))) <$> seq 0 (Z.to_nat n) in
    beg ← (if re_numGroups re <? DEFAULT_NUM_SUBEXPS then mret (table DEFAULT_NUM_SUBEXPS)
           else AAlloc (re_numGroups re * 4) ≫= (fun _ => mret (table (re_numGroups re))));
    let info := MkInfo (MkEntry 0 EmptyPtr junkStr) (STACK_INITIAL_SIZE - 1) beg in
    r ← (if negb (has_flag (re_flags re) A_ALRE_ANCHORED) && negb (has_flag matchFlags A_RE_NOSEARCH) then
           '(r, info) ← search (Z.to_nat (len - pos)) info pos;
           match r with
           | Some _ => mret r
           | None => let s := Z.max pos len in try_once ((re_minLen re =? 0) && (s =? len)) info s
           end
         else try_once (pos <=? len) info pos);
    match r with
    | None => mret (false, subExp)
    | Some (matchStart, matchEnd, m) =>
      if 0 <=? maxNumSubExps then
        if 0 <? zlen subExp then
          let subExp := <[0%nat := MkRange (u32 matchStart) (u32 matchEnd)]> subExp in
          if 0 <? maxNumSubExps then
            subExp ← FindSubExpressions (m_st m) subExp maxNumSubExps; mret (true, subExp)
          else mret (true, subExp)
        else fault
      else mret (true, subExp)
    end.
End match_re.
