(* ===== verification/ReSem.v ===== *)
(** * ReSem: the meaning of regular expressions

    Regular expressions as trees, and what they mean: [matches] says which
    substrings and groups an expression can match, and [sem] lists the ways to
    match in the order in which the documentation has them tried (maximal
    repetition first unless it is minimized, the left alternative first), so
    that the head of the list is the match to be reported.  [code_of] is the
    compiled form of a tree. *)

From stdpp Require Import gmap.
From S2P Require Import Prelude Runtime Digits Value StrTables ReDefs.

Open Scope Z_scope.

(** ** Trees *)

Inductive assert := AsBow | AsEow | AsBol | AsBolMulti | AsEol | AsEolMulti.

(** A set of characters: a bit set for those below 256, ranges and flags for
    the others. *)
Record wset := MkSet { ws_bits : list Z; ws_ranges : list (Z * Z); ws_flags : Z }.

(** What one character of the string has to satisfy. *)
Inductive charset :=
  | CLit (ignoreCase : bool) (c : Z)
  | CAny
  | CSet (s : wset).

Inductive re :=
  | REmpty
  | RAssert (a : assert)
  | RChars (k : charset) (min opt : Z) (minimize : bool)
  | RLit (ignoreCase : bool) (s : list Z)
  | RSeq (r1 r2 : re)
  | RAlt (r1 r2 : re)
  | RGroup (n : Z) (r : re)
  | RRef (ignoreCase : bool) (n : Z)
  | ROpt (minimize : bool) (r : re)
  | RLoop (minimize : bool) (n : Z) (r : re)
  | RRefLoop (minimize ignoreCase : bool) (n : Z).

(** ** Characters *)

(** The flag of a set that compares case-insensitively applies to the ranges. *)
Definition in_wide_set (s : wset) (ch : Z) : bool :=
  let icase := has_flag (ws_flags s) A_WS_IGNORE_CASE in
  let c1 := if icase then ALower ch else ch in
  let c2 := if icase then AUpper ch else ch in
  xorb (has_flag (ws_flags s) A_WS_COMPLEMENT)
    (existsb (fun '(lo, hi) => ((lo <=? c1) && (c1 <=? hi)) || ((lo <=? c2) && (c2 <=? hi))) (ws_ranges s)
     || (has_flag (ws_flags s) A_WS_WORD_CHAR && AIsWordChar ch)
     || (has_flag (ws_flags s) A_WS_NOT_WORD_CHAR && negb (AIsWordChar ch))).

Definition in_wset (s : wset) (ch : Z) : bool :=
  if ch <? 256 then AReIsInSet (ws_bits s) ch else in_wide_set s ch.

Definition in_charset (k : charset) (ch : Z) : bool :=
  match k with
  | CLit true c => ALower ch =? c
  | CLit false c => ch =? c
  | CAny => true
  | CSet s => in_wset s ch
  end.

(** ** The meaning *)

(** The last match of each group. *)
Abbreviation groups := (gmap Z (Z * Z)) (only parsing).

(** Where a match has got to: the position and the groups matched so far. *)
Abbreviation pos_groups := (Z * gmap Z (Z * Z))%type (only parsing).

Section meaning.
(** The string. *)
Variable l : list Z.

Definition chr (i : Z) : option Z := if i <? 0 then None else l !! Z.to_nat i.

Definition word_at_pos (i : Z) : bool := match chr i with Some c => AIsWordChar c | None => false end.
Definition newline_at (i : Z) : bool := match chr i with Some c => c =? 10 | None => false end.

(** [^] and [$] match at every line, as compiled by the code. *)
Definition holds (a : assert) (i : Z) : bool :=
  match a with
  | AsBow => negb (word_at_pos (i - 1)) && word_at_pos i
  | AsEow => word_at_pos (i - 1) && negb (word_at_pos i)
  | AsBol => i =? 0
  | AsBolMulti => (i =? 0) || newline_at (i - 1)
  | AsEol => i =? zlen l
  | AsEolMulti => (i =? zlen l) || newline_at i
  end.

(** The characters from position [i] on. *)
Definition from (i : Z) : list Z := drop (Z.to_nat i) l.

Definition slice (i j : Z) : list Z := take (Z.to_nat (j - i)) (from i).

(** The number of characters that satisfy [test] at the front of a text, at
    most [n]. *)
Fixpoint run_length (n : nat) (test : Z -> bool) (t : list Z) : nat :=
  match n, t with
  | S n, c :: t => if test c then S (run_length n test t) else O
  | _, _ => O
  end.

(** The first [n] characters exist and satisfy [test]. *)
Definition all_match (n : nat) (test : Z -> bool) (t : list Z) : bool :=
  (n <=? length t)%nat && forallb test (take n t).

(** The positions behind a repetition, the longest first. *)
Definition chars_from (k : charset) (min opt : Z) (i : Z) : list Z :=
  let test := in_charset k in
  if all_match (Z.to_nat min) test (from i) then
    let n := run_length (Z.to_nat opt) test (from (i + min)) in
    (fun j => i + min + Z.of_nat j) <$> rev (seq 0 (S n))
  else [].

Definition same_text (ignoreCase : bool) (s t : list Z) : bool :=
  bool_decide ((if ignoreCase then ALower <$> s else s) = (if ignoreCase then ALower <$> t else t)).

(** A literal is stored in lower case if case is ignored. *)
Definition lit_matches (ignoreCase : bool) (s t : list Z) : bool :=
  bool_decide ((if ignoreCase then ALower <$> t else t) = s).

(** The iterations of a loop over group [n]: [body] lists the ways to match it
    once.  An iteration that matches nothing ends the loop without being
    recorded as a match of the group. *)
Fixpoint loop_sem (fuel : nat) (minimize : bool) (n : Z) (body : pos_groups -> list pos_groups) (x : pos_groups)
    : list pos_groups :=
  match fuel with
  | O => []
  | S fuel =>
    let again :=
      flat_map (fun y : pos_groups =>
        if y.1 =? x.1 then [y]
        else loop_sem fuel minimize n body (y.1, <[n := (x.1, y.1)]> y.2)) (body x) in
    if minimize then x :: again else again ++ [x]
  end.

(** The match of a back reference. *)
Definition ref_sem (ignoreCase : bool) (n : Z) (x : pos_groups) : list pos_groups :=
  match x.2 !! n with
  | Some (b, e) =>
    if (x.1 + (e - b) <=? zlen l) && same_text ignoreCase (slice b e) (slice x.1 (x.1 + (e - b)))
    then [(x.1 + (e - b), x.2)] else []
  | None => []
  end.

Fixpoint ref_loop (fuel : nat) (minimize ignoreCase : bool) (n : Z) (x : pos_groups) : list pos_groups :=
  match fuel with
  | O => []
  | S fuel =>
    let again := flat_map (fun y : pos_groups => if y.1 =? x.1 then [y] else ref_loop fuel minimize ignoreCase n y)
                   (ref_sem ignoreCase n x) in
    if minimize then x :: again else again ++ [x]
  end.

(** The ways to match [r] from a position on, the preferred ones first. *)
Fixpoint sem (r : re) (x : pos_groups) : list pos_groups :=
  match r with
  | REmpty => [x]
  | RAssert a => if holds a x.1 then [x] else []
  | RChars k min opt minimize =>
    let ps := chars_from k min opt x.1 in (fun p => (p, x.2)) <$> (if minimize then rev ps else ps)
  | RLit ignoreCase s =>
    if lit_matches ignoreCase s (slice x.1 (x.1 + zlen s)) then [(x.1 + zlen s, x.2)] else []
  | RSeq r1 r2 => flat_map (sem r2) (sem r1 x)
  | RAlt r1 r2 => sem r1 x ++ sem r2 x
  | RGroup n r => (fun y => (y.1, <[n := (x.1, y.1)]> y.2)) <$> sem r x
  | RRef ignoreCase n => ref_sem ignoreCase n x
  | ROpt minimize r => if minimize then x :: sem r x else sem r x ++ [x]
  | RLoop minimize n r => loop_sem (S (Z.to_nat (zlen l - x.1))) minimize n (sem r) x
  | RRefLoop minimize ignoreCase n => ref_loop (S (Z.to_nat (zlen l - x.1))) minimize ignoreCase n x
  end.

(** ** The relation

    [matches r x y]: [r] can match from [x] to [y]. *)
Inductive matches : re -> pos_groups -> pos_groups -> Prop :=
  | m_empty x : matches REmpty x x
  | m_assert a x : holds a x.1 = true -> matches (RAssert a) x x
  | m_chars k min opt minimize p g n :
      min <= n <= min + opt -> p + n <= zlen l -> Forall (fun c => in_charset k c = true) (slice p (p + n)) ->
      matches (RChars k min opt minimize) (p, g) (p + n, g)
  | m_lit i s p g : lit_matches i s (slice p (p + zlen s)) = true -> matches (RLit i s) (p, g) (p + zlen s, g)
  | m_seq r1 r2 x y z : matches r1 x y -> matches r2 y z -> matches (RSeq r1 r2) x z
  | m_left r1 r2 x y : matches r1 x y -> matches (RAlt r1 r2) x y
  | m_right r1 r2 x y : matches r2 x y -> matches (RAlt r1 r2) x y
  | m_group n r x y : matches r x y -> matches (RGroup n r) x (y.1, <[n := (x.1, y.1)]> y.2)
  | m_ref i n p g b e :
      g !! n = Some (b, e) -> p + (e - b) <= zlen l -> same_text i (slice b e) (slice p (p + (e - b))) = true ->
      matches (RRef i n) (p, g) (p + (e - b), g)
  | m_skip minimize r x : matches (ROpt minimize r) x x
  | m_once minimize r x y : matches r x y -> matches (ROpt minimize r) x y
  | m_stop minimize n r x : matches (RLoop minimize n r) x x
  | m_nothing minimize n r x y : matches r x y -> y.1 = x.1 -> matches (RLoop minimize n r) x y
  | m_again minimize n r x y z :
      matches r x y -> y.1 <> x.1 -> matches (RLoop minimize n r) (y.1, <[n := (x.1, y.1)]> y.2) z ->
      matches (RLoop minimize n r) x z
  | m_ref_stop minimize i n x : matches (RRefLoop minimize i n) x x
  | m_ref_again minimize i n x y z :
      matches (RRef i n) x y -> y.1 <> x.1 -> matches (RRefLoop minimize i n) y z ->
      matches (RRefLoop minimize i n) x z.
End meaning.

(** ** Compiled code *)

Definition assert_op (a : assert) : ReOp :=
  match a with
  | AsBow => A_BOW | AsEow => A_EOW | AsBol => A_BOL | AsBolMulti => A_BOL_MULTI
  | AsEol => A_EOL | AsEolMulti => A_EOL_MULTI
  end.

Definition wset_code (s : wset) : list Z :=
  ws_bits s ++ [zlen (ws_ranges s); ws_flags s] ++ flat_map (fun '(lo, hi) => [lo; hi]) (ws_ranges s).

Definition charset_op (k : charset) : ReOp :=
  match k with CLit true _ => A_LITERAL_I | CLit false _ => A_LITERAL | CAny => A_ANY | CSet _ => A_SET end.

Definition charset_code (k : charset) : list Z :=
  match k with CLit _ c => [c] | CAny => [] | CSet s => wset_code s end.

(** One character has an opcode of its own. *)
Definition chars_code (k : charset) (min opt : Z) (minimize : bool) : list Z :=
  (if (min =? 1) && (opt =? 0) then [op_num (charset_op k)]
   else [op_num (charset_op k) + A_REPEAT + Z.b2z minimize; min; opt]) ++ charset_code k.

Definition branch_op (before : bool) : Z := op_num (if before then A_BRANCH_BEFORE else A_BRANCH_AFTER).

(** A loop around [body]. *)
Definition loop_code (minimize : bool) (body : list Z) : list Z :=
  [branch_op minimize; u16 (zlen body + 3)] ++ body ++ [branch_op (negb minimize); u16 (- zlen body - 1)].

(** A loop over a back reference is compiled with the opcode that follows that
    of the reference, where the one two places further on is meant: it does not
    break out of the loop, and ignores case if the other does not. *)
Fixpoint code_of (r : re) : list Z :=
  match r with
  | REmpty => []
  | RAssert a => [op_num (assert_op a)]
  | RChars k min opt minimize => chars_code k min opt minimize
  | RLit ignoreCase s => [op_num (if ignoreCase then A_LITERAL_I_STRING else A_LITERAL_STRING); zlen s] ++ s
  | RSeq r1 r2 => code_of r1 ++ code_of r2
  | RAlt r1 r2 =>
    [op_num A_BRANCH_AFTER; u16 (zlen (code_of r1) + 3)] ++ code_of r1 ++
    [op_num A_BRANCH_ALWAYS; u16 (zlen (code_of r2) + 1)] ++ code_of r2
  | RGroup n r => [op_num A_LPAREN; n] ++ code_of r ++ [op_num A_RPAREN; n]
  | RRef ignoreCase n => [op_num (if ignoreCase then A_BACKREF_I else A_BACKREF); n]
  | ROpt minimize r => [branch_op minimize; u16 (zlen (code_of r) + 1)] ++ code_of r
  | RLoop minimize n r =>
    loop_code minimize ([op_num A_LPAREN; n] ++ code_of r ++ [op_num A_RPAREN_SKIP; n])
  | RRefLoop minimize ignoreCase n =>
    loop_code minimize [op_num (if ignoreCase then A_BACKREF_I else A_BACKREF) + 1; n]
  end.
