(* ===== verification/ReRun.v ===== *)
(** * ReRun: reasoning about the matcher

    A configuration of the machine of [ReMatch] is a place in the code, or the
    label [Fail], with the stack and the starts of the groups.  [leads c c']
    says that the machine gets from [c] to [c'] in some number of steps,
    [produces] that it enumerates a list of results at some exit: it reaches
    the exit with the first one, and fails back into the next one until, all
    results exhausted, it fails on the stack it began with.  [same_first]
    compares lists of results up to repetitions behind the first occurrence:
    the machine tries the last choice of a repetition twice. *)

From stdpp Require Import gmap.
From S2P Require Import Prelude Runtime Digits Value Encodings EncodingsSpec StrOps StrSpec.
From S2P Require Import StrTables ReDefs ReMatch ReSem.

Open Scope Z_scope.

(** ** Lists of results *)

(** The first success of [k] on a list. *)
Fixpoint pick {A B} (k : A -> option B) (l : list A) : option B :=
  match l with
  | [] => None
  | x :: l => match k x with Some y => Some y | None => pick k l end
  end.

(** Two lists that no search can tell apart. *)
Definition same_first {A} (l1 l2 : list A) : Prop := forall B (k : A -> option B), pick k l1 = pick k l2.

#[export] Instance same_first_equiv A : Equivalence (@same_first A).
Proof.
  split; [by intros l B k|by intros l1 l2 H B k; rewrite H|]. intros l1 l2 l3 H1 H2 B k. by rewrite H1, H2.
Qed.

Lemma pick_app {A B} (k : A -> option B) l1 l2 :
  pick k (l1 ++ l2) = match pick k l1 with Some y => Some y | None => pick k l2 end.
Proof. induction l1 as [|x l1 IH]; simpl; [done|]. by destruct (k x). Qed.

Lemma pick_flat_map {A B C} (f : A -> list B) (k : B -> option C) l :
  pick k (flat_map f l) = pick (fun x => pick k (f x)) l.
Proof. induction l as [|x l IH]; simpl; [done|]. rewrite pick_app, IH. done. Qed.

Lemma pick_ext {A B} (k1 k2 : A -> option B) l : (forall x, k1 x = k2 x) -> pick k1 l = pick k2 l.
Proof. intros H. induction l as [|x l IH]; simpl; [done|]. by rewrite H, IH. Qed.

#[export] Instance same_first_app A : Proper (same_first ==> same_first ==> same_first) (@app A).
Proof. intros l1 l1' H1 l2 l2' H2 B k. by rewrite !pick_app, H1, H2. Qed.

#[export] Instance same_first_cons A x : Proper (same_first ==> same_first) (@cons A x).
Proof. intros l l' H B k. simpl. by rewrite H. Qed.

Lemma same_first_flat_map {A B} (f g : A -> list B) l l' :
  same_first l l' -> (forall x, same_first (f x) (g x)) -> same_first (flat_map f l) (flat_map g l').
Proof. intros Hl Hf C k. rewrite !pick_flat_map, Hl. apply pick_ext. intros x. apply Hf. Qed.

Lemma flat_map_single {A B} (h : A -> B) l : flat_map (fun y => [h y]) l = h <$> l.
Proof. induction l as [|x l IH]; simpl; [done|]. by rewrite IH. Qed.

Lemma fmap_rev {A B} (f : A -> B) l : f <$> rev l = rev (f <$> l).
Proof. induction l as [|x l IH]; [done|]. simpl. rewrite fmap_app, IH. done. Qed.

(** Repeating the last choice makes no difference. *)
Lemma same_first_twice {A} (l : list A) x : same_first (l ++ [x; x]) (l ++ [x]).
Proof. intros B k. rewrite !pick_app. simpl. by destruct (k x). Qed.

Lemma same_first_head {A} (l1 l2 : list A) : same_first l1 l2 -> head l1 = head l2.
Proof. intros H. pose proof (H A Some) as Hs. by destruct l1, l2. Qed.

(** ** The stack *)

Lemma PAREN_eq : PAREN = -268435456.
Proof. reflexivity. Qed.
Lemma PAREN_MIN_eq : PAREN_MIN = -536870912.
Proof. reflexivity. Qed.
Lemma PAREN_MIN2_eq : PAREN_MIN2 = -1073741824.
Proof. reflexivity. Qed.

(** Arithmetic on the counts in stack entries. *)
Ltac markers := rewrite ?PAREN_eq, ?PAREN_MIN_eq, ?PAREN_MIN2_eq in *; lia.

(** The markers of a group: its start, and its match. *)
Definition start_mark (n old : Z) : StackEntry := MkEntry (n + PAREN_MIN2) NullPtr old.
Definition match_mark (n b e : Z) : StackEntry := MkEntry (n + PAREN_MIN) (StrPtr e) b.

(** The groups matched according to the stack: of the matches of a group the
    topmost counts. *)
Fixpoint stack_groups (st : list StackEntry) : groups :=
  match st with
  | [] => ∅
  | e :: st =>
    match e_ip e with
    | StrPtr i => <[e_repeat e - PAREN_MIN := (e_str e, i)]> (stack_groups st)
    | _ => stack_groups st
    end
  end.

Inductive entry_ok : StackEntry -> Prop :=
  | eo_choice rep i s : PAREN < rep -> rep < 65536 -> entry_ok (MkEntry rep (CodePtr i) s)
  | eo_start n old : 0 <= n < 65536 -> entry_ok (start_mark n old)
  | eo_match n b e : 0 <= n < 65536 -> entry_ok (match_mark n b e).

Definition stack_ok (st : list StackEntry) : Prop :=
  exists st' junk, st = st' ++ [MkEntry 0 EmptyPtr junk] /\ Forall entry_ok st'.

Lemma stack_ok_cons e st : entry_ok e -> stack_ok st -> stack_ok (e :: st).
Proof. intros He (st' & junk & -> & Hst). exists (e :: st'), junk. split; [done|by constructor]. Qed.

(** A back reference finds the last match of its group. *)
Lemma find_group_spec st n :
  stack_ok st -> 0 <= n < 65536 ->
  exists r, evals (find_group st n) r /\
    match stack_groups st !! n with
    | Some (b, e) => r = Some (match_mark n b e)
    | None => r = None
    end.
Proof.
  intros (st' & junk & -> & Hst) Hn. induction Hst as [|e st' He Hst (r & IHr & IH)].
  - exists None. simpl. rewrite lookup_empty. split; [apply evals_ret|done].
  - destruct He as [rep i s Hr1 Hr2|m old Hm|m b e Hm]; cbn [app find_group e_ip e_repeat stack_groups start_mark match_mark e_str].
    + exists r. split; [|done]. destruct (Z.eqb_spec rep (n + PAREN_MIN)) as [Heq|]; [markers|done].
    + exists r. split; [|done]. destruct (Z.eqb_spec (m + PAREN_MIN2) (n + PAREN_MIN)) as [Heq|]; [markers|done].
    + replace (m + PAREN_MIN - PAREN_MIN) with m by lia. destruct (Z.eqb_spec (m + PAREN_MIN) (n + PAREN_MIN)) as [Heq|Hne].
      * assert (m = n) as -> by lia. rewrite lookup_insert_eq. eexists. split; [apply evals_ret|done].
      * rewrite lookup_insert_ne by lia. by exists r.
Qed.

(** ** Configurations *)

Inductive conf :=
  | CAt (ip p : Z) (st : list StackEntry) (beg : list Z)
  | CFail (st : list StackEntry) (beg : list Z).

Definition conf_st (c : conf) : list StackEntry := match c with CAt _ _ st _ | CFail st _ => st end.

Section run.
Context (code : list Z) (wide : bool) (str : StrObj) (strLen flags : Z).
(** The characters of the string and the number of groups. *)
Context (l : list Z) (nb : Z).

(** Running a configuration on a stack whose last entry has the index [top]. *)
Definition run_conf (fuel : nat) (top : Z) (c : conf) : M (Z * Machine) :=
  match c with
  | CAt ip p st beg => try_loop code wide str strLen flags fuel (MkMachine (CodePtr ip) p st top beg)
  | CFail st beg => m ← Fail st top beg; try_loop code wide str strLen flags fuel m
  end.

Definition leads (c c' : conf) : Prop :=
  exists n, forall fuel top Q, zlen (conf_st c) <= top ->
    (forall top', zlen (conf_st c') <= top' -> returns (run_conf fuel top' c') Q) ->
    returns (run_conf (n + fuel) top c) Q.

Lemma leads_refl c : leads c c.
Proof. exists 0%nat. intros fuel top Q Ht H. by apply H. Qed.

Lemma leads_trans c1 c2 c3 : leads c1 c2 -> leads c2 c3 -> leads c1 c3.
Proof.
  intros [n1 H1] [n2 H2]. exists (n1 + n2)%nat. intros fuel top Q Ht H.
  rewrite <- Nat.add_assoc. apply H1; [done|]. intros top' Ht'. by apply H2.
Qed.

(** What a result of [step] says of the configuration after it. *)
Definition reaches (c' : conf) (r : StepResult) : Prop :=
  match c', r with
  | CAt ip p st beg, Next m => exists top, zlen st <= top /\ m = MkMachine (CodePtr ip) p st top beg
  | CFail st beg, GoFail m => exists top, zlen st <= top /\ m_st m = st /\ m_top m = top /\ m_beg m = beg
  | _, _ => False
  end.

Lemma leads_step ip p st beg w c' :
  0 <= ip < zlen code -> dg code ip = w ->
  (forall top, zlen st <= top ->
    returns (step_op code wide str strLen flags (op_of w) (ip + 1) (MkMachine (CodePtr ip) p st top beg)) (reaches c')) ->
  leads (CAt ip p st beg) c'.
Proof.
  intros Hip Hw Hs. exists 1%nat. intros fuel top Q Ht H. simpl. unfold step. cbn [m_ip].
  eapply returns_bind.
  - unfold word_at. rewrite in_bounds by done. rewrite Hw.
    eapply returns_bind_evals; [apply evals_ret|]. by apply Hs.
  - intros r Hr. destruct c' as [ip' p' st' beg'|st' beg'], r as [m|m|z m]; simpl in Hr; try done.
    + destruct Hr as (top' & Ht' & ->). by apply (H top').
    + destruct Hr as (top' & Ht' & <- & <- & <-). by apply (H (m_top m)).
Qed.

(** Pushing an entry, with a larger stack if this one is full. *)
Lemma push_check_spec e ip0 p st top beg :
  zlen st <= top ->
  returns (push_check e (MkMachine ip0 p st top beg)) (fun r =>
    exists top', zlen (e :: st) <= top' /\ r = Next (MkMachine ip0 p (e :: st) top' beg)).
Proof.
  intros Ht. unfold push_check, push. cbn [m_st m_top m_ip m_str m_beg]. test (zlen st <=? top) true.
  eapply returns_bind_evals; [apply evals_ret|]. unfold check. cbn [m_st m_top].
  assert (Hl : zlen (e :: st) = zlen st + 1) by (simpl; lia).
  destruct (Z.eqb_spec (zlen (e :: st) - 1) top) as [Heq|Hne].
  - eapply (returns_bind _ _ (fun m => m = MkMachine ip0 p (e :: st) (2 * (zlen (e :: st) - 1) + 1) beg)).
    + unfold GrowStack. eapply returns_bind; [apply AAlloc_spec|]. intros junk _. by apply returns_ret.
    + intros m ->. apply returns_ret. eexists. split; [|done]. lia.
  - apply returns_ret. eexists. split; [|done]. lia.
Qed.

Lemma push_reaches e ip p st top beg :
  zlen st <= top ->
  returns (push_check e (MkMachine (CodePtr ip) p st top beg)) (reaches (CAt ip p (e :: st) beg)).
Proof.
  intros Ht. eapply returns_mono; [by apply push_check_spec|]. intros r (top' & Ht' & ->). by exists top'.
Qed.

(** *** Failing *)

Lemma fail_choice ip s st beg : leads (CFail (MkEntry 0 (CodePtr ip) s :: st) beg) (CAt ip s st beg).
Proof. exists 0%nat. intros fuel top Q Ht H. apply (H top). simpl in *. lia. Qed.

Lemma fail_greedy n ip s st beg :
  0 < n -> leads (CFail (MkEntry n (CodePtr ip) s :: st) beg) (CAt ip (s + (n - 1)) (MkEntry (n - 1) (CodePtr ip) s :: st) beg).
Proof.
  intros Hn. exists 0%nat. intros fuel top Q Ht H. cbn [run_conf Fail e_repeat e_ip e_str].
  destruct (Z.eqb_spec n 0); [lia|]. test (0 <? n) true. apply (H top). simpl in *. lia.
Qed.

Lemma fail_lazy n ip s st beg :
  PAREN < n < 0 ->
  leads (CFail (MkEntry n (CodePtr ip) s :: st) beg) (CAt ip (s + (n + 1)) (MkEntry (n + 1) (CodePtr ip) s :: st) beg).
Proof.
  intros Hn. exists 0%nat. intros fuel top Q Ht H. cbn [run_conf Fail e_repeat e_ip e_str].
  destruct (Z.eqb_spec n 0); [lia|]. test (0 <? n) false. test (n <? PAREN) false. apply (H top). simpl in *. lia.
Qed.

Lemma fail_match n b e st beg : 0 <= n < 65536 -> leads (CFail (match_mark n b e :: st) beg) (CFail st beg).
Proof.
  intros Hn. exists 0%nat. intros fuel top Q Ht H. cbn [run_conf Fail e_repeat match_mark].
  destruct (Z.eqb_spec (n + PAREN_MIN) 0); [markers|].
  replace (0 <? n + PAREN_MIN) with false by (symmetry; apply Z.ltb_ge; markers).
  replace (n + PAREN_MIN <? PAREN) with true by (symmetry; apply Z.ltb_lt; markers).
  replace (n + PAREN_MIN <? PAREN_MIN) with false by (symmetry; apply Z.ltb_ge; markers).
  apply (H top). simpl in *. lia.
Qed.

Lemma fail_start n old st beg :
  0 <= n < 65536 -> n < zlen beg -> leads (CFail (start_mark n old :: st) beg) (CFail st (upd beg n old)).
Proof.
  intros Hn Hb. exists 0%nat. intros fuel top Q Ht H. cbn [run_conf Fail e_repeat start_mark e_str].
  destruct (Z.eqb_spec (n + PAREN_MIN2) 0); [markers|].
  replace (0 <? n + PAREN_MIN2) with false by (symmetry; apply Z.ltb_ge; markers).
  replace (n + PAREN_MIN2 <? PAREN) with true by (symmetry; apply Z.ltb_lt; markers).
  replace (n + PAREN_MIN2 <? PAREN_MIN) with true by (symmetry; apply Z.ltb_lt; markers). cbv zeta.
  replace (n + PAREN_MIN2 - PAREN_MIN2) with n by lia. rewrite in_bounds by lia.
  apply (H top). simpl in *. lia.
Qed.

(** ** Enumerations *)

Record inv (p : Z) (st : list StackEntry) (beg : list Z) : Prop := {
  inv_pos : 0 <= p <= zlen l;
  inv_stack : stack_ok st;
  inv_groups : forall n b e, stack_groups st !! n = Some (b, e) -> 0 <= b <= e /\ e <= zlen l;
  inv_beg : zlen beg = nb
}.

(** From [c] the machine enumerates the results [ms] at the exit [b]: at each it
    has pushed entries on the stack [st]; in the end it fails on [st] with the
    starts [beg].  [R] is what holds of the position and the starts at every
    result. *)
Inductive produces (b : Z) (R : Z -> list Z -> Prop) (st : list StackEntry) (beg : list Z) :
    conf -> list pos_groups -> Prop :=
  | pr_nil c : leads c (CFail st beg) -> produces b R st beg c []
  | pr_cons c p st' beg' ms :
      leads c (CAt b p (st' ++ st) beg') -> inv p (st' ++ st) beg' -> R p beg' ->
      produces b R st beg (CFail (st' ++ st) beg') ms ->
      produces b R st beg c ((p, stack_groups (st' ++ st)) :: ms).

Lemma produces_leads b R st beg c c' ms : leads c c' -> produces b R st beg c' ms -> produces b R st beg c ms.
Proof.
  intros Hc Hp. inversion Hp as [? H|? ? ? ? ? H]; subst.
  - apply pr_nil. by eapply leads_trans.
  - apply pr_cons with beg'; [by eapply leads_trans|done..].
Qed.

Lemma produces_mono b (R R' : Z -> list Z -> Prop) st beg c ms :
  (forall p beg', R p beg' -> R' p beg') -> produces b R st beg c ms -> produces b R' st beg c ms.
Proof. intros HR Hp. induction Hp; [by apply pr_nil|]. eapply pr_cons; eauto. Qed.

(** One result on the stack as it is. *)
Lemma produces_one b (R : Z -> list Z -> Prop) st beg p : inv p st beg -> R p beg ->
  produces b R st beg (CAt b p st beg) [(p, stack_groups st)].
Proof.
  intros Hi HR. apply (pr_cons b R st beg _ p [] beg); [apply leads_refl|done|done|apply pr_nil, leads_refl].
Qed.

(** An enumeration above some entries [st1], which in the end are failed into
    and lead to more results. *)
Lemma produces_app b R st beg st1 beg1 c ms1 ms2 :
  produces b R (st1 ++ st) beg1 c ms1 -> produces b R st beg (CFail (st1 ++ st) beg1) ms2 ->
  produces b R st beg c (ms1 ++ ms2).
Proof.
  intros H1 H2. induction H1 as [c Hc|c p st' beg' ms Hc Hi HR _ IH].
  - by eapply produces_leads.
  - rewrite app_assoc in *. by apply pr_cons with beg'.
Qed.

(** Sequential composition: every result of the first enumeration, at the exit
    [m], is the beginning of an enumeration of [f]. *)
Lemma produces_bind b m (R1 R : Z -> list Z -> Prop) f st beg c ms :
  produces m R1 st beg c ms ->
  (forall p st' beg', inv p (st' ++ st) beg' -> R1 p beg' ->
    exists ms', produces b R (st' ++ st) beg' (CAt m p (st' ++ st) beg') ms' /\
      same_first ms' (f (p, stack_groups (st' ++ st)))) ->
  exists ms2, produces b R st beg c ms2 /\ same_first ms2 (flat_map f ms).
Proof.
  intros H1 Hf. induction H1 as [c Hc|c p st' beg' ms Hc Hi HR _ (ms2 & Hp2 & Hs2)].
  - exists []. split; [by apply pr_nil|done].
  - destruct (Hf p st' beg' Hi HR) as (ms' & Hp' & Hs'). exists (ms' ++ ms2). split.
    + eapply produces_leads; [exact Hc|]. by eapply produces_app.
    + simpl. by rewrite Hs', Hs2.
Qed.

(** Going on from the exit without effect. *)
Lemma produces_exit b m R st beg c ms :
  (forall p st' beg', leads (CAt m p st' beg') (CAt b p st' beg')) ->
  produces m R st beg c ms -> produces b R st beg c ms.
Proof.
  intros Hm Hp. induction Hp as [c Hc|c p st' beg' ms Hc Hi HR _ IH]; [by apply pr_nil|].
  apply pr_cons with beg'; [|done..]. by eapply leads_trans.
Qed.

(** The first result is where a run gets to. *)
Lemma produces_run b R st beg c ms :
  produces b R st beg c ms ->
  match ms with
  | [] => leads c (CFail st beg)
  | (p, g) :: _ => exists st' beg', leads c (CAt b p (st' ++ st) beg') /\ g = stack_groups (st' ++ st) /\
      inv p (st' ++ st) beg' /\ R p beg'
  end.
Proof. intros [c' Hc|c' p st' beg' ms' Hc Hi HR _]; [done|]. exists st', beg'. done. Qed.

(** *** Repetitions *)

(** The choices that an entry of a greedy repetition stands for: [n] down to
    0, and 0 once more. *)
Lemma produces_greedy n b (R : Z -> list Z -> Prop) s st beg :
  (forall j, 0 <= j <= Z.of_nat n -> inv (s + j) st beg /\ R (s + j) beg) -> Z.of_nat n <= 32768 ->
  produces b R st beg (CAt b (s + Z.of_nat n) (MkEntry (Z.of_nat n) (CodePtr b) s :: st) beg)
    (((fun j => (s + Z.of_nat j, stack_groups st)) <$> rev (seq 0 (S n))) ++ [(s, stack_groups st)]).
Proof.
  intros Hj Hn. induction n as [|n IH].
  - simpl. rewrite Z.add_0_r.
    destruct (Hj 0 ltac:(lia)) as [Hi HR]. rewrite Z.add_0_r in Hi, HR.
    apply (pr_cons b R st beg _ s [MkEntry 0 (CodePtr b) s] beg); [apply leads_refl|..].
    + destruct Hi as [Hp Hst Hg Hb]. split; [done| |done|done]. apply stack_ok_cons; [|done].
      constructor; [markers|lia].
    + done.
    + eapply produces_leads; [apply fail_choice|]. by apply produces_one.
  - rewrite seq_S, rev_unit, fmap_cons. cbn [app Nat.add].
    destruct (Hj (Z.of_nat (S n)) ltac:(lia)) as [Hi HR].
    apply (pr_cons b R st beg _ _ [MkEntry (Z.of_nat (S n)) (CodePtr b) s] beg); [apply leads_refl|..].
    + destruct Hi as [Hp Hst Hg Hb]. split; [done| |done|done]. apply stack_ok_cons; [|done].
      constructor; [markers|lia].
    + done.
    + eapply produces_leads; [apply fail_greedy; lia|]. replace (Z.of_nat (S n) - 1) with (Z.of_nat n) by lia.
      apply IH; [|lia]. intros j Hjn. apply Hj. lia.
Qed.

(** The choices of a minimizing repetition: from [n] characters before [s] up to
    [s], and [s] once more. *)
Lemma produces_lazy n b (R : Z -> list Z -> Prop) s st beg :
  (forall j, 0 <= j <= Z.of_nat n -> inv (s - j) st beg /\ R (s - j) beg) -> Z.of_nat n <= 32768 ->
  produces b R st beg (CAt b (s - Z.of_nat n) (MkEntry (- Z.of_nat n) (CodePtr b) s :: st) beg)
    (((fun j => (s - Z.of_nat j, stack_groups st)) <$> rev (seq 0 (S n))) ++ [(s, stack_groups st)]).
Proof.
  intros Hj Hn. induction n as [|n IH].
  - simpl. rewrite Z.sub_0_r.
    destruct (Hj 0 ltac:(lia)) as [Hi HR]. rewrite Z.sub_0_r in Hi, HR.
    apply (pr_cons b R st beg _ s [MkEntry 0 (CodePtr b) s] beg); [apply leads_refl|..].
    + destruct Hi as [Hp Hst Hg Hb]. split; [done| |done|done]. apply stack_ok_cons; [|done].
      constructor; [markers|lia].
    + done.
    + eapply produces_leads; [apply fail_choice|]. by apply produces_one.
  - rewrite seq_S, rev_unit, fmap_cons. cbn [app Nat.add].
    destruct (Hj (Z.of_nat (S n)) ltac:(lia)) as [Hi HR].
    apply (pr_cons b R st beg _ _ [MkEntry (- Z.of_nat (S n)) (CodePtr b) s] beg); [apply leads_refl|..].
    + destruct Hi as [Hp Hst Hg Hb]. split; [done| |done|done]. apply stack_ok_cons; [|done].
      constructor; [markers|lia].
    + done.
    + eapply produces_leads; [apply fail_lazy; markers|]. replace (- Z.of_nat (S n) + 1) with (- Z.of_nat n) by lia.
      rewrite Z.add_opp_r. apply IH; [|lia]. intros j Hjn. apply Hj. lia.
Qed.
End run.
