(* ===== verification/ReStep.v ===== *)
(** * ReStep: what the opcodes of the matcher do

    The opcodes without control flow - assertions, characters, sets and their
    repetitions, literal strings, back references - in terms of the meaning of
    the expressions they are compiled from: each leads to the configurations
    that [ReSem] predicts. *)

From stdpp Require Import gmap.
From S2P Require Import Prelude Runtime Digits Value Encodings EncodingsSpec StrOps StrSpec.
From S2P Require Import StrTables ReDefs ReMatch ReSem ReRun.

Open Scope Z_scope.

(** ** Code *)

Definition code_at (code : list Z) (pc : Z) (c : list Z) : Prop :=
  exists c1 c2, code = c1 ++ c ++ c2 /\ zlen c1 = pc.

Lemma code_at_app code pc c1 c2 :
  code_at code pc (c1 ++ c2) -> code_at code pc c1 /\ code_at code (pc + zlen c1) c2.
Proof.
  intros (d1 & d2 & -> & <-). split.
  - exists d1, (c2 ++ d2). split; [by rewrite <- !app_assoc|done].
  - exists (d1 ++ c1), d2. split; [by rewrite <- !app_assoc|]. rewrite length_app. lia.
Qed.

Lemma code_at_cons code pc w c : code_at code pc (w :: c) -> code_at code (pc + 1) c.
Proof. intros H. by apply (code_at_app code pc [w] c) in H as [_ H]. Qed.

Lemma code_at_bounds code pc c : code_at code pc c -> 0 <= pc /\ pc + zlen c <= zlen code.
Proof. intros (d1 & d2 & -> & <-). rewrite !length_app. lia. Qed.

Lemma code_at_head code pc w c : code_at code pc (w :: c) -> 0 <= pc < zlen code /\ dg code pc = w.
Proof.
  intros (d1 & d2 & -> & <-). rewrite !length_app. simpl. split; [lia|]. apply dg_at.
Qed.

Lemma word_at_head code pc w c : code_at code pc (w :: c) -> evals (word_at code pc) w.
Proof.
  intros H. apply code_at_head in H as [Hb <-]. unfold word_at. rewrite in_bounds by done. apply evals_ret.
Qed.

Lemma word_at_nth code pc c i w : code_at code pc c -> c !! i = Some w -> evals (word_at code (pc + Z.of_nat i)) w.
Proof.
  intros Hc Hi. rewrite <- (take_drop_middle c i w Hi) in Hc. apply code_at_app in Hc as [_ Hc].
  replace (zlen (take i c)) with (Z.of_nat i) in Hc; [by eapply word_at_head|].
  apply lookup_lt_Some in Hi. rewrite length_take. lia.
Qed.

Section step.
Context (code : list Z) (wide : bool) (str : StrObj) (flags : Z) (l : list Z).
Hypothesis Hstr : represents str l.
Hypothesis Hwide : wide = negb (AIsNarrow str).
#[local] Set Default Proof Using "Type Hstr Hwide".

Local Abbreviation len := (zlen l).
Local Abbreviation leads := (leads code wide str len flags).

(** ** Characters *)

Lemma chr_at i : 0 <= i < len -> exists c, chr l i = Some c /\ evals (char_at str i) c /\ fits wide c.
Proof.
  intros Hi. destruct (lookup_lt_is_Some_2 l (Z.to_nat i) ltac:(lia)) as [c Hc]. exists c. split_and!.
  - unfold chr. by test (i <? 0) false.
  - rewrite <- (Z2Nat.id i) by lia. by eapply char_at_lookup.
  - destruct Hstr as [Hok Hl]. pose proof (chars_fit str Hok) as Hf. rewrite Hl, <- Hwide in Hf.
    by apply (Forall_lookup_1 _ _ _ _ Hf Hc).
Qed.

Lemma from_cons i c : 0 <= i -> chr l i = Some c -> from l i = c :: from l (i + 1).
Proof using.
  intros Hi Hc. unfold chr in Hc. replace (i <? 0) with false in Hc by (symmetry; apply Z.ltb_ge; lia).
  unfold from. rewrite (drop_S l c (Z.to_nat i)) by done. do 2 f_equal. lia.
Qed.

Lemma LOWER_eq c : fits wide c -> LOWER wide c = ALower c.
Proof using.
  clear Hwide. unfold LOWER. destruct wide; [done|]. simpl. unfold byte. intros Hc. unfold ALower. by test (c <? 256) true.
Qed.

Lemma IS_WORD_CHAR_eq c : fits wide c -> IS_WORD_CHAR wide c = AIsWordChar c.
Proof using.
  clear Hwide. unfold IS_WORD_CHAR. destruct wide; [done|]. simpl. unfold byte. intros Hc.
  unfold AIsWordChar, in_char_table. by test (c <? 256) true.
Qed.

Lemma word_test i : 0 <= i < len -> evals (at_word_char wide str i) (word_at_pos l i).
Proof.
  intros Hi. destruct (chr_at i Hi) as (c & Hc & He & Hf). unfold at_word_char, word_at_pos. rewrite Hc.
  eapply evals_bind; [exact He|]. rewrite IS_WORD_CHAR_eq by done. apply evals_ret.
Qed.

Lemma newline_test i : 0 <= i < len -> evals (c ← char_at str i; mret (c =? 10)) (newline_at l i).
Proof.
  intros Hi. destruct (chr_at i Hi) as (c & Hc & He & Hf). unfold newline_at. rewrite Hc.
  eapply evals_bind; [exact He|]. apply evals_ret.
Qed.

Lemma chr_out i : i < 0 \/ len <= i -> chr l i = None.
Proof using.
  intros Hi. unfold chr. destruct (Z.ltb_spec i 0); [done|]. apply lookup_ge_None. lia.
Qed.

(** ** Assertions *)

Definition assert_check (a : assert) : Z -> M bool :=
  match a with
  | AsBow => bow wide str len | AsEow => eow wide str len
  | AsBol => bol flags | AsBolMulti => bol_multi str flags
  | AsEol => eol len flags | AsEolMulti => eol_multi str len flags
  end.

Hypothesis Hbol : has_flag flags A_RE_NOBOL = false.
Hypothesis Heol : has_flag flags A_RE_NOEOL = false.

Lemma assert_spec a i : 0 <= i <= len -> evals (assert_check a i) (holds l a i).
Proof using Hstr Hwide Hbol Heol.
  intros Hi.
  assert (Hw0 : i = 0 -> word_at_pos l (i - 1) = false) by (intros ->; unfold word_at_pos; by rewrite chr_out by lia).
  assert (Hwl : i = len -> word_at_pos l i = false) by (intros ->; unfold word_at_pos; by rewrite chr_out by lia).
  destruct a; simpl assert_check; simpl holds.
  - unfold bow. apply evals_bind with (word_at_pos l (i - 1)).
    + destruct (Z.eqb_spec i 0); [rewrite Hw0 by done; apply evals_ret|]. apply word_test. lia.
    + destruct (word_at_pos l (i - 1)); simpl; [apply evals_ret|].
      destruct (Z.eqb_spec i len); [rewrite Hwl by done; apply evals_ret|]. apply word_test. lia.
  - unfold eow. destruct (Z.eqb_spec i 0); [rewrite Hw0 by done; apply evals_ret|].
    eapply evals_bind; [apply word_test; lia|]. destruct (word_at_pos l (i - 1)); simpl; [|apply evals_ret].
    destruct (Z.eqb_spec i len); [rewrite Hwl by done; apply evals_ret|].
    eapply evals_bind; [apply word_test; lia|]. apply evals_ret.
  - unfold bol. rewrite Hbol, orb_false_r, negb_involutive. apply evals_ret.
  - unfold bol_multi. rewrite Hbol, orb_false_r. destruct (Z.eqb_spec i 0); simpl; [apply evals_ret|].
    apply newline_test. lia.
  - unfold eol. rewrite Heol, orb_false_r, negb_involutive. apply evals_ret.
  - unfold eol_multi. rewrite Heol, orb_false_r. destruct (Z.eqb_spec i len); simpl; [apply evals_ret|].
    apply newline_test. lia.
Qed.

Lemma assert_step a ip p st top beg :
  step_op code wide str len flags (Some (assert_op a)) ip (MkMachine (CodePtr (ip - 1)) p st top beg) =
  assertion (assert_check a) ip (MkMachine (CodePtr (ip - 1)) p st top beg).
Proof using. by destruct a. Qed.

Lemma assert_leads a pc p st beg :
  code_at code pc [op_num (assert_op a)] -> 0 <= p <= len ->
  leads (CAt pc p st beg) (if holds l a p then CAt (pc + 1) p st beg else CFail st beg).
Proof using Hstr Hwide Hbol Heol.
  intros Hc Hp. destruct (code_at_head _ _ _ _ Hc) as [Hb Hw]. eapply leads_step; [done|exact Hw|].
  intros top Ht. rewrite op_of_num. pose proof (assert_step a (pc + 1) p st top beg) as Hs.
  replace (pc + 1 - 1) with pc in Hs by lia. rewrite Hs. unfold assertion. cbn [m_str].
  eapply returns_bind_evals; [by apply assert_spec|]. apply returns_ret.
  destruct (holds l a p); [by exists top|]. by exists top.
Qed.
(** ** Repetitions *)

Lemma from_length i : 0 <= i <= len -> zlen (from l i) = len - i.
Proof using. intros Hi. unfold from. rewrite length_drop. lia. Qed.

Lemma all_match_cons n (tb : Z -> bool) c t : all_match (S n) tb (c :: t) = tb c && all_match n tb t.
Proof using. unfold all_match. simpl. destruct (tb c); [done|]. by rewrite andb_false_r. Qed.

Section test.
Context (tm : Z -> M bool) (tb : Z -> bool).
Hypothesis Htest : forall c, fits wide c -> evals (tm c) (tb c).

Lemma match_min_spec n i : 0 <= i -> i + Z.of_nat n <= len ->
  evals (match_min str n tm i) (if all_match n tb (from l i) then Some (i + Z.of_nat n) else None).
Proof using Hstr Hwide Htest.
  revert i. induction n as [|n IH]; intros i Hi Hn.
  - simpl. rewrite Z.add_0_r. apply evals_ret.
  - destruct (chr_at i ltac:(lia)) as (c & Hc & He & Hf). cbn [match_min].
    eapply evals_bind; [exact He|]. eapply evals_bind; [by apply Htest|].
    rewrite (from_cons i c), all_match_cons by done. destruct (tb c); simpl; [|apply evals_ret].
    replace (i + Z.of_nat (S n)) with (i + 1 + Z.of_nat n) by lia. apply IH; lia.
Qed.

Lemma match_run_spec n i : 0 <= i -> i + Z.of_nat n <= len ->
  evals (match_run str n tm i) (i + Z.of_nat (run_length n tb (from l i))).
Proof using Hstr Hwide Htest.
  revert i. induction n as [|n IH]; intros i Hi Hn.
  - simpl. rewrite Z.add_0_r. apply evals_ret.
  - destruct (chr_at i ltac:(lia)) as (c & Hc & He & Hf). cbn [match_run].
    eapply evals_bind; [exact He|]. eapply evals_bind; [by apply Htest|].
    rewrite (from_cons i c) by done. cbn [run_length]. destruct (tb c); [|rewrite Z.add_0_r; apply evals_ret].
    replace (i + Z.of_nat (S (run_length n tb (from l (i + 1))))) with
      (i + 1 + Z.of_nat (run_length n tb (from l (i + 1)))) by lia. apply IH; lia.
Qed.
End test.

Lemma run_length_min n tb t : run_length n tb t = run_length (n `min` length t) tb t.
Proof using.
  revert t. induction n as [|n IH]; intros t; [done|]. destruct t as [|c t]; [done|].
  simpl. destruct (tb c); [|done]. f_equal. apply IH.
Qed.

Lemma run_length_le n tb t : (run_length n tb t <= n)%nat /\ (run_length n tb t <= length t)%nat.
Proof using.
  revert t. induction n as [|n IH]; intros t; [simpl; lia|]. destruct t as [|c t]; simpl; [lia|].
  destruct (tb c); [|lia]. destruct (IH t). lia.
Qed.

(** Where the execution of a repetition leads, at [b] behind it. *)
Definition repeat_conf (tb : Z -> bool) (min opt : Z) (minimize : bool) (b p : Z) (st : list StackEntry) (beg : list Z) : conf :=
  if all_match (Z.to_nat min) tb (from l p) then
    let s := p + min in
    let n := Z.of_nat (run_length (Z.to_nat opt) tb (from l s)) in
    if n =? 0 then CAt b s st beg
    else if minimize then CAt b s (MkEntry (- n) (CodePtr b) (s + n) :: st) beg
    else CAt b (s + n) (MkEntry n (CodePtr b) s :: st) beg
  else CFail st beg.

(** The end of a repetition, with the entry for the choices that are left. *)
Lemma repeat_tail tb (minimize : bool) min opt b p st top beg ip0 s n :
  zlen st <= top -> all_match (Z.to_nat min) tb (from l p) = true -> s = p + min ->
  n = Z.of_nat (run_length (Z.to_nat opt) tb (from l s)) ->
  returns (if s + n =? s then mret (Next (set_ip b (set_str s (MkMachine ip0 p st top beg))))
           else if minimize then RepeatMin b s (s + n) (MkMachine ip0 p st top beg)
           else Repeat b s (s + n) (MkMachine ip0 p st top beg))
    (reaches (repeat_conf tb min opt minimize b p st beg)).
Proof using.
  intros Ht Hall -> ->. unfold repeat_conf. rewrite Hall. set (n := Z.of_nat _). set (s := p + min).
  assert ((s + n =? s) = (n =? 0)) as -> by (destruct (Z.eqb_spec n 0), (Z.eqb_spec (s + n) s); lia).
  destruct (Z.eqb_spec n 0); [apply returns_ret; by exists top|].
  destruct minimize; unfold RepeatMin, Repeat, set_ip, set_str; cbn [m_ip m_str m_st m_top m_beg].
  - replace (s - (s + n)) with (- n) by lia. by apply push_reaches.
  - replace (s + n - s) with n by lia. by apply push_reaches.
Qed.

Lemma repeat_chars_spec minloop tm tb (minimize : bool) min opt b p st top beg ip0 :
  (forall c, fits wide c -> evals (tm c) (tb c)) ->
  (forall i, 0 <= i -> i + min <= len ->
    evals (minloop i) (if all_match (Z.to_nat min) tb (from l i) then Some (i + min) else None)) ->
  0 <= p <= len -> 0 <= min -> 0 <= opt -> zlen st <= top ->
  returns (repeat_chars str len minloop tm minimize min opt b (MkMachine ip0 p st top beg))
    (reaches (repeat_conf tb min opt minimize b p st beg)).
Proof.
  intros Htest Hmin Hp Hm Ho Ht. unfold repeat_chars. cbn [m_str].
  destruct (Z.ltb_spec len (p + min)) as [Hl|Hl].
  { apply returns_ret. unfold repeat_conf, all_match. pose proof (from_length p ltac:(lia)).
    destruct (Nat.leb_spec (Z.to_nat min) (length (from l p))); [lia|]. by exists top. }
  eapply returns_bind_evals; [apply Hmin; lia|].
  destruct (all_match _ _ _) eqn:Hall.
  2: { apply returns_ret. unfold repeat_conf. rewrite Hall. by exists top. }
  cbv zeta. test (Z.min (p + min + opt) len <? p + min) false.
  eapply returns_bind_evals; [apply (match_run_spec tm tb); (done || lia)|].
  assert (run_length (Z.to_nat (Z.min (p + min + opt) len - (p + min))) tb (from l (p + min)) =
    run_length (Z.to_nat opt) tb (from l (p + min))) as ->.
  { pose proof (from_length (p + min) ltac:(lia)). rewrite (run_length_min (Z.to_nat opt)). f_equal. lia. }
  by apply (repeat_tail tb minimize min opt b p st top beg ip0 (p + min)).
Qed.
(** *** Sets *)

Lemma set_word s pc i w :
  code_at code pc (wset_code s) -> wset_code s !! i = Some w -> evals (word_at code (pc + Z.of_nat i)) w.
Proof using. apply word_at_nth. Qed.

Lemma range_words s pc i lo hi :
  code_at code pc (wset_code s) -> zlen (ws_bits s) = 16 -> ws_ranges s !! i = Some (lo, hi) ->
  evals (word_at code (pc + 18 + Z.of_nat i * 2)) lo /\ evals (word_at code (pc + 19 + Z.of_nat i * 2)) hi.
Proof using.
  intros Hc Hb Hi. unfold wset_code in Hc. rewrite app_assoc in Hc. apply code_at_app in Hc as [_ Hc].
  rewrite length_app in Hc. simpl in Hc.
  rewrite <- (take_drop_middle _ _ _ Hi), flat_map_app in Hc. apply code_at_app in Hc as [_ Hc].
  assert (Hlen : zlen (flat_map (fun '(lo, hi) => [lo; hi]) (take i (ws_ranges s))) = Z.of_nat i * 2).
  { assert (Hl : length (take i (ws_ranges s)) = i) by (apply lookup_lt_Some in Hi; rewrite length_take; lia).
    revert Hl. generalize (take i (ws_ranges s)). clear Hi Hc. revert i. 
    intros i t. revert i. induction t as [|[a b] t IH]; intros i; simpl; [lia|]. intros <-. specialize (IH _ eq_refl). lia. }
  simpl in Hc. split.
  - replace (pc + 18 + Z.of_nat i * 2) with (pc + Z.of_nat (length (ws_bits s) + 2) + Z.of_nat i * 2) by lia.
    rewrite <- Hlen. by eapply word_at_head.
  - apply code_at_cons in Hc. replace (pc + 19 + Z.of_nat i * 2) with (pc + Z.of_nat (length (ws_bits s) + 2) + Z.of_nat i * 2 + 1) by lia.
    rewrite <- Hlen. by eapply word_at_head.
Qed.

Lemma in_ranges_spec s pc c1 c2 n i :
  code_at code pc (wset_code s) -> zlen (ws_bits s) = 16 -> (i + n = length (ws_ranges s))%nat ->
  evals (in_ranges code n (pc + 16) (Z.of_nat i) c1 c2)
    (existsb (fun '(lo, hi) => ((lo <=? c1) && (c1 <=? hi)) || ((lo <=? c2) && (c2 <=? hi))) (drop i (ws_ranges s))).
Proof using.
  intros Hc Hb. revert i. induction n as [|n IH]; intros i Hn.
  - rewrite drop_ge by lia. apply evals_ret.
  - destruct (lookup_lt_is_Some_2 (ws_ranges s) i ltac:(lia)) as [[lo hi] Hi].
    destruct (range_words s pc i lo hi Hc Hb Hi) as [Hlo Hhi]. rewrite (drop_S _ _ _ Hi). cbn [in_ranges existsb].
    replace (pc + 16 + 2 + Z.of_nat i * 2) with (pc + 18 + Z.of_nat i * 2) by lia.
    replace (pc + 16 + 3 + Z.of_nat i * 2) with (pc + 19 + Z.of_nat i * 2) by lia.
    eapply evals_bind; [exact Hlo|]. eapply evals_bind; [exact Hhi|]. cbv beta.
    destruct (_ || _); [apply evals_ret|]. replace (Z.of_nat i + 1) with (Z.of_nat (S i)) by lia. apply IH. lia.
Qed.

Lemma has_flag_or flags' : has_flag flags' (Z.lor A_WS_WORD_CHAR A_WS_NOT_WORD_CHAR) =
  has_flag flags' A_WS_WORD_CHAR || has_flag flags' A_WS_NOT_WORD_CHAR.
Proof using.
  unfold has_flag. rewrite Z.land_lor_distr_r.
  destruct (Z.eqb_spec (Z.land flags' A_WS_WORD_CHAR) 0) as [->|H1]; [by rewrite Z.lor_0_l|].
  destruct (Z.eqb_spec (Z.lor (Z.land flags' A_WS_WORD_CHAR) (Z.land flags' A_WS_NOT_WORD_CHAR)) 0) as [H|]; [|done].
  by apply Z.lor_eq_0_iff in H as [? _].
Qed.

Lemma IS_IN_SET_spec s pc c :
  code_at code pc (wset_code s) -> zlen (ws_bits s) = 16 -> fits wide c ->
  evals (IS_IN_SET code wide pc c) (in_wset s c).
Proof using.
  clear Hstr Hwide. intros Hc Hb Hf. unfold IS_IN_SET, in_wset.
  assert (Hbits : wide = false \/ c < 256 -> evals (in_code_set code pc c) (AReIsInSet (ws_bits s) c)).
  { intros _. unfold in_code_set, AReIsInSet.
    assert (Hi : 0 <= Z.shiftr (u8 c) 4 < 16).
    { rewrite Z.shiftr_div_pow2 by lia. change (2 ^ 4) with 16. unfold u8. zsolve. }
    set (i := Z.shiftr (u8 c) 4) in *. destruct (lookup_lt_is_Some_2 (ws_bits s) (Z.to_nat i) ltac:(lia)) as [w Hw].
    replace i with (Z.of_nat (Z.to_nat i)) at 1 by lia.
    eapply evals_bind.
    - eapply word_at_nth; [exact Hc|]. unfold wset_code. rewrite lookup_app_l by lia. exact Hw.
    - unfold dg. rewrite (nth_lookup_Some _ _ _ _ Hw). apply evals_ret. }
  destruct wide; simpl andb.
  - destruct (Z.leb_spec 256 c); [|test (c <? 256) true; apply Hbits; lia]. test (c <? 256) false.
    unfold AIsInWideSet2, in_wide_set. change A_RE_SET_SIZE with 16.
    replace (pc + 16 + 1) with (pc + Z.of_nat (length (ws_bits s) + 1)) by lia.
    eapply evals_bind.
    { eapply word_at_nth; [exact Hc|]. unfold wset_code. rewrite lookup_app_r by lia.
      replace (length (ws_bits s) + 1 - length (ws_bits s))%nat with 1%nat by lia. reflexivity. }
    cbv zeta. eapply evals_bind.
    { replace (pc + 16) with (pc + Z.of_nat (length (ws_bits s))) by lia. eapply word_at_nth; [exact Hc|].
      unfold wset_code. rewrite lookup_app_r by lia. rewrite Nat.sub_diag. reflexivity. }
    rewrite Nat2Z.id, has_flag_or.
    destruct (has_flag (ws_flags s) A_WS_IGNORE_CASE);
      (eapply evals_bind; [by apply (in_ranges_spec s pc _ _ _ 0)|]); rewrite drop_0;
      destruct (existsb _ _), (has_flag (ws_flags s) A_WS_WORD_CHAR), (has_flag (ws_flags s) A_WS_NOT_WORD_CHAR),
        (AIsWordChar c), (has_flag (ws_flags s) A_WS_COMPLEMENT); apply evals_ret.
  - simpl in Hf. unfold byte in Hf. test (c <? 256) true. apply Hbits. lia.
Qed.

Lemma SkipSet_spec s pc :
  code_at code pc (wset_code s) -> zlen (ws_bits s) = 16 -> evals (SkipSet code pc) (pc + zlen (wset_code s)).
Proof using.
  intros Hc Hb. unfold SkipSet. change A_RE_SET_SIZE with 16.
  assert (Hlen : zlen (wset_code s) = 18 + 2 * zlen (ws_ranges s)).
  { unfold wset_code. rewrite !length_app. simpl.
    assert (Hf : length (flat_map (fun '(lo, hi) => [lo; hi]) (ws_ranges s)) = (2 * length (ws_ranges s))%nat).
    { clear. induction (ws_ranges s) as [|[a b] t IH]; simpl; [done|]. lia. }
    lia. }
  eapply evals_bind.
  - replace (pc + 16) with (pc + Z.of_nat (length (ws_bits s))) by lia. eapply word_at_nth; [exact Hc|].
    unfold wset_code. rewrite lookup_app_r by lia. rewrite Nat.sub_diag. reflexivity.
  - replace (pc + zlen (wset_code s)) with (pc + zlen (ws_ranges s) * 2 + 2 + 16) by lia. apply evals_ret.
Qed.
(** *** The opcodes of one character *)

Lemma repeat_once tb minimize b p st beg : 0 <= p ->
  repeat_conf tb 1 0 minimize b p st beg =
    match chr l p with
    | Some c => if tb c then CAt b (p + 1) st beg else CFail st beg
    | None => CFail st beg
    end.
Proof using.
  intros Hp. unfold repeat_conf. destruct (chr l p) as [c|] eqn:Hc.
  - rewrite (from_cons p c) by done. change (Z.to_nat 1) with 1%nat. rewrite all_match_cons.
    destruct (tb c); [|done]. reflexivity.
  - unfold chr in Hc. destruct (Z.ltb_spec p 0); [lia|]. unfold from.
    rewrite drop_ge by (by apply lookup_ge_None). done.
Qed.

Lemma once_spec (tm : Z -> M bool) tb (rest : M StepResult) minimize b p st top beg ip0 :
  (forall c, fits wide c -> evals (tm c) (tb c)) ->
  0 <= p <= len -> zlen st <= top ->
  evals rest (Next (set_ip b (set_str (p + 1) (MkMachine ip0 p st top beg)))) ->
  returns (if p =? len then mret (GoFail (MkMachine ip0 p st top beg))
           else c ← char_at str p; ok ← tm c;
             if ok : bool then rest else mret (GoFail (MkMachine ip0 p st top beg)))
    (reaches (repeat_conf tb 1 0 minimize b p st beg)).
Proof.
  intros Htest Hp Ht Hrest. rewrite repeat_once by lia. destruct (Z.eqb_spec p len) as [->|Hne].
  - rewrite chr_out by lia. apply returns_ret. by exists top.
  - destruct (chr_at p ltac:(lia)) as (c & Hc & He & Hf). rewrite Hc.
    eapply returns_bind_evals; [exact He|]. eapply returns_bind_evals; [by apply Htest|].
    destruct (tb c); [|apply returns_ret; by exists top]. eapply evals_returns; [exact Hrest|]. by exists top.
Qed.

(** Only on narrow strings is [LOWER] an ordinary function. *)
Definition wide_safe (k : charset) (min opt : Z) : Prop :=
  match k with CLit true _ => wide = false \/ min = 0 \/ (min = 1 /\ opt = 0) | _ => True end.

Lemma match_min_lower_narrow n ch s t :
  wide = false \/ n = O ->
  match_min_lower wide str n ch s t = match_min str n (fun c => mret (LOWER wide c =? ch)) s t.
Proof using.
  intros H. revert s t. induction n as [|n IH]; intros s t; [done|]. destruct H as [Hw|]; [|done].
  cbn [match_min_lower match_min].
  assert (lower_next wide str s = (c ← char_at str s; mret (LOWER wide c, s + 1))) as ->
    by (unfold lower_next; by rewrite Hw). unfold mbind, M_bind.
  destruct (char_at str s t) as [[c|e|] t']; [|done..]. unfold mret, M_ret. cbv beta iota.
  destruct (LOWER wide c =? ch); [|done]. apply IH. by left.
Qed.

Definition charset_ok (k : charset) : Prop := match k with CSet s => zlen (ws_bits s) = 16 | _ => True end.

Lemma literal_test (ignoreCase : bool) ch c : fits wide c ->
  evals (mret ((if ignoreCase then LOWER wide c else c) =? ch)) (in_charset (CLit ignoreCase ch) c).
Proof. intros Hf. destruct ignoreCase; simpl; [rewrite LOWER_eq by done|]; apply evals_ret. Qed.

Lemma single_leads k pc p st beg minimize :
  code_at code pc (op_num (charset_op k) :: charset_code k) -> charset_ok k -> 0 <= p <= len ->
  leads (CAt pc p st beg)
    (repeat_conf (in_charset k) 1 0 minimize (pc + 1 + zlen (charset_code k)) p st beg).
Proof.
  intros Hc Hk Hp. destruct (code_at_head _ _ _ _ Hc) as [Hb Hw]. eapply leads_step; [done|exact Hw|].
  intros top Ht. rewrite op_of_num. apply code_at_cons in Hc. destruct k as [i c| |s]; cbn [charset_code charset_op] in *.
  - assert (Hl : step_op code wide str len flags (Some (charset_op (CLit i c))) (pc + 1) (MkMachine (CodePtr pc) p st top beg)
      = literal code str len (if i then LOWER wide else id) (pc + 1) (MkMachine (CodePtr pc) p st top beg)) by (by destruct i).
    cbn [charset_op] in Hl. rewrite Hl. unfold literal. cbn [m_str].
    pose proof (once_spec (fun ch => w ← word_at code (pc + 1); mret ((if i then LOWER wide ch else ch) =? w))
      (in_charset (CLit i c)) (mret (Next (set_ip (pc + 1 + 1) (set_str (p + 1) (MkMachine (CodePtr pc) p st top beg)))))
      minimize (pc + 1 + 1) p st top beg (CodePtr pc)) as Ho.
    intros t. specialize (Ho ltac:(intros ch Hf; eapply evals_bind; [by eapply word_at_head|]; by apply literal_test) Hp Ht
      ltac:(apply evals_ret) t).
    destruct (p =? len); [exact Ho|]. unfold mbind, M_bind in *. destruct (char_at str p t) as [[ch|e|] t']; [|exact Ho..].
    destruct (word_at code (pc + 1) t') as [[w|e|] t'']; [|exact Ho..]. unfold mret, M_ret in *. cbv beta iota in *.
    destruct i; unfold id; destruct (_ =? w); exact Ho.
  - unfold step_op, any_once. cbn [m_str]. rewrite repeat_once by lia. simpl zlen. rewrite Z.add_0_r.
    destruct (Z.eqb_spec p len) as [->|].
    + rewrite chr_out by lia. apply returns_ret. by exists top.
    + destruct (chr_at p ltac:(lia)) as (ch & -> & _ & _). apply returns_ret. by exists top.
  - unfold step_op, set_once. cbn [m_str].
    pose proof (once_spec (IS_IN_SET code wide (pc + 1)) (in_wset s)
      (ip ← SkipSet code (pc + 1); mret (Next (set_ip ip (set_str (p + 1) (MkMachine (CodePtr pc) p st top beg)))))
      minimize (pc + 1 + zlen (wset_code s)) p st top beg (CodePtr pc)) as Ho.
    intros t. specialize (Ho ltac:(intros ch Hf; by apply IS_IN_SET_spec) Hp Ht
      ltac:(eapply evals_bind; [by apply SkipSet_spec|apply evals_ret]) t).
    destruct (p =? len); [exact Ho|]. unfold mbind, M_bind in *. destruct (char_at str p t) as [[ch|e|] t']; [|exact Ho..].
    destruct (IS_IN_SET code wide (pc + 1) ch t') as [[[]|e|] t'']; exact Ho.
Qed.
(** *** The repetition opcodes *)

Lemma word_at_second pc w1 w2 c : code_at code pc (w1 :: w2 :: c) -> evals (word_at code (pc + 1)) w2.
Proof using. intros Hc. apply code_at_cons in Hc. by eapply word_at_head. Qed.

Lemma literal_repeat_spec (i minimize : bool) c pc min opt p st top beg ip0 :
  code_at code pc [min; opt; c] -> wide = false \/ i = false \/ min = 0 ->
  0 <= p <= len -> 0 <= min -> 0 <= opt -> zlen st <= top ->
  returns (literal_repeat code wide str len i minimize pc (MkMachine ip0 p st top beg))
    (reaches (repeat_conf (in_charset (CLit i c)) min opt minimize (pc + 3) p st beg)).
Proof.
  intros Hc Hs Hp Hm Ho Ht. unfold literal_repeat.
  eapply returns_bind_evals; [by eapply word_at_head|]. eapply returns_bind_evals; [by eapply word_at_second|].
  eapply returns_bind_evals.
  { do 2 apply code_at_cons in Hc. replace (pc + 1 + 1) with (pc + 2) in Hc by lia. by eapply word_at_head. }
  apply repeat_chars_spec; [intros ch Hf; by apply literal_test| |done..].
  intros j Hj Hjm.
  pose proof (match_min_spec (fun ch => mret ((if i then LOWER wide ch else ch) =? c)) (in_charset (CLit i c))
    ltac:(intros ch Hf; by apply literal_test) (Z.to_nat min) j Hj ltac:(lia)) as Hmin.
  rewrite Z2Nat.id in Hmin by done. destruct i; [|exact Hmin]. intros t.
  rewrite match_min_lower_narrow; [apply Hmin|]. destruct Hs as [|[|]]; [by left|done|right; lia].
Qed.

Lemma set_repeat_spec (minimize : bool) s pc min opt p st top beg ip0 :
  code_at code pc (min :: opt :: wset_code s) -> zlen (ws_bits s) = 16 ->
  0 <= p <= len -> 0 <= min -> 0 <= opt -> zlen st <= top ->
  returns (set_repeat code wide str len minimize pc (MkMachine ip0 p st top beg))
    (reaches (repeat_conf (in_wset s) min opt minimize (pc + 2 + zlen (wset_code s)) p st beg)).
Proof.
  intros Hc Hb Hp Hm Ho Ht. unfold set_repeat.
  eapply returns_bind_evals; [by eapply word_at_head|]. eapply returns_bind_evals; [by eapply word_at_second|].
  do 2 apply code_at_cons in Hc. replace (pc + 1 + 1) with (pc + 2) in Hc by lia. cbv zeta.
  eapply returns_bind_evals; [by apply SkipSet_spec|].
  assert (Htest : forall c, fits wide c -> evals (IS_IN_SET code wide (pc + 2) c) (in_wset s c))
    by (intros c Hf; by apply IS_IN_SET_spec).
  apply repeat_chars_spec; [done| |done..]. intros j Hj Hjm.
  pose proof (match_min_spec _ _ Htest (Z.to_nat min) j Hj ltac:(lia)) as Hmin.
  by rewrite Z2Nat.id in Hmin by done.
Qed.

Lemma all_match_true n t : all_match n (fun _ => true) t = (n <=? length t)%nat.
Proof using.
  unfold all_match. destruct (n <=? length t)%nat; [|done]. simpl. induction (take n t); [done|]. done.
Qed.

Lemma run_length_true n t : run_length n (fun _ => true) t = (n `min` length t)%nat.
Proof using. revert t. induction n as [|n IH]; intros [|c t]; simpl; [done..|]. by rewrite IH. Qed.

Lemma any_repeat_spec op (minimize : bool) pc min opt p st top beg ip0 :
  code_at code pc [min; opt] -> (Z.land op 1 =? Z.land (op_num A_ANY_REPEAT) 1) = negb minimize ->
  0 <= p <= len -> 0 <= min -> 0 <= opt -> zlen st <= top ->
  returns (any_repeat code len op pc (MkMachine ip0 p st top beg))
    (reaches (repeat_conf (in_charset CAny) min opt minimize (pc + 2) p st beg)).
Proof using.
  clear Hstr Hwide. intros Hc Hop Hp Hm Ho Ht. unfold any_repeat.
  eapply returns_bind_evals; [by eapply word_at_head|]. eapply returns_bind_evals; [by eapply word_at_second|].
  cbn [m_str]. cbv zeta. pose proof (from_length p Hp) as Hlen. destruct (Z.ltb_spec len (p + min)) as [Hl|Hl].
  { apply returns_ret. unfold repeat_conf. change (in_charset CAny) with (fun _ : Z => true). rewrite all_match_true.
    destruct (Nat.leb_spec (Z.to_nat min) (length (from l p))); [lia|]. by exists top. }
  pose proof (from_length (p + min) ltac:(lia)) as Hlen2. rewrite Hop.
  pose proof (repeat_tail (in_charset CAny) minimize min opt (pc + 2) p st top beg ip0 (p + min)
    (Z.min opt (len - (p + min))) Ht) as H.
  change (in_charset CAny) with (fun _ : Z => true) in *. rewrite all_match_true, run_length_true in H.
  specialize (H ltac:(apply Nat.leb_le; lia) eq_refl ltac:(lia)).
  replace (Z.min (p + min + opt) len) with (p + min + Z.min opt (len - (p + min))) by lia.
  rewrite Z.eqb_sym. by destruct minimize.
Qed.

Lemma repeat_leads k min opt minimize pc p st beg :
  code_at code pc (op_num (charset_op k) + A_REPEAT + Z.b2z minimize :: min :: opt :: charset_code k) ->
  charset_ok k -> wide_safe k min opt -> ~ (min = 1 /\ opt = 0) -> 0 <= min -> 0 <= opt -> 0 <= p <= len ->
  leads (CAt pc p st beg) (repeat_conf (in_charset k) min opt minimize (pc + 3 + zlen (charset_code k)) p st beg).
Proof.
  intros Hc Hk Hw Hone Hm Ho Hp. destruct (code_at_head _ _ _ _ Hc) as [Hb Hop]. eapply leads_step; [done|exact Hop|].
  intros top Ht. apply code_at_cons in Hc. destruct k as [i c| |s]; cbn [charset_code charset_op] in *.
  - replace (pc + 3 + zlen [c]) with (pc + 1 + 3) by (simpl; lia).
    assert (wide = false \/ i = false \/ min = 0) as Hws by (destruct i; simpl in Hw; tauto).
    destruct i, minimize; by apply literal_repeat_spec.
  - replace (pc + 3 + zlen (@nil Z)) with (pc + 1 + 2) by (simpl; lia).
    destruct minimize; apply any_repeat_spec; done.
  - replace (pc + 3 + zlen (wset_code s)) with (pc + 1 + 2 + zlen (wset_code s)) by lia.
    destruct minimize; by apply set_repeat_spec.
Qed.

(** The code of a repetition leads to its configuration. *)
Lemma chars_leads k min opt minimize pc p st beg :
  code_at code pc (chars_code k min opt minimize) ->
  charset_ok k -> wide_safe k min opt -> 0 <= min -> 0 <= opt -> 0 <= p <= len ->
  leads (CAt pc p st beg)
    (repeat_conf (in_charset k) min opt minimize (pc + zlen (chars_code k min opt minimize)) p st beg).
Proof.
  intros Hc Hk Hw Hm Ho Hp. unfold chars_code in *. destruct ((min =? 1) && (opt =? 0)) eqn:E.
  - apply andb_prop in E as [->%Z.eqb_eq ->%Z.eqb_eq]. rewrite length_app. simpl length.
    replace (pc + Z.of_nat (1 + length (charset_code k))) with (pc + 1 + zlen (charset_code k)) by lia.
    by apply single_leads.
  - rewrite length_app. simpl length.
    replace (pc + Z.of_nat (3 + length (charset_code k))) with (pc + 3 + zlen (charset_code k)) by lia.
    apply repeat_leads; try done. intros [-> ->]. done.
Qed.
(** ** Strings *)

(** A conversion of the code and the mapping it stands for. *)
Definition conv_of (i : bool) : Z -> Z := if i then LOWER wide else id.
Definition case_of (i : bool) (t : list Z) : list Z := if i then ALower <$> t else t.

Lemma case_of_cons i c t : fits wide c -> case_of i (c :: t) = conv_of i c :: case_of i t.
Proof. intros Hf. unfold case_of, conv_of. destruct i; [|done]. simpl. by rewrite LOWER_eq. Qed.

Lemma case_of_length i t : length (case_of i t) = length t.
Proof using. destruct i; simpl; [by rewrite length_fmap|done]. Qed.

Lemma bool_decide_cons (c w : Z) (t s : list Z) :
  bool_decide (c :: t = w :: s) = (c =? w) && bool_decide (t = s).
Proof using.
  destruct (Z.eqb_spec c w) as [->|]; simpl; [|by rewrite bool_decide_eq_false_2 by congruence].
  apply bool_decide_ext. split; congruence.
Qed.

Lemma match_literal_spec i s : forall ip p,
  code_at code ip s -> 0 <= p -> p + zlen s <= len ->
  evals (match_literal code str (length s) ip p (conv_of i))
    (bool_decide (case_of i (take (length s) (from l p)) = s)).
Proof.
  induction s as [|w s IH]; intros ip p Hc Hp Hl.
  - simpl. rewrite bool_decide_eq_true_2 by (by destruct i). apply evals_ret.
  - simpl in Hl. destruct (chr_at p ltac:(lia)) as (c & Hch & He & Hf). cbn [match_literal length].
    eapply evals_bind; [exact He|]. eapply evals_bind; [by eapply word_at_head|].
    rewrite (from_cons p c Hp Hch). cbn [take]. rewrite case_of_cons, bool_decide_cons by done.
    destruct (conv_of i c =? w); simpl; [|apply evals_ret]. apply IH; [by eapply code_at_cons|lia|lia].
Qed.

Lemma slice_len p n : 0 <= p -> 0 <= n -> slice l p (p + n) = take (Z.to_nat n) (from l p).
Proof using. intros. unfold slice. do 2 f_equal. lia. Qed.

Lemma literal_leads (i : bool) s pc p st beg :
  code_at code pc ([op_num (if i then A_LITERAL_I_STRING else A_LITERAL_STRING); zlen s] ++ s) ->
  s <> [] -> 0 <= p <= len ->
  leads (CAt pc p st beg)
    (if lit_matches i s (slice l p (p + zlen s)) then CAt (pc + 2 + zlen s) (p + zlen s) st beg else CFail st beg).
Proof.
  intros Hc Hs Hp. destruct (code_at_head _ _ _ _ Hc) as [Hb Hw]. eapply leads_step; [done|exact Hw|].
  intros top Ht. apply code_at_cons in Hc.
  assert (step_op code wide str len flags (op_of (op_num (if i then A_LITERAL_I_STRING else A_LITERAL_STRING))) (pc + 1)
    (MkMachine (CodePtr pc) p st top beg) =
    literal_string code str len (conv_of i) (pc + 1) (MkMachine (CodePtr pc) p st top beg)) as -> by (by destruct i).
  unfold literal_string. cbn [m_str app] in *. eapply returns_bind_evals; [by eapply word_at_head|].
  apply code_at_cons in Hc. assert (0 < zlen s) by (destruct s; [done|simpl; lia]).
  rewrite slice_len by lia. rewrite Nat2Z.id. unfold lit_matches. fold (case_of i (take (length s) (from l p))).
  destruct (Z.ltb_spec len (p + zlen s)).
  - rewrite bool_decide_eq_false_2; [apply returns_ret; by exists top|]. intros Heq.
    apply (f_equal length) in Heq. rewrite case_of_length, length_take in Heq. pose proof (from_length p Hp). lia.
  - cbv zeta. replace (Z.max 1 (zlen s)) with (zlen s) by lia. rewrite Nat2Z.id.
    eapply returns_bind_evals; [apply (match_literal_spec i s); [done|lia|lia]|]. apply returns_ret.
    destruct (bool_decide _); [|by exists top]. replace (pc + 1 + 1 + zlen s) with (pc + 2 + zlen s) by lia. by exists top.
Qed.

Lemma match_group_spec i n : forall p q, 0 <= p -> 0 <= q -> p + Z.of_nat n <= len -> q + Z.of_nat n <= len ->
  evals (match_group str n p q (conv_of i))
    (bool_decide (case_of i (take n (from l p)) = case_of i (take n (from l q)))).
Proof.
  induction n as [|n IH]; intros p q Hp Hq Hpl Hql.
  - simpl. rewrite bool_decide_eq_true_2 by done. apply evals_ret.
  - destruct (chr_at p ltac:(lia)) as (c & Hch & He & Hf). destruct (chr_at q ltac:(lia)) as (c' & Hch' & He' & Hf').
    cbn [match_group]. eapply evals_bind; [exact He|]. eapply evals_bind; [exact He'|].
    rewrite (from_cons p c Hp Hch), (from_cons q c' Hq Hch'). cbn [take].
    rewrite !case_of_cons, bool_decide_cons by done.
    destruct (conv_of i c =? conv_of i c'); simpl; [|apply evals_ret]. apply IH; lia.
Qed.

Lemma backref_leads (i : bool) n pc p st beg :
  code_at code pc [op_num (if i then A_BACKREF_I else A_BACKREF); n] -> 0 <= n < 8 ->
  stack_ok st -> 0 <= p <= len ->
  (forall b e, stack_groups st !! n = Some (b, e) -> 0 <= b <= e /\ e <= len) ->
  leads (CAt pc p st beg)
    (match ref_sem l i n (p, stack_groups st) with
     | [] => CFail st beg
     | y :: _ => CAt (pc + 2) y.1 st beg
     end).
Proof.
  intros Hc Hn Hst Hp Hg. destruct (code_at_head _ _ _ _ Hc) as [Hb Hw]. eapply leads_step; [done|exact Hw|].
  intros top Ht. apply code_at_cons in Hc.
  assert (step_op code wide str len flags (op_of (op_num (if i then A_BACKREF_I else A_BACKREF))) (pc + 1)
    (MkMachine (CodePtr pc) p st top beg) =
    backref code wide str len i (pc + 1) (MkMachine (CodePtr pc) p st top beg)) as -> by (by destruct i).
  unfold backref. eapply returns_bind_evals; [by eapply word_at_head|]. cbv zeta. cbn [m_st].
  destruct (find_group_spec st n Hst ltac:(lia)) as (r & Hr & Hres). eapply returns_bind_evals; [exact Hr|].
  unfold ref_sem. cbn [fst snd]. destruct (stack_groups st !! n) as [[b e]|]; subst r.
  2: { apply returns_ret. by exists top. }
  destruct (Hg b e eq_refl) as [Hbe He]. cbn [e_ip e_str e_repeat match_mark m_str].
  destruct (Z.eqb_spec (n + PAREN_MIN) 0) as [Hz|_]; [markers|]. simpl orb.
  destruct (Z.ltb_spec len (p + (e - b))) as [Hl|Hl].
  { test (p + (e - b) <=? len) false. simpl. apply returns_ret. by exists top. }
  test (p + (e - b) <=? len) true. test (e <? b) false. simpl andb.
  eapply returns_bind_evals; [apply (match_group_spec i); lia|].
  unfold same_text. replace (slice l b e) with (take (Z.to_nat (e - b)) (from l b)) by (unfold slice; done).
  rewrite slice_len by lia. fold (case_of i (take (Z.to_nat (e - b)) (from l p))) (case_of i (take (Z.to_nat (e - b)) (from l b))).
  rewrite (bool_decide_ext (case_of i (take (Z.to_nat (e - b)) (from l b)) = _)
    (case_of i (take (Z.to_nat (e - b)) (from l p)) = case_of i (take (Z.to_nat (e - b)) (from l b)))) by (split; congruence).
  destruct (bool_decide _); simpl; apply returns_ret; [|by exists top].
  test (8 <=? n) false. rewrite andb_false_r.
  replace (pc + 1 + 1) with (pc + 2) by lia. by exists top.
Qed.
End step.
