(* ===== verification/ReSound.v ===== *)
(** * ReSound: the matcher implements the meaning of expressions

    The opcodes for choices and groups, and the theorem of this file: the code
    of an expression enumerates what [sem] lists, in that order, by induction
    on the expression. *)

From stdpp Require Import gmap.
From S2P Require Import Prelude Runtime Digits Value Encodings EncodingsSpec StrOps StrSpec.
From S2P Require Import StrTables ReDefs ReMatch ReSem ReRun ReStep.

Open Scope Z_scope.

(** ** Choices and groups *)

Section control.
Context (code : list Z) (wide : bool) (str : StrObj) (strLen flags : Z).
Local Abbreviation leads := (leads code wide str strLen flags).

Lemma branch_before_leads pc d p st beg :
  code_at code pc [op_num A_BRANCH_BEFORE; u16 d] -> -32768 <= d < 32768 ->
  leads (CAt pc p st beg) (CAt (pc + 1 + d) p (MkEntry 0 (CodePtr (pc + 2)) p :: st) beg).
Proof.
  intros Hc Hd. destruct (code_at_head _ _ _ _ Hc) as [Hb Hw]. eapply leads_step; [done|exact Hw|].
  intros top Ht. rewrite op_of_num. cbn [step_op]. unfold branch_before.
  eapply returns_bind_evals; [eapply word_at_head; by apply code_at_cons in Hc|]. rewrite s16_u16 by done.
  unfold set_ip. cbn [m_str m_st m_top m_beg]. replace (pc + 1 + 1) with (pc + 2) by lia. by apply push_reaches.
Qed.

Lemma branch_after_leads pc d p st beg :
  code_at code pc [op_num A_BRANCH_AFTER; u16 d] -> -32768 <= d < 32768 ->
  leads (CAt pc p st beg) (CAt (pc + 2) p (MkEntry 0 (CodePtr (pc + 1 + d)) p :: st) beg).
Proof.
  intros Hc Hd. destruct (code_at_head _ _ _ _ Hc) as [Hb Hw]. eapply leads_step; [done|exact Hw|].
  intros top Ht. rewrite op_of_num. cbn [step_op]. unfold branch_after.
  eapply returns_bind_evals; [eapply word_at_head; by apply code_at_cons in Hc|]. rewrite s16_u16 by done.
  unfold set_ip. cbn [m_str m_st m_top m_beg]. replace (pc + 1 + 1) with (pc + 2) by lia. by apply push_reaches.
Qed.

Lemma branch_always_leads pc d p st beg :
  code_at code pc [op_num A_BRANCH_ALWAYS; u16 d] -> -32768 <= d < 32768 ->
  leads (CAt pc p st beg) (CAt (pc + 1 + d) p st beg).
Proof.
  intros Hc Hd. destruct (code_at_head _ _ _ _ Hc) as [Hb Hw]. eapply leads_step; [done|exact Hw|].
  intros top Ht. rewrite op_of_num. cbn [step_op]. unfold branch_always.
  eapply returns_bind_evals; [eapply word_at_head; by apply code_at_cons in Hc|]. rewrite s16_u16 by done.
  apply returns_ret. by exists top.
Qed.

Lemma lparen_leads pc n p st beg :
  code_at code pc [op_num A_LPAREN; n] -> n < zlen beg ->
  leads (CAt pc p st beg) (CAt (pc + 2) p (start_mark n (dg beg n) :: st) (upd beg n p)).
Proof.
  intros Hc Hn. destruct (code_at_head _ _ _ _ Hc) as [Hb Hw]. eapply leads_step; [done|exact Hw|].
  intros top Ht. rewrite op_of_num. cbn [step_op]. unfold lparen.
  eapply returns_bind_evals; [eapply word_at_head; by apply code_at_cons in Hc|]. cbn [m_beg].
  test (n <? zlen beg) true. unfold set_ip, set_beg. cbn [m_ip m_str m_st m_top m_beg].
  replace (pc + 1 + 1) with (pc + 2) by lia. by apply push_reaches.
Qed.

Lemma rparen_spec pc n p st top beg ip0 :
  code_at code pc [n] -> n < zlen beg -> zlen st <= top ->
  returns (rparen code pc (MkMachine ip0 p st top beg))
    (reaches (CAt (pc + 1) p (match_mark n (dg beg n) p :: st) beg)).
Proof.
  intros Hc Hn Ht. unfold rparen. eapply returns_bind_evals; [by eapply word_at_head|]. cbn [m_beg].
  test (n <? zlen beg) true. unfold set_ip. cbn [m_ip m_str m_st m_top m_beg]. by apply push_reaches.
Qed.

Lemma rparen_leads pc n p st beg :
  code_at code pc [op_num A_RPAREN; n] -> n < zlen beg ->
  leads (CAt pc p st beg) (CAt (pc + 2) p (match_mark n (dg beg n) p :: st) beg).
Proof.
  intros Hc Hn. destruct (code_at_head _ _ _ _ Hc) as [Hb Hw]. eapply leads_step; [done|exact Hw|].
  intros top Ht. rewrite op_of_num. cbn [step_op]. replace (pc + 2) with (pc + 1 + 1) by lia.
  apply rparen_spec; [by apply code_at_cons in Hc|done..].
Qed.

Lemma rparen_skip_leads pc n p st beg :
  code_at code pc [op_num A_RPAREN_SKIP; n] -> n < zlen beg ->
  leads (CAt pc p st beg)
    (if dg beg n =? p then CAt (pc + 4) p st beg else CAt (pc + 2) p (match_mark n (dg beg n) p :: st) beg).
Proof.
  intros Hc Hn. destruct (code_at_head _ _ _ _ Hc) as [Hb Hw]. eapply leads_step; [done|exact Hw|].
  intros top Ht. rewrite op_of_num. cbn [step_op]. unfold rparen_skip. apply code_at_cons in Hc.
  eapply returns_bind_evals; [by eapply word_at_head|]. cbn [m_beg m_str]. test (n <? zlen beg) true.
  destruct (dg beg n =? p).
  - apply returns_ret. replace (pc + 1 + 3) with (pc + 4) by lia. by exists top.
  - replace (pc + 2) with (pc + 1 + 1) by lia. by apply rparen_spec.
Qed.
End control.

(** ** Well-formed expressions *)

(** The groups of an expression. *)
Fixpoint group_in (n : Z) (r : re) : Prop :=
  match r with
  | RSeq r1 r2 | RAlt r1 r2 => group_in n r1 \/ group_in n r2
  | RGroup m r | RLoop _ m r => n = m \/ group_in n r
  | ROpt _ r => group_in n r
  | _ => False
  end.

(** The expressions on which the matcher does what it means to: the groups are
    numbered below [nb] and not nested in themselves; only the groups up to 7
    are referred to, and not in a loop; on a wide string, no repetition is
    compared ignoring case. *)
Fixpoint re_ok (wide : bool) (nb : Z) (r : re) : Prop :=
  match r with
  | REmpty | RAssert _ => True
  | RChars k min opt _ => charset_ok k /\ wide_safe wide k min opt /\ 0 <= min /\ 0 <= opt <= 32768
  | RLit _ s => s <> []
  | RSeq r1 r2 | RAlt r1 r2 => re_ok wide nb r1 /\ re_ok wide nb r2
  | RGroup n r | RLoop _ n r => 0 <= n < nb /\ n < 65536 /\ ~ group_in n r /\ re_ok wide nb r
  | ROpt _ r => re_ok wide nb r
  | RRef _ n => 0 <= n < 8
  | RRefLoop _ _ _ => False
  end.

(** The starts [beg'] differ from [beg] in the groups [F] only. *)
Definition agree (F : Z -> Prop) (beg beg' : list Z) : Prop :=
  zlen beg' = zlen beg /\ forall n, 0 <= n -> ~ F n -> dg beg' n = dg beg n.

Lemma agree_refl F beg : agree F beg beg.
Proof. done. Qed.

Lemma agree_trans (F1 F2 F : Z -> Prop) b1 b2 b3 :
  agree F1 b1 b2 -> agree F2 b2 b3 -> (forall n, F1 n \/ F2 n -> F n) -> agree F b1 b3.
Proof.
  intros [Hl1 H1] [Hl2 H2] HF. split; [lia|]. intros n Hn Hnf. rewrite H2, H1; [done|lia|eauto|lia|eauto].
Qed.

Lemma agree_upd beg n v : 0 <= n -> agree (fun m => m = n) beg (upd beg n v).
Proof. intros Hn. split; [apply zlen_upd|]. intros m Hm Hne. by apply dg_upd_ne. Qed.

(** ** The theorem *)

Section sound.
Context (code : list Z) (wide : bool) (str : StrObj) (flags : Z) (l : list Z) (nb : Z).
Hypothesis Hstr : represents str l.
Hypothesis Hwide : wide = negb (AIsNarrow str).
Hypothesis Hbol : has_flag flags A_RE_NOBOL = false.
Hypothesis Heol : has_flag flags A_RE_NOEOL = false.
Hypothesis Hcode : zlen code < 32768.
#[local] Set Default Proof Using "Type Hstr Hwide Hbol Heol Hcode".

Local Abbreviation len := (zlen l).
Local Abbreviation leads := (leads code wide str len flags).
Local Abbreviation produces := (produces code wide str len flags l nb).
Local Abbreviation inv := (inv l nb).

(** What holds at a result of an enumeration that began at [p] with the starts
    [beg] and may match the groups [F]. *)
Definition after (F : Z -> Prop) (p : Z) (beg : list Z) : Z -> list Z -> Prop :=
  fun p' beg' => agree F beg beg' /\ p <= p'.

(** From the code [c] at [a] the machine enumerates what [f] lists. *)
Definition implements (F : Z -> Prop) (f : pos_groups -> list pos_groups) (a b : Z) : Prop :=
  forall p st beg, inv p st beg ->
    exists ms, produces b (after F p beg) st beg (CAt a p st beg) ms /\ same_first ms (f (p, stack_groups st)).

Lemma inv_move p p' st beg : inv p st beg -> 0 <= p' <= len -> inv p' st beg.
Proof. intros [] Hp. by split. Qed.

Lemma inv_push p st beg ip s : inv p st beg -> inv p (MkEntry 0 (CodePtr ip) s :: st) beg.
Proof.
  intros [Hp Hs Hg Hb]. split; [done| |done|done]. apply stack_ok_cons; [|done]. constructor; [markers|lia].
Qed.

Lemma after_refl F p beg : after F p beg p beg.
Proof. split; [apply agree_refl|lia]. Qed.

(** A step with at most one result. *)
Lemma implements_step F f a b :
  (forall p st beg, inv p st beg ->
    leads (CAt a p st beg)
      (match f (p, stack_groups st) with y :: _ => CAt b y.1 st beg | [] => CFail st beg end) /\
    match f (p, stack_groups st) with
    | [] => True
    | y :: ys => ys = [] /\ y.2 = stack_groups st /\ p <= y.1 <= len
    end) -> implements F f a b.
Proof.
  intros Hf p st beg Hi. destruct (Hf p st beg Hi) as [Hl Hy]. exists (f (p, stack_groups st)). split; [|done].
  destruct (f (p, stack_groups st)) as [|[p' g'] ys]; [by apply pr_nil|].
  destruct Hy as (-> & Hg & Hp). simpl in *. subst g'. eapply produces_leads; [exact Hl|].
  apply produces_one.
  - pose proof (inv_pos _ _ _ _ _ Hi). apply (inv_move p); [done|lia].
  - split; [apply agree_refl|lia].
Qed.

(** A choice between two places, of which the second is left on the stack. *)
Lemma produces_choice b R p st beg c x1 x2 ms1 ms2 :
  leads c (CAt x1 p (MkEntry 0 (CodePtr x2) p :: st) beg) ->
  produces b R (MkEntry 0 (CodePtr x2) p :: st) beg (CAt x1 p (MkEntry 0 (CodePtr x2) p :: st) beg) ms1 ->
  produces b R st beg (CAt x2 p st beg) ms2 ->
  produces b R st beg c (ms1 ++ ms2).
Proof.
  intros Hc H1 H2. eapply produces_leads; [exact Hc|].
  apply (produces_app code wide str len flags l nb b R st beg [MkEntry 0 (CodePtr x2) p] beg _ ms1 ms2 H1).
  eapply produces_leads; [apply fail_choice|exact H2].
Qed.

Lemma implements_mono (F F' : Z -> Prop) f a b : (forall n, F n -> F' n) -> implements F f a b -> implements F' f a b.
Proof.
  intros HF Hi p st beg Hinv. destruct (Hi p st beg Hinv) as (ms & Hm & Hs). exists ms. split; [|done].
  eapply produces_mono; [|exact Hm]. intros p' beg' [[Hl Ha] Hle]. split; [|done]. split; [done|].
  intros n Hn Hnf. apply Ha; [done|]. intros HFn. apply Hnf. by apply HF.
Qed.

Lemma implements_choice F f1 f2 a b x1 x2 :
  (forall p st beg, leads (CAt a p st beg) (CAt x1 p (MkEntry 0 (CodePtr x2) p :: st) beg)) ->
  implements F f1 x1 b -> implements F f2 x2 b -> implements F (fun x => f1 x ++ f2 x) a b.
Proof.
  intros Ha H1 H2 p st beg Hi.
  destruct (H1 p _ beg (inv_push _ _ _ x2 p Hi)) as (ms1 & Hm1 & Hs1). cbn [stack_groups e_ip] in Hs1.
  destruct (H2 p st beg Hi) as (ms2 & Hm2 & Hs2). exists (ms1 ++ ms2). split; [|by rewrite Hs1, Hs2].
  eapply produces_choice; [apply Ha|exact Hm1|exact Hm2].
Qed.

Lemma implements_here F b : implements F (fun x => [x]) b b.
Proof.
  intros p st beg Hi. exists [(p, stack_groups st)]. split; [|done]. apply produces_one; [done|apply after_refl].
Qed.

Lemma implements_exit F f a m b :
  (forall p st beg, leads (CAt m p st beg) (CAt b p st beg)) -> implements F f a m -> implements F f a b.
Proof.
  intros Hm Hf p st beg Hi. destruct (Hf p st beg Hi) as (ms & Hms & Hs). exists ms. split; [|done].
  by eapply produces_exit.
Qed.

Lemma implements_seq (F1 F2 : Z -> Prop) f1 f2 a m b :
  implements F1 f1 a m -> implements F2 f2 m b ->
  implements (fun n => F1 n \/ F2 n) (fun x => flat_map f2 (f1 x)) a b.
Proof.
  intros H1 H2 p st beg Hi. destruct (H1 p st beg Hi) as (ms1 & Hm1 & Hs1).
  destruct (produces_bind code wide str len flags l nb b m (after F1 p beg) (after (fun n => F1 n \/ F2 n) p beg) f2 st beg _ ms1 Hm1)
    as (ms2 & Hm2 & Hs2).
  - intros p' st' beg' Hi' [Ha Hp]. destruct (H2 p' _ beg' Hi') as (ms' & Hm' & Hs'). exists ms'. split; [|done].
    eapply produces_mono; [|exact Hm']. intros p2 beg2 [Ha2 Hp2]. split; [|lia]. by eapply agree_trans.
  - exists ms2. split; [done|]. rewrite Hs2. apply same_first_flat_map; [done|]. by intros x.
Qed.
(** *** Groups *)

Lemma inv_mark p p' n st beg :
  inv p' st beg -> 0 <= n < 65536 -> 0 <= p <= p' -> inv p' (match_mark n p p' :: st) beg.
Proof.
  intros [Hp Hs Hg Hb] Hn Hpp. split; [done| | |done].
  - apply stack_ok_cons; [|done]. by constructor.
  - intros m b e. cbn [stack_groups match_mark e_ip e_repeat e_str]. intros Hm.
    apply lookup_insert_Some in Hm as [[_ [= <- <-]]|[_ Hm]]; [lia|by apply (Hg m)].
Qed.

Lemma inv_start p st beg n : inv p st beg -> 0 <= n < 65536 -> inv p (start_mark n (dg beg n) :: st) (upd beg n p).
Proof.
  intros [Hp Hs Hg Hb] Hn. split; [done| |done|by rewrite zlen_upd]. apply stack_ok_cons; [|done]. by constructor.
Qed.

Lemma mark_groups n p p' st : stack_groups (match_mark n p p' :: st) = <[n := (p, p')]> (stack_groups st).
Proof. cbn [stack_groups match_mark e_ip e_repeat e_str]. by replace (n + PAREN_MIN - PAREN_MIN) with n by lia. Qed.

(** A group that begins at [a], whose body ends at [m] and goes on as [k]
    says, which may use the start of the group. *)
Lemma marked_body (F G : Z -> Prop) f k a m b n p :
  implements F f (a + 2) m -> code_at code a [op_num A_LPAREN; n] ->
  0 <= n < nb -> n < 65536 -> ~ F n ->
  (forall p' st beg, inv p' st beg -> dg beg n = p -> p <= p' ->
    exists ms, produces b (after G p' beg) st beg (CAt m p' st beg) ms /\
      same_first ms (k (p', stack_groups st))) ->
  forall st beg, inv p st beg ->
    exists ms, produces b (after (fun j => j = n \/ F j \/ G j) p beg) st beg (CAt a p st beg) ms /\
      same_first ms (flat_map k (f (p, stack_groups st))).
Proof.
  intros Hf Hc Hn Hn2 HF Hk st beg Hi. pose proof (inv_beg _ _ _ _ _ Hi) as Hb.
  assert (Hi1 : inv p (start_mark n (dg beg n) :: st) (upd beg n p)) by (apply inv_start; [done|lia]).
  destruct (Hf p _ _ Hi1) as (ms1 & Hm1 & Hs1). cbn [stack_groups start_mark e_ip] in Hs1.
  destruct (produces_bind code wide str len flags l nb b m (after F p (upd beg n p))
    (after (fun j => j = n \/ F j \/ G j) p beg) k (start_mark n (dg beg n) :: st) (upd beg n p) _ ms1 Hm1)
    as (ms2 & Hm2 & Hs2).
  - intros p' st' beg' Hi' [Ha Hp]. destruct (Hk p' _ beg' Hi') as (ms' & Hm' & Hs').
    + destruct Ha as [_ Ha]. rewrite Ha by (done || lia). apply dg_upd_eq. lia.
    + done.
    + exists ms'. split; [|done]. eapply produces_mono; [|exact Hm']. intros p2 beg2 [Ha2 Hp2]. split; [|lia].
      eapply (agree_trans (fun j => j = n \/ F j)); [|exact Ha2|tauto].
      eapply agree_trans; [apply (agree_upd beg n p); lia|exact Ha|]. cbv beta. tauto.
  - exists (ms2 ++ []). split; [|rewrite app_nil_r, Hs2; apply same_first_flat_map; [done|by intros x]].
    eapply produces_leads; [apply lparen_leads; [done|lia]|].
    apply (produces_app code wide str len flags l nb b _ st beg [start_mark n (dg beg n)] (upd beg n p) _ ms2 []); [done|].
    apply pr_nil. replace beg with (upd (upd beg n p) n (dg beg n)) at 3.
    + apply fail_start; [lia|rewrite zlen_upd; lia].
    + unfold upd, dg. rewrite list_insert_insert_eq. apply list_insert_id.
      rewrite nth_lookup. destruct (lookup_lt_is_Some_2 beg (Z.to_nat n) ltac:(lia)) as [v ->]. done.
Qed.

Lemma implements_group F f a m n :
  implements F f (a + 2) m -> code_at code a [op_num A_LPAREN; n] -> code_at code m [op_num A_RPAREN; n] ->
  0 <= n < nb -> n < 65536 -> ~ F n ->
  implements (fun j => j = n \/ F j) (fun x => (fun y : pos_groups => (y.1, <[n := (x.1, y.1)]> y.2)) <$> f x) a (m + 2).
Proof.
  intros Hf Ha Hm Hn Hn2 HF p st beg Hi.
  destruct (marked_body F (fun _ => False) f (fun y => [(y.1, <[n := (p, y.1)]> y.2)]) a m (m + 2) n p Hf Ha Hn Hn2 HF)
    with (st := st) (beg := beg) as (ms & Hms & Hs); [|done|].
  - intros p' st' beg' Hi' Hd Hp. pose proof (inv_beg _ _ _ _ _ Hi') as Hb. pose proof (inv_pos _ _ _ _ _ Hi) as Hp0.
    exists [(p', stack_groups (match_mark n p p' :: st'))]. split; [|cbn [fst snd]; by rewrite mark_groups].
    apply (pr_cons _ _ _ _ _ _ _ _ _ _ _ _ p' [match_mark n p p'] beg').
    + rewrite <- Hd at 1. apply rparen_leads; [done|lia].
    + apply inv_mark; [done|lia|lia].
    + apply after_refl.
    + apply pr_nil. apply fail_match. lia.
  - exists ms. split; [|rewrite Hs; cbn [fst]; by rewrite flat_map_single].
    eapply produces_mono; [|exact Hms]. intros p2 beg2 [Ha2 Hp2]. split; [|done].
    eapply (agree_trans _ (fun _ => False)); [exact Ha2|apply agree_refl|tauto].
Qed.
(** *** Loops *)

Section loop.
Context (F : Z -> Prop) (f : pos_groups -> list pos_groups) (minimize : bool) (n a m d1 d2 : Z).
Hypothesis Hf : implements F f (a + 4) m.
Hypothesis Henter : code_at code a [branch_op minimize; u16 d1].
Hypothesis Hlparen : code_at code (a + 2) [op_num A_LPAREN; n].
Hypothesis Hrparen : code_at code m [op_num A_RPAREN_SKIP; n].
Hypothesis Hback : code_at code (m + 2) [branch_op (negb minimize); u16 d2].
Hypothesis Hd1 : a + 1 + d1 = m + 4.
Hypothesis Hd2 : m + 3 + d2 = a + 2.
Hypothesis Hrange : -32768 <= d1 < 32768 /\ -32768 <= d2 < 32768.
Hypothesis Hn : 0 <= n < nb /\ n < 65536 /\ ~ F n.
#[local] Set Default Proof Using "Type Hstr Hwide Hbol Heol Hcode Hf Henter Hlparen Hrparen Hback Hd1 Hd2 Hrange Hn".

Local Abbreviation loop_groups := (fun j => j = n \/ F j).

(** The place where another iteration is chosen or not. *)
Definition loop_choice (p : Z) (st : list StackEntry) (beg : list Z) : conf :=
  if minimize then CAt (m + 4) p (MkEntry 0 (CodePtr (a + 2)) p :: st) beg
  else CAt (a + 2) p (MkEntry 0 (CodePtr (m + 4)) p :: st) beg.

Lemma enter_choice p st beg : leads (CAt a p st beg) (loop_choice p st beg).
Proof.
  destruct Hrange as [Hr1 Hr2]. unfold loop_choice. rewrite <- Hd1. unfold branch_op in Henter. destruct minimize.
  - by apply branch_before_leads.
  - by apply branch_after_leads.
Qed.

Lemma back_choice p st beg : leads (CAt (m + 2) p st beg) (loop_choice p st beg).
Proof.
  destruct Hrange as [Hr1 Hr2]. unfold loop_choice. rewrite <- Hd2. replace (m + 3 + d2) with (m + 2 + 1 + d2) by lia.
  replace (m + 4) with (m + 2 + 2) by lia. unfold branch_op in Hback. destruct minimize.
  - by apply branch_after_leads.
  - by apply branch_before_leads.
Qed.

(** What follows an iteration that began at [p]. *)
Definition next_iteration (fuel : nat) (p : Z) (y : pos_groups) : list pos_groups :=
  if y.1 =? p then [y] else loop_sem fuel minimize n f (y.1, <[n := (p, y.1)]> y.2).

(** The enumeration of a loop from the choice at [p], with [fuel] iterations
    at most. *)
Definition loop_from (fuel : nat) (p : Z) : Prop :=
  forall st beg c, inv p st beg -> leads c (loop_choice p st beg) ->
    exists ms, produces (m + 4) (after loop_groups p beg) st beg c ms /\
      same_first ms (loop_sem fuel minimize n f (p, stack_groups st)).

Lemma iteration fuel p st beg :
  (forall p', p < p' <= len -> loop_from fuel p') -> inv p st beg ->
  exists ms, produces (m + 4) (after loop_groups p beg) st beg (CAt (a + 2) p st beg) ms /\
    same_first ms (flat_map (next_iteration fuel p) (f (p, stack_groups st))).
Proof.
  intros IH Hi. destruct Hn as (Hn1 & Hn2 & HF). pose proof (inv_pos _ _ _ _ _ Hi) as Hp0.
  destruct (marked_body F loop_groups f (next_iteration fuel p) (a + 2) m (m + 4) n p) with (st := st) (beg := beg)
    as (ms & Hms & Hs); [by replace (a + 2 + 2) with (a + 4) by lia|done..| |done|].
  - intros p' st' beg' Hi' Hd Hp. pose proof (inv_beg _ _ _ _ _ Hi') as Hb. pose proof (inv_pos _ _ _ _ _ Hi') as Hp1.
    pose proof (rparen_skip_leads code wide str len flags m n p' st' beg' Hrparen ltac:(lia)) as Hskip. rewrite Hd in Hskip.
    unfold next_iteration. cbn [fst snd]. destruct (Z.eqb_spec p p') as [<-|Hne].
    + rewrite Z.eqb_refl. exists [(p, stack_groups st')]. split; [|done].
      eapply produces_leads; [exact Hskip|]. apply produces_one; [done|apply after_refl].
    + destruct (Z.eqb_spec p' p); [lia|].
      destruct (IH p' ltac:(lia) (match_mark n p p' :: st') beg' (CAt (m + 2) p' (match_mark n p p' :: st') beg'))
        as (ms & Hms & Hs); [apply inv_mark; [done|lia|lia]|apply back_choice|].
      rewrite mark_groups in Hs. exists (ms ++ []). split; [|by rewrite app_nil_r].
      eapply produces_leads; [exact Hskip|].
      apply (produces_app code wide str len flags l nb (m + 4) _ st' beg' [match_mark n p p'] beg' _ ms []); [done|].
      apply pr_nil, fail_match. lia.
  - exists ms. split; [|done]. eapply produces_mono; [|exact Hms]. intros p2 beg2 [Ha2 Hp2]. split; [|done].
    eapply (agree_trans _ (fun _ => False)); [exact Ha2|apply agree_refl|tauto].
Qed.

Lemma loop_from_all fuel p : (Z.to_nat (len - p) < fuel)%nat -> loop_from fuel p.
Proof.
  revert p. induction fuel as [|fuel IH]; intros p Hfuel; [lia|]. intros st beg c Hi Hc.
  assert (Hnext : forall p', p < p' <= len -> loop_from fuel p') by (intros p' Hp'; apply IH; lia).
  assert (Hhere : forall st', inv p st' beg ->
    produces (m + 4) (after loop_groups p beg) st' beg (CAt (m + 4) p st' beg) [(p, stack_groups st')])
    by (intros st' Hi'; apply produces_one; [done|apply after_refl]).
  unfold loop_choice in Hc. cbn [loop_sem].
  change (fun y : pos_groups => if y.1 =? (p, stack_groups st).1 then [y]
    else loop_sem fuel minimize n f (y.1, <[n := ((p, stack_groups st).1, y.1)]> y.2)) with (next_iteration fuel p).
  destruct (iteration fuel p st beg Hnext Hi) as (ms1 & Hms1 & Hs1).
  destruct (iteration fuel p _ beg Hnext (inv_push _ _ _ (m + 4) p Hi)) as (ms2 & Hms2 & Hs2).
  destruct minimize.
  - exists ([(p, stack_groups st)] ++ ms1). split; [|simpl; by rewrite Hs1].
    eapply produces_choice; [exact Hc|exact (Hhere (_ :: st) (inv_push _ _ _ _ p Hi))|exact Hms1].
  - exists (ms2 ++ [(p, stack_groups st)]). split; [|by rewrite Hs2].
    eapply produces_choice; [exact Hc|exact Hms2|by apply Hhere].
Qed.

Lemma implements_loop :
  implements loop_groups (fun x => loop_sem (S (Z.to_nat (len - x.1))) minimize n f x) a (m + 4).
Proof.
  intros p st beg Hi. apply (loop_from_all (S (Z.to_nat (len - p))) p); [lia|done|apply enter_choice].
Qed.
End loop.
(** *** Repetitions of a character *)

Lemma rev_seq n : rev (seq 0 (S n)) = (fun j => (n - j)%nat) <$> seq 0 (S n).
Proof.
  induction n as [|n IH]; [done|]. rewrite seq_S at 1. rewrite rev_unit, IH. cbn [Nat.add].
  replace (seq 0 (S (S n))) with (0%nat :: (S <$> seq 0 (S n))) by (by rewrite fmap_S_seq).
  rewrite fmap_cons, <- list_fmap_compose. f_equal.
Qed.

Lemma repeat_bounds tb min opt p :
  0 <= p <= len -> 0 <= min -> all_match (Z.to_nat min) tb (from l p) = true ->
  p + min <= len /\ p + min + Z.of_nat (run_length (Z.to_nat opt) tb (from l (p + min))) <= len /\
  (run_length (Z.to_nat opt) tb (from l (p + min)) <= Z.to_nat opt)%nat.
Proof.
  intros Hp Hm Ha. unfold all_match in Ha. apply andb_prop in Ha as [Ha%Nat.leb_le _].
  pose proof (from_length l p Hp) as Hl. destruct (run_length_le (Z.to_nat opt) tb (from l (p + min))) as [H1 H2].
  pose proof (from_length l (p + min) ltac:(lia)). split_and!; lia.
Qed.

Lemma implements_chars k min opt minimize a :
  code_at code a (chars_code k min opt minimize) -> charset_ok k -> wide_safe wide k min opt ->
  0 <= min -> 0 <= opt <= 32768 ->
  implements (fun _ => False) (sem l (RChars k min opt minimize)) a (a + zlen (chars_code k min opt minimize)).
Proof.
  intros Hc Hk Hw Hm Ho p st beg Hi. pose proof (inv_pos _ _ _ _ _ Hi) as Hp.
  pose proof (chars_leads code wide str flags l Hstr Hwide k min opt minimize a p st beg Hc Hk Hw Hm ltac:(lia) Hp) as Hl.
  set (b := a + zlen (chars_code k min opt minimize)) in *. cbn [sem fst snd]. unfold repeat_conf, chars_from in *.
  destruct (all_match _ _ _) eqn:Hall.
  2: { exists []. split; [by apply pr_nil|]. by destruct minimize. }
  destruct (repeat_bounds _ min opt p Hp Hm Hall) as (Hb1 & Hb2 & Hb3). cbv zeta in *.
  set (n := run_length (Z.to_nat opt) (in_charset k) (from l (p + min))) in *.
  assert (Hin : forall q, p <= q <= p + min + Z.of_nat n -> inv q st beg /\ after (fun _ => False) p beg q beg).
  { intros q Hq. split; [by apply (inv_move p); [|lia]|]. split; [apply agree_refl|lia]. }
  destruct (Z.eqb_spec (Z.of_nat n) 0) as [Hz|Hz].
  { assert (n = O) as -> by lia. exists [(p + min, stack_groups st)]. split.
    - eapply produces_leads; [exact Hl|]. destruct (Hin (p + min) ltac:(lia)). by apply produces_one.
    - simpl. rewrite Z.add_0_r. by destruct minimize. }
  destruct minimize.
  - exists (((fun j => (p + min + Z.of_nat n - Z.of_nat j, stack_groups st)) <$> rev (seq 0 (S n))) ++
      [(p + min + Z.of_nat n, stack_groups st)]). split.
    + eapply produces_leads; [exact Hl|].
      pose proof (produces_lazy code wide str len flags l nb n b (after (fun _ => False) p beg) (p + min + Z.of_nat n) st beg) as H.
      replace (p + min + Z.of_nat n - Z.of_nat n) with (p + min) in H by lia. apply H; [|lia].
      intros j Hj. apply Hin. lia.
    + rewrite (fmap_rev (fun j => p + min + Z.of_nat j)), rev_involutive, <- list_fmap_compose, rev_seq, <- list_fmap_compose.
      replace (_ <$> seq 0 (S n)) with ((fun j => (p + min + Z.of_nat j, stack_groups st)) <$> seq 0 (S n)) at 1.
      * rewrite seq_S, !fmap_app, <- app_assoc.
        apply (same_first_twice ((fun j => (p + min + Z.of_nat j, stack_groups st)) <$> seq 0 n)).
      * apply list_fmap_ext. intros i j Hij. apply lookup_seq in Hij as [-> Hij]. simpl. f_equal. lia.
  - exists (((fun j => (p + min + Z.of_nat j, stack_groups st)) <$> rev (seq 0 (S n))) ++ [(p + min, stack_groups st)]). split.
    + eapply produces_leads; [exact Hl|]. apply produces_greedy; [|lia]. intros j Hj. apply Hin. lia.
    + rewrite <- list_fmap_compose. cbn [seq rev]. rewrite fmap_app. cbn [fmap list_fmap]. rewrite Z.add_0_r, <- app_assoc.
      simpl app. rewrite fmap_app. simpl. rewrite Z.add_0_r. apply same_first_twice.
Qed.
(** *** Expressions *)

Lemma implements_assert a pc :
  code_at code pc [op_num (assert_op a)] -> implements (fun _ => False) (sem l (RAssert a)) pc (pc + 1).
Proof.
  intros Hc. apply implements_step. intros p st beg Hi. pose proof (inv_pos _ _ _ _ _ Hi) as Hp.
  pose proof (assert_leads code wide str flags l Hstr Hwide Hbol Heol a pc p st beg Hc Hp) as H.
  cbn [sem fst]. destruct (holds l a p); [|done]. split; [exact H|]. simpl. split_and!; (done || lia).
Qed.

Lemma implements_lit i s pc :
  code_at code pc (code_of (RLit i s)) -> s <> [] ->
  implements (fun _ => False) (sem l (RLit i s)) pc (pc + zlen (code_of (RLit i s))).
Proof.
  intros Hc Hs. apply implements_step. intros p st beg Hi. pose proof (inv_pos _ _ _ _ _ Hi) as Hp.
  pose proof (literal_leads code wide str flags l Hstr Hwide i s pc p st beg Hc Hs Hp) as H.
  cbn [sem fst snd]. destruct (lit_matches i s (slice l p (p + zlen s))) eqn:E; [|done]. cbn [fst snd code_of].
  replace (pc + zlen ([op_num (if i then A_LITERAL_I_STRING else A_LITERAL_STRING); zlen s] ++ s))
    with (pc + 2 + zlen s) by (rewrite length_app; simpl; lia). split; [exact H|]. split_and!; [done..|lia|].
  unfold lit_matches in E. apply bool_decide_eq_true in E. apply (f_equal length) in E.
  assert (zlen (slice l p (p + zlen s)) = zlen s) by (destruct i; rewrite ?length_fmap in E; lia).
  unfold slice in *. rewrite length_take in *. pose proof (from_length l p Hp). lia.
Qed.

Lemma implements_ref i n pc :
  code_at code pc (code_of (RRef i n)) -> 0 <= n < 8 ->
  implements (fun _ => False) (sem l (RRef i n)) pc (pc + 2).
Proof.
  intros Hc Hn. apply implements_step. intros p st beg Hi. destruct Hi as [Hp Hs Hg _].
  pose proof (backref_leads code wide str flags l Hstr Hwide i n pc p st beg Hc Hn Hs Hp (Hg n)) as H.
  cbn [sem]. unfold ref_sem in *. cbn [fst snd] in *. destruct (stack_groups st !! n) as [[b e]|] eqn:E; [|done].
  destruct (Hg n b e E) as [Hbe He]. destruct (Z.leb_spec (p + (e - b)) len); [|done].
  destruct (same_text _ _ _); [|done]. split; [exact H|]. split_and!; simpl; (done || lia).
Qed.

Lemma implements_alt F f1 f2 c1 c2 a :
  code_at code a ([op_num A_BRANCH_AFTER; u16 (zlen c1 + 3)] ++ c1 ++ [op_num A_BRANCH_ALWAYS; u16 (zlen c2 + 1)] ++ c2) ->
  implements F f1 (a + 2) (a + 2 + zlen c1) ->
  implements F f2 (a + 4 + zlen c1) (a + 4 + zlen c1 + zlen c2) ->
  implements F (fun x => f1 x ++ f2 x) a (a + 4 + zlen c1 + zlen c2).
Proof.
  intros Hc H1 H2. apply code_at_app in Hc as [Ha Hc]. apply code_at_app in Hc as [Hc1 Hc].
  apply code_at_app in Hc as [Hb Hc2]. pose proof (code_at_bounds _ _ _ Ha). pose proof (code_at_bounds _ _ _ Hc2) as Hbd.
  simpl zlen in *.
  apply (implements_choice F f1 f2 a _ (a + 2) (a + 4 + zlen c1)).
  - intros p st beg. replace (a + 4 + zlen c1) with (a + 1 + (zlen c1 + 3)) by lia. apply branch_after_leads; [done|lia].
  - apply (implements_exit F f1 _ (a + 2 + zlen c1)); [|done]. intros p st beg.
    replace (a + 4 + zlen c1 + zlen c2) with (a + 2 + zlen c1 + 1 + (zlen c2 + 1)) by lia.
    apply branch_always_leads; [done|lia].
  - done.
Qed.

Lemma implements_opt F f minimize c a :
  code_at code a ([branch_op minimize; u16 (zlen c + 1)] ++ c) ->
  implements F f (a + 2) (a + 2 + zlen c) ->
  implements F (fun x => if minimize : bool then x :: f x else f x ++ [x]) a (a + 2 + zlen c).
Proof.
  intros Hc Hf. apply code_at_app in Hc as [Ha Hc]. pose proof (code_at_bounds _ _ _ Ha).
  pose proof (code_at_bounds _ _ _ Hc) as Hbd. simpl zlen in *. unfold branch_op in Ha.
  replace (a + 2 + zlen c) with (a + 1 + (zlen c + 1)) in * by lia. destruct minimize.
  - apply (implements_choice F (fun x => [x]) f a _ (a + 1 + (zlen c + 1)) (a + 2)); [|apply implements_here|done].
    intros p st beg. apply branch_before_leads; [done|lia].
  - apply (implements_choice F f (fun x => [x]) a _ (a + 2) (a + 1 + (zlen c + 1))); [|done|apply implements_here].
    intros p st beg. apply branch_after_leads; [done|lia].
Qed.

Lemma implements_loop_code F f minimize n c a :
  code_at code a (loop_code minimize ([op_num A_LPAREN; n] ++ c ++ [op_num A_RPAREN_SKIP; n])) ->
  implements F f (a + 4) (a + 4 + zlen c) -> 0 <= n < nb -> n < 65536 -> ~ F n ->
  implements (fun j => j = n \/ F j) (fun x => loop_sem (S (Z.to_nat (len - x.1))) minimize n f x) a (a + 8 + zlen c).
Proof.
  unfold loop_code. rewrite <- !app_assoc. intros Hc Hf Hn Hn2 HF.
  apply code_at_app in Hc as [Ha Hc]. apply code_at_app in Hc as [Hlp Hc]. apply code_at_app in Hc as [_ Hc].
  apply code_at_app in Hc as [Hrp Hback]. rewrite !length_app in *. simpl zlen in *. simpl length in *.
  pose proof (code_at_bounds _ _ _ Hback) as Hbd. simpl zlen in Hbd. pose proof (code_at_bounds _ _ _ Ha).
  replace (a + 8 + zlen c) with (a + 4 + zlen c + 4) by lia.
  apply (implements_loop F f minimize n a (a + 4 + zlen c)
    (Z.of_nat (2 + (length c + 2)) + 3) (- Z.of_nat (2 + (length c + 2)) - 1)); [done|done|done| | |lia|lia|lia|done].
  - replace (a + 4 + zlen c) with (a + 2 + 2 + zlen c) by lia. done.
  - replace (a + 4 + zlen c + 2) with (a + 2 + 2 + zlen c + 2) by lia. done.
Qed.
Theorem code_implements r a :
  re_ok wide nb r -> code_at code a (code_of r) ->
  implements (fun n => group_in n r) (sem l r) a (a + zlen (code_of r)).
Proof.
  revert a. induction r as [|k|k min opt minimize|i s|r1 IH1 r2 IH2|r1 IH1 r2 IH2|n r IH|i n|minimize r IH|minimize n r IH|minimize i n];
    intros a Hok Hc; cbn [re_ok group_in code_of] in *.
  - simpl zlen. rewrite Z.add_0_r. apply implements_here.
  - by apply implements_assert.
  - destruct Hok as (Hk & Hw & Hm & Ho). by apply implements_chars.
  - by apply implements_lit.
  - destruct Hok as [Hok1 Hok2]. apply code_at_app in Hc as [Hc1 Hc2]. rewrite length_app.
    replace (a + Z.of_nat _) with (a + zlen (code_of r1) + zlen (code_of r2)) by lia.
    eapply implements_seq; [by apply IH1|by apply IH2].
  - destruct Hok as [Hok1 Hok2].
    replace (a + zlen _) with (a + 4 + zlen (code_of r1) + zlen (code_of r2)) by (rewrite !length_app; simpl; lia).
    apply implements_alt; [done|..].
    + apply code_at_app in Hc as [_ Hc]. apply code_at_app in Hc as [Hc1 _].
      apply (implements_mono (fun n => group_in n r1)); [tauto|]. by apply IH1.
    + do 3 apply code_at_app in Hc as [_ Hc]. simpl zlen in Hc.
      apply (implements_mono (fun n => group_in n r2)); [tauto|]. apply IH2; [done|].
      by replace (a + 4 + zlen (code_of r1)) with (a + 2 + zlen (code_of r1) + 2) by lia.
  - destruct Hok as (Hn & Hn2 & HF & Hok). apply code_at_app in Hc as [Ha Hc]. apply code_at_app in Hc as [Hc Hr].
    replace (a + zlen _) with (a + 2 + zlen (code_of r) + 2) by (rewrite !length_app; simpl; lia).
    apply implements_group; [by apply IH|done..].
  - by apply implements_ref.
  - pose proof Hc as Hc'. apply code_at_app in Hc as [_ Hc].
    replace (a + zlen _) with (a + 2 + zlen (code_of r)) by (rewrite !length_app; simpl; lia).
    apply implements_opt; [done|]. by apply IH.
  - destruct Hok as (Hn & Hn2 & HF & Hok). pose proof Hc as Hc'. unfold loop_code in Hc. rewrite <- !app_assoc in Hc.
    do 2 apply code_at_app in Hc as [_ Hc]. apply code_at_app in Hc as [Hc _]. simpl zlen in Hc.
    replace (a + zlen _) with (a + 8 + zlen (code_of r)) by (unfold loop_code; rewrite !length_app; simpl; lia).
    apply implements_loop_code; [done| |done..]. replace (a + 4) with (a + 2 + 2) by lia. by apply IH.
  - done.
Qed.

(** What [Try] returns: the first result of [sem], with its groups on the
    stack, or [-1], with the starts of the groups as they were. *)
Definition try_result (r : re) (p : Z) (beg : list Z) (res : Z) (m : Machine) : Prop :=
  match sem l r (p, ∅) with
  | [] => res = -1 /\ m_beg m = beg /\ 1 <= m_top m
  | y :: _ => res = y.1 /\ stack_groups (m_st m) = y.2 /\ stack_ok (m_st m)
  end.

Lemma Try_spec r junk beg p :
  re_ok wide nb r -> code = code_of r ++ [op_num A_MATCH] -> 0 <= p <= len -> zlen beg = nb ->
  exists n, forall fuel top, (n <= fuel)%nat -> 1 <= top ->
    returns (Try code wide str len flags fuel (MkInfo (MkEntry 0 EmptyPtr junk) top beg) p)
      (fun '(res, m) => try_result r p beg res m).
Proof.
  intros Hok Hce Hp Hbeg. set (st := [MkEntry 0 EmptyPtr junk]).
  assert (Hst : stack_ok st) by (by exists [], junk).
  assert (Hi : inv p st beg) by (split; [done|done|intros m b e Hm; simpl in Hm; by rewrite lookup_empty in Hm|done]).
  assert (Hc : code_at code 0 (code_of r)) by (exists [], [op_num A_MATCH]; done).
  destruct (code_implements r 0 Hok Hc p st beg Hi) as (ms & Hms & Hs). change (stack_groups st) with (∅ : gmap Z (Z * Z)) in Hs.
  apply produces_run in Hms. rewrite Z.add_0_l in *. unfold try_result. apply same_first_head in Hs.
  destruct ms as [|[p' g'] ms], (sem l r (p, ∅)) as [|y ys]; simpl in Hs; try done.
  - destruct Hms as [n Hn]. exists (n + 1)%nat. intros fuel top0 Hf Ht. replace fuel with (n + S (fuel - n - 1))%nat by lia.
    apply (Hn _ top0); [simpl; lia|]. intros top Htop. apply returns_ret. simpl in Htop |- *. split_and!; (done || lia).
  - injection Hs as <-. destruct Hms as (st' & beg' & [n Hn] & -> & Hi' & _).
    exists (n + 1)%nat. intros fuel top0 Hf Ht. replace fuel with (n + S (fuel - n - 1))%nat by lia.
    apply (Hn _ top0); [simpl; lia|]. intros top Htop. cbn [run_conf try_loop]. unfold step. cbn [m_ip].
    eapply returns_bind_evals.
    { eapply evals_bind.
      - apply (word_at_head _ _ (op_num A_MATCH) []). exists (code_of r), []. by rewrite app_nil_r.
      - rewrite op_of_num. apply evals_ret. }
    apply returns_ret. split_and!; [done..|exact (inv_stack _ _ _ _ _ Hi')].
Qed.
End sound.
