(* ===== verification/ReMatches.v ===== *)
(** * ReMatches: the list of results and the relation

    [sem] lists exactly the ways to match that the relation [matches] allows;
    its order is what it adds.  Matches stay inside the string and never go
    backwards, and take at least the length [min_len] computes. *)

From stdpp Require Import gmap.
From S2P Require Import Prelude Runtime Digits Value StrTables ReDefs ReSem.

Open Scope Z_scope.

(** Counts are not negative. *)
Fixpoint counts_ok (r : re) : Prop :=
  match r with
  | RChars _ min opt _ => 0 <= min /\ 0 <= opt
  | RSeq r1 r2 | RAlt r1 r2 => counts_ok r1 /\ counts_ok r2
  | RGroup _ r | ROpt _ r | RLoop _ _ r => counts_ok r
  | _ => True
  end.

(** The least number of characters of a match. *)
Fixpoint min_len (r : re) : Z :=
  match r with
  | RChars _ min _ _ => min
  | RLit _ s => zlen s
  | RSeq r1 r2 => min_len r1 + min_len r2
  | RAlt r1 r2 => Z.min (min_len r1) (min_len r2)
  | RGroup _ r => min_len r
  | _ => 0
  end.

Section matches.
Context (l : list Z).
Local Abbreviation len := (zlen l).

(** Positions and groups inside the string. *)
Definition good (x : pos_groups) : Prop :=
  0 <= x.1 <= len /\ forall n b e, x.2 !! n = Some (b, e) -> 0 <= b <= e /\ e <= len.

Lemma good_start p : 0 <= p <= len -> good (p, ∅).
Proof. intros Hp. split; [done|]. intros n b e He. simpl in He. by rewrite lookup_empty in He. Qed.

Lemma good_move x p : good x -> 0 <= p <= len -> good (p, x.2).
Proof. intros [_ Hg] Hp. by split. Qed.

Lemma good_group x y n : good x -> good y -> x.1 <= y.1 -> good (y.1, <[n := (x.1, y.1)]> y.2).
Proof.
  intros [Hx _] [Hy Hg] Hle. split; [done|]. intros m b e He. simpl in He.
  apply lookup_insert_Some in He as [[_ [= <- <-]]|[_ He]]; [lia|by apply (Hg m)].
Qed.

(** [y] is reachable from [x]: forward and inside the string. *)
Definition forward (x y : pos_groups) : Prop := good y /\ x.1 <= y.1.

(** *** Runs of characters *)

Lemma from_zlen i : 0 <= i <= len -> zlen (from l i) = len - i.
Proof. intros Hi. unfold from. rewrite length_drop. lia. Qed.

Lemma run_length_spec n test t j :
  (j <= run_length n test t)%nat <-> (j <= n)%nat /\ (j <= length t)%nat /\ Forall (fun c => test c = true) (take j t).
Proof.
  revert t j. induction n as [|n IH]; intros t j.
  { simpl. split; [intros H; assert (j = O) as -> by lia; simpl; auto with lia|lia]. }
  destruct t as [|c t]; [simpl; split; [intros H; assert (j = O) as -> by lia; simpl; auto with lia|lia]|].
  destruct j as [|j]; [simpl; split; auto with lia|]. cbn [run_length take length]. destruct (test c) eqn:Ec.
  - rewrite <- Nat.succ_le_mono, IH. split.
    + intros (? & ? & ?). split_and!; [lia|lia|by constructor].
    + intros (? & ? & Hf). apply Forall_cons_1 in Hf as [_ Hf]. split_and!; [lia|lia|done].
  - split; [lia|]. intros (_ & _ & Hf). apply Forall_cons_1 in Hf as [Hc _]. congruence.
Qed.

Lemma all_match_spec n test t :
  all_match n test t = true <-> (n <= length t)%nat /\ Forall (fun c => test c = true) (take n t).
Proof.
  unfold all_match. rewrite andb_true_iff, Nat.leb_le, forallb_forall, Forall_forall. done.
Qed.

Lemma slice_from p n : 0 <= p -> 0 <= n -> slice l p (p + n) = take (Z.to_nat n) (from l p).
Proof. intros. unfold slice. do 2 f_equal. lia. Qed.

Lemma from_from p n : 0 <= p -> 0 <= n -> from l (p + n) = drop (Z.to_nat n) (from l p).
Proof. intros. unfold from. rewrite drop_drop. f_equal. lia. Qed.

Lemma chars_from_spec k min opt p q :
  0 <= p <= len -> 0 <= min -> 0 <= opt ->
  In q (chars_from l k min opt p) <->
  exists n, q = p + n /\ min <= n <= min + opt /\ p + n <= len /\
    Forall (fun c => in_charset k c = true) (slice l p (p + n)).
Proof.
  intros Hp Hm Ho. unfold chars_from. pose proof (from_zlen p Hp) as Hl.
  set (t := from l p) in *. set (test := in_charset k).
  assert (Hsplit : forall n, (Z.to_nat min <= n)%nat ->
    Forall (fun c => test c = true) (take n t) <->
    Forall (fun c => test c = true) (take (Z.to_nat min) t) /\
    Forall (fun c => test c = true) (take (n - Z.to_nat min) (drop (Z.to_nat min) t))).
  { intros n Hn. rewrite <- Forall_app, take_take_drop. by replace (Z.to_nat min + (n - Z.to_nat min))%nat with n by lia. }
  destruct (all_match (Z.to_nat min) test t) eqn:Ha.
  - apply all_match_spec in Ha as [Ha1 Ha2]. rewrite from_from by lia. fold t.
    rewrite <- list_elem_of_In, list_elem_of_fmap. split.
    + intros (j & -> & Hj). apply list_elem_of_In, in_rev, in_seq in Hj.
      assert (Hj' : (j <= run_length (Z.to_nat opt) test (drop (Z.to_nat min) t))%nat) by lia.
      apply run_length_spec in Hj' as (Hj1 & Hj2 & Hj3). rewrite length_drop in Hj2.
      exists (min + Z.of_nat j). split_and!; [lia..|]. rewrite slice_from by lia. fold t.
      apply Hsplit; [lia|]. split; [done|]. by replace (Z.to_nat (min + Z.of_nat j) - Z.to_nat min)%nat with j by lia.
    + intros (n & -> & Hn & Hn2 & Hf). rewrite slice_from in Hf by lia. fold t in Hf.
      apply Hsplit in Hf as [_ Hf]; [|lia]. exists (Z.to_nat n - Z.to_nat min)%nat. split; [lia|].
      apply list_elem_of_In, in_rev. rewrite rev_involutive. apply in_seq.
      assert (Z.to_nat n - Z.to_nat min <= run_length (Z.to_nat opt) test (drop (Z.to_nat min) t))%nat; [|lia].
      apply run_length_spec. rewrite length_drop. split_and!; [lia|lia|done].
  - split; [done|]. intros (n & -> & Hn & Hn2 & Hf). rewrite slice_from in Hf by lia. fold t in Hf.
    apply Hsplit in Hf as [Hf _]; [|lia]. assert (Htrue : all_match (Z.to_nat min) test t = true); [|congruence].
    apply all_match_spec. split; [lia|done].
Qed.
(** *** Back references *)

Lemma ref_sem_forward i n x y : good x -> In y (ref_sem l i n x) -> forward x y.
Proof.
  intros [Hx Hg] Hy. unfold ref_sem in Hy. destruct (x.2 !! n) as [[b e]|] eqn:E; [|done].
  destruct (Hg n b e E) as [Hbe He]. destruct (Z.leb_spec (x.1 + (e - b)) len); [|done].
  destruct (same_text _ _ _); [|done]. destruct Hy as [<-|[]]. split; [|simpl; lia].
  apply good_move; [by split|lia].
Qed.

Lemma ref_sem_matches i n x y : In y (ref_sem l i n x) <-> matches l (RRef i n) x y.
Proof.
  destruct x as [p g]. unfold ref_sem. cbn [fst snd]. split.
  - destruct (g !! n) as [[b e]|] eqn:E; [|done]. destruct (Z.leb_spec (p + (e - b)) len); [|done].
    destruct (same_text i (slice l b e) (slice l p (p + (e - b)))) eqn:Et; [|done].
    intros [<-|[]]. by apply m_ref.
  - intros H. inversion H; subst.
    match goal with Hg : g !! n = Some (?b, ?e) |- _ => rewrite Hg; test (p + (e - b) <=? len) true end.
    match goal with Ht : same_text _ _ _ = true |- _ => rewrite Ht end. by left.
Qed.

(** *** Loops *)

Section loop.
Context (r : re) (minimize : bool) (n : Z) (body : pos_groups -> list pos_groups).
Hypothesis Hforward : forall x y, good x -> In y (body x) -> forward x y.

Lemma in_loop fuel x y :
  In y (loop_sem (S fuel) minimize n body x) <->
  y = x \/ exists z, In z (body x) /\
    (z.1 = x.1 /\ y = z \/ z.1 <> x.1 /\ In y (loop_sem fuel minimize n body (z.1, <[n := (x.1, z.1)]> z.2))).
Proof.
  cbn [loop_sem]. set (again := flat_map _ (body x)).
  assert (Hagain : In y again <-> exists z, In z (body x) /\
    (z.1 = x.1 /\ y = z \/ z.1 <> x.1 /\ In y (loop_sem fuel minimize n body (z.1, <[n := (x.1, z.1)]> z.2)))).
  { unfold again. rewrite in_flat_map. apply exist_proper. intros z. apply and_iff_compat_l.
    destruct (Z.eqb_spec z.1 x.1) as [He|Hne].
    - split; [intros [->|[]]; by left|]. intros [[_ ->]|[? _]]; [by left|done].
    - split; [intros H; by right|]. intros [[? _]|[_ H]]; done. }
  destruct minimize; [|rewrite in_app_iff]; simpl; rewrite Hagain; split; intros H; intuition (eauto; congruence).
Qed.

Lemma loop_forward fuel x y : good x -> In y (loop_sem fuel minimize n body x) -> forward x y.
Proof using Hforward.
  revert x. induction fuel as [|fuel IH]; intros x Hx Hy; [done|].
  apply in_loop in Hy as [->|(z & Hz & [[He ->]|[Hne Hy]])].
  - split; [done|lia].
  - by apply Hforward.
  - destruct (Hforward x z Hx Hz) as [Hgz Hle]. destruct (IH (z.1, <[n := (x.1, z.1)]> z.2)) as [Hgy Hle2]; [|done|].
    + by apply good_group.
    + simpl in Hle2. split; [done|lia].
Qed.

Hypothesis Hbody : forall x y, good x -> In y (body x) <-> matches l r x y.

Lemma loop_matches fuel x y :
  good x -> (Z.to_nat (len - x.1) < fuel)%nat ->
  In y (loop_sem fuel minimize n body x) <-> matches l (RLoop minimize n r) x y.
Proof using Hforward Hbody.
  revert x. induction fuel as [|fuel IH]; intros x Hx Hf; [lia|]. rewrite in_loop.
  assert (Hnext : forall z, In z (body x) -> z.1 <> x.1 ->
    In y (loop_sem fuel minimize n body (z.1, <[n := (x.1, z.1)]> z.2)) <->
    matches l (RLoop minimize n r) (z.1, <[n := (x.1, z.1)]> z.2) y).
  { intros z Hz Hne. destruct (Hforward x z Hx Hz) as [Hgz Hle]. destruct Hx as [Hx1 Hx2].
    apply IH; [by apply good_group|]. destruct Hgz as [Hz1 _]. simpl. lia. }
  split.
  - intros [->|(z & Hz & [[He ->]|[Hne Hy]])].
    + apply m_stop.
    + apply m_nothing; [by apply Hbody|done].
    + apply m_again with z; [by apply Hbody|done|]. by apply Hnext.
  - intros H. inversion H; subst.
    + by left.
    + right. exists y. split; [by apply Hbody|]. by left.
    + match goal with Hm : matches l r x ?z |- _ => rename Hm into Hz; apply Hbody in Hz; [|done]; right; exists z end.
      split; [done|]. right. split; [done|]. by apply Hnext.
Qed.
End loop.

Lemma ref_loop_matches minimize i n fuel x y :
  good x -> (Z.to_nat (len - x.1) < fuel)%nat ->
  In y (ref_loop l fuel minimize i n x) <-> matches l (RRefLoop minimize i n) x y.
Proof.
  revert x. induction fuel as [|fuel IH]; intros x Hx Hf; [lia|].
  assert (Hstep : In y (ref_loop l (S fuel) minimize i n x) <->
    y = x \/ exists z, In z (ref_sem l i n x) /\
      (z.1 = x.1 /\ y = z \/ z.1 <> x.1 /\ matches l (RRefLoop minimize i n) z y)).
  { cbn [ref_loop]. set (again := flat_map _ (ref_sem l i n x)).
    assert (Hagain : In y again <-> exists z, In z (ref_sem l i n x) /\
      (z.1 = x.1 /\ y = z \/ z.1 <> x.1 /\ matches l (RRefLoop minimize i n) z y)).
    { unfold again. rewrite in_flat_map. apply exist_proper. intros z. split; intros [Hz H]; (split; [done|]).
      all: destruct (ref_sem_forward i n x z Hx Hz) as [[Hz1 Hz2] Hle]; destruct (Z.eqb_spec z.1 x.1) as [He|Hne].
      - destruct H as [->|[]]. by left.
      - right. split; [done|]. apply IH; [by split|lia|done].
      - destruct H as [[_ ->]|[? _]]; [by left|done].
      - destruct H as [[? _]|[_ H]]; [done|]. apply IH; [by split|lia|done]. }
    destruct minimize; [|rewrite in_app_iff]; simpl; rewrite Hagain; split; intros H; intuition (eauto; congruence). }
  rewrite Hstep. split.
  - intros [->|(z & Hz & [[He ->]|[Hne Hy]])]; [apply m_ref_stop| |].
    + assert (z = x) as ->; [|apply m_ref_stop]. unfold ref_sem in Hz. destruct (x.2 !! n) as [[b e]|]; [|done].
      destruct (_ && _); [|done]. destruct Hz as [<-|[]]. simpl in He. destruct x as [p g]. simpl in *. f_equal. lia.
    + apply m_ref_again with z; [by apply ref_sem_matches|done..].
  - intros H. inversion H; subst; [by left|].
    match goal with Hm : matches l (RRef i n) x ?z |- _ => right; exists z end.
    split; [by apply ref_sem_matches|]. by right.
Qed.

Lemma ref_loop_forward minimize i n fuel x y : good x -> In y (ref_loop l fuel minimize i n x) -> forward x y.
Proof.
  revert x. induction fuel as [|fuel IH]; intros x Hx Hy; [done|]. cbn [ref_loop] in Hy.
  assert (Hc : y = x \/ exists z, In z (ref_sem l i n x) /\ (y = z \/ In y (ref_loop l fuel minimize i n z))).
  { set (again := flat_map _ (ref_sem l i n x)) in *. assert (Hagain : In y again -> exists z, In z (ref_sem l i n x) /\
      (y = z \/ In y (ref_loop l fuel minimize i n z))).
    { unfold again. rewrite in_flat_map. intros (z & Hz & Hyz). exists z. split; [done|].
      destruct (z.1 =? x.1); [destruct Hyz as [->|[]]; by left|by right]. }
    destruct minimize; [destruct Hy as [->|Hy]|apply in_app_iff in Hy as [Hy|[->|[]]]]; auto. }
  destruct Hc as [->|(z & Hz & Hyz)]; [split; [done|lia]|].
  destruct (ref_sem_forward i n x z Hx Hz) as [Hgz Hle]. destruct Hyz as [->|Hyz]; [by split|].
  destruct (IH z Hgz Hyz) as [Hgy Hle2]. split; [done|lia].
Qed.
(** *** Expressions *)

Lemma lit_length i s p : 0 <= p <= len -> lit_matches i s (slice l p (p + zlen s)) = true -> p + zlen s <= len.
Proof.
  intros Hp H. unfold lit_matches in H. apply bool_decide_eq_true, (f_equal length) in H.
  rewrite slice_from in H by lia. pose proof (from_zlen p Hp). 
  assert (length (take (Z.to_nat (zlen s)) (from l p)) = length s) by (destruct i; rewrite ?length_fmap in H; done).
  rewrite length_take in *. lia.
Qed.

Lemma in_chars k min opt minimize x y :
  In y (sem l (RChars k min opt minimize) x) <-> exists q, In q (chars_from l k min opt x.1) /\ y = (q, x.2).
Proof.
  cbn [sem]. rewrite <- list_elem_of_In, list_elem_of_fmap. destruct minimize.
  - split; intros (q & H1 & H2); exists q; [split; [|done]; by apply list_elem_of_In, in_rev in H2|].
    split; [done|]. apply list_elem_of_In, in_rev. by rewrite rev_involutive.
  - split; intros (q & H1 & H2); exists q; rewrite ?list_elem_of_In in *; done.
Qed.

Lemma in_opt minimize r x y : In y (sem l (ROpt minimize r) x) <-> y = x \/ In y (sem l r x).
Proof.
  cbn [sem]. destruct minimize; [|rewrite in_app_iff]; simpl; split; intros H; intuition congruence.
Qed.

Lemma in_group n r x y :
  In y (sem l (RGroup n r) x) <-> exists z, In z (sem l r x) /\ y = (z.1, <[n := (x.1, z.1)]> z.2).
Proof.
  cbn [sem]. rewrite <- list_elem_of_In, list_elem_of_fmap. split; intros (z & H1 & H2); exists z;
    rewrite ?list_elem_of_In in *; done.
Qed.

Theorem sem_forward r x y : counts_ok r -> good x -> In y (sem l r x) -> forward x y.
Proof.
  revert x y. induction r as [|a|k min opt minimize|i s|r1 IH1 r2 IH2|r1 IH1 r2 IH2|n r IH|i n|minimize r IH|minimize n r IH|minimize i n];
    intros x y Hc Hx Hy; cbn [counts_ok] in Hc.
  - destruct Hy as [<-|[]]. split; [done|lia].
  - cbn [sem] in Hy. destruct (holds l a x.1); [|done]. destruct Hy as [<-|[]]. split; [done|lia].
  - apply in_chars in Hy as (q & Hq & ->). pose proof Hx as [Hx1 _].
    apply chars_from_spec in Hq as (m & -> & Hm & Hl & _); [|lia..]. split; [|simpl; lia]. apply good_move; [done|lia].
  - cbn [sem] in Hy. destruct (lit_matches _ _ _) eqn:E; [|done]. destruct Hy as [<-|[]].
    pose proof Hx as [Hx1 _]. apply lit_length in E; [|done]. split; [|simpl; lia]. apply good_move; [done|lia].
  - destruct Hc as [Hc1 Hc2]. cbn [sem] in Hy. apply in_flat_map in Hy as (z & Hz & Hy).
    destruct (IH1 x z Hc1 Hx Hz) as [Hgz Hle]. destruct (IH2 z y Hc2 Hgz Hy) as [Hgy Hle2]. split; [done|lia].
  - destruct Hc as [Hc1 Hc2]. cbn [sem] in Hy. apply in_app_iff in Hy as [Hy|Hy]; [by apply IH1|by apply IH2].
  - apply in_group in Hy as (z & Hz & ->). destruct (IH x z Hc Hx Hz) as [Hgz Hle]. split; [|done]. by apply good_group.
  - by apply (ref_sem_forward i n).
  - apply in_opt in Hy as [->|Hy]; [split; [done|lia]|by apply IH].
  - cbn [sem] in Hy. revert Hy. apply loop_forward; [|done]. intros x' y' Hx' Hy'. by apply IH.
  - cbn [sem] in Hy. by eapply ref_loop_forward.
Qed.

Theorem sem_matches r x y : counts_ok r -> good x -> In y (sem l r x) <-> matches l r x y.
Proof.
  revert x y. induction r as [|a|k min opt minimize|i s|r1 IH1 r2 IH2|r1 IH1 r2 IH2|n r IH|i n|minimize r IH|minimize n r IH|minimize i n];
    intros x y Hc Hx; cbn [counts_ok] in Hc.
  - simpl. split; [intros [<-|[]]; constructor|]. intros H. inversion H; subst. by left.
  - cbn [sem]. destruct (holds l a x.1) eqn:E; split; intros H.
    + destruct H as [<-|[]]. by constructor.
    + inversion H; subst. by left.
    + done.
    + inversion H; subst. congruence.
  - rewrite in_chars. pose proof Hx as [Hx1 _]. split.
    + intros (q & Hq & ->). apply chars_from_spec in Hq as (m & -> & Hm & Hl & Hf); [|lia..].
      destruct x as [p g]. by constructor.
    + intros H. inversion H as [| |? ? ? ? p g m Hm Hl Hf| | | | | | | | | | | | |]; subst. exists (p + m).
      split; [|done]. apply chars_from_spec; [done|lia|lia|]. by exists m.
  - cbn [sem]. destruct x as [p g]. cbn [fst snd]. split.
    + destruct (lit_matches _ _ _) eqn:E; [|done]. intros [<-|[]]. by constructor.
    + intros H. inversion H; subst. match goal with Hl : lit_matches _ _ _ = true |- _ => rewrite Hl end. by left.
  - destruct Hc as [Hc1 Hc2]. cbn [sem]. rewrite in_flat_map. split.
    + intros (z & Hz & Hy). destruct (sem_forward r1 x z Hc1 Hx Hz) as [Hgz _].
      apply m_seq with z; [by apply IH1|by apply IH2].
    + intros H. inversion H; subst. match goal with Hm : matches l r1 x ?z |- _ => exists z; apply IH1 in Hm as Hz; [|done..] end.
      split; [done|]. apply IH2; [done| |done]. by apply (sem_forward r1 x).
  - destruct Hc as [Hc1 Hc2]. cbn [sem]. rewrite in_app_iff, IH1, IH2 by done. split.
    + intros [H|H]; [by apply m_left|by apply m_right].
    + intros H. inversion H; subst; auto.
  - rewrite in_group. split.
    + intros (z & Hz & ->). apply m_group. by apply IH.
    + intros H. inversion H; subst. eexists. split; [by apply IH|done].
  - apply ref_sem_matches.
  - rewrite in_opt. split.
    + intros [->|H]; [apply m_skip|apply m_once; by apply IH].
    + intros H. inversion H; subst; [by left|right; by apply IH].
  - cbn [sem]. apply loop_matches; [|intros; by apply IH|done|lia]. intros x' y' Hx' Hy'. by apply (sem_forward r).
  - cbn [sem]. apply ref_loop_matches; [done|lia].
Qed.

Lemma min_len_nonneg r : counts_ok r -> 0 <= min_len r.
Proof. induction r; simpl; try lia; intros; try (by auto); intuition lia. Qed.

(** No match is shorter than [min_len]. *)
Lemma sem_min_len r x y : counts_ok r -> good x -> In y (sem l r x) -> x.1 + min_len r <= y.1.
Proof.
  revert x y. induction r as [|a|k min opt minimize|i s|r1 IH1 r2 IH2|r1 IH1 r2 IH2|n r IH|i n|minimize r IH|minimize n r IH|minimize i n];
    intros x y Hc Hx Hy; pose proof (sem_forward _ _ _ Hc Hx Hy) as [_ Hle]; cbn [min_len counts_ok] in *; try lia.
  - apply in_chars in Hy as (q & Hq & ->). pose proof Hx as [Hx1 _].
    apply chars_from_spec in Hq as (m & -> & Hm & Hl & _); [|lia..]. simpl. lia.
  - cbn [sem] in Hy. destruct (lit_matches _ _ _); [|done]. destruct Hy as [<-|[]]. simpl. lia.
  - destruct Hc as [Hc1 Hc2]. cbn [sem] in Hy. apply in_flat_map in Hy as (z & Hz & Hy).
    destruct (sem_forward r1 x z Hc1 Hx Hz) as [Hgz _].
    specialize (IH1 x z Hc1 Hx Hz). specialize (IH2 z y Hc2 Hgz Hy). lia.
  - destruct Hc as [Hc1 Hc2]. cbn [sem] in Hy. apply in_app_iff in Hy as [Hy|Hy].
    + specialize (IH1 x y Hc1 Hx Hy). lia.
    + specialize (IH2 x y Hc2 Hx Hy). lia.
  - apply in_group in Hy as (z & Hz & ->). by apply (IH x z).
Qed.
End matches.
