(* ===== verification/ReProps.v ===== *)
(** * ReProps: finding the match of an expression in a string

    The reference definition of the leftmost match, and [AMatchRegExp] against
    it: the loop over the starting positions with its two shortcuts, the
    characters that may start a match and the least length of one. *)

From stdpp Require Import gmap.
From S2P Require Import Prelude Runtime Digits Value Encodings EncodingsSpec StrOps StrSpec.
From S2P Require Import StrTables ReDefs ReMatch ReSem ReRun ReStep ReSound ReMatches.


Open Scope Z_scope.

(** ** The reference *)

(** The first of [n] positions from [p] on where [r] matches, with the
    preferred match. *)
Fixpoint find_from (l : list Z) (r : re) (n : nat) (p : Z) : option (Z * pos_groups) :=
  match n with
  | O => None
  | S n => match sem l r (p, ∅) with y :: _ => Some (p, y) | [] => find_from l r n (p + 1) end
  end.

(** The match of [r] in [l] from [pos] on: at [pos], or anywhere. *)
Definition find_match (l : list Z) (r : re) (search : bool) (pos : Z) : option (Z * pos_groups) :=
  find_from l r (if pos <=? zlen l then if search then S (Z.to_nat (zlen l - pos)) else 1%nat else 0%nat) pos.

(** The spans of a match and of its groups. *)
Definition no_range : AReRange := MkRange (u32 (-1)) (u32 (-1)).

Definition span_of (g : groups) (n : Z) : AReRange :=
  match g !! n with Some (b, e) => MkRange (u32 b) (u32 e) | None => no_range end.

Definition spans (num : nat) (m : Z * pos_groups) : list AReRange :=
  MkRange (u32 m.1) (u32 m.2.1) :: ((fun i => span_of m.2.2 (Z.of_nat i)) <$> seq 1 num).

(** ** Compiled expressions *)

(** The compiled form of [r], with sound shortcuts. *)
Record compiled (c : ARegExp) (r : re) : Prop := {
  comp_code : re_code c = code_of r ++ [op_num A_MATCH];
  comp_size : zlen (re_code c) < 32768;
  comp_flags : has_flag (re_flags c) A_ALRE_ANCHORED = false;
  comp_groups : 0 <= re_numGroups c;
  comp_minLen : 0 <= re_minLen c /\
    forall l p y, 0 <= p <= zlen l -> In y (sem l r (p, ∅)) -> p + re_minLen c <= y.1 <= zlen l;
  comp_start : 0 < re_minLen c -> forall l p ch, 0 <= p -> chr l p = Some ch -> 0 <= ch < 256 ->
    sem l r (p, ∅) <> [] -> AReIsInSet (re_startChar c) ch = true;
  comp_start_all : re_minLen c = 0 -> forall ch, 0 <= ch < 256 -> AReIsInSet (re_startChar c) ch = true
}.

(** ** The groups *)

Lemma find_loop_groups_app st1 st2 num sub sub1 sub2 :
  evals (find_loop_groups st1 num sub) sub1 -> evals (find_loop_groups st2 num sub1) sub2 ->
  evals (find_loop_groups (st1 ++ st2) num sub) sub2.
Proof.
  revert sub. induction st1 as [|e st1 IH]; intros sub H1 H2.
  - intros t. specialize (H1 t). injection H1 as ->. apply H2.
  - cbn [app find_loop_groups] in *. destruct ((0 <? _) && (_ <=? num)); [|by apply IH].
    destruct (e_ip e); try (intros t; by specialize (H1 t)). destruct (_ <? zlen sub); [by apply IH|].
    intros t. by specialize (H1 t).
Qed.

(** The oldest entries first, so that the last match of a group stays. *)
Lemma find_loop_groups_spec st num sub :
  Forall entry_ok st -> 1 <= Z.of_nat num < 65536 -> length sub = S num ->
  exists sub', evals (find_loop_groups (rev st) (Z.of_nat num) sub) sub' /\ length sub' = S num /\
    sub' !! 0%nat = sub !! 0%nat /\
    forall i, (1 <= i <= num)%nat ->
      sub' !! i = match stack_groups st !! Z.of_nat i with
                  | Some (b, e) => Some (MkRange (u32 b) (u32 e))
                  | None => sub !! i
                  end.
Proof.
  intros Hst Hnum Hl. induction Hst as [|e st He Hst (sub1 & Hs1 & Hl1 & H01 & Hi1)].
  - exists sub. split; [apply evals_ret|]. split_and!; [done..|]. intros i Hi. simpl. by rewrite lookup_empty.
  - cbn [rev]. destruct He as [rep ip s Hr1 Hr2|n old Hn|n b e Hn].
    + exists sub1. split_and!; [|done..]. eapply find_loop_groups_app; [exact Hs1|].
      cbn [find_loop_groups e_repeat]. replace (rep - PAREN_MIN <=? Z.of_nat num) with false
        by (symmetry; apply Z.leb_gt; markers). rewrite andb_false_r. apply evals_ret.
    + exists sub1. split_and!; [|done..]. eapply find_loop_groups_app; [exact Hs1|].
      cbn [find_loop_groups e_repeat start_mark]. replace (0 <? n + PAREN_MIN2 - PAREN_MIN) with false
        by (symmetry; apply Z.ltb_ge; markers). apply evals_ret.
    + destruct (decide (1 <= n <= Z.of_nat num)) as [Hin|Hout].
      * exists (<[Z.to_nat n := MkRange (u32 b) (u32 e)]> sub1). rewrite length_insert. split_and!; [|done| |].
        -- eapply find_loop_groups_app; [exact Hs1|]. cbn [find_loop_groups e_repeat match_mark e_ip e_str].
           replace (n + PAREN_MIN - PAREN_MIN) with n by lia. test (0 <? n) true. test (n <=? Z.of_nat num) true.
           test (n <? zlen sub1) true. apply evals_ret.
        -- by rewrite list_lookup_insert_ne by lia.
        -- intros i Hi. cbn [stack_groups match_mark e_ip e_repeat e_str].
           replace (n + PAREN_MIN - PAREN_MIN) with n by lia. destruct (decide (Z.of_nat i = n)) as [<-|Hne].
           ++ rewrite lookup_insert_eq, Nat2Z.id. by rewrite list_lookup_insert_eq by lia.
           ++ rewrite lookup_insert_ne by done. rewrite list_lookup_insert_ne by lia. by apply Hi1.
      * exists sub1. split_and!; [|done..|].
        -- eapply find_loop_groups_app; [exact Hs1|]. cbn [find_loop_groups e_repeat match_mark].
           replace (n + PAREN_MIN - PAREN_MIN) with n by lia.
           destruct (Z.ltb_spec 0 n), (Z.leb_spec n (Z.of_nat num)); try lia; apply evals_ret.
        -- intros i Hi. cbn [stack_groups match_mark e_ip e_repeat e_str].
           replace (n + PAREN_MIN - PAREN_MIN) with n by lia. rewrite lookup_insert_ne by lia. by apply Hi1.
Qed.

Lemma clear_groups_spec n i sub :
  (i + n = length sub)%nat ->
  evals (clear_groups n (Z.of_nat i) sub) (take i sub ++ replicate n no_range).
Proof.
  revert i sub. induction n as [|n IH]; intros i sub Hl.
  - rewrite firstn_all2 by lia. simpl. rewrite app_nil_r. apply evals_ret.
  - cbn [clear_groups]. rewrite in_bounds by lia. rewrite Nat2Z.id.
    replace (Z.of_nat i + 1) with (Z.of_nat (S i)) by lia.
    replace (take i sub ++ replicate (S n) no_range) with (take (S i) (<[i := no_range]> sub) ++ replicate n no_range).
    + apply IH. rewrite length_insert. lia.
    + rewrite (take_S_r _ i no_range) by (apply list_lookup_insert_eq; lia).
      rewrite take_insert_ge by lia. by rewrite <- app_assoc.
Qed.

Lemma FindSubExpressions_spec st num sub g :
  stack_ok st -> stack_groups st = g -> 1 <= Z.of_nat num < 65536 -> length sub = S num ->
  evals (FindSubExpressions st sub (Z.of_nat num)) (take 1 sub ++ ((fun i => span_of g (Z.of_nat i)) <$> seq 1 num)).
Proof.
  intros (st' & junk & -> & Hst) Hg Hnum Hl. unfold FindSubExpressions. rewrite Nat2Z.id.
  eapply evals_bind; [by apply (clear_groups_spec num 1)|]. rewrite rev_app_distr. cbn [rev app tail].
  destruct (find_loop_groups_spec st' num (take 1 sub ++ replicate num no_range) Hst Hnum) as (sub' & He & Hl' & H0 & Hi).
  { rewrite length_app, length_take, length_replicate. lia. }
  replace (take 1 sub ++ ((fun i => span_of g (Z.of_nat i)) <$> seq 1 num)) with sub'; [exact He|].
  assert (Hg' : stack_groups st' = g).
  { rewrite <- Hg. clear. induction st' as [|e st' IH]; [done|]. cbn [stack_groups app]. by destruct (e_ip e); rewrite ?IH. }
  assert (Ht : length (take 1 sub) = 1%nat) by (rewrite length_take; lia).
  apply list_eq. intros i. destruct (decide (i = 0)%nat) as [->|].
  { rewrite H0, !lookup_app_l by lia. done. }
  destruct (decide (i <= num)%nat).
  - rewrite Hi by lia. rewrite Hg', !lookup_app_r, Ht by lia.
    rewrite list_lookup_fmap, lookup_seq_lt by lia. rewrite lookup_replicate_2 by lia. simpl.
    replace (Z.of_nat (S (i - 1))) with (Z.of_nat i) by lia. unfold span_of. by destruct (g !! Z.of_nat i) as [[b e]|].
  - rewrite lookup_ge_None_2 by lia. symmetry. apply lookup_ge_None. rewrite length_app, length_fmap, length_seq. lia.
Qed.

(** ** The search *)

Section fuel.
Context (r : re) (str : StrObj) (l : list Z) (flags : Z) (nb : Z) (junk : Z) (beg : list Z).
Hypothesis Hstr : represents str l.
Hypothesis Hok : re_ok (negb (AIsNarrow str)) nb r.
Hypothesis Hbol : has_flag flags A_RE_NOBOL = false.
Hypothesis Heol : has_flag flags A_RE_NOEOL = false.
Hypothesis Hbeg : zlen beg = nb.

Local Abbreviation base := (MkEntry 0 EmptyPtr junk).
Local Abbreviation code := (code_of r ++ [op_num A_MATCH]).

(** Fuel that is enough for the tries at all positions. *)
Definition enough (N : nat) : Prop := forall p fuel top, 0 <= p <= zlen l -> (N <= fuel)%nat -> 1 <= top ->
  returns (Try code (is_wide str) str (zlen l) flags fuel (MkInfo base top beg) p) (fun '(res, m) => try_result l r p beg res m).

Lemma enough_fuel : zlen code < 32768 -> exists N, enough N.
Proof using Hstr Hok Hbol Heol Hbeg.
  intros Hsize. assert (H : forall k : nat, Z.of_nat k <= zlen l + 1 -> exists N, forall p fuel top, 0 <= p < Z.of_nat k -> (N <= fuel)%nat -> 1 <= top ->
    returns (Try code (is_wide str) str (zlen l) flags fuel (MkInfo base top beg) p) (fun '(res, m) => try_result l r p beg res m)).
  { induction k as [|k IH]; intros Hk; [by exists 0%nat; lia|]. destruct (IH ltac:(lia)) as [N1 H1].
    destruct (Try_spec code (is_wide str) str flags l nb Hstr eq_refl Hbol Heol Hsize r junk beg (Z.of_nat k) Hok eq_refl ltac:(lia) Hbeg) as [N2 H2].
    exists (N1 `max` N2)%nat. intros p fuel top Hp Hf Ht. destruct (decide (p = Z.of_nat k)) as [->|]; [apply H2; (done || lia)|apply H1; (done || lia)]. }
  destruct (H (Z.to_nat (zlen l + 1)) ltac:(lia)) as [N HN]. exists N. intros p fuel top Hp. apply HN. lia.
Qed.

End fuel.

Section search.
Context (r : re) (str : StrObj) (l : list Z) (flags : Z) (junk : Z) (beg : list Z) (c : ARegExp) (N : nat).
Hypothesis Hstr : represents str l.
Hypothesis Hcomp : compiled c r.
Hypothesis HN : enough r str l flags junk beg N.
#[local] Set Default Proof Using "Type Hcomp Hstr HN".

Local Abbreviation base := (MkEntry 0 EmptyPtr junk).

(** What a successful try has found. *)
Definition found (y : pos_groups) (m : Machine) : Prop := stack_groups (m_st m) = y.2 /\ stack_ok (m_st m).

Lemma try_at_spec p fuel top : 0 <= p <= zlen l -> (N <= fuel)%nat -> 1 <= top ->
  returns (try_at fuel c str (zlen l) flags (MkInfo base top beg) p) (fun '(res, m) => try_result l r p beg res m).
Proof. intros Hp Hf Ht. unfold try_at. rewrite (comp_code _ _ Hcomp). by apply HN. Qed.

Lemma results_in_string p y ys : 0 <= p <= zlen l -> sem l r (p, ∅) = y :: ys -> p + re_minLen c <= y.1 <= zlen l /\ y.1 <> -1.
Proof.
  intros Hp Hy. destruct (comp_minLen _ _ Hcomp) as [Hm0 Hm]. specialize (Hm l p y Hp).
  rewrite Hy in Hm. specialize (Hm (or_introl eq_refl)). simpl in Hm. lia.
Qed.

(** A character that may not start a match does not. *)
Lemma may_start_sound p ch :
  0 <= p -> chr l p = Some ch -> fits (negb (AIsNarrow str)) ch ->
  may_start (is_wide str) (re_startChar c) ch = false -> sem l r (p, ∅) = [].
Proof.
  intros Hp Hch Hf Hs. unfold may_start, is_wide in Hs. apply orb_false_iff in Hs as [Hw Hs].
  assert (Hb : 0 <= ch < 256).
  { destruct (negb (AIsNarrow str)); unfold fits, wide_char, byte in Hf; simpl in Hw; lia. }
  destruct (comp_minLen _ _ Hcomp) as [Hm0 _]. destruct (decide (re_minLen c = 0)) as [Hz|Hnz].
  - by rewrite (comp_start_all _ _ Hcomp Hz ch Hb) in Hs.
  - destruct (sem l r (p, ∅)) as [|y ys] eqn:E; [done|].
    rewrite (comp_start _ _ Hcomp ltac:(lia) l p ch Hp Hch Hb) in Hs; [done|]. by rewrite E.
Qed.

Lemma search_spec n p fuel top : 0 <= p -> p + Z.of_nat n = zlen l -> (N <= fuel)%nat -> 1 <= top ->
  returns (search fuel c str (zlen l) flags n (MkInfo base top beg) p) (fun '(res, info) =>
    match find_from l r n p with
    | Some (q, y) => exists m, res = Some (q, y.1, m) /\ found y m /\ p <= q <= zlen l
    | None => res = None /\ exists top', 1 <= top' /\ info = MkInfo base top' beg
    end).
Proof.
  revert p top. induction n as [|n IH]; intros p top Hp Hn Hfuel Ht.
  { apply returns_ret. split; [done|]. by exists top. }
  destruct (chr_at (negb (AIsNarrow str)) str l Hstr eq_refl p ltac:(lia)) as (ch & Hch & He & Hf).
  assert (Hmono : forall top, 1 <= top ->
    returns (search fuel c str (zlen l) flags n (MkInfo base top beg) (p + 1)) (fun '(res, info) =>
      match find_from l r n (p + 1) with
      | Some (q, y) => exists m, res = Some (q, y.1, m) /\ found y m /\ p <= q <= zlen l
      | None => res = None /\ exists top', 1 <= top' /\ info = MkInfo base top' beg
      end)).
  { intros top' Ht'. eapply returns_mono; [apply IH; (done || lia)|]. intros [res info].
    destruct (find_from l r n (p + 1)) as [[q y]|]; [|done]. intros (m & Hr & Hfd & Hq). exists m. split_and!; (done || lia). }
  cbn [search find_from]. eapply returns_bind_evals; [exact He|]. destruct (may_start _ _ ch) eqn:Hs.
  - eapply returns_bind; [apply try_at_spec; (done || lia)|]. intros [res m] Hres. unfold try_result in Hres.
    destruct (sem l r (p, ∅)) as [|y ys] eqn:Hy.
    + destruct Hres as (-> & Hmb & Htop). simpl. unfold after_try. cbn [info_base]. rewrite Hmb. by apply Hmono.
    + destruct Hres as (-> & Hg & Hst). destruct (results_in_string p y ys ltac:(lia) Hy) as [_ Hne].
      destruct (Z.eqb_spec y.1 (-1)); [done|]. apply returns_ret. exists m. split_and!; (done || lia).
  - rewrite (may_start_sound p ch) by done. by apply Hmono.
Qed.

Lemma try_once_spec cond p fuel top : (cond = true -> 0 <= p <= zlen l) -> (N <= fuel)%nat -> 1 <= top ->
  returns (try_once fuel c str (zlen l) flags cond (MkInfo base top beg) p) (fun res =>
    match (if cond then find_from l r 1 p else None) with
    | Some (q, y) => exists m, res = Some (q, y.1, m) /\ found y m
    | None => res = None
    end).
Proof.
  intros Hp Hfuel Ht. destruct cond; [|by apply returns_ret]. cbn [try_once find_from].
  eapply returns_bind; [apply try_at_spec; by auto|]. intros [res m] Hres. apply returns_ret. unfold try_result in Hres.
  destruct (sem l r (p, ∅)) as [|y ys] eqn:Hy; [by destruct Hres as (-> & _)|].
  destruct Hres as (-> & Hg & Hst). destruct (results_in_string p y ys (Hp eq_refl) Hy) as [_ Hne].
  destruct (Z.eqb_spec y.1 (-1)); [done|]. by exists m.
Qed.

(** Beyond the least length nothing matches. *)
Lemma no_match_short p : 0 <= p <= zlen l -> zlen l < p + re_minLen c -> sem l r (p, ∅) = [].
Proof.
  intros Hp Hl. destruct (sem l r (p, ∅)) as [|y ys] eqn:Hy; [done|].
  destruct (results_in_string p y ys Hp Hy). lia.
Qed.

Lemma find_from_last n p :
  find_from l r (S n) p =
    match find_from l r n p with Some m => Some m | None => find_from l r 1 (p + Z.of_nat n) end.
Proof.
  revert p. induction n as [|n IH]; intros p; [by rewrite Z.add_0_r|].
  change (find_from l r (S (S n)) p) with
    (match sem l r (p, ∅) with y :: _ => Some (p, y) | [] => find_from l r (S n) (p + 1) end).
  rewrite IH. cbn [find_from]. destruct (sem l r (p, ∅)); [|done]. by replace (p + Z.of_nat (S n)) with (p + 1 + Z.of_nat n) by lia.
Qed.

Lemma find_from_short n p : 0 <= p -> n = O \/ p + Z.of_nat n <= zlen l + 1 -> zlen l < re_minLen c -> find_from l r n p = None.
Proof.
  revert p. induction n as [|n IH]; intros p Hp Hn Hl; [done|]. cbn [find_from].
  rewrite no_match_short by lia. apply IH; [lia| |done]. destruct n; [by left|right; lia].
Qed.

(** All positions, one after another, and the end of the string. *)
Lemma search_all pos fuel top : 0 <= pos <= zlen l -> (N <= fuel)%nat -> 1 <= top ->
    returns ('(res, info) ← search fuel c str (zlen l) flags (Z.to_nat (zlen l - pos)) (MkInfo base top beg) pos;
             match res with
             | Some _ => mret res
             | None => let s := Z.max pos (zlen l) in
                 try_once fuel c str (zlen l) flags ((re_minLen c =? 0) && (s =? zlen l)) info s
             end) (fun res =>
      match find_match l r true pos with
      | Some (q, y) => exists m, res = Some (q, y.1, m) /\ found y m
      | None => res = None
      end).
Proof.
  intros Hp Hf Ht. unfold find_match. test (pos <=? zlen l) true.
  rewrite find_from_last. eapply returns_bind; [apply (search_spec (Z.to_nat (zlen l - pos)) pos); (done || lia)|]. intros [res info].
  destruct (find_from l r (Z.to_nat (zlen l - pos)) pos) as [[q y]|].
  - intros (m & -> & Hm & _). apply returns_ret. by exists m.
  - intros (-> & top' & Ht' & ->). cbv zeta. replace (Z.max pos (zlen l)) with (zlen l) by lia.
    rewrite Z.eqb_refl, andb_true_r. replace (pos + Z.of_nat (Z.to_nat (zlen l - pos))) with (zlen l) by lia.
    eapply returns_mono; [apply (try_once_spec (re_minLen c =? 0) (zlen l)); (done || lia)|]. intros res. destruct (Z.eqb_spec (re_minLen c) 0); [done|].
    cbn [find_from]. destruct (comp_minLen _ _ Hcomp) as [Hm0 _]. by rewrite no_match_short by lia.
Qed.

(** One position. *)
Lemma match_once pos fuel top : 0 <= pos -> (N <= fuel)%nat -> 1 <= top ->
    returns (try_once fuel c str (zlen l) flags (pos <=? zlen l) (MkInfo base top beg) pos) (fun res =>
      match find_match l r false pos with
      | Some (q, y) => exists m, res = Some (q, y.1, m) /\ found y m
      | None => res = None
      end).
Proof.
  intros Hp Hf Ht. eapply returns_mono; [apply (try_once_spec (pos <=? zlen l) pos); (done || lia)|]. intros res. unfold find_match. by destruct (pos <=? zlen l).
Qed.

(** The part of [AMatchRegExp] that tries the positions. *)
Lemma find_run pos fuel : 0 <= pos -> (N <= fuel)%nat ->
    returns (let info := MkInfo base (STACK_INITIAL_SIZE - 1) beg in
      if negb (has_flag (re_flags c) A_ALRE_ANCHORED) && negb (has_flag flags A_RE_NOSEARCH) then
           '(res, info) ← search fuel c str (zlen l) flags (Z.to_nat (zlen l - pos)) info pos;
           match res with
           | Some _ => mret res
           | None => let s := Z.max pos (zlen l) in
               try_once fuel c str (zlen l) flags ((re_minLen c =? 0) && (s =? zlen l)) info s
           end
         else try_once fuel c str (zlen l) flags (pos <=? zlen l) info pos) (fun res =>
      match find_match l r (negb (has_flag flags A_RE_NOSEARCH)) pos with
      | Some (q, y) => exists m, res = Some (q, y.1, m) /\ found y m
      | None => res = None
      end).
Proof.
  intros Hpos Hf. rewrite (comp_flags _ _ Hcomp). cbn [negb andb].
  destruct (has_flag flags A_RE_NOSEARCH); cbn [negb].
  - by apply match_once.
  - destruct (Z.leb_spec pos (zlen l)).
    + by apply search_all.
    + unfold find_match. test (pos <=? zlen l) false.
      replace (Z.to_nat (zlen l - pos)) with O by lia. cbn [search]. eapply returns_bind_evals; [apply evals_ret|].
      cbv zeta. destruct (Z.eqb_spec (Z.max pos (zlen l)) (zlen l)); [lia|]. rewrite andb_false_r. by apply returns_ret.
Qed.
End search.

(** ** The theorem *)

Lemma re_ok_mono wide nb nb' r : nb <= nb' -> re_ok wide nb r -> re_ok wide nb' r.
Proof.
  intros Hn. induction r; cbn [re_ok]; try tauto; [..|intros (? & ? & ? & ?)|intros (? & ? & ? & ?)];
    split_and!; try done; try lia; tauto.
Qed.

(** The fuel does not depend on the object that the expression is compiled to. *)
Lemma AMatchRegExp_spec r n str l flags pos subExp num junk junkStr :
  represents str l -> re_ok (negb (AIsNarrow str)) n r ->
  has_flag flags A_RE_NOBOL = false -> has_flag flags A_RE_NOEOL = false ->
  0 <= pos -> 1 <= Z.of_nat num < 65536 -> length subExp = S num ->
  exists N, forall c fuel, compiled c r -> re_numGroups c = n -> (N <= fuel)%nat ->
    returns (AMatchRegExp fuel c str (zlen l) flags pos subExp (Z.of_nat num) junk junkStr) (fun '(ok, sub) =>
      match find_match l r (negb (has_flag flags A_RE_NOSEARCH)) pos with
      | Some m => ok = true /\ sub = spans num m
      | None => ok = false /\ sub = subExp
      end).
Proof.
  intros Hstr Hok Hbol Heol Hpos Hnum Hsub.
  set (nb := if n <? DEFAULT_NUM_SUBEXPS then DEFAULT_NUM_SUBEXPS else n).
  set (beg := (fun i => s32 (junk (Z.of_nat i))) <$> seq 0 (Z.to_nat nb)).
  destruct (decide (zlen (code_of r ++ [op_num A_MATCH]) < 32768)) as [Hsize|Hsize].
  2:{ exists 0%nat. intros c fuel Hcomp. by rewrite <- (comp_code _ _ Hcomp) in Hsize; destruct (Hsize (comp_size _ _ Hcomp)). }
  assert (Hnb : n <= nb /\ 0 <= nb) by (unfold nb, DEFAULT_NUM_SUBEXPS; destruct (Z.ltb_spec n 16); lia).
  assert (Hbeg : zlen beg = nb) by (unfold beg; rewrite length_fmap, length_seq; lia).
  apply (re_ok_mono _ _ nb) in Hok; [|lia].
  destruct (enough_fuel r str l flags nb junkStr beg Hstr Hok Hbol Heol Hbeg Hsize) as [N HN].
  exists N. intros c fuel Hcomp Hng Hf. unfold AMatchRegExp.
  destruct (Z.ltb_spec (zlen l) (re_minLen c)) as [Hlen|Hlen].
  { apply returns_ret. unfold find_match. replace (find_from l r _ pos) with (@None (Z * pos_groups)); [done|].
    symmetry. eapply find_from_short; [exact Hstr|exact Hcomp|exact HN|..]; [done| |done].
    destruct (Z.leb_spec pos (zlen l)), (negb (has_flag flags A_RE_NOSEARCH)); lia. }
  eapply (returns_bind _ _ (fun b => b = beg)).
  { unfold beg, nb. rewrite Hng. destruct (n <? DEFAULT_NUM_SUBEXPS); [by apply returns_ret|].
    eapply returns_bind; [apply AAlloc_spec|]. intros _ _. by apply returns_ret. }
  intros b ->. eapply returns_bind; [apply (find_run r str l flags junkStr beg c N Hstr Hcomp HN pos fuel Hpos Hf)|]. intros res Hres. cbv beta.
  destruct (find_match _ _ _ pos) as [[q y]|]; [|subst res; by apply returns_ret].
  destruct Hres as (m & -> & Hg & Hst). test (0 <=? Z.of_nat num) true. test (0 <? zlen subExp) true. test (0 <? Z.of_nat num) true.
  cbv zeta. eapply returns_bind_evals.
  - apply (FindSubExpressions_spec _ num _ y.2); [done|done|done|by rewrite length_insert].
  - apply returns_ret. split; [done|]. unfold spans. cbn [fst snd]. by destruct subExp.
Qed.

(** * What is proved of regular expressions

    The matcher as a whole: the backtracking machine computes the preferred
    match of an expression at a position, and [AMatchRegExp] finds the leftmost
    match in a string with the spans of its groups. *)


(** ** The leftmost match *)

(** [r] matches somewhere from position [p] on. *)
Definition matches_at (l : list Z) (r : re) (p : Z) : Prop := exists y, matches l r (p, ∅) y.

Lemma sem_nil_no_match l r p :
  counts_ok r -> 0 <= p <= zlen l -> sem l r (p, ∅) = [] <-> ~ matches_at l r p.
Proof.
  intros Hc Hp. split.
  - intros Hn [y Hy]. apply sem_matches in Hy; [|done|by apply good_start]. by rewrite Hn in Hy.
  - intros Hn. destruct (sem l r (p, ∅)) as [|y ys] eqn:E; [done|]. exfalso. apply Hn. exists y.
    apply sem_matches; [done|by apply good_start|]. rewrite E. by left.
Qed.

Lemma find_from_sound l r n p :
  counts_ok r -> 0 <= p -> p + Z.of_nat n <= zlen l + 1 ->
  match find_from l r n p with
  | Some (q, y) => p <= q < p + Z.of_nat n /\ matches l r (q, ∅) y /\ forall i, p <= i < q -> ~ matches_at l r i
  | None => forall i, p <= i < p + Z.of_nat n -> ~ matches_at l r i
  end.
Proof.
  intros Hc. revert p. induction n as [|n IH]; intros p Hp Hn; cbn [find_from]; [lia|].
  destruct (sem l r (p, ∅)) as [|y ys] eqn:E.
  - apply sem_nil_no_match in E; [|done|lia]. specialize (IH (p + 1) ltac:(lia) ltac:(lia)).
    destruct (find_from l r n (p + 1)) as [[q y]|].
    + destruct IH as (Hq & Hm & Hb). split_and!; [lia|lia|done|]. intros i Hi.
      destruct (decide (i = p)) as [->|]; [done|]. apply Hb. lia.
    + intros i Hi. destruct (decide (i = p)) as [->|]; [done|]. apply IH. lia.
  - split_and!; [lia|lia| |lia]. apply sem_matches; [done|apply good_start; lia|]. rewrite E. by left.
Qed.

(** The positions that are tried. *)
Definition tried (l : list Z) (search : bool) (pos i : Z) : Prop :=
  pos <= i <= zlen l /\ (search = false -> i = pos).

Lemma find_match_sound l r search pos :
  counts_ok r -> 0 <= pos ->
  match find_match l r search pos with
  | Some (q, y) => tried l search pos q /\ matches l r (q, ∅) y /\ forall i, pos <= i < q -> ~ matches_at l r i
  | None => forall i, tried l search pos i -> ~ matches_at l r i
  end.
Proof.
  intros Hc Hpos. unfold find_match, tried. destruct (Z.leb_spec pos (zlen l)); [|intros i; lia].
  pose proof (find_from_sound l r (if search then S (Z.to_nat (zlen l - pos)) else 1%nat) pos Hc Hpos) as Hf.
  destruct (find_from _ _ _ _) as [[q y]|]; destruct search.
  - destruct Hf as (? & ? & ?); [lia|]. split_and!; try done; lia.
  - destruct Hf as (? & ? & ?); [lia|]. split_and!; try done; lia.
  - intros i Hi. apply Hf; lia.
  - intros i [Hi He]. rewrite (He eq_refl). apply Hf; lia.
Qed.

Lemma find_from_head l r n p q y : find_from l r n p = Some (q, y) -> head (sem l r (q, ∅)) = Some y.
Proof.
  revert p. induction n as [|n IH]; intros p H; [done|]. cbn [find_from] in H.
  destruct (sem l r (p, ∅)) as [|y' ys] eqn:E; [by eapply IH|]. injection H as <- <-. by rewrite E.
Qed.

Lemma find_match_head l r search pos q y : find_match l r search pos = Some (q, y) -> head (sem l r (q, ∅)) = Some y.
Proof. apply find_from_head. Qed.

(** ** An expression for the witnesses

    [a(b|c)*d], as compiled. *)

Definition demo_re : re :=
  RSeq (RChars (CLit false 97) 1 0 false)
    (RSeq (RLoop false 1 (RAlt (RChars (CLit false 98) 1 0 false) (RChars (CLit false 99) 1 0 false)))
       (RChars (CLit false 100) 1 0 false)).

Definition all_chars_set : list Z := replicate 16 65535.

Definition demo : ARegExp := MkRegExp (code_of demo_re ++ [op_num A_MATCH]) 0 2 2 0 0 0 all_chars_set.

(** The text [xabcbd]. *)
Definition demo_str : StrObj := NarrowStr [120; 97; 98; 99; 98; 100].

Lemma in_all_chars_set ch : 0 <= ch < 256 -> AReIsInSet all_chars_set ch = true.
Proof.
  intros Hch. assert (forallb (fun c => AReIsInSet all_chars_set (Z.of_nat c)) (seq 0 256) = true) as H by by vm_compute.
  rewrite forallb_forall in H. specialize (H (Z.to_nat ch)). rewrite Z2Nat.id in H by lia. apply H, in_seq. lia.
Qed.

Lemma demo_compiled : compiled demo demo_re.
Proof.
  assert (Hc : counts_ok demo_re) by by vm_compute; intuition.
  split.
  - done.
  - by vm_compute.
  - done.
  - done.
  - split; [done|]. intros l p y Hp Hy. split.
    + by apply (sem_min_len l demo_re (p, ∅)); [..|apply good_start|].
    + apply (sem_forward l demo_re (p, ∅)) in Hy as [[Hy _] _]; [lia|done|by apply good_start].
  - intros _ l p ch _ _ Hch _. by apply in_all_chars_set.
  - intros _ ch Hch. by apply in_all_chars_set.
Qed.

Definition demo_text : list Z := [120; 97; 98; 99; 98; 100].

Lemma demo_ok : re_ok false 2 demo_re.
Proof. cbn. intuition (try lia). Qed.

Lemma demo_represents : represents demo_str demo_text.
Proof. split; [|done]. repeat constructor; unfold fits, byte; lia. Qed.

(** ** The claims *)

(** On the compiled form of an expression the matcher terminates and finds
    the leftmost match: if it reports a match, its position is the first one
    tried where the expression matches, the end and the groups are those of a
    match there, and the spans of all the groups are stored; if not, the
    expression matches at no position that is to be tried, and the spans are
    left alone.  The match flags suppress only the search; the stack and the
    table of the groups may hold anything at the beginning. *)
Theorem match_regexp_correct c r str l flags pos subExp num junk junkStr :
  compiled c r -> counts_ok r -> represents str l -> re_ok (negb (AIsNarrow str)) (re_numGroups c) r ->
  has_flag flags A_RE_NOBOL = false -> has_flag flags A_RE_NOEOL = false ->
  0 <= pos -> 1 <= Z.of_nat num < 65536 -> length subExp = S num ->
  exists N, forall fuel, (N <= fuel)%nat ->
    returns (AMatchRegExp fuel c str (zlen l) flags pos subExp (Z.of_nat num) junk junkStr) (fun '(ok, sub) =>
      let search := negb (has_flag flags A_RE_NOSEARCH) in
      if ok : bool then
        exists q y, sub = spans num (q, y) /\ head (sem l r (q, ∅)) = Some y /\ matches l r (q, ∅) y /\
          tried l search pos q /\ forall i, pos <= i < q -> ~ matches_at l r i
      else sub = subExp /\ forall i, tried l search pos i -> ~ matches_at l r i).
Proof.
  intros Hcomp Hc Hstr Hok Hbol Heol Hpos Hnum Hsub.
  destruct (AMatchRegExp_spec r (re_numGroups c) str l flags pos subExp num junk junkStr) as [N H]; try done.
  exists N. intros fuel Hf. eapply returns_mono; [by apply H|]. intros [ok sub]. cbv zeta.
  pose proof (find_match_sound l r (negb (has_flag flags A_RE_NOSEARCH)) pos Hc Hpos) as Hs.
  destruct (find_match _ _ _ _) as [[q y]|] eqn:E; intros [-> ->]; [|by split].
  destruct Hs as (Ht & Hm & Hb). exists q, y. split_and!; try done. by eapply find_match_head.
Qed.

Lemma match_regexp_correct_witness :
  exists N, forall fuel, (N <= fuel)%nat ->
    returns (AMatchRegExp fuel demo demo_str 6 0 0 [no_range; no_range] 1 (fun _ => 0) 0) (fun '(ok, sub) =>
      if ok : bool then
        exists q y, sub = spans 1 (q, y) /\ head (sem demo_text demo_re (q, ∅)) = Some y /\
          matches demo_text demo_re (q, ∅) y /\
          tried demo_text true 0 q /\ forall i, 0 <= i < q -> ~ matches_at demo_text demo_re i
      else sub = [no_range; no_range] /\ forall i, tried demo_text true 0 i -> ~ matches_at demo_text demo_re i).
Proof.
  apply (match_regexp_correct demo demo_re demo_str demo_text 0 0 [no_range; no_range] 1 (fun _ => 0) 0
    demo_compiled ltac:(cbn; intuition lia) demo_represents demo_ok eq_refl eq_refl ltac:(lia) ltac:(lia) eq_refl).
Defined.

(** The match of the witness: [abcbd] at 1, the group last matched at 4. *)
Example demo_match :
  run (AMatchRegExp 100 demo demo_str 6 0 0 [no_range; no_range] 1 (fun _ => 0) 0)
  = Ok (true, [MkRange 1 6; MkRange 4 5]).
Proof. by vm_compute. Qed.

(** C35: the backtracking machine refines the ordered meaning of expressions:
    started at a position with any capacity of the stack and any contents of
    the table of the group starts, it terminates, never leaves the code, the
    string or its stack, and returns the end of the preferred match with its
    groups on the stack; the ways to match that it tries in order are exactly
    the derivations of [matches]; if there is none it returns -1 with the table
    as it was.  Provided that the expression is one that the machine handles
    ([re_ok]: no back reference that is repeated, on which it may not terminate,
    none to a group above 7, no repetition that ignores case on a wide string,
    no group within itself, at most 32768 optional repetitions), its counts are
    not negative, its code has less than 32768 words, and neither of the flags
    that switch off the anchors is set. *)
Theorem Try_refines_sem code wide str flags l nb r junk beg p :
  represents str l -> wide = negb (AIsNarrow str) -> zlen code < 32768 ->
  has_flag flags A_RE_NOBOL = false -> has_flag flags A_RE_NOEOL = false ->
  re_ok wide nb r -> counts_ok r -> code = code_of r ++ [op_num A_MATCH] -> 0 <= p <= zlen l -> zlen beg = nb ->
  (forall y, In y (sem l r (p, ∅)) <-> matches l r (p, ∅) y) /\
  exists n, forall fuel top, (n <= fuel)%nat -> 1 <= top ->
    returns (Try code wide str (zlen l) flags fuel (MkInfo (MkEntry 0 EmptyPtr junk) top beg) p) (fun '(res, m) =>
      match sem l r (p, ∅) with
      | [] => res = -1 /\ m_beg m = beg
      | y :: _ => res = y.1 /\ stack_groups (m_st m) = y.2
      end).
Proof.
  intros Hstr Hw Hsize Hbol Heol Hok Hc Hcode Hp Hbeg. split.
  { intros y. apply sem_matches; [done|by apply good_start]. }
  destruct (Try_spec code wide str flags l nb) with (r := r) (junk := junk) (beg := beg) (p := p) as [n H]; try done.
  exists n. intros fuel top Hf Ht. eapply returns_mono; [by apply H|]. intros [res m]. unfold try_result.
  destruct (sem l r (p, ∅)); tauto.
Qed.

Lemma Try_refines_sem_witness :
  (forall y, In y (sem demo_text demo_re (1, ∅)) <-> matches demo_text demo_re (1, ∅) y) /\
  exists n, forall fuel top, (n <= fuel)%nat -> 1 <= top ->
    returns (Try (re_code demo) false demo_str 6 0 fuel (MkInfo (MkEntry 0 EmptyPtr 0) top [0; 0]) 1) (fun '(res, m) =>
      match sem demo_text demo_re (1, ∅) with
      | [] => res = -1 /\ m_beg m = [0; 0]
      | y :: _ => res = y.1 /\ stack_groups (m_st m) = y.2
      end).
Proof.
  apply (Try_refines_sem (re_code demo) false demo_str 0 demo_text 2 demo_re 0 [0; 0] 1 demo_represents eq_refl eq_refl
    eq_refl eq_refl demo_ok ltac:(cbn; intuition lia) eq_refl ltac:(cbn; lia) eq_refl).
Defined.
