(* ===== verification/ReComp.v ===== *)
(** * ReComp: the compiler of regular expressions

    [re_comp.c]: one pass over the pattern that emits the code of the matcher
    into a buffer that grows, moving code that is already there to make room
    for branches and copying it for repetitions.  The state of the pass is
    [ParseInfo]; a pointer into the pattern is an index.  A fault is an access
    behind the pattern or outside the buffer.

    An error does not stop the pass: it is recorded, the pass goes on, and
    [ACompileRegExp] raises it at the end. *)

From S2P Require Import Prelude Runtime Digits Value IntConv StrOps StrTables ReDefs.

Open Scope Z_scope.

(** ** State *)

(** The output: [bufLen] is the length of [buf], [bufInd] the words emitted. *)
Record OutBuf := MkOut { buf : list Z; bufInd : Z }.

Record ParseInfo := MkParse {
  isError : bool;
  strPos : Z;
  mustStr : Z;
  mustStrBack : Z;
  out : OutBuf;
  numParen : Z;
  parenFlags : Z;
  minLen : Z;
  maxLen : Z;
  depth : Z;
  startChar : list Z
}.

(** Assignments to the members. *)
Definition up_error (s : ParseInfo) : ParseInfo :=
  MkParse true (strPos s) (mustStr s) (mustStrBack s) (out s) (numParen s) (parenFlags s) (minLen s) (maxLen s) (depth s) (startChar s).
Definition up_str (i : Z) (s : ParseInfo) : ParseInfo :=
  MkParse (isError s) i (mustStr s) (mustStrBack s) (out s) (numParen s) (parenFlags s) (minLen s) (maxLen s) (depth s) (startChar s).
Definition up_must (m b : Z) (s : ParseInfo) : ParseInfo :=
  MkParse (isError s) (strPos s) m b (out s) (numParen s) (parenFlags s) (minLen s) (maxLen s) (depth s) (startChar s).
Definition up_out (o : OutBuf) (s : ParseInfo) : ParseInfo :=
  MkParse (isError s) (strPos s) (mustStr s) (mustStrBack s) o (numParen s) (parenFlags s) (minLen s) (maxLen s) (depth s) (startChar s).
Definition up_paren (n f : Z) (s : ParseInfo) : ParseInfo :=
  MkParse (isError s) (strPos s) (mustStr s) (mustStrBack s) (out s) n f (minLen s) (maxLen s) (depth s) (startChar s).
Definition up_len (mn mx : Z) (s : ParseInfo) : ParseInfo :=
  MkParse (isError s) (strPos s) (mustStr s) (mustStrBack s) (out s) (numParen s) (parenFlags s) mn mx (depth s) (startChar s).
Definition up_depth (d : Z) (s : ParseInfo) : ParseInfo :=
  MkParse (isError s) (strPos s) (mustStr s) (mustStrBack s) (out s) (numParen s) (parenFlags s) (minLen s) (maxLen s) d (startChar s).
Definition up_start (c : list Z) (s : ParseInfo) : ParseInfo :=
  MkParse (isError s) (strPos s) (mustStr s) (mustStrBack s) (out s) (numParen s) (parenFlags s) (minLen s) (maxLen s) (depth s) c.

(** Ranges of characters, and how many there is room for. *)
Record WideCharSet := MkWide { ws_data : list (Z * Z); ws_maxLength : Z }.

(** ** Character classes and escapes *)

Definition CC : Z := 35.
Definition CC_D : Z := 35.
Definition CC_S : Z := 36.
Definition CC_W : Z := 37.
Definition CC_COMP : Z := 128.

(** The meaning of an escaped small letter. *)
Definition CharConv : list Z :=
  [ 7; 8; 0; CC_D; 0; 12;
    0; 0; 0; 0; 0; 0;
    0; 10; 0; 0; 0; 13;
    CC_S; 9; 0; 11; CC_W; 0;
    0; 0 ].

(** [ACharClass[(code - CC) & ~CC_COMP]] *)
Definition class_of (code : Z) : list Z := default [] (ACharClass !! Z.to_nat (Z.land (code - CC) (Z.lnot CC_COMP))).

Definition full_set : list Z := replicate 16 0xffff.

(** [for (i = 0; i < A_SET_SIZE; i++) set[i] op= ...] *)
Definition map_set (f : Z -> Z -> Z) (set1 set2 : list Z) : list Z := zip_with (fun x y => u16 (f x y)) set1 set2.

Definition AAddWideToSet (set : list Z) (ch : Z) : list Z := if ch <? 256 then AReAddToSet set ch else set.

Definition ReLoCase (c : Z) : Z := Z.lor c 32.
Definition IsHex (c : Z) : bool := (97 <=? ReLoCase c) && (ReLoCase c <=? 102).
Definition IsOctal (c : Z) : bool := (48 <=? c) && (c <=? 55).

Local Abbreviation P := (SM ParseInfo).

Definition set_error : P unit := modify up_error.
Definition AGenerateError : P unit := set_error.
Definition set_str (i : Z) : P unit := modify (up_str i).
Definition set_out (o : OutBuf) : P unit := modify (up_out o).

Section comp.
(** The pattern as a wide string, the flags, and what unspecified memory holds:
    the words around the output buffer, by their index, and the members of the
    state that are not initialized. *)
Variables (strVal : StrObj) (flags : Z) (behind : storage).

Definition strEnd : Z := AStrLen strVal.
Definition nocase : bool := has_flag flags A_RE_NOCASE.

(** [*info->str] *)
Definition cur : P Z := s ← get; lift (char_at strVal (strPos s)).
Definition advance (n : Z) : P unit := s ← get; set_str (strPos s + n).

(** ** The output buffer *)

Definition initial_len : Z := Z.max 512 (strEnd * 2).

(** [buf[i]] *)
Definition buf_get (i : Z) : P Z :=
  s ← get;
  if (0 <=? i) && (i <? zlen (buf (out s))) then mret (dg (buf (out s)) i) else lift fault.

Definition buf_put (i w : Z) : P unit :=
  s ← get;
  if (0 <=? i) && (i <? zlen (buf (out s))) then set_out (MkOut (upd (buf (out s)) i (u16 w)) (bufInd (out s))) else lift fault.

Definition set_bufInd (n : Z) : P unit := s ← get; set_out (MkOut (buf (out s)) n).

(** The buffer becomes twice as large; [bufInd] words are copied, up to two of
    them from behind the old buffer when [Insert] has made room first. *)
Definition GrowOutputBuffer : P unit :=
  s ← get;
  let o := out s in
  let len := zlen (buf o) * 2 in
  junk ← lift (AAlloc (8 + len * 2));
  if len <? bufInd o then lift fault
  else
    let old i := if i <? zlen (buf o) then dg (buf o) i else u16 (behind i) in
    set_out (MkOut ((fun i => let i := Z.of_nat i in if i <? bufInd o then old i else u16 (junk i)) <$> seq 0 (Z.to_nat len)) (bufInd o)).

Definition Emit (code : Z) : P unit :=
  s ← get;
  (if bufInd (out s) =? zlen (buf (out s)) then GrowOutputBuffer else mret tt) ≫= (fun _ =>
  buf_put (bufInd (out s)) code ≫= (fun _ =>
  set_bufInd (bufInd (out s) + 1))).

(** The loop of [Insert]; if nothing is behind the position, the word in front
    of it is moved. *)
Fixpoint insert_loop (n : nat) (dest pos copyInd : Z) : P unit :=
  match n with
  | O => lift fault
  | S n =>
    let copyInd := copyInd - 1 in
    w ← (if pos + copyInd =? -1 then mret (u16 (behind (-1))) else buf_get (pos + copyInd));
    buf_put (dest + copyInd) w ≫= (fun _ =>
    if 0 <? copyInd then insert_loop n dest pos copyInd else mret tt)
  end.

Definition Insert (pos len : Z) : P unit :=
  s ← get;
  (if negb (mustStr s =? 0) && (pos <? mustStr s) then modify (up_must (mustStr s + len) (mustStrBack s)) else mret tt) ≫= (fun _ =>
  let bufInd := bufInd (out s) + len in
  set_bufInd bufInd ≫= (fun _ =>
  (if zlen (buf (out s)) <=? bufInd then GrowOutputBuffer else mret tt) ≫= (fun _ =>
  let dest := pos + len in
  insert_loop (S (Z.to_nat (bufInd - dest))) dest pos (bufInd - dest)))).

Definition EmitBranchAt (pos code dest : Z) : P unit :=
  let disp := dest - pos - 1 in
  let disp := if pos <=? dest then disp + 2 else disp in
  Insert pos 2 ≫= (fun _ =>
  buf_put pos code ≫= (fun _ =>
  buf_put (pos + 1) disp)).

Definition EmitBranch (code dest : Z) : P unit := s ← get; EmitBranchAt (bufInd (out s)) code dest.

Definition Unemit (len : Z) : P unit := s ← get; set_bufInd (bufInd (out s) - len).

(** [memmove] of [len] words to the end of the code. *)
Definition Copy (pos len : Z) : P unit :=
  s ← get;
  (if zlen (buf (out s)) <=? bufInd (out s) + len then GrowOutputBuffer else mret tt) ≫= (fun _ =>
  s ← get;
  let b := buf (out s) in
  let n := bufInd (out s) in
  if (0 <=? len) && (0 <=? pos) && (pos + len <=? zlen b) && (n + len <=? zlen b) then
    set_out (MkOut (take (Z.to_nat n) b ++ take (Z.to_nat len) (drop (Z.to_nat pos) b) ++ drop (Z.to_nat (n + len)) b) (n + len))
  else lift fault).

(** ** Character sets *)

(** Make room for [len] words. *)
Fixpoint reserve (n : nat) (len : Z) : P unit :=
  s ← get;
  if zlen (buf (out s)) <? bufInd (out s) + len then
    match n with O => lift fault | S n => GrowOutputBuffer ≫= (fun _ => reserve n len) end
  else mret tt.

Fixpoint put_words (ws : list Z) : P unit :=
  match ws with
  | [] => mret tt
  | w :: ws => s ← get; buf_put (bufInd (out s)) w ≫= (fun _ => set_bufInd (bufInd (out s) + 1) ≫= (fun _ => put_words ws))
  end.

Fixpoint emit_ranges (ranges : list (Z * Z)) : P unit :=
  match ranges with
  | [] => mret tt
  | (lo, hi) :: ranges => Emit lo ≫= (fun _ => Emit hi ≫= (fun _ => emit_ranges ranges))
  end.

(** [ranges] is empty if [wset] is [NULL]. *)
Definition EmitCharSet (set : list Z) (ranges : list (Z * Z)) (complement : bool) (setFlags : Z) : P unit :=
  let len := A_RE_SET_SIZE + 2 + zlen ranges * 2 in
  reserve (Z.to_nat len) len ≫= (fun _ =>
  put_words (if complement then (fun w => Z.lxor w 0xffff) <$> set else set) ≫= (fun _ =>
  Emit (zlen ranges) ≫= (fun _ =>
  Emit (Z.lor (Z.lor setFlags (if nocase then A_WS_IGNORE_CASE else 0)) (if complement then A_WS_COMPLEMENT else 0)) ≫= (fun _ =>
  emit_ranges ranges)))).

Definition AddStartSet (set : list Z) (complement : bool) : P unit :=
  s ← get;
  if minLen s =? 0 then
    modify (up_start (map_set (fun x y => Z.lor x (Z.lxor y (if complement then 0xffff else 0))) (startChar s) set))
  else mret tt.

(** A range of which a part is wide.  The blocks are not on the heap of the
    thread; where one is refused, which C does not notice, the model ends with
    [MemoryError]. *)
Definition AddToWideSet (set : WideCharSet) (lo hi : Z) : M WideCharSet :=
  if (hi <? lo) || (hi <? 256) then mret set
  else
    let n := zlen (ws_data set) in
    m ← (if n =? ws_maxLength set then
           if n =? 0 then AAlloc (16 * 2 * 2) ≫= (fun _ => mret 16)
           else AAlloc (ws_maxLength set * 2 * 2 * 2) ≫= (fun _ => mret (ws_maxLength set * 2))
         else mret (ws_maxLength set));
    mret (MkWide (ws_data set ++ [(lo, hi)]) m).

(** ** Characters *)

Definition GetHexDigit : P Z :=
  s ← get;
  if strPos s =? strEnd then mret (-1)
  else
    c ← cur;
    if AIsDigit c then advance 1 ≫= (fun _ => mret (c - 48))
    else if IsHex c then advance 1 ≫= (fun _ => mret (ReLoCase c - 97 + 10))
    else mret (-1).

(** One more octal digit. *)
Definition octal_digit (number : Z) (next : Z -> P Z) : P Z :=
  s ← get;
  if strPos s <? strEnd then
    c ← cur;
    if IsOctal c then advance 1 ≫= (fun _ => next (number * 8 + (c - 48))) else mret number
  else mret number.

(** A back reference or an octal number. *)
Definition escaped_digit (c : Z) : P (Z * Z) :=
  s ← get;
  isRef ← (if negb (c =? 48) then
             if 55 <? c then mret true
             else if strPos s =? strEnd then mret true
             else d ← cur; mret (negb (IsOctal d))
           else mret false);
  if isRef : bool then mret (if 55 <? c then c else c - 48, op_num (if nocase then A_BACKREF_I else A_BACKREF))
  else
    n ← octal_digit (c - 48) (fun n => octal_digit n mret);
    mret (n, op_num A_EMPTY).

(** The character and its code. *)
Definition ParseChar : P (Z * Z) :=
  c ← cur;
  if negb (c =? 92) then advance 1 ≫= (fun _ => mret (c, op_num A_EMPTY))
  else
    advance 1 ≫= (fun _ =>
    s ← get;
    if strPos s =? strEnd then AGenerateError ≫= (fun _ => mret (0, op_num A_EMPTY))
    else
      c ← cur;
      let c := u8 c in
      advance 1 ≫= (fun _ =>
      if c =? 120 then
        digit1 ← GetHexDigit;
        if digit1 <? 0 then mret (120, op_num A_EMPTY)
        else
          digit2 ← GetHexDigit;
          mret (if digit2 <? 0 then digit1 else digit1 * 16 + digit2, op_num A_EMPTY)
      else if (97 <=? c) && (c <=? 122) then
        let conv := dg CharConv (c - 97) in
        mret (if CC <=? conv then (conv, conv) else (if conv =? 0 then c else conv, op_num A_EMPTY))
      else if c =? 60 then mret (60, op_num A_BOW)
      else if c =? 62 then mret (62, op_num A_EOW)
      else if c =? 68 then mret (0, CC + CC_COMP)
      else if c =? 83 then mret (0, CC + 1 + CC_COMP)
      else if c =? 87 then mret (0, CC + 2 + CC_COMP)
      else if AIsDigit c then escaped_digit c
      else mret (c, op_num A_EMPTY))).

(** ** Repetitions *)

(** The digits of a number up to index [lim]; the first one is there. *)
Fixpoint range_digits (n : nat) (lim acc : Z) : P Z :=
  match n with
  | O => lift fault
  | S n =>
    c ← cur;
    let acc := u32 (acc * 10 + (c - 48)) in
    advance 1 ≫= (fun _ =>
    s ← get;
    if strPos s <? lim then c ← cur; if AIsDigit c then range_digits n lim acc else mret acc
    else mret acc)
  end.

(** The part of a range behind the minimum. *)
Definition range_opt (min : Z) : P Z :=
  c ← cur;
  if c =? 44 then
    advance 1 ≫= (fun _ =>
    s ← get;
    digit ← (if strPos s <? strEnd then c ← cur; mret (AIsDigit c) else mret false);
    if digit : bool then opt ← range_digits (S (Z.to_nat strEnd)) strEnd 0; mret (u32 (opt - min))
    else mret A_INFINITE_REPEAT)
  else mret 0.

Definition ParseRange : P (Z * Z) :=
  s ← get;
  valid ← (if strEnd - 1 <=? strPos s then mret false else c ← cur; mret (AIsDigit c));
  if negb valid then AGenerateError ≫= (fun _ => mret (0, 0))
  else
    min ← range_digits (S (Z.to_nat strEnd)) (strEnd - 1) 0;
    opt ← range_opt min;
    s ← get;
    closed ← (if strPos s =? strEnd then mret false else c ← cur; mret (c =? 125));
    (if negb closed || (A_INFINITE_REPEAT <? opt) then AGenerateError else mret tt) ≫= (fun _ =>
    advance 1 ≫= (fun _ => mret (min, opt))).

(** The minimum, the number of optional repetitions, and whether to minimize. *)
Definition ParseRepeatType : P (Z * Z * bool) :=
  s ← get;
  ch ← (if strPos s <? strEnd then cur else mret 0);
  advance 1 ≫= (fun _ =>
  '(min, opt) ← (if ch =? 63 then mret (0, 1)
           else if ch =? 43 then mret (1, A_INFINITE_REPEAT)
           else if ch =? 42 then mret (0, A_INFINITE_REPEAT)
           else if ch =? 123 then ParseRange
           else advance (-1) ≫= (fun _ => mret (1, 0)));
  s ← get;
  minimize ← (if strPos s <? strEnd then c ← cur; mret (c =? 63) else mret false);
  (if minimize : bool then advance 1 else mret tt) ≫= (fun _ => mret (min, opt, minimize))).

Definition ParseSimpleRepetition (code : Z) : P unit :=
  '(min, opt, minimize) ← ParseRepeatType;
  (if negb (min =? 1) || negb (opt =? 0) then
     Emit (code + A_REPEAT + Z.b2z minimize) ≫= (fun _ => Emit min ≫= (fun _ => Emit opt))
   else Emit code) ≫= (fun _ =>
  modify (fun s => up_len (u32 (minLen s + min))
    (if opt <? A_INFINITE_REPEAT then u32 (maxLen s + (min + opt)) else A_INFINITE_LENGTH) s)).

(** [while (min > 0) { Copy(...); min--; }] *)
Fixpoint copy_loop (n : nat) (size : Z) : P unit :=
  match n with
  | O => mret tt
  | S n => s ← get; Copy (bufInd (out s) - size) size ≫= (fun _ => copy_loop n size)
  end.

(** [while (--opt > 0) ...] with [n = opt - 1] *)
Fixpoint opt_loop (n : nat) (size : Z) (minimize : bool) : P unit :=
  match n with
  | O => mret tt
  | S n =>
    s ← get;
    EmitBranch (op_num A_BRANCH_AFTER - Z.b2z minimize) (bufInd (out s) + size) ≫= (fun _ =>
    s ← get;
    Copy (bufInd (out s) - size - 2) size ≫= (fun _ => opt_loop n size minimize))
  end.

Definition ParseRepetition (oldMinLen oldMaxLen size oldMustStr oldMustStrBack : Z) : P unit :=
  '(min, opt, minimize) ← ParseRepeatType;
  (if min =? 0 then modify (up_must oldMustStr oldMustStrBack) else mret tt) ≫= (fun _ =>
  modify (fun s => up_len (u32 (oldMinLen + min * (minLen s - oldMinLen)))
    (if opt <? A_INFINITE_REPEAT then u32 (oldMaxLen + (min + opt) * (maxLen s - oldMinLen)) else A_INFINITE_LENGTH) s) ≫= (fun _ =>
  copy_loop (Z.to_nat min) size ≫= (fun _ =>
  s ← get;
  if opt =? A_INFINITE_REPEAT then
    w ← buf_get (bufInd (out s) - 2);
    buf_put (bufInd (out s) - 2) (w + 1) ≫= (fun _ =>
    EmitBranchAt (bufInd (out s) - size) (op_num A_BRANCH_AFTER - Z.b2z minimize) (bufInd (out s) + 2) ≫= (fun _ =>
    s ← get;
    EmitBranch (op_num A_BRANCH_BEFORE + Z.b2z minimize) (bufInd (out s) - size)))
  else if 0 <? opt then
    EmitBranchAt (bufInd (out s) - size) (op_num A_BRANCH_AFTER - Z.b2z minimize) (bufInd (out s)) ≫= (fun _ =>
    opt_loop (Z.to_nat (opt - 1)) size minimize)
  else Unemit size))).

(** ** Character classes in brackets *)

(** [for (; ch <= AMin(hiChar, 255); ch++) AAddToSet(set, ch)] *)
Fixpoint add_chars (n : nat) (ch : Z) (set : list Z) : list Z :=
  match n with O => set | S n => add_chars n (ch + 1) (AReAddToSet set ch) end.

Definition add_range (lo hi : Z) (set : list Z) : list Z := add_chars (Z.to_nat (Z.min hi 255 + 1 - lo)) lo set.

(** A class inside the brackets. *)
Definition add_class (code : Z) (set : list Z) (setFlags : Z) : list Z * Z :=
  let set := map_set (fun x y => Z.lor x (if has_flag code CC_COMP then Z.lnot y else y)) set (class_of code) in
  let setFlags := if code =? CC_W then Z.lor setFlags A_WS_WORD_CHAR
                  else if code =? Z.lor CC_W CC_COMP then Z.lor setFlags A_WS_NOT_WORD_CHAR else setFlags in
  (if (code =? CC_W) || (code =? Z.lor CC_W CC_COMP) then AReToggleInSet set 95 else set, setFlags).

(** The set, the ranges and the flags. *)
Local Abbreviation SetState := (list Z * WideCharSet * Z)%type.

(** The rest of the round of the loop after its first character; [None] is
    [break]. *)
Definition set_item (ch code : Z) (st : SetState) : P (option SetState) :=
  let '(set, wset, setFlags) := st in
  if CC <=? code then
    let '(set, setFlags) := add_class code set setFlags in
    c ← cur;
    (if c =? 45 then AGenerateError else mret tt) ≫= (fun _ => mret (Some (set, wset, setFlags)))
  else
    c ← cur;
    if c =? 45 then
      advance 1 ≫= (fun _ =>
      s ← get;
      if strPos s =? strEnd then mret None
      else
        c ← cur;
        '(set, hiChar) ← (if c =? 93 then mret (AReAddToSet set 45, ch)
          else
            '(hiChar, code) ← ParseChar;
            (if CC <=? code then AGenerateError else mret tt) ≫= (fun _ => mret (set, hiChar)));
        wset ← lift (AddToWideSet wset ch hiChar);
        mret (Some (add_range ch hiChar set, wset, setFlags)))
    else
      wset ← lift (AddToWideSet wset ch ch);
      mret (Some (AAddWideToSet set ch, wset, setFlags)).

Fixpoint set_loop (n : nat) (st : SetState) : P SetState :=
  match n with
  | O => lift fault
  | S n =>
    '(ch, code) ← ParseChar;
    s ← get;
    if strPos s =? strEnd then mret st
    else
      r ← set_item ch code st;
      match r with
      | None => mret st
      | Some st =>
        s ← get;
        if strPos s <? strEnd then c ← cur; if c =? 93 then mret st else set_loop n st
        else mret st
      end
  end.

(** The loop that adds the other case of all characters below 256. *)
Fixpoint fold_case (n : nat) (i : Z) (set : list Z) : list Z :=
  match n with
  | O => set
  | S n => fold_case n (i + 1) (if AReIsInSet set i then AReAddToSet (AReAddToSet set (ALower i)) (AUpper i) else set)
  end.

(** The case of [\[]. *)
Definition parse_class : P unit :=
  advance 1 ≫= (fun _ =>
  s ← get;
  complement ← (if strPos s <? strEnd then c ← cur; mret (c =? 94) else mret false);
  (if complement : bool then advance 1 else mret tt) ≫= (fun _ =>
  s ← get;
  (if strPos s =? strEnd then AGenerateError else mret tt) ≫= (fun _ =>
  '(set, wset, setFlags) ← set_loop (S (Z.to_nat strEnd)) (replicate 16 0, MkWide [] 0, 0);
  s ← get;
  (if strPos s =? strEnd then AGenerateError else mret tt) ≫= (fun _ =>
  advance 1 ≫= (fun _ =>
  let set := if nocase then fold_case 256 0 set else set in
  AddStartSet set complement ≫= (fun _ =>
  ParseSimpleRepetition (op_num A_SET) ≫= (fun _ =>
  EmitCharSet set (ws_data wset) complement setFlags))))))).

(** A class outside brackets. *)
Definition escaped_class (code : Z) : P unit :=
  let complement := has_flag code CC_COMP in
  let word := (code =? CC_W) || (code =? Z.lor CC_W CC_COMP) in
  let set := if word then AReToggleInSet (class_of code) 95 else class_of code in
  AddStartSet set complement ≫= (fun _ =>
  ParseSimpleRepetition (op_num A_SET) ≫= (fun _ =>
  EmitCharSet set [] complement (if word then A_WS_WORD_CHAR else 0))).

(** ** Concatenation *)

(** A back reference; [code] has been emitted. *)
Definition back_reference (ch : Z) : P unit :=
  let num := Z.land ch (Z.lnot 48) in
  s ← get;
  let oldMaxLen := maxLen s in
  (if has_flag (parenFlags s) (Z.shiftl 1 num) then mret tt else AGenerateError) ≫= (fun _ =>
  Emit num ≫= (fun _ =>
  modify (fun s => up_len (minLen s) (u32 (maxLen s * 2)) s) ≫= (fun _ =>
  s ← get;
  ParseRepetition (minLen s) oldMaxLen 2 (mustStr s) (mustStrBack s)))).

(** A character that is not repeated: it extends the literal string of the
    [litLen] characters before it. *)
Definition literal_char (code ch litLen : Z) : P unit :=
  modify (fun s => up_len (u32 (minLen s + 1)) (u32 (maxLen s + 1)) s) ≫= (fun _ =>
  let litLen := litLen + 1 in
  if litLen =? 2 then
    s ← get;
    let n := bufInd (out s) in
    prevCh ← buf_get (n - 1);
    w ← buf_get (n - 2);
    buf_put (n - 2) (w + A_STRING) ≫= (fun _ =>
    buf_put (n - 1) 2 ≫= (fun _ =>
    Emit prevCh ≫= (fun _ =>
    Emit ch ≫= (fun _ =>
    modify (fun s => if mustStr s =? 0 then up_must (bufInd (out s) - litLen) (maxLen s - 2) s else s)))))
  else if 2 <? litLen then
    Emit ch ≫= (fun _ =>
    s ← get;
    w ← buf_get (mustStr s - 1);
    (if w <=? litLen then modify (fun s => up_must (bufInd (out s) - litLen) (maxLen s - litLen) s) else mret tt) ≫= (fun _ =>
    buf_put (bufInd (out s) - litLen - 1) litLen))
  else Emit code ≫= (fun _ => Emit ch)).

(** The [default] case; the number of literal characters. *)
Definition parse_default (litLen : Z) : P (Z * bool) :=
  '(ch, code) ← ParseChar;
  if negb (code =? op_num A_EMPTY) then
    (if code <? CC then
       Emit code ≫= (fun _ =>
       if (code =? op_num A_BACKREF) || (code =? op_num A_BACKREF_I) then back_reference ch else mret tt)
     else escaped_class code) ≫= (fun _ => mret (litLen, false))
  else
    let code := op_num (if nocase then A_LITERAL_I else A_LITERAL) in
    let ch := if nocase then ALower ch else ch in
    modify (fun s =>
      if minLen s =? 0 then
        let c := AAddWideToSet (startChar s) ch in
        up_start (if nocase then AAddWideToSet c (AUpper ch) else c) s
      else s) ≫= (fun _ =>
    s ← get;
    repeated ← (if strPos s =? strEnd then mret false
                else c ← cur; mret ((c =? 42) || (c =? 43) || (c =? 63) || (c =? 123)));
    if negb repeated then literal_char code ch litLen ≫= (fun _ => mret (litLen + 1, true))
    else ParseSimpleRepetition code ≫= (fun _ => Emit ch ≫= (fun _ => mret (litLen, false)))).

(** The cases of the loop of [ParseConcat] without parentheses. *)
Definition parse_item (c litLen : Z) : P (Z * bool) :=
  if c =? 94 then Emit (op_num A_BOL_MULTI) ≫= (fun _ => advance 1 ≫= (fun _ => mret (litLen, false)))
  else if c =? 36 then Emit (op_num A_EOL_MULTI) ≫= (fun _ => advance 1 ≫= (fun _ => mret (litLen, false)))
  else if c =? 46 then
    modify (fun s => if minLen s =? 0 then up_start full_set s else s) ≫= (fun _ =>
    advance 1 ≫= (fun _ =>
    ParseSimpleRepetition (op_num A_ANY) ≫= (fun _ => mret (litLen, false))))
  else if c =? 91 then parse_class ≫= (fun _ => mret (litLen, false))
  else if (c =? 42) || (c =? 43) || (c =? 63) || (c =? 123) then
    AGenerateError ≫= (fun _ => set_str strEnd ≫= (fun _ => mret (litLen, false)))
  else parse_default litLen.

(** [ParseParen]; [alts] is the call of [ParseAlternatives]. *)
Definition ParseParen (alts : P unit) : P unit :=
  s0 ← get;
  advance 1 ≫= (fun _ =>
  s ← get;
  if strPos s =? strEnd then AGenerateError
  else
    let groupNum := numParen s in
    modify (fun s => up_paren (numParen s + 1) (parenFlags s) s) ≫= (fun _ =>
    Emit (op_num A_LPAREN) ≫= (fun _ =>
    Emit groupNum ≫= (fun _ =>
    alts ≫= (fun _ =>
    Emit (op_num A_RPAREN) ≫= (fun _ =>
    Emit groupNum ≫= (fun _ =>
    modify (fun s => up_paren (numParen s)
      (if groupNum <? 10 then Z.lor (parenFlags s) (Z.shiftl 1 groupNum) else parenFlags s) s) ≫= (fun _ =>
    s ← get;
    closed ← (if strPos s =? strEnd then mret false else c ← cur; mret (c =? 41));
    (if closed : bool then advance 1 else AGenerateError) ≫= (fun _ =>
    ParseRepetition (minLen s0) (maxLen s0) (bufInd (out s) - bufInd (out s0)) (mustStr s0) (mustStrBack s0)))))))))).

(** The loop of [ParseConcat] and [ParseAlternatives]. *)
Fixpoint ParseConcat (fuel : nat) (litLen : Z) (isPrevLit : bool) : P unit :=
  match fuel with
  | O => lift fault
  | S fuel =>
    s ← get;
    if strPos s <? strEnd then
      let litLen := if isPrevLit then litLen else 0 in
      c ← cur;
      if c =? 40 then ParseParen (ParseAlternatives fuel) ≫= (fun _ => ParseConcat fuel litLen false)
      else if (c =? 41) || (c =? 124) then mret tt
      else '(litLen, isPrevLit) ← parse_item c litLen; ParseConcat fuel litLen isPrevLit
    else mret tt
  end
with ParseAlternatives (fuel : nat) : P unit :=
  match fuel with
  | O => lift fault
  | S fuel =>
    s0 ← get;
    modify (up_depth (depth s0 + 1)) ≫= (fun _ =>
    if A_MAX_NESTING_DEPTH <=? depth s0 + 1 then AGenerateError
    else
      ParseConcat fuel 0 false ≫= (fun _ =>
      s ← get;
      more ← (if strPos s =? strEnd then mret false else c ← cur; mret (c =? 124));
      if negb more then modify (fun s => up_depth (depth s - 1) s)
      else
        let altMinLen := minLen s in
        let altMaxLen := maxLen s in
        modify (up_len (minLen s0) (maxLen s0)) ≫= (fun _ =>
        advance 1 ≫= (fun _ =>
        EmitBranchAt (bufInd (out s0)) (op_num A_BRANCH_AFTER) (bufInd (out s) + 2) ≫= (fun _ =>
        s ← get;
        let oldBufInd := bufInd (out s) in
        ParseAlternatives fuel ≫= (fun _ =>
        s ← get;
        EmitBranchAt oldBufInd (op_num A_BRANCH_ALWAYS) (bufInd (out s)) ≫= (fun _ =>
        modify (up_must (mustStr s0) (mustStrBack s0)) ≫= (fun _ =>
        modify (fun s => up_depth (depth s - 1) s) ≫= (fun _ =>
        modify (fun s => up_len (Z.min altMinLen (minLen s)) (Z.max altMaxLen (maxLen s)) s))))))))))
  end.

(** ** Whole expressions *)

(** The words of a literal pattern. *)
Fixpoint literal_words (n : nat) (i : Z) : P unit :=
  match n with
  | O => mret tt
  | S n => c ← lift (char_at strVal i); Emit c ≫= (fun _ => literal_words n (i + 1))
  end.

(** [ALower( *str++)] evaluates its argument twice: the width of one character
    is tested and the next one converted; the loop ends at the end of the
    pattern, which it may step over. *)
Fixpoint literal_lower (n : nat) (i : Z) : P unit :=
  match n with
  | O => lift fault
  | S n =>
    if i =? strEnd then mret tt
    else
      c ← lift (char_at strVal i);
      c2 ← lift (char_at strVal (i + 1));
      if (c <? 256) && (256 <=? c2) then lift fault
      else Emit (if c <? 256 then dg ALowerCase c2 else ALower2 c2) ≫= (fun _ => literal_lower n (i + 2))
  end.

Definition parse_literal : P unit :=
  s ← get;
  let len := strEnd - strPos s in
  modify (fun s => up_len len (maxLen s) s) ≫= (fun _ =>
  (if 0 <? len then
     c ← cur;
     Emit (op_num (if nocase then A_LITERAL_I_STRING else A_LITERAL_STRING)) ≫= (fun _ =>
     Emit len ≫= (fun _ =>
     modify (fun s => up_start (if nocase then AAddWideToSet (AAddWideToSet (startChar s) (ALower c)) (AUpper c)
                                else AAddWideToSet (startChar s) c) s) ≫= (fun _ =>
     modify (fun s => up_must (bufInd (out s)) (mustStrBack s) s) ≫= (fun _ =>
     if nocase then literal_lower (S (Z.to_nat len)) (strPos s) else literal_words (Z.to_nat len) (strPos s)))))
   else mret tt) ≫= (fun _ => set_str strEnd)).

Definition ParseExpr : P unit :=
  (if has_flag flags A_RE_BOW then Emit (op_num A_BOW)
   else if has_flag flags A_RE_BOL then Emit (op_num A_BOL) else mret tt) ≫= (fun _ =>
  (if has_flag flags A_RE_NOSPECIAL then parse_literal
   else ParseAlternatives (2 * Z.to_nat strEnd + 2)) ≫= (fun _ =>
  (if has_flag flags A_RE_EOW then Emit (op_num A_EOW)
   else if has_flag flags A_RE_EOL then Emit (op_num A_EOL) else mret tt) ≫= (fun _ =>
  Emit (op_num A_MATCH)))).

(** The body of [ACompileRegExp] on the state. *)
Definition parse_all : P unit :=
  ParseExpr ≫= (fun _ =>
  s ← get;
  (if negb (strPos s =? strEnd) then AGenerateError else mret tt) ≫= (fun _ =>
  (if 32768 <=? bufInd (out s) then AGenerateError else mret tt))).

(** The first state, with a buffer just allocated. *)
Definition start_info (junk : storage) : ParseInfo :=
  MkParse false 0 0 (s32 (behind (-2)))
    (MkOut ((fun i => u16 (junk (Z.of_nat i))) <$> seq 0 (Z.to_nat initial_len)) 0)
    1 0 0 0 0 (replicate 16 0).

(** The flags and the members for the literal string that a match has to
    contain, which the matcher does not use yet. *)
Definition must_members (s : ParseInfo) (junk : storage) : M (Z * Z * Z * Z) :=
  let b := buf (out s) in
  if negb (mustStr s =? 0) then
    if (0 <=? mustStr s - 1) && (mustStr s - 1 <? zlen b) then
      let len := dg b (mustStr s - 1) in
      let fl := Z.lor flags A_ALRE_MUSTLITERAL in
      if len <? 255 then
        fl ← (if mustStr s =? 2 then
                if len + 2 <? zlen b then mret (if dg b (len + 2) =? op_num A_MATCH then Z.lor fl A_ALRE_LITERALONLY else fl)
                else fault
              else mret fl);
        mret (fl, mustStr s, len, mustStrBack s)
      else mret (fl, mustStr s, 254, mustStrBack s)
    else fault
  else mret (flags, 0, s32 (junk 12), s32 (junk 13)).

(** The end of [ACompileRegExp]: the object. *)
Definition make_regexp (s : ParseInfo) : M ARegExp :=
  if isError s then raise ERegExpError
  else
    junk ← AAlloc 88;
    '(fl, ind, len, back) ← must_members s junk;
    let code := take (Z.to_nat (bufInd (out s))) (buf (out s)) in
    let fl := if dg (buf (out s)) 0 =? op_num A_BOL then Z.lor fl A_ALRE_ANCHORED else fl in
    mret (MkRegExp code fl (s32 (minLen s)) (numParen s) ind len back (if minLen s =? 0 then full_set else startChar s)).
End comp.

(** [ACompileRegExp(t, str, flags)]; [None] is a value that is not a string. *)
Definition ACompileRegExp (str : option StrObj) (flags : Z) (behind : storage) : M ARegExp :=
  match str with
  | None => raise ETypeError
  | Some str =>
    str ← (match str with WideStr _ => mret str | _ => ANarrowStringToWide str end);
    junk ← AAlloc (8 + initial_len str * 2);
    s ← (fun t => let '(r, s, t) := parse_all str flags behind (start_info str behind junk) t in
                  (match r with Ok _ => Ok s | Raise e => Raise e | Fault => Fault end, t));
    make_regexp flags s
  end.

(** Some patterns. *)
Definition compile (p : list Z) (flags : Z) : outcome ARegExp := run (ACompileRegExp (Some (NarrowStr p)) flags (fun _ => 0)).
Definition code_for (p : list Z) (flags : Z) : option (list Z) :=
  match compile p flags with Ok c => Some (re_code c) | _ => None end.
