(* ===== verification/ReParse.v ===== *)
(** * ReParse: the grammar of regular expressions

    The reference definition of what a pattern means: a parser from patterns
    to the expression trees of [ReSem].  It differs from the code in that an
    error ends it, and that it builds a tree instead of emitting and moving
    code. *)

From S2P Require Import Prelude Runtime Digits IntConv StrTables ReDefs ReSem ReComp.

Open Scope Z_scope.

(** ** Results *)

(** [PHuge] is a repetition count above 65535, of which the code keeps 16 bits,
    and [PStuck] the lack of fuel, which does not happen. *)
Inductive parsed (A : Type) := POk (a : A) | PBad | PHuge | PStuck.
Arguments POk {A} a.
Arguments PBad {A}.
Arguments PHuge {A}.
Arguments PStuck {A}.

#[export] Instance parsed_ret : MRet parsed := fun A => POk.
#[export] Instance parsed_bind : MBind parsed := fun A B f m =>
  match m with POk a => f a | PBad => PBad | PHuge => PHuge | PStuck => PStuck end.

(** ** Escapes *)

Inductive esc :=
  | EscChar (c : Z)
  | EscClass (k : Z) (complement : bool)
  | EscAssert (a : assert) (c : Z)
  | EscRef (n : Z).

(** The character that an escape stands for inside brackets. *)
Definition esc_char (e : esc) : Z :=
  match e with
  | EscChar c => c
  | EscClass k complement => if complement then 0 else CC + k
  | EscAssert _ c => c
  | EscRef n => if 7 <? n then 48 + n else n
  end.

Definition hex_value (c : Z) : option Z :=
  if AIsDigit c then Some (c - 48) else if IsHex c then Some (ReLoCase c - 87) else None.

(** [\x] and at most two digits. *)
Definition parse_hex (s : list Z) : Z * list Z :=
  match s with
  | c1 :: t1 =>
    match hex_value c1 with
    | Some d1 =>
      match t1 with
      | c2 :: t2 => match hex_value c2 with Some d2 => (d1 * 16 + d2, t2) | None => (d1, t1) end
      | [] => (d1, t1)
      end
    | None => (120, s)
    end
  | [] => (120, s)
  end.

(** At most [n] more octal digits. *)
Fixpoint parse_octal (n : nat) (number : Z) (s : list Z) : Z * list Z :=
  match n, s with
  | S n, c :: t => if IsOctal c then parse_octal n (number * 8 + (c - 48)) t else (number, s)
  | _, _ => (number, s)
  end.

(** A digit is the number of a group unless it is 0 or another octal digit
    follows. *)
Definition parse_digit (c : Z) (s : list Z) : esc * list Z :=
  if negb (c =? 48) && ((55 <? c) || match s with d :: _ => negb (IsOctal d) | [] => true end) then (EscRef (c - 48), s)
  else let '(n, s) := parse_octal 2 (c - 48) s in (EscChar n, s).

Definition parse_letter (c : Z) : esc :=
  let conv := dg CharConv (c - 97) in
  if CC <=? conv then EscClass (conv - CC) false else EscChar (if conv =? 0 then c else conv).

Definition parse_esc (s : list Z) : parsed (esc * list Z) :=
  match s with
  | [] => PBad
  | c :: s =>
    if negb (c =? 92) then POk (EscChar c, s)
    else
      match s with
      | [] => PBad
      | c :: s =>
        let c := u8 c in
        POk (if c =? 120 then let '(n, s) := parse_hex s in (EscChar n, s)
             else if (97 <=? c) && (c <=? 122) then (parse_letter c, s)
             else if c =? 60 then (EscAssert AsBow c, s)
             else if c =? 62 then (EscAssert AsEow c, s)
             else if c =? 68 then (EscClass 0 true, s)
             else if c =? 83 then (EscClass 1 true, s)
             else if c =? 87 then (EscClass 2 true, s)
             else if AIsDigit c then parse_digit c s
             else (EscChar c, s))
      end
  end.

(** ** Repetitions *)

(** A number, modulo 2^32; with [last], the last character of the pattern is
    not taken for a digit. *)
Fixpoint parse_number (last : bool) (acc : Z) (s : list Z) : Z * list Z :=
  match s with
  | c :: t =>
    if AIsDigit c && negb (last && match t with [] => true | _ => false end)
    then parse_number last (u32 (acc * 10 + (c - 48))) t else (acc, s)
  | [] => (acc, s)
  end.

Definition first_digit (s : list Z) : bool := match s with c :: _ => AIsDigit c | [] => false end.

(** The number of optional repetitions behind the minimum. *)
Definition parse_opt (min : Z) (s : list Z) : Z * list Z :=
  match s with
  | c :: t =>
    if c =? 44 then
      if first_digit t then (u32 ((parse_number false 0 t).1 - min), (parse_number false 0 t).2) else (A_INFINITE_REPEAT, t)
    else (0, s)
  | [] => (0, s)
  end.

(** [{min}], [{min,}] or [{min,max}]. *)
Definition parse_range (s : list Z) : parsed (Z * Z * list Z) :=
  if first_digit s && match s with _ :: _ :: _ => true | _ => false end then
    let min := (parse_number true 0 s).1 in
    let '(opt, s) := parse_opt min (parse_number true 0 s).2 in
    match s with
    | c :: t =>
      if negb (c =? 125) || (A_INFINITE_REPEAT <? opt) then PBad
      else if 65535 <? min then PHuge else POk (min, opt, t)
    | [] => PBad
    end
  else PBad.

Definition parse_count (s : list Z) : parsed (Z * Z * list Z) :=
  match s with
  | c :: t =>
    if c =? 63 then POk (0, 1, t)
    else if c =? 43 then POk (1, A_INFINITE_REPEAT, t)
    else if c =? 42 then POk (0, A_INFINITE_REPEAT, t)
    else if c =? 123 then parse_range t
    else POk (1, 0, s)
  | [] => POk (1, 0, s)
  end.

Definition parse_repeat (s : list Z) : parsed (Z * Z * bool * list Z) :=
  '(min, opt, s) ← parse_count s;
  match s with
  | c :: t => POk (if c =? 63 then (min, opt, true, t) else (min, opt, false, s))
  | [] => POk (min, opt, false, s)
  end.

(** ** Sets *)

Inductive sitem :=
  | SChar (c : Z)
  | SDash (c : Z)
  | SRange (lo hi : Z)
  | SClass (k : Z) (complement : bool).

Definition item_of (e : esc) (s : list Z) : parsed (sitem * list Z) :=
  match s with
  | [] => PBad
  | c :: t =>
    match e with
    | EscClass k complement => if c =? 45 then PBad else POk (SClass k complement, s)
    | _ =>
      if c =? 45 then
        match t with
        | [] => PBad
        | d :: _ =>
          if d =? 93 then POk (SDash (esc_char e), t)
          else
            '(e2, t) ← parse_esc t;
            match e2 with EscClass _ _ => PBad | _ => POk (SRange (esc_char e) (esc_char e2), t) end
        end
      else POk (SChar (esc_char e), s)
    end
  end.

(** The items up to the bracket. *)
Fixpoint parse_items (n : nat) (items : list sitem) (s : list Z) : parsed (list sitem * list Z) :=
  match n with
  | O => PStuck
  | S n =>
    '(e, s) ← parse_esc s;
    '(it, s) ← item_of e s;
    let items := items ++ [it] in
    match s with
    | c :: t => if c =? 93 then POk (items, t) else parse_items n items s
    | [] => PBad
    end
  end.

Definition class_code (k : Z) (complement : bool) : Z := CC + k + if complement then CC_COMP else 0.

Definition add_wide (lo hi : Z) (ranges : list (Z * Z)) : list (Z * Z) :=
  if (hi <? lo) || (hi <? 256) then ranges else ranges ++ [(lo, hi)].

Definition add_item (st : list Z * list (Z * Z) * Z) (it : sitem) : list Z * list (Z * Z) * Z :=
  let '(set, ranges, fl) := st in
  match it with
  | SChar c => (AAddWideToSet set c, add_wide c c ranges, fl)
  | SDash c => (add_range c c (AReAddToSet set 45), add_wide c c ranges, fl)
  | SRange lo hi => (add_range lo hi set, add_wide lo hi ranges, fl)
  | SClass k complement => let '(set, fl) := add_class (class_code k complement) set fl in (set, ranges, fl)
  end.

(** The words of a set as they are emitted. *)
Definition emitted_set (nocase complement : bool) (set : list Z) (ranges : list (Z * Z)) (fl : Z) : wset :=
  MkSet (if complement then (fun w => Z.lxor w 0xffff) <$> set else set) ranges
    (Z.lor (Z.lor fl (if nocase then A_WS_IGNORE_CASE else 0)) (if complement then A_WS_COMPLEMENT else 0)).

Definition set_of (nocase complement : bool) (items : list sitem) : wset :=
  let '(set, ranges, fl) := fold_left add_item items (replicate 16 0, [], 0) in
  emitted_set nocase complement (if nocase then fold_case 256 0 set else set) ranges fl.

Definition class_set (nocase : bool) (k : Z) (complement : bool) : wset :=
  let set := class_of (class_code k complement) in
  emitted_set nocase complement (if k =? 2 then AReToggleInSet set 95 else set) [] (if k =? 2 then A_WS_WORD_CHAR else 0).

Definition parse_set (nocase : bool) (s : list Z) : parsed (wset * list Z) :=
  let complement := match s with c :: _ => c =? 94 | [] => false end in
  let s := if complement then drop 1 s else s in
  '(items, s) ← parse_items (S (length s)) [] s;
  POk (set_of nocase complement items, s).

(** ** Trees *)

Definition cat (r1 r2 : re) : re :=
  match r1, r2 with
  | REmpty, _ => r2
  | _, REmpty => r1
  | _, _ => RSeq r1 r2
  end.

(** A run of literal characters. *)
Definition lit_re (ignoreCase : bool) (s : list Z) : re :=
  match s with
  | [] => REmpty
  | [c] => RChars (CLit ignoreCase c) 1 0 false
  | _ => RLit ignoreCase s
  end.

Fixpoint copies (n : nat) (r : re) : re := match n with O => REmpty | S n => cat r (copies n r) end.

(** The repetition of [r], of which [loop] is the loop. *)
Definition repeated (min opt : Z) (minimize : bool) (r loop : re) : re :=
  cat (copies (Z.to_nat min) r)
    (if opt =? A_INFINITE_REPEAT then loop else copies (Z.to_nat opt) (ROpt minimize r)).

(** ** Expressions *)

Definition is_repeat (c : Z) : bool := (c =? 42) || (c =? 43) || (c =? 63) || (c =? 123).

(** What a parser has read: the tree, the rest of the pattern, the number of
    the next group, and the complete groups below 10 as a bit set. *)
Record progress := MkProgress { p_rest : list Z; p_groups : Z; p_complete : Z }.

Section parser.
Context (nocase : bool).

(** An item without parentheses: the tree, or a literal character that is not
    repeated. *)
Definition parse_atom (c : Z) (s : list Z) (complete : Z) : parsed ((re + Z) * list Z) :=
  if c =? 94 then POk (inl (RAssert AsBolMulti), drop 1 s)
  else if c =? 36 then POk (inl (RAssert AsEolMulti), drop 1 s)
  else if c =? 46 then
    '(min, opt, minimize, s) ← parse_repeat (drop 1 s); POk (inl (RChars CAny min opt minimize), s)
  else if c =? 91 then
    '(ws, s) ← parse_set nocase (drop 1 s);
    '(min, opt, minimize, s) ← parse_repeat s;
    POk (inl (RChars (CSet ws) min opt minimize), s)
  else if is_repeat c then PBad
  else
    '(e, s) ← parse_esc s;
    match e with
    | EscAssert a _ => POk (inl (RAssert a), s)
    | EscRef n =>
      if Z.testbit complete n then
        '(min, opt, minimize, s) ← parse_repeat s;
        POk (inl (repeated min opt minimize (RRef nocase n) (RRefLoop minimize nocase n)), s)
      else PBad
    | EscClass k complement =>
      '(min, opt, minimize, s) ← parse_repeat s;
      POk (inl (RChars (CSet (class_set nocase k complement)) min opt minimize), s)
    | EscChar ch =>
      let ch := if nocase then ALower ch else ch in
      match s with
      | d :: _ =>
        if is_repeat d then
          '(min, opt, minimize, s) ← parse_repeat s; POk (inl (RChars (CLit nocase ch) min opt minimize), s)
        else POk (inr ch, s)
      | [] => POk (inr ch, s)
      end
    end.

(** A group, behind its parenthesis; [alts] parses what is inside. *)
Definition parse_group (alts : progress -> parsed (re * progress)) (p : progress) : parsed (re * progress) :=
  match p_rest p with
  | [] => PBad
  | _ =>
    let n := p_groups p in
    '(r, p) ← alts (MkProgress (p_rest p) (n + 1) (p_complete p));
    match p_rest p with
    | c :: s =>
      if c =? 41 then
        '(min, opt, minimize, s) ← parse_repeat s;
        POk (repeated min opt minimize (RGroup n r) (RLoop minimize n r),
             MkProgress s (p_groups p) (if n <? 10 then Z.setbit (p_complete p) n else p_complete p))
      else PBad
    | [] => PBad
    end
  end.

(** [acc] and the run [lit] of literal characters have been read; [depth] is
    the number of enclosing alternatives. *)
Fixpoint parse_concat (fuel : nat) (depth : Z) (acc : re) (lit : list Z) (p : progress) : parsed (re * progress) :=
  match fuel with
  | O => PStuck
  | S fuel =>
    let done := cat acc (lit_re nocase lit) in
    match p_rest p with
    | [] => POk (done, p)
    | c :: s =>
      if c =? 40 then
        '(r, p) ← parse_group (parse_alternatives fuel depth) (MkProgress s (p_groups p) (p_complete p));
        parse_concat fuel depth (cat done r) [] p
      else if (c =? 41) || (c =? 124) then POk (done, p)
      else
        '(r, s) ← parse_atom c (c :: s) (p_complete p);
        let p := MkProgress s (p_groups p) (p_complete p) in
        match r with
        | inl r => parse_concat fuel depth (cat done r) [] p
        | inr ch => parse_concat fuel depth acc (lit ++ [ch]) p
        end
    end
  end
with parse_alternatives (fuel : nat) (depth : Z) (p : progress) : parsed (re * progress) :=
  match fuel with
  | O => PStuck
  | S fuel =>
    if A_MAX_NESTING_DEPTH <=? depth + 1 then PBad
    else
      '(r1, p) ← parse_concat fuel (depth + 1) REmpty [] p;
      match p_rest p with
      | c :: s =>
        if c =? 124 then
          '(r2, p) ← parse_alternatives fuel (depth + 1) (MkProgress s (p_groups p) (p_complete p));
          POk (RAlt r1 r2, p)
        else POk (r1, p)
      | [] => POk (r1, p)
      end
  end.

(** A whole pattern: the tree and the number of groups, with the match as group
    0. *)
Definition parse (pat : list Z) : parsed (re * Z) :=
  '(r, p) ← parse_alternatives (2 * length pat + 2) 0 (MkProgress pat 1 0);
  match p_rest p with [] => POk (r, p_groups p) | _ => PBad end.
End parser.
