(* ===== verification/ReBuffer.v ===== *)
(** * ReBuffer: the state of the compiler of regular expressions

    What the theorems about [ReComp] say of its state: [is_at v code s] - no
    error, the words [code] emitted, and the members [v]; [bad m s] - the pass
    ends in an error or in a fault.  An error, once set, stays.  Then the
    operations on the output buffer. *)

From S2P Require Import Prelude Runtime Digits Value IntConv StrOps StrTables ReDefs ReComp.

Open Scope Z_scope.

(** ** Views *)

(** The members that the results depend on. *)
Record View := MkView {
  v_str : Z;
  v_must : Z;
  v_paren : Z;
  v_flags : Z;
  v_min : Z;
  v_depth : Z;
  v_start : list Z
}.

Definition view (s : ParseInfo) : View :=
  MkView (strPos s) (mustStr s) (numParen s) (parenFlags s) (minLen s) (depth s) (startChar s).

Definition vw_str (i : Z) (v : View) : View :=
  MkView i (v_must v) (v_paren v) (v_flags v) (v_min v) (v_depth v) (v_start v).
Definition vw_must (m : Z) (v : View) : View :=
  MkView (v_str v) m (v_paren v) (v_flags v) (v_min v) (v_depth v) (v_start v).
Definition vw_paren (n f : Z) (v : View) : View :=
  MkView (v_str v) (v_must v) n f (v_min v) (v_depth v) (v_start v).
Definition vw_min (m : Z) (v : View) : View :=
  MkView (v_str v) (v_must v) (v_paren v) (v_flags v) m (v_depth v) (v_start v).
Definition vw_depth (d : Z) (v : View) : View :=
  MkView (v_str v) (v_must v) (v_paren v) (v_flags v) (v_min v) d (v_start v).
Definition vw_start (c : list Z) (v : View) : View :=
  MkView (v_str v) (v_must v) (v_paren v) (v_flags v) (v_min v) (v_depth v) c.

Definition word (w : Z) : Prop := 0 <= w < 65536.

Lemma u16_word w : word w -> u16 w = w.
Proof. apply Z.mod_small. Qed.

Lemma word_u16 w : word (u16 w).
Proof. unfold word, u16. zsolve. Qed.

(** The buffer starts with [code]. *)
Definition holds_code (o : OutBuf) (code : list Z) : Prop :=
  bufInd o = zlen code /\ 512 <= zlen (buf o) /\ Forall word code /\ exists rest, buf o = code ++ rest.

Record is_at (v : View) (code : list Z) (s : ParseInfo) : Prop := {
  at_error : isError s = false;
  at_out : holds_code (out s) code;
  at_must : 0 <= v_must v <= zlen code;
  at_view : view s = v
}.

Lemma is_at_len v code s : is_at v code s -> bufInd (out s) = zlen code.
Proof. intros H. apply (at_out _ _ _ H). Qed.

(** The members, read off the view. *)
Lemma is_at_view v code s : is_at v code s ->
  strPos s = v_str v /\ mustStr s = v_must v /\ numParen s = v_paren v /\ parenFlags s = v_flags v /\
  minLen s = v_min v /\ depth s = v_depth v /\ startChar s = v_start v.
Proof. intros H. rewrite <- (at_view _ _ _ H). done. Qed.

(** Binds nested to the left. *)
Lemma sspec_bind_flat {S A B C} (m : SM S A) (f : A -> SM S B) (g : B -> SM S C) s Q :
  sspec (m ≫= (fun a => f a ≫= g)) s Q -> sspec ((m ≫= f) ≫= g) s Q.
Proof.
  intros H t. specialize (H t). unfold mbind, SM_bind in *. by destruct (m s t) as [[[a|e|] s'] t'].
Qed.

(** ** Errors *)

Definition bad {A} (m : SM ParseInfo A) (s : ParseInfo) : Prop :=
  sspec m s (fun r s' => match r with Ok _ => isError s' = true | Raise _ => False | Fault => True end).

(** After an error nothing but an error or a fault can come. *)
Definition sticky {A} (m : SM ParseInfo A) : Prop := forall s, isError s = true -> bad m s.

Lemma bad_bind {A B} (m : SM ParseInfo A) (f : A -> SM ParseInfo B) s :
  bad m s -> (forall a, sticky (f a)) -> bad (m ≫= f) s.
Proof.
  intros Hm Hf t. destruct (Hm t) as [Hh Hr]. unfold mbind, SM_bind.
  destruct (m s t) as [[[a|e|] s'] t']; simpl in *.
  - destruct Hr as [He|[? _]]; [|done]. destruct (Hf a s' He t') as [Hh' Hr']. split; [congruence|].
    destruct Hr' as [?|[? Hs]]; [by left|]. right. split; [done|]. by rewrite (supplied_heap t t') in Hs.
  - destruct Hr as [[]|[? ?]]. split; [done|]. right. split; [congruence|done].
  - split; [done|]. by left.
Qed.

(** The rule for a first part that succeeds. *)
Lemma bad_after {A B} (m : SM ParseInfo A) (f : A -> SM ParseInfo B) s P :
  sreturns m s P -> (forall a s', P a s' -> bad (f a) s') -> bad (m ≫= f) s.
Proof. apply sspec_bind. Qed.

Lemma bad_get {A} (f : ParseInfo -> SM ParseInfo A) s : bad (f s) s -> bad (get ≫= f) s.
Proof. done. Qed.

Lemma bad_modify {A} g (f : unit -> SM ParseInfo A) s : bad (f tt) (g s) -> bad (modify g ≫= f) s.
Proof. done. Qed.

Lemma sticky_bind {A B} (m : SM ParseInfo A) (f : A -> SM ParseInfo B) :
  sticky m -> (forall a, sticky (f a)) -> sticky (m ≫= f).
Proof. intros Hm Hf s Hs. apply bad_bind; [by apply Hm|done]. Qed.

Lemma sticky_get {A} (f : ParseInfo -> SM ParseInfo A) : (forall s, sticky (f s)) -> sticky (get ≫= f).
Proof. intros Hf s Hs. by apply sspec_get_bind, Hf. Qed.

Lemma sticky_ret {A} (a : A) : sticky (mret a).
Proof. intros s Hs. by apply sspec_ret. Qed.

Lemma sticky_modify f : (forall s, isError s = true -> isError (f s) = true) -> sticky (modify f).
Proof. intros Hf s Hs t. split; [done|]. left. by apply Hf. Qed.

Lemma sticky_fault {A} : sticky (lift (fault (A := A))).
Proof. intros s Hs t. split; [done|]. by left. Qed.

Lemma sticky_alloc size : sticky (lift (AAlloc size)).
Proof.
  intros s Hs t. unfold lift, AAlloc. destruct (heap t (clock t) size) eqn:E; simpl.
  - auto.
  - split; [done|]. right. split; [done|]. intros H. by apply (H (clock t) size).
Qed.

Lemma sticky_char_at str i : sticky (lift (char_at str i)).
Proof. intros s Hs t. unfold char_at. destruct (_ && _); (split; [done|]; by left). Qed.

Lemma sticky_if {A} (b : bool) (m1 m2 : SM ParseInfo A) : sticky m1 -> sticky m2 -> sticky (if b then m1 else m2).
Proof. by destruct b. Qed.

Create HintDb sticky.
#[export] Hint Resolve sticky_ret sticky_fault sticky_alloc sticky_char_at : sticky.

(** Proves [sticky] of a function by going through its text. *)
Ltac sticks :=
  repeat (first
    [ progress intros
    | assumption
    | solve [auto 2 with sticky]
    | match goal with
      | |- sticky (get ≫= _) => apply sticky_get
      | |- sticky (_ ≫= _) => apply sticky_bind
      | |- sticky (if _ then _ else _) => apply sticky_if
      | |- sticky (let _ := _ in _) => cbv zeta
      | |- sticky (let '(_, _) := ?x in _) => destruct x
      | |- sticky (match ?x with _ => _ end) => destruct x
      | |- sticky (modify _) => apply sticky_modify
      | |- isError (if ?b then _ else _) = true => destruct b
      | |- isError (match ?x with _ => _ end) = true => destruct x
      | |- isError _ = true => progress simpl
      end ]).

Section sticky.
Context (strVal : StrObj) (flags : Z) (behind : storage).

Lemma set_str_sticky i : sticky (set_str i).
Proof. unfold set_str. sticks. Qed.
Lemma set_out_sticky o : sticky (set_out o).
Proof. unfold set_out. sticks. Qed.
Lemma AGenerateError_sticky : sticky AGenerateError.
Proof. unfold AGenerateError, set_error. sticks. Qed.
#[local] Hint Resolve set_str_sticky set_out_sticky AGenerateError_sticky : sticky.

Lemma cur_sticky : sticky (cur strVal).
Proof. unfold cur. sticks. Qed.
Lemma advance_sticky n : sticky (advance n).
Proof. unfold advance. sticks. Qed.
Lemma buf_get_sticky i : sticky (buf_get i).
Proof. unfold buf_get. sticks. Qed.
Lemma buf_put_sticky i w : sticky (buf_put i w).
Proof. unfold buf_put. sticks. Qed.
Lemma set_bufInd_sticky n : sticky (set_bufInd n).
Proof. unfold set_bufInd. sticks. Qed.
Lemma GrowOutputBuffer_sticky : sticky (GrowOutputBuffer behind).
Proof. unfold GrowOutputBuffer. sticks. Qed.
#[local] Hint Resolve cur_sticky advance_sticky buf_get_sticky buf_put_sticky set_bufInd_sticky GrowOutputBuffer_sticky : sticky.

Lemma Emit_sticky w : sticky (Emit behind w).
Proof. unfold Emit. sticks. Qed.
Lemma insert_loop_sticky n dest pos i : sticky (insert_loop behind n dest pos i).
Proof. revert i. induction n as [|n IH]; intros i; cbn [insert_loop]; sticks. Qed.
#[local] Hint Resolve Emit_sticky insert_loop_sticky : sticky.
Lemma Insert_sticky pos len : sticky (Insert behind pos len).
Proof. unfold Insert. sticks. Qed.
#[local] Hint Resolve Insert_sticky : sticky.
Lemma EmitBranchAt_sticky pos code dest : sticky (EmitBranchAt behind pos code dest).
Proof. unfold EmitBranchAt. sticks. Qed.
Lemma Unemit_sticky n : sticky (Unemit n).
Proof. unfold Unemit. sticks. Qed.
Lemma Copy_sticky pos len : sticky (Copy behind pos len).
Proof. unfold Copy. sticks. Qed.
#[local] Hint Resolve EmitBranchAt_sticky Unemit_sticky Copy_sticky : sticky.
Lemma EmitBranch_sticky code dest : sticky (EmitBranch behind code dest).
Proof. unfold EmitBranch. sticks. Qed.
#[local] Hint Resolve EmitBranch_sticky : sticky.
Lemma reserve_sticky n len : sticky (reserve behind n len).
Proof. induction n; cbn [reserve]; sticks. Qed.
Lemma put_words_sticky ws : sticky (put_words ws).
Proof. induction ws; cbn [put_words]; sticks. Qed.
Lemma emit_ranges_sticky rs : sticky (emit_ranges behind rs).
Proof. induction rs as [|[lo hi] rs]; cbn [emit_ranges]; sticks. Qed.
#[local] Hint Resolve reserve_sticky put_words_sticky emit_ranges_sticky : sticky.
Lemma EmitCharSet_sticky set ranges complement fl : sticky (EmitCharSet flags behind set ranges complement fl).
Proof. unfold EmitCharSet. sticks. Qed.
Lemma AddStartSet_sticky set complement : sticky (AddStartSet set complement).
Proof. unfold AddStartSet. sticks. Qed.
Lemma GetHexDigit_sticky : sticky (GetHexDigit strVal).
Proof. unfold GetHexDigit. sticks. Qed.
Lemma octal_digit_sticky n next : (forall i, sticky (next i)) -> sticky (octal_digit strVal n next).
Proof. intros Hn. unfold octal_digit. sticks. Qed.
#[local] Hint Resolve EmitCharSet_sticky AddStartSet_sticky GetHexDigit_sticky : sticky.
Lemma escaped_digit_sticky c : sticky (escaped_digit strVal flags c).
Proof. unfold escaped_digit. sticks. all: try (apply octal_digit_sticky; sticks); try (apply octal_digit_sticky; sticks). Qed.
#[local] Hint Resolve escaped_digit_sticky : sticky.
Lemma ParseChar_sticky : sticky (ParseChar strVal flags).
Proof. unfold ParseChar. sticks. Qed.
Lemma range_digits_sticky n lim acc : sticky (range_digits strVal n lim acc).
Proof. revert acc. induction n as [|n IH]; intros acc; cbn [range_digits]; sticks. Qed.
#[local] Hint Resolve ParseChar_sticky range_digits_sticky : sticky.
Lemma range_opt_sticky min : sticky (range_opt strVal min).
Proof. unfold range_opt. sticks. Qed.
#[local] Hint Resolve range_opt_sticky : sticky.
Lemma ParseRange_sticky : sticky (ParseRange strVal).
Proof. unfold ParseRange. sticks. Qed.
#[local] Hint Resolve ParseRange_sticky : sticky.
Lemma ParseRepeatType_sticky : sticky (ParseRepeatType strVal).
Proof. unfold ParseRepeatType. sticks. Qed.
#[local] Hint Resolve ParseRepeatType_sticky : sticky.
Lemma ParseSimpleRepetition_sticky code : sticky (ParseSimpleRepetition strVal behind code).
Proof. unfold ParseSimpleRepetition. sticks. Qed.
Lemma copy_loop_sticky n size : sticky (copy_loop behind n size).
Proof. induction n as [|n IH]; cbn [copy_loop]; sticks. Qed.
Lemma opt_loop_sticky n size minimize : sticky (opt_loop behind n size minimize).
Proof. induction n as [|n IH]; cbn [opt_loop]; sticks. Qed.
#[local] Hint Resolve ParseSimpleRepetition_sticky copy_loop_sticky opt_loop_sticky : sticky.
Lemma ParseRepetition_sticky a b c d e : sticky (ParseRepetition strVal behind a b c d e).
Proof. unfold ParseRepetition. sticks. Qed.
#[local] Hint Resolve ParseRepetition_sticky : sticky.
Lemma AddToWideSet_sticky set lo hi : sticky (lift (AddToWideSet set lo hi)).
Proof.
  intros s Hs t. unfold lift, AddToWideSet. destruct (_ || _); [split; [done|]; by left|].
  destruct (_ =? _); [destruct (_ =? _)|]; unfold mbind, M_bind, mret, M_ret, AAlloc;
    try destruct (heap t (clock t) _) eqn:E; simpl; (split; [done|]; (left; done) || (right; split; [done|]; intros H; by apply (H _ _ E))).
Qed.
#[local] Hint Resolve AddToWideSet_sticky : sticky.
Lemma set_item_sticky ch code st : sticky (set_item strVal flags ch code st).
Proof. unfold set_item. sticks. Qed.
#[local] Hint Resolve set_item_sticky : sticky.
Lemma set_loop_sticky n st : sticky (set_loop strVal flags n st).
Proof. revert st. induction n as [|n IH]; intros st; cbn [set_loop]; sticks. Qed.
#[local] Hint Resolve set_loop_sticky : sticky.
Lemma parse_class_sticky : sticky (parse_class strVal flags behind).
Proof. unfold parse_class. sticks. Qed.
Lemma escaped_class_sticky code : sticky (escaped_class strVal flags behind code).
Proof. unfold escaped_class. sticks. Qed.
Lemma back_reference_sticky ch : sticky (back_reference strVal behind ch).
Proof. unfold back_reference. sticks. Qed.
Lemma literal_char_sticky code ch n : sticky (literal_char behind code ch n).
Proof. unfold literal_char. sticks. Qed.
#[local] Hint Resolve parse_class_sticky escaped_class_sticky back_reference_sticky literal_char_sticky : sticky.
Lemma parse_default_sticky n : sticky (parse_default strVal flags behind n).
Proof. unfold parse_default. sticks. Qed.
#[local] Hint Resolve parse_default_sticky : sticky.
Lemma parse_item_sticky c n : sticky (parse_item strVal flags behind c n).
Proof. unfold parse_item. sticks. Qed.
Lemma ParseParen_sticky alts : sticky alts -> sticky (ParseParen strVal behind alts).
Proof. intros Ha. unfold ParseParen. sticks. Qed.
#[local] Hint Resolve parse_item_sticky ParseParen_sticky : sticky.

Lemma ParseAlternatives_sticky fuel :
  sticky (ParseAlternatives strVal flags behind fuel) /\ forall n b, sticky (ParseConcat strVal flags behind fuel n b).
Proof.
  induction fuel as [|fuel [IHa IHc]]; [split; intros; apply sticky_fault|].
  split; intros; cbn [ParseConcat ParseAlternatives]; sticks.
Qed.
End sticky.

#[export] Hint Resolve set_str_sticky set_out_sticky AGenerateError_sticky cur_sticky advance_sticky Emit_sticky
  EmitBranchAt_sticky Unemit_sticky Copy_sticky EmitBranch_sticky EmitCharSet_sticky AddStartSet_sticky
  ParseChar_sticky ParseRange_sticky ParseRepeatType_sticky ParseSimpleRepetition_sticky copy_loop_sticky
  opt_loop_sticky ParseRepetition_sticky AddToWideSet_sticky set_item_sticky set_loop_sticky parse_class_sticky
  escaped_class_sticky back_reference_sticky literal_char_sticky parse_default_sticky parse_item_sticky
  ParseParen_sticky buf_get_sticky buf_put_sticky range_digits_sticky range_opt_sticky GetHexDigit_sticky
  escaped_digit_sticky : sticky.
