(* ===== verification/ReBlind.v ===== *)
(** * ReBlind: a recorded error changes nothing but itself

    No function of the compiler of regular expressions reads [isError]: after
    an error the pass does what it would have done without one.  Hence what is
    proved of a function on a state without an error holds on the state with
    one, and a pass over a pattern that is rejected can be followed to its
    end.  [safe m s Q]: from [s], whether or not an error has been recorded,
    [m] returns, with [Q] of the state but for the error. *)

From S2P Require Import Prelude Runtime Digits Value IntConv StrOps StrTables ReDefs ReComp.
From S2P Require Import ReBuffer.

Open Scope Z_scope.

(** ** Blind functions *)

Definition blind {A} (m : SM ParseInfo A) : Prop :=
  forall s t, m (up_error s) t = let '(r, s', t') := m s t in (r, up_error s', t').

Lemma blind_ret {A} (a : A) : blind (mret a).
Proof. done. Qed.

Lemma blind_lift {A} (m : M A) : blind (lift m).
Proof. intros s t. unfold lift. by destruct (m t) as [r t']. Qed.

Lemma blind_bind {A B} (m : SM ParseInfo A) (f : A -> SM ParseInfo B) : blind m -> (forall a, blind (f a)) -> blind (m ≫= f).
Proof.
  intros Hm Hf s t. unfold mbind, SM_bind. rewrite Hm. destruct (m s t) as [[[a|e|] s'] t']; [apply Hf|done..].
Qed.

Lemma blind_get {A} (f : ParseInfo -> SM ParseInfo A) :
  (forall s, f (up_error s) = f s) -> (forall s, blind (f s)) -> blind (get ≫= f).
Proof. intros He Hf s t. change (f (up_error s) (up_error s) t = let '(r, s', t') := f s s t in (r, up_error s', t')). rewrite He. apply Hf. Qed.

Lemma blind_modify g : (forall s, g (up_error s) = up_error (g s)) -> blind (modify g).
Proof. intros Hg s t. unfold modify. by rewrite Hg. Qed.

Lemma blind_if {A} (b : bool) (m1 m2 : SM ParseInfo A) : blind m1 -> blind m2 -> blind (if b then m1 else m2).
Proof. by destruct b. Qed.

Create HintDb blind.
#[export] Hint Resolve blind_ret blind_lift : blind.

(** Proves [blind] of a function by going through its text. *)
Ltac blinds :=
  repeat (first
    [ progress intros
    | assumption
    | solve [auto 2 with blind]
    | match goal with
      | |- blind (get ≫= _) => apply blind_get; [intros; reflexivity|]
      | |- blind (_ ≫= _) => apply blind_bind
      | |- blind (if _ then _ else _) => apply blind_if
      | |- blind (let _ := _ in _) => cbv zeta
      | |- blind (let '(_, _) := ?x in _) => destruct x
      | |- blind (match ?x with _ => _ end) => destruct x
      | |- blind (modify _) => apply blind_modify; intros; cbn [minLen maxLen mustStr up_error]; try reflexivity
      | |- (if ?b then _ else _) = _ => destruct b; reflexivity
      end ]).

Section blind.
Context (strVal : StrObj) (flags : Z) (behind : storage).

Lemma set_str_blind i : blind (set_str i).
Proof. unfold set_str. blinds. Qed.
Lemma set_out_blind o : blind (set_out o).
Proof. unfold set_out. blinds. Qed.
Lemma AGenerateError_blind : blind AGenerateError.
Proof. unfold AGenerateError, set_error. blinds. Qed.
#[local] Hint Resolve set_str_blind set_out_blind AGenerateError_blind : blind.

Lemma cur_blind : blind (cur strVal).
Proof. unfold cur. blinds. Qed.
Lemma advance_blind n : blind (advance n).
Proof. unfold advance. blinds. Qed.
Lemma buf_get_blind i : blind (buf_get i).
Proof. unfold buf_get. blinds. Qed.
Lemma buf_put_blind i w : blind (buf_put i w).
Proof. unfold buf_put. blinds. Qed.
Lemma set_bufInd_blind n : blind (set_bufInd n).
Proof. unfold set_bufInd. blinds. Qed.
Lemma GrowOutputBuffer_blind : blind (GrowOutputBuffer behind).
Proof. unfold GrowOutputBuffer. blinds. Qed.
#[local] Hint Resolve cur_blind advance_blind buf_get_blind buf_put_blind set_bufInd_blind GrowOutputBuffer_blind : blind.

Lemma Emit_blind w : blind (Emit behind w).
Proof. unfold Emit. blinds. Qed.
Lemma insert_loop_blind n dest pos i : blind (insert_loop behind n dest pos i).
Proof. revert i. induction n as [|n IH]; intros i; cbn [insert_loop]; blinds. Qed.
#[local] Hint Resolve Emit_blind insert_loop_blind : blind.
Lemma Insert_blind pos len : blind (Insert behind pos len).
Proof. unfold Insert. blinds. Qed.
#[local] Hint Resolve Insert_blind : blind.
Lemma EmitBranchAt_blind pos code dest : blind (EmitBranchAt behind pos code dest).
Proof. unfold EmitBranchAt. blinds. Qed.
Lemma Unemit_blind n : blind (Unemit n).
Proof. unfold Unemit. blinds. Qed.
Lemma Copy_blind pos len : blind (Copy behind pos len).
Proof. unfold Copy. blinds. Qed.
#[local] Hint Resolve EmitBranchAt_blind Unemit_blind Copy_blind : blind.
Lemma EmitBranch_blind code dest : blind (EmitBranch behind code dest).
Proof. unfold EmitBranch. blinds. Qed.
Lemma reserve_blind n len : blind (reserve behind n len).
Proof. induction n; cbn [reserve]; blinds. Qed.
Lemma put_words_blind ws : blind (put_words ws).
Proof. induction ws; cbn [put_words]; blinds. Qed.
Lemma emit_ranges_blind rs : blind (emit_ranges behind rs).
Proof. induction rs as [|[lo hi] rs]; cbn [emit_ranges]; blinds. Qed.
#[local] Hint Resolve EmitBranch_blind reserve_blind put_words_blind emit_ranges_blind : blind.
Lemma EmitCharSet_blind set ranges complement fl : blind (EmitCharSet flags behind set ranges complement fl).
Proof. unfold EmitCharSet. blinds. Qed.
Lemma AddStartSet_blind set complement : blind (AddStartSet set complement).
Proof. unfold AddStartSet. blinds. Qed.
Lemma GetHexDigit_blind : blind (GetHexDigit strVal).
Proof. unfold GetHexDigit. blinds. Qed.
Lemma octal_digit_blind n next : (forall i, blind (next i)) -> blind (octal_digit strVal n next).
Proof. intros Hn. unfold octal_digit. blinds. Qed.
#[local] Hint Resolve EmitCharSet_blind AddStartSet_blind GetHexDigit_blind : blind.
Lemma escaped_digit_blind c : blind (escaped_digit strVal flags c).
Proof. unfold escaped_digit. blinds. apply octal_digit_blind. intros. apply octal_digit_blind. blinds. Qed.
#[local] Hint Resolve escaped_digit_blind : blind.
Lemma ParseChar_blind : blind (ParseChar strVal flags).
Proof. unfold ParseChar. blinds. Qed.
Lemma range_digits_blind n lim acc : blind (range_digits strVal n lim acc).
Proof. revert acc. induction n as [|n IH]; intros acc; cbn [range_digits]; blinds. Qed.
#[local] Hint Resolve ParseChar_blind range_digits_blind : blind.
Lemma range_opt_blind min : blind (range_opt strVal min).
Proof. unfold range_opt. blinds. Qed.
#[local] Hint Resolve range_opt_blind : blind.
Lemma ParseRange_blind : blind (ParseRange strVal).
Proof. unfold ParseRange. blinds. Qed.
#[local] Hint Resolve ParseRange_blind : blind.
Lemma ParseRepeatType_blind : blind (ParseRepeatType strVal).
Proof. unfold ParseRepeatType. blinds. Qed.
#[local] Hint Resolve ParseRepeatType_blind : blind.
Lemma ParseSimpleRepetition_blind code : blind (ParseSimpleRepetition strVal behind code).
Proof. unfold ParseSimpleRepetition. blinds. Qed.
Lemma copy_loop_blind n size : blind (copy_loop behind n size).
Proof. induction n as [|n IH]; cbn [copy_loop]; blinds. Qed.
Lemma opt_loop_blind n size minimize : blind (opt_loop behind n size minimize).
Proof. induction n as [|n IH]; cbn [opt_loop]; blinds. Qed.
#[local] Hint Resolve ParseSimpleRepetition_blind copy_loop_blind opt_loop_blind : blind.
Lemma ParseRepetition_blind a b c d e : blind (ParseRepetition strVal behind a b c d e).
Proof. unfold ParseRepetition. blinds. Qed.
#[local] Hint Resolve ParseRepetition_blind : blind.
Lemma set_item_blind ch code st : blind (set_item strVal flags ch code st).
Proof. unfold set_item. blinds. Qed.
#[local] Hint Resolve set_item_blind : blind.
Lemma set_loop_blind n st : blind (set_loop strVal flags n st).
Proof. revert st. induction n as [|n IH]; intros st; cbn [set_loop]; blinds. Qed.
#[local] Hint Resolve set_loop_blind : blind.
Lemma parse_class_blind : blind (parse_class strVal flags behind).
Proof. unfold parse_class. blinds. Qed.
Lemma escaped_class_blind code : blind (escaped_class strVal flags behind code).
Proof. unfold escaped_class. blinds. Qed.
Lemma back_reference_blind ch : blind (back_reference strVal behind ch).
Proof. unfold back_reference. blinds. Qed.
Lemma literal_char_blind code ch n : blind (literal_char behind code ch n).
Proof. unfold literal_char. blinds. Qed.
#[local] Hint Resolve parse_class_blind escaped_class_blind back_reference_blind literal_char_blind : blind.
Lemma parse_default_blind n : blind (parse_default strVal flags behind n).
Proof. unfold parse_default. blinds. Qed.
#[local] Hint Resolve parse_default_blind : blind.
Lemma parse_item_blind c n : blind (parse_item strVal flags behind c n).
Proof. unfold parse_item. blinds. Qed.
End blind.

#[export] Hint Resolve set_str_blind set_out_blind AGenerateError_blind cur_blind advance_blind Emit_blind EmitBranchAt_blind
  ParseChar_blind ParseRepeatType_blind ParseSimpleRepetition_blind ParseRepetition_blind escaped_class_blind
  back_reference_blind literal_char_blind parse_default_blind parse_item_blind : blind.

(** ** Passes that return *)

(** A state without its error. *)
Definition clear (s : ParseInfo) : ParseInfo :=
  MkParse false (strPos s) (mustStr s) (mustStrBack s) (out s) (numParen s) (parenFlags s) (minLen s) (maxLen s) (depth s) (startChar s).

Lemma clear_id s : isError s = false -> clear s = s.
Proof. by destruct s; intros [= ->]. Qed.

Lemma clear_cases s0 s : clear s0 = s -> s0 = s \/ s0 = up_error s.
Proof. intros <-. destruct s0 as [[]]; [by right|by left]. Qed.

Definition safe {A} (m : SM ParseInfo A) (s : ParseInfo) (Q : A -> ParseInfo -> Prop) : Prop :=
  forall s0, clear s0 = s -> sreturns m s0 (fun a s' => Q a (clear s')).

Lemma safe_mono {A} (m : SM ParseInfo A) s (Q Q' : A -> ParseInfo -> Prop) :
  safe m s Q -> (forall a s', Q a s' -> Q' a s') -> safe m s Q'.
Proof. intros H HQ s0 Hs. eapply sreturns_mono; [by apply H|]. intros; by apply HQ. Qed.

Lemma safe_bind {A B} (m : SM ParseInfo A) (f : A -> SM ParseInfo B) s P Q :
  safe m s P -> (forall a s', P a s' -> safe (f a) s' Q) -> safe (m ≫= f) s Q.
Proof. intros Hm Hf s0 Hs. eapply sreturns_bind; [by apply Hm|]. intros a s' HP. exact (Hf a (clear s') HP s' eq_refl). Qed.

Lemma safe_ret {A} (a : A) s (Q : A -> ParseInfo -> Prop) : Q a s -> safe (mret a) s Q.
Proof. intros HQ s0 <-. by apply sreturns_ret. Qed.

Lemma safe_get {A} (f : ParseInfo -> SM ParseInfo A) s Q : f (up_error s) = f s -> safe (f s) s Q -> safe (get ≫= f) s Q.
Proof. intros He Hf s0 Hs. apply sreturns_get_bind. pose proof (Hf s0 Hs) as H. apply clear_cases in Hs as [-> | ->]; [done|by rewrite He]. Qed.

Lemma safe_modify {A} g (f : unit -> SM ParseInfo A) s Q :
  (forall s, clear (g s) = g (clear s)) -> safe (f tt) (g s) Q -> safe (modify g ≫= f) s Q.
Proof. intros Hg Hf s0 <-. apply sreturns_modify_bind. apply Hf. by rewrite Hg. Qed.

Lemma safe_modify_end g s (Q : unit -> ParseInfo -> Prop) : (forall s, clear (g s) = g (clear s)) -> Q tt (g s) -> safe (modify g) s Q.
Proof. intros Hg HQ s0 <-. apply sreturns_modify. by rewrite Hg. Qed.

(** An error that is recorded. *)
Lemma safe_error s (Q : unit -> ParseInfo -> Prop) : Q tt s -> safe AGenerateError s Q.
Proof. intros HQ s0 <-. by apply sreturns_modify. Qed.

(** What is proved of a blind function where there is no error. *)
Lemma safe_blind {A} (m : SM ParseInfo A) s (P : A -> ParseInfo -> Prop) :
  blind m -> sreturns m s P -> safe m s (fun a s' => exists s1, P a s1 /\ s' = clear s1).
Proof.
  intros Hb Hm s0 Hs t. destruct (Hm t) as [Hh H].
  assert (E : m s0 t = m s t \/ m s0 t = let '(r, s', t') := m s t in (r, up_error s', t'))
    by (apply clear_cases in Hs as [-> | ->]; [by left|right; apply Hb]).
  destruct (m s t) as [[[a|e|] s'] t']; cbn [fst snd] in *; destruct E as [-> | ->]; cbn [fst snd]; (split; [exact Hh|]);
    destruct H as [H|[H ?]]; try done; try (right; by split); left; by exists s'.
Qed.

(** The same with a specification that excludes errors. *)
Lemma safe_clear {A} (m : SM ParseInfo A) s (P : A -> ParseInfo -> Prop) :
  blind m -> sreturns m s P -> (forall a s', P a s' -> isError s' = false) -> safe m s P.
Proof. intros Hb Hm HP. eapply safe_mono; [by apply safe_blind|]. intros a ? (s1 & H & ->). rewrite clear_id; [exact H|exact (HP _ _ H)]. Qed.
