(* ===== verification/ReEmit.v ===== *)
(** * ReEmit: the output buffer of the compiler of regular expressions

    [Emit], [Insert], [Copy] and what is built of them append, insert and
    repeat words of the code, whether or not the buffer has to grow. *)

From S2P Require Import Prelude Runtime Digits Value IntConv StrOps StrTables ReDefs ReComp.
From S2P Require Import ReBuffer.

Open Scope Z_scope.

(** ** Assignments *)

Lemma is_at_str v code s i : is_at v code s -> is_at (vw_str i v) code (up_str i s).
Proof. intros [He Ho Hm <-]. by split. Qed.

Lemma is_at_must v code s m b : is_at v code s -> 0 <= m <= zlen code -> is_at (vw_must m v) code (up_must m b s).
Proof. intros [He Ho Hm <-] ?. by split. Qed.

Lemma is_at_paren v code s n f : is_at v code s -> is_at (vw_paren n f v) code (up_paren n f s).
Proof. intros [He Ho Hm <-]. by split. Qed.

Lemma is_at_min v code s n x : is_at v code s -> is_at (vw_min n v) code (up_len n x s).
Proof. intros [He Ho Hm <-]. by split. Qed.

Lemma is_at_depth v code s d : is_at v code s -> is_at (vw_depth d v) code (up_depth d s).
Proof. intros [He Ho Hm <-]. by split. Qed.

Lemma is_at_start v code s c : is_at v code s -> is_at (vw_start c v) code (up_start c s).
Proof. intros [He Ho Hm <-]. by split. Qed.

Lemma is_at_out v code code' s o :
  is_at v code s -> holds_code o code' -> 0 <= v_must v <= zlen code' -> is_at v code' (up_out o s).
Proof. intros [He _ _ <-] Ho Hm. by split. Qed.

(** [lia] for the lengths of lists put together. *)
Ltac zl := repeat (rewrite ?length_app in *; cbn [length] in *); lia.

Lemma is_at_new v code s o :
  isError s = false -> view s = v -> holds_code o code -> 0 <= v_must v <= zlen code -> is_at v code (up_out o s).
Proof. intros He <- Ho Hm. by split. Qed.

Lemma up_out_out s : up_out (out s) s = s.
Proof. by destruct s. Qed.

Lemma up_out_twice o o' s : up_out o (up_out o' s) = up_out o s.
Proof. done. Qed.

Lemma vw_must_id v : vw_must (v_must v) v = v.
Proof. by destruct v. Qed.

Lemma dg_code_app (a b : list Z) i : 0 <= i < zlen a -> dg (a ++ b) i = dg a i.
Proof. intros Hi. unfold dg. apply app_nth1. lia. Qed.

Lemma upd_app_l (a b : list Z) i x : 0 <= i < zlen a -> upd (a ++ b) i x = upd a i x ++ b.
Proof. intros Hi. unfold upd. apply insert_app_l. lia. Qed.

(** ** Single words *)

Section emit.
Context (behind : storage).

Lemma buf_get_spec s i Q :
  0 <= i < zlen (buf (out s)) -> Q (dg (buf (out s)) i) s -> sreturns (buf_get i) s Q.
Proof.
  intros Hi HQ. unfold buf_get. apply sreturns_get_bind. rewrite in_bounds by lia. by apply sreturns_ret.
Qed.

Lemma buf_put_spec s i w :
  0 <= i < zlen (buf (out s)) ->
  sreturns (buf_put i w) s (fun _ s' => s' = up_out (MkOut (upd (buf (out s)) i (u16 w)) (bufInd (out s))) s).
Proof.
  intros Hi. unfold buf_put. apply sreturns_get_bind. rewrite in_bounds by lia. by apply sreturns_modify.
Qed.

(** Words of the code. *)
Lemma code_get v code s i :
  is_at v code s -> 0 <= i < zlen code -> sreturns (buf_get i) s (fun w s' => w = dg code i /\ s' = s).
Proof.
  intros Hs Hi. destruct (at_out _ _ _ Hs) as (_ & _ & _ & rest & Hb). apply buf_get_spec; rewrite Hb.
  - rewrite length_app. lia.
  - split; [|done]. by apply dg_code_app.
Qed.

Lemma code_put v code s i w :
  is_at v code s -> 0 <= i < zlen code -> word w -> sreturns (buf_put i w) s (fun _ => is_at v (upd code i w)).
Proof.
  intros Hs Hi Hw. destruct (at_out _ _ _ Hs) as (Hn & Hl & Hc & rest & Hb).
  eapply sreturns_mono; [apply buf_put_spec|]; rewrite Hb.
  - rewrite length_app. lia.
  - intros _ s' ->. rewrite upd_app_l, u16_word by done. eapply is_at_out; [done| |rewrite zlen_upd; apply Hs].
    split; [by rewrite zlen_upd|]. cbn [buf bufInd]. rewrite length_app in *. split_and!; [|by apply Forall_insert|by exists rest].
    rewrite Hb, length_app in Hl. unfold upd. rewrite length_insert. lia.
Qed.

(** ** Growing *)

Lemma grown_prefix (f : nat -> Z) (code : list Z) n :
  (length code <= n)%nat -> (forall i, (i < length code)%nat -> f i = dg code (Z.of_nat i)) ->
  f <$> seq 0 n = code ++ (f <$> seq (length code) (n - length code)).
Proof.
  intros Hn Hf. replace n with (length code + (n - length code))%nat at 1 by lia. rewrite seq_app, fmap_app. f_equal.
  apply list_eq. intros i. rewrite list_lookup_fmap. destruct (decide (i < length code)%nat).
  - destruct (lookup_lt_is_Some_2 code i) as [x Hx]; [lia|]. rewrite lookup_seq_lt by lia. simpl.
    rewrite Hf, Hx by done. unfold dg. by rewrite Nat2Z.id, nth_lookup, Hx.
  - rewrite !lookup_ge_None_2; rewrite ?length_seq; [done|lia|lia].
Qed.

(** [code] is what the buffer has to keep. *)
Lemma GrowOutputBuffer_spec s code rest :
  buf (out s) = code ++ rest -> zlen code <= bufInd (out s) <= 2 * zlen (buf (out s)) ->
  sreturns (GrowOutputBuffer behind) s (fun _ s' => exists rest',
    s' = up_out (MkOut (code ++ rest') (bufInd (out s))) s /\ zlen (code ++ rest') = 2 * zlen (buf (out s))).
Proof.
  intros Hb Hn. unfold GrowOutputBuffer. apply sreturns_get_bind. cbv zeta.
  eapply sreturns_lift_bind; [apply AAlloc_spec|]. intros junk _. test (zlen (buf (out s)) * 2 <? bufInd (out s)) false.
  apply sreturns_modify.
  assert (Hl : (length code <= Z.to_nat (zlen (buf (out s)) * 2))%nat) by (rewrite Hb, length_app in *; lia).
  rewrite (grown_prefix _ code).
  - eexists. split; [done|]. rewrite length_app, length_fmap, length_seq. lia.
  - done.
  - intros i Hi. cbv beta zeta. test (Z.of_nat i <? bufInd (out s)) true.
    assert (Z.of_nat i < zlen (buf (out s))) by (rewrite Hb, length_app; lia).
    test (Z.of_nat i <? zlen (buf (out s))) true. rewrite Hb. apply dg_code_app. lia.
Qed.

(** The buffer grows if [c] says that there is no room for [need] words. *)
Lemma grow_if s code rest (c : bool) need :
  buf (out s) = code ++ rest -> zlen code <= bufInd (out s) <= 2 * zlen (buf (out s)) ->
  (c = false -> need <= zlen (buf (out s))) -> need <= 2 * zlen (buf (out s)) ->
  sreturns (if c then GrowOutputBuffer behind else mret tt) s (fun _ s' => exists rest',
    s' = up_out (MkOut (code ++ rest') (bufInd (out s))) s /\
    need <= zlen (code ++ rest') /\ zlen (buf (out s)) <= zlen (code ++ rest')).
Proof.
  intros Hb Hn Hc Hneed. destruct c.
  - eapply sreturns_mono; [by eapply GrowOutputBuffer_spec|]. intros _ s' (rest' & -> & Hl). exists rest'. split_and!; (done || lia).
  - apply sreturns_ret. exists rest. rewrite <- Hb. split; [|split; [by apply Hc|lia]].
    symmetry. destruct s as [? ? ? ? [? ?]]. done.
Qed.

Lemma Emit_spec v code s w :
  is_at v code s -> sreturns (Emit behind w) s (fun _ => is_at v (code ++ [u16 w])).
Proof.
  intros Hs. destruct (at_out _ _ _ Hs) as (Hn & Hl & Hc & rest & Hb). unfold Emit. apply sreturns_get_bind.
  assert (Hle : zlen code <= zlen (buf (out s))) by (rewrite Hb, length_app; lia).
  eapply sreturns_bind.
  { apply (grow_if s code rest _ (zlen code + 1)); [done|lia| |lia].
    intros Hne%Z.eqb_neq. rewrite Hb, length_app in *. lia. }
  intros _ s' (rest' & -> & Hroom & Hge). destruct rest' as [|x rest']; [rewrite app_nil_r in Hroom; lia|].
  eapply sreturns_bind.
  { apply buf_put_spec. cbn [out up_out buf]. lia. }
  cbn [out up_out buf bufInd]. intros _ s' ->. rewrite Hn, upd_at. unfold set_bufInd. apply sreturns_get_bind, sreturns_modify.
  rewrite !up_out_twice. cbn [buf out up_out].
  destruct (at_must _ _ _ Hs). eapply is_at_out; [done| |rewrite length_app; simpl; lia].
  split; [cbn [bufInd]; rewrite length_app; simpl; lia|]. cbn [buf out up_out]. split_and!.
  - rewrite length_app in Hge |- *. simpl in *. lia.
  - apply Forall_app. split; [done|]. constructor; [apply word_u16|constructor].
  - exists rest'. by rewrite <- app_assoc.
Qed.
(** ** Inserting words *)

(** The loop moves [c2] two words up; [k] and [k2] are the words it overwrites
    next. *)
Lemma insert_loop_spec c2 c1 k k2 tail s n :
  Forall word c2 -> buf (out s) = c1 ++ c2 ++ k :: k2 :: tail -> n = S (length c2) ->
  sreturns (insert_loop behind n (zlen c1 + 2) (zlen c1) (zlen c2)) s (fun _ s' => exists x y,
    s' = up_out (MkOut (c1 ++ x :: y :: c2 ++ tail) (bufInd (out s))) s).
Proof.
  revert k k2 tail s n. induction c2 as [|w c2 IH] using rev_ind; intros k k2 tail s n Hc Hb ->; cbn [insert_loop].
  - eapply (sreturns_bind _ _ _ (fun _ s' => s' = s)).
    { destruct (Z.eqb_spec (zlen c1 + (zlen (@nil Z) - 1)) (-1)); [by apply sreturns_ret|].
      apply buf_get_spec; [|done]. rewrite Hb, length_app. simpl in *. lia. }
    intros w s' ->. simpl zlen. eapply sreturns_bind; [apply buf_put_spec; rewrite Hb, length_app; simpl; lia|].
    intros _ s' ->. apply sreturns_ret. exists k, (u16 w). f_equal. f_equal. rewrite Hb. cbn [app].
    replace (zlen c1 + 2 + (Z.of_nat 0 - 1)) with (zlen (c1 ++ [k])) by (rewrite length_app; simpl; lia).
    replace (c1 ++ k :: k2 :: tail) with ((c1 ++ [k]) ++ k2 :: tail) by (by rewrite <- app_assoc).
    rewrite upd_at. by rewrite <- app_assoc.
  - apply Forall_app in Hc as [Hc Hw]. inversion Hw as [|? ? Hw0 _]; subst.
    replace (zlen (c2 ++ [w]) - 1) with (zlen c2) by (rewrite length_app; simpl; lia).
    destruct (Z.eqb_spec (zlen c1 + zlen c2) (-1)); [lia|].
    assert (Hb1 : buf (out s) = (c1 ++ c2) ++ w :: k :: k2 :: tail) by (rewrite Hb; by rewrite <- !app_assoc).
    assert (Hb2 : buf (out s) = (c1 ++ c2 ++ [w; k]) ++ k2 :: tail) by (rewrite Hb; by rewrite <- !app_assoc).
    eapply (sreturns_bind _ _ _ (fun v s' => v = w /\ s' = s)).
    { apply buf_get_spec; rewrite Hb1; [rewrite length_app; simpl; rewrite length_app; lia|]. split; [|done].
      replace (zlen c1 + zlen c2) with (zlen (c1 ++ c2)) by (rewrite length_app; lia). apply dg_at. }
    intros v s' [-> ->]. eapply sreturns_bind.
    { apply buf_put_spec. rewrite Hb2, !length_app. simpl. lia. }
    intros _ s' ->. rewrite Hb2. replace (zlen c1 + 2 + zlen c2) with (zlen (c1 ++ c2 ++ [w; k])) by (rewrite !length_app; simpl; lia).
    rewrite upd_at, u16_word by done. destruct (Z.ltb_spec 0 (zlen c2)) as [Hpos|Hz].
    + eapply sreturns_mono; [apply (IH w k (w :: tail)); [done| |rewrite length_app; simpl; lia]|].
      * cbn [out up_out buf]. by rewrite <- !app_assoc.
      * intros _ s' (x & y & ->). exists x, y. cbn [bufInd out up_out]. rewrite up_out_twice. by rewrite <- app_assoc.
    + destruct c2; [|simpl in Hz; lia]. apply sreturns_ret. exists w, k. by rewrite <- !app_assoc.
Qed.

Lemma up_must_id s : up_must (mustStr s) (mustStrBack s) s = s.
Proof. by destruct s. Qed.

(** The position of the literal string that a match must contain moves along. *)
Lemma Insert_spec v c1 c2 s :
  is_at v (c1 ++ c2) s ->
  sreturns (Insert behind (zlen c1) 2) s (fun _ s' => exists m x y tail,
    0 <= m <= zlen c1 + 2 + zlen c2 /\ 512 <= zlen (c1 ++ x :: y :: c2 ++ tail) /\
    s' = up_out (MkOut (c1 ++ x :: y :: c2 ++ tail) (zlen c1 + 2 + zlen c2)) (up_must m (mustStrBack s) s)).
Proof.
  intros Hs. destruct (at_out _ _ _ Hs) as (Hn & Hl & Hc & rest & Hb). rewrite length_app in Hn.
  destruct (at_must _ _ _ Hs) as [Hm1 Hm2]. rewrite length_app in Hm2.
  destruct (is_at_view _ _ _ Hs) as (_ & Hmust & _). unfold Insert. apply sreturns_get_bind.
  apply (sreturns_bind _ _ _ (fun _ s' => exists m, 0 <= m <= zlen c1 + 2 + zlen c2 /\ s' = up_must m (mustStrBack s) s)).
  { destruct (_ && _) eqn:E; [apply sreturns_modify|apply sreturns_ret].
    - exists (mustStr s + 2). split; [lia|done].
    - exists (mustStr s). rewrite up_must_id. split; [lia|done]. }
  intros _ s1 (m & Hm & ->). cbv zeta.
  apply (sreturns_bind _ _ _ (fun _ s' => s' = up_out (MkOut (buf (out s)) (bufInd (out s) + 2)) (up_must m (mustStrBack s) s))).
  { unfold set_bufInd. by apply sreturns_get_bind, sreturns_modify. }
  intros _ s1 ->. set (s1 := up_out _ _).
  assert (Hlen : zlen (buf (out s)) = zlen c1 + zlen c2 + zlen rest) by (rewrite Hb, !length_app; lia).
  assert (Hs1 : buf (out s1) = (c1 ++ c2) ++ rest /\ bufInd (out s1) = zlen c1 + zlen c2 + 2 /\ zlen (buf (out s1)) = zlen (buf (out s)))
    by (cbn [s1 out up_out buf bufInd]; split_and!; (done || lia)). destruct Hs1 as (Hb1 & Hn1 & Hl1).
  eapply sreturns_bind.
  { apply (grow_if s1 (c1 ++ c2) rest _ (zlen c1 + zlen c2 + 2)); [done|rewrite length_app; lia| |lia].
    rewrite Hl1. intros H%Z.leb_gt. lia. }
  intros _ s2 (rest' & -> & Hroom & Hge). rewrite !length_app in Hroom.
  destruct rest' as [|k [|k2 tail]]; [simpl in Hroom; lia..|]. rewrite Hn1 in *. unfold s1. rewrite up_out_twice.
  replace (bufInd (out s) + 2 - (zlen c1 + 2)) with (zlen c2) by lia.
  eapply sreturns_mono.
  { apply (insert_loop_spec c2 c1 k k2 tail); [|cbn [out up_out buf]; by rewrite <- app_assoc|lia]. by apply Forall_app in Hc as [_ ?]. }
  intros _ s' (x & y & ->). cbn [out up_out bufInd]. rewrite up_out_twice. exists m, x, y, tail. split; [done|]. split.
  - rewrite Hl1 in Hge. zl.
  - f_equal. f_equal. lia.
Qed.

Lemma holds_code_intro b n code rest :
  b = code ++ rest -> n = zlen code -> 512 <= zlen b -> Forall word code -> holds_code (MkOut b n) code.
Proof. intros -> -> ? ?. split_and!; try done. by exists rest. Qed.

(** The displacement of a branch. *)
Definition branch_disp (pos dest : Z) : Z := dest - pos - 1 + if pos <=? dest then 2 else 0.

Lemma EmitBranchAt_spec v c1 c2 s op dest :
  is_at v (c1 ++ c2) s -> word op ->
  sreturns (EmitBranchAt behind (zlen c1) op dest) s (fun _ s' => exists m,
    is_at (vw_must m v) (c1 ++ [op; u16 (branch_disp (zlen c1) dest)] ++ c2) s').
Proof.
  intros Hs Hop. unfold EmitBranchAt. cbv zeta. eapply sreturns_bind; [by apply (Insert_spec v)|].
  intros _ s' (m & x & y & tail & Hm & Hl & ->). eapply sreturns_bind.
  { apply buf_put_spec. cbn [out up_out buf]. rewrite length_app. simpl. lia. }
  intros _ s' ->. cbn [out up_out buf bufInd]. rewrite upd_at, up_out_twice. eapply sreturns_mono.
  { apply buf_put_spec. cbn [out up_out buf]. rewrite length_app. simpl. lia. }
  intros _ s' ->. cbn [out up_out buf bufInd]. rewrite up_out_twice. exists m.
  replace (c1 ++ u16 op :: y :: c2 ++ tail) with ((c1 ++ [u16 op]) ++ y :: c2 ++ tail) by (by rewrite <- app_assoc).
  replace (zlen c1 + 1) with (zlen (c1 ++ [u16 op])) by (rewrite length_app; simpl; lia). rewrite upd_at.
  replace (if zlen c1 <=? dest then _ else _) with (branch_disp (zlen c1) dest)
    by (unfold branch_disp; destruct (_ <=? _); lia).
  rewrite (u16_word op) by done. destruct (at_out _ _ _ Hs) as (_ & _ & Hc & _). apply Forall_app in Hc as [Hc1 Hc2].
  assert (Hlen : zlen (c1 ++ [op; u16 (branch_disp (zlen c1) dest)] ++ c2) = zlen c1 + 2 + zlen c2)
    by (rewrite !length_app; simpl; lia).
  apply is_at_new; [by apply Hs|by rewrite <- (at_view _ _ _ Hs)| |cbn [v_must vw_must]; lia].
  - apply (holds_code_intro _ _ _ tail); [by rewrite <- !app_assoc|done| |].
    + zl.
    + repeat (apply Forall_app; split); try done. constructor; [done|]. constructor; [apply word_u16|constructor].
Qed.
(** ** Copies and branches *)

Lemma EmitBranch_spec v code s op dest :
  is_at v code s -> word op ->
  sreturns (EmitBranch behind op dest) s (fun _ s' => exists m,
    is_at (vw_must m v) (code ++ [op; u16 (branch_disp (zlen code) dest)]) s').
Proof.
  intros Hs Hop. unfold EmitBranch. apply sreturns_get_bind. rewrite (is_at_len _ _ _ Hs).
  rewrite <- (app_nil_r code) in Hs. eapply sreturns_mono; [by apply EmitBranchAt_spec|].
  intros _ s' [m Hm]. exists m. by rewrite app_nil_r in Hm.
Qed.

Lemma Unemit_spec v c1 c2 s :
  is_at v (c1 ++ c2) s -> v_must v <= zlen c1 -> sreturns (Unemit (zlen c2)) s (fun _ => is_at v c1).
Proof.
  intros Hs Hm. destruct (at_out _ _ _ Hs) as (Hn & Hl & Hc & rest & Hb). apply Forall_app in Hc as [Hc1 _].
  unfold Unemit, set_bufInd. apply sreturns_get_bind, sreturns_get_bind, sreturns_modify. destruct (at_must _ _ _ Hs).
  apply is_at_new; [apply Hs..| |lia]. eapply holds_code_intro; [by rewrite Hb, <- app_assoc|zl|done|done].
Qed.

Lemma Copy_spec v c0 c1 c2 s :
  is_at v (c0 ++ c1 ++ c2) s -> sreturns (Copy behind (zlen c0) (zlen c1)) s (fun _ => is_at v ((c0 ++ c1 ++ c2) ++ c1)).
Proof.
  intros Hs. set (code := c0 ++ c1 ++ c2) in *. destruct (at_out _ _ _ Hs) as (Hn & Hl & Hc & rest & Hb).
  assert (Hlen : zlen code = zlen c0 + zlen c1 + zlen c2) by (unfold code; zl).
  assert (Hle : zlen code <= zlen (buf (out s))) by (rewrite Hb; zl).
  unfold Copy. apply sreturns_get_bind. eapply sreturns_bind.
  { apply (grow_if s code rest _ (zlen code + zlen c1)); [done|lia|intros H%Z.leb_gt; lia|lia]. }
  intros _ s' (rest' & -> & Hroom & Hge). apply sreturns_get_bind. cbv zeta. cbn [out up_out buf bufInd]. rewrite Hn.
  test (0 <=? zlen c1) true. test (0 <=? zlen c0) true. test (zlen c0 + zlen c1 <=? zlen (code ++ rest')) true.
  test (zlen code + zlen c1 <=? zlen (code ++ rest')) true. cbn [andb]. apply sreturns_modify. rewrite up_out_twice.
  destruct (at_must _ _ _ Hs). apply is_at_new; [apply Hs..| |zl].
  rewrite take_app_le, firstn_all2 by lia. replace (take (Z.to_nat (zlen c1)) (drop _ _)) with c1.
  - eapply holds_code_intro; [by rewrite <- app_assoc|zl| |].
    + rewrite !length_app, length_drop. zl.
    + apply Forall_app. split; [done|]. unfold code in Hc. rewrite !Forall_app in Hc. tauto.
  - unfold code. by rewrite !Nat2Z.id, <- !app_assoc, drop_app_length, take_app_length.
Qed.

Lemma copy_loop_code v c0 c1 n s :
  is_at v (c0 ++ c1) s ->
  sreturns (copy_loop behind n (zlen c1)) s (fun _ => is_at v (c0 ++ c1 ++ concat (replicate n c1))).
Proof.
  revert c0 s. induction n as [|n IH]; intros c0 s Hs; cbn [copy_loop].
  - apply sreturns_ret. by rewrite app_nil_r.
  - apply sreturns_get_bind. rewrite (is_at_len _ _ _ Hs). replace (zlen (c0 ++ c1) - zlen c1) with (zlen c0) by zl.
    eapply sreturns_bind.
    + apply (Copy_spec v c0 c1 []). by rewrite app_nil_r.
    + intros ? s' Hs'. eapply sreturns_mono; [apply (IH (c0 ++ c1)); by rewrite app_nil_r in Hs'|].
      intros ? s2 Hs2. cbn [replicate concat]. by rewrite <- !app_assoc in Hs2.
Qed.

Lemma opt_loop_spec (minimize : bool) v c0 c1 n s :
  is_at v (c0 ++ c1) s ->
  let op := op_num A_BRANCH_AFTER - Z.b2z minimize in
  sreturns (opt_loop behind n (zlen c1) minimize) s (fun _ s' => exists m,
    is_at (vw_must m v) (c0 ++ c1 ++ concat (replicate n ([op; u16 (zlen c1 + 1)] ++ c1))) s').
Proof.
  intros Hs op. assert (Hop : word op) by (unfold op, word; destruct minimize; simpl; lia).
  revert v c0 s Hs. induction n as [|n IH]; intros v c0 s Hs; cbn [opt_loop].
  - apply sreturns_ret. exists (v_must v). by rewrite app_nil_r, vw_must_id.
  - apply sreturns_get_bind. rewrite (is_at_len _ _ _ Hs). eapply sreturns_bind; [by apply EmitBranch_spec|].
    intros ? s1 [m Hs1]. rewrite <- app_assoc in Hs1. apply sreturns_get_bind. rewrite (is_at_len _ _ _ Hs1).
    unfold branch_disp in Hs1. replace (zlen (c0 ++ c1) <=? zlen (c0 ++ c1) + zlen c1) with true in Hs1
      by (symmetry; apply Z.leb_le; lia).
    replace (zlen (c0 ++ c1) + zlen c1 - zlen (c0 ++ c1) - 1 + 2) with (zlen c1 + 1) in Hs1 by lia.
    replace (zlen (c0 ++ c1 ++ _) - zlen c1 - 2) with (zlen c0) by zl.
    eapply sreturns_bind; [by apply Copy_spec|]. intros ? s2 Hs2.
    eapply sreturns_mono.
    { apply (IH (vw_must m v) ((c0 ++ c1) ++ [op; u16 (zlen c1 + 1)])). by rewrite <- !app_assoc in Hs2 |- *. }
    intros ? s3 [m' Hs3]. exists m'. cbn [replicate concat]. repeat rewrite <- app_assoc in Hs3. repeat rewrite <- app_assoc. exact Hs3.
Qed.

(** ** Character sets *)

Lemma reserve_spec v code s n len :
  is_at v code s -> zlen code + len <= zlen (buf (out s)) + Z.of_nat n ->
  sreturns (reserve behind n len) s (fun _ s' => is_at v code s' /\ zlen code + len <= zlen (buf (out s'))).
Proof.
  revert s. induction n as [|n IH]; intros s Hs Hl; cbn [reserve]; apply sreturns_get_bind;
    rewrite (is_at_len _ _ _ Hs); destruct (Z.ltb_spec (zlen (buf (out s))) (zlen code + len)); try lia;
    try (apply sreturns_ret; split; [done|lia]).
  destruct (at_out _ _ _ Hs) as (Hn & Hb512 & Hc & rest & Hb).
  assert (Hle : zlen code <= zlen (buf (out s))) by (rewrite Hb; zl).
  eapply sreturns_bind; [by eapply (GrowOutputBuffer_spec s code rest); [|lia]|]. intros ? s' (rest' & -> & Hlen).
  apply IH; [|cbn [out up_out buf]; lia]. apply is_at_new; [apply Hs..| |apply Hs].
  by eapply holds_code_intro; [..|lia|].
Qed.

Lemma put_words_spec v code s ws :
  is_at v code s -> Forall word ws -> zlen code + zlen ws <= zlen (buf (out s)) ->
  sreturns (put_words ws) s (fun _ => is_at v (code ++ ws)).
Proof.
  revert code s. induction ws as [|w ws IH]; intros code s Hs Hw Hl; cbn [put_words].
  - apply sreturns_ret. by rewrite app_nil_r.
  - inversion Hw as [|? ? Hw0 Hws]; subst. cbn [length] in Hl.
    destruct (at_out _ _ _ Hs) as (Hn & Hb512 & Hc & rest & Hb). destruct rest as [|x rest]; [rewrite Hb in Hl; zl|].
    apply sreturns_get_bind. rewrite Hn. eapply sreturns_bind; [apply buf_put_spec; lia|]. intros ? s' ->.
    rewrite Hb, upd_at, u16_word by done. unfold set_bufInd. apply sreturns_modify_bind. cbn [out up_out buf].
    rewrite up_out_twice. replace (code ++ w :: ws) with ((code ++ [w]) ++ ws) by (by rewrite <- app_assoc).
    rewrite Hb in Hl, Hb512. destruct (at_must _ _ _ Hs). apply IH; [|done|cbn [out up_out buf]; zl].
    apply is_at_new; [apply Hs..| |zl].
    apply (holds_code_intro _ _ _ rest); [by rewrite <- app_assoc|zl|zl|]. by apply Forall_app_2; [|apply Forall_singleton].
Qed.

Lemma emit_ranges_spec v code s ranges :
  is_at v code s -> Forall (fun '(lo, hi) => word lo /\ word hi) ranges ->
  sreturns (emit_ranges behind ranges) s (fun _ => is_at v (code ++ flat_map (fun '(lo, hi) => [lo; hi]) ranges)).
Proof.
  intros Hs Hr. revert code s Hs. induction Hr as [|[lo hi] ranges [Hlo Hhi] Hr IH]; intros code s Hs; cbn [emit_ranges flat_map].
  - apply sreturns_ret. by rewrite app_nil_r.
  - eapply sreturns_bind; [by apply Emit_spec|]. intros ? s1 Hs1. eapply sreturns_bind; [eapply Emit_spec, Hs1|]. intros ? s2 Hs2. cbv beta in Hs2.
    rewrite !u16_word in Hs2 by done. eapply sreturns_mono; [apply IH, Hs2|]. intros ? s3 Hs3. repeat rewrite <- app_assoc in Hs3. exact Hs3.
Qed.
End emit.
