(* ===== verification/ReChars.v ===== *)
(** * ReChars: characters and repetition counts

    The parts of the compiler of regular expressions that only read the
    pattern, against the grammar of [ReParse]: escapes ([ParseChar]) and
    repetition counts ([ParseRepeatType]). *)

From S2P Require Import Prelude Runtime Digits Value IntConv Encodings EncodingsSpec StrOps.
From S2P Require Import StrSpec StrTables ReDefs ReSem ReComp ReParse ReBuffer ReEmit.

Open Scope Z_scope.

(** Steps over a first part with a known specification. *)
Ltac step H := first [eapply sreturns_bind | eapply bad_after]; [H|].

(** ** The code and the grammar

    [follows r m s P]: from the state [s] the code [m] does what the grammar
    yields with the result [r], with [P] at the end if it is a success. *)
Definition follows {A B} (r : parsed A) (m : SM ParseInfo B) (s : ParseInfo) (P : A -> B -> ParseInfo -> Prop) : Prop :=
  match r with
  | POk a => sreturns m s (P a)
  | PBad => bad m s
  | PHuge | PStuck => True
  end.

Lemma follows_bind {A A' B B'} (r : parsed A) (k : A -> parsed A') (m : SM ParseInfo B) (f : B -> SM ParseInfo B') s P Q :
  follows r m s P -> (forall b, sticky (f b)) -> (forall a b s', P a b s' -> follows (k a) (f b) s' Q) ->
  follows (r ≫= k) (m ≫= f) s Q.
Proof.
  intros Hm Hs Hf. destruct r as [a| | |]; cbn [follows] in Hm; simpl mbind; [|by apply bad_bind|done..].
  unfold follows. destruct (k a) eqn:E; [| |done..].
  - eapply sreturns_bind; [exact Hm|]. intros b s' Hb. specialize (Hf a b s' Hb). by rewrite E in Hf.
  - eapply bad_after; [exact Hm|]. intros b s' Hb. specialize (Hf a b s' Hb). by rewrite E in Hf.
Qed.

(** A step of the code alone. *)
Lemma follows_step {A B B'} (r : parsed A) (m : SM ParseInfo B) (f : B -> SM ParseInfo B') s (P : B -> ParseInfo -> Prop) Q :
  sreturns m s P -> (forall b s', P b s' -> follows r (f b) s' Q) -> follows r (m ≫= f) s Q.
Proof.
  intros Hm Hf. unfold follows. destruct r; [| |done..].
  - eapply sreturns_bind; [exact Hm|]. apply Hf.
  - eapply bad_after; [exact Hm|]. apply Hf.
Qed.

Lemma follows_get {A B} (r : parsed A) (f : ParseInfo -> SM ParseInfo B) s Q : follows r (f s) s Q -> follows r (get ≫= f) s Q.
Proof. by destruct r. Qed.

Lemma follows_modify {A B} (r : parsed A) g (f : unit -> SM ParseInfo B) s Q :
  follows r (f tt) (g s) Q -> follows r (modify g ≫= f) s Q.
Proof. by destruct r. Qed.

Lemma follows_bad {A B} (m : SM ParseInfo B) s (Q : A -> B -> ParseInfo -> Prop) : bad m s -> follows PBad m s Q.
Proof. done. Qed.

Lemma follows_ok {A B} (a : A) (m : SM ParseInfo B) s Q : sreturns m s (Q a) -> follows (POk a) m s Q.
Proof. done. Qed.

(** The grammar's first part is known. *)
Lemma follows_pok {A A1 A' B} a (k1 : A -> parsed A1) (k : A1 -> parsed A') (m : SM ParseInfo B) s Q :
  follows (k1 a ≫= k) m s Q -> follows ((POk a ≫= k1) ≫= k) m s Q.
Proof. done. Qed.

Lemma follows_pok1 {A A' B} a (k : A -> parsed A') (m : SM ParseInfo B) s Q : follows (k a) m s Q -> follows (POk a ≫= k) m s Q.
Proof. done. Qed.

Lemma follows_pbad {A A1 A' B} (k1 : A -> parsed A1) (k : A1 -> parsed A') (m : SM ParseInfo B) s Q :
  bad m s -> follows ((PBad ≫= k1) ≫= k) m s Q.
Proof. done. Qed.

Lemma follows_pbad1 {A A' B} (k : A -> parsed A') (m : SM ParseInfo B) s Q : bad m s -> follows (PBad ≫= k) m s Q.
Proof. done. Qed.

Lemma follows_assoc {A A1 A' B} (r : parsed A) (k1 : A -> parsed A1) (k : A1 -> parsed A') (m : SM ParseInfo B) s Q :
  follows (r ≫= (fun a => k1 a ≫= k)) m s Q -> follows ((r ≫= k1) ≫= k) m s Q.
Proof. by destruct r. Qed.

(** Steps of the code alone at the end. *)
Lemma follows_tail {A B B'} (r : parsed A) (m : SM ParseInfo B) (f : B -> SM ParseInfo B') s P (Q : A -> B' -> ParseInfo -> Prop) :
  follows r m s P -> (forall b, sticky (f b)) -> (forall a b s', P a b s' -> sreturns (f b) s' (Q a)) -> follows r (m ≫= f) s Q.
Proof.
  intros Hm Hs Hf. destruct r as [a| | |]; cbn [follows] in *; [|by apply bad_bind|done..].
  eapply sreturns_bind; [exact Hm|]. intros b s' Hb. by apply Hf.
Qed.

(** What is known of the grammar's result. *)
Lemma follows_with {A B} (r : parsed A) (m : SM ParseInfo B) s P (R : A -> Prop) :
  follows r m s P -> match r with POk a => R a | _ => True end -> follows r m s (fun a b s' => P a b s' /\ R a).
Proof. intros Hm Hr. destruct r; [|done..]. cbn [follows] in *. by eapply sreturns_mono; [exact Hm|]. Qed.

(** A step of the grammar alone at the end. *)
Lemma follows_map {A A' B} (r : parsed A) (k : A -> parsed A') (m : SM ParseInfo B) s P Q :
  follows r m s P -> (forall a, match k a with POk a' => forall b s', P a b s' -> Q a' b s' | PBad => False | _ => True end) ->
  follows (r ≫= k) m s Q.
Proof.
  intros Hm Hk. destruct r as [a| | |]; [|done..]. simpl mbind. specialize (Hk a). unfold follows.
  destruct (k a); [|done..]. by eapply sreturns_mono; [exact Hm|].
Qed.

Definition is_nil {A} (l : list A) : bool := match l with [] => true | _ => false end.

Section chars.
Context (strVal : StrObj) (flags : Z) (behind : storage) (l : list Z).
Hypothesis Hstr : represents strVal l.
#[local] Set Default Proof Using "Type Hstr".

Lemma end_length : strEnd strVal = zlen l.
Proof. destruct Hstr as [Hok Hl]. unfold strEnd. by rewrite AStrLen_chars, Hl. Qed.

Lemma pattern_words : Forall word l.
Proof. exact (represents_wide _ _ Hstr). Qed.

(** ** Reading *)

(** The rest of the pattern at index [i]. *)
Definition text (i : Z) (t : list Z) : Prop := exists pre, l = pre ++ t /\ i = zlen pre.

Definition at_text (v : View) (code t : list Z) (s : ParseInfo) : Prop :=
  exists i, is_at (vw_str i v) code s /\ text i t.

Lemma at_text_length v code t s : at_text v code t s -> zlen t <= zlen l.
Proof using. clear Hstr. intros (i & _ & pre & -> & _). zl. Qed.

Lemma at_text_words v code t s : at_text v code t s -> Forall word t.
Proof.
  intros (i & _ & pre & Hl & _). pose proof pattern_words as Hw. rewrite Hl in Hw. by apply Forall_app in Hw as [_ ?].
Qed.

Lemma at_end v code t s : at_text v code t s -> (strPos s =? strEnd strVal) = is_nil t.
Proof.
  intros (i & Hs & pre & Hl & Hi). destruct (is_at_view _ _ _ Hs) as (-> & _). rewrite end_length, Hl. cbn [v_str vw_str].
  destruct t; cbn [is_nil]; [apply Z.eqb_eq|apply Z.eqb_neq]; zl.
Qed.

Lemma before_end v code t s : at_text v code t s -> (strPos s <? strEnd strVal) = negb (is_nil t).
Proof.
  intros (i & Hs & pre & Hl & Hi). destruct (is_at_view _ _ _ Hs) as (-> & _). rewrite end_length, Hl. cbn [v_str vw_str].
  destruct t; cbn [is_nil negb]; [apply Z.ltb_ge|apply Z.ltb_lt]; zl.
Qed.

(** Whether one character at least is left behind the next one. *)
Lemma before_last v code t s : at_text v code t s ->
  (strPos s <? strEnd strVal - 1) = match t with _ :: _ :: _ => true | _ => false end.
Proof.
  intros (i & Hs & pre & Hl & Hi). destruct (is_at_view _ _ _ Hs) as (-> & _). rewrite end_length, Hl. cbn [v_str vw_str].
  destruct t as [|c [|c2 t]]; [apply Z.ltb_ge|apply Z.ltb_ge|apply Z.ltb_lt]; zl.
Qed.

Lemma cur_spec v code c t s : at_text v code (c :: t) s -> sreturns (cur strVal) s (fun c' s' => c' = c /\ s' = s).
Proof.
  intros (i & Hs & pre & Hl & Hi). unfold cur. apply sreturns_get_bind. apply sreturns_lift.
  destruct (is_at_view _ _ _ Hs) as (-> & _). cbn [v_str vw_str]. subst i. eapply evals_returns; [|done].
  apply (char_at_lookup _ l); [done|]. by rewrite Hl, lookup_app_r, Nat.sub_diag by lia.
Qed.

Lemma advance_spec v code c t s : at_text v code (c :: t) s -> sreturns (advance 1) s (fun _ => at_text v code t).
Proof.
  intros (i & Hs & pre & Hl & Hi). unfold advance, set_str. apply sreturns_get_bind, sreturns_modify.
  destruct (is_at_view _ _ _ Hs) as (-> & _). cbn [v_str vw_str]. exists (i + 1). split.
  - apply (is_at_str (vw_str i v)). done.
  - exists (pre ++ [c]). rewrite <- app_assoc. split; [done|]. zl.
Qed.

Lemma AGenerateError_bad s : bad AGenerateError s.
Proof using. intros t. split; [done|]. by left. Qed.

Lemma error_bad {B} (f : unit -> SM ParseInfo B) s : (forall a, sticky (f a)) -> bad (AGenerateError ≫= f) s.
Proof using. intros Hf. apply bad_bind; [apply AGenerateError_bad|done]. Qed.

(** Reads the next character, which is there. *)
Ltac cur_char H :=
  step ltac:(by eapply cur_spec, H); let E := fresh "E" in intros ? ? E; cbv beta in E; destruct E as [-> ->].
Ltac next H :=
  step ltac:(by eapply advance_spec, H); clear H; let u := fresh "u" in let st := fresh "st" in
  intros u st H; cbv beta in H; clear u.

(** ** Escapes *)

Lemma GetHexDigit_spec v code t s : at_text v code t s ->
  sreturns (GetHexDigit strVal) s (fun d s' =>
    match match t with c :: _ => hex_value c | [] => None end with
    | Some x => d = x /\ 0 <= d /\ at_text v code (tail t) s'
    | None => d < 0 /\ at_text v code t s'
    end).
Proof.
  intros Hs. unfold GetHexDigit. apply sreturns_get_bind. rewrite (at_end _ _ _ _ Hs). destruct t as [|c t]; cbn [is_nil].
  { by apply sreturns_ret. }
  cur_char Hs. unfold hex_value. destruct (AIsDigit c) eqn:Ed; [|destruct (IsHex c) eqn:Eh].
  - next Hs. apply sreturns_ret. unfold AIsDigit in Ed. split_and!; (done || lia).
  - next Hs. apply sreturns_ret. unfold IsHex in Eh. split_and!; (done || lia).
  - by apply sreturns_ret.
Qed.

Lemma parse_hex_spec v code t s : at_text v code t s ->
  sreturns (digit1 ← GetHexDigit strVal;
            if digit1 <? 0 then mret (120, op_num A_EMPTY)
            else digit2 ← GetHexDigit strVal; mret (if digit2 <? 0 then digit1 else digit1 * 16 + digit2, op_num A_EMPTY)) s
    (fun r s' => r = ((parse_hex t).1, op_num A_EMPTY) /\ at_text v code (parse_hex t).2 s').
Proof.
  intros Hs. step ltac:(by eapply GetHexDigit_spec). intros d1 s1 H1. cbv beta in H1. unfold parse_hex.
  destruct t as [|c1 t1]; cbv beta iota in H1; [|destruct (hex_value c1) as [x1|]].
  - destruct H1 as [Hd H1]. test (d1 <? 0) true. by apply sreturns_ret.
  - destruct H1 as (-> & Hd & H1). test (x1 <? 0) false. simpl in H1.
    step ltac:(by eapply GetHexDigit_spec). intros d2 s2 H2. cbv beta in H2. apply sreturns_ret.
    destruct t1 as [|c2 t2]; cbv beta iota in H2; [|destruct (hex_value c2) as [x2|]].
    + destruct H2 as [Hd2 H2]. by test (d2 <? 0) true.
    + destruct H2 as (-> & Hd2 & H2). by test (x2 <? 0) false.
    + destruct H2 as [Hd2 H2]. by test (d2 <? 0) true.
  - destruct H1 as [Hd H1]. test (d1 <? 0) true. by apply sreturns_ret.
Qed.

Lemma octal_digit_spec v code t s number next n Q :
  at_text v code t s ->
  (forall number t s, at_text v code t s ->
     sreturns (next number) s (fun r s' => r = (parse_octal n number t).1 /\ at_text v code (parse_octal n number t).2 s')) ->
  (forall r s', r = (parse_octal (S n) number t).1 /\ at_text v code (parse_octal (S n) number t).2 s' -> Q r s') ->
  sreturns (octal_digit strVal number next) s Q.
Proof.
  intros Hs Hnext HQ. unfold octal_digit. apply sreturns_get_bind. rewrite (before_end _ _ _ _ Hs).
  cbn [parse_octal] in HQ. destruct t as [|c t]; cbn [is_nil negb]; [by apply sreturns_ret, HQ|].
  cur_char Hs. destruct (IsOctal c); [|by apply sreturns_ret, HQ].
  next Hs. eapply sreturns_mono; [by apply Hnext|done].
Qed.

(** What [ParseChar] returns for an escape. *)
Definition esc_pair (e : esc) : Z * Z :=
  (esc_char e,
   match e with
   | EscChar _ => op_num A_EMPTY
   | EscClass k complement => class_code k complement
   | EscAssert a _ => op_num (assert_op a)
   | EscRef _ => op_num (if nocase flags then A_BACKREF_I else A_BACKREF)
   end).

Lemma escaped_digit_spec v code c t s : at_text v code t s -> AIsDigit c = true ->
  sreturns (escaped_digit strVal flags c) s (fun r s' =>
    r = esc_pair (parse_digit c t).1 /\ at_text v code (parse_digit c t).2 s').
Proof.
  intros Hs Hc. unfold AIsDigit in Hc. unfold escaped_digit, parse_digit. apply sreturns_get_bind.
  apply (sreturns_bind _ _ _ (fun isRef s' => s' = s /\
    isRef = negb (c =? 48) && ((55 <? c) || match t with d :: _ => negb (IsOctal d) | [] => true end))).
  { destruct (c =? 48); [by apply sreturns_ret|]. destruct (55 <? c); [by apply sreturns_ret|].
    rewrite (at_end _ _ _ _ Hs). destruct t as [|d t]; [by apply sreturns_ret|].
    cbn [is_nil]. cur_char Hs. by apply sreturns_ret. }
  intros isRef s' [-> ->]. destruct (negb (c =? 48) && _).
  - apply sreturns_ret. split; [|done]. unfold esc_pair, esc_char. cbn [fst].
    destruct (Z.ltb_spec 55 c), (Z.ltb_spec 7 (c - 48)); try lia; [|done]. f_equal. lia.
  - eapply sreturns_bind.
    + eapply (octal_digit_spec _ _ _ _ _ _ 1); [done| |].
      * intros n1 t1 s1 H1. eapply (octal_digit_spec _ _ _ _ _ _ 0); [done| |].
        -- intros n2 t2 s2 H2. by apply sreturns_ret.
        -- intros r s2 H2. exact H2.
      * intros r s1 H1. exact H1.
    + intros n s1 [-> H1]. apply sreturns_ret. by destruct (parse_octal 2 (c - 48) t).
Qed.

Lemma ParseChar_spec v code t s : at_text v code t s -> t <> [] ->
  match parse_esc t with
  | POk p => sreturns (ParseChar strVal flags) s (fun r s' => r = esc_pair p.1 /\ at_text v code p.2 s')
  | _ => bad (ParseChar strVal flags) s
  end.
Proof.
  intros Hs Ht. destruct t as [|c t]; [done|]. cbn [parse_esc]. unfold ParseChar.
  destruct (Z.eqb_spec c 92) as [->|Hc]; cbn [negb].
  - destruct t as [|c t]; cbv beta iota zeta.
    + cur_char Hs. cbn [negb Z.eqb Pos.eqb]. next Hs. apply bad_get. rewrite (at_end _ _ _ _ Hs). cbn [is_nil].
      apply error_bad. intros. apply sticky_ret.
    + cur_char Hs. cbn [negb Z.eqb Pos.eqb]. next Hs. apply sreturns_get_bind. rewrite (at_end _ _ _ _ Hs). cbn [is_nil].
      cur_char Hs. next Hs. cbv zeta. destruct (u8 c =? 120).
      { eapply sreturns_mono; [by eapply parse_hex_spec|]. intros r2 s2 [-> H]. by destruct (parse_hex t). }
      destruct ((97 <=? u8 c) && (u8 c <=? 122)) eqn:El.
      { apply sreturns_ret. split; [|done]. unfold parse_letter. cbv zeta. set (conv := dg CharConv _).
        destruct (CC <=? conv); unfold esc_pair, esc_char, class_code; cbn [fst]; [|done]. f_equal; lia. }
      destruct (u8 c =? 60) eqn:E60; [apply Z.eqb_eq in E60; rewrite E60; by apply sreturns_ret|].
      destruct (u8 c =? 62) eqn:E62; [apply Z.eqb_eq in E62; rewrite E62; by apply sreturns_ret|].
      destruct (u8 c =? 68); [by apply sreturns_ret|]. destruct (u8 c =? 83); [by apply sreturns_ret|].
      destruct (u8 c =? 87); [by apply sreturns_ret|].
      destruct (AIsDigit (u8 c)) eqn:Ed; [|by apply sreturns_ret].
      eapply sreturns_mono; [by eapply escaped_digit_spec|]. intros r2 s2 [-> H]. by destruct (parse_digit (u8 c) t).
  - cur_char Hs. destruct (Z.eqb_spec c 92); [done|]. cbn [negb]. next Hs. by apply sreturns_ret.
Qed.
(** ** Repetition counts *)

Lemma at_text_fuel v code t s : at_text v code t s -> (length t < S (Z.to_nat (strEnd strVal)))%nat.
Proof. intros (i & _ & pre & Hl & _). rewrite end_length, Hl. zl. Qed.

Lemma range_digits_spec (last : bool) n v code c t acc s :
  at_text v code (c :: t) s -> AIsDigit c = true -> last && is_nil t = false -> (length t < n)%nat ->
  let r := parse_number last acc (c :: t) in
  sreturns (range_digits strVal n (strEnd strVal - Z.b2z last) acc) s (fun x s' => x = r.1 /\ at_text v code r.2 s').
Proof.
  revert c t acc s. induction n as [|n IH]; intros c t acc s Hs Hc Hl Hn; [lia|]. cbv zeta. cbn [range_digits].
  cur_char Hs. cbv zeta. next Hs. apply sreturns_get_bind.
  replace (parse_number last acc (c :: t)) with (parse_number last (u32 (acc * 10 + (c - 48))) t)
    by (cbn [parse_number]; rewrite Hc; by destruct t, last).
  set (acc' := u32 _). destruct t as [|c2 t].
  { replace (_ <? _) with false; [by apply sreturns_ret|]. symmetry.
    destruct last; cbn [Z.b2z]; [by rewrite (before_last _ _ _ _ Hs)|by rewrite Z.sub_0_r, (before_end _ _ _ _ Hs)]. }
  replace (_ <? _) with (negb (last && is_nil t)).
  2:{ destruct last; cbn [Z.b2z]; [by rewrite (before_last _ _ _ _ Hs); destruct t|by rewrite Z.sub_0_r, (before_end _ _ _ _ Hs)]. }
  destruct (last && is_nil t) eqn:El; cbn [negb].
  { apply sreturns_ret. cbn [parse_number]. destruct last, t; try done. by rewrite andb_false_r. }
  cur_char Hs. destruct (AIsDigit c2) eqn:E2.
  - apply IH; [done..|]. simpl in Hn. lia.
  - apply sreturns_ret. cbn [parse_number]. by rewrite E2.
Qed.

Lemma range_opt_spec v code c t min s : at_text v code (c :: t) s ->
  let r := parse_opt min (c :: t) in
  sreturns (range_opt strVal min) s (fun x s' => x = r.1 /\ at_text v code r.2 s').
Proof.
  intros Hs. cbv zeta. unfold range_opt, parse_opt. cur_char Hs. destruct (c =? 44); [|by apply sreturns_ret].
  next Hs. apply sreturns_get_bind. rewrite (before_end _ _ _ _ Hs).
  apply (sreturns_bind _ _ _ (fun d s' => d = first_digit t /\ at_text v code t s')).
  { destruct t as [|d t]; cbn [is_nil negb]; [by apply sreturns_ret|]. cur_char Hs. by apply sreturns_ret. }
  clear Hs. intros d s' [-> Hs]. destruct t as [|d t]; [by apply sreturns_ret|]. cbn [first_digit].
  destruct (AIsDigit d) eqn:Ed; [|by apply sreturns_ret]. eapply sreturns_bind.
  - rewrite <- (Z.sub_0_r (strEnd strVal)) at 2. apply (range_digits_spec false); [done..|].
    apply at_text_fuel in Hs. simpl in Hs. lia.
  - intros x s2 H. cbv beta zeta in H. destruct H as [-> H]. by apply sreturns_ret.
Qed.

Lemma parse_number_last acc c t : t <> [] -> (parse_number true acc (c :: t)).2 <> [].
Proof.
  revert acc c. induction t as [|c2 t IH]; intros acc c Ht; [done|]. cbn [parse_number].
  destruct (AIsDigit c && _); [|done]. destruct t; [|by apply IH]. cbn [parse_number]. by rewrite andb_false_r.
Qed.

(** The end of a range, and the range behind the test of its first character. *)
Definition range_close (min opt : Z) : SM ParseInfo (Z * Z) :=
  s ← get;
  closed ← (if strPos s =? strEnd strVal then mret false else c ← cur strVal; mret (c =? 125));
  (if negb closed || (A_INFINITE_REPEAT <? opt) then AGenerateError else mret tt) ≫= (fun _ =>
  advance 1 ≫= (fun _ => mret (min, opt))).

Definition range_body : SM ParseInfo (Z * Z) :=
  min ← range_digits strVal (S (Z.to_nat (strEnd strVal))) (strEnd strVal - 1) 0;
  opt ← range_opt strVal min;
  range_close min opt.

Lemma range_close_spec v code t min opt s : at_text v code t s ->
  match t with
  | c :: t' => if negb (c =? 125) || (A_INFINITE_REPEAT <? opt) then bad (range_close min opt) s
               else sreturns (range_close min opt) s (fun r s' => r = (min, opt) /\ at_text v code t' s')
  | [] => bad (range_close min opt) s
  end.
Proof.
  intros Hs. unfold range_close. destruct t as [|c t].
  - apply bad_get. rewrite (at_end _ _ _ _ Hs). step ltac:(by apply (sreturns_ret _ _ (fun b _ => b = false))).
    intros b s' ->. apply error_bad. intros. sticks.
  - destruct (_ || _) eqn:E; [apply bad_get|apply sreturns_get_bind]; rewrite (at_end _ _ _ _ Hs); cbn [is_nil];
      (step ltac:(cur_char Hs; by apply (sreturns_ret _ _ (fun b s' => b = (c =? 125) /\ s' = s))));
      intros b s' [-> ->]; rewrite E.
    + apply error_bad. intros. sticks.
    + step ltac:(by apply (sreturns_ret _ _ (fun _ s' => s' = s))). intros ? s' ->. next Hs. by apply sreturns_ret.
Qed.

Lemma range_body_spec v code c c2 t s Q : at_text v code (c :: c2 :: t) s -> AIsDigit c = true ->
  let m := parse_number true 0 (c :: c2 :: t) in
  let o := parse_opt m.1 m.2 in
  (forall s', at_text v code o.2 s' -> sspec (range_close m.1 o.1) s' Q) -> sspec range_body s Q.
Proof.
  intros Hs Hc m o HQ. unfold range_body. eapply sspec_bind.
  { apply (range_digits_spec true _ v code c (c2 :: t)); [done..|]. apply at_text_fuel in Hs. simpl in Hs |- *. lia. }
  intros x s1 H1. cbv beta zeta in H1. destruct H1 as [-> H1]. pose proof (parse_number_last 0 c (c2 :: t) ltac:(done)) as Hne.
  fold m in H1, Hne. fold m. destruct m.2 as [|d t2] eqn:Em; [done|]. eapply sspec_bind; [by apply range_opt_spec|].
  intros x s2 H2. cbv beta zeta in H2. destruct H2 as [-> H2]. by apply HQ.
Qed.

Lemma ParseRange_spec v code t s : at_text v code t s ->
  match parse_range t with
  | POk p => sreturns (ParseRange strVal) s (fun r s' => r = p.1 /\ at_text v code p.2 s')
  | PBad => bad (ParseRange strVal) s
  | _ => True
  end.
Proof.
  intros Hs. unfold parse_range, ParseRange. set (valid := first_digit t && _).
  assert (Hv : forall Q, sspec (if negb valid then AGenerateError ≫= (fun _ => mret (0, 0)) else range_body) s Q ->
    sspec (ParseRange strVal) s Q).
  { intros Q Hf. unfold ParseRange. apply sspec_get_bind.
    eapply (sspec_bind _ _ _ (fun b s' => b = valid /\ s' = s)); [|by intros b s' [-> ->]].
    rewrite Z.leb_antisym, (before_last _ _ _ _ Hs). unfold valid.
    destruct t as [|c [|c2 t]]; cbn [negb first_digit]; rewrite ?andb_false_r; try by apply sreturns_ret.
    cur_char Hs. rewrite andb_true_r. by apply sreturns_ret. }
  destruct valid eqn:Ev; cbn [negb] in Hv; subst valid.
  - destruct t as [|c [|c2 t]]; [done|by rewrite andb_false_r in Ev|]. rewrite andb_true_r in Ev. cbn [first_digit] in Ev.
    cbv zeta. set (m := parse_number true 0 (c :: c2 :: t)). destruct (parse_opt m.1 m.2) as [opt t'] eqn:Eo.
    pose proof (fun s' H => range_close_spec v code t' m.1 opt s' H) as Hclose.
    assert (Hb : forall Q, (forall s', at_text v code t' s' -> sspec (range_close m.1 opt) s' Q) -> sspec (ParseRange strVal) s Q).
    { intros Q HQ. apply Hv. apply (range_body_spec v code c c2 t); [done..|]. fold m. by rewrite Eo. }
    destruct t' as [|d t']; [by apply Hb|]. destruct (_ || _); [by apply Hb|].
    destruct (65535 <? m.1); [done|]. by apply Hb.
  - apply Hv. apply error_bad. intros. apply sticky_ret.
Qed.

(** Without a repetition the position moves forward and back. *)
Lemma advance_raw v code i n s : is_at (vw_str i v) code s -> sreturns (advance n) s (fun _ => is_at (vw_str (i + n) v) code).
Proof.
  intros Hs. unfold advance, set_str. apply sreturns_get_bind, sreturns_modify.
  destruct (is_at_view _ _ _ Hs) as (-> & _). by apply (is_at_str (vw_str i v)).
Qed.

(** The end of [ParseRepeatType]. *)
Definition repeat_end (min opt : Z) : SM ParseInfo (Z * Z * bool) :=
  s ← get;
  minimize ← (if strPos s <? strEnd strVal then c ← cur strVal; mret (c =? 63) else mret false);
  (if minimize : bool then advance 1 else mret tt) ≫= (fun _ => mret (min, opt, minimize)).

Lemma repeat_end_spec v code t min opt s : at_text v code t s ->
  let minimize := match t with c :: _ => c =? 63 | [] => false end in
  sreturns (repeat_end min opt) s (fun r s' => r = (min, opt, minimize) /\
    at_text v code (if minimize then tail t else t) s').
Proof.
  intros Hs. cbv zeta. unfold repeat_end. apply sreturns_get_bind. rewrite (before_end _ _ _ _ Hs).
  destruct t as [|c t]; cbn [is_nil negb].
  - step ltac:(by apply (sreturns_ret _ _ (fun b s' => b = false /\ s' = s))). intros b s' [-> ->]. by apply sreturns_ret.
  - step ltac:(cur_char Hs; by apply (sreturns_ret _ _ (fun b s' => b = (c =? 63) /\ s' = s))). intros b s' [-> ->].
    destruct (c =? 63).
    + next Hs. by apply sreturns_ret.
    + by apply sreturns_ret.
Qed.

(** The choice between the kinds of repetition, [ch] being behind. *)
Definition repeat_kind (ch : Z) : SM ParseInfo (Z * Z) :=
  if ch =? 63 then mret (0, 1)
  else if ch =? 43 then mret (1, A_INFINITE_REPEAT)
  else if ch =? 42 then mret (0, A_INFINITE_REPEAT)
  else if ch =? 123 then ParseRange strVal
  else advance (-1) ≫= (fun _ => mret (1, 0)).

Lemma repeat_kind_spec v code c t s : at_text v code t s -> (c =? 63) || (c =? 43) || (c =? 42) || (c =? 123) = true ->
  match parse_count (c :: t) with
  | POk p => sreturns (repeat_kind c) s (fun r s' => r = p.1 /\ at_text v code p.2 s')
  | PBad => bad (repeat_kind c) s
  | _ => True
  end.
Proof.
  intros Hs Hc. unfold repeat_kind, parse_count. destruct (c =? 63); [by apply sreturns_ret|].
  destruct (c =? 43); [by apply sreturns_ret|]. destruct (c =? 42); [by apply sreturns_ret|].
  destruct (c =? 123); [|done]. by apply ParseRange_spec.
Qed.

(** No repetition. *)
Lemma repeat_none v code t ch s : at_text v code t s ->
  ch = match t with c :: _ => c | [] => 0 end ->
  (ch =? 63) || (ch =? 43) || (ch =? 42) || (ch =? 123) = false ->
  parse_count t = POk (1, 0, t) /\
  sreturns (advance 1 ≫= (fun _ => repeat_kind ch)) s (fun r s' => r = (1, 0) /\ at_text v code t s').
Proof.
  intros (i & Hs & Ht) -> Hc. unfold repeat_kind. rewrite !orb_false_iff in Hc. destruct Hc as [[[H1 H2] H3] H4].
  rewrite H1, H2, H3, H4. split.
  { destruct t as [|c t]; [done|]. cbn [parse_count]. by rewrite H1, H2, H3, H4. }
  eapply sreturns_bind; [by apply advance_raw|]. intros ? s1 Hs1. cbv beta in Hs1.
  eapply sreturns_bind; [by apply advance_raw|]. intros ? s2 Hs2. cbv beta in Hs2. apply sreturns_ret. split; [done|].
  exists i. split; [|done]. by replace (i + 1 + -1) with i in Hs2 by lia.
Qed.

Lemma ParseRepeatType_spec v code t s : at_text v code t s ->
  match parse_repeat t with
  | POk p => sreturns (ParseRepeatType strVal) s (fun r s' => r = p.1 /\ at_text v code p.2 s')
  | PBad => bad (ParseRepeatType strVal) s
  | _ => True
  end.
Proof.
  intros Hs. set (ch := match t with c :: _ => c | [] => 0 end).
  assert (Hch : forall Q, sspec (advance 1 ≫= (fun _ => repeat_kind ch ≫= (fun '(min, opt) => repeat_end min opt))) s Q ->
    sspec (ParseRepeatType strVal) s Q).
  { intros Q HQ. unfold ParseRepeatType. apply sspec_get_bind. rewrite (before_end _ _ _ _ Hs).
    eapply (sspec_bind _ _ _ (fun c s' => c = ch /\ s' = s)); [|by intros c s' [-> ->]].
    destruct t as [|c t]; cbn [is_nil negb]; [by apply sreturns_ret|]. by eapply cur_spec. }
  unfold parse_repeat. destruct ((ch =? 63) || (ch =? 43) || (ch =? 42) || (ch =? 123)) eqn:Ech.
  - destruct t as [|c t]; [done|]. subst ch.
    assert (Hk : forall Q, (forall s', at_text v code t s' -> sspec (repeat_kind c ≫= (fun '(min, opt) => repeat_end min opt)) s' Q) ->
      sspec (ParseRepeatType strVal) s Q) by (intros Q HQ; apply Hch; by eapply sspec_bind; [by eapply advance_spec|]).
    pose proof (fun s' H => repeat_kind_spec v code c t s' H Ech) as Hkind.
    destruct (parse_count (c :: t)) as [[[min opt] t']| | |]; simpl mbind; [| |done..].
    + assert (Hgoal : sreturns (ParseRepeatType strVal) s (fun r s' => let minimize := match t' with c :: _ => c =? 63 | [] => false end in
        r = (min, opt, minimize) /\ at_text v code (if minimize then tail t' else t') s')).
      { apply Hk. intros s1 H1. eapply sspec_bind; [by apply Hkind|]. intros r s2 [-> H2]. by apply repeat_end_spec. }
      destruct t' as [|d t']; cbv beta iota zeta in Hgoal; [done|]. by destruct (d =? 63).
    + apply Hk. intros s1 H1. apply bad_bind; [by apply Hkind|]. intros [min opt]. unfold repeat_end. sticks.
  - destruct (repeat_none v code t ch s Hs eq_refl Ech) as [-> Hn]. simpl mbind.
    assert (Hgoal : sreturns (ParseRepeatType strVal) s (fun r s' => let minimize := match t with c :: _ => c =? 63 | [] => false end in
      r = (1, 0, minimize) /\ at_text v code (if minimize then tail t else t) s')).
    { apply Hch. apply sspec_bind_assoc. eapply sspec_bind; [exact Hn|]. intros r s2 [-> H2]. by apply repeat_end_spec. }
    destruct t as [|d t]; cbv beta iota zeta in Hgoal; [done|]. by destruct (d =? 63).
Qed.
End chars.

(** The same two steps for the files that use the section's lemmas. *)
Ltac cur_char H :=
  step ltac:(eapply cur_spec; [eassumption|exact H]); let E := fresh "E" in intros ? ? E; cbv beta in E; destruct E as [-> ->].
Ltac next H :=
  step ltac:(eapply advance_spec; [eassumption|exact H]); clear H; let u := fresh "u" in let st := fresh "st" in
  intros u st H; cbv beta in H; clear u.
