(* ===== verification/ReSets.v ===== *)
(** * ReSets: character sets

    The parts of the compiler of regular expressions that read and emit
    character sets, and the emission of a repeated character. *)

From S2P Require Import Prelude Runtime Digits Value IntConv Encodings EncodingsSpec StrOps.
From S2P Require Import StrSpec StrTables ReDefs ReSem ReComp ReParse ReBuffer ReEmit ReChars.

Open Scope Z_scope.

(** ** What the grammar yields *)

Definition esc_ok (e : esc) : Prop :=
  match e with
  | EscChar c => word c
  | EscClass k _ => 0 <= k < 3
  | EscAssert a c => (a = AsBow \/ a = AsEow) /\ word c
  | EscRef n => 1 <= n <= 9
  end.

Lemma hex_value_range c x : hex_value c = Some x -> 0 <= x < 16.
Proof. unfold hex_value, AIsDigit, IsHex. destruct ((48 <=? c) && _) eqn:E1; [|destruct ((97 <=? _) && _) eqn:E2];
  intros H; simplify_eq; lia. Qed.

Lemma parse_hex_ok t : word (parse_hex t).1 /\ (length (parse_hex t).2 <= length t)%nat.
Proof.
  unfold parse_hex, word. destruct t as [|c1 t1]; [by split; [|simpl; lia]|].
  destruct (hex_value c1) as [d1|] eqn:E1; [|split; simpl; lia]. apply hex_value_range in E1.
  destruct t1 as [|c2 t2]; [split; simpl; lia|].
  destruct (hex_value c2) as [d2|] eqn:E2; [apply hex_value_range in E2|]; split; simpl; lia.
Qed.

Lemma parse_octal_ok n number t : 0 <= number ->
  0 <= (parse_octal n number t).1 < (number + 1) * 8 ^ Z.of_nat n /\ (length (parse_octal n number t).2 <= length t)%nat.
Proof.
  revert number t. induction n as [|n IH]; intros number t Hn; [simpl; destruct t; simpl; lia|].
  replace (8 ^ Z.of_nat (S n)) with (8 * 8 ^ Z.of_nat n) by (rewrite Nat2Z.inj_succ, Z.pow_succ_r by lia; done).
  assert (Hp : 0 < 8 ^ Z.of_nat n) by (apply Z.pow_pos_nonneg; lia). cbn [parse_octal]. destruct t as [|c t]; [simpl; split; [nia|lia]|].
  unfold IsOctal. destruct (_ && _) eqn:E; [|simpl; split; [nia|lia]].
  destruct (IH (number * 8 + (c - 48)) t ltac:(lia)) as [H1 H2]. split; [nia|simpl; lia].
Qed.

Lemma parse_digit_ok c t : AIsDigit c = true -> esc_ok (parse_digit c t).1 /\ (length (parse_digit c t).2 <= length t)%nat.
Proof.
  intros Hc. unfold AIsDigit in Hc. unfold parse_digit. destruct (negb (c =? 48) && _) eqn:E.
  - apply andb_prop in E as [E%negb_true_iff%Z.eqb_neq _]. simpl. lia.
  - destruct (parse_octal_ok 2 (c - 48) t ltac:(lia)) as [H1 H2].
    destruct (parse_octal 2 (c - 48) t) as [x t']; cbn [fst snd] in *. split; [|done]. unfold esc_ok, word.
    change (8 ^ Z.of_nat 2) with 64 in H1. lia.
Qed.

Lemma parse_letter_ok c : (97 <=? c) && (c <=? 122) = true -> esc_ok (parse_letter c).
Proof.
  intros Hc. assert (H : forallb (fun n => let conv := dg CharConv (Z.of_nat n) in
      if CC <=? conv then conv <? 38 else 0 <=? conv) (seq 0 26) = true) by by vm_compute.
  rewrite forallb_forall in H. specialize (H (Z.to_nat (c - 97)) ltac:(apply in_seq; lia)). rewrite Z2Nat.id in H by lia.
  unfold parse_letter. cbv zeta in *. set (conv := dg CharConv (c - 97)) in *. destruct (Z.leb_spec CC conv).
  - simpl. unfold CC in *. lia.
  - unfold esc_ok, word, CC in *. destruct (conv =? 0); lia.
Qed.

(** A character that is not escaped may be any word. *)
Lemma parse_esc_shape t p : parse_esc t = POk p ->
  (esc_ok p.1 \/ exists c t', t = c :: t' /\ p = (EscChar c, t')) /\ (length p.2 < length t)%nat.
Proof.
  intros Hp. destruct t as [|c t]; [done|]. cbn [parse_esc] in Hp.
  destruct (negb (c =? 92)); [injection Hp as <-; split; [right; eauto|simpl; lia]|].
  destruct t as [|c2 t]; [done|]. cbv zeta in Hp. injection Hp as <-.
  assert (Hu : word (u8 c2)) by (unfold word, u8; zsolve).
  destruct (u8 c2 =? 120).
  { destruct (parse_hex_ok t) as [H1 H2]. destruct (parse_hex t); simpl in *. split; [by left|lia]. }
  destruct ((97 <=? u8 c2) && (u8 c2 <=? 122)) eqn:El; [split; [left; by apply parse_letter_ok|simpl; lia]|].
  destruct (u8 c2 =? 60); [simpl; split; [tauto|lia]|]. destruct (u8 c2 =? 62); [simpl; split; [tauto|lia]|].
  do 3 (destruct (u8 c2 =? _); [simpl; split; [left; lia|lia]|]). destruct (AIsDigit (u8 c2)) eqn:Ed; [|simpl; split; [by left|lia]].
  destruct (parse_digit_ok (u8 c2) t Ed). simpl. split; [by left|lia].
Qed.

Lemma parse_esc_ok t p : Forall word t -> parse_esc t = POk p -> esc_ok p.1 /\ (length p.2 < length t)%nat.
Proof.
  intros Ht Hp. destruct (parse_esc_shape t p Hp) as [[He|(c & t' & -> & ->)] Hl]; (split; [|exact Hl]); [done|].
  by inversion Ht.
Qed.

Lemma esc_char_word e : esc_ok e -> word (esc_char e).
Proof.
  destruct e as [c|k complement|a c|n]; simpl; try tauto; unfold word, CC.
  - destruct complement; lia.
  - destruct (7 <? n); lia.
Qed.

Lemma u32_word x : 0 <= u32 x < BASE.
Proof. apply u32_range. Qed.

Lemma parse_number_range last acc t : 0 <= acc < BASE ->
  0 <= (parse_number last acc t).1 < BASE /\ (length (parse_number last acc t).2 <= length t)%nat.
Proof.
  revert acc. induction t as [|c t IH]; intros acc Ha; cbn [parse_number]; [by split|]. destruct (_ && _); [|by split].
  destruct (IH (u32 (acc * 10 + (c - 48))) (u32_range _)). split; [done|simpl; lia].
Qed.

Lemma parse_opt_range min t : 0 <= (parse_opt min t).1 /\ (length (parse_opt min t).2 <= length t)%nat.
Proof.
  unfold parse_opt. destruct t as [|c t]; [by split|]. destruct (c =? 44); [|by split].
  destruct (first_digit t); simpl; [|split; [done|lia]].
  destruct (parse_number_range false 0 t ltac:(done)). split; [apply u32_range|lia].
Qed.

Lemma infinite_value : A_INFINITE_REPEAT = 32768.
Proof. done. Qed.

(** The counts, and the rest is a rest of the pattern. *)
Definition count_ok (t : list Z) (r : Z * Z * list Z) : Prop :=
  let '(min, opt, t') := r in 0 <= min <= 65535 /\ 0 <= opt <= A_INFINITE_REPEAT /\ (length t' <= length t)%nat.

Lemma parse_count_ok t r : parse_count t = POk r -> count_ok t r.
Proof.
  unfold parse_count, count_ok. rewrite infinite_value. destruct t as [|c t]; [intros [= <-]; cbn [length]; lia|].
  destruct (c =? 63); [intros [= <-]; cbn [length]; lia|]. destruct (c =? 43); [intros [= <-]; cbn [length]; lia|].
  destruct (c =? 42); [intros [= <-]; cbn [length]; lia|]. destruct (c =? 123); [|intros [= <-]; cbn [length]; lia].
  unfold parse_range. destruct (_ && _); [|done]. cbv zeta.
  destruct (parse_number_range true 0 t ltac:(done)) as [Hm Hl1]. set (m := parse_number true 0 t) in *.
  destruct (parse_opt_range m.1 m.2) as [Ho Hl2]. destruct (parse_opt m.1 m.2) as [opt t']. simpl in Ho, Hl2.
  destruct t' as [|d t']; [done|]. rewrite infinite_value.
  destruct (negb (d =? 125) || (32768 <? opt)) eqn:E; [done|].
  destruct (Z.ltb_spec 65535 m.1); [done|]. intros [= <-]. cbn [length] in *. apply orb_false_iff in E as [_ E]. lia.
Qed.

Definition repeat_ok (t : list Z) (r : Z * Z * bool * list Z) : Prop :=
  let '(min, opt, _, t') := r in 0 <= min <= 65535 /\ 0 <= opt <= A_INFINITE_REPEAT /\ (length t' <= length t)%nat.

Lemma parse_repeat_ok t r : parse_repeat t = POk r -> repeat_ok t r.
Proof.
  unfold parse_repeat. destruct (parse_count t) as [[[min opt] t']| | |] eqn:E; simpl mbind; try done.
  apply parse_count_ok in E. unfold count_ok, repeat_ok in *. destruct t' as [|c t']; [by intros [= <-]|].
  destruct (c =? 63); intros [= <-]; cbn [length] in *; lia.
Qed.

(** ** Emission *)

Section sets.
Context (strVal : StrObj) (flags : Z) (behind : storage) (l : list Z).
Hypothesis Hstr : represents strVal l.
#[local] Set Default Proof Using "Type Hstr".
Local Abbreviation at_text := (at_text l).

(** Operations that do not look at the pattern. *)
Lemma at_text_lift (m : SM ParseInfo unit) v code code' t s :
  (forall i s, is_at (vw_str i v) code s -> sreturns m s (fun _ => is_at (vw_str i v) code')) ->
  at_text v code t s -> sreturns m s (fun _ => at_text v code' t).
Proof using.
  intros Hm (i & Hs & Ht). eapply sreturns_mono; [by apply (Hm i)|]. intros ? s' Hs'. by exists i.
Qed.

Lemma Emit_text v code t w s : at_text v code t s -> word w -> sreturns (Emit behind w) s (fun _ => at_text v (code ++ [w]) t).
Proof using.
  intros Hs Hw. replace (code ++ [w]) with (code ++ [u16 w]) by (by rewrite u16_word). eapply at_text_lift; [|done]. intros i s' Hs'. by apply Emit_spec.
Qed.

(** The code of a repetition without its operand. *)
Definition chars_head (op : ReOp) (min opt : Z) (minimize : bool) : list Z :=
  if (min =? 1) && (opt =? 0) then [op_num op] else [op_num op + A_REPEAT + Z.b2z minimize; min; opt].

Lemma ParseSimpleRepetition_spec v code t s op : at_text v code t s ->
  match parse_repeat t with
  | POk (min, opt, minimize, t') =>
      sreturns (ParseSimpleRepetition strVal behind (op_num op)) s
        (fun _ => at_text (vw_min (u32 (v_min v + min)) v) (code ++ chars_head op min opt minimize) t')
  | PBad => bad (ParseSimpleRepetition strVal behind (op_num op)) s
  | _ => True
  end.
Proof.
  intros Hs. pose proof (ParseRepeatType_spec strVal l Hstr v code t s Hs) as Hr.
  destruct (parse_repeat t) as [[[[min opt] minimize] t']| | |] eqn:E; [| |done..].
  - apply parse_repeat_ok in E as (Hmin & Hopt & _). unfold ParseSimpleRepetition.
    step ltac:(exact Hr). intros r s1 [-> H1]. cbn [fst snd] in H1 |- *.
    assert (Hw : word min /\ word opt /\ word (op_num op) /\ word (op_num op + A_REPEAT + Z.b2z minimize)).
    { pose proof (op_num_range op). rewrite infinite_value in Hopt. unfold word, A_REPEAT. destruct minimize; cbn [Z.b2z]; lia. }
    destruct Hw as (Hw1 & Hw2 & Hw3 & Hw4). unfold chars_head.
    apply (sreturns_bind _ _ _ (fun _ => at_text v (code ++ chars_head op min opt minimize) t')).
    + unfold chars_head. destruct (min =? 1), (opt =? 0); cbn [negb orb andb]; [by apply Emit_text|..].
      all: step ltac:(by apply Emit_text); intros ? s2 H2; cbv beta in H2; step ltac:(by eapply Emit_text);
        intros ? s3 H3; cbv beta in H3; eapply sreturns_mono; [by eapply Emit_text|]; intros ? s4 H4;
        cbv beta in H4; repeat rewrite <- app_assoc in H4; exact H4.
    + intros _ s2 (i & H2 & Ht2). apply sreturns_modify. exists i. split; [|done].
      destruct (is_at_view _ _ _ H2) as (_ & _ & _ & _ & -> & _). by apply (is_at_min (vw_str i v)).
  - unfold ParseSimpleRepetition. apply bad_bind; [exact Hr|]. intros [[min opt] minimize]. sticks.
Qed.

Lemma EmitCharSet_spec v code t s set ranges complement fl :
  at_text v code t s -> set_ok set -> Forall (fun '(lo, hi) => word lo /\ word hi) ranges -> zlen ranges < 65536 -> 0 <= fl < 16 ->
  sreturns (EmitCharSet flags behind set ranges complement fl) s (fun _ =>
    at_text v (code ++ wset_code (emitted_set (nocase flags) complement set ranges fl)) t).
Proof using.
  intros Hs Hset Hr Hn Hfl. eapply at_text_lift; [|done]. clear s Hs. intros i s Hs. set (v' := vw_str i v) in *. unfold EmitCharSet.
  set (len := A_RE_SET_SIZE + 2 + zlen ranges * 2). unfold A_RE_SET_SIZE in len.
  destruct (at_out _ _ _ Hs) as (_ & _ & _ & rest & Hb).
  step ltac:(apply (reserve_spec _ v' code); [done|rewrite Hb; zl]). intros ? s1 [H1 Hroom]. cbv zeta.
  set (ws := if complement then _ else set). assert (Hws : set_ok ws) by (unfold ws; destruct complement; [by apply complement_ok|done]).
  destruct Hws as [Hl Hw]. step ltac:(apply put_words_spec; [exact H1|exact Hw|lia]). intros ? s2 H2. cbv beta in H2.
  step ltac:(eapply Emit_spec, H2). intros ? s3 H3. cbv beta in H3.
  set (f := Z.lor (Z.lor fl _) _). step ltac:(eapply Emit_spec, H3). intros ? s4 H4. cbv beta in H4.
  rewrite !u16_word in H4; [|unfold word, f|unfold word; lia].
  - eapply sreturns_mono; [apply emit_ranges_spec; [exact H4|done]|]. intros ? s5 H5. cbv beta in H5.
    repeat rewrite <- app_assoc in H5. exact H5.
  - assert (H : forallb (fun n => forallb (fun a => forallb (fun b => let x := Z.lor (Z.lor (Z.of_nat n) a) b in (0 <=? x) && (x <? 65536))
      [0; A_WS_COMPLEMENT]) [0; A_WS_IGNORE_CASE]) (seq 0 16) = true) by by vm_compute.
    rewrite forallb_forall in H. specialize (H (Z.to_nat fl) ltac:(apply in_seq; lia)). rewrite Z2Nat.id in H by lia.
    rewrite forallb_forall in H. specialize (H (if nocase flags then A_WS_IGNORE_CASE else 0) ltac:(destruct (nocase flags); simpl; tauto)).
    rewrite forallb_forall in H. specialize (H (if complement then A_WS_COMPLEMENT else 0) ltac:(destruct complement; simpl; tauto)).
    cbv zeta in H. lia.
Qed.

(** The characters of a set may start the match if nothing is in front. *)
Definition with_start (v : View) (set : list Z) : View :=
  if v_min v =? 0 then vw_start (zip_with (fun x y => u16 (Z.lor x y)) (v_start v) set) v else v.

Lemma AddStartSet_spec v code t s set complement : at_text v code t s ->
  sreturns (AddStartSet set complement) s (fun _ => at_text (with_start v (if complement then complement_set set else set)) code t).
Proof using.
  intros (i & Hs & Ht). unfold AddStartSet, with_start. apply sreturns_get_bind. destruct (is_at_view _ _ _ Hs) as (_ & _ & _ & _ & -> & _ & Hst).
  cbn [v_min vw_str]. destruct (v_min v =? 0); [|apply sreturns_ret; by exists i].
  apply sreturns_modify. exists i. split; [|done]. rewrite Hst. cbn [v_start vw_str]. unfold map_set.
  replace (zip_with _ _ set) with (zip_with (fun x y => u16 (Z.lor x y)) (v_start v) (if complement then complement_set set else set)).
  - by apply (is_at_start (vw_str i v)).
  - destruct complement; [|apply zip_with_ext; try done; intros; by rewrite Z.lxor_0_r].
    unfold complement_set. by rewrite zip_with_fmap_r.
Qed.
(** ** Items *)

Lemma AddToWideSet_spec w lo hi : returns (AddToWideSet w lo hi) (fun w' => ws_data w' = add_wide lo hi (ws_data w)).
Proof using.
  unfold AddToWideSet, add_wide. destruct (_ || _); [by apply returns_ret|].
  eapply (returns_bind _ _ (fun _ => True)); [|intros m _; by apply returns_ret].
  destruct (_ =? _); [|by apply returns_ret].
  destruct (_ =? _); (eapply returns_bind; [apply AAlloc_spec|]; intros; by apply returns_ret).
Qed.

(** The state of the loop over the items [items]. *)
Definition items_state (items : list sitem) (st : list Z * WideCharSet * Z) : Prop :=
  fold_left add_item items (replicate 16 0, [], 0) = (st.1.1, ws_data st.1.2, st.2).

(** The loop is left at the end of the pattern, or with an error. *)
Definition ends {A} (m : SM ParseInfo A) (v : View) (code : list Z) (s : ParseInfo) (stop : A -> Prop) : Prop :=
  sspec m s (fun r s' => match r with
    | Ok x => isError s' = true \/ stop x /\ at_text v code [] s'
    | Raise _ => False
    | Fault => True
    end).

Lemma bad_ends {A} (m : SM ParseInfo A) v code s stop : bad m s -> ends m v code s stop.
Proof using. intros H. eapply sspec_mono; [exact H|]. intros [x|e|] s' Hr; [by left|done..]. Qed.

Lemma esc_class_test e : esc_ok e -> (CC <=? (esc_pair flags e).2) = match e with EscClass _ _ => true | _ => false end.
Proof using.
  intros He. destruct e as [c|k complement|a c|n]; cbn [esc_pair snd].
  - done.
  - apply Z.leb_le. unfold class_code. simpl in He. unfold CC_COMP. destruct complement; lia.
  - destruct He as [[-> | ->] _]; done.
  - by destruct (nocase flags).
Qed.

Lemma add_wide_spec wset lo hi (f : WideCharSet -> list Z * WideCharSet * Z) s :
  sreturns (wset ← lift (AddToWideSet wset lo hi); mret (M := SM ParseInfo) (Some (f wset))) s
    (fun r s' => s' = s /\ exists w, ws_data w = add_wide lo hi (ws_data wset) /\ r = Some (f w)).
Proof using.
  eapply sreturns_lift_bind; [apply AddToWideSet_spec|]. intros w Hw. cbv beta in Hw. apply sreturns_ret. split; [done|]. by exists w.
Qed.

(** The upper end of a range, [-] being behind. *)
Definition range_item (set : list Z) (wset : WideCharSet) (fl ch : Z) : SM ParseInfo (option (list Z * WideCharSet * Z)) :=
  s ← get;
  if strPos s =? strEnd strVal then mret None
  else
    c ← cur strVal;
    '(set, hiChar) ← (if c =? 93 then mret (AReAddToSet set 45, ch)
      else
        '(hiChar, code) ← ParseChar strVal flags;
        (if CC <=? code then AGenerateError else mret tt) ≫= (fun _ => mret (set, hiChar)));
    wset ← lift (AddToWideSet wset ch hiChar);
    mret (Some (add_range ch hiChar set, wset, fl)).

(** The same in the grammar. *)
Definition range_to (lo : Z) (t : list Z) : parsed (sitem * list Z) :=
  match t with
  | [] => PBad
  | d :: _ =>
    if d =? 93 then POk (SDash lo, t)
    else
      '(e2, t) ← parse_esc t;
      match e2 with EscClass _ _ => PBad | _ => POk (SRange lo (esc_char e2), t) end
  end.

(** The result of a round that adds the item [it]. *)
Definition item_added (items : list sitem) (it : sitem) (v : View) (code t : list Z)
    (r : option (list Z * WideCharSet * Z)) (s : ParseInfo) : Prop :=
  exists st', r = Some st' /\ items_state (items ++ [it]) st' /\ at_text v code t s.

Lemma item_added_intro items it v code t set w fl s :
  add_item (fold_left add_item items (replicate 16 0, [], 0)) it = (set, ws_data w, fl) -> at_text v code t s ->
  item_added items it v code t (Some (set, w, fl)) s.
Proof using.
  intros Hi Hs. eexists. split; [done|]. split; [|done]. unfold items_state. by rewrite fold_left_app.
Qed.

Lemma range_item_spec v code lo t items st s : at_text v code t s -> Forall word t -> items_state items st ->
  match range_to lo t with
  | POk (it, t') => sreturns (range_item st.1.1 st.1.2 st.2 lo) s (item_added items it v code t')
  | PBad => ends (range_item st.1.1 st.1.2 st.2 lo) v code s (fun r => r = None)
  | _ => True
  end.
Proof.
  intros Hs Hw Hi. destruct st as [[set wset] fl]. unfold items_state in Hi. cbn [fst snd] in *. unfold range_item.
  destruct t as [|d t]; cbn [range_to].
  { apply sspec_get_bind. rewrite (at_end _ _ Hstr _ _ _ _ Hs). cbn [is_nil]. apply sspec_ret. by right. }
  destruct (d =? 93) eqn:Ed.
  { apply sreturns_get_bind. rewrite (at_end _ _ Hstr _ _ _ _ Hs). cbn [is_nil]. cur_char Hs. rewrite Ed.
    step ltac:(by apply (sreturns_ret _ _ (fun r s' => r = (AReAddToSet set 45, lo) /\ s' = s))). intros r ? [-> ->].
    eapply sreturns_mono; [by apply (add_wide_spec wset lo lo (fun w => (_, w, fl)))|].
    intros r s' (-> & w & Hd & ->). apply item_added_intro; [|done]. rewrite Hi, Hd. done. }
  pose proof (ParseChar_spec strVal flags l Hstr v code (d :: t) s Hs ltac:(done)) as Hc.
  destruct (parse_esc (d :: t)) as [[e2 t']| | |] eqn:E2; simpl mbind; [| |done..].
  2:{ apply bad_ends, bad_get. rewrite (at_end _ _ Hstr _ _ _ _ Hs). cbn [is_nil].
    cur_char Hs. rewrite Ed. apply bad_bind; [apply bad_bind; [exact Hc|]|]; intros [? ?]; sticks. }
  destruct (parse_esc_ok _ _ Hw E2) as [He2 _]. cbn [fst snd] in Hc, He2.
  assert (Hb : forall Q, (forall s', at_text v code t' s' ->
     sspec ((if CC <=? (esc_pair flags e2).2 then AGenerateError else mret tt) ≫= (fun _ =>
       wset ← lift (AddToWideSet wset lo (esc_char e2)); mret (Some (add_range lo (esc_char e2) set, wset, fl)))) s' Q) ->
     sspec (range_item set wset fl lo) s Q).
  { intros Q HQ. unfold range_item. apply sspec_get_bind. rewrite (at_end _ _ Hstr _ _ _ _ Hs). cbn [is_nil].
    eapply sspec_bind; [by eapply cur_spec|]. intros ? ? [-> ->]. rewrite Ed. apply sspec_bind_flat.
    eapply sspec_bind; [exact Hc|]. intros r s' [-> Hs']. cbn [esc_pair fst snd]. specialize (HQ s' Hs').
    apply sspec_bind_flat. exact HQ. }
  destruct (match e2 with EscClass _ _ => true | _ => false end) eqn:Ecl.
  - destruct e2; try done. apply bad_ends, Hb. intros s' Hs'. rewrite esc_class_test by done. apply error_bad. sticks.
  - assert (Hgoal : sreturns (range_item set wset fl lo) s (item_added items (SRange lo (esc_char e2)) v code t')).
    { apply Hb. intros s' Hs'. rewrite esc_class_test, Ecl by done.
      step ltac:(by apply (sreturns_ret _ _ (fun _ s'' => s'' = s'))). intros ? ? ->.
      eapply sreturns_mono; [by apply (add_wide_spec wset lo (esc_char e2) (fun w => (_, w, fl)))|].
      intros r s'' (-> & w & Hd & ->). apply item_added_intro; [|done]. rewrite Hi, Hd. done. }
    by destruct e2.
Qed.

Lemma set_item_spec v code c t e items st s :
  at_text v code (c :: t) s -> Forall word t -> esc_ok e -> items_state items st ->
  match item_of e (c :: t) with
  | POk (it, t') => sreturns (set_item strVal flags (esc_char e) (esc_pair flags e).2 st) s (item_added items it v code t')
  | PBad => ends (set_item strVal flags (esc_char e) (esc_pair flags e).2 st) v code s (fun r => r = None)
  | _ => True
  end.
Proof.
  intros Hs Hw He Hi. destruct st as [[set wset] fl]. pose proof Hi as Hi'. unfold items_state in Hi. cbn [fst snd] in Hi. unfold set_item.
  rewrite esc_class_test by done.
  destruct (match e with EscClass _ _ => true | _ => false end) eqn:Ecl.
  - destruct e as [|k complement| |]; try done. cbn [esc_pair snd item_of].
    destruct (add_class (class_code k complement) set fl) as [set' fl'] eqn:Eadd. destruct (c =? 45) eqn:E.
    + apply bad_ends. cur_char Hs. rewrite E. apply error_bad. intros. sticks.
    + cur_char Hs. rewrite E. step ltac:(by apply (sreturns_ret _ _ (fun _ s' => s' = s))). intros ? ? ->.
      apply sreturns_ret. apply item_added_intro; [|done]. rewrite Hi. cbn [add_item]. by rewrite Eadd.
  - assert (Hitem : item_of e (c :: t) =
      if c =? 45 then range_to (esc_char e) t else POk (SChar (esc_char e), c :: t)) by (by destruct e). rewrite Hitem. clear Hitem.
    destruct (c =? 45) eqn:E.
    + assert (Hb : forall Q, (forall s', at_text v code t s' -> sspec (range_item set wset fl (esc_char e)) s' Q) ->
        sspec (c0 ← cur strVal; if c0 =? 45 then advance 1 ≫= (fun _ => range_item set wset fl (esc_char e)) else
          wset ← lift (AddToWideSet wset (esc_char e) (esc_char e));
          mret (Some (AAddWideToSet set (esc_char e), wset, fl))) s Q).
      { intros Q HQ. eapply sspec_bind; [by eapply cur_spec|]. intros ? ? [-> ->]. rewrite E.
        eapply sspec_bind; [by eapply advance_spec|]. done. }
      pose proof (fun s' H => range_item_spec v code (esc_char e) t items _ s' H Hw Hi') as Hr. cbn [fst snd] in Hr.
      destruct (range_to (esc_char e) t) as [[it t']| | |]; [| |done..]; by apply Hb.
    + cur_char Hs. rewrite E.
      eapply sreturns_mono; [by apply (add_wide_spec wset (esc_char e) (esc_char e) (fun w => (_, w, fl)))|].
      intros r s' (-> & w & Hd & ->). apply item_added_intro; [|done]. rewrite Hi, Hd. done.
Qed.
(** ** Loops over items *)

Definition item_ok (it : sitem) : Prop :=
  match it with
  | SChar c | SDash c => word c
  | SRange lo hi => word lo /\ word hi
  | SClass k _ => 0 <= k < 3
  end.

Lemma item_of_ok e t it t' : Forall word t -> esc_ok e -> item_of e t = POk (it, t') ->
  item_ok it /\ (length t' <= length t)%nat.
Proof using.
  intros Ht He H. destruct t as [|c t]; [done|]. inversion Ht as [|? ? Hc Ht']; subst. pose proof (esc_char_word e He) as Hw.
  assert (Hr : forall it t', range_to (esc_char e) t = POk (it, t') -> item_ok it /\ (length t' <= S (length t))%nat).
  { clear it t' H. intros it t' H. unfold range_to in H. destruct t as [|d t]; [done|].
    destruct (d =? 93); [injection H as <- <-; split; [done|simpl; lia]|].
    destruct (parse_esc (d :: t)) as [[e2 t2]| | |] eqn:E2; simpl mbind in H; try done.
    destruct (parse_esc_ok _ _ Ht' E2) as [He2 Hl]. cbn [fst snd] in *. pose proof (esc_char_word e2 He2).
    destruct e2; try done; injection H as <- <-; (split; [done|lia]). }
  unfold range_to in Hr. cbn [item_of] in H. destruct e as [x|k b|a x|n].
  2:{ destruct (c =? 45); [done|]. injection H as <- <-. split; [done|lia]. }
  all: destruct (c =? 45); [by apply Hr in H|]; injection H as <- <-; (split; [done|simpl; lia]).
Qed.

(** What is known of the state of the loop, with at most [n] ranges. *)
Definition st_ok (n : Z) (st : list Z * list (Z * Z) * Z) : Prop :=
  set_ok st.1.1 /\ Forall (fun '(lo, hi) => word lo /\ word hi) st.1.2 /\ zlen st.1.2 <= n /\ In st.2 [0; 4; 8; 12].

Lemma add_range_ok lo hi set : set_ok set -> set_ok (add_range lo hi set).
Proof using.
  unfold add_range. generalize (Z.to_nat (Z.min hi 255 + 1 - lo)) as n. intros n. revert lo set.
  induction n as [|n IH]; intros lo set Hs; cbn [add_chars]; [done|]. by apply IH, AReAddToSet_ok.
Qed.

Lemma add_wide_ok lo hi ranges : word lo -> word hi -> Forall (fun '(lo, hi) => word lo /\ word hi) ranges ->
  Forall (fun '(lo, hi) => word lo /\ word hi) (add_wide lo hi ranges) /\ zlen (add_wide lo hi ranges) <= zlen ranges + 1.
Proof using.
  intros Hlo Hhi Hr. unfold add_wide. destruct (_ || _); [split; [done|lia]|]. split; [|rewrite length_app; simpl; lia].
  apply Forall_app_2; [done|]. by apply Forall_singleton.
Qed.

Lemma class_of_ok code : In code [35; 36; 37; 163; 164; 165] -> length (class_of code) = 16%nat /\ set_ok (class_of code).
Proof using.
  intros H. assert (Hall : forallb (fun code => (length (class_of code) =? 16)%nat && forallb (fun w => (0 <=? w) && (w <? 65536)) (class_of code))
    [35; 36; 37; 163; 164; 165] = true) by by vm_compute.
  rewrite forallb_forall in Hall. apply Hall in H. apply andb_prop in H as [Hl%Nat.eqb_eq Hf]. split; [exact Hl|split; [exact Hl|]].
  apply Forall_forall. intros w Hw. rewrite forallb_forall in Hf. specialize (Hf w).
  specialize (Hf Hw). lia.
Qed.

Lemma class_code_in k complement : 0 <= k < 3 -> In (class_code k complement) [35; 36; 37; 163; 164; 165].
Proof using.
  intros Hk. unfold class_code, CC, CC_COMP. assert (k = 0 \/ k = 1 \/ k = 2) as [-> | [-> | ->]] by lia; destruct complement; simpl; tauto.
Qed.

Lemma add_class_ok code set fl : In code [35; 36; 37; 163; 164; 165] -> set_ok set -> In fl [0; 4; 8; 12] ->
  set_ok (add_class code set fl).1 /\ In (add_class code set fl).2 [0; 4; 8; 12].
Proof using.
  intros Hc Hs Hf. unfold add_class. cbn [fst snd]. split.
  - assert (Hz : set_ok (map_set (fun x y => Z.lor x (if has_flag code CC_COMP then Z.lnot y else y)) set (class_of code))).
    { apply zip_ok; [apply Hs|by apply class_of_ok]. }
    destruct (_ || _); [by apply AReToggleInSet_ok|done].
  - destruct (code =? CC_W), (code =? Z.lor CC_W CC_COMP); simpl in Hf |- *;
      destruct Hf as [<-|[<-|[<-|[<-|[]]]]]; simpl; tauto.
Qed.

Lemma add_item_ok n st it : item_ok it -> st_ok n st -> st_ok (n + 1) (add_item st it).
Proof using.
  destruct st as [[set ranges] fl]. unfold st_ok. cbn [fst snd]. intros Hi (Hs & Hr & Hn & Hf).
  destruct it as [c|c|lo hi|k complement]; cbn [add_item fst snd item_ok] in *.
  - destruct (add_wide_ok c c ranges Hi Hi Hr). split_and!; [|done|lia|done]. unfold AAddWideToSet.
    destruct (c <? 256); [by apply AReAddToSet_ok|done].
  - destruct (add_wide_ok c c ranges Hi Hi Hr). split_and!; [by apply add_range_ok, AReAddToSet_ok|done|lia|done].
  - destruct Hi as [Hlo Hhi]. destruct (add_wide_ok lo hi ranges Hlo Hhi Hr). split_and!; [by apply add_range_ok|done|lia|done].
  - pose proof (add_class_ok (class_code k complement) set fl (class_code_in k complement Hi) Hs Hf) as [H1 H2].
    destruct (add_class _ set fl) as [set' fl']. cbn [fst snd] in *. split_and!; [done|done|lia|done].
Qed.

Lemma items_ok items : Forall item_ok items -> st_ok (zlen items) (fold_left add_item items (replicate 16 0, [], 0)).
Proof using.
  intros Hi. induction items as [|it items IH] using rev_ind.
  - unfold st_ok. cbn [fold_left fst snd length]. split_and!; [by apply const_set_ok|constructor|done|by left].
  - apply Forall_app in Hi as [Hi Hit]. inversion Hit; subst. rewrite fold_left_app, length_app. cbn [fold_left length].
    replace (Z.of_nat (length items + 1)) with (zlen items + 1) by lia. by apply add_item_ok; [|apply IH].
Qed.

Lemma ends_bind {A B} (m : SM ParseInfo A) (f : A -> SM ParseInfo B) v code s stop stop' :
  ends m v code s stop -> (forall a, sticky (f a)) ->
  (forall a s', stop a -> at_text v code [] s' -> ends (f a) v code s' stop') -> ends (m ≫= f) v code s stop'.
Proof using.
  intros Hm Hst Hf t. destruct (Hm t) as [Hh Hr]. unfold mbind, SM_bind.
  destruct (m s t) as [[[a|e|] s'] t']; simpl in *.
  - destruct Hr as [[He|[Ha Hs]]|[? _]]; [|destruct (Hf a s' Ha Hs t') as [Hh' Hr']|done].
    + destruct (bad_ends (f a) v code s' stop' (Hst a s' He) t') as [Hh' Hr']. split; [congruence|].
      by rewrite (supplied_heap t t') in Hr' by done.
    + split; [congruence|]. by rewrite (supplied_heap t t') in Hr' by done.
  - destruct Hr as [[]|[? ?]]. split; [done|]. right. split; [congruence|done].
  - split; [done|]. by left.
Qed.

(** What the loop does with the items of the grammar. *)
Definition loop_follows (r : parsed (list sitem * list Z)) (m : SM ParseInfo (list Z * WideCharSet * Z)) v code
    (bound : Z) (s : ParseInfo) : Prop :=
  match r with
  | POk (items', t') => sreturns m s (fun st' s' =>
      items_state items' st' /\ at_text v code (93 :: t') s' /\ Forall item_ok items' /\ zlen items' <= bound)
  | PBad => ends m v code s (fun _ => True)
  | _ => True
  end.

(** A round without its first character. *)
Definition set_round (n : nat) (st : list Z * WideCharSet * Z) (ch code : Z) : SM ParseInfo (list Z * WideCharSet * Z) :=
  r ← set_item strVal flags ch code st;
  match r with
  | None => mret st
  | Some st =>
    s ← get;
    if strPos s <? strEnd strVal then c ← cur strVal; if c =? 93 then mret st else set_loop strVal flags n st
    else mret st
  end.

Lemma set_round_spec k n v code c t e items st s :
  (forall t items st s, at_text v code t s -> t <> [] -> items_state items st -> Forall item_ok items ->
     loop_follows (parse_items k items t) (set_loop strVal flags n st) v code (zlen items + zlen t) s) ->
  at_text v code (c :: t) s -> esc_ok e -> items_state items st -> Forall item_ok items ->
  loop_follows ('(it, s) ← item_of e (c :: t);
    match s with
    | c :: t => if c =? 93 then POk (items ++ [it], t) else parse_items k (items ++ [it]) s
    | [] => PBad
    end) (set_round n st (esc_char e) (esc_pair flags e).2) v code (zlen items + zlen t + 2) s.
Proof.
  intros IH Hs He Hi Hok. pose proof (at_text_words strVal l Hstr _ _ _ _ Hs) as Hw.
  pose proof (set_item_spec v code c t e items st s Hs ltac:(by inversion Hw) He Hi) as Hr.
  unfold set_round. destruct (item_of e (c :: t)) as [[it t2]| | |] eqn:Eit; simpl mbind; [| |done..].
  - destruct (item_of_ok _ _ _ _ Hw He Eit) as [Hit Hl2]. simpl in Hl2.
    assert (Hok' : Forall item_ok (items ++ [it])) by (apply Forall_app_2; [done|by apply Forall_singleton]).
    destruct t2 as [|c2 t2]; cbn [loop_follows].
    + eapply sspec_bind; [exact Hr|]. intros r s' (st' & -> & _ & Hs'). apply sspec_get_bind.
      rewrite (before_end _ _ Hstr _ _ _ _ Hs'). apply sspec_ret. by right.
    + destruct (c2 =? 93) eqn:E93.
      * apply Z.eqb_eq in E93 as ->. cbn [loop_follows]. eapply sreturns_bind; [exact Hr|]. intros r s' (st' & -> & Hi' & Hs').
        apply sreturns_get_bind. rewrite (before_end _ _ Hstr _ _ _ _ Hs'). cbn [is_nil negb].
        cur_char Hs'. apply sreturns_ret. split_and!; [done..|]. zl.
      * assert (Hgo : forall Q, (forall st' s', items_state (items ++ [it]) st' -> at_text v code (c2 :: t2) s' ->
            sspec (set_loop strVal flags n st') s' Q) -> sspec (set_round n st (esc_char e) (esc_pair flags e).2) s Q).
        { intros Q HQ. unfold set_round. eapply sspec_bind; [exact Hr|]. intros r s' (st' & -> & Hi' & Hs').
          apply sspec_get_bind. rewrite (before_end _ _ Hstr _ _ _ _ Hs'). cbn [is_nil negb].
          eapply sspec_bind; [by eapply cur_spec|]. intros ? ? [-> ->]. rewrite E93. by apply HQ. }
        pose proof (fun st' s' Hi' Hs' => IH (c2 :: t2) (items ++ [it]) st' s' Hs' (not_eq_sym (@nil_cons _ c2 t2)) Hi' Hok') as Hloop.
        destruct (parse_items k (items ++ [it]) (c2 :: t2)) as [[items' t']| | |]; cbn [loop_follows] in *; [| |done..].
        -- apply Hgo. intros st' s' Hi' Hs'. eapply sreturns_mono; [by apply Hloop|]. intros st2 s2 (H1 & H2 & H3 & H4).
           split_and!; [done..|]. zl.
        -- apply Hgo. intros st' s' Hi' Hs'. by apply Hloop.
  - cbn [loop_follows]. eapply ends_bind; [exact Hr|intros; sticks|]. intros r s' -> Hs'. apply sspec_ret. by right.
Qed.

Lemma set_loop_spec k n v code t items st s :
  at_text v code t s -> t <> [] -> items_state items st -> Forall item_ok items -> (k <= n)%nat ->
  loop_follows (parse_items k items t) (set_loop strVal flags n st) v code (zlen items + zlen t) s.
Proof.
  revert n t items st s. induction k as [|k IH]; intros n t items st s Hs Ht Hi Hok Hkn; [done|].
  destruct n as [|n]; [lia|]. cbn [parse_items set_loop].
  pose proof (ParseChar_spec strVal flags l Hstr v code t s Hs Ht) as Hc.
  pose proof (at_text_words strVal l Hstr _ _ _ _ Hs) as Hw.
  destruct (parse_esc t) as [[e t1]| | |] eqn:Ee; simpl mbind; [| |done..].
  2:{ apply bad_ends, bad_bind; [exact Hc|]. intros [? ?]. sticks. }
  destruct (parse_esc_ok _ _ Hw Ee) as [He Hl1]. cbn [fst snd] in Hc, He, Hl1.
  assert (Hb : forall Q, (forall s', at_text v code t1 s' ->
      sspec (if is_nil t1 then mret st else set_round n st (esc_char e) (esc_pair flags e).2) s' Q) ->
      sspec (set_loop strVal flags (S n) st) s Q).
  { intros Q HQ. cbn [set_loop]. eapply sspec_bind; [exact Hc|]. intros r s' [-> Hs']. cbn [esc_pair fst snd].
    apply sspec_get_bind. rewrite (at_end _ _ Hstr _ _ _ _ Hs'). by apply HQ. }
  destruct t1 as [|c t1].
  { cbn [item_of]. apply Hb. intros s' Hs'. apply sspec_ret. by right. }
  cbn [is_nil] in Hb. simpl in Hl1.
  pose proof (fun s' Hs' => set_round_spec k n v code c t1 e items st s'
    (fun t items st s H1 H2 H3 H4 => IH n t items st s H1 H2 H3 H4 ltac:(lia)) Hs' He Hi Hok) as Hr.
  destruct (mbind _ _) as [[items' t']| | |]; cbn [loop_follows] in *; [| |done..]; apply Hb; intros s' Hs'; [|by apply Hr].
  eapply sreturns_mono; [by apply Hr|]. intros st' s2 (H1 & H2 & H3 & H4). split_and!; [done..|lia].
Qed.
Lemma ends_bad {A B} (m : SM ParseInfo A) (f : A -> SM ParseInfo B) v code s stop :
  ends m v code s stop -> (forall a, sticky (f a)) ->
  (forall a s', stop a -> at_text v code [] s' -> bad (f a) s') -> bad (m ≫= f) s.
Proof using.
  intros Hm Hst Hf t. destruct (Hm t) as [Hh Hr]. unfold mbind, SM_bind.
  destruct (m s t) as [[[a|e|] s'] t']; simpl in *.
  - assert (Hb : bad (f a) s') by (destruct Hr as [[He|[Ha Hs]]|[? _]]; [by apply Hst|by apply Hf|done]).
    destruct (Hb t') as [Hh' Hr']. split; [congruence|]. by rewrite (supplied_heap t t') in Hr' by done.
  - destruct Hr as [[]|[? ?]]. split; [done|]. right. split; [congruence|done].
  - split; [done|]. by left.
Qed.

(** ** Sets *)

Lemma emitted_bits nocase complement set ranges fl :
  ws_bits (emitted_set nocase complement set ranges fl) = if complement then complement_set set else set.
Proof using. done. Qed.

Lemma fold_case_ok n i set : set_ok set -> set_ok (fold_case n i set).
Proof using.
  revert i set. induction n as [|n IH]; intros i set Hs; cbn [fold_case]; [done|]. apply IH.
  destruct (AReIsInSet set i); [by do 2 apply AReAddToSet_ok|done].
Qed.

(** What a repeated character does to the state. *)
Definition set_view (v : View) (ws : wset) (min : Z) : View := vw_min (u32 (v_min v + min)) (with_start v (ws_bits ws)).

(** From the set and its ranges to the code. *)
Lemma set_emitted v code t s set ranges complement fl :
  at_text v code t s -> set_ok set -> Forall (fun '(lo, hi) => word lo /\ word hi) ranges -> zlen ranges < 65536 -> 0 <= fl < 16 ->
  let ws := emitted_set (nocase flags) complement set ranges fl in
  follows (parse_repeat t)
    (AddStartSet set complement ≫= (fun _ => ParseSimpleRepetition strVal behind (op_num A_SET) ≫= (fun _ =>
     EmitCharSet flags behind set ranges complement fl))) s
    (fun '(min, opt, minimize, t') _ => at_text (set_view v ws min) (code ++ chars_code (CSet ws) min opt minimize) t').
Proof.
  intros Hs Hset Hr Hn Hfl ws. eapply follows_step; [by apply AddStartSet_spec|]. intros ? s1 H1. cbv beta in H1.
  pose proof (ParseSimpleRepetition_spec _ _ _ _ A_SET H1) as Hp.
  destruct (parse_repeat t) as [[[[min opt] minimize] t']| | |]; cbn [follows]; [| |done..].
  - step ltac:(exact Hp). intros ? s2 H2. cbv beta in H2. eapply sreturns_mono; [by eapply EmitCharSet_spec|].
    intros ? s3 H3. cbv beta in H3. rewrite <- app_assoc in H3. unfold set_view, ws. rewrite emitted_bits.
    replace (v_min (with_start v _)) with (v_min v) in H3 by (unfold with_start; by destruct (v_min v =? 0)). exact H3.
  - apply bad_bind; [exact Hp|]. intros. sticks.
Qed.

Lemma escaped_class_spec v code t s k complement : at_text v code t s -> 0 <= k < 3 ->
  let ws := class_set (nocase flags) k complement in
  follows (parse_repeat t) (escaped_class strVal flags behind (class_code k complement)) s
    (fun '(min, opt, minimize, t') _ => at_text (set_view v ws min) (code ++ chars_code (CSet ws) min opt minimize) t').
Proof.
  intros Hs Hk ws. unfold escaped_class.
  assert (Hcode : has_flag (class_code k complement) CC_COMP = complement /\
    (class_code k complement =? CC_W) || (class_code k complement =? Z.lor CC_W CC_COMP) = (k =? 2)).
  { assert (k = 0 \/ k = 1 \/ k = 2) as [-> | [-> | ->]] by lia; by destruct complement. }
  destruct Hcode as [-> ->].
  destruct (class_of_ok (class_code k complement) (class_code_in k complement Hk)) as [_ Hc].
  apply set_emitted; [done| |constructor|done|by destruct (k =? 2)].
  destruct (k =? 2); [by apply AReToggleInSet_ok|done].
Qed.

(** The brackets. *)
Lemma parse_class_spec v code t s : at_text v code (91 :: t) s -> zlen l < 65536 ->
  follows ('(ws, t) ← parse_set (nocase flags) t; '(min, opt, minimize, t) ← parse_repeat t; POk (ws, min, opt, minimize, t))
    (parse_class strVal flags behind) s
    (fun '(ws, min, opt, minimize, t') _ => at_text (set_view v ws min) (code ++ chars_code (CSet ws) min opt minimize) t').
Proof.
  intros Hs Hl. unfold parse_class. eapply follows_step; [eapply advance_spec; [done|exact Hs]|]. clear Hs. intros ? s1 Hs. cbv beta in Hs.
  unfold parse_set. set (complement := match t with c :: _ => c =? 94 | [] => false end).
  eapply follows_get.
  eapply (follows_step _ _ _ _ (fun c s' => c = complement /\ at_text v code t s')).
  { rewrite (before_end _ _ Hstr _ _ _ _ Hs). destruct t as [|c t]; cbn [is_nil negb]; [by apply sreturns_ret|].
    cur_char Hs. by apply sreturns_ret. }
  clear s1 Hs. intros c s1 [-> Hs]. cbv zeta. set (t1 := if complement then drop 1 t else t).
  eapply (follows_step _ _ _ _ (fun _ => at_text v code t1)).
  { unfold t1. destruct t as [|c t]; [by apply sreturns_ret|]. unfold complement. destruct (c =? 94); [|by apply sreturns_ret].
    eapply advance_spec; [done|exact Hs]. }
  clearbody t1. clear s1 Hs. intros ? s1 Hs. apply follows_get. rewrite (at_end _ _ Hstr _ _ _ _ Hs).
  destruct t1 as [|c1 t1]; cbn [is_nil].
  { apply follows_bad. apply error_bad. intros. sticks. }
  eapply follows_step; [by apply (sreturns_ret _ _ (fun _ s' => s' = s1))|]. intros ? ? ->.
  assert (Hfuel : (S (length (c1 :: t1)) <= S (Z.to_nat (strEnd strVal)))%nat)
    by (pose proof (at_text_fuel _ _ Hstr _ _ _ _ Hs); lia).
  revert Hfuel. generalize (S (length (c1 :: t1))) (S (Z.to_nat (strEnd strVal))). intros k n Hfuel.
  pose proof (set_loop_spec k n v code (c1 :: t1) [] (replicate 16 0, MkWide [] 0, 0) s1 Hs ltac:(done)
    (eq_refl : items_state [] (replicate 16 0, MkWide [] 0, 0)) ltac:(constructor) Hfuel) as Hloop.
  destruct (parse_items k [] (c1 :: t1)) as [[items t2]| | |]; cbn [loop_follows] in Hloop; [| |done..].
  2:{ apply follows_pbad. apply (ends_bad (set_loop strVal flags _ _) _ v code _ (fun _ => True)); [exact Hloop|intros; sticks|].
    intros [[set wset] fl] s2 _ H2. apply bad_get. rewrite (at_end _ _ Hstr _ _ _ _ H2). cbn [is_nil]. apply error_bad. intros. sticks. }
  apply follows_pok. cbv beta iota.
  eapply follows_step; [exact Hloop|]. intros [[set wset] fl] s2 (Hi & H2 & Hok & Hn). unfold items_state in Hi. cbn [fst snd] in Hi.
  apply items_ok in Hok. rewrite Hi in Hok. destruct Hok as (Hset & Hr & Hlen & Hfl). cbn [fst snd] in *.
  apply follows_get. rewrite (at_end _ _ Hstr _ _ _ _ H2). cbn [is_nil].
  eapply follows_step; [by apply (sreturns_ret _ _ (fun _ s' => s' = s2))|]. intros ? ? ->.
  eapply follows_step; [eapply advance_spec; [done|exact H2]|]. clear H2. intros ? s3 H3. cbv beta in H3. cbv zeta.
  unfold set_of. rewrite Hi. set (set' := if nocase flags then _ else set).
  apply follows_pok1. cbv beta iota. eapply follows_map; [apply (set_emitted v code t2 s3 set' (ws_data wset) complement fl); [done|..]|].
  - unfold set'. destruct (nocase flags); [by apply fold_case_ok|done].
  - done.
  - pose proof (at_text_length _ _ _ _ _ Hs) as Hle. change (zlen (@nil sitem)) with 0 in Hn. clearbody set'. lia.
  - clearbody set'. simpl in Hfl. lia.
  - by intros [[[min opt] minimize] t'] ?.
Qed.
End sets.
