(* ===== verification/ReShape.v ===== *)
(** * ReShape: the trees that the grammar yields

    What the parser of [ReParse] guarantees of its trees: counts, character
    sets and the numbers of the groups are in range ([shaped]); it never runs
    out of fuel; and how the least length and the first characters of a match
    ([covers]) go along with the construction of a tree. *)

From stdpp Require Import gmap.
From S2P Require Import Prelude Runtime Digits Value StrTables ReDefs ReMatch ReSem ReRun.
From S2P Require Import ReStep ReSound ReMatches ReComp ReParse ReBuffer ReEmit ReChars ReSets.

Open Scope Z_scope.

(** ** Concatenation *)

Lemma cat_cases r1 r2 :
  (r1 = REmpty /\ cat r1 r2 = r2) \/ (r2 = REmpty /\ cat r1 r2 = r1) \/ cat r1 r2 = RSeq r1 r2.
Proof. destruct r1; [by left|..]; right; destruct r2; (by left) || (by right). Qed.

Lemma code_cat r1 r2 : code_of (cat r1 r2) = code_of r1 ++ code_of r2.
Proof. destruct (cat_cases r1 r2) as [[-> ->]|[[-> ->]| ->]]; [done|by rewrite app_nil_r|done]. Qed.

Lemma code_copies n r : code_of (copies n r) = concat (replicate n (code_of r)).
Proof. induction n as [|n IH]; [done|]. cbn [copies replicate concat]. by rewrite code_cat, IH. Qed.

Lemma min_len_cat r1 r2 : min_len (cat r1 r2) = min_len r1 + min_len r2.
Proof. destruct (cat_cases r1 r2) as [[-> ->]|[[-> ->]| ->]]; cbn [min_len]; lia. Qed.

Lemma min_len_copies n r : min_len (copies n r) = Z.of_nat n * min_len r.
Proof. induction n as [|n IH]; [done|]. cbn [copies]. rewrite min_len_cat, IH. lia. Qed.

Lemma matches_cat l r1 r2 x z : matches l (cat r1 r2) x z <-> exists y, matches l r1 x y /\ matches l r2 y z.
Proof.
  destruct (cat_cases r1 r2) as [[-> ->]|[[-> ->]| ->]]; split.
  - intros H. exists x. split; [constructor|done].
  - intros (y & H1 & H2). by inversion H1; subst.
  - intros H. exists z. split; [done|constructor].
  - intros (y & H1 & H2). by inversion H2; subst.
  - intros H. inversion H; subst. eauto.
  - intros (y & H1 & H2). by econstructor.
Qed.

(** ** Shape *)

(** Counts and sets in range, and the groups numbered from [lo] to [hi - 1],
    those inside a group with larger numbers than its own. *)
Fixpoint shaped (lo hi : Z) (r : re) : Prop :=
  match r with
  | REmpty => True
  | RAssert a => a <> AsBol
  | RChars k min opt _ => charset_ok k /\ 0 <= min <= 65535 /\ 0 <= opt <= 32768
  | RLit _ s => s <> []
  | RSeq r1 r2 | RAlt r1 r2 => shaped lo hi r1 /\ shaped lo hi r2
  | RGroup n r | RLoop _ n r => lo <= n < hi /\ shaped (n + 1) hi r
  | ROpt _ r => shaped lo hi r
  | RRef _ n | RRefLoop _ _ n => 1 <= n <= 9
  end.

Lemma shaped_mono lo hi lo' hi' r : lo' <= lo -> hi <= hi' -> shaped lo hi r -> shaped lo' hi' r.
Proof.
  revert lo lo'. induction r; intros lo lo' Hlo Hhi H; cbn [shaped] in *; try done;
    try (destruct H; split; eauto; fail); try (by eauto).
  all: destruct H as [Hn H]; split; [lia|]; eapply (IHr (n + 1)); [lia|done..].
Qed.

Lemma shaped_groups lo hi r n : shaped lo hi r -> group_in n r -> lo <= n < hi.
Proof.
  revert lo. induction r; intros lo H Hg; cbn [shaped group_in] in *; try done;
    try (destruct H; destruct Hg as [Hg|Hg]; eauto; fail); try (by eauto).
  all: destruct H as [Hn H]; destruct Hg as [->|Hg]; [done|]; specialize (IHr _ H Hg); lia.
Qed.

Lemma shaped_counts lo hi r : shaped lo hi r -> counts_ok r.
Proof.
  revert lo. induction r; intros lo H; cbn [shaped counts_ok] in *; try done; try lia;
    try (destruct H; split; eauto; fail); try (by eauto); destruct H; eauto.
Qed.

Lemma shaped_cat lo hi r1 r2 : shaped lo hi r1 -> shaped lo hi r2 -> shaped lo hi (cat r1 r2).
Proof. intros H1 H2. by destruct (cat_cases r1 r2) as [[-> ->]|[[-> ->]| ->]]. Qed.

Lemma shaped_copies lo hi n r : shaped lo hi r -> shaped lo hi (copies n r).
Proof. intros H. induction n as [|n IH]; [done|]. by apply shaped_cat. Qed.

Lemma shaped_repeated lo hi min opt minimize r loop :
  shaped lo hi r -> shaped lo hi loop -> shaped lo hi (repeated min opt minimize r loop).
Proof.
  intros Hr Hl. unfold repeated. apply shaped_cat; [by apply shaped_copies|].
  destruct (opt =? A_INFINITE_REPEAT); [done|]. by apply shaped_copies.
Qed.

(** Sixteen bits of count for each word of code. *)
Lemma min_len_code lo hi r : shaped lo hi r -> 0 <= min_len r <= 65535 * zlen (code_of r).
Proof.
  revert lo. induction r as [|a|k min opt minimize|i s|r1 IH1 r2 IH2|r1 IH1 r2 IH2|n r IH|i n|minimize r IH|minimize n r IH|minimize i n];
    intros lo H; cbn [shaped min_len code_of] in *; try lia.
  - unfold chars_code. rewrite length_app. destruct (_ && _); cbn [length]; lia.
  - rewrite length_app. cbn [length]. lia.
  - destruct H as [H1 H2]. specialize (IH1 _ H1). specialize (IH2 _ H2). rewrite length_app. lia.
  - destruct H as [H1 H2]. specialize (IH1 _ H1). specialize (IH2 _ H2). rewrite !length_app. cbn [length]. lia.
  - destruct H as [H1 H2]. specialize (IH _ H2). rewrite !length_app. cbn [length]. lia.
Qed.

(** The code does not start with the opcode that would mark the expression as
    anchored. *)
Lemma shaped_head lo hi r w t : shaped lo hi r -> code_of r = w :: t -> w <> op_num A_BOL.
Proof.
  revert lo w t. induction r as [|a|k min opt minimize|i s|r1 IH1 r2 IH2|r1 IH1 r2 IH2|n r IH|i n|minimize r IH|minimize n r IH|minimize i n];
    intros lo w t H Hc; cbn [shaped code_of] in *.
  - done.
  - injection Hc as <- _. by destruct a.
  - unfold chars_code in Hc. destruct (_ && _); injection Hc as <- _; destruct k as [[] c| |ws]; try done; by destruct minimize.
  - injection Hc as <- _. by destruct i.
  - destruct H as [H1 H2]. destruct (code_of r1) as [|w1 t1]; [by eapply IH2|]. injection Hc as <- _. by eapply IH1.
  - by injection Hc as <- _.
  - by injection Hc as <- _.
  - injection Hc as <- _. by destruct i.
  - injection Hc as <- _. by destruct minimize.
  - injection Hc as <- _. by destruct minimize.
  - injection Hc as <- _. by destruct minimize.
Qed.

(** The rest of [re_ok]: what the matcher does not handle. *)
Fixpoint supported (wide : bool) (r : re) : Prop :=
  match r with
  | RChars k min opt _ => wide_safe wide k min opt
  | RSeq r1 r2 | RAlt r1 r2 => supported wide r1 /\ supported wide r2
  | RGroup _ r | ROpt _ r | RLoop _ _ r => supported wide r
  | RRef _ n => n < 8
  | RRefLoop _ _ _ => False
  | _ => True
  end.

Lemma shaped_re_ok wide lo hi r : 0 <= lo -> hi <= 65536 -> shaped lo hi r -> supported wide r -> re_ok wide hi r.
Proof.
  revert lo. induction r as [|a|k min opt minimize|i s|r1 IH1 r2 IH2|r1 IH1 r2 IH2|n r IH|i n|minimize r IH|minimize n r IH|minimize i n];
    intros lo Hlo Hhi H Hs; cbn [shaped supported re_ok] in *; try done.
  - destruct H as (Hk & Hm & Ho). split_and!; (done || lia).
  - destruct H, Hs. split; eauto.
  - destruct H, Hs. split; eauto.
  - destruct H as [Hn H]. split_and!; [lia..| |]; [|by apply (IH (n + 1)); [lia|..]].
    intros Hg. apply (shaped_groups _ _ _ _ H) in Hg. lia.
  - lia.
  - eauto.
  - destruct H as [Hn H]. split_and!; [lia..| |]; [|by apply (IH (n + 1)); [lia|..]].
    intros Hg. apply (shaped_groups _ _ _ _ H) in Hg. lia.
Qed.

(** ** The parsers *)

Definition class_ok (e : esc) : Prop :=
  match e with EscClass k _ => 0 <= k < 3 | EscRef n => 1 <= n <= 9 | EscAssert a _ => a <> AsBol | _ => True end.

Lemma parse_esc_class t p : parse_esc t = POk p -> class_ok p.1 /\ (length p.2 < length t)%nat.
Proof.
  intros Hp. destruct (parse_esc_shape t p Hp) as [[He|(c & t' & -> & ->)] Hl]; (split; [|exact Hl]); [|done].
  destruct p.1 as [| |a c|]; try done. by destruct He as [[-> | ->] _].
Qed.

Definition item_shape (it : sitem) : Prop := match it with SClass k _ => 0 <= k < 3 | _ => True end.

Lemma item_of_shape e t it t' : class_ok e -> item_of e t = POk (it, t') -> item_shape it /\ (length t' <= length t)%nat.
Proof.
  intros He H. destruct t as [|c t]; [done|].
  assert (Hr : forall it t', range_to (esc_char e) t = POk (it, t') -> item_shape it /\ (length t' <= S (length t))%nat).
  { clear it t' H. intros it t' H. unfold range_to in H. destruct t as [|d t]; [done|].
    destruct (d =? 93); [injection H as <- <-; split; [done|simpl; lia]|].
    destruct (parse_esc (d :: t)) as [[e2 t2]| | |] eqn:E2; simpl mbind in H; try done.
    destruct (parse_esc_class _ _ E2) as [_ Hl]. cbn [fst snd] in *.
    destruct e2; try done; injection H as <- <-; (split; [done|lia]). }
  unfold range_to in Hr. cbn [item_of] in H. destruct e as [x|k b|a x|n].
  2:{ destruct (c =? 45); [done|]. injection H as <- <-. split; [done|lia]. }
  all: destruct (c =? 45); [by apply Hr in H|]; injection H as <- <-; (split; [done|simpl; lia]).
Qed.

Lemma parse_items_shape n items t items' t' : Forall item_shape items -> parse_items n items t = POk (items', t') ->
  Forall item_shape items' /\ (length t' < length t)%nat.
Proof.
  revert items t. induction n as [|n IH]; intros items t Hi H; [done|]. cbn [parse_items] in H.
  destruct (parse_esc t) as [[e t1]| | |] eqn:Ee; simpl mbind in H; try done.
  destruct (parse_esc_class _ _ Ee) as [He Hl]. cbn [fst snd] in *.
  destruct (item_of e t1) as [[it t2]| | |] eqn:Eit; simpl mbind in H; try done.
  destruct (item_of_shape _ _ _ _ He Eit) as [Hit Hl2].
  assert (Hi' : Forall item_shape (items ++ [it])) by (apply Forall_app_2; [done|by apply Forall_singleton]).
  destruct t2 as [|c t2]; [done|]. simpl in Hl2. destruct (c =? 93).
  - injection H as <- <-. split; [done|lia].
  - apply IH in H as [H1 H2]; [|done]. split; [done|simpl in H2; lia].
Qed.

Lemma parse_esc_total t : parse_esc t <> PStuck.
Proof. destruct t as [|c t]; [done|]. cbn [parse_esc]. destruct (negb (c =? 92)); [done|]. by destruct t. Qed.

Lemma item_of_total e t : item_of e t <> PStuck.
Proof.
  destruct t as [|c t]; [done|]. cbn [item_of].
  assert (Hr : forall c, match t with
      | [] => PBad
      | d :: _ => if d =? 93 then POk (SDash c, t) else
          '(e2, t) ← parse_esc t; match e2 with EscClass _ _ => PBad | _ => POk (SRange c (esc_char e2), t) end
      end <> PStuck).
  { intros x. destruct t as [|d t]; [done|]. destruct (d =? 93); [done|]. pose proof (parse_esc_total (d :: t)).
    destruct (parse_esc (d :: t)) as [[e2 t2]| | |]; simpl mbind; [by destruct e2|done..]. }
  destruct e; destruct (c =? 45); done.
Qed.

Lemma parse_items_total n items t : (length t < n)%nat -> parse_items n items t <> PStuck.
Proof.
  revert items t. induction n as [|n IH]; intros items t Hn; [lia|]. cbn [parse_items].
  pose proof (parse_esc_total t). destruct (parse_esc t) as [[e t1]| | |] eqn:Ee; simpl mbind; try done.
  destruct (parse_esc_class _ _ Ee) as [He Hl]. cbn [fst snd] in *.
  pose proof (item_of_total e t1). destruct (item_of e t1) as [[it t2]| | |] eqn:Eit; simpl mbind; try done.
  destruct (item_of_shape _ _ _ _ He Eit) as [_ Hl2]. destruct t2 as [|c t2]; [done|]. destruct (c =? 93); [done|].
  apply IH. lia.
Qed.

Lemma add_to_length set c : length (AReAddToSet set c) = length set.
Proof. unfold AReAddToSet, upd. by rewrite length_insert. Qed.

Lemma add_range_length lo hi set : length (add_range lo hi set) = length set.
Proof.
  unfold add_range. generalize (Z.to_nat (Z.min hi 255 + 1 - lo)) as n. intros n. revert lo set.
  induction n as [|n IH]; intros lo set; cbn [add_chars]; [done|]. by rewrite IH, add_to_length.
Qed.

Lemma fold_case_length n i set : length (fold_case n i set) = length set.
Proof.
  revert i set. induction n as [|n IH]; intros i set; cbn [fold_case]; [done|]. rewrite IH.
  destruct (AReIsInSet set i); by rewrite ?add_to_length.
Qed.

Lemma add_item_length st it : item_shape it -> length st.1.1 = 16%nat -> length (add_item st it).1.1 = 16%nat.
Proof.
  destruct st as [[set ranges] fl]. intros Hi Hl. cbn [fst] in *.
  destruct it as [c|c|lo hi|k complement]; cbn [add_item fst] in *.
  - unfold AAddWideToSet. destruct (c <? 256); by rewrite ?add_to_length.
  - by rewrite add_range_length, add_to_length.
  - by rewrite add_range_length.
  - unfold add_class. cbn [fst]. destruct (class_of_ok (class_code k complement) (class_code_in k complement Hi)) as [Hc _].
    assert (Hz : length (map_set (fun x y => Z.lor x (if has_flag (class_code k complement) CC_COMP then Z.lnot y else y)) set
      (class_of (class_code k complement))) = 16%nat) by (unfold map_set; by rewrite length_zip_with, Hl, Hc).
    destruct (_ || _); [unfold AReToggleInSet, upd; by rewrite length_insert|done].
Qed.

Lemma set_of_length nocase complement items : Forall item_shape items -> zlen (ws_bits (set_of nocase complement items)) = 16.
Proof.
  intros Hi. assert (Hl : length (fold_left add_item items (replicate 16 0, [], 0)).1.1 = 16%nat).
  { induction items as [|it items IH] using rev_ind; [done|]. apply Forall_app in Hi as [Hi Hit].
    rewrite fold_left_app. cbn [fold_left]. apply add_item_length; [by inversion Hit|auto]. }
  unfold set_of. destruct (fold_left _ _ _) as [[set ranges] fl]. cbn [fst] in Hl. unfold emitted_set. cbn [ws_bits].
  destruct complement; rewrite ?length_fmap; destruct nocase; rewrite ?fold_case_length; lia.
Qed.

Lemma class_set_length nocase k complement : 0 <= k < 3 -> zlen (ws_bits (class_set nocase k complement)) = 16.
Proof.
  intros Hk. destruct (class_of_ok (class_code k complement) (class_code_in k complement Hk)) as [Hc _].
  unfold class_set, emitted_set. cbn [ws_bits]. destruct complement; rewrite ?length_fmap; destruct (k =? 2);
    unfold AReToggleInSet, upd; rewrite ?length_insert; lia.
Qed.

Lemma parse_set_shape nocase t ws t' : parse_set nocase t = POk (ws, t') -> zlen (ws_bits ws) = 16 /\ (length t' <= length t)%nat.
Proof.
  unfold parse_set. set (complement := match t with c :: _ => c =? 94 | [] => false end). cbv zeta.
  set (t1 := if complement then drop 1 t else t).
  assert (Hl : (length t1 <= length t)%nat) by (unfold t1; destruct complement; rewrite ?length_drop; lia).
  destruct (parse_items (S (length t1)) [] t1) as [[items t2]| | |] eqn:E; simpl mbind; try done.
  apply parse_items_shape in E as [H1 H2]; [|constructor]. intros [= <- <-]. split; [by apply set_of_length|lia].
Qed.

Lemma parse_set_total nocase t : parse_set nocase t <> PStuck.
Proof.
  unfold parse_set. cbv zeta. set (complement := match t with c :: _ => c =? 94 | [] => false end).
  set (t1 := if complement then drop 1 t else t).
  pose proof (parse_items_total (S (length t1)) [] t1 ltac:(lia)).
  by destruct (parse_items (S (length t1)) [] t1) as [[items t2]| | |].
Qed.

Lemma parse_repeat_total t : parse_repeat t <> PStuck.
Proof.
  assert (Hc : parse_count t <> PStuck).
  { unfold parse_count. destruct t as [|c t]; [done|]. do 3 (destruct (c =? _); [done|]). destruct (c =? 123); [|done].
    unfold parse_range. destruct (_ && _); [|done]. cbv zeta. destruct (parse_opt _ _) as [opt t']. destruct t' as [|d t']; [done|].
    destruct (_ || _); [done|]. by destruct (65535 <? _). }
  unfold parse_repeat. destruct (parse_count t) as [[[min opt] t']| | |]; simpl mbind; try done.
  destruct t' as [|c t']; [done|]. by destruct (c =? 63).
Qed.

(** What an item is, with any group numbers. *)
Definition atom_shape (t : list Z) (r : (re + Z) * list Z) : Prop :=
  (forall lo hi, match r.1 with inl r => shaped lo hi r | inr _ => True end) /\ (length r.2 < length t)%nat.

(** The repetition of an item behind [t]. *)
Lemma repeat_shape (f : Z -> Z -> bool -> re) t1 t r :
  (forall min opt minimize lo hi, 0 <= min <= 65535 -> 0 <= opt <= 32768 -> shaped lo hi (f min opt minimize)) ->
  (length t1 < length t)%nat ->
  ('(min, opt, minimize, s) ← parse_repeat t1; POk (inl (f min opt minimize), s)) = POk r -> atom_shape t r.
Proof.
  intros Hf Hl. destruct (parse_repeat t1) as [[[[min opt] minimize] t2]| | |] eqn:E; simpl mbind; try done.
  apply parse_repeat_ok in E as (Hm & Ho & Hl2). rewrite infinite_value in Ho. intros [= <-].
  split; [intros lo hi; by apply Hf|simpl; lia].
Qed.

Lemma parse_atom_shape nocase c t complete r : parse_atom nocase c (c :: t) complete = POk r -> atom_shape (c :: t) r.
Proof.
  unfold parse_atom. change (drop 1 (c :: t)) with t. destruct (c =? 94); [intros [= <-]; split; [done|simpl; lia]|].
  destruct (c =? 36); [intros [= <-]; split; [done|simpl; lia]|].
  destruct (c =? 46). { apply (repeat_shape (RChars CAny)); [intros; split; [done|lia]|simpl; lia]. }
  destruct (c =? 91).
  { destruct (parse_set nocase t) as [[ws t1]| | |] eqn:E; simpl mbind; try done. apply parse_set_shape in E as [Hw Hl].
    apply (repeat_shape (RChars (CSet ws))); [intros; split; [done|lia]|simpl; lia]. }
  destruct (is_repeat c); [done|]. destruct (parse_esc (c :: t)) as [[e t1]| | |] eqn:Ee; simpl mbind; try done.
  destruct (parse_esc_class _ _ Ee) as [He Hl]. cbn [fst snd class_ok] in *. destruct e as [ch|k complement|a ch|n].
  - destruct t1 as [|d t1]; [intros [= <-]; by split|]. destruct (is_repeat d); [|intros [= <-]; by split].
    apply (repeat_shape (RChars (CLit nocase _))); [intros; split; [done|lia]|done].
  - apply (repeat_shape (RChars (CSet (class_set nocase k complement)))); [|done].
    intros. split; [by apply class_set_length|by split].
  - intros [= <-]. by split.
  - destruct (Z.testbit complete n); [|done].
    apply (repeat_shape (fun min opt minimize => repeated min opt minimize (RRef nocase n) (RRefLoop minimize nocase n))); [|done].
    intros. by apply shaped_repeated.
Qed.

Lemma parse_atom_total nocase c t complete : parse_atom nocase c t complete <> PStuck.
Proof.
  assert (Hrep : forall (f : Z -> Z -> bool -> re + Z) t1,
    ('(min, opt, minimize, s) ← parse_repeat t1; POk (f min opt minimize, s)) <> PStuck).
  { intros f t1. pose proof (parse_repeat_total t1). by destruct (parse_repeat t1) as [[[[min opt] minimize] t2]| | |]. }
  unfold parse_atom. do 2 (destruct (c =? _); [done|]).
  destruct (c =? 46); [by apply (Hrep (fun min opt minimize => inl (RChars CAny min opt minimize)))|]. destruct (c =? 91).
  { pose proof (parse_set_total nocase (drop 1 t)). destruct (parse_set nocase (drop 1 t)) as [[ws t1]| | |]; simpl mbind; done. }
  destruct (is_repeat c); [done|]. pose proof (parse_esc_total t).
  destruct (parse_esc t) as [[e t1]| | |]; simpl mbind; try done. destruct e as [ch|k complement|a ch|n]; [| |done|].
  - destruct t1 as [|d t1]; [done|]. destruct (is_repeat d); [|done].
    by apply (Hrep (fun min opt minimize => inl (RChars (CLit nocase _) min opt minimize))).
  - by apply (Hrep (fun min opt minimize => inl (RChars (CSet _) min opt minimize))).
  - destruct (Z.testbit complete n); [|done].
    by apply (Hrep (fun min opt minimize => inl (repeated min opt minimize _ (RRefLoop minimize nocase n)))).
Qed.

(** What has been read since [p]: the groups are numbered by the parentheses. *)
Definition reads (p p' : progress) : Prop :=
  p_groups p <= p_groups p' /\ p_groups p' + zlen (p_rest p') <= p_groups p + zlen (p_rest p).

Lemma reads_refl p : reads p p.
Proof. split; lia. Qed.

Lemma reads_trans p1 p2 p3 : reads p1 p2 -> reads p2 p3 -> reads p1 p3.
Proof. unfold reads. lia. Qed.

Lemma lit_re_shape nocase lit lo hi : shaped lo hi (lit_re nocase lit).
Proof. destruct lit as [|c [|c2 lit]]; [done|done|]. done. Qed.

Definition group_shape (n0 : Z) (p : progress) (r : parsed (re * progress)) : Prop :=
  match r with POk (r, p') => reads p p' /\ shaped n0 (p_groups p') r | _ => True end.

Lemma parse_group_shape alts t n complete :
  (forall p, p_groups p = n + 1 -> group_shape (n + 1) p (alts p)) -> 0 <= n ->
  match parse_group alts (MkProgress t n complete) with
  | POk (r, p') => n < p_groups p' /\ p_groups p' + zlen (p_rest p') <= n + zlen t /\ shaped n (p_groups p') r
  | _ => True
  end.
Proof.
  intros Ha Hn. unfold parse_group. cbn [p_rest p_groups p_complete]. destruct t as [|c0 t]; [done|].
  specialize (Ha (MkProgress (c0 :: t) (n + 1) complete) eq_refl).
  destruct (alts _) as [[r p1]| | |]; simpl mbind; try done. destruct Ha as [[H1 H2] H3]. cbn [p_rest p_groups] in H1, H2.
  destruct (p_rest p1) as [|c s] eqn:Er; [done|]. destruct (c =? 41); [|done].
  destruct (parse_repeat s) as [[[[min opt] minimize] t2]| | |] eqn:E; simpl mbind; try done.
  apply parse_repeat_ok in E as (Hm & Ho & Hl2). cbn [p_rest p_groups]. cbn [length] in *. split_and!; [lia|lia|].
  apply shaped_repeated; cbn [shaped]; (split; [lia|done]).
Qed.

Lemma parse_shape nocase fuel :
  (forall depth acc lit n0 p, n0 <= p_groups p -> 0 <= p_groups p -> shaped n0 (p_groups p) acc ->
     group_shape n0 p (parse_concat nocase fuel depth acc lit p)) /\
  (forall depth p, 0 <= p_groups p -> group_shape (p_groups p) p (parse_alternatives nocase fuel depth p)).
Proof.
  induction fuel as [|fuel [IHc IHa]]; [by split|]. split.
  - intros depth acc lit n0 p Hn0 Hp Hacc. cbn [parse_concat]. destruct p as [t n complete]. cbn [p_rest p_groups p_complete] in *.
    assert (Hdone : shaped n0 n (cat acc (lit_re nocase lit))) by (apply shaped_cat; [done|apply lit_re_shape]).
    destruct t as [|c t]; [split; [apply reads_refl|done]|]. destruct (c =? 40).
    { pose proof (parse_group_shape (parse_alternatives nocase fuel depth) t n complete
        ltac:(intros p' Hp'; rewrite <- Hp'; apply IHa; lia) Hp) as Hg.
      destruct (parse_group _ _) as [[r p1]| | |]; simpl mbind; try done. destruct Hg as (Hg1 & Hg2 & Hg3).
      specialize (IHc depth (cat (cat acc (lit_re nocase lit)) r) [] n0 p1 ltac:(lia) ltac:(lia)
        ltac:(apply shaped_cat; [eapply shaped_mono, Hdone; lia|eapply shaped_mono, Hg3; lia])).
      destruct (parse_concat _ _ _ _ _ _) as [[r2 p2]| | |]; try done. destruct IHc as [H1 H2]. split; [|done].
      eapply reads_trans, H1. split; cbn [p_rest p_groups length]; lia. }
    destruct (_ || _); [split; [apply reads_refl|done]|].
    destruct (parse_atom nocase c (c :: t) complete) as [[r s]| | |] eqn:E; simpl mbind; try done.
    destruct (parse_atom_shape _ _ _ _ _ E) as [Hr Hl]. cbn [fst snd] in *.
    assert (Hreads : reads (MkProgress (c :: t) n complete) (MkProgress s n complete)) by (split; cbn [p_rest p_groups]; lia).
    destruct r as [r|ch].
    + specialize (IHc depth (cat (cat acc (lit_re nocase lit)) r) [] n0 (MkProgress s n complete) Hn0 Hp
        ltac:(by apply shaped_cat)).
      destruct (parse_concat _ _ _ _ _ _) as [[r2 p2]| | |]; try done. destruct IHc as [H1 H2]. split; [|done]. by eapply reads_trans, H1.
    + specialize (IHc depth acc (lit ++ [ch]) n0 (MkProgress s n complete) Hn0 Hp Hacc).
      destruct (parse_concat _ _ _ _ _ _) as [[r2 p2]| | |]; try done. destruct IHc as [H1 H2]. split; [|done]. by eapply reads_trans, H1.
  - intros depth p Hp. cbn [parse_alternatives]. destruct (_ <=? _); [done|].
    pose proof (IHc (depth + 1) REmpty [] (p_groups p) p ltac:(lia) Hp ltac:(done)) as H1.
    destruct (parse_concat _ _ _ _ _ _) as [[r1 p1]| | |]; simpl mbind; try done. destruct H1 as [Hr1 Hs1].
    destruct (p_rest p1) as [|c s] eqn:Er; [by split|]. destruct (c =? 124); [|by split].
    assert (Hr1' : reads p (MkProgress s (p_groups p1) (p_complete p1))).
    { eapply reads_trans; [exact Hr1|]. split; cbn [p_rest p_groups]; [lia|]. rewrite Er. cbn [length]. lia. }
    pose proof (IHa (depth + 1) (MkProgress s (p_groups p1) (p_complete p1)) ltac:(destruct Hr1; cbn; lia)) as H2.
    destruct (parse_alternatives _ _ _ _) as [[r2 p2]| | |]; simpl mbind; try done. destruct H2 as [Hr2 Hs2].
    split; [by eapply reads_trans|]. destruct Hr1, Hr2. cbn [p_rest p_groups] in *.
    split; [eapply shaped_mono, Hs1; lia|eapply shaped_mono, Hs2; lia].
Qed.

(** The fuel is twice the length of the rest. *)
Lemma parse_total_fuel nocase fuel :
  (forall depth acc lit p, 0 <= p_groups p -> (2 * length (p_rest p) + 1 <= fuel)%nat -> parse_concat nocase fuel depth acc lit p <> PStuck) /\
  (forall depth p, 0 <= p_groups p -> (2 * length (p_rest p) + 2 <= fuel)%nat -> parse_alternatives nocase fuel depth p <> PStuck).
Proof.
  induction fuel as [|fuel [IHc IHa]]; [split; intros; lia|]. destruct (parse_shape nocase fuel) as [Sc Sa]. split.
  - intros depth acc lit [t n complete] Hn Hf. cbn [parse_concat p_rest p_groups p_complete] in *. destruct t as [|c t]; [done|].
    cbn [length] in Hf. destruct (c =? 40).
    + pose proof (parse_group_shape (parse_alternatives nocase fuel depth) t n complete
        ltac:(intros p' Hp'; rewrite <- Hp'; apply Sa; lia) Hn) as Hg.
      assert (Hgt : parse_group (parse_alternatives nocase fuel depth) (MkProgress t n complete) <> PStuck).
      { unfold parse_group. cbn [p_rest p_groups p_complete]. destruct t as [|c2 t]; [done|].
        specialize (IHa depth (MkProgress (c2 :: t) (n + 1) complete) ltac:(cbn; lia) ltac:(cbn [p_rest length] in *; lia)).
        destruct (parse_alternatives _ _ _ _) as [[r p1]| | |]; simpl mbind; try done. destruct (p_rest p1) as [|c3 s]; [done|].
        destruct (c3 =? 41); [|done]. pose proof (parse_repeat_total s).
        by destruct (parse_repeat s) as [[[[min opt] minimize] t2]| | |]. }
      destruct (parse_group _ _) as [[r p1]| | |]; simpl mbind; try done. destruct Hg as (Hg1 & Hg2 & Hg3).
      apply IHc; [lia|]. lia.
    + destruct (_ || _); [done|]. pose proof (parse_atom_total nocase c (c :: t) complete).
      destruct (parse_atom nocase c (c :: t) complete) as [[r s]| | |] eqn:E; simpl mbind; try done.
      destruct (parse_atom_shape _ _ _ _ _ E) as [_ Hl]. cbn [snd length] in Hl.
      destruct r; apply IHc; cbn [p_rest p_groups]; lia.
  - intros depth p Hn Hf. cbn [parse_alternatives]. destruct (_ <=? _); [done|].
    pose proof (IHc (depth + 1) REmpty [] p Hn ltac:(lia)) as H1.
    pose proof (Sc (depth + 1) REmpty [] (p_groups p) p ltac:(lia) Hn ltac:(done)) as S1.
    destruct (parse_concat _ _ _ _ _ _) as [[r1 p1]| | |]; simpl mbind; try done. destruct S1 as [[Hr1 Hr2] _].
    destruct (p_rest p1) as [|c s] eqn:Er; [done|]. destruct (c =? 124); [|done]. cbn [length] in Hr2.
    specialize (IHa (depth + 1) (MkProgress s (p_groups p1) (p_complete p1)) ltac:(cbn; lia) ltac:(cbn [p_rest]; lia)).
    by destruct (parse_alternatives _ _ _ _) as [[r2 p2]| | |].
Qed.

(** The parser is total, and what it returns is well formed. *)
Lemma parse_total nocase pat : parse nocase pat <> PStuck.
Proof.
  unfold parse. pose proof (parse_total_fuel nocase (2 * length pat + 2)) as [_ H].
  specialize (H 0 (MkProgress pat 1 0) ltac:(done) ltac:(cbn; lia)).
  destruct (parse_alternatives _ _ _ _) as [[r p]| | |]; simpl mbind; try done. by destruct (p_rest p).
Qed.

Lemma parse_shaped nocase pat r n : parse nocase pat = POk (r, n) -> shaped 1 n r /\ 1 <= n <= 1 + zlen pat.
Proof.
  unfold parse. pose proof (parse_shape nocase (2 * length pat + 2)) as [_ H].
  specialize (H 0 (MkProgress pat 1 0) ltac:(done)). destruct (parse_alternatives _ _ _ _) as [[r' p]| | |]; simpl mbind; try done.
  destruct (p_rest p); [|done]. intros [= <- <-]. destruct H as [[H1 H2] H3]. cbn [p_groups p_rest length] in *. split; [done|lia].
Qed.
