(* ===== verification/ReStart.v ===== *)
(** * ReStart: first characters and least lengths

    What the compiler of regular expressions accumulates while it reads a
    pattern - the least length of a match and the set of the characters below
    256 that a match can start with - against the trees: [covers S r] says that
    a match of [r] that is not empty starts with a character of [S], provided
    that nothing has been matched yet; [grows v0 r v] relates the members before
    and behind an expression. *)

From stdpp Require Import gmap.
From S2P Require Import Prelude Runtime Digits Value StrTables ReDefs ReMatch ReSem ReRun.
From S2P Require Import ReStep ReSound ReMatches ReComp ReParse ReBuffer ReEmit ReChars ReSets.
From S2P Require Import ReShape.

Open Scope Z_scope.

(** ** First characters *)

Definition start_in (set l : list Z) (p : Z) : Prop :=
  forall ch, chr l p = Some ch -> 0 <= ch < 256 -> AReIsInSet set ch = true.

(** The groups matched so far are empty. *)
Definition empties (g : gmap Z (Z * Z)) : Prop := forall n b e, g !! n = Some (b, e) -> b = e.

Definition covers (set : list Z) (r : re) : Prop := forall l p g y,
  good l (p, g) -> empties g -> matches l r (p, g) y -> (y.1 = p /\ empties y.2) \/ start_in set l p.

Definition set_sub (s1 s2 : list Z) : Prop := forall ch, 0 <= ch < 256 -> AReIsInSet s1 ch = true -> AReIsInSet s2 ch = true.

#[export] Instance set_sub_preorder : PreOrder set_sub.
Proof. split; [by intros ? ?|]. intros x y z H1 H2 ch Hch H. by apply H2, H1. Qed.

Lemma covers_mono s1 s2 r : set_sub s1 s2 -> covers s1 r -> covers s2 r.
Proof.
  intros Hs Hc l p g y Hg He Hm. destruct (Hc l p g y Hg He Hm) as [H|H]; [by left|right].
  intros ch Hch Hb. by apply Hs, H.
Qed.

Lemma matches_forward l r x y : counts_ok r -> good l x -> matches l r x y -> good l y /\ x.1 + min_len r <= y.1.
Proof.
  intros Hc Hx Hm. apply sem_matches in Hm; [|done..]. split; [by eapply sem_forward|by eapply sem_min_len].
Qed.

Lemma covers_empty s : covers s REmpty.
Proof. intros l p g y _ He Hm. inversion Hm; subst. by left. Qed.

Lemma covers_assert s a : covers s (RAssert a).
Proof. intros l p g y _ He Hm. inversion Hm; subst. by left. Qed.

Lemma covers_cat s r1 r2 : counts_ok r1 -> covers s r1 -> (min_len r1 = 0 -> covers s r2) -> covers s (cat r1 r2).
Proof.
  intros Hc H1 H2 l p g z Hg He Hm. apply matches_cat in Hm as ([q g1] & Hm1 & Hm2).
  destruct (matches_forward _ _ _ _ Hc Hg Hm1) as [Hg1 Hle]. pose proof (min_len_nonneg _ Hc) as Hnn.
  destruct (H1 l p g _ Hg He Hm1) as [[Hq He1]|H]; [|by right]. cbn [fst snd] in *. subst q.
  by apply (H2 ltac:(lia) l p g1 z).
Qed.

Lemma covers_alt s r1 r2 : covers s r1 -> covers s r2 -> covers s (RAlt r1 r2).
Proof. intros H1 H2 l p g y Hg He Hm. inversion Hm; subst; [by eapply H1|by eapply H2]. Qed.

Lemma empties_insert g n p : empties g -> empties (<[n := (p, p)]> g).
Proof. intros He m b e H. apply lookup_insert_Some in H as [[_ [= <- <-]]|[_ H]]; [done|by eapply He]. Qed.

Lemma covers_group s n r : covers s r -> covers s (RGroup n r).
Proof.
  intros H l p g y Hg He Hm. inversion Hm as [| | | | | | |n' r' x y' Hm'| | | | | | | |]; subst.
  destruct (H l p g _ Hg He Hm') as [[Hq He1]|Hs]; [left|by right]. cbn [fst snd] in *. split; [done|].
  rewrite Hq. by apply empties_insert.
Qed.

Lemma covers_ref s i n : covers s (RRef i n).
Proof.
  intros l p g y _ He Hm. inversion Hm as [| | | | | | | |i' n' p' g' b e Hb Hl Ht| | | | | | |]; subst. left. cbn [fst snd].
  rewrite (He _ _ _ Hb). split; [lia|done].
Qed.

Lemma covers_opt s minimize r : covers s r -> covers s (ROpt minimize r).
Proof. intros H l p g y Hg He Hm. inversion Hm; subst; [by left|by eapply H]. Qed.

Lemma covers_loop s minimize n r : covers s r -> covers s (RLoop minimize n r).
Proof.
  intros H l p g y Hg He Hm. inversion Hm as [| | | | | | | | | | | |m' n' r' x y' Hm' Hq|m' n' r' x y' z Hm' Hq Hz| |]; subst; [by left|..].
  - by apply (H l p g).
  - destruct (H l p g _ Hg He Hm') as [[Hq' _]|Hs]; [done|by right].
Qed.

Lemma covers_ref_loop s minimize i n : covers s (RRefLoop minimize i n).
Proof.
  intros l p g y Hg He Hm. inversion Hm as [| | | | | | | | | | | | | | |m' i' n' x y' z Hm' Hq Hz]; subst; [by left|].
  destruct (covers_ref s i n l p g _ Hg He Hm') as [[Hq' _]|Hs]; [done|by right].
Qed.

Lemma covers_copies s n r : counts_ok r -> covers s r -> covers s (copies n r).
Proof.
  intros Hc H. induction n as [|n IH]; [apply covers_empty|]. by apply covers_cat.
Qed.

(** The first character of a match. *)
Lemma slice_head l p q : 0 <= p < q -> q <= zlen l -> exists c t, slice l p q = c :: t /\ chr l p = Some c.
Proof.
  intros Hp Hq. unfold slice, from, chr. test (p <? 0) false.
  destruct (lookup_lt_is_Some_2 l (Z.to_nat p)) as [c Hc]; [lia|]. rewrite Hc.
  rewrite (drop_S _ _ _ Hc). replace (Z.to_nat (q - p)) with (S (Z.to_nat (q - p - 1))) by lia. cbn [firstn]. eauto.
Qed.

Lemma covers_chars s k min opt minimize : 0 <= min -> 0 <= opt ->
  (forall ch, 0 <= ch < 256 -> in_charset k ch = true -> AReIsInSet s ch = true) -> covers s (RChars k min opt minimize).
Proof.
  intros Hmin Hopt Hk l p g y [Hp _] He Hm. cbn [fst] in Hp. inversion Hm as [| |k' m' o' z' p' g' n Hn Hl Hf| | | | | | | | | | | | |]; subst. cbn [fst snd].
  destruct (decide (n = 0)) as [->|Hne]; [left; split; [lia|done]|right].
  destruct (slice_head l p (p + n)) as (c & t & Hs & Hc); [lia|done|]. rewrite Hs in Hf. inversion Hf; subst.
  intros ch Hch Hb. rewrite Hc in Hch. injection Hch as <-. by apply Hk.
Qed.

(** A literal string that has become longer. *)
Lemma lit_prefix l i lit ch p : 0 <= p -> lit_matches i (lit ++ [ch]) (slice l p (p + zlen (lit ++ [ch]))) = true ->
  lit_matches i lit (slice l p (p + zlen lit)) = true /\ p + zlen lit <= zlen l.
Proof.
  intros Hp H. unfold lit_matches in *. apply bool_decide_eq_true in H.
  assert (Htake : slice l p (p + zlen lit) = take (length lit) (slice l p (p + zlen (lit ++ [ch])))).
  { unfold slice. rewrite take_take, length_app. f_equal. simpl. lia. }
  split.
  - apply bool_decide_eq_true. rewrite Htake. destruct i.
    + rewrite fmap_take, H. by apply take_app_length.
    + rewrite H. by apply take_app_length.
  - assert (Hlen : length (slice l p (p + zlen (lit ++ [ch]))) = length (lit ++ [ch])) 
      by (apply (f_equal length) in H; destruct i; rewrite ?length_fmap in H; exact H).
    unfold slice, from in Hlen. rewrite length_take, length_drop, length_app in Hlen. simpl in Hlen. lia.
Qed.

(** A character is a literal string of length one. *)
Lemma matches_lit_re l i lit p g y : lit <> [] -> good l (p, g) ->
  matches l (lit_re i lit) (p, g) y <-> lit_matches i lit (slice l p (p + zlen lit)) = true /\ y = (p + zlen lit, g).
Proof.
  intros Hl Hg. destruct lit as [|c [|c2 lit]]; [done|..]; cbn [lit_re].
  - change (zlen [c]) with 1. assert (Hone : forall s, length s = 1%nat ->
      (Forall (fun c' => in_charset (CLit i c) c' = true) s <-> lit_matches i [c] s = true)).
    { intros [|d [|d2 s]] Hs; try done. unfold lit_matches. rewrite bool_decide_eq_true, Forall_singleton.
      destruct i; simpl; rewrite Z.eqb_eq; split; intros H; (by rewrite H) || (by injection H). }
    destruct Hg as [Hp _]. cbn [fst] in Hp.
    assert (Hlen : p + 1 <= zlen l -> length (slice l p (p + 1)) = 1%nat).
    { intros Hle. unfold slice, from. rewrite length_take, length_drop. lia. }
    split.
    + intros Hm. inversion Hm as [| |k' m' o' z' p' g' n Hn Hle Hf| | | | | | | | | | | | |]; subst.
      replace n with 1 in * by lia. split; [by apply Hone; [apply Hlen|]|done].
    + intros [H ->]. assert (Hle : p + 1 <= zlen l).
      { unfold lit_matches in H. apply bool_decide_eq_true, (f_equal length) in H. unfold slice, from in H.
        destruct i; rewrite ?length_fmap, length_take, length_drop in H; simpl in H; lia. }
      constructor; [lia|done|]. apply Hone; [by apply Hlen|done].
  - split; [intros Hm; inversion Hm; subst; by split|]. intros [H ->]. by constructor.
Qed.

Lemma covers_longer s acc i lit ch : counts_ok acc -> lit <> [] ->
  covers s (cat acc (lit_re i lit)) -> covers s (cat acc (lit_re i (lit ++ [ch]))).
Proof.
  intros Hc Hlit H l p g y Hg He Hm. apply matches_cat in Hm as ([q g1] & Hm1 & Hm2).
  destruct (matches_forward _ _ _ _ Hc Hg Hm1) as [Hg1 Hle]. pose proof (min_len_nonneg _ Hc) as Hnn. cbn [fst] in Hle.
  apply matches_lit_re in Hm2 as [Hm2 ->]; [|by destruct lit|done]. destruct Hg1 as [Hq Hgq]. cbn [fst] in Hq.
  apply lit_prefix in Hm2 as [Hm2 Hlen]; [|lia].
  destruct (H l p g (q + zlen lit, g1) Hg He) as [[Heq _]|Hs]; [|cbn [fst] in Heq|by right].
  - apply matches_cat. exists (q, g1). split; [done|]. apply matches_lit_re; done.
  - destruct lit; [done|]. cbn [length] in Heq. lia.
Qed.

(** ** The members of the state *)

(** [0 <= v_min], as an unsigned number. *)
Record view_ok (v : View) : Prop := { vok_set : set_ok (v_start v); vok_min : 0 <= v_min v }.

(** Reading [r] leads from [v0] to [v]: the start set grows, and unless the code
    is so long that the least length wraps around, that length is the one of
    the tree and the start set covers it. *)
Record grows (v0 : View) (r : re) (v : View) : Prop := {
  gr_ok : view_ok v;
  gr_sub : set_sub (v_start v0) (v_start v);
  gr_len : v_min v0 + 65535 * zlen (code_of r) < BASE ->
    v_min v = v_min v0 + min_len r /\ (v_min v0 = 0 -> covers (v_start v) r)
}.

Lemma grows_ext v0 r v v0' v' : v_min v0' = v_min v0 -> v_start v0' = v_start v0 -> v_min v' = v_min v -> v_start v' = v_start v ->
  grows v0 r v -> grows v0' r v'.
Proof. intros H1 H2 H3 H4 [[Ho Hm] Hs Hl]. split; rewrite ?H1, ?H2, ?H3, ?H4; [split; rewrite ?H3, ?H4; done|done|done]. Qed.

Lemma grows_empty v : view_ok v -> grows v REmpty v.
Proof. intros Hv. split; [done..|]. intros _. split; [simpl; lia|]. intros _. apply covers_empty. Qed.

Lemma grows_assert v a : view_ok v -> grows v (RAssert a) v.
Proof. intros Hv. split; [done..|]. intros _. split; [simpl; lia|]. intros _. apply covers_assert. Qed.

Lemma grows_ref v i n : view_ok v -> grows v (RRef i n) v.
Proof. intros Hv. split; [done..|]. intros _. split; [simpl; lia|]. intros _. apply covers_ref. Qed.

Lemma grows_cat v0 v1 v2 r1 r2 lo hi : shaped lo hi r1 -> 0 <= v_min v0 ->
  grows v0 r1 v1 -> grows v1 r2 v2 -> grows v0 (cat r1 r2) v2.
Proof.
  intros Hr Hv0 [Hv1 Hs1 Hl1] [Hv2 Hs2 Hl2]. split; [done|by transitivity (v_start v1)|].
  rewrite code_cat, length_app. intros Hb. pose proof (min_len_code _ _ _ Hr) as Hm.
  destruct Hl1 as [Hm1 Hc1]; [lia|]. destruct Hl2 as [Hm2 Hc2]; [lia|]. split; [rewrite min_len_cat; lia|].
  intros H0. apply covers_cat; [by eapply shaped_counts| |].
  - by eapply covers_mono; [|apply Hc1].
  - intros Hz. apply Hc2. lia.
Qed.

Lemma grows_alt v0 v1 v2 r1 r2 : 0 <= v_min v0 ->
  grows v0 r1 v1 -> grows (vw_min (v_min v0) v1) r2 v2 -> grows v0 (RAlt r1 r2) (vw_min (Z.min (v_min v1) (v_min v2)) v2).
Proof.
  intros Hv0 [[Ho1 Hm1] Hs1 Hl1] [[Ho2 Hm2] Hs2 Hl2]. cbn [v_min v_start vw_min] in *.
  split; [split; cbn [v_min v_start vw_min]; [done|lia]|by transitivity (v_start v1)|].
  cbn [code_of v_min vw_min v_start min_len]. rewrite !length_app. cbn [length]. intros Hb.
  destruct Hl1 as [-> Hc1]; [lia|]. destruct Hl2 as [-> Hc2]; [lia|]. split; [lia|].
  intros H0. apply covers_alt; [by eapply covers_mono; [|apply Hc1]|by apply Hc2].
Qed.

Lemma grows_group v0 v r n : grows v0 r v -> grows v0 (RGroup n r) v.
Proof.
  intros [Hv Hs Hl]. split; [done..|]. cbn [code_of]. rewrite !length_app. cbn [length]. intros Hb.
  destruct Hl as [-> Hc]; [lia|]. split; [done|]. intros H0. by apply covers_group, Hc.
Qed.

(** A character that may be repeated. *)
Lemma grows_chars v v' k min opt minimize : view_ok v -> view_ok v' -> 0 <= min <= 65535 -> 0 <= opt ->
  v_min v' = u32 (v_min v + min) -> set_sub (v_start v) (v_start v') ->
  (v_min v = 0 -> forall ch, 0 <= ch < 256 -> in_charset k ch = true -> AReIsInSet (v_start v') ch = true) ->
  grows v (RChars k min opt minimize) v'.
Proof.
  intros Hv Hv' Hm Ho Hmin Hs Hk. split; [done..|]. cbn [code_of min_len]. intros Hb.
  assert (H1 : 1 <= zlen (chars_code k min opt minimize)) by (unfold chars_code; rewrite length_app; destruct (_ && _); cbn [length]; lia).
  destruct Hv. rewrite Hmin, u32_small by lia. split; [done|]. intros H0. apply covers_chars; [lia..|]. by apply Hk.
Qed.

Lemma concat_replicate_length (n : nat) (c : list Z) : zlen (concat (replicate n c)) = Z.of_nat n * zlen c.
Proof. induction n as [|n IH]; [done|]. cbn [replicate concat]. rewrite length_app. lia. Qed.

Lemma copied_length n r t : 0 <= n -> zlen (code_of (cat (copies (Z.to_nat n) r) t)) = n * zlen (code_of r) + zlen (code_of t).
Proof. intros Hn. pose proof (concat_replicate_length (Z.to_nat n) (code_of r)). rewrite code_cat, code_copies, length_app. lia. Qed.

(** A repetition of [r], which is [r0] perhaps as a group: the least length is
    computed from the difference that it has made, of which [v1] is the state
    behind it. *)
Lemma grows_repeated v0 v1 v2 r0 r loop min opt minimize lo hi :
  0 <= v_min v0 -> shaped lo hi r -> 0 <= min <= 65535 -> 0 <= opt <= A_INFINITE_REPEAT ->
  min_len r0 = min_len r -> zlen (code_of r0) <= zlen (code_of r) ->
  min_len loop = 0 -> zlen (code_of r) <= zlen (code_of loop) -> (forall s, covers s r0 -> covers s r /\ covers s loop) ->
  grows v0 r0 v1 -> v_start v2 = v_start v1 -> v_min v2 = u32 (v_min v0 + min * (v_min v1 - v_min v0)) ->
  grows v0 (repeated min opt minimize r loop) v2.
Proof.
  intros Hv0 Hr Hmin Hopt Hml0 Hlen0 Hloop Hlen Hcov [[Ho Hm] Hs Hl] Hst Hm2. pose proof (min_len_code _ _ _ Hr) as Hml.
  assert (Hu : 0 <= v_min v2) by (rewrite Hm2; apply u32_range).
  split; [split; [by rewrite Hst|done]|by rewrite Hst|]. unfold repeated. set (t := if opt =? A_INFINITE_REPEAT then loop else _).
  assert (Ht : min_len t = 0) by (unfold t; destruct (opt =? A_INFINITE_REPEAT); [done|]; rewrite min_len_copies; cbn [min_len]; lia).
  rewrite min_len_cat, min_len_copies, Z2Nat.id, Ht, copied_length by lia.
  intros Hb. destruct (decide (min = 0 /\ opt = 0)) as [[-> ->]|Hne].
  { rewrite Hm2, u32_small by lia. split; [lia|]. intros _. apply covers_empty. }
  assert (Htc : opt = 0 \/ zlen (code_of r) <= zlen (code_of t)).
  { unfold t. destruct (Z.eqb_spec opt A_INFINITE_REPEAT) as [->|]; [by right|]. destruct (decide (opt = 0)) as [|]; [by left|right].
    pose proof (copied_length opt (ROpt minimize r) REmpty ltac:(lia)) as Hcl. rewrite code_cat, app_nil_r in Hcl. rewrite Hcl.
    cbn [code_of]. rewrite length_app. cbn [length]. nia. }
  assert (Hle : zlen (code_of r) <= min * zlen (code_of r) + zlen (code_of t)) by (destruct Htc as [->|]; nia).
  destruct Hl as [Hv1 Hc]; [nia|]. rewrite Hm2, Hv1. replace (v_min v0 + min_len r0 - v_min v0) with (min_len r) by lia.
  rewrite u32_small by nia. split; [lia|]. intros H0. destruct (Hcov _ (Hc H0)) as [Hcr Hcl]. rewrite Hst.
  assert (Hct : covers (v_start v1) t).
  { unfold t. destruct (opt =? A_INFINITE_REPEAT); [exact Hcl|]. apply covers_copies; [by eapply shaped_counts|by apply covers_opt]. }
  apply covers_cat; [|apply covers_copies; [by eapply shaped_counts|done]|done].
  eapply shaped_counts, shaped_copies, Hr.
Qed.

Lemma lit_code_longer i lit ch : zlen (code_of (lit_re i lit)) <= zlen (code_of (lit_re i (lit ++ [ch]))).
Proof. destruct lit as [|c [|c2 lit]]; [simpl; lia|destruct i; simpl; lia|]. cbn [lit_re app code_of length]. rewrite !length_app. lia. Qed.

Lemma min_len_lit i lit : min_len (lit_re i lit) = zlen lit.
Proof. by destruct lit as [|c [|c2 lit]]. Qed.

(** One more character of a literal string. *)
Lemma grows_longer v0 v v' acc i lit ch lo hi :
  0 <= v_min v0 -> shaped lo hi acc -> lit <> [] ->
  grows v0 (cat acc (lit_re i lit)) v -> v_min v' = u32 (v_min v + 1) -> view_ok v' -> set_sub (v_start v) (v_start v') ->
  grows v0 (cat acc (lit_re i (lit ++ [ch]))) v'.
Proof.
  intros Hv0 Hacc Hlit [[Ho Hm] Hs Hl] Hmin Hv' Hs'. split; [done|by transitivity (v_start v)|].
  assert (Hsh : shaped lo hi (cat acc (lit_re i (lit ++ [ch])))) by (apply shaped_cat; [done|apply lit_re_shape]).
  pose proof (min_len_code _ _ _ Hsh) as Hml. rewrite code_cat, min_len_cat, min_len_lit, !length_app in *. cbn [length] in Hml.
  pose proof (lit_code_longer i lit ch). cbn [length] in *.
  intros Hb. destruct Hl as [Hv Hc]; [lia|]. split; [rewrite Hmin, Hv, u32_small; lia|].
  intros H0. apply covers_longer; [by eapply shaped_counts|done|]. by eapply covers_mono; [|apply Hc].
Qed.
