(* ===== verification/ReItems.v ===== *)
(** * ReItems: items of regular expressions

    The parts of the compiler that read one item of a pattern - a character, a
    set, an assertion, a back reference - or repeat the code that has been
    emitted last, against the trees of [ReParse]. *)

From S2P Require Import Prelude Runtime Digits Value IntConv Encodings EncodingsSpec StrOps.
From S2P Require Import StrSpec StrTables ReDefs ReSem ReMatches ReComp ReParse ReBuffer ReEmit.
From S2P Require Import ReChars ReSets ReShape ReStart.

Open Scope Z_scope.

Section items.
Context (strVal : StrObj) (flags : Z) (behind : storage) (l : list Z).
Hypothesis Hstr : represents strVal l.
#[local] Set Default Proof Using "Type Hstr".
Local Abbreviation at_text := (at_text l).

(** ** Repetition of code *)

(** The code [c] repeated; [c'] is its form in a loop. *)
Definition rep_code (min opt : Z) (minimize : bool) (c c' : list Z) : list Z :=
  concat (replicate (Z.to_nat min) c) ++
  (if opt =? A_INFINITE_REPEAT then loop_code minimize c'
   else concat (replicate (Z.to_nat opt) ([branch_op minimize; u16 (zlen c + 1)] ++ c))).

Lemma code_repeated min opt minimize r loop c' : code_of loop = loop_code minimize c' ->
  code_of (repeated min opt minimize r loop) = rep_code min opt minimize (code_of r) c'.
Proof using.
  intros Hl. unfold repeated, rep_code. rewrite code_cat, code_copies. f_equal. destruct (opt =? A_INFINITE_REPEAT); [done|].
  by rewrite code_copies.
Qed.

Lemma branch_words (minimize : bool) :
  op_num A_BRANCH_AFTER - Z.b2z minimize = branch_op minimize /\ op_num A_BRANCH_BEFORE + Z.b2z minimize = branch_op (negb minimize) /\
  word (branch_op minimize) /\ word (branch_op (negb minimize)).
Proof using. by destruct minimize. Qed.

Lemma replicate_end {A} n (c : list A) : c ++ concat (replicate n c) = concat (replicate n c) ++ c.
Proof using. induction n as [|n IH]; [by rewrite app_nil_r|]. cbn [replicate concat]. by rewrite <- app_assoc, <- IH. Qed.

(** The loop around the code at the end. *)
Lemma loop_end v c0 c1 w x minimize s : is_at v (c0 ++ c1 ++ [w; x]) s -> word (w + 1) ->
  let size := zlen (c1 ++ [w; x]) in
  sreturns (s ← get;
    w ← buf_get (bufInd (out s) - 2);
    buf_put (bufInd (out s) - 2) (w + 1) ≫= (fun _ =>
    EmitBranchAt behind (bufInd (out s) - size) (op_num A_BRANCH_AFTER - Z.b2z minimize) (bufInd (out s) + 2) ≫= (fun _ =>
    s ← get;
    EmitBranch behind (op_num A_BRANCH_BEFORE + Z.b2z minimize) (bufInd (out s) - size)))) s
    (fun _ s' => exists m, is_at (vw_must m v) (c0 ++ loop_code minimize (c1 ++ [w + 1; x])) s').
Proof using.
  intros Hs Hw size. destruct (branch_words minimize) as (Ea & Eb & Ha & Hb). apply sreturns_get_bind. rewrite (is_at_len _ _ _ Hs).
  set (code := c0 ++ c1 ++ [w; x]) in *.
  assert (Hpos : zlen code - 2 = zlen (c0 ++ c1)) by (unfold code; zl).
  assert (Hcode : code = (c0 ++ c1) ++ w :: [x]) by (unfold code; by rewrite <- app_assoc).
  step ltac:(eapply (code_get v code); [exact Hs|unfold code in *; zl]). intros ? s1 [-> ->].
  replace (dg code (zlen code - 2)) with w by (rewrite Hpos, Hcode; symmetry; apply dg_at).
  step ltac:(eapply (code_put v code _ _ (w + 1)); [exact Hs|rewrite Hcode, !length_app; simpl; lia|exact Hw]).
  intros ? s1 H1. cbv beta in H1. rewrite Hpos, Hcode, upd_at, <- app_assoc in H1. rewrite Ea, Eb.
  rewrite Hcode. replace (zlen ((c0 ++ c1) ++ [w; x]) - size) with (zlen c0) by (unfold size; zl).
  step ltac:(eapply EmitBranchAt_spec; [exact H1|exact Ha]). intros ? s2 [m H2].
  assert (E1 : branch_disp (zlen c0) (zlen ((c0 ++ c1) ++ [w; x]) + 2) = zlen (c1 ++ [w + 1; x]) + 3).
  { unfold branch_disp. destruct (Z.leb_spec (zlen c0) (zlen ((c0 ++ c1) ++ [w; x]) + 2)); zl. }
  rewrite E1 in H2. apply sreturns_get_bind. rewrite (is_at_len _ _ _ H2).
  eapply sreturns_mono; [by eapply EmitBranch_spec|]. intros ? s3 [m' H3]. exists m'. unfold loop_code.
  repeat rewrite <- app_assoc in H3. repeat rewrite <- app_assoc. cbn [app] in *.
  assert (E2 : forall w1 w2, branch_disp (zlen (c0 ++ w1 :: w2 :: c1 ++ [w + 1; x])) (zlen (c0 ++ w1 :: w2 :: c1 ++ [w + 1; x]) - size) =
    - zlen (c1 ++ [w + 1; x]) - 1).
  { intros w1 w2. unfold branch_disp, size. destruct (Z.leb_spec (zlen (c0 ++ w1 :: w2 :: c1 ++ [w + 1; x]))
      (zlen (c0 ++ w1 :: w2 :: c1 ++ [w + 1; x]) - zlen (c1 ++ [w; x]))); zl. }
  rewrite E2 in H3. exact H3.
Qed.

(** The optional copies of the code at the end. *)
Lemma opt_end v c0 c n minimize s : is_at v (c0 ++ c) s -> 0 < n ->
  sreturns (s ← get;
    EmitBranchAt behind (bufInd (out s) - zlen c) (op_num A_BRANCH_AFTER - Z.b2z minimize) (bufInd (out s)) ≫= (fun _ =>
    opt_loop behind (Z.to_nat (n - 1)) (zlen c) minimize)) s
    (fun _ s' => exists m, is_at (vw_must m v) (c0 ++ concat (replicate (Z.to_nat n) ([branch_op minimize; u16 (zlen c + 1)] ++ c))) s').
Proof using.
  intros Hs Hn. destruct (branch_words minimize) as (Ea & _ & Ha & _). apply sreturns_get_bind. rewrite (is_at_len _ _ _ Hs), Ea.
  replace (zlen (c0 ++ c) - zlen c) with (zlen c0) by zl.
  step ltac:(eapply EmitBranchAt_spec; [exact Hs|exact Ha]). intros ? s1 [m H1].
  assert (E1 : branch_disp (zlen c0) (zlen (c0 ++ c)) = zlen c + 1).
  { unfold branch_disp. destruct (Z.leb_spec (zlen c0) (zlen (c0 ++ c))); zl. }
  rewrite E1 in H1. eapply sreturns_mono.
  { apply (opt_loop_spec behind minimize (vw_must m v) (c0 ++ [branch_op minimize; u16 (zlen c + 1)]) c). by rewrite <- app_assoc. }
  intros ? s2 [m' H2]. exists m'. replace (Z.to_nat n) with (S (Z.to_nat (n - 1))) by lia. cbn [replicate concat].
  rewrite Ea in H2. repeat rewrite <- app_assoc in H2. repeat rewrite <- app_assoc. exact H2.
Qed.
(** The members that [ParseRepetition] leaves. *)
Definition rep_view (v : View) (oldMin min m : Z) : View := vw_must m (vw_min (u32 (oldMin + min * (v_min v - oldMin))) v).

(** [mustStr] is set back if there may be no repetition. *)
Lemma restore_must v code t c0 c min om ob s : at_text v (c0 ++ c) t s -> code = c0 ++ c -> 0 <= om <= zlen c0 ->
  sreturns (if min =? 0 then modify (up_must om ob) else mret tt) s
    (fun _ s' => exists m, at_text (vw_must m v) code t s' /\ (min = 0 -> m <= zlen c0)).
Proof using.
  intros (i & Hs & Ht) -> Hom. destruct (Z.eqb_spec min 0) as [->|].
  - apply sreturns_modify. exists om. split; [|lia]. exists i. split; [|done]. apply (is_at_must (vw_str i v)); [done|]. rewrite length_app. lia.
  - apply sreturns_ret. exists (v_must v). split; [|lia]. exists i. split; [|exact Ht].
    rewrite vw_must_id. exact Hs.
Qed.

Lemma ParseRepetition_spec v c0 c1 w x oldMin oldMax om ob t s :
  let c := c1 ++ [w; x] in
  at_text v (c0 ++ c) t s -> word (w + 1) -> 0 <= om <= zlen c0 ->
  follows (parse_repeat t) (ParseRepetition strVal behind oldMin oldMax (zlen c) om ob) s
    (fun '(min, opt, minimize, t') _ s' => exists m,
      at_text (rep_view v oldMin min m) (c0 ++ rep_code min opt minimize c (c1 ++ [w + 1; x])) t' s').
Proof.
  intros c Hs Hw Hom. unfold ParseRepetition. pose proof (ParseRepeatType_spec strVal l Hstr v _ t s Hs) as Hr.
  destruct (parse_repeat t) as [[[[min opt] minimize] t']| | |] eqn:E; cbn [follows]; [| |done..].
  2:{ apply bad_bind; [exact Hr|]. intros [[min opt] minimize]. sticks. }
  apply parse_repeat_ok in E as (Hmin & Hopt & _).
  step ltac:(exact Hr). intros r s1 [-> H1]. cbn [fst snd] in H1 |- *.
  step ltac:(eapply restore_must; [exact H1|done|exact Hom]). intros ? s2 (m1 & H2 & Hm1). clear H1.
  destruct H2 as (i & H2 & Ht2). pose proof (is_at_view _ _ _ H2) as (_ & _ & _ & _ & Hv & _). cbn [v_min vw_str vw_must] in Hv.
  apply sreturns_modify_bind. set (v3 := vw_str i (rep_view v oldMin min m1)). rewrite Hv.
  match goal with |- sreturns _ ?st _ => assert (H3 : is_at v3 (c0 ++ c) st) by (by apply (is_at_min (vw_str i (vw_must m1 v)))) end.
  step ltac:(eapply (copy_loop_code behind v3 c0 c); exact H3). intros ? s4 H4. cbv beta in H4. clear H3.
  rewrite replicate_end, app_assoc in H4. set (c0' := c0 ++ concat (replicate (Z.to_nat min) c)) in *.
  assert (Hfin : forall tail m s', is_at (vw_must m v3) (c0' ++ tail) s' ->
    exists m, at_text (rep_view v oldMin min m) (c0 ++ concat (replicate (Z.to_nat min) c) ++ tail) t' s').
  { intros tl m s' Hs'. exists m, i. split; [|done]. unfold c0' in Hs'. by rewrite <- app_assoc in Hs'. }
  unfold rep_code. destruct (Z.eqb_spec opt A_INFINITE_REPEAT) as [->|Hne].
  { eapply sreturns_mono; [apply (loop_end v3 c0' c1 w x minimize s4 H4 Hw)|]. intros ? s5 [m H5]. eapply Hfin, H5. }
  apply sreturns_get_bind. destruct (Z.ltb_spec 0 opt).
  - eapply sreturns_mono; [apply (opt_end v3 c0' c opt minimize s4 H4); lia|]. intros ? s5 [m H5]. eapply Hfin, H5.
  - replace opt with 0 by lia. cbn [Z.to_nat replicate concat]. eapply sreturns_mono; [apply (Unemit_spec v3 c0' c s4 H4)|].
    + cbn [v3 v_must vw_str rep_view vw_must]. pose proof (at_must _ _ _ H2) as Hmm. cbn [v_must vw_str vw_must] in Hmm.
      assert (Hc0' : zlen c0' = zlen c0 + min * zlen c).
      { unfold c0'. pose proof (concat_replicate_length (Z.to_nat min) c). rewrite length_app. lia. }
      rewrite length_app in Hmm. destruct (decide (min = 0)) as [Hz|]; [specialize (Hm1 Hz); nia|nia].
    + intros ? s5 H5. eapply (Hfin [] m1). rewrite app_nil_r. exact H5.
Qed.
(** ** Items *)

Definition same_groups (v v' : View) : Prop := v_paren v' = v_paren v /\ v_flags v' = v_flags v /\ v_depth v' = v_depth v.

Lemma same_groups_trans v1 v2 v3 : same_groups v1 v2 -> same_groups v2 v3 -> same_groups v1 v3.
Proof using. unfold same_groups. intuition congruence. Qed.

(** From the view [v] with [code] emitted, the tree [r] has been read. *)
Definition read_as (v : View) (code : list Z) (r : re) (t : list Z) (s : ParseInfo) : Prop :=
  exists v', at_text v' (code ++ code_of r) t s /\ grows v r v' /\ same_groups v v'.

Lemma zip_sub_l a b : length a = 16%nat -> length b = 16%nat -> set_sub a (zip_with (fun x y => u16 (Z.lor x y)) a b).
Proof using.
  intros Ha Hb ch Hch H. rewrite (in_zip Z.lor orb); [by rewrite H|intros; apply Z.lor_spec|done..].
Qed.

Lemma zip_sub_r a b : length a = 16%nat -> length b = 16%nat -> set_sub b (zip_with (fun x y => u16 (Z.lor x y)) a b).
Proof using.
  intros Ha Hb ch Hch H. rewrite (in_zip Z.lor orb); [by rewrite H, orb_true_r|intros; apply Z.lor_spec|done..].
Qed.

Lemma grows_set v ws min opt minimize : view_ok v -> zlen (ws_bits ws) = 16 -> 0 <= min <= 65535 -> 0 <= opt ->
  grows v (RChars (CSet ws) min opt minimize) (set_view v ws min) /\ same_groups v (set_view v ws min).
Proof using.
  intros Hv Hw Hmin Hopt. assert (Hl : length (ws_bits ws) = 16%nat) by lia. pose proof Hv as [[Hv1 Hv2] Hm].
  assert (Hst : v_start (set_view v ws min) = if v_min v =? 0 then zip_with (fun x y => u16 (Z.lor x y)) (v_start v) (ws_bits ws) else v_start v)
    by (unfold set_view, with_start; by destruct (v_min v =? 0)).
  assert (Hmn : v_min (set_view v ws min) = u32 (v_min v + min)) by done.
  split; [|unfold set_view, with_start; by destruct (v_min v =? 0)].
  apply grows_chars; try done.
  - split; [|rewrite Hmn; apply u32_range]. rewrite Hst. destruct (v_min v =? 0); [by apply zip_ok|done].
  - rewrite Hst. destruct (v_min v =? 0); [by apply zip_sub_l|done].
  - intros H0 ch Hch Hin. rewrite Hst, H0. apply zip_sub_r; [done..|]. cbn [in_charset] in Hin. unfold in_wset in Hin.
    rewrite (proj2 (Z.ltb_lt ch 256)) in Hin by lia. exact Hin.
Qed.

(** Repetition behind a set. *)
Lemma set_read v code ws t s (m : SM ParseInfo unit) : view_ok v -> zlen (ws_bits ws) = 16 ->
  follows (parse_repeat t) m s
    (fun '(min, opt, minimize, t') _ => at_text (set_view v ws min) (code ++ chars_code (CSet ws) min opt minimize) t') ->
  follows ('(min, opt, minimize, t) ← parse_repeat t; POk (inl (B := Z) (RChars (CSet ws) min opt minimize), t)) m s
    (fun a _ s' => match a.1 with inl r => read_as v code r a.2 s' | inr _ => False end).
Proof using.
  intros Hv Hw Hm. destruct (parse_repeat t) as [[[[min opt] minimize] t']| | |] eqn:E; cbn [follows] in *; [|exact Hm|done..].
  apply parse_repeat_ok in E as (Hmin & Hopt & _). cbn [follows]. eapply sreturns_mono; [exact Hm|]. intros ? s' H. cbv beta iota in H.
  cbn [fst snd]. destruct (grows_set v ws min opt minimize Hv Hw Hmin ltac:(lia)) as [Hg Hs]. by exists (set_view v ws min).
Qed.

Lemma class_read v code t s : at_text v code (91 :: t) s -> view_ok v -> zlen l < 65536 ->
  follows ('(ws, t) ← parse_set (nocase flags) t; '(min, opt, minimize, t) ← parse_repeat t;
      POk (inl (B := Z) (RChars (CSet ws) min opt minimize), t))
    (parse_class strVal flags behind) s (fun a _ s' => match a.1 with inl r => read_as v code r a.2 s' | inr _ => False end).
Proof.
  intros Hs Hv Hl. pose proof (parse_class_spec strVal flags behind l Hstr v code t s Hs Hl) as Hc.
  destruct (parse_set (nocase flags) t) as [[ws t1]| | |] eqn:E; [|exact Hc|done..].
  apply parse_set_shape in E as [Hw _]. apply follows_pok1. cbv beta iota. apply set_read; [done..|].
  change (follows ('(min, opt, minimize, t0) ← parse_repeat t1; POk (ws, min, opt, minimize, t0)) (parse_class strVal flags behind) s
    (fun '(ws, min, opt, minimize, t') _ => at_text (set_view v ws min) (code ++ chars_code (CSet ws) min opt minimize) t')) in Hc.
  destruct (parse_repeat t1) as [[[[min opt] minimize] t2]| | |]; exact Hc.
Qed.

Lemma escaped_class_read v code k complement t s : at_text v code t s -> view_ok v -> 0 <= k < 3 ->
  follows ('(min, opt, minimize, t) ← parse_repeat t;
      POk (inl (B := Z) (RChars (CSet (class_set (nocase flags) k complement)) min opt minimize), t))
    (escaped_class strVal flags behind (class_code k complement)) s
    (fun a _ s' => match a.1 with inl r => read_as v code r a.2 s' | inr _ => False end).
Proof.
  intros Hs Hv Hk. apply set_read; [done|by apply class_set_length|]. by apply (escaped_class_spec strVal flags behind l Hstr).
Qed.

(** A dot. *)
Lemma any_read v code t s : at_text v code (46 :: t) s -> view_ok v ->
  follows ('(min, opt, minimize, t) ← parse_repeat t; POk (inl (B := Z) (RChars CAny min opt minimize), t))
    (modify (fun s => if minLen s =? 0 then up_start full_set s else s) ≫= (fun _ =>
     advance 1 ≫= (fun _ => ParseSimpleRepetition strVal behind (op_num A_ANY)))) s
    (fun a _ s' => match a.1 with inl r => read_as v code r a.2 s' | inr _ => False end).
Proof.
  intros Hs Hv. apply follows_modify. set (v1 := if v_min v =? 0 then vw_start full_set v else v).
  assert (H1 : at_text v1 code (46 :: t) (if minLen s =? 0 then up_start full_set s else s)).
  { destruct Hs as (i & Hs & Ht). exists i. split; [|done]. destruct (is_at_view _ _ _ Hs) as (_ & _ & _ & _ & -> & _). unfold v1.
    cbn [v_min vw_str]. destruct (v_min v =? 0); [by apply (is_at_start (vw_str i v))|done]. }
  eapply follows_step; [eapply advance_spec; [done|exact H1]|]. clear H1. intros ? s2 H2. cbv beta in H2.
  pose proof (ParseSimpleRepetition_spec strVal behind l Hstr _ _ _ _ A_ANY H2) as Hr.
  destruct (parse_repeat t) as [[[[min opt] minimize] t']| | |] eqn:E; cbn [follows]; [|exact Hr|done..].
  apply parse_repeat_ok in E as (Hmin & Hopt & _). cbn [follows]. eapply sreturns_mono; [exact Hr|]. intros ? s3 H3. cbv beta in H3.
  cbn [fst snd]. exists (vw_min (u32 (v_min v1 + min)) v1). pose proof Hv as [Hvs Hm].
  assert (Hst : v_start v1 = if v_min v =? 0 then full_set else v_start v) by (unfold v1; by destruct (v_min v =? 0)).
  assert (Hmn : v_min v1 = v_min v) by (unfold v1; by destruct (v_min v =? 0)). rewrite Hmn.
  assert (Hfull : forall ch, 0 <= ch < 256 -> AReIsInSet full_set ch = true) by (intros; by apply in_full_set).
  split_and!.
  - cbn [code_of]. unfold chars_code. cbn [charset_op charset_code]. rewrite app_nil_r. rewrite Hmn in H3. exact H3.
  - apply grows_chars; cbn [v_min v_start vw_min]; try done.
    + split; cbn [v_min v_start vw_min]; [|apply u32_range]. rewrite Hst. destruct (v_min v =? 0); [by apply const_set_ok|done].
    + lia.
    + rewrite Hst. destruct (v_min v =? 0); [by intros ch Hch _; apply Hfull|done].
    + intros H0 ch Hch _. rewrite Hst, H0. by apply Hfull.
  - unfold v1, same_groups. by destruct (v_min v =? 0).
Qed.

(** An assertion. *)
Lemma assert_read v code a t s : at_text v (code ++ [op_num (assert_op a)]) t s -> view_ok v -> read_as v code (RAssert a) t s.
Proof using. intros Hs Hv. exists v. split; [done|]. split; [by apply grows_assert|by unfold same_groups]. Qed.
(** ** Literal characters *)

Local Abbreviation nc := (nocase flags).
Definition lit_op : Z := op_num (if nc then A_LITERAL_I else A_LITERAL).

(** The characters that may start with the literal [ch]. *)
Definition lit_start (ch : Z) (set : list Z) : list Z :=
  if nc then AAddWideToSet (AAddWideToSet set ch) (AUpper ch) else AAddWideToSet set ch.

Lemma add_wide_set set ch : set_ok set -> word ch ->
  set_ok (AAddWideToSet set ch) /\ set_sub set (AAddWideToSet set ch) /\ (ch < 256 -> AReIsInSet (AAddWideToSet set ch) ch = true).
Proof using.
  intros Hs Hw. unfold AAddWideToSet, word in *. destruct (Z.ltb_spec ch 256); [|split; [done|split; [done|lia]]].
  assert (Hb : byte ch) by (unfold byte; lia). destruct Hs as [Hl Hf]. split; [by apply AReAddToSet_ok|]. split.
  - intros c Hc H0. rewrite in_AReAddToSet; [by rewrite H0|done..].
  - intros _. rewrite in_AReAddToSet, Z.eqb_refl by done. by rewrite orb_true_r.
Qed.

Lemma narrow_case c : 0 <= c < 256 -> 0 <= ALower c < 256 /\ (ALower c = c \/ AUpper (ALower c) = c).
Proof using.
  intros Hc. assert (H : forallb (fun n => let c := Z.of_nat n in
    (0 <=? ALower c) && (ALower c <? 256) && ((ALower c =? c) || (AUpper (ALower c) =? c))) (seq 0 256) = true) by by vm_compute.
  rewrite forallb_forall in H. specialize (H (Z.to_nat c) ltac:(apply in_seq; lia)). rewrite Z2Nat.id in H by lia. cbv zeta in H.
  apply andb_prop in H as [H1 H2]. split; [lia|]. apply orb_prop in H2 as [H2|H2]; apply Z.eqb_eq in H2; auto.
Qed.

Lemma lit_start_spec ch set : set_ok set -> word ch ->
  set_ok (lit_start ch set) /\ set_sub set (lit_start ch set) /\
  forall c, 0 <= c < 256 -> in_charset (CLit nc ch) c = true -> AReIsInSet (lit_start ch set) c = true.
Proof using.
  intros Hs Hw. destruct (add_wide_set set ch Hs Hw) as (H1 & H2 & H3). unfold lit_start. destruct nc; cbn [in_charset].
  - destruct (case_range ch Hw) as [Hu _]. destruct (add_wide_set _ (AUpper ch) H1 Hu) as (H4 & H5 & H6).
    split; [done|]. split; [by transitivity (AAddWideToSet set ch)|]. intros c Hc Hin%Z.eqb_eq.
    destruct (narrow_case c Hc) as [Hl [E|E]]; rewrite Hin in *.
    + subst c. apply H5; [done|]. apply H3. lia.
    + rewrite <- E. apply H6. lia.
  - split; [done|]. split; [done|]. intros c Hc Hin%Z.eqb_eq. subst c. apply H3. lia.
Qed.

Definition start_view (v : View) (ch : Z) : View := if v_min v =? 0 then vw_start (lit_start ch (v_start v)) v else v.

Lemma start_view_spec v ch : view_ok v -> word ch ->
  view_ok (start_view v ch) /\ v_min (start_view v ch) = v_min v /\ v_must (start_view v ch) = v_must v /\
  same_groups v (start_view v ch) /\ set_sub (v_start v) (v_start (start_view v ch)) /\
  (v_min v = 0 -> forall c, 0 <= c < 256 -> in_charset (CLit nc ch) c = true -> AReIsInSet (v_start (start_view v ch)) c = true).
Proof using.
  intros [Hv Hm] Hw. destruct (lit_start_spec ch (v_start v) Hv Hw) as (H1 & H2 & H3). unfold start_view, same_groups.
  destruct (Z.eqb_spec (v_min v) 0); cbn [v_min v_start v_must v_paren v_flags v_depth vw_start]; split_and!; try done; by split.
Qed.

(** The single characters and the literal strings emitted so far. *)
Lemma code_lit lit : code_of (lit_re nc lit) =
  match lit with [] => [] | [c] => [lit_op; c] | _ => [lit_op + A_STRING; zlen lit] ++ lit end.
Proof using. destruct lit as [|c [|c2 lit]]; [done|..]; unfold lit_op; by destruct nc. Qed.

Lemma literal_second v cp prev ch t s (k : unit -> SM ParseInfo unit) Q :
  at_text v (cp ++ [lit_op; prev]) t s -> word ch ->
  (forall u s', at_text v (cp ++ [lit_op + A_STRING; 2; prev; ch]) t s' -> sreturns (k u) s' Q) ->
  sreturns (s ← get;
    let n := bufInd (out s) in
    prevCh ← buf_get (n - 1);
    w ← buf_get (n - 2);
    buf_put (n - 2) (w + A_STRING) ≫= (fun _ =>
    buf_put (n - 1) 2 ≫= (fun _ => Emit behind prevCh ≫= (fun _ => Emit behind ch ≫= k)))) s Q.
Proof using.
  intros (i & Hs & Ht) Hw Hk. set (v' := vw_str i v) in *. apply sreturns_get_bind. cbv zeta. rewrite (is_at_len _ _ _ Hs).
  assert (E2 : zlen (cp ++ [lit_op; prev]) - 2 = zlen cp) by zl.
  assert (E1 : zlen (cp ++ [lit_op; prev]) - 1 = zlen (cp ++ [lit_op])) by zl. rewrite E1, E2.
  assert (Hp : cp ++ [lit_op; prev] = (cp ++ [lit_op]) ++ prev :: []) by (by rewrite <- app_assoc).
  step ltac:(eapply code_get; [exact Hs|zl]). intros x ? [Hx ->]. rewrite Hp, dg_at in Hx. subst x.
  step ltac:(eapply code_get; [exact Hs|zl]). intros x ? [Hx ->]. rewrite dg_at in Hx. subst x.
  assert (Hop : word (lit_op + A_STRING)) by (unfold lit_op; by destruct nc).
  step ltac:(eapply code_put; [exact Hs|zl|exact Hop]). intros ? s1 H1. cbv beta in H1. rewrite upd_at in H1.
  replace (cp ++ lit_op + A_STRING :: [prev]) with ((cp ++ [lit_op + A_STRING]) ++ prev :: []) in H1 by (by rewrite <- app_assoc).
  replace (zlen (cp ++ [lit_op])) with (zlen (cp ++ [lit_op + A_STRING])) by zl.
  step ltac:(eapply code_put; [exact H1|zl|done]). intros ? s2 H2. cbv beta in H2. rewrite upd_at in H2.
  assert (Hprev : word prev).
  { destruct (at_out _ _ _ Hs) as (_ & _ & Hc & _). rewrite !Forall_app in Hc. destruct Hc as [_ Hc]. by inversion Hc as [|? ? _ Hc2]; inversion Hc2. }
  step ltac:(eapply Emit_spec; exact H2). intros ? s3 H3. cbv beta in H3. rewrite u16_word in H3 by done.
  step ltac:(eapply Emit_spec; exact H3). intros u s4 H4. cbv beta in H4. rewrite u16_word in H4 by done.
  apply Hk. exists i. split; [|done]. repeat rewrite <- app_assoc in H4. exact H4.
Qed.

Lemma literal_more v cp lit ch t s :
  at_text v (cp ++ [lit_op + A_STRING; zlen lit] ++ lit) t s -> word ch -> zlen lit + 1 < 65536 -> 1 <= v_must v ->
  let litLen := zlen lit + 1 in
  sreturns (Emit behind ch ≫= (fun _ =>
    s ← get;
    w ← buf_get (mustStr s - 1);
    (if w <=? litLen then modify (fun s => up_must (bufInd (out s) - litLen) (maxLen s - litLen) s) else mret tt) ≫= (fun _ =>
    buf_put (bufInd (out s) - litLen - 1) litLen))) s (fun _ s' => exists m,
    at_text (vw_must m v) (cp ++ [lit_op + A_STRING; zlen (lit ++ [ch])] ++ lit ++ [ch]) t s' /\ 1 <= m).
Proof using.
  intros (i & Hs & Ht) Hw Hn Hmust litLen. pose proof (at_must _ _ _ Hs) as Hm. cbn [v_must vw_str] in Hm.
  step ltac:(eapply Emit_spec; exact Hs). intros ? s1 H1. cbv beta in H1. rewrite u16_word in H1 by done.
  set (code := (cp ++ [lit_op + A_STRING; zlen lit] ++ lit) ++ [ch]) in *.
  assert (Hcode : zlen code = zlen cp + 3 + zlen lit) by (unfold code; zl).
  apply sreturns_get_bind. pose proof (is_at_view _ _ _ H1) as (_ & Hms & _). cbn [v_must vw_str] in Hms. rewrite Hms, (is_at_len _ _ _ H1).
  step ltac:(eapply code_get; [exact H1|unfold code in *; zl]). intros w ? [Hx ->].
  apply (sreturns_bind _ _ _ (fun _ s' => exists m, is_at (vw_must m (vw_str i v)) code s' /\ 1 <= m)).
  { destruct (w <=? litLen).
    - apply sreturns_modify. rewrite (is_at_len _ _ _ H1). exists (zlen code - litLen). unfold litLen. split; [|lia]. apply is_at_must; [done|lia].
    - apply sreturns_ret. exists (v_must v). split; [|done]. exact H1. }
  intros ? s2 (m & H2 & Hm2). replace (zlen code - litLen - 1) with (zlen (cp ++ [lit_op + A_STRING])) by (unfold litLen; zl).
  eapply sreturns_mono; [eapply code_put; [exact H2|zl|unfold word, litLen; lia]|]. intros ? s3 H3. cbv beta in H3.
  exists m. split; [|done]. exists i. split; [|done].
  replace code with ((cp ++ [lit_op + A_STRING]) ++ zlen lit :: lit ++ [ch]) in H3 by (unfold code; by rewrite <- !app_assoc).
  rewrite upd_at, <- app_assoc in H3. replace (zlen (lit ++ [ch])) with litLen by (unfold litLen; zl). exact H3.
Qed.

Lemma literal_char_spec v cp lit ch t s :
  at_text v (cp ++ code_of (lit_re nc lit)) t s -> word ch -> zlen lit + 1 < 65536 -> (2 <= zlen lit -> 1 <= v_must v) ->
  sreturns (literal_char behind lit_op ch (zlen lit)) s (fun _ s' => exists m,
    at_text (vw_must m (vw_min (u32 (v_min v + 1)) v)) (cp ++ code_of (lit_re nc (lit ++ [ch]))) t s' /\ (2 <= zlen lit + 1 -> 1 <= m)).
Proof using.
  intros (i & Hs & Ht) Hw Hn Hmust. unfold literal_char. apply sreturns_modify_bind. cbv zeta.
  pose proof (is_at_view _ _ _ Hs) as (_ & _ & _ & _ & Hmin & _). cbn [v_min vw_str] in Hmin. rewrite Hmin. set (v1 := vw_min (u32 (v_min v + 1)) v).
  match goal with |- sreturns _ ?st _ => assert (H1 : is_at (vw_str i v1) (cp ++ code_of (lit_re nc lit)) st)
    by (by apply (is_at_min (vw_str i v))); revert H1; generalize st end.
  clear s Hs Hmin. intros s Hs. rewrite code_lit in Hs. rewrite code_lit.
  assert (Hop : word lit_op) by (unfold lit_op; by destruct nc).
  destruct lit as [|c [|c2 lit]]; cbn [app].
  - simpl zlen. cbn [Z.add Z.eqb Pos.eqb Z.ltb Z.compare Pos.compare Pos.compare_cont]. rewrite app_nil_r in Hs.
    step ltac:(eapply Emit_spec; exact Hs). intros ? s2 H2. cbv beta in H2. rewrite u16_word in H2 by done.
    eapply sreturns_mono; [eapply Emit_spec; exact H2|]. intros ? s3 H3. cbv beta in H3. rewrite u16_word, <- app_assoc in H3 by done.
    exists (v_must v). split; [|lia]. exists i. split; [|done]. rewrite <- (vw_must_id (vw_str i v1)) in H3. exact H3.
  - eapply (literal_second v1 cp c ch t); [by exists i|done|].
    intros u s2 (j & H2 & Ht2). apply sreturns_modify. pose proof (is_at_view _ _ _ H2) as (_ & Hms & _). cbn [v_must vw_str] in Hms.
    pose proof (at_must _ _ _ H2) as Hm. cbn [v_must vw_str] in Hm. rewrite Hms, (is_at_len _ _ _ H2). destruct (Z.eqb_spec (v_must v1) 0).
    + exists (zlen (cp ++ [lit_op + A_STRING; 2; c; ch]) - 2). split; [|zl]. exists j. split; [|done].
      apply (is_at_must (vw_str j v1)); [exact H2|zl].
    + exists (v_must v1). split; [|lia]. exists j. split; [|done]. rewrite vw_must_id. exact H2.
  - set (lit' := c :: c2 :: lit) in *. assert (Hl : 2 <= zlen lit') by (unfold lit'; simpl; lia).
    destruct (Z.eqb_spec (zlen lit' + 1) 2); [lia|]. test (2 <? zlen lit' + 1) true.
    eapply sreturns_mono; [apply (literal_more v1 cp lit' ch t s); [by exists i|done|done|by apply Hmust]|].
    intros ? s2 (m & H2 & Hm). exists m. split; [exact H2|done].
Qed.
(** ** The cases of the loop over items *)

Lemma cat_empty_r r : cat r REmpty = r.
Proof using. by destruct r. Qed.

Lemma lit_grows v0 acc lit v ch v' lo hi :
  0 <= v_min v0 -> shaped lo hi acc -> grows v0 (cat acc (lit_re nc lit)) v -> word ch ->
  v_min v' = u32 (v_min v + 1) -> v_start v' = v_start (start_view v ch) ->
  grows v0 (cat acc (lit_re nc (lit ++ [ch]))) v'.
Proof using.
  intros Hv0 Hacc Hg Hw Hmin Hst. destruct (start_view_spec v ch (gr_ok _ _ _ Hg) Hw) as ([Hok _] & _ & _ & _ & Hsub & Hin).
  assert (Hv' : view_ok v') by (split; [by rewrite Hst|rewrite Hmin; apply u32_range]).
  destruct lit as [|c lit].
  - cbn [lit_re app] in *. rewrite cat_empty_r in Hg. eapply grows_cat; [exact Hacc|done|exact Hg|].
    apply grows_chars; try done; [by apply (gr_ok _ _ _ Hg)|by rewrite Hst|]. rewrite Hst. exact Hin.
  - eapply grows_longer; [done|exact Hacc|done|exact Hg|done|done|by rewrite Hst].
Qed.

(** What an item leads to: a tree behind everything so far, or one more literal
    character. *)
Definition item_result (v0 : View) (cp : list Z) (acc : re) (lit : list Z) (v : View) (a : (re + Z) * list Z) (res : Z * bool)
    (s : ParseInfo) : Prop :=
  match a.1 with
  | inl r => res.2 = false /\ read_as v (cp ++ code_of (lit_re nc lit)) r a.2 s
  | inr ch => res = (zlen lit + 1, true) /\ exists v', at_text v' (cp ++ code_of (lit_re nc (lit ++ [ch]))) a.2 s /\
      grows v0 (cat acc (lit_re nc (lit ++ [ch]))) v' /\ same_groups v v' /\ (2 <= zlen lit + 1 -> 1 <= v_must v')
  end.

Section context.
Context (v0 : View) (cp : list Z) (acc : re) (lit : list Z) (v : View) (lo hi : Z).
Hypothesis (Hv0 : 0 <= v_min v0) (Hacc : shaped lo hi acc) (Hg : grows v0 (cat acc (lit_re nc lit)) v)
  (Hmust : 2 <= zlen lit -> 1 <= v_must v) (Hlit : zlen lit + 1 < 65536).
#[local] Set Default Proof Using "Type Hstr Hv0 Hacc Hg Hmust Hlit".
Local Abbreviation code := (cp ++ code_of (lit_re nc lit)).
Local Abbreviation result := (item_result v0 cp acc lit v).

Lemma item_end r (m : SM ParseInfo unit) s :
  follows r m s (fun a _ s' => match a.1 with inl r => read_as v code r a.2 s' | inr _ => False end) ->
  follows r (m ≫= (fun _ => mret (zlen lit, false))) s result.
Proof using.
  clear Hv0 Hacc Hg Hmust Hlit. intros Hm. destruct r as [[r t]| | |]; cbn [follows] in *; [| |done..].
  - eapply sreturns_bind; [exact Hm|]. intros ? s' H. cbv beta in H. apply sreturns_ret. unfold item_result. cbn [fst snd] in *.
    destruct r; [by split|done].
  - apply bad_bind; [exact Hm|]. intros. sticks.
Qed.

(** The number of a group in the character that stands for it. *)
Lemma ref_number n : 1 <= n <= 9 -> Z.land (esc_char (EscRef n)) (Z.lnot 48) = n.
Proof using.
  clear. intros Hn. assert (Hall : forallb (fun k => Z.land (esc_char (EscRef (Z.of_nat k))) (Z.lnot 48) =? Z.of_nat k) (seq 1 9) = true) by by vm_compute.
  rewrite forallb_forall in Hall. specialize (Hall (Z.to_nat n) ltac:(apply in_seq; lia)). rewrite Z2Nat.id in Hall by lia. by apply Z.eqb_eq in Hall.
Qed.

Local Abbreviation ref_op := (op_num (if nc then A_BACKREF_I else A_BACKREF)).

(** A back reference behind the test of its group. *)
Lemma backref_rest n t s oldMaxLen : at_text v (code ++ [ref_op]) t s -> v_must v <= zlen code -> 1 <= n <= 9 ->
  follows ('(min, opt, minimize, t) ← parse_repeat t; POk (inl (B := Z) (repeated min opt minimize (RRef nc n) (RRefLoop minimize nc n)), t))
    (Emit behind n ≫= (fun _ =>
     modify (fun s => up_len (minLen s) (u32 (maxLen s * 2)) s) ≫= (fun _ =>
     s ← get;
     ParseRepetition strVal behind (minLen s) oldMaxLen 2 (mustStr s) (mustStrBack s)))) s
    (fun a _ s' => match a.1 with inl r => read_as v code r a.2 s' | inr _ => False end).
Proof.
  intros Hs Hmc Hn.
  eapply follows_step; [eapply (Emit_text behind l); [exact Hs|unfold word; lia]|]. clear Hs. intros ? s2 Hs. cbv beta in Hs.
  apply follows_modify. destruct Hs as (i & Hs & Ht). pose proof (is_at_view _ _ _ Hs) as (_ & _ & _ & _ & Hmin & _). cbn [v_min vw_str] in Hmin.
  rewrite Hmin. set (s1 := up_len _ _ s2). assert (H1 : is_at (vw_str i (vw_min (v_min v) v)) ((code ++ [ref_op]) ++ [n]) s1)
    by (by apply (is_at_min (vw_str i v))).
  replace (vw_min (v_min v) v) with v in H1 by (by destruct v). apply follows_get.
  destruct (is_at_view _ _ _ H1) as (_ & Hms & _ & _ & Hmin1 & _). cbn [v_min v_must vw_str] in Hms, Hmin1. rewrite Hms, Hmin1.
  set (op := ref_op) in *. assert (Hop : word (op + 1)) by (unfold op; by destruct nc).
  rewrite <- app_assoc in H1. pose proof (at_must _ _ _ H1) as Hmm. cbn [v_must vw_str] in Hmm.
  pose proof (ParseRepetition_spec v code [] op n (v_min v) oldMaxLen (v_must v) (mustStrBack s1) t s1
    ltac:(by exists i) Hop ltac:(cbn [app]; lia)) as Hr. cbv zeta in Hr.
  change (zlen ([] ++ [op; n])) with 2 in Hr.
  destruct (parse_repeat t) as [[[[min opt] minimize] t']| | |] eqn:E; cbn [follows] in Hr; [|exact Hr|done..].
  apply parse_repeat_ok in E as (Hmin' & Hopt & _). cbn [follows]. eapply sreturns_mono; [exact Hr|].
  intros ? s3 [m H3]. cbn [fst snd]. exists (rep_view v (v_min v) min m).
  assert (Hloop : code_of (RRefLoop minimize nc n) = loop_code minimize ([] ++ [op + 1; n])) by (unfold op; by destruct nc).
  rewrite (code_repeated min opt minimize (RRef nc n) _ _ Hloop). split_and!; [exact H3| |done..].
  eapply (grows_repeated v v _ (RRef nc n) (RRef nc n) _ min opt minimize 0 0); try done.
  - apply (gr_ok _ _ _ Hg).
  - intros. split; [done|apply covers_ref_loop].
  - apply grows_ref, (gr_ok _ _ _ Hg).
Qed.

Lemma backref_read n t s : at_text v (code ++ [ref_op]) t s -> v_must v <= zlen code -> 1 <= n <= 9 ->
  follows (if Z.testbit (v_flags v) n then
      '(min, opt, minimize, t) ← parse_repeat t;
      POk (inl (B := Z) (repeated min opt minimize (RRef nc n) (RRefLoop minimize nc n)), t)
    else PBad)
    (back_reference strVal behind (esc_char (EscRef n))) s
    (fun a _ s' => match a.1 with inl r => read_as v code r a.2 s' | inr _ => False end).
Proof.
  intros Hs Hmc Hn. unfold back_reference. rewrite ref_number by done. cbv zeta. apply follows_get.
  assert (Hfl : has_flag (parenFlags s) (Z.shiftl 1 n) = Z.testbit (v_flags v) n).
  { destruct Hs as (i & Hs & _). destruct (is_at_view _ _ _ Hs) as (_ & _ & _ & -> & _). cbn [v_flags vw_str].
    unfold has_flag. apply test_flag. lia. }
  rewrite Hfl. destruct (Z.testbit (v_flags v) n); [|apply follows_bad, error_bad; intros; sticks].
  eapply follows_step; [by apply (sreturns_ret _ _ (fun _ s' => s' = s))|]. intros ? ? ->. by apply backref_rest.
Qed.

(** A literal character. *)
Lemma literal_read ch t s : at_text v code t s -> word ch ->
  follows (match t with
      | d :: _ => if is_repeat d then '(min, opt, minimize, t) ← parse_repeat t; POk (inl (RChars (CLit nc ch) min opt minimize), t)
                  else POk (inr ch, t)
      | [] => POk (inr ch, t)
      end)
    (modify (fun s =>
      if minLen s =? 0 then
        let c := AAddWideToSet (startChar s) ch in
        up_start (if nc then AAddWideToSet c (AUpper ch) else c) s
      else s) ≫= (fun _ =>
    s ← get;
    repeated ← (if strPos s =? strEnd strVal then mret false
                else c ← cur strVal; mret ((c =? 42) || (c =? 43) || (c =? 63) || (c =? 123)));
    if negb repeated then literal_char behind lit_op ch (zlen lit) ≫= (fun _ => mret (zlen lit + 1, true))
    else ParseSimpleRepetition strVal behind lit_op ≫= (fun _ => Emit behind ch ≫= (fun _ => mret (zlen lit, false))))) s result.
Proof.
  intros Hs Hw. destruct (start_view_spec v ch (gr_ok _ _ _ Hg) Hw) as (Hok & Hmn & Hms & Hsame & Hsub & Hin).
  set (v1 := start_view v ch) in *. apply follows_modify. match goal with |- follows _ _ ?st _ => set (s1 := st) end.
  assert (H1 : at_text v1 code t s1).
  { destruct Hs as (i & Hs & Ht). exists i. split; [|done].
    destruct (is_at_view _ _ _ Hs) as (_ & _ & _ & _ & Em & _ & Es). cbn [v_min v_start vw_str] in Em, Es.
    unfold s1, v1, start_view, lit_start. rewrite Em. destruct (v_min v =? 0); [|done]. rewrite Es. by apply (is_at_start (vw_str i v)). }
  clearbody s1. clear s Hs. apply follows_get. rewrite (at_end _ _ Hstr _ _ _ _ H1).
  set (rep := match t with d :: _ => is_repeat d | [] => false end).
  eapply (follows_step _ _ _ _ (fun b s' => b = rep /\ s' = s1)).
  { unfold rep. destruct t as [|d t]; cbn [is_nil]; [by apply sreturns_ret|]. eapply sreturns_bind; [by eapply cur_spec|].
    intros ? ? [-> ->]. by apply sreturns_ret. }
  intros ? ? [-> ->]. replace (match t with [] => _ | _ => _ end) with
    (if rep then '(min, opt, minimize, t) ← parse_repeat t; POk (inl (RChars (CLit nc ch) min opt minimize), t) else POk (inr ch, t))
    by (unfold rep; by destruct t). destruct rep; cbn [negb].
  - pose proof (ParseSimpleRepetition_spec strVal behind l Hstr v1 code t s1 (if nc then A_LITERAL_I else A_LITERAL) H1) as Hr.
    change (op_num (if nc then A_LITERAL_I else A_LITERAL)) with lit_op in Hr.
    destruct (parse_repeat t) as [[[[min opt] minimize] t']| | |] eqn:E; cbn [follows]; [| |done..].
    2:{ apply bad_bind; [exact Hr|]. intros. sticks. }
    apply parse_repeat_ok in E as (Hmin & Hopt & _). cbn [follows].
    step ltac:(exact Hr). intros ? s2 H2. cbv beta in H2.
    step ltac:(eapply Emit_text; [exact H2|exact Hw]). intros ? s3 H3. cbv beta in H3. apply sreturns_ret. split; [done|].
    exists (vw_min (u32 (v_min v1 + min)) v1). rewrite Hmn in H3 |- *. split_and!; [| |apply Hsame..].
    + rewrite <- app_assoc in H3. cbn [snd code_of]. unfold chars_code. cbn [charset_code].
      replace (charset_op (CLit nc ch)) with (if nc then A_LITERAL_I else A_LITERAL) by (by destruct nc). exact H3.
    + apply grows_chars; try done; [by apply (gr_ok _ _ _ Hg)| |lia]. destruct Hok as [Hok1 _]. split; [done|apply u32_range].
  - step ltac:(eapply (literal_char_spec v1 cp lit ch t s1); [exact H1|done|done|by rewrite Hms]).
    intros ? s2 (m & H2 & Hm). apply sreturns_ret. split; [done|]. cbn [snd]. rewrite Hmn in H2.
    exists (vw_must m (vw_min (u32 (v_min v + 1)) v1)). split_and!; [exact H2| |apply Hsame..|exact Hm].
    by eapply lit_grows.
Qed.
(** An escape that has been read. *)
Definition parse_escaped (e : esc) (s : list Z) (complete : Z) : parsed ((re + Z) * list Z) :=
  match e with
  | EscAssert a _ => POk (inl (RAssert a), s)
  | EscRef n =>
    if Z.testbit complete n then
      '(min, opt, minimize, s) ← parse_repeat s;
      POk (inl (repeated min opt minimize (RRef nc n) (RRefLoop minimize nc n)), s)
    else PBad
  | EscClass k complement =>
    '(min, opt, minimize, s) ← parse_repeat s;
    POk (inl (RChars (CSet (class_set nc k complement)) min opt minimize), s)
  | EscChar ch =>
    let ch := if nc then ALower ch else ch in
    match s with
    | d :: _ =>
      if is_repeat d then
        '(min, opt, minimize, s) ← parse_repeat s; POk (inl (RChars (CLit nc ch) min opt minimize), s)
      else POk (inr ch, s)
    | [] => POk (inr ch, s)
    end
  end.

(** [parse_default] behind the call of [ParseChar]. *)
Definition default_rest (litLen : Z) (r : Z * Z) : SM ParseInfo (Z * bool) :=
  let '(ch, code) := r in
  if negb (code =? op_num A_EMPTY) then
    (if code <? CC then
       Emit behind code ≫= (fun _ =>
       if (code =? op_num A_BACKREF) || (code =? op_num A_BACKREF_I) then back_reference strVal behind ch else mret tt)
     else escaped_class strVal flags behind code) ≫= (fun _ => mret (litLen, false))
  else
    let code := lit_op in
    let ch := if nc then ALower ch else ch in
    modify (fun s =>
      if minLen s =? 0 then
        let c := AAddWideToSet (startChar s) ch in
        up_start (if nc then AAddWideToSet c (AUpper ch) else c) s
      else s) ≫= (fun _ =>
    s ← get;
    repeated ← (if strPos s =? strEnd strVal then mret false
                else c ← cur strVal; mret ((c =? 42) || (c =? 43) || (c =? 63) || (c =? 123)));
    if negb repeated then literal_char behind code ch litLen ≫= (fun _ => mret (litLen + 1, true))
    else ParseSimpleRepetition strVal behind code ≫= (fun _ => Emit behind ch ≫= (fun _ => mret (litLen, false)))).

Lemma parse_default_split litLen : parse_default strVal flags behind litLen = ParseChar strVal flags ≫= default_rest litLen.
Proof using. clear. done. Qed.

Lemma default_rest_spec e t s : at_text v code t s -> esc_ok e ->
  follows (parse_escaped e t (v_flags v)) (default_rest (zlen lit) (esc_pair flags e)) s result.
Proof.
  intros Hs He. pose proof (gr_ok _ _ _ Hg) as Hok.
  assert (Hmc : v_must v <= zlen code) by (destruct Hs as (i & Hs & _); apply (at_must _ _ _ Hs)).
  unfold esc_pair, default_rest, parse_escaped. cbv beta iota zeta. destruct e as [ch|k complement|a ch|n].
  - cbn [esc_char]. rewrite Z.eqb_refl. cbn [negb]. apply (literal_read _ _ _ Hs). simpl in He.
    destruct nc; [by apply case_range|done].
  - replace (negb (class_code k complement =? op_num A_EMPTY)) with true
      by (simpl in He; assert (k = 0 \/ k = 1 \/ k = 2) as [-> | [-> | ->]] by lia; by destruct complement).
    pose proof (esc_class_test flags (EscClass k complement) He) as Ht. unfold esc_pair in Ht. cbn [snd] in Ht.
    rewrite Z.ltb_antisym, Ht. cbn [negb]. apply item_end. by apply escaped_class_read.
  - assert (Ha : word (op_num (assert_op a)) /\ negb (op_num (assert_op a) =? op_num A_EMPTY) = true /\ (op_num (assert_op a) <? CC) = true /\
      (op_num (assert_op a) =? op_num A_BACKREF) || (op_num (assert_op a) =? op_num A_BACKREF_I) = false)
      by (by destruct a). destruct Ha as (H1 & -> & -> & ->). apply (item_end (POk (inl (RAssert a), t))). cbn [follows fst snd].
    step ltac:(eapply Emit_text; [exact Hs|exact H1]). intros ? s2 H2. apply sreturns_ret. by apply assert_read.
  - assert (Ha : word ref_op /\ negb (ref_op =? op_num A_EMPTY) = true /\ (ref_op <? CC) = true /\
      (ref_op =? op_num A_BACKREF) || (ref_op =? op_num A_BACKREF_I) = true)
      by (by destruct nc). destruct Ha as (H1 & -> & -> & ->). apply item_end.
    eapply follows_step; [eapply Emit_text; [exact Hs|exact H1]|]. intros ? s2 H2. cbv beta in H2. by apply backref_read.
Qed.

Lemma parse_default_spec c t s : at_text v code (c :: t) s ->
  follows ('(e, s) ← parse_esc (c :: t); parse_escaped e s (v_flags v)) (parse_default strVal flags behind (zlen lit)) s result.
Proof.
  intros Hs. pose proof (at_text_words _ _ Hstr _ _ _ _ Hs) as Hw.
  pose proof (ParseChar_spec strVal flags l Hstr v code (c :: t) s Hs ltac:(done)) as Hc. rewrite parse_default_split.
  destruct (parse_esc (c :: t)) as [[e t1]| | |] eqn:Ee; [| |done..].
  2:{ apply bad_bind; [exact Hc|]. intros [? ?]. unfold default_rest. sticks. }
  destruct (parse_esc_ok _ _ Hw Ee) as [He _]. cbn [fst snd] in *.
  apply follows_pok1. cbv beta iota. eapply follows_step; [exact Hc|]. intros r s1 [-> H1]. by apply default_rest_spec.
Qed.

Lemma parse_item_spec c t s : at_text v code (c :: t) s -> zlen l < 65536 ->
  follows (parse_atom nc c (c :: t) (v_flags v)) (parse_item strVal flags behind c (zlen lit)) s result.
Proof.
  intros Hs Hl. pose proof (gr_ok _ _ _ Hg) as Hok. unfold parse_atom, parse_item. change (drop 1 (c :: t)) with t.
  assert (Hassert : forall a, follows (POk (inl (RAssert a), t))
    (Emit behind (op_num (assert_op a)) ≫= (fun _ => advance 1 ≫= (fun _ => mret (zlen lit, false)))) s result).
  { intros a. assert (Ha : word (op_num (assert_op a))) by (by destruct a).
    eapply follows_step; [eapply Emit_text; [exact Hs|exact Ha]|]. intros ? s1 H1. cbv beta in H1.
    eapply follows_step; [eapply advance_spec; [done|exact H1]|]. intros ? s2 H2. apply sreturns_ret. split; [done|]. by apply assert_read. }
  destruct (c =? 94); [apply Hassert|]. destruct (c =? 36); [apply Hassert|]. destruct (c =? 46) eqn:E46.
  { apply Z.eqb_eq in E46 as ->. exact (item_end _ _ _ (any_read _ _ _ _ Hs Hok)). }
  destruct (c =? 91) eqn:E91.
  { apply Z.eqb_eq in E91 as ->. apply item_end. by apply class_read. }
  unfold is_repeat. destruct ((c =? 42) || (c =? 43) || (c =? 63) || (c =? 123)).
  { apply follows_bad, error_bad. intros. sticks. }
  by apply parse_default_spec.
Qed.
End context.
End items.
