(* ===== verification/RePattern.v ===== *)
(** * RePattern: the compiler of regular expressions against the grammar

    The pass over a pattern emits the code of the tree that the grammar yields,
    and the members it leaves are those of the tree; where the grammar rejects a
    pattern it ends with an error, or faults by reading behind the pattern. *)

From stdpp Require Import gmap.
From S2P Require Import Prelude Runtime Digits Value IntConv Encodings EncodingsSpec StrOps.
From S2P Require Import StrSpec StrTables ReDefs ReMatch ReSem ReRun ReStep ReSound ReMatches.
From S2P Require Import ReProps ReComp ReParse ReBuffer ReEmit ReChars ReSets ReShape ReStart.
From S2P Require Import ReItems.


Open Scope Z_scope.

Section compile.
Context (strVal : StrObj) (flags : Z) (behind : storage) (l : list Z).
Hypothesis (Hstr : represents strVal l) (Hlen : zlen l < 65536).
#[local] Set Default Proof Using "Type Hstr Hlen".
Local Abbreviation at_text := (at_text l).
Local Abbreviation nc := (nocase flags).

(** The progress of the grammar at a state. *)
Definition progress_at (t : list Z) (v : View) : progress := MkProgress t (v_paren v) (v_flags v).

(** From [v0] with [code0] emitted, [r] has been read up to the progress [p]. *)
Definition read_to (v0 : View) (code0 : list Z) (depth : Z) (a : re * progress) (s : ParseInfo) : Prop :=
  exists v, at_text v (code0 ++ code_of a.1) (p_rest a.2) s /\ grows v0 a.1 v /\
    v_paren v = p_groups a.2 /\ v_flags v = p_complete a.2 /\ v_depth v = depth.

(** The group numbers are bounded by the length of the pattern. *)
Definition groups_fit (v : View) (t : list Z) : Prop := 1 <= v_paren v /\ v_paren v + zlen t <= 1 + zlen l.

Definition alts_spec (fuel : nat) : Prop := forall v code t s,
  at_text v code t s -> view_ok v -> groups_fit v t ->
  follows (parse_alternatives nc fuel (v_depth v) (progress_at t v)) (ParseAlternatives strVal flags behind fuel) s
    (fun a _ => read_to v code (v_depth v) a).

Definition concat_spec (fuel : nat) : Prop := forall v0 code0 acc lit v t s litLen (isPrevLit : bool) lo,
  at_text v ((code0 ++ code_of acc) ++ code_of (lit_re nc lit)) t s ->
  (if isPrevLit then litLen else 0) = zlen lit -> 0 <= v_min v0 -> shaped lo (v_paren v) acc -> lo <= v_paren v ->
  grows v0 (cat acc (lit_re nc lit)) v -> (2 <= zlen lit -> 1 <= v_must v) -> zlen lit + zlen t <= zlen l -> groups_fit v t ->
  follows (parse_concat nc fuel (v_depth v) acc lit (progress_at t v)) (ParseConcat strVal flags behind fuel litLen isPrevLit) s
    (fun a _ => read_to v0 code0 (v_depth v) a).

(** ** Groups *)

Lemma code_group_loop n r minimize :
  code_of (RGroup n r) = ([op_num A_LPAREN; n] ++ code_of r) ++ [op_num A_RPAREN; n] /\
  code_of (RLoop minimize n r) = loop_code minimize (([op_num A_LPAREN; n] ++ code_of r) ++ [op_num A_RPAREN + 1; n]).
Proof using. by split. Qed.

(** The parenthesis that opens a group, and the number of the group. *)
Lemma group_open v code t s (k : unit -> SM ParseInfo unit) {A} (r : parsed A) Q :
  at_text v code t s -> word (v_paren v) ->
  (forall u s', at_text (vw_paren (v_paren v + 1) (v_flags v) v) (code ++ [op_num A_LPAREN; v_paren v]) t s' -> follows r (k u) s' Q) ->
  follows r (modify (fun s => up_paren (numParen s + 1) (parenFlags s) s) ≫= (fun _ =>
    Emit behind (op_num A_LPAREN) ≫= (fun _ => Emit behind (numParen s) ≫= k))) s Q.
Proof using.
  intros (i & Hs & Ht) Hw Hk. apply follows_modify. destruct (is_at_view _ _ _ Hs) as (_ & _ & Hp & Hf & _). cbn [v_paren v_flags vw_str] in Hp, Hf.
  rewrite Hp, Hf. set (v1 := vw_paren (v_paren v + 1) (v_flags v) v).
  assert (H1 : at_text v1 code t (up_paren (v_paren v + 1) (v_flags v) s)) by (exists i; split; [by apply (is_at_paren (vw_str i v))|done]).
  eapply follows_step; [eapply Emit_text; [exact H1|done]|]. intros ? s2 H2. cbv beta in H2.
  eapply follows_step; [eapply Emit_text; [exact H2|exact Hw]|]. intros u s3 H3. cbv beta in H3. apply Hk. by rewrite <- app_assoc in H3.
Qed.

(** The parenthesis that closes it, up to the repetition; [d] tells whether it is
    there. *)
Lemma group_close v code t s n (k : ParseInfo -> SM ParseInfo unit) {A} (r : parsed A) Q :
  at_text v code t s -> word n -> (forall s, sticky (k s)) ->
  let v' := vw_paren (v_paren v) (if n <? 10 then Z.setbit (v_flags v) n else v_flags v) v in
  let code' := code ++ [op_num A_RPAREN; n] in
  (forall s1 s2 t', t = 41 :: t' -> bufInd (out s1) = zlen code' -> at_text v' code' t' s2 -> follows r (k s1) s2 Q) ->
  (match t with c :: _ => c =? 41 | [] => false end = false -> r = PBad) ->
  follows r (Emit behind (op_num A_RPAREN) ≫= (fun _ => Emit behind n ≫= (fun _ =>
    modify (fun s => up_paren (numParen s)
      (if n <? 10 then Z.lor (parenFlags s) (Z.shiftl 1 n) else parenFlags s) s) ≫= (fun _ =>
    s ← get;
    closed ← (if strPos s =? strEnd strVal then mret false else c ← cur strVal; mret (c =? 41));
    (if closed : bool then advance 1 else AGenerateError) ≫= (fun _ => k s))))) s Q.
Proof.
  intros Hs Hw Hst v' code' Hk Hbad.
  eapply follows_step; [eapply Emit_text; [exact Hs|done]|]. intros ? s2 H2. cbv beta in H2.
  eapply follows_step; [eapply Emit_text; [exact H2|exact Hw]|]. intros ? s3 H3. cbv beta in H3. rewrite <- app_assoc in H3.
  change ([op_num A_RPAREN] ++ [n]) with [op_num A_RPAREN; n] in H3. fold code' in H3.
  apply follows_modify. match goal with |- follows _ _ ?st _ => set (s4 := st) end.
  assert (H4 : at_text v' code' t s4).
  { destruct H3 as (i & H3 & Ht). exists i. split; [|done]. destruct (is_at_view _ _ _ H3) as (_ & _ & Hp & Hf & _).
    cbn [v_paren v_flags vw_str] in Hp, Hf. unfold s4. rewrite Hp, Hf. by apply (is_at_paren (vw_str i v)). }
  clearbody s4. apply follows_get. rewrite (at_end _ _ Hstr _ _ _ _ H4).
  eapply (follows_step _ _ _ _ (fun b s' => b = (match t with c :: _ => c =? 41 | [] => false end) /\ s' = s4)).
  { destruct t as [|c t]; cbn [is_nil]; [by apply sreturns_ret|]. eapply sreturns_bind; [by eapply cur_spec|].
    intros ? ? [-> ->]. by apply sreturns_ret. }
  intros ? ? [-> ->]. destruct (match t with c :: _ => c =? 41 | [] => false end) eqn:Ec.
  - destruct t as [|c t]; [done|]. apply Z.eqb_eq in Ec as ->.
    eapply follows_step; [eapply advance_spec; [done|exact H4]|]. intros ? s5 H5. cbv beta in H5. eapply Hk; [done| |exact H5].
    destruct H4 as (i & H4 & _). apply (is_at_len _ _ _ H4).
  - rewrite (Hbad eq_refl). apply follows_bad, error_bad. done.
Qed.

Lemma ParseParen_spec fuel v code t s : alts_spec fuel ->
  at_text v code (40 :: t) s -> view_ok v -> groups_fit v (40 :: t) ->
  follows (parse_group (parse_alternatives nc fuel (v_depth v)) (progress_at t v))
    (ParseParen strVal behind (ParseAlternatives strVal flags behind fuel)) s (fun a _ => read_to v code (v_depth v) a).
Proof.
  intros Ha Hs Hok [Hfit1 Hfit2]. unfold parse_group, ParseParen. cbn [p_rest p_groups p_complete progress_at].
  assert (Hold : bufInd (out s) = zlen code /\ minLen s = v_min v /\ mustStr s = v_must v /\ 0 <= v_must v <= zlen code).
  { destruct Hs as (i & Hs & _). destruct (is_at_view _ _ _ Hs) as (_ & -> & _ & _ & -> & _). split_and!; try done; try apply (at_must _ _ _ Hs).
    apply (is_at_len _ _ _ Hs). }
  destruct Hold as (Eb & Em & Ems & Hmust). apply follows_get. rewrite Eb, Em, Ems. generalize (maxLen s) (mustStrBack s). intros oldMax ob.
  eapply follows_step; [eapply advance_spec; [done|exact Hs]|]. clear Hs Eb Em Ems. intros ? s1 Hs. cbv beta in Hs.
  apply follows_get. rewrite (at_end _ _ Hstr _ _ _ _ Hs). destruct t as [|c0 t]; cbn [is_nil].
  { apply follows_bad, AGenerateError_bad. }
  cbn [length] in Hfit2. assert (Hw : word (v_paren v)) by (unfold word; lia). cbv zeta.
  assert (Enum : numParen s1 = v_paren v).
  { destruct Hs as (i & Hs & _). by destruct (is_at_view _ _ _ Hs) as (_ & _ & -> & _). }
  apply (group_open v code (c0 :: t) s1 _ _ _ Hs Hw). clear Hs. intros ? s2 Hs. rewrite Enum. clear s1 Enum s.
  set (v1 := vw_paren (v_paren v + 1) (v_flags v) v) in *.
  assert (Hfit : groups_fit v1 (c0 :: t)) by (split; cbn [v1 v_paren vw_paren length]; lia).
  pose proof (Ha v1 _ (c0 :: t) s2 Hs ltac:(by destruct Hok) Hfit) as Halts.
  pose proof (proj2 (parse_shape nc fuel) (v_depth v1) (progress_at (c0 :: t) v1) ltac:(cbn; lia)) as Hshape.
  change (v_depth v1) with (v_depth v) in *. change (progress_at (c0 :: t) v1) with (MkProgress (c0 :: t) (v_paren v + 1) (v_flags v)) in *.
  eapply follows_bind; [eapply follows_with; [exact Halts|apply Hshape]|intros; sticks|]. clear Halts Hshape Hs.
  intros [r p] ? s3 ((v2 & Hs & Hg & Hp & Hf & Hd) & Hr & Hsh). cbn [fst snd p_groups] in *.
  rewrite <- app_assoc in Hs. set (code2 := code ++ [op_num A_LPAREN; v_paren v] ++ code_of r) in *.
  assert (Hcode2 : zlen (code2 ++ [op_num A_RPAREN; v_paren v]) - zlen code =
    zlen (([op_num A_LPAREN; v_paren v] ++ code_of r) ++ [op_num A_RPAREN; v_paren v])) by (unfold code2; zl).
  eapply (group_close v2 code2 (p_rest p) s3 (v_paren v)
    (fun s => ParseRepetition strVal behind (v_min v) oldMax (bufInd (out s) - zlen code) (v_must v) ob)); [exact Hs|done|intros; sticks| |].
  2:{ intros Hc. destruct (p_rest p) as [|c t']; [done|]. by rewrite Hc. }
  intros sa sb t' -> Hlen' Hs'. rewrite Hlen', Hcode2. change (41 =? 41) with true. cbv iota.
  set (v3 := vw_paren _ _ v2) in *. set (c := ([op_num A_LPAREN; v_paren v] ++ code_of r) ++ [op_num A_RPAREN; v_paren v]).
  assert (Hs3 : at_text v3 (code ++ c) t' sb) by (unfold c, code2 in *; by rewrite <- !app_assoc in *).
  pose proof (ParseRepetition_spec strVal behind l Hstr v3 code ([op_num A_LPAREN; v_paren v] ++ code_of r) (op_num A_RPAREN) (v_paren v)
    (v_min v) oldMax (v_must v) ob t' sb Hs3 ltac:(done) Hmust) as Hrep. cbv zeta in Hrep. fold c in Hrep.
  eapply follows_map; [eapply (follows_with _ _ _ _ (repeat_ok t')); [exact Hrep|]|].
  { destruct (parse_repeat t') eqn:E; [by apply parse_repeat_ok|done..]. }
  intros [[[min opt] minimize] t2] ? s4 [[m H4] (Hmin & Hopt & _)]. destruct (code_group_loop (v_paren v) r minimize) as [Eg El].
  exists (rep_view v3 (v_min v) min m). cbn [fst snd p_rest p_groups p_complete]. destruct Hr as [Hr1 Hr2]. cbn [p_groups p_rest] in Hr1, Hr2.
  split; [rewrite (code_repeated min opt minimize (RGroup (v_paren v) r) _ _ El), Eg; exact H4|]. split.
  - eapply (grows_repeated v v3 _ r (RGroup (v_paren v) r) _ min opt minimize (v_paren v) (p_groups p)); try done.
    + apply Hok.
    + cbn [shaped]. split; [lia|done].
    + rewrite Eg. zl.
    + rewrite Eg, El. unfold loop_code. zl.
    + intros set Hset. split; [by apply covers_group|by apply covers_loop].
    + eapply grows_ext; [..|exact Hg]; done.
  - cbn [v_paren v_flags v_depth rep_view vw_must vw_min v3 vw_paren]. by rewrite Hp, Hf, Hd.
Qed.
(** ** Concatenation and alternatives *)

Lemma read_end v0 code0 v t s acc lit : at_text v ((code0 ++ code_of acc) ++ code_of (lit_re nc lit)) t s ->
  grows v0 (cat acc (lit_re nc lit)) v -> read_to v0 code0 (v_depth v) (cat acc (lit_re nc lit), progress_at t v) s.
Proof using. intros Hs Hg. exists v. cbn [fst snd progress_at p_rest p_groups p_complete]. rewrite code_cat, app_assoc. by split. Qed.

Lemma groups_fit_reads v t v' t' : groups_fit v t -> v_paren v' = v_paren v -> zlen t' <= zlen t -> groups_fit v' t'.
Proof using. unfold groups_fit. intros [H1 H2] ->. split; lia. Qed.

(** One round behind an item without parentheses. *)
Lemma concat_item fuel v0 code0 acc lit v c t s lo : concat_spec fuel ->
  at_text v ((code0 ++ code_of acc) ++ code_of (lit_re nc lit)) (c :: t) s ->
  0 <= v_min v0 -> shaped lo (v_paren v) acc -> lo <= v_paren v ->
  grows v0 (cat acc (lit_re nc lit)) v -> (2 <= zlen lit -> 1 <= v_must v) -> zlen lit + zlen (c :: t) <= zlen l -> groups_fit v (c :: t) ->
  follows ('(r, s) ← parse_atom nc c (c :: t) (v_flags v);
      let p := MkProgress s (v_paren v) (v_flags v) in
      match r with
      | inl r => parse_concat nc fuel (v_depth v) (cat (cat acc (lit_re nc lit)) r) [] p
      | inr ch => parse_concat nc fuel (v_depth v) acc (lit ++ [ch]) p
      end)
    ('(litLen, isPrevLit) ← parse_item strVal flags behind c (zlen lit); ParseConcat strVal flags behind fuel litLen isPrevLit) s
    (fun a _ => read_to v0 code0 (v_depth v) a).
Proof.
  intros IH Hs Hv0 Hacc Hlo Hg Hmust Hl Hfit. cbn [length] in Hl.
  assert (Hshape : match parse_atom nc c (c :: t) (v_flags v) with POk a => atom_shape (c :: t) a | _ => True end)
    by (destruct (parse_atom nc c (c :: t) (v_flags v)) eqn:E; [by eapply parse_atom_shape|done..]).
  eapply follows_bind; [eapply follows_with; [|exact Hshape]|..].
  { eapply (parse_item_spec strVal flags behind l Hstr v0 _ acc lit v lo (v_paren v)); try done. lia. }
  { intros [litLen isPrevLit]. apply ParseAlternatives_sticky. }
  intros [r t1] [litLen isPrevLit] s1 [Hr [Hrs Htl]]. unfold item_result in Hr. cbn [fst snd length] in *. cbv zeta.
  destruct r as [r|ch].
  - destruct Hr as [-> (v1 & H1 & Hg1 & Hp & Hf & Hd)]. rewrite <- Hd, <- Hp, <- Hf.
    apply (IH v0 code0 _ [] v1 t1 s1 litLen false lo); try done; try (cbn [length]; lia).
    + rewrite !code_cat. cbn [lit_re code_of]. rewrite app_nil_r. repeat rewrite <- app_assoc in H1. repeat rewrite <- app_assoc. exact H1.
    + rewrite Hp. apply shaped_cat; [apply shaped_cat; [done|apply lit_re_shape]|apply Hrs].
    + rewrite cat_empty_r. eapply (grows_cat v0 v v1 _ _ lo (v_paren v)); [apply shaped_cat; [done|apply lit_re_shape]|done..].
    + eapply groups_fit_reads; [exact Hfit|done|cbn [length]; lia].
  - destruct Hr as [[= -> ->] (v1 & H1 & Hg1 & (Hp & Hf & Hd) & Hm1)]. rewrite <- Hd, <- Hp, <- Hf.
    apply (IH v0 code0 acc (lit ++ [ch]) v1 t1 s1 (zlen lit + 1) true lo); try done; rewrite ?length_app; cbn [length]; try lia.
    + by rewrite Hp.
    + eapply groups_fit_reads; [exact Hfit|done|cbn [length]; lia].
Qed.

Lemma concat_step fuel : concat_spec fuel -> alts_spec fuel -> concat_spec (S fuel).
Proof.
  intros IHc IHa v0 code0 acc lit v t s litLen isPrevLit lo Hs Hlit Hv0 Hacc Hlo Hg Hmust Hl Hfit.
  cbn [parse_concat ParseConcat]. cbn [p_rest p_groups p_complete progress_at]. cbv zeta. rewrite Hlit.
  apply follows_get. rewrite (before_end _ _ Hstr _ _ _ _ Hs). destruct t as [|c t]; cbn [is_nil negb].
  { apply sreturns_ret. by apply read_end. }
  eapply follows_step; [eapply cur_spec; [done|exact Hs]|]. intros ? ? [-> ->]. destruct (c =? 40) eqn:E40.
  - apply Z.eqb_eq in E40 as ->. cbn [length] in Hl.
    pose proof (ParseParen_spec fuel v _ t s IHa Hs (gr_ok _ _ _ Hg) Hfit) as Hp.
    pose proof (parse_group_shape (parse_alternatives nc fuel (v_depth v)) t (v_paren v) (v_flags v)
      ltac:(intros p' Hp'; rewrite <- Hp'; apply parse_shape; destruct Hfit; lia) ltac:(destruct Hfit; lia)) as Hsh.
    change (MkProgress t (v_paren v) (v_flags v)) with (progress_at t v) in *.
    eapply follows_bind; [eapply (follows_with _ _ _ _ (fun a => v_paren v < p_groups a.2 /\
      p_groups a.2 + zlen (p_rest a.2) <= v_paren v + zlen t /\ shaped (v_paren v) (p_groups a.2) a.1)); [exact Hp|]|..].
    { destruct (parse_group _ _) as [[r p]| | |]; done. }
    { intros. apply ParseAlternatives_sticky. }
    intros [r p] ? s1 [(v1 & H1 & Hg1 & Hp1 & Hf1 & Hd1) (Hr1 & Hr2 & Hr3)]. cbn [fst snd] in *. rewrite <- Hd1.
    replace p with (progress_at (p_rest p) v1) at 1 by (unfold progress_at; rewrite Hp1, Hf1; by destruct p).
    apply (IHc v0 code0 _ [] v1 (p_rest p) s1 (zlen lit) false lo); try done; try (cbn [length]; lia).
    + rewrite !code_cat. cbn [lit_re code_of]. rewrite app_nil_r. repeat rewrite <- app_assoc in H1. repeat rewrite <- app_assoc. exact H1.
    + rewrite Hp1. apply shaped_cat; [apply (shaped_mono lo (v_paren v)); [lia|lia|]|by apply (shaped_mono (v_paren v) (p_groups p)); [lia|lia|]].
      apply shaped_cat; [done|apply lit_re_shape].
    + rewrite cat_empty_r. eapply (grows_cat v0 v v1 _ _ lo (v_paren v)); [apply shaped_cat; [done|apply lit_re_shape]|done..].
    + destruct Hfit as [F1 F2]. cbn [length] in F2. split; lia.
  - destruct ((c =? 41) || (c =? 124)); [apply sreturns_ret; by apply read_end|]. by eapply concat_item.
Qed.
(** Changes of the members that do not touch the code. *)
Lemma at_text_update v code t s v' s' :
  (forall i, is_at (vw_str i v) code s -> is_at (vw_str i v') code s') -> at_text v code t s -> at_text v' code t s'.
Proof using. intros H (i & Hs & Ht). exists i. split; [by apply H|done]. Qed.

Lemma at_text_view v code t s : at_text v code t s ->
  minLen s = v_min v /\ depth s = v_depth v /\ mustStr s = v_must v /\ bufInd (out s) = zlen code /\ 0 <= v_must v <= zlen code.
Proof using.
  intros (i & Hs & _). destruct (is_at_view _ _ _ Hs) as (_ & -> & _ & _ & -> & -> & _). split_and!; try done; try apply (at_must _ _ _ Hs).
  apply (is_at_len _ _ _ Hs).
Qed.

Lemma advance_state v code c t s : at_text v code (c :: t) s -> at_text v code t (up_str (strPos s + 1) s).
Proof using.
  intros (i & Hs & pre & Hl & Hi). destruct (is_at_view _ _ _ Hs) as (-> & _). cbn [v_str vw_str]. exists (i + 1). split.
  - by apply (is_at_str (vw_str i v)).
  - exists (pre ++ [c]). rewrite <- app_assoc. split; [done|]. zl.
Qed.

(** The branches around two alternatives. *)
Lemma branch_first v code c1 t s : at_text v (code ++ c1) t s ->
  sreturns (EmitBranchAt behind (zlen code) (op_num A_BRANCH_AFTER) (zlen (code ++ c1) + 2)) s (fun _ s' => exists m,
    at_text (vw_must m v) (code ++ [op_num A_BRANCH_AFTER; u16 (zlen c1 + 3)] ++ c1) t s').
Proof using.
  intros (i & Hs & Ht). eapply sreturns_mono; [eapply EmitBranchAt_spec; [exact Hs|done]|]. intros ? s' [m H]. exists m, i. split; [|done].
  replace (zlen c1 + 3) with (branch_disp (zlen code) (zlen (code ++ c1) + 2)); [exact H|].
  unfold branch_disp. destruct (Z.leb_spec (zlen code) (zlen (code ++ c1) + 2)); zl.
Qed.

Lemma branch_second v code c2 t s : at_text v (code ++ c2) t s ->
  sreturns (EmitBranchAt behind (zlen code) (op_num A_BRANCH_ALWAYS) (zlen (code ++ c2))) s (fun _ s' => exists m,
    at_text (vw_must m v) (code ++ [op_num A_BRANCH_ALWAYS; u16 (zlen c2 + 1)] ++ c2) t s').
Proof using.
  intros (i & Hs & Ht). eapply sreturns_mono; [eapply EmitBranchAt_spec; [exact Hs|done]|]. intros ? s' [m H]. exists m, i. split; [|done].
  replace (zlen c2 + 1) with (branch_disp (zlen code) (zlen (code ++ c2))); [exact H|].
  unfold branch_disp. destruct (Z.leb_spec (zlen code) (zlen (code ++ c2))); zl.
Qed.

(** Behind the first alternative [r1]. *)
Lemma alts_rest fuel v code r1 v1 t s1 (s0 : ParseInfo) : alts_spec fuel ->
  at_text v1 (code ++ code_of r1) t s1 -> grows v r1 v1 -> v_depth v1 = v_depth v + 1 -> 0 <= v_min v -> groups_fit v1 t ->
  bufInd (out s0) = zlen code -> minLen s0 = v_min v -> 0 <= mustStr s0 <= zlen code ->
  follows ('(r2, p) ← parse_alternatives nc fuel (v_depth v + 1) (progress_at t v1); POk (RAlt r1 r2, p))
    (EmitBranchAt behind (bufInd (out s0)) (op_num A_BRANCH_AFTER) (bufInd (out s1) + 2) ≫= (fun _ =>
     s ← get;
     let oldBufInd := bufInd (out s) in
     ParseAlternatives strVal flags behind fuel ≫= (fun _ =>
     s ← get;
     EmitBranchAt behind oldBufInd (op_num A_BRANCH_ALWAYS) (bufInd (out s)) ≫= (fun _ =>
     modify (up_must (mustStr s0) (mustStrBack s0)) ≫= (fun _ =>
     modify (fun s => up_depth (depth s - 1) s) ≫= (fun _ =>
     modify (fun s => up_len (Z.min (v_min v1) (minLen s)) (Z.max (maxLen s1) (maxLen s)) s)))))))
    (up_len (v_min v) (maxLen s0) s1) (fun a _ => read_to v code (v_depth v) a).
Proof.
  intros IHa H1 Hg1 Hd1 Hv Hfit Eb Em Hmust. destruct (at_text_view _ _ _ _ H1) as (_ & _ & _ & Eb1 & _). rewrite Eb, Eb1.
  generalize (maxLen s1). intros altMax. set (v2 := vw_min (v_min v) v1).
  assert (H2 : at_text v2 (code ++ code_of r1) t (up_len (v_min v) (maxLen s0) s1)).
  { eapply at_text_update; [|exact H1]. intros i Hs. by apply (is_at_min (vw_str i v1)). }
  eapply follows_step; [eapply branch_first; exact H2|]. clear H1 H2 Eb1. intros ? s2 [m H2].
  apply follows_get. destruct (at_text_view _ _ _ _ H2) as (_ & _ & _ & Eb2 & _). rewrite Eb2. cbv zeta.
  set (code1 := code ++ [op_num A_BRANCH_AFTER; u16 (zlen (code_of r1) + 3)] ++ code_of r1) in *.
  assert (Hok : view_ok (vw_must m v2)) by (destruct (gr_ok _ _ _ Hg1); by split).
  pose proof (IHa (vw_must m v2) code1 t s2 H2 Hok Hfit) as Ha. change (v_depth (vw_must m v2)) with (v_depth v1) in Ha. rewrite Hd1 in Ha.
  change (progress_at t (vw_must m v2)) with (progress_at t v1) in Ha.
  eapply follows_bind; [exact Ha|intros; sticks|]. clear Ha. intros [r2 p] ? s3 (v3 & H3 & Hg3 & Hp3 & Hf3 & Hd3). cbn [fst snd] in *.
  apply follows_get. destruct (at_text_view _ _ _ _ H3) as (_ & _ & _ & Eb3 & _). rewrite Eb3.
  eapply follows_step; [eapply branch_second; exact H3|]. clear H3 Eb3. intros ? s4 [m4 H4].
  do 2 apply follows_modify. destruct (at_text_view _ _ _ _ H4) as (_ & Ed4 & _ & _ & _).
  set (code4 := code1 ++ _) in *. set (s5 := up_must _ _ s4).
  assert (H5 : at_text (vw_must (mustStr s0) (vw_must m4 v3)) code4 (p_rest p) s5).
  { eapply at_text_update; [|exact H4]. intros i Hs. apply (is_at_must (vw_str i (vw_must m4 v3))); [done|].
    assert (zlen code <= zlen code4) by (unfold code4, code1; zl). lia. }
  set (v5 := vw_must (mustStr s0) (vw_must m4 v3)) in *. set (s6 := up_depth _ s5).
  assert (H6 : at_text (vw_depth (v_depth v) v5) code4 (p_rest p) s6).
  { eapply at_text_update; [|exact H5]. intros i Hs. unfold s6. replace (depth s5 - 1) with (v_depth v).
    - by apply (is_at_depth (vw_str i v5)).
    - unfold s5. cbn [depth up_must]. rewrite Ed4. cbn [v_depth vw_must]. lia. }
  destruct (at_text_view _ _ _ _ H6) as (Em6 & _). apply sreturns_modify. cbn [fst snd]. rewrite Em6.
  change (v_min (vw_depth (v_depth v) v5)) with (v_min v3).
  exists (vw_min (Z.min (v_min v1) (v_min v3)) (vw_depth (v_depth v) v5)). split_and!; [| |done..].
  - eapply at_text_update; [|].
    + intros i Hs. apply (is_at_min (vw_str i (vw_depth (v_depth v) v5))). exact Hs.
    + cbn [fst snd code_of]. unfold code4, code1 in H6. repeat rewrite <- app_assoc in H6. repeat rewrite <- app_assoc. exact H6.
  - eapply (grows_ext v (RAlt r1 r2) (vw_min (Z.min (v_min v1) (v_min v3)) v3)); [done..|]. apply grows_alt; [done|done|].
    eapply grows_ext; [..|exact Hg3]; done.
Qed.

Lemma alts_step fuel : concat_spec fuel -> alts_spec fuel -> alts_spec (S fuel).
Proof.
  intros IHc IHa v code t s Hs Hok Hfit. cbn [parse_alternatives ParseAlternatives].
  destruct (at_text_view _ _ _ _ Hs) as (Em & Ed & Ems & Eb & Hmust). apply follows_get. rewrite Ed. apply follows_modify.
  destruct (A_MAX_NESTING_DEPTH <=? v_depth v + 1); [apply follows_bad, AGenerateError_bad|].
  set (v1 := vw_depth (v_depth v + 1) v).
  assert (H1 : at_text v1 code t (up_depth (v_depth v + 1) s)).
  { eapply at_text_update; [|exact Hs]. intros i Hi. by apply (is_at_depth (vw_str i v)). }
  pose proof (IHc v1 code REmpty [] v1 t _ 0 false (v_paren v) ltac:(cbn [code_of lit_re]; rewrite !app_nil_r; exact H1) ltac:(done)
    ltac:(apply Hok) ltac:(done) ltac:(cbn; lia) ltac:(apply grows_empty; destruct Hok; by split) ltac:(simpl; lia)
    ltac:(pose proof (at_text_length _ _ _ _ _ Hs); simpl; lia) Hfit) as Hc.
  change (v_depth v1) with (v_depth v + 1) in Hc. change (progress_at t v1) with (progress_at t v) in Hc.
  pose proof (proj1 (parse_shape nc fuel) (v_depth v + 1) REmpty [] (v_paren v) (progress_at t v) ltac:(cbn; lia)
    ltac:(cbn; destruct Hfit; lia) ltac:(done)) as Hsh.
  eapply follows_bind; [eapply (follows_with _ _ _ _ (fun a => reads (progress_at t v) a.2)); [exact Hc|]|intros; sticks|].
  { destruct (parse_concat _ _ _ _ _ _) as [[r1 p1]| | |]; [|done..]. apply Hsh. }
  { apply ParseAlternatives_sticky. }
  clear Hc Hsh H1. intros [r1 p1] ? s1 [(v2 & H2 & Hg2 & Hp2 & Hf2 & Hd2) [Hr1 Hr2]]. cbn [fst snd p_groups p_rest progress_at] in *.
  assert (Hg : grows v r1 v2) by (eapply grows_ext; [..|exact Hg2]; done).
  apply follows_get. rewrite (at_end _ _ Hstr _ _ _ _ H2).
  eapply (follows_step _ _ _ _ (fun b s' => b = (match p_rest p1 with c :: _ => c =? 124 | [] => false end) /\ s' = s1)).
  { destruct (p_rest p1) as [|c t1]; cbn [is_nil]; [by apply sreturns_ret|]. eapply sreturns_bind; [by eapply cur_spec|].
    intros ? ? [-> ->]. by apply sreturns_ret. }
  destruct (at_text_view _ _ _ _ H2) as (Em2 & Ed2 & _). intros ? ? [-> ->].
  replace (match p_rest p1 with [] => POk (r1, p1) | c :: s2 => _ end) with
    (if match p_rest p1 with c :: _ => c =? 124 | [] => false end
     then '(r2, p) ← parse_alternatives nc fuel (v_depth v + 1) (progress_at (tail (p_rest p1)) v2); POk (RAlt r1 r2, p) else POk (r1, p1))
    by (unfold progress_at; rewrite Hp2, Hf2; by destruct (p_rest p1)).
  destruct (match p_rest p1 with c :: _ => c =? 124 | [] => false end) eqn:Ec; cbn [negb].
  - destruct (p_rest p1) as [|c t1] eqn:Er; [done|]. cbn [tail length] in *. cbv zeta. apply follows_modify. rewrite Em2, Em.
    eapply (follows_step _ _ _ _ (fun _ s' => s' = up_len (v_min v) (maxLen s) (up_str (strPos s1 + 1) s1))).
    { unfold advance, set_str. apply sreturns_get_bind. by apply sreturns_modify. }
    intros ? ? ->. apply advance_state in H2.
    apply (alts_rest fuel v code r1 v2 t1 (up_str (strPos s1 + 1) s1) s); try done; [apply Hok| |by rewrite Ems].
    destruct Hfit as [F1 F2]. split; lia.
  - apply sreturns_modify. rewrite Ed2. exists (vw_depth (v_depth v) v2). cbn [fst snd]. split_and!; [| |done..].
    + eapply at_text_update; [|exact H2]. intros i Hi. replace (v_depth v2 - 1) with (v_depth v) by lia. by apply (is_at_depth (vw_str i v2)).
    + eapply grows_ext; [..|exact Hg]; done.
Qed.


(** ** Patterns *)

Theorem compile_pass fuel : concat_spec fuel /\ alts_spec fuel.
Proof.
  induction fuel as [|fuel [IHc IHa]]; [by split|]. split; [by apply concat_step|by apply alts_step].
Qed.
End compile.

(** * Compiled patterns

    [ACompileRegExp] as a whole: it returns the compiled form of the tree that
    the grammar yields for the pattern, raises [RegExpError] for a pattern that
    the grammar rejects or whose code is too long, and what it returns is what
    the theorem about the matcher asks for. *)


(** The tree of a pattern whose code is not too long, and the number of groups. *)
Definition pattern_tree (nocase : bool) (l : list Z) : parsed (re * Z) :=
  '(r, n) ← parse nocase l; if zlen (code_of r) + 1 <? 32768 then POk (r, n) else PBad.

(** The flags that the module re and most of the string functions use. *)
Definition plain_flags (flags : Z) : Prop := flags = 0 \/ flags = A_RE_NOCASE.

Lemma plain_flags_spec flags : plain_flags flags ->
  has_flag flags A_RE_BOW = false /\ has_flag flags A_RE_BOL = false /\ has_flag flags A_RE_EOW = false /\
  has_flag flags A_RE_EOL = false /\ has_flag flags A_RE_NOSPECIAL = false /\ 0 <= flags <= 1.
Proof. by intros [-> | ->]. Qed.

Lemma s32_nonneg x : 0 <= x < 2147483648 -> s32 x = x.
Proof. intros Hx. unfold s32. zsolve. Qed.

Section pattern.
Context (strVal : StrObj) (flags : Z) (behind : storage) (l : list Z).
Hypothesis (Hstr : represents strVal l) (Hlen : zlen l < 65536) (Hflags : plain_flags flags).
#[local] Set Default Proof Using "Type Hstr Hlen Hflags".
Local Abbreviation nc := (nocase flags).

Definition view0 : View := MkView 0 0 1 0 0 0 (replicate 16 0).

Lemma start_at junk : at_text l view0 [] l (start_info strVal behind junk).
Proof using.
  exists 0. split; [|by exists []]. split; [done| |done|done].
  split_and!; [done| |constructor|].
  - cbn [out start_info buf]. rewrite length_fmap, length_seq. unfold initial_len. lia.
  - by eexists.
Qed.

Lemma ParseExpr_spec s : at_text l view0 [] l s ->
  follows (parse_alternatives nc (2 * length l + 2) 0 (MkProgress l 1 0)) (ParseExpr strVal flags behind) s
    (fun a _ s' => exists v, at_text l v (code_of a.1 ++ [op_num A_MATCH]) (p_rest a.2) s' /\ grows view0 a.1 v /\ v_paren v = p_groups a.2).
Proof.
  intros Hs. destruct (plain_flags_spec _ Hflags) as (E1 & E2 & E3 & E4 & E5 & _). unfold ParseExpr. rewrite E1, E2, E3, E4, E5.
  eapply follows_step; [by apply (sreturns_ret _ _ (fun _ s' => s' = s))|]. intros ? ? ->.
  rewrite (end_length _ _ Hstr), Nat2Z.id. pose proof (compile_pass strVal flags behind l Hstr Hlen (2 * length l + 2)) as [_ Ha].
  assert (Hfit : groups_fit l view0 l) by (split; cbn; lia).
  pose proof (Ha view0 [] l s Hs ltac:(split; [by apply const_set_ok|done]) Hfit) as Hp.
  eapply (follows_tail _ _ _ _ _ _ Hp); [intros; sticks|]. intros [r p] ? s1 (v & H1 & Hg & Hpar & _). cbn [fst snd] in *.
  step ltac:(by apply (sreturns_ret _ _ (fun _ s' => s' = s1))). intros ? ? ->.
  eapply sreturns_mono; [eapply Emit_text; [exact H1|done]|]. intros ? s2 H2. by exists v.
Qed.
(** The pass with its final tests. *)
Lemma parse_all_spec junk :
  follows (pattern_tree nc l) (parse_all strVal flags behind) (start_info strVal behind junk)
    (fun a _ s => exists v, at_text l v (code_of a.1 ++ [op_num A_MATCH]) [] s /\ grows view0 a.1 v /\ v_paren v = a.2 /\
      zlen (code_of a.1 ++ [op_num A_MATCH]) < 32768).
Proof.
  unfold pattern_tree, parse, parse_all. apply follows_assoc.
  eapply follows_bind; [by apply ParseExpr_spec, start_at|intros; sticks|].
  intros [r p] ? s (v & Hs & Hg & Hp). cbn [fst snd] in *. apply follows_get. rewrite (at_end _ _ Hstr _ _ _ _ Hs).
  destruct (p_rest p) as [|c t]; cbn [is_nil negb]; [|by apply follows_pbad1, error_bad; intros; sticks].
  apply follows_pok1. cbv beta iota. eapply follows_step; [by apply (sreturns_ret _ _ (fun _ s' => s' = s))|]. intros ? ? ->.
  assert (Hn : bufInd (out s) = zlen (code_of r) + 1).
  { destruct Hs as (i & Hs & _). rewrite (is_at_len _ _ _ Hs). zl. }
  rewrite Hn, Z.ltb_antisym. destruct (Z.leb_spec 32768 (zlen (code_of r) + 1)); cbn [negb].
  - apply follows_bad, AGenerateError_bad.
  - apply follows_ok, sreturns_ret. exists v. cbn [fst snd]. split_and!; [done..|zl].
Qed.

(** ** The object *)

Lemma must_members_spec v code s junk : is_at v code s ->
  returns (must_members flags s junk) (fun '(fl, _, _, _) => has_flag fl A_ALRE_ANCHORED = false).
Proof using Hflags.
  clear Hstr Hlen. intros Hs. unfold must_members. cbv zeta.
  assert (H0 : forall m, In m [0; A_ALRE_MUSTLITERAL; Z.lor A_ALRE_MUSTLITERAL A_ALRE_LITERALONLY] ->
    has_flag (Z.lor flags m) A_ALRE_ANCHORED = false).
  { intros m Hm. destruct Hflags as [-> | ->]; destruct Hm as [<-|[<-|[<-|[]]]]; done. }
  pose proof (H0 0 ltac:(simpl; tauto)) as Ha. rewrite Z.lor_0_r in Ha. pose proof (H0 A_ALRE_MUSTLITERAL ltac:(simpl; tauto)) as Hb.
  pose proof (H0 (Z.lor A_ALRE_MUSTLITERAL A_ALRE_LITERALONLY) ltac:(simpl; tauto)) as Hc. rewrite Z.lor_assoc in Hc.
  destruct (Z.eqb_spec (mustStr s) 0) as [|Hne]; cbn [negb]; [by apply returns_ret|].
  destruct (is_at_view _ _ _ Hs) as (_ & Hm & _). pose proof (at_must _ _ _ Hs) as Hmm. rewrite <- Hm in Hmm.
  destruct (at_out _ _ _ Hs) as (Hn & Hl512 & _ & rest & Hb0).
  assert (Hle : zlen code <= zlen (buf (out s))) by (rewrite Hb0; zl).
  test (0 <=? mustStr s - 1) true. test (mustStr s - 1 <? zlen (buf (out s))) true. cbn [andb].
  destruct (Z.ltb_spec (dg (buf (out s)) (mustStr s - 1)) 255); [|by apply returns_ret].
  eapply (returns_bind _ _ (fun fl => has_flag fl A_ALRE_ANCHORED = false)); [|intros fl Hfl; by apply returns_ret].
  destruct (mustStr s =? 2); [|by apply returns_ret]. test (dg (buf (out s)) (mustStr s - 1) + 2 <? zlen (buf (out s))) true.
  apply returns_ret. destruct (_ =? _); [|done]. exact Hc.
Qed.

Lemma make_regexp_error s : isError s = true -> spec (make_regexp flags s) (fun o => o = Raise ERegExpError).
Proof using. intros He. unfold make_regexp. rewrite He. by apply spec_raise. Qed.

(** The members of the object are those of the tree. *)
Lemma make_regexp_spec v r s n : at_text l v (code_of r ++ [op_num A_MATCH]) [] s -> grows view0 r v -> shaped 1 n r ->
  v_paren v = n -> 1 <= n -> zlen (code_of r ++ [op_num A_MATCH]) < 32768 ->
  returns (make_regexp flags s) (fun c => compiled c r /\ re_numGroups c = n /\ re_minLen c = min_len r).
Proof using Hflags.
  intros (i & Hs & _) Hg Hsh Hp Hn Hsize. pose proof (shaped_counts _ _ _ Hsh) as Hcounts.
  pose proof (min_len_code _ _ _ Hsh) as Hml. rewrite length_app in Hsize. cbn [length] in Hsize.
  destruct (gr_len _ _ _ Hg) as [Hmin Hcov]; [change (v_min view0) with 0; lia|]. specialize (Hcov eq_refl).
  cbn [v_min view0] in Hmin. rewrite Z.add_0_l in Hmin.
  unfold make_regexp. rewrite (at_error _ _ _ Hs). eapply returns_bind; [apply AAlloc_spec|]. intros junk _.
  eapply returns_bind; [by eapply must_members_spec|]. intros [[[fl ind] len] back] Hfl. cbv zeta. apply returns_ret.
  destruct (is_at_view _ _ _ Hs) as (_ & _ & Ep & _ & Em & _ & Es). cbn [v_paren v_min v_start vw_str] in Ep, Em, Es.
  destruct (at_out _ _ _ Hs) as (En & _ & _ & rest & Eb).
  assert (Ecode : take (Z.to_nat (bufInd (out s))) (buf (out s)) = code_of r ++ [op_num A_MATCH]).
  { rewrite En, Eb, Nat2Z.id. apply take_app_length. }
  assert (Ehead : (dg (buf (out s)) 0 =? op_num A_BOL) = false).
  { rewrite Eb. destruct (code_of r) as [|w t] eqn:Ec; [done|]. apply Z.eqb_neq. change (dg (((w :: t) ++ [op_num A_MATCH]) ++ rest) 0) with w.
    by eapply shaped_head. }
  rewrite Ehead, Ecode, Ep, Em, Es, Hp, Hmin, s32_nonneg by lia. cbn [re_numGroups re_minLen]. split; [|done].
  split; cbn [re_code re_flags re_numGroups re_minLen re_startChar].
  - done.
  - rewrite length_app. cbn [length]. lia.
  - done.
  - lia.
  - split; [lia|]. intros l' p y Hpos Hy. split; [by apply (sem_min_len l' r (p, ∅) y Hcounts (good_start l' p Hpos))|].
    by apply (sem_forward l' r (p, ∅) y Hcounts (good_start l' p Hpos)) in Hy as [[[_ Hy] _] _].
  - intros Hpos l' p ch Hp0 Hch Hb Hne. destruct (Z.eqb_spec (min_len r) 0); [lia|].
    assert (Hle : 0 <= p <= zlen l').
    { unfold chr in Hch. destruct (p <? 0); [done|]. apply lookup_lt_Some in Hch. lia. }
    destruct (sem l' r (p, ∅)) as [|y ys] eqn:Ey; [done|].
    assert (Hy : In y (sem l' r (p, ∅))) by (rewrite Ey; by left). pose proof (good_start l' p Hle) as Hgd.
    pose proof (sem_min_len l' r (p, ∅) y Hcounts Hgd Hy) as Hlen'. apply sem_matches in Hy; [|done..].
    destruct (Hcov l' p ∅ y Hgd ltac:(by intros ? ? ?) Hy) as [[Heq _]|Hst]; [cbn [fst] in Hlen'; lia|by apply Hst].
  - intros Hz ch Hch. rewrite Hz. cbn [Z.eqb]. by apply in_full_set.
Qed.
End pattern.

(** ** The whole compiler *)

(** A pass over a state as an operation that yields the last state. *)
Lemma pass_spec (m : SM ParseInfo unit) s Q R :
  sspec m s Q -> (forall o s', Q o s' -> match o with Ok _ => R (Ok s') | Raise e => R (Raise e) | Fault => R Fault end) ->
  spec (fun t => let '(r, s, t) := m s t in
    (match r with Ok _ => Ok s | Raise e => Raise e | Fault => Fault end, t)) R.
Proof.
  intros Hm HR t. destruct (Hm t) as [Hh HQ]. destruct (m s t) as [[o s'] t']. cbn [fst snd] in *. split; [done|].
  destruct HQ as [HQ|[-> Hs]]; [left|by right]. apply HR in HQ. by destruct o.
Qed.

Lemma wide_pattern str l : represents str l ->
  returns (match str with WideStr _ => mret str | _ => ANarrowStringToWide str end) (fun s => represents s l).
Proof.
  intros Hs. destruct str as [e|e|w e ind len].
  - eapply returns_mono; [by apply ANarrowStringToWide_spec|]. by intros s [H _].
  - by apply returns_ret.
  - destruct w; [by apply returns_ret|]. eapply returns_mono; [by apply ANarrowStringToWide_spec|]. by intros s [H _].
Qed.

(** A pattern with a tree. *)
Lemma compile_tree str flags behind l r n : represents str l -> zlen l < 65536 -> plain_flags flags ->
  pattern_tree (nocase flags) l = POk (r, n) ->
  returns (ACompileRegExp (Some str) flags behind) (fun c => compiled c r /\ re_numGroups c = n /\ re_minLen c = min_len r).
Proof.
  intros Hs Hl Hf Ht. unfold ACompileRegExp. eapply returns_bind; [by apply wide_pattern|]. clear str Hs. intros str Hs.
  eapply returns_bind; [apply AAlloc_spec|]. intros junk _.
  assert (Hsh : shaped 1 n r /\ 1 <= n).
  { unfold pattern_tree in Ht. destruct (parse (nocase flags) l) as [[r' n']| | |] eqn:Ep; simpl mbind in Ht; try done.
    destruct (_ <? _); [|done]. injection Ht as -> ->. apply parse_shaped in Ep as [H1 H2]. split; [done|lia]. }
  pose proof (parse_all_spec str flags behind l Hs Hl Hf junk) as Hp. rewrite Ht in Hp. cbn [follows] in Hp.
  eapply (returns_bind _ _ (fun s => exists v, at_text l v (code_of r ++ [op_num A_MATCH]) [] s /\ grows view0 r v /\ v_paren v = n /\
    zlen (code_of r ++ [op_num A_MATCH]) < 32768)).
  - eapply pass_spec; [exact Hp|]. intros [u|e|] s; [exact id|done..].
  - intros s (v & H1 & H2 & H3 & H4). destruct Hsh as [Hsh Hn]. by eapply make_regexp_spec.
Qed.

(** A first part that may fault. *)
Lemma spec_bind_fault {A B} (m : M A) (f : A -> M B) P (R : outcome B -> Prop) :
  spec m (fun o => match o with Ok a => P a | Raise _ => False | Fault => True end) ->
  (forall a, P a -> spec (f a) R) -> R Fault -> spec (m ≫= f) R.
Proof.
  intros Hm Hf HR t. destruct (Hm t) as [Hh Hr]. unfold mbind, M_bind. destruct (m t) as [[a|e|] t']; simpl in *.
  - destruct Hr as [Ha|[? _]]; [|done]. destruct (Hf a Ha t') as [Hh' Hr'].
    split; [congruence|]. destruct Hr' as [?|[? Hs]]; [by left|].
    right. split; [done|]. by rewrite (supplied_heap t t') in Hs.
  - destruct Hr as [[]|[He Hs]]. split; [done|]. right. split; [congruence|done].
  - split; [done|]. by left.
Qed.

(** A pattern without a tree. *)
Lemma compile_bad str flags behind l : represents str l -> zlen l < 65536 -> plain_flags flags ->
  pattern_tree (nocase flags) l = PBad ->
  spec (ACompileRegExp (Some str) flags behind) (fun o => o = Raise ERegExpError \/ o = Fault).
Proof.
  intros Hs Hl Hf Ht. unfold ACompileRegExp. eapply spec_bind; [by apply wide_pattern|].
  clear str Hs. intros str Hs. eapply spec_bind; [apply AAlloc_spec|]. intros junk _.
  pose proof (parse_all_spec str flags behind l Hs Hl Hf junk) as Hp. rewrite Ht in Hp. cbn [follows] in Hp.
  eapply (spec_bind_fault _ _ (fun s => isError s = true)).
  - eapply pass_spec; [exact Hp|]. intros [u|e|] s; exact id.
  - intros s H. eapply spec_mono; [by apply make_regexp_error|]. intros o Ho. by left.
  - by right.
Qed.

Lemma pattern_tree_total nocase l : pattern_tree nocase l <> PStuck.
Proof.
  unfold pattern_tree. pose proof (parse_total nocase l). destruct (parse nocase l) as [[r n]| | |]; simpl mbind; try done.
  by destruct (_ <? _).
Qed.
