(* ===== verification/RePlain.v ===== *)
(** * RePlain: rejected patterns without brackets and braces

    The pass over a pattern that the grammar rejects goes on behind the error.
    On a pattern without [\[] and [{] it reads nothing but the pattern, writes
    nothing outside its buffer and comes to its end, so that [ACompileRegExp]
    raises [RegExpError]; so it does for every pattern whose code is too long. *)

From stdpp Require Import gmap.
From S2P Require Import Prelude Runtime Digits Value IntConv Encodings EncodingsSpec StrOps.
From S2P Require Import StrSpec StrTables ReDefs ReMatch ReSem ReRun ReStep ReSound ReMatches.
From S2P Require Import ReProps ReComp ReParse ReBuffer ReBlind ReEmit ReChars ReSets ReShape ReStart.
From S2P Require Import ReItems RePattern.

Open Scope Z_scope.

(** Neither a class in brackets nor a range of repetitions. *)
Definition plain_pattern (l : list Z) : bool := forallb (fun c => negb ((c =? 91) || (c =? 123))) l.

Lemma plain_app a b : plain_pattern (a ++ b) = true -> plain_pattern b = true.
Proof. unfold plain_pattern. rewrite forallb_app. by intros [_ ?]%andb_true_iff. Qed.

Lemma plain_head c t : plain_pattern (c :: t) = true -> (c =? 91) = false /\ (c =? 123) = false.
Proof. simpl. by destruct (c =? 91), (c =? 123). Qed.

Lemma parse_repeat_plain t : plain_pattern t = true -> exists a, parse_repeat t = POk a.
Proof.
  intros Ht. unfold parse_repeat. assert (Hc : exists a, parse_count t = POk a).
  { destruct t as [|c t]; [by eexists|]. apply plain_head in Ht as [_ Hb]. cbn [parse_count]. rewrite Hb.
    destruct (c =? 63), (c =? 43), (c =? 42); by eexists. }
  destruct Hc as [[[min opt] t'] ->]. simpl mbind. destruct t' as [|d t']; by eexists.
Qed.

Section plain.
Context (strVal : StrObj) (flags : Z) (behind : storage) (l : list Z).
Hypothesis (Hstr : represents strVal l) (Hlen : zlen l < 65536) (Hplain : plain_pattern l = true).
#[local] Set Default Proof Using "Type Hstr Hlen Hplain".
Local Abbreviation at_text := (at_text l).
Local Abbreviation nc := (nocase flags).

Lemma plain_at v code t s : at_text v code t s -> plain_pattern t = true.
Proof using Hplain. clear Hstr Hlen. intros (i & _ & pre & -> & _). by eapply plain_app. Qed.

Lemma at_text_error v code t s : at_text v code t s -> isError s = false.
Proof using. intros (i & Hs & _). apply (at_error _ _ _ Hs). Qed.

(** Where the pass may be: [n] characters of the pattern are left at most, and
    the code starts with [code]. *)
Definition stops (code : list Z) (n : nat) (s : ParseInfo) : Prop :=
  exists v code1 t, at_text v (code ++ code1) t s /\ view_ok v /\ groups_fit l v t /\ (length t <= n)%nat.

(** The same in front of an item, behind the literal characters [lit]. *)
Definition in_concat (code : list Z) (lit : list Z) (v : View) (t : list Z) (s : ParseInfo) : Prop :=
  exists code1 v0, at_text v ((code ++ code1) ++ code_of (lit_re nc lit)) t s /\ 0 <= v_min v0 /\ grows v0 (lit_re nc lit) v /\
    (2 <= zlen lit -> 1 <= v_must v) /\ zlen lit + zlen t <= zlen l /\ groups_fit l v t.

Lemma stops_concat code code1 v t s : at_text v (code ++ code1) t s -> view_ok v -> groups_fit l v t -> in_concat code [] v t s.
Proof using.
  intros Hs Hv Hf. exists code1, v. pose proof (at_text_length _ _ _ _ _ Hs). split_and!; try done.
  - by rewrite app_nil_r.
  - apply Hv.
  - by apply grows_empty.
Qed.

Lemma concat_stops code lit v t s n : in_concat code lit v t s -> (length t <= n)%nat -> stops code n s.
Proof using.
  intros (code1 & v0 & Hs & _ & Hg & _ & _ & Hf) Hn. exists v, (code1 ++ code_of (lit_re nc lit)), t.
  rewrite app_assoc. split_and!; try done. apply (gr_ok _ _ _ Hg).
Qed.

(** What the grammar yields, as a step whether or not there is an error. *)
Lemma safe_follows {A B} (r : parsed A) a (m : SM ParseInfo B) s P : blind m -> follows r m s P -> r = POk a ->
  (forall b s', P a b s' -> isError s' = false) -> safe m s (P a).
Proof using. intros Hb Hm -> HP. by eapply safe_clear. Qed.

Lemma safe_Emit v code t s w : at_text v code t s -> word w -> safe (Emit behind w) s (fun _ => at_text v (code ++ [w]) t).
Proof using.
  intros Hs Hw. eapply safe_clear; [auto with blind|by eapply Emit_text|]. intros ? ? H. by eapply at_text_error.
Qed.

Lemma safe_cur v code c t s : at_text v code (c :: t) s -> safe (cur strVal) s (fun c' s' => c' = c /\ s' = s).
Proof using Hstr.
  intros Hs. eapply safe_clear; [auto with blind|by eapply cur_spec|]. intros ? ? [_ ->]. by eapply at_text_error.
Qed.

Lemma safe_advance v code c t s : at_text v code (c :: t) s -> safe (advance 1) s (fun _ => at_text v code t).
Proof using Hstr.
  intros Hs. eapply safe_clear; [auto with blind|by eapply advance_spec|]. intros ? ? H. by eapply at_text_error.
Qed.

(** A test of the next character, if there is one. *)
Lemma safe_next (p : Z -> bool) v code t s : at_text v code t s ->
  safe (if strPos s =? strEnd strVal then mret false else c ← cur strVal; mret (p c)) s
    (fun b s' => b = (match t with c :: _ => p c | [] => false end) /\ s' = s).
Proof using Hstr.
  intros Hs. rewrite (at_end _ _ Hstr _ _ _ _ Hs). destruct t as [|c t]; cbn [is_nil]; [by apply safe_ret|].
  eapply safe_bind; [by eapply safe_cur|]. intros ? ? [-> ->]. by apply safe_ret.
Qed.
(** ** Items *)

(** A character or an escape; the only error is a backslash at the end. *)
Lemma safe_ParseChar v code c t s : at_text v code (c :: t) s ->
  safe (ParseChar strVal flags) s (fun r s' => exists e t', r = esc_pair flags e /\ at_text v code t' s' /\ esc_ok e /\ (length t' <= length t)%nat).
Proof using Hstr.
  intros Hs. pose proof (at_text_words _ _ Hstr _ _ _ _ Hs) as Hw. pose proof (ParseChar_spec strVal flags l Hstr v code (c :: t) s Hs ltac:(done)) as Hc.
  destruct (parse_esc (c :: t)) as [[e t1]| | |] eqn:Ee.
  { destruct (parse_esc_ok _ _ Hw Ee) as [He Hl]. cbn [fst snd length] in *. eapply safe_mono.
    - eapply safe_clear; [auto with blind|exact Hc|]. intros ? ? [_ H]. by eapply at_text_error.
    - intros r s1 [-> H1]. exists e, t1. split_and!; try done. lia. }
  all: assert (Hbad : c = 92 /\ t = []) by (cbn [parse_esc] in Ee; destruct (Z.eqb_spec c 92); cbn [negb] in Ee; [by destruct t|done]).
  all: destruct Hbad as [-> ->]; unfold ParseChar.
  all: eapply safe_bind; [by eapply safe_cur|]; intros ? ? [-> ->]; cbn [negb Z.eqb Pos.eqb].
  all: eapply safe_bind; [by eapply safe_advance|]; intros ? s1 H1; cbv beta in H1; apply safe_get; [done|].
  all: rewrite (at_end _ _ Hstr _ _ _ _ H1); cbn [is_nil].
  all: eapply safe_bind; [by apply (safe_error _ (fun _ s' => s' = s1))|]; intros ? ? ->; apply safe_ret.
  all: exists (EscChar 0), []; split_and!; try done; by unfold word.
Qed.

(** What an item leaves behind, [n] being the length of the rest. *)
Definition item_left (code : list Z) (n : nat) (res : Z * bool) (s : ParseInfo) : Prop :=
  exists lit v t, in_concat code lit v t s /\ (if res.2 then res.1 else 0) = zlen lit /\ (length t <= n)%nat.

Lemma left_groups v v' t t' : groups_fit l v t -> same_groups v v' -> (length t' <= length t)%nat -> groups_fit l v' t'.
Proof using. unfold groups_fit, same_groups. intros [H1 H2] (-> & _) Ht. lia. Qed.

Section item.
Context (code code1 lit : list Z) (v0 v : View) (rest : list Z).
Hypothesis (Hv0 : 0 <= v_min v0) (Hg : grows v0 (lit_re nc lit) v) (Hmust : 2 <= zlen lit -> 1 <= v_must v)
  (Hfits : zlen lit + zlen rest <= zlen l) (Hfit : groups_fit l v rest).
#[local] Set Default Proof Using "Type Hstr Hlen Hplain Hv0 Hg Hmust Hfits Hfit".
Local Abbreviation cp := (code ++ code1).
Local Abbreviation here := (cp ++ code_of (lit_re nc lit)).
Local Abbreviation result := (item_result flags l v0 cp REmpty lit v).

(** What the grammar yields is left behind. *)
Lemma result_left a res s n : result a res s -> (length a.2 <= n)%nat -> (n < length rest)%nat -> item_left code n res s.
Proof using Hv0 Hfits Hfit.
  clear Hstr Hlen Hplain Hg Hmust. intros Hr Hn Hl. unfold item_result in Hr. destruct a as [[r|ch] t]; cbn [fst snd] in *.
  - destruct Hr as [E (v' & Hs & Hg' & Hsame)]. exists [], v', t. rewrite E. split_and!; try done.
    apply (stops_concat _ (code1 ++ code_of (lit_re nc lit) ++ code_of r)); [by repeat rewrite <- app_assoc in *|apply (gr_ok _ _ _ Hg')|].
    eapply left_groups; [exact Hfit|done|lia].
  - destruct Hr as [-> (v' & Hs & Hg' & Hsame & Hm')]. exists (lit ++ [ch]), v', t. cbn [fst snd]. rewrite length_app. cbn [length].
    split_and!; [|lia|done]. exists code1, v0. rewrite length_app. cbn [length]. split_and!; try done.
    + intros H. apply Hm'. lia.
    + lia.
    + eapply left_groups; [exact Hfit|done|lia].
Qed.

Lemma result_clear a res s : result a res s -> isError s = false.
Proof using.
  clear. unfold item_result. destruct (fst a).
  - intros [_ (? & Hs & _)]. by eapply at_text_error.
  - intros [_ (? & Hs & _)]. by eapply at_text_error.
Qed.

Lemma default_rest_blind n r : blind (default_rest strVal flags behind n r).
Proof using. clear. destruct r. unfold default_rest. blinds. Qed.

(** The escapes the grammar accepts here. *)
Lemma escaped_plain e t : plain_pattern t = true ->
  (exists a, parse_escaped flags e t (v_flags v) = POk a) \/ exists n, e = EscRef n.
Proof using.
  clear. intros Ht. destruct (parse_repeat_plain t Ht) as [[[[min opt] minimize] t'] Hr].
  destruct e as [c|k complement|a c|n]; [|left; cbn [parse_escaped]; rewrite ?Hr; by eexists..|right; by exists n].
  left. cbn [parse_escaped]. destruct t as [|d t]; [by eexists|]. destruct (is_repeat d); [rewrite Hr|]; by eexists.
Qed.

Lemma parse_escaped_length e t a : parse_escaped flags e t (v_flags v) = POk a -> (length a.2 <= length t)%nat.
Proof using.
  clear. intros Ha. assert (Hr : forall (r : re) (f : Z * Z * bool * list Z -> parsed ((re + Z) * list Z)), parse_repeat t ≫= f = POk a ->
    (forall b, f b = POk a -> a.2 = b.2) -> (length a.2 <= length t)%nat).
  { intros _ f Hb Hf. destruct (parse_repeat t) as [b| | |] eqn:E; try done. apply parse_repeat_ok in E. rewrite (Hf b Hb).
    destruct b as [[[? ?] ?] ?]. by destruct E as (_ & _ & ?). }
  destruct e as [c|k complement|b c|n]; cbn [parse_escaped] in Ha.
  - destruct t as [|d t]; [by injection Ha as <-|]. destruct (is_repeat d); [|by injection Ha as <-].
    eapply Hr; [exact REmpty|exact Ha|]. intros [[[? ?] ?] ?]. by intros [= <-].
  - eapply Hr; [exact REmpty|exact Ha|]. intros [[[? ?] ?] ?]. by intros [= <-].
  - by injection Ha as <-.
  - destruct (Z.testbit _ _); [|done]. eapply Hr; [exact REmpty|exact Ha|]. intros [[[? ?] ?] ?]. by intros [= <-].
Qed.

(** A back reference, whether or not the group is complete. *)
Lemma safe_backref n t s : at_text v here t s -> 1 <= n <= 9 -> (length t < length rest)%nat ->
  safe (default_rest strVal flags behind (zlen lit) (esc_pair flags (EscRef n))) s (item_left code (length t)).
Proof.
  intros Hs Hn Ht. set (op := op_num (if nc then A_BACKREF_I else A_BACKREF)).
  assert (Hmc : v_must v <= zlen here) by (destruct Hs as (i & Hs & _); apply (at_must _ _ _ Hs)).
  assert (Ha : word op /\ negb (op =? op_num A_EMPTY) = true /\ (op <? CC) = true /\ (op =? op_num A_BACKREF) || (op =? op_num A_BACKREF_I) = true)
    by (unfold op; by destruct nc).
  unfold esc_pair, default_rest. fold op. destruct Ha as (H1 & -> & -> & ->).
  destruct (parse_repeat_plain t (plain_at _ _ _ _ Hs)) as [[[[min opt] minimize] t'] Hr].
  pose proof (parse_repeat_ok _ _ Hr) as (_ & _ & Hl).
  eapply (safe_bind _ _ _ (fun _ s' => read_as l v here (repeated min opt minimize (RRef nc n) (RRefLoop minimize nc n)) t' s')).
  2:{ intros ? s' H. apply safe_ret. eapply (result_left (inl _, t')); [split; [done|exact H]|done|done]. }
  eapply safe_bind; [by eapply safe_Emit|]. intros ? s1 Hs1. cbv beta in Hs1.
  unfold back_reference. rewrite ref_number by done. cbv zeta. apply safe_get; [done|].
  eapply (safe_bind _ _ _ (fun _ s' => s' = s1)); [destruct (has_flag (parenFlags s1) _); [by apply safe_ret|by apply safe_error]|].
  intros ? ? ->. eapply safe_mono; [eapply safe_follows|].
  - blinds.
  - eapply (backref_rest strVal flags behind l Hstr v0 cp REmpty lit v 0 0); [done..|lia|exact Hs1|exact Hmc|exact Hn].
  - by rewrite Hr.
  - cbn [fst snd]. intros ? ? (? & H & _). by eapply at_text_error.
  - intros ? s2 H. exact H.
Qed.

Lemma safe_default c t s : rest = c :: t -> at_text v here rest s ->
  safe (parse_default strVal flags behind (zlen lit)) s (item_left code (length t)).
Proof.
  intros Er Hs. rewrite Er in Hs. rewrite parse_default_split. eapply safe_bind; [by apply (safe_ParseChar _ _ _ _ _ Hs)|].
  intros r s1 (e & t1 & -> & H1 & He & Hl). assert (Hlr : (length t < length rest)%nat) by (rewrite Er; simpl; lia).
  destruct (escaped_plain e t1 (plain_at _ _ _ _ H1)) as [[a Ha]|[n ->]].
  - eapply safe_mono; [eapply safe_follows; [apply default_rest_blind| |exact Ha|]|].
    + apply (default_rest_spec strVal flags behind l Hstr v0 cp REmpty lit v 0 0); (done || rewrite Er in Hfits; simpl in Hfits; lia).
    + intros ? ?. apply result_clear.
    + intros res s2 H. apply parse_escaped_length in Ha. eapply result_left; [exact H|lia|exact Hlr].
  - eapply safe_mono; [apply safe_backref; [exact H1|exact He|lia]|].
    intros res s2 (lit' & v' & t' & H & E & Ht). exists lit', v', t'. split_and!; [done..|lia].
Qed.

Lemma safe_item c t s : rest = c :: t -> at_text v here rest s ->
  safe (parse_item strVal flags behind c (zlen lit)) s (item_left code (length t)).
Proof.
  intros Er Hs. pose proof (plain_at _ _ _ _ Hs) as Hp. rewrite Er in Hp. apply plain_head in Hp as Hc. destruct Hc as [Hc1 _].
  assert (Hlr : (length t < length rest)%nat) by (rewrite Er; simpl; lia).
  assert (Hl1 : zlen lit + 1 < 65536) by (rewrite Er in Hfits; simpl in Hfits; lia).
  assert (Hok : forall a, parse_atom nc c (c :: t) (v_flags v) = POk a -> (length a.2 <= length t)%nat ->
    safe (parse_item strVal flags behind c (zlen lit)) s (item_left code (length t))).
  { intros a Ha Hla. eapply safe_mono; [eapply safe_follows; [auto with blind| |exact Ha|]|].
    - apply (parse_item_spec strVal flags behind l Hstr v0 cp REmpty lit v 0 0); (done || by rewrite Er in Hs).
    - intros ? ?. apply result_clear.
    - intros res s2 H. by eapply result_left. }
  unfold parse_atom in Hok. rewrite Hc1 in Hok. change (drop 1 (c :: t)) with t in Hok.
  destruct (c =? 94) eqn:E1; [by eapply Hok|]. destruct (c =? 36) eqn:E2; [by eapply Hok|]. destruct (c =? 46) eqn:E3.
  { destruct (parse_repeat_plain t) as [[[[min opt] minimize] t'] Hr]; [by apply (plain_app [c])|].
    rewrite Hr in Hok. pose proof (parse_repeat_ok _ _ Hr) as (_ & _ & ?). by eapply Hok. }
  clear Hok. unfold parse_item. rewrite E1, E2, E3, Hc1. destruct ((c =? 42) || (c =? 43) || (c =? 63) || (c =? 123)).
  - eapply safe_bind; [by apply (safe_error _ (fun _ s' => s' = s))|]. intros ? ? ->. apply safe_modify; [done|]. apply safe_ret.
    exists [], v, []. cbn [fst snd]. split_and!; [|done|simpl; lia]. apply (stops_concat _ (code1 ++ code_of (lit_re nc lit))).
    + rewrite app_assoc. destruct Hs as (i & Hs & _). exists (zlen l). split.
      * rewrite (end_length _ _ Hstr). by apply (is_at_str (vw_str i v)).
      * exists l. by rewrite app_nil_r.
    + apply (gr_ok _ _ _ Hg).
    + destruct Hfit. split; simpl; lia.
  - exact (safe_default c t s Er Hs).
Qed.
End item.
(** ** Groups, concatenation and alternatives *)

Definition safe_alts (fuel : nat) : Prop := forall v code t s,
  at_text v code t s -> view_ok v -> groups_fit l v t -> (2 * length t + 2 <= fuel)%nat ->
  safe (ParseAlternatives strVal flags behind fuel) s (fun _ => stops code (length t)).

Definition safe_concat (fuel : nat) : Prop := forall code lit v t s litLen (isPrevLit : bool),
  in_concat code lit v t s -> (if isPrevLit then litLen else 0) = zlen lit -> (2 * length t + 1 <= fuel)%nat ->
  safe (ParseConcat strVal flags behind fuel litLen isPrevLit) s (fun _ => stops code (length t)).

Lemma at_text_paren v code t s : at_text v code t s -> numParen s = v_paren v /\ parenFlags s = v_flags v.
Proof using. intros (i & Hs & _). by destruct (is_at_view _ _ _ Hs) as (_ & _ & -> & -> & _). Qed.

(** The repetition behind a group. *)
Lemma safe_repetition v c0 c1 w x oldMin oldMax om ob t s : at_text v (c0 ++ c1 ++ [w; x]) t s -> view_ok v -> groups_fit l v t ->
  word (w + 1) -> 0 <= om <= zlen c0 ->
  safe (ParseRepetition strVal behind oldMin oldMax (zlen (c1 ++ [w; x])) om ob) s (fun _ => stops c0 (length t)).
Proof.
  intros Hs Hv Hf Hw Hom. destruct (parse_repeat_plain t (plain_at _ _ _ _ Hs)) as [[[[min opt] minimize] t'] Hr].
  pose proof (parse_repeat_ok _ _ Hr) as (_ & _ & Hl). eapply safe_mono; [eapply safe_follows|].
  - auto with blind.
  - by apply (ParseRepetition_spec strVal behind l Hstr v c0 c1 w x oldMin oldMax om ob t s).
  - exact Hr.
  - intros ? ? [m H]. by eapply at_text_error.
  - intros ? s1 [m H]. eexists _, _, t'. split; [exact H|]. destruct Hv as [Hv Hm], Hf as [F1 F2]. split_and!; [split; [done|apply u32_range]| |done].
    split; [done|]. cbn [v_paren rep_view vw_must vw_min]. lia.
Qed.

Lemma safe_paren fuel v code t s : safe_alts fuel -> at_text v code (40 :: t) s -> view_ok v -> groups_fit l v (40 :: t) ->
  (2 * length t + 2 <= fuel)%nat ->
  safe (ParseParen strVal behind (ParseAlternatives strVal flags behind fuel)) s (fun _ => stops code (length t)).
Proof.
  intros Ha Hs Hv [F1 F2] Hfuel. cbn [length] in F2. unfold ParseParen.
  destruct (at_text_view _ _ _ _ _ Hs) as (_ & _ & Ems & Eb & Hmust). apply safe_get; [done|]. rewrite Ems, Eb.
  generalize (minLen s) (maxLen s) (mustStrBack s). intros oldMin oldMax ob.
  eapply safe_bind; [by eapply safe_advance|]. clear Hs Ems Eb. intros ? s1 Hs. cbv beta in Hs.
  apply safe_get; [done|]. rewrite (at_end _ _ Hstr _ _ _ _ Hs). destruct (is_nil t).
  { apply safe_error. exists v, [], t. rewrite app_nil_r. split_and!; [done|done|split; lia|done]. }
  cbv zeta. destruct (at_text_paren _ _ _ _ Hs) as [Ep Ef]. apply safe_modify; [done|]. rewrite Ep, Ef.
  set (v1 := vw_paren (v_paren v + 1) (v_flags v) v).
  assert (H1 : at_text v1 code t (up_paren (v_paren v + 1) (v_flags v) s1))
    by (eapply at_text_update; [|exact Hs]; intros i Hi; by apply (is_at_paren (vw_str i v))).
  clear Hs Ep Ef. eapply safe_bind; [by eapply safe_Emit|]. clear H1. intros ? s2 Hs. cbv beta in Hs.
  eapply safe_bind; [eapply safe_Emit; [exact Hs|unfold word; lia]|]. clear Hs. intros ? s3 Hs. cbv beta in Hs.
  rewrite <- app_assoc in Hs. cbn [app] in Hs.
  eapply safe_bind; [eapply Ha; [exact Hs|by destruct Hv|split; cbn [v_paren v1 vw_paren]; lia|done]|].
  clear Hs. intros ? s4 (v4 & c4 & t4 & Hs & Hv4 & [G1 G2] & Hl4). rewrite <- app_assoc in Hs.
  eapply safe_bind; [by eapply safe_Emit|]. clear Hs. intros ? s5 Hs. cbv beta in Hs.
  eapply safe_bind; [eapply safe_Emit; [exact Hs|unfold word; lia]|]. clear Hs. intros ? s6 Hs. cbv beta in Hs.
  apply safe_modify; [done|]. destruct (at_text_paren _ _ _ _ Hs) as [Ep Ef]. rewrite Ep, Ef. generalize (if v_paren v <? 10 then Z.lor (v_flags v4) (Z.shiftl 1 (v_paren v)) else v_flags v4).
  intros fl. set (v6 := vw_paren (v_paren v4) fl v4).
  assert (H6 : at_text v6 (code ++ ([op_num A_LPAREN; v_paren v] ++ c4) ++ [op_num A_RPAREN; v_paren v]) t4 (up_paren (v_paren v4) fl s6)).
  { apply (at_text_update l v4 _ _ s6); [intros i Hi; by apply (is_at_paren (vw_str i v4))|].
    repeat rewrite <- app_assoc in Hs. repeat rewrite <- app_assoc. exact Hs. }
  clear Hs Ep Ef. set (s7 := up_paren _ _ s6) in *. clearbody s7. clear s6. apply safe_get; [done|].
  destruct (at_text_view _ _ _ _ _ H6) as (_ & _ & _ & Eb & _). rewrite Eb.
  eapply safe_bind; [by apply (safe_next (fun c => c =? 41) _ _ _ _ H6)|]. intros ? ? [-> ->].
  set (c7 := ([op_num A_LPAREN; v_paren v] ++ c4) ++ [op_num A_RPAREN; v_paren v]) in *.
  replace (zlen (code ++ c7) - zlen code) with (zlen c7) by zl.
  eapply (safe_bind _ _ _ (fun _ s' => exists t', at_text v6 (code ++ c7) t' s' /\ (length t' <= length t4)%nat)).
  { destruct t4 as [|c t4]; [apply safe_error; by exists []|]. destruct (c =? 41); [|apply safe_error; by exists (c :: t4)].
    eapply safe_mono; [by eapply safe_advance|]. intros ? s' H. exists t4. split; [done|simpl; lia]. }
  intros ? s8 (t' & H8 & Hl8). eapply safe_mono; [eapply safe_repetition; [exact H8|by destruct Hv4| |done|done]|].
  - split; cbn [v_paren v6 vw_paren]; lia.
  - intros ? s9 (v9 & c9 & t9 & ? & ? & ? & ?). exists v9, c9, t9. split_and!; (done || lia).
Qed.

Lemma stops_le code n n' s : stops code n s -> (n <= n')%nat -> stops code n' s.
Proof using. intros (v & c & t & ? & ? & ? & ?) Hn. exists v, c, t. split_and!; (done || lia). Qed.

Lemma concat_safe_step fuel : safe_concat fuel -> safe_alts fuel -> safe_concat (S fuel).
Proof.
  intros IHc IHa code lit v t s litLen isPrevLit Hin Hlit Hfuel. pose proof Hin as (code1 & v0 & Hs & Hv0 & Hg & Hmust & Hfits & Hfit).
  cbn [ParseConcat]. apply safe_get; [done|]. rewrite (before_end _ _ Hstr _ _ _ _ Hs).
  assert (Hend : stops code (length t) s) by (by eapply concat_stops).
  destruct t as [|c t]; cbn [is_nil negb]; [by apply safe_ret|]. cbv zeta. rewrite Hlit. cbn [length] in *.
  eapply safe_bind; [by apply (safe_cur _ _ _ _ _ Hs)|]. intros ? ? [-> ->]. destruct (Z.eqb_spec c 40) as [->|].
  - eapply safe_bind; [eapply safe_paren; [exact IHa|exact Hs|apply (gr_ok _ _ _ Hg)|exact Hfit|lia]|].
    intros ? s1 (v1 & c1 & t1 & H1 & Hv1 & Hf1 & Hl1). rewrite <- (app_assoc code), <- app_assoc in H1.
    eapply safe_mono; [eapply (IHc code [] v1 t1); [by eapply stops_concat|done|lia]|]. intros ? s2 H2. eapply stops_le; [exact H2|lia].
  - destruct ((c =? 41) || (c =? 124)); [by apply safe_ret|].
    eapply safe_bind; [by apply (safe_item code code1 lit v0 v (c :: t) Hv0 Hg Hmust Hfits Hfit c t s)|].
    intros [litLen' isPrevLit'] s1 (lit1 & v1 & t1 & H1 & E1 & Hl1). cbn [fst snd] in E1.
    eapply safe_mono; [by apply (IHc code lit1 v1 t1); [..|lia]|]. intros ? s2 H2. eapply stops_le; [exact H2|lia].
Qed.

(** The branches around the second alternative. *)
Lemma alts_safe_rest fuel v code c1 t s1 (s0 : ParseInfo) : safe_alts fuel ->
  at_text v (code ++ c1) t s1 -> view_ok v -> groups_fit l v t -> (2 * length t + 2 <= fuel)%nat ->
  bufInd (out s0) = zlen code -> 0 <= mustStr s0 <= zlen code -> forall altMin altMax, 0 <= altMin ->
  safe (EmitBranchAt behind (bufInd (out s0)) (op_num A_BRANCH_AFTER) (bufInd (out s1) + 2) ≫= (fun _ =>
     s ← get;
     let oldBufInd := bufInd (out s) in
     ParseAlternatives strVal flags behind fuel ≫= (fun _ =>
     s ← get;
     EmitBranchAt behind oldBufInd (op_num A_BRANCH_ALWAYS) (bufInd (out s)) ≫= (fun _ =>
     modify (up_must (mustStr s0) (mustStrBack s0)) ≫= (fun _ =>
     modify (fun s => up_depth (depth s - 1) s) ≫= (fun _ =>
     modify (fun s => up_len (Z.min altMin (minLen s)) (Z.max altMax (maxLen s)) s))))))) s1
    (fun _ => stops code (length t)).
Proof.
  intros IHa H1 Hv Hf Hfuel Eb Hmust altMin altMax Halt. destruct (at_text_view _ _ _ _ _ H1) as (_ & _ & _ & Eb1 & _). rewrite Eb, Eb1.
  eapply safe_bind.
  { eapply safe_clear; [auto with blind|by apply (branch_first behind l v code c1 t)|]. intros ? ? [m H]. by eapply at_text_error. }
  clear H1 Eb1 s1. intros ? s2 [m H2]. apply safe_get; [done|]. destruct (at_text_view _ _ _ _ _ H2) as (_ & _ & _ & Eb2 & _). rewrite Eb2. cbv zeta.
  set (code1 := code ++ _) in *. eapply safe_bind; [eapply IHa; [exact H2|by destruct Hv|exact Hf|done]|].
  clear H2 Eb2. intros ? s3 (v3 & c3 & t3 & H3 & Hv3 & Hf3 & Hl3). apply safe_get; [done|].
  destruct (at_text_view _ _ _ _ _ H3) as (_ & _ & _ & Eb3 & _). rewrite Eb3. eapply safe_bind.
  { eapply safe_clear; [auto with blind|by apply (branch_second behind l v3 code1 c3 t3)|]. intros ? ? [m' H]. by eapply at_text_error. }
  clear H3 Eb3. intros ? s4 [m4 H4]. do 2 (apply safe_modify; [done|]). apply safe_modify_end; [done|].
  set (code4 := code1 ++ _) in *. destruct (at_text_view _ _ _ _ _ H4) as (Em4 & _). destruct Hv3 as [Hv3 Hm3].
  assert (Hcode : exists c4, code4 = code ++ c4) by (unfold code4, code1; eexists; by rewrite <- !app_assoc).
  destruct Hcode as [c4 Ec]. rewrite Ec in H4. clear Ec.
  exists (vw_min (Z.min altMin (minLen s4)) (vw_depth (depth s4 - 1) (vw_must (mustStr s0) (vw_must m4 v3)))), c4, t3. split_and!; [|split; [done|]| |].
  - apply (at_text_update l (vw_must m4 v3) _ _ s4); [|exact H4]. intros i Hi.
    apply (is_at_min (vw_str i (vw_depth (depth s4 - 1) (vw_must (mustStr s0) (vw_must m4 v3))))).
    apply (is_at_depth (vw_str i (vw_must (mustStr s0) (vw_must m4 v3)))). apply (is_at_must (vw_str i (vw_must m4 v3))); [exact Hi|].
    rewrite length_app. lia.
  - rewrite Em4. cbn [v_min vw_min vw_must] in *. lia.
  - done.
  - done.
Qed.

Lemma alts_safe_step fuel : safe_concat fuel -> safe_alts fuel -> safe_alts (S fuel).
Proof.
  intros IHc IHa v code t s Hs Hv Hf Hfuel. cbn [ParseAlternatives]. destruct (at_text_view _ _ _ _ _ Hs) as (Em & Ed & Ems & Eb & Hmust).
  apply safe_get; [done|]. rewrite Ed. apply safe_modify; [done|]. set (v1 := vw_depth (v_depth v + 1) v).
  assert (H1 : at_text v1 code t (up_depth (v_depth v + 1) s)).
  { eapply at_text_update; [|exact Hs]. intros i Hi. by apply (is_at_depth (vw_str i v)). }
  assert (Hv1 : view_ok v1) by (by destruct Hv). rewrite <- (app_nil_r code) in H1.
  destruct (A_MAX_NESTING_DEPTH <=? v_depth v + 1).
  { apply safe_error. by exists v1, [], t. }
  eapply safe_bind; [eapply (IHc code [] v1 t); [by eapply stops_concat|done|lia]|].
  intros ? s1 (v2 & c2 & t2 & H2 & Hv2 & Hf2 & Hl2). apply safe_get; [done|].
  eapply safe_bind; [by apply (safe_next (fun c => c =? 124) _ _ _ _ H2)|]. intros ? ? [-> ->].
  destruct (at_text_view _ _ _ _ _ H2) as (Em2 & Ed2 & _). destruct t2 as [|c t2]; [|destruct (c =? 124)]; cbn [negb].
  1,3: apply safe_modify_end; [done|]; exists (vw_depth (depth s1 - 1) v2), c2; eexists; split_and!;
    [eapply at_text_update; [|exact H2]; intros i Hi; by apply (is_at_depth (vw_str i v2))|by destruct Hv2|exact Hf2|done].
  cbv zeta. apply safe_modify; [done|]. rewrite Em2, Em. generalize (maxLen s1). intros altMax.
  assert (H3 : at_text (vw_min (v_min v) v2) (code ++ c2) (c :: t2) (up_len (v_min v) (maxLen s) s1))
    by (eapply at_text_update; [|exact H2]; intros i Hi; by apply (is_at_min (vw_str i v2))).
  eapply (safe_bind _ _ _ (fun _ s' => at_text (vw_min (v_min v) v2) (code ++ c2) t2 s' /\ bufInd (out s') = bufInd (out s1))).
  { eapply safe_mono; [eapply (safe_advance _ _ _ _ _ H3)|]. intros ? s' H. split; [done|]. destruct (at_text_view _ _ _ _ _ H) as (_ & _ & _ & -> & _).
    by destruct (at_text_view _ _ _ _ _ H2) as (_ & _ & _ & -> & _). }
  intros ? s4 [H4 Eb4]. rewrite <- Eb4. cbn [length] in *. destruct Hv2, Hf2 as [G1 G2]. cbn [length] in G2.
  eapply safe_mono; [eapply (alts_safe_rest fuel _ code c2 t2 s4 s IHa H4); try done; [split; [done|apply Hv]|split; cbn [v_paren vw_min]; lia|lia|by rewrite Ems]|].
  intros ? s5 H5. eapply stops_le; [exact H5|lia].
Qed.

(** The pass over the whole pattern. *)
Lemma plain_pass fuel : safe_concat fuel /\ safe_alts fuel.
Proof.
  induction fuel as [|fuel [IHc IHa]]; [|split; [by apply concat_safe_step|by apply alts_safe_step]].
  split; intros ?; intros; lia.
Qed.
End plain.

(** ** Whole patterns *)

(** An expression that the grammar reads at the start of the pattern. *)
Definition starts_tree (nocase : bool) (l : list Z) : bool :=
  match parse_alternatives nocase (2 * length l + 2) 0 (MkProgress l 1 0) with POk _ => true | _ => false end.

(** The patterns on which the pass reads nothing but the pattern, whether or
    not the grammar rejects them. *)
Definition no_fault (nocase : bool) (l : list Z) : bool := plain_pattern l || starts_tree nocase l.

Section pattern.
Context (strVal : StrObj) (flags : Z) (behind : storage) (l : list Z).
Hypothesis (Hstr : represents strVal l) (Hlen : zlen l < 65536) (Hflags : plain_flags flags).
#[local] Set Default Proof Using "Type Hstr Hlen Hflags".

Lemma alternatives_return s : at_text l view0 [] l s -> no_fault (nocase flags) l = true ->
  sreturns (ParseAlternatives strVal flags behind (2 * length l + 2)) s (fun _ s' => exists v code t, at_text l v code t (clear s')).
Proof.
  assert (Hv : view_ok view0) by (split; [by apply const_set_ok|done]). assert (Hf : groups_fit l view0 l) by (split; cbn; lia).
  intros Hs [Hp|Ht]%orb_true_iff.
  - pose proof (proj2 (plain_pass strVal flags behind l Hstr Hlen Hp (2 * length l + 2)) view0 [] l s Hs Hv Hf ltac:(lia)) as Ha.
    eapply sreturns_mono; [apply Ha, clear_id; by eapply at_text_error|].
    intros ? s' (v & c & t & H & _). by exists v, c, t.
  - pose proof (proj2 (compile_pass strVal flags behind l Hstr Hlen (2 * length l + 2)) view0 [] l s Hs Hv Hf) as Ha.
    unfold starts_tree in Ht. change (progress_at l view0) with (MkProgress l 1 0) in Ha. change (v_depth view0) with 0 in Ha.
    destruct (parse_alternatives _ _ _ _); [|done..]. eapply sreturns_mono; [exact Ha|].
    intros ? s' (v & H & _). rewrite clear_id by (by eapply at_text_error). eauto.
Qed.

(** The pass returns, and with an error if the grammar rejects the pattern. *)
Lemma parse_all_return junk : no_fault (nocase flags) l = true -> pattern_tree (nocase flags) l = PBad ->
  sreturns (parse_all strVal flags behind) (start_info strVal behind junk) (fun _ s => isError s = true).
Proof.
  intros Hn Ht. pose proof (parse_all_spec strVal flags behind l Hstr Hlen Hflags junk) as Hbad. rewrite Ht in Hbad. cbn [follows] in Hbad.
  assert (Hret : sreturns (parse_all strVal flags behind) (start_info strVal behind junk) (fun _ _ => True)).
  { destruct (plain_flags_spec _ Hflags) as (E1 & E2 & E3 & E4 & E5 & _). unfold parse_all, ParseExpr. rewrite E1, E2, E3, E4, E5.
    eapply (sreturns_bind _ _ _ (fun _ _ => True)).
    - eapply sreturns_bind; [by apply (sreturns_ret _ _ (fun _ s' => s' = start_info strVal behind junk))|]. intros ? ? ->.
      rewrite (end_length _ _ Hstr), Nat2Z.id.
      eapply sreturns_bind; [apply alternatives_return; [by apply start_at|done]|]. intros ? s1 (v & code & t & H1).
      eapply sreturns_bind; [by apply (sreturns_ret _ _ (fun _ s' => s' = s1))|]. intros ? ? ->.
      eapply sreturns_mono; [by apply (safe_Emit behind l v code t (clear s1) (op_num A_MATCH))|done].
    - intros ? s' _. apply sreturns_get_bind. eapply (sreturns_bind _ _ _ (fun _ _ => True)); [|intros ? s2 _];
        [destruct (negb _)|destruct (_ <=? _)]; try (by apply sreturns_ret); by apply sreturns_modify. }
  intros t. destruct (Hbad t) as [Hh Hb], (Hret t) as [_ Hr]. split; [done|].
  destruct (parse_all strVal flags behind _ t) as [[[a|e|] s'] t']; cbn [fst snd] in *; [|by right; destruct Hr as [[]|]|by destruct Hr as [[]|[? _]]].
  destruct Hb as [Hb|[? _]]; [by left|done].
Qed.
End pattern.

(** A pattern without a tree, read to its end. *)
Lemma compile_no_fault str flags behind l : represents str l -> zlen l < 65536 -> plain_flags flags ->
  no_fault (nocase flags) l = true -> pattern_tree (nocase flags) l = PBad -> raises (ACompileRegExp (Some str) flags behind) ERegExpError.
Proof.
  intros Hs Hl Hf Hn Ht. unfold ACompileRegExp. eapply spec_bind; [by apply wide_pattern|].
  clear str Hs. intros str Hs. eapply spec_bind; [apply AAlloc_spec|]. intros junk _.
  eapply (spec_bind _ _ (fun s => isError s = true)); [|by apply make_regexp_error].
  eapply pass_spec; [by apply (parse_all_return str flags behind l Hs Hl Hf junk Hn Ht)|]. by intros [u|e|] s.
Qed.
