(* ===== verification/ReModule.v ===== *)
(** * ReModule: the re module

    [re_module.c]: matching and searching with a pattern or a compiled
    expression, match results, and the class of compiled expressions.  The
    indices of the groups are kept in an array of short integers, from which
    the methods of a match result read. *)

From stdpp Require Import gmap.
From S2P Require Import Prelude Runtime Digits Value IntConv Sort Encodings EncodingsSpec.
From S2P Require Import StrOps StrSpec StrTables StrCase ReDefs ReMatch ReSem ReMatches ReProps.
From S2P Require Import ReComp ReParse ReShape RePattern.


Open Scope Z_scope.

(** The first argument of [Match] and [Search]: an instance of RegExp (its
    compiled expression), a string, or another value. *)
Inductive ReArg :=
  | RaRegExp (c : ARegExp)
  | RaStr (s : StrObj)
  | RaOther.

(** An instance of MatchResult: the words of its array of short integers and
    the string that was matched. *)
Record MatchResult := MkMatchResult {
  mr_groups : list Z;
  mr_str : StrObj
}.

(** [GetArguments]: the position, the string and the compiled expression. *)
Definition GetArguments (re : ReArg) (str : option StrObj) (index : option AValue) (behind : storage)
    : M (Z * StrObj * ARegExp) :=
  s ← expect_str str;
  pos ← (match index with
         | Some v => pos ← AGetInt v; if pos <? 0 then raise EValueError else mret pos
         | None => mret 0
         end);
  match re with
  | RaRegExp c => mret (pos, s, c)
  | RaStr p => c ← ACompileRegExp (Some p) 0 behind; mret (pos, s, c)
  | RaOther => raise ETypeError
  end.

(** [BuildMatchObject]: [ACallValue] on the class allocates the instance, and
    so may the write barriers of its members. *)
Definition BuildMatchObject (numGroups : Z) (subExp : list AReRange) (str : StrObj) : M MatchResult :=
  AAlloc (8 * (numGroups * 2)) ≫= (fun _ =>
  a ← for_up 0 numGroups (fun i a =>
        match subExp !! Z.to_nat i with
        | Some r =>
          let beg := s32 (range_beg r) in
          let end_ := s32 (range_end r) in
          a ← ASetArrayItem a (2 * i) (AIntToValue beg);
          ASetArrayItem a (2 * i + 1) (AIntToValue end_)
        | None => fault
        end) (replicate (Z.to_nat (numGroups * 2)) AZero);
  AAlloc 24 ≫= (fun _ => barrier ≫= (fun _ => barrier ≫= (fun _ => mret (MkMatchResult a str))))).

Section module.
(** The fuel of the matcher; what the memory holds behind the buffer of the
    compiler, in the table of [subExp], in the table of the group starts and in
    the first entry of the stack. *)
Variables (fuel : nat) (behind : storage) (subExp : list AReRange) (junk : storage) (junkStr : Z).

(** The body shared by [ReMatch] and [ReProps]; [None] is nil. *)
Definition match_with (flags : Z) (re : ReArg) (str : option StrObj) (index : option AValue) : M (option MatchResult) :=
  '(pos, s, c) ← GetArguments re str index behind;
  '(ok, sub) ← AMatchRegExp fuel c s (AStrLen s) flags pos subExp 10 junk junkStr;
  if ok : bool then m ← BuildMatchObject (re_numGroups c) sub s; mret (Some m) else mret None.

Definition ReMatch : ReArg -> option StrObj -> option AValue -> M (option MatchResult) := match_with A_RE_NOSEARCH.
Definition ReSearch : ReArg -> option StrObj -> option AValue -> M (option MatchResult) := match_with 0.
End module.

(** ** The methods of a match result *)

Section result.
Variable self : MatchResult.

(** The guard that the methods share. *)
Definition group_index (arg : AValue) : M Z :=
  ind ← AGetInt arg;
  if Z.shiftr (zlen (mr_groups self)) 1 - 1 <? ind then raise EValueError else mret ind.

Definition MatchResultGroup (arg : AValue) : M (option StrObj) :=
  ind ← group_index arg;
  w1 ← AArrayItem (mr_groups self) (2 * ind);
  w2 ← AArrayItem (mr_groups self) (2 * ind + 1);
  let i1 := s32 (AValueToInt w1) in
  let i2 := s32 (AValueToInt w2) in
  if i1 <? 0 then mret None else s ← ACreateSubStr (mr_str self) i1 i2; mret (Some s).

Definition MatchResultStart (arg : AValue) : M AValue :=
  ind ← group_index arg; w ← AArrayItem (mr_groups self) (2 * ind); mret (VInt w).

Definition MatchResultStop (arg : AValue) : M AValue :=
  ind ← group_index arg; w ← AArrayItem (mr_groups self) (2 * ind + 1); mret (VInt w).

(** [None] is nil; [AMakePair] allocates. *)
Definition MatchResultSpan (arg : AValue) : M (option (AValue * AValue)) :=
  ind ← group_index arg;
  lo ← AArrayItem (mr_groups self) (2 * ind);
  if s64 lo <? 0 then mret None
  else hi ← AArrayItem (mr_groups self) (2 * ind + 1); AAlloc 24 ≫= (fun _ => mret (Some (VInt lo, VInt hi))).
End result.

(** ** The class of compiled expressions *)

(** The flag argument of [create]. *)
Inductive ReFlag :=
  | RfIgnoreCase
  | RfOther.

(** A call whose failure is a value of the caller. *)
Definition attempt {A} (m : M A) : M (option A) := fun t =>
  match m t with
  | (Ok a, t) => (Ok (Some a), t)
  | (Raise _, t) => (Ok None, t)
  | (Fault, t) => (Fault, t)
  end.

(** [create] returns the instance, of which the member is the compiled
    expression; if the compilation fails it returns [FALSE], which is the value
    0 and not an error ([None]). *)
Definition RegExpCreate (str : option StrObj) (flag : option ReFlag) (behind : storage) : M (option ARegExp) :=
  s ← expect_str str;
  flags ← (match flag with
           | None => mret 0
           | Some RfIgnoreCase => mret (Z.lor 0 A_RE_NOCASE)
           | Some RfOther => raise EValueError
           end);
  c ← attempt (ACompileRegExp (Some s) flags behind);
  match c with
  | None => mret None
  | Some c => barrier ≫= (fun _ => mret (Some c))
  end.

(** * Match results

    The span of a group of a match, the match result that holds the spans of a
    match, and the operations of the re module in terms of them. *)


(** The span of group [k] of a match; group 0 is the whole match. *)
Definition group_span (m : Z * pos_groups) (k : nat) : option (Z * Z) :=
  match k with O => Some (m.1, m.2.1) | S _ => m.2.2 !! Z.of_nat k end.

(** The spans lie in the text. *)
Definition in_text (l : list Z) (m : Z * pos_groups) : Prop :=
  forall k b e, group_span m k = Some (b, e) -> 0 <= b <= e /\ e <= zlen l.

(** A span as two integers of an array. *)
Definition span_words (o : option (Z * Z)) : list Z :=
  match o with Some (b, e) => [AIntToValue b; AIntToValue e] | None => [AIntToValue (-1); AIntToValue (-1)] end.

(** The match result with the spans of the first [n] groups. *)
Definition match_object (n : nat) (m : Z * pos_groups) (s : StrObj) : MatchResult :=
  MkMatchResult (concat ((fun k => span_words (group_span m k)) <$> seq 0 n)) s.

Lemma span_words_length o : length (span_words o) = 2%nat.
Proof. by destruct o as [[b e]|]. Qed.

Lemma group_words_length m n k : length (concat ((fun k => span_words (group_span m k)) <$> seq k n)) = (2 * n)%nat.
Proof.
  revert k. induction n as [|n IH]; intros k; [done|]. cbn [seq fmap list_fmap concat].
  rewrite length_app, span_words_length, IH. lia.
Qed.

Lemma group_words_split m n k : (k < n)%nat -> exists pre post,
  concat ((fun k => span_words (group_span m k)) <$> seq 0 n) = pre ++ span_words (group_span m k) ++ post /\ length pre = (2 * k)%nat.
Proof.
  intros Hk. replace n with (k + S (n - S k))%nat by lia. rewrite seq_app, fmap_app, concat_app. cbn [seq fmap list_fmap concat].
  eexists _, _. split; [done|]. apply group_words_length.
Qed.

(** A match that was found lies in the text. *)
Lemma found_in_text l r q y : counts_ok r -> 0 <= q <= zlen l -> matches l r (q, ∅) y -> in_text l (q, y).
Proof.
  intros Hc Hq Hy. apply sem_matches in Hy; [|done|by apply good_start].
  apply sem_forward in Hy as [[Hp Hg] Hle]; [|done|by apply good_start]. cbn [fst] in Hle.
  intros [|k] b e Hk; cbn [group_span fst snd] in Hk; [|by eapply Hg]. injection Hk as <- <-. lia.
Qed.

Lemma s32_u32_small x : 0 <= x < 2147483648 -> s32 (u32 x) = x.
Proof. intros Hx. unfold s32, u32. zsolve. Qed.

Lemma s32_span x : -1 <= x < 2147483648 -> s32 x = x.
Proof. intros Hx. unfold s32. zsolve. Qed.

(** What [BuildMatchObject] reads of a group. *)
Lemma spans_lookup l m k : in_text l m -> zlen l < 2 ^ 31 -> (k <= 10)%nat -> exists r, spans 10 m !! k = Some r /\
  [AIntToValue (s32 (range_beg r)); AIntToValue (s32 (range_end r))] = span_words (group_span m k).
Proof.
  intros Hm Hl Hk. assert (Hr : forall b e, group_span m k = Some (b, e) ->
    [AIntToValue (s32 (u32 b)); AIntToValue (s32 (u32 e))] = [AIntToValue b; AIntToValue e]).
  { intros b e Hg. apply Hm in Hg. by rewrite !s32_u32_small by lia. }
  unfold spans. destruct k as [|k]; [eexists; split; [done|]; by apply Hr|].
  change (MkRange _ _ :: ?t) with ([MkRange (u32 m.1) (u32 m.2.1)] ++ t). rewrite lookup_app_r by (simpl; lia). cbn [length].
  replace (S k - 1)%nat with k by lia. rewrite list_lookup_fmap, lookup_seq_lt by lia. eexists. split; [done|].
  cbn [group_span] in *. unfold span_of. change (1 + k)%nat with (S k). destruct (m.2.2 !! Z.of_nat (S k)) as [[b e]|]; [by apply Hr|done].
Qed.

Lemma BuildMatchObject_spec l m n s : in_text l m -> zlen l < 2 ^ 31 -> (n <= 11)%nat ->
  returns (BuildMatchObject (Z.of_nat n) (spans 10 m) s) (fun r => r = match_object n m s).
Proof.
  intros Hm Hl Hn. unfold BuildMatchObject. eapply returns_bind; [apply AAlloc_spec|]. intros _ _.
  set (W := fun k => concat ((fun k => span_words (group_span m k)) <$> seq 0 k)).
  eapply (returns_bind _ _ (fun a => a = W n)).
  - eapply returns_mono; [apply (for_up_inv (fun i a => exists k, i = Z.of_nat k /\ a = W k ++ replicate (2 * (n - k)) AZero)); [lia| |]|].
    + exists 0%nat. split; [done|]. cbn. f_equal. lia.
    + intros i a Hi (k & -> & ->). rewrite Nat2Z.id. destruct (spans_lookup l m k Hm Hl ltac:(lia)) as (r & -> & Hr). cbv zeta.
      replace (2 * (n - k))%nat with (S (S (2 * (n - S k)))) by lia. cbn [replicate].
      assert (Hlen : zlen (W k) = 2 * Z.of_nat k) by (unfold W; rewrite group_words_length; lia).
      rewrite <- Hlen. eapply returns_bind; [apply set_item_at|]. intros ? ->.
      replace (zlen (W k) + 1) with (zlen (W k ++ [AIntToValue (s32 (range_beg r))])) by (rewrite length_app; cbn [length]; lia).
      rewrite cons_middle, app_assoc. eapply returns_mono; [apply set_item_at|]. intros ? ->.
      exists (S k). split; [lia|]. unfold W. rewrite seq_S, fmap_app, concat_app. cbn [fmap list_fmap concat Nat.add].
      rewrite <- Hr. by rewrite <- !app_assoc.
    + intros a (k & Hk & ->). apply Nat2Z.inj in Hk as <-. by rewrite Nat.sub_diag, app_nil_r.
  - intros ? ->. eapply returns_bind; [apply AAlloc_spec|]. intros _ _. eapply returns_bind; [apply barrier_spec|]. intros _ _.
    eapply returns_bind; [apply barrier_spec|]. intros _ _. by apply returns_ret.
Qed.

Lemma half_length n : Z.shiftr (Z.of_nat (2 * n)) 1 = Z.of_nat n.
Proof. rewrite Z.shiftr_div_pow2, Nat2Z.inj_mul, Z.mul_comm by lia. by apply Z.div_mul. Qed.

(** ** Reading a match result *)

Section result.
Context (l : list Z) (m : Z * pos_groups) (n : nat) (s : StrObj).
Hypothesis (Hs : represents s l) (Hl : zlen l < 2 ^ 31) (Hm : in_text l m).
#[local] Set Default Proof Using "Type Hs Hl Hm".
Local Abbreviation self := (match_object n m s).

Lemma group_index_spec v k : int_repr v (Z.of_nat k) -> (k < n)%nat -> Z.of_nat k <= 0x7fffffff ->
  returns (group_index self v) (fun i => i = Z.of_nat k).
Proof using.
  clear Hs Hl Hm. intros Hv Hk Hr. unfold group_index. eapply returns_bind; [apply AGetInt_in_range; [exact Hv|lia]|]. intros ? ->.
  cbn [mr_groups match_object]. rewrite group_words_length, half_length.
  test (Z.of_nat n - 1 <? Z.of_nat k) false. by apply returns_ret.
Qed.

Lemma group_index_range v z : int_repr v z -> Z.of_nat n <= z -> raises (group_index self v) EValueError.
Proof using.
  clear Hs Hl Hm. intros Hv Hz. unfold group_index. pose proof (AGetInt_spec v z Hv) as Hi. destruct (_ && _) eqn:E; [|by apply raises_bind].
  eapply (spec_bind _ _ (fun i => i = z)); [eapply spec_mono; [exact Hi|]; by intros ? ->|]. intros ? ->.
  cbn [mr_groups match_object]. rewrite group_words_length, half_length.
  test (Z.of_nat n - 1 <? z) true. by apply spec_raise.
Qed.

(** The integers that stand for a span. *)
Definition span_ints (o : option (Z * Z)) : Z * Z := match o with Some p => p | None => (-1, -1) end.

Lemma group_words_at k : (k < n)%nat ->
  evals (AArrayItem (mr_groups self) (2 * Z.of_nat k)) (AIntToValue (span_ints (group_span m k)).1) /\
  evals (AArrayItem (mr_groups self) (2 * Z.of_nat k + 1)) (AIntToValue (span_ints (group_span m k)).2).
Proof using.
  clear Hs Hl Hm. intros Hk. cbn [mr_groups match_object]. destruct (group_words_split m n k Hk) as (pre & post & -> & Hpre).
  set (w := span_ints _). replace (span_words (group_span m k)) with [AIntToValue w.1; AIntToValue w.2] by (unfold w; by destruct (group_span m k) as [[b e]|]).
  cbn [app]. split; [replace (2 * Z.of_nat k) with (zlen pre) by lia; by apply item_at|].
  rewrite cons_middle, app_assoc. replace (2 * Z.of_nat k + 1) with (zlen (pre ++ [AIntToValue w.1])) by (rewrite length_app; cbn [length]; lia).
  by apply item_at.
Qed.

Lemma span_ints_range k : -1 <= (span_ints (group_span m k)).1 < 2147483648 /\ -1 <= (span_ints (group_span m k)).2 < 2147483648.
Proof. destruct (group_span m k) as [[b e]|] eqn:E; cbn; [apply Hm in E|]; lia. Qed.

Lemma word_int z : -1 <= z < 2147483648 -> AValueToInt (AIntToValue z) = z.
Proof using. clear Hs Hl Hm. intros Hz. apply AValueToInt_tag. unfold short_range, A_SHORT_INT_MIN, A_SHORT_INT_MAX. lia. Qed.

Section index.
Context (v : AValue) (k : nat).
Hypothesis (Hv : int_repr v (Z.of_nat k)) (Hk : (k < n)%nat) (Hr : Z.of_nat k <= 0x7fffffff).
#[local] Set Default Proof Using "Type Hs Hl Hm Hv Hk Hr".

Lemma MatchResultGroup_spec : returns (MatchResultGroup self v) (fun o =>
  match group_span m k with Some (b, e) => exists d, o = Some d /\ represents d (slice l b e) | None => o = None end).
Proof.
  unfold MatchResultGroup. eapply returns_bind; [by apply group_index_spec|]. intros ? ->.
  destruct (group_words_at k Hk) as [H1 H2]. eapply returns_bind_evals; [exact H1|]. eapply returns_bind_evals; [exact H2|].
  destruct (span_ints_range k) as [R1 R2]. rewrite !word_int, !s32_span by done.
  destruct (group_span m k) as [[b e]|] eqn:E; cbn [span_ints fst snd]; [|by apply returns_ret].
  apply Hm in E. test (b <? 0) false. eapply returns_bind; [apply (ACreateSubStr_inside s l); (done || lia)|].
  intros d Hd. apply returns_ret. by exists d.
Qed.

Lemma MatchResultStart_spec : returns (MatchResultStart self v) (fun w => int_repr w (span_ints (group_span m k)).1).
Proof.
  unfold MatchResultStart. eapply returns_bind; [by apply group_index_spec|]. intros ? ->.
  destruct (group_words_at k Hk) as [H1 H2]. eapply returns_bind_evals; [exact H1|]. apply returns_ret.
  destruct (span_ints_range k). split; [done|]. unfold short_range, A_SHORT_INT_MIN, A_SHORT_INT_MAX. lia.
Qed.

Lemma MatchResultStop_spec : returns (MatchResultStop self v) (fun w => int_repr w (span_ints (group_span m k)).2).
Proof.
  unfold MatchResultStop. eapply returns_bind; [by apply group_index_spec|]. intros ? ->.
  destruct (group_words_at k Hk) as [H1 H2]. eapply returns_bind_evals; [exact H2|]. apply returns_ret.
  destruct (span_ints_range k). split; [done|]. unfold short_range, A_SHORT_INT_MIN, A_SHORT_INT_MAX. lia.
Qed.

Lemma MatchResultSpan_spec : returns (MatchResultSpan self v) (fun o =>
  match group_span m k with Some (b, e) => exists wb we, o = Some (wb, we) /\ int_repr wb b /\ int_repr we e | None => o = None end).
Proof.
  unfold MatchResultSpan. eapply returns_bind; [by apply group_index_spec|]. intros ? ->.
  destruct (group_words_at k Hk) as [H1 H2]. eapply returns_bind_evals; [exact H1|].
  destruct (group_span m k) as [[b e]|] eqn:E; cbn [span_ints fst snd] in *; [|by apply returns_ret].
  apply Hm in E. assert (Hw : 0 <= s64 (AIntToValue b)). { rewrite AIntToValue_eq. unfold s64. zsolve. }
  test (s64 (AIntToValue b) <? 0) false. eapply returns_bind_evals; [exact H2|]. eapply returns_bind; [apply AAlloc_spec|]. intros _ _.
  apply returns_ret. eexists _, _. split; [done|]. split; split; (done || (unfold short_range, A_SHORT_INT_MIN, A_SHORT_INT_MAX; lia)).
Qed.
End index.

(** An index that is not that of a group. *)
Lemma no_group v z : int_repr v z -> Z.of_nat n <= z ->
  raises (MatchResultGroup self v) EValueError /\ raises (MatchResultStart self v) EValueError /\
  raises (MatchResultStop self v) EValueError /\ raises (MatchResultSpan self v) EValueError.
Proof using. clear Hs Hl Hm. intros Hv Hz. pose proof (group_index_range v z Hv Hz). split_and!; by apply raises_bind. Qed.
End result.
