(* ===== verification/RegExpProps.v ===== *)
(** * RegExpProps: what is proved of patterns

    The compiler of regular expressions on every pattern of its grammar, and
    the operations of the re module from the pattern to the match result. *)

From stdpp Require Import gmap.
From S2P Require Import Prelude Runtime Digits Value IntConv Encodings EncodingsSpec StrOps.
From S2P Require Import StrSpec StrTables StrCase ReDefs ReMatch ReSem ReMatches ReProps ReComp.
From S2P Require Import ReParse ReShape RePattern RePlain ReModule.

Open Scope Z_scope.

(** ** Expressions as arguments *)

(** The first argument of [Match] and [Search] stands for the tree [r] with [n]
    groups. *)
Definition arg_tree (a : ReArg) (r : re) (n : Z) : Prop :=
  match a with
  | RaStr p => exists lp, represents p lp /\ zlen lp < 65536 /\ pattern_tree false lp = POk (r, n)
  | RaRegExp c => compiled c r /\ re_numGroups c = n /\ shaped 1 n r /\ 1 <= n
  | RaOther => False
  end.

(** The optional position. *)
Definition index_value (index : option AValue) (z : Z) : Prop :=
  match index with Some v => int_repr v z | None => z = 0 end.

Lemma pattern_shaped nocase lp r n : pattern_tree nocase lp = POk (r, n) -> shaped 1 n r /\ 1 <= n.
Proof.
  intros Ht. unfold pattern_tree in Ht. destruct (parse nocase lp) as [[r' n']| | |] eqn:Ep; simpl mbind in Ht; try done.
  destruct (_ <? _); [|done]. injection Ht as -> ->. apply parse_shaped in Ep as [H1 H2]. split; [done|lia].
Qed.

Lemma arg_tree_shaped a r n : arg_tree a r n -> shaped 1 n r /\ 1 <= n.
Proof.
  destruct a as [c|p|]; [|intros (lp & _ & _ & Ht); by eapply pattern_shaped|done]. by intros (_ & _ & ?).
Qed.

Lemma index_spec index z : index_value index z -> 0 <= z <= 0x7fffffff ->
  returns (match index with
           | Some v => pos ← AGetInt v; if pos <? 0 then raise EValueError else mret pos
           | None => mret 0
           end) (fun i => i = z).
Proof.
  intros Hv Hz. destruct index as [v|]; [|by apply returns_ret]. eapply returns_bind; [apply AGetInt_in_range; [exact Hv|lia]|].
  intros ? ->. test (z <? 0) false. by apply returns_ret.
Qed.

Lemma GetArguments_spec a r n str index z behind : arg_tree a r n -> index_value index z -> 0 <= z <= 0x7fffffff ->
  returns (GetArguments a (Some str) index behind) (fun '(pos, s, c) => pos = z /\ s = str /\ compiled c r /\ re_numGroups c = n).
Proof.
  intros Ha Hi Hz. unfold GetArguments. eapply returns_bind_evals; [by intros t|]. eapply returns_bind; [by apply index_spec|]. intros ? ->.
  destruct a as [c|p|]; [|destruct Ha as (lp & Hp & Hl & Ht)|done].
  - apply returns_ret. by destruct Ha as (? & ? & ?).
  - eapply returns_bind; [apply (compile_tree p 0 behind lp r n); (done || by left)|]. intros c (Hc & Hn & _). by apply returns_ret.
Qed.

(** The operations on an argument with a tree. *)
Lemma match_with_spec fuel behind subExp junk junkStr flags a r n str l index z :
  arg_tree a r n -> n <= 11 -> represents str l -> zlen l < 2 ^ 31 -> supported (negb (AIsNarrow str)) r ->
  index_value index z -> 0 <= z <= 0x7fffffff -> length subExp = 11%nat ->
  has_flag flags A_RE_NOBOL = false -> has_flag flags A_RE_NOEOL = false ->
  (forall c, compiled c r -> re_numGroups c = n -> returns (AMatchRegExp fuel c str (zlen l) flags z subExp 10 junk junkStr)
    (fun '(ok, sub) => match find_match l r (negb (has_flag flags A_RE_NOSEARCH)) z with
       | Some m => ok = true /\ sub = spans 10 m
       | None => ok = false /\ sub = subExp
       end)) ->
  returns (match_with fuel behind subExp junk junkStr flags a (Some str) index) (fun o =>
    o = (fun m => match_object (Z.to_nat n) m str) <$> find_match l r (negb (has_flag flags A_RE_NOSEARCH)) z).
Proof.
  intros Ha Hn Hs Hl Hsup Hi Hz Hsub Hb He Hm. destruct (arg_tree_shaped _ _ _ Ha) as [Hsh Hn1].
  pose proof (shaped_counts _ _ _ Hsh) as Hc. unfold match_with.
  eapply returns_bind; [by eapply GetArguments_spec|]. intros [[? ?] c] (-> & -> & Hcomp & Hng).
  assert (Hlen : AStrLen str = zlen l) by (destruct Hs as [Hso <-]; by apply AStrLen_chars).
  rewrite Hlen. eapply returns_bind; [by apply Hm|]. intros [ok sub]. pose proof (find_match_sound l r (negb (has_flag flags A_RE_NOSEARCH)) z Hc ltac:(lia)) as Hf.
  destruct (find_match _ _ _ _) as [[q y]|]; intros [-> ->]; [|by apply returns_ret].
  destruct Hf as ([Hq _] & Hmat & _). assert (Hin : in_text l (q, y)) by (eapply found_in_text; [done| |done]; lia).
  replace (re_numGroups c) with (Z.of_nat (Z.to_nat n)) by lia.
  eapply returns_bind; [apply (BuildMatchObject_spec l); (done || lia)|]. intros ? ->. by apply returns_ret.
Qed.

(** ** A pattern for the witnesses *)

(** The pattern [a(b|c)*d]. *)
Definition demo_pattern : list Z := [97; 40; 98; 124; 99; 41; 42; 100].

Definition demo_tree : re :=
  RSeq (RSeq (RChars (CLit false 97) 1 0 false)
    (RLoop false 1 (RAlt (RChars (CLit false 98) 1 0 false) (RChars (CLit false 99) 1 0 false))))
    (RChars (CLit false 100) 1 0 false).

Lemma demo_pattern_tree : pattern_tree false demo_pattern = POk (demo_tree, 2).
Proof. by vm_compute. Qed.

Lemma demo_pattern_represents : represents (NarrowStr demo_pattern) demo_pattern.
Proof. split; [|done]. repeat constructor; unfold fits, byte; lia. Qed.

(** ** The claims *)

(** C31: the compiler is correct on every pattern of less than 65536 characters
    with no flags but that for ignoring case: where the grammar yields a tree
    with code of less than 32768 words, it returns the compiled form of the
    tree, with the number of its groups, the least length of its matches and
    sound shortcuts for the matcher.  Where the grammar rejects the pattern or
    the code is too long, it raises RegExpError if the pattern holds neither
    [\[] nor [{] or an expression can be read at its start, and never returns an
    expression otherwise: it raises RegExpError or, as on [\[a] and [a{2,], reads
    behind the pattern; that it ends at all is not claimed there.  Nothing is
    claimed of a repeat count above 65535; otherwise the grammar decides every
    pattern. *)
Theorem ACompileRegExp_correct str flags behind l : represents str l -> zlen l < 65536 -> plain_flags flags ->
  match pattern_tree (nocase flags) l with
  | POk (r, n) => returns (ACompileRegExp (Some str) flags behind) (fun c => compiled c r /\ re_numGroups c = n /\ re_minLen c = min_len r)
  | PBad =>
    if no_fault (nocase flags) l then raises (ACompileRegExp (Some str) flags behind) ERegExpError
    else spec (ACompileRegExp (Some str) flags behind) (fun o => o = Raise ERegExpError \/ o = Fault)
  | PHuge => True
  | PStuck => False
  end.
Proof.
  intros Hs Hl Hf. pose proof (pattern_tree_total (nocase flags) l) as Ht.
  destruct (pattern_tree (nocase flags) l) as [[r n]| | |] eqn:E; [by apply (compile_tree _ _ _ l)| |done|done].
  destruct (no_fault (nocase flags) l) eqn:En; [by apply (compile_no_fault _ _ _ l)|by apply (compile_bad _ _ _ l)].
Qed.

(** The pattern of the demonstration, a star behind a parenthesis, and [\[a]. *)
Lemma ACompileRegExp_correct_witness :
  returns (ACompileRegExp (Some (NarrowStr demo_pattern)) 0 (fun _ => 0))
    (fun c => compiled c demo_tree /\ re_numGroups c = 2 /\ re_minLen c = min_len demo_tree) /\
  raises (ACompileRegExp (Some (NarrowStr [40; 42])) 0 (fun _ => 0)) ERegExpError /\
  spec (ACompileRegExp (Some (NarrowStr [91; 97])) 0 (fun _ => 0)) (fun o => o = Raise ERegExpError \/ o = Fault).
Proof.
  split; [|split].
  - pose proof (ACompileRegExp_correct (NarrowStr demo_pattern) 0 (fun _ => 0) demo_pattern demo_pattern_represents ltac:(by vm_compute) ltac:(by left)) as H.
    change (nocase 0) with false in H. rewrite demo_pattern_tree in H. exact H.
  - pose proof (ACompileRegExp_correct (NarrowStr [40; 42]) 0 (fun _ => 0) [40; 42] ltac:(split; [repeat constructor; unfold fits, byte; lia|done]) ltac:(by vm_compute) ltac:(by left)) as H.
    replace (pattern_tree (nocase 0) [40; 42]) with (@PBad (re * Z)) in H by (by vm_compute).
    replace (no_fault (nocase 0) [40; 42]) with true in H by (by vm_compute). exact H.
  - pose proof (ACompileRegExp_correct (NarrowStr [91; 97]) 0 (fun _ => 0) [91; 97] ltac:(split; [repeat constructor; unfold fits, byte; lia|done]) ltac:(by vm_compute) ltac:(by left)) as H.
    replace (pattern_tree (nocase 0) [91; 97]) with (@PBad (re * Z)) in H by (by vm_compute).
    replace (no_fault (nocase 0) [91; 97]) with false in H by (by vm_compute). exact H.
Defined.



(** The methods of the match result of a match: [group] returns the text
    of a group, [span] the pair of its bounds, [start] and [stop] one of them; for a group
    that took no part in the match the first two return nil and the others -1;
    an index from the number of groups on raises ValueError. *)
Theorem match_result_correct l r q y n str v z :
  counts_ok r -> 0 <= q <= zlen l -> matches l r (q, ∅) y -> represents str l -> zlen l < 2 ^ 31 ->
  int_repr v z -> 0 <= z <= 0x7fffffff ->
  let self := match_object n (q, y) str in
  if z <? Z.of_nat n then
    match group_span (q, y) (Z.to_nat z) with
    | Some (b, e) =>
      0 <= b <= e /\ e <= zlen l /\
      returns (MatchResultGroup self v) (fun o => exists d, o = Some d /\ represents d (slice l b e)) /\
      returns (MatchResultStart self v) (fun w => int_repr w b) /\ returns (MatchResultStop self v) (fun w => int_repr w e) /\
      returns (MatchResultSpan self v) (fun o => exists wb we, o = Some (wb, we) /\ int_repr wb b /\ int_repr we e)
    | None =>
      returns (MatchResultGroup self v) (fun o => o = None) /\
      returns (MatchResultStart self v) (fun w => int_repr w (-1)) /\ returns (MatchResultStop self v) (fun w => int_repr w (-1)) /\
      returns (MatchResultSpan self v) (fun o => o = None)
    end
  else raises (MatchResultGroup self v) EValueError /\ raises (MatchResultStart self v) EValueError /\
    raises (MatchResultStop self v) EValueError /\ raises (MatchResultSpan self v) EValueError.
Proof.
  intros Hc Hq Hy Hs Hl Hv Hz self. pose proof (found_in_text l r q y Hc Hq Hy) as Hm.
  destruct (Z.ltb_spec z (Z.of_nat n)); [|by apply (no_group (q, y) n str v z)].
  rewrite <- (Z2Nat.id z) in Hv by lia. set (k := Z.to_nat z) in *.
  assert (Hk : (k < n)%nat /\ Z.of_nat k <= 0x7fffffff) by lia. destruct Hk as [Hk Hr].
  pose proof (MatchResultGroup_spec l (q, y) n str Hs Hl Hm v k Hv Hk Hr) as Hg. pose proof (MatchResultStart_spec l (q, y) n str Hs Hl Hm v k Hv Hk Hr) as Hb.
  pose proof (MatchResultStop_spec l (q, y) n str Hs Hl Hm v k Hv Hk Hr) as He. pose proof (MatchResultSpan_spec l (q, y) n str Hs Hl Hm v k Hv Hk Hr) as Hp.
  revert Hg Hb He Hp. destruct (group_span (q, y) k) as [[b e]|] eqn:E; intros Hg Hb He Hp; [apply Hm in E as [? ?]|]; split_and!;
    first [exact Hg|exact Hb|exact He|exact Hp|lia].
Qed.

Lemma match_result_correct_witness :
  let self := match_object 2 (1, (6, {[1 := (4, 5)]})) demo_str in
  returns (MatchResultGroup self (VInt (AIntToValue 1))) (fun o => exists d, o = Some d /\ represents d [98]) /\
  raises (MatchResultSpan self (VInt (AIntToValue 2))) EValueError.
Proof.
  assert (Hm : matches demo_text demo_tree (1, ∅) (6, {[1 := (4, 5)]})).
  { apply sem_matches; [by vm_compute; intuition|by apply good_start|]. left. by vm_compute. }
  split.
  - destruct (match_result_correct demo_text demo_tree 1 (6, {[1 := (4, 5)]}) 2 demo_str (VInt (AIntToValue 1)) 1
      ltac:(by vm_compute; intuition) ltac:(done) Hm demo_represents ltac:(by vm_compute) ltac:(by split) ltac:(done)) as (_ & _ & H & _). exact H.
  - destruct (match_result_correct demo_text demo_tree 1 (6, {[1 := (4, 5)]}) 2 demo_str (VInt (AIntToValue 2)) 2
      ltac:(by vm_compute; intuition) ltac:(done) Hm demo_represents ltac:(by vm_compute) ltac:(by split) ltac:(done)) as (_ & _ & _ & H). exact H.
Defined.

(** ** Errors and compiled expressions *)

Lemma raises_after {A B} (m : M A) (f : A -> M B) P e : returns m P -> (forall a, P a -> raises (f a) e) -> raises (m ≫= f) e.
Proof. intros Hm Hf. by eapply spec_bind. Qed.

(** A call that does not return. *)
Lemma rejects_bind {A B} (m : M A) (f : A -> M B) :
  spec m (fun o => o = Raise ERegExpError \/ o = Fault) -> spec (m ≫= f) (fun o => o = Raise ERegExpError \/ o = Fault).
Proof.
  intros Hm t. destruct (Hm t) as [Hh H]. unfold mbind, M_bind. destruct (m t) as [[a|e|] t']; simpl in *.
  - by destruct H as [[?|?]|[? _]].
  - split; [done|]. destruct H as [[[= ->]|?]|[[= ->] ?]]; [by left; left|done|by right].
  - split; [done|]. by left; right.
Qed.

(** What is attempted fails into [None]. *)
Lemma attempt_fails {A} (m : M A) :
  spec m (fun o => o = Raise ERegExpError \/ o = Fault) -> spec (attempt m) (fun o => o = Ok None \/ o = Fault).
Proof.
  intros Hm t. destruct (Hm t) as [Hh H]. unfold attempt. destruct (m t) as [[a|e|] t']; simpl in *.
  - by destruct H as [[?|?]|[? _]].
  - split; [done|]. by left; left.
  - split; [done|]. by left; right.
Qed.

Lemma attempt_raises {A} (m : M A) e : raises m e -> returns (attempt m) (fun o => o = None).
Proof.
  intros Hm t. destruct (Hm t) as [Hh H]. unfold attempt. destruct (m t) as [[a|e'|] t']; simpl in *.
  - by destruct H as [?|[? _]].
  - split; [done|]. by left.
  - by destruct H as [?|[? _]].
Qed.

Lemma index_error v z : int_repr v z -> z < 0 \/ 0x7fffffff < z ->
  raises (pos ← AGetInt v; if pos <? 0 then raise EValueError else mret pos) EValueError.
Proof.
  intros Hv Hz. pose proof (AGetInt_spec v z Hv) as H. destruct (_ && _) eqn:E; [|by apply raises_bind].
  apply (raises_after _ _ (fun i => i = z)); [eapply spec_mono; [exact H|]; by intros ? ->|]. intros ? ->.
  test (z <? 0) true. by apply spec_raise.
Qed.

(** C33: the errors of [Match] and [Search]: TypeError for a second argument
    that is not a string, then ValueError for a position that is negative or not
    an int, then TypeError for a first argument that is neither a string nor an
    expression and RegExpError for a pattern that the grammar rejects, unless
    the compiler reads behind it first. *)
Theorem re_search_errors (searching : bool) fuel behind subExp junk junkStr :
  let op := (if searching then ReSearch else ReMatch) fuel behind subExp junk junkStr in
  (forall a index, raises (op a None index) ETypeError) /\
  (forall a str v z, int_repr v z -> z < 0 \/ 0x7fffffff < z -> raises (op a (Some str) (Some v)) EValueError) /\
  (forall str index z, index_value index z -> 0 <= z <= 0x7fffffff -> raises (op RaOther (Some str) index) ETypeError) /\
  (forall p lp str index z, index_value index z -> 0 <= z <= 0x7fffffff -> represents p lp -> zlen lp < 65536 ->
    pattern_tree false lp = PBad -> spec (op (RaStr p) (Some str) index) (fun o => o = Raise ERegExpError \/ o = Fault)).
Proof.
  assert (Hop : forall P : (ReArg -> option StrObj -> option AValue -> M (option MatchResult)) -> Prop,
    (forall flags, P (match_with fuel behind subExp junk junkStr flags)) ->
    P ((if searching then ReSearch else ReMatch) fuel behind subExp junk junkStr)) by (intros P HP; destruct searching; apply HP).
  cbv zeta. split_and!; intros *; apply Hop; intros flags; unfold match_with.
  - by apply raises_bind, raises_bind, spec_raise.
  - intros Hv Hz. apply raises_bind. apply (raises_after _ _ (fun s => s = str)); [by apply returns_ret|]. intros ? ->.
    by eapply raises_bind, index_error.
  - intros Hi Hz. apply raises_bind. apply (raises_after _ _ (fun s => s = str)); [by apply returns_ret|]. intros ? ->.
    apply (raises_after _ _ (fun i => i = z)); [by apply index_spec|]. intros ? _. by apply spec_raise.
  - intros Hi Hz Hp Hl Ht. apply rejects_bind. eapply (spec_bind _ _ (fun s => s = str)); [by apply returns_ret|]. intros ? ->.
    eapply (spec_bind _ _ (fun i => i = z)); [by apply index_spec|]. intros ? _.
    apply rejects_bind. apply (compile_bad p 0 behind lp); (done || by left).
Qed.

Lemma re_search_errors_witness :
  raises (ReMatch 1 (fun _ => 0) [] (fun _ => 0) 0 RaOther (Some demo_str) (Some (VInt (AIntToValue (-1))))) EValueError /\
  spec (ReSearch 1 (fun _ => 0) [] (fun _ => 0) 0 (RaStr (NarrowStr [40])) (Some demo_str) None) (fun o => o = Raise ERegExpError \/ o = Fault).
Proof.
  split.
  - apply (proj1 (proj2 (re_search_errors false 1 (fun _ => 0) [] (fun _ => 0) 0)) RaOther demo_str (VInt (AIntToValue (-1))) (-1)); [by split|lia].
  - apply (proj2 (proj2 (proj2 (re_search_errors true 1 (fun _ => 0) [] (fun _ => 0) 0))) (NarrowStr [40]) [40] demo_str None 0 eq_refl ltac:(lia)
      ltac:(split; [repeat constructor; unfold fits, byte; lia|done]) ltac:(by vm_compute) ltac:(by vm_compute)).
Defined.

(** The flags that the flag argument of [create] stands for. *)
Definition create_flags (flag : option ReFlag) : Z := match flag with Some RfIgnoreCase => A_RE_NOCASE | _ => 0 end.

(** C34: [create] of RegExp on a pattern of less than 65536 characters: if the
    grammar yields a tree, it keeps an expression that [Match] and [Search]
    accept for the tree, with or without case.  If the grammar rejects the
    pattern or the code is too long, it never keeps an expression: it returns
    the value 0 in place of the error value if the pattern holds neither [\[] nor
    [{] or an expression can be read at its start, and otherwise does so unless
    the compiler reads behind the pattern.  Nothing is claimed of a repeat count
    above 65535.  TypeError is raised for a first argument that is not a string,
    and ValueError for a flag other than [IgnoreCase]. *)
Theorem RegExpCreate_correct behind :
  (forall flag, raises (RegExpCreate None flag behind) ETypeError) /\
  (forall str, raises (RegExpCreate (Some str) (Some RfOther) behind) EValueError) /\
  (forall p lp flag, flag <> Some RfOther -> represents p lp -> zlen lp < 65536 ->
    match pattern_tree (nocase (create_flags flag)) lp with
    | POk (r, n) => forall t, supplied t -> exists c, fst (RegExpCreate (Some p) flag behind t) = Ok (Some c) /\ arg_tree (RaRegExp c) r n
    | PBad =>
      if no_fault (nocase (create_flags flag)) lp then returns (RegExpCreate (Some p) flag behind) (fun o => o = None)
      else spec (RegExpCreate (Some p) flag behind) (fun o => o = Ok None \/ o = Fault)
    | PHuge => True
    | PStuck => False
    end).
Proof.
  split_and!; [intros; by apply raises_bind, spec_raise| |].
  { intros str. apply (raises_after _ _ (fun s => s = str)); [by apply returns_ret|]. intros ? ->. by apply raises_bind, spec_raise. }
  intros p lp flag Hf Hp Hl. assert (Hpl : plain_flags (create_flags flag)) by (destruct flag as [[]|]; [by right|by left|by left]).
  assert (Hc : forall t, RegExpCreate (Some p) flag behind t =
    (c ← attempt (ACompileRegExp (Some p) (create_flags flag) behind);
     match c with None => mret None | Some c => barrier ≫= (fun _ => mret (Some c)) end) t) by (by destruct flag as [[]|]).
  pose proof (pattern_tree_total (nocase (create_flags flag)) lp) as Htot.
  destruct (pattern_tree (nocase (create_flags flag)) lp) as [[r n]| | |] eqn:Et; [| |done..].
  - intros t Ht. rewrite Hc. pose proof (compile_tree p _ behind lp r n Hp Hl Hpl Et t) as [Hh H].
    destruct (pattern_shaped _ _ _ _ Et) as [Hsh Hn]. unfold mbind, M_bind, attempt.
    destruct (ACompileRegExp (Some p) (create_flags flag) behind t) as [[c|e|] t1]; simpl in *; [|by destruct H as [[]|[_ []]]|by destruct H as [[]|[? _]]].
    destruct H as [(Hcomp & Hg & _)|[? _]]; [|done]. destruct (barrier_spec t1) as [_ Hb].
    destruct (barrier t1) as [[u|e|] t2]; simpl in *.
    + by exists c.
    + destruct Hb as [[]|[_ Hb]]. by rewrite (supplied_heap t t1) in Hb.
    + by destruct Hb as [[]|[? _]].
  - destruct (no_fault _ lp) eqn:En.
    { intros t. rewrite Hc. revert t. eapply returns_bind; [eapply attempt_raises; by apply (compile_no_fault _ _ _ lp)|].
      intros ? ->. by apply returns_ret. }
    pose proof (attempt_fails _ (compile_bad p _ behind lp Hp Hl Hpl Et)) as Ha. intros t. rewrite Hc. destruct (Ha t) as [Hh H]. unfold mbind, M_bind.
    destruct (attempt _ t) as [[[c|]|e|] t']; simpl in *; destruct H as [[H|H]|[H ?]]; try done; (split; [done|]); [by left; left|right; by split|by left; right].
Qed.

Lemma RegExpCreate_correct_witness :
  (exists c, run (RegExpCreate (Some (NarrowStr demo_pattern)) None (fun _ => 0)) = Ok (Some c) /\ arg_tree (RaRegExp c) demo_tree 2) /\
  returns (RegExpCreate (Some (NarrowStr [40; 42])) (Some RfIgnoreCase) (fun _ => 0)) (fun o => o = None).
Proof.
  split; [|pose proof (proj2 (proj2 (RegExpCreate_correct (fun _ => 0))) (NarrowStr [40; 42]) [40; 42] (Some RfIgnoreCase) ltac:(done)
    ltac:(split; [repeat constructor; unfold fits, byte; lia|done]) ltac:(by vm_compute)) as H;
    replace (pattern_tree (nocase (create_flags (Some RfIgnoreCase))) [40; 42]) with (@PBad (re * Z)) in H by (by vm_compute);
    replace (no_fault (nocase (create_flags (Some RfIgnoreCase))) [40; 42]) with true in H by (by vm_compute); exact H].
  pose proof (proj2 (proj2 (RegExpCreate_correct (fun _ => 0))) (NarrowStr demo_pattern) demo_pattern None ltac:(done) demo_pattern_represents ltac:(by vm_compute)) as H.
  change (nocase (create_flags None)) with false in H. rewrite demo_pattern_tree in H. by apply (H thread0).
Defined.
