(* ===== verification/ArrayObj.v ===== *)
(** * ArrayObj: arrays and tuples

    [std_array.c]: instances of Array and Tuple are objects that refer to a
    block of items (FixArray), so arrays, their iterators and an operation
    under way may share a block.  The operations work on the store of all these
    objects; comparison, hashing and the protocols of sequences and iterators
    call methods of the items, which the class [ItemOps] stands for. *)

From stdpp Require Import gmap.
From S2P Require Import Prelude Runtime Digits Value LongInt IntConv StrOps.

Open Scope Z_scope.

(** ** The store *)

(** Items: nil, an Array or a Tuple (by its identity), a pair, or another value. *)
Inductive Item :=
  | INil
  | IArray (a : N)
  | ITuple (a : N)
  | IPair (x y : Item)
  | IVal (v : AValue).

(** An instance: the block, and the words that hold the length and the capacity. *)
Record ArrayObj := MkArrayObj {
  A_ARRAY_A : N;
  A_ARRAY_LEN : Z;
  A_ARRAY_CAPACITY : Z
}.

Record Objects := MkObjects {
  o_fix : gmap N (list Item);
  o_arr : gmap N ArrayObj;
  o_next : N
}.

Definition set_fix (f : N) (l : list Item) (s : Objects) : Objects :=
  MkObjects (<[f := l]> (o_fix s)) (o_arr s) (o_next s).
Definition set_arr (a : N) (o : ArrayObj) (s : Objects) : Objects :=
  MkObjects (o_fix s) (<[a := o]> (o_arr s)) (o_next s).

Definition obj (a : N) : SM Objects ArrayObj :=
  s ← get; match o_arr s !! a with Some o => mret o | None => lift fault end.

Definition set_len (a : N) (w : Z) : SM Objects unit :=
  o ← obj a; modify (set_arr a (MkArrayObj (A_ARRAY_A o) w (A_ARRAY_CAPACITY o))).

(** [AFixArrayItem(f, i)] and an assignment to it. *)
Definition AFixArrayItem (f : N) (i : Z) : SM Objects Item :=
  s ← get;
  match o_fix s !! f with
  | Some l => if 0 <=? i then match l !! Z.to_nat i with Some x => mret x | None => lift fault end else lift fault
  | None => lift fault
  end.

Definition put_item (f : N) (i : Z) (x : Item) : SM Objects unit :=
  s ← get;
  match o_fix s !! f with
  | Some l => if (0 <=? i) && (i <? zlen l) then modify (set_fix f (<[Z.to_nat i := x]> l)) else lift fault
  | None => lift fault
  end.

Definition ASetFixArrayItem (f : N) (i : Z) (x : Item) : SM Objects unit :=
  lift barrier ≫= (fun _ => put_item f i x).

Definition AArrayLen (a : N) : SM Objects Z := o ← obj a; mret (AValueToInt (A_ARRAY_LEN o)).
Definition AArrayCapacity (a : N) : SM Objects Z := o ← obj a; mret (AValueToInt (A_ARRAY_CAPACITY o)).
Definition AArrayItem (a : N) (i : Z) : SM Objects Item := o ← obj a; AFixArrayItem (A_ARRAY_A o) i.
Definition ASetArrayItemNewGen (a : N) (i : Z) (x : Item) : SM Objects unit := o ← obj a; put_item (A_ARRAY_A o) i x.
Definition ASetArrayItem (a : N) (i : Z) (x : Item) : SM Objects unit :=
  o ← obj a; ASetFixArrayItem (A_ARRAY_A o) i x.

(** ** Making blocks and arrays *)

(** The items of a block of [size] bytes, with what the storage contains. *)
Definition fresh_items (size : Z) (junk : storage) : list Item :=
  (fun i => IVal (VOther (junk (Z.of_nat i)))) <$> seq 0 (Z.to_nat (size / 8 - 1)).

Definition AMakeFixArray (length : Z) (init : Item) : SM Objects N :=
  let size := AGetBlockSize (u64 (u64 (length + 1) * 8)) in
  junk ← lift (AAlloc size);
  s ← get;
  let f := o_next s in
  modify (fun s => MkObjects (<[f := fresh_items size junk]> (o_fix s)) (o_arr s) (f + 1)%N) ≫= (fun _ =>
  sfor (Z.to_nat length) 0 (fun i => put_item f i init) ≫= (fun _ => mret f)).

(** The size of an instance with three members. *)
Definition instanceSize : Z := 32.

(** [AMakeUninitArrayOrTuple_M]: the instance and its items are one block. *)
Definition AMakeUninitArray_M (length : Z) : SM Objects N :=
  let size := u64 (instanceSize + AGetBlockSize (u64 (u64 (length + 1) * 8))) in
  junk ← lift (AAlloc size);
  s ← get;
  let a := o_next s in
  let f := (a + 1)%N in
  modify (fun s => MkObjects (<[f := fresh_items (size - instanceSize) junk]> (o_fix s))
                     (<[a := MkArrayObj f (AIntToValue length) (AIntToValue length)]> (o_arr s)) (f + 1)%N) ≫= (fun _ => mret a).

Definition AMakeArrayND (length : Z) : SM Objects N :=
  a ← AMakeUninitArray_M length;
  sfor (Z.to_nat length) 0 (fun i => ASetArrayItemNewGen a i INil) ≫= (fun _ => mret a).

Definition AMakeArray : Z -> SM Objects N := AMakeArrayND.
Definition AMakeTuple : Z -> SM Objects N := AMakeArrayND.

(** [ACopyMem] between the items of two blocks. *)
Definition copy_items (n : Z) (dst : N) (di : Z) (src : N) (si : Z) : SM Objects unit :=
  sfor (Z.to_nat n) 0 (fun i => x ← AFixArrayItem src (si + i); put_item dst (di + i) x).

(** [#i()] and [AResizeArray]. *)
Definition AArrayInitialize (a : N) : SM Objects unit :=
  set_len a AZero ≫= (fun _ =>
  o ← obj a;
  modify (set_arr a (MkArrayObj (A_ARRAY_A o) (A_ARRAY_LEN o) (AIntToValue 1))) ≫= (fun _ =>
  f ← AMakeFixArray 1 INil;
  lift barrier ≫= (fun _ =>
  o ← obj a;
  modify (set_arr a (MkArrayObj f (A_ARRAY_LEN o) (A_ARRAY_CAPACITY o)))))).

Definition AResizeArray (a : N) (amount : Z) : SM Objects unit :=
  capacity ← AArrayCapacity a;
  lift (AAllocTempStack 2) ≫= (fun _ =>
  let newCapacity := Z.max (s64 (capacity * 2)) (s64 (capacity + amount)) in
  let newCapacity := if newCapacity <? 4 then 4 else newCapacity in
  f ← AMakeFixArray newCapacity INil;
  o ← obj a;
  sfor (Z.to_nat capacity) 0 (fun i => x ← AFixArrayItem (A_ARRAY_A o) i; ASetFixArrayItem f i x) ≫= (fun _ =>
  o ← obj a;
  modify (set_arr a (MkArrayObj (A_ARRAY_A o) (A_ARRAY_LEN o) (AIntToValue newCapacity))) ≫= (fun _ =>
  lift barrier ≫= (fun _ =>
  o ← obj a;
  modify (set_arr a (MkArrayObj f (A_ARRAY_LEN o) (A_ARRAY_CAPACITY o))))))).

(** [AAppendArray] of the C interface: the length is set first. *)
Definition AAppendArray (a : N) (x : Item) : SM Objects unit :=
  o ← obj a;
  let len := A_ARRAY_LEN o in
  (if len =? A_ARRAY_CAPACITY o then lift (AAllocTempStack 2) ≫= (fun _ => AResizeArray a 0) else mret tt) ≫= (fun _ =>
  set_len a (u64 (len + AIntToValue 1)) ≫= (fun _ =>
  o ← obj a;
  ASetFixArrayItem (A_ARRAY_A o) (AValueToInt len) x)).

(** ** What the interpreter provides *)

(** Methods of items, which may work on the store and raise exceptions. *)
Class ItemOps := {
  AIsArraySubType : Item -> bool;
  ALen : Item -> SM Objects Z;
  AGetItemAt : Item -> Z -> SM Objects Item;
  AIterator : Item -> SM Objects Item;
  ANext : Item -> SM Objects (option Item);
  AIsEq : Item -> Item -> SM Objects bool;
  AIsLt : Item -> Item -> SM Objects bool;
  AIsGt : Item -> Item -> SM Objects bool;
  ACompareOrder : Item -> Item -> AOperator -> SM Objects bool;
  AStdHash : Item -> SM Objects Item
}.

Definition AIsArrayOrTuple (x : Item) : bool := match x with IArray _ | ITuple _ => true | _ => false end.

(** The number behind an item, for the conversions to C integers. *)
Definition item_value (x : Item) : AValue := match x with IVal v => v | _ => VOther 0 end.
Definition AGetInt_ssize_t (x : Item) : SM Objects Z := lift (AGetInt64 (item_value x)).

Definition int_item (z : Z) : Item := IVal (VInt (AIntToValue z)).
Definition A_SLICE_END : Z := A_SHORT_INT_MAX.

(** [ANormIndexV], on words, and [ANormIndex]. *)
Definition ANormIndexV (i l : Z) : Z := if s64 i <? 0 then u64 (l + i) else i.
Definition ANormIndex (i l : Z) : Z := if i <? 0 then s64 (l + i) else i.

(** ** Access *)

Definition AConcatArrays (a1 a2 : N) : SM Objects N :=
  arr1Len ← AArrayLen a1;
  arr2Len ← AArrayLen a2;
  cat ← AMakeArrayND (s64 (arr1Len + arr2Len));
  c ← obj cat;
  o1 ← obj a1;
  copy_items arr1Len (A_ARRAY_A c) 0 (A_ARRAY_A o1) 0 ≫= (fun _ =>
  o2 ← obj a2;
  copy_items arr2Len (A_ARRAY_A c) arr1Len (A_ARRAY_A o2) 0 ≫= (fun _ => mret cat)).

Definition ASubArrayND (a : N) (begInd endInd : Z) : SM Objects N :=
  arrLen ← AArrayLen a;
  let begInd := if begInd <? 0 then if s64 (arrLen + begInd) <? 0 then 0 else s64 (arrLen + begInd) else begInd in
  let endInd := if endInd <? 0 then s64 (arrLen + endInd) else if arrLen <? endInd then arrLen else endInd in
  let endInd := if endInd <? begInd then begInd else endInd in
  let length := s64 (endInd - begInd) in
  sub ← AMakeArrayND length;
  o ← obj a;
  s ← obj sub;
  copy_items length (A_ARRAY_A s) 0 (A_ARRAY_A o) begInd ≫= (fun _ => mret sub).

(** The index of an access, as a word below the length. *)
Definition index_word (a : N) (w : Z) : SM Objects Z :=
  o ← obj a;
  let len := A_ARRAY_LEN o in
  if len <=? w then
    let w := ANormIndexV w len in
    if len <=? w then lift (raise EIndexError) else mret w
  else mret w.

Definition AArray_get (a : N) (index : Item) : SM Objects Item :=
  match index with
  | IVal (VInt w) =>
    w ← index_word a w;
    o ← obj a;
    AFixArrayItem (A_ARRAY_A o) (AValueToInt w)
  | IPair loVal hiVal =>
    let loVal := match loVal with INil => IVal (VInt AZero) | _ => loVal end in
    let hiVal := match hiVal with INil => int_item A_SLICE_END | _ => hiVal end in
    lo ← AGetInt_ssize_t loVal;
    hi ← AGetInt_ssize_t hiVal;
    sub ← ASubArrayND a lo hi;
    mret (IArray sub)
  | IVal (VLong _) => lift (raise EIndexError)
  | _ => lift (raise ETypeError)
  end.

Definition ATuple_get (a : N) (index : Item) : SM Objects Item :=
  match index with
  | IVal (VInt w) =>
    w ← index_word a w;
    o ← obj a;
    AFixArrayItem (A_ARRAY_A o) (AValueToInt w)
  | IVal (VLong _) => lift (raise EIndexError)
  | _ => lift (raise ETypeError)
  end.

Definition AArray_set (a : N) (index x : Item) : SM Objects unit :=
  match index with
  | IVal (VInt w) =>
    w ← index_word a w;
    o ← obj a;
    ASetFixArrayItem (A_ARRAY_A o) (AValueToInt w) x
  | IVal (VLong _) => lift (raise EIndexError)
  | _ => lift (raise ETypeError)
  end.

Definition AArrayLengthMethod (a : N) : SM Objects Item := o ← obj a; mret (IVal (VInt (A_ARRAY_LEN o))).

Section methods.
Context `{ItemOps}.

(** The first of [n] items from [i] on that is equal to [x]; [AArray_in] asks
    for [AIsEq] of [x] and the item, the others of the item and [x]. *)
Fixpoint find_item (flip : bool) (f : N) (x : Item) (n : nat) (i : Z) : SM Objects (option Z) :=
  match n with
  | O => mret None
  | S n =>
    y ← AFixArrayItem f i;
    b ← (if flip then AIsEq x y else AIsEq y x);
    if b : bool then mret (Some i) else find_item flip f x n (i + 1)
  end.

Definition AArray_in (a : N) (x : Item) : SM Objects bool :=
  n ← AArrayLen a;
  o ← obj a;
  r ← find_item true (A_ARRAY_A o) x (Z.to_nat n) 0;
  mret (match r with Some _ => true | None => false end).

(** [AMakeInt] takes a C [int]. *)
Definition AArrayFind (a : N) (x : Item) : SM Objects Z :=
  o ← obj a;
  len ← AArrayLen a;
  r ← find_item false (A_ARRAY_A o) x (Z.to_nat len) 0;
  mret (match r with Some i => AIntToValue (s32 i) | None => AIntToValue (-1) end).

Definition AArrayIndex (a : N) (x : Item) : SM Objects Z :=
  ret ← AArrayFind a x;
  if ret =? AIntToValue (-1) then lift (raise EValueError) else mret ret.

Fixpoint count_items (f : N) (x : Item) (n : nat) (i : Z) (acc : Z) : SM Objects Z :=
  match n with
  | O => mret acc
  | S n =>
    y ← AFixArrayItem f i;
    b ← AIsEq y x;
    count_items f x n (i + 1) (if b : bool then acc + 1 else acc)
  end.

Definition AArrayCount (a : N) (x : Item) : SM Objects Z :=
  o ← obj a;
  len ← AArrayLen a;
  n ← count_items (A_ARRAY_A o) x (Z.to_nat len) 0 0;
  mret (AIntToValue (s32 n)).

(** ** Concatenation, repetition and copies *)

Definition AArray_add (a1 : N) (arg : Item) : SM Objects N :=
  match arg with
  | IArray a2 => AConcatArrays a1 a2
  | _ =>
    if negb (AIsArraySubType arg) then lift (raise ETypeError)
    else
      len1 ← AArrayLen a1;
      len2 ← ALen arg;
      cat ← AMakeArray (s64 (len1 + len2));
      sfor (Z.to_nat len1) 0 (fun i => x ← AArrayItem a1 i; ASetArrayItem cat i x) ≫= (fun _ =>
      sfor (Z.to_nat len2) 0 (fun i => x ← AGetItemAt arg i; ASetArrayItem cat (len1 + i) x) ≫= (fun _ =>
      mret cat))
  end.

(** The loop that fills the result, [j] going round in the array. *)
Fixpoint repeat_items (a cat : N) (len : Z) (n : nat) (i j : Z) : SM Objects unit :=
  match n with
  | O => mret tt
  | S n =>
    x ← AArrayItem a j;
    ASetArrayItem cat i x ≫= (fun _ => repeat_items a cat len n (i + 1) (if j + 1 =? len then 0 else j + 1))
  end.

Definition AArray_mul (a : N) (arg : Item) : SM Objects N :=
  len ← AArrayLen a;
  n ← AGetInt_ssize_t arg;
  if n <? 0 then lift (raise EValueError)
  else if len =? 1 then
    cat ← AMakeUninitArray_M n;
    init ← AArrayItem a 0;
    sfor (Z.to_nat n) 0 (fun i => ASetArrayItemNewGen cat i init) ≫= (fun _ => mret cat)
  else
    let len2 := s64 (len * n) in
    cat ← AMakeArray len2;
    repeat_items a cat len (Z.to_nat len2) 0 0 ≫= (fun _ => mret cat).

Definition AArrayCopy (a : N) : SM Objects N :=
  len ← AArrayLen a;
  new ← AMakeArray len;
  sfor (Z.to_nat len) 0 (fun i => x ← AArrayItem a i; ASetArrayItemNewGen new i x) ≫= (fun _ => mret new).

(** ** Methods that change an array *)

Definition AArrayAppend (a : N) (x : Item) : SM Objects unit :=
  o ← obj a;
  let len := A_ARRAY_LEN o in
  (if len =? A_ARRAY_CAPACITY o then AResizeArray a 0 else mret tt) ≫= (fun _ =>
  o ← obj a;
  ASetFixArrayItem (A_ARRAY_A o) (AValueToInt len) x ≫= (fun _ => set_len a (u64 (len + AIntToValue 1)))).

(** The iterable of the constructor: [fuel] bounds the number of its items. *)
Fixpoint append_all (fuel : nat) (a : N) (it : Item) : SM Objects unit :=
  match fuel with
  | O => lift fault
  | S fuel =>
    r ← ANext it;
    match r with
    | None => mret tt
    | Some x => AAppendArray a x ≫= (fun _ => append_all fuel a it)
    end
  end.

Definition AArrayCreate (fuel : nat) (a : N) (iterable : option Item) : SM Objects unit :=
  AArrayInitialize a ≫= (fun _ =>
  match iterable with
  | None => mret tt
  | Some x => it ← AIterator x; append_all fuel a it
  end).

Definition AArrayExtend (a : N) (arg : Item) : SM Objects unit :=
  len ← AArrayLen a;
  capacity ← AArrayCapacity a;
  argLen ← (match arg with IArray b => AArrayLen b | _ => ALen arg end);
  (if s64 (capacity - len) <? argLen then AResizeArray a argLen else mret tt) ≫= (fun _ =>
  o ← obj a;
  let f := A_ARRAY_A o in
  sfor (Z.to_nat argLen) 0 (fun i =>
    x ← (match arg with IArray b => AArrayItem b i | _ => AGetItemAt arg i end);
    ASetFixArrayItem f (s64 (len + i)) x) ≫= (fun _ =>
  set_len a (AIntToValue (s64 (len + argLen))))).

(** Moving the items from [i] on to the right: [n] of them, the last one first. *)
Fixpoint shift_right (f : N) (n : nat) (i : Z) : SM Objects unit :=
  match n with
  | O => mret tt
  | S n =>
    let j := i + Z.of_nat n in
    x ← AFixArrayItem f j;
    ASetFixArrayItem f (j + 1) x ≫= (fun _ => shift_right f n i)
  end.

Definition AArrayInsertAt (a : N) (index x : Item) : SM Objects unit :=
  i ← AGetInt_ssize_t index;
  o ← obj a;
  let n := AValueToInt (A_ARRAY_LEN o) in
  let i' := if (i <? 0) || (n <? i) then ANormIndex i n else i in
  if (i' <? 0) || (n <? i') then lift (raise EIndexError)
  else
    capacity ← AArrayCapacity a;
    (if n =? capacity then AResizeArray a 0 else mret tt) ≫= (fun _ =>
    o ← obj a;
    let f := A_ARRAY_A o in
    shift_right f (Z.to_nat (n - i')) i' ≫= (fun _ =>
    ASetFixArrayItem f i' x ≫= (fun _ =>
    o ← obj a;
    set_len a (u64 (A_ARRAY_LEN o + AIntToValue 1))))).

(** The loop of [AArrayRemove]: the number of items removed. *)
Fixpoint remove_items (f : N) (x : Item) (n : nat) (i numDel : Z) : SM Objects Z :=
  match n with
  | O => mret numDel
  | S n =>
    y ← AFixArrayItem f i;
    b ← AIsEq y x;
    if b : bool then remove_items f x n (i + 1) (numDel + 1)
    else
      (if negb (numDel =? 0) then ASetFixArrayItem f (i - numDel) y else mret tt) ≫= (fun _ =>
      remove_items f x n (i + 1) numDel)
  end.

Definition AArrayRemove (a : N) (x : Item) : SM Objects unit :=
  o ← obj a;
  len ← AArrayLen a;
  numDel ← remove_items (A_ARRAY_A o) x (Z.to_nat len) 0 0;
  o ← obj a;
  set_len a (u64 (A_ARRAY_LEN o - AIntToValue numDel)).

Definition AArrayRemoveAt (a : N) (index : Item) : SM Objects Item :=
  i ← AGetInt_ssize_t index;
  o ← obj a;
  let n := AValueToInt (A_ARRAY_LEN o) in
  let i := if (n <=? i) || (i <? 0) then ANormIndex i n else i in
  if (n <=? i) || (i <? 0) then lift (raise EIndexError)
  else
    let f := A_ARRAY_A o in
    x ← AFixArrayItem f i;
    sfor (Z.to_nat (n - 1 - i)) i (fun j => y ← AFixArrayItem f (j + 1); ASetFixArrayItem f j y) ≫= (fun _ =>
    ASetFixArrayItem f (n - 1) (IVal (VInt AZero)) ≫= (fun _ =>
    o ← obj a;
    set_len a (u64 (A_ARRAY_LEN o - AIntToValue 1)) ≫= (fun _ => mret x))).

(** ** Iterators *)

(** An iterator keeps the block and the length at the time it was made. *)
Record ArrayIter := MkArrayIter {
  ARRAY_ITER_I : Z;
  ARRAY_ITER_LEN : Z;
  ARRAY_ITER_A : N
}.

(** [AArrayIter] and [ATupleIter]; [ACallValue] makes the instance, whose
    [create] is [AArrayTupleIterCreate]. *)
Definition AArrayIter (a : N) : SM Objects ArrayIter :=
  o ← obj a;
  lift (AAlloc instanceSize) ≫= (fun _ =>
  lift barrier ≫= (fun _ => lift barrier ≫= (fun _ => lift barrier ≫= (fun _ =>
  mret (MkArrayIter AZero (A_ARRAY_LEN o) (A_ARRAY_A o)))))).

Definition AArrayTupleIterHasNext (it : ArrayIter) : bool := s64 (ARRAY_ITER_I it) <? s64 (ARRAY_ITER_LEN it).

Definition AArrayTupleIterNext (it : ArrayIter) : SM Objects (Item * ArrayIter) :=
  let i := ARRAY_ITER_I it in
  if i <? ARRAY_ITER_LEN it then
    x ← AFixArrayItem (ARRAY_ITER_A it) (AValueToInt i);
    mret (x, MkArrayIter (u64 (i + AIntToValue 1)) (ARRAY_ITER_LEN it) (ARRAY_ITER_A it))
  else lift (raise EValueError).

(** ** Hash values *)

(** The words of the items' hash values, multiplied and added as words. *)
Fixpoint hash_items (a : N) (n : nat) (i hashValue : Z) : SM Objects Z :=
  match n with
  | O => mret hashValue
  | S n =>
    x ← AArrayItem a i;
    ret ← AStdHash x;
    match ret with
    | IVal (VInt w) => hash_items a n (i + 1) (u64 (hashValue + u64 (u64 (hashValue * 32) + w)))
    | IVal (VLong li) =>
      w ← lift (ALongIntHashValue li);
      hash_items a n (i + 1) (u64 (hashValue + u64 (u64 (hashValue * 32) + w)))
    | _ => lift (raise ETypeError)
    end
  end.

Definition AArrayTupleHashValue (a : N) : SM Objects Z :=
  len ← AArrayLen a;
  hash_items a (Z.to_nat len) 0 AZero.

(** ** Comparison *)

(** The levels of nesting that a comparison follows. *)
Definition MAX_ARRAY_COMPARE_DEPTH : Z := 5.
Definition BUF_SIZE : Z := MAX_ARRAY_COMPARE_DEPTH * 2.

(** The first pair of items that [eq] tells apart. *)
Fixpoint first_difference (eq : Item -> Item -> SM Objects bool) (a1 a2 : N) (n : nat) (i : Z)
    : SM Objects (option (Item * Item)) :=
  match n with
  | O => mret None
  | S n =>
    x ← AArrayItem a1 i;
    y ← AArrayItem a2 i;
    b ← eq x y;
    if b : bool then first_difference eq a1 a2 n (i + 1) else mret (Some (x, y))
  end.

(** [CompareArraysRecursive] on the items at [index] and [index + 1] of the
    buffer; [fuel] counts the levels that are left. *)
Fixpoint CompareArraysRecursive (fuel : nat) (x y : Item) (operator : AOperator) (index : Z) : SM Objects bool :=
  if (0 <? index) && (negb (AIsArrayOrTuple x) || negb (AIsArrayOrTuple y)) then ACompareOrder x y operator
  else if BUF_SIZE - 2 <=? index then lift (raise EValueError)
  else
    match fuel, x, y with
    | S fuel, (IArray a1 | ITuple a1), (IArray a2 | ITuple a2) =>
      l1 ← AArrayLen a1;
      l2 ← AArrayLen a2;
      let len := s32 (Z.min l1 l2) in
      d ← first_difference (fun u v => CompareArraysRecursive fuel u v OPER_EQ (index + 2)) a1 a2 (Z.to_nat len) 0;
      match d with
      | None => ACompareOrder (int_item l1) (int_item l2) operator
      | Some (u, v) => CompareArraysRecursive fuel u v operator (index + 2)
      end
    | _, _, _ => lift fault
    end.

Definition ACompareArrays (x y : Item) (operator : AOperator) : SM Objects bool :=
  lift (AAllocTempStack BUF_SIZE) ≫= (fun _ => CompareArraysRecursive (Z.to_nat (MAX_ARRAY_COMPARE_DEPTH - 1)) x y operator 0).

(** The loop of [CompareArrayOrder], against a sequence that is not an Array. *)
Fixpoint compare_sequence (f : N) (arg : Item) (op : AOperator) (n : nat) (i : Z) : SM Objects (option bool) :=
  match n with
  | O => mret None
  | S n =>
    y ← AGetItemAt arg i;
    x ← AFixArrayItem f i;
    match op with
    | OPER_EQ =>
      b ← AIsEq x y;
      if b : bool then compare_sequence f arg op n (i + 1) else mret (Some false)
    | _ =>
      b ← (match op with OPER_LT => AIsLt x y | _ => AIsGt x y end);
      if b : bool then mret (Some true)
      else
        x ← AFixArrayItem f i;
        b ← AIsEq x y;
        if b : bool then compare_sequence f arg op n (i + 1) else mret (Some false)
    end
  end.

Definition CompareArrayOrder (a : N) (arg : Item) (op : AOperator) : SM Objects bool :=
  o ← obj a;
  len1 ← AGetInt_ssize_t (IVal (VInt (A_ARRAY_LEN o)));
  len2 ← ALen arg;
  o ← obj a;
  match op with
  | OPER_EQ =>
    if negb (len1 =? len2) then mret false
    else r ← compare_sequence (A_ARRAY_A o) arg op (Z.to_nat (Z.min len1 len2)) 0; mret (default true r)
  | _ =>
    r ← compare_sequence (A_ARRAY_A o) arg op (Z.to_nat (Z.min len1 len2)) 0;
    mret (default (match op with OPER_LT => len1 <? len2 | OPER_GT => len2 <? len1 | _ => true end) r)
  end.

(** The methods [_eq], [_lt] and [_gt] of Array and Tuple. *)
Definition array_id (x : Item) : N := match x with IArray a | ITuple a => a | _ => 0%N end.

Definition AArrayTuple_eq (self arg : Item) : SM Objects bool :=
  if AIsArrayOrTuple arg then ACompareArrays self arg OPER_EQ
  else if AIsArraySubType arg then CompareArrayOrder (array_id self) arg OPER_EQ
  else mret false.

Definition AArrayTuple_lt (self arg : Item) : SM Objects bool :=
  if AIsArrayOrTuple arg then ACompareArrays self arg OPER_LT
  else if AIsArraySubType arg then CompareArrayOrder (array_id self) arg OPER_LT
  else lift (raise ETypeError).

Definition AArrayTuple_gt (self arg : Item) : SM Objects bool :=
  if AIsArrayOrTuple arg then ACompareArrays self arg OPER_GT
  else if AIsArraySubType arg then CompareArrayOrder (array_id self) arg OPER_GT
  else lift (raise ETypeError).
End methods.
