(* ===== verification/ArraySpec.v ===== *)
(** * ArraySpec: what the store of arrays stands for

    The invariant of the store, the lists of items that the arrays stand for,
    and the effect of each operation on them. *)

From stdpp Require Import gmap.
From S2P Require Import Prelude Runtime Digits Value LongInt IntConv StrOps ArrayObj.

Open Scope Z_scope.

(** ** The invariant *)

(** An instance with [cells] behind it. *)
Definition obj_ok (o : ArrayObj) (cells : list Item) : Prop :=
  exists n cap, A_ARRAY_LEN o = AIntToValue n /\ A_ARRAY_CAPACITY o = AIntToValue cap /\
    0 <= n <= cap /\ cap <= zlen cells /\ cap <= 2 ^ 58.

Definition arr_len (o : ArrayObj) : nat := Z.to_nat (AValueToInt (A_ARRAY_LEN o)).

Record store_ok (s : Objects) : Prop := {
  so_obj : forall a o, o_arr s !! a = Some o -> exists cells, o_fix s !! A_ARRAY_A o = Some cells /\ obj_ok o cells;
  so_own : forall a b o p, o_arr s !! a = Some o -> o_arr s !! b = Some p -> A_ARRAY_A o = A_ARRAY_A p -> a = b;
  so_arr_next : forall a o, o_arr s !! a = Some o -> (a < o_next s)%N;
  so_fix_next : forall f l, o_fix s !! f = Some l -> (f < o_next s)%N
}.

(** The lists that the arrays stand for. *)
Definition items_of (s : Objects) (o : ArrayObj) : list Item := take (arr_len o) (default [] (o_fix s !! A_ARRAY_A o)).
Definition view (s : Objects) : gmap N (list Item) := items_of s <$> o_arr s.

Lemma word_int_nonneg n : 0 <= n <= 2 ^ 58 -> AValueToInt (AIntToValue n) = n.
Proof. intros Hn. apply AValueToInt_tag. unfold short_range, A_SHORT_INT_MIN, A_SHORT_INT_MAX. lia. Qed.

Lemma word_eq n : 0 <= n <= 2 ^ 58 -> AIntToValue n = 4 * n.
Proof. intros Hn. rewrite AIntToValue_eq. apply Z.mod_small. lia. Qed.

Lemma view_lookup s a l : view s !! a = Some l <-> exists o, o_arr s !! a = Some o /\ l = items_of s o.
Proof.
  unfold view. rewrite lookup_fmap. destruct (o_arr s !! a) as [o|]; simpl.
  - split; [intros [= <-]; by exists o|by intros (? & [= <-] & ->)].
  - split; [done|by intros (? & ? & ?)].
Qed.

(** An array of the store and its parts. *)
Lemma view_inv s a l : store_ok s -> view s !! a = Some l -> exists o cells cap,
  o_arr s !! a = Some o /\ o_fix s !! A_ARRAY_A o = Some cells /\
  A_ARRAY_LEN o = AIntToValue (zlen l) /\ A_ARRAY_CAPACITY o = AIntToValue cap /\
  zlen l <= cap /\ cap <= zlen cells /\ cap <= 2 ^ 58 /\ cells = l ++ drop (length l) cells.
Proof.
  intros Hs Hl. apply view_lookup in Hl as (o & Ho & ->). destruct (so_obj _ Hs _ _ Ho) as (cells & Hc & n & cap & Hn & Hcap & Hle & Hcc & Hb).
  assert (Hlen : length (items_of s o) = Z.to_nat n).
  { unfold items_of, arr_len. rewrite Hc, Hn, word_int_nonneg by lia. simpl. rewrite length_take. lia. }
  exists o, cells, cap. rewrite Hlen. rewrite Z2Nat.id by lia. split_and!; try done; [lia|].
  unfold items_of, arr_len. rewrite Hc, Hn, word_int_nonneg by lia. simpl. by rewrite take_drop.
Qed.

(** An update of one array, in its own block or in a new one. *)
Lemma store_update s s' a o cells l : store_ok s ->
  o_arr s' = <[a := o]> (o_arr s) -> o_fix s' !! A_ARRAY_A o = Some cells ->
  (forall f, f <> A_ARRAY_A o -> (f < o_next s)%N -> (exists p, o_arr s !! a = Some p /\ A_ARRAY_A p = f) \/ o_fix s' !! f = o_fix s !! f) ->
  (forall f x, o_fix s' !! f = Some x -> (f < o_next s')%N) -> (o_next s <= o_next s')%N -> (a < o_next s')%N ->
  ((o_next s <= A_ARRAY_A o)%N \/ exists p, o_arr s !! a = Some p /\ A_ARRAY_A p = A_ARRAY_A o) ->
  obj_ok o cells -> take (arr_len o) cells = l ->
  store_ok s' /\ view s' = <[a := l]> (view s).
Proof.
  intros Hs Ha Hf Hother Hnext Hle Han Hown Hok Hl.
  assert (Hfree : forall b p, b <> a -> o_arr s !! b = Some p -> A_ARRAY_A p <> A_ARRAY_A o).
  { intros b p Hne Hp E. destruct (so_obj _ Hs _ _ Hp) as (c & Hc & _). apply (so_fix_next _ Hs) in Hc.
    destruct Hown as [Hn|(q & Hq & Eq)]; [lia|]. apply Hne. eapply (so_own _ Hs); [exact Hp|exact Hq|congruence]. }
  assert (Hsame : forall b p, b <> a -> o_arr s !! b = Some p -> o_fix s' !! A_ARRAY_A p = o_fix s !! A_ARRAY_A p).
  { intros b p Hne Hp. destruct (so_obj _ Hs _ _ Hp) as (c & Hc & _). apply (so_fix_next _ Hs) in Hc.
    destruct (Hother (A_ARRAY_A p)) as [(q & Hq & Eq)|E]; [by eapply Hfree|done| |done].
    destruct Hne. by eapply (so_own _ Hs). }
  split.
  - split; rewrite ?Ha.
    + intros b p. destruct (decide (b = a)) as [->|Hne]; [rewrite lookup_insert_eq; intros [= <-]; by exists cells|].
      rewrite lookup_insert_ne by done. intros Hp. rewrite (Hsame b p Hne Hp). by apply (so_obj _ Hs b).
    + intros b c p q. destruct (decide (b = a)) as [->|Hb], (decide (c = a)) as [->|Hc]; rewrite ?lookup_insert_eq, ?lookup_insert_ne by done; [done|..].
      * intros [= <-] Hq E. by destruct (Hfree c q Hc Hq).
      * intros Hp [= <-] E. by destruct (Hfree b p Hb Hp).
      * apply (so_own _ Hs).
    + intros b p. destruct (decide (b = a)) as [->|Hne]; [done|]. rewrite lookup_insert_ne by done. intros Hp. apply (so_arr_next _ Hs) in Hp. lia.
    + done.
  - apply map_eq. intros b. unfold view. rewrite lookup_fmap, Ha. destruct (decide (b = a)) as [->|Hne].
    + rewrite !lookup_insert_eq. simpl. unfold items_of. by rewrite Hf, <- Hl.
    + rewrite !lookup_insert_ne, lookup_fmap by done. destruct (o_arr s !! b) as [p|] eqn:Hp; [|done]. simpl. unfold items_of. by rewrite (Hsame b p).
Qed.

(** ** Calls that change nothing *)

(** The call returns a value or raises an exception, and changes nothing. *)
Definition syields {A} (m : SM Objects A) (s : Objects) (r : A + exn) : Prop :=
  sspec m s (fun o s' => s' = s /\ o = match r with inl a => Ok a | inr e => Raise e end).

Lemma syields_ret {A} (a : A) s : syields (mret a) s (inl a).
Proof. by apply sspec_ret. Qed.

Lemma syields_raise {A} e s : syields (lift (raise (A := A) e)) s (inr e).
Proof. intros t. cbn. split; [done|]. by left. Qed.

Lemma syields_bind {A B} (m : SM Objects A) (f : A -> SM Objects B) s (r : A + exn) (k : B + exn) :
  syields m s r -> match r with inl a => syields (f a) s k | inr e => k = inr e end -> syields (m ≫= f) s k.
Proof.
  intros Hm Hf t. destruct (Hm t) as [Hh Hr]. unfold mbind, SM_bind. destruct (m s t) as [[[a|e|] s'] t']; simpl in *.
  - destruct Hr as [[-> Ha]|[? _]]; [|done]. destruct r as [a'|]; [|done]. injection Ha as ->. destruct (Hf t') as [Hh' Hr'].
    split; [congruence|]. destruct Hr' as [?|[? Hs]]; [by left|]. right. split; [done|]. by rewrite (supplied_heap t t') in Hs.
  - split; [done|]. destruct Hr as [[-> Ha]|[[= ->] ?]]; [left|by right]. destruct r; [done|]. injection Ha as ->. by subst k.
  - split; [done|]. destruct Hr as [[_ Ha]|[? _]]; [by destruct r|done].
Qed.

Lemma syields_step {A B} (m : SM Objects A) (f : A -> SM Objects B) s a (k : B + exn) :
  sreturns m s (fun x s' => x = a /\ s' = s) -> syields (f a) s k -> syields (m ≫= f) s k.
Proof.
  intros Hm Hf. apply (syields_bind m f s (inl a)); [|done]. eapply sspec_mono; [exact Hm|]. intros [x|e|] s'; [|done..].
  by intros [-> ->].
Qed.

(** ** Reading and writing *)

Lemma obj_spec a o s : o_arr s !! a = Some o -> sreturns (obj a) s (fun p s' => p = o /\ s' = s).
Proof. intros Ho. unfold obj. apply sreturns_get_bind. rewrite Ho. by apply sreturns_ret. Qed.

Lemma set_len_spec a o w s : o_arr s !! a = Some o ->
  sreturns (set_len a w) s (fun _ s' => s' = set_arr a (MkArrayObj (A_ARRAY_A o) w (A_ARRAY_CAPACITY o)) s).
Proof. intros Ho. unfold set_len. eapply sreturns_bind; [by apply obj_spec|]. intros ? ? [-> ->]. by apply sreturns_modify. Qed.

Lemma AFixArrayItem_spec f l i x s : o_fix s !! f = Some l -> 0 <= i -> l !! Z.to_nat i = Some x ->
  sreturns (AFixArrayItem f i) s (fun y s' => y = x /\ s' = s).
Proof.
  intros Hl Hi Hx. unfold AFixArrayItem. apply sreturns_get_bind. rewrite Hl, (proj2 (Z.leb_le 0 i) Hi), Hx. by apply sreturns_ret.
Qed.

Lemma put_item_spec f l i x s : o_fix s !! f = Some l -> 0 <= i < zlen l ->
  sreturns (put_item f i x) s (fun _ s' => s' = set_fix f (<[Z.to_nat i := x]> l) s).
Proof.
  intros Hl Hi. unfold put_item. apply sreturns_get_bind. rewrite Hl, in_bounds by lia. by apply sreturns_modify.
Qed.

Lemma ASetFixArrayItem_spec f l i x s : o_fix s !! f = Some l -> 0 <= i < zlen l ->
  sreturns (ASetFixArrayItem f i x) s (fun _ s' => s' = set_fix f (<[Z.to_nat i := x]> l) s).
Proof. intros Hl Hi. apply sreturns_lift_bind with (P := fun _ => True); [apply barrier_spec|]. intros _ _. by apply put_item_spec. Qed.

Lemma sreturns_barrier {A} (f : unit -> SM Objects A) s Q : sreturns (f tt) s Q -> sreturns (lift barrier ≫= f) s Q.
Proof. intros Hf. apply sreturns_lift_bind with (P := fun _ => True); [apply barrier_spec|]. by intros [] _. Qed.

Lemma set_fix_fix f l s : o_fix (set_fix f l s) !! f = Some l.
Proof. apply lookup_insert_eq. Qed.

Lemma set_fix_other f g l s : f <> g -> o_fix (set_fix f l s) !! g = o_fix s !! g.
Proof. intros Hne. by apply lookup_insert_ne. Qed.

Lemma set_fix_twice f l l' s : set_fix f l' (set_fix f l s) = set_fix f l' s.
Proof. unfold set_fix. simpl. by rewrite insert_insert_eq. Qed.

Lemma set_arr_arr a o s : o_arr (set_arr a o s) !! a = Some o.
Proof. apply lookup_insert_eq. Qed.

Lemma set_arr_twice a o p s : set_arr a p (set_arr a o s) = set_arr a p s.
Proof. unfold set_arr. simpl. by rewrite insert_insert_eq. Qed.

Lemma set_fix_id f l s : o_fix s !! f = Some l -> set_fix f l s = s.
Proof. intros Hl. unfold set_fix. rewrite insert_id by done. by destruct s. Qed.

(** A write of an item between two parts of a block. *)
Lemma put_at f pre x post i y s : o_fix s !! f = Some (pre ++ x :: post) -> i = zlen pre ->
  sreturns (put_item f i y) s (fun _ s' => s' = set_fix f (pre ++ y :: post) s).
Proof.
  intros Hl ->. eapply sreturns_mono; [apply put_item_spec; [exact Hl|rewrite length_app; simpl; lia]|]. intros ? ? ->.
  by rewrite Nat2Z.id, insert_app_r_alt, Nat.sub_diag by lia.
Qed.

Lemma set_at f pre x post i y s : o_fix s !! f = Some (pre ++ x :: post) -> i = zlen pre ->
  sreturns (ASetFixArrayItem f i y) s (fun _ s' => s' = set_fix f (pre ++ y :: post) s).
Proof. intros Hl Hi. apply sreturns_barrier. by eapply put_at. Qed.

Lemma cell_at f pre x post i s : o_fix s !! f = Some (pre ++ x :: post) -> i = zlen pre ->
  sreturns (AFixArrayItem f i) s (fun y s' => y = x /\ s' = s).
Proof. intros Hl ->. eapply AFixArrayItem_spec; [exact Hl|lia|]. rewrite Nat2Z.id. by apply list_lookup_middle. Qed.

(** ** Loops that fill a block *)

(** A loop whose round [i] puts the item [g i] into cell [base + i]. *)
Lemma fill_loop f pre body (g : nat -> Item) n i base s mid post :
  length mid = n -> o_fix s !! f = Some (pre ++ mid ++ post) -> base + i = zlen pre ->
  (forall j pre' c post' s', (j < n)%nat -> pre' = pre ++ (g <$> seq 0 j) -> length pre' = (length pre + j)%nat ->
     o_fix s' !! f = Some (pre' ++ c :: post') -> (exists l, s' = set_fix f l s) ->
     sreturns (body (i + Z.of_nat j)) s' (fun _ s'' => s'' = set_fix f (pre' ++ g j :: post') s')) ->
  sreturns (sfor n i body) s (fun _ s' => s' = set_fix f (pre ++ (g <$> seq 0 n) ++ post) s).
Proof.
  intros Hm Hf Hi Hb.
  assert (H : forall k j pre' mid' s', (j + k = n)%nat -> pre' = pre ++ (g <$> seq 0 j) -> length pre' = (length pre + j)%nat -> length mid' = k ->
    o_fix s' !! f = Some (pre' ++ mid' ++ post) -> (exists l, s' = set_fix f l s) ->
    sreturns (sfor k (i + Z.of_nat j) body) s' (fun _ s'' => s'' = set_fix f (pre' ++ (g <$> seq j k) ++ post) s')).
  { induction k as [|k IH]; intros j pre' mid' s' Hj He' Hp Hl Hf' He; cbn [sfor].
    - apply nil_length_inv in Hl as ->. apply sreturns_ret. symmetry. by apply set_fix_id.
    - destruct mid' as [|c mid']; [done|]. injection Hl as Hl. cbn [app] in Hf'. eapply sreturns_bind.
      { apply (Hb j pre' c (mid' ++ post) s'); [lia|done..]. }
      intros _ ? ->. replace (i + Z.of_nat j + 1) with (i + Z.of_nat (S j)) by lia. eapply sreturns_mono.
      { apply (IH (S j) (pre' ++ [g j]) mid'); [lia|by rewrite He', seq_S, fmap_app, <- app_assoc|rewrite length_app; simpl; lia|done| |].
        - rewrite set_fix_fix. by rewrite <- app_assoc.
        - destruct He as [l ->]. eexists. by rewrite set_fix_twice. }
      intros _ ? ->. rewrite set_fix_twice. cbn [seq fmap list_fmap]. by rewrite <- app_assoc. }
  specialize (H n 0%nat pre mid s). rewrite Z.add_0_r in H. apply H; [lia|by rewrite app_nil_r|lia|done|done|]. eexists. by rewrite set_fix_id.
Qed.

Lemma fmap_const_seq (x : Item) n k : (fun _ => x) <$> seq k n = replicate n x.
Proof. revert k. induction n as [|n IH]; intros k; [done|]. simpl. f_equal. apply IH. Qed.

(** Items of a list by their indices. *)
Lemma fmap_lookup_seq (l : list Item) d : (fun i => default d (l !! i)) <$> seq 0 (length l) = l.
Proof.
  apply list_eq. intros i. rewrite list_lookup_fmap. destruct (decide (i < length l)%nat).
  - rewrite lookup_seq_lt by done. simpl. by destruct (lookup_lt_is_Some_2 l i ltac:(done)) as [x ->].
  - rewrite !lookup_ge_None_2; [done|lia|rewrite length_seq; lia].
Qed.

(** ** Blocks *)

Definition new_fix (l : list Item) (s : Objects) : Objects :=
  MkObjects (<[o_next s := l]> (o_fix s)) (o_arr s) (o_next s + 1)%N.

Lemma block_cells n : 0 <= n <= 2 ^ 59 -> AGetBlockSize (u64 (u64 (n + 1) * 8)) = 8 * (Z.max n 1 + 1).
Proof.
  intros Hn. rewrite (u64_small (n + 1)), u64_small by lia. unfold AGetBlockSize, A_MIN_BLOCK_SIZE, A_ALLOC_UNIT.
  destruct (Z.ltb_spec ((n + 1) * 8) 16); [lia|]. change (Z.lnot (8 - 1)) with (Z.lnot (Z.ones 3)).
  rewrite <- Z.ldiff_land, Z.ldiff_ones_r, Z.shiftr_div_pow2, Z.shiftl_mul_pow2 by lia. change (2 ^ 3) with 8. zsolve.
Qed.

Lemma fresh_items_length size junk n : size = 8 * (Z.max n 1 + 1) -> 0 <= n -> length (fresh_items size junk) = Z.to_nat (Z.max n 1).
Proof. intros -> Hn. unfold fresh_items. rewrite length_fmap, length_seq. f_equal. zsolve. Qed.

Lemma AMakeFixArray_spec n x s : 1 <= n <= 2 ^ 59 ->
  sreturns (AMakeFixArray n x) s (fun f s' => f = o_next s /\ s' = new_fix (replicate (Z.to_nat n) x) s).
Proof.
  intros Hn. unfold AMakeFixArray. cbv zeta. rewrite block_cells by lia.
  eapply sreturns_lift_bind with (P := fun _ => True); [apply AAlloc_spec|]. intros junk _.
  apply sreturns_get_bind, sreturns_modify_bind. set (cells := fresh_items _ junk).
  assert (Hc : length cells = Z.to_nat n) by (unfold cells; rewrite (fresh_items_length _ _ n); lia).
  eapply sreturns_bind.
  { eapply (fill_loop (o_next s) [] _ (fun _ => x) (Z.to_nat n) 0 0 _ cells []); [done| |done|].
    - rewrite app_nil_r. apply lookup_insert_eq.
    - intros j pre' c post' s' Hj _ Hp Hf' _. eapply put_at; [exact Hf'|]. simpl in Hp. lia. }
  intros _ ? ->. apply sreturns_ret. split; [done|]. rewrite fmap_const_seq, app_nil_r. unfold new_fix, set_fix. simpl. by rewrite insert_insert_eq.
Qed.

(** A new instance with its block. *)
Definition new_arr (n : Z) (cells : list Item) (s : Objects) : Objects :=
  MkObjects (<[(o_next s + 1)%N := cells]> (o_fix s))
    (<[o_next s := MkArrayObj (o_next s + 1)%N (AIntToValue n) (AIntToValue n)]> (o_arr s)) (o_next s + 1 + 1)%N.

Lemma AMakeUninitArray_spec n s : 0 <= n <= 2 ^ 58 ->
  sreturns (AMakeUninitArray_M n) s (fun a s' => a = o_next s /\ exists cells, length cells = Z.to_nat (Z.max n 1) /\ s' = new_arr n cells s).
Proof.
  intros Hn. unfold AMakeUninitArray_M. cbv zeta. rewrite block_cells by lia. unfold instanceSize. rewrite u64_small by lia.
  eapply sreturns_lift_bind with (P := fun _ => True); [apply AAlloc_spec|]. intros junk _.
  apply sreturns_get_bind, sreturns_modify_bind, sreturns_ret. split; [done|]. eexists. split; [|done].
  rewrite (fresh_items_length _ _ n); lia.
Qed.

Lemma new_arr_arr n cells s : o_arr (new_arr n cells s) !! o_next s = Some (MkArrayObj (o_next s + 1)%N (AIntToValue n) (AIntToValue n)).
Proof. apply lookup_insert_eq. Qed.

Lemma new_arr_fix n cells s : o_fix (new_arr n cells s) !! (o_next s + 1)%N = Some cells.
Proof. apply lookup_insert_eq. Qed.

Lemma new_arr_set n cells cells' s : set_fix (o_next s + 1)%N cells' (new_arr n cells s) = new_arr n cells' s.
Proof. unfold set_fix, new_arr. simpl. by rewrite insert_insert_eq. Qed.

(** A loop that fills a new array. *)
Lemma fill_new body (g : nat -> Item) n cells s : 0 <= n -> length cells = Z.to_nat (Z.max n 1) ->
  (forall j pre' c post' cells' s', (j < Z.to_nat n)%nat -> length pre' = j -> cells' = pre' ++ c :: post' -> s' = new_arr n cells' s ->
     sreturns (body (Z.of_nat j)) s' (fun _ s'' => s'' = new_arr n (pre' ++ g j :: post') s)) ->
  sreturns (sfor (Z.to_nat n) 0 body) (new_arr n cells s) (fun _ s' =>
    exists post, s' = new_arr n ((g <$> seq 0 (Z.to_nat n)) ++ post) s /\ length post = (Z.to_nat (Z.max n 1) - Z.to_nat n)%nat).
Proof.
  intros Hn Hc Hb. eapply sreturns_mono.
  { eapply (fill_loop (o_next s + 1)%N [] body g (Z.to_nat n) 0 0 _ (take (Z.to_nat n) cells) (drop (Z.to_nat n) cells)).
    - rewrite length_take. lia.
    - cbn [app]. rewrite take_drop. apply new_arr_fix.
    - done.
    - intros j pre' c post' s' Hj _ Hp Hf (l & ->). rewrite new_arr_set in *. rewrite new_arr_fix in Hf. injection Hf as ->.
      rewrite new_arr_set. eapply Hb; (done || lia). }
  intros _ ? ->. rewrite new_arr_set. eexists. split; [done|]. rewrite length_drop. lia.
Qed.

Lemma AMakeArrayND_spec n s : 0 <= n <= 2 ^ 58 ->
  sreturns (AMakeArrayND n) s (fun a s' => a = o_next s /\ exists post,
    length (replicate (Z.to_nat n) INil ++ post) = Z.to_nat (Z.max n 1) /\ s' = new_arr n (replicate (Z.to_nat n) INil ++ post) s).
Proof.
  intros Hn. unfold AMakeArrayND. eapply sreturns_bind; [by apply AMakeUninitArray_spec|]. intros ? ? (-> & cells & Hc & ->).
  eapply sreturns_bind.
  { eapply (fill_new _ (fun _ => INil) n cells s); [lia|done|]. intros j pre' c post' cells' s' Hj Hp -> ->.
    eapply sreturns_bind; [apply obj_spec, new_arr_arr|]. intros ? ? [-> ->]. cbn [A_ARRAY_A].
    eapply sreturns_mono; [eapply put_at; [apply new_arr_fix|lia]|]. intros _ ? ->. by rewrite new_arr_set. }
  intros _ ? (post & -> & Hp). apply sreturns_ret. split; [done|]. exists post. rewrite fmap_const_seq, length_app, length_replicate. split; [lia|done].
Qed.

(** A copy of a part of another block. *)
Lemma copy_cells_spec n dst di src si s pre mid post cs :
  o_fix s !! dst = Some (pre ++ mid ++ post) -> length mid = Z.to_nat n -> zlen pre = di -> dst <> src ->
  o_fix s !! src = Some cs -> 0 <= si -> si + n <= zlen cs ->
  sreturns (copy_items n dst di src si) s (fun _ s' =>
    s' = set_fix dst (pre ++ take (Z.to_nat n) (drop (Z.to_nat si) cs) ++ post) s).
Proof.
  intros Hd Hm Hp Hne Hsrc Hsi Hn. unfold copy_items.
  set (cut := take (Z.to_nat n) (drop (Z.to_nat si) cs)).
  assert (Hcut : 0 <= n -> length cut = Z.to_nat n) by (intros Hn0; unfold cut; rewrite length_take, length_drop; lia).
  destruct (Z.ltb_spec n 0) as [Hneg|Hn0].
  { assert (E : Z.to_nat n = O) by lia. unfold cut. rewrite E in Hm |- *. rewrite take_0. apply nil_length_inv in Hm as ->.
    apply sreturns_ret. symmetry. by apply set_fix_id. }
  specialize (Hcut Hn0). rewrite <- Hcut in Hm |- *.
  eapply sreturns_mono; [eapply (fill_loop dst pre _ (fun i => default INil (cut !! i)) (length cut) 0 di); [exact Hm|exact Hd|lia|]|].
  2:{ intros _ ? ->. by rewrite fmap_lookup_seq. }
  intros j pre' c post' s' Hj _ Hp' Hf' (x & ->). destruct (lookup_lt_is_Some_2 cut j Hj) as [y Hy]. rewrite Hy.
  eapply sreturns_bind.
  { eapply (AFixArrayItem_spec src cs); [by rewrite set_fix_other|lia|]. rewrite Z.add_0_l.
    unfold cut in Hy. rewrite lookup_take_lt, lookup_drop in Hy by lia. rewrite <- Hy. f_equal. lia. }
  intros ? ? [-> ->]. eapply put_at; [exact Hf'|lia].
Qed.

(** ** Updates of one array *)

(** An array with its block of [cells] and its capacity. *)
Record array_at (s : Objects) (a : N) (l : list Item) (o : ArrayObj) (rest : list Item) (cap : Z) : Prop := {
  aa_arr : o_arr s !! a = Some o;
  aa_fix : o_fix s !! A_ARRAY_A o = Some (l ++ rest);
  aa_len : A_ARRAY_LEN o = AIntToValue (zlen l);
  aa_cap : A_ARRAY_CAPACITY o = AIntToValue cap;
  aa_room : zlen l <= cap <= zlen l + zlen rest;
  aa_bound : cap <= 2 ^ 58
}.

Lemma array_intro s a l : store_ok s -> view s !! a = Some l -> exists o rest cap, array_at s a l o rest cap.
Proof.
  intros Hs Hl. destruct (view_inv s a l Hs Hl) as (o & cells & cap & H1 & H2 & H3 & H4 & H5 & H6 & H7 & H8).
  exists o, (drop (length l) cells), cap. split; try done; [by rewrite <- H8|].
  rewrite H8, length_app in H6. lia.
Qed.

Lemma array_len_word s a l o rest cap : array_at s a l o rest cap -> AValueToInt (A_ARRAY_LEN o) = zlen l.
Proof. intros []. rewrite aa_len0. apply word_int_nonneg. lia. Qed.

Lemma array_cap_word s a l o rest cap : array_at s a l o rest cap -> AValueToInt (A_ARRAY_CAPACITY o) = cap.
Proof. intros []. rewrite aa_cap0. apply word_int_nonneg. lia. Qed.

(** Another content of the same block. *)
Lemma update_own s a l o rest cap l' rest' : store_ok s -> array_at s a l o rest cap ->
  (length l' + length rest' = length l + length rest)%nat -> zlen l' <= cap ->
  let s' := set_arr a (MkArrayObj (A_ARRAY_A o) (AIntToValue (zlen l')) (A_ARRAY_CAPACITY o)) (set_fix (A_ARRAY_A o) (l' ++ rest') s) in
  store_ok s' /\ view s' = <[a := l']> (view s).
Proof.
  intros Hs [Ha Hf Hn Hc Hr Hb] Hlen Hl'. cbv zeta. eapply (store_update s _ a (MkArrayObj (A_ARRAY_A o) (AIntToValue (zlen l')) (A_ARRAY_CAPACITY o)) (l' ++ rest')); try done.
  - apply lookup_insert_eq.
  - intros f Hne _. right. simpl in Hne. by apply set_fix_other.
  - intros f x Hx. simpl. simpl in Hx. destruct (decide (f = A_ARRAY_A o)) as [->|Hne]; [by apply (so_fix_next _ Hs) in Hf|].
    rewrite lookup_insert_ne in Hx by done. by apply (so_fix_next _ Hs) in Hx.
  - simpl. by apply (so_arr_next _ Hs) in Ha.
  - right. by exists o.
  - exists (zlen l'), cap. simpl. rewrite length_app. split_and!; (done || lia).
  - unfold arr_len. simpl. rewrite word_int_nonneg, Nat2Z.id by lia. by rewrite take_app_length.
Qed.

(** A new array. *)
Lemma update_new s n l rest : store_ok s -> 0 <= n <= 2 ^ 58 -> zlen l = n ->
  let s' := new_arr n (l ++ rest) s in
  store_ok s' /\ view s' = <[o_next s := l]> (view s) /\ view s !! o_next s = None.
Proof.
  intros Hs Hn Hl. cbv zeta. assert (Hnone : view s !! o_next s = None).
  { unfold view. rewrite lookup_fmap. destruct (o_arr s !! o_next s) as [p|] eqn:E; [|done]. apply (so_arr_next _ Hs) in E. lia. }
  enough (store_ok (new_arr n (l ++ rest) s) /\ view (new_arr n (l ++ rest) s) = <[o_next s := l]> (view s)) by tauto.
  eapply (store_update s _ (o_next s) (MkArrayObj (o_next s + 1)%N (AIntToValue n) (AIntToValue n)) (l ++ rest)); try done.
  - apply new_arr_fix.
  - intros f Hne Hf. right. simpl. by rewrite lookup_insert_ne by (simpl in Hne; done).
  - intros f x Hx. simpl in *. destruct (decide (f = o_next s + 1)%N) as [->|Hne]; [lia|].
    rewrite lookup_insert_ne in Hx by done. apply (so_fix_next _ Hs) in Hx. lia.
  - simpl. lia.
  - simpl. lia.
  - left. simpl. lia.
  - exists n, n. simpl. rewrite length_app. split_and!; (done || lia).
  - unfold arr_len. simpl. rewrite word_int_nonneg by lia. rewrite <- Hl, Nat2Z.id. by rewrite take_app_length.
Qed.

(** ** The length and the items *)

Lemma AArrayLen_spec s a l o rest cap : array_at s a l o rest cap -> sreturns (AArrayLen a) s (fun n s' => n = zlen l /\ s' = s).
Proof.
  intros Ha. unfold AArrayLen. eapply sreturns_bind; [by apply obj_spec, Ha|]. intros ? ? [-> ->]. apply sreturns_ret. by rewrite (array_len_word _ _ _ _ _ _ Ha).
Qed.

Lemma AArrayCapacity_spec s a l o rest cap : array_at s a l o rest cap -> sreturns (AArrayCapacity a) s (fun n s' => n = cap /\ s' = s).
Proof.
  intros Ha. unfold AArrayCapacity. eapply sreturns_bind; [by apply obj_spec, Ha|]. intros ? ? [-> ->]. apply sreturns_ret. by rewrite (array_cap_word _ _ _ _ _ _ Ha).
Qed.

Lemma array_item s a l o rest cap i x : array_at s a l o rest cap -> l !! i = Some x ->
  sreturns (AFixArrayItem (A_ARRAY_A o) (Z.of_nat i)) s (fun y s' => y = x /\ s' = s).
Proof.
  intros Ha Hx. eapply AFixArrayItem_spec; [by apply Ha|lia|]. rewrite Nat2Z.id. rewrite lookup_app_l; [done|]. by apply lookup_lt_Some in Hx.
Qed.

Lemma AArrayItem_spec s a l o rest cap i x : array_at s a l o rest cap -> l !! i = Some x ->
  sreturns (AArrayItem a (Z.of_nat i)) s (fun y s' => y = x /\ s' = s).
Proof.
  intros Ha Hx. unfold AArrayItem. eapply sreturns_bind; [by apply obj_spec, Ha|]. intros ? ? [-> ->]. by eapply array_item.
Qed.

(** ** Growth *)

Definition grown (cap amount : Z) : Z := Z.max 4 (Z.max (cap * 2) (cap + amount)).

Lemma AResizeArray_spec s a l o rest cap amount : store_ok s -> array_at s a l o rest cap -> 0 <= amount -> cap + amount <= 2 ^ 57 ->
  sreturns (AResizeArray a amount) s (fun _ s' => store_ok s' /\ view s' = view s /\
    exists o' rest', array_at s' a l o' rest' (grown cap amount)).
Proof.
  intros Hs Ha Ham Hb. pose proof Ha as [Harr Hfix Hlen Hcap Hroom Hbound]. unfold AResizeArray.
  eapply sreturns_bind; [by eapply AArrayCapacity_spec|]. intros ? ? [-> ->].
  eapply sreturns_lift_bind with (P := fun _ => True); [apply AAllocTempStack_spec|]. intros _ _. cbv zeta. rewrite !s64_small by lia.
  replace (if Z.max (cap * 2) (cap + amount) <? 4 then 4 else Z.max (cap * 2) (cap + amount)) with (grown cap amount)
    by (unfold grown; destruct (Z.ltb_spec (Z.max (cap * 2) (cap + amount)) 4); lia).
  assert (Hg : Z.max 4 cap <= grown cap amount <= 2 ^ 58) by (unfold grown; lia).
  set (new := grown cap amount) in *. eapply sreturns_bind; [apply AMakeFixArray_spec; lia|]. intros ? ? [-> ->].
  eapply sreturns_bind; [apply obj_spec; exact Harr|]. intros ? ? [-> ->].
  pose proof (so_fix_next _ Hs _ _ Hfix) as Hlt.
  set (cells := l ++ rest) in *. assert (Hcl : cap <= zlen cells) by (unfold cells; rewrite length_app; lia).
  eapply sreturns_bind.
  { eapply (fill_loop (o_next s) [] _ (fun i => default INil (cells !! i)) (Z.to_nat cap) 0 0 _
      (replicate (Z.to_nat cap) INil) (replicate (Z.to_nat (new - cap)) INil)).
    - apply length_replicate.
    - cbn [app]. rewrite <- replicate_add. replace (Z.to_nat cap + Z.to_nat (new - cap))%nat with (Z.to_nat new) by lia. apply lookup_insert_eq.
    - done.
    - intros j pre' c post' s' Hj _ Hp Hf' (x & ->). destruct (lookup_lt_is_Some_2 cells j ltac:(lia)) as [y Hy].
      eapply sreturns_bind.
      { eapply (AFixArrayItem_spec (A_ARRAY_A o) cells); [|lia|].
        - rewrite set_fix_other by lia. simpl. by rewrite lookup_insert_ne by lia.
        - by rewrite Z.add_0_l, Nat2Z.id. }
      intros ? ? [-> ->]. rewrite Hy. eapply set_at; [exact Hf'|]. simpl in Hp. lia. }
  intros _ ? ->. cbn [app]. set (cells' := ((fun i => default INil (cells !! i)) <$> seq 0 (Z.to_nat cap)) ++ replicate (Z.to_nat (new - cap)) INil).
  assert (Hc' : cells' = l ++ drop (length l) cells').
  { unfold cells'. rewrite <- (take_drop (length l) ((fun i => default INil (cells !! i)) <$> seq 0 (Z.to_nat cap))) at 1.
    rewrite drop_app_le by (rewrite length_fmap, length_seq; lia). rewrite <- app_assoc. f_equal.
    apply list_eq. intros i. destruct (decide (i < length l)%nat) as [Hi|Hi].
    - rewrite lookup_take_lt, list_lookup_fmap, lookup_seq_lt by lia. simpl. unfold cells. rewrite lookup_app_l by done.
      by destruct (lookup_lt_is_Some_2 l i Hi) as [y ->].
    - rewrite !lookup_ge_None_2; [done|lia|]. rewrite length_take. lia. }
  assert (Htake : take (length l) cells' = l) by (rewrite Hc'; apply take_app_length).
  assert (Hlen' : zlen cells' = new) by (unfold cells'; rewrite length_app, length_fmap, length_seq, length_replicate; lia).
  eapply sreturns_bind; [apply obj_spec; exact Harr|]. intros ? ? [-> ->]. apply sreturns_modify_bind, sreturns_barrier.
  eapply sreturns_bind; [apply obj_spec, set_arr_arr|]. intros ? ? [-> ->]. apply sreturns_modify. rewrite set_arr_twice.
  cbn [A_ARRAY_A A_ARRAY_LEN A_ARRAY_CAPACITY]. set (o' := MkArrayObj (o_next s) (A_ARRAY_LEN o) (AIntToValue new)).
  set (s' := set_arr a o' _).
  assert (Hfix' : o_fix s' !! o_next s = Some cells') by apply lookup_insert_eq.
  assert (H : store_ok s' /\ view s' = <[a := l]> (view s)).
  { apply (store_update s s' a o' cells'); try done.
    - intros f Hne Hf. right. simpl in *. by rewrite !lookup_insert_ne by done.
    - intros f x Hx. simpl in *. destruct (decide (f = o_next s)) as [->|Hne]; [lia|]. rewrite !lookup_insert_ne in Hx by done.
      apply (so_fix_next _ Hs) in Hx. lia.
    - simpl. lia.
    - apply (so_arr_next _ Hs) in Harr. simpl. lia.
    - left. simpl. lia.
    - exists (zlen l), new. simpl. split_and!; (done || lia).
    - unfold arr_len. simpl. by rewrite Hlen, word_int_nonneg, Nat2Z.id by lia. }
  destruct H as [Hok Hv]. split; [done|]. split.
  - rewrite Hv. apply insert_id. apply view_lookup. exists o. split; [done|]. unfold items_of, arr_len.
    rewrite Hlen, word_int_nonneg, Nat2Z.id, Hfix by lia. simpl. unfold cells. by rewrite take_app_length.
  - exists o', (drop (length l) cells'). split; try done.
    + apply lookup_insert_eq.
    + rewrite <- Hc'. exact Hfix'.
    + rewrite length_drop. lia.
    + lia.
Qed.
