(* ===== verification/ArrayOps.v ===== *)
(** * ArrayOps: the operations of Array on lists

    What the methods of Array do to the list that an array stands for, for every
    store of arrays: the other arrays keep their items, and an array may be the
    argument of its own method. *)

From stdpp Require Import gmap.
From S2P Require Import Prelude Runtime Digits Value LongInt IntConv StrOps ArrayObj ArraySpec.

Open Scope Z_scope.

(** Room for [need] more items. *)
Lemma make_room s a l o rest cap (c : bool) amount need : store_ok s -> array_at s a l o rest cap ->
  0 <= amount -> (c = true -> cap + amount <= 2 ^ 57 /\ zlen l + need <= grown cap amount) -> (c = false -> zlen l + need <= cap) ->
  sreturns (if c then AResizeArray a amount else mret tt) s (fun _ s' => store_ok s' /\ view s' = view s /\
    exists o' rest' cap', array_at s' a l o' rest' cap' /\ zlen l + need <= cap').
Proof.
  intros Hs Ha Ham Ht Hf. destruct c.
  - destruct (Ht eq_refl). eapply sreturns_mono; [by eapply AResizeArray_spec|]. intros _ s' (H1 & H2 & o' & rest' & H3). by eauto 10.
  - apply sreturns_ret. specialize (Hf eq_refl). by eauto 10.
Qed.

Lemma len_is_cap s a l o rest cap : array_at s a l o rest cap -> (A_ARRAY_LEN o =? A_ARRAY_CAPACITY o) = (zlen l =? cap).
Proof.
  intros [_ _ Hlen Hcap Hroom Hbound]. rewrite Hlen, Hcap, !word_eq by lia. destruct (Z.eqb_spec (zlen l) cap), (Z.eqb_spec (4 * zlen l) (4 * cap)); lia.
Qed.

Lemma word_succ n : 0 <= n < 2 ^ 58 -> u64 (AIntToValue n + AIntToValue 1) = AIntToValue (n + 1).
Proof. intros Hn. rewrite !word_eq by lia. rewrite u64_small; lia. Qed.

Lemma word_minus n m : 0 <= m <= n -> n <= 2 ^ 58 -> u64 (AIntToValue n - AIntToValue m) = AIntToValue (n - m).
Proof. intros Hm Hn. rewrite !word_eq by lia. rewrite u64_small; lia. Qed.

(** The rest behind the items, if there is room. *)
Lemma room_cons (rest : list Item) n : 0 < n -> n <= zlen rest -> exists c rest', rest = c :: rest'.
Proof. intros Hn Hl. destruct rest as [|c rest']; [simpl in Hl; lia|]. by eauto. Qed.

Lemma sreturns_len a w w' o s Q : o_arr s !! a = Some o -> w = w' ->
  Q tt (set_arr a (MkArrayObj (A_ARRAY_A o) w' (A_ARRAY_CAPACITY o)) s) -> sreturns (set_len a w) s Q.
Proof. intros Ho -> HQ. eapply sreturns_mono; [by apply set_len_spec|]. by intros [] ? ->. Qed.

Lemma sspec_raised {A} e (s : Objects) (Q : outcome A -> Objects -> Prop) : Q (Raise e) s -> sspec (lift (raise e)) s Q.
Proof. intros HQ t. split; [done|]. by left. Qed.

Lemma sspec_stop {A B} (m : SM Objects A) (f : A -> SM Objects B) s P Q :
  sspec m s P -> (forall r s', P r s' -> match r with Ok _ => False | Raise e => Q (Raise e) s' | Fault => Q Fault s' end) ->
  sspec (m ≫= f) s Q.
Proof.
  intros Hm HQ t. destruct (Hm t) as [Hh Hr]. unfold mbind, SM_bind. destruct (m s t) as [[[x|e|] s'] t']; simpl in *.
  - destruct Hr as [Hr|[? _]]; [by apply HQ in Hr|done].
  - split; [done|]. destruct Hr as [Hr|[[= ->] Hs]]; [left; by apply HQ in Hr|right; by split].
  - split; [done|]. destruct Hr as [Hr|[? _]]; [left; by apply HQ in Hr|done].
Qed.

Lemma set_arr_id a o s : o_arr s !! a = Some o -> set_arr a o s = s.
Proof. intros Ho. unfold set_arr. rewrite insert_id by done. by destruct s. Qed.

Lemma short_bound z : short_range z -> - 2 ^ 61 <= z < 2 ^ 61.
Proof. unfold short_range, A_SHORT_INT_MIN, A_SHORT_INT_MAX. lia. Qed.

Lemma int_arg z s : short_range z -> sreturns (AGetInt_ssize_t (int_item z)) s (fun i s' => i = z /\ s' = s).
Proof.
  intros Hz. pose proof (AGetInt64_spec (VInt (AIntToValue z)) z ltac:(by split)) as H. apply short_bound in Hz as Hb.
  assert ((- H64 <=? z) && (z <? H64) = true) as E by (apply andb_true_intro; split; [apply Z.leb_le|apply Z.ltb_lt]; lia).
  rewrite E in H. eapply sreturns_mono; [apply (sreturns_lift _ _ (fun i => i = z)); eapply spec_mono; [exact H|]; by intros ? ->|].
  by intros ? ? [-> ->].
Qed.

(** The items of [n] copies of a list. *)
Lemma cyclic_items (l : list Item) d n :
  (fun i => default d (l !! (i mod length l)%nat)) <$> seq 0 (n * length l) = concat (replicate n l).
Proof.
  induction n as [|n IH]; [done|]. cbn [Nat.mul replicate concat]. rewrite seq_app, fmap_app. f_equal.
  - transitivity ((fun i => default d (l !! i)) <$> seq 0 (length l)); [|apply fmap_lookup_seq]. apply list_fmap_ext. intros k i Hk. apply lookup_seq in Hk as [-> Hk].
    by rewrite Nat.mod_small.
  - rewrite <- IH. cbn [Nat.add]. destruct (decide (length l = 0%nat)) as [E|E]; [by rewrite E, Nat.mul_0_r|].
    replace (seq (length l) (n * length l)) with (Nat.add (length l) <$> seq 0 (n * length l)) by (by rewrite fmap_add_seq, Nat.add_0_r).
    rewrite <- list_fmap_compose. apply list_fmap_ext. intros k i _. cbn.
    replace (length l + i)%nat with (i + 1 * length l)%nat by lia. by rewrite Nat.Div0.mod_add.
Qed.

Lemma sreturns_ext {A} (m m' : SM Objects A) s Q : (forall t, m s t = m' s t) -> sreturns m' s Q -> sreturns m s Q.
Proof. intros He H t. rewrite He. apply H. Qed.

Lemma repeat_as_loop a cat len n i s : 0 < len -> 0 <= i -> forall t,
  repeat_items a cat len n i (i mod len) s t =
  sfor n i (fun i => x ← AArrayItem a (i mod len); ASetArrayItem cat i x) s t.
Proof.
  intros Hlen. revert i s. induction n as [|n IH]; intros i s Hi t; [done|]. cbn [repeat_items sfor].
  replace (if i mod len + 1 =? len then 0 else i mod len + 1) with ((i + 1) mod len).
  - unfold mbind, SM_bind. destruct (AArrayItem a (i mod len) s t) as [[[x|e|] s1] t1]; [|done..].
    destruct (ASetArrayItem cat i x s1 t1) as [[[u|e|] s2] t2]; [|done..]. apply IH. lia.
  - pose proof (Z.mod_pos_bound i len Hlen). destruct (Z.eqb_spec (i mod len + 1) len) as [E|E].
    + rewrite <- (Z.add_mod_idemp_l i 1 len) by lia. rewrite E. apply Z.mod_same. lia.
    + rewrite <- (Z.add_mod_idemp_l i 1 len) by lia. apply Z.mod_small. lia.
Qed.

(** ** Moving items *)

Lemma shift_right_spec f (mid : list Item) : forall pre y post i s,
  o_fix s !! f = Some (pre ++ mid ++ y :: post) -> i = zlen pre ->
  sreturns (shift_right f (length mid) i) s (fun _ s' => exists z, s' = set_fix f (pre ++ z :: mid ++ post) s).
Proof.
  induction mid as [|x mid IH] using rev_ind; intros pre y post i s Hf ->; cbn [length shift_right].
  - apply sreturns_ret. exists y. symmetry. by apply set_fix_id.
  - rewrite length_app. cbn [length]. rewrite Nat.add_1_r. cbn [shift_right]. cbv zeta.
    rewrite <- app_assoc in Hf. cbn [app] in Hf. rewrite app_assoc in Hf.
    eapply sreturns_bind; [eapply cell_at; [exact Hf|rewrite length_app; lia]|]. intros ? ? [-> ->].
    change (x :: y :: post) with ([x] ++ y :: post) in Hf. rewrite app_assoc in Hf.
    eapply sreturns_bind; [eapply set_at; [exact Hf|rewrite !length_app; cbn [length]; lia]|]. intros _ ? ->.
    rewrite <- !app_assoc. cbn [app]. eapply sreturns_mono; [eapply (IH pre x (x :: post) (zlen pre)); [by rewrite set_fix_fix|done]|].
    intros _ ? (z & ->). exists z. by rewrite set_fix_twice.
Qed.

(** Moving items to the left, over the first of them. *)
Lemma shift_left_spec f (mid : list Item) : forall pre x post i s,
  o_fix s !! f = Some (pre ++ x :: mid ++ post) -> i = zlen pre ->
  sreturns (sfor (length mid) i (fun j => y ← AFixArrayItem f (j + 1); ASetFixArrayItem f j y)) s (fun _ s' =>
    exists z, s' = set_fix f (pre ++ mid ++ z :: post) s).
Proof.
  induction mid as [|y mid IH]; intros pre x post i s Hf ->; cbn [length sfor].
  - apply sreturns_ret. exists x. symmetry. by apply set_fix_id.
  - assert (Hf' : o_fix s !! f = Some ((pre ++ [x]) ++ y :: mid ++ post)) by (by rewrite <- app_assoc).
    eapply sreturns_bind.
    { eapply sreturns_bind; [eapply cell_at; [exact Hf'|rewrite length_app; cbn [length]; lia]|]. intros ? ? [-> ->].
      eapply set_at; [exact Hf|done]. }
    intros _ ? ->. eapply sreturns_mono.
    { eapply (IH (pre ++ [y]) y post); [rewrite set_fix_fix, <- app_assoc; done|rewrite length_app; cbn [length]; lia]. }
    intros _ ? (z & ->). exists z. by rewrite set_fix_twice, <- app_assoc.
Qed.

Section methods.
Context `{!ItemOps} (s : Objects) (a : N) (l : list Item).
Hypothesis (Hs : store_ok s) (Hl : view s !! a = Some l).
#[local] Set Default Proof Using "Type Hs Hl".

(** The array becomes [l']. *)
Local Abbreviation becomes l' := (fun _ s' => store_ok s' /\ view s' = <[a := l']> (view s)).

Lemma AArrayAppend_spec x : zlen l < 2 ^ 56 -> sreturns (AArrayAppend a x) s (becomes (l ++ [x])).
Proof.
  intros Hb. destruct (array_intro s a l Hs Hl) as (o & rest & cap & Ha). unfold AArrayAppend. cbv zeta.
  eapply sreturns_bind; [apply obj_spec, Ha|]. intros ? ? [-> ->]. rewrite (len_is_cap _ _ _ _ _ _ Ha). eapply sreturns_bind.
  { eapply (make_room s a l o rest cap (zlen l =? cap) 0 1 Hs Ha); [done|..].
    - intros Heq%Z.eqb_eq. unfold grown. lia.
    - intros ?%Z.eqb_neq. destruct Ha. lia. }
  intros _ s1 (Hs1 & Hv1 & o1 & rest1 & cap1 & Ha1 & Hroom). destruct (aa_room _ _ _ _ _ _ Ha1) as [_ Hr1].
  destruct (room_cons rest1 1 ltac:(lia) ltac:(lia)) as (c & rest2 & ->).
  eapply sreturns_bind; [apply obj_spec, Ha1|]. intros ? ? [-> ->]. rewrite (array_len_word _ _ _ _ _ _ Ha).
  eapply sreturns_bind; [eapply set_at; [apply Ha1|done]|]. intros _ ? ->.
  eapply sreturns_len; [apply Ha1|rewrite (aa_len _ _ _ _ _ _ Ha); apply word_succ; lia|].
  replace (zlen l + 1) with (zlen (l ++ [x])) by (rewrite length_app; cbn [length]; lia).
  destruct (update_own s1 a l o1 (c :: rest2) cap1 (l ++ [x]) rest2 Hs1 Ha1) as [H1 H2].
  { rewrite length_app. simpl. lia. } { rewrite length_app. simpl. lia. }
  rewrite <- Hv1, <- app_assoc in *. by split.
Qed.

(** ** Indices *)

(** The position that an index stands for. *)
Definition position (n z : Z) : Z := if z <? 0 then n + z else z.

Lemma index_word_spec z : zlen l <= 2 ^ 58 -> short_range z ->
  sspec (index_word a (AIntToValue z)) s (fun r s' => s' = s /\
    if (0 <=? position (zlen l) z) && (position (zlen l) z <? zlen l) then r = Ok (AIntToValue (position (zlen l) z)) else r = Raise EIndexError).
Proof.
  intros Hb Hz. destruct (array_intro s a l Hs Hl) as (o & rest & cap & Ha). unfold index_word. cbv zeta.
  eapply sspec_bind; [apply obj_spec, Ha|]. intros ? ? [-> ->]. rewrite (aa_len _ _ _ _ _ _ Ha).
  unfold position, ANormIndexV. rewrite s64_tag by done. rewrite !(word_eq (zlen l)) by lia.
  unfold short_range, A_SHORT_INT_MIN, A_SHORT_INT_MAX in Hz. rewrite AIntToValue_eq.
  destruct (Z.ltb_spec z 0) as [Hneg|Hpos].
  - assert (Hw : (4 * z) mod W64 = 4 * z + W64) by (rewrite <- (Z.mod_add _ 1) by lia; apply Z.mod_small; lia).
    rewrite Hw. test (4 * zlen l <=? 4 * z + W64) true. test (4 * z <? 0) true.
    destruct (Z.leb_spec 0 (zlen l + z)) as [Hi|Hi]; cbn [andb].
    + replace (u64 (4 * zlen l + (4 * z + W64))) with (4 * (zlen l + z)) by (unfold u64; rewrite <- (Z.mod_add _ (-1)) by lia; rewrite Z.mod_small; lia).
      test (4 * zlen l <=? 4 * (zlen l + z)) false. test (zlen l + z <? zlen l) true. apply sspec_ret. split; [done|]. f_equal. symmetry. apply word_eq. lia.
    + replace (u64 (4 * zlen l + (4 * z + W64))) with (4 * (zlen l + z) + W64) by (unfold u64; rewrite Z.mod_small; lia).
      test (4 * zlen l <=? 4 * (zlen l + z) + W64) true. by apply sspec_raised.
  - rewrite Z.mod_small by lia. test (0 <=? z) true. cbn [andb]. test (4 * z <? 0) false. destruct (Z.ltb_spec z (zlen l)).
    + test (4 * zlen l <=? 4 * z) false. apply sspec_ret. split; [done|]. f_equal. symmetry. apply word_eq. lia.
    + test (4 * zlen l <=? 4 * z) true. by apply sspec_raised.
Qed.
(** The item at an index. *)
Definition item_at_index (z : Z) : option Item :=
  if (0 <=? position (zlen l) z) && (position (zlen l) z <? zlen l) then l !! Z.to_nat (position (zlen l) z) else None.

Definition found (x : option Item) : outcome Item := match x with Some x => Ok x | None => Raise EIndexError end.

Lemma get_at_word z : zlen l <= 2 ^ 58 -> short_range z ->
  sspec (w ← index_word a (AIntToValue z); o ← obj a; AFixArrayItem (A_ARRAY_A o) (AValueToInt w)) s
    (fun r s' => s' = s /\ r = found (item_at_index z)).
Proof.
  intros Hb Hz. destruct (array_intro s a l Hs Hl) as (o & rest & cap & Ha). pose proof (index_word_spec z Hb Hz) as Hi. unfold item_at_index.
  destruct (_ && _) eqn:E.
  - apply andb_prop in E as [E1%Z.leb_le E2%Z.ltb_lt]. set (p := position (zlen l) z) in *.
    eapply (sspec_bind _ _ _ (fun w s' => w = AIntToValue p /\ s' = s)).
    { eapply sspec_mono; [exact Hi|]. by intros r s' [-> ->]. }
    intros ? ? [-> ->]. eapply sspec_bind; [apply obj_spec, Ha|]. intros ? ? [-> ->]. rewrite word_int_nonneg by lia.
    destruct (lookup_lt_is_Some_2 l (Z.to_nat p) ltac:(lia)) as [x Hx]. rewrite Hx.
    eapply sspec_mono; [replace p with (Z.of_nat (Z.to_nat p)) by lia; by eapply array_item|]. by intros [y| |] s'; try done; intros [-> ->].
  - eapply sspec_stop; [exact Hi|]. intros [w|e|] s' [-> Hr]; by simplify_eq.
Qed.

Lemma AArray_get_spec z : zlen l <= 2 ^ 58 -> short_range z ->
  sspec (AArray_get a (int_item z)) s (fun r s' => s' = s /\ r = found (item_at_index z)).
Proof. apply get_at_word. Qed.

Lemma ATuple_get_spec z : zlen l <= 2 ^ 58 -> short_range z ->
  sspec (ATuple_get a (int_item z)) s (fun r s' => s' = s /\ r = found (item_at_index z)).
Proof. apply get_at_word. Qed.

(** A change that an index error prevents. *)
Definition changed {B} (r : outcome B) (l' : list Item) (ok : bool) (b : B) (s' : Objects) : Prop :=
  if ok then r = Ok b /\ store_ok s' /\ view s' = <[a := l']> (view s) else r = Raise EIndexError /\ s' = s.

Lemma AArray_set_spec z x : zlen l <= 2 ^ 58 -> short_range z -> let p := position (zlen l) z in
  sspec (AArray_set a (int_item z) x) s (fun r s' => changed r (<[Z.to_nat p := x]> l) ((0 <=? p) && (p <? zlen l)) tt s').
Proof.
  intros Hb Hz p. destruct (array_intro s a l Hs Hl) as (o & rest & cap & Ha). pose proof (index_word_spec z Hb Hz) as Hi.
  unfold AArray_set, int_item, changed. fold p in Hi. destruct (_ && _) eqn:E.
  - apply andb_prop in E as [E1%Z.leb_le E2%Z.ltb_lt].
    eapply (sspec_bind _ _ _ (fun w s' => w = AIntToValue p /\ s' = s)).
    { eapply sspec_mono; [exact Hi|]. by intros r s' [-> ->]. }
    intros ? ? [-> ->]. eapply sspec_bind; [apply obj_spec, Ha|]. intros ? ? [-> ->]. rewrite word_int_nonneg by lia.
    eapply sspec_mono; [apply ASetFixArrayItem_spec; [apply Ha|rewrite length_app; lia]|]. intros [[]| |] s'; try done. intros ->. split; [done|].
    destruct (update_own s a l o rest cap (<[Z.to_nat p := x]> l) rest Hs Ha) as [H1 H2]; [by rewrite length_insert|rewrite length_insert; apply Ha|].
    rewrite length_insert, <- (aa_len _ _ _ _ _ _ Ha) in H1, H2. rewrite insert_app_l by lia.
    destruct o as [f n c]. cbn [A_ARRAY_A A_ARRAY_LEN A_ARRAY_CAPACITY] in *. rewrite set_arr_id in H1, H2 by apply Ha. by split.
  - eapply sspec_stop; [exact Hi|]. intros [w|e|] s' [-> Hr]; by simplify_eq.
Qed.
(** ** Insertion and removal *)

(** The list with [x] in front of position [p]. *)
Definition inserted (p : nat) (x : Item) : list Item := take p l ++ x :: drop p l.
Definition removed (p : nat) : list Item := take p l ++ drop (S p) l.

Lemma norm_position z : short_range z -> zlen l <= 2 ^ 58 -> ANormIndex z (zlen l) = position (zlen l) z.
Proof using.
  clear Hs Hl. intros Hz Hb. apply short_bound in Hz. unfold ANormIndex, position. destruct (z <? 0); [|done]. apply s64_small. lia.
Qed.

Lemma AArrayInsertAt_spec z x : zlen l < 2 ^ 56 -> short_range z -> let p := position (zlen l) z in
  sspec (AArrayInsertAt a (int_item z) x) s (fun r s' => changed r (inserted (Z.to_nat p) x) ((0 <=? p) && (p <=? zlen l)) tt s').
Proof.
  intros Hb Hz p. destruct (array_intro s a l Hs Hl) as (o & rest & cap & Ha). unfold AArrayInsertAt, changed.
  eapply sspec_bind; [by apply int_arg|]. intros ? ? [-> ->]. eapply sspec_bind; [apply obj_spec, Ha|]. intros ? ? [-> ->].
  cbv zeta. rewrite (array_len_word _ _ _ _ _ _ Ha), norm_position by (done || lia). fold p.
  replace (if (z <? 0) || (zlen l <? z) then p else z) with p by (unfold p, position; destruct (z <? 0), (zlen l <? z); done).
  destruct (Z.leb_spec 0 p), (Z.leb_spec p (zlen l)); cbn [andb].
  2-4: (replace ((p <? 0) || (zlen l <? p)) with true by (symmetry; apply orb_true_iff; rewrite !Z.ltb_lt; lia)); by apply sspec_raised.
  replace ((p <? 0) || (zlen l <? p)) with false by (symmetry; apply orb_false_iff; rewrite !Z.ltb_ge; lia).
  eapply sspec_bind; [by eapply AArrayCapacity_spec|]. intros ? ? [-> ->]. eapply sspec_bind.
  { eapply (make_room s a l o rest cap (zlen l =? cap) 0 1 Hs Ha); [done|..].
    - intros Heq%Z.eqb_eq. unfold grown. lia.
    - intros ?%Z.eqb_neq. destruct Ha. lia. }
  intros _ s1 (Hs1 & Hv1 & o1 & rest1 & cap1 & Ha1 & Hroom). destruct (aa_room _ _ _ _ _ _ Ha1) as [_ Hr1].
  destruct (room_cons rest1 1 ltac:(lia) ltac:(lia)) as (c & rest2 & ->).
  eapply sspec_bind; [apply obj_spec, Ha1|]. intros ? ? [-> ->].
  set (k := Z.to_nat p). assert (Hcut : l ++ c :: rest2 = take k l ++ drop k l ++ c :: rest2) by (by rewrite app_assoc, take_drop).
  assert (Hk : zlen (take k l) = p) by (rewrite length_take; lia).
  eapply sspec_bind.
  { replace (Z.to_nat (zlen l - p)) with (length (drop k l)) by (rewrite length_drop; lia).
    eapply (shift_right_spec (A_ARRAY_A o1) (drop k l) (take k l) c rest2 p); [rewrite <- Hcut; apply Ha1|done]. }
  intros _ ? (w & ->). eapply sspec_bind; [eapply set_at; [apply set_fix_fix|done]|]. intros _ ? ->. rewrite set_fix_twice.
  eapply sspec_bind; [apply obj_spec, Ha1|]. intros ? ? [-> ->].
  eapply sspec_mono; [eapply sreturns_len with (Q := fun _ s' => store_ok s' /\ view s' = <[a := inserted k x]> (view s)); [apply Ha1|rewrite (aa_len _ _ _ _ _ _ Ha1); apply word_succ; lia|]|].
  - destruct (update_own s1 a l o1 (c :: rest2) cap1 (inserted k x) rest2 Hs1 Ha1) as [U1 U2].
    { unfold inserted. rewrite length_app. cbn [length]. rewrite length_take, length_drop. lia. }
    { unfold inserted. rewrite length_app. cbn [length]. rewrite length_take, length_drop. lia. }
    assert (Hn : zlen (inserted k x) = zlen l + 1) by (unfold inserted; rewrite length_app; cbn [length]; rewrite length_take, length_drop; lia).
    rewrite Hn, Hv1 in *. unfold inserted in U1, U2. rewrite <- app_assoc in U1, U2. by split.
  - by intros [[]| |] s'; try done; intros [? ?].
Qed.

Lemma AArrayRemoveAt_spec z : zlen l <= 2 ^ 58 -> short_range z -> let p := position (zlen l) z in
  sspec (AArrayRemoveAt a (int_item z)) s (fun r s' =>
    if (0 <=? p) && (p <? zlen l) then exists x, l !! Z.to_nat p = Some x /\ changed r (removed (Z.to_nat p)) true x s'
    else r = Raise EIndexError /\ s' = s).
Proof.
  intros Hb Hz p. destruct (array_intro s a l Hs Hl) as (o & rest & cap & Ha). unfold AArrayRemoveAt, changed.
  eapply sspec_bind; [by apply int_arg|]. intros ? ? [-> ->]. eapply sspec_bind; [apply obj_spec, Ha|]. intros ? ? [-> ->].
  cbv zeta. rewrite (array_len_word _ _ _ _ _ _ Ha), norm_position by (done || lia). fold p.
  replace (if (zlen l <=? z) || (z <? 0) then p else z) with p by (unfold p, position; destruct (z <? 0), (zlen l <=? z); done).
  destruct (Z.leb_spec 0 p), (Z.ltb_spec p (zlen l)); cbn [andb].
  2-4: (replace ((zlen l <=? p) || (p <? 0)) with true by (symmetry; apply orb_true_iff; rewrite Z.ltb_lt, Z.leb_le; lia)); by apply sspec_raised.
  replace ((zlen l <=? p) || (p <? 0)) with false by (symmetry; apply orb_false_iff; rewrite Z.ltb_ge, Z.leb_gt; lia).
  set (k := Z.to_nat p). destruct (lookup_lt_is_Some_2 l k ltac:(lia)) as [x Hx].
  assert (Hk : zlen (take k l) = p) by (rewrite length_take; lia).
  assert (Hcut : l ++ rest = take k l ++ x :: drop (S k) l ++ rest).
  { rewrite <- (take_drop_middle l k x Hx) at 1. by rewrite <- app_assoc. }
  pose proof (aa_fix _ _ _ _ _ _ Ha) as Hf. rewrite Hcut in Hf.
  eapply sspec_bind; [by eapply cell_at|]. intros ? ? [-> ->]. eapply sspec_bind.
  { replace (Z.to_nat (zlen l - 1 - p)) with (length (drop (S k) l)) by (rewrite length_drop; lia). by eapply (shift_left_spec _ (drop (S k) l) (take k l) x rest). }
  intros _ ? (w & ->). assert (Hr : zlen (removed k) = zlen l - 1) by (unfold removed; rewrite length_app, length_take, length_drop; lia).
  eapply sspec_bind; [eapply set_at; [rewrite set_fix_fix, app_assoc; done|unfold removed in Hr; by rewrite Hr]|]. intros _ ? ->. rewrite set_fix_twice.
  eapply sspec_bind; [apply obj_spec, Ha|]. intros ? ? [-> ->].
  eapply sspec_bind; [eapply sreturns_len with (Q := fun _ s' => store_ok s' /\ view s' = <[a := removed k]> (view s)); [apply Ha|rewrite (aa_len _ _ _ _ _ _ Ha); apply word_minus; lia|]|].
  - destruct (update_own s a l o rest cap (removed k) (IVal (VInt AZero) :: rest) Hs Ha) as [U1 U2]; [cbn [length]; lia|destruct Ha; lia|].
    rewrite Hr in U1, U2. by split.
  - intros _ s' [U1 U2]. apply sspec_ret. by exists x.
Qed.
(** ** New arrays *)

(** A new array that stands for [l']. *)
Definition creates (l' : list Item) (b : N) (s' : Objects) : Prop :=
  store_ok s' /\ view s !! b = None /\ view s' = <[b := l']> (view s).

(** The block of an array is older than a new one. *)
Lemma own_block o rest cap b l' ob rest' cap' : array_at s a l o rest cap -> array_at s b l' ob rest' cap' ->
  (A_ARRAY_A o < o_next s)%N /\ (A_ARRAY_A o = A_ARRAY_A ob <-> a = b).
Proof.
  intros Ha Hb. split; [eapply (so_fix_next _ Hs), Ha|]. split.
  - intros E. eapply (so_own _ Hs); [apply Ha|apply Hb|done].
  - intros <-. pose proof (aa_arr _ _ _ _ _ _ Ha) as H1. rewrite (aa_arr _ _ _ _ _ _ Hb) in H1. congruence.
Qed.

Lemma new_arr_old n cells f : (f < o_next s)%N -> o_fix (new_arr n cells s) !! f = o_fix s !! f.
Proof using. clear Hs Hl. intros Hf. simpl. apply lookup_insert_ne. lia. Qed.

Lemma new_arr_obj n cells b o : o_arr s !! b = Some o -> store_ok s -> o_arr (new_arr n cells s) !! b = Some o.
Proof using. clear Hs Hl. intros Ho Hs. simpl. rewrite lookup_insert_ne; [done|]. apply (so_arr_next _ Hs) in Ho. lia. Qed.

(** Copying [n] items of the array from [i] on into a new array. *)
Lemma copy_new o rest cap n i cells : array_at s a l o rest cap -> 0 <= i -> 0 <= n -> i + n <= zlen l -> length cells = Z.to_nat (Z.max n 1) ->
  sreturns (copy_items n (o_next s + 1)%N 0 (A_ARRAY_A o) i) (new_arr n cells s) (fun _ s' =>
    exists post, s' = new_arr n (take (Z.to_nat n) (drop (Z.to_nat i) l) ++ post) s).
Proof.
  intros Ha Hi Hn Hin Hc. pose proof (so_fix_next _ Hs _ _ (aa_fix _ _ _ _ _ _ Ha)) as Hlt. eapply sreturns_mono.
  { eapply (copy_cells_spec n (o_next s + 1)%N 0 (A_ARRAY_A o) i _ [] (take (Z.to_nat n) cells) (drop (Z.to_nat n) cells) (l ++ rest)).
    - cbn [app]. rewrite take_drop. apply new_arr_fix.
    - rewrite length_take. lia.
    - done.
    - lia.
    - rewrite new_arr_old by done. apply Ha.
    - done.
    - rewrite length_app. lia. }
  intros _ ? ->. cbn [app]. rewrite new_arr_set. rewrite drop_app_le, take_app_le by (rewrite ?length_drop; lia). by eexists.
Qed.

(** The bounds of a slice. *)
Definition slice_from (z : Z) : Z := if z <? 0 then Z.max 0 (zlen l + z) else z.
Definition slice_to (z : Z) : Z := if z <? 0 then zlen l + z else Z.min z (zlen l).
Definition sliced (lo hi : Z) : list Item := take (Z.to_nat (slice_to hi - slice_from lo)) (drop (Z.to_nat (slice_from lo)) l).

Lemma ASubArrayND_spec lo hi : zlen l <= 2 ^ 58 -> short_range lo -> short_range hi ->
  sreturns (ASubArrayND a lo hi) s (creates (sliced lo hi)).
Proof.
  intros Hb Hlo%short_bound Hhi%short_bound. destruct (array_intro s a l Hs Hl) as (o & rest & cap & Ha).
  unfold ASubArrayND. eapply sreturns_bind; [by eapply AArrayLen_spec|]. intros ? ? [-> ->]. cbv zeta.
  replace (if lo <? 0 then if s64 (zlen l + lo) <? 0 then 0 else s64 (zlen l + lo) else lo) with (slice_from lo)
    by (unfold slice_from; rewrite s64_small by lia; destruct (Z.ltb_spec lo 0); [destruct (Z.ltb_spec (zlen l + lo) 0)|]; lia).
  replace (if hi <? 0 then s64 (zlen l + hi) else if zlen l <? hi then zlen l else hi) with (slice_to hi)
    by (unfold slice_to; rewrite s64_small by lia; destruct (Z.ltb_spec hi 0); [done|]; destruct (Z.ltb_spec (zlen l) hi); lia).
  assert (Hr : 0 <= slice_from lo < 2 ^ 62 /\ - 2 ^ 62 < slice_to hi <= zlen l).
  { unfold slice_from, slice_to. destruct (Z.ltb_spec lo 0), (Z.ltb_spec hi 0); lia. }
  set (b := slice_from lo) in *. set (e := if slice_to hi <? b then b else slice_to hi).
  assert (He : b <= e < 2 ^ 62 /\ (e = b \/ e = slice_to hi) /\ e - b = Z.max 0 (slice_to hi - b)).
  { unfold e. destruct (Z.ltb_spec (slice_to hi) b); lia. }
  rewrite s64_small by lia. assert (Hn : 0 <= e - b <= zlen l) by lia.
  assert (Hsl : sliced lo hi = take (Z.to_nat (e - b)) (drop (Z.to_nat b) l)) by (unfold sliced; fold b; f_equal; lia). rewrite Hsl.
  eapply sreturns_bind; [apply AMakeArrayND_spec; lia|]. intros ? ? (-> & post & Hc & ->).
  eapply sreturns_bind; [apply obj_spec, new_arr_obj; [apply Ha|done]|]. intros ? ? [-> ->].
  eapply sreturns_bind; [apply obj_spec, new_arr_arr|]. intros ? ? [-> ->]. cbn [A_ARRAY_A].
  eapply (sreturns_bind _ _ _ (fun _ s' => exists post, s' = new_arr (e - b) (take (Z.to_nat (e - b)) (drop (Z.to_nat b) l) ++ post) s)).
  { destruct (decide (e - b = 0)) as [E|E]; [|eapply copy_new; [done|lia..|done]].
    rewrite E in *. unfold copy_items. apply sreturns_ret. by eexists. }
  intros _ ? (post' & ->). apply sreturns_ret.
  destruct (update_new s (e - b) (take (Z.to_nat (e - b)) (drop (Z.to_nat b) l)) post' Hs) as (U1 & U2 & U3); [lia| |by split].
  destruct (decide (e - b = 0)) as [E|E]; [by rewrite E|]. rewrite length_take, length_drop. lia.
Qed.

Lemma AArray_get_slice lo hi : zlen l <= 2 ^ 58 -> short_range lo -> short_range hi ->
  sreturns (AArray_get a (IPair (int_item lo) (int_item hi))) s (fun x s' => exists b, x = IArray b /\ creates (sliced lo hi) b s').
Proof.
  intros Hb Hlo Hhi. unfold AArray_get, int_item. eapply sreturns_bind; [by apply int_arg|]. intros ? ? [-> ->].
  eapply sreturns_bind; [by apply int_arg|]. intros ? ? [-> ->]. eapply sreturns_bind; [by apply ASubArrayND_spec|].
  intros b s' Hc. apply sreturns_ret. by exists b.
Qed.

Lemma AArrayCopy_spec : zlen l <= 2 ^ 58 -> sreturns (AArrayCopy a) s (creates l).
Proof.
  intros Hb. destruct (array_intro s a l Hs Hl) as (o & rest & cap & Ha). unfold AArrayCopy.
  eapply sreturns_bind; [by eapply AArrayLen_spec|]. intros ? ? [-> ->].
  eapply sreturns_bind; [apply AMakeArrayND_spec; lia|]. intros ? ? (-> & post & Hc & ->). eapply sreturns_bind.
  { eapply (fill_new _ (fun i => default INil (l !! i)) (zlen l) _ s); [lia|done|]. intros j pre' c post' cells' s' Hj Hp -> ->.
    destruct (lookup_lt_is_Some_2 l j ltac:(lia)) as [y Hy]. rewrite Hy. eapply sreturns_bind.
    { unfold AArrayItem. eapply sreturns_bind; [apply obj_spec, new_arr_obj; [apply Ha|done]|]. intros ? ? [-> ->].
      eapply (AFixArrayItem_spec _ (l ++ rest)); [|lia|rewrite Nat2Z.id, lookup_app_l by lia; exact Hy].
      rewrite new_arr_old by (eapply (so_fix_next _ Hs), Ha). apply Ha. }
    intros ? ? [-> ->]. eapply sreturns_bind; [apply obj_spec, new_arr_arr|]. intros ? ? [-> ->]. cbn [A_ARRAY_A].
    eapply sreturns_mono; [eapply put_at; [apply new_arr_fix|lia]|]. intros _ ? ->. by rewrite new_arr_set. }
  intros _ ? (post' & -> & _). rewrite Nat2Z.id, fmap_lookup_seq. apply sreturns_ret.
  destruct (update_new s (zlen l) l post' Hs) as (U1 & U2 & U3); [lia|done|by split].
Qed.

Lemma AConcatArrays_spec b l' : view s !! b = Some l' -> zlen l + zlen l' <= 2 ^ 58 -> sreturns (AConcatArrays a b) s (creates (l ++ l')).
Proof.
  intros Hl' Hb. destruct (array_intro s a l Hs Hl) as (o & rest & cap & Ha). destruct (array_intro s b l' Hs Hl') as (ob & rest' & cap' & Hab).
  unfold AConcatArrays. eapply sreturns_bind; [by eapply AArrayLen_spec|]. intros ? ? [-> ->].
  eapply sreturns_bind; [by eapply AArrayLen_spec|]. intros ? ? [-> ->]. rewrite s64_small by lia. set (n := zlen l + zlen l').
  eapply sreturns_bind; [apply AMakeArrayND_spec; lia|]. intros ? ? (-> & post & Hc & ->).
  eapply sreturns_bind; [apply obj_spec, new_arr_arr|]. intros ? ? [-> ->]. cbn [A_ARRAY_A].
  eapply sreturns_bind; [apply obj_spec, new_arr_obj; [apply Ha|done]|]. intros ? ? [-> ->].
  assert (Hrep : replicate (Z.to_nat n) INil = replicate (length l) INil ++ replicate (length l') INil) by (rewrite <- replicate_add; f_equal; lia).
  rewrite Hrep, <- app_assoc. eapply sreturns_bind.
  { eapply (copy_cells_spec (zlen l) (o_next s + 1)%N 0 (A_ARRAY_A o) 0 _ [] (replicate (length l) INil) (replicate (length l') INil ++ post) (l ++ rest)).
    - apply new_arr_fix.
    - rewrite length_replicate. lia.
    - done.
    - pose proof (so_fix_next _ Hs _ _ (aa_fix _ _ _ _ _ _ Ha)). lia.
    - rewrite new_arr_old by (eapply (so_fix_next _ Hs), Ha). apply Ha.
    - done.
    - rewrite length_app. lia. }
  intros _ ? ->. rewrite new_arr_set. change (Z.to_nat 0) with 0%nat. cbn [app]. rewrite Nat2Z.id, drop_0, take_app_length.
  eapply sreturns_bind; [apply obj_spec, new_arr_obj; [apply Hab|done]|]. intros ? ? [-> ->]. eapply sreturns_bind.
  { eapply (copy_cells_spec (zlen l') (o_next s + 1)%N (zlen l) (A_ARRAY_A ob) 0 _ l (replicate (length l') INil) post (l' ++ rest')).
    - apply new_arr_fix.
    - rewrite length_replicate. lia.
    - done.
    - pose proof (so_fix_next _ Hs _ _ (aa_fix _ _ _ _ _ _ Hab)). lia.
    - rewrite new_arr_old by (eapply (so_fix_next _ Hs), Hab). apply Hab.
    - done.
    - rewrite length_app. lia. }
  intros _ ? ->. rewrite new_arr_set. change (Z.to_nat 0) with 0%nat. cbn [app]. rewrite Nat2Z.id, drop_0, take_app_length. apply sreturns_ret. rewrite app_assoc.
  destruct (update_new s n (l ++ l') post Hs) as (U1 & U2 & U3); [lia|rewrite length_app; lia|by split].
Qed.
Lemma AArray_mul_spec z : short_range z -> zlen l * Z.max z 0 <= 2 ^ 58 -> zlen l <= 2 ^ 58 -> z <= 2 ^ 58 ->
  sspec (AArray_mul a (int_item z)) s (fun r s' =>
    if z <? 0 then r = Raise EValueError /\ s' = s else exists b, r = Ok b /\ creates (concat (replicate (Z.to_nat z) l)) b s').
Proof.
  intros Hz Hb Hll Hzb. destruct (array_intro s a l Hs Hl) as (o & rest & cap & Ha). unfold AArray_mul.
  eapply sspec_bind; [by eapply AArrayLen_spec|]. intros ? ? [-> ->]. eapply sspec_bind; [by apply int_arg|]. intros ? ? [-> ->].
  destruct (Z.ltb_spec z 0); [by apply sspec_raised|]. apply short_bound in Hz. rewrite Z.max_l in Hb by lia.
  assert (Hitem : forall n cells j y, l !! j = Some y -> sreturns (AArrayItem a (Z.of_nat j)) (new_arr n cells s) (fun y' s' => y' = y /\ s' = new_arr n cells s)).
  { intros n cells j y Hy. unfold AArrayItem. eapply sreturns_bind; [apply obj_spec, new_arr_obj; [apply Ha|done]|]. intros ? ? [-> ->].
    eapply (AFixArrayItem_spec _ (l ++ rest)); [|lia|rewrite Nat2Z.id, lookup_app_l; [exact Hy|by apply lookup_lt_Some in Hy]].
    rewrite new_arr_old by (eapply (so_fix_next _ Hs), Ha). apply Ha. }
  enough (Hmain : sreturns (if zlen l =? 1 then cat ← AMakeUninitArray_M z; init ← AArrayItem a 0;
      sfor (Z.to_nat z) 0 (fun i => ASetArrayItemNewGen cat i init) ≫= (fun _ => mret cat)
    else let len2 := s64 (zlen l * z) in cat ← AMakeArray len2; repeat_items a cat (zlen l) (Z.to_nat len2) 0 0 ≫= (fun _ => mret cat)) s
    (creates (concat (replicate (Z.to_nat z) l)))).
  { eapply sspec_mono; [exact Hmain|]. intros [b| |] s'; try done. by exists b. }
  destruct (Z.eqb_spec (zlen l) 1) as [E|E].
  - destruct l as [|y [|? ?]] eqn:El; simpl in E; try lia. rewrite <- El in *.
    eapply sreturns_bind; [apply AMakeUninitArray_spec; lia|]. intros ? ? (-> & cells & Hc & ->).
    eapply sreturns_bind; [apply (Hitem z cells 0%nat y); by rewrite El|]. intros ? ? [-> ->]. eapply sreturns_bind.
    { eapply (fill_new _ (fun _ => y) z _ s); [lia|done|]. intros j pre' c post' cells' s' Hj Hp -> ->.
      eapply sreturns_bind; [apply obj_spec, new_arr_arr|]. intros ? ? [-> ->]. cbn [A_ARRAY_A].
      eapply sreturns_mono; [eapply put_at; [apply new_arr_fix|lia]|]. intros _ ? ->. by rewrite new_arr_set. }
    intros _ ? (post' & -> & _). rewrite fmap_const_seq. apply sreturns_ret.
    replace (concat (replicate (Z.to_nat z) l)) with (replicate (Z.to_nat z) y).
    2:{ rewrite El. generalize (Z.to_nat z). intros n. induction n as [|n IH]; [done|]. cbn [replicate concat app]. by f_equal. }
    destruct (update_new s z (replicate (Z.to_nat z) y) post' Hs) as (U1 & U2 & U3); [lia|rewrite length_replicate; lia|by split].
  - cbv zeta. rewrite s64_small by lia. set (n := zlen l * z).
    eapply sreturns_bind; [apply AMakeArrayND_spec; lia|]. intros ? ? (-> & post & Hc & ->).
    eapply (sreturns_bind _ _ _ (fun _ s' => exists post, s' = new_arr n (concat (replicate (Z.to_nat z) l) ++ post) s)).
    { destruct (decide (l = [])) as [En|En].
      { assert (n = 0) as -> by (unfold n; rewrite En; cbn [length]; lia). apply sreturns_ret. exists post. do 2 f_equal.
        rewrite En. generalize (Z.to_nat z). intros k. by induction k. }
      assert (Hpos : 0 < zlen l) by (destruct l; [done|simpl; lia]).
      eapply sreturns_ext; [intros t; rewrite <- (Z.mod_0_l (zlen l)) at 2 by lia; apply repeat_as_loop; lia|]. eapply sreturns_mono.
      { eapply (fill_new _ (fun i => default INil (l !! (i mod length l)%nat)) n _ s); [lia|done|]. intros j pre' c post' cells' s' Hj Hp -> ->.
        destruct (lookup_lt_is_Some_2 l (j mod length l)%nat) as [y Hy]; [apply Nat.mod_upper_bound; lia|]. rewrite Hy. eapply sreturns_bind.
        { rewrite <- Nat2Z.inj_mod. by apply Hitem. }
        intros ? ? [-> ->]. unfold ASetArrayItem. eapply sreturns_bind; [apply obj_spec, new_arr_arr|]. intros ? ? [-> ->]. cbn [A_ARRAY_A].
        eapply sreturns_mono; [eapply set_at; [apply new_arr_fix|lia]|]. intros _ ? ->. by rewrite new_arr_set. }
      intros _ ? (post' & -> & _). exists post'. do 2 f_equal. rewrite <- (cyclic_items l INil). do 2 f_equal. lia. }
    intros _ ? (post' & ->). apply sreturns_ret.
    assert (Hlc : forall k, zlen (concat (replicate k l)) = zlen l * Z.of_nat k).
    { induction k as [|k IH]; cbn [replicate concat]; [simpl; lia|]. rewrite length_app. lia. }
    destruct (update_new s n (concat (replicate (Z.to_nat z) l)) post' Hs) as (U1 & U2 & U3); [lia|rewrite Hlc; lia|by split].
Qed.

(** ** Extension *)

Lemma AArrayExtend_spec b l' : view s !! b = Some l' -> zlen l + zlen l' < 2 ^ 56 ->
  sreturns (AArrayExtend a (IArray b)) s (becomes (l ++ l')).
Proof.
  intros Hl' Hb. destruct (array_intro s a l Hs Hl) as (o & rest & cap & Ha). destruct (array_intro s b l' Hs Hl') as (ob & restb & capb & Hab).
  pose proof (aa_room _ _ _ _ _ _ Ha) as Hroom0. pose proof (aa_bound _ _ _ _ _ _ Ha) as Hbound0.
  unfold AArrayExtend. eapply sreturns_bind; [by eapply AArrayLen_spec|]. intros ? ? [-> ->].
  eapply sreturns_bind; [by eapply AArrayCapacity_spec|]. intros ? ? [-> ->]. eapply sreturns_bind; [by eapply AArrayLen_spec|]. intros ? ? [-> ->].
  rewrite (s64_small (cap - zlen l)) by lia. eapply sreturns_bind.
  { eapply (make_room s a l o rest cap (cap - zlen l <? zlen l') (zlen l') (zlen l') Hs Ha); [lia|..].
    - intros ?%Z.ltb_lt. unfold grown. lia.
    - intros ?%Z.ltb_ge. lia. }
  intros _ s1 (Hs1 & Hv1 & o1 & rest1 & cap1 & Ha1 & Hroom). destruct (aa_room _ _ _ _ _ _ Ha1) as [_ Hr1].
  eapply sreturns_bind; [apply obj_spec, Ha1|]. intros ? ? [-> ->]. cbv zeta.
  rewrite <- Hv1 in Hl'. destruct (array_intro s1 b l' Hs1 Hl') as (ob1 & restb1 & capb1 & Hab1).
  assert (Hown : A_ARRAY_A o1 = A_ARRAY_A ob1 -> o1 = ob1 /\ l' = l).
  { intros E. assert (a = b) as <- by (eapply (so_own _ Hs1); [apply Ha1|apply Hab1|done]).
    pose proof (aa_arr _ _ _ _ _ _ Ha1) as U1. rewrite (aa_arr _ _ _ _ _ _ Hab1) in U1. split; [congruence|].
    rewrite Hv1, Hl in Hl'. congruence. }
  eapply sreturns_bind.
  { eapply (fill_loop (A_ARRAY_A o1) l _ (fun i => default INil (l' !! i)) (Z.to_nat (zlen l')) 0 (zlen l) s1 (take (length l') rest1) (drop (length l') rest1)).
    - rewrite length_take. lia.
    - rewrite take_drop. apply Ha1.
    - lia.
    - intros j pre' c post' s' Hj Hpre Hp Hf (x & ->). destruct (lookup_lt_is_Some_2 l' j ltac:(lia)) as [y Hy]. rewrite Hy.
      assert (Hrd : exists cs, o_fix (set_fix (A_ARRAY_A o1) x s1) !! A_ARRAY_A ob1 = Some cs /\ cs !! j = Some y).
      { destruct (decide (A_ARRAY_A o1 = A_ARRAY_A ob1)) as [E|E].
        - destruct (Hown E) as [<- ->]. eexists. split; [exact Hf|]. rewrite lookup_app_l by lia. rewrite Hpre, lookup_app_l by lia. done.
        - rewrite set_fix_other by done. eexists. split; [apply Hab1|]. rewrite lookup_app_l by lia. done. }
      destruct Hrd as (cs & Hcs & Hyc). eapply sreturns_bind.
      { unfold AArrayItem. eapply sreturns_bind; [apply obj_spec, Hab1|]. intros ? ? [-> ->].
        eapply AFixArrayItem_spec; [exact Hcs|lia|]. by rewrite Z.add_0_l, Nat2Z.id. }
      intros ? ? [-> ->]. rewrite s64_small by lia. eapply set_at; [exact Hf|lia]. }
  intros _ ? ->. rewrite Nat2Z.id, fmap_lookup_seq. eapply sreturns_len; [apply Ha1|done|]. rewrite s64_small by lia.
  destruct (update_own s1 a l o1 rest1 cap1 (l ++ l') (drop (length l') rest1) Hs1 Ha1) as [U1 U2].
  { rewrite length_app, length_drop. lia. } { rewrite length_app. lia. }
  rewrite length_app, Nat2Z.inj_add, <- app_assoc in U1, U2. rewrite Hv1 in U2. by split.
Qed.
(** ** Items that are equal

    The equality of items may depend on the arrays, may raise exceptions, and
    does not change the store: for items that are [comparable] it ends as [eqf]
    says. *)

(** The index of the first item that the test accepts. *)
Fixpoint search (p : Item -> bool + exn) (m : list Item) : option Z + exn :=
  match m with
  | [] => inl None
  | y :: m =>
    match p y with
    | inl true => inl (Some 0)
    | inl false => match search p m with inl r => inl (Z.succ <$> r) | inr e => inr e end
    | inr e => inr e
    end
  end.

(** The number of items that the test accepts. *)
Fixpoint count_true (p : Item -> bool + exn) (m : list Item) : Z + exn :=
  match m with
  | [] => inl 0
  | y :: m =>
    match p y with
    | inl b => match count_true p m with inl n => inl (Z.b2z b + n) | inr e => inr e end
    | inr e => inr e
    end
  end.

(** Removing items in place: [keep] has been kept, [gone] is what is left behind
    it of the items before [todo].  The test sees the list as it is then, and an
    exception leaves it so. *)
Fixpoint remove_list (test : list Item -> Item -> bool + exn) (keep gone todo : list Item) : list Item * option exn :=
  match todo with
  | [] => (keep, None)
  | y :: todo =>
    match test (keep ++ gone ++ y :: todo) y with
    | inl true => remove_list test keep (gone ++ [y]) todo
    | inl false => remove_list test (keep ++ [y]) (drop 1 (gone ++ [y])) todo
    | inr e => (keep ++ gone ++ y :: todo, Some e)
    end
  end.

(** For a test that returns, whatever the list is, it is a filter. *)
Lemma remove_list_filter p test keep gone todo : (forall l y, test l y = inl (p y)) ->
  remove_list test keep gone todo = (keep ++ filter (fun y => p y = false) todo, None).
Proof using.
  clear. intros Ht. revert keep gone. induction todo as [|y todo IH]; intros keep gone; cbn [remove_list]; [by rewrite app_nil_r|].
  rewrite Ht, filter_cons. destruct (p y); [rewrite decide_False by done; apply IH|].
  rewrite decide_True by done. by rewrite IH, <- app_assoc.
Qed.

Lemma search_range p m i : search p m = inl (Some i) -> 0 <= i < zlen m.
Proof using.
  clear. revert i. induction m as [|y m IH]; intros i Hi; [done|]. cbn [search] in Hi. cbn [length].
  destruct (p y) as [[]|]; [injection Hi as <-; lia| |done]. destruct (search p m) as [[j|]|]; try done.
  injection Hi as <-. specialize (IH j eq_refl). lia.
Qed.

Lemma count_true_range p m n : count_true p m = inl n -> 0 <= n <= zlen m.
Proof using.
  clear. revert n. induction m as [|y m IH]; intros n Hn; cbn [count_true length] in *; [injection Hn as <-; lia|].
  destruct (p y) as [b|]; [|done]. destruct (count_true p m) as [k|]; [|done]. injection Hn as <-. specialize (IH k eq_refl). destruct b; simpl; lia.
Qed.

Section equality.
Context (eqf : gmap N (list Item) -> Item -> Item -> bool + exn) (comparable : gmap N (list Item) -> Item -> Item -> Prop).
Hypothesis Heq : forall x y s, store_ok s -> comparable (view s) x y -> syields (AIsEq x y) s (eqf (view s) x y).
#[local] Set Default Proof Using "Type Hs Hl Heq".

Lemma find_item_yields flip f x m : forall pre post, o_fix s !! f = Some (pre ++ m ++ post) ->
  (forall y, y ∈ m -> if flip : bool then comparable (view s) x y else comparable (view s) y x) ->
  syields (find_item flip f x (length m) (zlen pre)) s
    (match search (fun y => if flip then eqf (view s) x y else eqf (view s) y x) m with
     | inl r => inl ((fun i => zlen pre + i) <$> r) | inr e => inr e end).
Proof using Heq Hs.
  clear Hl. induction m as [|y m IH]; intros pre post Hf Hc; cbn [length find_item search]; [apply syields_ret|].
  eapply syields_step; [eapply cell_at; [exact Hf|done]|]. pose proof (Hc y ltac:(left)) as Hy.
  eapply (syields_bind _ _ _ (if flip then eqf (view s) x y else eqf (view s) y x)); [destruct flip; by apply Heq|].
  destruct (if flip then _ else _) as [[]|e]; [|replace (zlen pre + 1) with (zlen (pre ++ [y])) by (rewrite length_app; cbn [length]; lia)|done].
  - cbn. rewrite Z.add_0_r. apply syields_ret.
  - match goal with |- syields _ _ ?r => match type of (IH (pre ++ [y]) post) with _ -> _ -> syields _ _ ?r' => replace r with r' end end.
    + apply (IH _ post); [by rewrite <- app_assoc|]. intros z Hz. apply Hc. by right.
    + destruct (search _ m) as [[i|]|]; [|done..]. cbn. do 2 f_equal. rewrite length_app. cbn [length]. lia.
Qed.

Lemma AArray_in_yields x : (forall y, y ∈ l -> comparable (view s) x y) ->
  syields (AArray_in a x) s (match search (eqf (view s) x) l with inl r => inl (bool_decide (is_Some r)) | inr e => inr e end).
Proof.
  intros Hc. destruct (array_intro s a l Hs Hl) as (o & rest & cap & Ha). unfold AArray_in.
  eapply syields_step; [by eapply AArrayLen_spec|]. eapply syields_step; [apply obj_spec, Ha|].
  rewrite Nat2Z.id. eapply syields_bind; [eapply (find_item_yields true _ x l [] rest); [apply Ha|done]|].
  cbv beta iota. destruct (search (eqf (view s) x) l) as [[i|]|e]; [apply syields_ret..|done].
Qed.

Lemma AArrayFind_yields x : zlen l < 2 ^ 31 -> (forall y, y ∈ l -> comparable (view s) y x) ->
  syields (AArrayFind a x) s (match search (fun y => eqf (view s) y x) l with inl r => inl (AIntToValue (default (-1) r)) | inr e => inr e end).
Proof.
  intros Hb Hc. destruct (array_intro s a l Hs Hl) as (o & rest & cap & Ha). unfold AArrayFind.
  eapply syields_step; [apply obj_spec, Ha|]. eapply syields_step; [by eapply AArrayLen_spec|].
  rewrite Nat2Z.id. eapply syields_bind; [eapply (find_item_yields false _ x l [] rest); [apply Ha|done]|].
  cbv beta iota. destruct (search _ l) as [[i|]|e] eqn:E; [|apply syields_ret|done]. apply search_range in E.
  cbn [fmap option_fmap option_map default length]. replace (s32 (Z.of_nat 0 + i)) with i by (unfold s32; zsolve). apply syields_ret.
Qed.

Lemma AArrayIndex_yields x : zlen l < 2 ^ 31 -> (forall y, y ∈ l -> comparable (view s) y x) ->
  syields (AArrayIndex a x) s (match search (fun y => eqf (view s) y x) l with
    | inl (Some i) => inl (AIntToValue i) | inl None => inr EValueError | inr e => inr e end).
Proof.
  intros Hb Hc. unfold AArrayIndex. eapply syields_bind; [by apply AArrayFind_yields|].
  destruct (search _ l) as [[i|]|e] eqn:E; [|rewrite Z.eqb_refl; apply syields_raise|done].
  change (default (-1) (Some i)) with i. apply search_range in E. destruct (Z.eqb_spec (AIntToValue i) (AIntToValue (-1))) as [Ew|]; [|apply syields_ret].
  apply AIntToValue_inj in Ew; [lia|..]; unfold short_range, A_SHORT_INT_MIN, A_SHORT_INT_MAX; lia.
Qed.

Lemma count_items_yields f x m : forall pre post acc, o_fix s !! f = Some (pre ++ m ++ post) ->
  (forall y, y ∈ m -> comparable (view s) y x) ->
  syields (count_items f x (length m) (zlen pre) acc) s
    (match count_true (fun y => eqf (view s) y x) m with inl n => inl (acc + n) | inr e => inr e end).
Proof using Heq Hs.
  clear Hl. induction m as [|y m IH]; intros pre post acc Hf Hc; cbn [length count_items count_true].
  { rewrite Z.add_0_r. apply syields_ret. }
  eapply syields_step; [eapply cell_at; [exact Hf|done]|]. eapply syields_bind; [apply Heq; [done|apply Hc; left]|].
  destruct (eqf (view s) y x) as [b|e]; [|done].
  replace (zlen pre + 1) with (zlen (pre ++ [y])) by (rewrite length_app; cbn [length]; lia).
  specialize (IH (pre ++ [y]) post (if b then acc + 1 else acc)). rewrite <- app_assoc in IH.
  specialize (IH Hf ltac:(intros z Hz; apply Hc; by right)). destruct (count_true _ m) as [n|e]; [|exact IH].
  replace (acc + (Z.b2z b + n)) with ((if b then acc + 1 else acc) + n) by (destruct b; simpl; lia). exact IH.
Qed.

Lemma AArrayCount_yields x : zlen l < 2 ^ 31 -> (forall y, y ∈ l -> comparable (view s) y x) ->
  syields (AArrayCount a x) s (match count_true (fun y => eqf (view s) y x) l with inl n => inl (AIntToValue n) | inr e => inr e end).
Proof.
  intros Hb Hc. destruct (array_intro s a l Hs Hl) as (o & rest & cap & Ha). unfold AArrayCount.
  eapply syields_step; [apply obj_spec, Ha|]. eapply syields_step; [by eapply AArrayLen_spec|].
  rewrite Nat2Z.id. eapply syields_bind; [eapply (count_items_yields _ x l [] rest); [apply Ha|done]|].
  cbv beta iota. destruct (count_true _ l) as [n|e] eqn:E; [|done]. apply count_true_range in E.
  replace (s32 (0 + n)) with n by (unfold s32; zsolve). apply syields_ret.
Qed.

(** Other items in the block of an array. *)
Lemma in_place o rest cap l' : array_at s a l o rest cap -> length l' = length l ->
  let s' := set_fix (A_ARRAY_A o) (l' ++ rest) s in
  store_ok s' /\ view s' = <[a := l']> (view s) /\ array_at s' a l' o rest cap.
Proof using Hs.
  clear Hl Heq. intros Ha Hlen s'.
  assert (Hid : set_arr a (MkArrayObj (A_ARRAY_A o) (AIntToValue (zlen l')) (A_ARRAY_CAPACITY o)) s' = s').
  { rewrite Hlen, <- (aa_len _ _ _ _ _ _ Ha). unfold set_arr, s', set_fix. cbn [o_fix o_arr o_next].
    assert (MkArrayObj (A_ARRAY_A o) (A_ARRAY_LEN o) (A_ARRAY_CAPACITY o) = o) as -> by (by destruct o).
    by rewrite (insert_id (o_arr s)) by apply Ha. }
  destruct (update_own s a l o rest cap l' rest Hs Ha) as [U1 U2]; [lia|destruct Ha; lia|]. fold s' in U1, U2.
  rewrite Hid in U1, U2. split_and!; [done|done|]. destruct Ha. split; try done; rewrite ?Hlen; try done. apply set_fix_fix.
Qed.

Lemma remove_items_spec o rest cap x m : forall keep gone, array_at s a l o rest cap ->
  length (keep ++ gone ++ m) = length l -> (forall z, z ∈ keep ++ gone ++ m -> z ∈ l) ->
  (forall l' y, length l' = length l -> (forall z, z ∈ l' -> z ∈ l) -> y ∈ l -> comparable (<[a := l']> (view s)) y x) ->
  sspec (remove_items (A_ARRAY_A o) x (length m) (zlen keep + zlen gone) (zlen gone))
    (set_fix (A_ARRAY_A o) ((keep ++ gone ++ m) ++ rest) s) (fun r s' =>
    match remove_list (fun l' y => eqf (<[a := l']> (view s)) y x) keep gone m with
    | (l', None) => exists gone', r = Ok (zlen gone') /\ s' = set_fix (A_ARRAY_A o) (l' ++ gone' ++ rest) s /\
        (length l' + length gone' = length l)%nat
    | (l', Some e) => r = Raise e /\ s' = set_fix (A_ARRAY_A o) (l' ++ rest) s /\ length l' = length l
    end).
Proof using Hs Heq.
  clear Hl. intros keep gone Ha. revert keep gone. induction m as [|y m IH]; intros keep gone Hlen Hsub Hc; cbn [length remove_items remove_list].
  { apply sspec_ret. rewrite app_nil_r in *. exists gone. rewrite length_app in Hlen. split_and!; [done|by rewrite <- app_assoc|done]. }
  set (l1 := keep ++ gone ++ y :: m) in *. set (s1 := set_fix _ _ s).
  destruct (in_place o rest cap l1 Ha Hlen) as (Hs1 & Hv1 & Ha1). fold s1 in Hs1, Hv1, Ha1.
  assert (Hf1 : o_fix s1 !! A_ARRAY_A o = Some ((keep ++ gone) ++ y :: m ++ rest)).
  { rewrite (aa_fix _ _ _ _ _ _ Ha1). unfold l1. by rewrite <- !app_assoc. }
  eapply sspec_bind; [eapply cell_at; [exact Hf1|rewrite length_app; lia]|]. intros ? ? [-> ->].
  assert (Hyl : y ∈ l) by (apply Hsub; unfold l1; rewrite !elem_of_app, elem_of_cons; tauto).
  pose proof (Heq y x s1 Hs1 ltac:(rewrite Hv1; by apply Hc)) as Hy. rewrite Hv1 in Hy.
  destruct (eqf (<[a := l1]> (view s)) y x) as [[]|e] eqn:E.
  - eapply (sspec_bind _ _ _ (fun b s' => b = true /\ s' = s1)).
    { eapply sspec_mono; [exact Hy|]. intros o' s' [-> ->]. done. }
    intros ? ? [-> ->]. replace (zlen keep + zlen gone + 1) with (zlen keep + zlen (gone ++ [y])) by (rewrite length_app; cbn [length]; lia).
    replace (zlen gone + 1) with (zlen (gone ++ [y])) by (rewrite length_app; cbn [length]; lia).
    specialize (IH keep (gone ++ [y])). rewrite <- app_assoc in IH. cbn [app] in IH. apply IH; done.
  - eapply (sspec_bind _ _ _ (fun b s' => b = false /\ s' = s1)).
    { eapply sspec_mono; [exact Hy|]. intros o' s' [-> ->]. done. }
    intros ? ? [-> ->]. set (gone2 := drop 1 (gone ++ [y])).
    assert (Hg : length gone2 = length gone) by (unfold gone2; rewrite length_drop, length_app; cbn [length]; lia).
    eapply (sspec_bind _ _ _ (fun _ s' => s' = set_fix (A_ARRAY_A o) (((keep ++ [y]) ++ gone2 ++ m) ++ rest) s)).
    + destruct (Z.eqb_spec (zlen gone) 0) as [E0|E0]; cbn [negb].
      * apply sspec_ret. unfold s1, l1, gone2. destruct gone; [|simpl in E0; lia]. cbn [app drop]. by rewrite <- !app_assoc.
      * unfold gone2, l1 in *. destruct gone as [|g gone]; [done|]. eapply sreturns_mono; [eapply (set_at (A_ARRAY_A o) keep g (gone ++ y :: m ++ rest)); [|lia]|].
        { rewrite Hf1. by rewrite <- !app_assoc. }
        intros _ ? ->. unfold s1. rewrite set_fix_twice. f_equal. simpl. rewrite drop_0, <- !app_assoc. simpl. by rewrite <- ?app_assoc.
    + intros _ ? ->. replace (zlen keep + zlen gone + 1) with (zlen (keep ++ [y]) + zlen gone2) by (rewrite length_app; cbn [length]; lia).
      replace (zlen gone) with (zlen gone2) by lia. apply IH; [|..|done].
      * rewrite <- Hlen. unfold l1. rewrite !length_app. cbn [length]. lia.
      * intros z Hz. apply Hsub. unfold l1. rewrite !elem_of_app, elem_of_cons in *. rewrite elem_of_nil in Hz.
        enough (z ∈ gone2 -> z ∈ gone \/ z = y) by tauto. clear. unfold gone2. destruct gone as [|g gone]; simpl; rewrite ?drop_0;
          rewrite ?elem_of_app, ?elem_of_cons, ?elem_of_nil; tauto.
  - eapply sspec_stop; [exact Hy|]. intros r s' [-> ->]. split_and!; done.
Qed.

Lemma AArrayRemove_spec x :
  (forall l' y, length l' = length l -> (forall z, z ∈ l' -> z ∈ l) -> y ∈ l -> comparable (<[a := l']> (view s)) y x) ->
  sspec (AArrayRemove a x) s (fun r s' =>
    let '(l', e) := remove_list (fun l' y => eqf (<[a := l']> (view s)) y x) [] [] l in
    r = match e with None => Ok tt | Some e => Raise e end /\ store_ok s' /\ view s' = <[a := l']> (view s)).
Proof.
  intros Hc. destruct (array_intro s a l Hs Hl) as (o & rest & cap & Ha). unfold AArrayRemove.
  eapply sspec_bind; [apply obj_spec, Ha|]. intros ? ? [-> ->]. eapply sspec_bind; [by eapply AArrayLen_spec|]. intros ? ? [-> ->].
  rewrite Nat2Z.id. pose proof (remove_items_spec o rest cap x l [] [] Ha eq_refl ltac:(done) Hc) as Hr. cbn [app length] in Hr.
  rewrite set_fix_id in Hr by apply Ha. destruct (remove_list _ [] [] l) as [l' [e|]].
  - eapply sspec_stop; [exact Hr|]. intros r s' (-> & -> & Hlen). split; [done|]. by destruct (in_place o rest cap l' Ha Hlen) as (? & ? & _).
  - eapply (sspec_bind _ _ _ (fun n s' => exists gone', n = zlen gone' /\ s' = set_fix (A_ARRAY_A o) (l' ++ gone' ++ rest) s /\
      (length l' + length gone' = length l)%nat)).
    { eapply sspec_mono; [exact Hr|]. intros r s' (g & -> & -> & Hg). by exists g. }
    intros ? ? (gone & -> & -> & Hlen). eapply sspec_bind; [apply obj_spec, Ha|]. intros ? ? [-> ->].
    assert (Hfin : sreturns (set_len a (u64 (A_ARRAY_LEN o - AIntToValue (zlen gone)))) (set_fix (A_ARRAY_A o) (l' ++ gone ++ rest) s)
      (fun _ s' => store_ok s' /\ view s' = <[a := l']> (view s))).
    { eapply sreturns_len; [apply Ha|rewrite (aa_len _ _ _ _ _ _ Ha); apply word_minus; [lia|destruct Ha; lia]|].
      destruct (update_own s a l o rest cap l' (gone ++ rest) Hs Ha) as [U1 U2]; [rewrite length_app; lia|destruct Ha; lia|].
      replace (zlen l - zlen gone) with (zlen l') by lia. by split. }
    eapply sspec_mono; [exact Hfin|]. by intros [[]|e|] s' Hx.
Qed.
End equality.

(** ** Iteration and hash values *)

(** The items that an iterator syields, as a loop of the program gets them. *)
Fixpoint drain (fuel : nat) (it : ArrayIter) : SM Objects (list Item) :=
  match fuel with
  | O => lift fault
  | S fuel =>
    if AArrayTupleIterHasNext it then
      '(x, it) ← AArrayTupleIterNext it;
      xs ← drain fuel it;
      mret (x :: xs)
    else mret []
  end.

Definition iter_at (f : N) (n i : nat) : ArrayIter := MkArrayIter (AIntToValue (Z.of_nat i)) (AIntToValue (Z.of_nat n)) f.

Lemma has_next f n i : Z.of_nat i <= 2 ^ 58 -> Z.of_nat n <= 2 ^ 58 -> AArrayTupleIterHasNext (iter_at f n i) = (i <? n)%nat.
Proof using.
  clear. intros Hi Hn. unfold AArrayTupleIterHasNext. cbn [ARRAY_ITER_I ARRAY_ITER_LEN iter_at].
  rewrite !s64_tag by (unfold short_range, A_SHORT_INT_MIN, A_SHORT_INT_MAX; lia).
  destruct (Nat.ltb_spec i n), (Z.ltb_spec (4 * Z.of_nat i) (4 * Z.of_nat n)); (done || lia).
Qed.

Lemma iter_next f cells n i x s1 : o_fix s1 !! f = Some cells -> cells !! i = Some x -> (i < n)%nat -> Z.of_nat n <= 2 ^ 58 ->
  sreturns (AArrayTupleIterNext (iter_at f n i)) s1 (fun r s' => r = (x, iter_at f n (S i)) /\ s' = s1).
Proof using.
  clear. intros Hf Hx Hi Hn. unfold AArrayTupleIterNext. cbn [ARRAY_ITER_I ARRAY_ITER_LEN ARRAY_ITER_A iter_at].
  rewrite !(word_eq (Z.of_nat n)), (word_eq (Z.of_nat i)) by lia. test (4 * Z.of_nat i <? 4 * Z.of_nat n) true.
  rewrite <- (word_eq (Z.of_nat n)), <- (word_eq (Z.of_nat i)) by lia. rewrite word_int_nonneg by lia.
  eapply sreturns_bind; [eapply AFixArrayItem_spec; [exact Hf|lia|by rewrite Nat2Z.id]|]. intros ? ? [-> ->]. apply sreturns_ret.
  split; [|done]. unfold iter_at. do 2 f_equal. rewrite word_succ by lia. f_equal. lia.
Qed.

Lemma iter_stops f n i s1 : (n <= i)%nat -> Z.of_nat i <= 2 ^ 58 -> sraises (AArrayTupleIterNext (iter_at f n i)) s1 EValueError.
Proof using.
  clear. intros Hi Hb. unfold AArrayTupleIterNext. cbn [ARRAY_ITER_I ARRAY_ITER_LEN ARRAY_ITER_A iter_at].
  rewrite !word_eq by lia. test (4 * Z.of_nat i <? 4 * Z.of_nat n) false. by apply sraises_lift.
Qed.

Lemma drain_items_spec f cells n fuel i s1 : o_fix s1 !! f = Some cells -> (n <= length cells)%nat -> Z.of_nat n <= 2 ^ 58 -> (i <= n)%nat ->
  (n - i < fuel)%nat -> sreturns (drain fuel (iter_at f n i)) s1 (fun xs s' => xs = drop i (take n cells) /\ s' = s1).
Proof using.
  clear. intros Hf Hn Hb. revert i. induction fuel as [|fuel IH]; intros i Hi Hfu; [lia|]. cbn [drain]. rewrite has_next by lia.
  destruct (Nat.ltb_spec i n) as [Hlt|Hge].
  - destruct (lookup_lt_is_Some_2 cells i ltac:(lia)) as [x Hx]. eapply sreturns_bind; [by eapply iter_next|]. intros ? ? [-> ->].
    eapply sreturns_bind; [apply IH; lia|]. intros xs ? [-> ->]. apply sreturns_ret. split; [|done]. symmetry. apply drop_S.
    by rewrite lookup_take_lt.
  - apply sreturns_ret. split; [|done]. symmetry. apply drop_ge. rewrite length_take. lia.
Qed.

Definition AArrayItems (a : N) (fuel : nat) : SM Objects (list Item) := it ← AArrayIter a; drain fuel it.

Lemma AArrayItems_spec fuel : (length l < fuel)%nat -> sreturns (AArrayItems a fuel) s (fun xs s' => xs = l /\ s' = s).
Proof.
  intros Hf. destruct (array_intro s a l Hs Hl) as (o & rest & cap & Ha). pose proof (aa_room _ _ _ _ _ _ Ha). pose proof (aa_bound _ _ _ _ _ _ Ha).
  unfold AArrayItems, AArrayIter. eapply (sreturns_bind _ _ _ (fun it s' => it = iter_at (A_ARRAY_A o) (length l) 0 /\ s' = s)).
  - eapply sreturns_bind; [apply obj_spec, Ha|]. intros ? ? [-> ->].
    eapply sreturns_lift_bind with (P := fun _ => True); [apply AAlloc_spec|]. intros _ _.
    apply sreturns_barrier, sreturns_barrier, sreturns_barrier, sreturns_ret. by rewrite (aa_len _ _ _ _ _ _ Ha).
  - intros ? ? [-> ->]. eapply sreturns_mono; [eapply drain_items_spec; [apply Ha|rewrite length_app; lia|lia|lia|lia]|].
    intros xs ? [-> ->]. by rewrite take_app_length.
Qed.

(** The hash values of the items, as words. *)
Section hash.
Context (hash : Item -> Z).
Hypothesis Hhash : forall x s, sreturns (AStdHash x) s (fun r s' => r = IVal (VInt (hash x)) /\ s' = s).

Definition hash_step (h : Z) (x : Item) : Z := (33 * h + hash x) mod W64.

Lemma hash_items_spec pre m h : l = pre ++ m -> 0 <= h < W64 ->
  sreturns (hash_items a (length m) (zlen pre) h) s (fun r s' => r = foldl hash_step h m /\ s' = s).
Proof using Hs Hl Hhash.
  revert pre h. induction m as [|x m IH]; intros pre h Hpre Hh; cbn [length hash_items foldl]; [by apply sreturns_ret|].
  destruct (array_intro s a l Hs Hl) as (o & rest & cap & Ha). eapply sreturns_bind.
  { eapply AArrayItem_spec; [exact Ha|]. rewrite Hpre. by apply list_lookup_middle. }
  intros ? ? [-> ->]. eapply sreturns_bind; [apply Hhash|]. intros ? ? [-> ->].
  replace (zlen pre + 1) with (zlen (pre ++ [x])) by (rewrite length_app; cbn [length]; lia).
  replace (u64 (h + u64 (u64 (h * 32) + hash x))) with (hash_step h x) by (unfold hash_step, u64; rewrite Z.add_mod_idemp_l, Z.add_mod_idemp_r by lia; f_equal; lia).
  apply IH; [by rewrite <- app_assoc|]. apply Z.mod_pos_bound. lia.
Qed.

Lemma AArrayTupleHashValue_spec : sreturns (AArrayTupleHashValue a) s (fun r s' => r = foldl hash_step 0 l /\ s' = s).
Proof using Hs Hl Hhash.
  destruct (array_intro s a l Hs Hl) as (o & rest & cap & Ha). unfold AArrayTupleHashValue.
  eapply sreturns_bind; [by eapply AArrayLen_spec|]. intros ? ? [-> ->]. rewrite Nat2Z.id. by apply (hash_items_spec [] l).
Qed.
End hash.
End methods.
