(* ===== verification/ArrayCompare.v ===== *)
(** * ArrayCompare: comparison of nested arrays

    [ACompareArrays] follows arrays and tuples to a fixed depth.
    [compare_items] is its result, for any outcomes of the comparisons of items
    that are not both arrays: on any store, with arrays that contain themselves
    too, it returns or raises what this function says.  An item is unfolded to a
    tree; on trees that fit the depth the result is the lexicographic order. *)

From stdpp Require Import gmap.
From S2P Require Import Prelude Runtime Digits Value LongInt IntConv StrOps ArrayObj ArraySpec.
From S2P Require Import ArrayOps.

Open Scope Z_scope.

(** ** Trees *)

(** An item and, for an array or a tuple, its items. *)
Inductive tree :=
  | Leaf (x : Item)
  | Node (x : Item) (ts : list tree).

Definition root (t : tree) : Item := match t with Leaf x | Node x _ => x end.

Lemma tree_rect_list (P : tree -> Prop) :
  (forall x, P (Leaf x)) -> (forall x ts, Forall P ts -> P (Node x ts)) -> forall t, P t.
Proof.
  intros Hl Hn. fix IH 1. intros [x|x ts]; [apply Hl|]. apply Hn. induction ts as [|t ts IHts]; constructor; [apply IH|exact IHts].
Qed.

(** The tree of an item, down to [d] levels of arrays. *)
Fixpoint unfold_item (m : gmap N (list Item)) (d : nat) (x : Item) : option tree :=
  match x with
  | IArray a | ITuple a =>
    match d with
    | O => None
    | S d => l ← m !! a; ts ← mapM (unfold_item m d) l; Some (Node x ts)
    end
  | _ => Some (Leaf x)
  end.

Lemma unfold_root m d x t : unfold_item m d x = Some t -> root t = x.
Proof.
  destruct d as [|d], x as [|a|a|u v|v]; cbn [unfold_item]; intros H; try (by injection H as <-); try done;
    apply bind_Some in H as (l & _ & H); apply bind_Some in H as (ts & _ & H); by injection H as <-.
Qed.

Section order.
(** The comparison of two items of which one is not an array. *)
Variable leaf : Item -> Item -> AOperator -> bool.

(** The comparison by the lengths. *)
Definition length_order (m n : nat) (op : AOperator) : bool :=
  if (m <? n)%nat then ALtSatisfiesOp op else if (m =? n)%nat then AEqSatisfiesOp op else AGtSatisfiesOp op.

Fixpoint order (t u : tree) (op : AOperator) : bool :=
  match t, u with
  | Node _ ts, Node _ us =>
    (fix go (ts us : list tree) : bool :=
       match ts, us with
       | t :: ts, u :: us => if order t u OPER_EQ then go ts us else order t u op
       | _, _ => length_order (length ts) (length us) op
       end) ts us
  | _, _ => leaf (root t) (root u) op
  end.

Fixpoint order_list (op : AOperator) (ts us : list tree) : bool :=
  match ts, us with
  | t :: ts, u :: us => if order t u OPER_EQ then order_list op ts us else order t u op
  | _, _ => length_order (length ts) (length us) op
  end.

Lemma order_node x y ts us op : order (Node x ts) (Node y us) op = order_list op ts us.
Proof. cbn [order]. revert us. induction ts as [|t ts IH]; intros [|u us]; [done..|]. cbn [order_list]. by rewrite IH. Qed.

Lemma order_list_first op ts us j t u : ts !! j = Some t -> us !! j = Some u ->
  (forall k t u, (k < j)%nat -> ts !! k = Some t -> us !! k = Some u -> order t u OPER_EQ = true) ->
  order t u OPER_EQ = false -> order_list op ts us = order t u op.
Proof.
  revert us j. induction ts as [|t' ts IH]; intros us j Ht Hu Hpre Hd; [done|]. destruct us as [|u' us]; [done|]. cbn [order_list]. destruct j as [|j].
  - injection Ht as ->. injection Hu as ->. by rewrite Hd.
  - rewrite (Hpre 0%nat t' u') by (done || lia). eapply IH; [done|done| |done]. intros k t2 u2 Hk. apply (Hpre (S k)). lia.
Qed.

Lemma order_list_all op ts us : (forall k t u, ts !! k = Some t -> us !! k = Some u -> order t u OPER_EQ = true) ->
  order_list op ts us = length_order (length ts) (length us) op.
Proof.
  revert us. induction ts as [|t ts IH]; intros [|u us] H; [done..|]. cbn [order_list]. rewrite (H 0%nat t u) by done.
  rewrite IH; [done|]. intros k t' u'. apply (H (S k)).
Qed.

(** Trees that are the same. *)
Inductive same : tree -> tree -> Prop :=
  | same_leaf t u : (match t, u with Node _ _, Node _ _ => False | _, _ => True end) -> leaf (root t) (root u) OPER_EQ = true -> same t u
  | same_node x y ts us : Forall2 same ts us -> same (Node x ts) (Node y us).

(** The lexicographic order. *)
Inductive less : tree -> tree -> Prop :=
  | less_leaf t u : (match t, u with Node _ _, Node _ _ => False | _, _ => True end) -> leaf (root t) (root u) OPER_LT = true -> less t u
  | less_item x y ts us t u ts' us' : Forall2 same ts us -> ~ same t u -> less t u -> less (Node x (ts ++ t :: ts')) (Node y (us ++ u :: us'))
  | less_shorter x y ts us u us' : Forall2 same ts us -> less (Node x ts) (Node y (us ++ u :: us')).

Lemma order_same t u : order t u OPER_EQ = true <-> same t u.
Proof.
  revert u. induction t as [x|x ts IH] using tree_rect_list; intros u.
  { split; [by constructor|]. by inversion 1. }
  destruct u as [y|y us]; [split; [by constructor|by inversion 1]|]. rewrite order_node. transitivity (Forall2 same ts us).
  2:{ split; [by constructor|]. inversion 1; [done|by subst]. }
  revert us. induction IH as [|t ts Ht _ IHts]; intros [|u us]; cbn [order_list].
  - split; [constructor|done].
  - split; [done|inversion 1].
  - split; [done|inversion 1].
  - destruct (order t u OPER_EQ) eqn:E.
    + rewrite IHts. apply Ht in E. split; [by constructor|by inversion 1].
    + split; [intros [=]|]. inversion 1 as [|? ? ? ? Hs]. apply Ht in Hs. congruence.
Qed.

Lemma order_less t u : order t u OPER_LT = true <-> less t u.
Proof.
  revert u. induction t as [x|x ts IH] using tree_rect_list; intros u.
  { split; [by constructor|]. by inversion 1. }
  destruct u as [y|y us]; [split; [by constructor|by inversion 1]|]. rewrite order_node.
  transitivity (exists ts1 us1 rest rest', ts = ts1 ++ rest /\ us = us1 ++ rest' /\ Forall2 same ts1 us1 /\
    match rest, rest' with t :: _, u :: _ => ~ same t u /\ less t u | [], _ :: _ => True | _, _ => False end).
  2:{ split.
      - intros (ts1 & us1 & [|t rest] & [|u rest'] & -> & -> & Hs & Hr); try done; [rewrite app_nil_r; by constructor|].
        destruct Hr. by constructor.
      - inversion 1 as [|? ? ts1 us1 t' u' r r' Hs Hn Hlt|? ? ts1 us1 u' r' Hs]; subst; [done|..].
        + by exists ts1, us1, (t' :: r), (u' :: r').
        + exists ts, us1, [], (u' :: r'). by rewrite app_nil_r. }
  revert us. induction IH as [|t ts Ht _ IHts]; intros [|u us]; cbn [order_list].
  - split; [done|]. intros (ts1 & us1 & rest & rest' & E1 & E2 & _ & Hr). symmetry in E1, E2. apply app_eq_nil in E1 as [-> ->], E2 as [-> ->]. done.
  - split; [|done]. intros _. by exists [], [], [], (u :: us).
  - split; [done|]. intros (ts1 & us1 & rest & rest' & E1 & E2 & Hs & Hr). symmetry in E2. apply app_eq_nil in E2 as [-> ->].
    inversion Hs; subst. by destruct rest.
  - destruct (order t u OPER_EQ) eqn:E.
    + apply order_same in E. rewrite IHts. split.
      * intros (ts1 & us1 & rest & rest' & -> & -> & Hs & Hr). exists (t :: ts1), (u :: us1), rest, rest'. split_and!; try done. by constructor.
      * intros (ts1 & us1 & rest & rest' & E1 & E2 & Hs & Hr). inversion Hs; subst; cbn in E1, E2.
        -- subst. destruct Hr. done.
        -- injection E1 as -> ->. injection E2 as -> ->. by eexists _, _, _, _.
    + assert (Hns : ~ same t u) by (rewrite <- order_same; by rewrite E). rewrite Ht. split.
      * intros Hlt. by exists [], [], (t :: ts), (u :: us).
      * intros (ts1 & us1 & rest & rest' & E1 & E2 & Hs & Hr). inversion Hs; subst; cbn in E1, E2.
        -- subst. by destruct Hr.
        -- injection E1 as -> ->. by injection E2 as -> ->.
Qed.
End order.

(** ** The comparison on lists *)

Section compare_items.
(** The lists that the arrays stand for, and how the comparison of two items ends
    that are not both arrays. *)
Context (m : gmap N (list Item)) (leaf : Item -> Item -> AOperator -> bool + exn).

Definition list_at (x : Item) : list Item := match x with IArray a | ITuple a => default [] (m !! a) | _ => [] end.

(** The first pair of items that [eq] tells apart. *)
Fixpoint first_diff (eq : Item -> Item -> bool + exn) (l1 l2 : list Item) : option (Item * Item) + exn :=
  match l1, l2 with
  | x :: l1, y :: l2 =>
    match eq x y with
    | inl true => first_diff eq l1 l2
    | inl false => inl (Some (x, y))
    | inr e => inr e
    end
  | _, _ => inl None
  end.

(** The comparison that follows [depth] more levels of arrays. *)
Fixpoint compare_items (depth : nat) (x y : Item) (op : AOperator) : bool + exn :=
  if AIsArrayOrTuple x && AIsArrayOrTuple y then
    match depth with
    | O => inr EValueError
    | S depth =>
      match first_diff (fun v w => compare_items depth v w OPER_EQ) (list_at x) (list_at y) with
      | inl None => inl (length_order (length (list_at x)) (length (list_at y)) op)
      | inl (Some (v, w)) => compare_items depth v w op
      | inr e => inr e
      end
    end
  else leaf x y op.

Lemma first_diff_elem eq l1 l2 v w : first_diff eq l1 l2 = inl (Some (v, w)) -> v ∈ l1 /\ w ∈ l2.
Proof using.
  clear m leaf. revert l2. induction l1 as [|x l1 IH]; intros [|y l2] H; try done. cbn [first_diff] in H. rewrite !elem_of_cons.
  destruct (eq x y) as [[]|]; [apply IH in H; tauto|by injection H as -> ->; auto|done].
Qed.

(** The trees of the items of an array. *)
Lemma unfold_array d x t : unfold_item m d x = Some t -> AIsArrayOrTuple x = true ->
  exists ts d', d = S d' /\ mapM (unfold_item m d') (list_at x) = Some ts /\ t = Node x ts.
Proof using.
  clear. intros Ht Hx. destruct x as [|a|a|u v|v]; try done; (destruct d as [|d]; [done|]); cbn [unfold_item] in Ht;
    apply bind_Some in Ht as (l & Hl & Ht); apply bind_Some in Ht as (ts & Hts & Ht); injection Ht as <-; exists ts, d;
    cbn [list_at]; by rewrite Hl.
Qed.

Lemma unfold_flat d x t : unfold_item m d x = Some t -> AIsArrayOrTuple x = false -> t = Leaf x.
Proof using. clear. intros Ht Hx. destruct x, d; try done; by injection Ht as <-. Qed.

(** The items of two trees that stand at the same place, if they are not both
    arrays, are compared without an exception. *)
Fixpoint leaf_returns (lf : Item -> Item -> AOperator -> bool) (t u : tree) : Prop :=
  match t, u with
  | Node _ ts, Node _ us =>
    (fix go (ts us : list tree) : Prop :=
       match ts, us with t :: ts, u :: us => leaf_returns lf t u /\ go ts us | _, _ => True end) ts us
  | _, _ => forall op, leaf (root t) (root u) op = inl (lf (root t) (root u) op)
  end.

Fixpoint leaves_return (lf : Item -> Item -> AOperator -> bool) (ts us : list tree) : Prop :=
  match ts, us with t :: ts, u :: us => leaf_returns lf t u /\ leaves_return lf ts us | _, _ => True end.

Lemma first_diff_trees lf d (l1 l2 : list Item) ts us op :
  mapM (unfold_item m d) l1 = Some ts -> mapM (unfold_item m d) l2 = Some us ->
  (forall v w t u op, unfold_item m d v = Some t -> unfold_item m d w = Some u -> leaf_returns lf t u ->
    compare_items d v w op = inl (order lf t u op)) -> leaves_return lf ts us ->
  match first_diff (fun v w => compare_items d v w OPER_EQ) l1 l2 with
  | inl None => inl (length_order (length l1) (length l2) op)
  | inl (Some (v, w)) => compare_items d v w op
  | inr e => inr e
  end = inl (order_list lf op ts us).
Proof.
  intros Hts Hus H. apply mapM_Some_1 in Hts. apply mapM_Some_1 in Hus. revert l2 us Hus.
  induction Hts as [|v t l1 ts Hv Hts IH]; intros l2 us Hus Hr.
  { assert (length l2 = length us) as -> by (by eapply Forall2_length). by destruct us. }
  assert (Hlen : length l1 = length ts) by (by eapply Forall2_length).
  destruct Hus as [|w u l2 us Hw Hus]; [cbn; by rewrite ?Hlen|]. cbn [first_diff order_list length]. destruct Hr as [Hr1 Hr2].
  rewrite (H v w t u OPER_EQ) by done. destruct (order lf t u OPER_EQ) eqn:E.
  - specialize (IH l2 us Hus Hr2). rewrite <- IH.
    by destruct (first_diff _ l1 l2) as [[[? ?]|]|].
  - by apply H.
Qed.

Lemma compare_items_order lf d : forall x y t u op, unfold_item m d x = Some t -> unfold_item m d y = Some u ->
  leaf_returns lf t u -> compare_items d x y op = inl (order lf t u op).
Proof.
  induction d as [|d IH]; intros x y t u op Ht Hu Hlf; cbn [compare_items];
    (destruct (AIsArrayOrTuple x && AIsArrayOrTuple y) eqn:Exy;
      [apply andb_prop in Exy as [Ex Ey]
      |pose proof (unfold_root _ _ _ _ Ht) as Rt; pose proof (unfold_root _ _ _ _ Hu) as Ru;
       apply andb_false_iff in Exy as [E|E]; [apply (unfold_flat _ _ _ Ht) in E as ->|apply (unfold_flat _ _ _ Hu) in E as ->];
       [|destruct t]; cbn [root] in Rt, Ru; subst; apply Hlf]).
  - by apply (unfold_array _ _ _ Ht) in Ex as (? & ? & [=] & _).
  - destruct (unfold_array _ _ _ Ht Ex) as (ts & ? & [= <-] & Hts & ->).
    destruct (unfold_array _ _ _ Hu Ey) as (us & ? & [= <-] & Hus & ->). rewrite order_node.
    apply first_diff_trees; [done|done|intros v w t u op' Hv Hw Hr; by apply IH|].
    clear -Hlf. cbn [leaf_returns] in Hlf. revert us Hlf. induction ts as [|t ts IHts]; intros [|u us] Hlf; try done.
    destruct Hlf as [H1 H2]. split; [done|by apply IHts].
Qed.
End compare_items.

(** ** The code *)

Section compare.
Context `{!ItemOps} (leaf : Item -> Item -> AOperator -> bool + exn) (s : Objects).
(** The comparison of two items that are not both arrays returns or raises an
    exception, and changes nothing; lengths are compared as numbers. *)
Hypothesis Hleaf : forall x y op, AIsArrayOrTuple x && AIsArrayOrTuple y = false -> syields (ACompareOrder x y op) s (leaf x y op).
Hypothesis Hint : forall (m n : nat) op, Z.of_nat m < 2 ^ 31 -> Z.of_nat n < 2 ^ 31 ->
  leaf (int_item (Z.of_nat m)) (int_item (Z.of_nat n)) op = inl (length_order m n op).
Hypothesis Hs : store_ok s.
Hypothesis Hlen : forall a l, view s !! a = Some l -> zlen l < 2 ^ 31.
#[local] Set Default Proof Using "Type Hleaf Hint Hs Hlen".

Lemma array_len a l : view s !! a = Some l -> sreturns (AArrayLen a) s (fun n s' => n = zlen l /\ s' = s).
Proof using Hs. clear Hleaf Hint Hlen. intros Hl. destruct (array_intro s a l Hs Hl) as (o & rest & cap & Ha). by eapply AArrayLen_spec. Qed.

Lemma array_nth a l i x : view s !! a = Some l -> l !! i = Some x ->
  sreturns (AArrayItem a (Z.of_nat i)) s (fun y s' => y = x /\ s' = s).
Proof using Hs. clear Hleaf Hint Hlen. intros Hl Hx. destruct (array_intro s a l Hs Hl) as (o & rest & cap & Ha). by eapply AArrayItem_spec. Qed.

(** The search for a difference goes along the lists. *)
Lemma first_difference_yields eq e a1 a2 p1 p2 l1 l2 i :
  view s !! a1 = Some (p1 ++ l1) -> view s !! a2 = Some (p2 ++ l2) -> length p1 = i -> length p2 = i ->
  (forall x y, x ∈ l1 -> y ∈ l2 -> syields (eq x y) s (e x y)) ->
  syields (first_difference eq a1 a2 (length l1 `min` length l2) (Z.of_nat i)) s (first_diff e l1 l2).
Proof using Hs.
  clear Hleaf Hint Hlen. revert p1 p2 l2 i. induction l1 as [|x l1 IH]; intros p1 p2 [|y l2] i H1 H2 Hp1 Hp2 He;
    cbn [length Nat.min first_difference first_diff]; try apply syields_ret.
  eapply syields_step; [eapply array_nth; [exact H1|subst i; by apply list_lookup_middle]|].
  eapply syields_step; [eapply array_nth; [exact H2|subst i; by apply list_lookup_middle]|].
  eapply syields_bind; [apply He; left|]. destruct (e x y) as [[]|ex]; [|apply syields_ret|done].
  replace (Z.of_nat i + 1) with (Z.of_nat (S i)) by lia.
  apply (IH (p1 ++ [x]) (p2 ++ [y])); [by rewrite <- app_assoc|by rewrite <- app_assoc|rewrite length_app; cbn; lia|rewrite length_app; cbn; lia|].
  intros v w Hv Hw. apply He; by right.
Qed.

(** The items that are arrays exist. *)
Definition valid_item (m : gmap N (list Item)) (x : Item) : Prop := match x with IArray a | ITuple a => is_Some (m !! a) | _ => True end.
Definition closed (m : gmap N (list Item)) : Prop := forall a l, m !! a = Some l -> Forall (valid_item m) l.

Lemma valid_array m x : valid_item m x -> AIsArrayOrTuple x = true ->
  exists a, (x = IArray a \/ x = ITuple a) /\ m !! a = Some (list_at m x).
Proof using. clear. intros Hx Hb. destruct x as [|a|a| |]; try done; destruct Hx as [l Hl]; exists a; cbn [list_at]; rewrite Hl; tauto. Qed.

Lemma closed_valid m x y : closed m -> y ∈ list_at m x -> valid_item m y.
Proof using.
  clear. intros Hc Hy. assert (Hl : forall a, y ∈ default [] (m !! a) -> valid_item m y).
  { intros a Ha. destruct (m !! a) as [l|] eqn:Hl; [|by apply elem_of_nil in Ha]. apply list_elem_of_lookup_1 in Ha as [k Hk].
    eapply Forall_lookup_1; [exact (Hc _ _ Hl)|exact Hk]. }
  destruct x; cbn [list_at] in Hy; (by apply elem_of_nil in Hy) || by eapply Hl.
Qed.

Lemma CompareArraysRecursive_yields fuel x y op index : closed (view s) -> index = 2 * (4 - Z.of_nat fuel) -> 0 <= index ->
  valid_item (view s) x -> valid_item (view s) y -> 0 < index \/ AIsArrayOrTuple x && AIsArrayOrTuple y = true ->
  syields (CompareArraysRecursive fuel x y op index) s (compare_items (view s) leaf fuel x y op).
Proof.
  intros Hc. revert x y op index. induction fuel as [|fuel IH]; intros x y op index Hi Hi0 Hx Hy Htop;
    cbn [CompareArraysRecursive compare_items]; rewrite <- negb_andb.
  all: destruct (AIsArrayOrTuple x && AIsArrayOrTuple y) eqn:Exy; cbn [negb];
    [rewrite andb_false_r|rewrite andb_true_r; destruct Htop as [Htop|]; [|done]; rewrite (proj2 (Z.ltb_lt 0 index) Htop); by apply Hleaf].
  { assert ((BUF_SIZE - 2 <=? index) = true) as -> by (apply Z.leb_le; unfold BUF_SIZE, MAX_ARRAY_COMPARE_DEPTH; lia). by apply syields_raise. }
  assert ((BUF_SIZE - 2 <=? index) = false) as -> by (apply Z.leb_gt; unfold BUF_SIZE, MAX_ARRAY_COMPARE_DEPTH; lia).
  apply andb_prop in Exy as [Ex Ey].
  destruct (valid_array _ _ Hx Ex) as (a1 & Ea1 & Hl1), (valid_array _ _ Hy Ey) as (a2 & Ea2 & Hl2).
  pose proof (Hlen _ _ Hl1). pose proof (Hlen _ _ Hl2). set (l1 := list_at (view s) x) in *. set (l2 := list_at (view s) y) in *.
  enough (Hmain : syields (l1' ← AArrayLen a1; l2' ← AArrayLen a2;
      let len := s32 (Z.min l1' l2') in
      d ← first_difference (fun u v => CompareArraysRecursive fuel u v OPER_EQ (index + 2)) a1 a2 (Z.to_nat len) 0;
      match d with
      | None => ACompareOrder (int_item l1') (int_item l2') op
      | Some (u, v) => CompareArraysRecursive fuel u v op (index + 2)
      end) s (match first_diff (fun v w => compare_items (view s) leaf fuel v w OPER_EQ) l1 l2 with
        | inl None => inl (length_order (length l1) (length l2) op)
        | inl (Some (v, w)) => compare_items (view s) leaf fuel v w op
        | inr e => inr e
        end)) by (by destruct Ea1 as [-> | ->], Ea2 as [-> | ->]).
  eapply syields_step; [by apply array_len|]. eapply syields_step; [by apply array_len|]. cbv zeta.
  replace (Z.to_nat (s32 (Z.min (zlen l1) (zlen l2)))) with (length l1 `min` length l2)%nat by (unfold s32; zsolve).
  assert (Hrec : forall v w op, v ∈ l1 -> w ∈ l2 -> syields (CompareArraysRecursive fuel v w op (index + 2)) s (compare_items (view s) leaf fuel v w op)).
  { intros v w op' Hv Hw. apply IH; [lia|lia|by eapply closed_valid|by eapply closed_valid|left; lia]. }
  eapply syields_bind; [apply (first_difference_yields _ (fun v w => compare_items (view s) leaf fuel v w OPER_EQ) a1 a2 [] [] l1 l2 0); auto|].
  destruct (first_diff _ l1 l2) as [[[v w]|]|e] eqn:Ed; [|rewrite <- Hint by done; by apply Hleaf|done].
  apply first_diff_elem in Ed as [Hv Hw]. by apply Hrec.
Qed.

Lemma ACompareArrays_yields x y op : closed (view s) -> valid_item (view s) x -> valid_item (view s) y ->
  AIsArrayOrTuple x && AIsArrayOrTuple y = true -> syields (ACompareArrays x y op) s (compare_items (view s) leaf 4 x y op).
Proof.
  intros Hc Hx Hy Hxy. unfold ACompareArrays. eapply syields_step; [eapply sreturns_mono; [apply sreturns_lift, AAllocTempStack_spec|]; intros [] s' [_ ->]; by split|].
  apply CompareArraysRecursive_yields; [done..|by right].
Qed.
End compare.
