(* ===== verification/ArrayProps.v ===== *)
(** * ArrayProps: what is proved of arrays

    Any client of the operations of Array sees lists, on every store and with
    arrays shared and passed to their own methods; the comparison of nested
    arrays is the lexicographic order, and ends on every store. *)

From stdpp Require Import gmap.
From S2P Require Import Prelude Runtime Digits Value LongInt IntConv StrOps ArrayObj ArraySpec.
From S2P Require Import ArrayOps ArrayCompare.

Open Scope Z_scope.

(** ** Operations and their answers *)

Inductive array_op :=
  | OpNew (n : Z)
  | OpGet (a : N) (z : Z)
  | OpSlice (a : N) (lo hi : Z)
  | OpSet (a : N) (z : Z) (x : Item)
  | OpAppend (a : N) (x : Item)
  | OpInsertAt (a : N) (z : Z) (x : Item)
  | OpRemoveAt (a : N) (z : Z)
  | OpRemove (a : N) (x : Item)
  | OpExtend (a b : N)
  | OpAdd (a b : N)
  | OpRepeat (a : N) (z : Z)
  | OpCopy (a : N)
  | OpLength (a : N)
  | OpIn (a : N) (x : Item)
  | OpFind (a : N) (x : Item)
  | OpIndex (a : N) (x : Item)
  | OpCount (a : N) (x : Item)
  | OpItems (a : N) (fuel : nat).

Inductive answer :=
  | RNone
  | RItem (x : Item)
  | RNew (a : N)
  | RInt (z : Z)
  | RBool (b : bool)
  | RItems (l : list Item)
  | RError (e : exn).

(** A call whose exceptions are caught by the program, but for MemoryError. *)
Definition answering {A} (c : SM Objects A) (f : A -> answer) : SM Objects answer := fun s t =>
  match c s t with
  | (Ok a, s, t) => (Ok (f a), s, t)
  | (Raise EMemoryError, s, t) => (Raise EMemoryError, s, t)
  | (Raise e, s, t) => (Ok (RError e), s, t)
  | (Fault, s, t) => (Fault, s, t)
  end.

Definition item_array (x : Item) : answer := match x with IArray a => RNew a | _ => RItem x end.
Definition word_answer (w : Z) : answer := RInt (AValueToInt w).

Section clients.
Context `{!ItemOps} (eqf : gmap N (list Item) -> Item -> Item -> bool + exn) (comparable : gmap N (list Item) -> Item -> Item -> Prop).

Definition do_op (o : array_op) : SM Objects answer :=
  match o with
  | OpNew n => answering (AMakeArray n) RNew
  | OpGet a z => answering (AArray_get a (int_item z)) RItem
  | OpSlice a lo hi => answering (AArray_get a (IPair (int_item lo) (int_item hi))) item_array
  | OpSet a z x => answering (AArray_set a (int_item z) x) (fun _ => RNone)
  | OpAppend a x => answering (AArrayAppend a x) (fun _ => RNone)
  | OpInsertAt a z x => answering (AArrayInsertAt a (int_item z) x) (fun _ => RNone)
  | OpRemoveAt a z => answering (AArrayRemoveAt a (int_item z)) RItem
  | OpRemove a x => answering (AArrayRemove a x) (fun _ => RNone)
  | OpExtend a b => answering (AArrayExtend a (IArray b)) (fun _ => RNone)
  | OpAdd a b => answering (AArray_add a (IArray b)) RNew
  | OpRepeat a z => answering (AArray_mul a (int_item z)) RNew
  | OpCopy a => answering (AArrayCopy a) RNew
  | OpLength a => answering (AArrayLen a) RInt
  | OpIn a x => answering (AArray_in a x) RBool
  | OpFind a x => answering (AArrayFind a x) word_answer
  | OpIndex a x => answering (AArrayIndex a x) word_answer
  | OpCount a x => answering (AArrayCount a x) word_answer
  | OpItems a fuel => answering (AArrayItems a fuel) RItems
  end.

(** The same operations on lists: the lists that the arrays stand for, the
    answer, and the lists afterwards.  Only the identity of a new array is
    left open. *)
Definition new_list (m : gmap N (list Item)) (l : list Item) (r : answer) (m' : gmap N (list Item)) : Prop :=
  exists b, m !! b = None /\ r = RNew b /\ m' = <[b := l]> m.

Definition spec_step (o : array_op) (m : gmap N (list Item)) (r : answer) (m' : gmap N (list Item)) : Prop :=
  let at_index (a : N) (l : list Item) (z last : Z) (r1 : nat -> answer) (l1 : nat -> list Item) :=
    let p := position (zlen l) z in
    if (0 <=? p) && (p <? last) then r = r1 (Z.to_nat p) /\ m' = <[a := l1 (Z.to_nat p)]> m else r = RError EIndexError /\ m' = m in
  match o with
  | OpNew n => new_list m (replicate (Z.to_nat n) INil) r m'
  | OpGet a z => exists l, m !! a = Some l /\ at_index a l z (zlen l) (fun p => RItem (default INil (l !! p))) (fun _ => l)
  | OpSlice a lo hi => exists l, m !! a = Some l /\ new_list m (sliced l lo hi) r m'
  | OpSet a z x => exists l, m !! a = Some l /\ at_index a l z (zlen l) (fun _ => RNone) (fun p => <[p := x]> l)
  | OpAppend a x => exists l, m !! a = Some l /\ r = RNone /\ m' = <[a := l ++ [x]]> m
  | OpInsertAt a z x => exists l, m !! a = Some l /\ at_index a l z (zlen l + 1) (fun _ => RNone) (fun p => take p l ++ x :: drop p l)
  | OpRemoveAt a z => exists l, m !! a = Some l /\ at_index a l z (zlen l) (fun p => RItem (default INil (l !! p))) (fun p => take p l ++ drop (S p) l)
  | OpRemove a x => exists l, m !! a = Some l /\
      let '(l', e) := remove_list (fun l' y => eqf (<[a := l']> m) y x) [] [] l in
      r = match e with None => RNone | Some e => RError e end /\ m' = <[a := l']> m
  | OpExtend a b => exists l l', m !! a = Some l /\ m !! b = Some l' /\ r = RNone /\ m' = <[a := l ++ l']> m
  | OpAdd a b => exists l l', m !! a = Some l /\ m !! b = Some l' /\ new_list m (l ++ l') r m'
  | OpRepeat a z => exists l, m !! a = Some l /\
      if z <? 0 then r = RError EValueError /\ m' = m else new_list m (concat (replicate (Z.to_nat z) l)) r m'
  | OpCopy a => exists l, m !! a = Some l /\ new_list m l r m'
  | OpLength a => exists l, m !! a = Some l /\ r = RInt (zlen l) /\ m' = m
  | OpIn a x => exists l, m !! a = Some l /\
      r = match search (eqf m x) l with inl i => RBool (bool_decide (is_Some i)) | inr e => RError e end /\ m' = m
  | OpFind a x => exists l, m !! a = Some l /\
      r = match search (fun y => eqf m y x) l with inl i => RInt (default (-1) i) | inr e => RError e end /\ m' = m
  | OpIndex a x => exists l, m !! a = Some l /\
      r = match search (fun y => eqf m y x) l with inl (Some i) => RInt i | inl None => RError EValueError | inr e => RError e end /\ m' = m
  | OpCount a x => exists l, m !! a = Some l /\
      r = match count_true (fun y => eqf m y x) l with inl n => RInt n | inr e => RError e end /\ m' = m
  | OpItems a fuel => exists l, m !! a = Some l /\ r = RItems l /\ m' = m
  end.

(** The arrays exist and are not too large, the numbers are short, and the items
    that are compared are comparable: for [remove], while the list holds any of
    its items at any place. *)
Definition usable (m : gmap N (list Item)) (a : N) : Prop := exists l, m !! a = Some l /\ zlen l < 2 ^ 30.
Definition all_items (m : gmap N (list Item)) (a : N) (P : Item -> Prop) : Prop :=
  exists l, m !! a = Some l /\ zlen l < 2 ^ 30 /\ forall y, y ∈ l -> P y.

Definition op_valid (o : array_op) (m : gmap N (list Item)) : Prop :=
  match o with
  | OpNew n => 0 <= n < 2 ^ 30
  | OpGet a z | OpSet a z _ | OpInsertAt a z _ | OpRemoveAt a z => usable m a /\ short_range z
  | OpSlice a lo hi => usable m a /\ short_range lo /\ short_range hi
  | OpExtend a b | OpAdd a b => usable m a /\ usable m b
  | OpRepeat a z => usable m a /\ - 2 ^ 28 < z < 2 ^ 28
  | OpItems a fuel => exists l, m !! a = Some l /\ (length l < fuel)%nat
  | OpAppend a _ | OpCopy a | OpLength a => usable m a
  | OpIn a x => all_items m a (fun y => comparable m x y)
  | OpFind a x | OpIndex a x | OpCount a x => all_items m a (fun y => comparable m y x)
  | OpRemove a x => all_items m a (fun y => forall l l', m !! a = Some l -> length l' = length l -> (forall z, z ∈ l' -> z ∈ l) ->
      comparable (<[a := l']> m) y x)
  end.

Lemma array_answering_spec {A} (c : SM Objects A) f s (Q : answer -> Objects -> Prop) :
  sspec c s (fun r s' => match r with
    | Ok a => Q (f a) s' | Raise EMemoryError => False | Raise e => Q (RError e) s' | Fault => False end) ->
  sreturns (answering c f) s Q.
Proof using.
  intros Hc t. specialize (Hc t). unfold answering.
  destruct (c s t) as [[[a|[]|] s'] t']; simpl in *; destruct Hc as [Hh [Hr|[Hr Hs]]]; try done; split; auto.
Qed.

Lemma answering_yields {A} (c : SM Objects A) f s (r : A + exn) : r <> inr EMemoryError -> syields c s r ->
  sreturns (answering c f) s (fun x s' => s' = s /\ x = match r with inl a => f a | inr e => RError e end).
Proof using.
  intros Hne Hc. apply array_answering_spec. eapply sspec_mono; [exact Hc|]. intros o s' [-> ->].
  destruct r as [a|e]; [done|]. by destruct e.
Qed.

Lemma answering_returns {A} (c : SM Objects A) f s (P : A -> Objects -> Prop) (Q : answer -> Objects -> Prop) :
  sreturns c s P -> (forall x s', P x s' -> Q (f x) s') -> sreturns (answering c f) s Q.
Proof. intros Hc HQ. apply array_answering_spec. eapply sspec_mono; [exact Hc|]. intros [x|e|] s'; [apply HQ|done..]. Qed.

(** The equality of items does not change the store; its MemoryError is not
    counted here. *)
Hypothesis Heq : forall x y s, store_ok s -> comparable (view s) x y -> syields (AIsEq x y) s (eqf (view s) x y).
Hypothesis Hmem : forall m x y, eqf m x y <> inr EMemoryError.
#[local] Set Default Proof Using "Type Heq Hmem".

Lemma search_memory p l : (forall y, p y <> inr EMemoryError) -> search p l <> inr EMemoryError.
Proof using.
  clear. intros Hp. induction l as [|y l IH]; [done|]. cbn [search]. specialize (Hp y). destruct (p y) as [[]|]; [done| |congruence].
  destruct (search p l); [done|congruence].
Qed.

Lemma count_memory p l : (forall y, p y <> inr EMemoryError) -> count_true p l <> inr EMemoryError.
Proof using.
  clear. intros Hp. induction l as [|y l IH]; [done|]. cbn [count_true]. specialize (Hp y). destruct (p y); [|congruence].
  destruct (count_true p l); [done|congruence].
Qed.

Lemma remove_memory test l : (forall l y, test l y <> inr EMemoryError) -> forall keep gone,
  (remove_list test keep gone l).2 <> Some EMemoryError.
Proof using.
  clear. intros Ht. induction l as [|y l IH]; intros keep gone; [done|]. cbn [remove_list]. specialize (Ht (keep ++ gone ++ y :: l) y).
  destruct (test _ y) as [[]|]; [apply IH..|]. simpl. congruence.
Qed.

(** One operation. *)
Local Abbreviation simulates o s := (sreturns (do_op o) s (fun r s' => store_ok s' /\ spec_step o (view s) r (view s'))).

Lemma view_same s a l : view s !! a = Some l -> view s = <[a := l]> (view s).
Proof using. intros Hl. symmetry. by apply insert_id. Qed.

Lemma creates_new s l b s' : creates s l b s' -> store_ok s' /\ new_list (view s) l (RNew b) (view s').
Proof using. intros (H1 & H2 & H3). split; [done|]. by exists b. Qed.

Lemma answering_changed {B} (c : SM Objects B) f s a l' ok b : store_ok s -> sspec c s (fun r s' => changed s a r l' ok b s') ->
  sreturns (answering c f) s (fun r s' => store_ok s' /\
    if ok : bool then r = f b /\ view s' = <[a := l']> (view s) else r = RError EIndexError /\ view s' = view s).
Proof using.
  clear Heq Hmem. intros Hs Hc. apply array_answering_spec. eapply sspec_mono; [exact Hc|]. unfold changed. intros r s'.
  destruct ok; [by intros (-> & ? & ->)|by intros [-> ->]].
Qed.

(** An answer that leaves the lists alone. *)
Lemma answering_pure {A} (c : SM Objects A) f s (P : A -> Prop) (Q : answer -> Prop) :
  store_ok s -> sreturns c s (fun x s' => s' = s /\ P x) -> (forall x, P x -> Q (f x)) ->
  sreturns (answering c f) s (fun r s' => store_ok s' /\ Q r /\ view s' = view s).
Proof using. clear Heq Hmem. intros Hs Hc HQ. eapply answering_returns; [exact Hc|]. intros x s' [-> Hx]. split_and!; [done|by apply HQ|done]. Qed.

Lemma usable_len m a : usable m a -> exists l, m !! a = Some l /\ zlen l < 2 ^ 30.
Proof using. done. Qed.

Lemma new_array_spec n s : store_ok s -> 0 <= n < 2 ^ 30 -> simulates (OpNew n) s.
Proof using.
  clear Heq Hmem. intros Hs Hn. eapply answering_returns; [apply AMakeArrayND_spec; lia|]. intros b s' (-> & post & _ & ->).
  destruct (update_new s n (replicate (Z.to_nat n) INil) post Hs) as (U1 & U2 & U3); [lia|rewrite length_replicate; lia|].
  split; [done|]. by exists (o_next s).
Qed.

Lemma mul_bound (l : list Item) z : zlen l < 2 ^ 30 -> - 2 ^ 28 < z < 2 ^ 28 -> zlen l * Z.max z 0 <= 2 ^ 58.
Proof using. clear Heq Hmem. intros Hl Hz. nia. Qed.

Lemma array_op_spec o s : store_ok s -> op_valid o (view s) -> simulates o s.
Proof.
  intros Hs Hv. destruct o as [n|a z|a lo hi|a z x|a x|a z x|a z|a x|a b|a b|a z|a|a|a x|a x|a x|a x|a fuel]; cbn [op_valid] in Hv; [by apply new_array_spec|..].
  all: cbn [do_op spec_step]; cbv zeta.
  - destruct Hv as [(l & Hl & Hlen) Hz]. eapply sreturns_mono.
    { apply (array_answering_spec _ _ _ (fun r s' => s' = s /\ r = match item_at_index l z with Some x => RItem x | None => RError EIndexError end)).
      eapply sspec_mono; [apply (AArray_get_spec s a l Hs Hl z); (done || lia)|]. intros r s' [-> ->]. by destruct (item_at_index l z). }
    intros r s' [-> ->]. split; [done|]. exists l. split; [done|]. unfold item_at_index. destruct (_ && _) eqn:E; [|done].
    apply andb_prop in E as [E1%Z.leb_le E2%Z.ltb_lt]. destruct (lookup_lt_is_Some_2 l (Z.to_nat (position (zlen l) z)) ltac:(lia)) as [x ->].
    split; [done|]. by apply view_same.
  - destruct Hv as ((l & Hl & Hlen) & Hlo & Hhi). eapply answering_returns; [apply (AArray_get_slice s a l Hs Hl lo hi); (done || lia)|].
    intros x s' (b & -> & Hc). apply creates_new in Hc as [? ?]. split; [done|]. by exists l.
  - destruct Hv as [(l & Hl & Hlen) Hz]. eapply sreturns_mono; [apply answering_changed; [done|apply (AArray_set_spec s a l Hs Hl z x); (done || lia)]|].
    intros r s' [Hs' Hr]. split; [done|]. by exists l.
  - destruct Hv as (l & Hl & Hlen). eapply answering_returns; [apply (AArrayAppend_spec s a l Hs Hl x); lia|]. intros _ s' [Hs' Hr]. split; [done|]. by exists l.
  - destruct Hv as [(l & Hl & Hlen) Hz]. eapply sreturns_mono; [apply answering_changed; [done|apply (AArrayInsertAt_spec s a l Hs Hl z x); (done || lia)]|].
    intros r s' [Hs' Hr]. split; [done|]. exists l. split; [done|].
    by replace (position (zlen l) z <? zlen l + 1) with (position (zlen l) z <=? zlen l)
      by (destruct (Z.leb_spec (position (zlen l) z) (zlen l)), (Z.ltb_spec (position (zlen l) z) (zlen l + 1)); lia).
  - destruct Hv as [(l & Hl & Hlen) Hz]. eapply sreturns_mono.
    { apply (array_answering_spec _ _ _ (fun r s' => store_ok s' /\ let p := position (zlen l) z in if (0 <=? p) && (p <? zlen l)
        then exists x, l !! Z.to_nat p = Some x /\ r = RItem x /\ view s' = <[a := removed l (Z.to_nat p)]> (view s) else r = RError EIndexError /\ view s' = view s)).
      eapply sspec_mono; [apply (AArrayRemoveAt_spec s a l Hs Hl z); (done || lia)|]. cbv zeta. intros r s'.
      destruct (_ && _); [intros (x & Hx & -> & ? & ?); split; [done|]; by exists x|by intros [-> ->]]. }
    intros r s' [Hs' Hr]. split; [done|]. exists l. split; [done|]. cbv zeta in Hr. destruct (_ && _); [|done].
    destruct Hr as (x & -> & -> & ->). done.
  - destruct Hv as (l & Hl & Hlen & Hc). apply array_answering_spec. eapply sspec_mono.
    { apply (AArrayRemove_spec s a l Hs Hl eqf comparable Heq x). intros l' y Hl' Hsub Hy. by eapply Hc. }
    pose proof (remove_memory (fun l' y => eqf (<[a := l']> (view s)) y x) l ltac:(intros; apply Hmem) [] []) as Hm.
    intros r s'. destruct (remove_list _ [] [] l) as [l' e] eqn:E. intros (-> & Hs' & Hv'). cbn [snd] in Hm.
    assert (Hspec : forall x', x' = match e with None => RNone | Some e => RError e end -> store_ok s' /\ exists l, view s !! a = Some l /\
      let '(l', e) := remove_list (fun l' y => eqf (<[a := l']> (view s)) y x) [] [] l in
      x' = match e with None => RNone | Some e => RError e end /\ view s' = <[a := l']> (view s)).
    { intros x' ->. split; [done|]. exists l. split; [done|]. by rewrite E. }
    destruct e as [e|]; [|by apply Hspec]. destruct e; try (by apply Hspec). done.
  - destruct Hv as [(l & Hl & Hlen) (l' & Hl' & Hlen')]. eapply answering_returns; [apply (AArrayExtend_spec s a l Hs Hl b l' Hl'); lia|].
    intros _ s' [Hs' Hr]. split; [done|]. by exists l, l'.
  - destruct Hv as [(l & Hl & Hlen) (l' & Hl' & Hlen')]. eapply answering_returns; [apply (AConcatArrays_spec s a l Hs Hl b l' Hl'); lia|].
    intros c s' Hc. apply creates_new in Hc as [? ?]. split; [done|]. by exists l, l'.
  - destruct Hv as [(l & Hl & Hlen) Hz]. apply array_answering_spec. eapply sspec_mono.
    { apply (AArray_mul_spec s a l Hs Hl z); [unfold short_range, A_SHORT_INT_MIN, A_SHORT_INT_MAX; lia|by apply mul_bound|lia|lia]. }
    intros r s'. destruct (z <? 0) eqn:E.
    + intros [-> ->]. split; [done|]. by exists l.
    + intros (b & -> & Hc). apply creates_new in Hc as [? ?]. split; [done|]. by exists l.
  - destruct Hv as (l & Hl & Hlen). eapply answering_returns; [apply (AArrayCopy_spec s a l Hs Hl); lia|]. intros c s' Hc. apply creates_new in Hc as [? ?]. split; [done|]. by exists l.
  - destruct Hv as (l & Hl & Hlen). eapply answering_returns; [by apply (array_len s Hs a l)|]. intros n s' [-> ->]. split; [done|]. by exists l.
  - destruct Hv as (l & Hl & Hlen & Hc). pose proof (search_memory (eqf (view s) x) l ltac:(intros; apply Hmem)) as Hm.
    eapply sreturns_mono; [eapply answering_yields; [|by apply (AArray_in_yields s a l Hs Hl eqf comparable Heq)]|].
    { destruct (search _ l); [done|congruence]. }
    intros r s' [-> ->]. split; [done|]. exists l. split; [done|]. by destruct (search _ l).
  - destruct Hv as (l & Hl & Hlen & Hc). pose proof (search_memory (fun y => eqf (view s) y x) l ltac:(intros; apply Hmem)) as Hm.
    eapply sreturns_mono; [eapply answering_yields; [|apply (AArrayFind_yields s a l Hs Hl eqf comparable Heq); [lia|done]]|].
    { destruct (search _ l); [done|congruence]. }
    intros r s' [-> ->]. split; [done|]. exists l. split; [done|]. destruct (search _ l) as [[i|]|e] eqn:E; [|done..].
    apply search_range in E. split; [|done]. unfold word_answer. f_equal. apply word_int_nonneg. cbn. lia.
  - destruct Hv as (l & Hl & Hlen & Hc). pose proof (search_memory (fun y => eqf (view s) y x) l ltac:(intros; apply Hmem)) as Hm.
    eapply sreturns_mono; [eapply answering_yields; [|apply (AArrayIndex_yields s a l Hs Hl eqf comparable Heq); [lia|done]]|].
    { destruct (search _ l) as [[i|]|]; [done..|congruence]. }
    intros r s' [-> ->]. split; [done|]. exists l. split; [done|]. destruct (search _ l) as [[i|]|e] eqn:E; [|done..].
    apply search_range in E. split; [|done]. unfold word_answer. f_equal. apply word_int_nonneg. lia.
  - destruct Hv as (l & Hl & Hlen & Hc). pose proof (count_memory (fun y => eqf (view s) y x) l ltac:(intros; apply Hmem)) as Hm.
    eapply sreturns_mono; [eapply answering_yields; [|apply (AArrayCount_yields s a l Hs Hl eqf comparable Heq); [lia|done]]|].
    { destruct (count_true _ l); [done|congruence]. }
    intros r s' [-> ->]. split; [done|]. exists l. split; [done|]. destruct (count_true _ l) as [n|e] eqn:E; [|done..].
    apply count_true_range in E. split; [|done]. unfold word_answer. f_equal. apply word_int_nonneg. lia.
  - destruct Hv as (l & Hl & Hf). eapply answering_returns; [by apply (AArrayItems_spec s a l Hs Hl)|]. intros xs s' [-> ->]. split; [done|]. by exists l.
Qed.

(** ** Clients *)

(** A client chooses each operation by the answers so far. *)
Fixpoint run_client (n : nat) (client : list answer -> array_op) (past : list answer) : SM Objects (list answer) :=
  match n with
  | O => mret past
  | S n => r ← do_op (client past); run_client n client (past ++ [r])
  end.

Inductive spec_run (client : list answer -> array_op) : nat -> list answer -> gmap N (list Item) -> list answer -> gmap N (list Item) -> Prop :=
  | spec_done past m : spec_run client 0 past m past m
  | spec_more n past m r m1 past' m' : spec_step (client past) m r m1 -> spec_run client n (past ++ [r]) m1 past' m' ->
      spec_run client (S n) past m past' m'.

(** All the operations of a client are valid where the specification leads. *)
Fixpoint client_ok (client : list answer -> array_op) (n : nat) (past : list answer) (m : gmap N (list Item)) : Prop :=
  match n with
  | O => True
  | S n => op_valid (client past) m /\ forall r m1, spec_step (client past) m r m1 -> client_ok client n (past ++ [r]) m1
  end.

End clients.

(** C37: on every store without dangling items, also when arrays contain
    themselves, the comparison of two arrays or tuples changes nothing and
    returns or raises what [compare_items] computes from the lists: ValueError
    where both items are arrays at the fifth level, otherwise the outcome of the
    first comparison that fails or tells two items apart, or the order of the
    lengths.  It is assumed that the comparisons of items that are not both
    arrays end, returning or raising an exception as [leaf] says, and change
    nothing; those of pairs and instances that hold arrays are among them.  If
    the items unfold to trees of at most four levels of arrays, and the
    comparisons of their items return, the result is the order of the trees,
    which for equality is that all items are the same and for less the
    lexicographic order by the first items that differ, or by the lengths. *)
Theorem compare_arrays_correct (I : ItemOps) (leaf : Item -> Item -> AOperator -> bool + exn) s x y op :
  (forall x y op, AIsArrayOrTuple x && AIsArrayOrTuple y = false -> syields (ACompareOrder x y op) s (leaf x y op)) ->
  (forall (m n : nat) op, Z.of_nat m < 2 ^ 31 -> Z.of_nat n < 2 ^ 31 ->
    leaf (int_item (Z.of_nat m)) (int_item (Z.of_nat n)) op = inl (length_order m n op)) ->
  store_ok s -> (forall a l, view s !! a = Some l -> zlen l < 2 ^ 31) -> closed (view s) ->
  valid_item (view s) x -> valid_item (view s) y -> AIsArrayOrTuple x && AIsArrayOrTuple y = true ->
  syields (ACompareArrays x y op) s (compare_items (view s) leaf 4 x y op) /\
  (forall lf t u, unfold_item (view s) 4 x = Some t -> unfold_item (view s) 4 y = Some u -> leaf_returns leaf lf t u ->
    compare_items (view s) leaf 4 x y op = inl (order lf t u op) /\
    (order lf t u OPER_EQ = true <-> same lf t u) /\ (order lf t u OPER_LT = true <-> less lf t u)).
Proof.
  intros Hleaf Hint Hs Hlen Hc Hx Hy Hxy. split; [by apply ACompareArrays_yields|].
  intros lf t u Ht Hu Hlf. split_and!; [by apply compare_items_order|apply order_same|apply order_less].
Qed.

(** ** Witnesses *)

(** The comparison of integers and nil; other items are not equal and have no
    order. *)
Definition demo_leaf (x y : Item) (op : AOperator) : bool + exn :=
  match x, y with
  | IVal (VInt v), IVal (VInt w) =>
    inl (if AValueToInt v <? AValueToInt w then ALtSatisfiesOp op
         else if AValueToInt v =? AValueToInt w then AEqSatisfiesOp op else AGtSatisfiesOp op)
  | _, _ =>
    match op with
    | OPER_EQ => inl (match x, y with INil, INil => true | _, _ => false end)
    | OPER_NEQ => inl (match x, y with INil, INil => false | _, _ => true end)
    | _ => inr ETypeError
    end
  end.

Definition outcome {A} (r : A + exn) : SM Objects A := match r with inl a => mret a | inr e => lift (raise e) end.

Lemma outcome_yields {A} (r : A + exn) s : syields (outcome r) s r.
Proof. destruct r; [apply syields_ret|apply syields_raise]. Qed.

(** Items whose equality is [eq]. *)
Definition ops_with (eq : Item -> Item -> SM Objects bool) : ItemOps := {|
  AIsArraySubType := fun _ => false;
  ALen := fun _ => lift (raise ETypeError);
  AGetItemAt := fun _ _ => lift (raise ETypeError);
  AIterator := fun _ => lift (raise ETypeError);
  ANext := fun _ => mret None;
  AIsEq := eq;
  AIsLt := fun x y => outcome (demo_leaf x y OPER_LT);
  AIsGt := fun x y => outcome (demo_leaf x y OPER_GT);
  ACompareOrder := fun x y op => outcome (demo_leaf x y op);
  AStdHash := fun x => mret (IVal (item_value x))
|}.

(** The equality of arrays is the one of [std_array.c]. *)
Definition demo_ops : ItemOps :=
  ops_with (fun x y =>
    if AIsArrayOrTuple x && AIsArrayOrTuple y then @ACompareArrays (ops_with (fun x y => outcome (demo_leaf x y OPER_EQ))) x y OPER_EQ
    else outcome (demo_leaf x y OPER_EQ)).

Definition demo_eqf (m : gmap N (list Item)) (x y : Item) : bool + exn := compare_items m demo_leaf 4 x y OPER_EQ.

Definition demo_comparable (m : gmap N (list Item)) (x y : Item) : Prop :=
  closed m /\ (forall a l, m !! a = Some l -> zlen l < 2 ^ 31) /\ valid_item m x /\ valid_item m y.

Lemma demo_lengths (m n : nat) op : Z.of_nat m < 2 ^ 31 -> Z.of_nat n < 2 ^ 31 ->
  demo_leaf (int_item (Z.of_nat m)) (int_item (Z.of_nat n)) op = inl (length_order m n op).
Proof.
  intros Hm Hn. unfold demo_leaf, int_item, length_order. f_equal. rewrite !word_int_nonneg by lia.
  destruct (Z.ltb_spec (Z.of_nat m) (Z.of_nat n)), (Nat.ltb_spec m n); try lia; [done|].
  destruct (Z.eqb_spec (Z.of_nat m) (Z.of_nat n)), (Nat.eqb_spec m n); (lia || done).
Qed.

Lemma demo_equality x y s : store_ok s -> demo_comparable (view s) x y -> syields (@AIsEq demo_ops x y) s (demo_eqf (view s) x y).
Proof.
  intros Hs (Hc & Hlen & Hx & Hy). unfold demo_eqf. cbn [AIsEq demo_ops ops_with].
  destruct (AIsArrayOrTuple x && AIsArrayOrTuple y) eqn:E; [|cbn [compare_items]; rewrite E; apply outcome_yields].
  apply ACompareArrays_yields; try done; [intros; apply outcome_yields|apply demo_lengths].
Qed.

Lemma demo_memory m x y : demo_eqf m x y <> inr EMemoryError.
Proof.
  unfold demo_eqf. assert (Hl : forall x y op, demo_leaf x y op <> inr EMemoryError).
  { intros x' y' op. unfold demo_leaf. repeat (case_match; try done). }
  generalize OPER_EQ as op. generalize 4%nat as d. intros d. revert x y.
  induction d as [|d IH]; intros x y op; cbn [compare_items]; (destruct (_ && _); [|apply Hl]); [done|].
  assert (Hd : forall l1 l2, first_diff (fun v w => compare_items m demo_leaf d v w OPER_EQ) l1 l2 <> inr EMemoryError).
  { induction l1 as [|v l1 IHl]; intros [|w l2]; try done. cbn [first_diff]. specialize (IH v w OPER_EQ).
    destruct (compare_items _ _ _ _ _ _) as [[]|]; [apply IHl|done|congruence]. }
  specialize (Hd (list_at m x) (list_at m y)). destruct (first_diff _ _ _) as [[[v w]|]|]; [apply IH|done|congruence].
Qed.

(** No arrays. *)
Definition no_objects : Objects := MkObjects ∅ ∅ 0%N.

Lemma no_objects_ok : store_ok no_objects.
Proof. split; intros *; simpl; rewrite ?lookup_empty; done. Qed.

(** The array 0, which is [7], and the array 2, which contains itself. *)
Definition demo_store : Objects :=
  MkObjects (<[1%N := [int_item 7]]> (<[3%N := [IArray 2]]> ∅))
    (<[0%N := MkArrayObj 1 (AIntToValue 1) (AIntToValue 1)]> (<[2%N := MkArrayObj 3 (AIntToValue 1) (AIntToValue 1)]> ∅)) 4%N.

Lemma demo_store_cases a o : o_arr demo_store !! a = Some o ->
  (a = 0%N /\ o = MkArrayObj 1 (AIntToValue 1) (AIntToValue 1)) \/ (a = 2%N /\ o = MkArrayObj 3 (AIntToValue 1) (AIntToValue 1)).
Proof. simpl. rewrite !lookup_insert_Some, lookup_empty. intuition (try done; by subst). Qed.

Lemma demo_store_ok : store_ok demo_store.
Proof.
  split.
  - intros a o [[-> ->]|[-> ->]]%demo_store_cases; eexists; (split; [done|]); exists 1, 1; simpl; split_and!; (done || lia).
  - by intros a b o p [[-> ->]|[-> ->]]%demo_store_cases [[-> ->]|[-> ->]]%demo_store_cases.
  - by intros a o [[-> ->]|[-> ->]]%demo_store_cases.
  - intros f l. simpl. rewrite !lookup_insert_Some, lookup_empty. intros [[<- _]|[_ [[<- _]|[_ ?]]]]; done.
Qed.

Lemma demo_view a l : view demo_store !! a = Some l -> (a = 0%N /\ l = [int_item 7]) \/ (a = 2%N /\ l = [IArray 2]).
Proof. intros (o & [[-> ->]|[-> ->]]%demo_store_cases & ->)%view_lookup; [by left|by right]. Qed.

(** A client that makes an array, appends it to itself, and then looks for it in
    itself, removes nil and gets the items. *)
Definition demo_client (past : list answer) : array_op :=
  match past with
  | [RNew b] => OpAppend b (IArray b)
  | [RNew b; _] => OpFind b (IArray b)
  | [RNew b; _; _] => OpRemove b INil
  | RNew b :: _ => OpItems b 9
  | _ => OpNew 1
  end.

(** The store with one array, which may hold itself. *)
Lemma demo_one b l x y : zlen l < 2 ^ 31 -> (forall z, z ∈ l -> z ∈ [INil; IArray b]) -> x ∈ [INil; IArray b] -> y ∈ [INil; IArray b] ->
  demo_comparable (<[b := l]> ∅) x y.
Proof.
  intros Hlen Hl Hx Hy. assert (Hv : forall z, z ∈ [INil; IArray b] -> valid_item (<[b := l]> ∅) z).
  { intros z. rewrite !elem_of_cons, elem_of_nil. intros [->|[->|[]]]; [done|]. exists l. apply lookup_insert_eq. }
  assert (Hone : forall a k, (<[b := l]> ∅ : gmap N (list Item)) !! a = Some k -> k = l).
  { intros a k [[_ <-]|[_ ?]]%lookup_insert_Some; [done|]. by rewrite lookup_empty in *. }
  split_and!; [|by intros a k ->%Hone|by apply Hv..]. intros a k ->%Hone. apply list.Forall_forall. auto.
Qed.

Lemma demo_client_ok : client_ok demo_eqf demo_comparable demo_client 5 [] (view no_objects).
Proof.
  change (view no_objects) with (∅ : gmap N (list Item)).
  cbn [client_ok app demo_client op_valid spec_step]. split; [lia|]. intros r1 m1 (b & Hb & -> & ->). change (replicate (Z.to_nat 1) INil) with [INil].
  cbv zeta. split; [eexists; by split; [apply lookup_insert_eq|]|].
  intros r2 m2 (l & Hl & -> & ->). rewrite lookup_insert_eq in Hl. injection Hl as <-. rewrite insert_insert_eq. cbn [app].
  set (l2 := [INil; IArray b]). split.
  { exists l2. split_and!; [apply lookup_insert_eq|done|]. intros y Hy. apply demo_one; [done|done|done|right; left]. }
  intros r3 m3 (l & Hl & _ & ->). split.
  { exists l2. split_and!; [apply lookup_insert_eq|done|]. intros y Hy k l' Hk Hlen Hsub. rewrite lookup_insert_eq in Hk. injection Hk as <-.
    rewrite insert_insert_eq. apply demo_one; [by rewrite Hlen|done|done|left]. }
  intros r4 m4 (k & Hk & Hr). rewrite lookup_insert_eq in Hk. injection Hk as <-.
  assert (Hlen : forall test k1 k2 k3, (length (remove_list test k1 k2 k3).1 <= length k1 + length k2 + length k3)%nat).
  { clear. intros test k1 k2 k3. revert k1 k2. induction k3 as [|y k3 IH]; intros k1 k2; cbn [remove_list length fst]; [lia|].
    destruct (test _ y) as [[]|].
    - etransitivity; [apply IH|]. rewrite length_app. cbn [length]. lia.
    - etransitivity; [apply IH|]. rewrite length_drop, !length_app. cbn [length]. lia.
    - cbn [fst]. rewrite !length_app. cbn [length]. lia. }
  specialize (Hlen (fun l' y => demo_eqf (<[b := l']> (<[b := l2]> ∅)) y INil) [] [] l2). destruct (remove_list _ [] [] l2) as [l' e].
  destruct Hr as [_ ->]. split; [|done]. exists l'. split; [apply lookup_insert_eq|]. cbn in Hlen. lia.
Qed.


Lemma compare_arrays_correct_witness :
  syields (@ACompareArrays demo_ops (IArray 0) (IArray 0) OPER_LTE) demo_store (inl true) /\
  syields (@ACompareArrays demo_ops (IArray 0) (IArray 2) OPER_LT) demo_store (inr ETypeError) /\
  syields (@ACompareArrays demo_ops (IArray 2) (ITuple 2) OPER_EQ) demo_store (inr EValueError) /\
  compare_items (view demo_store) demo_leaf 4 (IArray 0) (IArray 0) OPER_LTE =
    inl (order (fun _ _ => AEqSatisfiesOp) (Node (IArray 0) [Leaf (int_item 7)]) (Node (IArray 0) [Leaf (int_item 7)]) OPER_LTE).
Proof.
  assert (Hlen : forall a l, view demo_store !! a = Some l -> zlen l < 2 ^ 31) by (by intros a l [[-> ->]|[-> ->]]%demo_view).
  assert (Hc : closed (view demo_store)) by (intros a l [[-> ->]|[-> ->]]%demo_view; repeat constructor; simpl; by eexists).
  pose proof (fun x y op => compare_arrays_correct demo_ops demo_leaf demo_store x y op ltac:(intros; apply outcome_yields) demo_lengths
    demo_store_ok Hlen Hc) as H.
  split_and!.
  - apply (H (IArray 0) (IArray 0) OPER_LTE); [by eexists|by eexists|done].
  - apply (H (IArray 0) (IArray 2) OPER_LT); [by eexists|by eexists|done].
  - apply (H (IArray 2) (ITuple 2) OPER_EQ); [by eexists|by eexists|done].
  - apply (H (IArray 0) (IArray 0) OPER_LTE); [by eexists|by eexists|done|done|done|]. cbn. split; [|done]. by intros [].
Defined.
