(* ===== verification/Output.v ===== *)
(** * Output: the byte code that the compiler emits

    [output.c], [output.h], [opcode.h] and [opcodesize.c]: the buffers of the
    byte code generator - code, saved code, exception information and debugging
    information - which are stacks of sections, one per function that is being
    compiled.  The second part gives the four lists that the buffers stand for
    ([out_view]) and the effect of every operation on them. *)

From S2P Require Import Prelude Runtime Digits Value.

Open Scope Z_scope.

(** ** Opcodes *)

Inductive AOp :=
  | OP_NOP | OP_ASSIGN_IL | OP_ASSIGN_LL | OP_ASSIGN_GL | OP_ASSIGN_ML | OP_ASSIGN_VL |
    OP_ASSIGN_MDL | OP_ASSIGN_EL | OP_ASSIGN_FL | OP_ASSIGN_LL_REV | OP_ASSIGN_LG | OP_ASSIGN_LM |
    OP_ASSIGN_LV | OP_ASSIGN_LMD | OP_ASSIGN_LE | OP_ASSIGN_NILL | OP_ASSIGN_PL |
    OP_LEAVE_FINALLY | OP_INC_L | OP_DEC_L | OP_ASSIGN_FALSEL | OP_MINUS_LL | OP_AGET_LLL |
    OP_AGET_GLL | OP_HALT | OP_JMP | OP_ASSIGN_TRUEL_SKIP | OP_ASET_LLL | OP_ASET_GLL | OP_CALL_L |
    OP_CALL_G | OP_CALL_M | OP_RAISE_L | OP_RET_L | OP_RET | OP_CREATE_TUPLE | OP_CREATE_ANON |
    OP_CREATE_EXPOSED | OP_CHECK_TYPE | OP_FOR_INIT | OP_FOR_LOOP | OP_FOR_LOOP_RANGE |
    OP_IF_TRUE_L | OP_IF_FALSE_L | OP_CREATE_ARRAY | OP_EXPAND | OP_IS_DEFAULT | OP_ASSIGN_LGC |
    OP_ADD_LLL | OP_SUB_LLL | OP_EQ_LL | OP_NEQ_LL | OP_LT_LL | OP_GTE_LL | OP_GT_LL | OP_LTE_LL |
    OP_GET_LL | OP_GET_LI | OP_GET_LG | OP_GET_IL | OP_GET_II | OP_GET_IG | OP_GET_GL | OP_GET_GI |
    OP_GET_GG | OP_TRY | OP_TRY_END | OP_FILLER3 | OP_ADD_L | OP_SUB_L | OP_EQ | OP_NEQ | OP_LT |
    OP_GTE | OP_GT | OP_LTE | OP_IN_L | OP_NOT_IN_L | OP_IS_L | OP_IS_NOT_L | OP_MUL_L | OP_DIV_L |
    OP_IDV_L | OP_MOD_L | OP_POW_L | OP_PAIR_L | OP_RNG_L | OP_FOR_L.

Definition all_ops : list AOp :=
  [OP_NOP; OP_ASSIGN_IL; OP_ASSIGN_LL; OP_ASSIGN_GL; OP_ASSIGN_ML; OP_ASSIGN_VL; OP_ASSIGN_MDL;
   OP_ASSIGN_EL; OP_ASSIGN_FL; OP_ASSIGN_LL_REV; OP_ASSIGN_LG; OP_ASSIGN_LM; OP_ASSIGN_LV;
   OP_ASSIGN_LMD; OP_ASSIGN_LE; OP_ASSIGN_NILL; OP_ASSIGN_PL; OP_LEAVE_FINALLY; OP_INC_L; OP_DEC_L;
   OP_ASSIGN_FALSEL; OP_MINUS_LL; OP_AGET_LLL; OP_AGET_GLL; OP_HALT; OP_JMP; OP_ASSIGN_TRUEL_SKIP;
   OP_ASET_LLL; OP_ASET_GLL; OP_CALL_L; OP_CALL_G; OP_CALL_M; OP_RAISE_L; OP_RET_L; OP_RET;
   OP_CREATE_TUPLE; OP_CREATE_ANON; OP_CREATE_EXPOSED; OP_CHECK_TYPE; OP_FOR_INIT; OP_FOR_LOOP;
   OP_FOR_LOOP_RANGE; OP_IF_TRUE_L; OP_IF_FALSE_L; OP_CREATE_ARRAY; OP_EXPAND; OP_IS_DEFAULT;
   OP_ASSIGN_LGC; OP_ADD_LLL; OP_SUB_LLL; OP_EQ_LL; OP_NEQ_LL; OP_LT_LL; OP_GTE_LL; OP_GT_LL;
   OP_LTE_LL; OP_GET_LL; OP_GET_LI; OP_GET_LG; OP_GET_IL; OP_GET_II; OP_GET_IG; OP_GET_GL;
   OP_GET_GI; OP_GET_GG; OP_TRY; OP_TRY_END; OP_FILLER3; OP_ADD_L; OP_SUB_L; OP_EQ; OP_NEQ; OP_LT;
   OP_GTE; OP_GT; OP_LTE; OP_IN_L; OP_NOT_IN_L; OP_IS_L; OP_IS_NOT_L; OP_MUL_L; OP_DIV_L; OP_IDV_L;
   OP_MOD_L; OP_POW_L; OP_PAIR_L; OP_RNG_L; OP_FOR_L].

(** The number of an opcode in its enumeration, and the table of the sizes. *)
Definition op_num (o : AOp) : Z :=
  match o with
  | OP_NOP => 0 | OP_ASSIGN_IL => 1 | OP_ASSIGN_LL => 2 | OP_ASSIGN_GL => 3 | OP_ASSIGN_ML => 4 |
    OP_ASSIGN_VL => 5 | OP_ASSIGN_MDL => 6 | OP_ASSIGN_EL => 7 | OP_ASSIGN_FL => 8 |
    OP_ASSIGN_LL_REV => 9 | OP_ASSIGN_LG => 10 | OP_ASSIGN_LM => 11 | OP_ASSIGN_LV => 12 |
    OP_ASSIGN_LMD => 13 | OP_ASSIGN_LE => 14 | OP_ASSIGN_NILL => 15 | OP_ASSIGN_PL => 16 |
    OP_LEAVE_FINALLY => 17 | OP_INC_L => 18 | OP_DEC_L => 19 | OP_ASSIGN_FALSEL => 20 |
    OP_MINUS_LL => 21 | OP_AGET_LLL => 22 | OP_AGET_GLL => 23 | OP_HALT => 24 | OP_JMP => 25 |
    OP_ASSIGN_TRUEL_SKIP => 26 | OP_ASET_LLL => 27 | OP_ASET_GLL => 28 | OP_CALL_L => 29 |
    OP_CALL_G => 30 | OP_CALL_M => 31 | OP_RAISE_L => 32 | OP_RET_L => 33 | OP_RET => 34 |
    OP_CREATE_TUPLE => 35 | OP_CREATE_ANON => 36 | OP_CREATE_EXPOSED => 37 | OP_CHECK_TYPE => 38 |
    OP_FOR_INIT => 39 | OP_FOR_LOOP => 40 | OP_FOR_LOOP_RANGE => 41 | OP_IF_TRUE_L => 42 |
    OP_IF_FALSE_L => 43 | OP_CREATE_ARRAY => 44 | OP_EXPAND => 45 | OP_IS_DEFAULT => 46 |
    OP_ASSIGN_LGC => 47 | OP_ADD_LLL => 48 | OP_SUB_LLL => 49 | OP_EQ_LL => 50 | OP_NEQ_LL => 51 |
    OP_LT_LL => 52 | OP_GTE_LL => 53 | OP_GT_LL => 54 | OP_LTE_LL => 55 | OP_GET_LL => 56 |
    OP_GET_LI => 57 | OP_GET_LG => 58 | OP_GET_IL => 59 | OP_GET_II => 60 | OP_GET_IG => 61 |
    OP_GET_GL => 62 | OP_GET_GI => 63 | OP_GET_GG => 64 | OP_TRY => 65 | OP_TRY_END => 66 |
    OP_FILLER3 => 67 | OP_ADD_L => 68 | OP_SUB_L => 69 | OP_EQ => 70 | OP_NEQ => 71 | OP_LT => 72 |
    OP_GTE => 73 | OP_GT => 74 | OP_LTE => 75 | OP_IN_L => 76 | OP_NOT_IN_L => 77 | OP_IS_L => 78 |
    OP_IS_NOT_L => 79 | OP_MUL_L => 80 | OP_DIV_L => 81 | OP_IDV_L => 82 | OP_MOD_L => 83 |
    OP_POW_L => 84 | OP_PAIR_L => 85 | OP_RNG_L => 86 | OP_FOR_L => 87
  end.

Definition AOpcodeSizes : list Z :=
  [1; 3; 3; 3; 4; 3; 4; 3; 3; 3; 3; 4; 3; 4; 3; 2; 3; 4; 2; 2; 3; 3; 4; 4; 1; 2; 2; 4; 4; 0; 0; 0;
   0; 2; 1; 4; 0; 2; 3; 4; 3; 3; 3; 3; 4; 0; 3; 0; 4; 4; 4; 4; 4; 4; 4; 4; 3; 3; 3; 3; 3; 3; 3; 3;
   3; 1; 2; 0; 2; 2; 2; 2; 2; 2; 2; 2; 2; 2; 2; 2; 2; 2; 2; 2; 2; 2; 2; 3].

Coercion op_num : AOp >-> Z.

Lemma op_num_nth o : all_ops !! Z.to_nat (op_num o) = Some o.
Proof. by destruct o. Qed.

(** The opcode that a word of code stands for. *)
Definition op_of (w : Z) : option AOp := if w <? 0 then None else all_ops !! Z.to_nat w.

Lemma opcode_of_num o : op_of (op_num o) = Some o.
Proof. by destruct o. Qed.

#[export] Instance AOp_eq_dec : EqDecision AOp.
Proof.
  refine (fun o p => cast_if (decide (op_num o = op_num p))).
  - apply (inj Some). rewrite <- (opcode_of_num o), <- (opcode_of_num p). by f_equal.
  - congruence.
Defined.

Definition AIsComparisonOpcode (w : Z) : bool := (op_num OP_EQ <=? w) && (w <=? op_num OP_IS_NOT_L).
Definition AIsCallOpcode (w : Z) : bool := (op_num OP_CALL_L <=? w) && (w <=? op_num OP_CALL_M).
Definition AIsSpecialAssignmentOpcode (w : Z) : bool :=
  (w =? OP_AGET_LLL) || (w =? OP_AGET_GLL) || (w =? OP_ASSIGN_ML) || (w =? OP_ASSIGN_MDL).

Definition A_DISPLACEMENT_SHIFT : Z := Z.shiftl 1 28.
(** [ABranchTarget(ip)], where [w] is the word at index [ip]. *)
Definition ABranchTarget (ip w : Z) : Z := ip + (w - A_DISPLACEMENT_SHIFT).
Definition A_NO_RET_VAL : Z := 32768.

(** The codes of the exception and debugging information. *)
Definition A_EXCEPT : Z := 1.
Definition A_FINALLY : Z := 3.
Definition A_LINE_NUMBER : Z := 5.
Definition A_EXCEPT_CODE_SHIFT : Z := 3.
Definition A_EXCEPT_CODE_MASK : Z := 7.
Definition A_END_TRY_BLOCK : Z := u32 (-2).
Definition AIsExceptCode (code : Z) : bool := Z.land code A_EXCEPT_CODE_MASK =? A_EXCEPT.
Definition AIsEndTryCode (code : Z) : bool := code =? A_END_TRY_BLOCK.
Definition AIsBeginTryCode (code : Z) : bool := negb (Z.testbit code 0).
Definition AIsDirectBeginTryCode (code : Z) : bool := Z.testbit code 1.
Definition AGetBeginTryCodeIndex (code : Z) : Z := Z.shiftr code 2.
Definition AIsFinallyCode (code : Z) : bool := Z.land code A_EXCEPT_CODE_MASK =? A_FINALLY.
Definition AGetFinallyLvar (code : Z) : Z := Z.shiftr code 3.
Definition AIsLineNumberCode (code : Z) : bool := Z.land code A_EXCEPT_CODE_MASK =? A_LINE_NUMBER.

(** ** The state of the generator *)

Definition INITIAL_OUTPUT_BUFFER_SIZE : Z := 512.
Definition INITIAL_SAVE_BUFFER_SIZE : Z := 128.
Definition INITIAL_EXCEPT_BUFFER_SIZE : Z := 32.
Definition INITIAL_DEBUG_INFO_BUFFER_SIZE : Z := 32.
Definition A_MAX_ACTIVE_SECTIONS : Z := 3 + 16.

Record ASectionState := MkSection {
  s_bufInd : Z;
  s_debugInfoBufInd : Z;
  s_exceptInd : Z;
  s_lineIndex : Z;
  s_prevLineCodeIndex : Z;
  s_prevLine : Z
}.

(** A buffer is its allocated words; [ASection] lists the active sections, the
    innermost first. *)
Record Output := MkOutput {
  ABuf : list Z;
  ABufInd : Z;
  APrevOpcodeInd : Z;
  ASaveBuf : list Z;
  ASaveSize : Z;
  ExceptBuf : list Z;
  ExceptBufIndex : Z;
  DebugInfoBuf : list Z;
  DebugInfoBufIndex : Z;
  LineIndex : Z;
  PrevLineCodeIndex : Z;
  PrevLine : Z;
  ASection : list ASectionState
}.

Definition set_buf (b : list Z) (i : Z) (s : Output) : Output :=
  MkOutput b i (APrevOpcodeInd s) (ASaveBuf s) (ASaveSize s) (ExceptBuf s) (ExceptBufIndex s)
    (DebugInfoBuf s) (DebugInfoBufIndex s) (LineIndex s) (PrevLineCodeIndex s) (PrevLine s) (ASection s).
Definition set_prev (p : Z) (s : Output) : Output :=
  MkOutput (ABuf s) (ABufInd s) p (ASaveBuf s) (ASaveSize s) (ExceptBuf s) (ExceptBufIndex s)
    (DebugInfoBuf s) (DebugInfoBufIndex s) (LineIndex s) (PrevLineCodeIndex s) (PrevLine s) (ASection s).
Definition set_save (b : list Z) (n : Z) (s : Output) : Output :=
  MkOutput (ABuf s) (ABufInd s) (APrevOpcodeInd s) b n (ExceptBuf s) (ExceptBufIndex s)
    (DebugInfoBuf s) (DebugInfoBufIndex s) (LineIndex s) (PrevLineCodeIndex s) (PrevLine s) (ASection s).
Definition set_except (b : list Z) (n : Z) (s : Output) : Output :=
  MkOutput (ABuf s) (ABufInd s) (APrevOpcodeInd s) (ASaveBuf s) (ASaveSize s) b n
    (DebugInfoBuf s) (DebugInfoBufIndex s) (LineIndex s) (PrevLineCodeIndex s) (PrevLine s) (ASection s).
Definition set_debug (b : list Z) (n : Z) (s : Output) : Output :=
  MkOutput (ABuf s) (ABufInd s) (APrevOpcodeInd s) (ASaveBuf s) (ASaveSize s) (ExceptBuf s) (ExceptBufIndex s)
    b n (LineIndex s) (PrevLineCodeIndex s) (PrevLine s) (ASection s).
(** [LineIndex], [PrevLineCodeIndex] and [PrevLine]. *)
Definition set_lines (i c l : Z) (s : Output) : Output :=
  MkOutput (ABuf s) (ABufInd s) (APrevOpcodeInd s) (ASaveBuf s) (ASaveSize s) (ExceptBuf s) (ExceptBufIndex s)
    (DebugInfoBuf s) (DebugInfoBufIndex s) i c l (ASection s).
Definition set_sections (l : list ASectionState) (s : Output) : Output :=
  MkOutput (ABuf s) (ABufInd s) (APrevOpcodeInd s) (ASaveBuf s) (ASaveSize s) (ExceptBuf s) (ExceptBufIndex s)
    (DebugInfoBuf s) (DebugInfoBufIndex s) (LineIndex s) (PrevLineCodeIndex s) (PrevLine s) l.

(** An assignment to a word of a buffer, and a word read from it. *)
Definition put_word (b : list Z) (i v : Z) : M (list Z) :=
  if (0 <=? i) && (i <? zlen b) then mret (<[Z.to_nat i := v]> b) else fault.
Definition get_word (b : list Z) (i : Z) : M Z :=
  if 0 <=? i then match b !! Z.to_nat i with Some w => mret w | None => fault end else fault.

(** [GrowBuffer]: where it fails, the compiler notes the lack of memory. *)
Definition GrowBuffer (buf : list Z) (newLength : Z) : M (list Z) :=
  junk ← AAlloc (newLength * 4);
  mret (buf ++ ((fun i => u32 (junk i)) <$> seqZ (zlen buf) (newLength - zlen buf))).

Definition GrowOutputBuffer : SM Output unit :=
  s ← get;
  b ← lift (GrowBuffer (ABuf s) (zlen (ABuf s) * 2));
  modify (set_buf b (ABufInd s)).

Definition AInitializeOutput : M Output :=
  b ← GrowBuffer [] INITIAL_OUTPUT_BUFFER_SIZE;
  b ← put_word b 0 OP_NOP;
  save ← GrowBuffer [] INITIAL_SAVE_BUFFER_SIZE;
  ex ← GrowBuffer [] INITIAL_EXCEPT_BUFFER_SIZE;
  dbg ← GrowBuffer [] INITIAL_DEBUG_INFO_BUFFER_SIZE;
  mret (MkOutput b 1 0 save 0 ex 0 dbg 0 0 0 0 []).

(** ** Emitting code *)

(** [if (ABufInd + n >= ABufSize) GrowOutputBuffer()]. *)
Definition ensure (n : Z) : SM Output unit :=
  s ← get; if zlen (ABuf s) <=? ABufInd s + n then GrowOutputBuffer else mret tt.

Definition note_opcode : SM Output unit := s ← get; modify (set_prev (ABufInd s)).

(** [ABuf[ABufInd + i] = v], and [ABufInd += n]. *)
Definition emit_at (i v : Z) : SM Output unit :=
  s ← get; b ← lift (put_word (ABuf s) (ABufInd s + i) v); modify (set_buf b (ABufInd s)).
Definition advance (n : Z) : SM Output unit := s ← get; modify (set_buf (ABuf s) (ABufInd s + n)).

Definition AEmitOpcode (opc : Z) : SM Output unit :=
  ensure 0 ≫= (fun _ => note_opcode ≫= (fun _ => emit_at 0 opc ≫= (fun _ => advance 1))).

Definition AEmitOpcodeArg (opc arg : Z) : SM Output unit :=
  ensure 1 ≫= (fun _ => note_opcode ≫= (fun _ =>
  emit_at 0 opc ≫= (fun _ => emit_at 1 arg ≫= (fun _ => advance 2)))).

Definition AEmitOpcode2Args (opc arg1 arg2 : Z) : SM Output unit :=
  ensure 2 ≫= (fun _ => note_opcode ≫= (fun _ =>
  emit_at 0 opc ≫= (fun _ => emit_at 1 arg1 ≫= (fun _ => emit_at 2 arg2 ≫= (fun _ => advance 3))))).

Definition AEmitArg (arg : Z) : SM Output unit :=
  ensure 0 ≫= (fun _ => emit_at 0 arg ≫= (fun _ => advance 1)).

Definition AEmit2Args (arg1 arg2 : Z) : SM Output unit :=
  ensure 1 ≫= (fun _ => emit_at 0 arg1 ≫= (fun _ => emit_at 1 arg2 ≫= (fun _ => advance 2))).

Definition AEmitOpcode3Args (opc arg1 arg2 arg3 : Z) : SM Output unit :=
  AEmitOpcode2Args opc arg1 arg2 ≫= (fun _ => AEmitArg arg3).

Definition AGetCodeIndex : SM Output Z := s ← get; mret (ABufInd s).
Definition AGetOpcode (index : Z) : SM Output Z := s ← get; lift (get_word (ABuf s) index).
Definition ASetOpcode (index value : Z) : SM Output unit :=
  s ← get; b ← lift (put_word (ABuf s) index value); modify (set_buf b (ABufInd s)).
Definition AToggleBranch (index : Z) : SM Output unit :=
  w ← AGetOpcode index; ASetOpcode index (Z.lxor w 1).
Definition opcode_size (w : Z) : M Z := get_word AOpcodeSizes w.

Definition ASetBranchDest (index dest : Z) : SM Output unit :=
  w ← AGetOpcode index;
  n ← lift (opcode_size w);
  ASetOpcode (index + n - 1) (u32 (dest - index - n + 1 + A_DISPLACEMENT_SHIFT)).

Definition AGetPrevOpcodeIndex : SM Output Z := s ← get; mret (APrevOpcodeInd s).
Definition AGetPrevOpcode : SM Output Z := i ← AGetPrevOpcodeIndex; AGetOpcode i.
Definition AClearPrevOpcode : SM Output unit := modify (set_prev 0).
Definition AEmitBack (num : Z) : SM Output unit := advance (- num).

(** ** Saving and restoring code *)

Definition ASaveCode (size : Z) : SM Output unit :=
  s ← get;
  let newSize := ASaveSize s + size in
  (if zlen (ASaveBuf s) <? newSize
   then b ← lift (GrowBuffer (ASaveBuf s) newSize); modify (set_save b (ASaveSize s)) else mret tt) ≫= (fun _ =>
  advance (- size) ≫= (fun _ =>
  s ← get;
  b ← lift (for_up 0 size (fun i b => w ← get_word (ABuf s) (ABufInd s + i); put_word b (ASaveSize s + i) w) (ASaveBuf s));
  modify (set_save b newSize))).

(** [while (ABufSize - ABufInd < size) GrowOutputBuffer()]: the buffer doubles. *)
Fixpoint grow_for (fuel : nat) (size : Z) : SM Output unit :=
  s ← get;
  if zlen (ABuf s) - ABufInd s <? size then
    match fuel with
    | O => lift fault
    | S fuel => GrowOutputBuffer ≫= (fun _ => grow_for fuel size)
    end
  else mret tt.

Definition ARestoreCode (size : Z) : SM Output unit :=
  s ← get;
  if ASaveSize s <? size then mret tt
  else
    grow_for (Z.to_nat size) size ≫= (fun _ =>
    s ← get;
    let n := ASaveSize s - size in
    b ← lift (for_up 0 size (fun i b => w ← get_word (ASaveBuf s) (n + i); put_word b (ABufInd s + i) w) (ABuf s));
    modify (set_save (ASaveBuf s) n) ≫= (fun _ =>
    modify (set_buf b (ABufInd s + size)) ≫= (fun _ => modify (set_prev 0)))).

(** ** Exception and debugging information *)

Definition AEmitExceptInfo (opc : Z) : SM Output unit :=
  s ← get;
  (if zlen (ExceptBuf s) <=? ExceptBufIndex s
   then b ← lift (GrowBuffer (ExceptBuf s) (2 * zlen (ExceptBuf s))); modify (set_except b (ExceptBufIndex s)) else mret tt) ≫= (fun _ =>
  s ← get;
  b ← lift (put_word (ExceptBuf s) (ExceptBufIndex s) opc);
  modify (set_except b (ExceptBufIndex s + 1))).

Definition AEmitDebugInfo (opc : Z) : SM Output unit :=
  s ← get;
  (if zlen (DebugInfoBuf s) <=? DebugInfoBufIndex s
   then b ← lift (GrowBuffer (DebugInfoBuf s) (2 * zlen (DebugInfoBuf s))); modify (set_debug b (DebugInfoBufIndex s)) else mret tt) ≫= (fun _ =>
  s ← get;
  b ← lift (put_word (DebugInfoBuf s) (DebugInfoBufIndex s) opc);
  modify (set_debug b (DebugInfoBufIndex s + 1)) ≫= (fun _ =>
  s ← get; modify (set_lines 3 (PrevLineCodeIndex s) (PrevLine s)))).

Definition AEmitAbsoluteLineNumber (line : Z) : SM Output unit :=
  AEmitDebugInfo (u32 (Z.lor (Z.lor A_LINE_NUMBER (Z.shiftl 1 3)) (Z.shiftl line 4))) ≫= (fun _ =>
  s ← get; modify (set_lines (LineIndex s) (PrevLineCodeIndex s) line)).

(** [DebugInfoBuf[DebugInfoBufIndex - 1] |= d << (4 + LineIndex * 7)], in the
    next field of the word emitted last. *)
Definition add_delta (d : Z) : SM Output unit :=
  s ← get;
  let i := LineIndex s + 1 in
  w ← lift (get_word (DebugInfoBuf s) (DebugInfoBufIndex s - 1));
  b ← lift (put_word (DebugInfoBuf s) (DebugInfoBufIndex s - 1) (u32 (Z.lor w (Z.shiftl d (4 + i * 7)))));
  modify (set_lines i (PrevLineCodeIndex s) (PrevLine s)) ≫= (fun _ =>
  s ← get; modify (set_debug b (DebugInfoBufIndex s))).

Definition emit_delta (d : Z) : SM Output unit :=
  s ← get;
  if negb (LineIndex s =? 3) then add_delta d
  else AEmitDebugInfo (u32 (Z.lor A_LINE_NUMBER (Z.shiftl d 4))).

(** [while (codeDelta > 15)]. *)
Fixpoint skip_code (fuel : nat) (codeDelta : Z) : SM Output Z :=
  if 15 <? codeDelta then
    match fuel with
    | O => lift fault
    | S fuel => emit_delta 15 ≫= (fun _ => skip_code fuel (codeDelta - 15))
    end
  else mret codeDelta.

Definition AEmitLineNumber (line : Z) : SM Output unit :=
  s ← get;
  let lineDelta := u32 (line - PrevLine s) in
  let codeDelta := u32 (ABufInd s - PrevLineCodeIndex s) in
  modify (set_lines (LineIndex s) (ABufInd s) line) ≫= (fun _ =>
  codeDelta ← skip_code (Z.to_nat codeDelta) codeDelta;
  if 7 <? lineDelta then
    AEmitAbsoluteLineNumber line ≫= (fun _ => emit_delta codeDelta)
  else emit_delta (Z.lor codeDelta (Z.shiftl lineDelta 4))).

(** The index of the first word of the section that is being compiled. *)
Definition section_start : SM Output Z :=
  s ← get; match ASection s with sec :: _ => mret (s_bufInd sec) | [] => lift fault end.

Definition AEmitTryBlockBegin (isDirect : bool) : SM Output unit :=
  i ← AGetCodeIndex; b ← section_start;
  AEmitExceptInfo (u32 (Z.shiftl (i - b) 2 + Z.shiftl (Z.b2z isDirect) 1)).
Definition AEmitTryBlockEnd : SM Output unit := AEmitExceptInfo A_END_TRY_BLOCK.
Definition AEmitExcept (local global : Z) : SM Output unit :=
  AEmitExceptInfo (Z.lor A_EXCEPT (Z.shiftl local A_EXCEPT_CODE_SHIFT)) ≫= (fun _ =>
  i ← AGetCodeIndex; b ← section_start;
  AEmitExceptInfo (u32 (i - b)) ≫= (fun _ => AEmitExceptInfo global)).
Definition AEmitFinally (local : Z) : SM Output unit :=
  AEmitExceptInfo (Z.lor A_FINALLY (Z.shiftl local A_EXCEPT_CODE_SHIFT)) ≫= (fun _ =>
  i ← AGetCodeIndex; b ← section_start; AEmitExceptInfo (u32 (i - b))).

(** ** Sections and functions *)

Definition AEnterSection : SM Output unit :=
  s ← get;
  if A_MAX_ACTIVE_SECTIONS <=? zlen (ASection s) then lift fault
  else
    modify (set_sections (MkSection (ABufInd s) (DebugInfoBufIndex s) (ExceptBufIndex s) (LineIndex s)
                            (PrevLineCodeIndex s) (PrevLine s) :: ASection s)) ≫= (fun _ =>
    modify (set_lines 3 (ABufInd s) (PrevLine s))).

Definition AQuitSection : SM Output unit :=
  s ← get;
  match ASection s with
  | [] => lift fault
  | sec :: l =>
    modify (set_sections l) ≫= (fun _ =>
    modify (set_buf (ABuf s) (s_bufInd sec)) ≫= (fun _ =>
    modify (set_debug (DebugInfoBuf s) (s_debugInfoBufInd sec)) ≫= (fun _ =>
    modify (set_except (ExceptBuf s) (s_exceptInd sec)) ≫= (fun _ =>
    modify (set_prev 0) ≫= (fun _ =>
    modify (set_lines (s_lineIndex sec) (s_prevLineCodeIndex sec) (s_prevLine sec)))))))
  end.

(** A Function object: its code is followed by the exception and the debugging
    information. *)
Record AFunction := MkFunction {
  f_minArgs : Z;
  f_maxArgs : Z;
  f_stackFrameSize : Z;
  f_codeLen : Z;
  f_fileNum : Z;
  f_code : list Z
}.

Definition A_MAX_FRAME_DEPTH : Z := Z.shiftl 1 15 - 1.

(** [ACopyMem] of [n] words of a buffer from index [i] on. *)
Definition words_from (b : list Z) (i n : Z) : M (list Z) :=
  for_up 0 n (fun k l => w ← get_word b (i + k); mret (l ++ [w])) [].

(** [ALeaveSection]: the function, and whether its stack frame is too large. *)
Definition ALeaveSection (ANumLocals ACurFileNum minArgs maxArgs : Z) : SM Output (AFunction * bool) :=
  s ← get;
  match ASection s with
  | [] => lift fault
  | sec :: l =>
    modify (set_sections l) ≫= (fun _ =>
    (if DebugInfoBufIndex s =? s_debugInfoBufInd sec then AEmitDebugInfo A_LINE_NUMBER else mret tt) ≫= (fun _ =>
    s ← get;
    let codeLen := ABufInd s - s_bufInd sec in
    let debugInfoLen := DebugInfoBufIndex s - s_debugInfoBufInd sec in
    let exceptInfoLen := ExceptBufIndex s - s_exceptInd sec in
    modify (set_buf (ABuf s) (s_bufInd sec)) ≫= (fun _ =>
    modify (set_debug (DebugInfoBuf s) (s_debugInfoBufInd sec)) ≫= (fun _ =>
    modify (set_except (ExceptBuf s) (s_exceptInd sec)) ≫= (fun _ =>
    lift (AAlloc (40 + (codeLen + exceptInfoLen + debugInfoLen) * 4)) ≫= (fun _ =>
    modify (set_prev 0) ≫= (fun _ =>
    c ← lift (words_from (ABuf s) (s_bufInd sec) codeLen);
    e ← lift (words_from (ExceptBuf s) (s_exceptInd sec) exceptInfoLen);
    d ← lift (words_from (DebugInfoBuf s) (s_debugInfoBufInd sec) debugInfoLen);
    modify (set_lines (s_lineIndex sec) (s_prevLineCodeIndex sec) (s_prevLine sec)) ≫= (fun _ =>
    mret (MkFunction minArgs maxArgs (ANumLocals * 8) codeLen ACurFileNum (c ++ e ++ d), A_MAX_FRAME_DEPTH <=? ANumLocals)))))))))
  end.
