(* ===== verification/OutputSpec.v ===== *)
(** * OutputSpec: the byte code generator as lists

    The lists that the buffers of [Output] stand for ([out_view]) and the
    effect of every operation on them; then the generator as a stack of
    sections ([generator_refines_sections]). *)

From S2P Require Import Prelude Runtime Digits Value Output.

Open Scope Z_scope.

(** ** Views *)

Record Code := MkCode {
  c_code : list Z;
  c_prev : Z;
  c_saved : list Z;
  c_except : list Z;
  c_debug : list Z;
  c_lines : Z * Z * Z;
  c_sections : list ASectionState
}.

(** The part of a buffer that is in use. *)
Definition used (b : list Z) (i : Z) : list Z := take (Z.to_nat i) b.

Definition out_view (s : Output) : Code :=
  MkCode (used (ABuf s) (ABufInd s)) (APrevOpcodeInd s) (used (ASaveBuf s) (ASaveSize s))
    (used (ExceptBuf s) (ExceptBufIndex s)) (used (DebugInfoBuf s) (DebugInfoBufIndex s))
    (LineIndex s, PrevLineCodeIndex s, PrevLine s) (ASection s).

Definition in_buffer (b : list Z) (i : Z) : Prop := 0 <= i <= zlen b.

Record out_ok (s : Output) : Prop := {
  ok_code : in_buffer (ABuf s) (ABufInd s);
  ok_room : 4 <= zlen (ABuf s);
  ok_saved : in_buffer (ASaveBuf s) (ASaveSize s);
  ok_except : in_buffer (ExceptBuf s) (ExceptBufIndex s);
  ok_except_room : 1 <= zlen (ExceptBuf s);
  ok_debug : in_buffer (DebugInfoBuf s) (DebugInfoBufIndex s);
  ok_debug_room : 1 <= zlen (DebugInfoBuf s)
}.

Definition with_code (c : list Z) (v : Code) : Code :=
  MkCode c (c_prev v) (c_saved v) (c_except v) (c_debug v) (c_lines v) (c_sections v).
Definition with_prev (p : Z) (v : Code) : Code :=
  MkCode (c_code v) p (c_saved v) (c_except v) (c_debug v) (c_lines v) (c_sections v).
Definition with_saved (l : list Z) (v : Code) : Code :=
  MkCode (c_code v) (c_prev v) l (c_except v) (c_debug v) (c_lines v) (c_sections v).
Definition with_except (l : list Z) (v : Code) : Code :=
  MkCode (c_code v) (c_prev v) (c_saved v) l (c_debug v) (c_lines v) (c_sections v).
Definition with_debug (l : list Z) (v : Code) : Code :=
  MkCode (c_code v) (c_prev v) (c_saved v) (c_except v) l (c_lines v) (c_sections v).
Definition with_lines (l : Z * Z * Z) (v : Code) : Code :=
  MkCode (c_code v) (c_prev v) (c_saved v) (c_except v) (c_debug v) l (c_sections v).
Definition with_sections (l : list ASectionState) (v : Code) : Code :=
  MkCode (c_code v) (c_prev v) (c_saved v) (c_except v) (c_debug v) (c_lines v) l.

(** Words appended to the code, and a first word noted as an opcode. *)
Definition emit (ws : list Z) (v : Code) : Code := with_code (c_code v ++ ws) v.
Definition note (v : Code) : Code := with_prev (zlen (c_code v)) v.

(** [acts m s f]: [m] keeps the buffers well-formed and changes the view by [f]. *)
Definition acts {A} (m : SM Output A) (s : Output) (f : A -> Code -> Prop) : Prop :=
  sreturns m s (fun a s' => out_ok s' /\ f a (out_view s')).

(** ** Buffers *)

Lemma length_used b i : in_buffer b i -> length (used b i) = Z.to_nat i.
Proof. unfold in_buffer, used. rewrite length_take. lia. Qed.

Lemma zlen_used b i : in_buffer b i -> zlen (used b i) = i.
Proof. intros Hi. rewrite length_used by done. unfold in_buffer in Hi. lia. Qed.

Lemma used_split b i : in_buffer b i -> exists rest, b = used b i ++ rest /\ zlen rest = zlen b - i.
Proof.
  intros Hi. exists (drop (Z.to_nat i) b). split; [symmetry; apply take_drop|]. rewrite length_drop. unfold in_buffer in Hi. lia.
Qed.

Lemma used_grown b c i : in_buffer b i -> used (b ++ c) i = used b i.
Proof. intros Hi. unfold used, in_buffer in *. apply take_app_le. lia. Qed.

Lemma in_grown b c i : in_buffer b i -> in_buffer (b ++ c) i.
Proof. unfold in_buffer. rewrite length_app. lia. Qed.

Lemma used_front (a rest : list Z) : used (a ++ rest) (zlen a) = a.
Proof. unfold used. rewrite Nat2Z.id. apply take_app_length. Qed.

Lemma used_at (a rest : list Z) i : i = zlen a -> used (a ++ rest) i = a.
Proof. intros ->. apply used_front. Qed.

Lemma put_word_at (a : list Z) x rest v : evals (put_word (a ++ x :: rest) (zlen a) v) (a ++ v :: rest).
Proof.
  intros t. unfold put_word. rewrite length_app. cbn [length].
  destruct ((0 <=? zlen a) && (zlen a <? Z.of_nat (length a + S (length rest)))) eqn:E.
  - rewrite Nat2Z.id, insert_app_r_alt, Nat.sub_diag by lia. done.
  - apply andb_false_iff in E as [E%Z.leb_gt|E%Z.ltb_ge]; lia.
Qed.

Lemma put_word_in b i v : 0 <= i < zlen b -> evals (put_word b i v) (<[Z.to_nat i := v]> b).
Proof.
  intros Hi t. unfold put_word. destruct ((0 <=? i) && (i <? zlen b)) eqn:E; [done|].
  apply andb_false_iff in E as [E%Z.leb_gt|E%Z.ltb_ge]; lia.
Qed.

Lemma get_word_at b i w : b !! Z.to_nat i = Some w -> 0 <= i -> evals (get_word b i) w.
Proof. intros Hw Hi t. unfold get_word. rewrite (proj2 (Z.leb_le _ _) Hi), Hw. done. Qed.

Lemma GrowBuffer_spec b n : zlen b <= n ->
  returns (GrowBuffer b n) (fun b' => exists c, b' = b ++ c /\ zlen b' = n).
Proof.
  intros Hn. unfold GrowBuffer. eapply returns_bind; [apply AAlloc_spec|]. intros junk _. apply returns_ret. eexists. split; [done|].
  rewrite length_app, length_fmap, length_seqZ. lia.
Qed.

(** ** Emitting *)

(** [pending room ws v s]: the view is [v], the words [ws] are written behind
    the code, and there is room for [room] more. *)
Definition pending (room : Z) (ws : list Z) (v : Code) (s : Output) : Prop :=
  out_ok s /\ out_view s = v /\ exists rest, ABuf s = c_code v ++ ws ++ rest /\ room <= zlen rest.

Lemma grow_output_spec s : out_ok s ->
  sreturns GrowOutputBuffer s (fun _ s' => out_ok s' /\ out_view s' = out_view s /\ zlen (ABuf s') = 2 * zlen (ABuf s) /\ ABufInd s' = ABufInd s).
Proof.
  intros Hs. destruct Hs. unfold GrowOutputBuffer. apply sreturns_get_bind.
  eapply sreturns_lift_bind; [apply GrowBuffer_spec; lia|]. intros b (c & -> & Hb). apply sreturns_modify.
  split_and!; [constructor; simpl; try done; [by apply in_grown|lia]| |simpl; lia|done].
  unfold out_view. simpl. by rewrite used_grown.
Qed.

Lemma ensure_spec n s : out_ok s -> 0 <= n <= 2 -> sreturns (ensure n) s (fun _ s' => pending (n + 1) [] (out_view s) s').
Proof.
  intros Hs Hn. unfold ensure. apply sreturns_get_bind. pose proof (ok_code _ Hs) as Hc. pose proof (ok_room _ Hs) as Hr.
  destruct (Z.leb_spec (zlen (ABuf s)) (ABufInd s + n)) as [Hg|Hg].
  - eapply sreturns_mono; [by apply grow_output_spec|]. intros _ s' (Hs' & Hv & Hlen & Hi). split_and!; [done..|].
    destruct (used_split (ABuf s') (ABufInd s')) as (rest & Hb & Hrest); [apply Hs'|]. exists rest. rewrite <- Hv. split; [done|].
    unfold in_buffer in Hc. lia.
  - apply sreturns_ret. split_and!; [done..|]. destruct (used_split (ABuf s) (ABufInd s)) as (rest & Hb & Hrest); [done|].
    exists rest. split; [done|lia].
Qed.

Lemma note_pending room ws v s : pending room ws v s -> sreturns note_opcode s (fun _ => pending room ws (note v)).
Proof.
  intros (Hs & <- & rest & Hb & Hr). unfold note_opcode. apply sreturns_get_bind, sreturns_modify. destruct Hs. split_and!; [by constructor| |by exists rest].
  unfold out_view, note. simpl. f_equal. by rewrite zlen_used.
Qed.

Lemma emit_pending room ws v s i w : pending room ws v s -> i = zlen ws -> 1 <= room ->
  sreturns (emit_at i w) s (fun _ => pending (room - 1) (ws ++ [w]) v).
Proof.
  intros (Hs & <- & rest & Hb & Hr) -> H1. destruct rest as [|x rest]; [simpl in Hr; lia|].
  unfold emit_at. apply sreturns_get_bind. assert (Hi : ABufInd s + zlen ws = zlen (c_code (out_view s) ++ ws)).
  { rewrite length_app, Nat2Z.inj_add. simpl. rewrite zlen_used by apply Hs. lia. }
  rewrite Hi, Hb, app_assoc. eapply sreturns_lift_bind; [apply evals_returns with (1 := put_word_at _ _ _ _); exact eq_refl|].
  intros b <-. apply sreturns_modify. destruct Hs. cbn [c_code out_view] in *. split_and!.
  - apply (f_equal length) in Hb. rewrite !length_app in Hb. constructor; simpl; try done; unfold in_buffer in *; rewrite !length_app; simpl in *; lia.
  - unfold out_view. simpl. f_equal. rewrite <- app_assoc. apply used_at. by rewrite zlen_used.
  - exists rest. split; [|simpl in Hr; lia]. by rewrite <- !app_assoc.
Qed.

Lemma advance_pending room ws v s n : pending room ws v s -> n = zlen ws ->
  sreturns (advance n) s (fun _ s' => out_ok s' /\ out_view s' = emit ws v).
Proof.
  intros (Hs & <- & rest & Hb & Hr) ->. unfold advance. apply sreturns_get_bind, sreturns_modify. destruct Hs. cbn [c_code out_view] in Hb.
  assert (Hi : ABufInd s + zlen ws = zlen (used (ABuf s) (ABufInd s) ++ ws)) by (rewrite length_app, Nat2Z.inj_add, zlen_used; done).
  split.
  - apply (f_equal length) in Hb. rewrite !length_app in Hb. constructor; simpl; try done. unfold in_buffer in *. rewrite length_used in Hb by done. lia.
  - unfold out_view, emit, with_code. simpl. f_equal. rewrite Hb at 1. rewrite app_assoc. by apply used_at.
Qed.

(** What an operation without a result does to the view. *)
Local Abbreviation effect m s f := (sreturns m s (fun _ s' => out_ok s' /\ out_view s' = f (out_view s))).

Ltac next_step tac := eapply sreturns_bind; [tac|]; let H := fresh in intros ? ? H; cbv beta in H |- *.
Ltac emits := repeat first
  [ next_step ltac:(eapply ensure_spec; [eassumption|lia])
  | next_step ltac:(eapply note_pending; eassumption)
  | next_step ltac:(eapply emit_pending; [eassumption|done|lia])
  | eapply advance_pending; [eassumption|done] ].

Lemma AEmitOpcode_spec s w : out_ok s -> effect (AEmitOpcode w) s (fun v => emit [w] (note v)).
Proof. intros Hs. unfold AEmitOpcode. emits. Qed.

Lemma AEmitOpcodeArg_spec s w a : out_ok s -> effect (AEmitOpcodeArg w a) s (fun v => emit [w; a] (note v)).
Proof. intros Hs. unfold AEmitOpcodeArg. emits. Qed.

Lemma AEmitOpcode2Args_spec s w a b : out_ok s -> effect (AEmitOpcode2Args w a b) s (fun v => emit [w; a; b] (note v)).
Proof. intros Hs. unfold AEmitOpcode2Args. emits. Qed.

Lemma AEmitArg_spec s a : out_ok s -> effect (AEmitArg a) s (emit [a]).
Proof. intros Hs. unfold AEmitArg. emits. Qed.

Lemma AEmit2Args_spec s a b : out_ok s -> effect (AEmit2Args a b) s (emit [a; b]).
Proof. intros Hs. unfold AEmit2Args. emits. Qed.

Lemma emit_app a b v : emit b (emit a v) = emit (a ++ b) v.
Proof. unfold emit, with_code. simpl. by rewrite app_assoc. Qed.

Lemma AEmitOpcode3Args_spec s w a b c : out_ok s -> effect (AEmitOpcode3Args w a b c) s (fun v => emit [w; a; b; c] (note v)).
Proof.
  intros Hs. unfold AEmitOpcode3Args. eapply sreturns_bind; [by apply AEmitOpcode2Args_spec|]. intros _ s1 [H1 Hv].
  eapply sreturns_mono; [by apply AEmitArg_spec|]. intros _ s2 [H2 ->]. split; [done|]. by rewrite Hv, emit_app.
Qed.

(** ** Reading and changing code *)

Lemma code_word s i w : out_ok s -> c_code (out_view s) !! i = Some w -> ABuf s !! i = Some w /\ (i < Z.to_nat (ABufInd s))%nat.
Proof. intros Hs Hw. apply lookup_take_Some in Hw as [Hw Hi]. by split. Qed.

Lemma AGetOpcode_spec s i w : out_ok s -> 0 <= i -> c_code (out_view s) !! Z.to_nat i = Some w ->
  sreturns (AGetOpcode i) s (fun w' s' => w' = w /\ s' = s).
Proof.
  intros Hs Hi Hw. apply code_word in Hw as [Hw _]; [|done]. unfold AGetOpcode. apply sreturns_get_bind.
  apply sreturns_lift. eapply evals_returns; [by apply get_word_at|done].
Qed.

Lemma ASetOpcode_spec s i w : out_ok s -> 0 <= i < zlen (c_code (out_view s)) ->
  effect (ASetOpcode i w) s (fun v => with_code (<[Z.to_nat i := w]> (c_code v)) v).
Proof.
  intros Hs Hi. pose proof (ok_code _ Hs) as Hc. simpl in Hi. rewrite zlen_used in Hi by done. unfold in_buffer in Hc.
  unfold ASetOpcode. apply sreturns_get_bind. eapply sreturns_lift_bind; [eapply evals_returns; [apply put_word_in; lia|exact eq_refl]|].
  intros b <-. apply sreturns_modify. destruct Hs. split.
  - constructor; simpl; try done; unfold in_buffer; rewrite length_insert; lia.
  - unfold out_view, with_code. simpl. f_equal. unfold used. rewrite take_insert_lt by lia. done.
Qed.

Lemma AToggleBranch_spec s i w : out_ok s -> 0 <= i -> c_code (out_view s) !! Z.to_nat i = Some w ->
  effect (AToggleBranch i) s (fun v => with_code (<[Z.to_nat i := Z.lxor w 1]> (c_code v)) v).
Proof.
  intros Hs Hi Hw. unfold AToggleBranch. eapply sreturns_bind; [by apply AGetOpcode_spec|]. intros ? ? [-> ->].
  apply ASetOpcode_spec; [done|]. apply lookup_lt_Some in Hw. lia.
Qed.

Lemma opcode_size_spec (o : AOp) n : AOpcodeSizes !! Z.to_nat o = Some n -> evals (opcode_size o) n.
Proof. intros Hn. apply get_word_at; [done|]. by destruct o. Qed.

(** The displacement of the branch at [i] to [dest], stored behind its last
    argument. *)
Definition displacement (i n dest : Z) : Z := u32 (dest - i - n + 1 + A_DISPLACEMENT_SHIFT).

Lemma ASetBranchDest_spec s i (o : AOp) n dest : out_ok s -> 0 <= i -> c_code (out_view s) !! Z.to_nat i = Some (op_num o) ->
  AOpcodeSizes !! Z.to_nat o = Some n -> 1 <= n -> i + n <= zlen (c_code (out_view s)) ->
  effect (ASetBranchDest i dest) s (fun v => with_code (<[Z.to_nat (i + n - 1) := displacement i n dest]> (c_code v)) v).
Proof.
  intros Hs Hi Hw Hn H1 Hlen. unfold ASetBranchDest. eapply sreturns_bind; [by apply AGetOpcode_spec|]. intros ? ? [-> ->].
  eapply sreturns_lift_bind; [eapply evals_returns; [by apply opcode_size_spec|exact eq_refl]|]. intros ? <-.
  apply ASetOpcode_spec; [done|lia].
Qed.

Lemma AEmitBack_spec s n : out_ok s -> 0 <= n <= zlen (c_code (out_view s)) ->
  effect (AEmitBack n) s (fun v => with_code (take (length (c_code v) - Z.to_nat n) (c_code v)) v).
Proof.
  intros Hs Hn. pose proof (ok_code _ Hs) as Hc. simpl in Hn. rewrite zlen_used in Hn by done. unfold in_buffer in Hc.
  unfold AEmitBack, advance. apply sreturns_get_bind, sreturns_modify. pose proof (length_used _ _ (ok_code _ Hs)) as Hl. destruct Hs. split.
  - constructor; simpl; try done. unfold in_buffer. lia.
  - unfold out_view, with_code. simpl. f_equal. rewrite Hl. unfold used. rewrite take_take. f_equal. lia.
Qed.

(** ** Exception and debugging information *)

(** A word is stored behind the part that is in use. *)
Lemma put_end b i w : in_buffer b i -> i < zlen b ->
  returns (put_word b i w) (fun b' => in_buffer b' (i + 1) /\ zlen b' = zlen b /\ used b' (i + 1) = used b i ++ [w]).
Proof.
  unfold in_buffer. intros Hi Hl. eapply evals_returns; [apply put_word_in; lia|]. rewrite length_insert. split; [lia|]. split; [done|].
  unfold used. replace (Z.to_nat (i + 1)) with (S (Z.to_nat i)) by lia.
  rewrite (take_S_r _ _ w) by (apply list_lookup_insert_eq; lia). by rewrite take_insert_ge by lia.
Qed.

Lemma AEmitExceptInfo_spec s w : out_ok s -> effect (AEmitExceptInfo w) s (fun v => with_except (c_except v ++ [w]) v).
Proof.
  intros Hs. unfold AEmitExceptInfo. apply sreturns_get_bind.
  eapply sreturns_bind with (P := fun _ s' => out_ok s' /\ out_view s' = out_view s /\ ExceptBufIndex s' < zlen (ExceptBuf s')).
  - destruct (Z.leb_spec (zlen (ExceptBuf s)) (ExceptBufIndex s)) as [Hg|Hg]; [|by apply sreturns_ret].
    pose proof (ok_except_room _ Hs). pose proof (ok_except _ Hs) as Hi. eapply sreturns_lift_bind; [apply GrowBuffer_spec; lia|].
    intros b (c & -> & Hb). apply sreturns_modify. destruct Hs. split_and!.
    + constructor; simpl; try done; [by apply in_grown|lia].
    + unfold out_view. simpl. by rewrite used_grown.
    + simpl. unfold in_buffer in Hi. lia.
  - intros _ s' (Hs' & <- & Hi). apply sreturns_get_bind. eapply sreturns_lift_bind; [apply put_end; [apply Hs'|done]|].
    intros b (Hb & Hl & Hu). apply sreturns_modify. destruct Hs'. split; [constructor; simpl; (done || lia)|].
    unfold out_view, with_except. simpl. by rewrite Hu.
Qed.

Lemma AEmitDebugInfo_spec s w : out_ok s ->
  effect (AEmitDebugInfo w) s (fun v => with_lines (3, (c_lines v).1.2, (c_lines v).2) (with_debug (c_debug v ++ [w]) v)).
Proof.
  intros Hs. unfold AEmitDebugInfo. apply sreturns_get_bind.
  eapply sreturns_bind with (P := fun _ s' => out_ok s' /\ out_view s' = out_view s /\ DebugInfoBufIndex s' < zlen (DebugInfoBuf s')).
  - destruct (Z.leb_spec (zlen (DebugInfoBuf s)) (DebugInfoBufIndex s)) as [Hg|Hg]; [|by apply sreturns_ret].
    pose proof (ok_debug_room _ Hs). pose proof (ok_debug _ Hs) as Hi. eapply sreturns_lift_bind; [apply GrowBuffer_spec; lia|].
    intros b (c & -> & Hb). apply sreturns_modify. destruct Hs. split_and!.
    + constructor; simpl; try done; [by apply in_grown|lia].
    + unfold out_view. simpl. by rewrite used_grown.
    + simpl. unfold in_buffer in Hi. lia.
  - intros _ s' (Hs' & <- & Hi). apply sreturns_get_bind. eapply sreturns_lift_bind; [apply put_end; [apply Hs'|done]|].
    intros b (Hb & Hl & Hu). apply sreturns_modify_bind, sreturns_get_bind, sreturns_modify. destruct Hs'. split; [constructor; simpl; (done || lia)|].
    unfold out_view, with_debug, with_lines. simpl. by rewrite Hu.
Qed.

Lemma section_start_spec s sec l : ASection s = sec :: l -> sreturns section_start s (fun b s' => b = s_bufInd sec /\ s' = s).
Proof. intros Hl. unfold section_start. apply sreturns_get_bind. rewrite Hl. by apply sreturns_ret. Qed.

(** ** Saving and restoring code *)

(** [ACopyMem] between buffers. *)
Lemma copy_words n (src : list Z) i (pre mid post : list Z) ws : take (Z.to_nat n) (drop (Z.to_nat i) src) = ws -> zlen ws = n -> zlen mid = n -> 0 <= i ->
  returns (for_up 0 n (fun k b => w ← get_word src (i + k); put_word b (zlen pre + k) w) (pre ++ mid ++ post)) (fun b => b = pre ++ ws ++ post).
Proof.
  intros Hws Hn Hm Hi.
  eapply returns_mono; [apply (for_up_inv (fun k b => b = pre ++ take (Z.to_nat k) ws ++ drop (Z.to_nat k) mid ++ post))|].
  - lia.
  - by rewrite take_0, drop_0.
  - intros k b Hk ->. destruct (lookup_lt_is_Some_2 ws (Z.to_nat k) ltac:(lia)) as [w Hw].
    assert (Hsw : src !! Z.to_nat (i + k) = Some w).
    { rewrite <- Hw, <- Hws, lookup_take_lt, lookup_drop by lia. f_equal. lia. }
    eapply returns_bind; [eapply evals_returns; [apply (get_word_at _ _ w); [done|lia]|exact eq_refl]|]. intros ? <-.
    destruct (lookup_lt_is_Some_2 mid (Z.to_nat k) ltac:(lia)) as [x Hx].
    rewrite (drop_S _ _ _ Hx). cbn [app]. rewrite app_assoc.
    replace (zlen pre + k) with (zlen (pre ++ take (Z.to_nat k) ws)) by (rewrite length_app, length_take; lia).
    eapply evals_returns; [apply put_word_at|]. rewrite Z.add_1_r, Z2Nat.inj_succ by lia.
    by rewrite (take_S_r _ _ w Hw), <- !app_assoc.
  - intros b ->. rewrite take_ge, drop_ge by lia. done.
Qed.

Lemma advance_bind {A} n (f : unit -> SM Output A) s (Q : A -> Output -> Prop) :
  sreturns (f tt) (set_buf (ABuf s) (ABufInd s + n) s) Q -> sreturns (advance n ≫= f) s Q.
Proof. done. Qed.

(** The middle of a buffer. *)
Lemma split_at (b : list Z) i n : 0 <= i -> 0 <= n -> i + n <= zlen b ->
  exists pre mid post, b = pre ++ mid ++ post /\ zlen pre = i /\ zlen mid = n /\ pre = used b i.
Proof.
  intros Hi Hn Hb. exists (used b i), (take (Z.to_nat n) (drop (Z.to_nat i) b)), (drop (Z.to_nat n) (drop (Z.to_nat i) b)).
  unfold used. rewrite take_drop, take_drop, !length_take, length_drop. split_and!; [done|lia|lia|done].
Qed.

Lemma used_part b i n : 0 <= n <= i -> i <= zlen b ->
  take (Z.to_nat n) (drop (Z.to_nat (i - n)) b) = drop (length (used b i) - Z.to_nat n) (used b i).
Proof.
  intros Hn Hi. unfold used. rewrite length_take, skipn_firstn_comm. f_equal; [lia|]. f_equal. lia.
Qed.

Lemma ASaveCode_spec s n : out_ok s -> 0 <= n <= zlen (c_code (out_view s)) ->
  effect (ASaveCode n) s (fun v => let k := (length (c_code v) - Z.to_nat n)%nat in
    with_saved (c_saved v ++ drop k (c_code v)) (with_code (take k (c_code v)) v)).
Proof.
  intros Hs Hn. pose proof (zlen_used _ _ (ok_code _ Hs)) as Hl. cbn [c_code out_view] in Hn. rewrite Hl in Hn.
  pose proof (ok_code _ Hs) as Hc. pose proof (length_used _ _ Hc) as Hlu. unfold ASaveCode. apply sreturns_get_bind.
  eapply sreturns_bind with (P := fun _ s' => out_ok s' /\ out_view s' = out_view s /\ ABuf s' = ABuf s /\ ABufInd s' = ABufInd s /\
    ASaveSize s' = ASaveSize s /\ ASaveSize s + n <= zlen (ASaveBuf s')).
  { pose proof (ok_saved _ Hs) as Hi. destruct (Z.ltb_spec (zlen (ASaveBuf s)) (ASaveSize s + n)) as [Hg|Hg]; [|by apply sreturns_ret].
    eapply sreturns_lift_bind; [apply GrowBuffer_spec; lia|]. intros b (c & -> & Hb). apply sreturns_modify. destruct Hs.
    split_and!; [constructor; simpl; try done; by apply in_grown| |done..|simpl; lia]. unfold out_view. simpl. by rewrite used_grown. }
  intros _ s1 (Hs1 & Hv & Hb & Hi & Hz & Hroom). pose proof (ok_saved _ Hs1) as Hin. unfold in_buffer in Hin.
  apply advance_bind, sreturns_get_bind. cbn [ASaveBuf ASaveSize ABuf ABufInd set_buf].
  destruct (split_at (ASaveBuf s1) (ASaveSize s1) n) as (pre & mid & post & Hsave & Hpre & Hmid & Hused); [lia..|].
  unfold in_buffer in Hc. rewrite Hsave, <- Hpre, Hb, Hi. eapply sreturns_lift_bind.
  { apply copy_words; [reflexivity| |done|]; unfold in_buffer in Hc; rewrite ?length_take, ?length_drop; lia. }
  intros b ->. apply sreturns_modify. destruct Hs1.
  assert (Hw : take (Z.to_nat n) (drop (Z.to_nat (ABufInd s + - n)) (ABuf s)) = drop (length (used (ABuf s) (ABufInd s)) - Z.to_nat n) (used (ABuf s) (ABufInd s)))
    by (apply used_part; lia).
  rewrite Hw. split.
  - apply (f_equal length) in Hb. constructor; simpl; try done; unfold in_buffer; rewrite ?length_app, ?length_drop; lia.
  - rewrite <- Hv. unfold out_view, with_saved, with_code. simpl. rewrite Hb, Hi. f_equal.
    + rewrite Hlu. unfold used. rewrite take_take. f_equal. lia.
    + rewrite app_assoc, Hused. apply used_at. rewrite <- Hused, length_app, length_drop. lia.
Qed.

Lemma grow_for_spec fuel n s : out_ok s -> n - (zlen (ABuf s) - ABufInd s) <= Z.of_nat fuel ->
  sreturns (grow_for fuel n) s (fun _ s' => out_ok s' /\ out_view s' = out_view s /\ ABufInd s' = ABufInd s /\ n <= zlen (ABuf s') - ABufInd s').
Proof.
  revert s. induction fuel as [|fuel IH]; intros s Hs Hf; cbn [grow_for]; apply sreturns_get_bind;
    (destruct (Z.ltb_spec (zlen (ABuf s) - ABufInd s) n) as [Hg|Hg]; [|by apply sreturns_ret]); [lia|].
  pose proof (ok_room _ Hs). eapply sreturns_bind; [by apply grow_output_spec|]. intros _ s1 (H1 & Hv & Hl & Hi).
  eapply sreturns_mono; [apply IH; [done|lia]|]. intros _ s2 (H2 & Hv2 & Hi2 & Hn). rewrite Hv2, Hi2. by rewrite Hi2 in Hn.
Qed.

Lemma ARestoreCode_spec s n : out_ok s -> 0 <= n <= zlen (c_saved (out_view s)) ->
  effect (ARestoreCode n) s (fun v => let k := (length (c_saved v) - Z.to_nat n)%nat in
    with_prev 0 (with_saved (take k (c_saved v)) (emit (drop k (c_saved v)) v))).
Proof.
  intros Hs Hn. pose proof (ok_saved _ Hs) as Hc. pose proof (length_used _ _ Hc) as Hlu. cbn [c_saved out_view] in Hn. rewrite Hlu in Hn. unfold in_buffer in Hc.
  unfold ARestoreCode. apply sreturns_get_bind. destruct (Z.ltb_spec (ASaveSize s) n) as [?|_]; [lia|].
  pose proof (ok_code _ Hs) as Hi0. unfold in_buffer in Hi0.
  eapply sreturns_bind; [apply (grow_for_spec _ n s Hs); lia|]. intros _ s1 (Hs1 & Hv & Hi & Hroom). apply sreturns_get_bind.
  assert (Hsv : used (ASaveBuf s1) (ASaveSize s1) = used (ASaveBuf s) (ASaveSize s)) by exact (f_equal c_saved Hv).
  pose proof (length_used _ _ (ok_saved _ Hs1)) as Hlu1. rewrite Hsv, Hlu in Hlu1.
  pose proof (ok_saved _ Hs1) as Hc1. unfold in_buffer in Hc1. assert (Hz : ASaveSize s1 = ASaveSize s) by lia.
  destruct (split_at (ABuf s1) (ABufInd s1) n) as (pre & mid & post & Hb & Hpre & Hmid & Hused); [lia..|].
  cbv zeta. rewrite Hb, <- Hpre. eapply sreturns_lift_bind.
  { apply copy_words; [reflexivity| |done|]; rewrite ?length_take, ?length_drop; lia. }
  intros b ->. apply sreturns_modify_bind, sreturns_modify_bind, sreturns_modify. destruct Hs1.
  assert (Hw : take (Z.to_nat n) (drop (Z.to_nat (ASaveSize s1 - n)) (ASaveBuf s1)) = drop (length (used (ASaveBuf s1) (ASaveSize s1)) - Z.to_nat n) (used (ASaveBuf s1) (ASaveSize s1)))
    by (apply used_part; lia).
  rewrite Hw, Hsv. assert (Hl : zlen (drop (length (used (ASaveBuf s) (ASaveSize s)) - Z.to_nat n) (used (ASaveBuf s) (ASaveSize s))) = n)
    by (rewrite length_drop; lia).
  split.
  - apply (f_equal length) in Hb. rewrite !length_app in Hb. constructor; simpl; try done; unfold in_buffer; rewrite ?length_app; lia.
  - rewrite <- Hv. unfold out_view, with_prev, with_saved, emit, with_code. simpl. rewrite Hsv. f_equal.
    + rewrite app_assoc, Hused. apply used_at. rewrite <- Hused, length_app. lia.
    + rewrite Hlu, <- Hsv. unfold used. rewrite take_take. f_equal. lia.
Qed.

(** ** Sections *)

Lemma words_from_spec b i n : 0 <= i -> 0 <= n -> i + n <= zlen b -> returns (words_from b i n) (fun l => l = take (Z.to_nat n) (drop (Z.to_nat i) b)).
Proof.
  intros Hi Hn Hb. unfold words_from.
  eapply returns_mono; [apply (for_up_inv (fun k l => l = take (Z.to_nat k) (drop (Z.to_nat i) b))); [done|by rewrite take_0|]|done].
  intros k l Hk ->. destruct (lookup_lt_is_Some_2 b (Z.to_nat (i + k)) ltac:(lia)) as [w Hw].
  eapply returns_bind; [eapply evals_returns; [apply (get_word_at _ _ w); [done|lia]|exact eq_refl]|]. intros ? <-. apply returns_ret.
  rewrite Z.add_1_r, Z2Nat.inj_succ by lia. rewrite (take_S_r _ _ w); [done|]. rewrite lookup_drop. rewrite <- Hw. f_equal. lia.
Qed.

Lemma used_section b i n : 0 <= n <= i -> i <= zlen b ->
  take (Z.to_nat (i - n)) (drop (Z.to_nat n) b) = drop (Z.to_nat n) (used b i).
Proof. intros Hn Hi. unfold used. rewrite skipn_firstn_comm. f_equal. lia. Qed.

Lemma AEnterSection_spec s : out_ok s -> zlen (ASection s) < A_MAX_ACTIVE_SECTIONS ->
  effect AEnterSection s (fun v => with_lines (3, zlen (c_code v), (c_lines v).2)
    (with_sections (MkSection (zlen (c_code v)) (zlen (c_debug v)) (zlen (c_except v)) (c_lines v).1.1 (c_lines v).1.2 (c_lines v).2 :: c_sections v) v)).
Proof.
  intros Hs Hl. unfold AEnterSection. apply sreturns_get_bind. destruct (Z.leb_spec A_MAX_ACTIVE_SECTIONS (zlen (ASection s))) as [?|_]; [lia|].
  apply sreturns_modify_bind, sreturns_modify. destruct Hs. split; [by constructor|].
  unfold out_view, with_lines, with_sections. simpl. by rewrite !zlen_used.
Qed.

(** The lists in front of a section, and its own. *)
Definition section_ok (sec : ASectionState) (v : Code) : Prop :=
  0 <= s_bufInd sec <= zlen (c_code v) /\ 0 <= s_exceptInd sec <= zlen (c_except v) /\ 0 <= s_debugInfoBufInd sec <= zlen (c_debug v).

(** The view behind a section that is left. *)
Definition leave (sec : ASectionState) (v : Code) : Code :=
  MkCode (used (c_code v) (s_bufInd sec)) 0 (c_saved v) (used (c_except v) (s_exceptInd sec)) (used (c_debug v) (s_debugInfoBufInd sec))
    (s_lineIndex sec, s_prevLineCodeIndex sec, s_prevLine sec) (tail (c_sections v)).

Lemma used_used b i j : in_buffer b i -> 0 <= j <= i -> used (used b i) j = used b j.
Proof. intros Hi Hj. unfold used. rewrite take_take. f_equal. lia. Qed.

Lemma AQuitSection_spec s sec l : out_ok s -> ASection s = sec :: l -> section_ok sec (out_view s) -> effect AQuitSection s (leave sec).
Proof.
  intros Hs Hl (Hb & He & Hd). unfold AQuitSection. apply sreturns_get_bind. rewrite Hl.
  repeat apply sreturns_modify_bind. apply sreturns_modify. cbn [c_code c_except c_debug out_view] in *.
  destruct Hs. rewrite zlen_used in Hb, He, Hd by done. unfold in_buffer in *.
  split; [constructor; simpl; unfold in_buffer; (done || lia)|].
  unfold out_view, leave. simpl. rewrite Hl. rewrite !used_used by (unfold in_buffer; lia). done.
Qed.

(** A section without line numbers gets one word of debugging information. *)
Definition final_debug (l : list Z) : list Z := match l with [] => [A_LINE_NUMBER] | _ => l end.

Lemma ALeaveSection_spec s sec l locals file minArgs maxArgs : out_ok s -> ASection s = sec :: l -> section_ok sec (out_view s) ->
  let v := out_view s in
  let code := drop (Z.to_nat (s_bufInd sec)) (c_code v) in
  sreturns (ALeaveSection locals file minArgs maxArgs) s (fun r s' => out_ok s' /\ out_view s' = leave sec v /\
    r = (MkFunction minArgs maxArgs (locals * 8) (zlen code) file
           (code ++ drop (Z.to_nat (s_exceptInd sec)) (c_except v) ++ final_debug (drop (Z.to_nat (s_debugInfoBufInd sec)) (c_debug v))),
         A_MAX_FRAME_DEPTH <=? locals)).
Proof.
  intros Hs Hl Hsec v code. unfold ALeaveSection. apply sreturns_get_bind. rewrite Hl. apply sreturns_modify_bind.
  set (v1 := with_debug (used (c_debug v) (s_debugInfoBufInd sec) ++ final_debug (drop (Z.to_nat (s_debugInfoBufInd sec)) (c_debug v))) (with_sections l v)).
  change (section_ok sec v) in Hsec. destruct Hsec as (Hb & He & Hd).
  eapply sreturns_bind with (P := fun _ s' => out_ok s' /\ (out_view s' = v1 \/ out_view s' = with_lines (3, (c_lines v).1.2, (c_lines v).2) v1)).
  { assert (Hok : out_ok (set_sections l s)) by (destruct Hs; by constructor).
    assert (Hsplit : used (c_debug v) (s_debugInfoBufInd sec) ++ drop (Z.to_nat (s_debugInfoBufInd sec)) (c_debug v) = c_debug v) by apply take_drop.
    subst v. cbn [c_debug out_view] in *. rewrite zlen_used in Hd by apply Hs. destruct (Z.eqb_spec (DebugInfoBufIndex s) (s_debugInfoBufInd sec)) as [Heq|Hne].
    - eapply sreturns_mono; [by apply AEmitDebugInfo_spec|]. intros _ s' [Hs' Hv]. split; [done|]. right. rewrite Hv. unfold v1. simpl.
      rewrite drop_ge by (rewrite length_used; [lia|apply Hs]). unfold with_lines, with_debug, with_sections. simpl. f_equal. f_equal.
      symmetry. rewrite <- Heq. unfold used. rewrite take_take. f_equal. lia.
    - apply sreturns_ret. split; [done|]. left. unfold v1, with_debug, with_sections, final_debug. unfold out_view. simpl. f_equal.
      destruct (drop (Z.to_nat (s_debugInfoBufInd sec)) _) as [|w ws] eqn:Ed.
      + apply (f_equal length) in Ed. rewrite length_drop in Ed. pose proof (length_used _ _ (ok_debug _ Hs)). simpl in Ed. lia.
      + by rewrite Hsplit. }
  intros _ s1 [Hs1 Hv1]. apply sreturns_get_bind. cbv zeta. repeat apply sreturns_modify_bind.
  assert (Hf : c_code (out_view s1) = c_code v /\ c_except (out_view s1) = c_except v /\ c_debug (out_view s1) = c_debug v1 /\ c_saved (out_view s1) = c_saved v /\ c_sections (out_view s1) = l)
    by (by destruct Hv1 as [-> | ->]).
  destruct Hf as (Hfc & Hfe & Hfd & Hfs & Hfl). cbn [c_code c_except c_debug c_saved c_sections out_view] in Hfc, Hfe, Hfd, Hfs, Hfl.
  pose proof Hs1 as Hs1'. destruct Hs1.
  pose proof (zlen_used _ _ ok_code0) as Lc. pose proof (zlen_used _ _ ok_except0) as Le. pose proof (zlen_used _ _ ok_debug0) as Ld.
  rewrite Hfc in Lc. rewrite Hfe in Le. rewrite Hfd in Ld.
  assert (Hd1 : s_debugInfoBufInd sec <= zlen (c_debug v1)).
  { unfold v1. cbn [c_debug with_debug]. rewrite length_app. pose proof (zlen_used (c_debug v) (s_debugInfoBufInd sec) Hd). lia. }
  unfold in_buffer in *.
  eapply sreturns_lift_bind; [apply AAlloc_spec|]. intros _ _. apply sreturns_modify_bind.
  eapply sreturns_lift_bind; [apply words_from_spec; lia|]. intros c ->.
  eapply sreturns_lift_bind; [apply words_from_spec; lia|]. intros e ->.
  eapply sreturns_lift_bind; [apply words_from_spec; lia|]. intros d ->.
  apply sreturns_modify_bind, sreturns_ret. rewrite !used_section by lia. rewrite Hfc, Hfe, Hfd. split_and!.
  - constructor; simpl; unfold in_buffer; (done || lia).
  - unfold out_view, leave. simpl. f_equal; [|done|..|by rewrite Hl].
    + transitivity (used (used (ABuf s1) (ABufInd s1)) (s_bufInd sec)); [symmetry; apply used_used; [apply Hs1'|lia]|]. f_equal. exact Hfc.
    + transitivity (used (used (ExceptBuf s1) (ExceptBufIndex s1)) (s_exceptInd sec)); [symmetry; apply used_used; [apply Hs1'|lia]|]. f_equal. exact Hfe.
    + transitivity (used (c_debug v1) (s_debugInfoBufInd sec)); [rewrite <- Hfd; symmetry; apply used_used; [apply Hs1'|lia]|].
      unfold v1. cbn [c_debug with_debug]. apply used_at. by rewrite zlen_used.
  - f_equal. f_equal; [unfold code; rewrite length_drop; lia|]. f_equal. f_equal. unfold v1. cbn [c_debug with_debug].
    apply drop_app_length'. rewrite length_used; [done|exact Hd].
Qed.

(** ** Line numbers *)

(** The word of an absolute line number, and that of a step of [d mod 16] code
    words and [d / 16] lines. *)
Definition abs_word (line : Z) : Z := u32 (Z.lor (Z.lor A_LINE_NUMBER (Z.shiftl 1 3)) (Z.shiftl line 4)).
Definition delta_word (d : Z) : Z := u32 (Z.lor A_LINE_NUMBER (Z.shiftl d 4)).

Fixpoint line_skips (fuel : nat) (codeDelta : Z) : list Z * Z :=
  match fuel with
  | O => ([], codeDelta)
  | S fuel =>
    if 15 <? codeDelta then let '(l, c) := line_skips fuel (codeDelta - 15) in (delta_word 15 :: l, c) else ([], codeDelta)
  end.

(** The words that [AEmitLineNumber] emits. *)
Definition line_words (codeDelta lineDelta line : Z) : list Z :=
  let '(l, c) := line_skips (Z.to_nat codeDelta) codeDelta in
  l ++ if 7 <? lineDelta then [abs_word line; delta_word c] else [delta_word (Z.lor c (Z.shiftl lineDelta 4))].

(** The debugging information and the three line members change. *)
Definition with_line_info (ws : list Z) (ln : Z * Z * Z) (v : Code) : Code := with_lines ln (with_debug (c_debug v ++ ws) v).

Lemma AEmitDebugInfo_lines s w mark line : out_ok s -> c_lines (out_view s) = (3, mark, line) ->
  effect (AEmitDebugInfo w) s (with_line_info [w] (3, mark, line)).
Proof. intros Hs Hl. eapply sreturns_mono; [by apply AEmitDebugInfo_spec|]. intros _ s' [Hs' ->]. split; [done|]. by rewrite Hl. Qed.

Lemma with_line_info_app ws ws' ln ln' v : with_line_info ws' ln' (with_line_info ws ln v) = with_line_info (ws ++ ws') ln' v.
Proof. unfold with_line_info, with_lines, with_debug. simpl. by rewrite app_assoc. Qed.

Lemma emit_delta_spec s d mark line : out_ok s -> c_lines (out_view s) = (3, mark, line) ->
  effect (emit_delta d) s (with_line_info [delta_word d] (3, mark, line)).
Proof.
  intros Hs Hl. unfold emit_delta. apply sreturns_get_bind. replace (LineIndex s) with 3 by (by injection Hl). by apply AEmitDebugInfo_lines.
Qed.

Lemma AEmitAbsoluteLineNumber_spec s l mark line : out_ok s -> c_lines (out_view s) = (3, mark, line) ->
  effect (AEmitAbsoluteLineNumber l) s (with_line_info [abs_word l] (3, mark, l)).
Proof.
  intros Hs Hl. unfold AEmitAbsoluteLineNumber. eapply sreturns_bind; [by apply AEmitDebugInfo_lines|]. intros _ s1 [Hs1 Hv].
  apply sreturns_get_bind, sreturns_modify. destruct Hs1. split; [by constructor|].
  transitivity (with_lines (3, mark, l) (out_view s1)); [|by rewrite Hv].
  assert (Hl1 : c_lines (out_view s1) = (3, mark, line)) by (by rewrite Hv). injection Hl1 as H1 H2 H3.
  unfold out_view, with_lines. simpl. by rewrite H1, H2.
Qed.

Lemma skip_code_spec fuel s c mark line : out_ok s -> c_lines (out_view s) = (3, mark, line) -> c <= Z.of_nat fuel ->
  sreturns (skip_code fuel c) s (fun c' s' => out_ok s' /\ c' = (line_skips fuel c).2 /\
    out_view s' = with_line_info (line_skips fuel c).1 (3, mark, line) (out_view s)).
Proof.
  revert s c. induction fuel as [|fuel IH]; intros s c Hs Hl Hf; cbn [skip_code line_skips].
  - destruct (Z.ltb_spec 15 c) as [?|_]; [lia|]. apply sreturns_ret. split_and!; [done..|].
    unfold with_line_info, with_lines, with_debug. simpl. rewrite app_nil_r, <- Hl. done.
  - destruct (Z.ltb_spec 15 c) as [Hc|Hc].
    + eapply sreturns_bind; [by apply emit_delta_spec|]. intros _ s1 [Hs1 Hv1].
      eapply sreturns_mono; [apply IH; [done|by rewrite Hv1|lia]|]. intros c' s2 (Hs2 & -> & Hv2).
      destruct (line_skips fuel (c - 15)) as [l c'] eqn:E. split_and!; [done..|]. by rewrite Hv2, Hv1, with_line_info_app.
    + apply sreturns_ret. split_and!; [done..|]. unfold with_line_info, with_lines, with_debug. simpl. rewrite app_nil_r, <- Hl. done.
Qed.

Lemma AEmitLineNumber_spec s l mark line : out_ok s -> c_lines (out_view s) = (3, mark, line) ->
  effect (AEmitLineNumber l) s (fun v =>
    with_line_info (line_words (u32 (zlen (c_code v) - mark)) (u32 (l - line)) l) (3, zlen (c_code v), l) v).
Proof.
  intros Hs Hl. unfold AEmitLineNumber. apply sreturns_get_bind. cbv zeta. apply sreturns_modify_bind.
  pose proof Hl as Hl'. injection Hl' as H1 H2 H3. rewrite H1, H2, H3.
  set (s1 := set_lines 3 (ABufInd s) l s). assert (Hs1 : out_ok s1) by (destruct Hs; by constructor).
  assert (Hi : zlen (c_code (out_view s)) = ABufInd s) by (apply zlen_used, Hs). rewrite Hi.
  assert (Hv1 : out_view s1 = with_lines (3, ABufInd s, l) (out_view s)) by done.
  set (c := u32 (ABufInd s - mark)). unfold line_words.
  assert (Hc : 0 <= c) by (unfold c, u32; zsolve).
  eapply sreturns_bind; [apply (skip_code_spec _ s1 c (ABufInd s) l Hs1); [by rewrite Hv1|lia]|]. intros c' s2 (Hs2 & -> & Hv2).
  destruct (line_skips (Z.to_nat c) c) as [ws c'] eqn:E. cbn [fst snd] in *.
  assert (Hl2 : c_lines (out_view s2) = (3, ABufInd s, l)) by (by rewrite Hv2).
  destruct (7 <? u32 (l - line)).
  - eapply sreturns_bind; [by eapply AEmitAbsoluteLineNumber_spec|]. intros _ s3 [Hs3 Hv3].
    eapply sreturns_mono; [apply emit_delta_spec; [done|by rewrite Hv3]|]. intros _ s4 [Hs4 ->]. split; [done|].
    rewrite Hv3, Hv2, !with_line_info_app, Hv1. by rewrite <- ?app_assoc.
  - eapply sreturns_mono; [by eapply emit_delta_spec|]. intros _ s4 [Hs4 ->]. split; [done|]. by rewrite Hv2, with_line_info_app, Hv1.
Qed.

(** ** The generator as a stack of sections *)

(** What is emitted in a section: its code, its exception and debugging
    information, and the members that control line numbers.  Indices are
    relative to the section. *)
Record Section_ := MkSec {
  sec_code : list Z;
  sec_except : list Z;
  sec_debug : list Z;
  sec_index : Z;
  sec_mark : Z;
  sec_line : Z
}.

(** The sections, the innermost first, and the saved code. *)
Record Gen := MkGen { g_top : Section_; g_outer : list Section_; g_saved : list Z }.

Definition top_code (c : list Z) (x : Section_) : Section_ := MkSec c (sec_except x) (sec_debug x) (sec_index x) (sec_mark x) (sec_line x).
Definition set_top (x : Section_) (g : Gen) : Gen := MkGen x (g_outer g) (g_saved g).
Definition map_code (f : list Z -> list Z) (g : Gen) : Gen := set_top (top_code (f (sec_code (g_top g))) (g_top g)) g.

Inductive gen_op :=
  | GOp (w : Z)
  | GOpArg (w a : Z)
  | GOp2Args (w a b : Z)
  | GOp3Args (w a b c : Z)
  | GArg (a : Z)
  | G2Args (a b : Z)
  | GSet (i w : Z)
  | GToggle (i : Z)
  | GBranch (i dest : Z)
  | GBack (n : Z)
  | GSave (n : Z)
  | GRestore (n : Z)
  | GExcept (w : Z)
  | GTryBegin (direct : bool)
  | GTryEnd
  | GExceptCase (local global : Z)
  | GFinally (local : Z)
  | GLine (line : Z)
  | GAbsLine (line : Z)
  | GEnter
  | GLeave (locals file minArgs maxArgs : Z)
  | GQuit.

(** The operations as the compiler calls them, and the function that a
    [GLeave] creates. *)
Definition do_gen (o : gen_op) : SM Output (option (AFunction * bool)) :=
  let none (m : SM Output unit) : SM Output (option (AFunction * bool)) := m ≫= (fun _ => mret None) in
  match o with
  | GOp w => none (AEmitOpcode w)
  | GOpArg w a => none (AEmitOpcodeArg w a)
  | GOp2Args w a b => none (AEmitOpcode2Args w a b)
  | GOp3Args w a b c => none (AEmitOpcode3Args w a b c)
  | GArg a => none (AEmitArg a)
  | G2Args a b => none (AEmit2Args a b)
  | GSet i w => b ← section_start; none (ASetOpcode (b + i) w)
  | GToggle i => b ← section_start; none (AToggleBranch (b + i))
  | GBranch i dest => b ← section_start; none (ASetBranchDest (b + i) (b + dest))
  | GBack n => none (AEmitBack n)
  | GSave n => none (ASaveCode n)
  | GRestore n => none (ARestoreCode n)
  | GExcept w => none (AEmitExceptInfo w)
  | GTryBegin direct => none (AEmitTryBlockBegin direct)
  | GTryEnd => none AEmitTryBlockEnd
  | GExceptCase local global => none (AEmitExcept local global)
  | GFinally local => none (AEmitFinally local)
  | GLine l => none (AEmitLineNumber l)
  | GAbsLine l => none (AEmitAbsoluteLineNumber l)
  | GEnter => none AEnterSection
  | GLeave locals file minArgs maxArgs => f ← ALeaveSection locals file minArgs maxArgs; mret (Some f)
  | GQuit => none AQuitSection
  end.

Fixpoint do_gens (l : list gen_op) : SM Output (list (AFunction * bool)) :=
  match l with
  | [] => mret []
  | o :: l => f ← do_gen o; fs ← do_gens l; mret (match f with Some f => f :: fs | None => fs end)
  end.

(** The same on the lists of the section that is being compiled; [None] where
    an operation reaches behind its section or its code. *)
Definition guarded {A} (b : bool) (x : A) : option A := if b then Some x else None.

(** The branch opcodes, with their sizes. *)
Definition branch_size (w : Z) : option Z :=
  match op_of w with
  | Some o => n ← AOpcodeSizes !! Z.to_nat o; guarded (1 <=? n) n
  | None => None
  end.

Definition put_except (ws : list Z) (x : Section_) : Section_ :=
  MkSec (sec_code x) (sec_except x ++ ws) (sec_debug x) (sec_index x) (sec_mark x) (sec_line x).
Definition put_lines (ws : list Z) (mark line : Z) (x : Section_) : Section_ :=
  MkSec (sec_code x) (sec_except x) (sec_debug x ++ ws) 3 mark line.

Definition gen_step (o : gen_op) (g : Gen) : option (Gen * option (AFunction * bool)) :=
  let x := g_top g in
  let n := zlen (sec_code x) in
  let inner := negb (zlen (g_outer g) =? 0) in
  let code f := Some (map_code f g, None) in
  let top y := guarded inner (set_top y g, None) in
  let cut k := take (length (sec_code x) - Z.to_nat k) (sec_code x) in
  match o with
  | GOp w => code (fun c => c ++ [w])
  | GOpArg w a => code (fun c => c ++ [w; a])
  | GOp2Args w a b => code (fun c => c ++ [w; a; b])
  | GOp3Args w a b c => code (fun l => l ++ [w; a; b; c])
  | GArg a => code (fun c => c ++ [a])
  | G2Args a b => code (fun c => c ++ [a; b])
  | GSet i w => guarded (inner && (0 <=? i) && (i <? n)) (map_code (<[Z.to_nat i := w]>) g, None)
  | GToggle i =>
    w ← sec_code x !! Z.to_nat i;
    guarded (inner && (0 <=? i)) (map_code (<[Z.to_nat i := Z.lxor w 1]>) g, None)
  | GBranch i dest =>
    w ← sec_code x !! Z.to_nat i; k ← branch_size w;
    guarded (inner && (0 <=? i) && (i + k <=? n)) (map_code (<[Z.to_nat (i + k - 1) := displacement i k dest]>) g, None)
  | GBack k => guarded ((0 <=? k) && (k <=? n)) (map_code (fun _ => cut k) g, None)
  | GSave k =>
    guarded ((0 <=? k) && (k <=? n))
      (MkGen (top_code (cut k) x) (g_outer g) (g_saved g ++ drop (length (sec_code x) - Z.to_nat k) (sec_code x)), None)
  | GRestore k =>
    let m := (length (g_saved g) - Z.to_nat k)%nat in
    guarded ((0 <=? k) && (k <=? zlen (g_saved g)))
      (MkGen (top_code (sec_code x ++ drop m (g_saved g)) x) (g_outer g) (take m (g_saved g)), None)
  | GExcept w => Some (set_top (put_except [w] x) g, None)
  | GTryBegin direct => top (put_except [u32 (Z.shiftl n 2 + Z.shiftl (Z.b2z direct) 1)] x)
  | GTryEnd => Some (set_top (put_except [A_END_TRY_BLOCK] x) g, None)
  | GExceptCase local global => top (put_except [Z.lor A_EXCEPT (Z.shiftl local A_EXCEPT_CODE_SHIFT); u32 n; global] x)
  | GFinally local => top (put_except [Z.lor A_FINALLY (Z.shiftl local A_EXCEPT_CODE_SHIFT); u32 n] x)
  | GLine l => top (put_lines (line_words (u32 (n - sec_mark x)) (u32 (l - sec_line x)) l) n l x)
  | GAbsLine l => top (put_lines [abs_word l] (sec_mark x) l x)
  | GEnter => guarded (zlen (g_outer g) <? A_MAX_ACTIVE_SECTIONS) (MkGen (MkSec [] [] [] 3 0 (sec_line x)) (x :: g_outer g) (g_saved g), None)
  | GLeave locals file minArgs maxArgs =>
    match g_outer g with
    | [] => None
    | y :: l => Some (MkGen y l (g_saved g),
        Some (MkFunction minArgs maxArgs (locals * 8) n file (sec_code x ++ sec_except x ++ final_debug (sec_debug x)),
              A_MAX_FRAME_DEPTH <=? locals))
    end
  | GQuit => match g_outer g with [] => None | y :: l => Some (MkGen y l (g_saved g), None) end
  end.

Fixpoint gen_run (l : list gen_op) (g : Gen) : option (Gen * list (AFunction * bool)) :=
  match l with
  | [] => Some (g, [])
  | o :: l => '(g, f) ← gen_step o g; '(g, fs) ← gen_run l g; Some (g, match f with Some f => f :: fs | None => fs end)
  end.

(** The buffers hold the sections one behind the other, the outermost first. *)
Definition flat (f : Section_ -> list Z) (l : list Section_) : list Z := concat (f <$> reverse l).

Fixpoint section_states (l : list Section_) : list ASectionState :=
  match l with
  | [] => []
  | x :: l' => MkSection (zlen (flat sec_code l)) (zlen (flat sec_debug l)) (zlen (flat sec_except l)) (sec_index x)
                 (zlen (flat sec_code l') + sec_mark x) (sec_line x) :: section_states l'
  end.

Definition gen_view (p : Z) (g : Gen) : Code :=
  let all := g_top g :: g_outer g in
  MkCode (flat sec_code all) p (g_saved g) (flat sec_except all) (flat sec_debug all)
    (sec_index (g_top g), zlen (flat sec_code (g_outer g)) + sec_mark (g_top g), sec_line (g_top g)) (section_states (g_outer g)).

(** Line numbers are emitted within functions only. *)
Definition gen_ok (g : Gen) : Prop := Forall (fun x => sec_index x = 3) (removelast (g_top g :: g_outer g)).

Definition implements (g : Gen) (s : Output) : Prop := out_ok s /\ gen_ok g /\ exists p, out_view s = gen_view p g.

Lemma flat_cons f x l : flat f (x :: l) = flat f l ++ f x.
Proof. unfold flat. rewrite reverse_cons, fmap_app, concat_app. simpl. by rewrite app_nil_r. Qed.

Lemma gen_code p g : c_code (gen_view p g) = flat sec_code (g_outer g) ++ sec_code (g_top g).
Proof. apply flat_cons. Qed.

Lemma gen_view_code p f g : gen_view p (map_code f g) = with_code (flat sec_code (g_outer g) ++ f (sec_code (g_top g))) (gen_view p g).
Proof. unfold gen_view, with_code. simpl. by rewrite !flat_cons. Qed.

Lemma gen_ok_top g x : gen_ok g -> sec_index x = sec_index (g_top g) -> gen_ok (set_top x g).
Proof. unfold gen_ok. simpl. destruct (g_outer g); [done|]. intros H Hx. apply Forall_cons_1 in H as [H1 H2]. constructor; [congruence|done]. Qed.

Lemma gen_inner g : negb (zlen (g_outer g) =? 0) = true -> gen_ok g -> sec_index (g_top g) = 3.
Proof. unfold gen_ok. destruct (g_outer g); [done|]. intros _ H. by apply Forall_cons_1 in H as [? _]. Qed.

(** The innermost section starts where the outer ones end. *)
Lemma gen_start g s : implements g s -> negb (zlen (g_outer g) =? 0) = true ->
  sreturns section_start s (fun b s' => b = zlen (flat sec_code (g_outer g)) /\ s' = s).
Proof.
  intros (_ & _ & p & Hv) Hi. destruct (g_outer g) as [|y l] eqn:El; [done|]. apply (f_equal c_sections) in Hv. simpl in Hv. rewrite El in Hv.
  eapply sreturns_mono; [by apply (section_start_spec _ _ _ Hv)|done].
Qed.

(** An operation that changes the code of the innermost section. *)
Lemma implements_code {A} (m : SM Output A) (a : A) s g f (h : Code -> Code) : implements g s ->
  sreturns m s (fun b s' => b = a /\ out_ok s' /\ out_view s' = h (out_view s)) ->
  (forall p, exists p', h (gen_view p g) = with_prev p' (with_code (flat sec_code (g_outer g) ++ f (sec_code (g_top g))) (gen_view p g))) ->
  sreturns m s (fun b s' => b = a /\ implements (map_code f g) s').
Proof.
  intros (Hs & Hg & p & Hv) Hm Hh. eapply sreturns_mono; [exact Hm|]. intros b s' (-> & Hs' & Hv'). split; [done|]. split_and!; [done| |].
  - by apply gen_ok_top.
  - destruct (Hh p) as [p' Hp]. exists p'. rewrite Hv', Hv, Hp, <- (gen_view_code p). done.
Qed.

(** The operations that return nothing. *)
Lemma none_returns (m : SM Output unit) s (P : Output -> Prop) :
  sreturns m s (fun _ => P) -> sreturns (m ≫= (fun _ => mret (None : option (AFunction * bool)))) s (fun b s' => b = None /\ P s').
Proof. intros Hm. eapply sreturns_bind; [exact Hm|]. intros ? s' ?. by apply sreturns_ret. Qed.

Lemma insert_flat (a b : list Z) i w : 0 <= i < zlen b -> <[Z.to_nat (zlen a + i) := w]> (a ++ b) = a ++ <[Z.to_nat i := w]> b.
Proof. intros Hi. rewrite insert_app_r_alt by lia. f_equal. f_equal. lia. Qed.

Lemma lookup_flat (a b : list Z) i w : 0 <= i -> b !! Z.to_nat i = Some w -> (a ++ b) !! Z.to_nat (zlen a + i) = Some w.
Proof. intros Hi Hw. rewrite lookup_app_r by lia. rewrite <- Hw. f_equal. lia. Qed.

Lemma cut_flat (a b : list Z) k : 0 <= k <= zlen b ->
  take (length (a ++ b) - Z.to_nat k) (a ++ b) = a ++ take (length b - Z.to_nat k) b /\ drop (length (a ++ b) - Z.to_nat k) (a ++ b) = drop (length b - Z.to_nat k) b.
Proof.
  intros Hk. rewrite length_app. replace (length a + length b - Z.to_nat k)%nat with (length a + (length b - Z.to_nat k))%nat by lia.
  by rewrite take_app_add, drop_app_add.
Qed.

Local Abbreviation simulates o g' f s := (sreturns (do_gen o) s (fun b s' => b = f /\ implements g' s')).

(** Words appended to the code. *)
Lemma gen_emit (m : SM Output unit) s g ws noted : implements g s ->
  sreturns m s (fun _ s' => out_ok s' /\ out_view s' = (if noted : bool then fun v => emit ws (note v) else emit ws) (out_view s)) ->
  sreturns (m ≫= (fun _ => mret (None : option (AFunction * bool)))) s (fun b s' => b = None /\ implements (map_code (fun c => c ++ ws) g) s').
Proof.
  intros Hg Hm. eapply implements_code; [done|apply none_returns; exact Hm|]. intros p. exists (if noted then zlen (c_code (gen_view p g)) else p).
  rewrite app_assoc, <- (gen_code p). by destruct noted.
Qed.

(** A word of the innermost section replaced. *)
Lemma gen_put (m : SM Output unit) s g i w : implements g s -> 0 <= i < zlen (sec_code (g_top g)) ->
  sreturns m s (fun _ s' => out_ok s' /\ out_view s' = (fun v => with_code (<[Z.to_nat (zlen (flat sec_code (g_outer g)) + i) := w]> (c_code v)) v) (out_view s)) ->
  sreturns (m ≫= (fun _ => mret (None : option (AFunction * bool)))) s (fun b s' => b = None /\ implements (map_code (<[Z.to_nat i := w]>) g) s').
Proof.
  intros Hg Hi Hm. eapply implements_code; [done|apply none_returns; exact Hm|]. intros p. exists p. cbv beta. rewrite gen_code, insert_flat by done. done.
Qed.

Lemma guarded_Some {A} b (x y : A) : guarded b x = Some y -> b = true /\ y = x.
Proof. destruct b; [|done]. by intros [= <-]. Qed.

(** Exception and debugging information appended in the innermost section. *)
Lemma gen_append (m : SM Output unit) s g x : implements g s -> sec_index x = sec_index (g_top g) ->
  sreturns m s (fun _ s' => out_ok s' /\ forall p, out_view s = gen_view p g -> exists p', out_view s' = gen_view p' (set_top x g)) ->
  sreturns (m ≫= (fun _ => mret (None : option (AFunction * bool)))) s (fun b s' => b = None /\ implements (set_top x g) s').
Proof.
  intros (Hs & Hg & p & Hv) Hx Hm. eapply sreturns_bind; [exact Hm|]. intros _ s' [Hs' Hf]. apply sreturns_ret. split; [done|].
  destruct (Hf p Hv) as [p' Hp]. split_and!; [done|by apply gen_ok_top|by exists p'].
Qed.

Lemma put_except_view p ws x g : x = put_except ws (g_top g) -> gen_view p (set_top x g) = with_except (c_except (gen_view p g) ++ ws) (gen_view p g).
Proof. intros ->. unfold gen_view, with_except. simpl. rewrite !flat_cons. simpl. by rewrite app_assoc. Qed.

Lemma with_except_app a b v : with_except (c_except (with_except a v) ++ b) (with_except a v) = with_except (a ++ b) v.
Proof. done. Qed.

Lemma put_lines_view p ws mark line g : gen_view p (set_top (put_lines ws mark line (g_top g)) g) =
  with_line_info ws (3, zlen (flat sec_code (g_outer g)) + mark, line) (gen_view p g).
Proof. unfold gen_view, with_line_info, with_lines, with_debug. simpl. rewrite !flat_cons. simpl. by rewrite app_assoc. Qed.

Lemma AGetCodeIndex_spec s : sreturns AGetCodeIndex s (fun i s' => i = ABufInd s /\ s' = s).
Proof. unfold AGetCodeIndex. apply sreturns_get_bind. by apply sreturns_ret. Qed.

(** The index of the next word, from the start of the section. *)
Lemma gen_index {A} g s (f : Z -> Z -> SM Output A) Q : implements g s -> negb (zlen (g_outer g) =? 0) = true ->
  (forall i b, i - b = zlen (sec_code (g_top g)) -> sreturns (f i b) s Q) -> sreturns (i ← AGetCodeIndex; b ← section_start; f i b) s Q.
Proof.
  intros Hg Hi Hf. pose proof Hg as (Hs & _ & p & Hv). eapply sreturns_bind; [apply AGetCodeIndex_spec|]. intros ? ? [-> ->].
  eapply sreturns_bind; [by apply gen_start|]. intros ? ? [-> ->]. apply Hf.
  apply (f_equal c_code) in Hv. rewrite gen_code in Hv. apply (f_equal length) in Hv. simpl in Hv.
  rewrite length_app, length_used in Hv by apply Hs. pose proof (ok_code _ Hs) as Hc. unfold in_buffer in Hc. lia.
Qed.

Lemma branch_size_spec w k : branch_size w = Some k -> exists o : AOp, w = op_num o /\ AOpcodeSizes !! Z.to_nat o = Some k /\ 1 <= k.
Proof.
  unfold branch_size, op_of. intros H. destruct (Z.ltb_spec w 0) as [?|Hw]; [done|]. destruct (all_ops !! Z.to_nat w) as [o|] eqn:Eo; [|done].
  simpl in H. apply bind_Some in H as (n & Hn & Hk). apply guarded_Some in Hk as [Hk%Z.leb_le ->]. exists o. split_and!; [|done..].
  assert (Hall : forall i, (i < length all_ops)%nat -> all_ops !! i = Some o -> op_num o = Z.of_nat i).
  { intros i Hi Hl. do 88 (destruct i as [|i]; [by injection Hl as <-|]). simpl in Hi. lia. }
  rewrite (Hall (Z.to_nat w)); [lia|by eapply lookup_lt_Some|done].
Qed.

(** The operations on code. *)
Lemma code_word_view g s i w : implements g s -> 0 <= i -> sec_code (g_top g) !! Z.to_nat i = Some w ->
  c_code (out_view s) !! Z.to_nat (zlen (flat sec_code (g_outer g)) + i) = Some w.
Proof. intros (_ & _ & p & ->) Hi Hw. rewrite gen_code. by apply lookup_flat. Qed.

Lemma view_code_length g s : implements g s -> zlen (c_code (out_view s)) = zlen (flat sec_code (g_outer g)) + zlen (sec_code (g_top g)).
Proof. intros (_ & _ & p & ->). rewrite gen_code, length_app. lia. Qed.

Lemma implements_ok g s : implements g s -> out_ok s.
Proof. by intros [? _]. Qed.

Lemma gen_step_code o g g' f s : implements g s -> gen_step o g = Some (g', f) ->
  match o with GSet _ _ | GToggle _ | GBranch _ _ | GBack _ | GSave _ | GRestore _ => True | _ => False end -> simulates o g' f s.
Proof.
  intros Hg Hstep Ho. pose proof (view_code_length g s Hg) as Hlen. pose proof (implements_ok g s Hg) as Hs0.
  destruct o; try done; cbn [gen_step do_gen] in *; cbv zeta in Hstep.
  - apply guarded_Some in Hstep as [Hc [= -> ->]]. apply andb_prop in Hc as [[Hi H0%Z.leb_le]%andb_prop Hl%Z.ltb_lt].
    eapply sreturns_bind; [by apply gen_start|]. intros ? ? [-> ->]. apply gen_put; [done|lia|]. apply ASetOpcode_spec; [done|lia].
  - apply bind_Some in Hstep as (w & Hw & Hstep). apply guarded_Some in Hstep as [Hc [= -> ->]]. apply andb_prop in Hc as [Hi H0%Z.leb_le].
    eapply sreturns_bind; [by apply gen_start|]. intros ? ? [-> ->]. pose proof (lookup_lt_Some _ _ _ Hw). apply gen_put; [done|lia|].
    apply AToggleBranch_spec; [done|lia|]. by apply code_word_view.
  - apply bind_Some in Hstep as (w & Hw & Hstep). apply bind_Some in Hstep as (k & Hk & Hstep).
    apply guarded_Some in Hstep as [Hc [= -> ->]]. apply andb_prop in Hc as [[Hi H0%Z.leb_le]%andb_prop Hl%Z.leb_le].
    apply branch_size_spec in Hk as (o & -> & Hn & H1). eapply sreturns_bind; [by apply gen_start|]. intros ? ? [-> ->]. apply gen_put; [done|lia|].
    eapply sreturns_mono; [eapply (ASetBranchDest_spec _ _ o k); [done|lia|by apply code_word_view|done|done|lia]|].
    intros _ s' [Hs' ->]. split; [done|]. f_equal. f_equal; [f_equal; lia|]. unfold displacement. f_equal. lia.
  - apply guarded_Some in Hstep as [Hc [= -> ->]]. apply andb_prop in Hc as [H0%Z.leb_le Hl%Z.leb_le].
    pose proof Hg as (Hs & Hok & p & Hv).
    eapply sreturns_mono; [eapply none_returns, AEmitBack_spec; [done|lia]|]. intros b s' (-> & Hs' & Hv'). split; [done|]. split_and!; [done|by apply (gen_ok_top g)|].
    exists p. rewrite Hv', Hv, gen_view_code, gen_code. by rewrite (proj1 (cut_flat _ _ _ (conj H0 Hl))).
  - apply guarded_Some in Hstep as [Hc [= -> ->]]. apply andb_prop in Hc as [H0%Z.leb_le Hl%Z.leb_le]. pose proof Hg as (Hs & Hok & p & Hv).
    eapply sreturns_mono; [eapply none_returns, ASaveCode_spec; [done|lia]|]. intros b s' (-> & Hs' & Hv'). split; [done|]. split_and!; [done|by apply (gen_ok_top g)|].
    exists p. rewrite Hv', Hv. cbv zeta. rewrite gen_code. destruct (cut_flat (flat sec_code (g_outer g)) (sec_code (g_top g)) n) as [-> ->]; [lia|].
    unfold gen_view, with_saved, with_code. simpl. by rewrite !flat_cons.
  - apply guarded_Some in Hstep as [Hc [= -> ->]]. apply andb_prop in Hc as [H0%Z.leb_le Hl%Z.leb_le]. pose proof Hg as (Hs & Hok & p & Hv).
    eapply sreturns_mono; [eapply none_returns, ARestoreCode_spec; [done|by rewrite Hv]|]. intros b s' (-> & Hs' & Hv'). split; [done|].
    split_and!; [done|by apply (gen_ok_top g)|]. exists 0. rewrite Hv', Hv. unfold gen_view, with_prev, with_saved, emit, with_code. simpl. rewrite !flat_cons. simpl. by rewrite <- ?app_assoc.
Qed.

(** Words of exception information, one at a time. *)
Definition put_excepts (ws : list Z) (g : Gen) : Gen := set_top (put_except ws (g_top g)) g.

Lemma put_excepts_app a b g : put_excepts b (put_excepts a g) = put_excepts (a ++ b) g.
Proof. unfold put_excepts, put_except, set_top. simpl. by rewrite <- app_assoc. Qed.

Lemma except_word w g s : implements g s -> sreturns (AEmitExceptInfo w) s (fun _ => implements (put_excepts [w] g)).
Proof.
  intros (Hs & Hok & p & Hv). eapply sreturns_mono; [by apply AEmitExceptInfo_spec|]. intros _ s2 [Hs2 Hv2].
  split_and!; [done|by apply (gen_ok_top g)|]. exists p. unfold put_excepts. by rewrite Hv2, Hv, (put_except_view p [w] _ g).
Qed.

Lemma gen_step_except o g g' f s : implements g s -> gen_step o g = Some (g', f) ->
  match o with GExcept _ | GTryBegin _ | GTryEnd | GExceptCase _ _ | GFinally _ => True | _ => False end -> simulates o g' f s.
Proof.
  intros Hg Hstep Ho. destruct o; try done; cbn [gen_step do_gen] in *; cbv zeta in Hstep.
  - injection Hstep as <- <-. by apply none_returns, except_word.
  - apply guarded_Some in Hstep as [Hi [= -> ->]]. apply none_returns. unfold AEmitTryBlockBegin. eapply gen_index; [done..|]. intros i b ->. by apply except_word.
  - injection Hstep as <- <-. by apply none_returns, except_word.
  - apply guarded_Some in Hstep as [Hi [= -> ->]]. apply none_returns. unfold AEmitExcept. eapply sreturns_bind; [by apply except_word|]. intros ? s1 H1.
    refine (gen_index _ _ _ _ H1 Hi _). intros i b ->. eapply sreturns_bind; [exact (except_word _ _ _ H1)|]. intros ? s2 H2.
    eapply sreturns_mono; [exact (except_word _ _ _ H2)|]. intros ? s3 H3. by rewrite !put_excepts_app in H3.
  - apply guarded_Some in Hstep as [Hi [= -> ->]]. apply none_returns. unfold AEmitFinally. eapply sreturns_bind; [by apply except_word|]. intros ? s1 H1.
    refine (gen_index _ _ _ _ H1 Hi _). intros i b ->.
    eapply sreturns_mono; [exact (except_word _ _ _ H1)|]. intros ? s3 H3. by rewrite !put_excepts_app in H3.
Qed.

Lemma gen_step_lines o g g' f s : implements g s -> gen_step o g = Some (g', f) ->
  match o with GLine _ | GAbsLine _ => True | _ => False end -> simulates o g' f s.
Proof.
  intros Hg Hstep Ho. pose proof (view_code_length g s Hg) as Hlen. destruct Hg as (Hs & Hok & p & Hv).
  destruct o; try done; cbn [gen_step do_gen] in *; cbv zeta in Hstep;
    apply guarded_Some in Hstep as [Hi [= -> ->]]; pose proof (gen_inner g Hi Hok) as Hx; apply none_returns;
    assert (Hl : c_lines (out_view s) = (3, zlen (flat sec_code (g_outer g)) + sec_mark (g_top g), sec_line (g_top g))) by (rewrite Hv, <- Hx; done).
  - eapply sreturns_mono; [by eapply AEmitLineNumber_spec|]. intros ? s1 [Hs1 Hv1].
    split_and!; [done|by apply (gen_ok_top g)|]. exists p. rewrite Hv1, put_lines_view, Hlen, Hv. do 3 f_equal. lia.
  - eapply sreturns_mono; [by eapply AEmitAbsoluteLineNumber_spec|]. intros ? s1 [Hs1 Hv1].
    split_and!; [done|by apply (gen_ok_top g)|]. exists p. by rewrite Hv1, put_lines_view, Hv.
Qed.

Lemma removelast_cons {A} (x y : A) l : removelast (x :: y :: l) = x :: removelast (y :: l).
Proof. done. Qed.

(** What is left of the view when the innermost section is gone. *)
Lemma leave_view p x y l saved : leave (hd (MkSection 0 0 0 0 0 0) (section_states (y :: l))) (gen_view p (MkGen x (y :: l) saved)) = gen_view 0 (MkGen y l saved).
Proof.
  unfold leave, gen_view. cbn [section_states hd s_bufInd s_exceptInd s_debugInfoBufInd s_lineIndex s_prevLineCodeIndex s_prevLine c_code c_except c_debug c_saved c_sections g_top g_outer g_saved tail].
  by rewrite !(flat_cons _ x), !used_front.
Qed.

Lemma gen_section_ok p x y l saved : section_ok (hd (MkSection 0 0 0 0 0 0) (section_states (y :: l))) (gen_view p (MkGen x (y :: l) saved)).
Proof.
  unfold section_ok. cbn [section_states hd s_bufInd s_exceptInd s_debugInfoBufInd c_code c_except c_debug gen_view g_top g_outer].
  rewrite !(flat_cons _ x), !length_app. lia.
Qed.

Lemma gen_step_sections o g g' f s : implements g s -> gen_step o g = Some (g', f) ->
  match o with GEnter | GLeave _ _ _ _ | GQuit => True | _ => False end -> simulates o g' f s.
Proof.
  intros (Hs & Hok & p & Hv) Hstep Ho. destruct g as [x outer saved].
  destruct o; try done; cbn [gen_step do_gen g_outer g_top g_saved] in *; cbv zeta in Hstep.
  - apply guarded_Some in Hstep as [Hn%Z.ltb_lt [= -> ->]]. apply none_returns.
    assert (Hlen : zlen (ASection s) = zlen outer).
    { change (ASection s) with (c_sections (out_view s)). rewrite Hv. cbn [c_sections gen_view g_outer]. clear. f_equal. induction outer; simpl; congruence. }
    eapply sreturns_mono; [apply AEnterSection_spec; [done|lia]|]. intros ? s1 [Hs1 Hv1].
    split_and!; [done|by constructor|]. exists p. rewrite Hv1, Hv. unfold gen_view, with_lines, with_sections. cbn -[flat]. by rewrite !(flat_cons _ (MkSec _ _ _ _ _ _)), !app_nil_r, Z.add_0_r.
  - destruct outer as [|y l]; [done|]. injection Hstep as <- <-.
    assert (Hsec : ASection s = section_states (y :: l)) by exact (f_equal c_sections Hv). cbn [section_states] in Hsec.
    pose proof (gen_section_ok p x y l saved) as Hso. rewrite <- Hv in Hso.
    eapply sreturns_bind; [by apply (ALeaveSection_spec _ _ _ locals file minArgs maxArgs Hs Hsec Hso)|]. intros r s1 (Hs1 & Hv1 & ->). apply sreturns_ret.
    pose proof (leave_view p x y l saved) as Hlv. cbn [section_states hd] in Hlv. rewrite Hv, Hlv in Hv1. split.
    + rewrite Hv. cbn [s_bufInd s_exceptInd s_debugInfoBufInd c_code c_except c_debug gen_view g_top g_outer].
      rewrite !(flat_cons _ x), !Nat2Z.id, !drop_app_length. done.
    + split_and!; [done| |by exists 0]. unfold gen_ok in Hok. cbn [g_top g_outer] in *. rewrite removelast_cons in Hok. by apply Forall_cons_1 in Hok as [_ ?].
  - destruct outer as [|y l]; [done|]. injection Hstep as <- <-. apply none_returns.
    assert (Hsec : ASection s = section_states (y :: l)) by exact (f_equal c_sections Hv). cbn [section_states] in Hsec.
    pose proof (gen_section_ok p x y l saved) as Hso. rewrite <- Hv in Hso.
    eapply sreturns_mono; [by apply (AQuitSection_spec _ _ _ Hs Hsec Hso)|]. intros ? s1 [Hs1 Hv1].
    pose proof (leave_view p x y l saved) as Hlv. cbn [section_states hd] in Hlv. rewrite Hv, Hlv in Hv1.
    split_and!; [done| |by exists 0]. unfold gen_ok in Hok. cbn [g_top g_outer] in *. rewrite removelast_cons in Hok. by apply Forall_cons_1 in Hok as [_ ?].
Qed.

Lemma gen_step_spec o g g' f s : implements g s -> gen_step o g = Some (g', f) -> simulates o g' f s.
Proof.
  intros Hg Hstep. pose proof (implements_ok g s Hg) as Hs.
  destruct o; try solve [by eapply gen_step_code|by eapply gen_step_except|by eapply gen_step_lines|by eapply gen_step_sections].
  all: injection Hstep as <- <-; cbn [do_gen].
  - apply (gen_emit _ s g _ true Hg). apply (AEmitOpcode_spec s w Hs).
  - apply (gen_emit _ s g _ true Hg). apply (AEmitOpcodeArg_spec s w a Hs).
  - apply (gen_emit _ s g _ true Hg). apply (AEmitOpcode2Args_spec s w a b Hs).
  - apply (gen_emit _ s g _ true Hg). apply (AEmitOpcode3Args_spec s w a b c Hs).
  - apply (gen_emit _ s g _ false Hg). apply (AEmitArg_spec s a Hs).
  - apply (gen_emit _ s g _ false Hg). apply (AEmit2Args_spec s a b Hs).
Qed.

(** The initial state. *)
Definition no_code : Gen := MkGen (MkSec [op_num OP_NOP] [] [] 0 0 0) [] [].

Lemma AInitializeOutput_spec : returns AInitializeOutput (fun s => implements no_code s).
Proof.
  unfold AInitializeOutput. eapply returns_bind; [apply GrowBuffer_spec; unfold INITIAL_OUTPUT_BUFFER_SIZE; simpl; lia|].
  intros b (c & -> & Hb). cbn [app] in *. unfold INITIAL_OUTPUT_BUFFER_SIZE in Hb. destruct c as [|x c]; [simpl in Hb; lia|].
  eapply returns_bind; [eapply evals_returns; [apply (put_word_at [])|exact eq_refl]|]. intros ? <-.
  eapply returns_bind; [apply GrowBuffer_spec; unfold INITIAL_SAVE_BUFFER_SIZE; simpl; lia|]. intros save (? & _ & Hsave).
  eapply returns_bind; [apply GrowBuffer_spec; unfold INITIAL_EXCEPT_BUFFER_SIZE; simpl; lia|]. intros ex (? & _ & Hex).
  eapply returns_bind; [apply GrowBuffer_spec; unfold INITIAL_DEBUG_INFO_BUFFER_SIZE; simpl; lia|]. intros dbg (? & _ & Hdbg).
  apply returns_ret. unfold INITIAL_SAVE_BUFFER_SIZE, INITIAL_EXCEPT_BUFFER_SIZE, INITIAL_DEBUG_INFO_BUFFER_SIZE in *. split_and!.
  - constructor; simpl; unfold in_buffer; simpl in *; lia.
  - by constructor.
  - exists 0. done.
Qed.

Lemma do_gens_spec l g g' fs s : implements g s -> gen_run l g = Some (g', fs) -> sreturns (do_gens l) s (fun fs' s' => fs' = fs /\ implements g' s').
Proof.
  revert g fs s. induction l as [|o l IH]; intros g fs s Hg Hrun; cbn [do_gens gen_run] in *.
  { injection Hrun as <- <-. by apply sreturns_ret. }
  apply bind_Some in Hrun as ([g1 f] & Hstep & Hrun). apply bind_Some in Hrun as ([g2 fs'] & Hrun & [= <- <-]).
  eapply sreturns_bind; [by eapply gen_step_spec|]. intros ? s1 [-> H1]. eapply sreturns_bind; [exact (IH _ _ _ H1 Hrun)|]. intros ? s2 [-> H2].
  by apply sreturns_ret.
Qed.

(** C38: from the initial state, any sequence of operations of the generator
    that stay within the section they are called in - with sections nested up
    to the limit, code moved to the save buffer and back and code that grows
    without bound - creates the functions, code, exception handlers and line
    numbers, that separate lists for each section yield. *)
Theorem generator_refines_sections l g' fs : gen_run l no_code = Some (g', fs) ->
  returns (s ← AInitializeOutput; observe s (do_gens l)) (fun fs' => fs' = fs).
Proof.
  intros Hrun. eapply returns_bind; [apply AInitializeOutput_spec|]. intros s Hs. apply observe_returns.
  eapply sreturns_mono; [by eapply do_gens_spec|]. by intros ? ? [-> _].
Qed.

(** Two nested functions; the condition of a loop is moved behind its body. *)
Definition demo_gens : list gen_op :=
  [GEnter; GAbsLine 7; GOp2Args OP_IF_TRUE_L 3 0; GLine 8; GSave 3; GOpArg OP_JMP 0; GEnter; GAbsLine 9; GOp OP_RET; GLeave 4 1 0 0;
   GTryBegin false; GOpArg OP_ASSIGN_NILL 3; GFinally 4; GTryEnd; GBranch 0 4; GRestore 3; GBranch 4 2; GLine 30; GOp OP_RET; GLeave 5 1 0 0].

Lemma generator_refines_sections_witness :
  exists g' fs, gen_run demo_gens no_code = Some (g', fs) /\ length fs = 2%nat /\ returns (s ← AInitializeOutput; observe s (do_gens demo_gens)) (fun fs' => fs' = fs).
Proof.
  destruct (gen_run demo_gens no_code) as [[g' fs]|] eqn:E; [|vm_compute in E; discriminate].
  exists g', fs. split; [done|]. split; [vm_compute in E; injection E as _ <-; done|]. exact (generator_refines_sections demo_gens g' fs E).
Defined.
