(* ===== verification/LineNumbers.v ===== *)
(** * LineNumbers: the line of an instruction

    [GetLineNumber] of [exception.c], which reads the debugging information that
    the byte code generator puts behind the code of a function; and that it
    finds the line of every instruction. *)

From S2P Require Import Prelude Runtime Digits Value Output OutputSpec.

Open Scope Z_scope.

(** ** Line numbers *)

(** The variables of [GetLineNumber]. *)
Record LineScan := MkScan {
  l_cur : Z;
  l_line : Z;
  l_found : Z;
  l_foundLine : Z
}.

(** [if (cur <= ip && cur >= found)]. *)
Definition note_line (ip : Z) (s : LineScan) : LineScan :=
  if (l_cur s <=? ip) && (l_found s <=? l_cur s) then MkScan (l_cur s) (l_line s) (l_cur s) (l_line s) else s.

(** The fields of a word, seven bits each. *)
Fixpoint line_fields (fuel : nat) (ip val : Z) (s : LineScan) : LineScan :=
  let s := note_line ip (MkScan (l_cur s + Z.land val 15) (l_line s + Z.land (Z.shiftr val 4) 7) (l_found s) (l_foundLine s)) in
  let val := Z.shiftr val 7 in
  match fuel with
  | O => s
  | S fuel => if val =? 0 then s else line_fields fuel ip val s
  end.

Definition line_word (ip opc : Z) (s : LineScan) : LineScan :=
  let val := Z.shiftr opc 3 in
  if Z.testbit val 0 then MkScan (l_cur s) (Z.shiftr val 1) (l_found s) (l_foundLine s)
  else line_fields 5 ip (Z.shiftr val 1) s.

Fixpoint line_loop (ip : Z) (info : list Z) (s : LineScan) : LineScan :=
  match info with
  | [] => s
  | opc :: info =>
    if AIsLineNumberCode opc then line_loop ip info (line_word ip opc s)
    else if AIsExceptCode opc then match info with _ :: _ :: info => line_loop ip info s | _ => s end
    else if AIsFinallyCode opc then match info with _ :: info => line_loop ip info s | _ => s end
    else line_loop ip info s
  end.

(** [ip] is the index of an instruction in the code of [func]. *)
Definition GetLineNumber (ip : Z) (func : AFunction) : Z :=
  l_foundLine (line_loop ip (drop (Z.to_nat (f_codeLen func)) (f_code func)) (MkScan 0 0 0 0)).

(** ** The line of an instruction *)

(** The words that the generator emits, and [line_word] on them. *)
Lemma abs_word_value l : 0 <= l < 2 ^ 28 -> abs_word l = 16 * l + 13.
Proof. intros Hl. unfold abs_word. change (Z.lor A_LINE_NUMBER (Z.shiftl 1 3)) with 13. rewrite Z.lor_comm, (fields l 13 4) by lia. rewrite u32_small; lia. Qed.

Lemma delta_word_value d : 0 <= d < 2 ^ 28 -> delta_word d = 16 * d + 5.
Proof. intros Hd. unfold delta_word. change A_LINE_NUMBER with 5. rewrite Z.lor_comm, (fields d 5 4) by lia. rewrite u32_small; lia. Qed.

Lemma code_kind w m : (Z.land w A_EXCEPT_CODE_MASK =? m) = (w mod 8 =? m).
Proof. change A_EXCEPT_CODE_MASK with (Z.ones 3). by rewrite low_bits by lia. Qed.

Lemma shiftr_3 w : Z.shiftr w 3 = w / 8.
Proof. by rewrite Z.shiftr_div_pow2. Qed.

Lemma abs_word_scan ip l s : 0 <= l < 2 ^ 28 ->
  AIsLineNumberCode (abs_word l) = true /\ line_word ip (abs_word l) s = MkScan (l_cur s) l (l_found s) (l_foundLine s).
Proof.
  intros Hl. rewrite abs_word_value by done. split.
  - unfold AIsLineNumberCode. rewrite code_kind. apply Z.eqb_eq. change A_LINE_NUMBER with 5. zsolve.
  - unfold line_word. rewrite shiftr_3. replace ((16 * l + 13) / 8) with (2 * l + 1) by zsolve. rewrite Z.testbit_odd_0. f_equal.
    rewrite Z.shiftr_div_pow2 by done. zsolve.
Qed.

(** A step to the next instruction with a line number. *)
Definition line_step (ip c l : Z) (s : LineScan) : LineScan := note_line ip (MkScan (l_cur s + c) (l_line s + l) (l_found s) (l_foundLine s)).

Lemma delta_word_scan ip c l s : 0 <= c <= 15 -> 0 <= l <= 7 ->
  AIsLineNumberCode (delta_word (Z.lor c (Z.shiftl l 4))) = true /\ line_word ip (delta_word (Z.lor c (Z.shiftl l 4))) s = line_step ip c l s.
Proof.
  intros Hc Hl. rewrite Z.lor_comm, (fields l c 4) by (cbn; lia). change (2 ^ 4) with 16. rewrite delta_word_value by lia. split.
  - unfold AIsLineNumberCode. rewrite code_kind. apply Z.eqb_eq. change A_LINE_NUMBER with 5. zsolve.
  - unfold line_word. rewrite shiftr_3. replace ((16 * (l * 16 + c) + 5) / 8) with (2 * (l * 16 + c)) by zsolve. rewrite Z.testbit_even_0.
    rewrite Z.shiftr_div_pow2 by done. replace (2 * (l * 16 + c) / 2 ^ 1) with (l * 16 + c) by zsolve. cbn [line_fields].
    rewrite (Z.shiftr_div_pow2 _ 7) by done. replace ((l * 16 + c) / 2 ^ 7) with 0 by (change (2 ^ 7) with 128; zsolve). cbn [Z.eqb].
    unfold line_step. change 15 with (Z.ones 4). change 7 with (Z.ones 3). rewrite !low_bits, Z.shiftr_div_pow2 by lia. change (2 ^ 4) with 16. change (2 ^ 3) with 8.
    replace ((l * 16 + c) mod 16) with c by zsolve. by replace ((l * 16 + c) / 16 mod 8) with l by zsolve.
Qed.

(** The instructions with a line number, in the order of their indices: the
    line of the instruction at [ip] is that of the last one up to it. *)
Definition line_at (marks : list (Z * Z)) (ip : Z) : Z := default 0 (snd <$> list.last (filter (fun m => m.1 <= ip) marks)).
Definition last_mark (marks : list (Z * Z)) : Z * Z := default (0, 0) (list.last marks).

Lemma line_at_snoc marks c l ip : line_at (marks ++ [(c, l)]) ip = if c <=? ip then l else line_at marks ip.
Proof.
  unfold line_at. rewrite list.filter_app. destruct (Z.leb_spec c ip) as [Hc|Hc].
  - rewrite (filter_cons_True (fun m : Z * Z => m.1 <= ip) (c, l)) by done. by rewrite filter_nil, last_snoc.
  - rewrite (filter_cons_False (fun m : Z * Z => m.1 <= ip) (c, l)) by (simpl; lia). by rewrite filter_nil, app_nil_r.
Qed.

(** Debugging information [debug] that describes [marks], with the next line
    number relative to [line]. *)
Definition traces (debug : list Z) (marks : list (Z * Z)) (line : Z) : Prop :=
  forall ip c0, (forall m, head marks = Some m -> m.1 <= ip) -> let s := line_loop ip debug (MkScan 0 0 0 c0) in
    l_cur s = (last_mark marks).1 /\ l_line s = line /\ l_found s <= l_cur s /\
    (marks <> [] -> l_foundLine s = line_at marks ip).

Definition line_codes (l : list Z) : Prop := Forall (fun w => AIsLineNumberCode w = true) l.

Lemma line_loop_codes ip l rest s : line_codes l -> line_loop ip (l ++ rest) s = line_loop ip rest (line_loop ip l s).
Proof. revert s. induction l as [|w l IH]; intros s Hl; [done|]. inversion Hl. cbn [app line_loop]. rewrite H1. by apply IH. Qed.

Lemma line_codes_app a b : line_codes a -> line_codes b -> line_codes (a ++ b).
Proof. apply Forall_app_2. Qed.

Lemma line_at_last marks m ip : list.last marks = Some m -> m.1 <= ip -> line_at marks ip = m.2.
Proof.
  intros Hm Hip. apply last_Some in Hm as [l ->]. destruct m as [c k]. rewrite line_at_snoc. by rewrite (proj2 (Z.leb_le c ip) Hip).
Qed.

(** One step of the scan. *)
Lemma line_step_found ip c d s : l_found s <= l_cur s -> 0 <= c -> let s' := line_step ip c d s in
  l_cur s' = l_cur s + c /\ l_line s' = l_line s + d /\ l_found s' <= l_cur s' /\
  l_foundLine s' = if l_cur s + c <=? ip then l_line s + d else l_foundLine s.
Proof.
  intros Hf Hc. unfold line_step, note_line. cbn [l_cur l_line l_found l_foundLine].
  destruct (Z.leb_spec (l_cur s + c) ip), (Z.leb_spec (l_found s) (l_cur s + c)); simpl; split_and!; (done || lia).
Qed.

Lemma line_skips_scan fuel c : 0 <= c <= Z.of_nat fuel -> let r := line_skips fuel c in
  0 <= r.2 <= 15 /\ r.2 <= c /\ line_codes r.1 /\
  forall ip s, l_found s <= l_cur s -> let s' := line_loop ip r.1 s in
    l_cur s' = l_cur s + (c - r.2) /\ l_line s' = l_line s /\ l_found s' <= l_cur s' /\
    l_foundLine s' = if (15 <? c) && (l_cur s + 15 <=? ip) then l_line s else l_foundLine s.
Proof.
  revert c. induction fuel as [|fuel IH]; intros c Hc; cbn [line_skips].
  { simpl. split_and!; [lia..|constructor|]. intros ip s Hs. simpl. rewrite (proj2 (Z.ltb_ge 15 c)) by lia. split_and!; (lia || done). }
  destruct (Z.ltb_spec 15 c) as [Hlt|Hle].
  - destruct (IH (c - 15) ltac:(lia)) as (H1 & H2 & H3 & H4). destruct (line_skips fuel (c - 15)) as [l c'] eqn:E. cbn [fst snd] in *.
    change (delta_word 15) with (delta_word (Z.lor 15 (Z.shiftl 0 4))). split_and!; [lia..| |].
    + constructor; [|done]. by apply (delta_word_scan 0 15 0 (MkScan 0 0 0 0)).
    + intros ip s Hs. cbn [line_loop]. destruct (delta_word_scan ip 15 0 s ltac:(lia) ltac:(lia)) as [-> ->].
      destruct (line_step_found ip 15 0 s Hs ltac:(lia)) as (Hn1 & Hn2 & Hn3 & Hn4). destruct (H4 ip _ Hn3) as (K1 & K2 & K3 & K4).
      split_and!; [lia|lia|lia|]. rewrite K4, Hn1, Hn2, Hn4. cbn [andb].
      destruct (Z.leb_spec (l_cur s + 15) ip), (Z.ltb_spec 15 (c - 15)), (Z.leb_spec (l_cur s + 15 + 15) ip); simpl; lia.
  - simpl. split_and!; [lia..|constructor|]. intros ip s Hs. simpl. split_and!; (lia || done).
Qed.

Lemma last_mark_snoc marks c l : last_mark (marks ++ [(c, l)]) = (c, l).
Proof. unfold last_mark. by rewrite last_snoc. Qed.

(** Behind an absolute line number, the fields that lead to an instruction more
    than 15 words behind the last one mark the fifteenth word with it. *)
Definition gap (marks : list (Z * Z)) (line n : Z) : list (Z * Z) :=
  match list.last marks with
  | Some m => if (15 <? n - m.1) && negb (line =? m.2) then [(m.1 + 15, line)] else []
  | None => []
  end.

Lemma line_at_gap marks m line n ip : list.last marks = Some m -> 0 <= line ->
  line_at (marks ++ gap marks line n) ip = if (15 <? n - m.1) && (m.1 + 15 <=? ip) then line else line_at marks ip.
Proof.
  intros Hm Hl. unfold gap. rewrite Hm. destruct (Z.ltb_spec 15 (n - m.1)) as [Hn|Hn]; cbn [andb]; [|by rewrite app_nil_r].
  destruct (Z.eqb_spec line m.2) as [->|Hne]; cbn [negb]; [|apply line_at_snoc].
  rewrite app_nil_r. destruct (Z.leb_spec (m.1 + 15) ip); [|done]. apply line_at_last; [done|lia].
Qed.

Lemma traces_line debug marks line c l : traces debug marks line -> line_codes debug ->
  (last_mark marks).1 <= c < (last_mark marks).1 + BASE -> 0 <= line < 2 ^ 28 -> 0 <= l < 2 ^ 28 ->
  let ws := line_words (u32 (c - (last_mark marks).1)) (u32 (l - line)) l in
  line_codes (debug ++ ws) /\ traces (debug ++ ws) ((marks ++ gap marks line c) ++ [(c, l)]) l.
Proof.
  intros Ht Hd Hc Hline Hl. cbv zeta. rewrite (u32_small (c - _)) by lia. set (cd := c - (last_mark marks).1) in *. unfold line_words.
  destruct (line_skips_scan (Z.to_nat cd) cd ltac:(lia)) as (H1 & H2 & H3 & H4). destruct (line_skips (Z.to_nat cd) cd) as [sk c'] eqn:E. cbn [fst snd] in *.
  set (d := u32 (l - line)). set (w := if 7 <? d then _ else _).
  assert (Hw : line_codes w /\ forall ip s, l_line s = line -> exists d' s1, line_loop ip w s = line_step ip c' d' s1 /\ l_cur s1 = l_cur s /\
    l_line s1 + d' = l /\ l_found s1 = l_found s /\ l_foundLine s1 = l_foundLine s).
  { subst w. destruct (Z.ltb_spec 7 d) as [H7|H7].
    - replace (delta_word c') with (delta_word (Z.lor c' (Z.shiftl 0 4))) by (f_equal; apply Z.lor_0_r). split.
      + constructor; [apply (abs_word_scan 0 l (MkScan 0 0 0 0) Hl)|]. constructor; [by apply (delta_word_scan 0 c' 0 (MkScan 0 0 0 0))|done].
      + intros ip s Hs. exists 0, (MkScan (l_cur s) l (l_found s) (l_foundLine s)). cbn [line_loop].
        destruct (abs_word_scan ip l s Hl) as [-> ->]. destruct (delta_word_scan ip c' 0 (MkScan (l_cur s) l (l_found s) (l_foundLine s))) as [-> ->]; [lia..|].
        simpl. split_and!; (done || lia).
    - assert (Hd0 : 0 <= d) by (unfold d, u32; zsolve). split.
      + constructor; [by apply (delta_word_scan 0 c' d (MkScan 0 0 0 0))|done].
      + intros ip s Hs. exists d, s. cbn [line_loop]. destruct (delta_word_scan ip c' d s) as [-> ->]; [lia..|].
        split_and!; [done..| |done|done]. rewrite Hs. unfold d, u32 in *. zsolve. }
  destruct Hw as [Hw1 Hw2]. split; [by repeat apply line_codes_app|].
  intros ip c0 Hip. rewrite line_loop_codes, line_loop_codes by done.
  assert (Hip0 : forall m, head marks = Some m -> m.1 <= ip) by (intros m Hm; apply Hip; by destruct marks as [|? ?]).
  destruct (Ht ip c0 Hip0) as (T1 & T2 & T3 & T4). set (s0 := line_loop ip debug (MkScan 0 0 0 c0)) in *.
  destruct (H4 ip s0 T3) as (S1 & S2 & S3 & S4). set (s1 := line_loop ip sk s0) in *.
  destruct (Hw2 ip s1 ltac:(congruence)) as (d' & s2 & -> & R1 & R2 & R3 & R4).
  destruct (line_step_found ip c' d' s2 ltac:(lia) ltac:(lia)) as (Q1 & Q2 & Q3 & Q4).
  rewrite last_mark_snoc, line_at_snoc. cbn [fst]. split_and!; [lia|lia|done|].
  intros _. rewrite Q4, R1, R2, R4. replace (l_cur s1 + c') with c by lia. destruct (Z.leb_spec c ip) as [|Hlt]; [done|].
  destruct marks as [|m0 ms]; [exfalso; specialize (Hip (c, l) eq_refl); simpl in Hip; lia|].
  destruct (list.last (m0 :: ms)) as [m|] eqn:Em; [|by apply last_None in Em]. rewrite (line_at_gap _ m) by (done || lia).
  unfold last_mark in *. rewrite Em in *. cbn [default] in *. unfold id in *. rewrite S4, T1, T2, T4 by done. subst cd. by rewrite Em.
Qed.

(** ** Exception information between the code and the line numbers *)

Definition except_item (l : list Z) : Prop :=
  match l with
  | [w] => w mod 2 = 0
  | [w; _] => w mod 8 = A_FINALLY
  | [w; _; _] => w mod 8 = A_EXCEPT
  | _ => False
  end.

Definition except_info (l : list Z) : Prop := exists items, l = concat items /\ Forall except_item items.

Lemma except_info_nil : except_info [].
Proof. by exists []. Qed.

Lemma except_info_snoc l item : except_info l -> except_item item -> except_info (l ++ item).
Proof.
  intros (items & -> & Hi) Ht. exists (items ++ [item]). rewrite concat_app. simpl. rewrite app_nil_r. split; [done|].
  apply Forall_app. by repeat constructor.
Qed.

Lemma line_loop_except ip l rest s : except_info l -> line_loop ip (l ++ rest) s = line_loop ip rest s.
Proof.
  intros (items & -> & Hi). induction Hi as [|item items Ht Hi IH]; [done|]. cbn [concat]. rewrite <- app_assoc.
  destruct item as [|w [|x [|y [|]]]]; cbn [except_item] in Ht; try done; cbn [app line_loop];
    unfold AIsLineNumberCode, AIsExceptCode, AIsFinallyCode; rewrite !code_kind; unfold A_LINE_NUMBER, A_EXCEPT, A_FINALLY in *.
  - destruct (Z.eqb_spec (w mod 8) 5) as [?|_], (Z.eqb_spec (w mod 8) 1) as [?|_], (Z.eqb_spec (w mod 8) 3) as [?|_]; try exact IH; exfalso; zsolve.
  - rewrite Ht. exact IH.
  - rewrite Ht. exact IH.
Qed.

Lemma try_word n b : (u32 (Z.shiftl n 2 + Z.shiftl (Z.b2z b) 1)) mod 2 = 0.
Proof. rewrite !Z.shiftl_mul_pow2 by done. unfold u32. destruct b; simpl Z.b2z; change (2 ^ 2) with 4; change (2 ^ 1) with 2; zsolve. Qed.

Lemma local_word k lvar : 0 <= k < 8 -> Z.lor k (Z.shiftl lvar A_EXCEPT_CODE_SHIFT) mod 8 = k.
Proof. intros Hk. change A_EXCEPT_CODE_SHIFT with 3. rewrite Z.lor_comm, (fields lvar k 3) by lia. change (2 ^ 3) with 8. zsolve. Qed.

(** ** Line numbers of compiled functions *)

(** The instructions with a line number of the sections that are being
    compiled; [None] for a section without a line number yet.  An absolute line
    number starts a section; behind it, a line number is not for an instruction
    in front of the last one. *)
Definition mark_step (o : gen_op) (g : Gen) (st : list (option (list (Z * Z)))) : option (list (option (list (Z * Z)))) :=
  let n := zlen (sec_code (g_top g)) in
  match o, st with
  | GLine l, Some ms :: st =>
    let last := last_mark ms in
    guarded ((last.1 <=? n) && (n <? last.1 + BASE) && (0 <=? l) && (l <? 2 ^ 28)) (Some ((ms ++ gap ms (sec_line (g_top g)) n) ++ [(n, l)]) :: st)
  | GLine _, _ => None
  | GAbsLine l, m :: st => guarded ((0 <=? l) && (l <? 2 ^ 28)) (Some (default [] m) :: st)
  | GExcept _, _ => None
  | GEnter, _ => Some (None :: st)
  | GLeave _ _ _ _, _ :: st => Some st
  | GQuit, _ :: st => Some st
  | _, _ => Some st
  end.

(** The instructions with a line number of each function that is created. *)
Fixpoint marks_run (l : list gen_op) (g : Gen) (st : list (option (list (Z * Z)))) : option (list (list (Z * Z))) :=
  match l with
  | [] => Some []
  | o :: l =>
    '(g', f) ← gen_step o g; st' ← mark_step o g st; mss ← marks_run l g' st';
    Some (match f with Some _ => default [] (default None (head st)) :: mss | None => mss end)
  end.

Definition traced (x : Section_) (m : option (list (Z * Z))) : Prop :=
  except_info (sec_except x) /\ line_codes (sec_debug x) /\
  match m with
  | None => sec_debug x = [] /\ sec_mark x = 0
  | Some ms => traces (sec_debug x) ms (sec_line x) /\ sec_mark x = (last_mark ms).1 /\ 0 <= sec_line x < 2 ^ 28
  end.

Definition all_traced (g : Gen) (st : list (option (list (Z * Z)))) : Prop := Forall2 traced (g_top g :: g_outer g) st.

Lemma all_traced_cons g m st : all_traced g (m :: st) -> traced (g_top g) m /\ Forall2 traced (g_outer g) st.
Proof. intros H. by inversion H. Qed.

Lemma traced_top g x m st : all_traced g (m :: st) -> traced x m -> all_traced (set_top x g) (m :: st).
Proof. intros H Hx. by inversion H; subst; constructor. Qed.

(** Operations that change only code, or append exception information. *)
Lemma traced_code g st f saved : all_traced g st -> all_traced (MkGen (top_code f (g_top g)) (g_outer g) saved) st.
Proof. intros H. destruct st as [|m st]; inversion H; subst. by constructor. Qed.

Lemma traced_except g st item : all_traced g st -> except_item item -> all_traced (set_top (put_except item (g_top g)) g) st.
Proof.
  intros H Hi. destruct st as [|m st]; inversion H as [|? ? ? ? Hx]; subst. constructor; [|done]. split; [apply except_info_snoc; [apply Hx|done]|apply Hx].
Qed.

Lemma abs_line_code l : 0 <= l < 2 ^ 28 -> line_codes [abs_word l].
Proof. intros Hl. constructor; [by apply (abs_word_scan 0 l (MkScan 0 0 0 0))|done]. Qed.

Lemma traces_abs_line debug ms line l : traces debug ms line -> line_codes debug -> 0 <= l < 2 ^ 28 -> traces (debug ++ [abs_word l]) ms l.
Proof.
  intros Ht Hd Hl ip c0 Hip. rewrite line_loop_codes by done. destruct (Ht ip c0 Hip) as (T1 & T2 & T3 & T4).
  cbn [line_loop]. destruct (abs_word_scan ip l (line_loop ip debug (MkScan 0 0 0 c0)) Hl) as [-> ->]. simpl. split_and!; done.
Qed.

Lemma traces_nil l : 0 <= l < 2 ^ 28 -> traces [abs_word l] [] l.
Proof. intros Hl ip c0 _. cbn [line_loop]. destruct (abs_word_scan ip l (MkScan 0 0 0 c0) Hl) as [-> ->]. simpl. split_and!; (lia || done). Qed.

Lemma mark_step_traced o g g' f st st' : all_traced g st -> gen_step o g = Some (g', f) -> mark_step o g st = Some st' -> all_traced g' st'.
Proof.
  intros Ht Hg Hm. destruct o; cbn [gen_step] in Hg; cbv zeta in Hg;
    try (injection Hg as <- <-); repeat (apply bind_Some in Hg as (? & _ & Hg)); try (apply guarded_Some in Hg as [Hc [= -> ->]]).
  all: try (injection Hm as <-; by apply (traced_code g)).
  - done.
  - injection Hm as <-. apply traced_except; [done|]. apply try_word.
  - injection Hm as <-. by apply traced_except.
  - injection Hm as <-. apply traced_except; [done|]. by apply local_word.
  - injection Hm as <-. apply traced_except; [done|]. by apply local_word.
  - destruct st as [|[ms|] st]; [done| |done]. cbn [mark_step] in Hm. apply guarded_Some in Hm as [Hm ->].
    apply andb_prop in Hm as [[[H1%Z.leb_le H2%Z.ltb_lt]%andb_prop H3%Z.leb_le]%andb_prop H4%Z.ltb_lt].
    apply all_traced_cons in Ht as [(K1 & K2 & K3 & K4 & K5) Hrest]. rewrite K4.
    destruct (traces_line (sec_debug (g_top g)) ms (sec_line (g_top g)) (zlen (sec_code (g_top g))) line K3 K2) as [L1 L2]; [lia..|].
    constructor; [|done]. split_and!; [done|done|done|by rewrite last_mark_snoc|done|done].
  - destruct st as [|m st]; [by inversion Ht|]. cbn [mark_step] in Hm. apply guarded_Some in Hm as [Hm ->]. apply andb_prop in Hm as [H3%Z.leb_le H4%Z.ltb_lt].
    apply all_traced_cons in Ht as [(K1 & K2 & K3) Hrest]. constructor; [|done].
    assert (Hl : line_codes (sec_debug (g_top g) ++ [abs_word line])) by (apply line_codes_app; [done|by apply abs_line_code]).
    destruct m as [ms|].
    + destruct K3 as (K3 & K4 & K5). split_and!; [done|done| |done..]. by eapply traces_abs_line.
    + destruct K3 as (K3 & K4). split_and!; [done|done| |done..]. simpl. rewrite K3. by apply traces_nil.
  - injection Hm as <-. constructor; [|done]. split_and!; [apply except_info_nil|constructor|done..].
  - destruct (g_outer g) as [|y l] eqn:El; [done|]. injection Hg as <- <-. destruct st as [|m st]; [by inversion Ht|]. injection Hm as <-.
    inversion Ht; subst. unfold all_traced. simpl. by rewrite El in *.
  - destruct (g_outer g) as [|y l] eqn:El; [done|]. injection Hg as <- <-. destruct st as [|m st]; [by inversion Ht|]. injection Hm as <-.
    inversion Ht; subst. unfold all_traced. simpl. by rewrite El in *.
Qed.

Lemma traces_nonempty ms line : traces [] ms line -> ms = [].
Proof.
  intros Ht. destruct ms as [|m ms]; [done|]. exfalso. assert (Hip : forall m', head (m :: ms) = Some m' -> m'.1 <= m.1) by (intros m' [= <-]; lia).
  destruct (Ht m.1 0 Hip) as (_ & _ & _ & H0). destruct (Ht m.1 1 Hip) as (_ & _ & _ & H1). simpl in H0, H1. rewrite <- H0 in H1 by done. by specialize (H1 ltac:(done)).
Qed.

(** The line numbers of a function that is created. *)
Lemma function_lines x m minArgs maxArgs frame file ip : traced x m -> (exists k, head (default [] m) = Some k /\ k.1 <= ip) ->
  GetLineNumber ip (MkFunction minArgs maxArgs frame (zlen (sec_code x)) file (sec_code x ++ sec_except x ++ final_debug (sec_debug x))) = line_at (default [] m) ip.
Proof.
  intros (He & Hd & Hm) (k & Hk & Hip). unfold GetLineNumber. cbn [f_codeLen f_code]. rewrite Nat2Z.id, drop_app_length, line_loop_except by done.
  destruct m as [ms|]; [|done]. destruct Hm as [Ht _]. change (default [] (Some ms)) with ms in *.
  assert (Hne : ms <> []) by (by destruct ms). assert (Hf : final_debug (sec_debug x) = sec_debug x).
  { destruct (sec_debug x); [|done]. by apply traces_nonempty in Ht. }
  rewrite Hf. apply Ht; [|done]. intros k' Hk'. by assert (k' = k) as -> by congruence.
Qed.

Lemma marks_run_spec l g g' fs st mss : all_traced g st -> gen_run l g = Some (g', fs) -> marks_run l g st = Some mss ->
  Forall2 (fun f ms => forall ip, (exists k, head ms = Some k /\ k.1 <= ip) -> GetLineNumber ip f.1 = line_at ms ip) fs mss.
Proof.
  revert g fs st mss. induction l as [|o l IH]; intros g fs st mss Ht Hg Hm; cbn [gen_run marks_run] in *.
  { injection Hg as _ <-. injection Hm as <-. constructor. }
  apply bind_Some in Hg as ([g1 f] & Hstep & Hg). apply bind_Some in Hg as ([g2 fs'] & Hg & [= <- <-]).
  rewrite Hstep in Hm. simpl in Hm. apply bind_Some in Hm as (st' & Hms & Hm). apply bind_Some in Hm as (mss' & Hm & [= <-]).
  specialize (IH g1 fs' st' mss' (mark_step_traced _ _ _ _ _ _ Ht Hstep Hms) Hg Hm).
  destruct f as [f|]; [|done]. constructor; [|done].
  destruct o; cbn [gen_step] in Hstep; cbv zeta in Hstep; try discriminate;
    try (repeat (apply bind_Some in Hstep as (? & _ & Hstep)); by apply guarded_Some in Hstep as [_ [= _ ?]]).
  - destruct (g_outer g) as [|y r]; [done|]. injection Hstep as <- <-. destruct st as [|m st]; [by inversion Ht|]. apply all_traced_cons in Ht as [Hx _].
    intros ip Hip. cbn [fst head default]. by apply function_lines.
  - by destruct (g_outer g).
Qed.

Lemma no_code_traced : all_traced no_code [None].
Proof. repeat constructor. apply except_info_nil. Qed.

(** C39: in every function that a sequence of operations of the generator
    creates, with functions nested in it and exception handlers between its
    code and its line numbers, the line that [GetLineNumber] finds for an
    instruction is that of the last instruction up to it for which
    [AEmitLineNumber] was called; but if the next such instruction is more than
    15 words behind that one and an absolute line number was emitted between
    the two, this is found from the fifteenth word on ([gap]).  Provided that
    ([marks_run]) each function emits an absolute line number before the first
    call of [AEmitLineNumber], no call is for an instruction in front of the one
    before, and the lines are below 2^28; and for the instructions from the
    first one with a line number on. *)
Theorem line_numbers_correct l g' fs mss : gen_run l no_code = Some (g', fs) -> marks_run l no_code [None] = Some mss ->
  returns (s ← AInitializeOutput; observe s (do_gens l)) (fun fs' =>
    Forall2 (fun f ms => forall ip, (exists k, head ms = Some k /\ k.1 <= ip) -> GetLineNumber ip f.1 = line_at ms ip) fs' mss).
Proof.
  intros Hg Hm. eapply returns_bind; [apply AInitializeOutput_spec|]. intros s Hs. apply observe_returns.
  eapply sreturns_mono; [by eapply do_gens_spec|]. intros ? ? [-> _]. by eapply marks_run_spec; [apply no_code_traced|..].
Qed.

(** A function of 40 words, with an exception handler, whose lines are 7 from
    the start on, 9 from index 20 on and 300 from index 38 on; and a loop whose
    condition of line 3 is emitted behind a body of 40 words of line 7. *)
Definition demo_lines : list gen_op :=
  [GEnter; GAbsLine 7; GLine 7; GTryBegin true] ++ replicate 20 (GArg 0) ++ [GLine 9; GExceptCase 3 5; GTryEnd] ++ replicate 18 (GArg 0) ++
  [GLine 300; GOpArg OP_RET_L 3; GLeave 5 1 0 0] ++
  [GEnter; GAbsLine 7; GLine 7] ++ replicate 40 (GArg 0) ++ [GAbsLine 3; GLine 3; GOpArg OP_RET_L 3; GLeave 5 1 0 0].
Definition demo_marks : list (list (Z * Z)) := [[(0, 7); (20, 9); (38, 300)]; [(0, 7); (15, 3); (40, 3)]].

Lemma line_numbers_correct_witness :
  exists g' fs, gen_run demo_lines no_code = Some (g', fs) /\ marks_run demo_lines no_code [None] = Some demo_marks /\
  returns (s ← AInitializeOutput; observe s (do_gens demo_lines)) (fun fs' =>
    Forall2 (fun f ms => forall ip, (exists k, head ms = Some k /\ k.1 <= ip) -> GetLineNumber ip f.1 = line_at ms ip) fs' demo_marks).
Proof.
  destruct (gen_run demo_lines no_code) as [[g' fs]|] eqn:E; [|vm_compute in E; discriminate].
  assert (Hm : marks_run demo_lines no_code [None] = Some demo_marks) by (vm_compute; reflexivity).
  exists g', fs. split; [done|]. split; [done|]. exact (line_numbers_correct demo_lines g' fs _ E Hm).
Defined.
