(* ===== verification/Handlers.v ===== *)
(** * Handlers: the exception handler of an instruction

    [AGetExceptionHandler] of [exception.c], which reads the exception
    information that the byte code generator puts behind the code of a
    function; and that it finds the handler that the nesting of the try
    statements says. *)

From S2P Require Import Prelude Runtime Digits Value Output OutputSpec LineNumbers.

Open Scope Z_scope.

(** ** Exception handlers *)

Inductive HandlerResult :=
  | Handle (index lvar contextIndex : Z)
  | A_PROPAGATE_TO_CALLER (contextIndex : Z)
  | A_EXCEPTION_RAISED (contextIndex : Z).

Definition NO_SKIP : Z := 100000000.

(** [code] is an [int] in C, whose tests agree with those on the word up to
    instruction indices of 28 bits.  The variables of [AGetExceptionHandler] that change: the number of contexts
    of the thread and [isDirect] are those of C. *)
Record HandlerScan := MkHandler {
  h_skipDepth : Z;
  h_depth : Z;
  h_contextIndex : Z;
  h_isDirect : list bool
}.

Definition get_direct (s : HandlerScan) (i : Z) : M bool :=
  if 0 <=? i then match h_isDirect s !! Z.to_nat i with Some b => mret b | None => fault end else fault.
Definition set_direct (s : HandlerScan) (i : Z) (b : bool) : M (list bool) :=
  if (0 <=? i) && (i <? zlen (h_isDirect s)) then mret (<[Z.to_nat i := b]> (h_isDirect s)) else fault.

(** The scan over a try statement that starts behind the instruction. *)
Fixpoint skip_try (fuel : nat) (count : Z) (info : list Z) : M (list Z) :=
  match fuel with
  | O => fault
  | S fuel =>
    match info with
    | [] => fault
    | code :: rest =>
      if AIsEndTryCode code then (if count - 1 =? 0 then mret rest else skip_try fuel (count - 1) rest)
      else if AIsBeginTryCode code then skip_try fuel (count + 1) rest
      else if AIsExceptCode code then match rest with _ :: _ :: rest => skip_try fuel count rest | _ => fault end
      else if AIsFinallyCode code then match rest with _ :: rest => skip_try fuel count rest | _ => fault end
      else skip_try fuel count info
    end
  end.

Section handlers.
(** The types of the global variables, the type of the exception and its
    superclasses, and whether the traceback could be created. *)
Variable type_of : Z -> Z.
Variable supers : list Z.
Variable traceback : bool.

Fixpoint AGetExceptionHandler_loop (fuel : nat) (oldContextIndex codeInd : Z) (info : list Z) (s : HandlerScan) : M HandlerResult :=
  match fuel with
  | O => fault
  | S fuel =>
    match info with
    | [] => fault
    | code :: rest =>
      let depth := h_depth s in
      if AIsExceptCode code then
        match rest with
        | exceptIndex :: global :: rest' =>
          if (codeInd <? exceptIndex) && negb (depth =? h_skipDepth s) then
            d ← get_direct s (depth - 1);
            s ← (if d : bool then l ← set_direct s (depth - 1) false; mret (MkHandler (h_skipDepth s) depth (h_contextIndex s - 1) l) else mret s);
            if existsb (Z.eqb (type_of global)) supers
            then mret (Handle exceptIndex (Z.shiftr code 3) (h_contextIndex s))
            else AGetExceptionHandler_loop fuel oldContextIndex codeInd rest' s
          else if h_skipDepth s =? NO_SKIP then
            l ← set_direct s (depth - 1) false;
            AGetExceptionHandler_loop fuel oldContextIndex codeInd rest' (MkHandler depth depth (h_contextIndex s) l)
          else AGetExceptionHandler_loop fuel oldContextIndex codeInd rest' s
        | _ => fault
        end
      else if AIsEndTryCode code then
        let skip := if depth =? h_skipDepth s then NO_SKIP else h_skipDepth s in
        AGetExceptionHandler_loop fuel oldContextIndex codeInd rest (MkHandler skip (depth - 1) (h_contextIndex s) (h_isDirect s))
      else if AIsBeginTryCode code then
        if codeInd <? AGetBeginTryCodeIndex code then
          rest ← skip_try (length rest) 1 rest;
          AGetExceptionHandler_loop fuel oldContextIndex codeInd rest s
        else
          l ← set_direct s depth (AIsDirectBeginTryCode code);
          AGetExceptionHandler_loop fuel oldContextIndex codeInd rest (MkHandler (h_skipDepth s) (depth + 1) (h_contextIndex s) l)
      else if AIsFinallyCode code then
        match rest with
        | finallyIndex :: rest' =>
          if codeInd <? finallyIndex then
            if negb traceback then mret (A_EXCEPTION_RAISED oldContextIndex)
            else
              d ← get_direct s (depth - 1);
              mret (Handle finallyIndex (AGetFinallyLvar code) (if d : bool then h_contextIndex s - 1 else h_contextIndex s))
          else AGetExceptionHandler_loop fuel oldContextIndex codeInd rest' s
        | [] => fault
        end
      else mret (A_PROPAGATE_TO_CALLER (h_contextIndex s))
    end
  end.

(** [isDirect] is not initialized in C. *)
Definition AGetExceptionHandler (isDirect : list bool) (contextIndex : Z) (func : AFunction) (codeInd : Z) : M HandlerResult :=
  let info := drop (Z.to_nat (f_codeLen func)) (f_code func) in
  AGetExceptionHandler_loop (length info) contextIndex codeInd info (MkHandler NO_SKIP 0 contextIndex isDirect).
End handlers.

(** ** The handler of an exception *)

(** Try statements in sequence: from [begin] up to [stop], with the statements
    in the body and in the except blocks or the finally block, each with the
    local variable and the index of its code. *)
Inductive tries :=
  | TNil
  | TCons (begin stop : Z) (direct : bool) (body : tries) (h : handlers) (next : tries)
with handlers :=
  | HEnd
  | HExcept (lvar index global : Z) (inner : tries) (h : handlers)
  | HFinally (lvar index : Z) (inner : tries).

Scheme tries_ind2 := Induction for tries Sort Prop
  with handlers_ind2 := Induction for handlers Sort Prop.
Combined Scheme tries_handlers_ind from tries_ind2, handlers_ind2.

(** The words that the generator emits for them. *)
Fixpoint tries_words (t : tries) : list Z :=
  match t with
  | TNil => []
  | TCons b _ d body h next =>
    u32 (Z.shiftl b 2 + Z.shiftl (Z.b2z d) 1) :: tries_words body ++ handlers_words h ++ tries_words next
  end
with handlers_words (h : handlers) : list Z :=
  match h with
  | HEnd => [A_END_TRY_BLOCK]
  | HExcept lvar i g inner h =>
    [Z.lor A_EXCEPT (Z.shiftl lvar A_EXCEPT_CODE_SHIFT); i; g] ++ tries_words inner ++ handlers_words h
  | HFinally lvar i inner =>
    [Z.lor A_FINALLY (Z.shiftl lvar A_EXCEPT_CODE_SHIFT); i] ++ tries_words inner ++ [A_END_TRY_BLOCK]
  end.

Definition first_index (stop : Z) (h : handlers) : Z :=
  match h with HEnd => stop | HExcept _ i _ _ _ | HFinally _ i _ => i end.

(** The statements lie one behind the other between [lo] and [hi], and the
    parts of a statement one behind the other within it. *)
Fixpoint tries_in (lo hi : Z) (t : tries) : Prop :=
  match t with
  | TNil => lo <= hi
  | TCons b e d body h next =>
    lo <= b /\ 0 <= b < 2 ^ 28 /\ tries_in b (first_index e h) body /\ handlers_in e h /\ tries_in e hi next
  end
with handlers_in (stop : Z) (h : handlers) : Prop :=
  match h with
  | HEnd => True
  | HExcept _ i _ inner h =>
    tries_in i (first_index stop h) inner /\ handlers_in stop h /\ match h with HFinally _ _ _ => False | _ => True end
  | HFinally _ i inner => tries_in i stop inner
  end.

(** How deep statements are nested. *)
Fixpoint tries_depth (t : tries) : Z :=
  match t with
  | TNil => 0
  | TCons _ _ _ body h next => Z.max (1 + Z.max (tries_depth body) (handlers_depth h)) (tries_depth next)
  end
with handlers_depth (h : handlers) : Z :=
  match h with
  | HEnd => 0
  | HExcept _ _ _ inner h => Z.max (tries_depth inner) (handlers_depth h)
  | HFinally _ _ inner => tries_depth inner
  end.

(** What becomes of an exception; [pops] counts the contexts that are left. *)
Inductive Found :=
  | FHandle (index lvar pops : Z)
  | FRaised
  | FNone (pops : Z).

Section found.
Variable matches_class : Z -> bool.
Variables traceback retries : bool.

(** The exception of the body of a statement: its except blocks are tried in
    their order, and its finally block runs in any case. *)
Fixpoint handled (direct : bool) (pops : Z) (h : handlers) : Found :=
  let pops' := pops + Z.b2z direct in
  match h with
  | HEnd => FNone pops
  | HExcept lvar i g _ h => if matches_class g then FHandle i lvar pops' else handled false pops' h
  | HFinally lvar i _ => if traceback then FHandle i lvar pops' else FRaised
  end.

(** The innermost statement whose body contains [i] comes first.  An exception
    in a block of a statement passes over the other blocks of the statement -
    unless the code forgets this ([retries]), which remembers one statement
    only: it tries the later blocks of a statement that is itself within an
    except block ([within]). *)
Fixpoint find_handler (within : bool) (pops : Z) (t : tries) (i : Z) : Found :=
  match t with
  | TNil => FNone pops
  | TCons b e d body h next =>
    if i <? b then FNone pops
    else if e <=? i then find_handler within pops next i
    else if i <? first_index e h then
      match find_handler within pops body i with
      | FNone pops => handled d pops h
      | r => r
      end
    else find_inner within d pops e h i
  end
with find_inner (within direct : bool) (pops stop : Z) (h : handlers) (i : Z) : Found :=
  match h with
  | HEnd => FNone pops
  | HExcept _ _ _ inner h =>
    if i <? first_index stop h then
      match find_handler true pops inner i with
      | FNone pops => if retries && within then handled direct pops h else FNone pops
      | r => r
      end
    else find_inner within direct pops stop h i
  | HFinally _ _ inner => find_handler within pops inner i
  end.
End found.

(** [i] is not in an except block of a statement within an except block of
    another ([within]), unless it is the last block of the inner statement. *)
Fixpoint one_skip (within : bool) (t : tries) (i : Z) : Prop :=
  match t with
  | TNil => True
  | TCons b e d body h next =>
    if i <? b then True
    else if e <=? i then one_skip within next i
    else if i <? first_index e h then one_skip within body i
    else one_skip_inner within e h i
  end
with one_skip_inner (within : bool) (stop : Z) (h : handlers) (i : Z) : Prop :=
  match h with
  | HEnd => True
  | HExcept _ _ _ inner h =>
    if i <? first_index stop h then one_skip true inner i /\ (within = true -> h = HEnd) else one_skip_inner within stop h i
  | HFinally _ _ inner => one_skip within inner i
  end.

Lemma find_inner_except mc tb retries within d pops stop lvar j g inner h i :
  find_inner mc tb retries within d pops stop (HExcept lvar j g inner h) i =
  if i <? first_index stop h then
    match find_handler mc tb retries true pops inner i with
    | FNone pops => if retries && within then handled mc tb d pops h else FNone pops
    | r => r
    end
  else find_inner mc tb retries within d pops stop h i.
Proof. reflexivity. Qed.

(** Then what the code remembers is enough. *)
Lemma one_skip_found mc tb :
  (forall t within pops i, one_skip within t i -> find_handler mc tb true within pops t i = find_handler mc tb false within pops t i) /\
  (forall h within d pops stop i, one_skip_inner within stop h i -> find_inner mc tb true within d pops stop h i = find_inner mc tb false within d pops stop h i).
Proof.
  apply tries_handlers_ind; cbn [one_skip one_skip_inner]; [done| |done| |intros; simpl; auto].
  - intros b e d body IHb h IHh next IHn within pops i Ho. cbn [find_handler]. destruct (i <? b); [done|]. destruct (e <=? i); [auto|].
    destruct (i <? first_index e h); [by rewrite IHb|auto].
  - intros lvar j g inner IHi h IHh within d pops stop i Ho. rewrite !find_inner_except. destruct (i <? first_index stop h); [|auto].
    destruct Ho as [Ho Hlast]. rewrite IHi by done. destruct (find_handler mc tb false true pops inner i); [done..|].
    destruct within; [|done]. by rewrite (Hlast eq_refl).
Qed.

Lemma try_word_kind b d : 0 <= b < 2 ^ 28 -> let w := u32 (Z.shiftl b 2 + Z.shiftl (Z.b2z d) 1) in
  AIsExceptCode w = false /\ AIsEndTryCode w = false /\ AIsBeginTryCode w = true /\ AGetBeginTryCodeIndex w = b /\ AIsDirectBeginTryCode w = d.
Proof.
  intros Hb w. assert (Hw : w = 4 * b + 2 * Z.b2z d).
  { unfold w. rewrite !Z.shiftl_mul_pow2 by done. rewrite u32_small; destruct d; simpl Z.b2z; lia. }
  clearbody w. subst w. unfold AIsExceptCode, AIsEndTryCode, AIsBeginTryCode, AGetBeginTryCodeIndex, AIsDirectBeginTryCode. rewrite code_kind. split_and!.
  - apply Z.eqb_neq. change A_EXCEPT with 1. destruct d; simpl Z.b2z; zsolve.
  - apply Z.eqb_neq. change A_END_TRY_BLOCK with 4294967294. destruct d; simpl Z.b2z; lia.
  - replace (4 * b + 2 * Z.b2z d) with (2 * (2 * b + Z.b2z d)) by lia. by rewrite Z.testbit_even_0.
  - rewrite Z.shiftr_div_pow2 by done. change (2 ^ 2) with 4. destruct d; simpl Z.b2z; zsolve.
  - replace (4 * b + 2 * Z.b2z d) with (2 * (2 * b + Z.b2z d)) by lia. change 1 with (Z.succ 0) at 1. rewrite Z.double_bits_succ. destruct d; simpl Z.b2z; [apply Z.testbit_odd_0|].
    rewrite Z.add_0_r. apply Z.testbit_even_0.
Qed.

Lemma local_word_kind k lvar : k = A_EXCEPT \/ k = A_FINALLY -> let w := Z.lor k (Z.shiftl lvar A_EXCEPT_CODE_SHIFT) in
  AIsExceptCode w = (k =? A_EXCEPT) /\ AIsFinallyCode w = (k =? A_FINALLY) /\ AIsEndTryCode w = false /\ AIsBeginTryCode w = false /\ Z.shiftr w 3 = lvar.
Proof.
  intros Hk w. assert (Hk8 : 0 <= k < 8) by (destruct Hk as [-> | ->]; done).
  assert (Hw : w = 8 * lvar + k) by (unfold w; change A_EXCEPT_CODE_SHIFT with 3; rewrite Z.lor_comm, (fields lvar k 3) by lia; lia).
  clearbody w. subst w. unfold AIsExceptCode, AIsFinallyCode, AIsEndTryCode, AIsBeginTryCode. rewrite !code_kind, shiftr_3.
  replace ((8 * lvar + k) mod 8) with k by zsolve. split_and!; [done|done| | |zsolve].
  - apply Z.eqb_neq. change A_END_TRY_BLOCK with 4294967294. destruct Hk as [-> | ->]; [change A_EXCEPT with 1|change A_FINALLY with 3]; zsolve.
  - rewrite Z.bit0_odd. destruct Hk as [-> | ->]; [replace (8 * lvar + A_EXCEPT) with (1 + 2 * (4 * lvar)) by (change A_EXCEPT with 1; lia)|
      replace (8 * lvar + A_FINALLY) with (1 + 2 * (4 * lvar + 1)) by (change A_FINALLY with 3; lia)]; by rewrite Z.odd_add_mul_2.
Qed.

Lemma end_word_kind : AIsExceptCode A_END_TRY_BLOCK = false /\ AIsEndTryCode A_END_TRY_BLOCK = true.
Proof. done. Qed.

(** A statement that starts behind the instruction is skipped. *)
Definition skipped (t : tries) : Prop := forall lo hi fuel count rest, 1 <= count -> tries_in lo hi t -> (length (tries_words t ++ rest) <= fuel)%nat ->
  exists fuel', (length rest <= fuel')%nat /\ skip_try fuel count (tries_words t ++ rest) = skip_try fuel' count rest.
Definition skipped_h (h : handlers) : Prop := forall stop fuel count rest, 1 <= count -> handlers_in stop h -> (length (handlers_words h ++ rest) <= fuel)%nat ->
  exists fuel', (length rest <= fuel')%nat /\
    skip_try fuel count (handlers_words h ++ rest) = if count - 1 =? 0 then mret rest else skip_try fuel' (count - 1) rest.

Lemma skip_try_words : (forall t, skipped t) /\ (forall h, skipped_h h).
Proof.
  apply tries_handlers_ind; unfold skipped, skipped_h.
  - intros lo hi fuel count rest _ _ Hf. by exists fuel.
  - intros b e d body IHb h IHh next IHn lo hi fuel count rest Hc Hin0 Hf. destruct Hin0 as (Hlo & Hb & Hin & Hh & Hn).
    cbn [tries_words] in *. rewrite <- app_comm_cons, <- !app_assoc in *. destruct fuel as [|fuel]; [simpl in Hf; lia|].
    destruct (try_word_kind b d Hb) as (_ & K2 & K3 & _). cbv zeta in K2, K3. cbn [skip_try]. rewrite K2, K3.
    destruct (IHb _ _ fuel (count + 1) (handlers_words h ++ tries_words next ++ rest) ltac:(lia) Hin) as (f1 & Hf1 & ->); [simpl in Hf; lia|].
    destruct (IHh _ f1 (count + 1) (tries_words next ++ rest) ltac:(lia) Hh Hf1) as (f2 & Hf2 & ->).
    replace (count + 1 - 1) with count by lia.
    destruct (Z.eqb_spec count 0) as [?|_]; [lia|]. by apply (IHn e hi).
  - intros stop fuel count rest Hc _ Hf. destruct fuel as [|fuel]; [simpl in Hf; lia|]. exists fuel. split; [simpl in Hf; lia|]. done.
  - intros lvar i g inner IHi h IHh stop fuel count rest Hc Hin0 Hf. destruct Hin0 as (Hi & Hh & _). cbn [handlers_words] in *. rewrite <- !app_assoc in *.
    destruct fuel as [|fuel]; [simpl in Hf; lia|]. destruct (local_word_kind A_EXCEPT lvar ltac:(by left)) as (K1 & _ & K2 & K3 & _). cbv zeta in K1, K2, K3.
    cbn [app skip_try]. rewrite K2, K3, K1. cbn [Z.eqb]. destruct (IHi _ _ fuel count (handlers_words h ++ rest) Hc Hi) as (f1 & Hf1 & Heq); [simpl in Hf; lia|].
    change (A_EXCEPT =? A_EXCEPT) with true. cbn iota. rewrite Heq. by apply (IHh stop).
  - intros lvar i inner IHi stop fuel count rest Hc Hi Hf. cbn [handlers_words handlers_in] in *. rewrite <- !app_assoc in *.
    destruct fuel as [|fuel]; [simpl in Hf; lia|]. destruct (local_word_kind A_FINALLY lvar ltac:(by right)) as (K1 & K4 & K2 & K3 & _). cbv zeta in K1, K2, K3, K4.
    cbn [app skip_try]. rewrite K2, K3, K1, K4. change (A_FINALLY =? A_EXCEPT) with false. change (A_FINALLY =? A_FINALLY) with true. cbn iota.
    destruct (IHi _ _ fuel count ([A_END_TRY_BLOCK] ++ rest) Hc Hi) as (f1 & Hf1 & Heq); [simpl in Hf |- *; lia|]. cbn [app] in Heq, Hf1. rewrite Heq.
    destruct f1 as [|f1]; [simpl in Hf1; lia|]. exists f1. split; [simpl in Hf1; lia|]. done.
Qed.

Lemma in_le : (forall t lo hi, tries_in lo hi t -> lo <= hi) /\ (forall h stop, handlers_in stop h -> first_index stop h <= stop).
Proof.
  apply tries_handlers_ind; cbn [tries_in handlers_in first_index].
  - done.
  - intros b e d body IHb h IHh next IHn lo hi (Hlo & _ & Hin & Hh & Hn). specialize (IHb _ _ Hin). specialize (IHh _ Hh). specialize (IHn _ _ Hn). lia.
  - lia.
  - intros lvar i g inner IHi h IHh stop (Hi & Hh & _). specialize (IHi _ _ Hi). specialize (IHh _ Hh). lia.
  - intros lvar i inner IHi stop Hi. by apply IHi.
Qed.

Section finding.
Variables (type_of : Z -> Z) (supers : list Z) (traceback : bool) (oldContextIndex codeInd : Z).
Local Abbreviation loop fuel := (AGetExceptionHandler_loop type_of supers traceback fuel oldContextIndex codeInd).

(** From [info ++ rest] in state [s] the scan comes to [rest] in state [s']. *)
Definition resumes (info : list Z) (s : HandlerScan) (rest : list Z) (s' : HandlerScan) : Prop :=
  forall fuel, (length (info ++ rest) <= fuel)%nat -> exists fuel', (length rest <= fuel')%nat /\ loop fuel (info ++ rest) s = loop fuel' rest s'.
Definition ends (info : list Z) (s : HandlerScan) (rest : list Z) (r : M HandlerResult) : Prop :=
  forall fuel, (length (info ++ rest) <= fuel)%nat -> loop fuel (info ++ rest) s = r.

Lemma resumes_nil s rest : resumes [] s rest s.
Proof using. intros fuel Hf. by exists fuel. Qed.

Lemma resumes_app a b s s1 s2 rest : resumes a s (b ++ rest) s1 -> resumes b s1 rest s2 -> resumes (a ++ b) s rest s2.
Proof using.
  intros Ha Hb fuel Hf. rewrite <- app_assoc in *. destruct (Ha fuel Hf) as (f1 & Hf1 & ->). by apply Hb.
Qed.

Lemma ends_app a b s s1 rest r : resumes a s (b ++ rest) s1 -> ends b s1 rest r -> ends (a ++ b) s rest r.
Proof using. intros Ha Hb fuel Hf. rewrite <- app_assoc in *. destruct (Ha fuel Hf) as (f1 & Hf1 & ->). by apply Hb. Qed.

Lemma ends_front a b s rest r : ends a s (b ++ rest) r -> ends (a ++ b) s rest r.
Proof using. intros Ha fuel Hf. rewrite <- app_assoc in *. by apply Ha. Qed.

(** Single items. *)
Definition with_direct (l : list bool) (s : HandlerScan) : HandlerScan := MkHandler (h_skipDepth s) (h_depth s) (h_contextIndex s) l.

Lemma set_direct_at s i b : 0 <= i < zlen (h_isDirect s) -> set_direct s i b = mret (<[Z.to_nat i := b]> (h_isDirect s)).
Proof using.
  intros Hi. unfold set_direct. destruct ((0 <=? i) && (i <? zlen (h_isDirect s))) eqn:E; [done|].
  apply andb_false_iff in E as [E%Z.leb_gt|E%Z.ltb_ge]; lia.
Qed.

Lemma get_direct_at s i b : 0 <= i -> h_isDirect s !! Z.to_nat i = Some b -> get_direct s i = mret b.
Proof using. intros Hi Hb. unfold get_direct. by rewrite (proj2 (Z.leb_le _ _) Hi), Hb. Qed.

Lemma begin_passed b d s rest : 0 <= b < 2 ^ 28 -> b <= codeInd -> 0 <= h_depth s < zlen (h_isDirect s) ->
  resumes [u32 (Z.shiftl b 2 + Z.shiftl (Z.b2z d) 1)] s rest
    (MkHandler (h_skipDepth s) (h_depth s + 1) (h_contextIndex s) (<[Z.to_nat (h_depth s) := d]> (h_isDirect s))).
Proof using.
  intros Hb Hi Hd fuel Hf. destruct fuel as [|fuel]; [simpl in Hf; lia|]. exists fuel. split; [simpl in Hf; lia|].
  destruct (try_word_kind b d Hb) as (K1 & K2 & K3 & K4 & K5). cbv zeta in *. cbn [app AGetExceptionHandler_loop]. cbv zeta. rewrite K1, K2, K3, K4, K5.
  destruct (Z.ltb_spec codeInd b) as [?|_]; [lia|]. rewrite set_direct_at by done. done.
Qed.

Lemma end_passed s rest : resumes [A_END_TRY_BLOCK] s rest
  (MkHandler (if h_depth s =? h_skipDepth s then NO_SKIP else h_skipDepth s) (h_depth s - 1) (h_contextIndex s) (h_isDirect s)).
Proof using. intros fuel Hf. destruct fuel as [|fuel]; [simpl in Hf; lia|]. exists fuel. split; [simpl in Hf; lia|]. done. Qed.

(** An except block that the instruction is in or behind, or whose statement is
    passed over. *)
Lemma except_passed lvar i g s rest : (codeInd <? i) && negb (h_depth s =? h_skipDepth s) = false -> 0 < h_depth s <= zlen (h_isDirect s) ->
  resumes [Z.lor A_EXCEPT (Z.shiftl lvar A_EXCEPT_CODE_SHIFT); i; g] s rest
    (if h_skipDepth s =? NO_SKIP then MkHandler (h_depth s) (h_depth s) (h_contextIndex s) (<[Z.to_nat (h_depth s - 1) := false]> (h_isDirect s)) else s).
Proof using.
  intros Hc Hd fuel Hf. destruct fuel as [|fuel]; [simpl in Hf; lia|]. exists fuel. split; [simpl in Hf; lia|].
  destruct (local_word_kind A_EXCEPT lvar ltac:(by left)) as (K1 & _). cbv zeta in K1. cbn [app AGetExceptionHandler_loop]. cbv zeta. rewrite K1.
  change (A_EXCEPT =? A_EXCEPT) with true. cbn iota. rewrite Hc. destruct (h_skipDepth s =? NO_SKIP); [|done]. rewrite set_direct_at by lia. done.
Qed.

Lemma finally_passed lvar i s rest : i <= codeInd ->
  resumes [Z.lor A_FINALLY (Z.shiftl lvar A_EXCEPT_CODE_SHIFT); i] s rest s.
Proof using.
  intros Hi fuel Hf. destruct fuel as [|fuel]; [simpl in Hf; lia|]. exists fuel. split; [simpl in Hf; lia|].
  destruct (local_word_kind A_FINALLY lvar ltac:(by right)) as (K1 & K2 & K3 & K4 & _). cbv zeta in *. cbn [app AGetExceptionHandler_loop]. cbv zeta.
  rewrite K1, K2, K3, K4. change (A_FINALLY =? A_EXCEPT) with false. change (A_FINALLY =? A_FINALLY) with true. cbn iota.
  by destruct (Z.ltb_spec codeInd i) as [?|_]; [lia|].
Qed.

(** Statements behind the instruction. *)
Lemma ahead_passed t lo hi s rest : tries_in lo hi t -> codeInd < lo -> resumes (tries_words t) s rest s.
Proof using.
  revert lo rest. induction t as [|b e d body _ h _ next IH| | |] using tries_ind2 with (P0 := fun _ => True); [| |done..].
  { intros. apply resumes_nil. }
  intros lo rest Ht Hlo fuel Hf. destruct Ht as (Hb0 & Hb & Hin & Hh & Hn).
  pose proof (proj1 in_le _ _ _ Hin) as H1. pose proof (proj2 in_le _ _ Hh) as H2.
  cbn [tries_words] in *. rewrite <- app_comm_cons, <- !app_assoc in *. destruct fuel as [|fuel]; [simpl in Hf; lia|].
  destruct (try_word_kind b d Hb) as (K1 & K2 & K3 & K4 & K5). cbv zeta in *. cbn [app AGetExceptionHandler_loop]. cbv zeta. rewrite K1, K2, K3, K4.
  destruct (Z.ltb_spec codeInd b) as [_|?]; [|lia].
  destruct (proj1 skip_try_words body _ _ _ 1 (handlers_words h ++ tries_words next ++ rest) ltac:(lia) Hin (le_n _)) as (f1 & Hf1 & ->).
  destruct (proj2 skip_try_words h _ _ 1 (tries_words next ++ rest) ltac:(lia) Hh Hf1) as (f2 & Hf2 & ->). cbn [Z.sub Z.eqb].
  change (exists fuel', (length rest <= fuel')%nat /\ loop fuel (tries_words next ++ rest) s = loop fuel' rest s).
  apply (IH e); [done|lia|]. simpl in Hf. rewrite !length_app in *. lia.
Qed.

(** The states of the scan: in front of statements that are not nested in the
    one whose blocks are passed over, and behind them. *)
Definition scanning (deeper : Z) (s : HandlerScan) : Prop :=
  0 <= h_depth s /\ h_depth s + deeper <= zlen (h_isDirect s) /\ zlen (h_isDirect s) <= 100 /\ (h_skipDepth s = NO_SKIP \/ h_skipDepth s <= h_depth s).

Definition same (s s' : HandlerScan) : Prop :=
  h_depth s' = h_depth s /\ h_skipDepth s' = h_skipDepth s /\ zlen (h_isDirect s') = zlen (h_isDirect s) /\
  forall j, (j < Z.to_nat (h_depth s))%nat -> h_isDirect s' !! j = h_isDirect s !! j.

(** The state behind the end of a statement. *)
Definition unskipped (s : HandlerScan) : Z := if (h_skipDepth s =? NO_SKIP) || (h_depth s =? h_skipDepth s) then NO_SKIP else h_skipDepth s.
Definition leaves (s s' : HandlerScan) : Prop :=
  h_depth s' = h_depth s - 1 /\ h_skipDepth s' = unskipped s /\ zlen (h_isDirect s') = zlen (h_isDirect s) /\
  forall j, (j < Z.to_nat (h_depth s - 1))%nat -> h_isDirect s' !! j = h_isDirect s !! j.

Lemma same_refl s : same s s.
Proof using. done. Qed.

Lemma same_trans s s1 s2 : same s s1 -> same s1 s2 -> same s s2.
Proof using.
  intros (A1 & A2 & A3 & A4) (B1 & B2 & B3 & B4). split_and!; [congruence..|]. intros j Hj. rewrite <- A4 by done. apply B4. by rewrite A1.
Qed.

Lemma same_leaves s s1 s2 : same s s1 -> leaves s1 s2 -> leaves s s2.
Proof using.
  intros (A1 & A2 & A3 & A4) (B1 & B2 & B3 & B4). unfold leaves, unskipped in *. rewrite A1, A2 in *. split_and!; [congruence..|].
  intros j Hj. rewrite B4 by done. apply A4. lia.
Qed.

Lemma same_scanning n s s' : scanning n s -> same s s' -> scanning n s'.
Proof using. unfold scanning. intros H (-> & -> & -> & _). done. Qed.

Lemma leaves_end s : 0 < h_depth s <= 100 -> leaves s
  (MkHandler (if h_depth s =? h_skipDepth s then NO_SKIP else h_skipDepth s) (h_depth s - 1) (h_contextIndex s) (h_isDirect s)).
Proof using.
  intros Hd. split_and!; [done| |done|done]. unfold unskipped. simpl.
  destruct (Z.eqb_spec (h_skipDepth s) NO_SKIP) as [E|], (h_depth s =? h_skipDepth s); done.
Qed.

(** The state in a statement. *)
Definition entered (d : bool) (s : HandlerScan) : HandlerScan :=
  MkHandler (h_skipDepth s) (h_depth s + 1) (h_contextIndex s) (<[Z.to_nat (h_depth s) := d]> (h_isDirect s)).

Lemma entered_scanning n d s : scanning (1 + n) s -> scanning n (entered d s).
Proof using. intros (H1 & H2 & H3 & H4). unfold scanning, entered in *. simpl. rewrite length_insert. lia. Qed.

(** The statement is over. *)
Lemma statement_same n d s s' : scanning (1 + n) s -> 0 <= n -> leaves (entered d s) s' -> same s s'.
Proof using.
  intros (H1 & H2 & H3 & H4) Hn (B1 & B2 & B3 & B4). unfold same, entered, unskipped in *. simpl in *. rewrite length_insert in *.
  split_and!; [lia| |lia|].
  - rewrite B2. change NO_SKIP with 100000000 in *. destruct (Z.eqb_spec (h_skipDepth s) 100000000); [done|]. simpl. by destruct (Z.eqb_spec (h_depth s + 1) (h_skipDepth s)); [lia|].
  - intros j Hj. rewrite B4 by lia. apply list_lookup_insert_ne. lia.
Qed.

(** An except block is passed by. *)
Definition skipping (s : HandlerScan) : HandlerScan :=
  if h_skipDepth s =? NO_SKIP then MkHandler (h_depth s) (h_depth s) (h_contextIndex s) (<[Z.to_nat (h_depth s - 1) := false]> (h_isDirect s)) else s.

Lemma skipping_scanning n s : 0 < h_depth s -> scanning n s -> scanning n (skipping s) /\ h_contextIndex (skipping s) = h_contextIndex s /\ h_depth (skipping s) = h_depth s.
Proof using.
  intros Hd (H1 & H2 & H3 & H4). unfold skipping, scanning in *. destruct (Z.eqb_spec (h_skipDepth s) NO_SKIP); simpl; [|done].
  rewrite length_insert. split_and!; (done || lia).
Qed.

Lemma skipping_leaves n s s' : 0 < h_depth s -> scanning n s -> leaves (skipping s) s' -> leaves s s'.
Proof using.
  intros Hd (H1 & H2 & H3 & H4). unfold skipping. destruct (Z.eqb_spec (h_skipDepth s) NO_SKIP) as [E|]; [|done].
  unfold leaves, unskipped. simpl. rewrite length_insert, E. intros (B1 & B2 & B3 & B4). split_and!; [done| |done|].
  - rewrite B2, Z.eqb_refl, orb_true_r. done.
  - intros j Hj. rewrite B4 by done. apply list_lookup_insert_ne. lia.
Qed.

Lemma tries_depth_nonneg : (forall t, 0 <= tries_depth t) /\ (forall h, 0 <= handlers_depth h).
Proof using. apply tries_handlers_ind; intros; simpl; lia. Qed.

Lemma scanning_less n m s : scanning n s -> m <= n -> scanning m s.
Proof using. intros (H1 & H2 & H3 & H4) Hm. split_and!; (done || lia). Qed.

(** Statements in front of the instruction. *)
Definition is_passed (t : tries) : Prop := forall lo hi s rest, tries_in lo hi t -> hi <= codeInd -> scanning (tries_depth t) s ->
  exists s', resumes (tries_words t) s rest s' /\ same s s' /\ h_contextIndex s' = h_contextIndex s.
Definition is_passed_h (h : handlers) : Prop := forall stop s rest, handlers_in stop h -> stop <= codeInd -> 0 < h_depth s -> scanning (handlers_depth h) s ->
  exists s', resumes (handlers_words h) s rest s' /\ leaves s s' /\ h_contextIndex s' = h_contextIndex s.

Lemma passed : (forall t, is_passed t) /\ (forall h, is_passed_h h).
Proof using.
  apply tries_handlers_ind; unfold is_passed, is_passed_h.
  - intros lo hi s rest _ _ _. exists s. split_and!; [apply resumes_nil|done|done].
  - intros b e d body IHb h IHh next IHn lo hi s rest Hin0 Hhi Hs. destruct Hin0 as (Hlo & Hb & Hin & Hh & Hn). cbn [tries_words tries_depth] in *.
    pose proof (proj1 in_le _ _ _ Hin) as L1. pose proof (proj2 in_le _ _ Hh) as L2. pose proof (proj1 in_le _ _ _ Hn) as L3.
    pose proof (proj1 tries_depth_nonneg body) as N1. pose proof (proj2 tries_depth_nonneg h) as N2.
    assert (Hs1 : scanning (Z.max (tries_depth body) (handlers_depth h)) (entered d s)) by (apply entered_scanning; eapply scanning_less; [exact Hs|lia]).
    destruct (IHb _ _ (entered d s) (handlers_words h ++ tries_words next ++ rest) Hin) as (s2 & R2 & S2 & C2); [lia|eapply scanning_less; [exact Hs1|lia]|].
    destruct (IHh _ s2 (tries_words next ++ rest) Hh) as (s3 & R3 & S3 & C3); [lia| | |].
    { destruct S2 as (-> & _), Hs as (? & _). simpl. lia. }
    { eapply same_scanning; [|exact S2]. eapply scanning_less; [exact Hs1|lia]. }
    assert (S : same s s3).
    { eapply (statement_same (Z.max (tries_depth body) (handlers_depth h))); [eapply scanning_less; [exact Hs|lia]|lia|]. by eapply same_leaves. }
    destruct (IHn _ _ s3 rest Hn Hhi) as (s4 & R4 & S4 & C4); [eapply same_scanning; [|exact S]; eapply scanning_less; [exact Hs|lia]|].
    exists s4. split_and!; [|by eapply same_trans|rewrite C4, C3, C2; done].
    change (u32 (Z.shiftl b 2 + Z.shiftl (Z.b2z d) 1) :: ?l) with ([u32 (Z.shiftl b 2 + Z.shiftl (Z.b2z d) 1)] ++ l).
    eapply resumes_app; [apply begin_passed; [done|lia|destruct Hs as (? & ? & _); lia]|].
    eapply resumes_app; [rewrite <- app_assoc; exact R2|]. by eapply resumes_app.
  - intros stop s rest _ _ Hd Hs. eexists. split_and!; [apply end_passed|apply leaves_end; destruct Hs as (? & ? & ? & _); simpl in *; lia|done].
  - intros lvar i g inner IHi h IHh stop s rest Hin0 Hstop Hd Hs. destruct Hin0 as (Hi & Hh & _). cbn [handlers_words handlers_depth] in *.
    pose proof (proj1 in_le _ _ _ Hi) as L1. pose proof (proj2 in_le _ _ Hh) as L2.
    pose proof (proj1 tries_depth_nonneg inner) as N1. pose proof (proj2 tries_depth_nonneg h) as N2.
    destruct (skipping_scanning _ _ Hd Hs) as (Hs1 & C1 & D1).
    destruct (IHi _ _ (skipping s) (handlers_words h ++ rest) Hi) as (s2 & R2 & S2 & C2); [lia|eapply scanning_less; [exact Hs1|lia]|].
    destruct (IHh _ s2 rest Hh) as (s3 & R3 & S3 & C3); [lia|destruct S2 as (-> & _); lia|eapply same_scanning; [|exact S2]; eapply scanning_less; [exact Hs1|lia]|].
    exists s3. split_and!; [|eapply skipping_leaves; [done|exact Hs|]; by eapply same_leaves|congruence].
    eapply resumes_app; [apply except_passed|by eapply resumes_app].
    + by destruct (Z.ltb_spec codeInd i) as [?|_]; [lia|].
    + destruct Hs as (? & ? & _). lia.
  - intros lvar i inner IHi stop s rest Hi Hstop Hd Hs. cbn [handlers_words handlers_depth handlers_in] in *.
    pose proof (proj1 in_le _ _ _ Hi) as L1.
    destruct (IHi _ _ s ([A_END_TRY_BLOCK] ++ rest) Hi) as (s2 & R2 & S2 & C2); [lia|done|].
    eexists. split_and!.
    + eapply resumes_app; [apply finally_passed; lia|]. eapply resumes_app; [exact R2|]. apply end_passed.
    + eapply same_leaves; [exact S2|]. apply leaves_end. pose proof (proj1 tries_depth_nonneg inner). destruct S2 as (-> & _), Hs as (? & ? & ? & _). lia.
    + done.
Qed.

(** The blocks behind the one with the instruction. *)
Lemma later_blocks h stop s rest : handlers_in stop h -> match h with HFinally _ _ _ => False | _ => True end -> codeInd < first_index stop h ->
  0 < h_depth s <= zlen (h_isDirect s) -> zlen (h_isDirect s) <= 100 -> h_skipDepth s = h_depth s ->
  exists s', resumes (handlers_words h) s rest s' /\ leaves s s' /\ h_contextIndex s' = h_contextIndex s.
Proof using.
  induction h as [|lvar i g inner h IH|]; [| |done]; intros Hin Hnf Hc Hd Hlen Hs.
  { eexists. split_and!; [apply end_passed|apply leaves_end; lia|done]. }
  destruct Hin as (Hi & Hh & Hnf'). pose proof (proj1 in_le _ _ _ Hi) as L1. cbn [first_index handlers_words] in *.
  destruct IH as (s' & R & S & C); [done..|lia|done|done|done|]. exists s'. split_and!; [|done|done].
  assert (Hne : (h_skipDepth s =? NO_SKIP) = false) by (apply Z.eqb_neq; change NO_SKIP with 100000000; lia).
  pose proof (except_passed lvar i g s) as Hp. rewrite Hne in Hp.
  eapply resumes_app; [apply Hp; [|lia]|eapply resumes_app; [eapply ahead_passed; [exact Hi|done]|exact R]].
  by rewrite Hs, Z.eqb_refl, andb_false_r.
Qed.

(** What the scan comes to. *)
Variable contexts : Z.
Definition comes_to (r : Found) (info : list Z) (s : HandlerScan) (rest : list Z) (post : HandlerScan -> Prop) : Prop :=
  match r with
  | FHandle i lvar pops => ends info s rest (mret (Handle i lvar (contexts - pops)))
  | FRaised => ends info s rest (mret (A_EXCEPTION_RAISED oldContextIndex))
  | FNone pops => exists s', resumes info s rest s' /\ post s' /\ h_contextIndex s' = contexts - pops
  end.

Lemma comes_mono r info s rest (P Q : HandlerScan -> Prop) : comes_to r info s rest P -> (forall s', P s' -> Q s') -> comes_to r info s rest Q.
Proof using. intros H HPQ. destruct r; [exact H|exact H|]. destruct H as (s' & R & HP & C). exists s'. auto. Qed.

Lemma comes_behind r a b s s1 rest P : resumes a s (b ++ rest) s1 -> comes_to r b s1 rest P -> comes_to r (a ++ b) s rest P.
Proof using.
  intros Ha Hb. destruct r; cbn [comes_to] in *; [by eapply ends_app..|]. destruct Hb as (s' & R & HP & C). exists s'. split_and!; [by eapply resumes_app|done|done].
Qed.

Lemma comes_front r a b s rest P Q : comes_to r a s (b ++ rest) P ->
  (forall s1, P s1 -> exists s2, resumes b s1 rest s2 /\ Q s2 /\ h_contextIndex s2 = h_contextIndex s1) -> comes_to r (a ++ b) s rest Q.
Proof using.
  intros Ha Hb. destruct r; cbn [comes_to] in *; [by apply ends_front..|]. destruct Ha as (s1 & R & HP & C). destruct (Hb s1 HP) as (s2 & R2 & HQ & C2).
  exists s2. split_and!; [by eapply resumes_app|done|congruence].
Qed.

Local Abbreviation matches := (fun g => existsb (Z.eqb (type_of g)) supers).

(** The blocks of the statement whose body the instruction is in. *)
Lemma handled_comes h : forall stop d pops s rest, handlers_in stop h -> codeInd < first_index stop h -> 0 < h_depth s <= zlen (h_isDirect s) -> zlen (h_isDirect s) <= 100 ->
  h_skipDepth s <> h_depth s -> h_isDirect s !! Z.to_nat (h_depth s - 1) = Some d -> h_contextIndex s = contexts - pops ->
  comes_to (handled matches traceback d pops h) (handlers_words h) s rest (leaves s).
Proof using.
  induction h as [|lvar i g inner h IH|lvar i inner]; intros stop d pops s rest Hin Hc Hd Hlen Hskip Hdir Hctx; cbn [handled handlers_words first_index] in *.
  - eexists. split_and!; [apply end_passed|apply leaves_end; lia|done].
  - destruct Hin as (Hi & Hh & _). pose proof (proj1 in_le _ _ _ Hi) as L1.
    destruct (local_word_kind A_EXCEPT lvar ltac:(by left)) as (K1 & _ & _ & _ & K5). cbv zeta in K1, K5.
    set (s1 := if d then MkHandler (h_skipDepth s) (h_depth s) (h_contextIndex s - 1) (<[Z.to_nat (h_depth s - 1) := false]> (h_isDirect s)) else s).
    assert (C1 : h_contextIndex s1 = contexts - (pops + Z.b2z d)) by (subst s1; destruct d; simpl; lia).
    assert (Hstep : forall fuel tl, loop (S fuel) ([Z.lor A_EXCEPT (Z.shiftl lvar A_EXCEPT_CODE_SHIFT); i; g] ++ tl) s =
      if matches g then mret (Handle i lvar (contexts - (pops + Z.b2z d))) else loop fuel tl s1).
    { intros fuel tl. cbn [app AGetExceptionHandler_loop]. cbv zeta. rewrite K1, K5. change (A_EXCEPT =? A_EXCEPT) with true. cbn iota.
      rewrite (proj2 (Z.ltb_lt codeInd i) Hc), (proj2 (Z.eqb_neq _ _) (not_eq_sym Hskip)). cbn [negb andb].
      rewrite (get_direct_at s _ d) by (done || lia). rewrite <- C1. subst s1. destruct d; [|done]. by rewrite set_direct_at by lia. }
    assert (Hs1 : (h_depth s1 = h_depth s /\ h_skipDepth s1 = h_skipDepth s /\ zlen (h_isDirect s1) = zlen (h_isDirect s)) /\
      (forall j, (j < Z.to_nat (h_depth s - 1))%nat -> h_isDirect s1 !! j = h_isDirect s !! j) /\ h_isDirect s1 !! Z.to_nat (h_depth s - 1) = Some false).
    { subst s1. destruct d; [|done]. simpl. split_and!; [done|done|by rewrite length_insert| |].
      - intros j Hj. apply list_lookup_insert_ne. lia.
      - apply list_lookup_insert_eq. apply Nat2Z.inj_lt. rewrite Z2Nat.id by lia. fold (zlen (h_isDirect s)). lia. }
    destruct (matches g) eqn:Hg.
    + intros fuel Hf. rewrite <- app_assoc in *. destruct fuel as [|fuel]; [simpl in Hf; lia|]. by rewrite Hstep.
    + assert (Hr : resumes [Z.lor A_EXCEPT (Z.shiftl lvar A_EXCEPT_CODE_SHIFT); i; g] s ((tries_words inner ++ handlers_words h) ++ rest) s1).
      { intros fuel Hf. destruct fuel as [|fuel]; [simpl in Hf; lia|]. exists fuel. split; [simpl in Hf; lia|]. by rewrite Hstep. }
      eapply comes_behind; [exact Hr|]. eapply comes_behind; [eapply ahead_passed; [exact Hi|done]|].
      destruct Hs1 as [(S1 & S2 & S3) [S4 S5]]. eapply comes_mono; [apply (IH stop)|].
      1-7: rewrite ?S1, ?S2, ?S3; (done || lia).
      intros s' (B1 & B2 & B3 & B4). unfold leaves, unskipped in *. rewrite S1, S2, S3 in *. split_and!; [done..|]. intros j Hj. by rewrite B4, S4.
  - destruct (local_word_kind A_FINALLY lvar ltac:(by right)) as (K1 & K2 & K3 & K4 & K5). cbv zeta in *.
    assert (He : ends ([Z.lor A_FINALLY (Z.shiftl lvar A_EXCEPT_CODE_SHIFT); i] ++ tries_words inner ++ [A_END_TRY_BLOCK]) s rest
      (mret (if traceback then Handle i lvar (contexts - (pops + Z.b2z d)) else A_EXCEPTION_RAISED oldContextIndex))).
    { intros fuel Hf. destruct fuel as [|fuel]; [simpl in Hf; lia|]. cbn [app AGetExceptionHandler_loop]. cbv zeta.
      rewrite K1, K2, K3, K4. change (A_FINALLY =? A_EXCEPT) with false. change (A_FINALLY =? A_FINALLY) with true. cbn iota.
      rewrite (proj2 (Z.ltb_lt codeInd i) Hc). destruct traceback; cbn [negb]; [|done]. rewrite (get_direct_at s _ d) by (done || lia).
      unfold AGetFinallyLvar. rewrite K5. 
      trans (mret (Handle i lvar (if d then h_contextIndex s - 1 else h_contextIndex s)) : M HandlerResult); [done|]. destruct d; do 2 f_equal; simpl; lia. }
    destruct traceback; exact He.
Qed.

(** The scan finds what [find_handler] says. *)
Definition no_finally (h : handlers) : Prop := match h with HFinally _ _ _ => False | _ => True end.
Definition finds (t : tries) : Prop := forall within lo hi pops s rest, tries_in lo hi t -> scanning (tries_depth t) s ->
  (if within : bool then h_skipDepth s <> NO_SKIP else h_skipDepth s = NO_SKIP) -> h_contextIndex s = contexts - pops ->
  comes_to (find_handler matches traceback true within pops t codeInd) (tries_words t) s rest (same s).
Definition at_block (within d : bool) (h : handlers) (s : HandlerScan) : Prop :=
  if within then h_skipDepth s <> NO_SKIP /\ h_skipDepth s <> h_depth s /\ h_isDirect s !! Z.to_nat (h_depth s - 1) = Some d
  else h_skipDepth s = NO_SKIP \/ h_skipDepth s = h_depth s /\ no_finally h.
Definition finds_h (h : handlers) : Prop := forall within d stop pops s rest, handlers_in stop h -> first_index stop h <= codeInd < stop ->
  0 < h_depth s -> scanning (handlers_depth h) s -> at_block within d h s -> h_contextIndex s = contexts - pops ->
  comes_to (find_inner matches traceback true within d pops stop h codeInd) (handlers_words h) s rest (leaves s).

Lemma begins b d s n rest : 0 <= b < 2 ^ 28 -> b <= codeInd -> scanning (1 + n) s -> 0 <= n ->
  resumes [u32 (Z.shiftl b 2 + Z.shiftl (Z.b2z d) 1)] s rest (entered d s).
Proof using. intros Hb Hi (H1 & H2 & H3 & H4) Hn. apply begin_passed; [done|done|lia]. Qed.

Lemma entered_direct n d s s2 : scanning (1 + n) s -> 0 <= n -> same (entered d s) s2 -> h_isDirect s2 !! Z.to_nat (h_depth s2 - 1) = Some d.
Proof using.
  intros (P1 & P2 & _) Hn (S2a & S2b & S2c & S2d). assert (Ed : h_depth s2 - 1 = h_depth s) by (rewrite S2a; simpl; lia).
  rewrite Ed, S2d by (simpl; lia). simpl. apply list_lookup_insert_eq. lia.
Qed.

Lemma find_next b e d body h next lo hi : tries_in lo hi (TCons b e d body h next) -> e <= codeInd ->
  forall s rest, scanning (tries_depth (TCons b e d body h next)) s ->
  exists s', resumes ([u32 (Z.shiftl b 2 + Z.shiftl (Z.b2z d) 1)] ++ tries_words body ++ handlers_words h) s rest s' /\ same s s' /\ h_contextIndex s' = h_contextIndex s.
Proof using.
  intros (Hlo & Hb & Hin & Hh & Hn) He s rest Hs.
  destruct (proj1 passed (TCons b e d body h TNil) lo e s rest) as (s' & R & S & C).
  - split; [done|]. split; [done|]. split; [done|]. split; [done|]. simpl. lia.
  - done.
  - eapply scanning_less; [exact Hs|]. simpl. pose proof (proj1 tries_depth_nonneg next). lia.
  - exists s'. split_and!; [|done|done]. revert R. cbn [tries_words]. by rewrite app_nil_r.
Qed.

Lemma find_spec : (forall t, finds t) /\ (forall h, finds_h h).
Proof using.
  apply tries_handlers_ind; unfold finds, finds_h.
  - intros within lo hi pops s rest _ _ _ Hctx. exists s. split_and!; [apply resumes_nil|done|done].
  - intros b e d body IHb h IHh next IHn within lo hi pops s rest Hin0 Hs Hw Hctx. pose proof Hin0 as (Hlo & Hb & Hin & Hh & Hn).
    pose proof (proj1 in_le _ _ _ Hin) as L1. pose proof (proj2 in_le _ _ Hh) as L2. pose proof (proj1 in_le _ _ _ Hn) as L3.
    pose proof (proj1 tries_depth_nonneg body) as N1. pose proof (proj2 tries_depth_nonneg h) as N2.
    cbn [find_handler] in *. destruct (Z.ltb_spec codeInd b) as [Hcb|Hcb].
    { exists s. split_and!; [|done|done]. apply (ahead_passed _ b hi); [|done]. split; [lia|done]. }
    destruct (Z.leb_spec e codeInd) as [He|He].
    { destruct (find_next _ _ _ _ _ _ _ _ Hin0 He s (tries_words next ++ rest) Hs) as (s1 & R1 & S1 & C1).
      change (tries_words (TCons b e d body h next)) with ([u32 (Z.shiftl b 2 + Z.shiftl (Z.b2z d) 1)] ++ tries_words body ++ handlers_words h ++ tries_words next).
      rewrite !app_assoc, <- (app_assoc [_]). eapply comes_behind; [exact R1|].
      eapply comes_mono; [apply (IHn within e hi)|intros s' S'; by eapply same_trans].
      - done.
      - eapply same_scanning; [|exact S1]. eapply scanning_less; [exact Hs|]. simpl. lia.
      - by destruct S1 as (_ & -> & _).
      - congruence. }
    cbn [tries_depth] in Hs. set (n := Z.max (tries_depth body) (handlers_depth h)) in *.
    assert (Hs0 : scanning (1 + n) s) by (eapply scanning_less; [exact Hs|lia]). pose proof (entered_scanning _ d _ Hs0) as Hs1.
    assert (Hnext : forall s1, leaves (entered d s) s1 -> exists s2, resumes (tries_words next) s1 rest s2 /\ same s s2 /\ h_contextIndex s2 = h_contextIndex s1).
    { intros s1 Hl. exists s1. split_and!; [eapply ahead_passed; [exact Hn|done]|eapply (statement_same n); [done|lia|done]|done]. }
    change (tries_words (TCons b e d body h next)) with ([u32 (Z.shiftl b 2 + Z.shiftl (Z.b2z d) 1)] ++ tries_words body ++ handlers_words h ++ tries_words next).
    eapply comes_behind; [eapply (begins b d s n); (done || lia)|]. destruct (Z.ltb_spec codeInd (first_index e h)) as [Hf|Hf].
    + assert (Hbody := IHb within b (first_index e h) pops (entered d s) ((handlers_words h ++ tries_words next) ++ rest) Hin).
      assert (Hcb2 : comes_to (find_handler matches traceback true within pops body codeInd) (tries_words body) (entered d s) ((handlers_words h ++ tries_words next) ++ rest) (same (entered d s))).
      { apply Hbody; [eapply scanning_less; [exact Hs1|lia]|done|done]. }
      clear Hbody. destruct (find_handler matches traceback true within pops body codeInd) as [idx lv p| |p] eqn:Efb; [by apply ends_front..|].
      destruct Hcb2 as (s2 & R2 & S2 & C2). eapply comes_behind; [exact R2|]. pose proof S2 as (S2a & S2b & S2c & S2d).
      assert (Hd3 : 0 < h_depth s2 <= zlen (h_isDirect s2) /\ zlen (h_isDirect s2) <= 100 /\ h_skipDepth s2 <> h_depth s2).
      { rewrite S2a, S2b, S2c. pose proof Hs1 as (Q1 & Q2 & Q3 & _). pose proof Hs as (P1 & P2 & _ & P3). change NO_SKIP with 100000000 in P3. simpl in *. lia. }
      eapply comes_front; [apply (handled_comes h e)|].
      1-7: first [done|apply Hd3|idtac].
      * eapply (entered_direct n d s); (done || lia).
      * intros s3 S3. apply Hnext. by eapply same_leaves.
    + destruct (proj1 passed body b (first_index e h) (entered d s) ((handlers_words h ++ tries_words next) ++ rest) Hin Hf) as (s2 & R2 & S2 & C2).
      { eapply scanning_less; [exact Hs1|lia]. }
      eapply comes_behind; [exact R2|]. eapply comes_front; [apply (IHh within d e)|].
      * done.
      * done.
      * destruct S2 as (-> & _), Hs as (? & _). simpl. lia.
      * eapply same_scanning; [|exact S2]. eapply scanning_less; [exact Hs1|lia].
      * pose proof S2 as (S2a & S2b & _). pose proof Hs as (P1 & P2 & P4 & P3). destruct within; simpl; [|left; by rewrite S2b].
        rewrite S2a, S2b. simpl. split_and!; [done|change NO_SKIP with 100000000 in *; lia|].
        rewrite Z.add_simpl_r. replace (h_depth s) with (h_depth s2 - 1) by (rewrite S2a; simpl; lia). eapply (entered_direct n d s); (done || lia).
      * rewrite C2. exact Hctx.
      * intros s3 S3. apply Hnext. by eapply same_leaves.
  - intros within d stop pops s rest _ Hc. simpl in Hc. lia.
  - intros lvar i g inner IHi h IHh within d stop pops s rest Hin0 Hc Hd Hs Hw Hctx. pose proof Hin0 as (Hi & Hh & Hnf).
    pose proof (proj1 in_le _ _ _ Hi) as L1. pose proof (proj1 tries_depth_nonneg inner) as N1. pose proof (proj2 tries_depth_nonneg h) as N2.
    rewrite find_inner_except. cbn [handlers_words first_index handlers_depth] in *. destruct (skipping_scanning _ _ Hd Hs) as (Hs1 & C1 & D1).
    assert (Hp : forall rest, resumes [Z.lor A_EXCEPT (Z.shiftl lvar A_EXCEPT_CODE_SHIFT); i; g] s rest (skipping s)).
    { intros rest0. apply except_passed; [|destruct Hs as (? & ? & _); lia]. by destruct (Z.ltb_spec codeInd i) as [?|_]; [lia|]. }
    eapply comes_behind; [apply Hp|]. destruct (Z.ltb_spec codeInd (first_index stop h)) as [Hf|Hf].
    + assert (Hin2 : comes_to (find_handler matches traceback true true pops inner codeInd) (tries_words inner) (skipping s) (handlers_words h ++ rest) (same (skipping s))).
      { apply (IHi true _ _ pops _ _ Hi); [eapply scanning_less; [exact Hs1|lia]| |congruence].
        unfold skipping. destruct (Z.eqb_spec (h_skipDepth s) NO_SKIP); [|done]. simpl. destruct Hs as (? & ? & ? & _). change NO_SKIP with 100000000. lia. }
      destruct (find_handler matches traceback true true pops inner codeInd) as [idx lv p| |p]; [by apply ends_front..|].
      destruct Hin2 as (s2 & R2 & S2 & C2). eapply comes_behind; [exact R2|]. pose proof S2 as (S2a & S2b & S2c & S2d).
      assert (Hd2 : 0 < h_depth s2 <= zlen (h_isDirect s2) /\ zlen (h_isDirect s2) <= 100).
      { rewrite S2a, S2c. pose proof Hs1 as (Q1 & Q2 & Q3 & _). lia. }
      assert (Hleave : forall s3, leaves s2 s3 -> leaves s s3).
      { intros s3 S3. eapply skipping_leaves; [done|exact Hs|]. by eapply same_leaves. }
      destruct within; cbn [andb].
      * destruct Hw as (W1 & W2 & W3). assert (Es : skipping s = s) by (unfold skipping; by destruct (Z.eqb_spec (h_skipDepth s) NO_SKIP)).
        rewrite Es in *. eapply comes_mono; [apply (handled_comes h stop)|exact Hleave].
        1-7: first [done|apply Hd2|idtac].
        -- congruence.
        -- rewrite S2a, S2d by lia. exact W3.
      * destruct (later_blocks h stop s2 rest) as (s3 & R3 & S3 & C3); [done..|apply Hd2|apply Hd2| |].
        { rewrite S2a, S2b. unfold skipping. destruct (Z.eqb_spec (h_skipDepth s) NO_SKIP); [done|]. by destruct Hw as [?|[? _]]. }
        exists s3. split_and!; [done|by apply Hleave|congruence].
    + destruct (proj1 passed inner _ _ (skipping s) (handlers_words h ++ rest) Hi Hf) as (s2 & R2 & S2 & C2); [eapply scanning_less; [exact Hs1|lia]|].
      eapply comes_behind; [exact R2|]. pose proof S2 as (S2a & S2b & S2c & _). eapply comes_mono; [apply (IHh within d stop)|].
      * done.
      * lia.
      * lia.
      * eapply same_scanning; [|exact S2]. eapply scanning_less; [exact Hs1|lia].
      * destruct S2 as (_ & _ & _ & S2d). unfold skipping in *. destruct within; simpl in Hw |- *.
        -- destruct Hw as (W1 & W2 & W3). destruct (Z.eqb_spec (h_skipDepth s) NO_SKIP); [done|].
           split_and!; [congruence|congruence|]. rewrite S2a, S2d by lia. exact W3.
        -- right. split; [|by destruct h]. rewrite S2a, S2b. destruct (Z.eqb_spec (h_skipDepth s) NO_SKIP); [done|]. by destruct Hw as [?|[? _]].
      * congruence.
      * intros s3 S3. eapply skipping_leaves; [done|exact Hs|]. by eapply same_leaves.
  - intros lvar i inner IHi within d stop pops s rest Hi Hc Hd Hs Hw Hctx.
    cbn [find_inner handlers_words first_index handlers_in handlers_depth] in *.
    eapply comes_behind; [apply finally_passed; lia|]. eapply comes_front; [apply (IHi within _ _ pops _ _ Hi)|].
    + done.
    + destruct within; simpl in Hw; [apply Hw|by destruct Hw as [?|[_ []]]].
    + done.
    + intros s2 S2. eexists. split_and!; [apply end_passed| |done]. eapply same_leaves; [exact S2|]. apply leaves_end.
      destruct S2 as (-> & _), Hs as (? & ? & ? & _). pose proof (proj1 tries_depth_nonneg inner). lia.
Qed.
End finding.

(** ** Functions with try statements *)

(** The code of a function: words, and try statements with their except blocks
    or their finally block, as the parser compiles them. *)
Inductive code_tree :=
  | KNil
  | KCode (ws : list Z) (next : code_tree)
  | KTry (direct : bool) (body : code_tree) (h : code_blocks) (next : code_tree)
with code_blocks :=
  | KEnd
  | KExcept (lvar global : Z) (body : code_tree) (h : code_blocks)
  | KFinally (lvar : Z) (body : code_tree).

Scheme code_tree_ind2 := Induction for code_tree Sort Prop
  with code_blocks_ind2 := Induction for code_blocks Sort Prop.
Combined Scheme code_ind from code_tree_ind2, code_blocks_ind2.

(** The operations of the generator, and the words they emit. *)
Fixpoint code_ops (t : code_tree) : list gen_op :=
  match t with
  | KNil => []
  | KCode ws t => (GOp <$> ws) ++ code_ops t
  | KTry d body h t => GTryBegin d :: code_ops body ++ block_ops h ++ code_ops t
  end
with block_ops (h : code_blocks) : list gen_op :=
  match h with
  | KEnd => [GTryEnd]
  | KExcept lvar g body h => GExceptCase lvar g :: code_ops body ++ block_ops h
  | KFinally lvar body => GFinally lvar :: code_ops body ++ [GTryEnd]
  end.

Fixpoint code_words (t : code_tree) : list Z :=
  match t with
  | KNil => []
  | KCode ws t => ws ++ code_words t
  | KTry _ body h t => code_words body ++ block_words h ++ code_words t
  end
with block_words (h : code_blocks) : list Z :=
  match h with
  | KEnd => []
  | KExcept _ _ body h => code_words body ++ block_words h
  | KFinally _ body => code_words body
  end.

(** The try statements of code that starts at [n]. *)
Fixpoint tries_at (n : Z) (t : code_tree) : tries :=
  match t with
  | KNil => TNil
  | KCode ws t => tries_at (n + zlen ws) t
  | KTry d body h t =>
    let m := n + zlen (code_words body) in
    let e := m + zlen (block_words h) in
    TCons n e d (tries_at n body) (blocks_at m h) (tries_at e t)
  end
with blocks_at (m : Z) (h : code_blocks) : handlers :=
  match h with
  | KEnd => HEnd
  | KExcept lvar g body h => HExcept lvar m g (tries_at m body) (blocks_at (m + zlen (code_words body)) h)
  | KFinally lvar body => HFinally lvar m (tries_at m body)
  end.

(** A statement has except blocks or a finally block. *)
Fixpoint code_ok (t : code_tree) : Prop :=
  match t with
  | KNil => True
  | KCode _ t => code_ok t
  | KTry _ body h t => code_ok body /\ blocks_ok h /\ code_ok t
  end
with blocks_ok (h : code_blocks) : Prop :=
  match h with
  | KEnd => True
  | KExcept _ _ body h => code_ok body /\ blocks_ok h /\ match h with KFinally _ _ => False | _ => True end
  | KFinally _ body => code_ok body
  end.

Lemma tries_in_from t lo lo' hi : lo <= lo' -> tries_in lo' hi t -> tries_in lo hi t.
Proof. destruct t; simpl; intros; intuition lia. Qed.

Lemma first_index_at m h : first_index (m + zlen (block_words h)) (blocks_at m h) = m.
Proof. destruct h; simpl; [lia|done|done]. Qed.

Lemma tries_at_in :
  (forall t n, code_ok t -> 0 <= n -> n + zlen (code_words t) < 2 ^ 28 -> tries_in n (n + zlen (code_words t)) (tries_at n t)) /\
  (forall h m, blocks_ok h -> 0 <= m -> m + zlen (block_words h) < 2 ^ 28 -> handlers_in (m + zlen (block_words h)) (blocks_at m h)).
Proof.
  apply code_ind; cbn [code_ok blocks_ok code_words block_words tries_at blocks_at tries_in handlers_in].
  - intros n _ _ _. simpl. lia.
  - intros ws t IH n Hok Hn Hl. rewrite length_app, Nat2Z.inj_add, Z.add_assoc in *. apply (tries_in_from _ _ (n + zlen ws)); [lia|]. by apply IH; [|lia|].
  - intros d body IHb h IHh t IHt n (Hb & Hh & Ht) Hn Hl. rewrite !length_app, !Nat2Z.inj_add, !Z.add_assoc in *.
    rewrite first_index_at. split_and!; [lia..| | |].
    + apply IHb; (done || lia).
    + apply IHh; (done || lia).
    + apply IHt; (done || lia).
  - done.
  - intros lvar g body IHb h IHh m (Hb & Hh & Hnf) Hm Hl. rewrite length_app, Nat2Z.inj_add, Z.add_assoc in *.
    rewrite first_index_at. split_and!.
    + apply IHb; (done || lia).
    + apply IHh; (done || lia).
    + by destruct h.
  - intros lvar body IH m Hb Hm Hl. by apply IH.
Qed.

(** What the operations leave. *)
Definition emitted (ws es : list Z) (g : Gen) : Gen :=
  set_top (MkSec (sec_code (g_top g) ++ ws) (sec_except (g_top g) ++ es) (sec_debug (g_top g)) (sec_index (g_top g)) (sec_mark (g_top g)) (sec_line (g_top g))) g.

Lemma emitted_app ws es ws' es' g : emitted ws' es' (emitted ws es g) = emitted (ws ++ ws') (es ++ es') g.
Proof. unfold emitted, set_top. simpl. by rewrite <- !app_assoc. Qed.

Lemma emitted_nil g : emitted [] [] g = g.
Proof. unfold emitted, set_top. rewrite !app_nil_r. by destruct g as [[] ? ?]. Qed.

Lemma emitted_len ws es g n : zlen (sec_code (g_top g)) = n -> zlen (sec_code (g_top (emitted ws es g))) = n + zlen ws.
Proof. intros <-. simpl. rewrite length_app. lia. Qed.

Lemma gen_run_step o l g g' : gen_step o g = Some (g', None) -> gen_run (o :: l) g = gen_run l g'.
Proof. intros Ho. cbn [gen_run]. rewrite Ho. simpl. by destruct (gen_run l g') as [[? ?]|]. Qed.

Lemma gen_run_words ws l g : gen_run ((GOp <$> ws) ++ l) g = gen_run l (emitted ws [] g).
Proof.
  revert g. induction ws as [|w ws IH]; intros g; [by rewrite emitted_nil|].
  cbn [fmap list_fmap app]. rewrite (gen_run_step _ _ _ (emitted [w] [] g)); [by rewrite IH, emitted_app|].
  unfold emitted. rewrite app_nil_r. done.
Qed.

Lemma guarded_inner {A} (x : A) g : g_outer g <> [] -> guarded (negb (zlen (g_outer g) =? 0)) x = Some x.
Proof. by destruct (g_outer g). Qed.

Lemma gen_run_code :
  (forall t l g n, g_outer g <> [] -> zlen (sec_code (g_top g)) = n -> n + zlen (code_words t) < 2 ^ 28 ->
     gen_run (code_ops t ++ l) g = gen_run l (emitted (code_words t) (tries_words (tries_at n t)) g)) /\
  (forall h l g n, g_outer g <> [] -> zlen (sec_code (g_top g)) = n -> n + zlen (block_words h) < 2 ^ 28 ->
     gen_run (block_ops h ++ l) g = gen_run l (emitted (block_words h) (handlers_words (blocks_at n h)) g)).
Proof.
  apply code_ind; cbn [code_ops block_ops code_words block_words tries_at blocks_at tries_words handlers_words].
  - intros l g n _ _ _. by rewrite emitted_nil.
  - intros ws t IH l g n Hg Hn Hl. rewrite length_app in Hl. rewrite <- app_assoc, gen_run_words.
    rewrite (IH l (emitted ws [] g) (n + zlen ws)); [by rewrite emitted_app|done|by apply emitted_len|lia].
  - intros d body IHb h IHh t IHt l g n Hg Hn Hl. rewrite !length_app in Hl. rewrite <- app_comm_cons, <- !app_assoc.
    rewrite (gen_run_step _ _ _ (emitted [] [u32 (Z.shiftl n 2 + Z.shiftl (Z.b2z d) 1)] g)).
    2:{ cbn [gen_step]. cbv zeta. rewrite guarded_inner, Hn by done. unfold emitted. by rewrite app_nil_r. }
    rewrite (IHb _ _ n); [|done|by rewrite (emitted_len _ _ _ n) by done; simpl; lia|lia]. rewrite emitted_app.
    rewrite (IHh _ _ (n + zlen (code_words body))); [|done|by apply emitted_len|lia]. rewrite emitted_app.
    rewrite (IHt _ _ (n + zlen (code_words body) + zlen (block_words h))); [|done|rewrite (emitted_len _ _ _ n) by done; rewrite !length_app; simpl; lia|lia].
    rewrite emitted_app. f_equal. f_equal; by rewrite <- !app_assoc.
  - intros l g n Hg Hn _. cbn [app]. by rewrite (gen_run_step _ _ _ (emitted [] [A_END_TRY_BLOCK] g)) by (unfold emitted; by rewrite app_nil_r).
  - intros lvar gl body IHb h IHh l g n Hg Hn Hl. rewrite !length_app in Hl. rewrite <- app_comm_cons, <- !app_assoc.
    rewrite (gen_run_step _ _ _ (emitted [] [Z.lor A_EXCEPT (Z.shiftl lvar A_EXCEPT_CODE_SHIFT); n; gl] g)).
    2:{ cbn [gen_step]. cbv zeta. rewrite guarded_inner, Hn, u32_small by (done || lia). unfold emitted. by rewrite app_nil_r. }
    rewrite (IHb _ _ n); [|done|by rewrite (emitted_len _ _ _ n) by done; simpl; lia|lia]. rewrite emitted_app.
    rewrite (IHh _ _ (n + zlen (code_words body))); [|done|by apply emitted_len|lia]. rewrite emitted_app.
    done.
  - intros lvar body IHb l g n Hg Hn Hl. rewrite <- app_comm_cons, <- !app_assoc.
    rewrite (gen_run_step _ _ _ (emitted [] [Z.lor A_FINALLY (Z.shiftl lvar A_EXCEPT_CODE_SHIFT); n] g)).
    2:{ cbn [gen_step]. cbv zeta. rewrite guarded_inner, Hn, u32_small by (done || lia). unfold emitted. by rewrite app_nil_r. }
    rewrite (IHb _ _ n); [|done|by rewrite (emitted_len _ _ _ n) by done; simpl; lia|lia]. rewrite emitted_app. cbn [app].
    rewrite (gen_run_step _ _ _ (emitted [] [A_END_TRY_BLOCK] (emitted ([] ++ code_words body) ([Z.lor A_FINALLY (Z.shiftl lvar A_EXCEPT_CODE_SHIFT); n] ++ tries_words (tries_at n body)) g)))
      by (unfold emitted; by rewrite app_nil_r).
    by rewrite emitted_app, app_nil_r.
Qed.

(** The function with that code. *)
Definition function_ops (t : code_tree) (locals file minArgs maxArgs : Z) : list gen_op := GEnter :: code_ops t ++ [GLeave locals file minArgs maxArgs].

Lemma function_run t locals file minArgs maxArgs : zlen (code_words t) < 2 ^ 28 ->
  exists g', gen_run (function_ops t locals file minArgs maxArgs) no_code =
    Some (g', [(MkFunction minArgs maxArgs (locals * 8) (zlen (code_words t)) file (code_words t ++ tries_words (tries_at 0 t) ++ [A_LINE_NUMBER]), A_MAX_FRAME_DEPTH <=? locals)]).
Proof.
  intros Hl. eexists. unfold function_ops. erewrite gen_run_step by reflexivity. rewrite (proj1 gen_run_code t _ _ 0); [|done|done|lia]. reflexivity.
Qed.

(** What the caller of [AGetExceptionHandler] gets. *)
Definition outcome (contextIndex : Z) (r : Found) : HandlerResult :=
  match r with
  | FHandle index lvar pops => Handle index lvar (contextIndex - pops)
  | FRaised => A_EXCEPTION_RAISED contextIndex
  | FNone pops => A_PROPAGATE_TO_CALLER (contextIndex - pops)
  end.

Lemma scan_spec type_of supers traceback isDirect contextIndex code t debug hi minArgs maxArgs frame file codeInd :
  zlen isDirect = 100 -> tries_in 0 hi t -> tries_depth t <= 100 ->
  AGetExceptionHandler type_of supers traceback isDirect contextIndex
    (MkFunction minArgs maxArgs frame (zlen code) file (code ++ tries_words t ++ A_LINE_NUMBER :: debug)) codeInd =
  mret (outcome contextIndex (find_handler (fun g => existsb (Z.eqb (type_of g)) supers) traceback true false 0 t codeInd)).
Proof.
  intros Hd Ht Hdepth. unfold AGetExceptionHandler. cbn [f_codeLen f_code]. rewrite Nat2Z.id, drop_app_length.
  assert (Hf := proj1 (find_spec type_of supers traceback contextIndex codeInd contextIndex) t false 0 hi 0 (MkHandler NO_SKIP 0 contextIndex isDirect) (A_LINE_NUMBER :: debug)
    Ht ltac:(split_and!; simpl; (lia || by left)) eq_refl ltac:(simpl; lia)).
  destruct (find_handler _ traceback true false 0 t codeInd) as [i lvar p| |p]; [by apply Hf..|].
  destruct Hf as (s' & R & _ & C). destruct (R _ (le_n _)) as (f & Hf & ->). destruct f as [|f]; [simpl in Hf; lia|]. simpl in *. by rewrite C.
Qed.

(** C40: in the function that the generator makes of code with try statements,
    nested at most 100 deep in one another, [AGetExceptionHandler] reads
    the exception information of that function and nothing else, and it finds
    the first except block that takes the exception, or the first finally block,
    of the innermost statement whose body the instruction is in, with the
    contexts of direct try statements that are left on the way.  An exception
    in an except block passes over the other blocks of the statement, but the
    code remembers this of one statement only ([find_handler] with [retries]):
    it tries the later blocks of a statement that is itself within an except
    block of another.  If the instruction is not in such a place ([one_skip])
    the handler is the one that the nesting says. *)
Theorem exception_handler_correct type_of supers traceback isDirect contextIndex t locals file minArgs maxArgs codeInd :
  code_ok t -> zlen (code_words t) < 2 ^ 28 -> zlen isDirect = 100 -> tries_depth (tries_at 0 t) <= 100 ->
  let found retries := find_handler (fun g => existsb (Z.eqb (type_of g)) supers) traceback retries false 0 (tries_at 0 t) codeInd in
  returns (s ← AInitializeOutput; observe s (do_gens (function_ops t locals file minArgs maxArgs))) (fun fs =>
    exists f big, fs = [(f, big)] /\
    AGetExceptionHandler type_of supers traceback isDirect contextIndex f codeInd = mret (outcome contextIndex (found true))) /\
  (one_skip false (tries_at 0 t) codeInd -> found true = found false).
Proof.
  intros Hok Hl Hd Hdepth found. split; [|by apply one_skip_found].
  destruct (function_run t locals file minArgs maxArgs Hl) as [g' Hrun].
  eapply returns_bind; [apply AInitializeOutput_spec|]. intros s Hs. apply observe_returns.
  eapply sreturns_mono; [by eapply do_gens_spec|]. intros ? ? [-> _]. do 2 eexists. split; [reflexivity|].
  eapply scan_spec; [done|exact (proj1 tries_at_in t 0 Hok (Z.le_refl 0) Hl)|done].
Qed.

(** try (direct) { try { word; instruction 1 } finally { .. } } except class 7
    as local 3 { .. } except class 8 as local 3 { instruction 6 }. *)
Definition demo_tries : code_tree :=
  KTry true (KTry false (KCode [10; 11] KNil) (KFinally 5 (KCode [12] KNil)) (KCode [13] KNil))
    (KExcept 3 7 (KCode [14; 15] KNil) (KExcept 3 8 (KCode [16] KNil) KEnd)) (KCode [17] KNil).

(** try { 0 } except class 7 as local 3 {
      try { 1 } except class 9 as local 4 { instruction 2 } except class 8 as local 4 { 3 } }. *)
Definition demo_inner : code_tree :=
  KTry false (KCode [10] KNil)
    (KExcept 3 7 (KTry false (KCode [11] KNil) (KExcept 4 9 (KCode [12] KNil) (KExcept 4 8 (KCode [13] KNil) KEnd)) KNil) KEnd) KNil.

Lemma exception_handler_correct_witness :
  returns (s ← AInitializeOutput; observe s (do_gens (function_ops demo_tries 6 1 0 0))) (fun fs =>
    exists f big, fs = [(f, big)] /\
    AGetExceptionHandler id [20; 8; 0] true (replicate 100 false) 4 f 3 = mret (Handle 6 3 3)) /\
  returns (s ← AInitializeOutput; observe s (do_gens (function_ops demo_inner 6 1 0 0))) (fun fs =>
    exists f big, fs = [(f, big)] /\
    AGetExceptionHandler id [8; 0] true (replicate 100 false) 4 f 2 = mret (Handle 3 4 4)) /\
  find_handler (fun g => existsb (Z.eqb g) [8; 0]) true false false 0 (tries_at 0 demo_inner) 2 = FNone 0.
Proof.
  split_and!; [| |reflexivity].
  - exact (proj1 (exception_handler_correct id [20; 8; 0] true (replicate 100 false) 4 demo_tries 6 1 0 0 3
      ltac:(simpl; tauto) ltac:(vm_compute; reflexivity) ltac:(vm_compute; reflexivity) ltac:(vm_compute; discriminate))).
  - exact (proj1 (exception_handler_correct id [8; 0] true (replicate 100 false) 4 demo_inner 6 1 0 0 2
      ltac:(simpl; tauto) ltac:(vm_compute; reflexivity) ltac:(vm_compute; reflexivity) ltac:(vm_compute; discriminate))).
Defined.
